(* ===== verification/_CoqProject ===== *)
-Q . S2P
Prelude.v
Time.v
Ids.v
Frame.v
Inbound.v
AntiThrash.v
Backoff.v
Trackers.v
MemoryLimit.v
ReceiverQueue.v
Txn.v
Lookup.v
BatchAck.v
Compress.v
Producer.v
ProducerSpec.v
ProducerQueue.v
ProducerReplay.v
ProducerChunks.v
BatchBody.v
Consumer.v
ConsumerFlow.v
ConsumerChunks.v
ConsumerBatch.v
ConsumerTimers.v
EndToEnd.v
ConnModel.v
ConnOps.v
ConnFrames.v
ConnSpec.v
ConnOrder.v
ConnSends.v
ConnTimers.v
ConnWaiters.v
SegmentTopic.v
Assignment.v
AssignmentSession.v
DagWatch.v
DagOrder.v
DagRanges.v
DagSession.v
ScalableConn.v
ScalableConnSpec.v
OrdinaryId.v
StreamPosition.v
ReceiverBudget.v
AggregateTxn.v
StreamModel.v
StreamOps.v
StreamReceive.v
StreamAcks.v
StreamEntries.v
StreamLedger.v
StreamInv.v
StreamEmits.v
StreamKeeps.v
StreamSpec.v
StreamOnce.v
StreamGrants.v
StreamEntriesSpec.v
StreamEntriesPaid.v
ProducerCases.v
ConnCases.v
ConsumerCases.v
ScalableCases.v
StreamCases.v
StreamRuns.v
StreamEntriesRuns.v
