(* ===== verification/Prelude.v ===== *)
(** * A verification library for the Pulsar client of magnetar

    magnetar is an Apache Pulsar client whose protocol logic lives in one crate,
    [crates/magnetar-proto], written "sans-io": its state machines read no clock
    and no socket; the engines ([magnetar-runtime-tokio],
    [magnetar-runtime-moonpool]) hand them bytes and instants and carry out what
    they return.  This library models that core in Rocq and proves what makes it
    correct.  Every definition that models code is executable.

    ** How the parts interact

    The engine feeds received bytes to [Connection::handle_bytes], which carves
    frames off the buffer with the frame codec and dispatches each command to
    the component that owns the request.  A send enters its producer's slot
    ([ProducerSlot::queue_send_reserved]), holding a reservation of the
    client-wide memory budget; the producer stages frames, which the connection
    drains when the broker has acknowledged the attachment; receipts, errors,
    timeouts, resets and re-attachments come back through the connection, which
    also keeps the handshake, the keep-alive, the table of requests with the
    outcomes and wakers of those who wait, and the timers.
    A consumer grants the broker permits, is charged one per message received,
    reassembles chunks, unpacks batches, keeps the memory of what it buffers
    reserved, and refills its window as the application drains the queue; it
    counts what is acknowledged inside a batch and groups acknowledgements in
    the trackers.  For a scalable topic the connection keeps a watch session
    over the layout of its key-range segments and a registration whose
    controller assigns segments to the consumer; both turn broker updates into
    events.  A stream consumer reads such a topic as one: its aggregate model
    opens a child per assigned segment, holds all of them to one receive budget
    and to the order of the segments, and hands out deliveries whose tokens it
    checks when they are acknowledged.  Lookups and transactions are request tables answered by the
    dispatcher.  Backoff, the supervisor policy and the anti-thrash detector
    decide when to retry.

    ** Files

    [Prelude]        result monad, record updates, machine integers, byte
                     strings, protobuf interface, ordered containers, list lemmas
    [Time]           [time.rs]: instants, durations, [deadline_with_clamp]
    [Ids]            [types.rs]: message ids, key ranges, segment descriptors,
                     codec kinds, with their wire forms
    [Frame]          [frame.rs]: encoders, [peek_full_frame_len], [decode_one]
    [Inbound]        [conn.rs]: [handle_bytes], [handle_bytes_owned] and the
                     decode loop
    [AntiThrash]     [anti_thrash.rs]
    [Backoff]        [backoff.rs], [supervisor.rs], [operation_retry.rs]
    [Trackers]       [trackers/ack.rs], [nack.rs], [unacked.rs], a module each
    [MemoryLimit]    [memory_limit.rs]: the methods, and the step relation of
                     their atomic accesses between any number of callers
    [ReceiverQueue]  [receiver_queue.rs]: the policy trait and its two instances
    [Txn]            [txn.rs]: the four request tables and the records
    [Lookup]         [lookup.rs] and its callers in [conn.rs]
    [BatchAck]       [consumer.rs]: [BatchAckEntry], the bitset of a batch
    [Compress]       [compress.rs] over the codec crates
    [Producer]       [producer.rs] and the producer arms of [conn.rs]: data and
                     operations
    [ProducerSpec]   the executions of one producer and their order invariant
    [ProducerQueue]  pending index, receipts, reservations, order, sends
    [ProducerReplay] what a re-attachment stages again
    [ProducerChunks] chunked messages
    [BatchBody]      [consumer.rs]: [unpack_batch_members], against the producer
    [Consumer]       [consumer.rs] and the consumer arms of [conn.rs]: data and
                     operations
    [ConsumerFlow]   permits: the executions of one consumer, charging, the
                     broker's own count beside the client's, refill
    [ConsumerChunks] the chunk buffers and their bounds
    [ConsumerBatch]  delivery of a batched entry
    [ConsumerTimers] expiry sweep and stall watchdog
    [EndToEnd]       producer's batches and chunks through the consumer
    [ConnModel]      [conn.rs], [conn_types.rs], [event.rs]: the data of the
                     connection, as far as handshake, requests and producers go
    [ConnOps]        its methods: handshake and session, requests and wakers,
                     producers opened, closed, abandoned, re-attached, rebuilt;
                     [reset], [fail_all_pending]; the transmit side; sends
    [ConnFrames]     the arms of [handle_frame], the event queue, and of
                     [poll_timeout] and [handle_timeout] the keep-alive, the
                     opens, and the sends and batches of producers
    [ConnSpec]       the calls of an engine, the reachable connections, and
                     those of an engine that re-opens only detached producers
    [ConnOrder]      the history of a connection: attachments, frames sent
    [ConnSends]      executions: order of the wire, frames follow attachment
    [ConnTimers]     executions: the watchdog, the deadlines after a tick
    [ConnWaiters]    the end of a session and of the client wakes everybody
    [SegmentTopic]   [scalable_consumer.rs]: canonical [segment://] names
    [Assignment]     [scalable_consumer.rs]: assignments, the registration
                     session, the topics watch
    [AssignmentSession]  deltas and the buffering of early updates
    [DagWatch]       [dag_watch.rs]: layouts, their validation, ordering
                     eligibility, the watch session
    [DagOrder]       Kahn's loop and the ancestor walk against graph reachability
    [DagRanges]      range coverage and its contiguity checks
    [DagSession]     accepted layouts, the ordering barrier, the watch session
    [ScalableConn]   the scalable-topic operations and arms of [conn.rs]
    [ScalableConnSpec]   their executions, as an engine observes them
    [OrdinaryId]     [types.rs], [stream_position.rs]: canonical message ids and a
                     reference reader of their protobuf encoding
    [StreamPosition] [stream_position.rs]: the [MSTR] envelope and position vectors
    [ReceiverBudget] [stream_consumer.rs]: the ledger of the receive budget
    [AggregateTxn]   [stream_consumer.rs]: the transaction gate
    [StreamModel]    [stream_consumer.rs]: the data of [StreamConsumerModel], the
                     state-and-error monad of its methods, its private steps
    [StreamOps]      assignments, control plane, fencing, seek, life of a child
    [StreamReceive]  receive work, arrivals, deliveries
    [StreamAcks]     tokens, admission and settlement of acknowledgements
    [StreamEntries]  raw entries: chunk chains, decompression, expansion of
                     batches, the queue of messages and what they cost
    [StreamLedger]   weakest preconditions, and the ledger of the reservations
    [StreamInv]      the invariant, and what arbitration does
    [StreamEmits]    what a method emits
    [StreamKeeps]    each method keeps the invariant
    [StreamSpec]     executions: ledger, closing, discarded entries
    [StreamOnce]     executions: tokens and authorities are used once
    [StreamGrants]   executions: permits follow the order; arbitration is complete
    [StreamEntriesSpec]  assembly of chunk chains, expansion against [BatchBody]
    [StreamEntriesPaid]  the methods on entries are calls of the model; whatever
                     is buffered is paid for in the receive budget
    [ProducerCases], [ConnCases], [ConsumerCases], [ScalableCases],
    [StreamCases], [StreamRuns], [StreamEntriesRuns]
                     concrete parameters, sample executions, counterexamples

    ** Correspondence

    A struct is a record with the source's fields, an enum an inductive type, a
    method a function from the state to its result and the new state; [?] is the
    bind of [result] or [option].  Unsigned integers are [Z] with the wrapping,
    saturating or checked operation the source names; [usize] has 64 bits;
    instants and durations are nanoseconds.  [Bytes] are lists of bytes,
    [HashMap] and [BTreeMap] are [gmap], iterated in key order where the order
    shows.  Wakers are numbers; "waking" returns them.  A lock held through a
    method makes it one step; in [MemoryLimit], whose methods are lock-free, each
    atomic access is a step of its own.

    ** What the theorems show

    Frames: decoding is sound (length, checksum), inverse to encoding, agrees
    with the length peek; the vectored and the contiguous encoder agree.
    Inbound: the split of the byte stream into reads is invisible; a stream of
    frames is dispatched frame by frame.  Producer: the wire, the staged frames,
    the pending sends and the open batch stay in sequence-id order through
    resets and replays; a receipt resolves exactly its range; reservations are
    conserved; a send is accounted for; wakers reach their send; a re-attachment
    stages every unbatched send again, whole and once, and nothing of a flushed
    batch; chunks and batches are lossless.  Connection: through any interleaving
    of calls, frames and ticks the frames of a producer leave in order and, if
    the engine re-opens only detached producers, only while the broker has
    acknowledged its last open; a silent peer is found out and an answering one
    is not; a tick leaves no deadline of the keep-alive, the sends, the batches
    or the opens in the past; the end of a session, or of the client, wakes and
    settles whoever waits.  Consumer, with a receiver queue of fixed size: the
    permits the broker holds, those it spent on refused frames, the queue and the
    refill counter account for every grant; each outcome of a delivery is
    charged once; a drained queue asks for more.  Chunk buffers are bounded in
    number, in chunks and, but for the first chunk of each message, in bytes, and
    expire exactly at their deadline.  End to end: the batches and the
    chunks a producer emits come out of a consumer as the messages sent.
    Scalable topics: a layout is accepted only if it is acyclic, reciprocal,
    within its limits and covers the hash range exactly once; Kahn's loop finds
    an order exactly when there is one; the ordering barrier opens when the
    ancestors are drained; replaying the watch's deltas, or the assignment
    events, gives an engine the broker's view; early updates are buffered
    without a visible difference; leaving unsubscribes once.  Stream consumer: a
    byte string decodes to a position exactly when it is the encoding of that
    position, and a position vector survives being saved; the receive budget
    keeps its headroom and every reservation its owner and size through any
    sequence of operations; a transaction is decided once; after any calls the
    budget is what the children, the deliveries and the positions hold, and a
    child's counter differs from its reservations exactly by what was discarded
    or counted by hand; permits follow the order of the segments and none that
    would fit is withheld, a delivery is resolved and an acknowledgement settled
    once, a confirmed cumulative admission alone may be repeated, fencing is final,
    and closing ends with nothing held; chunk chains are assembled only when
    complete and in order, batches expand as the ordinary consumer splits them,
    and every buffered byte is covered by a reservation.  Memory: the budget is
    exact and no waiter is forgotten under any interleaving.  Trackers, batch
    bitset, transactions, lookups: nothing acknowledged, recorded or requested is
    lost or invented, and deadlines fire.  Backoff, receiver queue, anti-thrash,
    compression: the bounds they promise.  Some theorems exhibit behaviour the
    code does not intend: [auto_growth_wedges], [markers_exhaust_permits],
    [sweep_misdirects_waker], [refused_chunks_wedge],
    [reattach_replays_exactly] (a flushed batch is not replayed),
    [acked_message_redelivered], [auto_floor_above_ceiling_panics],
    [discard_blocks_completion], [chunk_cut_off], [closed_batch_spins],
    [challenge_spins], [disconnect_forgets_close], [close_overtakes_send],
    [connected_before_connected]; others a
    comment that promises something else: [inflated_budget_unbounded],
    [merge_reported_as_split], [close_reports], [rejected_registration_kept],
    [reclaimed_under_same_epoch].

    ** Fuel and bounds

    The decode loop is given the length of its buffer plus one, the drain loop of
    a producer the length of its queue plus one, Kahn's loop one step per segment
    plus one, the ancestor walk one per parent reference plus one: each iteration
    removes at least one element, and the lemmas show the fuel is not exhausted.
    A varint is read with ten groups, the most [prost] accepts.
    Sequence ids and producer ids are assumed not to reach 2^64.

    ** Parameters

    The generated protobuf types and [prost] ([ProtoMessage], with [ProtoLaws]
    where decoding must invert encoding; the encoded size of a layout), CRC-32C,
    the codec crates ([Codecs], [CodecLaws]), [slab] ([Slab], [SlabLaws]),
    [hdrhistogram], random numbers and UUIDs, the names of the broker's error
    codes; struct sizes and [Vec] capacities ([Allocation]); the protobuf form of a message id
    in a position ([OrdinaryIdProto], with the reference reader as instance).  The receiver-queue policy and the
    waker table of a consumer are classes too ([ReceiverQueuePolicy],
    [WakerSlab]).  Each class has a concrete instance in the file that needs one.

    ** Not modelled

    The engines, the facade, the admin and command-line crates and the
    authentication and encryption plugins (input/output and third-party code);
    fault injection and logging; the stats with floating-point rates.  Of the
    connection: the attachment, closing and deadlines of consumers, the lookups
    [reset] and [fail_all_pending] strand, acknowledgement timeouts.  Not begun: the
    topic-list watcher, health probes, cluster failover, service URLs, schemas. *)

From stdpp Require Export base decidable numbers list gmap strings sorting.
From coqutil Require Import Byte Word.LittleEndianList.
From coqutil Require Export Byte.
From Stdlib Require Export ZArith Lia.

#[global] Open Scope Z_scope.

(** * Record updates

    The state machines of the crate are structs whose methods assign a few
    fields; [s <| f := v |>] is the struct with the field [f] replaced.  A
    record becomes updatable by an [Eta] instance listing its projections. *)

Class Eta (R : Type) := eta : R -> R.
Class FieldUpdate {R E : Type} (get : R -> E) := update : (E -> E) -> R -> R.
#[global] Arguments update {R E} get {_} f r : simpl nomatch.

Ltac derive_update :=
  lazymatch goal with
  | |- @FieldUpdate ?R ?E ?get =>
    let i := constr:(_ : Eta R) in
    let e := eval hnf in i in
    lazymatch eval pattern get in e with
    | ?F _ =>
      let u := eval cbv beta in (fun (f : E -> E) => F (fun r => f (get r))) in
      exact u
    end
  end.

#[global] Hint Extern 1 (FieldUpdate _) => derive_update : typeclass_instances.

Declare Scope magnetar_scope.
#[global] Open Scope magnetar_scope.

Notation "s <| p := v |>" := (update p (fun _ => v) s)
  (at level 1, left associativity, p at level 9, v at level 200,
   format "s  <| p  :=  v |>") : magnetar_scope.
Notation "s <| p ::= f |>" := (update p f s)
  (at level 1, left associativity, p at level 9, f at level 200,
   format "s  <| p  ::=  f |>") : magnetar_scope.

(** * Results

    [Result<A, E>] of the source; [Err] carries the error value. *)

Inductive result (E A : Type) : Type :=
| Ok (a : A)
| Err (e : E).
Arguments Ok {E A} a.
Arguments Err {E A} e.

#[global] Instance result_ret {E} : MRet (result E) := fun A a => Ok a.
#[global] Instance result_bind {E} : MBind (result E) :=
  fun A B f m => match m with Ok a => f a | Err e => Err e end.
#[global] Instance result_fmap {E} : FMap (result E) :=
  fun A B f m => match m with Ok a => Ok (f a) | Err e => Err e end.

Definition map_err {E F A} (f : E -> F) (m : result E A) : result F A :=
  match m with Ok a => Ok a | Err e => Err (f e) end.

Definition ok_or {E A} (o : option A) (e : E) : result E A :=
  match o with Some a => Ok a | None => Err e end.

(** [if c then return Err e] *)
Definition guard_err {E} (bad : bool) (e : E) : result E unit :=
  if bad then Err e else Ok tt.

Definition is_ok {E A} (m : result E A) : bool :=
  match m with Ok _ => true | Err _ => false end.

#[global] Instance Ok_inj {E A} : Inj (=) (=) (@Ok E A).
Proof. by intros ?? [=]. Qed.

Lemma bind_ok_inv {E A B} (m : result E A) (f : A -> result E B) b :
  (m ≫= f) = Ok b -> exists a, m = Ok a /\ f a = Ok b.
Proof. destruct m; simpl; [eauto | discriminate]. Qed.

Lemma bind_err_inv {E A B} (m : result E A) (f : A -> result E B) e :
  (m ≫= f) = Err e -> m = Err e \/ exists a, m = Ok a /\ f a = Err e.
Proof. destruct m; simpl; [eauto | intros [= ->]; auto]. Qed.

Lemma map_err_ok_inv {E F A} (f : E -> F) (m : result E A) a :
  map_err f m = Ok a -> m = Ok a.
Proof. destruct m; simpl; congruence. Qed.

Lemma ok_or_ok_inv {E A} (o : option A) (e : E) a :
  ok_or o e = Ok a -> o = Some a.
Proof. destruct o; simpl; congruence. Qed.

Lemma guard_err_ok_inv {E} bad (e : E) u : guard_err bad e = Ok u -> bad = false.
Proof. by destruct bad. Qed.

(** Turns every [_ = Ok _] hypothesis built from the combinators above into the
    facts it stands for. *)
Ltac inv_ok :=
  repeat match goal with
  | H : Ok _ = Ok _ |- _ =>
      injection H as H;
      try match type of H with ?a = ?b => first [subst b | subst a] end
  | H : Err _ = Ok _ |- _ => discriminate H
  | H : Ok _ = Err _ |- _ => discriminate H
  | H : mret _ = Ok _ |- _ => unfold mret, result_ret in H
  | H : (_ ≫= _) = Ok _ |- _ =>
      apply bind_ok_inv in H;
      let a := fresh "r" in let Ha := fresh "Hr" in destruct H as (a & Ha & H)
  | H : map_err _ _ = Ok _ |- _ => apply map_err_ok_inv in H
  | H : ok_or _ _ = Ok _ |- _ => apply ok_or_ok_inv in H
  | H : guard_err _ _ = Ok _ |- _ => apply guard_err_ok_inv in H
  end.

(** Case analysis on the first condition of the goal. *)
Tactic Notation "destruct_if" simple_intropattern(E) :=
  match goal with |- context [if ?b then _ else _] => destruct b eqn:E end.
Tactic Notation "destruct_if" := destruct_if ?.

(** * Machine integers

    A [w]-bit unsigned integer is a [Z] in [0 .. 2^w).  The wrapping,
    saturating and checked operations of the standard library are written out
    on that representation; [usize] is 64 bits wide. *)

Definition u16_max : Z := 2 ^ 16 - 1.
Definition u32_max : Z := 2 ^ 32 - 1.
Definition u64_max : Z := 2 ^ 64 - 1.
Definition usize_max : Z := u64_max.
Definition i32_max : Z := 2 ^ 31 - 1.
Definition i64_max : Z := 2 ^ 63 - 1.

Definition u32_ok (z : Z) : Prop := 0 <= z <= u32_max.
Definition u64_ok (z : Z) : Prop := 0 <= z <= u64_max.

Definition wrapping_add (w a b : Z) : Z := (a + b) mod 2 ^ w.
Definition wrapping_mul (w a b : Z) : Z := (a * b) mod 2 ^ w.
Definition saturating_add (m a b : Z) : Z := Z.min m (a + b).
Definition saturating_mul (m a b : Z) : Z := Z.min m (a * b).
Definition saturating_sub (a b : Z) : Z := Z.max 0 (a - b).
Definition checked_add (m a b : Z) : option Z :=
  if a + b <=? m then Some (a + b) else None.

(** [x as i64], [x as u64] and [x as i32] between two's-complement widths *)
Definition as_signed (w z : Z) : Z :=
  let m := z mod 2 ^ w in if m <? 2 ^ (w - 1) then m else m - 2 ^ w.
Definition as_unsigned (w z : Z) : Z := z mod 2 ^ w.

(** [u32::try_from], [i32::try_from] on a non-negative [usize] *)
Definition try_from_max (m z : Z) : option Z := if z <=? m then Some z else None.

Lemma checked_add_small m a b : a + b <= m -> checked_add m a b = Some (a + b).
Proof. intros. unfold checked_add. by rewrite (proj2 (Z.leb_le _ _)). Qed.

Lemma checked_add_Some m a b c : checked_add m a b = Some c <-> c = a + b /\ c <= m.
Proof. unfold checked_add. case_match; split; intros; simplify_eq; [lia|f_equal; lia|lia]. Qed.

Lemma try_from_max_Some m z c : try_from_max m z = Some c <-> c = z /\ z <= m.
Proof. unfold try_from_max. case_match; split; intros; simplify_eq; [lia|f_equal; lia|lia]. Qed.

Lemma as_signed_unsigned (w z : Z) :
  0 < w -> 0 <= z < 2 ^ w -> as_unsigned w (as_signed w z) = z.
Proof.
  intros Hw Hz. unfold as_signed, as_unsigned.
  rewrite (Z.mod_small z) by lia. case_match; [by apply Z.mod_small|].
  replace (z - 2 ^ w) with (z + (-1) * 2 ^ w) by lia.
  rewrite Z.mod_add by lia. by apply Z.mod_small.
Qed.

Lemma as_signed_small (w z : Z) : 0 < w -> 0 <= z < 2 ^ (w - 1) -> as_signed w z = z.
Proof.
  intros Hw Hz. unfold as_signed.
  assert (H2 : 2 ^ w = 2 * 2 ^ (w - 1)).
  { replace w with (Z.succ (w - 1)) at 1 by lia. rewrite Z.pow_succ_r; lia. }
  rewrite Z.mod_small by lia. case_match; lia.
Qed.

Lemma as_unsigned_signed (w z : Z) :
  0 < w -> - 2 ^ (w - 1) <= z < 2 ^ (w - 1) -> as_signed w (as_unsigned w z) = z.
Proof.
  intros Hw Hz. unfold as_signed, as_unsigned.
  assert (H2 : 2 ^ w = 2 * 2 ^ (w - 1)).
  { replace w with (Z.succ (w - 1)) at 1 by lia. rewrite Z.pow_succ_r; lia. }
  rewrite Z.mod_mod by lia.
  destruct (decide (0 <= z)).
  - rewrite Z.mod_small by lia. case_match; lia.
  - replace z with (z + 2 ^ w + (-1) * 2 ^ w) by lia.
    rewrite Z.mod_add, Z.mod_small by lia. case_match; lia.
Qed.

(** * Bytes

    [Bytes], [BytesMut], [Vec<u8>] and [&[u8]] are lists of bytes.  The
    big-endian accessors of [BufMut] / [Buf] ([put_u32], [get_u32],
    [to_be_bytes], [from_be_bytes]) are [be_bytes] and [be_val]. *)

Abbreviation bytes := (list byte).

#[global] Instance byte_eq_dec : EqDecision byte := Stdlib.Strings.Byte.byte_eq_dec.

Definition be_bytes (n : nat) (z : Z) : bytes := reverse (le_split n z).
Definition be_val (bs : bytes) : Z := le_combine (reverse bs).
#[global] Arguments be_bytes : simpl never.
#[global] Arguments be_val : simpl never.

(** Length of a byte list as the [usize] the source compares. *)
Definition blen {A} (l : list A) : Z := Z.of_nat (length l).

Lemma length_be_bytes n z : length (be_bytes n z) = n.
Proof. unfold be_bytes. by rewrite length_reverse, length_le_split. Qed.

Lemma be_val_be_bytes n z : be_val (be_bytes n z) = z mod 2 ^ (Z.of_nat n * 8).
Proof. unfold be_val, be_bytes. by rewrite reverse_involutive, le_combine_split. Qed.

Lemma be_val_be_bytes_small n z :
  0 <= z < 2 ^ (Z.of_nat n * 8) -> be_val (be_bytes n z) = z.
Proof. intros. rewrite be_val_be_bytes. by apply Z.mod_small. Qed.

Lemma be_bytes_be_val bs : be_bytes (length bs) (be_val bs) = bs.
Proof.
  unfold be_val, be_bytes.
  rewrite <- (length_reverse bs), split_le_combine. apply reverse_involutive.
Qed.

Lemma be_bytes_be_val_len n bs : length bs = n -> be_bytes n (be_val bs) = bs.
Proof. intros <-. apply be_bytes_be_val. Qed.

Lemma be_val_bound bs : 0 <= be_val bs < 2 ^ (8 * Z.of_nat (length bs)).
Proof. unfold be_val. rewrite <- (length_reverse bs). apply le_combine_bound. Qed.

Lemma be_bytes_1 z : be_bytes 1 z = [byte.of_Z z].
Proof. done. Qed.

#[global] Opaque be_bytes be_val.

Lemma blen_app {A} (l k : list A) : blen (l ++ k) = blen l + blen k.
Proof. unfold blen. rewrite length_app. lia. Qed.

Lemma blen_be_bytes n z : blen (be_bytes n z) = Z.of_nat n.
Proof. unfold blen. by rewrite length_be_bytes. Qed.

Lemma blen_nonneg {A} (l : list A) : 0 <= blen l.
Proof. unfold blen. lia. Qed.

Lemma blen_cons {A} (x : A) l : blen (x :: l) = 1 + blen l.
Proof. unfold blen. simpl. lia. Qed.

Lemma blen_nil {A} : blen (@nil A) = 0.
Proof. done. Qed.

(** [buf.split_to(n)] and the slices [&b[..n]], [&b[n..]]. *)
Definition btake (n : Z) (b : bytes) : bytes := take (Z.to_nat n) b.
Definition bdrop (n : Z) (b : bytes) : bytes := drop (Z.to_nat n) b.
#[global] Arguments btake : simpl never.
#[global] Arguments bdrop : simpl never.
#[global] Arguments blen : simpl never.

Lemma btake_app n (a b : bytes) : blen a = n -> btake n (a ++ b) = a.
Proof. unfold btake, blen. intros <-. rewrite Nat2Z.id. apply take_app_length. Qed.

Lemma bdrop_app n (a b : bytes) : blen a = n -> bdrop n (a ++ b) = b.
Proof. unfold bdrop, blen. intros <-. rewrite Nat2Z.id. apply drop_app_length. Qed.

Lemma btake_bdrop n (b : bytes) : btake n b ++ bdrop n b = b.
Proof. apply take_drop. Qed.

Lemma blen_btake n (b : bytes) : 0 <= n <= blen b -> blen (btake n b) = n.
Proof. unfold blen, btake. intros. rewrite length_take. lia. Qed.

Lemma blen_bdrop n (b : bytes) : 0 <= n <= blen b -> blen (bdrop n b) = blen b - n.
Proof. unfold blen, bdrop. intros. rewrite length_drop. lia. Qed.

(** * Protobuf

    The generated message types and [prost] are third-party: a message type is
    a parameter with this interface. *)

(** [prost::Message]: [encode] into a growing buffer appends [pb_encode m], and
    [encoded_len] is its length. *)
Class ProtoMessage (M : Type) := {
  pb_encode : M -> bytes;
  pb_decode : bytes -> option M;
}.

Class ProtoLaws (M : Type) `{ProtoMessage M} :=
  pb_decode_encode : forall m : M, pb_decode (pb_encode m) = Some m.

Definition encoded_len {M} `{ProtoMessage M} (m : M) : Z := blen (pb_encode m).

(** * Ordered containers

    [BTreeMap] and [BTreeSet] are finite maps and sets whose iteration follows
    the key order; the derived [Ord] of a struct is lexicographic in its
    fields, and so is the order of byte strings. *)

Fixpoint lexb (a b : list Z) : bool :=
  match a, b with
  | [], _ => true
  | _ :: _, [] => false
  | x :: a', y :: b' => if x <? y then true else if x =? y then lexb a' b' else false
  end.

Definition lex_le (a b : list Z) : Prop := lexb a b = true.

#[global] Instance lex_le_dec a b : Decision (lex_le a b) := decide (lexb a b = true).

Lemma lexb_refl a : lexb a a = true.
Proof. induction a as [|x a IH]; simpl; [done|]. by rewrite Z.ltb_irrefl, Z.eqb_refl. Qed.

#[global] Instance lex_le_preorder : PreOrder lex_le.
Proof.
  split; [intros a; apply lexb_refl|].
  intros a. unfold lex_le. induction a as [|x a IH]; intros [|y b] [|z c]; simpl; try done.
  repeat case_match; try done; try lia. intros. by eapply IH.
Qed.

#[global] Instance lex_le_antisymm : AntiSymm (=) lex_le.
Proof.
  intros a. unfold lex_le. induction a as [|x a IH]; intros [|y b]; simpl; try done.
  repeat case_match; try done; try lia. intros. f_equal; [lia|auto].
Qed.

#[global] Instance lex_le_total : Total lex_le.
Proof.
  intros a. unfold lex_le. induction a as [|x a IH]; intros [|y b]; simpl; auto.
  repeat case_match; auto; lia.
Qed.

(** Keys with a derived [Ord]: the list of its fields, compared in order. *)
Class OrdKey (K : Type) := {
  ord_key : K -> list Z;
  ord_key_inj : Inj (=) (=) ord_key;
}.
#[global] Existing Instance ord_key_inj.

Definition key_le {K} `{OrdKey K} (a b : K) : Prop := lex_le (ord_key a) (ord_key b).

Section OrdKey.
Context {K : Type} `{OrdKey K}.

#[global] Instance key_le_dec (a b : K) : Decision (key_le a b) := lex_le_dec _ _.

#[global] Instance key_le_preorder : PreOrder (@key_le K _).
Proof.
  split; unfold key_le; intros a; [reflexivity|intros b c]. apply transitivity.
Qed.

#[global] Instance key_le_antisymm : AntiSymm (=) (@key_le K _).
Proof. intros a b ??. apply (inj ord_key). by apply (anti_symm lex_le). Qed.

#[global] Instance key_le_total : Total (@key_le K _).
Proof. intros a b. apply (total lex_le). Qed.
End OrdKey.

#[global] Instance Z_ord_key : OrdKey Z := {| ord_key z := [z] |}.

Lemma key_le_Z (a b : Z) : key_le a b <-> a <= b.
Proof. unfold key_le, lex_le. simpl. repeat case_match; lia. Qed.

(** Sorting ([Vec::sort], [sort_unstable]) and ordered iteration. *)
Definition sort_keys {K} `{OrdKey K} (l : list K) : list K := merge_sort key_le l.

Definition btree_elems {K} `{OrdKey K, Countable K} (s : gset K) : list K :=
  sort_keys (elements s).

Section Sorting.
Context {K : Type} `{OrdKey K}.

Lemma sort_keys_perm (l : list K) : sort_keys l ≡ₚ l.
Proof. apply merge_sort_Permutation. Qed.

Lemma sort_keys_sorted (l : list K) : StronglySorted key_le (sort_keys l).
Proof. apply StronglySorted_merge_sort; apply _. Qed.

Lemma elem_of_sort_keys (l : list K) x : x ∈ sort_keys l <-> x ∈ l.
Proof. by rewrite sort_keys_perm. Qed.

Lemma NoDup_sort_keys (l : list K) : NoDup (sort_keys l) <-> NoDup l.
Proof. by rewrite sort_keys_perm. Qed.

Lemma length_sort_keys (l : list K) : length (sort_keys l) = length l.
Proof. by rewrite sort_keys_perm. Qed.
End Sorting.

Section BTree.
Context {K : Type} `{OrdKey K, Countable K}.

Lemma elem_of_btree_elems (s : gset K) x : x ∈ btree_elems s <-> x ∈ s.
Proof. unfold btree_elems. by rewrite elem_of_sort_keys, elem_of_elements. Qed.

Lemma NoDup_btree_elems (s : gset K) : NoDup (btree_elems s).
Proof. unfold btree_elems. apply NoDup_sort_keys, NoDup_elements. Qed.

Lemma btree_elems_sorted (s : gset K) : StronglySorted key_le (btree_elems s).
Proof. apply sort_keys_sorted. Qed.

Lemma btree_elems_empty : btree_elems (∅ : gset K) = [].
Proof. unfold btree_elems. by rewrite elements_empty. Qed.

Lemma btree_elems_nil (s : gset K) : btree_elems s = [] -> s = ∅.
Proof.
  intros Hs. apply set_eq. intros x. rewrite <- elem_of_btree_elems, Hs. set_solver.
Qed.
End BTree.

(** Iteration of a [BTreeMap], entries in key order. *)
Definition btree_items {K A} `{OrdKey K, Countable K} (m : gmap K A) : list (K * A) :=
  omap (fun k => pair k <$> m !! k) (btree_elems (dom m)).

Definition key_lt {K} `{OrdKey K} (a b : K) : Prop := key_le a b /\ a <> b.

#[global] Instance key_lt_trans {K} `{OrdKey K} : Transitive (@key_lt K _).
Proof.
  intros a b c [H1 N1] [H2 N2]. split; [by etransitivity|]. intros ->. apply N1.
  by apply (anti_symm key_le).
Qed.

Lemma not_key_le {K} `{OrdKey K} (a b : K) : ~ key_le b a <-> key_lt a b.
Proof.
  split.
  - intros Hn. destruct (total key_le a b) as [Hab|]; [|done]. split; [done|]. intros ->. by apply Hn.
  - intros [Hab Hne] Hba. apply Hne. by apply (anti_symm key_le).
Qed.

Section BTreeItems.
Context {K A : Type} `{OrdKey K, Countable K}.
Implicit Types m : gmap K A.

Lemma elem_of_btree_items m k a : (k, a) ∈ btree_items m <-> m !! k = Some a.
Proof.
  unfold btree_items. rewrite list_elem_of_omap. split.
  - intros (k' & _ & Hk). destruct (m !! k') eqn:E; simplify_eq/=. done.
  - intros Hk. exists k. rewrite Hk, elem_of_btree_elems. by split; [eapply elem_of_dom_2|].
Qed.

Lemma btree_items_keys m : (btree_items m).*1 = btree_elems (dom m).
Proof.
  unfold btree_items. assert (Hd : Forall (fun k => is_Some (m !! k)) (btree_elems (dom m))).
  { apply Forall_forall. intros k. by rewrite elem_of_btree_elems, elem_of_dom. }
  induction Hd as [|k l [a Ha] _ IH]; simpl; [done|]. rewrite Ha. simpl. f_equal. exact IH.
Qed.

Lemma NoDup_btree_items m : NoDup (btree_items m).*1.
Proof. rewrite btree_items_keys. apply NoDup_btree_elems. Qed.

Lemma btree_items_sorted m : StronglySorted key_lt (btree_items m).*1.
Proof.
  rewrite btree_items_keys. pose proof (btree_elems_sorted (dom m)) as Hs.
  pose proof (NoDup_btree_elems (dom m)) as Hn.
  induction Hs as [|k l Hs IH Hk]; [constructor|]. apply NoDup_cons in Hn as [Hin Hn].
  constructor; [auto|]. rewrite Forall_forall in Hk |- *. intros k' Hk'. split; [auto|].
  intros ->. done.
Qed.

Lemma list_to_map_btree_items m : list_to_map (btree_items m) = m.
Proof.
  apply map_eq. intros k. destruct (m !! k) as [a|] eqn:E.
  - apply elem_of_list_to_map; [apply NoDup_btree_items|]. by apply elem_of_btree_items.
  - apply not_elem_of_list_to_map. rewrite btree_items_keys, elem_of_btree_elems.
    by apply not_elem_of_dom.
Qed.

Lemma length_btree_items m : length (btree_items m) = size m.
Proof.
  rewrite <- (list_to_map_btree_items m) at 2.
  by rewrite map_size_list_to_map by apply NoDup_btree_items.
Qed.

Lemma sorted_lt_NoDup (l : list K) : StronglySorted key_lt l -> NoDup l.
Proof.
  induction 1 as [|k l _ IH Hk]; constructor; [|done]. rewrite Forall_forall in Hk.
  intros Hin. by destruct (Hk k Hin).
Qed.

(** A list of entries with increasing keys is the iteration of its map. *)
Lemma btree_items_list_to_map (l : list (K * A)) :
  StronglySorted key_lt l.*1 -> btree_items (list_to_map l) = l.
Proof.
  intros Hl. pose proof (sorted_lt_NoDup _ Hl) as Hn.
  assert (Hkeys : (btree_items (list_to_map l : gmap K A)).*1 = l.*1).
  { apply (StronglySorted_unique key_le).
    - rewrite btree_items_keys. apply btree_elems_sorted.
    - clear -Hl. induction Hl as [|k l' _ IH Hk]; constructor; [done|].
      eapply Forall_impl; [done|]. by intros ? [].
    - apply NoDup_Permutation; [apply NoDup_btree_items|done|]. intros k.
      rewrite btree_items_keys, elem_of_btree_elems, dom_list_to_map, elem_of_list_to_set. done. }
  assert (Hv : forall k a, (k, a) ∈ btree_items (list_to_map l : gmap K A) -> (k, a) ∈ l).
  { intros k a Hka%elem_of_btree_items. by apply elem_of_list_to_map in Hka. }
  revert Hkeys Hv. generalize (btree_items (list_to_map l : gmap K A)) as l'. clear Hl.
  induction l as [|[k a] l IH]; intros [|[k' a'] l'] Hkeys Hv;
    simpl in Hkeys; try discriminate; [done|]. injection Hkeys as -> Hkeys.
  apply NoDup_cons in Hn as [Hk Hn].
  assert (a' = a) as ->.
  { destruct (proj1 (elem_of_cons _ _ _) (Hv k a' ltac:(by left))) as [[= ->]|Hin]; [done|].
    destruct Hk. apply list_elem_of_fmap. by exists (k, a'). }
  f_equal. apply IH; [done|done|]. intros k' b Hb.
  destruct (proj1 (elem_of_cons _ _ _) (Hv k' b ltac:(by right))) as [[= -> ->]|Hin]; [|done].
  destruct Hk. change (k ∈ l.*1). rewrite <- (Hkeys : l'.*1 = l.*1).
  apply list_elem_of_fmap. by exists (k, a).
Qed.
End BTreeItems.

(** * Sums over the values of a map *)

Definition map_sum {K A} `{Countable K} (f : A -> Z) (m : gmap K A) : Z :=
  map_fold (fun _ a acc => f a + acc) 0 m.

Section MapSum.
Context {K A : Type} `{Countable K} (f : A -> Z).
Implicit Types m : gmap K A.

Lemma map_sum_empty : map_sum f (∅ : gmap K A) = 0.
Proof. unfold map_sum. by rewrite map_fold_empty. Qed.

Lemma map_sum_insert m i x : m !! i = None -> map_sum f (<[i := x]> m) = f x + map_sum f m.
Proof. intros. unfold map_sum. rewrite map_fold_insert_L; [done|intros; lia|done]. Qed.

Lemma map_sum_delete m i x : m !! i = Some x -> map_sum f (delete i m) = map_sum f m - f x.
Proof.
  intros Hi. rewrite <- (insert_delete_id m i x Hi) at 2.
  rewrite map_sum_insert by apply lookup_delete_eq. lia.
Qed.

Lemma map_sum_replace m i x y : m !! i = Some x -> map_sum f (<[i := y]> m) = map_sum f m - f x + f y.
Proof.
  intros Hi. rewrite <- insert_delete_eq, map_sum_insert by apply lookup_delete_eq.
  rewrite (map_sum_delete _ _ x) by done. lia.
Qed.

Lemma map_sum_nonneg m : (forall i x, m !! i = Some x -> 0 <= f x) -> 0 <= map_sum f m.
Proof.
  induction m as [|i x m Hi IH] using map_ind; intros Hf; [by rewrite map_sum_empty|].
  rewrite map_sum_insert by done. pose proof (Hf i x (lookup_insert_eq _ _ _)).
  assert (0 <= map_sum f m); [|lia]. apply IH. intros j y Hj. apply (Hf j).
  rewrite lookup_insert_ne; [done|]. intros ->. congruence.
Qed.

Lemma map_sum_elem m i x :
  (forall j y, m !! j = Some y -> 0 <= f y) -> m !! i = Some x -> f x <= map_sum f m.
Proof.
  intros Hf Hi. pose proof (map_sum_delete m i x Hi) as Hd.
  assert (0 <= map_sum f (delete i m)); [|lia]. apply map_sum_nonneg.
  intros j y [_ Hj]%lookup_delete_Some. by eapply Hf.
Qed.

Lemma map_sum_list `{OrdKey K} m : map_sum f m = foldr (fun a acc => f a + acc) 0 (btree_items m).*2.
Proof.
  assert (Hp : map_to_list m ≡ₚ btree_items m).
  { apply NoDup_Permutation; [apply NoDup_map_to_list|eapply NoDup_fmap_1, NoDup_btree_items|].
    intros [k a]. by rewrite elem_of_map_to_list, elem_of_btree_items. }
  unfold map_sum. rewrite map_fold_foldr.
  transitivity (foldr (fun a acc => f a + acc) 0 (map_to_list m).*2).
  - generalize (map_to_list m). intros l. induction l as [|[k a] l IH]; simpl; [done|]. by rewrite IH.
  - apply (foldr_permutation (=)); [typeclasses eauto..|intros; lia|by rewrite Hp].
Qed.
End MapSum.

Lemma map_sum_le {K A} `{Countable K} (f g : A -> Z) (m : gmap K A) :
  (forall i x, m !! i = Some x -> f x <= g x) -> map_sum f m <= map_sum g m.
Proof.
  induction m as [|i x m Hi IH] using map_ind; intros Hf; [by rewrite !map_sum_empty|].
  rewrite !map_sum_insert by done. pose proof (Hf i x (lookup_insert_eq _ _ _)).
  assert (map_sum f m <= map_sum g m); [|lia]. apply IH. intros j y Hj. apply (Hf j).
  rewrite lookup_insert_ne; [done|]. intros ->. congruence.
Qed.

(** * Sorted lists and sublists *)

Lemma sorted_snoc {A} (R : relation A) (l : list A) x :
  StronglySorted R l -> Forall (fun y => R y x) l -> StronglySorted R (l ++ [x]).
Proof.
  intros Hl Hx. rewrite Forall_forall in Hx. apply StronglySorted_app.
  split_and!; [|done|repeat constructor]. intros y z Hy ->%list_elem_of_singleton. auto.
Qed.

Lemma Forall_sublist {A} (P : A -> Prop) l k : sublist l k -> Forall P k -> Forall P l.
Proof.
  rewrite !Forall_forall. intros Hs Hk x Hx. apply Hk.
  eapply elem_of_submseteq; [done|]. by apply sublist_submseteq.
Qed.

Lemma sorted_sublist {A} (R : relation A) (l k : list A) :
  sublist l k -> StronglySorted R k -> StronglySorted R l.
Proof.
  induction 1 as [|x l k Hs IH|x l k Hs IH]; intros Hk; [done| |];
    apply StronglySorted_inv in Hk as [? Hx]; auto.
  constructor; [auto|]. by eapply Forall_sublist.
Qed.

Lemma fmap_sublist {A B} (f : A -> B) (l k : list A) : sublist l k -> sublist (f <$> l) (f <$> k).
Proof. induction 1; simpl; by constructor. Qed.

Section Filter.
Context {A : Type} (P Q : A -> Prop) `{!forall x, Decision (P x), !forall x, Decision (Q x)}.

Lemma filter_ext_in (l : list A) : (forall x, x ∈ l -> P x <-> Q x) -> filter P l = filter Q l.
Proof.
  induction l as [|x l IH]; intros Hl; [done|]. rewrite !filter_cons.
  assert (Hx : P x <-> Q x) by (apply Hl; by left).
  assert (IH' : filter P l = filter Q l) by (apply IH; intros; apply Hl; by right).
  repeat case_decide; try tauto; by rewrite IH'.
Qed.

Lemma filter_none (l : list A) : (forall x, x ∈ l -> ~ P x) -> filter P l = [].
Proof.
  induction l as [|x l IH]; intros Hl; [done|].
  rewrite filter_cons_False by (apply Hl; by left). apply IH. intros. apply Hl. by right.
Qed.

Lemma filter_all (l : list A) : (forall x, x ∈ l -> P x) -> filter P l = l.
Proof.
  induction l as [|x l IH]; intros Hl; [done|].
  rewrite filter_cons_True by (apply Hl; by left). f_equal. apply IH. intros. apply Hl. by right.
Qed.
End Filter.

Lemma seqZ_sorted m n : StronglySorted Z.lt (seqZ m n).
Proof.
  destruct (decide (0 <= n)) as [Hn|]; [|rewrite seqZ_nil by lia; constructor].
  revert m. pattern n. apply natlike_ind; [intros; rewrite seqZ_nil by lia; constructor| |done].
  intros k Hk IH m. rewrite seqZ_cons by lia. rewrite Z.pred_succ. constructor; [apply IH|].
  rewrite Forall_forall. intros x Hx%elem_of_seqZ. lia.
Qed.
