(* ===== verification/Time.v ===== *)
(** Durations, instants and the panic-free deadline arithmetic of
    [magnetar-proto/src/time.rs].

    A [Duration] is a number of nanoseconds in [0 .. DURATION_MAX] and an
    [Instant] a number of nanoseconds in [0 .. INSTANT_MAX] (the 64-bit
    [Timespec] of the standard library).  [Instant + Duration] panics past
    [INSTANT_MAX]; the model keeps the plain sum and the lemmas below say when
    it stays in range. *)

From S2P Require Import Prelude.

Definition NANOS_PER_SEC : Z := 1000000000.
Definition DURATION_MAX : Z := u64_max * NANOS_PER_SEC + 999999999.
Definition INSTANT_MAX : Z := i64_max * NANOS_PER_SEC + 999999999.

Definition duration_ok (d : Z) : Prop := 0 <= d <= DURATION_MAX.
Definition instant_ok (t : Z) : Prop := 0 <= t <= INSTANT_MAX.

Definition from_millis (n : Z) : Z := n * 1000000.
Definition from_secs (n : Z) : Z := n * NANOS_PER_SEC.
Definition from_mins (n : Z) : Z := from_secs (60 * n).
Definition from_hours (n : Z) : Z := from_secs (3600 * n).

(** [Instant::saturating_duration_since] *)
Definition saturating_duration_since (later earlier : Z) : Z := Z.max 0 (later - earlier).

(** [Instant::checked_add] *)
Definition instant_checked_add (base delta : Z) : option Z :=
  if base + delta <=? INSTANT_MAX then Some (base + delta) else None.

Definition OVERFLOW_FALLBACK : Z := from_hours 1.

Definition deadline_with_clamp (base delta : Z) : Z :=
  match instant_checked_add base delta with
  | Some t => t
  | None => base + OVERFLOW_FALLBACK
  end.

Lemma deadline_small base delta :
  base + delta <= INSTANT_MAX -> deadline_with_clamp base delta = base + delta.
Proof. unfold deadline_with_clamp, instant_checked_add. intros. case_match; case_match; lia || congruence. Qed.

Lemma deadline_ge base delta : 0 <= delta -> base <= deadline_with_clamp base delta.
Proof.
  unfold deadline_with_clamp, instant_checked_add, OVERFLOW_FALLBACK, from_hours, from_secs, NANOS_PER_SEC.
  intros. repeat case_match; simplify_eq; lia.
Qed.

Lemma deadline_gt base delta : 0 < delta -> base < deadline_with_clamp base delta.
Proof.
  unfold deadline_with_clamp, instant_checked_add, OVERFLOW_FALLBACK, from_hours, from_secs, NANOS_PER_SEC.
  intros. repeat case_match; simplify_eq; lia.
Qed.

Lemma deadline_le base delta :
  base + OVERFLOW_FALLBACK <= INSTANT_MAX -> deadline_with_clamp base delta <= INSTANT_MAX.
Proof. unfold deadline_with_clamp, instant_checked_add. intros. repeat case_match; simplify_eq; lia. Qed.

(** With one delay, a later base never gives an earlier deadline: a sum that
    overflows is replaced by the fallback only for delays larger than it. *)
Lemma deadline_mono b1 b2 delta :
  b1 <= b2 -> b2 + delta <= INSTANT_MAX ->
  deadline_with_clamp b1 delta <= deadline_with_clamp b2 delta.
Proof. intros. rewrite !deadline_small; lia. Qed.

Create HintDb magnetar.
#[export] Hint Resolve deadline_ge deadline_gt blen_nonneg : magnetar.
