(* ===== verification/Ids.v ===== *)
(** Shared identifier types of [magnetar-proto/src/types.rs]: message ids, hash
    key ranges, segment descriptors and the compression codec, with their wire
    counterparts (the generated structs of [pb/pulsar.proto.rs]). *)

From S2P Require Import Prelude.

(** * Message ids *)

Record MessageId := mkMessageId {
  ledger_id : Z;
  entry_id : Z;
  partition : Z;
  batch_index : Z;
  batch_size : Z;
}.

#[global] Instance MessageId_eq_dec : EqDecision MessageId.
Proof. solve_decision. Defined.

Definition mid_fields (m : MessageId) : list Z :=
  [ledger_id m; entry_id m; partition m; batch_index m; batch_size m].

Definition mid_of_fields (l : list Z) : option MessageId :=
  match l with
  | [a; b; c; d; e] => Some (mkMessageId a b c d e)
  | _ => None
  end.

Lemma mid_of_to_fields m : mid_of_fields (mid_fields m) = Some m.
Proof. by destruct m. Qed.

#[global] Instance MessageId_countable : Countable MessageId :=
  inj_countable mid_fields mid_of_fields mid_of_to_fields.

#[global] Instance mid_fields_inj : Inj (=) (=) mid_fields.
Proof. intros [] []. by intros [=-> -> -> -> ->]. Qed.

(** [#[derive(PartialOrd, Ord)]]: lexicographic in the declared field order. *)
#[global] Instance MessageId_ord : OrdKey MessageId := {| ord_key := mid_fields |}.

Definition EARLIEST : MessageId := mkMessageId u64_max u64_max (-1) (-1) 0.
Definition LATEST : MessageId := mkMessageId i64_max i64_max (-1) (-1) 0.

(** [pb::MessageIdData], with its boxed recursive [first_chunk_message_id]. *)
Inductive MessageIdData := mkMessageIdData {
  pb_ledger_id : Z;
  pb_entry_id : Z;
  pb_partition : option Z;
  pb_batch_index : option Z;
  pb_ack_set : list Z;
  pb_batch_size : option Z;
  pb_first_chunk : option MessageIdData;
}.

Definition mid_from_pb (pb : MessageIdData) : MessageId :=
  {| ledger_id := pb_ledger_id pb;
     entry_id := pb_entry_id pb;
     partition := default (-1) (pb_partition pb);
     batch_index := default (-1) (pb_batch_index pb);
     batch_size := default (-1) (pb_batch_size pb) |}.

Definition mid_to_pb (m : MessageId) : MessageIdData :=
  {| pb_ledger_id := ledger_id m;
     pb_entry_id := entry_id m;
     pb_partition := Some (partition m);
     pb_batch_index := Some (batch_index m);
     pb_ack_set := [];
     pb_batch_size := Some (batch_size m);
     pb_first_chunk := None |}.

Lemma mid_from_to_pb m : mid_from_pb (mid_to_pb m) = m.
Proof. by destruct m. Qed.

(** [to_bytes] / [from_bytes]: the protobuf encoding of the wire form. *)
Section MessageIdBytes.
Context `{!ProtoMessage MessageIdData}.

Definition mid_to_bytes (m : MessageId) : bytes := pb_encode (mid_to_pb m).
Definition mid_from_bytes (b : bytes) : option MessageId := mid_from_pb <$> pb_decode b.

Lemma mid_bytes_roundtrip `{!ProtoLaws MessageIdData} m : mid_from_bytes (mid_to_bytes m) = Some m.
Proof. unfold mid_from_bytes, mid_to_bytes. rewrite pb_decode_encode. simpl. by rewrite mid_from_to_pb. Qed.
End MessageIdBytes.

(** * Hash key ranges *)

Definition MIN_HASH : Z := 0.
Definition MAX_HASH : Z := u16_max.

Inductive KeyRangeError :=
| StartOutOfBounds (start : Z)
| EndOutOfBounds (end_ : Z)
| Reversed (start end_ : Z).

Record KeyRange := mkKeyRange { kr_start : Z; kr_end : Z }.

#[global] Instance KeyRange_eq_dec : EqDecision KeyRange.
Proof. solve_decision. Defined.

Definition kr_fields (r : KeyRange) : list Z := [kr_start r; kr_end r].
#[global] Instance kr_fields_inj : Inj (=) (=) kr_fields.
Proof. intros [] []. by intros [=-> ->]. Qed.
#[global] Instance KeyRange_ord : OrdKey KeyRange := {| ord_key := kr_fields |}.

Definition KeyRange_FULL : KeyRange := mkKeyRange MIN_HASH MAX_HASH.

Definition KeyRange_new (start end_ : Z) : result KeyRangeError KeyRange :=
  if start >? MAX_HASH then Err (StartOutOfBounds start)
  else if end_ >? MAX_HASH then Err (EndOutOfBounds end_)
  else if end_ <? start then Err (Reversed start end_)
  else Ok (mkKeyRange start end_).

Definition kr_len (r : KeyRange) : Z := kr_end r - kr_start r + 1.

Definition kr_contains (r : KeyRange) (hash : Z) : bool :=
  (kr_start r <=? hash) && (hash <=? kr_end r).

Definition kr_contains_range (r other : KeyRange) : bool :=
  (kr_start r <=? kr_start other) && (kr_end r >=? kr_end other).

Definition kr_is_adjacent_to (r other : KeyRange) : bool :=
  ((kr_end r <? MAX_HASH) && (kr_end r + 1 =? kr_start other))
  || ((kr_end other <? MAX_HASH) && (kr_end other + 1 =? kr_start r)).

(** The range invariant [KeyRange::new] establishes. *)
Definition kr_wf (r : KeyRange) : Prop := kr_start r <= kr_end r <= MAX_HASH.

Lemma KeyRange_new_wf s e r : KeyRange_new s e = Ok r -> kr_wf r /\ r = mkKeyRange s e.
Proof. unfold KeyRange_new, kr_wf. repeat case_match; intros; simplify_eq; simpl; split; lia || done. Qed.

Lemma KeyRange_new_of_wf r : kr_wf r -> KeyRange_new (kr_start r) (kr_end r) = Ok r.
Proof. unfold KeyRange_new, kr_wf. destruct r; simpl. intros. repeat case_match; lia || done. Qed.

Lemma kr_contains_spec r h : kr_contains r h = true <-> kr_start r <= h <= kr_end r.
Proof. unfold kr_contains. rewrite andb_true_iff. lia. Qed.

Lemma kr_contains_range_spec r o :
  kr_contains_range r o = true <-> kr_start r <= kr_start o /\ kr_end o <= kr_end r.
Proof. unfold kr_contains_range. rewrite andb_true_iff. lia. Qed.

(** * Segments *)

Inductive SegmentState := SActive | SSealed.

#[global] Instance SegmentState_eq_dec : EqDecision SegmentState.
Proof. solve_decision. Defined.

Definition segment_state_try_from_pb_i32 (v : Z) : result Z SegmentState :=
  if v =? 0 then Ok SActive else if v =? 1 then Ok SSealed else Err v.

Definition segment_state_to_pb_i32 (s : SegmentState) : Z :=
  match s with SSealed => 1 | SActive => 0 end.

Record SegmentDescriptor := mkSegment {
  seg_id : Z;
  seg_range : KeyRange;
  seg_broker_url : option string;
  seg_broker_url_tls : option string;
  seg_state : SegmentState;
  seg_parents : list Z;
  seg_children : list Z;
  seg_created_at : Z;
  seg_sealed_at : option Z;
  seg_legacy_topic : option string;
}.

#[global] Instance SegmentDescriptor_eq_dec : EqDecision SegmentDescriptor.
Proof. solve_decision. Defined.

(** [pb::SegmentInfoProto] and [pb::SegmentBrokerAddress] *)
Record SegmentInfoProto := mkSegmentInfo {
  info_id : Z;
  info_hash_start : Z;
  info_hash_end : Z;
  info_state : Z;
  info_parents : list Z;
  info_children : list Z;
  info_created_at : Z;
  info_sealed_at : option Z;
  info_created_at_ms : Z;
  info_sealed_at_ms : option Z;
  info_legacy_topic : option string;
  info_entry_bucket_splits : list Z;
}.

Record SegmentBrokerAddress := mkBrokerAddress {
  addr_id : Z;
  addr_url : string;
  addr_url_tls : option string;
}.

Inductive SegmentDescriptorError :=
| InvalidRange (e : KeyRangeError)
| UnknownState (v : Z)
| PlacementMismatch (segment_id placement_id : Z)
| EmptyLegacyTopic.

Definition segment_try_from_pb (info : SegmentInfoProto) (broker : option SegmentBrokerAddress)
    : result SegmentDescriptorError SegmentDescriptor :=
  if match broker with Some b => negb (addr_id b =? info_id info) | None => false end then
    Err (PlacementMismatch (info_id info) (from_option addr_id 0 broker))
  else if bool_decide (info_legacy_topic info = Some ""%string) then Err EmptyLegacyTopic
  else
    range ← map_err InvalidRange (KeyRange_new (info_hash_start info) (info_hash_end info));
    state ← map_err UnknownState (segment_state_try_from_pb_i32 (info_state info));
    mret {| seg_id := info_id info;
            seg_range := range;
            seg_broker_url := addr_url <$> broker;
            seg_broker_url_tls := broker ≫= addr_url_tls;
            seg_state := state;
            seg_parents := info_parents info;
            seg_children := info_children info;
            seg_created_at := info_created_at info;
            seg_sealed_at := info_sealed_at info;
            seg_legacy_topic := info_legacy_topic info |}.

Definition segment_to_pb (d : SegmentDescriptor) : SegmentInfoProto * option SegmentBrokerAddress :=
  ({| info_id := seg_id d;
      info_hash_start := kr_start (seg_range d);
      info_hash_end := kr_end (seg_range d);
      info_state := segment_state_to_pb_i32 (seg_state d);
      info_parents := seg_parents d;
      info_children := seg_children d;
      info_created_at := seg_created_at d;
      info_sealed_at := seg_sealed_at d;
      info_created_at_ms := 0;
      info_sealed_at_ms := None;
      info_legacy_topic := seg_legacy_topic d;
      info_entry_bucket_splits := [] |},
   (fun url => {| addr_id := seg_id d; addr_url := url; addr_url_tls := seg_broker_url_tls d |})
     <$> seg_broker_url d).

Definition segment_is_legacy (d : SegmentDescriptor) : bool :=
  match seg_legacy_topic d with
  | Some name => negb (bool_decide (name = ""%string))
  | None => false
  end.

(** The invariant of a descriptor that came off the wire. *)
Definition segment_wf (d : SegmentDescriptor) : Prop :=
  kr_wf (seg_range d) /\ seg_legacy_topic d ≠ Some ""%string
  /\ (seg_broker_url d = None -> seg_broker_url_tls d = None).

Lemma segment_state_roundtrip s :
  segment_state_try_from_pb_i32 (segment_state_to_pb_i32 s) = Ok s.
Proof. by destruct s. Qed.

Lemma segment_from_to_pb d :
  segment_wf d -> segment_try_from_pb (segment_to_pb d).1 (segment_to_pb d).2 = Ok d.
Proof.
  intros (Hr & Hl & Hu). unfold segment_try_from_pb. cbn.
  destruct d as [id r url tls st ps cs ca sa lt]; cbn in *.
  rewrite KeyRange_new_of_wf by done. rewrite segment_state_roundtrip.
  rewrite bool_decide_eq_false_2 by done.
  destruct url; cbn; [by rewrite Z.eqb_refl|]. by rewrite Hu.
Qed.

Lemma segment_try_from_pb_wf info broker d :
  segment_try_from_pb info broker = Ok d ->
  segment_wf d /\ seg_id d = info_id info
  /\ seg_range d = mkKeyRange (info_hash_start info) (info_hash_end info).
Proof.
  unfold segment_try_from_pb. case_match; [discriminate|]. case_bool_decide; [discriminate|].
  intros. inv_ok. simpl. apply KeyRange_new_wf in Hr as [? ->].
  split_and!; try done. by destruct broker.
Qed.

(** * Compression codec *)

Inductive CompressionKind := CNone | CLz4 | CZlib | CZstd | CSnappy.

#[global] Instance CompressionKind_eq_dec : EqDecision CompressionKind.
Proof. solve_decision. Defined.

Definition compression_to_pb (c : CompressionKind) : Z :=
  match c with CNone => 0 | CLz4 => 1 | CZlib => 2 | CZstd => 3 | CSnappy => 4 end.

Definition compression_from_pb_i32 (v : Z) : CompressionKind :=
  if v =? 1 then CLz4 else if v =? 2 then CZlib else if v =? 3 then CZstd
  else if v =? 4 then CSnappy else CNone.

Lemma compression_roundtrip c : compression_from_pb_i32 (compression_to_pb c) = c.
Proof. by destruct c. Qed.
