(* ===== verification/Frame.v ===== *)
(** Pulsar wire framing: [magnetar-proto/src/frame.rs].

    Protobuf ([prost]) and CRC32C ([crc32c]) are third-party crates: they enter
    as the interfaces [ProtoMessage] (of the prelude) and [Crc32c], with the
    documented facts the codec relies on as the law classes [ProtoLaws] and
    [Crc32cLaws]. *)

From S2P Require Import Prelude.

(** * The checksum interface *)

Class Crc32c := {
  crc32c : bytes -> Z;
  crc32c_append : Z -> bytes -> Z;
}.

Class Crc32cLaws `{Crc32c} := {
  crc32c_range : forall b, 0 <= crc32c b < 2 ^ 32;
  crc32c_append_spec : forall a b, crc32c_append (crc32c a) b = crc32c (a ++ b);
}.

(** * Constants *)

Definition MAGIC_CRC32C : Z := 0x0e01.
Definition MAGIC_BROKER_ENTRY_METADATA : Z := 0x0e02.
Definition MAX_FRAME_SIZE : Z := 5 * 1024 * 1024.
Definition TOTAL_SIZE_LEN : Z := 4.
Definition CMD_SIZE_LEN : Z := 4.
Definition MAGIC_LEN : Z := 2.
Definition CHECKSUM_LEN : Z := 4.
Definition METADATA_SIZE_LEN : Z := 4.
Definition BEM_SIZE_LEN : Z := 4.

Inductive FrameError :=
| Incomplete (needed : Z)
| BadLength (len : Z)
| Decode
| Encode
| ChecksumMismatch (computed expected : Z)
| MissingMagic (magic : Z).

Definition put_u32 (dst : bytes) (v : Z) : bytes := dst ++ be_bytes 4 v.
Definition put_u16 (dst : bytes) (v : Z) : bytes := dst ++ be_bytes 2 v.
Definition read_u32 (b : bytes) : Z := be_val (btake 4 b).
Definition read_u16 (b : bytes) : Z := be_val (btake 2 b).

(** [dst[off .. off + 4].copy_from_slice(v)] *)
Definition backfill4 (dst : bytes) (off : Z) (v : bytes) : bytes :=
  btake off dst ++ v ++ bdrop (off + 4) dst.

(** * Codec *)

Section Codec.
Context {BaseCommand MessageMetadata BrokerEntryMetadata : Type}.
Context `{!ProtoMessage BaseCommand, !ProtoMessage MessageMetadata,
          !ProtoMessage BrokerEntryMetadata, !Crc32c}.

Record Payload := mkPayload {
  broker_entry_metadata : option BrokerEntryMetadata;
  p_metadata : MessageMetadata;
  body : bytes;
}.

Record Frame := mkFrame {
  command : BaseCommand;
  payload : option Payload;
}.

Definition encode_command (dst : bytes) (cmd : BaseCommand) : result FrameError bytes :=
  let cmd_size := encoded_len cmd in
  total_size ← ok_or (checked_add usize_max CMD_SIZE_LEN cmd_size) (BadLength u32_max);
  total_size_u32 ← ok_or (try_from_max u32_max total_size) (BadLength u32_max);
  cmd_size_u32 ← ok_or (try_from_max u32_max cmd_size) (BadLength u32_max);
  let dst := put_u32 dst total_size_u32 in
  let dst := put_u32 dst cmd_size_u32 in
  mret (dst ++ pb_encode cmd).

(** The size accounting shared by the two payload encoders: the three [u32]
    size fields, or [BadLength]. *)
Definition payload_sizes (cmd_size meta_size payload_len : Z) : result FrameError (Z * Z * Z) :=
  header_content_size ← ok_or
    (checked_add usize_max CMD_SIZE_LEN cmd_size
       ≫= fun s => checked_add usize_max s MAGIC_LEN
       ≫= fun s => checked_add usize_max s CHECKSUM_LEN
       ≫= fun s => checked_add usize_max s METADATA_SIZE_LEN
       ≫= fun s => checked_add usize_max s meta_size) (BadLength u32_max);
  total_size ← ok_or (checked_add usize_max header_content_size payload_len) (BadLength u32_max);
  total_size_u32 ← ok_or (try_from_max u32_max total_size) (BadLength u32_max);
  cmd_size_u32 ← ok_or (try_from_max u32_max cmd_size) (BadLength u32_max);
  meta_size_u32 ← ok_or (try_from_max u32_max meta_size) (BadLength u32_max);
  mret (total_size_u32, cmd_size_u32, meta_size_u32).

Definition encode_payload (dst : bytes) (cmd : BaseCommand) (metadata : MessageMetadata)
    (payload : bytes) : result FrameError bytes :=
  '(total_size_u32, cmd_size_u32, meta_size_u32) ←
     payload_sizes (encoded_len cmd) (encoded_len metadata) (blen payload);
  let dst := put_u32 dst total_size_u32 in
  let dst := put_u32 dst cmd_size_u32 in
  let dst := dst ++ pb_encode cmd in
  let dst := put_u16 dst MAGIC_CRC32C in
  let checksum_offset := blen dst in
  let dst := put_u32 dst 0 in
  let checksummed_start := blen dst in
  let dst := put_u32 dst meta_size_u32 in
  let dst := dst ++ pb_encode metadata in
  let pre_payload_crc := crc32c (bdrop checksummed_start dst) in
  let full_crc := crc32c_append pre_payload_crc payload in
  let dst := backfill4 dst checksum_offset (be_bytes 4 full_crc) in
  mret (dst ++ payload).

Definition encode_payload_head (cmd : BaseCommand) (metadata : MessageMetadata)
    (payload : bytes) : result FrameError bytes :=
  '(total_size_u32, cmd_size_u32, meta_size_u32) ←
     payload_sizes (encoded_len cmd) (encoded_len metadata) (blen payload);
  let dst := put_u32 [] total_size_u32 in
  let dst := put_u32 dst cmd_size_u32 in
  let dst := dst ++ pb_encode cmd in
  let dst := put_u16 dst MAGIC_CRC32C in
  let checksum_offset := blen dst in
  let dst := put_u32 dst 0 in
  let checksummed_start := blen dst in
  let dst := put_u32 dst meta_size_u32 in
  let dst := dst ++ pb_encode metadata in
  let pre_payload_crc := crc32c (bdrop checksummed_start dst) in
  let full_crc := crc32c_append pre_payload_crc payload in
  mret (backfill4 dst checksum_offset (be_bytes 4 full_crc)).

Definition peek_full_frame_len (inbound : bytes) : result FrameError (option Z) :=
  if blen inbound <? TOTAL_SIZE_LEN then Ok None
  else
    let total_size := read_u32 inbound in
    if total_size =? 0 then Err (BadLength total_size)
    else if total_size >? MAX_FRAME_SIZE then Err (BadLength total_size)
    else
      let full_frame_len := TOTAL_SIZE_LEN + total_size in
      if blen inbound <? full_frame_len then Ok None else Ok (Some full_frame_len).

(** The optional broker-entry-metadata envelope in front of the payload
    prelude; returns the envelope and the buffer at the [0x0e01] magic. *)
Definition decode_envelope_metadata (total_size : Z) (fb : bytes)
    : result FrameError (option BrokerEntryMetadata * bytes) :=
  if read_u16 fb =? MAGIC_BROKER_ENTRY_METADATA then
    let fb := bdrop MAGIC_LEN fb in
    if blen fb <? BEM_SIZE_LEN then Err (Incomplete (BEM_SIZE_LEN - blen fb))
    else
      let bem_size := read_u32 fb in
      let fb := bdrop 4 fb in
      if bem_size >? blen fb then Err (BadLength total_size)
      else
        bem ← ok_or (pb_decode (btake bem_size fb)) Decode;
        let fb := bdrop bem_size fb in
        if blen fb <? MAGIC_LEN then Err (Incomplete (MAGIC_LEN - blen fb))
        else mret (Some bem, fb)
  else mret (None, fb).

(** The CRC-protected region [crc32c][metadata_size][metadata][payload]. *)
Definition decode_checksummed (total_size : Z) (fb : bytes)
    : result FrameError (MessageMetadata * bytes) :=
  if blen fb <? CHECKSUM_LEN + METADATA_SIZE_LEN then
    Err (Incomplete (CHECKSUM_LEN + METADATA_SIZE_LEN - blen fb))
  else
    let expected_crc := read_u32 fb in
    let fb := bdrop 4 fb in
    let computed_crc := crc32c fb in
    if negb (computed_crc =? expected_crc) then Err (ChecksumMismatch computed_crc expected_crc)
    else
      let meta_size := read_u32 fb in
      let fb := bdrop 4 fb in
      if meta_size >? blen fb then Err (BadLength total_size)
      else
        metadata ← ok_or (pb_decode (btake meta_size fb)) Decode;
        mret (metadata, bdrop meta_size fb).

(** The carved frame, without its [total_size] field. *)
Definition decode_carved (total_size : Z) (fb : bytes) : result FrameError Frame :=
  if blen fb <? CMD_SIZE_LEN then Err (BadLength total_size)
  else
    let cmd_size := read_u32 fb in
    let fb := bdrop 4 fb in
    if cmd_size >? blen fb then Err (BadLength total_size)
    else
      command ← ok_or (pb_decode (btake cmd_size fb)) Decode;
      let fb := bdrop cmd_size fb in
      if blen fb =? 0 then mret (mkFrame command None)
      else if blen fb <? MAGIC_LEN then Err (Incomplete (MAGIC_LEN - blen fb))
      else
        '(bem, fb) ← decode_envelope_metadata total_size fb;
        let magic := read_u16 fb in
        if negb (magic =? MAGIC_CRC32C) then Err (MissingMagic magic)
        else
          '(metadata, body) ← decode_checksummed total_size (bdrop MAGIC_LEN fb);
          mret (mkFrame command (Some (mkPayload bem metadata body))).

(** [decode_one(&mut src)]: the outcome and what is left of [src]. *)
Definition decode_one (src : bytes) : result FrameError Frame * bytes :=
  if blen src <? TOTAL_SIZE_LEN then (Err (Incomplete (TOTAL_SIZE_LEN - blen src)), src)
  else
    let total_size := read_u32 src in
    if total_size =? 0 then (Err (BadLength total_size), src)
    else if total_size >? MAX_FRAME_SIZE then (Err (BadLength total_size), src)
    else
      let full_frame_len := TOTAL_SIZE_LEN + total_size in
      if blen src <? full_frame_len then (Err (Incomplete (full_frame_len - blen src)), src)
      else
        let frame_bytes := bdrop TOTAL_SIZE_LEN (btake full_frame_len src) in
        (decode_carved total_size frame_bytes, bdrop full_frame_len src).
End Codec.

Arguments Payload : clear implicits.
Arguments Frame : clear implicits.

(** * Field accessors on composed buffers *)

Lemma read_u32_app v r : 0 <= v < 2 ^ 32 -> read_u32 (be_bytes 4 v ++ r) = v.
Proof.
  intros. unfold read_u32. rewrite btake_app by apply blen_be_bytes.
  by apply be_val_be_bytes_small.
Qed.

Lemma read_u16_app v r : 0 <= v < 2 ^ 16 -> read_u16 (be_bytes 2 v ++ r) = v.
Proof.
  intros. unfold read_u16. rewrite btake_app by apply blen_be_bytes.
  by apply be_val_be_bytes_small.
Qed.

Lemma bdrop_be n v r : bdrop (Z.of_nat n) (be_bytes n v ++ r) = r.
Proof. apply bdrop_app, blen_be_bytes. Qed.

Lemma read_u32_range b : 4 <= blen b -> 0 <= read_u32 b < 2 ^ 32.
Proof.
  intros Hb. unfold read_u32. pose proof (be_val_bound (btake 4 b)) as Hv.
  pose proof (blen_btake 4 b ltac:(lia)) as Hl. unfold blen in Hl. by rewrite Hl in Hv.
Qed.

Lemma read_u32_split b : 4 <= blen b -> b = be_bytes 4 (read_u32 b) ++ bdrop 4 b.
Proof.
  intros Hb. unfold read_u32.
  rewrite be_bytes_be_val_len; [symmetry; apply btake_bdrop|].
  pose proof (blen_btake 4 b ltac:(lia)). unfold blen in *. lia.
Qed.

Lemma read_u16_split b : 2 <= blen b -> b = be_bytes 2 (read_u16 b) ++ bdrop 2 b.
Proof.
  intros Hb. unfold read_u16.
  rewrite be_bytes_be_val_len; [symmetry; apply btake_bdrop|].
  pose proof (blen_btake 2 b ltac:(lia)). unfold blen in *. lia.
Qed.

Lemma backfill4_at a v w b :
  blen v = 4 -> blen w = 4 -> backfill4 ((a ++ v) ++ b) (blen a) w = (a ++ w) ++ b.
Proof.
  intros Hv Hw. unfold backfill4. rewrite <- !(assoc_L (++)).
  rewrite btake_app by done.
  rewrite (assoc_L (++) a v b), bdrop_app by (rewrite blen_app; lia). done.
Qed.

Create Rewrite HintDb frame_len.
#[export] Hint Rewrite @blen_app @blen_nil blen_be_bytes : frame_len.
Ltac frame_len := autorewrite with frame_len in *; try lia.

Ltac frame_consts :=
  unfold TOTAL_SIZE_LEN, CMD_SIZE_LEN, MAGIC_LEN, CHECKSUM_LEN, METADATA_SIZE_LEN,
    BEM_SIZE_LEN, MAX_FRAME_SIZE, u32_max, usize_max, u64_max in *.

(** Decides a boolean comparison of the decoder with [frame_len]. *)
Ltac decide_if :=
  match goal with
  | |- context [if ?a <? ?b then _ else _] =>
      first [ rewrite (proj2 (Z.ltb_ge a b)) by frame_len
            | rewrite (proj2 (Z.ltb_lt a b)) by frame_len ]
  | |- context [if ?a >? ?b then _ else _] =>
      rewrite Z.gtb_ltb;
      first [ rewrite (proj2 (Z.ltb_ge b a)) by frame_len
            | rewrite (proj2 (Z.ltb_lt b a)) by frame_len ]
  | |- context [if ?a =? ?b then _ else _] =>
      first [ rewrite (proj2 (Z.eqb_neq a b)) by frame_len
            | rewrite (proj2 (Z.eqb_eq a b)) by frame_len ]
  end.

(** * The wire layout *)

Section Layout.
Context {BaseCommand MessageMetadata BrokerEntryMetadata : Type}.
Context `{!ProtoMessage BaseCommand, !ProtoMessage MessageMetadata,
          !ProtoMessage BrokerEntryMetadata, !Crc32c}.

(** [[total_size][cmd_size][BaseCommand]] *)
Definition wire_command (cmd_bytes : bytes) : bytes :=
  be_bytes 4 (4 + blen cmd_bytes) ++ be_bytes 4 (blen cmd_bytes) ++ cmd_bytes.

Definition wire_envelope (bem : option bytes) : bytes :=
  match bem with
  | None => []
  | Some b => be_bytes 2 MAGIC_BROKER_ENTRY_METADATA ++ be_bytes 4 (blen b) ++ b
  end.

(** [[metadata_size][MessageMetadata][payload]], the bytes under the CRC *)
Definition wire_region (meta_bytes body : bytes) : bytes :=
  be_bytes 4 (blen meta_bytes) ++ meta_bytes ++ body.

Definition wire_inner (cmd_bytes : bytes) (bem : option bytes) (meta_bytes body : bytes) : bytes :=
  be_bytes 4 (blen cmd_bytes) ++ cmd_bytes ++ wire_envelope bem
    ++ be_bytes 2 MAGIC_CRC32C
    ++ be_bytes 4 (crc32c (wire_region meta_bytes body)) ++ wire_region meta_bytes body.

Definition wire_payload (cmd_bytes : bytes) (bem : option bytes) (meta_bytes body : bytes) : bytes :=
  let inner := wire_inner cmd_bytes bem meta_bytes body in
  be_bytes 4 (blen inner) ++ inner.

Lemma blen_wire_inner c b m p :
  blen (wire_inner c b m p) = 14 + blen c + blen (wire_envelope b) + blen m + blen p.
Proof. unfold wire_inner, wire_region. frame_len. Qed.

Lemma checked_add_ok m a b s : checked_add m a b = Some s -> s = a + b /\ a + b <= m.
Proof. unfold checked_add. case_match; intros; simplify_eq; lia. Qed.

Lemma try_from_max_ok m z v : try_from_max m z = Some v -> v = z /\ z <= m.
Proof. unfold try_from_max. case_match; intros; simplify_eq; lia. Qed.

Lemma payload_sizes_ok cs ms pl t c m :
  payload_sizes cs ms pl = Ok (t, c, m) ->
  t = 14 + cs + ms + pl /\ c = cs /\ m = ms
  /\ 14 + cs + ms + pl <= u32_max /\ cs <= u32_max /\ ms <= u32_max.
Proof.
  unfold payload_sizes. intros Hs. inv_ok.
  repeat match goal with Hb : (_ ≫= _) = Some _ |- _ => apply bind_Some in Hb as (? & ? & ?) end.
  repeat match goal with
  | Hc : checked_add _ _ _ = Some _ |- _ => apply checked_add_ok in Hc as [-> ?]
  | Hc : try_from_max _ _ = Some _ |- _ => apply try_from_max_ok in Hc as [-> ?]
  end.
  simplify_eq. frame_consts. lia.
Qed.

Lemma payload_sizes_total cs ms pl :
  0 <= cs -> 0 <= ms -> 0 <= pl -> 14 + cs + ms + pl <= u32_max ->
  payload_sizes cs ms pl = Ok (14 + cs + ms + pl, cs, ms).
Proof.
  intros. unfold payload_sizes, checked_add, try_from_max. frame_consts. simpl.
  repeat (rewrite (proj2 (Z.leb_le _ _)) by lia; simpl). do 2 f_equal. f_equal; lia.
Qed.

Context `{!Crc32cLaws}.

Lemma payload_sizes_err cs ms pl :
  u32_max < 14 + cs + ms + pl -> payload_sizes cs ms pl = Err (BadLength u32_max).
Proof.
  intros. unfold payload_sizes, checked_add, try_from_max. frame_consts. simpl.
  repeat (case_match; simpl; try done); lia.
Qed.

(** Both encoders reserve the checksum slot after the prelude [a] and
    backfill it once the metadata is written. *)
Lemma backfill_region a (meta : MessageMetadata) p :
  let b := put_u32 (put_u32 a 0) (encoded_len meta) ++ pb_encode meta in
  backfill4 b (blen a) (be_bytes 4 (crc32c_append (crc32c (bdrop (blen (put_u32 a 0)) b)) p)) ++ p
  = a ++ be_bytes 4 (crc32c (wire_region (pb_encode meta) p)) ++ wire_region (pb_encode meta) p.
Proof.
  intros b. subst b. unfold put_u32. rewrite <- (assoc_L (++) (a ++ _)).
  rewrite backfill4_at by apply blen_be_bytes.
  rewrite bdrop_app by done. rewrite crc32c_append_spec.
  unfold wire_region, encoded_len. by rewrite <- !(assoc_L (++)).
Qed.

Lemma encode_payload_layout dst (cmd : BaseCommand) (meta : MessageMetadata) p :
  encode_payload dst cmd meta p =
    if 14 + encoded_len cmd + encoded_len meta + blen p <=? u32_max
    then Ok (dst ++ wire_payload (pb_encode cmd) None (pb_encode meta) p)
    else Err (BadLength u32_max).
Proof.
  unfold encode_payload. case_match eqn:Hle.
  - rewrite payload_sizes_total by first [apply blen_nonneg | lia].
    cbn -[be_bytes]. rewrite backfill_region. unfold wire_payload.
    rewrite blen_wire_inner. unfold wire_inner, put_u32, put_u16, encoded_len.
    simpl wire_envelope. rewrite blen_nil, Z.add_0_r. by rewrite <- !(assoc_L (++)).
  - by rewrite payload_sizes_err by lia.
Qed.

Lemma encode_command_layout dst (cmd : BaseCommand) :
  encode_command dst cmd =
    if 4 + encoded_len cmd <=? u32_max then Ok (dst ++ wire_command (pb_encode cmd))
    else Err (BadLength u32_max).
Proof.
  unfold encode_command, checked_add, try_from_max, encoded_len, wire_command, put_u32.
  pose proof (blen_nonneg (pb_encode cmd)). frame_consts.
  repeat (case_match; simpl; try done; try lia). by rewrite <- !(assoc_L (++)).
Qed.
End Layout.

(** * Decoding the layout *)

Section Decoding.
Context {BaseCommand MessageMetadata BrokerEntryMetadata : Type}.
Context `{!ProtoMessage BaseCommand, !ProtoMessage MessageMetadata,
          !ProtoMessage BrokerEntryMetadata, !Crc32c, !Crc32cLaws}.

Abbreviation frame := (Frame BaseCommand MessageMetadata BrokerEntryMetadata).

Lemma decode_one_carve total inner rest :
  total = blen inner -> 0 < total <= MAX_FRAME_SIZE ->
  decode_one (be_bytes 4 total ++ inner ++ rest) =
    (decode_carved total inner : result FrameError frame, rest).
Proof.
  intros -> Hb. pose proof (blen_nonneg rest). unfold decode_one.
  frame_consts. rewrite read_u32_app by lia.
  repeat decide_if. rewrite (assoc_L (++)), btake_app by frame_len.
  rewrite (bdrop_app (4 + blen inner)) by frame_len.
  by rewrite (bdrop_be 4).
Qed.

Lemma decode_checksummed_region t mb (m : MessageMetadata) p :
  pb_decode mb = Some m -> blen mb < 2 ^ 32 ->
  decode_checksummed t (be_bytes 4 (crc32c (wire_region mb p)) ++ wire_region mb p) = Ok (m, p).
Proof.
  intros Hm Hl. unfold decode_checksummed. frame_consts.
  pose proof (blen_nonneg mb); pose proof (blen_nonneg p).
  assert (blen (wire_region mb p) = 4 + blen mb + blen p) by (unfold wire_region; frame_len).
  decide_if. rewrite read_u32_app by apply crc32c_range. rewrite (bdrop_be 4).
  rewrite Z.eqb_refl. simpl. unfold wire_region.
  rewrite read_u32_app, (bdrop_be 4) by lia. decide_if.
  rewrite btake_app, bdrop_app by done. by rewrite Hm.
Qed.

Lemma decode_envelope_some t bb (b : BrokerEntryMetadata) r :
  pb_decode bb = Some b -> blen bb < 2 ^ 32 -> 2 <= blen r ->
  decode_envelope_metadata t (wire_envelope (Some bb) ++ r) = Ok (Some b, r).
Proof.
  intros Hb Hl Hr. unfold decode_envelope_metadata, wire_envelope. frame_consts.
  rewrite <- !(assoc_L (++)). rewrite read_u16_app by done. rewrite Z.eqb_refl.
  rewrite (bdrop_be 2). pose proof (blen_nonneg bb). decide_if.
  rewrite read_u32_app, (bdrop_be 4) by lia. decide_if.
  rewrite btake_app, bdrop_app by done. rewrite Hb. simpl. by decide_if.
Qed.

Lemma decode_envelope_none t r :
  decode_envelope_metadata t (be_bytes 2 MAGIC_CRC32C ++ r)
  = Ok (None : option BrokerEntryMetadata, be_bytes 2 MAGIC_CRC32C ++ r).
Proof. unfold decode_envelope_metadata. by rewrite read_u16_app by done. Qed.

Definition decodes_opt (bb : option bytes) (b : option BrokerEntryMetadata) : Prop :=
  match bb, b with
  | None, None => True
  | Some x, Some y => pb_decode x = Some y
  | _, _ => False
  end.

Lemma decode_carved_payload t cb (c : BaseCommand) bb b mb (m : MessageMetadata) p :
  pb_decode cb = Some c -> decodes_opt bb b -> pb_decode mb = Some m ->
  blen (wire_inner cb bb mb p) < 2 ^ 32 ->
  decode_carved t (wire_inner cb bb mb p) = Ok (mkFrame c (Some (mkPayload b m p))).
Proof.
  intros Hc Hb Hm Hl. rewrite blen_wire_inner in Hl.
  pose proof (blen_nonneg cb); pose proof (blen_nonneg mb); pose proof (blen_nonneg p).
  assert (Hr : blen (wire_region mb p) = 4 + blen mb + blen p) by (unfold wire_region; frame_len).
  pose proof (blen_nonneg (wire_envelope bb)).
  unfold decode_carved, wire_inner. frame_consts. decide_if.
  rewrite read_u32_app, (bdrop_be 4) by lia. decide_if.
  rewrite btake_app, bdrop_app by done. rewrite Hc. simpl. decide_if. decide_if.
  assert (He : decode_envelope_metadata t
    (wire_envelope bb ++ be_bytes 2 MAGIC_CRC32C
       ++ be_bytes 4 (crc32c (wire_region mb p)) ++ wire_region mb p)
    = Ok (b, be_bytes 2 MAGIC_CRC32C
       ++ be_bytes 4 (crc32c (wire_region mb p)) ++ wire_region mb p)).
  { destruct bb as [x|], b as [y|]; simpl in Hb; [|done..|apply decode_envelope_none].
    apply decode_envelope_some; [done| |frame_len].
    revert Hl. unfold wire_envelope. frame_len. }
  rewrite He. simpl. rewrite read_u16_app by done. simpl. rewrite (bdrop_be 2).
  rewrite (decode_checksummed_region _ _ m); [done..|lia].
Qed.

Lemma decode_wire_payload cb (c : BaseCommand) bb b mb (m : MessageMetadata) p rest :
  pb_decode cb = Some c -> decodes_opt bb b -> pb_decode mb = Some m ->
  blen (wire_inner cb bb mb p) <= MAX_FRAME_SIZE ->
  decode_one (wire_payload cb bb mb p ++ rest)
  = (Ok (mkFrame c (Some (mkPayload b m p))), rest).
Proof.
  intros Hc Hb Hm Hl. unfold wire_payload. rewrite <- (assoc_L (++)).
  assert (0 < blen (wire_inner cb bb mb p)).
  { rewrite blen_wire_inner. pose proof (blen_nonneg cb); pose proof (blen_nonneg mb).
    pose proof (blen_nonneg p). pose proof (blen_nonneg (wire_envelope bb)). lia. }
  rewrite decode_one_carve by done. f_equal.
  apply decode_carved_payload; try done. frame_consts. lia.
Qed.

Lemma decode_wire_command cb (c : BaseCommand) rest :
  pb_decode cb = Some c -> 4 + blen cb <= MAX_FRAME_SIZE ->
  decode_one (wire_command cb ++ rest) = (Ok (mkFrame c None) : result FrameError frame, rest).
Proof.
  intros Hc Hl. unfold wire_command. rewrite <- !(assoc_L (++)), (assoc_L (++) _ _ rest).
  pose proof (blen_nonneg cb).
  rewrite decode_one_carve by frame_len. f_equal. unfold decode_carved. frame_consts.
  decide_if. rewrite read_u32_app, (bdrop_be 4) by lia. decide_if.
  pose proof (btake_app (blen cb) cb [] eq_refl) as Ht.
  pose proof (bdrop_app (blen cb) cb [] eq_refl) as Hd.
  rewrite app_nil_r in Ht, Hd. by rewrite Ht, Hd, Hc.
Qed.
End Decoding.

(** * Only the layout is accepted *)

Section Soundness.
Context {BaseCommand MessageMetadata BrokerEntryMetadata : Type}.
Context `{!ProtoMessage BaseCommand, !ProtoMessage MessageMetadata,
          !ProtoMessage BrokerEntryMetadata, !Crc32c}.

Abbreviation frame := (Frame BaseCommand MessageMetadata BrokerEntryMetadata).

(** A field [read_u32 b] followed by that many bytes. *)
Lemma sized_split b :
  4 <= blen b -> read_u32 b <= blen (bdrop 4 b) ->
  let v := btake (read_u32 b) (bdrop 4 b) in
  b = be_bytes 4 (blen v) ++ v ++ bdrop (read_u32 b) (bdrop 4 b).
Proof.
  intros Hb Hle. simpl. pose proof (read_u32_range b Hb).
  rewrite blen_btake by lia. rewrite btake_bdrop. by apply read_u32_split.
Qed.

Lemma decode_checksummed_sound t fb (m : MessageMetadata) p :
  decode_checksummed t fb = Ok (m, p) ->
  exists mb, pb_decode mb = Some m
    /\ fb = be_bytes 4 (crc32c (wire_region mb p)) ++ wire_region mb p.
Proof.
  unfold decode_checksummed. frame_consts. case_match; [done|].
  case_match eqn:Hcrc; [done|]. case_match; [done|]. intros. inv_ok. simplify_eq.
  apply negb_false_iff, Z.eqb_eq in Hcrc. rewrite Z.gtb_ltb in *.
  assert (Hlen : 4 <= blen (bdrop 4 fb)) by (rewrite blen_bdrop; lia).
  pose proof (sized_split (bdrop 4 fb) Hlen ltac:(lia)) as Hs. simpl in Hs.
  eexists; split; [done|]. unfold wire_region. rewrite <- Hs, Hcrc.
  apply read_u32_split. lia.
Qed.

Lemma decode_envelope_sound t fb (b : option BrokerEntryMetadata) fb' :
  2 <= blen fb -> decode_envelope_metadata t fb = Ok (b, fb') ->
  2 <= blen fb' /\ exists bb, decodes_opt bb b /\ fb = wire_envelope bb ++ fb'.
Proof.
  intros Hfb. unfold decode_envelope_metadata. frame_consts.
  case_match eqn:Hm; [|intros; inv_ok; simplify_eq; split; [done|by exists None]].
  case_match; [done|]. case_match; [done|]. intros. inv_ok. case_match; [done|]. inv_ok.
  simplify_eq. split; [lia|]. rewrite Z.gtb_ltb in *. apply Z.eqb_eq in Hm.
  exists (Some (btake (read_u32 (bdrop 2 fb)) (bdrop 4 (bdrop 2 fb)))). split; [done|].
  pose proof (sized_split (bdrop 2 fb) ltac:(lia) ltac:(lia)) as Hs. simpl in Hs.
  unfold wire_envelope. rewrite <- Hm. rewrite <- !(assoc_L (++)), <- Hs.
  by apply read_u16_split.
Qed.

Lemma decode_carved_sound t fb (f : frame) :
  decode_carved t fb = Ok f ->
  exists cb, pb_decode cb = Some (command f)
  /\ match payload f with
     | None => fb = be_bytes 4 (blen cb) ++ cb
     | Some pl => exists bb mb, decodes_opt bb (broker_entry_metadata pl)
         /\ pb_decode mb = Some (p_metadata pl) /\ fb = wire_inner cb bb mb (body pl)
     end.
Proof.
  unfold decode_carved. frame_consts. case_match; [done|]. case_match; [done|].
  intros. inv_ok. rewrite Z.gtb_ltb in *.
  pose proof (sized_split fb ltac:(lia) ltac:(lia)) as Hs. simpl in Hs.
  set (cb := btake (read_u32 fb) (bdrop 4 fb)) in *.
  set (tl := bdrop (read_u32 fb) (bdrop 4 fb)) in *.
  exists cb. case_match eqn:Hz.
  { inv_ok. split; [done|]. simpl. apply Z.eqb_eq in Hz.
    assert (tl = []) as Hr' by (apply length_zero_iff_nil; unfold blen in Hz; lia).
    by rewrite Hr', app_nil_r in Hs. }
  case_match; [done|]. inv_ok. destruct r0 as [b fb']. case_match eqn:Hmg; [done|]. inv_ok.
  destruct r0 as [m p]. inv_ok. simpl. split; [done|].
  apply decode_envelope_sound in Hr0 as (Hlen & bb & Hbb & Heq); [|lia].
  apply decode_checksummed_sound in Hr1 as (mb & Hmb & Heq').
  exists bb, mb. split_and!; [done..|].
  unfold wire_inner. rewrite <- Heq'. apply negb_false_iff, Z.eqb_eq in Hmg.
  rewrite <- Hmg. rewrite <- (read_u16_split fb') by done. by rewrite <- Heq.
Qed.

Lemma decode_one_ok_carved src (f : frame) rest :
  decode_one src = (Ok f, rest) ->
  exists fb, src = be_bytes 4 (blen fb) ++ fb ++ rest /\ 0 < blen fb <= MAX_FRAME_SIZE
    /\ decode_carved (blen fb) fb = Ok f.
Proof.
  unfold decode_one. frame_consts. do 4 (case_match; [done|]). intros Hd.
  injection Hd as Hc <-. rewrite Z.gtb_ltb in *.
  pose proof (read_u32_range src ltac:(lia)).
  assert (Hle : 4 <= blen src) by lia.
  exists (btake (read_u32 src) (bdrop 4 src)).
  rewrite blen_btake by (rewrite blen_bdrop; lia).
  assert (Hcut : bdrop 4 (btake (4 + read_u32 src) src) = btake (read_u32 src) (bdrop 4 src)).
  { unfold bdrop, btake. rewrite skipn_firstn_comm. f_equal. lia. }
  assert (Hrest : bdrop (4 + read_u32 src) src = bdrop (read_u32 src) (bdrop 4 src)).
  { unfold bdrop. rewrite drop_drop. f_equal. lia. }
  rewrite Hcut in Hc. rewrite Hrest, btake_bdrop. split_and!; [|lia..|done].
  by apply read_u32_split.
Qed.
End Soundness.

(** * The codec's contract *)

Section Contract.
Context {BaseCommand MessageMetadata BrokerEntryMetadata : Type}.
Context `{!ProtoMessage BaseCommand, !ProtoMessage MessageMetadata,
          !ProtoMessage BrokerEntryMetadata, !Crc32c}.

Abbreviation frame := (Frame BaseCommand MessageMetadata BrokerEntryMetadata).

(** How the cheap front-of-stream check and the decoder agree on [src]. *)
Definition peek_agrees (src : bytes) : Prop :=
  match peek_full_frame_len src with
  | Ok None => exists n, 0 < n /\ decode_one src = (Err (Incomplete n) : result _ frame, src)
  | Ok (Some n) =>
      TOTAL_SIZE_LEN < n <= blen src /\ n <= TOTAL_SIZE_LEN + MAX_FRAME_SIZE
      /\ (decode_one src : result _ frame * _).2 = bdrop n src
      /\ decode_one (btake n src) = ((decode_one src : result _ frame * _).1, [])
  | Err e => decode_one src = (Err e : result _ frame, src)
  end.

Lemma peek_frame_prefix src n :
  peek_full_frame_len src = Ok (Some n) ->
  n = 4 + read_u32 src /\ 4 < n <= blen src /\ 0 < read_u32 src <= MAX_FRAME_SIZE.
Proof.
  unfold peek_full_frame_len. frame_consts. repeat case_match; intros; simplify_eq.
  rewrite Z.gtb_ltb in *. pose proof (read_u32_range src ltac:(lia)). lia.
Qed.

Lemma peek_app src n r :
  peek_full_frame_len src = Ok (Some n) -> peek_full_frame_len (src ++ r) = Ok (Some n).
Proof.
  intros Hp. apply peek_frame_prefix in Hp as (-> & Hn & Hr). unfold peek_full_frame_len.
  pose proof (blen_nonneg r). frame_consts.
  assert (Hs : read_u32 (src ++ r) = read_u32 src).
  { rewrite (read_u32_split src) at 1 by lia. rewrite <- (assoc_L (++)).
    apply read_u32_app. lia. }
  rewrite Hs. by repeat decide_if.
Qed.

Lemma peek_app_err src e r :
  peek_full_frame_len src = Err e -> peek_full_frame_len (src ++ r) = Err e.
Proof.
  unfold peek_full_frame_len. frame_consts. pose proof (blen_nonneg r).
  case_match; [done|]. assert (Hs : read_u32 (src ++ r) = read_u32 src).
  { rewrite (read_u32_split src) at 1 by lia. rewrite <- (assoc_L (++)).
    apply read_u32_app, read_u32_range. lia. }
  rewrite Hs, blen_app. repeat case_match; try done; lia.
Qed.

Lemma peek_split src n :
  peek_full_frame_len src = Ok (Some n) ->
  exists inner, blen inner = read_u32 src /\ n = 4 + blen inner
    /\ 0 < blen inner <= MAX_FRAME_SIZE
    /\ btake n src = be_bytes 4 (blen inner) ++ inner ++ []
    /\ src = be_bytes 4 (blen inner) ++ inner ++ bdrop n src.
Proof.
  intros Hp. apply peek_frame_prefix in Hp as (-> & Hn & Hr).
  assert (Hl : blen (btake (read_u32 src) (bdrop 4 src)) = read_u32 src)
    by (rewrite blen_btake; [done|rewrite blen_bdrop; lia]).
  assert (Hd : bdrop (4 + read_u32 src) src = bdrop (read_u32 src) (bdrop 4 src)).
  { unfold bdrop. rewrite drop_drop. f_equal. lia. }
  assert (Hsrc : src = be_bytes 4 (read_u32 src) ++ btake (read_u32 src) (bdrop 4 src)
                   ++ bdrop (4 + read_u32 src) src).
  { rewrite Hd, btake_bdrop. apply read_u32_split. lia. }
  exists (btake (read_u32 src) (bdrop 4 src)). rewrite Hl.
  split_and!; try done; try lia.
  rewrite app_nil_r. rewrite Hsrc at 2. rewrite (assoc_L (++)). apply btake_app.
  rewrite blen_app, blen_be_bytes, Hl. lia.
Qed.

(** [peek_full_frame_len] and [decode_one] agree on every buffer: a parked
    buffer decodes to [Incomplete] and is left intact, a rejected length is
    rejected by both without consuming anything, and an announced frame is
    consumed exactly, with an outcome that depends on its own bytes only. *)
Theorem peek_decode_agree (src : bytes) : peek_agrees src.
Proof.
  unfold peek_agrees. destruct (peek_full_frame_len src) as [[n|]|e] eqn:Hp.
  - pose proof (peek_frame_prefix _ _ Hp) as (_ & Hn & _).
    apply peek_split in Hp as (inner & _ & -> & Hb & Ht & Hs).
    rewrite Ht. assert (Hd : (decode_one src : result _ frame * _)
      = (decode_carved (blen inner) inner, bdrop (4 + blen inner) src)).
    { rewrite Hs at 1. by apply decode_one_carve. }
    rewrite Hd, decode_one_carve by done. frame_consts. split_and!; try done; lia.
  - unfold peek_full_frame_len in Hp. unfold decode_one. frame_consts.
    repeat case_match; simplify_eq; eexists; (split; [|done]); lia.
  - unfold peek_full_frame_len in Hp. unfold decode_one. frame_consts.
    repeat case_match; by simplify_eq.
Qed.

(** C9: [decode_one] accepts only what the format describes: an accepted frame
    is the announced length followed by a command, or by a command, an optional
    broker-entry envelope and a payload region whose CRC32C matches; exactly
    those bytes are consumed. *)
Theorem decode_one_sound (src : bytes) (f : frame) (rest : bytes) :
  decode_one src = (Ok f, rest) ->
  exists cb, pb_decode cb = Some (command f)
  /\ match payload f with
     | None => src = wire_command cb ++ rest
     | Some pl => exists bb mb, decodes_opt bb (broker_entry_metadata pl)
         /\ pb_decode mb = Some (p_metadata pl)
         /\ src = wire_payload cb bb mb (body pl) ++ rest
     end.
Proof.
  intros Hp. apply decode_one_ok_carved in Hp as (fb & -> & _ & Hc).
  apply decode_carved_sound in Hc as (cb & Hcb & Hpl). exists cb. split; [done|].
  destruct (payload f) as [pl|].
  - destruct Hpl as (bb & mb & ? & ? & ->). exists bb, mb. split_and!; [done..|].
    unfold wire_payload. by rewrite <- (assoc_L (++)).
  - subst fb. unfold wire_command. rewrite blen_app, blen_be_bytes.
    by rewrite <- !(assoc_L (++)).
Qed.

Context `{!Crc32cLaws}.

(** The zero-copy encoder is the contiguous one: [encode_payload] appends to
    [dst] the head [encode_payload_head] builds followed by the payload, and the
    two fail on the same inputs with the same error. *)
Theorem encode_head_agree (dst : bytes) (cmd : BaseCommand) (meta : MessageMetadata) (p : bytes) :
  encode_payload dst cmd meta p = (fun head => dst ++ head ++ p) <$> encode_payload_head cmd meta p.
Proof.
  rewrite encode_payload_layout. unfold encode_payload_head.
  case_match; [|by rewrite payload_sizes_err by lia].
  rewrite payload_sizes_total by first [apply blen_nonneg | lia].
  cbn -[be_bytes put_u32 put_u16 app]. rewrite backfill_region. unfold wire_payload.
  rewrite blen_wire_inner. unfold wire_inner, put_u32, put_u16, encoded_len.
  simpl wire_envelope. rewrite blen_nil, Z.add_0_r. simpl. by rewrite <- !(assoc_L (++)).
Qed.

Context `{!ProtoLaws BaseCommand, !ProtoLaws MessageMetadata}.

(** C10: round trip of a payload frame: whatever follows it on the stream, an
    encoded frame within the size ceiling decodes to the command, the metadata
    and the payload it was built from, and the rest of the stream is kept. *)
Theorem payload_roundtrip (cmd : BaseCommand) (meta : MessageMetadata) (p rest : bytes) :
  14 + encoded_len cmd + encoded_len meta + blen p <= MAX_FRAME_SIZE ->
  exists w, encode_payload [] cmd meta p = Ok w
    /\ decode_one (w ++ rest)
       = (Ok (mkFrame cmd (Some (mkPayload None meta p))) : result _ frame, rest).
Proof.
  intros Hl. rewrite encode_payload_layout.
  frame_consts. rewrite (proj2 (Z.leb_le _ _)) by lia.
  eexists; split; [done|]. simpl app at 1. apply decode_wire_payload; [apply pb_decode_encode|done|apply pb_decode_encode|].
  rewrite blen_wire_inner. simpl wire_envelope. rewrite blen_nil.
  unfold encoded_len in *. frame_consts. lia.
Qed.

Lemma command_roundtrip_aux (cmd : BaseCommand) rest :
  4 + encoded_len cmd <= MAX_FRAME_SIZE ->
  decode_one (wire_command (pb_encode cmd) ++ rest) = (Ok (mkFrame cmd None) : result _ frame, rest).
Proof. intros. apply decode_wire_command; [apply pb_decode_encode | done]. Qed.
End Contract.

(** * A concrete codec

    Messages that are their own encoding, and the bitwise CRC32C (Castagnoli,
    reflected polynomial [0x82F63B78]): the interfaces above are inhabited. *)

Module Concrete.
#[export] Instance raw_message : ProtoMessage bytes :=
  {| pb_encode b := b; pb_decode b := Some b |}.
#[export] Instance raw_laws : ProtoLaws bytes.
Proof. done. Qed.

Definition crc_bit (c : Z) : Z :=
  if Z.odd c then Z.lxor (Z.shiftr c 1) 0x82F63B78 else Z.shiftr c 1.
Definition crc_byte (c : Z) (b : byte) : Z :=
  Nat.iter 8 crc_bit (Z.lxor c (Byte.byte.unsigned b)).
Definition crc_fold (c : Z) (b : bytes) : Z := fold_left crc_byte b c.
Definition crc_not (c : Z) : Z := Z.lxor c 0xFFFFFFFF.

#[export] Instance crc32c_bitwise : Crc32c :=
  {| crc32c b := crc_not (crc_fold 0xFFFFFFFF b);
     crc32c_append c b := crc_not (crc_fold (crc_not c) b) |}.

Lemma crc_not_invol c : crc_not (crc_not c) = c.
Proof. unfold crc_not. by rewrite Z.lxor_assoc, Z.lxor_nilpotent, Z.lxor_0_r. Qed.

Lemma lxor_bound a b : 0 <= a < 2 ^ 32 -> 0 <= b < 2 ^ 32 -> 0 <= Z.lxor a b < 2 ^ 32.
Proof.
  intros Ha Hb. split; [apply Z.lxor_nonneg; lia|].
  destruct (decide (Z.lxor a b = 0)) as [->|Hne]; [lia|].
  assert (0 <= Z.lxor a b) by (apply Z.lxor_nonneg; lia).
  apply Z.log2_lt_pow2; [lia|]. eapply Z.le_lt_trans; [apply Z.log2_lxor; lia|].
  assert (Hlog : forall x, 0 <= x < 2 ^ 32 -> Z.log2 x < 32).
  { intros x Hx. destruct (decide (x = 0)) as [->|]; [done|]. apply Z.log2_lt_pow2; lia. }
  pose proof (Hlog a Ha). pose proof (Hlog b Hb). lia.
Qed.

Lemma crc_bit_bound c : 0 <= c < 2 ^ 32 -> 0 <= crc_bit c < 2 ^ 32.
Proof.
  intros Hc. unfold crc_bit.
  assert (0 <= Z.shiftr c 1 < 2 ^ 32).
  { rewrite Z.shiftr_div_pow2 by lia. change (2 ^ 1) with 2. split; [apply Z.div_pos; lia|]. apply Z.div_lt_upper_bound; lia. }
  case_match; [|done]. apply lxor_bound; [done|lia].
Qed.

Lemma crc_fold_bound b : forall c, 0 <= c < 2 ^ 32 -> 0 <= crc_fold c b < 2 ^ 32.
Proof.
  induction b as [|x b IH]; simpl; [done|]. intros c Hc. apply IH. unfold crc_byte.
  pose proof (Byte.byte.unsigned_range x).
  do 8 apply crc_bit_bound. apply lxor_bound; lia.
Qed.

#[export] Instance crc32c_bitwise_laws : Crc32cLaws.
Proof.
  split.
  - intros b. apply lxor_bound; [|lia]. apply crc_fold_bound. lia.
  - intros a b. simpl. rewrite crc_not_invol. unfold crc_fold. by rewrite fold_left_app.
Qed.

Definition raw (l : list Z) : bytes := Byte.byte.of_Z <$> l.

(** The check value of CRC-32C on the nine digits. *)
Example crc32c_check_value :
  crc32c (raw [49; 50; 51; 52; 53; 54; 55; 56; 57]) = 0xE3069283.
Proof. vm_compute. reflexivity. Qed.

Abbreviation raw_frame := (Frame bytes bytes bytes).

Example payload_roundtrip_witness :
  exists w, encode_payload [] (raw [1; 2; 3]) (raw [4; 5]) (raw [6; 7; 8]) = Ok w
    /\ decode_one (w ++ raw [9])
       = (Ok (mkFrame (raw [1; 2; 3]) (Some (mkPayload None (raw [4; 5]) (raw [6; 7; 8]))))
           : result _ raw_frame, raw [9]).
Proof. apply payload_roundtrip. vm_compute. discriminate. Defined.

Example encode_head_agree_witness :
  encode_payload (raw [9]) (raw [1; 2; 3]) (raw [4; 5]) (raw [6; 7; 8])
  = (fun head => raw [9] ++ head ++ raw [6; 7; 8])
      <$> encode_payload_head (raw [1; 2; 3]) (raw [4; 5]) (raw [6; 7; 8]).
Proof. apply encode_head_agree. Defined.

Example decode_one_sound_witness :
  exists cb : bytes, pb_decode cb = Some (raw [1; 2; 3])
  /\ be_bytes 4 7 ++ be_bytes 4 3 ++ raw [1; 2; 3] ++ raw [9] = wire_command cb ++ raw [9].
Proof.
  refine (decode_one_sound (be_bytes 4 7 ++ be_bytes 4 3 ++ raw [1; 2; 3] ++ raw [9])
    (mkFrame (raw [1; 2; 3]) None : raw_frame) (raw [9]) _).
  vm_compute. reflexivity.
Defined.
End Concrete.
