(* ===== verification/Inbound.v ===== *)
(** The inbound half of [magnetar-proto/src/conn.rs]: buffering of socket reads
    and the per-frame decode loop ([handle_bytes], [handle_bytes_owned],
    [handle_bytes_decode_loop]).

    The loop is generic in what a decoded frame does to the rest of the
    connection: [handle_frame] is a parameter of the section, so the theorems
    hold for every dispatcher that leaves the inbound buffer alone (no handler of
    the crate touches [self.inbound]).  The outcome of the
    [handle_bytes.short_read] fault-injection roll is the argument
    [short_read_armed]; it is [false] in production. *)

From S2P Require Import Prelude Frame.

Section Inbound.
Context {BaseCommand MessageMetadata BrokerEntryMetadata : Type}.
Context `{!ProtoMessage BaseCommand, !ProtoMessage MessageMetadata,
          !ProtoMessage BrokerEntryMetadata, !Crc32c}.
Context {Rest Error : Type}.

Abbreviation frame := (Frame BaseCommand MessageMetadata BrokerEntryMetadata).

(** [ProtocolError], as far as the loop builds it: a framing error, or what the
    dispatcher returned. *)
Inductive LoopError :=
| FrameErr (e : FrameError)
| HandlerErr (e : Error).

Inductive ChecksumEvent := ChecksumMismatchEvent (computed expected : Z).

(** The fields of [Connection] the loop assigns, and the rest of it. *)
Record Conn := mkConn {
  last_activity : option Z;
  keepalive_ping_outstanding : bool;
  checksum_events : list ChecksumEvent;
  conn_rest : Rest;
}.

#[global] Instance Conn_eta : Eta Conn := fun c =>
  mkConn (last_activity c) (keepalive_ping_outstanding c) (checksum_events c) (conn_rest c).

Context (handle_frame : Z -> frame -> Conn -> Conn * result Error unit).

Abbreviation state := (bytes * Conn)%type.
Abbreviation outcome := (state * result LoopError unit)%type.

(** What one carved frame does, after the watchdog refresh. *)
Definition process_carved (now : Z) (frame_bytes : bytes) (c : Conn) : Conn * result LoopError unit :=
  let c := c <| last_activity := Some now |> <| keepalive_ping_outstanding := false |> in
  match (decode_one frame_bytes : result _ frame * _).1 with
  | Ok f => let '(c, r) := handle_frame now f c in (c, map_err HandlerErr r)
  | Err (ChecksumMismatch computed expected) =>
      (c <| checksum_events ::= fun q => q ++ [ChecksumMismatchEvent computed expected] |>, Ok tt)
  | Err other => (c, Err (FrameErr other))
  end.

(** [handle_bytes_decode_loop]; [None] is fuel exhaustion, excluded by
    [decode_loop_total] for fuel above the buffered byte count. *)
Fixpoint decode_loop (fuel : nat) (short_read_armed : bool) (now : Z) (s : state) : option outcome :=
  match fuel with
  | O => None
  | S fuel =>
      let '(inbound, c) := s in
      match peek_full_frame_len inbound with
      | Ok None => Some ((inbound, c), Ok tt)
      | Err e => Some ((inbound, c), Err (FrameErr e))
      | Ok (Some frame_len) =>
          let frame_bytes := btake frame_len inbound in
          let inbound := bdrop frame_len inbound in
          match process_carved now frame_bytes c with
          | (c, Err e) => Some ((inbound, c), Err e)
          | (c, Ok _) =>
              if short_read_armed && negb (blen inbound =? 0) then Some ((inbound, c), Ok tt)
              else decode_loop fuel short_read_armed now (inbound, c)
          end
      end
  end.

Definition handle_bytes_decode_loop (armed : bool) (now : Z) (s : state) : option outcome :=
  decode_loop (S (length s.1)) armed now s.

Definition handle_bytes (armed : bool) (now : Z) (b : bytes) (s : state) : option outcome :=
  handle_bytes_decode_loop armed now (s.1 ++ b, s.2).

Definition handle_bytes_owned (armed : bool) (now : Z) (chunk : bytes) (s : state) : option outcome :=
  if blen s.1 =? 0 then handle_bytes_decode_loop armed now (chunk, s.2)
  else handle_bytes_decode_loop armed now (s.1 ++ chunk, s.2).

(** The driver: one call per socket read, stopping at the first error; the
    bytes of the reads that were not fed stay unread on the socket. *)
Fixpoint feed_chunks (now : Z) (chunks : list bytes) (s : state) : option outcome :=
  match chunks with
  | [] => Some (s, Ok tt)
  | b :: chunks =>
      o ← handle_bytes false now b s;
      match o with
      | (s, Ok _) => feed_chunks now chunks s
      | (s, Err e) => Some (s, Err e)
      end
  end.

(** ** Lemmas *)

Lemma peek_shrinks inbound n :
  peek_full_frame_len inbound = Ok (Some n) ->
  (length (bdrop n inbound) < length inbound)%nat.
Proof.
  intros Hp. apply peek_frame_prefix in Hp as (_ & Hn & _).
  unfold bdrop, blen in *. rewrite length_drop. lia.
Qed.

Lemma decode_loop_total armed now fuel : forall s,
  (length s.1 < fuel)%nat -> is_Some (decode_loop fuel armed now s).
Proof.
  induction fuel as [|fuel IH]; intros [i c] Hf; simpl in *; [lia|].
  destruct (peek_full_frame_len i) as [[n|]|e] eqn:Hp; [|by eauto..].
  destruct (process_carved _ _ _) as [c' [|]]; [|by eauto].
  case_match; [by eauto|]. apply IH. simpl. apply peek_shrinks in Hp. lia.
Qed.

Lemma decode_loop_fuel armed now f1 : forall f2 s o,
  decode_loop f1 armed now s = Some o -> (f1 <= f2)%nat -> decode_loop f2 armed now s = Some o.
Proof.
  induction f1 as [|f1 IH]; intros [|f2] [i c] o Ho Hle; simpl in *; try done; [lia|].
  destruct (peek_full_frame_len i) as [[n|]|e]; [|done..].
  destruct (process_carved _ _ _) as [c' [|]]; [|done].
  case_match; [done|]. apply IH; [done|lia].
Qed.

(** Any sufficient fuel computes [handle_bytes_decode_loop]. *)
Lemma decode_loop_enough armed now fuel s :
  (length s.1 < fuel)%nat -> decode_loop fuel armed now s = handle_bytes_decode_loop armed now s.
Proof.
  intros Hf. unfold handle_bytes_decode_loop.
  destruct (decode_loop_total armed now (S (length s.1)) s ltac:(lia)) as [o Ho].
  rewrite Ho. eapply decode_loop_fuel; [done|lia].
Qed.

(** The loop as its own recursive equation. *)
Lemma decode_loop_eq armed now i c :
  handle_bytes_decode_loop armed now (i, c) =
    match peek_full_frame_len i with
    | Ok None => Some ((i, c), Ok tt)
    | Err e => Some ((i, c), Err (FrameErr e))
    | Ok (Some n) =>
        match process_carved now (btake n i) c with
        | (c, Err e) => Some ((bdrop n i, c), Err e)
        | (c, Ok _) =>
            if armed && negb (blen (bdrop n i) =? 0) then Some ((bdrop n i, c), Ok tt)
            else handle_bytes_decode_loop armed now (bdrop n i, c)
        end
    end.
Proof.
  unfold handle_bytes_decode_loop at 1. cbn [fst decode_loop].
  destruct (peek_full_frame_len i) as [[n|]|e] eqn:Hp; [|done..].
  destruct (process_carved _ _ _) as [c' [|]]; [|done].
  case_match; [done|]. apply decode_loop_enough. simpl. apply peek_shrinks in Hp. lia.
Qed.

Lemma peek_cut inbound n r :
  peek_full_frame_len inbound = Ok (Some n) ->
  btake n (inbound ++ r) = btake n inbound /\ bdrop n (inbound ++ r) = bdrop n inbound ++ r.
Proof.
  intros Hp. apply peek_frame_prefix in Hp as (_ & Hn & _).
  unfold btake, bdrop, blen in *. rewrite take_app_le, drop_app_le by lia. done.
Qed.

(** How an outcome continues when the bytes [b] arrive after it. *)
Definition then_feed (now : Z) (b : bytes) (o : outcome) : option outcome :=
  match o with
  | ((i, c), Ok _) => handle_bytes_decode_loop false now (i ++ b, c)
  | ((i, c), Err e) => Some ((i ++ b, c), Err e)
  end.

Lemma loop_app now b : forall n i c,
  (length i < n)%nat ->
  handle_bytes_decode_loop false now (i ++ b, c)
  = handle_bytes_decode_loop false now (i, c) ≫= then_feed now b.
Proof.
  induction n as [|n IH]; [lia|]. intros i c Hlt.
  rewrite (decode_loop_eq false now i).
  destruct (peek_full_frame_len i) as [[k|]|e] eqn:Hp.
  - rewrite decode_loop_eq, (peek_app _ _ _ Hp).
    destruct (peek_cut i k b Hp) as [-> ->].
    destruct (process_carved _ _ _) as [c' [|]]; [|done]. simpl.
    apply IH. apply peek_shrinks in Hp. lia.
  - done.
  - by rewrite decode_loop_eq, (peek_app_err _ _ _ Hp).
Qed.

Lemma handle_bytes_app now a b s :
  handle_bytes false now (a ++ b) s = handle_bytes false now a s ≫= then_feed now b.
Proof.
  unfold handle_bytes. rewrite (assoc_L (++)). apply (loop_app now b (S (length (s.1 ++ a)))). lia.
Qed.

(** A frame that decodes was announced in full by the length check. *)
Lemma peek_decode_shape src (f : frame) rest :
  decode_one src = (Ok f, rest) ->
  peek_full_frame_len src = Ok (Some (blen src - blen rest)).
Proof.
  intros Hd. pose proof (decode_one_ok_carved _ _ _ Hd) as (fb & -> & Hb & _).
  unfold peek_full_frame_len. pose proof (blen_nonneg rest). frame_consts.
  rewrite read_u32_app by lia. repeat decide_if. do 2 f_equal. frame_len.
Qed.

Definition parked (s : state) : Prop := peek_full_frame_len s.1 = Ok None.

Lemma loop_parked now : forall n i c s',
  (length i < n)%nat ->
  handle_bytes_decode_loop false now (i, c) = Some (s', Ok tt) -> parked s'.
Proof.
  induction n as [|n IH]; [lia|]. intros i c s' Hlt. rewrite decode_loop_eq.
  destruct (peek_full_frame_len i) as [[k|]|e] eqn:Hp; [|by intros [= <-]|done].
  destruct (process_carved _ _ _) as [c' [|]]; [|done]. simpl.
  apply IH. apply peek_shrinks in Hp. lia.
Qed.

Lemma handle_bytes_parked_nil now s : parked s -> handle_bytes false now [] s = Some (s, Ok tt).
Proof.
  intros Hp. destruct s as [i c]. unfold handle_bytes, parked in *. simpl in *.
  by rewrite app_nil_r, decode_loop_eq, Hp.
Qed.

Lemma handle_bytes_parked now b s s' : handle_bytes false now b s = Some (s', Ok tt) -> parked s'.
Proof. apply (loop_parked now (S (length (s.1 ++ b)))). lia. Qed.

Lemma handle_bytes_total armed now b s : is_Some (handle_bytes armed now b s).
Proof. apply decode_loop_total. simpl. lia. Qed.

(** C8: chunking is invisible: feeding any sequence of socket reads, one call
    each, terminates, and leaves the same connection, the same buffered bytes
    and the same outcome as one call on their concatenation; when a read fails
    the only difference is the bytes of the reads that were never fed. *)
Theorem chunking_invisible (now : Z) (chunks : list bytes) (s : state) :
  parked s ->
  exists s' r unread,
    feed_chunks now chunks s = Some (s', r)
    /\ handle_bytes false now (concat chunks) s = Some ((s'.1 ++ unread, s'.2), r)
    /\ (r = Ok tt -> unread = [] /\ parked s').
Proof.
  revert s. induction chunks as [|b chunks IH]; intros s Hs.
  { exists s, (Ok tt), []. simpl. rewrite app_nil_r. destruct s.
    split_and!; [done|by apply handle_bytes_parked_nil|done]. }
  simpl. rewrite handle_bytes_app.
  destruct (handle_bytes_total false now b s) as [[[i c] r] Hr]. rewrite Hr. simpl.
  destruct r as [[]|e].
  - destruct (IH (i, c)) as (s' & r & u & Hf & Hh & Hu); [by eapply handle_bytes_parked|].
    exists s', r, u. split_and!; [done| |done]. exact Hh.
  - exists (i, c), (Err e), (concat chunks). done.
Qed.

(** The two entry points are one function: handing over an owned buffer
    (which replaces an empty staging buffer) is feeding its bytes. *)
Theorem owned_is_borrowed (armed : bool) (now : Z) (chunk : bytes) (s : state) :
  handle_bytes_owned armed now chunk s = handle_bytes armed now chunk s.
Proof.
  unfold handle_bytes_owned, handle_bytes. destruct s as [i c]. simpl.
  case_match eqn:Hz; [|done]. apply Z.eqb_eq in Hz.
  by destruct i; [|unfold blen in Hz; simpl in Hz; lia].
Qed.

(** A socket that dribbles bytes without ever completing a frame does not
    feed the keepalive watchdog: the bytes are buffered and nothing else of the
    connection changes, whatever was read before. *)
Theorem no_frame_no_refresh (armed : bool) (now : Z) (b : bytes) (s : state) :
  peek_full_frame_len (s.1 ++ b) = Ok None ->
  handle_bytes armed now b s = Some ((s.1 ++ b, s.2), Ok tt).
Proof. intros Hp. unfold handle_bytes. by rewrite decode_loop_eq, Hp. Qed.

(** A synthetic short read only delays: whatever the armed call leaves
    behind, the next call on no further bytes finishes the drain with the
    connection, the buffer and the outcome of an uninterrupted call. *)
Theorem short_read_resumes (now : Z) (b : bytes) (s s1 : state) :
  handle_bytes true now b s = Some (s1, Ok tt) ->
  handle_bytes false now [] s1 = handle_bytes false now b s.
Proof.
  unfold handle_bytes. destruct s as [i c], s1 as [i1 c1]. simpl. rewrite app_nil_r.
  generalize (i ++ b). clear i. intros i.
  remember (S (length i)) as n eqn:Hn. assert (Hlt : (length i < n)%nat) by lia. clear Hn.
  revert i c Hlt. induction n as [|n IH]; [lia|]. intros i c Hlt.
  rewrite (decode_loop_eq true), (decode_loop_eq false now i).
  destruct (peek_full_frame_len i) as [[k|]|e] eqn:Hp; [| |done].
  - destruct (process_carved _ _ _) as [c' [|]]; [|done]. simpl.
    case_match; [by intros [= -> ->]|]. apply IH. apply peek_shrinks in Hp. lia.
  - intros [= <- <-]. by rewrite decode_loop_eq, Hp.
Qed.

(** ** What a peer that speaks the format gets dispatched *)

(** A frame a peer sends: a command, or a command with metadata and payload. *)
Definition outgoing : Type := BaseCommand * option (MessageMetadata * bytes).

Definition encode_outgoing (dst : bytes) (o : outgoing) : result FrameError bytes :=
  match o with
  | (cmd, None) => encode_command dst cmd
  | (cmd, Some (meta, p)) => encode_payload dst cmd meta p
  end.

Fixpoint encode_all (dst : bytes) (os : list outgoing) : result FrameError bytes :=
  match os with
  | [] => Ok dst
  | o :: os => dst ← encode_outgoing dst o; encode_all dst os
  end.

Definition outgoing_frame (o : outgoing) : frame :=
  mkFrame o.1 ((fun '(meta, p) => mkPayload None meta p) <$> o.2).

Definition outgoing_fits (o : outgoing) : Prop :=
  match o with
  | (cmd, None) => 4 + encoded_len cmd <= MAX_FRAME_SIZE
  | (cmd, Some (meta, p)) => 14 + encoded_len cmd + encoded_len meta + blen p <= MAX_FRAME_SIZE
  end.

(** The frames handed to the dispatcher one after the other, up to the first
    error; the frames after it are returned. *)
Fixpoint dispatch_all (now : Z) (os : list outgoing) (c : Conn) : Conn * result LoopError unit * list outgoing :=
  match os with
  | [] => (c, Ok tt, [])
  | o :: os =>
      let c := c <| last_activity := Some now |> <| keepalive_ping_outstanding := false |> in
      match handle_frame now (outgoing_frame o) c with
      | (c, Ok _) => dispatch_all now os c
      | (c, Err e) => (c, Err (HandlerErr e), os)
      end
  end.

Context `{!Crc32cLaws, !ProtoLaws BaseCommand, !ProtoLaws MessageMetadata}.

Definition wire_outgoing (o : outgoing) : bytes :=
  match o with
  | (cmd, None) => wire_command (pb_encode cmd)
  | (cmd, Some (meta, p)) => wire_payload (pb_encode cmd) None (pb_encode meta) p
  end.

Lemma encode_outgoing_wire o dst :
  outgoing_fits o -> encode_outgoing dst o = Ok (dst ++ wire_outgoing o).
Proof.
  destruct o as [cmd [[meta p]|]]; simpl; intros Hf;
    rewrite ?encode_payload_layout, ?encode_command_layout;
    by rewrite (proj2 (Z.leb_le _ _)) by (frame_consts; lia).
Qed.

Lemma wire_outgoing_decodes o rest :
  outgoing_fits o -> decode_one (wire_outgoing o ++ rest) = (Ok (outgoing_frame o), rest).
Proof.
  destruct o as [cmd [[meta p]|]]; simpl; intros Hf; [|by apply command_roundtrip_aux].
  apply decode_wire_payload; [apply pb_decode_encode|done|apply pb_decode_encode|].
  rewrite blen_wire_inner. simpl wire_envelope. rewrite blen_nil.
  unfold encoded_len in *. lia.
Qed.

Lemma dispatch_all_left now : forall os c,
  let unsent := (dispatch_all now os c).2 in
  unsent `suffix_of` os /\ ((dispatch_all now os c).1.2 = Ok tt -> unsent = []).
Proof.
  induction os as [|o os IH]; intros c; simpl; [done|].
  destruct (handle_frame _ _ _) as [c' [|]].
  - destruct (IH c') as [? ?]. split; [by apply suffix_cons_r|done].
  - split; [by apply suffix_cons_r|done].
Qed.

Lemma encode_all_wire os : forall dst,
  Forall outgoing_fits os -> encode_all dst os = Ok (dst ++ concat (wire_outgoing <$> os)).
Proof.
  induction os as [|o os IH]; intros dst Hf; simpl; [by rewrite app_nil_r|].
  inversion Hf; subst. rewrite encode_outgoing_wire by done. simpl.
  rewrite IH by done. by rewrite <- (assoc_L (++)).
Qed.

Lemma peek_wire_outgoing o rest :
  outgoing_fits o ->
  peek_full_frame_len (wire_outgoing o ++ rest) = Ok (Some (blen (wire_outgoing o))).
Proof.
  intros Hf. pose proof (peek_decode_shape (wire_outgoing o ++ rest)) as Hp.
  specialize (Hp _ _ (wire_outgoing_decodes o rest Hf)). rewrite Hp. do 2 f_equal.
  rewrite blen_app. lia.
Qed.

Lemma loop_dispatches now : forall os c,
  Forall outgoing_fits os ->
  let '(c', r, unsent) := dispatch_all now os c in
  handle_bytes_decode_loop false now (concat (wire_outgoing <$> os), c)
  = Some ((concat (wire_outgoing <$> unsent), c'), r).
Proof.
  induction os as [|o os IH]; intros c Hf; simpl.
  { by rewrite decode_loop_eq. }
  inversion Hf; subst. rewrite decode_loop_eq, peek_wire_outgoing by done.
  rewrite btake_app, bdrop_app by done. unfold process_carved.
  pose proof (wire_outgoing_decodes o [] ltac:(done)) as Hd.
  rewrite app_nil_r in Hd. rewrite Hd. simpl fst. cbv iota beta.
  destruct (handle_frame _ _ _) as [c' [|]]; [|done]. simpl. by apply IH.
Qed.

(** Stream round trip: the frames a peer encodes back to back are handed to
    the dispatcher one by one, in order and unchanged, until the stream is
    drained or a handler fails; in that case the frames after it are still
    buffered, byte for byte. *)
Theorem stream_dispatches (now : Z) (os : list outgoing) (c : Conn) :
  Forall outgoing_fits os ->
  exists w, encode_all [] os = Ok w
    /\ let '(c', r, unsent) := dispatch_all now os c in
       exists wl, encode_all [] unsent = Ok wl
         /\ handle_bytes false now w ([], c) = Some ((wl, c'), r)
         /\ (r = Ok tt -> unsent = []).
Proof.
  intros Hf. eexists; split; [by apply encode_all_wire|].
  pose proof (loop_dispatches now os c Hf) as Hl.
  pose proof (dispatch_all_left now os c) as Hleft.
  destruct (dispatch_all now os c) as [[c' r] unsent]. simpl in Hleft.
  destruct Hleft as [Hs Hok].
  exists (concat (wire_outgoing <$> unsent)). split_and!; [|done|done].
  apply encode_all_wire. destruct Hs as [done_ ->]. by apply Forall_app in Hf as [_ ?].
Qed.
End Inbound.

(** * Witnesses on the concrete codec *)

Module InboundWitness.
Import Concrete.

(** A dispatcher that records the commands it sees and refuses command [255]. *)
Definition record_frame (now : Z) (f : raw_frame) (c : Conn (Rest := list bytes))
    : Conn * result Z unit :=
  if bool_decide (command f = raw [255]) then (c, Err 255)
  else (c <| conn_rest ::= fun l => l ++ [command f] |>, Ok tt).

Definition conn0 : Conn (Rest := list bytes) := mkConn None true [] [].

Definition two_frames : list (outgoing (BaseCommand := bytes) (MessageMetadata := bytes)) :=
  [(raw [1; 2], None); (raw [3], Some (raw [4], raw [5; 6]))].

Example chunking_invisible_witness :
  exists s' r unread,
    feed_chunks record_frame 7 [raw [0; 0]; raw [0; 6; 0; 0; 0]; raw [2; 1; 2; 0]] ([], conn0)
      = Some (s', r)
    /\ handle_bytes record_frame false 7
         (concat [raw [0; 0]; raw [0; 6; 0; 0; 0]; raw [2; 1; 2; 0]]) ([], conn0)
       = Some ((s'.1 ++ unread, s'.2), r)
    /\ (r = Ok tt -> unread = [] /\ parked s').
Proof. apply (chunking_invisible record_frame). reflexivity. Defined.

Example no_frame_no_refresh_witness :
  handle_bytes record_frame false 7 (raw [0; 0; 1; 0; 0]) ([], conn0)
  = Some ((raw [0; 0; 1; 0; 0], conn0), Ok tt).
Proof. apply (no_frame_no_refresh record_frame). reflexivity. Defined.

Definition stream2 : bytes := be_bytes 4 5 ++ be_bytes 4 1 ++ raw [1] ++ be_bytes 4 5 ++ be_bytes 4 1 ++ raw [2].

Example short_read_resumes_witness :
  let s1 := (be_bytes 4 5 ++ be_bytes 4 1 ++ raw [2], mkConn (Some 7) false [] [raw [1]]) in
  handle_bytes record_frame false 7 [] s1 = handle_bytes record_frame false 7 stream2 ([], conn0).
Proof. apply (short_read_resumes record_frame). vm_compute. reflexivity. Defined.

Example stream_dispatches_witness :
  exists w, encode_all [] two_frames = Ok w
    /\ let '(c', r, unsent) := dispatch_all record_frame 7 two_frames conn0 in
       exists wl, encode_all [] unsent = Ok wl
         /\ handle_bytes record_frame false 7 w ([], conn0) = Some ((wl, c'), r)
         /\ (r = Ok tt -> unsent = []).
Proof.
  apply (stream_dispatches record_frame).
  repeat constructor; vm_compute; discriminate.
Defined.
End InboundWitness.
