(* ===== verification/AntiThrash.v ===== *)
(** The anti-thrash detector of [magnetar-proto/src/anti_thrash.rs]: a bounded
    ring of re-attach outcomes that arms a connection-level cooldown when enough
    consecutive attaches were each followed at once by a socket drop. *)

From S2P Require Import Prelude Time.

Inductive ReAttachOutcomeKind := ReAttachOk | TcpDropAfterReAttach.

Inductive ReAttachHandle := ReProducer (id : Z) | ReConsumer (id : Z).

Record AttachOutcome := mkAttach {
  attached_at : Z;
  dropped_at : option Z;
  at_handle : ReAttachHandle;
}.

Definition drop_delta (o : AttachOutcome) : option Z :=
  (fun d => saturating_duration_since d (attached_at o)) <$> dropped_at o.

Record AntiThrashThreshold := mkThreshold {
  successful_attaches : Z;
  at_window : Z;
  drop_within : Z;
}.

Definition threshold_recommended : AntiThrashThreshold :=
  mkThreshold 5 (from_secs 2) (from_millis 50).

Inductive AntiThrashDisposition := Normal | Cooldown (until : Z).

Record AntiThrashState := mkAntiThrash {
  at_threshold : option AntiThrashThreshold;
  at_cooldown : Z;
  ring : list AttachOutcome;
  cooldown_until : option Z;
  pending_first_op : bool;
}.

#[global] Instance AntiThrash_eta : Eta AntiThrashState := fun s =>
  mkAntiThrash (at_threshold s) (at_cooldown s) (ring s) (cooldown_until s) (pending_first_op s).

Definition at_disabled : AntiThrashState := mkAntiThrash None (from_secs 30) [] None false.

Definition ring_cap (th : AntiThrashThreshold) : Z :=
  Z.max (saturating_mul usize_max (successful_attaches th) 2) 2.

(** [while ring.len() > cap { ring.pop_front(); }] *)
Fixpoint trim_front (cap : Z) (r : list AttachOutcome) : list AttachOutcome :=
  match r with
  | [] => []
  | _ :: r' => if blen r >? cap then trim_front cap r' else r
  end.

Definition set_threshold (th : option AntiThrashThreshold) (cooldown : Z) (s : AntiThrashState)
    : AntiThrashState :=
  let s := s <| at_threshold := th |> <| at_cooldown := cooldown |> in
  match th with
  | None => s <| ring := [] |> <| cooldown_until := None |> <| pending_first_op := false |>
  | Some th => s <| ring ::= trim_front (ring_cap th) |>
  end.

Definition last_reattach_at (s : AntiThrashState) : option Z := attached_at <$> last (ring s).

(** The scan of [evaluate] over the newest entries: the earliest attach and the
    latest drop, or [None] at the first entry that is not a counted pair. *)
Fixpoint scan_tail (drop_within : Z) (tail : list AttachOutcome)
    (earliest latest : option Z) : option (option Z * option Z) :=
  match tail with
  | [] => Some (earliest, latest)
  | entry :: tail =>
      match dropped_at entry with
      | None => None
      | Some dropped =>
          if saturating_duration_since dropped (attached_at entry) >? drop_within then None
          else
            let earliest :=
              match earliest with
              | Some e => if e <? attached_at entry then e else attached_at entry
              | None => attached_at entry
              end in
            let latest :=
              match latest with
              | Some l => if l >? dropped then l else dropped
              | None => dropped
              end in
            scan_tail drop_within tail (Some earliest) (Some latest)
      end
  end.

Definition evaluate (now : Z) (s : AntiThrashState) : AntiThrashState :=
  match at_threshold s with
  | None => s
  | Some th =>
      if match cooldown_until s with Some u => u >? now | None => false end then s
      else
        let needed := Z.to_nat (successful_attaches th) in
        if (length (ring s) <? needed)%nat then s
        else
          match scan_tail (drop_within th) (take needed (reverse (ring s))) None None with
          | Some (Some e, Some l) =>
              if saturating_duration_since l e >? at_window th then s
              else s <| cooldown_until := Some (deadline_with_clamp now (at_cooldown s)) |>
          | _ => s
          end
  end.

(** The search for the most recent open attach, newest entry first: the ring with
    its drop stamped, or [None] when there is nothing to pair with. *)
Fixpoint stamp_drop (drop_within now : Z) (newest_first : list AttachOutcome)
    : option (list AttachOutcome) :=
  match newest_first with
  | [] => None
  | entry :: older =>
      match dropped_at entry with
      | Some _ => cons entry <$> stamp_drop drop_within now older
      | None =>
          if saturating_duration_since now (attached_at entry) <=? drop_within
          then Some (mkAttach (attached_at entry) (Some now) (at_handle entry) :: older)
          else None
      end
  end.

Definition at_record (now : Z) (kind : ReAttachOutcomeKind) (handle : ReAttachHandle)
    (s : AntiThrashState) : AntiThrashState :=
  match at_threshold s with
  | None => s
  | Some th =>
      match kind with
      | ReAttachOk =>
          s <| ring ::= fun r => trim_front (ring_cap th) (r ++ [mkAttach now None handle]) |>
            <| pending_first_op := true |>
      | TcpDropAfterReAttach =>
          match stamp_drop (drop_within th) now (reverse (ring s)) with
          | None => s
          | Some stamped =>
              evaluate now (s <| ring := reverse stamped |> <| pending_first_op := false |>)
          end
      end
  end.

Definition record_first_op_success (s : AntiThrashState) : AntiThrashState :=
  match at_threshold s with
  | None => s
  | Some _ =>
      if negb (pending_first_op s) && bool_decide (cooldown_until s = None)
         && bool_decide (length (ring s) = 0%nat) then s
      else s <| ring := [] |> <| cooldown_until := None |> <| pending_first_op := false |>
  end.

Definition clear_cooldown (s : AntiThrashState) : AntiThrashState := s <| cooldown_until := None |>.

Definition at_tick (now : Z) (s : AntiThrashState) : AntiThrashDisposition :=
  match cooldown_until s with
  | Some until => if until >? now then Cooldown until else Normal
  | None => Normal
  end.

(** * The detector as a state machine *)

Inductive at_op :=
| OpSetThreshold (th : option AntiThrashThreshold) (cooldown : Z)
| OpRecord (now : Z) (kind : ReAttachOutcomeKind) (handle : ReAttachHandle)
| OpFirstOp
| OpClear.

Definition at_apply (op : at_op) (s : AntiThrashState) : AntiThrashState :=
  match op with
  | OpSetThreshold th c => set_threshold th c s
  | OpRecord now k h => at_record now k h s
  | OpFirstOp => record_first_op_success s
  | OpClear => clear_cooldown s
  end.

Inductive at_reachable : AntiThrashState -> Prop :=
| at_start : at_reachable at_disabled
| at_step s op : at_reachable s -> at_reachable (at_apply op s).

(** ** Lemmas *)

Lemma trim_front_length cap r : 0 <= cap -> blen (trim_front cap r) <= cap.
Proof.
  intros. induction r as [|x r IH]; cbn [trim_front]; [done|].
  rewrite Z.gtb_ltb. case_match; [done|]. lia.
Qed.

Lemma trim_front_suffix cap r : trim_front cap r `suffix_of` r.
Proof.
  induction r as [|x r IH]; cbn [trim_front]; [done|].
  case_match; [by apply suffix_cons_r|done].
Qed.

Lemma ring_cap_pos th : 2 <= ring_cap th.
Proof. unfold ring_cap. lia. Qed.

Lemma stamp_drop_length dw now r r' : stamp_drop dw now r = Some r' -> length r' = length r.
Proof.
  revert r'. induction r as [|x r IH]; intros r'; simpl; [done|].
  case_match; [|case_match; by intros [= <-]].
  rewrite fmap_Some. intros (k & Hk & ->). simpl. by rewrite (IH k).
Qed.

Lemma evaluate_ring now s : ring (evaluate now s) = ring s /\ at_threshold (evaluate now s) = at_threshold s
  /\ pending_first_op (evaluate now s) = pending_first_op s.
Proof. unfold evaluate. by repeat case_match. Qed.

(** Bounded memory, and a disabled detector remembers nothing. *)
Definition at_inv (s : AntiThrashState) : Prop :=
  match at_threshold s with
  | Some th => blen (ring s) <= ring_cap th
  | None => ring s = [] /\ cooldown_until s = None /\ pending_first_op s = false
  end.

Lemma at_record_inv now k h s : at_inv s -> at_inv (at_record now k h s).
Proof.
  unfold at_inv, at_record. destruct (at_threshold s) as [th|] eqn:Hth; [|by rewrite Hth].
  intros Hr. destruct k.
  - simpl. rewrite Hth. apply trim_front_length. pose proof (ring_cap_pos th). lia.
  - destruct (stamp_drop _ _ _) as [r|] eqn:Hs; [|by rewrite Hth].
    match goal with |- context [evaluate now ?x] => destruct (evaluate_ring now x) as (He & Ht & _) end.
    rewrite He, Ht. simpl. rewrite Hth. unfold blen in *.
    apply stamp_drop_length in Hs. rewrite length_reverse in *. lia.
Qed.

Lemma at_apply_inv op s : at_inv s -> at_inv (at_apply op s).
Proof.
  intros Hs. destruct op as [th c|now k h| |]; simpl.
  - unfold at_inv, set_threshold. destruct th as [th|]; simpl; [|done].
    apply trim_front_length. pose proof (ring_cap_pos th). lia.
  - by apply at_record_inv.
  - unfold record_first_op_success, at_inv in *. destruct (at_threshold s) as [th|] eqn:Hth; [|by rewrite Hth].
    pose proof (ring_cap_pos th). destruct (_ && _); simpl; rewrite Hth; [done|].
    rewrite blen_nil. lia.
  - unfold clear_cooldown, at_inv in *. simpl. destruct (at_threshold s); [done|]. naive_solver.
Qed.

(** What [scan_tail] computes: every scanned entry is a counted pair, and the two
    instants are the extremes. *)
Definition counted (dw : Z) (o : AttachOutcome) : Prop :=
  exists d, dropped_at o = Some d /\ saturating_duration_since d (attached_at o) <= dw.

Lemma scan_tail_spec dw tail : forall e0 l0 e l,
  scan_tail dw tail e0 l0 = Some (e, l) ->
  Forall (counted dw) tail
  /\ (forall x, e0 = Some x -> exists y, e = Some y /\ y <= x)
  /\ (forall x, l0 = Some x -> exists y, l = Some y /\ x <= y)
  /\ Forall (fun o => exists x y d, e = Some x /\ l = Some y /\ dropped_at o = Some d
                       /\ x <= attached_at o /\ d <= y) tail
  /\ (e = e0 \/ exists o, o ∈ tail /\ e = Some (attached_at o))
  /\ (l = l0 \/ exists o, o ∈ tail /\ l = dropped_at o).
Proof.
  induction tail as [|o tail IH]; intros e0 l0 e l; cbn [scan_tail].
  { intros [= -> ->]. split_and!; [constructor|naive_solver lia|naive_solver lia|constructor|by left..]. }
  destruct (dropped_at o) as [d|] eqn:Hd; [|done]. rewrite Z.gtb_ltb. case_match eqn:Hdw; [done|].
  intros Hs. apply IH in Hs as (Hf & He & Hl & Hall & Hea & Hla). clear IH.
  destruct (He _ eq_refl) as (x & -> & Hx), (Hl _ eq_refl) as (y & -> & Hy). clear He Hl.
  split_and!.
  - constructor; [|done]. exists d. split; [done|lia].
  - intros z ->. exists x. split; [done|]. destruct (z <? attached_at o) eqn:?; lia.
  - intros z ->. exists y. split; [done|]. rewrite Z.gtb_ltb in Hy. destruct (d <? z) eqn:?; lia.
  - constructor; [|done]. exists x, y, d. split_and!; try done.
    + destruct e0 as [z|]; [destruct (z <? attached_at o) eqn:?|]; lia.
    + destruct l0 as [z|]; [rewrite Z.gtb_ltb in Hy; destruct (d <? z) eqn:?|]; lia.
  - destruct Hea as [Hea|(p & Hp & Hea)]; [|right; exists p; set_solver].
    injection Hea as ->. destruct e0 as [z|]; [|right; exists o; set_solver].
    destruct (z <? _); [by left|right; exists o; set_solver].
  - destruct Hla as [Hla|(p & Hp & Hla)]; [|right; exists p; set_solver].
    injection Hla as ->. destruct l0 as [z|]; [|right; exists o; set_solver].
    destruct (z >? d); [by left|right; exists o; set_solver].
Qed.

Lemma scan_tail_total dw tail : forall e0 l0,
  Forall (counted dw) tail -> is_Some (scan_tail dw tail e0 l0).
Proof.
  induction tail as [|o tail IH]; intros e0 l0 Hf; cbn [scan_tail]; [by eauto|].
  inversion Hf as [|?? Ho]; subst. destruct Ho as (d & Hd & Hle). rewrite Hd, Z.gtb_ltb.
  rewrite (proj2 (Z.ltb_ge _ _)) by done. by apply IH.
Qed.

(** The thrash condition: there are [successful_attaches] newest outcomes, each
    an attach dropped within [drop_within], and any attach of them is at most
    [window] before any drop of them. *)
Definition thrashing (th : AntiThrashThreshold) (r : list AttachOutcome) : Prop :=
  let newest := take (Z.to_nat (successful_attaches th)) (reverse r) in
  0 < successful_attaches th /\ Z.of_nat (length newest) = successful_attaches th
  /\ Forall (counted (drop_within th)) newest
  /\ forall o o' d', o ∈ newest -> o' ∈ newest -> dropped_at o' = Some d' ->
       saturating_duration_since d' (attached_at o) <= at_window th.

Definition cooling (now : Z) (s : AntiThrashState) : Prop :=
  exists u, cooldown_until s = Some u /\ now < u.

Lemma evaluate_idle now s th :
  at_threshold s = Some th -> 0 <= successful_attaches th ->
  cooldown_until (evaluate now s) = cooldown_until s
  \/ (~ cooling now s /\ thrashing th (ring s)
      /\ cooldown_until (evaluate now s) = Some (deadline_with_clamp now (at_cooldown s))).
Proof.
  intros Hth Hn. unfold evaluate. rewrite Hth.
  destruct (match cooldown_until s with Some u => u >? now | None => false end) eqn:Hc; [by left|].
  destruct (_ <? _)%nat eqn:Hlen; [by left|]. apply Nat.ltb_ge in Hlen.
  destruct (scan_tail _ _ _ _) as [[[e|] [l|]]|] eqn:Hs; try by left.
  destruct (_ >? at_window th) eqn:Hw; [by left|]. right. rewrite Z.gtb_ltb in Hw.
  assert (Hl : length (take (Z.to_nat (successful_attaches th)) (reverse (ring s)))
               = Z.to_nat (successful_attaches th)).
  { rewrite length_take, length_reverse. lia. }
  apply scan_tail_spec in Hs as (Hf & _ & _ & Hall & Hea & _).
  unfold thrashing. cbv zeta. split_and!; [| |lia|done| |done].
  - intros (u & Hu & Hlt). rewrite Hu in Hc. lia.
  - destruct Hea as [?|(o & Ho & _)]; [done|].
    destruct (Z.to_nat (successful_attaches th)) eqn:Hz; [|lia].
    by rewrite take_0 in Ho; apply elem_of_nil in Ho.
  - intros o o' d' Ho Ho' Hd'. rewrite Forall_forall in Hall.
    destruct (Hall o Ho) as (x & y & d & [= <-] & [= <-] & _ & Hx & _).
    destruct (Hall o' Ho') as (x' & y' & d'' & [= <-] & [= <-] & Hd'' & _ & Hy).
    rewrite Hd' in Hd''. injection Hd'' as <-.
    unfold saturating_duration_since in *. lia.
Qed.

Lemma evaluate_arms now s th :
  at_threshold s = Some th -> ~ cooling now s -> thrashing th (ring s) ->
  cooldown_until (evaluate now s) = Some (deadline_with_clamp now (at_cooldown s)).
Proof.
  intros Hth Hc (Hpos & Hlen & Hf & Hw). unfold evaluate. rewrite Hth.
  assert (Hcb : match cooldown_until s with Some u => u >? now | None => false end = false).
  { destruct (cooldown_until s) as [u|] eqn:Hu; [|done]. rewrite Z.gtb_ltb.
    apply Z.ltb_ge. destruct (decide (now < u)); [|lia]. destruct Hc. by exists u. }
  rewrite Hcb. clear Hcb Hc.
  rewrite length_take, length_reverse in Hlen.
  rewrite (proj2 (Nat.ltb_ge _ _)) by lia.
  destruct (scan_tail_total _ _ None None Hf) as [[e l] Hs]. rewrite Hs.
  apply scan_tail_spec in Hs as (_ & _ & _ & Hall & Hea & Hla).
  set (tl := take _ _) in *. assert (tl ≠ []) as Hne.
  { intros Ht. apply (f_equal length) in Ht. subst tl.
    rewrite length_take, length_reverse in Ht. simpl in Ht. lia. }
  destruct tl as [|o tl]; [done|]. inversion Hall as [|?? Ho]; subst.
  destruct Ho as (x & y & d & -> & -> & _).
  destruct Hea as [?|(o1 & Ho1 & Hx)]; [done|]. destruct Hla as [?|(o2 & Ho2 & Hy)]; [done|].
  injection Hx as ->. symmetry in Hy. pose proof (Hw _ _ _ Ho1 Ho2 Hy).
  rewrite Z.gtb_ltb, (proj2 (Z.ltb_ge _ _)) by done. done.
Qed.

(** The detector trips exactly on the documented pattern: a socket drop
    reported while no cooldown runs leaves the detector cooling if and only if
    the drop was paired with an open attach and the newest
    [successful_attaches] outcomes are all attach-then-drop pairs within
    [drop_within] that fit in [window]; the deadline is then [now + cooldown].
    A running cooldown is never moved. *)
Theorem trips_exactly_on_thrash (s : AntiThrashState) (th : AntiThrashThreshold) (now : Z) (h : ReAttachHandle) :
  at_threshold s = Some th -> 0 <= successful_attaches th -> 0 < at_cooldown s ->
  let s' := at_record now TcpDropAfterReAttach h s in
  (cooling now s -> cooldown_until s' = cooldown_until s)
  /\ (~ cooling now s ->
       (cooling now s' <->
          is_Some (stamp_drop (drop_within th) now (reverse (ring s))) /\ thrashing th (ring s'))
       /\ (cooling now s' -> at_tick now s' = Cooldown (deadline_with_clamp now (at_cooldown s)))).
Proof.
  intros Hth Hn Hcd s'. subst s'. unfold at_record. rewrite Hth.
  destruct (stamp_drop _ _ _) as [r|] eqn:Hst; [|split; [done|]; intros Hc; split; naive_solver].
  set (s1 := s <| ring := reverse r |> <| pending_first_op := false |>).
  assert (Hc1 : cooling now s1 <-> cooling now s) by done.
  assert (Hth1 : at_threshold s1 = Some th) by done.
  destruct (evaluate_ring now s1) as (Hr & _ & _).
  split.
  - intros Hc. destruct (evaluate_idle now s1 th Hth1 Hn) as [->|(Hnc & _)]; [done|tauto].
  - intros Hc. rewrite Hr.
    destruct (evaluate_idle now s1 th Hth1 Hn) as [He|(_ & Hth' & He)].
    + assert (Hnc : ~ cooling now (evaluate now s1)) by (unfold cooling; rewrite He; done).
      split; [|tauto]. split; [tauto|]. intros [_ Ht]. exfalso.
      pose proof (evaluate_arms now s1 th Hth1 Hc Ht) as Ha. apply Hnc.
      exists (deadline_with_clamp now (at_cooldown s1)). split; [done|by apply deadline_gt].
    + assert (Hlt : now < deadline_with_clamp now (at_cooldown s1)) by by apply deadline_gt.
      split; [split; [by eauto|intros _; by eexists]|].
      intros _. unfold at_tick. rewrite He, Z.gtb_ltb, (proj2 (Z.ltb_lt _ _)) by done. done.
Qed.

Definition two_drops : AntiThrashState :=
  at_record 5 ReAttachOk (ReProducer 1)
    (at_record 3 TcpDropAfterReAttach (ReProducer 1)
      (at_record 1 ReAttachOk (ReProducer 1)
        (set_threshold (Some (mkThreshold 2 100 10)) 50 at_disabled))).

Example trips_exactly_on_thrash_witness :
  let s' := at_record 7 TcpDropAfterReAttach (ReProducer 1) two_drops in
  (cooling 7 two_drops -> cooldown_until s' = cooldown_until two_drops)
  /\ (~ cooling 7 two_drops ->
       (cooling 7 s' <-> is_Some (stamp_drop 10 7 (reverse (ring two_drops)))
                          /\ thrashing (mkThreshold 2 100 10) (ring s'))
       /\ (cooling 7 s' -> at_tick 7 s' = Cooldown (deadline_with_clamp 7 50))).
Proof. apply (trips_exactly_on_thrash two_drops (mkThreshold 2 100 10) 7 (ReProducer 1)); [reflexivity | vm_compute; discriminate | reflexivity]. Defined.

Example two_drops_trip :
  at_tick 7 (at_record 7 TcpDropAfterReAttach (ReProducer 1) two_drops) = Cooldown 57.
Proof. reflexivity. Qed.

(** Whatever the sequence of calls, the ring stays within twice the
    configured number of attaches (at least two), and a detector that is disabled
    holds no outcome, no cooldown and no pending first operation. *)
Theorem anti_thrash_bounded (s : AntiThrashState) : at_reachable s -> at_inv s.
Proof. induction 1 as [|s op _ IH]; [done|by apply at_apply_inv]. Qed.

Example anti_thrash_bounded_witness : at_inv two_drops.
Proof.
  apply anti_thrash_bounded.
  exact (at_step _ (OpRecord 5 ReAttachOk (ReProducer 1))
          (at_step _ (OpRecord 3 TcpDropAfterReAttach (ReProducer 1))
            (at_step _ (OpRecord 1 ReAttachOk (ReProducer 1))
              (at_step _ (OpSetThreshold (Some (mkThreshold 2 100 10)) 50) at_start)))).
Defined.
