(* ===== verification/Backoff.v ===== *)
(** Retry schedules: [magnetar-proto/src/backoff.rs] (truncated exponential
    backoff with deterministic jitter), [supervisor.rs] (reconnect policy gates)
    and [operation_retry.rs] (re-issue of broker-facing setup operations).

    The [retry_clock.skew] fault-injection hook of [Backoff::next]
    ([apply_buggify_skew]) is the identity unless the simulation engine arms it,
    and is left out. *)

From S2P Require Import Prelude Time AntiThrash.

(** * [backoff.rs] *)

Definition DEFAULT_INITIAL : Z := from_millis 100.
Definition DEFAULT_MAX : Z := from_mins 1.
Definition DEFAULT_MANDATORY_STOP : Z := from_mins 30.

Record Backoff := mkBackoff {
  bo_initial : Z;
  bo_max : Z;
  bo_mandatory_stop : Z;
  bo_next_delay : Z;
  bo_total_elapsed : Z;
  bo_rng_state : Z;
  bo_first_call : bool;
}.

#[global] Instance Backoff_eta : Eta Backoff := fun b =>
  mkBackoff (bo_initial b) (bo_max b) (bo_mandatory_stop b) (bo_next_delay b)
    (bo_total_elapsed b) (bo_rng_state b) (bo_first_call b).

Definition GOLDEN_GAMMA : Z := 0x9E3779B97F4A7C15.

Definition Backoff_new (initial max mandatory_stop seed : Z) : Backoff :=
  {| bo_initial := initial;
     bo_max := max;
     bo_mandatory_stop := mandatory_stop;
     bo_next_delay := initial;
     bo_total_elapsed := 0;
     bo_rng_state := if seed =? 0 then GOLDEN_GAMMA else seed;
     bo_first_call := true |}.

Definition Backoff_default : Backoff :=
  Backoff_new DEFAULT_INITIAL DEFAULT_MAX DEFAULT_MANDATORY_STOP 0.

(** SplitMix64; the result is in [0 .. 200] thousandths. *)
Definition jitter_fraction (b : Backoff) : Z * Backoff :=
  let st := wrapping_add 64 (bo_rng_state b) GOLDEN_GAMMA in
  let z := st in
  let z := wrapping_mul 64 (Z.lxor z (Z.shiftr z 30)) 0xBF58476D1CE4E5B9 in
  let z := wrapping_mul 64 (Z.lxor z (Z.shiftr z 27)) 0x94D049BB133111EB in
  let z := Z.lxor z (Z.shiftr z 31) in
  (z mod 201, b <| bo_rng_state := st |>).

Definition Backoff_next (b : Backoff) : Z * Backoff :=
  let current := bo_next_delay b in
  let b := b <| bo_first_call := false |> in
  let '(jitter, b) := jitter_fraction b in
  let jitter_ns := saturating_mul u64_max (as_unsigned 64 current) jitter / 1000 in
  let current := saturating_sub current jitter_ns in
  let b := b <| bo_total_elapsed ::= fun t => saturating_add DURATION_MAX t current |> in
  let doubled := saturating_mul DURATION_MAX (bo_next_delay b) 2 in
  let b := b <| bo_next_delay := if doubled >? bo_max b then bo_max b else doubled |> in
  if bo_total_elapsed b >? bo_mandatory_stop b then
    (bo_max b, b <| bo_total_elapsed := 0 |> <| bo_next_delay := bo_max b |>)
  else (current, b).

Definition Backoff_reset (b : Backoff) : Backoff :=
  b <| bo_next_delay := bo_initial b |> <| bo_total_elapsed := 0 |> <| bo_first_call := true |>.

(** [n] calls of [next], and the delay the [n]-th one (from 0) returns. *)
Fixpoint Backoff_after (n : nat) (b : Backoff) : Backoff :=
  match n with
  | O => b
  | S n => Backoff_after n (Backoff_next b).2
  end.

Definition delay_at (n : nat) (b : Backoff) : Z := (Backoff_next (Backoff_after n b)).1.

(** The un-jittered schedule: doubling from [initial], capped at [max]. *)
Definition envelope (b : Backoff) (n : nat) : Z := Z.min (bo_max b) (bo_initial b * 2 ^ Z.of_nat n).

(** Parameters the schedule is meant for. *)
Definition backoff_cfg_ok (b : Backoff) : Prop :=
  0 <= bo_initial b <= bo_max b /\ bo_max b <= DURATION_MAX /\ 0 <= bo_mandatory_stop b < DURATION_MAX.

Definition backoff_inv (n : nat) (b : Backoff) : Prop :=
  backoff_cfg_ok b /\ envelope b n <= bo_next_delay b <= bo_max b
  /\ 0 <= bo_total_elapsed b <= bo_mandatory_stop b.

Lemma jitter_fraction_spec b :
  exists st, (jitter_fraction b).2 = b <| bo_rng_state := st |> /\ 0 <= (jitter_fraction b).1 <= 200.
Proof.
  unfold jitter_fraction. eexists. split; [done|]. cbn [fst].
  match goal with |- context [?z mod 201] => pose proof (Z.mod_pos_bound z 201) end. lia.
Qed.

(** The jitter takes away at most a fifth, whatever the width of the delay. *)
Lemma jittered_bounds current j :
  0 <= current -> 0 <= j <= 200 ->
  let c := saturating_sub current (saturating_mul u64_max (as_unsigned 64 current) j / 1000) in
  0 <= c <= current /\ 4 * current <= 5 * c.
Proof.
  intros Hc Hj c. subst c. unfold saturating_sub, saturating_mul, as_unsigned.
  assert (Hm : 0 <= current mod 2 ^ 64 <= current).
  { split; [apply Z.mod_pos_bound; lia|]. apply Z.mod_le; lia. }
  set (m := current mod 2 ^ 64) in *.
  assert (H0 : 0 <= Z.min u64_max (m * j) <= current * 200) by (unfold u64_max; nia).
  set (k := Z.min u64_max (m * j)) in *. clearbody k m.
  assert (5 * (k / 1000) <= current).
  { pose proof (Z.mul_div_le k 1000 ltac:(lia)). lia. }
  assert (0 <= k / 1000) by (apply Z.div_pos; lia). lia.
Qed.

Lemma envelope_succ b n : 0 <= bo_initial b -> envelope b n <= envelope b (S n) <= Z.max (envelope b n) (2 * envelope b n).
Proof.
  intros. unfold envelope. rewrite Nat2Z.inj_succ, Z.pow_succ_r by lia.
  assert (0 < 2 ^ Z.of_nat n) by lia. nia.
Qed.

(** One call: the state it leaves and the delay it returns. *)
Lemma Backoff_next_spec n b :
  backoff_inv n b ->
  let '(d, b') := Backoff_next b in
  bo_initial b' = bo_initial b /\ bo_max b' = bo_max b /\ bo_mandatory_stop b' = bo_mandatory_stop b
  /\ backoff_inv (S n) b' /\ 4 * envelope b n <= 5 * d /\ d <= bo_max b
  /\ (bo_total_elapsed b' = bo_total_elapsed b + d \/ (d = bo_max b /\ bo_total_elapsed b' = 0)).
Proof.
  intros (Hcfg & Hnd & Htot). unfold Backoff_next.
  destruct (jitter_fraction_spec (b <| bo_first_call := false |>)) as (st & Hst & Hj).
  destruct (jitter_fraction _) as [j b1]. simpl in Hst, Hj. subst b1.
  destruct b as [i m ms nd tot rng fc]. unfold backoff_inv, backoff_cfg_ok in *. simpl in *.
  assert (He : 0 <= envelope (mkBackoff i m ms nd tot rng fc) n).
  { unfold envelope. simpl. assert (0 < 2 ^ Z.of_nat n) by lia. nia. }
  destruct (jittered_bounds nd j ltac:(lia) ltac:(lia)) as [Hc1 Hc2].
  set (c := saturating_sub nd _) in *. clearbody c.
  pose proof (envelope_succ (mkBackoff i m ms nd tot rng fc) n ltac:(simpl; lia)) as Hs.
  unfold envelope in *. unfold saturating_add, saturating_mul. simpl in *.
  rewrite !Z.gtb_ltb. unfold update. simpl.
  repeat case_match; simplify_eq; simpl in *; split_and!; try done; try lia.
Qed.

Lemma Backoff_after_inv n : forall k b,
  backoff_inv k b ->
  backoff_inv (k + n) (Backoff_after n b) /\ bo_initial (Backoff_after n b) = bo_initial b
  /\ bo_max (Backoff_after n b) = bo_max b
  /\ bo_mandatory_stop (Backoff_after n b) = bo_mandatory_stop b.
Proof.
  induction n as [|n IH]; intros k b Hb; simpl; [by rewrite Nat.add_0_r|].
  pose proof (Backoff_next_spec k b Hb) as Hn. destruct (Backoff_next b) as [d b'].
  destruct Hn as (Hi & Hm & Hms & Hb' & _). simpl.
  destruct (IH (S k) b' Hb') as (H1 & -> & -> & ->). rewrite <- Nat.add_succ_comm. done.
Qed.

Lemma Backoff_new_inv i m ms seed :
  backoff_cfg_ok (Backoff_new i m ms seed) -> backoff_inv 0 (Backoff_new i m ms seed).
Proof.
  unfold backoff_inv, backoff_cfg_ok, envelope. simpl. intros H. split_and!; lia.
Qed.

(** The backoff schedule: the [n]-th delay (from 0) of a fresh schedule is
    never longer than [max] and never shorter than four fifths of
    [min(max, initial * 2^n)], at every call and whatever the seed; the elapsed
    budget never stays above [mandatory_stop]. *)
Theorem backoff_schedule_bounds (initial max mandatory_stop seed : Z) (n : nat) :
  backoff_cfg_ok (Backoff_new initial max mandatory_stop seed) ->
  let b := Backoff_new initial max mandatory_stop seed in
  4 * Z.min max (initial * 2 ^ Z.of_nat n) <= 5 * delay_at n b
  /\ delay_at n b <= max
  /\ bo_total_elapsed (Backoff_after n b) <= mandatory_stop.
Proof.
  intros Hcfg b. destruct (Backoff_after_inv n 0 b (Backoff_new_inv _ _ _ _ Hcfg)) as (Hi & H1 & H2 & H3).
  simpl in Hi. pose proof (Backoff_next_spec n _ Hi) as Hs. unfold delay_at.
  destruct (Backoff_next _) as [d b']. destruct Hs as (_ & _ & _ & _ & Hd & Hm & _).
  destruct Hi as (_ & _ & Ht). unfold envelope in Hd. rewrite H1, H2 in *. rewrite H3 in Ht.
  subst b. simpl in *. lia.
Qed.

Example backoff_schedule_bounds_witness :
  let b := Backoff_new (from_millis 100) (from_secs 60) (from_mins 30) 42 in
  4 * Z.min (from_secs 60) (from_millis 100 * 2 ^ 3) <= 5 * delay_at 3 b
  /\ delay_at 3 b <= from_secs 60 /\ bo_total_elapsed (Backoff_after 3 b) <= from_mins 30.
Proof.
  apply (backoff_schedule_bounds (from_millis 100) (from_secs 60) (from_mins 30) 42 3).
  vm_compute. repeat split; discriminate.
Defined.

(** The first delay of the default schedule is jittered too: it is shorter
    than [initial], which is what the documentation of [next] announces. *)
Theorem first_delay_is_jittered : (Backoff_next Backoff_default).1 < DEFAULT_INITIAL.
Proof. vm_compute. reflexivity. Qed.

(** * [supervisor.rs] *)

Record SupervisorConfig := mkSupervisorConfig {
  sc_initial_backoff : Z;
  sc_max_backoff : Z;
  sc_mandatory_stop : Z;
  sc_max_attempts : option Z;
  sc_anti_thrash_threshold : option AntiThrashThreshold;
  sc_drop_grace : Z;
  sc_max_backoff_after_thrash : Z;
}.

Definition SupervisorConfig_default : SupervisorConfig :=
  {| sc_initial_backoff := from_millis 100;
     sc_max_backoff := from_mins 1;
     sc_mandatory_stop := from_hours 1;
     sc_max_attempts := None;
     sc_anti_thrash_threshold := None;
     sc_drop_grace := from_millis 500;
     sc_max_backoff_after_thrash := from_secs 30 |}.

Definition build_backoff (c : SupervisorConfig) (seed : Z) : Backoff :=
  Backoff_new (sc_initial_backoff c) (sc_max_backoff c) (sc_mandatory_stop c) seed.

Definition should_reset_backoff (c : SupervisorConfig) (socket_alive : Z) : bool :=
  socket_alive >? sc_drop_grace c.

Definition should_give_up (c : SupervisorConfig) (attempts : Z) : bool :=
  match sc_max_attempts c with Some m => attempts >? m | None => false end.

(** * [operation_retry.rs] *)

Inductive OperationKind := OpLookup | OpPartitionedMetadata | OpProducerOpen | OpSubscribe.

Definition SE_MetadataError : Z := 1.
Definition SE_PersistenceError : Z := 2.
Definition SE_ConsumerBusy : Z := 5.
Definition SE_ServiceNotReady : Z := 6.
Definition SE_ProducerBlockedQuotaExceededError : Z := 7.
Definition SE_ProducerBlockedQuotaExceededException : Z := 8.
Definition SE_TooManyRequests : Z := 14.
Definition SE_ProducerBusy : Z := 16.

(** [pb::ServerError::try_from]: the codes the protocol defines. *)
Definition server_error_known (code : Z) : bool := (0 <=? code) && (code <=? 25).

Definition is_retryable_broker_error (operation : OperationKind) (code : Z) : bool :=
  if negb (server_error_known code) then false
  else
    let common_retryable :=
      (code =? SE_MetadataError) || (code =? SE_PersistenceError)
      || (code =? SE_ServiceNotReady) || (code =? SE_TooManyRequests) in
    let producer_quota_retryable :=
      match operation with
      | OpProducerOpen => (code =? SE_ProducerBlockedQuotaExceededError)
                        || (code =? SE_ProducerBlockedQuotaExceededException)
      | _ => false
      end in
    let busy_retryable :=
      match operation with
      | OpProducerOpen => code =? SE_ProducerBusy
      | OpSubscribe => code =? SE_ConsumerBusy
      | _ => false
      end in
    common_retryable || producer_quota_retryable || busy_retryable.

Record OperationRetryConfig := mkOperationRetryConfig {
  or_initial_backoff : Z;
  or_max_backoff : Z;
  or_max_retries : option Z;
}.

Definition MAX_TRANSIENT_OPEN_RETRIES : Z := 8.

Definition OperationRetryConfig_default : OperationRetryConfig :=
  {| or_initial_backoff := from_secs 2;
     or_max_backoff := from_secs 8;
     or_max_retries := Some MAX_TRANSIENT_OPEN_RETRIES |}.

Definition should_retry_after_failure (c : OperationRetryConfig) (failures : Z) : bool :=
  match or_max_retries c with None => true | Some m => failures <=? m end.

(** [for _ in 1..steps { delay = backoff.next(); }] *)
Fixpoint next_loop (n : nat) (delay : Z) (b : Backoff) : Z :=
  match n with
  | O => delay
  | S n => let '(d, b) := Backoff_next b in next_loop n d b
  end.

Definition delay_after_failure (c : OperationRetryConfig) (failures : Z) : Z :=
  let steps := Z.max failures 1 in
  let b := Backoff_new (Z.min (or_initial_backoff c) (or_max_backoff c)) (or_max_backoff c)
             DEFAULT_MANDATORY_STOP 0 in
  let '(delay, b) := Backoff_next b in
  next_loop (Z.to_nat (steps - 1)) delay b.

Lemma next_loop_delay_at n : forall d b,
  next_loop n d b = match n with O => d | S k => delay_at k b end.
Proof.
  induction n as [|n IH]; intros d b; simpl; [done|].
  destruct (Backoff_next b) as [d' b'] eqn:Hb. rewrite IH. destruct n as [|n]; unfold delay_at; simpl; by rewrite Hb.
Qed.

Lemma delay_after_failure_eq c f :
  delay_after_failure c f =
  delay_at (Z.to_nat (Z.max f 1 - 1))
    (Backoff_new (Z.min (or_initial_backoff c) (or_max_backoff c)) (or_max_backoff c) DEFAULT_MANDATORY_STOP 0).
Proof.
  unfold delay_after_failure. destruct (Backoff_next _) as [d b] eqn:Hb.
  rewrite next_loop_delay_at. destruct (Z.to_nat (Z.max f 1 - 1)) as [|k]; unfold delay_at; simpl; by rewrite Hb.
Qed.

Lemma delay_after_failure_cfg c :
  0 <= or_initial_backoff c -> 0 <= or_max_backoff c <= DURATION_MAX ->
  backoff_inv 0 (Backoff_new (Z.min (or_initial_backoff c) (or_max_backoff c)) (or_max_backoff c)
                   DEFAULT_MANDATORY_STOP 0).
Proof.
  intros. apply Backoff_new_inv. unfold backoff_cfg_ok. simpl.
  unfold DEFAULT_MANDATORY_STOP, from_mins, from_secs, DURATION_MAX, NANOS_PER_SEC, u64_max in *. lia.
Qed.

(** Re-issue delays: whatever the configured initial delay (a misconfigured
    one above the maximum included) the delay after the [f]-th failure stays
    within the maximum and is at least four fifths of the doubled initial delay
    capped at that maximum. *)
Theorem retry_delay_bounds (c : OperationRetryConfig) (f : Z) :
  0 <= or_initial_backoff c -> 0 <= or_max_backoff c <= DURATION_MAX -> 1 <= f ->
  4 * Z.min (or_max_backoff c) (or_initial_backoff c * 2 ^ (f - 1)) <= 5 * delay_after_failure c f
  /\ delay_after_failure c f <= or_max_backoff c.
Proof.
  intros Hi Hm Hf. rewrite delay_after_failure_eq, Z.max_l by lia. unfold delay_at.
  pose proof (delay_after_failure_cfg c Hi Hm) as Hinv.
  destruct (Backoff_after_inv (Z.to_nat (f - 1)) 0 _ Hinv) as (Ha & H1 & H2 & _).
  pose proof (Backoff_next_spec _ _ Ha) as Hs. destruct (Backoff_next _) as [d b'].
  destruct Hs as (_ & _ & _ & _ & Hd & Hmx & _). simpl in *. unfold envelope in Hd.
  rewrite H1, H2 in *. rewrite Z2Nat.id in Hd by lia.
  assert (1 <= 2 ^ (f - 1)) by (pose proof (Z.pow_pos_nonneg 2 (f - 1)); lia).
  split; [|lia]. nia.
Qed.

Example retry_delay_bounds_witness :
  4 * Z.min (from_secs 8) (from_secs 2 * 2 ^ 2) <= 5 * delay_after_failure OperationRetryConfig_default 3
  /\ delay_after_failure OperationRetryConfig_default 3 <= from_secs 8.
Proof. apply (retry_delay_bounds OperationRetryConfig_default 3); vm_compute; intuition discriminate. Defined.

(** The reconnect budget: with a cap, giving up is monotone in the attempts and
    happens exactly past the cap; without one it never happens. *)
Lemma should_give_up_spec c n :
  should_give_up c n = true <-> exists m, sc_max_attempts c = Some m /\ m < n.
Proof.
  unfold should_give_up. destruct (sc_max_attempts c) as [m|].
  - rewrite Z.gtb_lt. naive_solver.
  - naive_solver.
Qed.

(** Classification of broker errors: the four transient codes are retried for
    every setup operation, quota and busy errors only for the operation they
    belong to, and every other code, unknown codes included, is final. *)
Theorem retryable_classification (op : OperationKind) (code : Z) :
  is_retryable_broker_error op code = true <->
  code ∈ [SE_MetadataError; SE_PersistenceError; SE_ServiceNotReady; SE_TooManyRequests]
  \/ (op = OpProducerOpen /\ code ∈ [SE_ProducerBlockedQuotaExceededError;
                                   SE_ProducerBlockedQuotaExceededException; SE_ProducerBusy])
  \/ (op = OpSubscribe /\ code = SE_ConsumerBusy).
Proof.
  unfold is_retryable_broker_error, server_error_known, SE_MetadataError, SE_PersistenceError,
    SE_ServiceNotReady, SE_TooManyRequests, SE_ProducerBlockedQuotaExceededError,
    SE_ProducerBlockedQuotaExceededException, SE_ProducerBusy, SE_ConsumerBusy.
  rewrite !elem_of_cons, !elem_of_nil.
  case_match eqn:Hk.
  - split; [done|]. rewrite negb_true_iff, andb_false_iff in Hk. naive_solver lia.
  - destruct op; rewrite ?orb_true_iff, ?Z.eqb_eq; naive_solver.
Qed.
