(* ===== verification/Trackers.v ===== *)
(** The acknowledgment trackers of [magnetar-proto/src/trackers/]: ack grouping
    ([ack.rs]), negative acks ([nack.rs]) and ack timeouts ([unacked.rs]).

    A [HashMap] is a [gmap], a [BTreeSet] or [HashSet] a [gset]; where the source
    sorts or iterates in order the model does too.  The floating-point formula
    [MultiplierRedeliveryBackoff::delay_for] is an argument of the ack-timeout
    tracker. *)

From S2P Require Import Prelude Time Ids.

(** * Ack grouping: [trackers/ack.rs] *)

Module Ack.

Inductive AckAction :=
| SendIndividualAck (handle : Z) (message_ids : list MessageId)
| SendCumulativeAck (handle : Z) (message_id : MessageId).

Record AckGroupingTracker := mkAck {
  ack_handle : Z;
  ack_group_time : Z;
  pending_individuals : gset MessageId;
  pending_cumulative : option MessageId;
  last_flush : option Z;
}.

#[export] Instance Ack_eta : Eta AckGroupingTracker := fun t =>
  mkAck (ack_handle t) (ack_group_time t) (pending_individuals t) (pending_cumulative t) (last_flush t).

Definition ack_new (handle ack_group_time : Z) : AckGroupingTracker :=
  mkAck handle ack_group_time ∅ None None.

(** [Option::get_or_insert] *)
Definition get_or_insert (now : Z) (o : option Z) : option Z := Some (default now o).

Definition add_individual (m : MessageId) (now : Z) (t : AckGroupingTracker)
    : list AckAction * AckGroupingTracker :=
  if ack_group_time t =? 0 then ([SendIndividualAck (ack_handle t) [m]], t)
  else ([], t <| pending_individuals ::= fun s => {[m]} ∪ s |> <| last_flush ::= get_or_insert now |>).

Definition cumulative_gt (lhs rhs : MessageId) : bool :=
  if ledger_id lhs <? ledger_id rhs then false
  else if ledger_id lhs >? ledger_id rhs then true
  else if entry_id lhs <? entry_id rhs then false
  else if entry_id lhs >? entry_id rhs then true
  else batch_index lhs >? batch_index rhs.

Definition add_cumulative (m : MessageId) (now : Z) (t : AckGroupingTracker)
    : list AckAction * AckGroupingTracker :=
  if ack_group_time t =? 0 then ([SendCumulativeAck (ack_handle t) m], t)
  else
    let t :=
      match pending_cumulative t with
      | Some existing => if cumulative_gt m existing then t <| pending_cumulative := Some m |> else t
      | None => t <| pending_cumulative := Some m |>
      end in
    ([], t <| last_flush ::= get_or_insert now |>).

Definition ack_flush (t : AckGroupingTracker) : list AckAction * AckGroupingTracker :=
  let out := match pending_cumulative t with
             | Some m => [SendCumulativeAck (ack_handle t) m]
             | None => []
             end in
  let out := if bool_decide (pending_individuals t = ∅) then out
             else out ++ [SendIndividualAck (ack_handle t) (btree_elems (pending_individuals t))] in
  (out, t <| pending_cumulative := None |> <| pending_individuals := ∅ |> <| last_flush := None |>).

Definition ack_poll (now : Z) (t : AckGroupingTracker) : list AckAction * AckGroupingTracker :=
  match last_flush t with
  | None => ([], t)
  | Some first =>
      if saturating_duration_since now first <? ack_group_time t then ([], t) else ack_flush t
  end.

Definition ack_next_deadline (t : AckGroupingTracker) : option Z :=
  (fun first => deadline_with_clamp first (ack_group_time t)) <$> last_flush t.

(** ** Runs of the tracker *)

Inductive ack_op :=
| AddInd (m : MessageId) (now : Z)
| AddCum (m : MessageId) (now : Z)
| AckPoll (now : Z)
| AckFlush.

Definition ack_apply (op : ack_op) (t : AckGroupingTracker) : list AckAction * AckGroupingTracker :=
  match op with
  | AddInd m now => add_individual m now t
  | AddCum m now => add_cumulative m now t
  | AckPoll now => ack_poll now t
  | AckFlush => ack_flush t
  end.

Fixpoint ack_run (ops : list ack_op) (t : AckGroupingTracker) : list AckAction * AckGroupingTracker :=
  match ops with
  | [] => ([], t)
  | op :: ops =>
      let '(out, t) := ack_apply op t in
      let '(out', t) := ack_run ops t in
      (out ++ out', t)
  end.

Definition individuals (acts : list AckAction) : list MessageId :=
  acts ≫= fun a => match a with SendIndividualAck _ ids => ids | SendCumulativeAck _ _ => [] end.
Definition cumulatives (acts : list AckAction) : list MessageId :=
  acts ≫= fun a => match a with SendCumulativeAck _ m => [m] | SendIndividualAck _ _ => [] end.

Definition added_ind (ops : list ack_op) : list MessageId :=
  ops ≫= fun op => match op with AddInd m _ => [m] | _ => [] end.
Definition added_cum (ops : list ack_op) : list MessageId :=
  ops ≫= fun op => match op with AddCum m _ => [m] | _ => [] end.

#[global] Arguments added_ind : simpl never.
#[global] Arguments added_cum : simpl never.
#[global] Arguments individuals : simpl never.
#[global] Arguments cumulatives : simpl never.

(** A pending acknowledgment always has a flush time, and only then. *)
Definition ack_inv (t : AckGroupingTracker) : Prop :=
  last_flush t = None <-> (pending_individuals t = ∅ /\ pending_cumulative t = None).

(** [m'] acknowledges at least what [m] does. *)
Definition covers (m' m : MessageId) : Prop := cumulative_gt m m' = false.

Lemma covers_refl m : covers m m.
Proof. unfold covers, cumulative_gt. repeat case_match; lia. Qed.

Lemma covers_trans a b c : covers a b -> covers b c -> covers a c.
Proof. unfold covers, cumulative_gt. repeat case_match; lia. Qed.

Lemma cumulative_gt_covers a b : cumulative_gt a b = true -> covers a b.
Proof. unfold covers, cumulative_gt. repeat case_match; lia. Qed.

Lemma individuals_app a b : individuals (a ++ b) = individuals a ++ individuals b.
Proof. unfold individuals. by rewrite bind_app. Qed.
Lemma cumulatives_app a b : cumulatives (a ++ b) = cumulatives a ++ cumulatives b.
Proof. unfold cumulatives. by rewrite bind_app. Qed.

Lemma ack_flush_out t :
  individuals (ack_flush t).1 = btree_elems (pending_individuals t)
  /\ cumulatives (ack_flush t).1 = option_list (pending_cumulative t).
Proof.
  unfold ack_flush, individuals, cumulatives. simpl. destruct (pending_cumulative t); case_bool_decide as Hp; simpl;
    rewrite ?Hp, ?btree_elems_empty; simpl; by rewrite ?app_nil_r.
Qed.

(** What one operation conserves: ids that were pending or are added are emitted
    or still pending, and nothing else is. *)
Definition ack_step_ok (op : ack_op) (t : AckGroupingTracker) (o : list AckAction * AckGroupingTracker) : Prop :=
  (forall m, m ∈ individuals o.1 \/ m ∈ pending_individuals o.2 <->
             m ∈ pending_individuals t \/ m ∈ added_ind [op])
  /\ (forall m, m ∈ added_cum [op] \/ pending_cumulative t = Some m ->
        exists m', covers m' m /\ (m' ∈ cumulatives o.1 \/ pending_cumulative o.2 = Some m'))
  /\ (forall m, m ∈ cumulatives o.1 \/ pending_cumulative o.2 = Some m ->
        m ∈ added_cum [op] \/ pending_cumulative t = Some m).

Lemma ack_flush_ok op t : added_ind [op] = [] -> added_cum [op] = [] -> ack_step_ok op t (ack_flush t).
Proof.
  intros Hi Hc. destruct (ack_flush_out t) as [H1 H2]. unfold ack_step_ok.
  rewrite Hi, Hc, H1, H2. unfold ack_flush; simpl.
  split_and!.
  - intros m. rewrite elem_of_btree_elems. set_solver.
  - intros m [Hm| ->]; [set_solver|]. exists m. split; [apply covers_refl|left; set_solver].
  - intros m [Hm|Hm]; [|done]. right. destruct (pending_cumulative t); set_solver.
Qed.

Lemma ack_nop_ok op t : added_ind [op] = [] -> added_cum [op] = [] -> ack_step_ok op t ([], t).
Proof.
  intros Hi Hc. unfold ack_step_ok. rewrite Hi, Hc. simpl. split_and!; [set_solver| |set_solver].
  intros m [Hm|Hm]; [set_solver|]. exists m. split; [apply covers_refl|by right].
Qed.

Lemma ack_apply_ok op t : ack_step_ok op t (ack_apply op t).
Proof.
  destruct op as [m now|m now|now|]; simpl.
  - unfold add_individual.
    case_match; unfold ack_step_ok, individuals, cumulatives, added_ind, added_cum; simpl; (split_and!; [set_solver| |set_solver]);
      intros x [Hx|Hx]; try set_solver; exists x; (split; [apply covers_refl|by right]).
  - unfold add_cumulative. case_match.
    { unfold ack_step_ok, individuals, cumulatives, added_ind, added_cum; simpl. split_and!; [set_solver| |set_solver].
      intros x [Hx|Hx]; exists x; (split; [apply covers_refl|]); set_solver. }
    unfold ack_step_ok, individuals, cumulatives, added_ind, added_cum.
    destruct (pending_cumulative t) as [e|] eqn:He;
      [destruct (cumulative_gt m e) eqn:Hg|]; simpl; rewrite ?He; (split_and!; [set_solver| |set_solver]).
    + intros x Hx. exists m. split; [|by right]. destruct Hx as [Hx|[= ->]].
      * assert (x = m) as -> by set_solver. apply covers_refl.
      * by apply cumulative_gt_covers.
    + intros x Hx. exists e. split; [|by right]. destruct Hx as [Hx|[= ->]]; [|apply covers_refl].
      by assert (x = m) as -> by set_solver.
    + intros x [Hx|Hx]; [|done]. exists m. split; [|by right].
      assert (x = m) as -> by set_solver. apply covers_refl.
  - unfold ack_poll. destruct (last_flush t); [|by apply ack_nop_ok].
    case_match; [by apply ack_nop_ok|by apply ack_flush_ok].
  - by apply ack_flush_ok.
Qed.

Lemma added_ind_cons op ops : added_ind (op :: ops) = added_ind [op] ++ added_ind ops.
Proof. unfold added_ind. cbn. by rewrite app_nil_r. Qed.
Lemma added_cum_cons op ops : added_cum (op :: ops) = added_cum [op] ++ added_cum ops.
Proof. unfold added_cum. cbn. by rewrite app_nil_r. Qed.

Lemma ack_run_ok ops : forall t,
  let '(out, t') := ack_run ops t in
  (forall m, m ∈ individuals out \/ m ∈ pending_individuals t' <->
             m ∈ pending_individuals t \/ m ∈ added_ind ops)
  /\ (forall m, m ∈ added_cum ops \/ pending_cumulative t = Some m ->
        exists m', covers m' m /\ (m' ∈ cumulatives out \/ pending_cumulative t' = Some m'))
  /\ (forall m, m ∈ cumulatives out \/ pending_cumulative t' = Some m ->
        m ∈ added_cum ops \/ pending_cumulative t = Some m).
Proof.
  induction ops as [|op ops IH]; intros t; simpl.
  { split_and!; [set_solver| |set_solver]. intros m [Hm|Hm]; [set_solver|].
    exists m. split; [apply covers_refl|by right]. }
  pose proof (ack_apply_ok op t) as Hop. destruct (ack_apply op t) as [out t1].
  specialize (IH t1). destruct (ack_run ops t1) as [out' t2].
  destruct Hop as (Hi & Hc & Hb), IH as (Hi' & Hc' & Hb'). simpl in *.
  setoid_rewrite individuals_app. setoid_rewrite cumulatives_app.
  rewrite added_ind_cons, added_cum_cons. setoid_rewrite elem_of_app. split_and!.
  - intros m. specialize (Hi m). specialize (Hi' m). tauto.
  - intros m Hm. assert (Hs : m ∈ added_cum [op] \/ pending_cumulative t = Some m \/ m ∈ added_cum ops) by tauto.
    destruct Hs as [Hs|[Hs|Hs]].
    + destruct (Hc m (or_introl Hs)) as (m1 & Hcv & [?|Hp]); [by eauto|].
      destruct (Hc' m1 (or_intror Hp)) as (m2 & Hcv' & Hm2). exists m2.
      split; [by eapply covers_trans|tauto].
    + destruct (Hc m (or_intror Hs)) as (m1 & Hcv & [?|Hp]); [by eauto|].
      destruct (Hc' m1 (or_intror Hp)) as (m2 & Hcv' & Hm2). exists m2.
      split; [by eapply covers_trans|tauto].
    + destruct (Hc' m (or_introl Hs)) as (m2 & ? & ?). exists m2. tauto.
  - intros m Hm. specialize (Hb m). specialize (Hb' m). tauto.
Qed.

(** No acknowledgment is lost or invented: after any sequence of acks, ticks
    and flushes of a fresh tracker that ends with a flush, the individual acks
    sent are exactly the ids that were individually acked, and every cumulative
    ack is covered by one that was sent (each of which was requested). *)
Theorem acks_conserved (handle group_time : Z) (ops : list ack_op) :
  let out := (ack_run (ops ++ [AckFlush]) (ack_new handle group_time)).1 in
  (forall m, m ∈ individuals out <-> m ∈ added_ind ops)
  /\ (forall m, m ∈ added_cum ops -> exists m', m' ∈ cumulatives out /\ covers m' m)
  /\ (forall m, m ∈ cumulatives out -> m ∈ added_cum ops).
Proof.
  assert (Hend : forall ops t, let t' := (ack_run (ops ++ [AckFlush]) t).2 in
            pending_individuals t' = ∅ /\ pending_cumulative t' = None).
  { clear ops. induction ops as [|op ops IH]; intros t; simpl; [done|].
    destruct (ack_apply op t) as [o t1]. specialize (IH t1). by destruct (ack_run _ t1). }
  specialize (Hend ops (ack_new handle group_time)).
  pose proof (ack_run_ok (ops ++ [AckFlush]) (ack_new handle group_time)) as Hr.
  destruct (ack_run _ _) as [out t']. simpl in *. destruct Hend as [He1 He2].
  rewrite He1, He2 in Hr. destruct Hr as (Hi & Hc & Hb).
  assert (Ha : added_ind (ops ++ [AckFlush]) = added_ind ops)
    by (unfold added_ind; rewrite bind_app; simpl; apply app_nil_r).
  assert (Hac : added_cum (ops ++ [AckFlush]) = added_cum ops)
    by (unfold added_cum; rewrite bind_app; simpl; apply app_nil_r).
  rewrite Ha in Hi. rewrite Hac in Hc, Hb. split_and!.
  - intros m. specialize (Hi m). set_solver.
  - intros m Hm. destruct (Hc m (or_introl Hm)) as (m' & ? & [?|?]); [by eauto|done].
  - intros m Hm. specialize (Hb m (or_introl Hm)). naive_solver.
Qed.

Lemma ack_apply_inv op t : ack_inv t -> ack_inv (ack_apply op t).2.
Proof.
  unfold ack_inv. intros Hi. destruct op as [m now|m now|now|]; simpl.
  - unfold add_individual. case_match; [done|]. simpl. split; [done|]. intros [He _]. set_solver.
  - unfold add_cumulative. case_match; [done|]. simpl. split; [done|]. intros [_ He].
    repeat case_match; simpl in He; congruence.
  - unfold ack_poll. destruct (last_flush t) eqn:Hl; simpl; [|by rewrite Hl].
    destruct (_ <? _); simpl; [by rewrite Hl|done].
  - done.
Qed.

Lemma ack_run_inv ops : forall t, ack_inv t -> ack_inv (ack_run ops t).2.
Proof.
  induction ops as [|op ops IH]; intros t Ht; simpl; [done|].
  pose proof (ack_apply_inv op t Ht) as H1. destruct (ack_apply op t) as [o t1].
  specialize (IH t1 H1). by destruct (ack_run ops t1).
Qed.

(** Acknowledgments are not held back: in every reachable state a deadline is
    announced exactly when something is pending, and a tick at or after that
    deadline leaves nothing pending. *)
Theorem ack_deadline_flushes (handle group_time : Z) (ops : list ack_op) (now : Z) :
  0 <= group_time ->
  let t := (ack_run ops (ack_new handle group_time)).2 in
  (ack_next_deadline t = None <-> pending_individuals t = ∅ /\ pending_cumulative t = None)
  /\ (forall first, last_flush t = Some first -> first + ack_group_time t <= INSTANT_MAX ->
       first + ack_group_time t <= now ->
       let t' := (ack_poll now t).2 in
       ack_next_deadline t = Some (first + ack_group_time t)
       /\ pending_individuals t' = ∅ /\ pending_cumulative t' = None).
Proof.
  intros Hg t. assert (Hi : ack_inv t) by by apply ack_run_inv. clearbody t. split.
  - unfold ack_inv in Hi. rewrite <- Hi. unfold ack_next_deadline. destruct (last_flush t); naive_solver.
  - intros first Hf Hle Hnow. unfold ack_next_deadline, ack_poll. rewrite Hf. simpl.
    rewrite deadline_small by done. unfold saturating_duration_since.
    destruct (_ <? _) eqn:Hc; [|done]. lia.
Qed.

Definition mid (n : Z) : MessageId := mkMessageId 1 n 0 (-1) 0.

Example ack_deadline_flushes_witness :
  let t := (ack_run [AddInd (mid 1) 5; AddCum (mid 2) 7] (ack_new 1 100)).2 in
  (ack_next_deadline t = None <-> pending_individuals t = ∅ /\ pending_cumulative t = None)
  /\ (forall first, last_flush t = Some first -> first + ack_group_time t <= INSTANT_MAX ->
       first + ack_group_time t <= 105 ->
       let t' := (ack_poll 105 t).2 in
       ack_next_deadline t = Some (first + ack_group_time t)
       /\ pending_individuals t' = ∅ /\ pending_cumulative t' = None).
Proof. apply ack_deadline_flushes. discriminate. Defined.

Example ack_group_example :
  (ack_run [AddInd (mid 3) 5; AddInd (mid 1) 6; AddInd (mid 3) 7; AddCum (mid 0) 8; AckPoll 105] (ack_new 1 100)).1
  = [SendCumulativeAck 1 (mid 0); SendIndividualAck 1 [mid 1; mid 3]].
Proof. vm_compute. reflexivity. Qed.
End Ack.

(** * Negative acks: [trackers/nack.rs] *)

Module Nack.

Inductive NackAction := RedeliverUnacked (handle : Z) (message_ids : list MessageId).

Record NegativeAcksTracker := mkNack {
  nack_handle : Z;
  redelivery_delay : Z;
  nack_pending : gmap MessageId Z;
}.

#[export] Instance Nack_eta : Eta NegativeAcksTracker := fun t =>
  mkNack (nack_handle t) (redelivery_delay t) (nack_pending t).

Definition nack_new (handle delay : Z) : NegativeAcksTracker := mkNack handle delay ∅.

Definition nack_add (m : MessageId) (now : Z) (t : NegativeAcksTracker) : NegativeAcksTracker :=
  t <| nack_pending ::= <[m := deadline_with_clamp now (redelivery_delay t)]> |>.

Definition nack_add_with_delay (m : MessageId) (delay now : Z) (t : NegativeAcksTracker) : NegativeAcksTracker :=
  t <| nack_pending ::= <[m := deadline_with_clamp now delay]> |>.

Definition nack_remove (m : MessageId) (t : NegativeAcksTracker) : NegativeAcksTracker :=
  t <| nack_pending ::= delete m |>.

(** The ids whose deadline has passed; the order of a [HashMap] is unspecified,
    the source sorts them afterwards. *)
Definition due_ids (now : Z) (p : gmap MessageId Z) : list MessageId :=
  (filter (fun kv => kv.2 <= now) (map_to_list p)).*1.

Definition remove_all (due : list MessageId) (p : gmap MessageId Z) : gmap MessageId Z :=
  foldl (fun p id => delete id p) p due.

Definition nack_poll (now : Z) (t : NegativeAcksTracker) : list NackAction * NegativeAcksTracker :=
  let due := due_ids now (nack_pending t) in
  match due with
  | [] => ([], t)
  | _ :: _ =>
      ([RedeliverUnacked (nack_handle t) (sort_keys due)], t <| nack_pending ::= remove_all due |>)
  end.

(** [values().min()] *)
Definition min_deadline (p : gmap MessageId Z) : option Z :=
  foldr (fun d acc => Some (match acc with Some m => Z.min d m | None => d end)) None (map_to_list p).*2.

Definition nack_next_deadline (t : NegativeAcksTracker) : option Z := min_deadline (nack_pending t).
Definition nack_is_empty (t : NegativeAcksTracker) : bool := bool_decide (nack_pending t = ∅).

Lemma elem_of_due now p id : id ∈ due_ids now p <-> exists d, p !! id = Some d /\ d <= now.
Proof.
  unfold due_ids. rewrite list_elem_of_fmap. setoid_rewrite list_elem_of_filter.
  setoid_rewrite <- elem_of_map_to_list. split.
  - intros ([k d] & -> & Hd & Hk). by exists d.
  - intros (d & Hk & Hd). by exists (id, d).
Qed.

Lemma NoDup_due now p : NoDup (due_ids now p).
Proof.
  unfold due_ids. pose proof (NoDup_fst_map_to_list p) as Hnd. revert Hnd.
  generalize (map_to_list p) as l. induction l as [|[k d] l IH]; simpl; [done|].
  rewrite NoDup_cons. intros [Hk Hl]. rewrite filter_cons. case_decide; [|by apply IH].
  simpl. apply NoDup_cons. split; [|by apply IH]. contradict Hk.
  apply list_elem_of_fmap in Hk as (kv & -> & Hkv). apply list_elem_of_filter in Hkv as [_ ?].
  by apply list_elem_of_fmap_2.
Qed.

Lemma remove_all_lookup due : forall p id,
  remove_all due p !! id = if decide (id ∈ due) then None else p !! id.
Proof.
  unfold remove_all. induction due as [|k due IH]; intros p id; cbn [foldl].
  { by rewrite decide_False by set_solver. }
  rewrite IH. destruct (decide (id ∈ due)); [by rewrite decide_True by set_solver|].
  destruct (decide (id = k)) as [->|Hne].
  - by rewrite lookup_delete_eq, decide_True by set_solver.
  - by rewrite lookup_delete_ne, decide_False by set_solver.
Qed.

(** [poll] in one equation: the due ids in order, and the map without them. *)
Lemma nack_poll_eq now t :
  nack_poll now t =
  (match sort_keys (due_ids now (nack_pending t)) with
   | [] => []
   | ids => [RedeliverUnacked (nack_handle t) ids]
   end, t <| nack_pending ::= remove_all (due_ids now (nack_pending t)) |>).
Proof.
  unfold nack_poll. destruct (due_ids now (nack_pending t)) as [|k due] eqn:Hd.
  - destruct t. done.
  - destruct (sort_keys (k :: due)) eqn:Hs; [|done].
    apply (f_equal length) in Hs. by rewrite length_sort_keys in Hs.
Qed.

Definition redelivered (acts : list NackAction) : list MessageId :=
  acts ≫= fun '(RedeliverUnacked _ ids) => ids.

Lemma nack_poll_redelivered now t :
  redelivered (nack_poll now t).1 = sort_keys (due_ids now (nack_pending t)).
Proof.
  rewrite nack_poll_eq. simpl. destruct (sort_keys _); simpl; [done|]. by rewrite app_nil_r.
Qed.

Lemma min_deadline_spec p :
  match min_deadline p with
  | None => p = ∅
  | Some d => (exists id, p !! id = Some d) /\ forall id d', p !! id = Some d' -> d <= d'
  end.
Proof.
  unfold min_deadline.
  assert (Hl : forall l : list (MessageId * Z),
    match foldr (fun d acc => Some (match acc with Some m => Z.min d m | None => d end)) None l.*2 with
    | None => l = []
    | Some d => (exists id, (id, d) ∈ l) /\ forall id d', (id, d') ∈ l -> d <= d'
    end).
  { induction l as [|[k d] l IH]; simpl; [done|]. destruct (foldr _ _ _) as [m|].
    - destruct IH as [[id Hid] Hm]. split.
      + destruct (decide (d <= m)).
        * exists k. rewrite Z.min_l by done. set_solver.
        * exists id. rewrite Z.min_r by lia. set_solver.
      + intros id' d'. rewrite elem_of_cons. intros [[= -> ->]|Hin]; [lia|].
        apply Hm in Hin. lia.
    - subst l. split; [exists k; set_solver|]. intros id' d' Hin.
      assert (d' = d) as -> by set_solver. lia. }
  specialize (Hl (map_to_list p)). destruct (foldr _ _ _) as [m|].
  - destruct Hl as [[id Hid] Hm]. setoid_rewrite elem_of_map_to_list in Hm.
    apply elem_of_map_to_list in Hid. by eauto.
  - by apply map_to_list_empty_iff.
Qed.

(** Negative acks are redelivered on time and once: a tick asks for exactly
    the ids whose delay has elapsed, in order and without repetition, forgets
    exactly those, and the announced deadline is the earliest pending one: a tick
    at that instant redelivers something and an earlier one nothing. *)
Theorem nack_poll_exact (t : NegativeAcksTracker) (now : Z) :
  let '(acts, t') := nack_poll now t in
  (forall id, id ∈ redelivered acts <-> exists d, nack_pending t !! id = Some d /\ d <= now)
  /\ StronglySorted key_le (redelivered acts) /\ NoDup (redelivered acts)
  /\ (forall id, nack_pending t' !! id =
        if decide (id ∈ redelivered acts) then None else nack_pending t !! id)
  /\ (redelivered acts = [] <-> forall d, nack_next_deadline t = Some d -> now < d).
Proof.
  pose proof (nack_poll_redelivered now t) as Hr. pose proof (nack_poll_eq now t) as Heq.
  destruct (nack_poll now t) as [acts t']. simpl in Hr. rewrite Hr.
  injection Heq as _ ->. split_and!.
  - intros id. by rewrite elem_of_sort_keys, elem_of_due.
  - apply sort_keys_sorted.
  - apply NoDup_sort_keys, NoDup_due.
  - intros id. simpl. rewrite remove_all_lookup.
    pose proof (elem_of_sort_keys (due_ids now (nack_pending t)) id).
    by do 2 case_decide; try tauto.
  - unfold nack_next_deadline. pose proof (min_deadline_spec (nack_pending t)) as Hm. split.
    + intros Hn d Hd. rewrite Hd in Hm. destruct Hm as [[id Hid] _].
      destruct (decide (now < d)); [done|]. exfalso.
      assert (Hin : id ∈ sort_keys (due_ids now (nack_pending t))).
      { rewrite elem_of_sort_keys, elem_of_due. exists d. split; [done|lia]. }
      rewrite Hn in Hin. set_solver.
    + intros Hlt. apply elem_of_nil_inv. intros id. rewrite elem_of_sort_keys, elem_of_due.
      intros (d & Hid & Hle). destruct (min_deadline _) as [m|].
      * destruct Hm as [_ Hm]. apply Hm in Hid. specialize (Hlt m eq_refl). lia.
      * by rewrite Hm in Hid.
Qed.
End Nack.

(** * Ack timeouts: [trackers/unacked.rs] *)

Module Unacked.
  Import Nack.

Inductive UnackedAction := RedeliverExpired (handle : Z) (message_ids : list MessageId).

Record Bucket := mkBucket { b_deadline : Z; b_ids : gset MessageId }.

(** [backoff] is the attached [MultiplierRedeliveryBackoff], through its
    [delay_for]. *)
Record UnackedMessageTracker := mkUnacked {
  ua_handle : Z;
  ack_timeout : Z;
  backoff : option (Z -> Z);
  buckets : list Bucket;
  locator : gmap MessageId nat;
  backoff_pending : gmap MessageId Z;
}.

#[export] Instance Unacked_eta : Eta UnackedMessageTracker := fun t =>
  mkUnacked (ua_handle t) (ack_timeout t) (backoff t) (buckets t) (locator t) (backoff_pending t).

Definition unacked_new (handle ack_timeout : Z) : UnackedMessageTracker :=
  mkUnacked handle ack_timeout None [] ∅ ∅.

Definition with_backoff (delay_for : Z -> Z) (t : UnackedMessageTracker) : UnackedMessageTracker :=
  t <| backoff := Some delay_for |>.

Definition is_disabled (t : UnackedMessageTracker) : bool := ack_timeout t =? 0.

(** The index of the current bucket and the tracker in which it exists. *)
Definition ensure_current_bucket (now : Z) (t : UnackedMessageTracker) : nat * UnackedMessageTracker :=
  let fresh := mkBucket (deadline_with_clamp now (ack_timeout t)) ∅ in
  let push := (length (buckets t), t <| buckets ::= fun bs => bs ++ [fresh] |>) in
  match last (buckets t) with
  | Some last => if b_deadline last >? now then ((length (buckets t) - 1)%nat, t) else push
  | None => push
  end.

Definition tracked (m : MessageId) (t : UnackedMessageTracker) : bool :=
  bool_decide (is_Some (locator t !! m)) || bool_decide (is_Some (backoff_pending t !! m)).

Definition ids_insert (m : MessageId) (b : Bucket) : Bucket := mkBucket (b_deadline b) ({[m]} ∪ b_ids b).
Definition ids_remove (m : MessageId) (b : Bucket) : Bucket := mkBucket (b_deadline b) (b_ids b ∖ {[m]}).

Definition unacked_add (m : MessageId) (now : Z) (t : UnackedMessageTracker) : UnackedMessageTracker :=
  if is_disabled t then t
  else if tracked m t then t
  else
    let '(i, t) := ensure_current_bucket now t in
    t <| buckets ::= alter (ids_insert m) i |> <| locator ::= <[m := i]> |>.

Definition add_with_redelivery_count (m : MessageId) (count now : Z) (t : UnackedMessageTracker)
    : UnackedMessageTracker :=
  if is_disabled t then t
  else
    match backoff t with
    | None => unacked_add m now t
    | Some delay_for =>
        if tracked m t then t
        else t <| backoff_pending ::= <[m := deadline_with_clamp now (delay_for count)]> |>
    end.

Definition unacked_remove (m : MessageId) (t : UnackedMessageTracker) : UnackedMessageTracker :=
  let t :=
    match locator t !! m with
    | Some i => t <| locator ::= delete m |> <| buckets ::= alter (ids_remove m) i |>
    | None => t
    end in
  t <| backoff_pending ::= delete m |>.

(** The eviction loop of [poll]: the expired prefix of the buckets. *)
Fixpoint evict (handle now : Z) (bs : list Bucket) (loc : gmap MessageId nat)
    : list UnackedAction * list Bucket * gmap MessageId nat :=
  match bs with
  | [] => ([], [], loc)
  | b :: rest =>
      if b_deadline b >? now then ([], bs, loc)
      else if bool_decide (b_ids b = ∅) then evict handle now rest loc
      else
        let loc := foldl (fun l id => delete id l) loc (elements (b_ids b)) in
        let '(out, bs, loc) := evict handle now rest loc in
        (RedeliverExpired handle (sort_keys (elements (b_ids b))) :: out, bs, loc)
  end.

Fixpoint rebuild (i : nat) (bs : list Bucket) (loc : gmap MessageId nat) : gmap MessageId nat :=
  match bs with
  | [] => loc
  | b :: bs => rebuild (S i) bs (foldl (fun l id => <[id := i]> l) loc (elements (b_ids b)))
  end.

Definition unacked_poll (now : Z) (t : UnackedMessageTracker) : list UnackedAction * UnackedMessageTracker :=
  if is_disabled t then ([], t)
  else
    let '(out, bs, loc) := evict (ua_handle t) now (buckets t) (locator t) in
    let loc := match out with [] => loc | _ :: _ => rebuild 0 bs ∅ end in
    let t := t <| buckets := bs |> <| locator := loc |> in
    if bool_decide (backoff_pending t = ∅) then (out, t)
    else
      let due := due_ids now (backoff_pending t) in
      match due with
      | [] => (out, t)
      | _ :: _ =>
          (out ++ [RedeliverExpired (ua_handle t) (sort_keys due)],
           t <| backoff_pending ::= remove_all due |>)
      end.

Definition unacked_next_deadline (t : UnackedMessageTracker) : option Z :=
  match b_deadline <$> head (buckets t), min_deadline (backoff_pending t) with
  | Some a, Some b => Some (Z.min a b)
  | Some a, None => Some a
  | None, o => o
  end.

Definition expired (acts : list UnackedAction) : list MessageId :=
  acts ≫= fun '(RedeliverExpired _ ids) => ids.

(** ** The locator invariant *)

(** The reverse index names, for every tracked id, the one bucket holding it. *)
Definition loc_ok (t : UnackedMessageTracker) : Prop :=
  forall id i, locator t !! id = Some i <-> exists b, buckets t !! i = Some b /\ id ∈ b_ids b.

(** A tick of which the eviction loop drops buckets only if it redelivers
    something (and so rebuilds the index), or drops all of them. *)
Definition clean_poll (now : Z) (t : UnackedMessageTracker) : bool :=
  let '(out, bs, _) := evict (ua_handle t) now (buckets t) (locator t) in
  bool_decide (length bs = length (buckets t)) || bool_decide (0 < length out)%nat
  || bool_decide (length bs = 0%nat).

Inductive ua_op :=
| UaAdd (m : MessageId) (now : Z)
| UaAddCount (m : MessageId) (count now : Z)
| UaRemove (m : MessageId)
| UaPoll (now : Z).

Definition ua_apply (op : ua_op) (t : UnackedMessageTracker) : UnackedMessageTracker :=
  match op with
  | UaAdd m now => unacked_add m now t
  | UaAddCount m count now => add_with_redelivery_count m count now t
  | UaRemove m => unacked_remove m t
  | UaPoll now => (unacked_poll now t).2
  end.

Definition ua_clean (op : ua_op) (t : UnackedMessageTracker) : bool :=
  match op with UaPoll now => clean_poll now t | _ => true end.

(** States reached through clean ticks only. *)
Inductive clean_reachable : UnackedMessageTracker -> Prop :=
| clean_new h timeout : clean_reachable (unacked_new h timeout)
| clean_backoff h timeout f : clean_reachable (with_backoff f (unacked_new h timeout))
| clean_step t op : clean_reachable t -> ua_clean op t = true -> clean_reachable (ua_apply op t).

Lemma rebuild_one (i : nat) (b : gset MessageId) (loc : gmap MessageId nat) (id : MessageId) :
  foldl (fun l x => <[x := i]> l) loc (elements b) !! id
  = if decide (id ∈ b) then Some i else loc !! id.
Proof.
  assert (Hl : forall (l : list MessageId) loc,
    foldl (fun (m : gmap MessageId nat) x => <[x := i]> m) loc l !! id
    = if decide (id ∈ l) then Some i else loc !! id).
  { induction l as [|x l IH]; intros lo; cbn [foldl]; [by rewrite decide_False by set_solver|].
    rewrite IH. destruct (decide (id ∈ l)); [by rewrite decide_True by set_solver|].
    destruct (decide (id = x)) as [->|Hne].
    - by rewrite lookup_insert_eq, decide_True by set_solver.
    - by rewrite lookup_insert_ne, decide_False by set_solver. }
  rewrite Hl. by do 2 case_decide; set_solver.
Qed.

(** No two buckets hold the same id. *)
Definition buckets_disjoint (bs : list Bucket) : Prop :=
  forall i j b c id, bs !! i = Some b -> bs !! j = Some c -> id ∈ b_ids b -> id ∈ b_ids c -> i = j.

Lemma rebuild_spec bs : forall i loc id k,
  buckets_disjoint bs ->
  (forall b, b ∈ bs -> id ∈ b_ids b -> loc !! id = None) ->
  rebuild i bs loc !! id = Some k <->
    loc !! id = Some k \/ exists j b, k = (i + j)%nat /\ bs !! j = Some b /\ id ∈ b_ids b.
Proof.
  induction bs as [|b bs IH]; intros i loc id k Hd Hn; simpl.
  { split; [by left|]. intros [?|(j & b & _ & Hb & _)]; [done|]. by rewrite lookup_nil in Hb. }
  assert (Hd' : buckets_disjoint bs).
  { intros x y p q z Hp Hq Hz1 Hz2. by injection (Hd (S x) (S y) p q z Hp Hq Hz1 Hz2). }
  rewrite IH; [|done|].
  2:{ intros c Hc Hid. rewrite rebuild_one. case_decide as Hb; [|apply (Hn c); set_solver].
      apply list_elem_of_lookup in Hc as [j Hj].
      by pose proof (Hd 0%nat (S j) b c id eq_refl Hj Hb Hid). }
  rewrite rebuild_one. split.
  - intros [Hl|(j & c & -> & Hj & Hid)].
    + case_decide as Hb; [|by left]. right. exists 0%nat, b. injection Hl as <-.
      split_and!; [lia|done|done].
    + right. exists (S j), c. split_and!; [lia|done|done].
  - intros [Hl|(j & c & -> & Hj & Hid)].
    + left. case_decide as Hb; [|done]. rewrite (Hn b) in Hl by set_solver. done.
    + destruct j as [|j]; simpl in Hj.
      * left. injection Hj as ->. rewrite decide_True by done. f_equal. lia.
      * right. exists j, c. split_and!; [lia|done|done].
Qed.

Lemma loc_ok_disjoint t : loc_ok t -> buckets_disjoint (buckets t).
Proof.
  intros Hl i j b c id Hb Hc Hi Hj.
  assert (H1 : locator t !! id = Some i) by (apply Hl; eauto).
  assert (H2 : locator t !! id = Some j) by (apply Hl; eauto). congruence.
Qed.

(** The eviction loop splits the buckets into the expired prefix, whose ids it
    redelivers, and the rest, which it keeps. *)
Lemma evict_spec h now bs : forall loc out bs' loc',
  evict h now bs loc = (out, bs', loc') ->
  exists pre, bs = pre ++ bs' /\ Forall (fun b => b_deadline b <= now) pre
    /\ match bs' with [] => True | b :: _ => now < b_deadline b end
    /\ (forall id, id ∈ expired out <-> exists b, b ∈ pre /\ id ∈ b_ids b)
    /\ (out = [] -> loc' = loc).
Proof.
  induction bs as [|b bs IH]; intros loc out bs' loc'; simpl.
  { intros [= <- <- <-]. exists []. split_and!; try done. set_solver. }
  rewrite Z.gtb_ltb. case_match eqn:Hd.
  { intros [= <- <- <-]. exists []. split_and!; try done; [lia|]. set_solver. }
  case_bool_decide as He.
  - intros Hs. apply IH in Hs as (pre & -> & Hf & Hh & Hx & Hl). exists (b :: pre).
    split_and!; try done; [constructor; [lia|done]|]. intros id. rewrite Hx.
    setoid_rewrite elem_of_cons. split; [naive_solver|]. intros (c & [->|Hc] & Hid); [set_solver|eauto].
  - destruct (evict h now bs _) as [[o k] l] eqn:Hs. intros [= <- <- <-].
    apply IH in Hs as (pre & -> & Hf & Hh & Hx & _). exists (b :: pre).
    split_and!; try done; [constructor; [lia|done]|]. intros id. unfold expired in *. simpl.
    rewrite elem_of_app, elem_of_sort_keys, elem_of_elements, Hx. setoid_rewrite elem_of_cons. naive_solver.
Qed.

Lemma ensure_current_bucket_spec now t :
  exists i bs, ensure_current_bucket now t = (i, t <| buckets := bs |>) /\ (i < length bs)%nat
    /\ (bs = buckets t \/ exists d, bs = buckets t ++ [mkBucket d ∅]).
Proof.
  assert (Hpush : exists i bs,
     (length (buckets t), t <| buckets ::= fun bs => bs ++ [mkBucket (deadline_with_clamp now (ack_timeout t)) ∅] |>)
     = (i, t <| buckets := bs |>) /\ (i < length bs)%nat
     /\ (bs = buckets t \/ exists d, bs = buckets t ++ [mkBucket d ∅])).
  { eexists _, _. split; [reflexivity|]. rewrite length_app. simpl. split; [lia|eauto]. }
  unfold ensure_current_bucket. destruct (last (buckets t)) as [b|] eqn:Hl; [|exact Hpush].
  destruct (b_deadline b >? now); [|exact Hpush].
  exists (length (buckets t) - 1)%nat, (buckets t). split_and!; [by destruct t| |by left].
  apply last_Some in Hl as (l & ->). rewrite length_app. simpl. lia.
Qed.

Lemma loc_ok_same t bs :
  loc_ok t -> (bs = buckets t \/ exists d, bs = buckets t ++ [mkBucket d ∅]) ->
  loc_ok (t <| buckets := bs |>).
Proof.
  intros Hl [->|(d & ->)] id i; [apply Hl|]. simpl. rewrite (Hl id i). split.
  - intros (b & Hb & Hid). exists b. split; [|done]. by apply lookup_app_l_Some.
  - intros (b & Hb & Hid). exists b. split; [|done].
    apply lookup_app_Some in Hb as [?|[_ Hb]]; [done|].
    apply list_lookup_singleton_Some in Hb as [_ <-]. set_solver.
Qed.

(** [alter] on one bucket, seen through the membership test of [loc_ok]. *)
Lemma alter_bucket (f : Bucket -> Bucket) (bs : list Bucket) (i j : nat) (id : MessageId) :
  (exists b, alter f i bs !! j = Some b /\ id ∈ b_ids b) <->
  (exists b, bs !! j = Some b /\ id ∈ b_ids (if decide (j = i) then f b else b)).
Proof.
  destruct (decide (j = i)) as [->|Hne].
  - rewrite list_lookup_alter_eq. split.
    + intros (b & Hb & Hid). apply fmap_Some in Hb as (c & Hc & ->). eauto.
    + intros (b & Hb & Hid). exists (f b). rewrite Hb. done.
  - by rewrite list_lookup_alter_ne by done.
Qed.

Lemma unacked_add_loc m now t : loc_ok t -> loc_ok (unacked_add m now t).
Proof.
  intros Hl. unfold unacked_add. destruct (is_disabled t); [done|].
  destruct (tracked m t) eqn:Ht; [done|].
  destruct (ensure_current_bucket_spec now t) as (i & bs & -> & Hi & Hbs).
  pose proof (loc_ok_same t bs Hl Hbs) as Hl1. intros id j. simpl.
  rewrite alter_bucket. specialize (Hl1 id j). simpl in Hl1.
  assert (Hm : locator t !! m = None).
  { unfold tracked in Ht. apply orb_false_iff in Ht as [Ht _]. apply bool_decide_eq_false in Ht.
    by apply eq_None_not_Some. }
  destruct (decide (id = m)) as [->|Hne].
  - rewrite lookup_insert_eq. split.
    + intros [= <-]. destruct (lookup_lt_is_Some_2 bs i Hi) as [b Hb].
      exists b. rewrite decide_True by done. set_solver.
    + intros (b & Hb & Hid). destruct (decide (j = i)) as [->|]; [done|].
      assert (locator t !! m = Some j) by (apply Hl1; eauto). congruence.
  - rewrite lookup_insert_ne by done. rewrite Hl1.
    split; intros (b & Hb & Hid); exists b; (split; [done|]);
      destruct (decide (j = i)); simpl in *; set_solver.
Qed.

Lemma unacked_remove_loc m t : loc_ok t -> loc_ok (unacked_remove m t).
Proof.
  intros Hl id j. unfold unacked_remove.
  destruct (locator t !! m) as [i|] eqn:Hm; simpl; [|apply Hl].
  rewrite alter_bucket. destruct (decide (id = m)) as [->|Hne].
  - rewrite lookup_delete_eq. split; [done|]. intros (b & Hb & Hid).
    destruct (decide (j = i)) as [->|Hne]; [set_solver|].
    assert (locator t !! m = Some j) by (apply Hl; eauto). congruence.
  - rewrite lookup_delete_ne by done. rewrite (Hl id j).
    split; intros (b & Hb & Hid); exists b; (split; [done|]);
      destruct (decide (j = i)); simpl in *; set_solver.
Qed.

(** The part of [poll] before the per-message deadlines. *)
Lemma unacked_poll_buckets now t out bs loc :
  is_disabled t = false -> evict (ua_handle t) now (buckets t) (locator t) = (out, bs, loc) ->
  buckets (unacked_poll now t).2 = bs
  /\ locator (unacked_poll now t).2 = match out with [] => loc | _ :: _ => rebuild 0 bs ∅ end
  /\ (forall id, id ∈ expired (unacked_poll now t).1 <->
        id ∈ expired out \/ exists d, backoff_pending t !! id = Some d /\ d <= now)
  /\ ack_timeout (unacked_poll now t).2 = ack_timeout t.
Proof.
  intros Hd He. unfold unacked_poll. rewrite Hd, He. simpl. case_bool_decide as Hb.
  { simpl. split_and!; try done. intros id. rewrite Hb. setoid_rewrite lookup_empty. naive_solver. }
  destruct (due_ids now (backoff_pending t)) as [|k due] eqn:Hdue; simpl; (split_and!; [done..| |done]).
  - intros id. rewrite <- elem_of_due, Hdue. set_solver.
  - intros id. rewrite <- elem_of_due, Hdue. unfold expired. rewrite bind_app. simpl.
    by rewrite elem_of_app, app_nil_r, elem_of_sort_keys.
Qed.

Lemma loc_ok_suffix_disjoint pre bs : buckets_disjoint (pre ++ bs) -> buckets_disjoint bs.
Proof.
  intros Hd i j b c id Hb Hc Hi Hj.
  assert (forall k x, bs !! k = Some x -> (pre ++ bs) !! (length pre + k)%nat = Some x) as Hsh.
  { intros k x Hk. rewrite lookup_app_r by lia. by replace (length pre + k - length pre)%nat with k by lia. }
  pose proof (Hd _ _ _ _ _ (Hsh _ _ Hb) (Hsh _ _ Hc) Hi Hj). lia.
Qed.

Lemma rebuild_loc bs id i :
  buckets_disjoint bs ->
  rebuild 0 bs ∅ !! id = Some i <-> exists b, bs !! i = Some b /\ id ∈ b_ids b.
Proof.
  intros Hd. rewrite rebuild_spec by (done || intros; apply lookup_empty).
  rewrite lookup_empty. split.
  - intros [?|(j & b & -> & Hb & Hid)]; [done|]. eauto.
  - intros (b & Hb & Hid). right. by exists i, b.
Qed.

Lemma unacked_poll_loc now t : loc_ok t -> clean_poll now t = true -> loc_ok (unacked_poll now t).2.
Proof.
  intros Hl Hc. destruct (is_disabled t) eqn:Hd; [by unfold unacked_poll; rewrite Hd|].
  unfold clean_poll in Hc. destruct (evict _ _ _ _) as [[out bs] loc] eqn:He.
  destruct (unacked_poll_buckets now t out bs loc Hd He) as (Hb & Hlo & _).
  pose proof (loc_ok_disjoint t Hl) as Hdis.
  apply evict_spec in He as (pre & Hpre & _ & _ & Hx & Hnil).
  rewrite Hpre in Hdis. apply loc_ok_suffix_disjoint in Hdis.
  intros id i. rewrite Hb, Hlo. destruct out as [|a out]; [|by apply rebuild_loc].
  rewrite Hnil by done. clear Hnil Hlo.
  assert (Hcase : pre = [] \/ bs = []).
  { rewrite Hpre, length_app in Hc. simpl in Hc. rewrite orb_false_r in Hc.
    apply orb_true_iff in Hc as [Hc|Hc]; apply bool_decide_eq_true in Hc.
    - left. apply length_zero_iff_nil. lia.
    - right. by apply length_zero_iff_nil. }
  rewrite (Hl id i), Hpre. destruct Hcase as [->| ->]; [done|]. rewrite app_nil_r.
  split; [|intros (b & Hb' & _); by rewrite lookup_nil in Hb'].
  intros (b & Hb' & Hid). exfalso. apply list_elem_of_lookup_2 in Hb'.
  assert (id ∈ expired []) by (apply Hx; eauto). set_solver.
Qed.

Lemma clean_reachable_loc t : clean_reachable t -> loc_ok t.
Proof.
  induction 1 as [h ti|h ti f|t op _ IH Hc].
  - intros id i. simpl. rewrite lookup_empty. split; [done|]. intros (b & Hb & _). by rewrite lookup_nil in Hb.
  - intros id i. simpl. rewrite lookup_empty. split; [done|]. intros (b & Hb & _). by rewrite lookup_nil in Hb.
  - destruct op as [m now|m c now|m|now]; simpl in *.
    + by apply unacked_add_loc.
    + unfold add_with_redelivery_count. destruct (is_disabled t); [done|].
      destruct (backoff t); [|by apply unacked_add_loc]. by destruct (tracked m t).
    + by apply unacked_remove_loc.
    + by apply unacked_poll_loc.
Qed.

(** An acknowledged message is not redelivered: in every state reached
    through clean ticks, after [remove] no tick asks for the message again, until
    it is tracked anew; and it is no longer counted as tracked. *)
Theorem removed_not_redelivered (t : UnackedMessageTracker) (id : MessageId) (now : Z) :
  clean_reachable t ->
  id ∉ expired (unacked_poll now (unacked_remove id t)).1 /\ tracked id (unacked_remove id t) = false.
Proof.
  intros Hr. pose proof (unacked_remove_loc id t (clean_reachable_loc t Hr)) as Hl.
  assert (Hnl : locator (unacked_remove id t) !! id = None).
  { unfold unacked_remove. destruct (locator t !! id) eqn:He; simpl; [apply lookup_delete_eq|done]. }
  assert (Hnb : backoff_pending (unacked_remove id t) !! id = None) by apply lookup_delete_eq.
  split.
  - destruct (is_disabled (unacked_remove id t)) eqn:Hd.
    { unfold unacked_poll. rewrite Hd. set_solver. }
    destruct (evict (ua_handle (unacked_remove id t)) now (buckets (unacked_remove id t))
                (locator (unacked_remove id t))) as [[out bs] loc] eqn:He.
    destruct (unacked_poll_buckets now _ out bs loc Hd He) as (_ & _ & Hx & _).
    rewrite Hx. intros [Hin|(d & Hd' & _)]; [|congruence].
    apply evict_spec in He as (pre & Hpre & _ & _ & Hex & _).
    apply Hex in Hin as (b & Hb & Hid).
    apply list_elem_of_lookup in Hb as [i Hi].
    assert (locator (unacked_remove id t) !! id = Some i); [|congruence].
    apply Hl. exists b. split; [|done]. rewrite Hpre. by apply lookup_app_l_Some.
  - unfold tracked. by rewrite Hnl, Hnb.
Qed.

Definition mid (n : Z) : MessageId := mkMessageId 1 n 0 (-1) 0.

Example removed_not_redelivered_witness :
  mid 4 ∉ expired (unacked_poll 30 (unacked_remove (mid 4) (unacked_add (mid 4) 0 (unacked_new 1 10)))).1
  /\ tracked (mid 4) (unacked_remove (mid 4) (unacked_add (mid 4) 0 (unacked_new 1 10))) = false.
Proof.
  apply removed_not_redelivered.
  exact (clean_step _ (UaAdd (mid 4) 0) (clean_new 1 10) eq_refl).
Defined.

(** Message 1 is tracked at 0 and acked; message 2 is tracked at 11, in a new
    bucket; a tick at 12 evicts the empty first bucket; message 2 is acked. *)
Definition stale_locator_run : UnackedMessageTracker :=
  unacked_remove (mid 2)
    (unacked_poll 12
      (unacked_add (mid 2) 11
        (unacked_remove (mid 1) (unacked_add (mid 1) 0 (unacked_new 1 10))))).2.

(** Without that proviso it fails: a tick that evicts only empty buckets
    leaves the reverse index stale, the ack of a surviving message then misses its
    bucket, and the message is redelivered although it was acknowledged. *)
Theorem acked_message_redelivered :
  tracked (mid 2) stale_locator_run = false /\ mid 2 ∈ expired (unacked_poll 21 stale_locator_run).1.
Proof. split; [reflexivity|]. vm_compute. constructor. Qed.
End Unacked.
