(* ===== verification/MemoryLimit.v ===== *)
(** The client-wide publish memory budget: [magnetar-proto/src/memory_limit.rs].

    [Seq]-level definitions are the methods run without interference.  The
    controller is shared by every producer of a client, so the file also models
    its concurrent executions: a step relation whose steps are the atomic
    accesses of the methods (the load and the compare-and-swap of the
    reservation loop, the [fetch_sub] of a release, the acquisitions of the
    waiter lock, one wake), interleaved arbitrarily between any number of
    callers. *)

From S2P Require Import Prelude.

(** * The controller *)

Inductive MemoryLimitPolicy := ProducerBlock | FailImmediately.

Record MemoryLimitExceeded := mkExceeded { ex_current : Z; ex_limit : Z; ex_requested : Z }.

(** A waker is the caller to wake. *)
Abbreviation waker := nat.

Record Waiters := mkWaiters { next_id : Z; parked : gmap Z waker }.

Record MemoryLimitController := mkController {
  ml_limit : Z;
  ml_policy : MemoryLimitPolicy;
  ml_used : Z;
  ml_waiters : Waiters;
}.

#[global] Instance Controller_eta : Eta MemoryLimitController := fun c =>
  mkController (ml_limit c) (ml_policy c) (ml_used c) (ml_waiters c).
#[global] Instance Waiters_eta : Eta Waiters := fun w => mkWaiters (next_id w) (parked w).

(** [mr_controller] says whether the reservation is held against a controller;
    [MemoryReservation::default()] is not. *)
Record MemoryReservation := mkReservation { mr_controller : bool; mr_bytes : Z }.
Definition empty_reservation : MemoryReservation := mkReservation false 0.

Definition ml_new (limit : Z) (policy : MemoryLimitPolicy) : MemoryLimitController :=
  mkController limit policy 0 (mkWaiters 0 ∅).

(** [current.checked_add(bytes).filter(|next| *next <= limit)] *)
Definition try_next (limit current bytes : Z) : option Z :=
  next ← checked_add u64_max current bytes;
  if next <=? limit then Some next else None.

(** Without interference the compare-and-swap succeeds at the first attempt. *)
Definition try_reserve (bytes : Z) (c : MemoryLimitController)
    : result MemoryLimitExceeded MemoryReservation * MemoryLimitController :=
  if ml_limit c =? 0 then (Ok empty_reservation, c)
  else
    match try_next (ml_limit c) (ml_used c) bytes with
    | None => (Err (mkExceeded (ml_used c) (ml_limit c) bytes), c)
    | Some next => (Ok (mkReservation true bytes), c <| ml_used := next |>)
    end.

(** [park]: the registration slot after it, and the waiters. *)
Definition park (w : Waiters) (waiter : option Z) (waker : waker) : option Z * Waiters :=
  match waiter with
  | Some id =>
      if bool_decide (is_Some (parked w !! id)) then (waiter, w <| parked ::= <[id := waker]> |>)
      else
        let fresh := next_id w in
        (Some fresh, mkWaiters (wrapping_add 64 fresh 1) (<[fresh := waker]> (parked w)))
  | None =>
      let fresh := next_id w in
      (Some fresh, mkWaiters (wrapping_add 64 fresh 1) (<[fresh := waker]> (parked w)))
  end.

Definition unpark (w : Waiters) (waiter : option Z) : Waiters :=
  match waiter with Some id => w <| parked ::= delete id |> | None => w end.

(** [Poll::Ready] is [Some]. *)
Definition poll_reserve (bytes : Z) (waiter : option Z) (waker : waker) (c : MemoryLimitController)
    : option MemoryReservation * option Z * MemoryLimitController :=
  match try_reserve bytes c with
  | (Ok r, c) => (Some r, None, c <| ml_waiters ::= fun w => unpark w waiter |>)
  | (Err _, c) =>
      let '(waiter, w) := park (ml_waiters c) waiter waker in
      (None, waiter, c <| ml_waiters := w |>)
  end.

Definition cancel_waiter (id : Z) (c : MemoryLimitController) : MemoryLimitController :=
  c <| ml_waiters ::= fun w => w <| parked ::= delete id |> |>.

(** [AtomicU64::fetch_sub] wraps. *)
Definition fetch_sub (bytes : Z) (c : MemoryLimitController) : MemoryLimitController :=
  c <| ml_used ::= fun u => (u - bytes) mod 2 ^ 64 |>.

(** [mem::take] of the parked set: the wakers in id order. *)
Definition drain_parked (c : MemoryLimitController) : list waker * MemoryLimitController :=
  ((sort_keys (map_to_list (parked (ml_waiters c))).*1) ≫= fun id =>
      option_list (parked (ml_waiters c) !! id),
   c <| ml_waiters ::= fun w => w <| parked := ∅ |> |>).

Definition release (bytes : Z) (c : MemoryLimitController) : list waker * MemoryLimitController :=
  drain_parked (fetch_sub bytes c).

(** [Drop for MemoryReservation] *)
Definition drop_reservation (r : MemoryReservation) (c : MemoryLimitController)
    : list waker * MemoryLimitController :=
  if mr_controller r then release (mr_bytes r) c else ([], c).

Lemma try_next_spec limit current bytes :
  limit <= u64_max ->
  try_next limit current bytes = if current + bytes <=? limit then Some (current + bytes) else None.
Proof.
  intros. unfold try_next, checked_add. destruct (_ <=? u64_max) eqn:?; simpl; [done|].
  by rewrite (proj2 (Z.leb_gt _ _)) by lia.
Qed.

(** The reservation check is strict and exact: a request is granted if and
    only if the bytes already reserved plus the request stay within the limit,
    and then exactly that many bytes are charged; a refused request changes
    nothing and reports the budget as it stood; a limit of 0 never refuses. *)
Theorem try_reserve_exact (c : MemoryLimitController) (bytes : Z) :
  0 <= ml_limit c <= u64_max ->
  let '(r, c') := try_reserve bytes c in
  ml_waiters c' = ml_waiters c /\ ml_limit c' = ml_limit c
  /\ match r with
     | Ok r => (ml_limit c = 0 /\ r = empty_reservation /\ ml_used c' = ml_used c)
               \/ (ml_limit c <> 0 /\ ml_used c + bytes <= ml_limit c
                   /\ r = mkReservation true bytes /\ ml_used c' = ml_used c + bytes)
     | Err e => ml_limit c <> 0 /\ ml_limit c < ml_used c + bytes /\ c' = c
                /\ e = mkExceeded (ml_used c) (ml_limit c) bytes
     end.
Proof.
  intros Hl. unfold try_reserve. destruct (ml_limit c =? 0) eqn:Hz.
  { split_and!; try done. left. split_and!; try done. lia. }
  rewrite try_next_spec by lia. destruct (_ <=? ml_limit c) eqn:Hn; simpl; split_and!; try done; try lia.
  right. split_and!; try done; lia.
Qed.

Example try_reserve_exact_witness :
  let c := mkController 100 FailImmediately 60 (mkWaiters 0 ∅) in
  let '(r, c') := try_reserve 50 c in
  ml_waiters c' = ml_waiters c /\ ml_limit c' = ml_limit c
  /\ match r with
     | Ok r => (ml_limit c = 0 /\ r = empty_reservation /\ ml_used c' = ml_used c)
               \/ (ml_limit c <> 0 /\ ml_used c + 50 <= ml_limit c
                   /\ r = mkReservation true 50 /\ ml_used c' = ml_used c + 50)
     | Err e => ml_limit c <> 0 /\ ml_limit c < ml_used c + 50 /\ c' = c
                /\ e = mkExceeded (ml_used c) (ml_limit c) 50
     end.
Proof. apply (try_reserve_exact (mkController 100 FailImmediately 60 (mkWaiters 0 ∅)) 50). vm_compute. intuition discriminate. Defined.

(** * Concurrent executions *)

(** Where a caller is.  [PReserve]/[PCas]: in the loop of [try_reserve], outside
    any lock or ([under_lock]) inside [poll_reserve]; [PPark]: refused, about to
    register; [PWaiting]: returned [Pending]; [PHolding]: owns a reservation;
    [PDrain], [PWake]: in [release], after the decrement. *)
Inductive pc :=
| PIdle
| PPoll (bytes : Z) (waiter : option Z)
| PReserve (bytes : Z) (under_lock : option (option Z))
| PCas (bytes current : Z) (under_lock : option (option Z))
| PPark (bytes : Z) (waiter : option Z)
| PWaiting (bytes id : Z)
| PHolding (r : MemoryReservation)
| PDrain
| PWake (pending : list waker).

Record config := mkConfig {
  ctl : MemoryLimitController;
  lock : option nat;
  callers : list pc;
  woken : gset nat;
}.

#[global] Instance config_eta : Eta config := fun g => mkConfig (ctl g) (lock g) (callers g) (woken g).

Definition goto (t : nat) (p : pc) (g : config) : config := g <| callers ::= <[t := p]> |>.

Inductive step : config -> config -> Prop :=
(* a caller asks: [try_reserve], or [poll_reserve] for the first time *)
| s_try g t bytes : callers g !! t = Some PIdle -> 0 <= bytes <= u64_max ->
    step g (goto t (PReserve bytes None) g)
| s_poll g t bytes : callers g !! t = Some PIdle -> 0 <= bytes <= u64_max ->
    step g (goto t (PPoll bytes None) g)
(* a pending caller is polled again: after a wake, or spuriously *)
| s_repoll g t bytes id : callers g !! t = Some (PWaiting bytes id) ->
    step g (goto t (PPoll bytes (Some id)) g <| woken ::= fun w => w ∖ {[t]} |>)
(* a pending caller is dropped: [cancel_waiter] *)
| s_cancel g t bytes id : callers g !! t = Some (PWaiting bytes id) -> lock g = None ->
    step g (goto t PIdle g <| ctl ::= cancel_waiter id |> <| woken ::= fun w => w ∖ {[t]} |>)
(* [poll_reserve] takes the waiter lock *)
| s_lock g t bytes waiter : callers g !! t = Some (PPoll bytes waiter) -> lock g = None ->
    step g (goto t (PReserve bytes (Some waiter)) g <| lock := Some t |>)
(* the unlimited budget *)
| s_unlimited g t bytes : callers g !! t = Some (PReserve bytes None) -> ml_limit (ctl g) = 0 ->
    step g (goto t (PHolding empty_reservation) g)
| s_unlimited_poll g t bytes waiter : callers g !! t = Some (PReserve bytes (Some waiter)) ->
    ml_limit (ctl g) = 0 ->
    step g (goto t (PHolding empty_reservation) g
              <| ctl ::= fun c => c <| ml_waiters ::= fun w => unpark w waiter |> |> <| lock := None |>)
(* the load: refused, or on to the compare-and-swap *)
| s_refused g t bytes : callers g !! t = Some (PReserve bytes None) -> ml_limit (ctl g) <> 0 ->
    try_next (ml_limit (ctl g)) (ml_used (ctl g)) bytes = None ->
    step g (goto t PIdle g)
| s_refused_poll g t bytes waiter : callers g !! t = Some (PReserve bytes (Some waiter)) ->
    ml_limit (ctl g) <> 0 -> try_next (ml_limit (ctl g)) (ml_used (ctl g)) bytes = None ->
    step g (goto t (PPark bytes waiter) g)
| s_load g t bytes ul next : callers g !! t = Some (PReserve bytes ul) -> ml_limit (ctl g) <> 0 ->
    try_next (ml_limit (ctl g)) (ml_used (ctl g)) bytes = Some next ->
    step g (goto t (PCas bytes (ml_used (ctl g)) ul) g)
(* the compare-and-swap: lost race, or reserved *)
| s_cas_lost g t bytes current ul : callers g !! t = Some (PCas bytes current ul) ->
    ml_used (ctl g) <> current ->
    step g (goto t (PReserve bytes ul) g)
| s_cas g t bytes current : callers g !! t = Some (PCas bytes current None) ->
    ml_used (ctl g) = current ->
    step g (goto t (PHolding (mkReservation true bytes)) g <| ctl ::= fun c => c <| ml_used := current + bytes |> |>)
| s_cas_poll g t bytes current waiter : callers g !! t = Some (PCas bytes current (Some waiter)) ->
    ml_used (ctl g) = current ->
    step g (goto t (PHolding (mkReservation true bytes)) g
              <| ctl ::= fun c => c <| ml_used := current + bytes |> <| ml_waiters ::= fun w => unpark w waiter |> |>
              <| lock := None |>)
(* registration; the id counter does not wrap within the life of a process *)
| s_park g t bytes waiter id w : callers g !! t = Some (PPark bytes waiter) ->
    next_id (ml_waiters (ctl g)) < u64_max ->
    park (ml_waiters (ctl g)) waiter t = (Some id, w) ->
    step g (goto t (PWaiting bytes id) g <| ctl ::= fun c => c <| ml_waiters := w |> |> <| lock := None |>)
(* a reservation is dropped: nothing to do, or [release] *)
| s_drop_empty g t r : callers g !! t = Some (PHolding r) -> mr_controller r = false ->
    step g (goto t PIdle g)
| s_sub g t r : callers g !! t = Some (PHolding r) -> mr_controller r = true ->
    step g (goto t PDrain g <| ctl ::= fetch_sub (mr_bytes r) |>)
| s_drain g t : callers g !! t = Some PDrain -> lock g = None ->
    step g (goto t (PWake (drain_parked (ctl g)).1) g <| ctl := (drain_parked (ctl g)).2 |>)
| s_wake g t k ks : callers g !! t = Some (PWake (k :: ks)) ->
    step g (goto t (PWake ks) g <| woken ::= fun w => {[k]} ∪ w |>)
| s_done g t : callers g !! t = Some (PWake []) -> step g (goto t PIdle g).

Definition initial_config (limit : Z) (policy : MemoryLimitPolicy) (n : nat) : config :=
  mkConfig (ml_new limit policy) None (replicate n PIdle) ∅.

Inductive reachable (limit : Z) (policy : MemoryLimitPolicy) (n : nat) : config -> Prop :=
| r_init : reachable limit policy n (initial_config limit policy n)
| r_step g g' : reachable limit policy n g -> step g g' -> reachable limit policy n g'.

(** ** Lookups after a move *)

Lemma lookup_goto t p g t' p' :
  callers (goto t p g) !! t' = Some p' ->
  (t' = t /\ p' = p) \/ (t' <> t /\ callers g !! t' = Some p').
Proof.
  unfold goto. simpl. destruct (decide (t' = t)) as [->|Hne].
  - intros H. left. split; [done|]. rewrite list_lookup_insert_eq in H; [congruence|].
    apply lookup_lt_Some in H. by rewrite length_insert in H.
  - rewrite list_lookup_insert_ne by done. auto.
Qed.

Lemma lookup_goto_ne t p g t' p' :
  t' <> t -> callers g !! t' = Some p' -> callers (goto t p g) !! t' = Some p'.
Proof. intros. unfold goto. simpl. by rewrite list_lookup_insert_ne. Qed.

Lemma lookup_goto_eq t p q g : callers g !! t = Some q -> callers (goto t p g) !! t = Some p.
Proof. intros H. unfold goto. simpl. apply list_lookup_insert_eq. by eapply lookup_lt_Some. Qed.

(** ** The budget *)

Definition held (p : pc) : Z :=
  match p with PHolding r => if mr_controller r then mr_bytes r else 0 | _ => 0 end.

Definition total_held (l : list pc) : Z := foldr (fun p acc => held p + acc) 0 l.

Lemma total_held_insert l : forall t p q,
  l !! t = Some q -> total_held (<[t := p]> l) = total_held l - held q + held p.
Proof.
  induction l as [|x l IH]; intros [|t] p q; simpl; try done.
  - intros [= ->]. lia.
  - intros H. rewrite (IH t p q H). lia.
Qed.

Lemma total_held_replicate n : total_held (replicate n PIdle) = 0.
Proof. induction n; simpl; lia. Qed.

(** What a caller knows about the budget at each point. *)
Definition pc_ok (limit : Z) (p : pc) : Prop :=
  match p with
  | PPoll b _ | PReserve b _ | PPark b _ | PWaiting b _ => 0 <= b
  | PCas b current _ => 0 <= b /\ current + b <= limit
  | PHolding r => 0 <= mr_bytes r
  | _ => True
  end.

Definition budget_inv (limit : Z) (g : config) : Prop :=
  ml_limit (ctl g) = limit /\ ml_used (ctl g) = total_held (callers g)
  /\ 0 <= ml_used (ctl g) <= limit
  /\ forall t p, callers g !! t = Some p -> pc_ok limit p.

Lemma pc_ok_goto limit t p g :
  (forall t p, callers g !! t = Some p -> pc_ok limit p) -> pc_ok limit p ->
  forall t' p', callers (goto t p g) !! t' = Some p' -> pc_ok limit p'.
Proof. intros Hg Hp t' p' [[-> ->]|[_ H]]%lookup_goto; [done|by eapply Hg]. Qed.

Lemma held_le_total l : (forall t p, l !! t = Some p -> 0 <= held p) ->
  forall t p, l !! t = Some p -> held p <= total_held l.
Proof.
  induction l as [|x l IH]; intros Hl [|t] p; simpl; try done.
  - intros [= ->]. assert (0 <= total_held l).
    { clear IH. assert (Hl' : forall t p, l !! t = Some p -> 0 <= held p) by (intros t q Hx; by apply (Hl (S t))).
      clear Hl. induction l as [|y l IHl]; simpl; [lia|].
      pose proof (Hl' 0%nat y eq_refl). assert (0 <= total_held l); [|lia].
      apply IHl. intros t q Hx. by apply (Hl' (S t)). }
    lia.
  - intros Hx. pose proof (Hl 0%nat x eq_refl).
    assert (held p <= total_held l); [|lia]. eapply IH; [|done]. intros t' q H'. by apply (Hl (S t')).
Qed.

(** One caller moves from [q] to [p]; the rest of the change is to the counter. *)
Lemma budget_move limit g g' t q p :
  budget_inv limit g -> callers g !! t = Some q -> callers g' = <[t := p]> (callers g) ->
  ml_limit (ctl g') = ml_limit (ctl g) ->
  ml_used (ctl g') = ml_used (ctl g) - held q + held p -> ml_used (ctl g') <= limit ->
  pc_ok limit p -> budget_inv limit g'.
Proof.
  intros (Hlim & Hu & Hb & Hpc) Hq Hcs Hl' Hu' Hle Hp.
  assert (Hpc' : forall t' p', callers g' !! t' = Some p' -> pc_ok limit p').
  { intros t' p'. rewrite Hcs. apply (pc_ok_goto limit t p g Hpc Hp). }
  assert (Hnn : forall t' p', callers g' !! t' = Some p' -> 0 <= held p').
  { intros t' p' H'. specialize (Hpc' t' p' H'). destruct p'; simpl in *; try lia. case_match; lia. }
  assert (Hsum : ml_used (ctl g') = total_held (callers g')).
  { rewrite Hcs, (total_held_insert _ t p q Hq). lia. }
  split_and!; [congruence|done| |done|done].
  rewrite Hsum. clear -Hnn. induction (callers g') as [|x l IH]; simpl; [lia|].
  pose proof (Hnn 0%nat x eq_refl). assert (0 <= total_held l); [|lia].
  apply IH. intros t q H'. by apply (Hnn (S t)).
Qed.

Lemma budget_held limit g t p : budget_inv limit g -> callers g !! t = Some p -> 0 <= held p <= ml_used (ctl g).
Proof.
  intros (_ & Hu & _ & Hpc) Hp.
  assert (Hnn : forall t p, callers g !! t = Some p -> 0 <= held p).
  { intros t' q H'. specialize (Hpc t' q H'). destruct q; simpl in *; try lia. case_match; lia. }
  split; [by eapply Hnn|]. rewrite Hu. by eapply held_le_total.
Qed.

Lemma budget_step limit g g' : limit <= u64_max -> budget_inv limit g -> step g g' -> budget_inv limit g'.
Proof.
  intros Hl Hi Hs. pose proof Hi as (Hlim & Hu & Hb & Hpc).
  inversion Hs as [? t ? Hc|? t ? Hc|? t ? ? Hc|? t ? ? Hc|? t ? ? Hc|? t ? Hc|? t ? ? Hc|? t ? Hc
    |? t ? ? Hc|? t ? ? ? Hc ? Hn|? t ? ? ? Hc|? t ? ? Hc|? t ? ? ? Hc|? t ? ? ? ? Hc|? t ? Hc|? t r Hc Hr|? t Hc|? t ? ? Hc|? t Hc];
    subst g g'; pose proof (Hpc _ _ Hc) as Hok; pose proof (budget_held _ _ _ _ Hi Hc) as Hh;
    try (eapply (budget_move limit _ _ t); [exact Hi|exact Hc|reflexivity|reflexivity|simpl in *; lia|simpl in *; lia|simpl in *; lia || done]).
  - rewrite Hlim, try_next_spec in Hn by done.
    eapply (budget_move limit _ _ t); [exact Hi|exact Hc|reflexivity|reflexivity|simpl in *; lia|simpl in *; lia|].
    simpl in *. case_match; simplify_eq. lia.
  - eapply (budget_move limit _ _ t); [exact Hi|exact Hc|reflexivity|reflexivity| |simpl in *; lia|done].
    simpl in *. case_match; simplify_eq; lia.
  - simpl in Hh. rewrite Hr in Hh.
    assert (Hm : (ml_used (ctl g0) - mr_bytes r) mod 2 ^ 64 = ml_used (ctl g0) - mr_bytes r).
    { apply Z.mod_small. unfold u64_max in *. lia. }
    eapply (budget_move limit _ _ t); [exact Hi|exact Hc|reflexivity|reflexivity| | |done];
      simpl; rewrite ?Hr, Hm; lia.
Qed.

Lemma budget_reachable limit policy n g :
  0 <= limit <= u64_max -> reachable limit policy n g -> budget_inv limit g.
Proof.
  intros Hl. induction 1 as [|g g' _ IH Hs]; [|eapply budget_step; [lia|done|done]].
  unfold budget_inv. simpl. rewrite total_held_replicate. split_and!; try done; try lia.
  intros t p [-> _]%lookup_replicate. done.
Qed.

(** C11: the budget is never exceeded and never leaks: in every interleaving of
    any number of callers, the counter is exactly the sum of the live
    reservations and stays within the limit, and the decrement of a release
    never wraps. *)
Theorem budget_conserved (limit : Z) (policy : MemoryLimitPolicy) (n : nat) (g : config) :
  0 <= limit <= u64_max -> reachable limit policy n g ->
  ml_used (ctl g) = total_held (callers g) /\ ml_used (ctl g) <= limit
  /\ forall t r, callers g !! t = Some (PHolding r) -> mr_controller r = true ->
       ml_used (fetch_sub (mr_bytes r) (ctl g)) = ml_used (ctl g) - mr_bytes r
       /\ 0 <= ml_used (ctl g) - mr_bytes r.
Proof.
  intros Hl Hr. pose proof (budget_reachable _ _ _ _ Hl Hr) as Hi.
  pose proof Hi as (Hlim & Hu & Hb & Hpc). split_and!; [done|lia|].
  intros t r Ht Hm. pose proof (budget_held _ _ _ _ Hi Ht) as Hh. simpl in Hh. rewrite Hm in Hh.
  split; [|lia]. simpl. apply Z.mod_small. unfold u64_max in *. lia.
Qed.

(** ** Waiters *)

(** The registration a caller believes it has. *)
Definition carries (p : pc) : option Z :=
  match p with
  | PPoll _ w | PReserve _ (Some w) | PCas _ _ (Some w) | PPark _ w => w
  | PWaiting _ id => Some id
  | _ => None
  end.

Definition in_lock (p : pc) : bool :=
  match p with
  | PReserve _ (Some _) | PCas _ _ (Some _) | PPark _ _ => true
  | _ => false
  end.

Definition draining (g : config) : Prop := exists t, callers g !! t = Some PDrain.

(** The request does not fit, or a release is about to wake everybody. *)
Definition no_room (bytes : Z) (g : config) : Prop :=
  ml_limit (ctl g) < ml_used (ctl g) + bytes \/ draining g.

Definition being_woken (t : nat) (g : config) : Prop :=
  t ∈ woken g \/ exists t' ks, callers g !! t' = Some (PWake ks) /\ t ∈ ks.

Record waiters_inv (g : config) : Prop := {
  wi_next : 0 <= next_id (ml_waiters (ctl g));
  wi_ids : forall t p id, callers g !! t = Some p -> carries p = Some id -> 0 <= id < next_id (ml_waiters (ctl g));
  wi_unique : forall t t' p p' id, callers g !! t = Some p -> callers g !! t' = Some p' ->
    carries p = Some id -> carries p' = Some id -> t = t';
  wi_owner : forall id t, parked (ml_waiters (ctl g)) !! id = Some t ->
    exists p, callers g !! t = Some p /\ carries p = Some id;
  wi_lock : forall t p, callers g !! t = Some p -> in_lock p = true -> lock g = Some t;
  wi_room : forall t b id, callers g !! t = Some (PWaiting b id) ->
    parked (ml_waiters (ctl g)) !! id = Some t -> no_room b g;
  wi_park : forall t b w, callers g !! t = Some (PPark b w) -> no_room b g;
  wi_wake : forall t b id, callers g !! t = Some (PWaiting b id) ->
    parked (ml_waiters (ctl g)) !! id = Some t \/ being_woken t g;
}.

(** What a step of caller [t], from [q] to [p], has to respect for the waiter
    invariant; the other callers do not move. *)
Record move_ok (g g' : config) (t : nat) (q p : pc) : Prop := {
  mo_callers : callers g' = <[t := p]> (callers g);
  mo_next : next_id (ml_waiters (ctl g)) <= next_id (ml_waiters (ctl g'));
  mo_carries : carries p = None \/ carries p = carries q
    \/ (carries p = Some (next_id (ml_waiters (ctl g))) /\ next_id (ml_waiters (ctl g)) < next_id (ml_waiters (ctl g')));
  mo_parked : forall id t', parked (ml_waiters (ctl g')) !! id = Some t' ->
    (t' <> t /\ parked (ml_waiters (ctl g)) !! id = Some t') \/ (t' = t /\ carries p = Some id);
  mo_lock : (in_lock p = true -> lock g' = Some t)
    /\ (lock g' = lock g \/ lock g = None \/ in_lock q = true);
  mo_room : (forall b, no_room b g -> no_room b g')
    \/ (lock g = None /\ parked (ml_waiters (ctl g')) = ∅);
  mo_room_t : match p with PWaiting b _ | PPark b _ => no_room b g' | _ => True end;
  mo_wake : forall t' id, t' <> t -> parked (ml_waiters (ctl g)) !! id = Some t' ->
    (exists b, callers g !! t' = Some (PWaiting b id)) ->
    parked (ml_waiters (ctl g')) !! id = Some t' \/ being_woken t' g';
  mo_woken : forall t', t' <> t -> being_woken t' g -> being_woken t' g';
  mo_wake_t : match p with PWaiting _ id => parked (ml_waiters (ctl g')) !! id = Some t | _ => True end;
}.

Section Move.
Context (g g' : config) (t : nat) (q p : pc).
Context (Hq : callers g !! t = Some q) (Hm : move_ok g g' t q p) (Hi : waiters_inv g).

Lemma move_lookup t' p' :
  callers g' !! t' = Some p' -> (t' = t /\ p' = p) \/ (t' <> t /\ callers g !! t' = Some p').
Proof. rewrite (mo_callers _ _ _ _ _ Hm). apply (lookup_goto t p g). Qed.

Lemma move_lookup_t : callers g' !! t = Some p.
Proof. rewrite (mo_callers _ _ _ _ _ Hm). by apply (lookup_goto_eq t p q g). Qed.

Lemma move_lookup_ne t' p' : t' <> t -> callers g !! t' = Some p' -> callers g' !! t' = Some p'.
Proof. rewrite (mo_callers _ _ _ _ _ Hm). apply (lookup_goto_ne t p g). Qed.

Lemma move_lock_other t' p' : t' <> t -> callers g !! t' = Some p' -> in_lock p' = true -> lock g' = Some t'.
Proof.
  intros Hne Hp' Hl'. pose proof (wi_lock g Hi _ _ Hp' Hl') as Hl.
  destruct (mo_lock _ _ _ _ _ Hm) as [_ [->|[Hn|Hq']]]; [done|congruence|].
  pose proof (wi_lock g Hi _ _ Hq Hq'). congruence.
Qed.

Lemma move_ids t' p' id :
  callers g' !! t' = Some p' -> carries p' = Some id -> 0 <= id < next_id (ml_waiters (ctl g')).
Proof.
  pose proof (mo_next _ _ _ _ _ Hm). pose proof (wi_next g Hi).
  intros [[-> ->]|[Hne Hp']]%move_lookup Hid.
  - destruct (mo_carries _ _ _ _ _ Hm) as [Hc|[Hc|[Hc Hlt]]]; rewrite Hc in Hid; [done| |].
    + pose proof (wi_ids g Hi _ _ _ Hq Hid). lia.
    + injection Hid as <-. lia.
  - pose proof (wi_ids g Hi _ _ _ Hp' Hid). lia.
Qed.

Lemma move_unique_t t' p' id :
  t' <> t -> callers g !! t' = Some p' -> carries p = Some id -> carries p' <> Some id.
Proof.
  intros Hne Hp' Hid Hid'.
  destruct (mo_carries _ _ _ _ _ Hm) as [Hc|[Hc|[Hc Hlt]]]; rewrite Hc in Hid; [done| |].
  - by pose proof (wi_unique g Hi _ _ _ _ _ Hp' Hq Hid' Hid).
  - injection Hid as <-. pose proof (wi_ids g Hi _ _ _ Hp' Hid'). lia.
Qed.

Lemma waiters_move : waiters_inv g'.
Proof.
  split.
  - pose proof (mo_next _ _ _ _ _ Hm). pose proof (wi_next g Hi). lia.
  - apply move_ids.
  - intros t1 t2 p1 p2 id [[-> ->]|[Hn1 H1]]%move_lookup [[-> ->]|[Hn2 H2]]%move_lookup Hc1 Hc2; try done.
    + by destruct (move_unique_t t2 p2 id Hn2 H2 Hc1).
    + by destruct (move_unique_t t1 p1 id Hn1 H1 Hc2).
    + by eapply (wi_unique g Hi).
  - intros id t' [[Hne Hp]|[-> Hc]]%(mo_parked _ _ _ _ _ Hm).
    + destruct (wi_owner g Hi _ _ Hp) as (p' & Hp' & Hc). exists p'. split; [by apply move_lookup_ne|done].
    + exists p. split; [apply move_lookup_t|done].
  - intros t' p' [[-> ->]|[Hne Hp']]%move_lookup Hl; [by apply (mo_lock _ _ _ _ _ Hm)|].
    by eapply move_lock_other.
  - intros t' b id [[-> Hp]|[Hne Hp']]%move_lookup Hk.
    + pose proof (mo_room_t _ _ _ _ _ Hm) as Hr. by rewrite <- Hp in Hr.
    + destruct (mo_room _ _ _ _ _ Hm) as [Hr|[_ He]]; [|by rewrite He in Hk].
      apply Hr. apply (mo_parked _ _ _ _ _ Hm) in Hk as [[_ Hk]|[-> _]]; [|done].
      by eapply (wi_room g Hi).
  - intros t' b w [[-> Hp]|[Hne Hp']]%move_lookup.
    + pose proof (mo_room_t _ _ _ _ _ Hm) as Hr. by rewrite <- Hp in Hr.
    + destruct (mo_room _ _ _ _ _ Hm) as [Hr|[Hl _]]; [apply Hr; by eapply (wi_park g Hi)|].
      pose proof (wi_lock g Hi _ _ Hp' eq_refl). congruence.
  - intros t' b id [[-> Hp]|[Hne Hp']]%move_lookup.
    + pose proof (mo_wake_t _ _ _ _ _ Hm) as Hw. rewrite <- Hp in Hw. by left.
    + destruct (wi_wake g Hi _ _ _ Hp') as [Hk|Hw]; [|right; by apply (mo_woken _ _ _ _ _ Hm)].
      apply (mo_wake _ _ _ _ _ Hm); eauto.
Qed.
End Move.

Lemma no_room_mono g g' t q p b :
  callers g !! t = Some q -> q <> PDrain -> callers g' = <[t := p]> (callers g) ->
  ml_limit (ctl g') = ml_limit (ctl g) -> ml_used (ctl g) <= ml_used (ctl g') ->
  no_room b g -> no_room b g'.
Proof.
  intros Hq Hne Hc Hl Hu [Hr|[t' Ht']]; [left; lia|]. right. exists t'. rewrite Hc.
  apply (lookup_goto_ne t p g); [congruence|done].
Qed.

Lemma being_woken_mono g g' t q p t' :
  callers g !! t = Some q -> callers g' = <[t := p]> (callers g) ->
  (forall k, k <> t -> k ∈ woken g -> k ∈ woken g') ->
  (forall ks, q <> PWake ks) -> t' <> t -> being_woken t' g -> being_woken t' g'.
Proof.
  intros Hq Hc Hw Hn Hne [Hin|(t1 & ks & H1 & Hk)]; [left; auto|]. right. exists t1, ks.
  split; [|done]. rewrite Hc. apply (lookup_goto_ne t p g); [|done]. intros ->.
  rewrite Hq in H1. injection H1 as H1. by apply (Hn ks).
Qed.

(** A step that leaves the parked set and the id counter alone. *)
Lemma move_plain g g' t q p :
  callers g !! t = Some q -> callers g' = <[t := p]> (callers g) ->
  ml_waiters (ctl g') = ml_waiters (ctl g) -> waiters_inv g ->
  (carries q <> None -> carries p = carries q) -> carries p = None \/ carries p = carries q ->
  (in_lock p = true -> lock g' = Some t) ->
  (lock g' = lock g \/ lock g = None \/ in_lock q = true) ->
  (forall b, no_room b g -> no_room b g') ->
  match p with PPark b _ => no_room b g' | PWaiting _ _ => False | _ => True end ->
  (forall t', t' <> t -> being_woken t' g -> being_woken t' g') ->
  move_ok g g' t q p.
Proof.
  intros Hq Hc Hw Hi Hcq Hcp Hl1 Hl2 Hr Hp Hbw. split; rewrite ?Hw; try done.
  - tauto.
  - intros id t' Hk. destruct (decide (t' = t)) as [->|Hne]; [|by left]. right. split; [done|].
    destruct (wi_owner g Hi _ _ Hk) as (p' & Hp' & Hcp'). rewrite Hq in Hp'. injection Hp' as <-.
    rewrite Hcq by congruence. done.
  - by left.
  - by destruct p.
  - intros t' id Hne Hk _. by left.
  - by destruct p.
Qed.

(** A step that drops the caller's own registration, if any. *)
Lemma move_unpark g g' t q p waiter :
  callers g !! t = Some q -> callers g' = <[t := p]> (callers g) -> carries q = waiter ->
  ml_waiters (ctl g') = unpark (ml_waiters (ctl g)) waiter -> waiters_inv g ->
  carries p = None -> in_lock p = false ->
  (lock g' = lock g \/ lock g = None \/ in_lock q = true) ->
  (forall b, no_room b g -> no_room b g') ->
  match p with PPark _ _ | PWaiting _ _ => False | _ => True end ->
  (forall t', t' <> t -> being_woken t' g -> being_woken t' g') ->
  move_ok g g' t q p.
Proof.
  intros Hq Hc Hcq Hw Hi Hcp Hl1 Hl2 Hr Hp Hbw.
  assert (Hn : next_id (ml_waiters (ctl g')) = next_id (ml_waiters (ctl g))) by (rewrite Hw; by destruct waiter).
  split; rewrite ?Hn; try done.
  - by left.
  - intros id t' Hk. left. rewrite Hw in Hk.
    assert (Hk' : parked (ml_waiters (ctl g)) !! id = Some t' /\ waiter <> Some id).
    { destruct waiter as [w|]; simpl in Hk; [|done]. apply lookup_delete_Some in Hk as [? ?]. naive_solver. }
    destruct Hk' as [Hk' Hne]. split; [|done]. intros ->.
    destruct (wi_owner g Hi _ _ Hk') as (p' & Hp' & Hcp'). rewrite Hq in Hp'. injection Hp' as <-. congruence.
  - split; [congruence|done].
  - by left.
  - by destruct p.
  - intros t' id Hne Hk _. left. rewrite Hw. destruct waiter as [w|]; simpl; [|done].
    rewrite lookup_delete_ne; [done|]. intros ->.
    destruct (wi_owner g Hi _ _ Hk) as (p' & Hp' & Hcp').
    by apply Hne, (wi_unique g Hi _ _ _ _ id Hp' Hq).
  - by destruct p.
Qed.

Lemma park_spec w waiter t id w' :
  0 <= next_id w < u64_max ->
  park w waiter t = (Some id, w') ->
  parked w' = <[id := t]> (parked w)
  /\ ((waiter = Some id /\ next_id w' = next_id w)
      \/ (id = next_id w /\ next_id w' = next_id w + 1 /\ forall i, waiter = Some i -> parked w !! i = None)).
Proof.
  intros Hn. unfold park, wrapping_add. rewrite (Z.mod_small (next_id w + 1)) by (unfold u64_max in *; lia).
  destruct waiter as [i|]; [case_bool_decide as Hk|]; intros [= <- <-]; simpl; split; auto;
    right; split_and!; try done. intros j [= <-]. by apply eq_None_not_Some.
Qed.

Lemma drain_parked_elem c id t :
  parked (ml_waiters c) !! id = Some t -> t ∈ (drain_parked c).1.
Proof.
  intros H. simpl. apply list_elem_of_bind. exists id. rewrite H. split; [simpl; set_solver|].
  rewrite elem_of_sort_keys, list_elem_of_fmap. exists (id, t). split; [done|]. by apply elem_of_map_to_list.
Qed.

Lemma s_drain_move g t :
  callers g !! t = Some PDrain -> lock g = None -> waiters_inv g ->
  move_ok g (goto t (PWake (drain_parked (ctl g)).1) g <| ctl := (drain_parked (ctl g)).2 |>) t PDrain
    (PWake (drain_parked (ctl g)).1).
Proof.
  intros Hc Hl Hi. split; try done; cbn [ctl update].
  - by left.
  - split; [done|by left].
  - right. done.
  - intros t' id Hne Hk _. right. right. exists t, (drain_parked (ctl g)).1.
    split; [by apply (lookup_goto_eq t _ _ g Hc)|by eapply drain_parked_elem].
  - intros t' Hne. eapply (being_woken_mono g _ t PDrain); try done.
Qed.

Lemma s_park_move g t bytes waiter id w :
  callers g !! t = Some (PPark bytes waiter) -> next_id (ml_waiters (ctl g)) < u64_max ->
  park (ml_waiters (ctl g)) waiter t = (Some id, w) -> waiters_inv g ->
  move_ok g (goto t (PWaiting bytes id) g <| ctl ::= fun c => c <| ml_waiters := w |> |> <| lock := None |>) t
    (PPark bytes waiter) (PWaiting bytes id).
Proof.
  intros Hc Hn Hp Hi. pose proof (wi_next g Hi).
  apply park_spec in Hp as (Hpk & Hcase); [|lia].
  assert (Hid : forall t' p', t' <> t -> callers g !! t' = Some p' -> carries p' <> Some id).
  { intros t' p' Hne Hp' Hc'. destruct Hcase as [[-> _]|(-> & _)].
    - by apply Hne, (wi_unique g Hi _ _ _ _ id Hp' Hc).
    - pose proof (wi_ids g Hi _ _ _ Hp' Hc'). lia. }
  split; cbn [ctl update ml_waiters]; try done.
  - simpl. destruct Hcase as [[_ Hx]|(_ & Hx & _)]; lia.
  - simpl. destruct Hcase as [[-> _]|(-> & Hx & _)]; [by right; left|]. right; right. split; [done|lia].
  - intros i t'. simpl. rewrite Hpk. intros [[-> ->]|[Hne Hk]]%lookup_insert_Some; [by right|].
    destruct (decide (t' = t)) as [->|Hne']; [|by left]. exfalso.
    destruct (wi_owner g Hi _ _ Hk) as (p' & Hp' & Hcp'). rewrite Hc in Hp'. injection Hp' as <-. simpl in Hcp'.
    destruct Hcase as [[-> _]|(-> & _ & Hnp)]; [congruence|]. rewrite (Hnp i) in Hk; done.
  - split; [done|]. by right; right.
  - left. intros b. by eapply (no_room_mono g _ t).
  - eapply (no_room_mono g _ t); [done|done|reflexivity|done|done|]. by eapply (wi_park g Hi).
  - intros t' i Hne Hk _. left. simpl. rewrite Hpk, lookup_insert_ne; [done|]. intros ->.
    destruct (wi_owner g Hi _ _ Hk) as (p' & Hp' & Hcp'). by apply (Hid t' p').
  - intros t' Hne. by eapply (being_woken_mono g _ t).
  - simpl. rewrite Hpk. apply lookup_insert_eq.
Qed.

(** The steps that do not touch the parked set, but for the queue of wakes. *)
Ltac plain_move Hc Hi :=
  eapply waiters_move; [exact Hc| |exact Hi];
  eapply move_plain; [exact Hc|reflexivity|reflexivity|exact Hi|..];
  first [ done | by left | by right | by right; left | by right; right
        | by intros ?; eapply no_room_mono; [exact Hc|done|reflexivity|done|done|..]
        | by intros ?; eapply no_room_mono; [exact Hc|done|reflexivity|done|simpl; lia|..]
        | by intros Hil; eapply (wi_lock _ Hi); [exact Hc|exact Hil]
        | by intros t' Hne; eapply being_woken_mono; [exact Hc|reflexivity|set_solver|done|done] | idtac ].

Lemma waiters_step limit g g' :
  limit <= u64_max -> budget_inv limit g -> waiters_inv g -> step g g' -> waiters_inv g'.
Proof.
  intros Hl Hb Hi Hs. pose proof Hb as (Hlim & _ & Hu & Hpc).
  destruct Hs as [g t ? Hc|g t ? Hc|g t ? id Hc|g t ? id Hc|g t b w Hc Hlk|g t ? Hc|g t ? w Hc|g t ? Hc
    |g t b w Hc Hz Hn|g t b ul nx Hc ? Hn|g t b cur ul Hc|g t b cur Hc Hcur|g t b cur w Hc Hcur|g t b w id w' Hc Hn Hp|g t r Hc|g t r Hc Hr|g t Hc|g t k ks Hc|g t Hc];
    pose proof (Hpc _ _ Hc) as Hok; simpl in Hok.
  all: try plain_move Hc Hi.
  - eapply waiters_move; [exact Hc| |exact Hi]. eapply (move_unpark _ _ _ _ _ (Some id)); try done.
    + by left.
    + intros ?. by eapply no_room_mono; [exact Hc|done|reflexivity|done|done|..].
    + intros t' Hne. eapply being_woken_mono; [exact Hc|reflexivity|set_solver|done|done].
  - eapply waiters_move; [exact Hc| |exact Hi]. eapply (move_unpark _ _ _ _ _ w); try done.
    + by right; right.
    + intros ?. by eapply no_room_mono; [exact Hc|done|reflexivity|done|done|..].
    + intros t' Hne. eapply being_woken_mono; [exact Hc|reflexivity|set_solver|done|done].
  - eapply no_room_mono; [exact Hc|done|reflexivity|done|done|]. left.
    rewrite Hlim, try_next_spec in Hn by done. rewrite Hlim. case_match; [done|]. lia.
  - eapply waiters_move; [exact Hc| |exact Hi]. eapply (move_unpark _ _ _ _ _ w); try done.
    + by right; right.
    + intros ?. eapply no_room_mono; [exact Hc|done|reflexivity|done|simpl; lia].
    + intros t' Hne. eapply being_woken_mono; [exact Hc|reflexivity|set_solver|done|done].
  - eapply waiters_move; [exact Hc| |exact Hi]. by apply s_park_move.
  - intros b _. right. exists t. by apply (lookup_goto_eq t _ _ g Hc).
  - eapply waiters_move; [exact Hc| |exact Hi]. by apply s_drain_move.
  - intros t' Hne [Hin|(t1 & ks' & H1 & Hk)]; [left; set_solver|].
    destruct (decide (t1 = t)) as [->|Hne1].
    + rewrite Hc in H1. injection H1 as <-. apply elem_of_cons in Hk as [->|Hk]; [left; set_solver|].
      right. exists t, ks. split; [by apply (lookup_goto_eq t _ _ g Hc)|done].
    + right. exists t1, ks'. split; [by apply (lookup_goto_ne t)|done].
  - intros t' Hne [Hin|(t1 & ks' & H1 & Hk)]; [by left|]. right. exists t1, ks'. split; [|done].
    apply (lookup_goto_ne t); [|done]. intros ->. rewrite Hc in H1. injection H1 as <-. set_solver.
Qed.

Lemma waiters_reachable limit policy n g :
  0 <= limit <= u64_max -> reachable limit policy n g -> waiters_inv g.
Proof.
  intros Hl. induction 1 as [|g g' Hr IH Hs].
  - assert (Hidle : forall t p, callers (initial_config limit policy n) !! t = Some p -> p = PIdle).
    { intros t p Hp. simpl in Hp. by apply lookup_replicate in Hp as [-> _]. }
    split; simpl; try lia; try (intros; by rewrite lookup_empty in *);
      intros; repeat match goal with H : _ !! _ = Some _ |- _ => apply Hidle in H end; naive_solver.
  - eapply waiters_step; [|by eapply budget_reachable|done|done]. lia.
Qed.

(** C12: no lost wakeup: in every interleaving, once no release is in flight a
    caller left pending either asks for more than what is free, and is still
    registered to be woken by the next release, or has been woken or is about to
    be by a release already past its drain.  Registrations are never shared
    between callers. *)
Theorem no_lost_wakeup (limit : Z) (policy : MemoryLimitPolicy) (n : nat) (g : config) (t : nat) (bytes id : Z) :
  0 <= limit <= u64_max -> reachable limit policy n g -> callers g !! t = Some (PWaiting bytes id) ->
  ((parked (ml_waiters (ctl g)) !! id = Some t
    /\ (limit < ml_used (ctl g) + bytes \/ draining g)) \/ being_woken t g)
  /\ forall t' bytes', callers g !! t' = Some (PWaiting bytes' id) -> t' = t.
Proof.
  intros Hl Hr Ht. pose proof (waiters_reachable _ _ _ _ Hl Hr) as Hi.
  destruct (budget_reachable _ _ _ _ Hl Hr) as (Hlim & _). split.
  - destruct (wi_wake g Hi _ _ _ Ht) as [Hp|Hw]; [left|by right]. split; [done|].
    pose proof (wi_room g Hi _ _ _ Ht Hp) as Hroom. unfold no_room in Hroom. by rewrite Hlim in Hroom.
  - intros t' b' Ht'. by eapply (wi_unique g Hi).
Qed.

(** ** A run: caller 0 reserves 8 of 10 bytes, caller 1 asks for 5 and parks *)

Definition run0 : config := initial_config 10 ProducerBlock 2.
Definition run1 : config := goto 0 (PReserve 8 None) run0.
Definition run2 : config := goto 0 (PCas 8 0 None) run1.
Definition run3 : config :=
  goto 0 (PHolding (mkReservation true 8)) run2 <| ctl ::= fun c => c <| ml_used := 0 + 8 |> |>.
Definition run4 : config := goto 1 (PPoll 5 None) run3.
Definition run5 : config := goto 1 (PReserve 5 (Some None)) run4 <| lock := Some 1%nat |>.
Definition run6 : config := goto 1 (PPark 5 None) run5.
Definition run7 : config :=
  goto 1 (PWaiting 5 0) run6
    <| ctl ::= fun c => c <| ml_waiters := (park (ml_waiters (ctl run6)) None 1%nat).2 |> |> <| lock := None |>.

Lemma run3_reachable : reachable 10 ProducerBlock 2 run3.
Proof.
  apply (r_step _ _ _ run2); [|exact (s_cas run2 0 8 0 eq_refl eq_refl)].
  apply (r_step _ _ _ run1); [|apply (s_load run1 0 8 None 8); [reflexivity|vm_compute; discriminate|reflexivity]].
  apply (r_step _ _ _ run0); [constructor|]. apply (s_try run0 0 8); [reflexivity|vm_compute; intuition discriminate].
Qed.

Lemma run7_reachable : reachable 10 ProducerBlock 2 run7.
Proof.
  apply (r_step _ _ _ run6); [|apply (s_park run6 1 5 None 0); [reflexivity|vm_compute; reflexivity|reflexivity]].
  apply (r_step _ _ _ run5); [|apply (s_refused_poll run5 1 5 None); [reflexivity|vm_compute; discriminate|reflexivity]].
  apply (r_step _ _ _ run4); [|exact (s_lock run4 1 5 None eq_refl eq_refl)].
  apply (r_step _ _ _ run3); [exact run3_reachable|].
  apply (s_poll run3 1 5); [reflexivity|vm_compute; intuition discriminate].
Qed.

Example budget_conserved_witness :
  ml_used (ctl run3) = total_held (callers run3) /\ ml_used (ctl run3) <= 10
  /\ forall t r, callers run3 !! t = Some (PHolding r) -> mr_controller r = true ->
       ml_used (fetch_sub (mr_bytes r) (ctl run3)) = ml_used (ctl run3) - mr_bytes r
       /\ 0 <= ml_used (ctl run3) - mr_bytes r.
Proof.
  apply (budget_conserved 10 ProducerBlock 2 run3); [vm_compute; intuition discriminate|exact run3_reachable].
Defined.

Example no_lost_wakeup_witness :
  ((parked (ml_waiters (ctl run7)) !! 0 = Some 1%nat
    /\ (10 < ml_used (ctl run7) + 5 \/ draining run7)) \/ being_woken 1 run7)
  /\ forall t' bytes', callers run7 !! t' = Some (PWaiting bytes' 0) -> t' = 1%nat.
Proof.
  apply (no_lost_wakeup 10 ProducerBlock 2 run7 1 5 0);
    [vm_compute; intuition discriminate|exact run7_reachable|reflexivity].
Defined.
