(* ===== verification/ReceiverQueue.v ===== *)
(** Receiver-queue sizing: [magnetar-proto/src/receiver_queue.rs].

    [ReceiverQueuePolicy] is a class; the two built-in policies are its
    instances.  [usize::clamp] panics when its bounds are reversed, so it returns
    an [option] here and [adjust] too: [None] is a panic. *)

From S2P Require Import Prelude.

Definition DEFAULT_RECEIVER_QUEUE_SIZE : Z := 1000.

(** [FlowStats]; the consume rate is a float no built-in policy reads, and is
    left out. *)
Record FlowStats := mkFlowStats {
  current_queue_size : Z;
  queued_messages : Z;
  available_permits : Z;
  avg_message_bytes : Z;
  in_flight_bytes : Z;
  partitions : Z;
}.

Class ReceiverQueuePolicy (P : Type) := {
  rq_initial : P -> Z;
  rq_adjust : P -> FlowStats -> option Z;
}.

Inductive Fixed := mkFixed (size : Z).
Definition fixed_size (f : Fixed) : Z := let '(mkFixed n) := f in n.

#[global] Instance Fixed_policy : ReceiverQueuePolicy Fixed := {
  rq_initial f := fixed_size f;
  rq_adjust f _ := Some (fixed_size f);
}.

Record Auto := mkAuto { auto_min : Z; auto_max_bytes : Z }.

Definition ABSOLUTE_MAX : Z := 1000000.

Definition Auto_new (min max_bytes : Z) : Auto := mkAuto (Z.max min 1) max_bytes.

(** [Ord::clamp] *)
Definition clamp (x lo hi : Z) : option Z :=
  if hi <? lo then None else Some (if x <? lo then lo else if hi <? x then hi else x).

(** [(max_bytes / partitions.max(1)).max(1)] *)
Definition per_partition_budget (a : Auto) (flow : FlowStats) : Z :=
  Z.max (auto_max_bytes a / Z.max (partitions flow) 1) 1.

Definition byte_budget_cap (a : Auto) (flow : FlowStats) : option Z :=
  if avg_message_bytes flow =? 0 then Some ABSOLUTE_MAX
  else clamp (per_partition_budget a flow / avg_message_bytes flow) (auto_min a) ABSOLUTE_MAX.

Definition Auto_adjust (a : Auto) (flow : FlowStats) : option Z :=
  let current := Z.max (Z.max (current_queue_size flow) (auto_min a)) 1 in
  cap ← byte_budget_cap a flow;
  if in_flight_bytes flow >=? per_partition_budget a flow then
    let shrunk := Z.max (current / 2) (auto_min a) in
    Some (Z.max (Z.min shrunk cap) (auto_min a))
  else if available_permits flow =? 0 then
    clamp (saturating_mul usize_max current 2) (auto_min a) cap
  else clamp current (auto_min a) cap.

#[global] Instance Auto_policy : ReceiverQueuePolicy Auto := {
  rq_initial a := Z.max (auto_min a) 1;
  rq_adjust := Auto_adjust;
}.

Definition default_policy : Fixed := mkFixed DEFAULT_RECEIVER_QUEUE_SIZE.
Definition fixed (size : Z) : Fixed := mkFixed size.

(** * What a sizing policy promises to the consumer that follows it *)

(** A policy is safe between [lo] and [hi] when no tick panics and every target
    it hands out stays in that range. *)
Class PolicySafe (P : Type) `{ReceiverQueuePolicy P} (p : P) (lo hi : Z) : Prop := {
  ps_initial : lo <= rq_initial p <= hi;
  ps_adjust : forall flow, 0 <= current_queue_size flow ->
    exists target, rq_adjust p flow = Some target /\ lo <= target <= hi;
}.

(** The targets of a consumer over a sequence of ticks: each adjusts the target
    the previous one left. *)
Fixpoint ticks {P} `{ReceiverQueuePolicy P} (p : P) (target : Z) (flows : list FlowStats) : option (list Z) :=
  match flows with
  | [] => Some []
  | flow :: flows =>
      t ← rq_adjust p (mkFlowStats target (queued_messages flow) (available_permits flow)
                         (avg_message_bytes flow) (in_flight_bytes flow) (partitions flow));
      ts ← ticks p t flows;
      Some (t :: ts)
  end.

Section Client.
Context {P : Type} `{ReceiverQueuePolicy P} (p : P) (lo hi : Z) `{!PolicySafe P p lo hi}.

Lemma ticks_safe flows : forall target, 0 <= lo -> lo <= target ->
  exists ts, ticks p target flows = Some ts /\ length ts = length flows /\ Forall (fun t => lo <= t <= hi) ts.
Proof.
  induction flows as [|flow flows IH]; intros target Hlo Ht; simpl; [by exists []|].
  match goal with |- context [rq_adjust p ?f] => destruct (ps_adjust f) as (t & -> & Hb) end; [simpl; lia|].
  simpl. destruct (IH t Hlo ltac:(lia)) as (ts & -> & Hl & Hf). exists (t :: ts).
  split_and!; [done|simpl; lia|by constructor].
Qed.
End Client.

Lemma clamp_spec x lo hi : lo <= hi ->
  exists y, clamp x lo hi = Some y /\ lo <= y <= hi /\ (y = x \/ (x < lo /\ y = lo) \/ (hi < x /\ y = hi)).
Proof.
  intros. unfold clamp. rewrite (proj2 (Z.ltb_ge _ _)) by done. eexists. split; [done|].
  repeat case_match; lia.
Qed.

Lemma byte_budget_cap_spec a flow :
  auto_min a <= ABSOLUTE_MAX ->
  exists cap, byte_budget_cap a flow = Some cap /\ auto_min a <= cap <= ABSOLUTE_MAX
    /\ (0 < avg_message_bytes flow -> auto_min a < cap ->
        cap * avg_message_bytes flow <= per_partition_budget a flow).
Proof.
  intros Hm. unfold byte_budget_cap. case_match eqn:Hz.
  { exists ABSOLUTE_MAX. split_and!; try done; lia. }
  destruct (clamp_spec (per_partition_budget a flow / avg_message_bytes flow) _ _ Hm) as (y & -> & Hy & Hc).
  exists y. split_and!; try done; try lia. intros Hp Hlt.
  assert (Hb : 1 <= per_partition_budget a flow) by (unfold per_partition_budget; lia).
  pose proof (Z.mul_div_le (per_partition_budget a flow) (avg_message_bytes flow) Hp).
  assert (y <= per_partition_budget a flow / avg_message_bytes flow) by lia. nia.
Qed.

#[global] Instance Fixed_safe n : PolicySafe Fixed (mkFixed n) n n.
Proof. split; [simpl; lia|]. intros flow _. exists n. simpl. split; [done|lia]. Qed.

Lemma Auto_adjust_spec a flow :
  1 <= auto_min a <= ABSOLUTE_MAX ->
  let current := Z.max (current_queue_size flow) (auto_min a) in
  exists target, Auto_adjust a flow = Some target /\ auto_min a <= target <= ABSOLUTE_MAX
    /\ target <= Z.max (auto_min a) (2 * current)
    /\ (0 < avg_message_bytes flow -> auto_min a < target ->
        target * avg_message_bytes flow <= per_partition_budget a flow)
    /\ (per_partition_budget a flow <= in_flight_bytes flow -> target <= Z.max (auto_min a) (current / 2)).
Proof.
  intros Hm current. subst current. unfold Auto_adjust. rewrite (Z.max_l _ 1) by lia.
  destruct (byte_budget_cap_spec a flow ltac:(lia)) as (cap & -> & Hcap & Hbud). simpl.
  set (cur := Z.max (current_queue_size flow) (auto_min a)).
  assert (Hcur : 1 <= cur) by lia. clearbody cur. rewrite Z.geb_leb.
  assert (Hcapb : forall y, y <= cap -> 0 < avg_message_bytes flow -> auto_min a < y ->
            y * avg_message_bytes flow <= per_partition_budget a flow).
  { intros y Hy Hp Hlt. specialize (Hbud Hp ltac:(lia)). nia. }
  case_match eqn:Hfl.
  { eexists. split; [done|]. assert (0 <= cur / 2 <= cur) by (split; [apply Z.div_pos|apply Z.div_le_upper_bound]; lia). split_and!; try lia.
    intros Hp Hlt. apply Hcapb; [lia|done|lia]. }
  case_match.
  - destruct (clamp_spec (saturating_mul usize_max cur 2) (auto_min a) cap ltac:(lia)) as (y & -> & Hy & Hc).
    exists y. unfold saturating_mul in *. split_and!; try done; try lia. intros. apply Hcapb; lia.
  - destruct (clamp_spec cur (auto_min a) cap ltac:(lia)) as (y & -> & Hy & Hc).
    exists y. split_and!; try done; try lia. intros. apply Hcapb; lia.
Qed.

#[global] Instance Auto_safe a : 1 <= auto_min a <= ABSOLUTE_MAX -> PolicySafe Auto a (auto_min a) ABSOLUTE_MAX.
Proof.
  intros Hm. split; [simpl; lia|]. intros flow _.
  destruct (Auto_adjust_spec a flow Hm) as (t & Ht & Hb & _). by exists t.
Qed.

(** One tick of the auto-scaling policy, with a floor within the ceiling:
    it never panics; the target stays between the floor and the ceiling, at most
    doubles, is at most halved towards the floor once the buffered bytes reach
    the per-partition budget, and above the floor the bytes it projects at the
    observed mean message size stay within that budget. *)
Theorem auto_adjust_bounds (a : Auto) (flow : FlowStats) :
  1 <= auto_min a <= ABSOLUTE_MAX ->
  let current := Z.max (current_queue_size flow) (auto_min a) in
  exists target, rq_adjust a flow = Some target /\ auto_min a <= target <= ABSOLUTE_MAX
    /\ target <= 2 * current
    /\ (0 < avg_message_bytes flow -> auto_min a < target ->
        target * avg_message_bytes flow <= per_partition_budget a flow)
    /\ (per_partition_budget a flow <= in_flight_bytes flow -> target <= Z.max (auto_min a) (current / 2)).
Proof.
  intros Hm current. destruct (Auto_adjust_spec a flow Hm) as (t & Ht & Hb & Hd & Hp & Hs).
  exists t. subst current. split_and!; try done; try lia.
Qed.

Example auto_adjust_bounds_witness :
  let a := Auto_new 10 100000 in
  let flow := mkFlowStats 16 0 0 100 0 2 in
  exists target, rq_adjust a flow = Some target /\ auto_min a <= target <= ABSOLUTE_MAX
    /\ target <= 2 * Z.max (current_queue_size flow) (auto_min a)
    /\ (0 < avg_message_bytes flow -> auto_min a < target ->
        target * avg_message_bytes flow <= per_partition_budget a flow)
    /\ (per_partition_budget a flow <= in_flight_bytes flow ->
        target <= Z.max (auto_min a) (Z.max (current_queue_size flow) (auto_min a) / 2)).
Proof. apply (auto_adjust_bounds (Auto_new 10 100000)). vm_compute. intuition discriminate. Defined.

(** A floor above the hard ceiling panics: [Auto::new] accepts it, and the
    first tick after a message was seen, or under starvation, clamps with
    reversed bounds. *)
Theorem auto_floor_above_ceiling_panics (min max_bytes : Z) (flow : FlowStats) :
  ABSOLUTE_MAX < min -> avg_message_bytes flow <> 0 ->
  rq_adjust (Auto_new min max_bytes) flow = None.
Proof.
  intros Hm Ha. cbn [rq_adjust Auto_policy]. unfold Auto_adjust.
  replace (byte_budget_cap (Auto_new min max_bytes) flow) with (@None Z); [done|].
  unfold byte_budget_cap, clamp, Auto_new. cbn [auto_min].
  rewrite (proj2 (Z.eqb_neq _ _)) by done.
  by rewrite (proj2 (Z.ltb_lt ABSOLUTE_MAX (Z.max min 1))) by lia.
Qed.

Example auto_floor_above_ceiling_panics_witness :
  rq_adjust (Auto_new 2000000 1000) (mkFlowStats 2000000 0 0 10 0 1) = None.
Proof. apply auto_floor_above_ceiling_panics; vm_compute; [reflexivity|discriminate]. Defined.
