(* ===== verification/Txn.v ===== *)
(** The transaction-coordinator client: [magnetar-proto/src/txn.rs].

    The waker slabs come from the [slab] crate: [Slab] is its interface and
    [SlabLaws] its documented behaviour.  Each pair of a slab and a request map
    of [TxnClient] ([pending_new_txn] with [new_txn_by_request], and so on) is
    one [PendingTable].  Indexing a vacant slot panics, so the operations that
    index return an [option]; [None] is the panic. *)

From S2P Require Import Prelude.

(** * Data *)

Record TxnId := mkTxnId { most_sig_bits : Z; least_sig_bits : Z }.

#[global] Instance TxnId_eq_dec : EqDecision TxnId.
Proof. solve_decision. Defined.
#[global] Instance TxnId_countable : Countable TxnId :=
  inj_countable' (fun t => (most_sig_bits t, least_sig_bits t)) (fun p => mkTxnId p.1 p.2)
    (fun t => match t with mkTxnId _ _ => eq_refl end).

Inductive TxnState := TxOpen | TxCommitting | TxCommitted | TxAborting | TxAborted | TxErrored.

#[global] Instance TxnState_eq_dec : EqDecision TxnState.
Proof. solve_decision. Defined.

Inductive TxnAction := Commit | AbortTxn.

Definition txn_action_to_pb (a : TxnAction) : Z := match a with Commit => 0 | AbortTxn => 1 end.

Inductive TxnError :=
| TxAlreadyEnding (txn_id : TxnId) (action : TxnAction)
| TxConflict
| TxNotFound
| TxTimeout
| TxIsAborted
| TxBroker (code : Z) (message : string).

Definition SE_TransactionCoordinatorNotFound : Z := 20.
Definition SE_InvalidTxnStatus : Z := 21.
Definition SE_TransactionConflict : Z := 23.
Definition SE_TransactionNotFound : Z := 24.

Definition from_broker (code : Z) (message : string) : TxnError :=
  if code =? SE_TransactionConflict then TxConflict
  else if (code =? SE_TransactionNotFound) || (code =? SE_TransactionCoordinatorNotFound) then TxNotFound
  else if code =? SE_InvalidTxnStatus then TxIsAborted
  else TxBroker code message.

Record TransactionMetadata := mkTxnMeta {
  tm_id : TxnId;
  tm_state : TxnState;
  tm_coordinator_id : Z;
  tm_timeout : Z;
  tm_produced_topics : gset string;
  tm_acked_subscriptions : gmap string (list string);
}.

#[global] Instance TxnMeta_eta : Eta TransactionMetadata := fun m =>
  mkTxnMeta (tm_id m) (tm_state m) (tm_coordinator_id m) (tm_timeout m)
    (tm_produced_topics m) (tm_acked_subscriptions m).

Definition txn_meta_new (id : TxnId) (coordinator_id timeout : Z) : TransactionMetadata :=
  mkTxnMeta id TxOpen coordinator_id timeout ∅ ∅.

Record PendingNewTxn := mkPNew { pn_request_id : Z; pn_waker_key : Z }.
Record PendingAddPartition := mkPAdd { pp_request_id : Z; pp_txn : TxnId; pp_topic : string; pp_waker_key : Z }.
Record PendingAddSubscription := mkPSub {
  ps_request_id : Z; ps_txn : TxnId; ps_subscription : string; ps_topic : string; ps_waker_key : Z }.
Record PendingEndTxn := mkPEnd { pe_request_id : Z; pe_txn : TxnId; pe_action : TxnAction; pe_waker_key : Z }.

(** The commands and responses of [pb], with the fields the client reads or
    writes. *)
Record CommandNewTxn := mkNewTxn { nt_request_id : Z; nt_ttl_millis : option Z; nt_tc_id : option Z }.
Record CommandAddPartitionToTxn := mkAddPartition {
  ap_request_id : Z; ap_least : option Z; ap_most : option Z; ap_partitions : list string }.
Record CommandAddSubscriptionToTxn := mkAddSubscription {
  as_request_id : Z; as_least : option Z; as_most : option Z; as_subscription : list (string * string) }.
Record CommandEndTxn := mkEndTxn {
  et_request_id : Z; et_least : option Z; et_most : option Z; et_action : option Z }.
Record TxnResponse := mkTxnResponse {
  tr_request_id : Z; tr_least : option Z; tr_most : option Z; tr_error : option Z; tr_message : option string }.

(** * The waker slab *)

(** [None] is the no-op waker a slot starts with. *)
Abbreviation txn_waker := (option nat).

Class Slab (S : Type) := {
  slab_new : S;
  slab_insert : txn_waker -> S -> Z * S;
  slab_get : Z -> S -> option txn_waker;
  slab_set : Z -> txn_waker -> S -> option S;
  slab_try_remove : Z -> S -> option txn_waker * S;
}.

Class SlabLaws (S : Type) `{Slab S} : Prop := {
  slab_get_new : forall k, slab_get k slab_new = None;
  slab_insert_spec : forall a s, slab_get (slab_insert a s).1 s = None
    /\ forall j, slab_get j (slab_insert a s).2 = if decide (j = (slab_insert a s).1) then Some a else slab_get j s;
  slab_set_spec : forall k a s,
    match slab_set k a s with
    | None => slab_get k s = None
    | Some s' => is_Some (slab_get k s)
        /\ forall j, slab_get j s' = if decide (j = k) then Some a else slab_get j s
    end;
  slab_try_remove_spec : forall k s, (slab_try_remove k s).1 = slab_get k s
    /\ forall j, slab_get j (slab_try_remove k s).2 = if decide (j = k) then None else slab_get j s;
}.

(** * Request tables *)

Section Table.
Context {S : Type} `{Slab S} {P : Type} (key : P -> Z).

Record PendingTable := mkTable { tbl_slab : S; tbl_by_request : gmap Z P }.

Definition tbl_new : PendingTable := mkTable slab_new ∅.

(** [let waker_key = slab.insert(noop_waker()); map.insert(request_id, ..)] *)
Definition tbl_insert (rid : Z) (mk : Z -> P) (t : PendingTable) : PendingTable :=
  let '(k, s) := slab_insert None (tbl_slab t) in
  mkTable s (<[rid := mk k]> (tbl_by_request t)).

(** [if let Some(pending) = map.get_mut(&request_id) { slab[pending.waker_key] = waker }] *)
Definition tbl_register (rid : Z) (w : txn_waker) (t : PendingTable) : option PendingTable :=
  match tbl_by_request t !! rid with
  | None => Some t
  | Some p => (fun s => mkTable s (tbl_by_request t)) <$> slab_set (key p) w (tbl_slab t)
  end.

(** [map.remove(&request_id)] and [slab.try_remove(pending.waker_key)] *)
Definition tbl_take (rid : Z) (t : PendingTable) : option (P * option txn_waker) * PendingTable :=
  match tbl_by_request t !! rid with
  | None => (None, t)
  | Some p =>
      let '(w, s) := slab_try_remove (key p) (tbl_slab t) in
      (Some (p, w), mkTable s (delete rid (tbl_by_request t)))
  end.

(** Every request in the map owns an occupied slot of its own. *)
Definition tbl_ok (t : PendingTable) : Prop :=
  (forall rid p, tbl_by_request t !! rid = Some p -> is_Some (slab_get (key p) (tbl_slab t)))
  /\ (forall r1 r2 p1 p2, tbl_by_request t !! r1 = Some p1 -> tbl_by_request t !! r2 = Some p2 ->
       key p1 = key p2 -> r1 = r2).

Context `{!SlabLaws S}.

Lemma tbl_new_ok : tbl_ok tbl_new.
Proof. split; intros *; simpl; by rewrite lookup_empty. Qed.

Lemma tbl_insert_ok rid mk t : (forall k, key (mk k) = k) -> tbl_ok t -> tbl_ok (tbl_insert rid mk t).
Proof.
  intros Hk [Ho Hu]. unfold tbl_insert. destruct (slab_insert_spec None (tbl_slab t)) as [Hn Hg].
  destruct (slab_insert None (tbl_slab t)) as [k s]. simpl in *.
  assert (Hfresh : forall r p, tbl_by_request t !! r = Some p -> key p <> k).
  { intros r p Hp Hkp. destruct (Ho r p Hp) as [w Hw]. congruence. }
  split; simpl.
  - intros r p [[-> <-]|[_ Hp]]%lookup_insert_Some; rewrite Hg; case_decide as Hd; eauto. by destruct Hd.
  - intros r1 r2 p1 p2 [[-> <-]|[_ Hp1]]%lookup_insert_Some [[-> <-]|[_ Hp2]]%lookup_insert_Some;
      rewrite ?Hk; intros He; try done; [by destruct (Hfresh r2 p2)|by destruct (Hfresh r1 p1)|by eapply Hu].
Qed.

(** Registering a waker never indexes a vacant slot. *)
Lemma tbl_register_ok rid w t : tbl_ok t -> exists t', tbl_register rid w t = Some t' /\ tbl_ok t'
  /\ tbl_by_request t' = tbl_by_request t
  /\ forall p, tbl_by_request t !! rid = Some p -> slab_get (key p) (tbl_slab t') = Some w.
Proof.
  intros [Ho Hu]. unfold tbl_register. destruct (tbl_by_request t !! rid) as [p|] eqn:Hp.
  2:{ exists t. split_and!; try done. }
  pose proof (slab_set_spec (key p) w (tbl_slab t)) as Hs. destruct (slab_set _ _ _) as [s|].
  2:{ destruct (Ho _ _ Hp). congruence. }
  destruct Hs as [_ Hg]. simpl. eexists. split; [done|]. split_and!; simpl; try done.
  - split; [|exact Hu]. intros r q Hq. simpl in *. rewrite Hg. case_decide; [by eauto|]. by eapply Ho.
  - intros q [= <-]. rewrite Hg. by rewrite decide_True.
Qed.

Lemma tbl_take_ok rid t : tbl_ok t -> tbl_ok (tbl_take rid t).2.
Proof.
  intros [Ho Hu]. unfold tbl_take. destruct (tbl_by_request t !! rid) as [p|] eqn:Hp; [|done].
  destruct (slab_try_remove_spec (key p) (tbl_slab t)) as [_ Hg].
  destruct (slab_try_remove (key p) (tbl_slab t)) as [w s]. simpl in *. split; simpl.
  - intros r q [Hne Hq]%lookup_delete_Some. rewrite Hg. case_decide as He; [|by eapply Ho].
    by destruct Hne; eapply Hu.
  - intros r1 r2 p1 p2 [_ H1]%lookup_delete_Some [_ H2]%lookup_delete_Some. by eapply Hu.
Qed.

(** The waker handed back is the one in the request's own slot. *)
Lemma tbl_take_spec rid t :
  (tbl_take rid t).1 = (fun p => (p, slab_get (key p) (tbl_slab t))) <$> tbl_by_request t !! rid
  /\ tbl_by_request (tbl_take rid t).2 = delete rid (tbl_by_request t).
Proof.
  unfold tbl_take. destruct (tbl_by_request t !! rid) as [p|] eqn:Hp; simpl.
  - destruct (slab_try_remove_spec (key p) (tbl_slab t)) as [Hw _].
    destruct (slab_try_remove (key p) (tbl_slab t)) as [w s]. simpl in *. by subst.
  - by rewrite delete_id.
Qed.
End Table.

Arguments PendingTable : clear implicits.

(** * The client *)

Section Client.
Context {S : Type} `{Slab S}.

Record TxnClient := mkTxnClient {
  tc_coordinator_id : Z;
  tc_new_txn : PendingTable S PendingNewTxn;
  tc_add_partition : PendingTable S PendingAddPartition;
  tc_add_subscription : PendingTable S PendingAddSubscription;
  tc_end_txn : PendingTable S PendingEndTxn;
  tc_transactions : gmap TxnId TransactionMetadata;
}.

#[global] Instance TxnClient_eta : Eta TxnClient := fun c =>
  mkTxnClient (tc_coordinator_id c) (tc_new_txn c) (tc_add_partition c) (tc_add_subscription c)
    (tc_end_txn c) (tc_transactions c).

Definition txn_client_new (coordinator_id : Z) : TxnClient :=
  mkTxnClient coordinator_id tbl_new tbl_new tbl_new tbl_new ∅.

Definition transaction (id : TxnId) (c : TxnClient) : option TransactionMetadata := tc_transactions c !! id.

Definition register_new_txn_waker (rid : Z) (w : txn_waker) (c : TxnClient) : option TxnClient :=
  (fun t => c <| tc_new_txn := t |>) <$> tbl_register pn_waker_key rid w (tc_new_txn c).
Definition register_add_partition_waker (rid : Z) (w : txn_waker) (c : TxnClient) : option TxnClient :=
  (fun t => c <| tc_add_partition := t |>) <$> tbl_register pp_waker_key rid w (tc_add_partition c).
Definition register_add_subscription_waker (rid : Z) (w : txn_waker) (c : TxnClient) : option TxnClient :=
  (fun t => c <| tc_add_subscription := t |>) <$> tbl_register ps_waker_key rid w (tc_add_subscription c).
Definition register_end_txn_waker (rid : Z) (w : txn_waker) (c : TxnClient) : option TxnClient :=
  (fun t => c <| tc_end_txn := t |>) <$> tbl_register pe_waker_key rid w (tc_end_txn c).

Definition new_txn (rid timeout_ms : Z) (c : TxnClient) : CommandNewTxn * TxnClient :=
  (mkNewTxn rid (Some timeout_ms) (Some (tc_coordinator_id c)),
   c <| tc_new_txn ::= tbl_insert rid (fun k => mkPNew rid k) |>).

Definition add_partition (rid : Z) (txn : TxnId) (topic : string) (c : TxnClient)
    : CommandAddPartitionToTxn * TxnClient :=
  (mkAddPartition rid (Some (least_sig_bits txn)) (Some (most_sig_bits txn)) [topic],
   c <| tc_add_partition ::= tbl_insert rid (fun k => mkPAdd rid txn topic k) |>).

Definition add_subscription (rid : Z) (txn : TxnId) (subscription topic : string) (c : TxnClient)
    : CommandAddSubscriptionToTxn * TxnClient :=
  (mkAddSubscription rid (Some (least_sig_bits txn)) (Some (most_sig_bits txn)) [(topic, subscription)],
   c <| tc_add_subscription ::= tbl_insert rid (fun k => mkPSub rid txn subscription topic k) |>).

(** [if let Some(meta) = self.transactions.get_mut(&txn) { meta.state = s }] *)
Definition set_txn_state (txn : TxnId) (s : TxnState) (c : TxnClient) : TxnClient :=
  c <| tc_transactions ::= alter (fun m => m <| tm_state := s |>) txn |>.

Definition end_txn (rid : Z) (txn : TxnId) (action : TxnAction) (c : TxnClient) : CommandEndTxn * TxnClient :=
  let c := c <| tc_end_txn ::= tbl_insert rid (fun k => mkPEnd rid txn action k) |> in
  let c := set_txn_state txn (match action with Commit => TxCommitting | AbortTxn => TxAborting end) c in
  (mkEndTxn rid (Some (least_sig_bits txn)) (Some (most_sig_bits txn)) (Some (txn_action_to_pb action)), c).

(** A handler returns its result, the waker it wakes (if the slot was occupied)
    and the client. *)
Definition handle_new_txn_response (resp : TxnResponse) (c : TxnClient)
    : result TxnError (option TxnId) * option txn_waker * TxnClient :=
  match tbl_take pn_waker_key (tr_request_id resp) (tc_new_txn c) with
  | (None, _) => (Ok None, None, c)
  | (Some (_, w), t) =>
      let c := c <| tc_new_txn := t |> in
      match tr_error resp with
      | Some code => (Err (from_broker code (default ""%string (tr_message resp))), w, c)
      | None =>
          let id := mkTxnId (default 0 (tr_most resp)) (default 0 (tr_least resp)) in
          (Ok (Some id), w,
           c <| tc_transactions ::= <[id := txn_meta_new id (tc_coordinator_id c) 0]> |>)
      end
  end.

Definition handle_add_partition_response (resp : TxnResponse) (c : TxnClient)
    : result TxnError unit * option txn_waker * TxnClient :=
  match tbl_take pp_waker_key (tr_request_id resp) (tc_add_partition c) with
  | (None, _) => (Ok tt, None, c)
  | (Some (p, w), t) =>
      let c := c <| tc_add_partition := t |> in
      match tr_error resp with
      | Some code => (Err (from_broker code (default ""%string (tr_message resp))), w,
                      set_txn_state (pp_txn p) TxErrored c)
      | None =>
          (Ok tt, w, c <| tc_transactions ::=
             alter (fun m => m <| tm_produced_topics ::= fun s => {[pp_topic p]} ∪ s |>) (pp_txn p) |>)
      end
  end.

Definition handle_add_subscription_response (resp : TxnResponse) (c : TxnClient)
    : result TxnError unit * option txn_waker * TxnClient :=
  match tbl_take ps_waker_key (tr_request_id resp) (tc_add_subscription c) with
  | (None, _) => (Ok tt, None, c)
  | (Some (p, w), t) =>
      let c := c <| tc_add_subscription := t |> in
      match tr_error resp with
      | Some code => (Err (from_broker code (default ""%string (tr_message resp))), w,
                      set_txn_state (ps_txn p) TxErrored c)
      | None =>
          (Ok tt, w, c <| tc_transactions ::=
             alter (fun m => m <| tm_acked_subscriptions ::=
                      partial_alter (fun o => Some (default [] o ++ [ps_topic p])) (ps_subscription p) |>) (ps_txn p) |>)
      end
  end.

Definition handle_end_txn_response (resp : TxnResponse) (c : TxnClient)
    : result TxnError TxnState * option txn_waker * TxnClient :=
  match tbl_take pe_waker_key (tr_request_id resp) (tc_end_txn c) with
  | (None, _) => (Ok TxErrored, None, c)
  | (Some (p, w), t) =>
      let c := c <| tc_end_txn := t |> in
      match tr_error resp with
      | Some code => (Err (from_broker code (default ""%string (tr_message resp))), w,
                      set_txn_state (pe_txn p) TxErrored c)
      | None =>
          let final_state := match pe_action p with Commit => TxCommitted | AbortTxn => TxAborted end in
          (Ok final_state, w, set_txn_state (pe_txn p) final_state c)
      end
  end.

Definition txn_forget (txn : TxnId) (c : TxnClient) : TxnClient := c <| tc_transactions ::= delete txn |>.

(** ** Runs *)

Inductive txn_op :=
| TNew (rid timeout_ms : Z)
| TAddPartition (rid : Z) (txn : TxnId) (topic : string)
| TAddSubscription (rid : Z) (txn : TxnId) (subscription topic : string)
| TEnd (rid : Z) (txn : TxnId) (action : TxnAction)
| TRegister (kind : nat) (rid : Z) (w : txn_waker)
| TNewResp (resp : TxnResponse)
| TAddPartitionResp (resp : TxnResponse)
| TAddSubscriptionResp (resp : TxnResponse)
| TEndResp (resp : TxnResponse)
| TForget (txn : TxnId).

Definition txn_apply (op : txn_op) (c : TxnClient) : option TxnClient :=
  match op with
  | TNew rid ms => Some (new_txn rid ms c).2
  | TAddPartition rid txn topic => Some (add_partition rid txn topic c).2
  | TAddSubscription rid txn sub topic => Some (add_subscription rid txn sub topic c).2
  | TEnd rid txn a => Some (end_txn rid txn a c).2
  | TRegister 0 rid w => register_new_txn_waker rid w c
  | TRegister 1 rid w => register_add_partition_waker rid w c
  | TRegister 2 rid w => register_add_subscription_waker rid w c
  | TRegister _ rid w => register_end_txn_waker rid w c
  | TNewResp r => Some (handle_new_txn_response r c).2
  | TAddPartitionResp r => Some (handle_add_partition_response r c).2
  | TAddSubscriptionResp r => Some (handle_add_subscription_response r c).2
  | TEndResp r => Some (handle_end_txn_response r c).2
  | TForget txn => Some (txn_forget txn c)
  end.

Fixpoint txn_run (ops : list txn_op) (c : TxnClient) : option TxnClient :=
  match ops with
  | [] => Some c
  | op :: ops => c ← txn_apply op c; txn_run ops c
  end.

Definition tc_ok (c : TxnClient) : Prop :=
  tbl_ok pn_waker_key (tc_new_txn c) /\ tbl_ok pp_waker_key (tc_add_partition c)
  /\ tbl_ok ps_waker_key (tc_add_subscription c) /\ tbl_ok pe_waker_key (tc_end_txn c).

Context `{!SlabLaws S}.

Lemma tc_new_ok id : tc_ok (txn_client_new id).
Proof. split_and!; apply tbl_new_ok. Qed.

Lemma txn_apply_ok op c : tc_ok c -> exists c', txn_apply op c = Some c' /\ tc_ok c'.
Proof.
  intros (H1 & H2 & H3 & H4).
  assert (Hreg : forall {P} (key : P -> Z) rid w t, tbl_ok key t ->
            exists t', tbl_register key rid w t = Some t' /\ tbl_ok key t').
  { intros P key rid w t Ht. destruct (tbl_register_ok key rid w t Ht) as (t' & ? & ? & _). eauto. }
  destruct op as [rid ms|rid txn topic|rid txn sub topic|rid txn a|k rid w|r|r|r|r|txn]; simpl.
  - eexists; split; [done|]. split_and!; simpl; try done. by apply tbl_insert_ok.
  - eexists; split; [done|]. split_and!; simpl; try done. by apply tbl_insert_ok.
  - eexists; split; [done|]. split_and!; simpl; try done. by apply tbl_insert_ok.
  - eexists; split; [done|]. split_and!; simpl; try done. by apply tbl_insert_ok.
  - destruct k as [|[|[|k]]]; unfold register_new_txn_waker, register_add_partition_waker,
      register_add_subscription_waker, register_end_txn_waker.
    + destruct (Hreg _ _ rid w _ H1) as (t' & -> & ?). eexists; split; [done|]. by split_and!.
    + destruct (Hreg _ _ rid w _ H2) as (t' & -> & ?). eexists; split; [done|]. by split_and!.
    + destruct (Hreg _ _ rid w _ H3) as (t' & -> & ?). eexists; split; [done|]. by split_and!.
    + destruct (Hreg _ _ rid w _ H4) as (t' & -> & ?). eexists; split; [done|]. by split_and!.
  - eexists; split; [done|]. unfold handle_new_txn_response.
    pose proof (tbl_take_ok _ (tr_request_id r) _ H1) as Ht.
    destruct (tbl_take _ _ _) as [[[p w]|] t]; [|done]. destruct (tr_error r); by split_and!.
  - eexists; split; [done|]. unfold handle_add_partition_response.
    pose proof (tbl_take_ok _ (tr_request_id r) _ H2) as Ht.
    destruct (tbl_take _ _ _) as [[[p w]|] t]; [|done]. destruct (tr_error r); by split_and!.
  - eexists; split; [done|]. unfold handle_add_subscription_response.
    pose proof (tbl_take_ok _ (tr_request_id r) _ H3) as Ht.
    destruct (tbl_take _ _ _) as [[[p w]|] t]; [|done]. destruct (tr_error r); by split_and!.
  - eexists; split; [done|]. unfold handle_end_txn_response.
    pose proof (tbl_take_ok _ (tr_request_id r) _ H4) as Ht.
    destruct (tbl_take _ _ _) as [[[p w]|] t]; [|done]. destruct (tr_error r); by split_and!.
  - eexists; split; [done|]. by split_and!.
Qed.

Lemma txn_run_ok ops : forall c, tc_ok c -> exists c', txn_run ops c = Some c' /\ tc_ok c'.
Proof.
  induction ops as [|op ops IH]; intros c Hc; simpl; [eauto|].
  destruct (txn_apply_ok op c Hc) as (c1 & -> & H1). simpl. by apply IH.
Qed.
End Client.

Arguments TxnClient : clear implicits.

(** * What the client records was requested and acknowledged *)

Section History.
Context {S : Type} `{Slab S, !SlabLaws S}.

Definition acked_ok (resp_of : TxnResponse -> txn_op) (rid : Z) (hist : list txn_op) : Prop :=
  exists resp, resp_of resp ∈ hist /\ tr_request_id resp = rid /\ tr_error resp = None.

(** The record of one transaction is justified by the history. *)
Record meta_justified (hist : list txn_op) (x : TxnId) (m : TransactionMetadata) : Prop := {
  mj_committed : tm_state m = TxCommitted ->
    exists rid, TEnd rid x Commit ∈ hist /\ acked_ok TEndResp rid hist;
  mj_aborted : tm_state m = TxAborted ->
    exists rid, TEnd rid x AbortTxn ∈ hist /\ acked_ok TEndResp rid hist;
  mj_produced : forall topic, topic ∈ tm_produced_topics m ->
    exists rid, TAddPartition rid x topic ∈ hist /\ acked_ok TAddPartitionResp rid hist;
  mj_acked : forall sub topics topic, tm_acked_subscriptions m !! sub = Some topics -> topic ∈ topics ->
    exists rid, TAddSubscription rid x sub topic ∈ hist /\ acked_ok TAddSubscriptionResp rid hist;
}.

Record justified (hist : list txn_op) (c : TxnClient S) : Prop := {
  j_end : forall rid p, tbl_by_request (tc_end_txn c) !! rid = Some p ->
    TEnd rid (pe_txn p) (pe_action p) ∈ hist;
  j_part : forall rid p, tbl_by_request (tc_add_partition c) !! rid = Some p ->
    TAddPartition rid (pp_txn p) (pp_topic p) ∈ hist;
  j_sub : forall rid p, tbl_by_request (tc_add_subscription c) !! rid = Some p ->
    TAddSubscription rid (ps_txn p) (ps_subscription p) (ps_topic p) ∈ hist;
  j_meta : forall x m, tc_transactions c !! x = Some m -> meta_justified hist x m;
}.

Lemma meta_justified_mono h h' x m : h ⊆ h' -> meta_justified h x m -> meta_justified h' x m.
Proof. unfold acked_ok. intros Hs [H1 H2 H3 H4]. split; unfold acked_ok in *; set_solver. Qed.

Lemma justified_mono h h' c : h ⊆ h' -> justified h c -> justified h' c.
Proof. intros Hs [H1 H2 H3 H4]. split; eauto using meta_justified_mono. Qed.

Lemma meta_new_justified h x id t : meta_justified h x (txn_meta_new x id t).
Proof. by split. Qed.

(** Changing one record to a justified one. *)
Lemma alter_justified h (ts : gmap TxnId TransactionMetadata) x f :
  (forall y m, ts !! y = Some m -> meta_justified h y m) ->
  (forall m, ts !! x = Some m -> meta_justified h x m -> meta_justified h x (f m)) ->
  forall y m, alter f x ts !! y = Some m -> meta_justified h y m.
Proof.
  intros Hall Hf y m Hy. destruct (decide (x = y)) as [<-|Hne].
  - rewrite lookup_alter_eq in Hy. apply fmap_Some in Hy as (m' & Hm & ->). eauto.
  - rewrite lookup_alter_ne in Hy by done. eauto.
Qed.

Lemma set_state_justified h x s m :
  meta_justified h x m -> s <> TxCommitted -> s <> TxAborted ->
  meta_justified h x (m <| tm_state := s |>).
Proof. intros [H1 H2 H3 H4] ??. split; simpl; done. Qed.

Lemma tbl_insert_lookup {P} rid (mk : Z -> P) (t : PendingTable S P) r p :
  tbl_by_request (tbl_insert rid mk t) !! r = Some p ->
  (r = rid /\ exists k, p = mk k) \/ tbl_by_request t !! r = Some p.
Proof.
  unfold tbl_insert. destruct (slab_insert _ _) as [k s]. simpl.
  intros [[-> <-]|[_ Hp]]%lookup_insert_Some; [left|by right]. eauto.
Qed.

Lemma tbl_register_lookup {P} (key : P -> Z) rid w (t t' : PendingTable S P) :
  tbl_register key rid w t = Some t' -> tbl_by_request t' = tbl_by_request t.
Proof.
  unfold tbl_register. destruct (tbl_by_request t !! rid); [|by intros [= ->]].
  rewrite fmap_Some. by intros (s & _ & ->).
Qed.

Lemma tbl_take_lookup {P} (key : P -> Z) rid (t : PendingTable S P) o t' :
  tbl_take key rid t = (o, t') ->
  (forall r p, tbl_by_request t' !! r = Some p -> tbl_by_request t !! r = Some p)
  /\ (forall p w, o = Some (p, w) -> tbl_by_request t !! rid = Some p).
Proof.
  pose proof (tbl_take_spec key rid t) as [H1 H2]. intros Ht. rewrite Ht in H1, H2. simpl in *.
  rewrite H2. split.
  - intros r p [_ ?]%lookup_delete_Some. done.
  - intros p w ->. symmetry in H1. apply fmap_Some in H1 as (p' & -> & [= -> _]). done.
Qed.

Lemma justified_register h kind rid w c c' :
  justified h c -> txn_apply (TRegister kind rid w) c = Some c' -> justified h c'.
Proof.
  intros [H1 H2 H3 H4] Ha. destruct kind as [|[|[|k]]]; simpl in Ha;
    apply fmap_Some in Ha as (t & Ht & ->); apply tbl_register_lookup in Ht;
    split; simpl; rewrite ?Ht; done.
Qed.

Lemma justified_end_resp h resp c :
  justified h c -> justified (h ++ [TEndResp resp]) (handle_end_txn_response resp c).2.
Proof.
  intros Hj. apply (justified_mono h (h ++ [TEndResp resp])) in Hj; [|set_solver].
  destruct Hj as [H1 H2 H3 H4]. unfold handle_end_txn_response.
  destruct (tbl_take _ _ _) as [[[p w]|] t] eqn:Ht; [|done].
  apply tbl_take_lookup in Ht as [Hm Hp]. specialize (Hp p w eq_refl).
  destruct (tr_error resp) eqn:He; split; simpl; eauto; apply alter_justified; try done.
  - intros m Hm' Hj. by apply set_state_justified.
  - assert (Hack : acked_ok TEndResp (tr_request_id resp) (h ++ [TEndResp resp])).
    { exists resp. split_and!; try done. set_solver. }
    intros m _ [J1 J2 J3 J4]. specialize (H1 _ _ Hp). destruct (pe_action p); split; simpl; try done; eauto.
Qed.

Lemma justified_part_resp h resp c :
  justified h c -> justified (h ++ [TAddPartitionResp resp]) (handle_add_partition_response resp c).2.
Proof.
  intros Hj. apply (justified_mono h (h ++ [TAddPartitionResp resp])) in Hj; [|set_solver].
  destruct Hj as [H1 H2 H3 H4]. unfold handle_add_partition_response.
  destruct (tbl_take _ _ _) as [[[p w]|] t] eqn:Ht; [|done].
  apply tbl_take_lookup in Ht as [Hm Hp]. specialize (Hp p w eq_refl).
  destruct (tr_error resp) eqn:He; split; simpl; eauto; apply alter_justified; try done.
  - intros m Hm' Hj. by apply set_state_justified.
  - assert (Hack : acked_ok TAddPartitionResp (tr_request_id resp) (h ++ [TAddPartitionResp resp])).
    { exists resp. split_and!; try done. set_solver. }
    intros m _ [J1 J2 J3 J4]. specialize (H2 _ _ Hp). split; simpl; try done.
    intros topic [->%elem_of_singleton|Hin]%elem_of_union; [eauto|by apply J3].
Qed.

Lemma justified_sub_resp h resp c :
  justified h c -> justified (h ++ [TAddSubscriptionResp resp]) (handle_add_subscription_response resp c).2.
Proof.
  intros Hj. apply (justified_mono h (h ++ [TAddSubscriptionResp resp])) in Hj; [|set_solver].
  destruct Hj as [H1 H2 H3 H4]. unfold handle_add_subscription_response.
  destruct (tbl_take _ _ _) as [[[p w]|] t] eqn:Ht; [|done].
  apply tbl_take_lookup in Ht as [Hm Hp]. specialize (Hp p w eq_refl).
  destruct (tr_error resp) eqn:He; split; simpl; eauto; apply alter_justified; try done.
  - intros m Hm' Hj. by apply set_state_justified.
  - assert (Hack : acked_ok TAddSubscriptionResp (tr_request_id resp) (h ++ [TAddSubscriptionResp resp])).
    { exists resp. split_and!; try done. set_solver. }
    intros m _ [J1 J2 J3 J4]. specialize (H3 _ _ Hp). split; simpl; try done.
    intros sub topics topic Hs Hin. destruct (decide (ps_subscription p = sub)) as [<-|Hne].
    + rewrite lookup_partial_alter_eq in Hs. injection Hs as <-.
      apply elem_of_app in Hin as [Hin|Hin%list_elem_of_singleton]; [|subst; eauto].
      destruct (tm_acked_subscriptions m !! ps_subscription p) as [l|] eqn:Hl; [by eapply J4|].
      simpl in Hin. set_solver.
    + rewrite lookup_partial_alter_ne in Hs by done. by eapply J4.
Qed.

Lemma justified_step h op c c' :
  justified h c -> txn_apply op c = Some c' -> justified (h ++ [op]) c'.
Proof.
  intros Hj Ha. pose proof (justified_mono h (h ++ [op]) c ltac:(set_solver) Hj) as Hj'.
  destruct op as [rid ms|rid txn topic|rid txn sub topic|rid txn a|k rid w|r|r|r|r|txn].
  all: try (simpl in Ha; injection Ha as <-).
  - by destruct Hj' as [H1 H2 H3 H4].
  - destruct Hj' as [H1 H2 H3 H4]. split; simpl; try done.
    intros r p [[-> (k & ->)]|Hp]%tbl_insert_lookup; [simpl; set_solver|eauto].
  - destruct Hj' as [H1 H2 H3 H4]. split; simpl; try done.
    intros r p [[-> (k & ->)]|Hp]%tbl_insert_lookup; [simpl; set_solver|eauto].
  - destruct Hj' as [H1 H2 H3 H4]. split; simpl; try done.
    + intros r p [[-> (k & ->)]|Hp]%tbl_insert_lookup; [simpl; set_solver|eauto].
    + apply alter_justified; [done|]. intros m _ Hm. by destruct a; apply set_state_justified.
  - by eapply justified_register.
  - destruct Hj' as [H1 H2 H3 H4]. unfold handle_new_txn_response.
    destruct (tbl_take _ _ _) as [[[p w]|] t]; [|done]. destruct (tr_error r); [done|].
    split; simpl; try done. intros x m [[<- <-]|[_ Hx]]%lookup_insert_Some; [apply meta_new_justified|eauto].
  - by apply justified_part_resp.
  - by apply justified_sub_resp.
  - by apply justified_end_resp.
  - destruct Hj' as [H1 H2 H3 H4]. split; simpl; try done. intros x m [_ Hx]%lookup_delete_Some. eauto.
Qed.

Lemma justified_run ops : forall h c c',
  justified h c -> txn_run ops c = Some c' -> justified (h ++ ops) c'.
Proof.
  induction ops as [|op ops IH]; intros h c c' Hj Hr; simpl in Hr.
  { injection Hr as <-. by rewrite app_nil_r. }
  apply bind_Some in Hr as (c1 & H1 & H2).
  replace (h ++ op :: ops) with ((h ++ [op]) ++ ops) by by rewrite <- (assoc_L (++)).
  eapply IH; [by eapply justified_step|done].
Qed.

Lemma justified_new id : justified [] (txn_client_new id).
Proof. split; simpl; intros *; by rewrite lookup_empty. Qed.

(** Nothing is recorded that was not both asked for and acknowledged: after
    any sequence of calls and responses, which never panics, a transaction is
    recorded as committed (aborted) only if its commit (abort) was requested
    and the response to that request carried no error, and every produced topic
    and acked subscription of its record was registered and acknowledged. *)
Theorem txn_record_justified (coordinator_id : Z) (ops : list txn_op) :
  exists c, txn_run ops (txn_client_new coordinator_id) = Some c
    /\ forall x m, transaction x c = Some m -> meta_justified ops x m.
Proof.
  destruct (txn_run_ok ops _ (tc_new_ok coordinator_id)) as (c & Hc & _). exists c. split; [done|].
  exact (j_meta _ _ (justified_run ops [] _ c (justified_new _) Hc)).
Qed.

(** The response to an end-of-transaction request, on every branch: an
    unknown request id changes nothing; otherwise the request is consumed, its
    own waker is the one woken, the named transaction ends committed or aborted
    as requested (errored when the broker refused) and no other transaction
    changes. *)
Theorem end_response_exact (c : TxnClient S) (resp : TxnResponse) :
  let '(r, woken, c') := handle_end_txn_response resp c in
  match tbl_by_request (tc_end_txn c) !! tr_request_id resp with
  | None => r = Ok TxErrored /\ woken = None /\ c' = c
  | Some p =>
      let final := match tr_error resp, pe_action p with
                   | Some _, _ => TxErrored
                   | None, Commit => TxCommitted
                   | None, AbortTxn => TxAborted
                   end in
      (match tr_error resp with
       | Some code => r = Err (from_broker code (default ""%string (tr_message resp)))
       | None => r = Ok final
       end)
      /\ woken = slab_get (pe_waker_key p) (tbl_slab (tc_end_txn c))
      /\ tbl_by_request (tc_end_txn c') = delete (tr_request_id resp) (tbl_by_request (tc_end_txn c))
      /\ tc_transactions c' = alter (fun m => m <| tm_state := final |>) (pe_txn p) (tc_transactions c)
  end.
Proof.
  unfold handle_end_txn_response.
  destruct (tbl_take_spec pe_waker_key (tr_request_id resp) (tc_end_txn c)) as [H1 H2].
  destruct (tbl_take _ _ _) as [o t]. simpl in H1, H2. subst o.
  destruct (tbl_by_request (tc_end_txn c) !! tr_request_id resp) as [p|]; simpl; [|done].
  destruct (tr_error resp); simpl; [done|]. by destruct (pe_action p).
Qed.
End History.

(** * A concrete slab: the interface is inhabited *)

Module ConcreteSlab.
#[export] Instance gmap_slab : Slab (gmap Z txn_waker) := {
  slab_new := ∅;
  slab_insert a s := let k := fresh (dom s) in (k, <[k := a]> s);
  slab_get k s := s !! k;
  slab_set k a s := match s !! k with Some _ => Some (<[k := a]> s) | None => None end;
  slab_try_remove k s := (s !! k, delete k s);
}.

#[export] Instance gmap_slab_laws : SlabLaws (gmap Z txn_waker).
Proof.
  split; simpl.
  - intros k. apply lookup_empty.
  - intros a s. split; [apply not_elem_of_dom, is_fresh|]. intros j.
    case_decide as Hj; [subst; apply lookup_insert_eq|by apply lookup_insert_ne].
  - intros k a s. destruct (s !! k) eqn:Hk; [|done]. split; [done|]. intros j.
    case_decide as Hj; [subst; apply lookup_insert_eq|by apply lookup_insert_ne].
  - intros k s. split; [done|]. intros j.
    case_decide as Hj; [subst; apply lookup_delete_eq|by apply lookup_delete_ne].
Qed.

Definition commit_run : list txn_op :=
  [TNew 1 5000; TNewResp (mkTxnResponse 1 (Some 9) (Some 4) None None);
   TEnd 2 (mkTxnId 4 9) Commit; TRegister 3 2 (Some 7%nat);
   TEndResp (mkTxnResponse 2 None None None None)].

Example commit_run_commits :
  tm_state <$> (txn_run commit_run (txn_client_new 0 : TxnClient (gmap Z txn_waker)) ≫= transaction (mkTxnId 4 9))
  = Some TxCommitted.
Proof. vm_compute. reflexivity. Qed.

Example txn_record_justified_witness :
  exists c : TxnClient (gmap Z txn_waker), txn_run commit_run (txn_client_new 0) = Some c
    /\ forall x m, transaction x c = Some m -> meta_justified commit_run x m.
Proof. apply txn_record_justified. Defined.

Example end_response_exact_witness :
  let c := (end_txn 2 (mkTxnId 4 9) Commit (txn_client_new 0 : TxnClient (gmap Z txn_waker))).2 in
  let '(r, woken, c') := handle_end_txn_response (mkTxnResponse 2 None None None None) c in
  match tbl_by_request (tc_end_txn c) !! 2 with
  | None => r = Ok TxErrored /\ woken = None /\ c' = c
  | Some p =>
      let final := match pe_action p with Commit => TxCommitted | AbortTxn => TxAborted end in
      r = Ok final
      /\ woken = slab_get (pe_waker_key p) (tbl_slab (tc_end_txn c))
      /\ tbl_by_request (tc_end_txn c') = delete 2 (tbl_by_request (tc_end_txn c))
      /\ tc_transactions c' = alter (fun m => m <| tm_state := final |>) (pe_txn p) (tc_transactions c)
  end.
Proof.
  exact (end_response_exact (end_txn 2 (mkTxnId 4 9) Commit (txn_client_new 0)).2
           (mkTxnResponse 2 None None None None)).
Defined.
End ConcreteSlab.
