(* ===== verification/Lookup.v ===== *)
(** Topic lookup: [magnetar-proto/src/lookup.rs] and the lookup entry points and
    response handlers of [conn.rs] ([lookup], [lookup_redirect],
    [get_partitioned_topic_metadata], the two response arms of [handle_frame],
    [cancel_request]).

    Whether the outbound buffer accepts a frame ([encode_command]) is an argument
    of the entry points that encode one. *)

From Stdlib Require Import Ascii String.
From S2P Require Import Prelude.

(** * Partition names *)

Abbreviation chars := (list ascii).

(** [str::rsplit_once(c)] *)
Fixpoint rsplit_once (c : ascii) (l : chars) : option (chars * chars) :=
  match l with
  | [] => None
  | x :: l' =>
      match rsplit_once c l' with
      | Some (p, s) => Some (x :: p, s)
      | None => if bool_decide (x = c) then Some ([], l') else None
      end
  end.

Definition is_ascii_digit (c : ascii) : bool :=
  (48 <=? Z.of_nat (nat_of_ascii c)) && (Z.of_nat (nat_of_ascii c) <=? 57).

Definition digit_value (c : ascii) : Z := Z.of_nat (nat_of_ascii c) - 48.

(** [str::parse::<u32>] on a non-empty string of digits *)
Fixpoint parse_u32 (acc : Z) (l : chars) : option Z :=
  match l with
  | [] => Some acc
  | c :: l => let acc := acc * 10 + digit_value c in if acc <=? u32_max then parse_u32 acc l else None
  end.

Definition ends_with (suffix l : chars) : bool :=
  bool_decide (drop (length l - length suffix) l = suffix).

Definition dash : ascii := "-"%char.
Definition partition_suffix : chars := list_ascii_of_string "-partition".

Definition topic_partition_index_chars (topic : chars) : option Z :=
  match rsplit_once dash topic with
  | None => None
  | Some (prefix, suffix) =>
      if bool_decide (suffix = []) || negb (forallb is_ascii_digit suffix) then None
      else if negb (ends_with partition_suffix prefix) then None
      else if bool_decide (length prefix = length partition_suffix) then None
      else parse_u32 0 suffix
  end.

Definition topic_partition_index (topic : string) : option Z :=
  topic_partition_index_chars (list_ascii_of_string topic).

Definition is_partition_topic (topic : string) : bool :=
  match topic_partition_index topic with Some _ => true | None => false end.

(** The value of a digit string. *)
Definition decimal (l : chars) : Z := fold_left (fun acc c => acc * 10 + digit_value c) l 0.

Lemma rsplit_once_None c l : rsplit_once c l = None <-> c ∉ l.
Proof.
  induction l as [|x l IH]; simpl; [set_solver|]. destruct (rsplit_once c l) as [[p s]|].
  - split; [done|]. rewrite elem_of_cons. intros Hn. exfalso. apply Hn. right.
    destruct (decide (c ∈ l)) as [|Hc]; [done|]. by apply IH in Hc.
  - case_bool_decide as Hx; split; try done; rewrite elem_of_cons; naive_solver.
Qed.

Lemma rsplit_once_spec c l p s : rsplit_once c l = Some (p, s) <-> l = p ++ c :: s /\ c ∉ s.
Proof.
  revert p s. induction l as [|x l IH]; intros p s; simpl.
  { split; [done|]. intros [H _]. by destruct p. }
  destruct (rsplit_once c l) as [[p' s']|] eqn:Hr.
  - destruct (proj1 (IH p' s') eq_refl) as [Hl Hns]. split.
    + intros [= <- <-]. by rewrite Hl.
    + intros [Heq Hs]. destruct p as [|y p]; simpl in Heq; injection Heq as -> Heq.
      * exfalso. apply Hs. rewrite <- Heq, Hl. set_solver.
      * assert (Hps : Some (p', s') = Some (p, s)) by (apply IH; done). by injection Hps as <- <-.
  - apply rsplit_once_None in Hr. case_bool_decide as Hx.
    + split; [intros [= <- <-]; by subst|]. intros [Heq Hs]. destruct p as [|y p]; simpl in Heq.
      * by injection Heq as _ ->.
      * injection Heq as _ ->. set_solver.
    + split; [done|]. intros [Heq Hs]. destruct p as [|y p]; simpl in Heq; injection Heq as -> ->; set_solver.
Qed.

Lemma digit_value_range c : is_ascii_digit c = true -> 0 <= digit_value c <= 9.
Proof. unfold is_ascii_digit, digit_value. rewrite andb_true_iff. lia. Qed.

Lemma decimal_acc_mono l : forall acc, forallb is_ascii_digit l = true -> 0 <= acc ->
  acc <= fold_left (fun acc c => acc * 10 + digit_value c) l acc.
Proof.
  induction l as [|c l IH]; simpl; intros acc Hd Ha; [lia|].
  apply andb_true_iff in Hd as [Hc Hd]. apply digit_value_range in Hc.
  specialize (IH (acc * 10 + digit_value c) Hd ltac:(lia)). lia.
Qed.

Lemma parse_u32_spec l : forall acc, forallb is_ascii_digit l = true -> 0 <= acc <= u32_max ->
  let v := fold_left (fun acc c => acc * 10 + digit_value c) l acc in
  parse_u32 acc l = if v <=? u32_max then Some v else None.
Proof.
  induction l as [|c l IH]; simpl; intros acc Hd Ha.
  { by rewrite (proj2 (Z.leb_le _ _)) by lia. }
  apply andb_true_iff in Hd as [Hc Hd]. pose proof (digit_value_range _ Hc).
  case_match eqn:Hle; [apply IH; [done|lia]|].
  pose proof (decimal_acc_mono l (acc * 10 + digit_value c) Hd ltac:(lia)).
  by rewrite (proj2 (Z.leb_gt _ _)) by lia.
Qed.

Lemma ends_with_spec suffix l : ends_with suffix l = true <-> exists p, l = p ++ suffix.
Proof.
  unfold ends_with. rewrite bool_decide_eq_true. split.
  - intros H. exists (take (length l - length suffix) l). rewrite <- H at 2. symmetry. apply take_drop.
  - intros [p ->]. rewrite length_app, Nat.add_sub. apply drop_app_length.
Qed.

Lemma digits_no_dash l : forallb is_ascii_digit l = true -> dash ∉ l.
Proof. intros Hd Hin. rewrite forallb_forall in Hd. apply list_elem_of_In in Hin. by apply Hd in Hin. Qed.

(** The partition detector decides exactly its documented format: a name has
    partition index [n] if and only if it is a non-empty base name followed by
    [-partition-] and a non-empty string of decimal digits whose value is [n] and
    fits in 32 bits. *)
Theorem partition_index_exact (topic : string) (n : Z) :
  topic_partition_index topic = Some n <->
  exists base digits, list_ascii_of_string topic = base ++ partition_suffix ++ dash :: digits
    /\ base <> [] /\ digits <> [] /\ forallb is_ascii_digit digits = true
    /\ decimal digits = n /\ n <= u32_max.
Proof.
  unfold topic_partition_index. generalize (list_ascii_of_string topic) as l. intros l.
  unfold topic_partition_index_chars. split.
  - destruct (rsplit_once dash l) as [[p s]|] eqn:Hr; [|done].
    apply rsplit_once_spec in Hr as [-> Hs].
    case_bool_decide as Hs0; [done|]. destruct (forallb is_ascii_digit s) eqn:Hd; [|done]. simpl.
    destruct (ends_with partition_suffix p) eqn:He; [|done]. apply ends_with_spec in He as [base ->]. simpl.
    case_bool_decide as Hlen; [done|]. rewrite parse_u32_spec by (done || unfold u32_max; lia).
    case_match eqn:Hle; [|done]. intros [= <-]. exists base, s. split_and!; try done; [| |lia].
    + by rewrite <- (assoc_L (++)).
    + intros ->. by apply Hlen.
  - intros (base & s & -> & Hb & Hs & Hd & <- & Hle).
    assert (Hr : rsplit_once dash (base ++ partition_suffix ++ dash :: s) = Some (base ++ partition_suffix, s)).
    { apply rsplit_once_spec. split; [by rewrite <- (assoc_L (++))|by apply digits_no_dash]. }
    rewrite Hr, bool_decide_eq_false_2 by done. rewrite Hd. simpl.
    rewrite (proj2 (ends_with_spec _ _)) by eauto. simpl.
    rewrite bool_decide_eq_false_2; [|rewrite length_app; destruct base; simpl; [done|lia]].
    rewrite parse_u32_spec by (done || unfold u32_max; lia). by rewrite (proj2 (Z.leb_le _ _)).
Qed.

Example partition_index_example :
  topic_partition_index "t-partition-thing-partition-12" = Some 12
  /\ topic_partition_index "my-partition-thing-3" = None
  /\ topic_partition_index "-partition-3" = None
  /\ topic_partition_index "t-partition-4294967296" = None.
Proof. by vm_compute. Qed.

(** * Requests, outcomes and the registry *)

Definition MAX_LOOKUP_REDIRECTS : Z := 5.

Record LookupRequest := mkLookupRequest {
  lr_topic : string;
  lr_authoritative : bool;
  lr_hops_remaining : Z;
  lr_chain_origin : Z;
}.

(** [LookupOutcome]; the synthetic messages are kept, the message text of the
    redirect cap is fixed. *)
Inductive LookupOutcome :=
| LConnect (url url_tls : option string) (proxy_through_service_url : bool)
| LRedirected (url url_tls : option string) (authoritative : bool) (hops_remaining : Z)
| LFailed (code : Z) (message : string).

(** [pb::CommandLookupTopicResponse] *)
Record LookupResponse := mkLookupResponse {
  rs_url : option string;
  rs_url_tls : option string;
  rs_response : option Z;
  rs_request_id : Z;
  rs_authoritative : option bool;
  rs_error : option Z;
  rs_message : option string;
  rs_proxy : option bool;
}.

Definition redirect_cap_message : string := "lookup redirect cap exceeded (5 hops)".

(** [LookupType]: Redirect = 0, Connect = 1, Failed = 2; an absent or unknown
    value counts as Failed. *)
Definition translate_lookup_response (response : LookupResponse) (request : LookupRequest) : LookupOutcome :=
  match rs_response response with
  | Some 1 => LConnect (rs_url response) (rs_url_tls response) (default false (rs_proxy response))
  | Some 0 =>
      if lr_hops_remaining request =? 0 then LFailed 0 redirect_cap_message
      else LRedirected (rs_url response) (rs_url_tls response) (default true (rs_authoritative response))
             (lr_hops_remaining request - 1)
  | _ => LFailed (default 0 (rs_error response)) (default ""%string (rs_message response))
  end.

Inductive LookupRejected := MaxPending.

Record LookupRegistry := mkRegistry {
  lookups : gmap Z LookupRequest;
  partitions : gset Z;
  max_pending : Z;
}.

#[global] Instance Registry_eta : Eta LookupRegistry := fun r =>
  mkRegistry (lookups r) (partitions r) (max_pending r).

Definition total_pending (r : LookupRegistry) : Z := Z.of_nat (size (lookups r)) + Z.of_nat (size (partitions r)).

Definition has_capacity (r : LookupRegistry) : bool :=
  (max_pending r =? 0) || (total_pending r <? max_pending r).

Definition insert_lookup (rid : Z) (req : LookupRequest) (r : LookupRegistry) : result LookupRejected LookupRegistry :=
  if negb (has_capacity r) then Err MaxPending else Ok (r <| lookups ::= <[rid := req]> |>).

Definition insert_partition (rid : Z) (r : LookupRegistry) : result LookupRejected LookupRegistry :=
  if negb (has_capacity r) then Err MaxPending else Ok (r <| partitions ::= fun s => {[rid]} ∪ s |>).

Definition take_lookup (rid : Z) (r : LookupRegistry) : option LookupRequest * LookupRegistry :=
  (lookups r !! rid, r <| lookups ::= delete rid |>).

Definition take_partition (rid : Z) (r : LookupRegistry) : bool * LookupRegistry :=
  (bool_decide (rid ∈ partitions r), r <| partitions ::= fun s => s ∖ {[rid]} |>).

Definition pending_request_ids (r : LookupRegistry) : list Z :=
  (map_to_list (lookups r)).*1 ++ elements (partitions r).

(** * The connection, as far as lookups go *)

Inductive PendingRequestKind := KLookup | KPartitionedMetadata.

Inductive Outcome :=
| OLookup (outcome : LookupOutcome)
| OPartitions (partitions : Z) (error : option (Z * string)).

Inductive OutFrame :=
| FLookup (topic : string) (rid : Z) (authoritative : bool)
| FPartitionedMetadata (topic : string) (rid : Z).

Record LookupConn := mkLookupConn {
  next_request_id : Z;
  registry : LookupRegistry;
  pending_requests : gmap Z PendingRequestKind;
  outcomes : gmap Z Outcome;
  outbound : list OutFrame;
}.

#[global] Instance LookupConn_eta : Eta LookupConn := fun c =>
  mkLookupConn (next_request_id c) (registry c) (pending_requests c) (outcomes c) (outbound c).

Definition lookup_conn_new (max_pending : Z) : LookupConn :=
  mkLookupConn 0 (mkRegistry ∅ ∅ max_pending) ∅ ∅ [].

Definition alloc_request_id (c : LookupConn) : Z * LookupConn :=
  (next_request_id c, c <| next_request_id ::= fun n => wrapping_add 64 n 1 |>).

Definition publish (rid : Z) (o : Outcome) (c : LookupConn) : LookupConn :=
  c <| pending_requests ::= delete rid |> <| outcomes ::= <[rid := o]> |>.

Definition rejected_message : string :=
  "lookup rejected: max pending (ConnectionConfig::max_pending_lookups)".

(** [send_lookup_internal]: [None] when the registry rejected the request. *)
Definition send_lookup_internal (encode_ok : bool) (rid : Z) (req : LookupRequest) (c : LookupConn)
    : option LookupConn :=
  match insert_lookup rid req (registry c) with
  | Err _ => None
  | Ok r =>
      let c := c <| registry := r |> in
      Some (if encode_ok
            then c <| outbound ::= fun q => q ++ [FLookup (lr_topic req) rid (lr_authoritative req)] |>
                   <| pending_requests ::= <[rid := KLookup]> |>
            else c)
  end.

Definition lookup_with_budget (encode_ok : bool) (topic : string) (authoritative : bool) (hops : Z)
    (c : LookupConn) : Z * LookupConn :=
  let '(rid, c) := alloc_request_id c in
  match send_lookup_internal encode_ok rid (mkLookupRequest topic authoritative hops rid) c with
  | Some c => (rid, c)
  | None => (rid, publish rid (OLookup (LFailed 0 rejected_message)) c)
  end.

Definition conn_lookup (encode_ok : bool) (topic : string) (authoritative : bool) (c : LookupConn) : Z * LookupConn :=
  lookup_with_budget encode_ok topic authoritative MAX_LOOKUP_REDIRECTS c.

Definition lookup_redirect (encode_ok : bool) (topic : string) (authoritative : bool) (hops : Z)
    (c : LookupConn) : Z * LookupConn :=
  lookup_with_budget encode_ok topic authoritative (Z.min hops MAX_LOOKUP_REDIRECTS) c.

Definition partitions_rejected_message : string :=
  "partitioned-metadata rejected: max pending (ConnectionConfig::max_pending_lookups)".

Definition get_partitioned_topic_metadata (encode_ok : bool) (topic : string) (c : LookupConn) : Z * LookupConn :=
  let '(rid, c) := alloc_request_id c in
  if is_partition_topic topic then (rid, publish rid (OPartitions 0 None) c)
  else
    match insert_partition rid (registry c) with
    | Err _ => (rid, publish rid (OPartitions 0 (Some (0, partitions_rejected_message))) c)
    | Ok r =>
        let c := c <| registry := r |> in
        let c := if encode_ok then c <| outbound ::= fun q => q ++ [FPartitionedMetadata topic rid] |> else c in
        (rid, c <| pending_requests ::= <[rid := KPartitionedMetadata]> |>)
    end.

(** The [LookupResponse] arm of [handle_frame]. *)
Definition handle_lookup_response (resp : LookupResponse) (c : LookupConn) : LookupConn :=
  match take_lookup (rs_request_id resp) (registry c) with
  | (Some req, r) =>
      publish (lr_chain_origin req) (OLookup (translate_lookup_response resp req)) (c <| registry := r |>)
  | (None, _) => c
  end.

(** The [PartitionedMetadataResponse] arm. *)
Definition handle_partitioned_response (rid : Z) (parts : option Z) (error : option Z) (message : option string)
    (c : LookupConn) : LookupConn :=
  match take_partition rid (registry c) with
  | (true, r) =>
      publish rid (OPartitions (default 0 parts) ((fun code => (code, default ""%string message)) <$> error))
        (c <| registry := r |>)
  | (false, _) => c
  end.

(** The lookup part of [cancel_request]. *)
Definition cancel_request (rid : Z) (c : LookupConn) : LookupConn :=
  c <| outcomes ::= delete rid |> <| pending_requests ::= delete rid |>
    <| registry ::= fun r => (take_partition rid (take_lookup rid r).2).2 |>.

Inductive lookup_op :=
| LkLookup (encode_ok : bool) (topic : string) (authoritative : bool)
| LkRedirect (encode_ok : bool) (topic : string) (authoritative : bool) (hops : Z)
| LkPartitions (encode_ok : bool) (topic : string)
| LkResponse (resp : LookupResponse)
| LkPartitionsResponse (rid : Z) (parts : option Z) (error : option Z) (message : option string)
| LkCancel (rid : Z).

Definition lookup_apply (op : lookup_op) (c : LookupConn) : LookupConn :=
  match op with
  | LkLookup e t a => (conn_lookup e t a c).2
  | LkRedirect e t a h => (lookup_redirect e t a h c).2
  | LkPartitions e t => (get_partitioned_topic_metadata e t c).2
  | LkResponse r => handle_lookup_response r c
  | LkPartitionsResponse rid p e m => handle_partitioned_response rid p e m c
  | LkCancel rid => cancel_request rid c
  end.

(** Reachable states with the set of cancelled ids; ids are 64-bit and do not
    wrap within the life of a connection. *)
Inductive lookup_reachable (max_pending : Z) : gset Z -> LookupConn -> Prop :=
| lk_new : lookup_reachable max_pending ∅ (lookup_conn_new max_pending)
| lk_step k c op : lookup_reachable max_pending k c -> next_request_id c < u64_max ->
    lookup_reachable max_pending (match op with LkCancel rid => {[rid]} ∪ k | _ => k end) (lookup_apply op c).

(** A request is waiting for the broker, or answered. *)
Definition waiting (rid : Z) (c : LookupConn) : Prop :=
  is_Some (lookups (registry c) !! rid) \/ rid ∈ partitions (registry c).
Definition answered (rid : Z) (c : LookupConn) : Prop := is_Some (outcomes c !! rid).

Record lookup_inv (k : gset Z) (c : LookupConn) : Prop := {
  li_next : 0 <= next_request_id c;
  li_waiting : forall rid, waiting rid c -> 0 <= rid < next_request_id c /\ ~ answered rid c;
  li_answered : forall rid, answered rid c -> 0 <= rid < next_request_id c;
  li_issued : forall rid, 0 <= rid < next_request_id c -> rid ∉ k -> waiting rid c \/ answered rid c;
  li_disjoint : forall rid, is_Some (lookups (registry c) !! rid) -> rid ∉ partitions (registry c);
  li_origin : forall rid req, lookups (registry c) !! rid = Some req ->
    lr_chain_origin req = rid /\ lr_hops_remaining req <= MAX_LOOKUP_REDIRECTS;
  li_cap : max_pending (registry c) <> 0 -> total_pending (registry c) <= max_pending (registry c);
}.

Lemma size_delete_le {A} (m : gmap Z A) i : (size (delete i m) <= size m)%nat.
Proof. rewrite map_size_delete. destruct (m !! i); simpl; lia. Qed.

Lemma size_remove_le (s : gset Z) i : (size (s ∖ {[i]}) <= size s)%nat.
Proof. apply subseteq_size. set_solver. Qed.

Lemma has_capacity_spec r : has_capacity r = true -> max_pending r <> 0 -> total_pending r + 1 <= max_pending r.
Proof. unfold has_capacity. rewrite orb_true_iff. lia. Qed.

Lemma wrap_succ n : 0 <= n < u64_max -> wrapping_add 64 n 1 = n + 1.
Proof. unfold wrapping_add, u64_max. intros. apply Z.mod_small. lia. Qed.

(** Allocating an id and answering it at once. *)
Lemma inv_publish_fresh k c o :
  lookup_inv k c -> next_request_id c < u64_max ->
  lookup_inv k (publish (next_request_id c) o (alloc_request_id c).2).
Proof.
  intros [H1 H2 H3 H4 H5 H6 H7] Hlt. pose proof (wrap_succ (next_request_id c) ltac:(lia)) as Hw.
  split; unfold waiting, answered in *; simpl in *; rewrite ?Hw; try done; try lia.
  - intros rid Hr. destruct (H2 rid Hr) as [Hb Hn]. split; [lia|].
    rewrite lookup_insert_is_Some'. intros [Heq|?]; [lia|done].
  - intros rid. rewrite lookup_insert_is_Some'. intros [<-|Ha]; [lia|]. specialize (H3 rid Ha). lia.
  - intros rid Hb Hk. rewrite lookup_insert_is_Some'.
    destruct (decide (next_request_id c = rid)); [by right; left|]. destruct (H4 rid ltac:(lia) Hk); tauto.
Qed.

(** Allocating an id and registering it. *)
Lemma inv_register_lookup k c req r' p' o' :
  lookup_inv k c -> next_request_id c < u64_max ->
  insert_lookup (next_request_id c) req (registry c) = Ok r' ->
  lr_chain_origin req = next_request_id c -> lr_hops_remaining req <= MAX_LOOKUP_REDIRECTS ->
  lookup_inv k (mkLookupConn (next_request_id (alloc_request_id c).2) r' p' (outcomes c) o').
Proof.
  intros [H1 H2 H3 H4 H5 H6 H7] Hlt Hins Ho Hh. pose proof (wrap_succ (next_request_id c) ltac:(lia)) as Hw.
  unfold insert_lookup in Hins. destruct (has_capacity (registry c)) eqn:Hcap; [|done].
  injection Hins as <-.
  assert (Hfresh : lookups (registry c) !! next_request_id c = None).
  { apply eq_None_not_Some. intros Hs. destruct (H2 (next_request_id c)); [by left|lia]. }
  split; unfold waiting, answered in *; simpl in *; rewrite ?Hw; try done; try lia.
  - intros rid. rewrite lookup_insert_is_Some'. intros [[<-|Hr]|Hr].
    + split; [lia|]. intros Ha. specialize (H3 _ Ha). lia.
    + destruct (H2 rid); [by left|]. split; [lia|done].
    + destruct (H2 rid); [by right|]. split; [lia|done].
  - intros rid Ha. specialize (H3 rid Ha). lia.
  - intros rid Hb Hk. rewrite lookup_insert_is_Some'.
    destruct (decide (next_request_id c = rid)); [by left; left; left|]. destruct (H4 rid ltac:(lia) Hk); tauto.
  - intros rid. rewrite lookup_insert_is_Some'. intros [<-|Hr]; [|by apply H5].
    intros Hp. destruct (H2 (next_request_id c)); [by right|lia].
  - intros rid q [[<- <-]|[_ Hq]]%lookup_insert_Some; [done|by apply H6].
  - intros Hm. pose proof (has_capacity_spec _ Hcap Hm). unfold total_pending in *. simpl.
    rewrite map_size_insert_None by done. lia.
Qed.

Lemma inv_register_partition k c r' p' o' :
  lookup_inv k c -> next_request_id c < u64_max ->
  insert_partition (next_request_id c) (registry c) = Ok r' ->
  lookup_inv k (mkLookupConn (next_request_id (alloc_request_id c).2) r' p' (outcomes c) o').
Proof.
  intros [H1 H2 H3 H4 H5 H6 H7] Hlt Hins. pose proof (wrap_succ (next_request_id c) ltac:(lia)) as Hw.
  unfold insert_partition in Hins. destruct (has_capacity (registry c)) eqn:Hcap; [|done].
  injection Hins as <-.
  assert (Hfresh : next_request_id c ∉ partitions (registry c)).
  { intros Hs. destruct (H2 (next_request_id c)); [by right|lia]. }
  split; unfold waiting, answered in *; simpl in *; rewrite ?Hw; try done; try lia.
  - intros rid. rewrite elem_of_union, elem_of_singleton. intros [Hr|[->|Hr]].
    + destruct (H2 rid); [by left|]. split; [lia|done].
    + split; [lia|]. intros Ha. specialize (H3 _ Ha). lia.
    + destruct (H2 rid); [by right|]. split; [lia|done].
  - intros rid Ha. specialize (H3 rid Ha). lia.
  - intros rid Hb Hk. rewrite elem_of_union, elem_of_singleton.
    destruct (decide (rid = next_request_id c)); [by left; right; left|]. destruct (H4 rid ltac:(lia) Hk); tauto.
  - intros rid Hr. rewrite elem_of_union, elem_of_singleton. intros [->|Hp]; [|by apply (H5 rid)].
    destruct (H2 (next_request_id c)); [by left|lia].
  - intros Hm. pose proof (has_capacity_spec _ Hcap Hm). unfold total_pending in *. simpl.
    rewrite size_union, size_singleton by set_solver. lia.
Qed.

Lemma inv_lookup_with_budget k c e t a h :
  lookup_inv k c -> next_request_id c < u64_max -> h <= MAX_LOOKUP_REDIRECTS ->
  lookup_inv k (lookup_with_budget e t a h c).2.
Proof.
  intros Hi Hlt Hh. unfold lookup_with_budget, send_lookup_internal. simpl.
  destruct (insert_lookup _ _ _) as [r'|] eqn:Hins; simpl; [|by apply inv_publish_fresh].
  destruct e; by apply (inv_register_lookup k c _ r' _ _ Hi Hlt Hins).
Qed.

Lemma inv_lookup_response k c resp : lookup_inv k c -> lookup_inv k (handle_lookup_response resp c).
Proof.
  intros Hi. pose proof Hi as [H1 H2 H3 H4 H5 H6 H7]. unfold handle_lookup_response, take_lookup.
  destruct (lookups (registry c) !! rs_request_id resp) as [req|] eqn:Hl; [|done].
  destruct (H6 _ _ Hl) as [Ho _]. rewrite Ho. set (i := rs_request_id resp) in *.
  assert (Hwi : is_Some (lookups (registry c) !! i)) by by rewrite Hl.
  split; unfold waiting, answered in *; simpl in *; try done.
  - intros rid. rewrite lookup_delete_is_Some, lookup_insert_is_Some'. intros [[Hne Hr]|Hr].
    + destruct (H2 rid); [by left|]. split; [lia|]. intros [->|?]; done.
    + destruct (H2 rid); [by right|]. split; [lia|]. intros [<-|?]; [|done]. by apply (H5 i).
  - intros rid. rewrite lookup_insert_is_Some'. intros [<-|Ha]; [|by apply H3].
    destruct (H2 i); [by left|done].
  - intros rid Hb Hk. rewrite lookup_delete_is_Some, lookup_insert_is_Some'.
    destruct (decide (i = rid)); [tauto|]. destruct (H4 rid Hb Hk) as [[?|?]|?]; tauto.
  - intros rid. rewrite lookup_delete_is_Some. intros [_ Hr]. by apply H5.
  - intros rid q [_ Hq]%lookup_delete_Some. by apply H6.
  - intros Hm. specialize (H7 Hm). unfold total_pending in *. simpl.
    pose proof (size_delete_le (lookups (registry c)) i). lia.
Qed.

Lemma inv_partitioned_response k c rid p e m :
  lookup_inv k c -> lookup_inv k (handle_partitioned_response rid p e m c).
Proof.
  intros Hi. pose proof Hi as [H1 H2 H3 H4 H5 H6 H7]. unfold handle_partitioned_response, take_partition.
  case_bool_decide as Hp; [|done].
  split; unfold waiting, answered in *; simpl in *; try done.
  - intros i. rewrite elem_of_difference, elem_of_singleton, lookup_insert_is_Some'. intros [Hr|[Hr Hne]].
    + destruct (H2 i); [by left|]. split; [lia|]. intros [<-|?]; [|done]. by apply (H5 rid).
    + destruct (H2 i); [by right|]. split; [lia|]. intros [->|?]; done.
  - intros i. rewrite lookup_insert_is_Some'. intros [<-|Ha]; [|by apply H3].
    destruct (H2 rid); [by right|done].
  - intros i Hb Hk. rewrite elem_of_difference, elem_of_singleton, lookup_insert_is_Some'.
    destruct (decide (rid = i)); [tauto|]. destruct (H4 i Hb Hk) as [[?|?]|?]; try tauto.
    left. right. split; [done|]. congruence.
  - intros i Hr. rewrite elem_of_difference. intros [Hin _]. by apply (H5 i).
  - intros Hm. specialize (H7 Hm). unfold total_pending in *. simpl.
    pose proof (size_remove_le (partitions (registry c)) rid). lia.
Qed.

Lemma inv_cancel k c rid : lookup_inv k c -> lookup_inv ({[rid]} ∪ k) (cancel_request rid c).
Proof.
  intros [H1 H2 H3 H4 H5 H6 H7]. split; unfold waiting, answered in *; simpl in *; try done.
  - intros i. rewrite !lookup_delete_is_Some, elem_of_difference. intros Hw.
    destruct (H2 i) as [Hb Hn]; [tauto|]. split; [done|]. tauto.
  - intros i. rewrite lookup_delete_is_Some. intros [_ Ha]. by apply H3.
  - intros i Hb. rewrite not_elem_of_union, not_elem_of_singleton. intros [Hne Hk].
    rewrite !lookup_delete_is_Some, elem_of_difference, elem_of_singleton.
    destruct (H4 i Hb Hk) as [[?|?]|?]; [left; left|left; right|right]; done.
  - intros i. rewrite lookup_delete_is_Some, elem_of_difference. intros [_ Hr] [Hp _]. by apply (H5 i).
  - intros i q [_ Hq]%lookup_delete_Some. by apply H6.
  - intros Hm. specialize (H7 Hm). unfold total_pending in *. simpl.
    pose proof (size_remove_le (partitions (registry c)) rid).
    pose proof (size_delete_le (lookups (registry c)) rid). lia.
Qed.

Lemma lookup_inv_new max : 0 <= max -> lookup_inv ∅ (lookup_conn_new max).
Proof.
  intros Hmax.
  assert (Hw : forall rid, ~ waiting rid (lookup_conn_new max)).
  { intros rid [[x Hx]|Hx]; simpl in Hx; [by rewrite lookup_empty in Hx|set_solver]. }
  assert (Ha : forall rid, ~ answered rid (lookup_conn_new max)).
  { intros rid [x Hx]. simpl in Hx. by rewrite lookup_empty in Hx. }
  split; try (intros rid Hr; first [by destruct (Hw rid)|by destruct (Ha rid)]).
  - simpl. lia.
  - intros rid Hb. simpl in Hb. lia.
  - intros rid _. simpl. set_solver.
  - intros rid req Hr. simpl in Hr. by rewrite lookup_empty in Hr.
  - intros _. unfold total_pending, lookup_conn_new. cbn [registry lookups partitions max_pending].
    rewrite map_size_empty, size_empty. lia.
Qed.

Lemma lookup_step_inv k c op :
  lookup_inv k c -> next_request_id c < u64_max ->
  lookup_inv (match op with LkCancel rid => {[rid]} ∪ k | _ => k end) (lookup_apply op c).
Proof.
  intros Hi Hlt. destruct op as [e t a|e t a h|e t|r|rid p e m|rid]; simpl.
  - by apply inv_lookup_with_budget.
  - apply inv_lookup_with_budget; [done|done|lia].
  - unfold get_partitioned_topic_metadata. simpl.
    destruct (is_partition_topic t); [by apply inv_publish_fresh|].
    destruct (insert_partition _ _) as [r'|] eqn:Hins; simpl; [|by apply inv_publish_fresh].
    destruct e; by apply (inv_register_partition k c r' _ _ Hi Hlt Hins).
  - by apply inv_lookup_response.
  - by apply inv_partitioned_response.
  - by apply inv_cancel.
Qed.

(** Every lookup resolves at most once and none is lost: in every reachable
    state each issued request that was not cancelled is either waiting for the
    broker or answered, never both; nothing that was not issued is; and the
    number of waiting requests never exceeds the configured cap. *)
Theorem lookups_accounted (max : Z) (k : gset Z) (c : LookupConn) :
  0 <= max -> lookup_reachable max k c ->
  (forall rid, 0 <= rid < next_request_id c -> rid ∉ k ->
     (waiting rid c /\ ~ answered rid c) \/ (answered rid c /\ ~ waiting rid c))
  /\ (forall rid, waiting rid c \/ answered rid c -> 0 <= rid < next_request_id c)
  /\ max_pending (registry c) = max /\ (max <> 0 -> total_pending (registry c) <= max).
Proof.
  intros Hmax Hr.
  assert (Hi : lookup_inv k c /\ max_pending (registry c) = max).
  { induction Hr as [|k c op Hr [IH Hm] Hlt].
    - split; [by apply lookup_inv_new|done].
    - split; [by apply lookup_step_inv|]. rewrite <- Hm. clear.
      destruct op; simpl; try done;
        unfold conn_lookup, lookup_redirect, lookup_with_budget, send_lookup_internal, get_partitioned_topic_metadata, insert_lookup,
          insert_partition, handle_lookup_response, handle_partitioned_response; simpl;
        repeat case_match; simplify_eq; done. }
  destruct Hi as [[H1 H2 H3 H4 H5 H6 H7] <-]. split_and!; try done.
  - intros rid Hb Hk. destruct (H4 rid Hb Hk) as [Hw|Ha].
    + left. split; [done|]. by apply H2.
    + right. split; [done|]. intros Hw. by apply (H2 rid Hw).
  - intros rid [Hw|Ha]; [by apply H2|by apply H3].
Qed.

Definition capped_run : LookupConn :=
  lookup_apply (LkResponse (mkLookupResponse None None (Some 1) 0 None None None None))
    (lookup_apply (LkLookup true "b" false) (lookup_apply (LkLookup true "a" false) (lookup_conn_new 1))).

Example lookups_accounted_witness :
  (forall rid, 0 <= rid < next_request_id capped_run -> rid ∉ (∅ : gset Z) ->
     (waiting rid capped_run /\ ~ answered rid capped_run) \/ (answered rid capped_run /\ ~ waiting rid capped_run))
  /\ (forall rid, waiting rid capped_run \/ answered rid capped_run -> 0 <= rid < next_request_id capped_run)
  /\ max_pending (registry capped_run) = 1 /\ (1 <> 0 -> total_pending (registry capped_run) <= 1).
Proof.
  apply (lookups_accounted 1 ∅ capped_run); [lia|].
  apply (lk_step 1 ∅ _ (LkResponse _)); [|reflexivity].
  apply (lk_step 1 ∅ _ (LkLookup true "b" false)); [|reflexivity].
  apply (lk_step 1 ∅ _ (LkLookup true "a" false)); [constructor|reflexivity].
Defined.

(** * Redirect chains *)

(** The engine's dial loop: it re-issues the lookup at each redirect target,
    with the budget [next_budget] derives from the outcome it received, and
    reads the broker's answer there.  The result is the number of redirects it
    followed and the last outcome, if the answers sufficed. *)
Fixpoint chase (next_budget : Z -> Z) (budget : Z) (answers : list LookupResponse) : nat * option LookupOutcome :=
  match answers with
  | [] => (0%nat, None)
  | resp :: answers =>
      match translate_lookup_response resp (mkLookupRequest "" false budget 0) with
      | LRedirected _ _ _ hops =>
          let '(n, o) := chase next_budget (Z.min (next_budget hops) MAX_LOOKUP_REDIRECTS) answers in (S n, o)
      | o => (0%nat, Some o)
      end
  end.

Lemma chase_bound answers : forall budget,
  0 <= budget -> Z.of_nat (chase (fun h => h) budget answers).1 <= budget.
Proof.
  induction answers as [|r answers IH]; intros budget Hb; simpl; [lia|].
  unfold translate_lookup_response. simpl.
  repeat case_match; simplify_eq; simpl; try lia.
  specialize (IH (Z.min (budget - 1) MAX_LOOKUP_REDIRECTS) ltac:(unfold MAX_LOOKUP_REDIRECTS; lia)).
  match goal with H : chase _ _ answers = _ |- _ => rewrite H in IH end. simpl in IH. lia.
Qed.

(** The redirect cap: an engine that threads the remaining budget from hop to
    hop follows at most five redirects, whatever the brokers answer, and with
    enough answers the chain ends in a terminal outcome. *)
Theorem redirect_chain_bounded (answers : list LookupResponse) :
  ((chase (fun h => h) MAX_LOOKUP_REDIRECTS answers).1 <= 5)%nat
  /\ ((5 < length answers)%nat -> is_Some (chase (fun h => h) MAX_LOOKUP_REDIRECTS answers).2).
Proof.
  split; [pose proof (chase_bound answers MAX_LOOKUP_REDIRECTS); unfold MAX_LOOKUP_REDIRECTS in *; lia|].
  intros Hl. assert (Hend : forall l budget, 0 <= budget ->
    (chase (fun h => h) budget l).2 = None -> (chase (fun h => h) budget l).1 = length l).
  { induction l as [|r l IH]; intros budget Hb; simpl; [done|].
    unfold translate_lookup_response. simpl. repeat case_match; simplify_eq; simpl; try done.
    intros ->. f_equal. specialize (IH (Z.min (budget - 1) MAX_LOOKUP_REDIRECTS) ltac:(unfold MAX_LOOKUP_REDIRECTS; lia)).
    match goal with H : chase _ _ l = _ |- _ => rewrite H in IH end. by apply IH. }
  destruct (chase (fun h => h) MAX_LOOKUP_REDIRECTS answers).2 eqn:He; [done|].
  apply Hend in He; [|done]. pose proof (chase_bound answers MAX_LOOKUP_REDIRECTS ltac:(done)).
  unfold MAX_LOOKUP_REDIRECTS in *. lia.
Qed.

Definition redirect_answer : LookupResponse := mkLookupResponse None None (Some 0) 0 None None None None.

(** The clamp on re-entry does not bound an engine that inflates its budget:
    one that asks for the full budget at every hop follows as many redirects as
    the brokers send. *)
Theorem inflated_budget_unbounded (n : nat) :
  (chase (fun _ => 255) MAX_LOOKUP_REDIRECTS (replicate n redirect_answer)).1 = n.
Proof.
  assert (H : forall budget, 0 < budget <= MAX_LOOKUP_REDIRECTS ->
    (chase (fun _ => 255) budget (replicate n redirect_answer)).1 = n); [|apply H; done].
  induction n as [|n IH]; intros budget Hb; simpl; [done|].
  unfold translate_lookup_response. simpl. rewrite (proj2 (Z.eqb_neq _ _)) by lia.
  specialize (IH (Z.min 255 MAX_LOOKUP_REDIRECTS) ltac:(unfold MAX_LOOKUP_REDIRECTS; lia)).
  destruct (chase _ _ _) as [m o]. simpl in *. by rewrite IH.
Qed.
