(* ===== verification/BatchAck.v ===== *)
(** Batch-index acknowledgment: [BatchAckEntry] of
    [magnetar-proto/src/consumer.rs], a bitset of the positions of one batch that
    are still unacked, packed into 64-bit words.

    The specification is the set of unacked positions, given by its membership
    test [member]; every operation is shown to be the set operation it stands
    for, on entries that satisfy the representation invariant [ba_wf]. *)

From S2P Require Import Prelude.

Record BatchAckEntry := mkBatchAck { ba_batch_size : Z; ba_unacked : list Z }.

#[global] Instance BatchAck_eta : Eta BatchAckEntry := fun e => mkBatchAck (ba_batch_size e) (ba_unacked e).

Definition WORD_MASK : Z := u64_max.
Definition bit_at (i : Z) : Z := Z.shiftl 1 (i mod 64).

(** [usize::div_ceil(64)] of the clamped size *)
Definition n_words (batch_size : Z) : nat := Z.to_nat ((Z.max batch_size 0 + 63) / 64).

(** [for i in 0..size { unacked[i / 64] |= 1 << (i % 64) }]; the index is in
    range, so no panic. *)
Fixpoint set_first (n : nat) (ws : list Z) : list Z :=
  match n with
  | O => ws
  | S n => alter (fun w => Z.lor w (bit_at (Z.of_nat n))) (Z.to_nat (Z.of_nat n / 64)) (set_first n ws)
  end.

Definition ba_fresh (batch_size : Z) : BatchAckEntry :=
  mkBatchAck batch_size (set_first (Z.to_nat (Z.max batch_size 0)) (replicate (n_words batch_size) 0)).

(** [Vec::resize(n, 0)] on a list of at most [n] words *)
Definition resize0 (n : nat) (ws : list Z) : list Z := take n ws ++ replicate (n - length ws)%nat 0.

Definition from_ack_set (batch_size : Z) (ack_set : list Z) : BatchAckEntry :=
  match ack_set with
  | [] => ba_fresh batch_size
  | _ :: _ =>
      let size := Z.max batch_size 0 in
      let words := n_words batch_size in
      let unacked := resize0 words (as_unsigned 64 <$> take words ack_set) in
      let used := size mod 64 in
      let unacked :=
        if used =? 0 then unacked
        else alter (fun last => Z.land last (Z.shiftl 1 used - 1)) (length unacked - 1)%nat unacked in
      mkBatchAck batch_size unacked
  end.

Definition ba_clear (position : Z) (e : BatchAckEntry) : BatchAckEntry :=
  if (position <? 0) || (position >=? ba_batch_size e) then e
  else e <| ba_unacked ::= alter (fun w => Z.land w (Z.lxor WORD_MASK (bit_at position))) (Z.to_nat (position / 64)) |>.

(** [for index in 0..n { self.clear(index) }] *)
Fixpoint clear_first (n : nat) (e : BatchAckEntry) : BatchAckEntry :=
  match n with
  | O => e
  | S n => ba_clear (Z.of_nat n) (clear_first n e)
  end.

Definition clear_before (position : Z) (e : BatchAckEntry) : BatchAckEntry :=
  clear_first (Z.to_nat (Z.max (Z.min position (ba_batch_size e)) 0)) e.

Definition seek_from (batch_size position : Z) : BatchAckEntry :=
  clear_before (Z.max position 0) (ba_fresh batch_size).

Definition seek_from_ack_set (batch_size position : Z) (ack_set : list Z) : BatchAckEntry :=
  clear_before (Z.max position 0) (from_ack_set batch_size ack_set).

Definition and_words (ws : list Z) (delivered : nat -> option Z) : list Z :=
  imap (fun i w => Z.land w (default WORD_MASK (delivered i))) ws.

Definition from_delivered_ack_set (batch_size : Z) (ack_set : list Z) : BatchAckEntry :=
  (ba_fresh batch_size) <| ba_unacked ::= fun ws => and_words ws (fun i => as_unsigned 64 <$> ack_set !! i) |>.

Definition intersect_delivered (delivered e : BatchAckEntry) : BatchAckEntry :=
  e <| ba_unacked ::= fun ws => and_words ws (fun i => ba_unacked delivered !! i) |>.

Definition is_unacked (position : Z) (e : BatchAckEntry) : bool :=
  let position := if position <? 0 then usize_max else position in
  match ba_unacked e !! Z.to_nat (position / 64) with
  | Some word => negb (Z.land word (bit_at position) =? 0)
  | None => false
  end.

Definition is_fully_acked (e : BatchAckEntry) : bool := forallb (fun w => w =? 0) (ba_unacked e).

Definition ack_position (position : Z) (e : BatchAckEntry) : bool * BatchAckEntry :=
  let e := ba_clear position e in (is_fully_acked e, e).

(** [position.saturating_add(1)] on [i32] *)
Definition ack_cumulative (position : Z) (e : BatchAckEntry) : bool * BatchAckEntry :=
  let e := clear_before (saturating_add i32_max position 1) e in (is_fully_acked e, e).

Definition count_ones (w : Z) : Z := blen (filter (fun k => Z.testbit w k = true) (seqZ 0 64)).

Definition unacked_count (e : BatchAckEntry) : Z :=
  fold_left (fun count w => saturating_add u32_max count (count_ones w)) (ba_unacked e) 0.

Definition ack_set_i64 (e : BatchAckEntry) : list Z := as_signed 64 <$> ba_unacked e.

(** * The set a bitset stands for *)

Definition member (ws : list Z) (i : Z) : bool :=
  match ws !! Z.to_nat (i / 64) with Some w => Z.testbit w (i mod 64) | None => false end.

(** Position [i] is still unacked. *)
Definition unacked_at (e : BatchAckEntry) (i : Z) : Prop := 0 <= i /\ member (ba_unacked e) i = true.

Definition word_ok (w : Z) : Prop := 0 <= w < 2 ^ 64.

Definition ba_wf (e : BatchAckEntry) : Prop :=
  length (ba_unacked e) = n_words (ba_batch_size e) /\ Forall word_ok (ba_unacked e)
  /\ (forall i, unacked_at e i -> i < ba_batch_size e).

(** ** Words *)

Lemma bit_at_testbit i k : 0 <= k -> Z.testbit (bit_at i) k = (k =? i mod 64).
Proof.
  intros. unfold bit_at. rewrite Z.shiftl_1_l. pose proof (Z.mod_pos_bound i 64 ltac:(lia)).
  rewrite Z.pow2_bits_eqb by lia. apply Z.eqb_sym.
Qed.

Lemma mask_testbit k : 0 <= k < 64 -> Z.testbit WORD_MASK k = true.
Proof.
  intros. unfold WORD_MASK, u64_max.
  change (2 ^ 64 - 1) with (Z.ones 64). by apply Z.ones_spec_low.
Qed.

Lemma div_mod_inj i j : i / 64 = j / 64 -> i mod 64 = j mod 64 -> i = j.
Proof. intros. rewrite (Z.div_mod i 64), (Z.div_mod j 64) by lia. lia. Qed.

Lemma mod64 i : 0 <= i mod 64 < 64.
Proof. apply Z.mod_pos_bound. lia. Qed.

Lemma div64_nat i j : 0 <= i -> 0 <= j -> Z.to_nat (i / 64) = Z.to_nat (j / 64) -> i / 64 = j / 64.
Proof. intros. apply Z2Nat.inj; [apply Z.div_pos; lia..|done]. Qed.

(** A word update, seen through [member]. *)
Lemma member_alter f ws p i :
  0 <= p -> 0 <= i ->
  member (alter f (Z.to_nat (p / 64)) ws) i =
  if decide (i / 64 = p / 64)
  then match ws !! Z.to_nat (i / 64) with Some w => Z.testbit (f w) (i mod 64) | None => false end
  else member ws i.
Proof.
  intros Hp Hi. unfold member. case_decide as Hd.
  - rewrite <- Hd, list_lookup_alter_eq. by destruct (ws !! _).
  - rewrite list_lookup_alter_ne; [done|]. intros He. apply Hd. symmetry. by apply div64_nat.
Qed.

Lemma member_set_bit ws p i :
  0 <= p -> 0 <= i -> (Z.to_nat (p / 64) < length ws)%nat ->
  member (alter (fun w => Z.lor w (bit_at p)) (Z.to_nat (p / 64)) ws) i = (i =? p) || member ws i.
Proof.
  intros Hp Hi Hlen. rewrite member_alter by done. case_decide as Hd.
  - rewrite Hd. destruct (lookup_lt_is_Some_2 ws _ Hlen) as [w Hw]. unfold member. rewrite Hd, Hw.
    rewrite Z.lor_spec, bit_at_testbit by apply mod64.
    destruct (Z.eqb_spec i p) as [->|Hne]; [by rewrite Z.eqb_refl, orb_true_r|].
    rewrite (proj2 (Z.eqb_neq (i mod 64) (p mod 64))); [by rewrite orb_false_r|].
    intros He. by apply Hne, div_mod_inj.
  - rewrite (proj2 (Z.eqb_neq i p)); [done|]. by intros ->.
Qed.

Lemma member_clear_bit ws p i :
  0 <= p -> 0 <= i ->
  member (alter (fun w => Z.land w (Z.lxor WORD_MASK (bit_at p))) (Z.to_nat (p / 64)) ws) i
  = negb (i =? p) && member ws i.
Proof.
  intros Hp Hi. rewrite member_alter by done. case_decide as Hd.
  - unfold member. destruct (ws !! Z.to_nat (i / 64)) as [w|]; [|by rewrite andb_false_r].
    rewrite Z.land_spec, Z.lxor_spec, mask_testbit, bit_at_testbit by (apply mod64 || apply mod64).
    destruct (Z.eqb_spec i p) as [->|Hne]; [by rewrite Z.eqb_refl, andb_false_r|].
    rewrite (proj2 (Z.eqb_neq (i mod 64) (p mod 64))); [by rewrite andb_true_r|].
    intros He. by apply Hne, div_mod_inj.
  - rewrite (proj2 (Z.eqb_neq i p)); [done|]. by intros ->.
Qed.

Lemma is_unacked_member e p :
  0 <= p -> is_unacked p e = member (ba_unacked e) p.
Proof.
  intros Hp. unfold is_unacked, member. rewrite (proj2 (Z.ltb_ge _ _)) by done.
  destruct (ba_unacked e !! Z.to_nat (p / 64)) as [w|]; [|done].
  destruct (Z.testbit w (p mod 64)) eqn:Ht.
  - apply negb_true_iff, Z.eqb_neq. intros Hz.
    assert (Hb : Z.testbit (Z.land w (bit_at p)) (p mod 64) = false) by (rewrite Hz; apply Z.bits_0).
    rewrite Z.land_spec, bit_at_testbit, Z.eqb_refl, Ht in Hb by apply mod64. done.
  - apply negb_false_iff, Z.eqb_eq. apply Z.bits_inj_0. intros k.
    destruct (Z.ltb_spec k 0); [by apply Z.testbit_neg_r|].
    rewrite Z.land_spec, bit_at_testbit by done. destruct (Z.eqb_spec k (p mod 64)) as [->|]; [by rewrite Ht|].
    apply andb_false_r.
Qed.

Lemma word_ok_bits w : word_ok w <-> 0 <= w /\ forall k, 64 <= k -> Z.testbit w k = false.
Proof.
  unfold word_ok. split.
  - intros [H0 Hlt]. split; [done|]. intros k Hk. destruct (decide (w = 0)) as [->|]; [apply Z.bits_0|].
    apply Z.bits_above_log2; [done|]. apply Z.lt_le_trans with 64; [|done]. apply Z.log2_lt_pow2; lia.
  - intros [H0 Hb]. split; [done|]. destruct (decide (w < 2 ^ 64)); [done|].
    assert (Hl : 64 <= Z.log2 w) by (apply Z.log2_le_pow2; lia).
    specialize (Hb _ Hl). rewrite Z.bit_log2 in Hb; [done|]. lia.
Qed.

Lemma word_ok_land w m : word_ok w -> 0 <= m -> word_ok (Z.land w m).
Proof.
  rewrite !word_ok_bits. intros [H0 Hb] Hm. split; [apply Z.land_nonneg; by left|].
  intros k Hk. by rewrite Z.land_spec, Hb.
Qed.

Lemma word_ok_lor w m : word_ok w -> word_ok m -> word_ok (Z.lor w m).
Proof.
  rewrite !word_ok_bits. intros [H0 Hb] [Hm Hmb]. split; [by apply Z.lor_nonneg|].
  intros k Hk. by rewrite Z.lor_spec, Hb, Hmb.
Qed.

Lemma bit_at_ok i : word_ok (bit_at i).
Proof.
  apply word_ok_bits. unfold bit_at. split; [apply Z.shiftl_nonneg; lia|].
  intros k Hk. rewrite Z.shiftl_1_l, Z.pow2_bits_eqb by apply mod64. pose proof (mod64 i). lia.
Qed.

Lemma word_ok_unsigned w : word_ok (as_unsigned 64 w).
Proof. apply Z.mod_pos_bound. lia. Qed.

Lemma Forall_alter_ok (f : Z -> Z) ws k :
  (forall w, word_ok w -> word_ok (f w)) -> Forall word_ok ws -> Forall word_ok (alter f k ws).
Proof. intros Hf Hw. apply Forall_alter; [done|]. intros w Hl _. apply Hf. by eapply Forall_lookup_1. Qed.

Lemma n_words_enough n i : 0 <= i < n -> (Z.to_nat (i / 64) < n_words n)%nat.
Proof.
  intros Hi. unfold n_words. rewrite Z.max_l by lia. apply Z2Nat.inj_lt; [apply Z.div_pos; lia|apply Z.div_pos; lia|].
  apply Z.div_lt_upper_bound; [lia|]. pose proof (Z.mul_succ_div_gt (n + 63) 64 ltac:(lia)). lia.
Qed.

Lemma n_words_tight n i : 0 <= i -> (Z.to_nat (i / 64) < n_words n)%nat -> i < 64 * Z.of_nat (n_words n).
Proof.
  intros Hi Hlt. pose proof (Z.mul_succ_div_gt i 64 ltac:(lia)).
  assert (0 <= i / 64) by (apply Z.div_pos; lia). lia.
Qed.

Lemma set_first_length n ws : length (set_first n ws) = length ws.
Proof. induction n as [|n IH]; simpl; [done|]. by rewrite length_alter. Qed.

Lemma set_first_ok n ws : Forall word_ok ws -> Forall word_ok (set_first n ws).
Proof.
  intros Hw. induction n as [|n IH]; simpl; [done|]. apply Forall_alter_ok; [|done].
  intros w Ho. apply word_ok_lor; [done|apply bit_at_ok].
Qed.

Lemma set_first_member n ws i :
  0 <= i -> (forall k, (k < n)%nat -> (Z.to_nat (Z.of_nat k / 64) < length ws)%nat) ->
  member (set_first n ws) i = (i <? Z.of_nat n) || member ws i.
Proof.
  intros Hi. induction n as [|n IH]; intros Hk; simpl.
  { by rewrite (proj2 (Z.ltb_ge _ _)) by lia. }
  rewrite member_set_bit; [|lia|done|rewrite set_first_length; apply Hk; lia].
  rewrite IH by (intros; apply Hk; lia).
  destruct (Z.eqb_spec i (Z.of_nat n)); destruct (Z.ltb_spec i (Z.of_nat n));
    destruct (Z.ltb_spec i (Z.of_nat (S n))); simpl; try lia; done.
Qed.

Lemma member_zero n i : member (replicate n 0) i = false.
Proof.
  unfold member. destruct (replicate n 0 !! _) as [w|] eqn:Hw; [|done].
  apply lookup_replicate in Hw as [-> _]. apply Z.bits_0.
Qed.

Lemma fresh_member n i : 0 <= i -> member (ba_unacked (ba_fresh n)) i = (i <? n).
Proof.
  intros Hi. unfold ba_fresh. simpl. rewrite set_first_member; [|done|].
  - rewrite member_zero, orb_false_r. destruct (Z.ltb_spec i n);
      destruct (Z.ltb_spec i (Z.of_nat (Z.to_nat (Z.max n 0)))); lia || done.
  - intros k Hk. rewrite length_replicate. apply n_words_enough. lia.
Qed.

Lemma fresh_wf n : ba_wf (ba_fresh n).
Proof.
  split_and!.
  - simpl. by rewrite set_first_length, length_replicate.
  - apply set_first_ok, Forall_replicate. unfold word_ok. lia.
  - intros i [Hi Hm]. rewrite fresh_member in Hm by done. simpl. lia.
Qed.

(** Two entries with the same size of which one has fewer bits. *)
Lemma wf_sub e ws :
  ba_wf e -> length ws = length (ba_unacked e) -> Forall word_ok ws ->
  (forall i, 0 <= i -> member ws i = true -> member (ba_unacked e) i = true) ->
  ba_wf (mkBatchAck (ba_batch_size e) ws).
Proof.
  intros (Hl & Hw & Hb) Hlen Hok Hsub. split_and!; simpl; [congruence|done|].
  intros i [Hi Hm]. apply Hb. split; [done|]. by apply Hsub.
Qed.

Lemma clear_spec p e : ba_wf e ->
  ba_wf (ba_clear p e) /\ ba_batch_size (ba_clear p e) = ba_batch_size e
  /\ forall i, unacked_at (ba_clear p e) i <-> unacked_at e i /\ i <> p.
Proof.
  intros Hwf. pose proof Hwf as (Hl & Hw & Hb). unfold ba_clear.
  destruct ((p <? 0) || (p >=? ba_batch_size e)) eqn:Hr.
  { split_and!; try done. intros i. split; [|tauto]. intros Hu. split; [done|]. intros ->.
    pose proof (Hb _ Hu). destruct Hu as [? _]. rewrite orb_true_iff, Z.geb_leb in Hr. lia. }
  apply orb_false_iff in Hr as [Hp1 Hp2]. rewrite Z.geb_leb in Hp2.
  set (ws := alter (fun w => Z.land w (Z.lxor WORD_MASK (bit_at p))) (Z.to_nat (p / 64)) (ba_unacked e)).
  assert (Hm : forall i, 0 <= i -> member ws i = negb (i =? p) && member (ba_unacked e) i).
  { intros i Hi. apply member_clear_bit; lia. }
  split_and!.
  - apply (wf_sub e); try done.
    + unfold ws. by rewrite length_alter.
    + apply Forall_alter_ok; [|done]. intros w Hwo. apply word_ok_land; [done|].
      apply Z.lxor_nonneg. pose proof (bit_at_ok p) as [? _]. unfold WORD_MASK, u64_max. lia.
    + intros i Hi. rewrite Hm by done. by intros [_ ?]%andb_true_iff.
  - done.
  - intros i. unfold unacked_at. simpl. fold ws. split.
    + intros [Hi Hx]. rewrite Hm in Hx by done. apply andb_true_iff in Hx as [Hne Hx]. split; [done|].
      apply negb_true_iff, Z.eqb_neq in Hne. done.
    + intros [[Hi Hx] Hne]. split; [done|]. rewrite Hm, Hx by done.
      by rewrite (proj2 (Z.eqb_neq _ _)).
Qed.

Lemma clear_first_spec n e : ba_wf e ->
  ba_wf (clear_first n e) /\ ba_batch_size (clear_first n e) = ba_batch_size e
  /\ forall i, unacked_at (clear_first n e) i <-> unacked_at e i /\ Z.of_nat n <= i.
Proof.
  intros Hwf. induction n as [|n (IHw & IHs & IH)]; cbn [clear_first].
  { split_and!; try done. intros i. split; [|tauto]. intros [Hi Hm]. split; [done|lia]. }
  destruct (clear_spec (Z.of_nat n) _ IHw) as (H1 & H2 & H3). split_and!; [done|congruence|].
  intros i. rewrite H3, IH. split.
  - intros [[? ?] ?]. split; [done|lia].
  - intros [? ?]. split; [split; [done|lia]|lia].
Qed.

Lemma clear_before_spec p e : ba_wf e ->
  ba_wf (clear_before p e) /\ ba_batch_size (clear_before p e) = ba_batch_size e
  /\ forall i, unacked_at (clear_before p e) i <-> unacked_at e i /\ p <= i.
Proof.
  intros Hwf. pose proof Hwf as (_ & _ & Hb). unfold clear_before.
  destruct (clear_first_spec (Z.to_nat (Z.max (Z.min p (ba_batch_size e)) 0)) e Hwf) as (H1 & H2 & H3).
  split_and!; try done. intros i. rewrite H3. split; intros [Hu Hle]; (split; [done|]);
    pose proof (Hb i Hu); destruct Hu as [? _]; lia.
Qed.

Lemma and_words_member ws d i :
  0 <= i -> member (and_words ws d) i
  = member ws i && match d (Z.to_nat (i / 64)) with Some m => Z.testbit m (i mod 64) | None => true end.
Proof.
  intros Hi. unfold member, and_words. rewrite list_lookup_imap.
  destruct (ws !! Z.to_nat (i / 64)) as [w|]; simpl; [|done].
  rewrite Z.land_spec. destruct (d _); simpl; [done|]. by rewrite mask_testbit by apply mod64.
Qed.

Lemma and_words_ok ws d : (forall i m, d i = Some m -> 0 <= m) -> Forall word_ok ws -> Forall word_ok (and_words ws d).
Proof.
  intros Hd Hw. unfold and_words. rewrite Forall_lookup. intros i x. rewrite list_lookup_imap.
  rewrite fmap_Some. intros (w & Hl & ->). apply word_ok_land; [by eapply Forall_lookup_1|].
  destruct (d i) eqn:He; simpl; [by eapply Hd|]. unfold WORD_MASK, u64_max. lia.
Qed.

Lemma and_words_wf e d : (forall i m, d i = Some m -> 0 <= m) -> ba_wf e ->
  ba_wf (mkBatchAck (ba_batch_size e) (and_words (ba_unacked e) d)).
Proof.
  intros Hd Hwf. pose proof Hwf as (Hl & Hw & Hb). apply (wf_sub e); try done.
  - unfold and_words. by rewrite length_imap.
  - by apply and_words_ok.
  - intros i Hi. rewrite and_words_member by done. by intros [? _]%andb_true_iff.
Qed.

(** Bit [i] of a delivered bitset; a word that was not sent says nothing. *)
Definition delivered_at (ack_set : list Z) (i : Z) : Prop :=
  match ack_set !! Z.to_nat (i / 64) with
  | Some w => Z.testbit (as_unsigned 64 w) (i mod 64) = true
  | None => True
  end.

Lemma from_delivered_spec n s :
  ba_wf (from_delivered_ack_set n s)
  /\ forall i, unacked_at (from_delivered_ack_set n s) i <-> 0 <= i < n /\ delivered_at s i.
Proof.
  split.
  - apply (and_words_wf (ba_fresh n)); [|apply fresh_wf]. intros i m Hm.
    apply fmap_Some in Hm as (w & _ & ->). by destruct (word_ok_unsigned w).
  - assert (Hu : ba_unacked (from_delivered_ack_set n s)
                 = and_words (ba_unacked (ba_fresh n)) (fun i => as_unsigned 64 <$> s !! i)) by reflexivity.
    intros i. unfold unacked_at, delivered_at. rewrite Hu.
    destruct (decide (0 <= i)) as [Hi|]; [|naive_solver lia].
    rewrite and_words_member, fresh_member, andb_true_iff, Z.ltb_lt by done.
    destruct (s !! Z.to_nat (i / 64)); simpl; naive_solver lia.
Qed.

Lemma intersect_spec d e : ba_wf d -> ba_wf e ->
  ba_wf (intersect_delivered d e)
  /\ forall i, unacked_at (intersect_delivered d e) i <->
       unacked_at e i /\ (unacked_at d i \/ (length (ba_unacked d) <= Z.to_nat (i / 64))%nat).
Proof.
  intros Hd He. split.
  - apply (and_words_wf e); [|done]. intros i m Hm. destruct Hd as (_ & Hw & _).
    by destruct (Forall_lookup_1 _ _ _ _ Hw Hm).
  - assert (Hu : ba_unacked (intersect_delivered d e)
                 = and_words (ba_unacked e) (fun i => ba_unacked d !! i)) by reflexivity.
    intros i. unfold unacked_at. rewrite Hu.
    destruct (decide (0 <= i)) as [Hi|]; [|naive_solver].
    rewrite and_words_member, andb_true_iff by done. unfold member at 3.
    destruct (ba_unacked d !! Z.to_nat (i / 64)) as [w|] eqn:Hw.
    + apply lookup_lt_Some in Hw. split; [naive_solver|]. intros [[_ H1] [[_ H2]|H2]]; [done|lia].
    + apply lookup_ge_None in Hw. naive_solver.
Qed.

(** Bit [i] of a bitset in which absent words are zero. *)
Definition sent_at (ack_set : list Z) (i : Z) : Prop :=
  match ack_set !! Z.to_nat (i / 64) with
  | Some w => Z.testbit (as_unsigned 64 w) (i mod 64) = true
  | None => False
  end.

Lemma resize0_length n ws : length (resize0 n (as_unsigned 64 <$> take n ws)) = n.
Proof. unfold resize0. rewrite length_app, length_replicate, length_take, length_fmap, length_take. lia. Qed.

Lemma resize0_member n ws i :
  0 <= i -> member (resize0 n (as_unsigned 64 <$> take n ws)) i = true
  <-> (Z.to_nat (i / 64) < n)%nat /\ sent_at ws i.
Proof.
  intros Hi. unfold member, sent_at, resize0. set (k := Z.to_nat (i / 64)).
  destruct (decide (k < n)%nat) as [Hk|Hk].
  - destruct (ws !! k) as [w|] eqn:Hw.
    + assert (Hl : (take n (as_unsigned 64 <$> take n ws) ++ replicate (n - length (as_unsigned 64 <$> take n ws)) 0) !! k
                   = Some (as_unsigned 64 w)).
      { apply lookup_app_l_Some. rewrite lookup_take_lt by done.
        rewrite list_lookup_fmap, lookup_take_lt by done. by rewrite Hw. }
      rewrite Hl. tauto.
    + assert (Hl : (take n (as_unsigned 64 <$> take n ws) ++ replicate (n - length (as_unsigned 64 <$> take n ws)) 0) !! k
                   = Some 0).
      { apply lookup_ge_None in Hw.
        rewrite lookup_app_r; [|rewrite length_take, length_fmap, length_take; lia].
        apply lookup_replicate. rewrite length_take, length_fmap, length_take. split; [done|lia]. }
      rewrite Hl, Z.bits_0. naive_solver.
  - assert (Hl : (take n (as_unsigned 64 <$> take n ws) ++ replicate (n - length (as_unsigned 64 <$> take n ws)) 0) !! k
                 = None).
    { apply lookup_ge_None. rewrite length_app, length_replicate, length_take, length_fmap, length_take. lia. }
    rewrite Hl. split; [done|tauto].
Qed.

Lemma resize0_ok n ws : Forall word_ok (resize0 n (as_unsigned 64 <$> take n ws)).
Proof.
  unfold resize0. apply Forall_app. split.
  - apply Forall_take, Forall_fmap. apply Forall_true. intros w. apply word_ok_unsigned.
  - apply Forall_replicate. unfold word_ok. lia.
Qed.

(** The mask of the last, partly used word. *)
Definition mask_last (size : Z) (ws : list Z) : list Z :=
  if size mod 64 =? 0 then ws
  else alter (fun last => Z.land last (Z.shiftl 1 (size mod 64) - 1)) (length ws - 1)%nat ws.

Lemma mask_last_length size ws : length (mask_last size ws) = length ws.
Proof. unfold mask_last. case_match; [done|]. by rewrite length_alter. Qed.

Lemma mask_last_ok size ws : Forall word_ok ws -> Forall word_ok (mask_last size ws).
Proof.
  intros Hw. unfold mask_last. case_match; [done|]. apply Forall_alter_ok; [|done].
  intros w Ho. apply word_ok_land; [done|]. rewrite Z.shiftl_1_l.
  pose proof (Z.pow_pos_nonneg 2 (size mod 64) ltac:(lia) ltac:(apply mod64)). lia.
Qed.

Lemma mask_last_member size ws i :
  0 <= i -> 0 < size -> length ws = n_words size ->
  member (mask_last size ws) i = member ws i && (i <? size).
Proof.
  intros Hi Hs Hl. pose proof (mod64 i). pose proof (mod64 size).
  pose proof (Z.div_mod i 64 ltac:(lia)). pose proof (Z.div_mod size 64 ltac:(lia)).
  unfold n_words in Hl. rewrite Z.max_l in Hl by lia.
  assert (Hout : ~ (Z.to_nat (i / 64) < length ws)%nat -> member ws i = false).
  { intros Hge. unfold member. rewrite (proj2 (lookup_ge_None ws (Z.to_nat (i / 64)))); [done|lia]. }
  unfold mask_last. destruct (Z.eqb_spec (size mod 64) 0) as [Hz|Hz].
  - assert (Hw : (size + 63) / 64 = size / 64) by (symmetry; apply Z.div_unique with 63; lia).
    destruct (decide (Z.to_nat (i / 64) < length ws)%nat) as [Hlt|Hge]; [|by rewrite Hout].
    rewrite (proj2 (Z.ltb_lt _ _)); [by rewrite andb_true_r|]. rewrite Hw in Hl.
    assert (0 <= i / 64) by (apply Z.div_pos; lia). lia.
  - assert (Hw : (size + 63) / 64 = size / 64 + 1) by (symmetry; apply Z.div_unique with (size mod 64 - 1); lia).
    assert (0 <= size / 64) by (apply Z.div_pos; lia). assert (0 <= i / 64) by (apply Z.div_pos; lia).
    replace (length ws - 1)%nat with (Z.to_nat (size / 64)) by lia.
    rewrite member_alter by lia. case_decide as Hd.
    + unfold member. destruct (ws !! Z.to_nat (i / 64)) as [w|]; [|done].
      rewrite Z.land_spec. f_equal. rewrite Z.shiftl_1_l.
      replace (2 ^ (size mod 64) - 1) with (Z.ones (size mod 64)) by (rewrite Z.ones_equiv; lia).
      destruct (Z.ltb_spec i size).
      * apply Z.ones_spec_low. lia.
      * apply Z.ones_spec_high. lia.
    + destruct (decide (Z.to_nat (i / 64) < length ws)%nat) as [Hlt|Hge]; [|by rewrite Hout].
      rewrite (proj2 (Z.ltb_lt _ _)); [by rewrite andb_true_r|]. lia.
Qed.

Lemma from_ack_set_eq n s : s <> [] ->
  from_ack_set n s = mkBatchAck n (mask_last (Z.max n 0) (resize0 (n_words n) (as_unsigned 64 <$> take (n_words n) s))).
Proof. intros Hs. destruct s; [done|]. done. Qed.

Lemma from_ack_set_spec n s :
  0 <= n ->
  ba_wf (from_ack_set n s)
  /\ forall i, unacked_at (from_ack_set n s) i <-> 0 <= i < n /\ (s = [] \/ sent_at s i).
Proof.
  intros Hn. destruct (decide (s = [])) as [->|Hs].
  { split; [apply fresh_wf|]. intros i. unfold unacked_at. simpl from_ack_set. split.
    - intros [Hi Hm]. rewrite fresh_member in Hm by done. split; [lia|by left].
    - intros [Hi _]. split; [lia|]. rewrite fresh_member by lia. lia. }
  rewrite from_ack_set_eq by done. rewrite Z.max_l by lia.
  pose proof (resize0_length (n_words n) s) as Hlen.
  assert (Hm : forall i, 0 <= i ->
    member (mask_last n (resize0 (n_words n) (as_unsigned 64 <$> take (n_words n) s))) i = true
    <-> i < n /\ sent_at s i).
  { intros i Hi. destruct (decide (n = 0)) as [->|].
    - split; [|lia]. assert (Hn0 : n_words 0 = 0%nat) by reflexivity. rewrite Hn0.
      change (mask_last 0 ?ws) with ws. rewrite (resize0_member 0 s) by done. lia.
    - rewrite mask_last_member, andb_true_iff, resize0_member, Z.ltb_lt by (done || lia).
      split; [tauto|]. intros [? ?]. split_and!; try done. apply n_words_enough. lia. }
  split.
  - split_and!; simpl.
    + by rewrite mask_last_length.
    + apply mask_last_ok, resize0_ok.
    + intros i [Hi Hx]. by apply Hm in Hx as [? _].
  - intros i. unfold unacked_at. simpl. split.
    + intros [Hi Hx]. apply Hm in Hx as [? ?]; [|done]. split; [lia|by right].
    + intros [Hi [?|?]]; [done|]. split; [lia|]. apply Hm; [lia|]. split; [lia|done].
Qed.

(** [is_fully_acked] is emptiness. *)
Lemma fully_acked_spec e : ba_wf e -> is_fully_acked e = true <-> forall i, ~ unacked_at e i.
Proof.
  intros (Hl & Hw & Hb). unfold is_fully_acked. rewrite forallb_forall. split.
  - intros Hz i [Hi Hm]. unfold member in Hm. destruct (ba_unacked e !! _) as [w|] eqn:Hk; [|done].
    apply list_elem_of_lookup_2, list_elem_of_In, Hz, Z.eqb_eq in Hk as ->. by rewrite Z.bits_0 in Hm.
  - intros Hn w Hin. apply list_elem_of_In, list_elem_of_lookup in Hin as [k Hk].
    apply Z.eqb_eq. destruct (decide (w = 0)) as [|Hnz]; [done|]. exfalso.
    pose proof (Forall_lookup_1 _ _ _ _ Hw Hk) as [H0 Hlt].
    assert (Hlog : 0 <= Z.log2 w < 64) by (split; [apply Z.log2_nonneg|apply Z.log2_lt_pow2; lia]).
    assert (Hd : (64 * Z.of_nat k + Z.log2 w) / 64 = Z.of_nat k) by (symmetry; apply Z.div_unique with (Z.log2 w); lia).
    assert (Hmod : (64 * Z.of_nat k + Z.log2 w) mod 64 = Z.log2 w) by (symmetry; apply Z.mod_unique with (Z.of_nat k); lia).
    apply (Hn (64 * Z.of_nat k + Z.log2 w)). split; [lia|]. unfold member. rewrite Hd, Hmod, Nat2Z.id, Hk.
    apply Z.bit_log2. lia.
Qed.

(** ** Counting *)

Lemma member_cons_low w ws i : 0 <= i < 64 -> member (w :: ws) i = Z.testbit w i.
Proof. intros. unfold member. rewrite Z.div_small, Z.mod_small by lia. done. Qed.

Lemma member_cons_high w ws i : 0 <= i -> member (w :: ws) (64 + i) = member ws i.
Proof.
  intros Hi. unfold member.
  replace (64 + i) with (i + 1 * 64) by lia. rewrite Z.div_add, Z.mod_add by lia.
  assert (0 <= i / 64) by (apply Z.div_pos; lia).
  by rewrite Z2Nat.inj_add, (Nat.add_comm _ (Z.to_nat 1)) by lia.
Qed.

Definition positions (ws : list Z) : list Z :=
  filter (fun i => member ws i = true) (seqZ 0 (64 * Z.of_nat (length ws))).

Lemma filter_shift (P Q : Z -> Prop) `{!forall x, Decision (P x), !forall x, Decision (Q x)} d l :
  (forall x, x ∈ l -> P (d + x) <-> Q x) -> length (filter P (Z.add d <$> l)) = length (filter Q l).
Proof.
  induction l as [|x l IH]; intros Hx; [done|]. rewrite fmap_cons, !filter_cons.
  assert (IH' : length (filter P (Z.add d <$> l)) = length (filter Q l)) by (apply IH; set_solver).
  specialize (Hx x ltac:(set_solver)). destruct (decide (P (d + x))), (decide (Q x)); simpl; try tauto; by rewrite IH'.
Qed.

Lemma filter_length_iff (P Q : Z -> Prop) `{!forall x, Decision (P x), !forall x, Decision (Q x)} l :
  (forall x, x ∈ l -> P x <-> Q x) -> length (filter P l) = length (filter Q l).
Proof.
  induction l as [|x l IH]; intros Hx; [done|]. rewrite !filter_cons.
  assert (IH' : length (filter P l) = length (filter Q l)) by (apply IH; set_solver).
  specialize (Hx x ltac:(set_solver)). destruct (decide (P x)), (decide (Q x)); simpl; try tauto; by rewrite IH'.
Qed.

Lemma length_positions ws : blen (positions ws) = foldr (fun w acc => count_ones w + acc) 0 ws.
Proof.
  induction ws as [|w ws IH]; [done|]. unfold positions in *. cbn [foldr length]. rewrite <- IH.
  replace (64 * Z.of_nat (S (length ws))) with (64 + 64 * Z.of_nat (length ws)) by lia.
  rewrite seqZ_app, filter_app, blen_app by lia. refine (f_equal2 Z.add _ _).
  - unfold count_ones, blen. apply (f_equal Z.of_nat), filter_length_iff. intros x Hx.
    apply elem_of_seqZ in Hx. by rewrite member_cons_low by lia.
  - unfold blen. rewrite Z.add_comm, <- (fmap_add_seqZ 64 0). apply (f_equal Z.of_nat), filter_shift. intros x Hx.
    apply elem_of_seqZ in Hx. by rewrite member_cons_high by lia.
Qed.

Lemma count_ones_bound w : 0 <= count_ones w <= 64.
Proof.
  unfold count_ones, blen. split; [lia|].
  pose proof (length_filter (fun k => Z.testbit w k = true) (seqZ 0 64)) as Hf.
  rewrite length_seqZ in Hf. lia.
Qed.

Lemma count_fold ws : forall acc,
  0 <= acc -> acc + 64 * Z.of_nat (length ws) <= u32_max ->
  fold_left (fun count w => saturating_add u32_max count (count_ones w)) ws acc
  = acc + foldr (fun w acc => count_ones w + acc) 0 ws.
Proof.
  induction ws as [|w ws IH]; intros acc Ha Hb; cbn [fold_left foldr length] in *; [lia|].
  pose proof (count_ones_bound w). unfold saturating_add at 2. rewrite Z.min_r by lia.
  rewrite IH; lia.
Qed.

Lemma n_words_bound n : n <= i32_max -> 64 * Z.of_nat (n_words n) <= u32_max.
Proof.
  intros Hn. unfold n_words, i32_max, u32_max in *.
  assert (0 <= (Z.max n 0 + 63) / 64) by (apply Z.div_pos; lia). rewrite Z2Nat.id by lia.
  pose proof (Z.mul_div_le (Z.max n 0 + 63) 64 ltac:(lia)). lia.
Qed.

(** The entry represents the set [S] of unacked positions. *)
Definition denotes (e : BatchAckEntry) (S : Z -> Prop) : Prop :=
  ba_wf e /\ forall i, unacked_at e i <-> S i.

Lemma is_unacked_exact e p :
  ba_wf e -> ba_batch_size e <= i32_max -> is_unacked p e = true <-> unacked_at e p.
Proof.
  intros (Hl & _ & _) Hn. unfold unacked_at. destruct (Z.ltb_spec p 0) as [Hp|Hp].
  - split; [|lia]. unfold is_unacked. rewrite (proj2 (Z.ltb_lt _ _)) by done.
    rewrite lookup_ge_None_2; [done|]. rewrite Hl. pose proof (n_words_bound _ Hn).
    unfold u32_max in *. change (usize_max / 64) with (2 ^ 58 - 1). lia.
  - rewrite is_unacked_member by done. naive_solver.
Qed.

Lemma unacked_count_exact e :
  ba_wf e -> ba_batch_size e <= i32_max -> unacked_count e = blen (positions (ba_unacked e)).
Proof.
  intros (Hl & _ & _) Hn. unfold unacked_count. rewrite length_positions, count_fold; [done|lia|].
  rewrite Hl. pose proof (n_words_bound _ Hn). lia.
Qed.

Lemma flag_exact e S :
  denotes e S -> is_fully_acked e = true <-> forall i, ~ S i.
Proof. intros [Hw Hs]. rewrite fully_acked_spec by done. by setoid_rewrite Hs. Qed.

Lemma ack_position_denotes e p : ba_wf e -> denotes (ack_position p e).2 (fun i => unacked_at e i /\ i <> p).
Proof. intros Hwf. destruct (clear_spec p e Hwf) as (Hw & _ & Hc). by split. Qed.

Lemma ack_cumulative_denotes e p :
  ba_wf e -> ba_batch_size e <= i32_max -> p <= i32_max ->
  denotes (ack_cumulative p e).2 (fun i => unacked_at e i /\ p < i).
Proof.
  intros Hwf Hn Hp. unfold ack_cumulative, saturating_add. simpl.
  destruct (clear_before_spec (Z.min i32_max (p + 1)) e Hwf) as (Hw & _ & Hc). split; [done|].
  intros i. rewrite Hc. pose proof Hwf as (_ & _ & Hb). specialize (Hb i).
  split; intros [Hi ?]; (split; [done|specialize (Hb Hi); lia]).
Qed.

Lemma fresh_denotes n : 0 <= n -> denotes (ba_fresh n) (fun i => 0 <= i < n).
Proof.
  intros Hn. split; [apply fresh_wf|]. intros i. unfold unacked_at. split.
  - intros [Hi Hm]. rewrite fresh_member in Hm by done. lia.
  - intros Hi. rewrite fresh_member by lia. lia.
Qed.

Lemma seek_denotes n p s :
  0 <= n -> denotes (seek_from_ack_set n p s) (fun i => (0 <= i < n /\ (s = [] \/ sent_at s i)) /\ p <= i).
Proof.
  intros Hn. destruct (from_ack_set_spec n s Hn) as [Hw Hs].
  destruct (clear_before_spec (Z.max p 0) _ Hw) as (Hw' & _ & Hc). split; [exact Hw'|].
  intros i. unfold seek_from_ack_set. rewrite Hc, Hs. split; intros [[? ?] ?]; (split; [done|lia]).
Qed.

Lemma positions_exact e : ba_wf e -> forall i, i ∈ positions (ba_unacked e) <-> unacked_at e i.
Proof.
  intros (Hl & _ & Hb) i. unfold positions, unacked_at. rewrite list_elem_of_filter, elem_of_seqZ.
  split; [naive_solver|]. intros [Hi Hm]. split_and!; [done..|].
  unfold member in Hm. destruct (_ !! _) eqn:Hk in Hm; [|done]. apply lookup_lt_Some in Hk.
  pose proof (Z.div_mod i 64 ltac:(lia)). pose proof (mod64 i). lia.
Qed.

(** C38: the bitset implements the set of unacked positions. The
    representation invariant holds after every operation, and the represented
    set is the one the operation stands for. Fresh: all positions; from the
    wire: those sent, an absent bitset meaning all; delivered: those not
    reported acked; intersect: the common ones where both are covered; clear:
    all but one; clear-before and the seek mask: the suffix; an individual ack
    removes its position and a cumulative ack every position up to and including
    its own, at the largest [i32] too. The observers read that set:
    [is_unacked] is membership (a negative or out-of-range position reads as
    acked), [is_fully_acked] and the flags the two acks return are emptiness of
    what is left, and [unacked_count] is the number of its positions, without
    saturating. *)
Theorem bitset_refines_set (n p : Z) (s : list Z) (d e : BatchAckEntry) :
  0 <= n -> ba_wf d -> ba_wf e -> ba_batch_size e <= i32_max -> p <= i32_max ->
  denotes (ba_fresh n) (fun i => 0 <= i < n)
  /\ denotes (from_ack_set n s) (fun i => 0 <= i < n /\ (s = [] \/ sent_at s i))
  /\ denotes (from_delivered_ack_set n s) (fun i => 0 <= i < n /\ delivered_at s i)
  /\ denotes (intersect_delivered d e) (fun i =>
       unacked_at e i /\ (unacked_at d i \/ (length (ba_unacked d) <= Z.to_nat (i / 64))%nat))
  /\ denotes (ba_clear p e) (fun i => unacked_at e i /\ i <> p)
  /\ denotes (clear_before p e) (fun i => unacked_at e i /\ p <= i)
  /\ denotes (seek_from_ack_set n p s) (fun i => (0 <= i < n /\ (s = [] \/ sent_at s i)) /\ p <= i)
  /\ denotes (ack_position p e).2 (fun i => unacked_at e i /\ i <> p)
  /\ ((ack_position p e).1 = true <-> forall i, ~ (unacked_at e i /\ i <> p))
  /\ denotes (ack_cumulative p e).2 (fun i => unacked_at e i /\ p < i)
  /\ ((ack_cumulative p e).1 = true <-> forall i, ~ (unacked_at e i /\ p < i))
  /\ (is_unacked p e = true <-> unacked_at e p)
  /\ (is_fully_acked e = true <-> forall i, ~ unacked_at e i)
  /\ unacked_count e = blen (positions (ba_unacked e))
  /\ (forall i, i ∈ positions (ba_unacked e) <-> unacked_at e i).
Proof.
  intros Hn Hd He Hsz Hp. split_and!.
  - apply fresh_denotes, Hn.
  - apply (from_ack_set_spec n s Hn).
  - split; apply from_delivered_spec.
  - split; apply (intersect_spec d e Hd He).
  - by apply ack_position_denotes.
  - split; apply (clear_before_spec p e He).
  - by apply seek_denotes.
  - by apply ack_position_denotes.
  - by apply (flag_exact _ _ (ack_position_denotes e p He)).
  - by apply ack_cumulative_denotes.
  - by apply (flag_exact _ _ (ack_cumulative_denotes e p He Hsz Hp)).
  - by apply is_unacked_exact.
  - by apply fully_acked_spec.
  - by apply unacked_count_exact.
  - by apply positions_exact.
Qed.

Lemma bitset_refines_set_witness :
  let e := ba_clear 2 (ba_fresh 70) in
  (forall i, ~ (unacked_at e i /\ 69 < i)) /\ (ack_cumulative 69 e).1 = true
  /\ denotes (ack_cumulative 69 e).2 (fun i => unacked_at e i /\ 69 < i)
  /\ denotes (seek_from_ack_set 70 69 [5]) (fun i => (0 <= i < 70 /\ ([5] = [] \/ sent_at [5] i)) /\ 69 <= i).
Proof.
  intros e.
  destruct (bitset_refines_set 70 69 [5] (ba_fresh 4) e)
    as (_ & _ & _ & _ & _ & _ & Hs & _ & _ & Hc & Hf & _);
    [lia|apply fresh_wf|apply clear_spec, fresh_wf|by vm_compute|by vm_compute|].
  assert (Ht : (ack_cumulative 69 e).1 = true) by (vm_compute; reflexivity).
  split_and!; [by apply Hf|exact Ht|exact Hc|exact Hs].
Defined.

Lemma member_ext ws ws' :
  Forall word_ok ws -> Forall word_ok ws' -> length ws = length ws' ->
  (forall i, 0 <= i -> member ws i = member ws' i) -> ws = ws'.
Proof.
  intros Hw Hw' Hl Hm. apply list_eq. intros k.
  destruct (ws !! k) as [w|] eqn:Hk, (ws' !! k) as [w'|] eqn:Hk'; try done.
  - f_equal. pose proof (Forall_lookup_1 _ _ _ _ Hw Hk) as Ho. pose proof (Forall_lookup_1 _ _ _ _ Hw' Hk') as Ho'.
    apply word_ok_bits in Ho as [H0 Hb], Ho' as [H0' Hb']. apply Z.bits_inj'. intros j Hj.
    destruct (decide (j < 64)) as [Hlt|]; [|by rewrite Hb, Hb' by lia].
    specialize (Hm (64 * Z.of_nat k + j) ltac:(lia)). unfold member in Hm.
    rewrite <- (Z.div_unique (64 * Z.of_nat k + j) 64 (Z.of_nat k) j) in Hm by lia.
    rewrite <- (Z.mod_unique (64 * Z.of_nat k + j) 64 (Z.of_nat k) j) in Hm by lia.
    by rewrite Nat2Z.id, Hk, Hk' in Hm.
  - apply lookup_lt_Some in Hk. apply lookup_ge_None in Hk'. lia.
  - apply lookup_lt_Some in Hk'. apply lookup_ge_None in Hk. lia.
Qed.

(** Wire round trip: a non-empty batch entry sent as [ack_set] and read back
    is the same entry. *)
Theorem ack_set_roundtrip (e : BatchAckEntry) :
  ba_wf e -> 0 < ba_batch_size e -> from_ack_set (ba_batch_size e) (ack_set_i64 e) = e.
Proof.
  intros Hwf Hn. pose proof Hwf as (Hl & Hw & Hb).
  assert (Hpos : (0 < n_words (ba_batch_size e))%nat) by (eapply Nat.le_lt_trans; [|apply (n_words_enough _ 0)]; lia).
  assert (Hne : ack_set_i64 e <> []).
  { unfold ack_set_i64. intros He. apply fmap_nil_inv in He. rewrite He in Hl. simpl in Hl. lia. }
  destruct (from_ack_set_spec (ba_batch_size e) (ack_set_i64 e) ltac:(lia)) as ((Hl' & Hw' & _) & Hu).
  assert (Hsz : ba_batch_size (from_ack_set (ba_batch_size e) (ack_set_i64 e)) = ba_batch_size e)
    by (rewrite from_ack_set_eq by done; done).
  destruct (from_ack_set (ba_batch_size e) (ack_set_i64 e)) as [n ws]. destruct e as [n0 ws0]. simpl in *. subst n.
  f_equal. apply member_ext; try done; [congruence|]. intros i Hi. apply eq_true_iff_eq.
  specialize (Hu i). specialize (Hb i). unfold unacked_at in Hu, Hb. simpl in Hu, Hb.
  assert (Hs : sent_at (ack_set_i64 (mkBatchAck n0 ws0)) i <-> member ws0 i = true).
  { unfold sent_at, member, ack_set_i64. simpl. rewrite list_lookup_fmap.
    destruct (ws0 !! Z.to_nat (i / 64)) as [w|] eqn:Hk; simpl; [|done].
    pose proof (Forall_lookup_1 _ _ _ _ Hw Hk). by rewrite as_signed_unsigned by (lia || done). }
  rewrite Hs in Hu. naive_solver.
Qed.

Example ack_set_roundtrip_witness :
  from_ack_set 70 (ack_set_i64 (ba_clear 2 (ba_fresh 70))) = ba_clear 2 (ba_fresh 70).
Proof. apply (ack_set_roundtrip (ba_clear 2 (ba_fresh 70))); [apply clear_spec, fresh_wf|reflexivity]. Defined.
