(* ===== verification/Compress.v ===== *)
(** Payload compression: [magnetar-proto/src/compress.rs].

    The four codec crates ([lz4_flex], [flate2], [zstd], [snap]) are third-party:
    the class [Codecs] lists the entry points the module calls and [CodecLaws]
    what it relies on, that each decoder inverts its encoder when the output
    buffer is large enough.  Error payloads carry the codec's own message, which
    the model drops. *)

From S2P Require Import Prelude Ids Frame.

Definition DECOMPRESSION_VALIDATION_SLACK : Z := 1.
Definition ZSTD_MIN_WINDOW_SIZE : Z := 1024.
Definition LZ4_MAX_INFLATE_RATIO : Z := 255.

Inductive CompressionError :=
| CeLz4 | CeZlib | CeZstd | CeSnappy
| SizeMismatch (got expected : Z)
| UncompressedSizeTooLarge (got ceiling : Z).

(** Decoders take the size of the output buffer, or for the streaming readers
    the number of bytes read from the decoded stream; [None] is an error. *)
Class Codecs := {
  lz4_compress : bytes -> bytes;
  lz4_decompress : bytes -> Z -> option bytes;
  zlib_encode : bytes -> option bytes;
  zlib_read : bytes -> Z -> option bytes;
  zstd_encode_all : bytes -> option bytes;
  zstd_decompress_to_buffer : Z -> bytes -> Z -> option bytes;
  zstd_read : bytes -> Z -> option bytes;
  snap_compress : bytes -> option bytes;
  snap_decompress_len : bytes -> option Z;
  snap_decompress : bytes -> Z -> option bytes;
}.

(** The first argument of [zstd_decompress_to_buffer] is [window_log_max], which
    zstd applies to its streaming interface only: the one-shot decoder inverts
    the encoder under any value of it. *)
Class CodecLaws `{Codecs} : Prop := {
  lz4_inverse b n : blen b <= n -> lz4_decompress (lz4_compress b) n = Some b;
  zlib_inverse b c n : zlib_encode b = Some c -> blen b <= n -> zlib_read c n = Some b;
  zstd_inverse w b c n : zstd_encode_all b = Some c -> blen b <= n ->
    zstd_decompress_to_buffer w c n = Some b;
  snap_length b c : snap_compress b = Some c -> snap_decompress_len c = Some (blen b);
  snap_inverse b c n : snap_compress b = Some c -> blen b <= n -> snap_decompress c n = Some b;
}.

Section Compress.
Context `{Codecs}.

Definition compress (kind : CompressionKind) (plaintext : bytes) : result CompressionError bytes :=
  match kind with
  | CNone => Ok plaintext
  | CLz4 => Ok (lz4_compress plaintext)
  | CZlib => ok_or (zlib_encode plaintext) CeZlib
  | CZstd => ok_or (zstd_encode_all plaintext) CeZstd
  | CSnappy => ok_or (snap_compress plaintext) CeSnappy
  end.

(** [usize::BITS - window.leading_zeros() - 1] of the next power of two *)
Definition zstd_window_log (uncompressed_size : Z) : Z :=
  Z.log2_up (Z.max uncompressed_size ZSTD_MIN_WINDOW_SIZE).

Definition verify_size (buf : bytes) (expected : Z) : result CompressionError unit :=
  guard_err (negb (blen buf =? expected)) (SizeMismatch (blen buf) expected).

Definition ensure_within (got ceiling : Z) : result CompressionError unit :=
  guard_err (got >? ceiling) (UncompressedSizeTooLarge got ceiling).

Definition decompress (kind : CompressionKind) (ciphertext : bytes) (uncompressed_size : Z)
    : result CompressionError bytes :=
  guard_err (uncompressed_size >? MAX_FRAME_SIZE)
    (UncompressedSizeTooLarge uncompressed_size MAX_FRAME_SIZE) ≫= fun _ =>
  ok_or (checked_add usize_max uncompressed_size DECOMPRESSION_VALIDATION_SLACK)
    (UncompressedSizeTooLarge usize_max MAX_FRAME_SIZE) ≫= fun validation_len =>
  match kind with
  | CNone => Ok ciphertext
  | CLz4 =>
      ok_or (lz4_decompress ciphertext validation_len) CeLz4 ≫= fun out =>
      verify_size out uncompressed_size ≫= fun _ => Ok out
  | CZlib =>
      ok_or (zlib_read ciphertext validation_len) CeZlib ≫= fun out =>
      verify_size out uncompressed_size ≫= fun _ => Ok out
  | CZstd =>
      ok_or (zstd_decompress_to_buffer (zstd_window_log uncompressed_size) ciphertext validation_len)
        CeZstd ≫= fun out =>
      verify_size out uncompressed_size ≫= fun _ => Ok out
  | CSnappy =>
      ok_or (snap_decompress_len ciphertext) CeSnappy ≫= fun announced =>
      guard_err (announced >? MAX_FRAME_SIZE) (UncompressedSizeTooLarge announced MAX_FRAME_SIZE) ≫= fun _ =>
      guard_err (negb (announced =? uncompressed_size)) (SizeMismatch announced uncompressed_size) ≫= fun _ =>
      ok_or (snap_decompress ciphertext uncompressed_size) CeSnappy ≫= fun out =>
      verify_size out uncompressed_size ≫= fun _ => Ok out
  end.

Definition decompress_within (kind : CompressionKind) (ciphertext : bytes) (limit : Z)
    : result CompressionError bytes :=
  let limit := Z.min limit MAX_FRAME_SIZE in
  (match kind with
   | CNone => Ok ciphertext
   | CLz4 =>
       let capacity := Z.min limit (saturating_mul usize_max (blen ciphertext) LZ4_MAX_INFLATE_RATIO) in
       ok_or (lz4_decompress ciphertext capacity) CeLz4
   | CZlib => ok_or (zlib_read ciphertext (saturating_add usize_max limit 1)) CeZlib
   | CZstd => ok_or (zstd_read ciphertext (saturating_add usize_max limit 1)) CeZstd
   | CSnappy =>
       ok_or (snap_decompress_len ciphertext) CeSnappy ≫= fun announced =>
       ensure_within announced limit ≫= fun _ =>
       ok_or (snap_decompress ciphertext announced) CeSnappy
   end) ≫= fun out =>
  ensure_within (blen out) limit ≫= fun _ => Ok out.

Lemma verify_size_exact b : verify_size b (blen b) = Ok tt.
Proof. unfold verify_size. by rewrite Z.eqb_refl. Qed.

(** What [compress] produces, [decompress] restores when it is told the
    original length, for every codec and every payload within the frame
    ceiling. *)
Theorem decompress_compress `{!CodecLaws} kind b c :
  blen b <= MAX_FRAME_SIZE -> compress kind b = Ok c -> decompress kind c (blen b) = Ok b.
Proof.
  intros Hb Hc. pose proof (blen_nonneg b). unfold decompress, checked_add, DECOMPRESSION_VALIDATION_SLACK.
  assert (Hg : blen b >? MAX_FRAME_SIZE = false) by lia. rewrite Hg. simpl.
  rewrite (proj2 (Z.leb_le (blen b + 1) usize_max)) by (unfold usize_max, u64_max, MAX_FRAME_SIZE in *; lia).
  simpl. destruct kind; simpl in Hc.
  - by inv_ok.
  - inv_ok. rewrite lz4_inverse by lia. simpl. by rewrite verify_size_exact.
  - apply ok_or_ok_inv in Hc. rewrite (zlib_inverse b c) by (done || lia). simpl. by rewrite verify_size_exact.
  - apply ok_or_ok_inv in Hc. rewrite (zstd_inverse _ b c) by (done || lia).
    simpl. by rewrite verify_size_exact.
  - apply ok_or_ok_inv in Hc. rewrite (snap_length b c Hc). simpl. rewrite Hg. simpl.
    rewrite Z.eqb_refl. simpl. rewrite (snap_inverse b c) by (done || lia). simpl. by rewrite verify_size_exact.
Qed.

(** A decompressed payload never exceeds the frame ceiling: with a codec,
    [decompress] yields exactly the announced number of bytes, itself capped,
    and [decompress_within] at most the caller's limit, capped as well. *)
Theorem decompression_bounded kind c n b :
  (kind <> CNone -> decompress kind c n = Ok b -> blen b = n /\ n <= MAX_FRAME_SIZE)
  /\ (decompress_within kind c n = Ok b -> blen b <= n /\ blen b <= MAX_FRAME_SIZE).
Proof.
  split.
  - intros Hk Hd. unfold decompress, verify_size in Hd. inv_ok. split; [|lia].
    destruct kind; [done|..]; inv_ok; lia.
  - unfold decompress_within, ensure_within. intros Hd. apply bind_ok_inv in Hd as (out & _ & Hd). inv_ok. lia.
Qed.
End Compress.
