(* ===== verification/Producer.v ===== *)
(** The producer state machine: [magnetar-proto/src/producer.rs], and the parts
    of [conn.rs] that drive one producer (the [SendReceipt] and [SendError]
    arms, the reset snapshot, the [ProducerSuccess] replay, the drain loop and
    the send-timeout sweep).

    Not in the state: the access mode, the epoch, the close request id and the
    floating-point rate window, which no operation below reads.  The latency
    histogram (crate [hdrhistogram]), the codecs behind [compress::compress] and
    the v4 UUID of a chunked message are parameters. *)

From S2P Require Import Prelude Time Ids Txn MemoryLimit.

(** * Wire messages *)

(** The fields of [pb::MessageMetadata] that the producer passes through. *)
Record MetadataRest := mkRest {
  mr_replicated_from : option string;
  mr_replicate_to : list string;
  mr_encryption_algo : option string;
  mr_encryption_param : option bytes;
  mr_schema_version : option bytes;
  mr_partition_key_b64_encoded : option bool;
  mr_deliver_at_time : option Z;
  mr_marker_type : option Z;
  mr_compacted_batch_indexes : list Z;
  mr_schema_id : option bytes;
  mr_entry_hash_min : option Z;
  mr_entry_hash_max : option Z;
}.

Definition default_rest : MetadataRest :=
  mkRest None [] None None None None None None [] None None None.

Record EncryptionKeys := mkEncryptionKeys {
  ek_key : string; ek_value : bytes; ek_metadata : list (string * string) }.

(** [pb::MessageMetadata]; [properties] are [KeyValue]s. *)
Record MessageMetadata := mkMetadata {
  md_producer_name : string;
  md_sequence_id : Z;
  md_publish_time : Z;
  md_properties : list (string * string);
  md_partition_key : option string;
  md_compression : option Z;
  md_uncompressed_size : option Z;
  md_num_messages_in_batch : option Z;
  md_event_time : option Z;
  md_encryption_keys : list EncryptionKeys;
  md_ordering_key : option bytes;
  md_txnid_least_bits : option Z;
  md_txnid_most_bits : option Z;
  md_highest_sequence_id : option Z;
  md_null_value : option bool;
  md_uuid : option string;
  md_num_chunks_from_msg : option Z;
  md_total_chunk_msg_size : option Z;
  md_chunk_id : option Z;
  md_null_partition_key : option bool;
  md_rest : MetadataRest;
}.

#[global] Instance Metadata_eta : Eta MessageMetadata := fun m =>
  mkMetadata (md_producer_name m) (md_sequence_id m) (md_publish_time m) (md_properties m)
    (md_partition_key m) (md_compression m) (md_uncompressed_size m)
    (md_num_messages_in_batch m) (md_event_time m) (md_encryption_keys m) (md_ordering_key m)
    (md_txnid_least_bits m) (md_txnid_most_bits m) (md_highest_sequence_id m)
    (md_null_value m) (md_uuid m) (md_num_chunks_from_msg m) (md_total_chunk_msg_size m)
    (md_chunk_id m) (md_null_partition_key m) (md_rest m).

Definition default_metadata : MessageMetadata :=
  mkMetadata EmptyString 0 0 [] None None None None None [] None None None None None None None None
    None None default_rest.

(** [pb::SingleMessageMetadata] *)
Record SingleMessageMetadata := mkSingle {
  sm_properties : list (string * string);
  sm_partition_key : option string;
  sm_payload_size : Z;
  sm_compacted_out : option bool;
  sm_event_time : option Z;
  sm_partition_key_b64_encoded : option bool;
  sm_ordering_key : option bytes;
  sm_sequence_id : option Z;
  sm_null_value : option bool;
  sm_null_partition_key : option bool;
}.

(** [pb::CommandSend]; a frame's command is the [BaseCommand] of type [Send]
    whose only body it is. *)
Record CommandSend := mkSend {
  cs_producer_id : Z;
  cs_sequence_id : Z;
  cs_num_messages : option Z;
  cs_txnid_least_bits : option Z;
  cs_txnid_most_bits : option Z;
  cs_highest_sequence_id : option Z;
  cs_is_chunk : option bool;
  cs_marker : option bool;
  cs_message_id : option MessageIdData;
}.

Record CommandSendReceipt := mkReceipt {
  sr_producer_id : Z;
  sr_sequence_id : Z;
  sr_message_id : option MessageIdData;
  sr_highest_sequence_id : option Z;
}.

#[global] Instance Receipt_eta : Eta CommandSendReceipt := fun r =>
  mkReceipt (sr_producer_id r) (sr_sequence_id r) (sr_message_id r) (sr_highest_sequence_id r).

Record CommandSendError := mkSendError {
  se_producer_id : Z;
  se_sequence_id : Z;
  se_error : Z;
  se_message : string;
}.

(** * Data of the state machine *)

Record OutgoingMessage := mkOutgoing {
  om_payload : bytes;
  om_metadata : MessageMetadata;
  om_uncompressed_size : Z;
  om_num_messages : Z;
  om_txn_id : option TxnId;
  om_source_message_id : option MessageId;
}.

#[global] Instance Outgoing_eta : Eta OutgoingMessage := fun m =>
  mkOutgoing (om_payload m) (om_metadata m) (om_uncompressed_size m) (om_num_messages m)
    (om_txn_id m) (om_source_message_id m).

Inductive SendDecision :=
| Emit (count : Z)
| Batched.

Record OutboundFrame := mkFrame {
  of_command : CommandSend;
  of_metadata : MessageMetadata;
  of_payload : bytes;
  of_sequence_id : Z;
}.

Record OpSend := mkOp {
  op_sequence_id : Z;
  op_num_messages : Z;
  op_waker : option waker;
  op_receipt : option MessageId;
  op_error : option (Z * string);
  op_enqueued_at : Z;
  op_replay_frames : list OutboundFrame;
  op_reservation : MemoryReservation;
}.

#[global] Instance Op_eta : Eta OpSend := fun o =>
  mkOp (op_sequence_id o) (op_num_messages o) (op_waker o) (op_receipt o) (op_error o)
    (op_enqueued_at o) (op_replay_frames o) (op_reservation o).

Definition reserved_bytes (o : OpSend) : Z := mr_bytes (op_reservation o).

Inductive ProducerError :=
| MessageTooLarge (size max_message_size : Z)
| Closed
| SendRejected (reason : string).

Record BatchContainer := mkBatch {
  messages : list (SingleMessageMetadata * bytes);
  current_size_bytes : Z;
  lowest_sequence_id : option Z;
  highest_sequence_id : option Z;
  first_added_at : option Z;
  batch_txn_id : option TxnId;
}.

#[global] Instance Batch_eta : Eta BatchContainer := fun b =>
  mkBatch (messages b) (current_size_bytes b) (lowest_sequence_id b) (highest_sequence_id b)
    (first_added_at b) (batch_txn_id b).

Definition default_batch : BatchContainer := mkBatch [] 0 None None None None.

Definition batch_is_empty (b : BatchContainer) : bool :=
  match messages b with [] => true | _ => false end.

Definition batch_len (b : BatchContainer) : Z := blen (messages b).

(** [clear] resets every field. *)
Definition batch_clear (b : BatchContainer) : BatchContainer :=
  b <| messages := [] |> <| current_size_bytes := 0 |> <| lowest_sequence_id := None |>
    <| highest_sequence_id := None |> <| first_added_at := None |> <| batch_txn_id := None |>.

Definition matches_txn (b : BatchContainer) (incoming : option TxnId) : bool :=
  batch_is_empty b || bool_decide (batch_txn_id b = incoming).

Definition already_encoded (md : MessageMetadata) : bool :=
  negb (match md_encryption_keys md with [] => true | _ => false end)
  || match md_compression md with
     | Some codec => negb (codec =? compression_to_pb CNone)
     | None => false
     end.

(** [ChunkedMessageContext::compute_total_chunks], with [usize::div_ceil]. *)
Definition compute_total_chunks (payload_len max_chunk_size : Z) : Z :=
  if max_chunk_size =? 0 then 1
  else
    let n := Z.max 1 ((payload_len + max_chunk_size - 1) / max_chunk_size) in
    default i32_max (try_from_max i32_max n).

Definition CHUNK_METADATA_RESERVATION : Z := 1024.

Section State.
(** [hdrhistogram::Histogram<u64>] *)
Context {Hist : Type}.

Record ProducerState := mkProducer {
  handle : Z;
  topic : string;
  name : option string;
  compression : CompressionKind;
  max_message_size : Z;
  max_batch_size_bytes : Z;
  max_messages_in_batch : Z;
  batching_enabled : bool;
  chunking_enabled : bool;
  next_sequence_id : Z;
  last_sequence_id_pushed : Z;
  last_sequence_id_published : Z;
  pending : list OpSend;
  pending_index : gmap Z nat;
  batch : BatchContainer;
  outbound : list OutboundFrame;
  closed : bool;
  broker_ready : bool;
  has_ever_attached : bool;
  open_request_id : option Z;
  transient_open_attempts : Z;
  last_open_error : option (Z * string);
  total_msgs_sent : Z;
  total_bytes_sent : Z;
  total_send_failed : Z;
  total_acks_received : Z;
  send_timeout : option Z;
  batching_max_publish_delay : option Z;
  send_latency_hist : option Hist;
}.

#[global] Instance Producer_eta : Eta ProducerState := fun p =>
  mkProducer (handle p) (topic p) (name p) (compression p) (max_message_size p)
    (max_batch_size_bytes p) (max_messages_in_batch p) (batching_enabled p)
    (chunking_enabled p) (next_sequence_id p) (last_sequence_id_pushed p)
    (last_sequence_id_published p) (pending p) (pending_index p) (batch p) (outbound p)
    (closed p) (broker_ready p) (has_ever_attached p) (open_request_id p)
    (transient_open_attempts p) (last_open_error p) (total_msgs_sent p) (total_bytes_sent p)
    (total_send_failed p) (total_acks_received p) (send_timeout p)
    (batching_max_publish_delay p) (send_latency_hist p).

Definition ProducerState_new (h : Z) (t : string) (c : CompressionKind) (max : Z)
    (hist : option Hist) : ProducerState :=
  mkProducer h t None c max (128 * 1024) 1000 false false 0 (-1) (-1) [] ∅ default_batch []
    false false false None 0 None 0 0 0 0 None None hist.
End State.
Arguments ProducerState : clear implicits.

(** * Operations *)

Section Operations.
Context {Hist : Type}.
(** [Histogram::saturating_record] *)
Variable hist_record : Hist -> Z -> Hist.
(** [compress::compress], [None] for its [Err] *)
Variable compress : CompressionKind -> bytes -> option bytes.
Context `{!ProtoMessage SingleMessageMetadata}.

Implicit Types p : ProducerState Hist.

Definition set_initial_sequence_id (next : Z) p : ProducerState Hist :=
  let p := p <| next_sequence_id := next |> in
  if next >? 0 then
    let published := Z.max (- 2 ^ 63) (as_signed 64 next - 1) in
    p <| last_sequence_id_published := published |> <| last_sequence_id_pushed := published |>
  else p.

Definition next_send_deadline p : option Z :=
  timeout ← send_timeout p;
  op ← head (pending p);
  Some (deadline_with_clamp (op_enqueued_at op) timeout).

(** The [while let Some(op) = self.pending.front()] loop: the ops removed, the
    queue and the index it leaves. *)
Fixpoint drain_expired (now timeout : Z) (ops : list OpSend) (index : gmap Z nat)
    : list OpSend * list OpSend * gmap Z nat :=
  match ops with
  | [] => ([], [], index)
  | op :: rest =>
      if now <? deadline_with_clamp (op_enqueued_at op) timeout then ([], ops, index)
      else
        let '(out, kept, index) := drain_expired now timeout rest (delete (op_sequence_id op) index) in
        (op :: out, kept, index)
  end.

Definition drain_timed_out_sends (now : Z) p : list OpSend * ProducerState Hist :=
  match send_timeout p with
  | None => ([], p)
  | Some timeout =>
      let '(out, kept, index) := drain_expired now timeout (pending p) (pending_index p) in
      (out, p <| pending := kept |> <| pending_index := index |>)
  end.

Definition can_add_to_batch (payload_size num_messages : Z) p : bool :=
  if negb (batching_enabled p) || closed p then false
  else if saturating_add usize_max (batch_len (batch p)) (Z.max num_messages 1)
            >? max_messages_in_batch p then false
  else if saturating_add usize_max (current_size_bytes (batch p)) payload_size
            >? max_batch_size_bytes p then false
  else true.

(** [if let Some(name) = &self.name { if metadata.producer_name.is_empty() .. }] *)
Definition stamp_name (p_name : option string) (md : MessageMetadata) : MessageMetadata :=
  match p_name with
  | Some n =>
      if bool_decide (md_producer_name md = EmptyString) then md <| md_producer_name := n |> else md
  | None => md
  end.

Definition assign_sequence_id (md : MessageMetadata) (publish_time_ms : Z) p
    : Z * MessageMetadata * ProducerState Hist :=
  let seq := next_sequence_id p in
  (seq,
   stamp_name (name p) ((md <| md_sequence_id := seq |>) <| md_publish_time := publish_time_ms |>),
   (p <| next_sequence_id := wrapping_add 64 (next_sequence_id p) 1 |>)
      <| last_sequence_id_pushed := as_signed 64 seq |>).

Definition stamp_txn (t : option TxnId) (md : MessageMetadata) : MessageMetadata :=
  match t with
  | Some t =>
      (md <| md_txnid_least_bits := Some (least_sig_bits t) |>)
         <| md_txnid_most_bits := Some (most_sig_bits t) |>
  | None => md
  end.

(** [self.pending_index.insert(seq, self.pending.len()); self.pending.push_back(op)] *)
Definition push_pending (op : OpSend) p : ProducerState Hist :=
  (p <| pending_index ::= <[op_sequence_id op := length (pending p)]> |>)
     <| pending ::= fun l => l ++ [op] |>.

Definition count_sent (msgs payload_len : Z) p : ProducerState Hist :=
  (p <| total_msgs_sent ::= fun t => saturating_add u64_max t msgs |>)
     <| total_bytes_sent ::= fun t => saturating_add u64_max t payload_len |>.

Definition new_op (seq num_messages now : Z) (frames : list OutboundFrame)
    (reservation : MemoryReservation) : OpSend :=
  mkOp seq num_messages None None None now frames reservation.

Definition emit_single (msg : OutgoingMessage) (reservation : MemoryReservation)
    (publish_time_ms now : Z) p : SendDecision * ProducerState Hist :=
  let md := (om_metadata msg) <| md_num_chunks_from_msg := None |> <| md_chunk_id := None |>
              <| md_total_chunk_msg_size := None |> <| md_uuid := None |> in
  let md := if om_uncompressed_size msg >? 0
            then md <| md_uncompressed_size := Some (om_uncompressed_size msg) |> else md in
  let md := stamp_txn (om_txn_id msg) md in
  let '(seq, md, p) := assign_sequence_id md publish_time_ms p in
  let num_messages := Z.max (om_num_messages msg) 1 in
  let send :=
    {| cs_producer_id := handle p;
       cs_sequence_id := seq;
       cs_num_messages := Some num_messages;
       cs_txnid_least_bits := least_sig_bits <$> om_txn_id msg;
       cs_txnid_most_bits := most_sig_bits <$> om_txn_id msg;
       cs_highest_sequence_id := None;
       cs_is_chunk := None;
       cs_marker := None;
       cs_message_id := mid_to_pb <$> om_source_message_id msg |} in
  let p := count_sent num_messages (blen (om_payload msg)) p in
  let frame := mkFrame send md (om_payload msg) seq in
  let p := p <| outbound ::= fun l => l ++ [frame] |> in
  (Emit 1, push_pending (new_op seq num_messages now [frame] reservation) p).

(** The [SingleMessageMetadata] of a batched message. *)
Definition single_metadata (md : MessageMetadata) (payload : bytes) : SingleMessageMetadata :=
  {| sm_properties := md_properties md;
     sm_partition_key := md_partition_key md;
     sm_payload_size := default i32_max (try_from_max i32_max (blen payload));
     sm_compacted_out := None;
     sm_event_time := md_event_time md;
     sm_partition_key_b64_encoded := None;
     sm_ordering_key := md_ordering_key md;
     sm_sequence_id := None;
     sm_null_value := md_null_value md;
     sm_null_partition_key := md_null_partition_key md |}.

Definition add_to_batch (msg : OutgoingMessage) (reservation : MemoryReservation) (now : Z) p
    : SendDecision * ProducerState Hist :=
  let payload := om_payload msg in
  let b := batch p in
  let msg_seq := next_sequence_id p in
  let b' :=
    {| messages := messages b ++ [(single_metadata (om_metadata msg) payload, payload)];
       current_size_bytes := saturating_add usize_max (current_size_bytes b) (blen payload);
       lowest_sequence_id :=
         match lowest_sequence_id b with None => Some (next_sequence_id p) | Some l => Some l end;
       highest_sequence_id := Some msg_seq;
       first_added_at := match first_added_at b with None => Some now | Some t => Some t end;
       batch_txn_id := if batch_is_empty b then om_txn_id msg else batch_txn_id b |} in
  let p := p <| batch := b' |> in
  let p := p <| next_sequence_id := wrapping_add 64 msg_seq 1 |> in
  let p := p <| last_sequence_id_pushed := as_signed 64 msg_seq |> in
  (Batched, push_pending (new_op msg_seq 1 now [] reservation) p).

Definition next_batch_deadline p : option Z :=
  max_delay ← batching_max_publish_delay p;
  first ← first_added_at (batch p);
  Some (deadline_with_clamp first max_delay).

Definition batch_deadline_elapsed (now : Z) p : bool :=
  match next_batch_deadline p with Some d => now >=? d | None => false end.

(** [[u32 BE single_meta_size][SingleMessageMetadata][payload]] per member *)
Definition pack_member (m : SingleMessageMetadata * bytes) : bytes :=
  be_bytes 4 (encoded_len m.1) ++ pb_encode m.1 ++ m.2.

Definition pack_batch (ms : list (SingleMessageMetadata * bytes)) : bytes :=
  concat (pack_member <$> ms).

(** The frame [flush_batch] builds from a non-empty batch. *)
Definition batch_frame (publish_time_ms : Z) p : OutboundFrame :=
  let b := batch p in
  let num_messages := as_signed 32 (batch_len b) in
  let concatenated := pack_batch (messages b) in
  let compressed :=
    if bool_decide (compression p = CNone) then None else compress (compression p) concatenated in
  let '(payload, codec, payload_total) :=
    match compressed with
    | Some body => (body, compression p, blen concatenated)
    | None => (concatenated, CNone, current_size_bytes b)
    end in
  let lowest := default (next_sequence_id p) (lowest_sequence_id b) in
  let highest :=
    default (as_unsigned 64 (Z.max (last_sequence_id_pushed p) 0)) (highest_sequence_id b) in
  let md := default_metadata <| md_num_messages_in_batch := Some num_messages |> in
  let md := match name p with Some n => md <| md_producer_name := n |> | None => md end in
  let md := stamp_txn (batch_txn_id b) md in
  let md := (md <| md_sequence_id := lowest |>) <| md_publish_time := publish_time_ms |> in
  let md := if highest >? lowest then md <| md_highest_sequence_id := Some highest |> else md in
  let md := if bool_decide (codec = CNone) then md
            else md <| md_compression := Some (compression_to_pb codec) |> in
  let md := match try_from_max u32_max payload_total with
            | Some t => md <| md_uncompressed_size := Some t |>
            | None => md
            end in
  let send :=
    {| cs_producer_id := handle p;
       cs_sequence_id := lowest;
       cs_num_messages := Some num_messages;
       cs_txnid_least_bits := least_sig_bits <$> batch_txn_id b;
       cs_txnid_most_bits := most_sig_bits <$> batch_txn_id b;
       cs_highest_sequence_id := md_highest_sequence_id md;
       cs_is_chunk := None;
       cs_marker := None;
       cs_message_id := None |} in
  mkFrame send md payload lowest.

Definition flush_batch (publish_time_ms : Z) p : Z * ProducerState Hist :=
  if batch_is_empty (batch p) || closed p then (0, p)
  else
    let frame := batch_frame publish_time_ms p in
    let num_messages := as_signed 32 (batch_len (batch p)) in
    let p := p <| outbound ::= fun l => l ++ [frame] |> in
    let p := count_sent (as_unsigned 64 num_messages) (blen (of_payload frame)) p in
    (1, p <| batch ::= batch_clear |>).

Definition flush_batch_if_full (publish_time_ms : Z) p : ProducerState Hist :=
  if batch_is_empty (batch p) then p
  else
    let count_reached := batch_len (batch p) >=? max_messages_in_batch p in
    let size_reached := current_size_bytes (batch p) >=? max_batch_size_bytes p in
    if count_reached || size_reached then snd (flush_batch publish_time_ms p) else p.

Definition max_chunk_payload p : Z :=
  if max_message_size p >? CHUNK_METADATA_RESERVATION * 4
  then max_message_size p - CHUNK_METADATA_RESERVATION
  else max_message_size p.

(** The frame of chunk [chunk_idx]; [md] is the context's metadata. *)
Definition chunk_frame (h seq : Z) (msg : OutgoingMessage) (md : MessageMetadata)
    (max_chunk_size chunk_idx : Z) : OutboundFrame :=
  let start := chunk_idx * max_chunk_size in
  let end_ := Z.min ((chunk_idx + 1) * max_chunk_size) (blen (om_payload msg)) in
  let send :=
    {| cs_producer_id := h;
       cs_sequence_id := seq;
       cs_num_messages := Some 1;
       cs_txnid_least_bits := least_sig_bits <$> om_txn_id msg;
       cs_txnid_most_bits := most_sig_bits <$> om_txn_id msg;
       cs_highest_sequence_id := None;
       cs_is_chunk := Some true;
       cs_marker := None;
       cs_message_id := mid_to_pb <$> om_source_message_id msg |} in
  mkFrame send (md <| md_chunk_id := Some chunk_idx |>)
    (btake (end_ - start) (bdrop start (om_payload msg))) seq.

(** One iteration of the chunk loop: push the frame, count it. *)
Definition push_chunk p (f : OutboundFrame) : ProducerState Hist :=
  count_sent 1 (blen (of_payload f)) (p <| outbound ::= fun l => l ++ [f] |>).

Definition emit_chunked (uuid : string) (msg : OutgoingMessage) (reservation : MemoryReservation)
    (publish_time_ms now : Z) p : SendDecision * ProducerState Hist :=
  let max_chunk := max_chunk_payload p in
  let total_chunks := compute_total_chunks (blen (om_payload msg)) max_chunk in
  let seq := next_sequence_id p in
  let md := ((om_metadata msg) <| md_sequence_id := seq |>) <| md_publish_time := publish_time_ms |> in
  let md := stamp_name (name p) md in
  let md := md <| md_uncompressed_size := Some (om_uncompressed_size msg) |>
               <| md_uuid := Some uuid |>
               <| md_num_chunks_from_msg := Some total_chunks |>
               <| md_total_chunk_msg_size := Some (as_signed 32 (blen (om_payload msg))) |> in
  let md := stamp_txn (om_txn_id msg) md in
  let p := p <| next_sequence_id := wrapping_add 64 seq 1 |>
             <| last_sequence_id_pushed := as_signed 64 seq |> in
  let frames := chunk_frame (handle p) seq msg md max_chunk <$> seqZ 0 total_chunks in
  let p := foldl push_chunk p frames in
  (Emit (blen frames), push_pending (new_op seq 1 now frames reservation) p).

Definition compress_unbatched (msg : OutgoingMessage) p : OutgoingMessage :=
  if bool_decide (compression p = CNone) || already_encoded (om_metadata msg) then msg
  else
    match compress (compression p) (om_payload msg) with
    | Some body =>
        let len := blen (om_payload msg) in
        let msg := msg <| om_uncompressed_size := default u32_max (try_from_max u32_max len) |> in
        let msg := msg <| om_payload := body |> in
        msg <| om_metadata ::=
          fun md => md <| md_compression := Some (compression_to_pb (compression p)) |> |>
    | None => msg
    end.

(** The result, the caller's reservation afterwards, and the state. *)
Definition queue_send_reserved (uuid : string) (msg : OutgoingMessage)
    (reservation : MemoryReservation) (publish_time_ms now : Z) p
    : result ProducerError SendDecision * MemoryReservation * ProducerState Hist :=
  if closed p then (Err Closed, reservation, p)
  else
    let payload_size := blen (om_payload msg) in
    let p :=
      if batching_enabled p && negb (batch_is_empty (batch p))
         && negb (matches_txn (batch p) (om_txn_id msg))
      then snd (flush_batch publish_time_ms p) else p in
    let batchable :=
      negb (bool_decide (is_Some (om_source_message_id msg)))
      && negb (already_encoded (om_metadata msg)) in
    let can_batch := batchable && can_add_to_batch payload_size (om_num_messages msg) p in
    let '(can_batch, p) :=
      if negb can_batch && negb (batch_is_empty (batch p)) then
        let p := snd (flush_batch publish_time_ms p) in
        (batchable && can_add_to_batch payload_size (om_num_messages msg) p, p)
      else (can_batch, p) in
    let msg := if can_batch then msg else compress_unbatched msg p in
    let payload_size := blen (om_payload msg) in
    if payload_size >? max_message_size p then
      if negb (chunking_enabled p) then
        (Err (MessageTooLarge payload_size (max_message_size p)), reservation, p)
      else if can_batch then
        let '(decision, p) := add_to_batch msg reservation now p in
        (Ok decision, empty_reservation, flush_batch_if_full publish_time_ms p)
      else
        let '(decision, p) := emit_chunked uuid msg reservation publish_time_ms now p in
        (Ok decision, empty_reservation, p)
    else if can_batch then
      let '(decision, p) := add_to_batch msg reservation now p in
      (Ok decision, empty_reservation, flush_batch_if_full publish_time_ms p)
    else
      let '(decision, p) := emit_single msg reservation publish_time_ms now p in
      (Ok decision, empty_reservation, p).

Definition queue_send (uuid : string) (msg : OutgoingMessage) (publish_time_ms now : Z) p
    : result ProducerError SendDecision * ProducerState Hist :=
  let '(r, _, p) := queue_send_reserved uuid msg empty_reservation publish_time_ms now p in
  (r, p).

(** [last_sequence_id_pushed.max(0) as u64]: the id [ProducerSlot] returns. *)
Definition pushed_sequence_id p : Z := as_unsigned 64 (Z.max (last_sequence_id_pushed p) 0).

(** [ProducerSlot::queue_send_reserved]: the result ([None] for the protocol
    error), the reservation it drops, and the state. *)
Definition slot_queue_send_reserved (uuid : string) (msg : OutgoingMessage)
    (reservation : MemoryReservation) (publish_time_ms now : Z) p
    : option Z * MemoryReservation * ProducerState Hist :=
  let '(r, reservation, p) := queue_send_reserved uuid msg reservation publish_time_ms now p in
  (match r with Ok _ => Some (pushed_sequence_id p) | Err _ => None end, reservation, p).

Definition next_outbound_frame p : option OutboundFrame * ProducerState Hist :=
  match outbound p with
  | [] => (None, p)
  | f :: rest => (Some f, p <| outbound := rest |>)
  end.

Definition shift_pending_index_left (removed_position : nat) p : ProducerState Hist :=
  p <| pending_index ::=
    fmap (fun v => if decide (removed_position < v)%nat then Nat.pred v else v) |>.

Definition unknown_message_id : MessageId := mkMessageId 0 0 (-1) (-1) 0.

Definition record_latency (now : Z) (op : OpSend) (h : Hist) : Hist :=
  let millis := saturating_duration_since now (op_enqueued_at op) / 1000000 in
  hist_record h (default u64_max (try_from_max u64_max millis)).

Definition apply_receipt (receipt : CommandSendReceipt) (now : Z) p
    : option (OpSend * MessageId) * ProducerState Hist :=
  let seq := sr_sequence_id receipt in
  match pending_index p !! seq with
  | None => (None, p)
  | Some _ =>
      let p := p <| pending_index ::= delete seq |> in
      match list_find (fun op => op_sequence_id op = seq) (pending p) with
      | None => (None, p)
      | Some (position, op) =>
          let p := p <| pending ::= delete position |> in
          let mid := default unknown_message_id (mid_from_pb <$> sr_message_id receipt) in
          let p := p <| last_sequence_id_published := as_signed 64 seq |> in
          let p := p <| send_latency_hist ::= fmap (record_latency now op) |> in
          let op := op <| op_receipt := Some mid |> in
          (Some (op, mid), shift_pending_index_left position p)
      end
  end.

Definition apply_send_error (err : CommandSendError) p
    : option (OpSend * Z * string) * ProducerState Hist :=
  let seq := se_sequence_id err in
  match pending_index p !! seq with
  | None => (None, p)
  | Some _ =>
      let p := p <| pending_index ::= delete seq |> in
      match list_find (fun op => op_sequence_id op = seq) (pending p) with
      | None => (None, p)
      | Some (position, op) =>
          let p := p <| pending ::= delete position |> in
          (Some (op, se_error err, se_message err), shift_pending_index_left position p)
      end
  end.

(** The op [self.pending_index.get(&seq)] leads to, if any, gets the waker. *)
Definition set_waker (sequence_id : Z) (w : option waker) p : bool * ProducerState Hist :=
  match pending_index p !! sequence_id with
  | Some idx =>
      match pending p !! idx with
      | Some op => (true, p <| pending ::= <[idx := op <| op_waker := w |>]> |>)
      | None => (false, p)
      end
  | None => (false, p)
  end.

Definition register_waker (sequence_id : Z) (w : waker) p : bool * ProducerState Hist :=
  set_waker sequence_id (Some w) p.

Definition clear_waker (sequence_id : Z) p : ProducerState Hist :=
  snd (set_waker sequence_id None p).

Definition drain_pending_sends p : list OpSend * ProducerState Hist :=
  (pending p,
   p <| pending_index ::= fun m => foldl (fun m op => delete (op_sequence_id op) m) m (pending p) |>
     <| pending := [] |> <| batch := default_batch |> <| outbound := [] |>).

(** The [while let Some(mut op) = self.pending.pop_front()] loop of
    [snapshot_pending_sends]. *)
Fixpoint snapshot_loop (ops : list OpSend) p
    : list (Z * option waker) * list OpSend * list OpSend * ProducerState Hist :=
  match ops with
  | [] => ([], [], [], p)
  | op :: rest =>
      let p := p <| pending_index ::= delete (op_sequence_id op) |> in
      match op_replay_frames op with
      | [] =>
          let p := p <| total_send_failed ::= fun t => saturating_add u64_max t 1 |> in
          let '(wakers, dropped, snapshots, p) := snapshot_loop rest p in
          (wakers, op :: dropped, snapshots, p)
      | _ =>
          let '(wakers, dropped, snapshots, p) := snapshot_loop rest p in
          ((op_sequence_id op, op_waker op) :: wakers, dropped,
           (op <| op_waker := None |>) :: snapshots, p)
      end
  end.

Definition snapshot_pending_sends p
    : list (Z * option waker) * list OpSend * list OpSend * ProducerState Hist :=
  let p := p <| broker_ready := false |> in
  let '(wakers, dropped, snapshots, p) := snapshot_loop (pending p) p in
  (wakers, dropped, snapshots,
   (p <| pending := [] |> <| batch := default_batch |>) <| outbound := [] |>).

(** [for (i, op) in self.pending.iter().enumerate()], from an empty map *)
Fixpoint reindex (i : nat) (ops : list OpSend) (m : gmap Z nat) : gmap Z nat :=
  match ops with
  | [] => m
  | op :: rest => reindex (S i) rest (<[op_sequence_id op := i]> m)
  end.

Definition replay_snapshots (snapshots : list OpSend) p : ProducerState Hist :=
  let p := p <| outbound ::=
    fun o => foldr (fun s o => foldr cons o (op_replay_frames s)) o snapshots |> in
  let p := p <| pending ::= fun l => foldr cons l snapshots |> in
  p <| pending_index := reindex 0 (pending p) ∅ |>.

(** The frames [replay_pending_outbound] stages again. *)
Definition unstaged_frames p : list OutboundFrame :=
  let staged : gset Z := list_to_set (of_sequence_id <$> outbound p) in
  concat (op_replay_frames <$> filter (fun op => op_sequence_id op ∉ staged) (pending p)).

Definition replay_pending_outbound p : ProducerState Hist :=
  p <| outbound ::= fun o => foldr cons o (unstaged_frames p) |>.

Definition close p : ProducerState Hist := p <| closed := true |>.

(** ** What the connection runs under the slot lock *)

(** [for seq in lowest..=highest] of the [SendReceipt] arm. *)
Fixpoint receipt_loop (receipt : CommandSendReceipt) (now : Z) (seqs : list Z) p
    : list (OpSend * MessageId) * ProducerState Hist :=
  match seqs with
  | [] => ([], p)
  | seq :: rest =>
      let synth := (receipt <| sr_sequence_id := seq |>) <| sr_highest_sequence_id := None |> in
      let '(r, p) := apply_receipt synth now p in
      let '(resolved, p) := receipt_loop receipt now rest p in
      (match r with Some t => t :: resolved | None => resolved end, p)
  end.

Definition receipt_highest (receipt : CommandSendReceipt) : Z :=
  let lowest := sr_sequence_id receipt in
  let highest_raw := default 0 (sr_highest_sequence_id receipt) in
  if (highest_raw >=? lowest) && negb (highest_raw =? u64_max) then highest_raw else lowest.

Definition on_send_receipt (receipt : CommandSendReceipt) (now : Z) p
    : list (OpSend * MessageId) * ProducerState Hist :=
  let lowest := sr_sequence_id receipt in
  let '(resolved, p) :=
    receipt_loop receipt now (seqZ lowest (receipt_highest receipt - lowest + 1)) p in
  let count := blen resolved in
  (resolved,
   if count >? 0 then p <| total_acks_received ::= fun t => saturating_add u64_max t count |>
   else p).

Definition on_send_error (err : CommandSendError) p
    : option (OpSend * Z * string) * ProducerState Hist :=
  let '(outcome, p) := apply_send_error err p in
  (outcome,
   if bool_decide (is_Some outcome)
   then p <| total_send_failed ::= fun t => saturating_add u64_max t 1 |> else p).

(** The slot part of the [ProducerSuccess] arm for the current open request:
    [snapshots] is what [in_flight_publish_snapshots] held for the handle. *)
Definition on_producer_success (producer_name : string) (last_sequence_id : option Z)
    (snapshots : option (list OpSend)) p : ProducerState Hist :=
  let p := p <| open_request_id := None |> <| name := Some producer_name |>
             <| last_sequence_id_published := default (-1) last_sequence_id |> in
  let p := replay_pending_outbound p in
  let p := match snapshots with Some s => replay_snapshots s p | None => p end in
  p <| broker_ready := true |> <| has_ever_attached := true |>
    <| transient_open_attempts := 0 |> <| last_open_error := None |>.

(** The drain loop of [drain_producer_outbound] for one slot; [outbound] is
    finite, so its length is enough fuel. *)
Fixpoint drain_loop (fuel : nat) p : list OutboundFrame * ProducerState Hist :=
  match fuel with
  | O => ([], p)
  | S fuel =>
      if broker_ready p then
        match next_outbound_frame p with
        | (None, p) => ([], p)
        | (Some f, p) => let '(fs, p) := drain_loop fuel p in (f :: fs, p)
        end
      else ([], p)
  end.

Definition drain_slot p : list OutboundFrame * ProducerState Hist :=
  drain_loop (S (length (outbound p))) p.

(** The send-timeout sweep of [handle_timeout]. *)
Definition sweep_timeouts (now : Z) p : list OpSend * ProducerState Hist :=
  let '(out, p) := drain_timed_out_sends now p in
  (out, p <| total_send_failed ::=
     fun t => foldl (fun t _ => saturating_add u64_max t 1) t out |>).

(** The sweep of the publishes [reset] moved to [in_flight_publish_snapshots]:
    first the elapsed front entries are collected, then each is removed if it
    is still the first of the bucket. *)
Fixpoint elapsed_front (now timeout : Z) (ops : list OpSend) : list Z :=
  match ops with
  | [] => []
  | op :: rest =>
      if now <? deadline_with_clamp (op_enqueued_at op) timeout then []
      else op_sequence_id op :: elapsed_front now timeout rest
  end.

Fixpoint remove_elapsed (seqs : list Z) (bucket : list OpSend) p
    : list OpSend * list OpSend * ProducerState Hist :=
  match seqs with
  | [] => ([], bucket, p)
  | seq :: seqs =>
      match bucket with
      | op :: rest =>
          if op_sequence_id op =? seq then
            let p := p <| total_send_failed ::= fun t => saturating_add u64_max t 1 |> in
            let '(out, bucket, p) := remove_elapsed seqs rest p in
            (op :: out, bucket, p)
          else remove_elapsed seqs bucket p
      | [] => remove_elapsed seqs [] p
      end
  end.

Definition sweep_snapshots (now : Z) (bucket : list OpSend) p
    : list OpSend * list OpSend * ProducerState Hist :=
  match send_timeout p with
  | None => ([], bucket, p)
  | Some timeout => remove_elapsed (elapsed_front now timeout bucket) bucket p
  end.
End Operations.
