(* ===== verification/ProducerSpec.v ===== *)
(** What the producer state machine of [Producer] guarantees: the sequence-id
    order of everything it queues and replays, the pending index, the receipt
    fan-out, the chunking of large payloads, and the conservation of memory
    reservations.

    [event] lists every way the connection drives a producer; [exec] runs one
    and [reachable] closes a fresh producer under them. *)

From S2P Require Import Prelude Time Ids Txn MemoryLimit Producer.

Arguments queue_send_reserved : simpl never.
Arguments flush_batch : simpl never.
Arguments batch_frame : simpl never.
Arguments compress_unbatched : simpl never.
Arguments chunk_frame : simpl never.

Section Spec.
Context {Hist : Type}.
Variable hist_record : Hist -> Z -> Hist.
Variable compress : CompressionKind -> bytes -> option bytes.
Context `{!ProtoMessage SingleMessageMetadata}.

Implicit Types p : ProducerState Hist.

(** ** The shape of a send

    Whatever the configuration, a send flushes the batch or not, then fails,
    joins the batch, or is emitted on its own with the batch empty. *)
Definition flushes (pt : Z) : relation (ProducerState Hist) :=
  rtc (fun a b => b = snd (flush_batch compress pt a)).

Inductive send_shape (uuid : string) (msg : OutgoingMessage) (res : MemoryReservation)
    (pt now : Z) p
    : result ProducerError SendDecision -> MemoryReservation -> ProducerState Hist -> Prop :=
| shape_rejected e p' :
    flushes pt p p' -> send_shape uuid msg res pt now p (Err e) res p'
| shape_batched p1 p2 :
    flushes pt p p1 -> closed p1 = false ->
    p2 = snd (add_to_batch msg res now p1) ->
    send_shape uuid msg res pt now p (Ok Batched) empty_reservation
      (flush_batch_if_full compress pt p2)
| shape_chunked p1 msg' :
    flushes pt p p1 -> closed p1 = false -> batch_is_empty (batch p1) = true ->
    msg' = compress_unbatched compress msg p1 ->
    max_message_size p1 < blen (om_payload msg') ->
    send_shape uuid msg res pt now p
      (Ok (fst (emit_chunked uuid msg' res pt now p1))) empty_reservation
      (snd (emit_chunked uuid msg' res pt now p1))
| shape_single p1 msg' :
    flushes pt p p1 -> closed p1 = false -> batch_is_empty (batch p1) = true ->
    msg' = compress_unbatched compress msg p1 ->
    send_shape uuid msg res pt now p
      (Ok (Emit 1)) empty_reservation (snd (emit_single msg' res pt now p1)).

Lemma flush_batch_closed pt p : closed (snd (flush_batch compress pt p)) = closed p.
Proof. unfold flush_batch. by case_match. Qed.

Lemma flush_batch_empties pt p :
  closed p = false -> batch_is_empty (batch (snd (flush_batch compress pt p))) = true.
Proof.
  intros Hc. unfold flush_batch. rewrite Hc, orb_false_r.
  by destruct (batch_is_empty (batch p)) eqn:Hb.
Qed.

Lemma queue_send_shape uuid msg res pt now p r res' p' :
  queue_send_reserved compress uuid msg res pt now p = (r, res', p') ->
  send_shape uuid msg res pt now p r res' p'.
Proof.
  unfold queue_send_reserved. destruct (closed p) eqn:Hc.
  { intros [= <- <- <-]. apply shape_rejected, rtc_refl. }
  cbv zeta.
  match goal with |- context [if ?c then snd (flush_batch compress pt p) else p] =>
    set (p0 := if c then snd (flush_batch compress pt p) else p) end.
  assert (H0 : flushes pt p p0 /\ closed p0 = false).
  { subst p0. case_match; [|by split; [apply rtc_refl|]].
    split; [by apply rtc_once|]. by rewrite flush_batch_closed. }
  clearbody p0. destruct H0 as [H0 Hc0].
  set (batchable := negb (bool_decide _) && _). clearbody batchable.
  match goal with |- context [let '(_, _) := ?e in _] => set (q := e) end.
  assert (H1 : flushes pt p q.2 /\ closed q.2 = false
               /\ (q.1 = false -> batch_is_empty (batch q.2) = true)).
  { subst q. destruct (_ && can_add_to_batch _ _ p0) eqn:Hcan; simpl.
    { by split_and!. }
    destruct (batch_is_empty (batch p0)) eqn:Hb; simpl; [by split_and!|].
    rewrite flush_batch_closed, flush_batch_empties by done.
    split_and!; try done. by eapply rtc_r. }
  clearbody q. destruct q as [can p1]; simpl in H1. destruct H1 as (H1 & Hc1 & Hempty).
  destruct can.
  - destruct (blen (om_payload msg) >? max_message_size p1), (chunking_enabled p1); simpl;
      intros [= <- <- <-]; first [by eapply shape_batched | by apply shape_rejected].
  - specialize (Hempty eq_refl). set (msg' := compress_unbatched compress msg p1).
    destruct (blen (om_payload msg') >? max_message_size p1) eqn:Hsz.
    + destruct (chunking_enabled p1); simpl.
      * destruct (emit_chunked uuid msg' res pt now p1) as [d p2] eqn:He.
        intros [= <- <- <-]. replace d with (fst (emit_chunked uuid msg' res pt now p1)) by by rewrite He.
        replace p2 with (snd (emit_chunked uuid msg' res pt now p1)) by by rewrite He.
        eapply shape_chunked; try done. lia.
      * intros [= <- <- <-]. by apply shape_rejected.
    + intros [= <- <- <-]. by eapply shape_single.
Qed.

(** ** Order

    The order invariant reads a pending send as its sequence id and the frames
    kept for its replay. *)
Definition core (op : OpSend) : Z * list OutboundFrame := (op_sequence_id op, op_replay_frames op).

Abbreviation framed := (fun c : Z * list OutboundFrame => c.2 <> []).

Record ordered (next bound : Z) (b : BatchContainer) (snaps pend : list (Z * list OutboundFrame))
    (wire out : list OutboundFrame) : Prop := mkOrdered {
  o_bound : bound = next - blen (messages b);
  o_pending : StronglySorted Z.lt (fst <$> snaps ++ pend);
  o_range : Forall (fun c => c.1 < next) (snaps ++ pend);
  o_replay : Forall (fun c => Forall (fun f => of_sequence_id f = c.1) c.2) (snaps ++ pend);
  o_framed : Forall (fun c => framed c -> c.1 < bound) (snaps ++ pend);
  o_wire : StronglySorted Z.le (of_sequence_id <$> wire ++ out);
  o_frames : Forall (fun f => of_sequence_id f < bound) (wire ++ out);
  o_snaps : Forall (fun c => c.1 < bound /\ Forall (fun f => c.1 < of_sequence_id f) out) snaps;
  o_staged : Forall (fun c => framed c ->
    c.1 ∈ of_sequence_id <$> out \/ Forall (fun f => c.1 < of_sequence_id f) out) pend;
  o_batch : lowest_sequence_id b = (if batch_is_empty b then None else Some bound)
            /\ (batch_is_empty b = false -> highest_sequence_id b = Some (next - 1));
}.

(** Sends leave the queue or the snapshots in any order. *)
Lemma ordered_remove next bd b snaps pend wire out snaps' pend' :
  ordered next bd b snaps pend wire out -> sublist snaps' snaps -> sublist pend' pend ->
  ordered next bd b snaps' pend' wire out.
Proof.
  intros [] Hs Hp. assert (Ha : sublist (snaps' ++ pend') (snaps ++ pend)) by by apply sublist_app.
  split; try done; try by eapply Forall_sublist.
  eapply sorted_sublist; [|done]. by apply fmap_sublist.
Qed.

(** A drained prefix of the queue moves to the wire. *)
Lemma ordered_drain next bd b snaps pend wire out f :
  ordered next bd b snaps pend wire (f :: out) -> ordered next bd b snaps pend (wire ++ [f]) out.
Proof.
  intros []. split; rewrite <- ?app_assoc; simpl; try done.
  - eapply Forall_impl; [done|]. intros c [? Hc]. by apply Forall_cons in Hc as [??].
  - eapply Forall_impl; [done|]. simpl. intros c Hc Hf. destruct (Hc Hf) as [Hin|Hlt].
    + apply elem_of_cons in Hin as [Heq|Hin]; [|by left].
      rewrite fmap_app, fmap_cons in o_wire0.
      destruct (decide (c.1 ∈ of_sequence_id <$> out)) as [|Hn]; [by left|right].
      apply Forall_forall. intros g Hg.
      apply StronglySorted_app in o_wire0 as (_ & _ & [_ Hle]%StronglySorted_inv).
      rewrite Forall_fmap, Forall_forall in Hle. specialize (Hle g Hg). simpl in Hle.
      assert (of_sequence_id g <> c.1); [|lia].
      intros Heq'. apply Hn. rewrite <- Heq'. by apply list_elem_of_fmap_2.
    + right. by apply Forall_cons in Hlt as [??].
Qed.

(** A message joins the batch: it takes the next id, the frames before it keep theirs. *)
Lemma ordered_batch next bd b b' snaps pend wire out :
  ordered next bd b snaps pend wire out ->
  blen (messages b') = blen (messages b) + 1 ->
  lowest_sequence_id b' = (match lowest_sequence_id b with None => Some next | Some l => Some l end) ->
  highest_sequence_id b' = Some next ->
  ordered (next + 1) bd b' snaps (pend ++ [(next, [])]) wire out.
Proof.
  intros [] Hlen Hlow Hhigh. split; rewrite ?app_assoc; try done.
  - lia.
  - rewrite fmap_app. apply sorted_snoc; [done|]. by rewrite Forall_fmap.
  - rewrite Forall_app, Forall_singleton. simpl. split; [|lia].
    eapply Forall_impl; [exact o_range0|]. simpl. lia.
  - rewrite Forall_app, Forall_singleton. by split.
  - rewrite Forall_app, Forall_singleton. by split.
  - rewrite Forall_app, Forall_singleton. by split.
  - assert (Hne : batch_is_empty b' = false).
    { unfold batch_is_empty. unfold blen in Hlen. destruct (messages b'); [simpl in *; lia|done]. }
    rewrite Hne, Hlow, Hhigh. destruct o_batch0 as [-> _]. split; [|intros _; f_equal; lia].
    unfold batch_is_empty. destruct (messages b) eqn:Hm; [|done].
    rewrite blen_nil in *. f_equal. lia.
Qed.

(** The batch becomes one frame under its lowest id. *)
Lemma ordered_flush next bd b snaps pend wire out f :
  ordered next bd b snaps pend wire out -> batch_is_empty b = false ->
  of_sequence_id f = bd ->
  ordered next next (batch_clear b) snaps pend wire (out ++ [f]).
Proof.
  intros [] Hb Hf.
  assert (Hlt : bd < next).
  { unfold batch_is_empty in Hb. destruct (messages b) eqn:?; [done|].
    rewrite blen_cons in *. pose proof (blen_nonneg l). lia. }
  split; rewrite ?app_assoc; try done.
  - unfold blen. simpl. lia.
  - eapply Forall_impl; [exact o_framed0|]. simpl. intros c Hc Hc2. specialize (Hc Hc2). lia.
  - rewrite fmap_app. apply sorted_snoc; [done|].
    rewrite Forall_fmap. eapply Forall_impl; [exact o_frames0|]. simpl. lia.
  - rewrite Forall_app, Forall_singleton. split; [|lia].
    eapply Forall_impl; [exact o_frames0|]. simpl. lia.
  - eapply Forall_impl; [exact o_snaps0|]. simpl. intros c [??].
    rewrite Forall_app, Forall_singleton. split_and!; [lia|done|lia].
  - apply Forall_app in o_framed0 as [_ Hfr].
    rewrite Forall_forall in Hfr, o_staged0. rewrite Forall_forall. intros c Hin Hc.
    pose proof (Hfr c Hin) as Hc1. pose proof (o_staged0 c Hin) as Hc2. rewrite fmap_app, Forall_app, Forall_singleton, elem_of_app.
    specialize (Hc1 Hc). destruct (Hc2 Hc); [by left; left|right]. split; [done|lia].
Qed.

(** A message emitted on its own, the batch being empty. *)
Lemma ordered_emit next b snaps pend wire out fs :
  ordered next next b snaps pend wire out -> batch_is_empty b = true -> fs <> [] ->
  Forall (fun f => of_sequence_id f = next) fs ->
  ordered (next + 1) (next + 1) b snaps (pend ++ [(next, fs)]) wire (out ++ fs).
Proof.
  intros [] Hb Hne Hfs.
  assert (Hm : messages b = []) by (unfold batch_is_empty in Hb; by destruct (messages b)).
  rewrite Hm in *. rewrite blen_nil in *. rewrite Forall_forall in Hfs.
  split; rewrite ?app_assoc.
  - rewrite Hm, blen_nil. lia.
  - rewrite fmap_app. apply sorted_snoc; [done|]. by rewrite Forall_fmap.
  - rewrite Forall_app, Forall_singleton. simpl. split; [|lia].
    eapply Forall_impl; [exact o_range0|]. simpl. lia.
  - rewrite Forall_app, Forall_singleton. split; [done|]. simpl. by rewrite Forall_forall.
  - rewrite Forall_app, Forall_singleton. simpl. split; [|lia].
    eapply Forall_impl; [exact o_framed0|]. simpl. intros c Hc Hc2. specialize (Hc Hc2). lia.
  - rewrite fmap_app. apply StronglySorted_app. split_and!; [|done|].
    + intros x y (f & -> & Hf)%list_elem_of_fmap (g & -> & Hg)%list_elem_of_fmap.
      rewrite (Hfs g Hg). rewrite Forall_forall in o_frames0. specialize (o_frames0 f Hf). simpl in *. lia.
    + clear -Hfs. induction fs as [|f fs IH]; simpl; constructor.
      * apply IH. intros g Hg. apply Hfs. by right.
      * rewrite Forall_fmap, Forall_forall. intros g Hg. simpl.
        rewrite (Hfs f), (Hfs g); [done|by right|by left].
  - rewrite Forall_app, Forall_forall, (Forall_forall _ fs). split.
    + intros f Hf. rewrite Forall_forall in o_frames0. specialize (o_frames0 f Hf). simpl in *. lia.
    + intros f Hf. rewrite (Hfs f Hf). lia.
  - eapply Forall_impl; [exact o_snaps0|]. simpl. intros c [??]. rewrite Forall_app. split_and!; [lia|done|].
    rewrite Forall_forall. intros f Hf. rewrite (Hfs f Hf). lia.
  - rewrite Forall_app, Forall_singleton. simpl. split.
    + apply Forall_app in o_range0 as [_ Hra].
      rewrite Forall_forall in Hra, o_staged0. rewrite Forall_forall. intros c Hin Hc.
      pose proof (Hra c Hin) as Hc1. pose proof (o_staged0 c Hin) as Hc2. simpl in Hc1. rewrite fmap_app, Forall_app, elem_of_app.
      destruct (Hc2 Hc); [by left; left|right]. split; [done|].
      rewrite Forall_forall. intros f Hf. rewrite (Hfs f Hf). lia.
    + intros _. left. rewrite fmap_app, elem_of_app. right.
      destruct fs as [|f fs]; [done|]. rewrite fmap_cons, (Hfs f) by by left. by left.
  - rewrite Hb in *. by split; [apply o_batch0|].
Qed.

(** Frames kept for replay are sorted when the sends are. *)
Definition kept_frames (l : list (Z * list OutboundFrame)) : list OutboundFrame := concat (snd <$> l).

Abbreviation replayable l :=
  (Forall (fun c : Z * list OutboundFrame => Forall (fun f => of_sequence_id f = c.1) c.2) l).

Lemma kept_frames_elem l f :
  replayable l -> f ∈ kept_frames l -> exists c, c ∈ l /\ c.2 <> [] /\ of_sequence_id f = c.1.
Proof.
  rewrite Forall_forall. unfold kept_frames. intros Hl.
  rewrite list_elem_of_In, in_concat. intros (fs & Hfs & Hf).
  apply list_elem_of_In, list_elem_of_fmap in Hfs as (c & -> & Hc). apply list_elem_of_In in Hf.
  exists c. split_and!; [done|by destruct c.2; [apply not_elem_of_nil in Hf|]|].
  specialize (Hl c Hc). rewrite Forall_forall in Hl. auto.
Qed.

Lemma kept_frames_sorted l :
  replayable l -> StronglySorted Z.lt (fst <$> l) ->
  StronglySorted Z.le (of_sequence_id <$> kept_frames l).
Proof.
  intros Hr Hs. induction l as [|c l IH]; [constructor|].
  apply StronglySorted_inv in Hs as [Hs Hc]. apply Forall_cons in Hr as [Hr1 Hr].
  unfold kept_frames. rewrite fmap_cons. simpl. rewrite fmap_app. apply StronglySorted_app_2.
  - intros x y (f & -> & Hf)%list_elem_of_fmap (g & -> & Hg)%list_elem_of_fmap.
    apply kept_frames_elem in Hg as (d & Hd & _ & ->); [|done].
    rewrite Forall_forall in Hr1. rewrite (Hr1 f Hf).
    rewrite Forall_forall in Hc. specialize (Hc d.1 (list_elem_of_fmap_2 fst _ _ Hd)). lia.
  - clear -Hr1. induction Hr1 as [|f fs Hf Hfs IH]; simpl; constructor; [done|].
    rewrite Forall_fmap. eapply Forall_impl; [done|]. simpl. lia.
  - auto.
Qed.

Lemma kept_frames_staged l c :
  c ∈ l -> replayable l -> c.2 <> [] -> c.1 ∈ of_sequence_id <$> kept_frames l.
Proof.
  intros Hc Hr Hne. rewrite Forall_forall in Hr. specialize (Hr c Hc).
  destruct c as [q [|f fs]]; [done|]. simpl in *. apply Forall_cons in Hr as [<- _].
  apply list_elem_of_fmap_2. unfold kept_frames. rewrite list_elem_of_In, in_concat.
  exists (f :: fs). split; [|by left]. apply list_elem_of_In.
  by apply (list_elem_of_fmap_2 snd) in Hc.
Qed.

(** A re-attachment replays the snapshots, then the pending sends that are no
    longer staged, ahead of what is staged. *)
Lemma ordered_attach next bd b snaps pend wire out :
  ordered next bd b snaps pend wire out ->
  ordered next bd b [] (snaps ++ pend) []
    (kept_frames snaps ++ kept_frames (filter (fun c => c.1 ∉ of_sequence_id <$> out) pend) ++ out).
Proof.
  intros []. set (un := filter _ pend).
  assert (Hun : sublist un pend) by apply sublist_filter.
  pose proof o_replay0 as [Hrs Hrp]%Forall_app.
  assert (Hru : replayable un) by by eapply Forall_sublist.
  rewrite fmap_app in o_pending0.
  pose proof o_pending0 as (Hsp & Hss & Hpp)%StronglySorted_app.
  rewrite Forall_forall in o_snaps0, o_staged0, o_framed0.
  assert (Hun_out : forall f g, f ∈ kept_frames un -> g ∈ out -> of_sequence_id f < of_sequence_id g).
  { intros f g Hf Hg. apply kept_frames_elem in Hf as (c & Hc & Hne & ->); [|done].
    apply list_elem_of_filter in Hc as [Hn Hc]. destruct (o_staged0 c Hc Hne) as [|Hlt]; [done|].
    rewrite Forall_forall in Hlt. auto. }
  assert (Hsn : forall f g, f ∈ kept_frames snaps -> g ∈ kept_frames un ++ out ->
            of_sequence_id f < of_sequence_id g).
  { intros f g Hf Hg. apply kept_frames_elem in Hf as (c & Hc & Hne & ->); [|done].
    apply elem_of_app in Hg as [Hg|Hg].
    - apply kept_frames_elem in Hg as (d & Hd & _ & ->); [|done].
      apply Hsp; apply list_elem_of_fmap_2; [done|]. eapply elem_of_submseteq; [done|].
      by apply sublist_submseteq.
    - destruct (o_snaps0 c Hc) as [_ Hlt]. rewrite Forall_forall in Hlt. auto. }
  split; simpl; try done.
  - by rewrite fmap_app.
  - rewrite Forall_forall. auto.
  - rewrite fmap_app. apply StronglySorted_app_2; [..|rewrite fmap_app; apply StronglySorted_app_2].
    + intros x y (f & -> & Hf)%list_elem_of_fmap (g & -> & Hg)%list_elem_of_fmap.
      specialize (Hsn f g Hf Hg). lia.
    + by apply kept_frames_sorted.
    + intros x y (f & -> & Hf)%list_elem_of_fmap (g & -> & Hg)%list_elem_of_fmap.
      specialize (Hun_out f g Hf Hg). lia.
    + apply kept_frames_sorted; [done|]. eapply sorted_sublist; [by apply fmap_sublist|done].
    + rewrite fmap_app in o_wire0. by apply StronglySorted_app in o_wire0 as (_ & _ & ?).
  - apply Forall_app in o_frames0 as [_ ?]. rewrite !Forall_app. split_and!; [..|done];
      rewrite Forall_forall; intros f Hf; apply kept_frames_elem in Hf as (c & Hc & Hne & ->); try done;
      (apply o_framed0; [|done]); apply elem_of_app; [by left|right].
    eapply elem_of_submseteq; [done|]. by apply sublist_submseteq.
  - rewrite Forall_forall. intros c Hc Hne. left. rewrite !fmap_app, !elem_of_app.
    apply elem_of_app in Hc as [Hc|Hc]; [left; by apply kept_frames_staged|right].
    destruct (decide (c.1 ∈ of_sequence_id <$> out)) as [|Hn]; [by right|left].
    apply kept_frames_staged; try done. by apply list_elem_of_filter.
Qed.

(** A session reset keeps the sends with frames and empties the queues. *)
Lemma ordered_reset next bd b snaps pend wire out :
  ordered next bd b snaps pend wire out ->
  ordered next next default_batch (snaps ++ filter framed pend) [] wire [].
Proof.
  intros [].
  assert (Hs : sublist ((snaps ++ filter framed pend) ++ []) (snaps ++ pend)).
  { rewrite app_nil_r. apply sublist_app; [done|]. apply sublist_filter. }
  assert (bd <= next) by (pose proof (blen_nonneg (messages b)); lia).
  split; try done; try by eapply Forall_sublist.
  - unfold blen. simpl. lia.
  - eapply sorted_sublist; [by apply fmap_sublist|done].
  - eapply Forall_sublist; [exact Hs|]. eapply Forall_impl; [exact o_framed0|].
    simpl. intros c Hc ?. specialize (Hc ltac:(done)). lia.
  - rewrite app_nil_r. rewrite fmap_app in o_wire0. by apply StronglySorted_app in o_wire0 as (_ & ? & _).
  - rewrite app_nil_r. apply Forall_app in o_frames0 as [Hw _].
    eapply Forall_impl; [exact Hw|]. simpl. lia.
  - apply Forall_app. split.
    + eapply Forall_impl; [exact o_snaps0|]. simpl. intros c [? _]. split; [lia|constructor].
    + apply Forall_app in o_framed0 as [_ Hf]. rewrite Forall_forall in Hf. rewrite Forall_forall.
      intros c [Hne Hc]%list_elem_of_filter. specialize (Hf c Hc Hne). split; [lia|constructor].
Qed.

(** ** One producer of a connection

    The slot's state, the publishes [reset] moved to
    [in_flight_publish_snapshots], and the frames put on the wire since the
    last [ProducerSuccess]. *)
Record slot := mkSlot {
  sl_state : ProducerState Hist;
  sl_snapshots : list OpSend;
  sl_wire : list OutboundFrame;
}.

#[global] Instance slot_eta : Eta slot := fun s => mkSlot (sl_state s) (sl_snapshots s) (sl_wire s).

Inductive event :=
| EvSend (uuid : string) (msg : OutgoingMessage) (reservation : MemoryReservation) (pt now : Z)
| EvFlush (pt : Z)
| EvReceipt (receipt : CommandSendReceipt) (now : Z)
| EvSendError (err : CommandSendError)
| EvRegisterWaker (sequence_id : Z) (w : waker)
| EvClearWaker (sequence_id : Z)
| EvDrain
| EvReset
| EvDetach
| EvAttach (producer_name : string) (last_sequence_id : option Z)
| EvSweep (now : Z)
| EvSweepSnapshots (now : Z)
| EvClose
| EvTerminate.

(** [in_flight_publish_snapshots] has no entry for a handle without snapshots. *)
Definition bucket (l : list OpSend) : option (list OpSend) :=
  match l with [] => None | _ => Some l end.

(** The reservations an event drops, and the slot after it. *)
Definition exec (e : event) (s : slot) : list MemoryReservation * slot :=
  let p := sl_state s in
  match e with
  | EvSend uuid msg res pt now =>
      let '(_, res, p) := slot_queue_send_reserved compress uuid msg res pt now p in
      ([res], s <| sl_state := p |>)
  | EvFlush pt => ([], s <| sl_state := snd (flush_batch compress pt p) |>)
  | EvReceipt receipt now =>
      let '(resolved, p) := on_send_receipt hist_record receipt now p in
      ((fun t => op_reservation t.1) <$> resolved, s <| sl_state := p |>)
  | EvSendError err =>
      let '(outcome, p) := on_send_error err p in
      (match outcome with Some (op, _, _) => [op_reservation op] | None => [] end,
       s <| sl_state := p |>)
  | EvRegisterWaker seq w => ([], s <| sl_state := snd (register_waker seq w p) |>)
  | EvClearWaker seq => ([], s <| sl_state := clear_waker seq p |>)
  | EvDrain =>
      let '(frames, p) := drain_slot p in
      ([], (s <| sl_state := p |>) <| sl_wire ::= fun w => w ++ frames |>)
  | EvReset =>
      let '(_, dropped, snapshots, p) := snapshot_pending_sends p in
      (op_reservation <$> dropped,
       (s <| sl_state := p |>) <| sl_snapshots ::= fun l => l ++ snapshots |>)
  | EvDetach => ([], s <| sl_state := p <| broker_ready := false |> |>)
  | EvAttach n last =>
      ([], mkSlot (on_producer_success n last
                     (bucket (sl_snapshots s)) p) [] [])
  | EvSweep now =>
      let '(out, p) := sweep_timeouts now p in
      (op_reservation <$> out, s <| sl_state := p |>)
  | EvSweepSnapshots now =>
      let '(out, rest, p) := sweep_snapshots now (sl_snapshots s) p in
      (op_reservation <$> out, (s <| sl_state := p |>) <| sl_snapshots := rest |>)
  | EvClose => ([], s <| sl_state := close p |>)
  | EvTerminate =>
      let '(out, p) := drain_pending_sends p in
      (op_reservation <$> (out ++ sl_snapshots s), (s <| sl_state := p |>) <| sl_snapshots := [] |>)
  end.

(** A producer that has queued nothing; its configuration and first sequence
    id are arbitrary. *)
Definition fresh p : Prop :=
  pending p = [] /\ pending_index p = ∅ /\ batch p = default_batch /\ outbound p = []
  /\ 0 <= next_sequence_id p <= u64_max.

(** Sequence ids do not wrap: [2^64] sends are out of reach. *)
Definition enabled (e : event) (s : slot) : Prop :=
  match e with EvSend _ _ _ _ _ => next_sequence_id (sl_state s) < u64_max | _ => True end.

Inductive reachable (ok : event -> Prop) : slot -> Prop :=
| reachable_fresh p : fresh p -> reachable ok (mkSlot p [] [])
| reachable_step s e : reachable ok s -> ok e -> enabled e s -> reachable ok (snd (exec e s)).

Definition inv (s : slot) : Prop :=
  let p := sl_state s in
  0 <= next_sequence_id p <= u64_max
  /\ ordered (next_sequence_id p) (next_sequence_id p - blen (messages (batch p))) (batch p)
       (core <$> sl_snapshots s) (core <$> pending p) (sl_wire s) (outbound p).

Lemma ordered_bound next bd bd' b snaps pend wire out :
  ordered next bd b snaps pend wire out -> next - blen (messages b) = bd' ->
  ordered next bd' b snaps pend wire out.
Proof. intros Ho <-. by rewrite <- (o_bound _ _ _ _ _ _ _ Ho). Qed.

Lemma batch_frame_seq pt p :
  of_sequence_id (batch_frame compress pt p) = default (next_sequence_id p) (lowest_sequence_id (batch p)).
Proof.
  unfold batch_frame. cbv zeta.
  match goal with |- context [let '(_, _) := ?e in _] => by destruct e as [[??]?] end.
Qed.

Lemma inv_flush snaps wire pt p :
  inv (mkSlot p snaps wire) -> inv (mkSlot (snd (flush_batch compress pt p)) snaps wire).
Proof.
  intros [Hn Ho]. unfold flush_batch. destruct (batch_is_empty (batch p)) eqn:Hb; [done|].
  destruct (closed p); simpl; [done|].
  split; [done|]. simpl in *. eapply ordered_bound; [eapply ordered_flush; [done..|]|done]. rewrite batch_frame_seq. destruct Ho. simpl in *.
  rewrite Hb in o_batch0. by destruct o_batch0 as [-> _].
Qed.

Lemma inv_flushes snaps wire pt p p' :
  flushes pt p p' -> inv (mkSlot p snaps wire) -> inv (mkSlot p' snaps wire).
Proof. induction 1 as [|? ? ? -> ? IH]; eauto using inv_flush. Qed.

Lemma flush_batch_next pt p : next_sequence_id (snd (flush_batch compress pt p)) = next_sequence_id p.
Proof. unfold flush_batch. by case_match. Qed.

Lemma flushes_next pt p p' : flushes pt p p' -> next_sequence_id p' = next_sequence_id p.
Proof. induction 1 as [|? ? ? -> ? IH]; [done|]. by rewrite IH, flush_batch_next. Qed.

Lemma inv_flush_if_full snaps wire pt p :
  inv (mkSlot p snaps wire) -> inv (mkSlot (flush_batch_if_full compress pt p) snaps wire).
Proof. intros. unfold flush_batch_if_full. repeat case_match; eauto using inv_flush. Qed.

Lemma wrapping_succ n : 0 <= n < u64_max -> wrapping_add 64 n 1 = n + 1.
Proof. unfold wrapping_add, u64_max. intros. apply Z.mod_small. lia. Qed.

Lemma inv_add_to_batch snaps wire msg res now p :
  next_sequence_id p < u64_max -> inv (mkSlot p snaps wire) ->
  inv (mkSlot (snd (add_to_batch msg res now p)) snaps wire).
Proof.
  intros Hlt [Hn Ho]. simpl in *. split; simpl; rewrite wrapping_succ by lia; [lia|].
  rewrite fmap_app. eapply ordered_bound; [eapply ordered_batch; [exact Ho|simpl; rewrite blen_app|..]|]; done.
Qed.

Lemma inv_emit_single snaps wire msg res pt now p :
  next_sequence_id p < u64_max -> batch_is_empty (batch p) = true -> inv (mkSlot p snaps wire) ->
  inv (mkSlot (snd (emit_single msg res pt now p)) snaps wire).
Proof.
  intros Hlt Hb [Hn Ho]. simpl in *. split; simpl; rewrite wrapping_succ by lia; [lia|].
  rewrite fmap_app. eapply ordered_bound; [eapply ordered_emit; [|done..|by repeat constructor]|done].
  unfold batch_is_empty in Hb. destruct (messages (batch p)); [|done].
  by rewrite blen_nil, Z.sub_0_r in Ho.
Qed.

Lemma push_chunks_fields fs p :
  let p' := foldl push_chunk p fs in
  outbound p' = outbound p ++ fs /\ pending p' = pending p /\ pending_index p' = pending_index p
  /\ batch p' = batch p /\ next_sequence_id p' = next_sequence_id p
  /\ last_sequence_id_pushed p' = last_sequence_id_pushed p.
Proof.
  revert p. induction fs as [|f fs IH]; intros p; simpl; [by rewrite app_nil_r|].
  destruct (IH (push_chunk p f)) as (-> & -> & -> & -> & -> & ->). simpl.
  by rewrite <- app_assoc.
Qed.

Lemma compute_total_chunks_pos len m : 1 <= compute_total_chunks len m <= i32_max.
Proof.
  unfold compute_total_chunks, try_from_max. case_match; [unfold i32_max; lia|].
  case_match; simpl; [|unfold i32_max; lia]. lia.
Qed.

Lemma inv_emit_chunked snaps wire uuid msg res pt now p :
  next_sequence_id p < u64_max -> batch_is_empty (batch p) = true -> inv (mkSlot p snaps wire) ->
  inv (mkSlot (snd (emit_chunked uuid msg res pt now p)) snaps wire).
Proof.
  intros Hlt Hb [Hn Ho]. unfold emit_chunked. cbv zeta. simpl snd.
  match goal with |- context [foldl push_chunk ?q ?fs] =>
    destruct (push_chunks_fields fs q) as (Hout & Hpend & Hidx & Hbatch & Hnext & _);
    set (p' := foldl push_chunk q fs) in *; set (frames := fs) in *; clearbody p' end.
  split; simpl in *; rewrite Hnext; rewrite wrapping_succ by lia; [lia|].
  rewrite Hpend, Hout, Hbatch, fmap_app.
  eapply ordered_bound; [eapply ordered_emit; [|done|..]|done].
  - unfold batch_is_empty in Hb. destruct (messages (batch p)); [|done].
    by rewrite blen_nil, Z.sub_0_r in Ho.
  - subst frames. rewrite seqZ_cons; [done|]. pose proof (compute_total_chunks_pos (blen (om_payload msg)) (max_chunk_payload p)). lia.
  - subst frames. rewrite Forall_fmap. by apply Forall_true.
Qed.

Lemma inv_send snaps wire uuid msg res pt now p r res' p' :
  next_sequence_id p < u64_max -> inv (mkSlot p snaps wire) ->
  queue_send_reserved compress uuid msg res pt now p = (r, res', p') ->
  inv (mkSlot p' snaps wire).
Proof.
  intros Hlt Hinv Hq. apply queue_send_shape in Hq.
  destruct Hq as [e p' Hf|p1 p2 Hf ? ->|p1 msg' Hf ? Hb|p1 msg' Hf ? Hb];
    pose proof (flushes_next _ _ _ Hf) as Hnx; eapply inv_flushes in Hinv; try exact Hf; [done|..].
  - apply inv_flush_if_full, inv_add_to_batch; [by rewrite Hnx|done].
  - apply inv_emit_chunked; [by rewrite Hnx|done..].
  - apply inv_emit_single; [by rewrite Hnx|done..].
Qed.

(** The other operations only remove sends or change fields the invariant
    does not read. *)
Record shrinks p p' : Prop := mkShrinks {
  sh_next : next_sequence_id p' = next_sequence_id p;
  sh_batch : batch p' = batch p;
  sh_outbound : outbound p' = outbound p;
  sh_pending : sublist (core <$> pending p') (core <$> pending p);
}.

#[global] Instance shrinks_preorder : PreOrder shrinks.
Proof.
  split; [by split|]. intros a b c [] []. split; try congruence. by etrans.
Qed.

Lemma inv_shrinks snaps snaps' wire p p' :
  shrinks p p' -> sublist snaps' snaps -> inv (mkSlot p snaps wire) -> inv (mkSlot p' snaps' wire).
Proof.
  intros [Hn Hb Ho Hp] Hs [??]. split; simpl in *; rewrite ?Hn, ?Hb, ?Ho; [done|].
  eapply ordered_remove; [done|by apply fmap_sublist|done].
Qed.

Lemma delete_sublist {A} i (l : list A) : sublist (delete i l) l.
Proof.
  revert i. induction l as [|x l IH]; intros [|i]; simpl; [done..| |].
  - by apply sublist_cons.
  - by apply sublist_skip.
Qed.

Lemma apply_receipt_shrinks r now p : shrinks p (snd (apply_receipt hist_record r now p)).
Proof.
  unfold apply_receipt. destruct (pending_index p !! _); [|done]. cbv zeta.
  destruct (list_find _ _) as [[i op]|]; split; simpl; try done.
  apply fmap_sublist, delete_sublist.
Qed.

Lemma apply_send_error_shrinks e p : shrinks p (snd (apply_send_error e p)).
Proof.
  unfold apply_send_error. destruct (pending_index p !! _); [|done]. cbv zeta.
  destruct (list_find _ _) as [[i op]|]; split; simpl; try done.
  apply fmap_sublist, delete_sublist.
Qed.

Lemma receipt_loop_shrinks r now seqs p : shrinks p (snd (receipt_loop hist_record r now seqs p)).
Proof.
  revert p. induction seqs as [|q seqs IH]; intros p; simpl; [done|].
  match goal with |- context [apply_receipt hist_record ?sy now p] =>
    pose proof (apply_receipt_shrinks sy now p) as H1; destruct (apply_receipt hist_record sy now p) as [x p1] end.
  specialize (IH p1). destruct (receipt_loop hist_record r now seqs p1) as [y p2]. simpl in *. by etrans.
Qed.

Lemma set_waker_shrinks q w p : shrinks p (snd (set_waker q w p)).
Proof.
  unfold set_waker. destruct (pending_index p !! q) as [i|]; [|done].
  destruct (pending p !! i) as [op|] eqn:Hop; [|done]. split; simpl; try done.
  rewrite list_fmap_insert. change (core _) with (core op).
  by rewrite list_insert_id by (rewrite list_lookup_fmap, Hop; done).
Qed.

Lemma drain_expired_split now timeout ops m :
  let '(out, kept, m') := drain_expired now timeout ops m in
  ops = out ++ kept /\ m' = foldl (fun m op => delete (op_sequence_id op) m) m out.
Proof.
  revert m. induction ops as [|op ops IH]; intros m; simpl; [done|].
  destruct (now <? _); [done|]. specialize (IH (delete (op_sequence_id op) m)).
  destruct (drain_expired now timeout ops _) as [[out kept] m']. destruct IH as [-> ->]. done.
Qed.

Lemma sweep_timeouts_shrinks now p : shrinks p (snd (sweep_timeouts now p)).
Proof.
  unfold sweep_timeouts, drain_timed_out_sends. destruct (send_timeout p) as [t|]; [|done].
  pose proof (drain_expired_split now t (pending p) (pending_index p)) as Hd.
  destruct (drain_expired _ _ _ _) as [[out kept] m]. destruct Hd as [Hd _].
  split; simpl; try done. rewrite Hd. apply fmap_sublist, sublist_inserts_l. done.
Qed.

Lemma elapsed_front_removed now t ops p :
  let '(out, bucket', p') := remove_elapsed (elapsed_front now t ops) ops p in
  ops = out ++ bucket' /\ shrinks p p'.
Proof.
  revert p. induction ops as [|op ops IH]; intros p; simpl; [done|].
  destruct (now <? _); simpl; [done|]. rewrite Z.eqb_refl.
  match goal with |- context [remove_elapsed _ ops ?q] => specialize (IH q) end.
  destruct (remove_elapsed _ ops _) as [[out bucket'] p'].
  destruct IH as [-> [??? Hs]]. done.
Qed.

Lemma sweep_snapshots_split now snaps p :
  let '(out, bucket', p') := sweep_snapshots now snaps p in
  snaps = out ++ bucket' /\ shrinks p p'.
Proof.
  unfold sweep_snapshots. destruct (send_timeout p) as [t|]; [apply elapsed_front_removed|done].
Qed.

(** Draining empties the queue of an attached producer and leaves the queue
    of a detached one alone. *)
Lemma drain_loop_ready fuel p :
  broker_ready p = true -> (length (outbound p) < fuel)%nat ->
  drain_loop fuel p = (outbound p, p <| outbound := [] |>).
Proof.
  revert p. induction fuel as [|fuel IH]; intros p Hr Hf; [lia|]. simpl. rewrite Hr.
  unfold next_outbound_frame. destruct (outbound p) as [|f out] eqn:Ho; simpl in *.
  - destruct p; simpl in *; by subst.
  - rewrite IH; simpl; [done|done|lia].
Qed.

Lemma drain_slot_spec p :
  drain_slot p = if broker_ready p then (outbound p, p <| outbound := [] |>) else ([], p).
Proof.
  unfold drain_slot. destruct (broker_ready p) eqn:Hr.
  - apply drain_loop_ready; [done|lia].
  - simpl. by rewrite Hr.
Qed.

Definition replays (op : OpSend) : Prop := op_replay_frames op <> [].
#[global] Instance replays_dec op : Decision (replays op).
Proof. unfold replays. destruct (op_replay_frames op); [right|left]; naive_solver. Defined.

Definition drop_waker (op : OpSend) : OpSend := op <| op_waker := None |>.

Lemma snapshot_loop_spec ops p :
  let '(_, dropped, snapshots, p') := snapshot_loop ops p in
  dropped = filter (fun op => ~ replays op) ops
  /\ snapshots = drop_waker <$> filter replays ops
  /\ next_sequence_id p' = next_sequence_id p
  /\ pending_index p' = foldl (fun m op => delete (op_sequence_id op) m) (pending_index p) ops.
Proof.
  revert p. induction ops as [|op ops IH]; intros p; simpl; [done|].
  rewrite !filter_cons. assert (Hr : replays op <-> op_replay_frames op <> []) by done. revert Hr.
  destruct (op_replay_frames op) as [|f fs] eqn:Hfs;
    match goal with |- context [snapshot_loop ops ?q] => specialize (IH q) end;
    destruct (snapshot_loop ops _) as [[[w d] sn] p']; destruct IH as (-> & -> & Hn & Hi);
    intros Hr; simpl in *; repeat case_decide; naive_solver.
Qed.

Lemma inv_reset snaps wire p :
  inv (mkSlot p snaps wire) ->
  let '(_, _, snapshots, p') := snapshot_pending_sends p in
  inv (mkSlot p' (snaps ++ snapshots) wire).
Proof.
  intros [Hn Ho]. unfold snapshot_pending_sends. cbv zeta.
  match goal with |- context [snapshot_loop ?l ?q] =>
    pose proof (snapshot_loop_spec l q) as Hs; destruct (snapshot_loop l q) as [[[w d] sn] p'] end.
  destruct Hs as (_ & -> & Hnext & _). split; simpl in *; rewrite Hnext; [done|].
  apply ordered_reset in Ho. eapply ordered_bound; [|done].
  match type of Ho with ordered _ _ _ ?a _ _ _ => match goal with |- ordered _ _ _ ?b _ _ _ =>
    replace b with a; [exact Ho|] end end.
  rewrite fmap_app. f_equal. rewrite <- list_fmap_compose.
  clear. induction (pending p) as [|op l IH]; [done|]. rewrite fmap_cons, !filter_cons. simpl.
  unfold replays. repeat case_decide; simpl; try done. by f_equal.
Qed.

Lemma foldr_cons_app {A} (l k : list A) : foldr cons k l = l ++ k.
Proof. induction l; simpl; by f_equal. Qed.

Lemma foldr_frames (snaps : list OpSend) o :
  foldr (fun s o => foldr cons o (op_replay_frames s)) o snaps = kept_frames (core <$> snaps) ++ o.
Proof.
  unfold kept_frames. induction snaps as [|s l IH]; simpl; [done|].
  by rewrite IH, foldr_cons_app, <- app_assoc.
Qed.

Lemma unstaged_frames_kept p :
  unstaged_frames p
  = kept_frames (filter (fun c => c.1 ∉ of_sequence_id <$> outbound p) (core <$> pending p)).
Proof.
  unfold unstaged_frames, kept_frames. f_equal.
  induction (pending p) as [|op l IH]; [done|]. rewrite fmap_cons, !filter_cons. simpl.
  repeat case_decide; simpl; try (by f_equal); exfalso; set_solver.
Qed.

(** What [ProducerSuccess] leaves queued, with or without snapshots. *)
Lemma on_producer_success_queues n last snaps p :
  let p' := on_producer_success n last (bucket snaps) p in
  outbound p' = kept_frames (core <$> snaps) ++ unstaged_frames p ++ outbound p
  /\ pending p' = snaps ++ pending p /\ batch p' = batch p
  /\ next_sequence_id p' = next_sequence_id p.
Proof.
  unfold on_producer_success. cbv zeta. destruct snaps as [|s l].
  - simpl. by rewrite foldr_cons_app.
  - change (bucket (s :: l)) with (Some (s :: l)). generalize (s :: l). intros snaps.
    simpl. by rewrite foldr_frames, !foldr_cons_app.
Qed.

Lemma inv_attach snaps wire n last p :
  inv (mkSlot p snaps wire) ->
  inv (mkSlot (on_producer_success n last (bucket snaps) p) [] []).
Proof.
  intros [Hn Ho]. destruct (on_producer_success_queues n last snaps p) as (H1 & H2 & H3 & H4).
  set (p' := on_producer_success _ _ _ _) in *. clearbody p'.
  split; simpl in *; rewrite H4; [done|]. rewrite H1, H2, H3, fmap_app, unstaged_frames_kept.
  by eapply ordered_attach in Ho.
Qed.

Lemma inv_exec e s : enabled e s -> inv s -> inv (snd (exec e s)).
Proof.
  destruct s as [p snaps wire]. intros He Hinv. destruct e; simpl in *.
  - destruct (slot_queue_send_reserved _ _ _ _ _ _ _) as [[r res'] p'] eqn:Hq. simpl.
    unfold slot_queue_send_reserved in Hq.
    destruct (queue_send_reserved _ _ _ _ _ _ _) as [[r0 res0] p0] eqn:Hq0. simplify_eq.
    by eapply inv_send.
  - by apply inv_flush.
  - unfold on_send_receipt. cbv zeta.
    match goal with |- context [receipt_loop hist_record ?r ?n ?l p] =>
      pose proof (receipt_loop_shrinks r n l p) as Hs; destruct (receipt_loop hist_record r n l p) as [a p'] end.
    simpl in *. eapply inv_shrinks; [|done..].
    etrans; [exact Hs|]. case_match; by split.
  - unfold on_send_error. pose proof (apply_send_error_shrinks err p) as Hs.
    destruct (apply_send_error err p) as [a p']. simpl in *. eapply inv_shrinks; [|done..].
    etrans; [exact Hs|]. case_match; by split.
  - eapply inv_shrinks; [apply set_waker_shrinks|done..].
  - eapply inv_shrinks; [apply set_waker_shrinks|done..].
  - rewrite drain_slot_spec. destruct Hinv as [Hn Ho]. simpl in *.
    destruct (broker_ready p); simpl; [|by split; simpl; rewrite ?app_nil_r].
    split; simpl in *; [done|].
    clear -Ho. revert wire Ho. generalize (outbound p). intros out.
    induction out as [|f out IH]; intros wire Ho; [by rewrite app_nil_r|].
    apply ordered_drain, IH in Ho. by rewrite <- app_assoc in Ho.
  - apply inv_reset in Hinv. by destruct (snapshot_pending_sends p) as [[[??]?]?].
  - eapply inv_shrinks; [|done..]. by split.
  - by eapply inv_attach.
  - pose proof (sweep_timeouts_shrinks now p) as Hs. destruct (sweep_timeouts now p). simpl in *.
    by eapply inv_shrinks.
  - pose proof (sweep_snapshots_split now snaps p) as Hs.
    destruct (sweep_snapshots now snaps p) as [[??]?]. destruct Hs as [-> Hs]. simpl.
    eapply inv_shrinks; [done| |done]. by apply sublist_inserts_l.
  - eapply inv_shrinks; [|done..]. by split.
  - destruct Hinv as [Hn Ho]. split; simpl in *; [done|]. apply ordered_reset in Ho.
    eapply ordered_bound; [|done]. eapply ordered_remove; [done|apply sublist_nil_l|done].
Qed.

Lemma inv_reachable ok s : reachable ok s -> inv s.
Proof.
  induction 1 as [p (Hp & Hi & Hb & Ho & Hn)|s e Hr IH Hok He]; [|by apply inv_exec].
  split; simpl; [done|]. rewrite Hp, Hb, Ho. split; simpl; try done; constructor.
Qed.

(** ** What a send does to the pending queue *)

Record same_queue p p' : Prop := mkSame {
  sq_pending : pending p' = pending p;
  sq_index : pending_index p' = pending_index p;
  sq_next : next_sequence_id p' = next_sequence_id p;
  sq_pushed : last_sequence_id_pushed p' = last_sequence_id_pushed p;
}.

#[global] Instance same_queue_preorder : PreOrder same_queue.
Proof. split; [by split|]. intros a b c [] []. split; congruence. Qed.

Lemma flush_batch_same pt p : same_queue p (snd (flush_batch compress pt p)).
Proof. unfold flush_batch. by case_match. Qed.

Lemma flushes_same pt p p' : flushes pt p p' -> same_queue p p'.
Proof. induction 1 as [|? ? ? -> ? IH]; [done|]. etrans; [apply flush_batch_same|done]. Qed.

Lemma flush_batch_if_full_same pt p : same_queue p (flush_batch_if_full compress pt p).
Proof. unfold flush_batch_if_full. repeat case_match; try done; apply flush_batch_same. Qed.

Definition enqueued (op : OpSend) p p' : Prop :=
  pending p' = pending p ++ [op]
  /\ pending_index p' = <[op_sequence_id op := length (pending p)]> (pending_index p)
  /\ op_sequence_id op = next_sequence_id p
  /\ next_sequence_id p' = wrapping_add 64 (next_sequence_id p) 1
  /\ last_sequence_id_pushed p' = as_signed 64 (next_sequence_id p).

Lemma enqueued_same p0 p p' p'' op :
  same_queue p0 p -> enqueued op p p' -> same_queue p' p'' -> enqueued op p0 p''.
Proof. intros [] (?&?&?&?&?) []. unfold enqueued. split_and!; congruence. Qed.

Lemma emit_chunked_enqueues uuid msg res pt now p :
  exists op, enqueued op p (snd (emit_chunked uuid msg res pt now p))
    /\ op_reservation op = res /\ op_enqueued_at op = now /\ op_waker op = None.
Proof.
  unfold emit_chunked. cbv zeta. simpl snd.
  match goal with |- context [foldl push_chunk ?q ?fs] =>
    destruct (push_chunks_fields fs q) as (_ & Hpend & Hidx & _ & Hnext & Hpu);
    set (p' := foldl push_chunk q fs) in *; set (frames := fs) in *; clearbody p' frames end.
  match goal with |- context [push_pending ?op _] => exists op end.
  split; [|done]. unfold enqueued. simpl in *.
  by rewrite Hpend, Hidx, Hnext, Hpu.
Qed.

Lemma emit_single_enqueues msg res pt now p :
  exists op, enqueued op p (snd (emit_single msg res pt now p))
    /\ op_reservation op = res /\ op_enqueued_at op = now /\ op_waker op = None.
Proof.
  unfold emit_single. cbv zeta. simpl snd.
  match goal with |- context [push_pending ?op _] => exists op end. by unfold enqueued.
Qed.

Lemma send_outcome uuid msg res pt now p r res' p' :
  queue_send_reserved compress uuid msg res pt now p = (r, res', p') ->
  (exists d op, r = Ok d /\ res' = empty_reservation /\ enqueued op p p'
     /\ op_reservation op = res /\ op_enqueued_at op = now /\ op_waker op = None)
  \/ (exists e, r = Err e /\ res' = res /\ same_queue p p').
Proof.
  intros Hq. apply queue_send_shape in Hq.
  destruct Hq as [e p' Hf|p1 p2 Hf ? ->|p1 msg' Hf ? Hb|p1 msg' Hf ? Hb]; apply flushes_same in Hf.
  - right. eauto.
  - left. exists Batched, (new_op (next_sequence_id p1) 1 now [] res). split_and!; try done.
    eapply enqueued_same; [done| |apply flush_batch_if_full_same]. by unfold enqueued.
  - left. destruct (emit_chunked_enqueues uuid msg' res pt now p1) as (op & He & ? & ? & ?).
    eexists _, op. split_and!; try done. by eapply enqueued_same.
  - left. destruct (emit_single_enqueues msg' res pt now p1) as (op & He & ? & ? & ?).
    exists (Emit 1), op. split_and!; try done. by eapply enqueued_same.
Qed.
End Spec.
