(* ===== verification/ProducerQueue.v ===== *)
(** The pending queue of a producer and its index, the receipt fan-out, and the
    memory reservations of the queued sends: the other guarantees of [Producer],
    on the executions of [ProducerSpec]. *)

From S2P Require Import Prelude Time Ids Txn MemoryLimit Producer ProducerSpec.

(** * The index as a map on the queue's sequence ids *)

(** Each id leads to its position. *)
Definition index_exact (m : gmap Z nat) (l : list Z) : Prop :=
  forall q i, m !! q = Some i <-> l !! i = Some q.

(** The index knows which ids are pending, whatever position it gives them. *)
Definition index_domain (m : gmap Z nat) (l : list Z) : Prop :=
  forall q, is_Some (m !! q) <-> q ∈ l.

Definition shift_left (i : nat) (m : gmap Z nat) : gmap Z nat :=
  (fun v => if decide (i < v)%nat then Nat.pred v else v) <$> m.

(** What both index relations satisfy, and what the operations need. *)
Class IndexRel (K : gmap Z nat -> list Z -> Prop) : Prop := {
  rel_domain m l : K m l -> index_domain m l;
  rel_exact m l : index_exact m l -> K m l;
  rel_nil : K ∅ [];
  rel_snoc m l q : K m l -> q ∉ l -> K (<[q := length l]> m) (l ++ [q]);
  rel_remove m l i q : K m l -> NoDup l -> l !! i = Some q -> K (shift_left i (delete q m)) (delete i l);
}.

Lemma lookup_shift_left i m q :
  shift_left i m !! q = (fun v => if decide (i < v)%nat then Nat.pred v else v) <$> m !! q.
Proof. apply lookup_fmap. Qed.

#[global] Instance index_domain_rel : IndexRel index_domain.
Proof.
  split; [done| |..].
  - intros m l Hm q. rewrite list_elem_of_lookup. unfold is_Some. by setoid_rewrite (Hm q).
  - intros q. rewrite lookup_empty. split; [by intros []|by intros ?%not_elem_of_nil].
  - intros m l q Hm Hq r. rewrite elem_of_app, list_elem_of_singleton.
    destruct (decide (r = q)) as [->|Hne]; [rewrite lookup_insert_eq; naive_solver|].
    rewrite lookup_insert_ne by done. rewrite (Hm r). naive_solver.
  - intros m l i q Hm Hnd Hi r. rewrite lookup_shift_left, fmap_is_Some.
    pose proof (delete_Permutation l i q Hi) as Hp.
    assert (Hq : q ∉ delete i l) by (rewrite Hp in Hnd; by apply NoDup_cons in Hnd as [??]).
    destruct (decide (r = q)) as [->|Hne].
    + rewrite lookup_delete_eq. split; [by intros []|done].
    + rewrite lookup_delete_ne by done. rewrite (Hm r).
      assert (Hin : r ∈ l <-> r ∈ q :: delete i l) by by rewrite <- Hp.
      rewrite Hin, elem_of_cons. naive_solver.
Qed.

#[global] Instance index_exact_rel : IndexRel index_exact.
Proof.
  split; [apply index_domain_rel|done|..].
  - intros q i. rewrite lookup_empty, lookup_nil. done.
  - intros m l q Hm Hq r i. destruct (decide (r = q)) as [->|Hne].
    + rewrite lookup_insert_eq. split.
      * intros [= <-]. by apply list_lookup_middle.
      * intros [Hi|[? Hi]]%lookup_app_Some; [by apply list_elem_of_lookup_2 in Hi|].
        apply list_lookup_singleton_Some in Hi as [? _]. f_equal. lia.
    + rewrite lookup_insert_ne by done. rewrite (Hm r i). split; [intros; by apply lookup_app_l_Some|].
      intros [Hi|[? Hi]]%lookup_app_Some; [done|].
      apply list_lookup_singleton_Some in Hi as [??]. congruence.
  - intros m l i q Hm Hnd Hi r j. rewrite lookup_shift_left, fmap_Some.
    rewrite list_lookup_delete. split.
    + intros (v & Hv & ->). apply lookup_delete_Some in Hv as [Hne Hv].
      apply Hm in Hv. assert (v <> i) by congruence.
      destruct (decide (i < v)%nat).
      * rewrite decide_False by lia. by replace (S (Nat.pred v)) with v by lia.
      * by rewrite decide_True by lia.
    + intros Hj. assert (Hrq : r <> q /\ m !! r = Some (if decide (j < i)%nat then j else S j)).
      { case_decide; (split; [|by apply Hm]); intros ->;
          [assert (j = i) by (by eapply NoDup_lookup)|assert (S j = i) by (by eapply NoDup_lookup)]; lia. }
      destruct Hrq as [Hne Hr]. eexists. rewrite lookup_delete_ne by done.
      split; [exact Hr|]. repeat case_decide; lia.
Qed.

Lemma domain_nil (m : gmap Z nat) : index_domain m [] -> m = ∅.
Proof.
  intros Hm. apply map_empty. intros q. apply eq_None_not_Some. intros Hq%Hm.
  by apply not_elem_of_nil in Hq.
Qed.

(** Removing ids from the front leaves the index of the rest. *)
Lemma domain_delete_front (a b : list OpSend) (m : gmap Z nat) :
  index_domain m (op_sequence_id <$> a ++ b) -> NoDup (op_sequence_id <$> a ++ b) ->
  index_domain (foldl (fun m op => delete (op_sequence_id op) m) m a) (op_sequence_id <$> b).
Proof.
  revert m. induction a as [|op a IH]; intros m Hm Hnd; simpl in *; [done|].
  apply NoDup_cons in Hnd as [Hn Hnd]. apply IH; [|done]. intros q.
  destruct (decide (q = op_sequence_id op)) as [->|Hne].
  - rewrite lookup_delete_eq. split; [by intros []|done].
  - rewrite lookup_delete_ne by done. rewrite (Hm q), elem_of_cons. naive_solver.
Qed.

(** The rebuilt index of [replay_snapshots] is exact. *)
Lemma reindex_exact ops : NoDup (op_sequence_id <$> ops) -> index_exact (reindex 0 ops ∅) (op_sequence_id <$> ops).
Proof.
  assert (Hgen : forall k (l : list OpSend) m seen, index_exact m seen -> k = length seen ->
    NoDup (seen ++ (op_sequence_id <$> l)) ->
    index_exact (reindex k l m) (seen ++ (op_sequence_id <$> l))).
  { intros k l. revert k. induction l as [|op l IH]; intros k m seen Hm -> Hnd; [by rewrite app_nil_r|].
    rewrite fmap_cons, cons_middle, app_assoc in Hnd |- *. cbn [reindex].
    apply IH; [|rewrite length_app; simpl; lia|done].
    apply rel_snoc; [done|]. apply NoDup_app in Hnd as (Hnd & _ & _).
    apply NoDup_app in Hnd as (_ & Hn & _). intros Hin. apply (Hn _ Hin). by left. }
  intros Hnd. apply (Hgen 0%nat ops ∅ []); [apply rel_nil|done|done].
Qed.

Section Queue.
Context {Hist : Type}.
Variable hist_record : Hist -> Z -> Hist.
Variable compress : CompressionKind -> bytes -> option bytes.
Context `{!ProtoMessage SingleMessageMetadata}.

Implicit Types p : ProducerState Hist.

Abbreviation seqs l := (op_sequence_id <$> l).

Lemma inv_nodup (s : slot (Hist := Hist)) :
  inv s -> NoDup (seqs (sl_snapshots s ++ pending (sl_state s))).
Proof.
  intros [_ Ho]. destruct Ho as [_ Hs _ _ _ _ _ _ _ _]. rewrite <- fmap_app, <- list_fmap_compose in Hs.
  change (fst ∘ core) with op_sequence_id in Hs.
  induction Hs as [|x l Hl IH Hx]; constructor; [|done].
  rewrite Forall_forall in Hx. intros Hin%Hx. lia.
Qed.

(** A receipt or an error takes exactly the send with its id off the queue. *)
Lemma find_pending q (l : list OpSend) :
  q ∈ seqs l -> exists i op, list_find (fun op => op_sequence_id op = q) l = Some (i, op)
    /\ l !! i = Some op /\ op_sequence_id op = q.
Proof.
  intros (op & -> & Hop)%list_elem_of_fmap.
  destruct (list_find_elem_of (fun o => op_sequence_id o = op_sequence_id op) l op) as [[i o] Hf]; [done..|].
  exists i, o. by apply list_find_Some in Hf as Hf'; destruct_and!.
Qed.

Definition resolved_op (r : CommandSendReceipt) (op : OpSend) : OpSend * MessageId :=
  let mid := default unknown_message_id (mid_from_pb <$> sr_message_id r) in
  (op <| op_receipt := Some mid |>, mid).

Lemma apply_receipt_spec r now p :
  index_domain (pending_index p) (seqs (pending p)) ->
  let '(res, p') := apply_receipt hist_record r now p in
  (res = None /\ p' = p /\ sr_sequence_id r ∉ seqs (pending p))
  \/ (exists i op, res = Some (resolved_op r op) /\ pending p !! i = Some op
      /\ op_sequence_id op = sr_sequence_id r /\ pending p' = delete i (pending p)
      /\ pending_index p' = shift_left i (delete (sr_sequence_id r) (pending_index p))).
Proof.
  intros Hd. unfold apply_receipt. specialize (Hd (sr_sequence_id r)).
  destruct (pending_index p !! sr_sequence_id r) as [v|].
  - destruct (find_pending (sr_sequence_id r) (pending p)) as (i & op & Hf & Hi & Hq); [by apply Hd|].
    cbv zeta. match goal with |- context [list_find _ (pending ?x)] => change (pending x) with (pending p) end.
    rewrite Hf. right. exists i, op. by split_and!.
  - left. split_and!; try done. intros [v Hv]%Hd. done.
Qed.

Lemma apply_send_error_spec e p :
  index_domain (pending_index p) (seqs (pending p)) ->
  let '(res, p') := apply_send_error e p in
  (res = None /\ p' = p /\ se_sequence_id e ∉ seqs (pending p))
  \/ (exists i op, res = Some (op, se_error e, se_message e) /\ pending p !! i = Some op
      /\ op_sequence_id op = se_sequence_id e /\ pending p' = delete i (pending p)
      /\ pending_index p' = shift_left i (delete (se_sequence_id e) (pending_index p))).
Proof.
  intros Hd. unfold apply_send_error. specialize (Hd (se_sequence_id e)).
  destruct (pending_index p !! se_sequence_id e) as [v|].
  - destruct (find_pending (se_sequence_id e) (pending p)) as (i & op & Hf & Hi & Hq); [by apply Hd|].
    cbv zeta. match goal with |- context [list_find _ (pending ?x)] => change (pending x) with (pending p) end.
    rewrite Hf. right. exists i, op. by split_and!.
  - left. split_and!; try done. intros [v Hv]%Hd. done.
Qed.

Lemma remove_elapsed_fields qs snaps p :
  let '(_, _, p') := remove_elapsed qs snaps p in
  pending p' = pending p /\ pending_index p' = pending_index p.
Proof.
  revert snaps p. induction qs as [|q qs IH]; intros snaps p; simpl; [done|].
  destruct snaps as [|op snaps]; [apply IH|]. destruct (op_sequence_id op =? q); [|apply IH].
  match goal with |- context [remove_elapsed qs snaps ?x] =>
    specialize (IH snaps x); destruct (remove_elapsed qs snaps x) as [[??]?] end. done.
Qed.

Lemma sweep_snapshots_fields now snaps p :
  let '(_, _, p') := sweep_snapshots now snaps p in
  pending p' = pending p /\ pending_index p' = pending_index p.
Proof. unfold sweep_snapshots. destruct (send_timeout p); [apply remove_elapsed_fields|done]. Qed.

Section Indexed.
Context (K : gmap Z nat -> list Z -> Prop) `{!IndexRel K}.

Definition indexed p : Prop := K (pending_index p) (seqs (pending p)).

Lemma indexed_domain p : indexed p -> index_domain (pending_index p) (seqs (pending p)).
Proof. apply rel_domain. Qed.

Lemma indexed_remove p p' i op :
  indexed p -> NoDup (seqs (pending p)) -> pending p !! i = Some op ->
  pending p' = delete i (pending p) ->
  pending_index p' = shift_left i (delete (op_sequence_id op) (pending_index p)) ->
  indexed p' /\ NoDup (seqs (pending p')).
Proof.
  intros Hp Hnd Hi Hp' Hm. unfold indexed. rewrite Hp', Hm, list_fmap_delete.
  assert (Hs : seqs (pending p) !! i = Some (op_sequence_id op)) by by rewrite list_lookup_fmap, Hi.
  split; [by apply rel_remove|].
  pose proof (delete_Permutation _ _ _ Hs) as Hperm. rewrite Hperm in Hnd. by apply NoDup_cons in Hnd as [??].
Qed.

Lemma receipt_loop_indexed r now qs p :
  indexed p -> NoDup (seqs (pending p)) ->
  indexed (snd (receipt_loop hist_record r now qs p)).
Proof.
  revert p. induction qs as [|q qs IH]; intros p Hp Hnd; simpl; [done|].
  match goal with |- context [apply_receipt hist_record ?sy now p] =>
    pose proof (apply_receipt_spec sy now p (indexed_domain p Hp)) as Hr;
    destruct (apply_receipt hist_record sy now p) as [x p1] end.
  assert (H1 : indexed p1 /\ NoDup (seqs (pending p1))).
  { destruct Hr as [(-> & -> & _)|(i & op & -> & Hi & Hq & Hpe & Hm)]; [done|].
    rewrite <- Hq in Hm. by eapply indexed_remove. }
  destruct H1 as [H1 H2]. specialize (IH p1 H1 H2).
  destruct (receipt_loop hist_record r now qs p1). done.
Qed.

Lemma indexed_waker q w p : indexed p -> indexed (snd (set_waker q w p)).
Proof.
  unfold set_waker. destruct (pending_index p !! q) as [i|]; [|done].
  destruct (pending p !! i) as [op|] eqn:Hop; [|done]. unfold indexed. simpl.
  rewrite list_fmap_insert, list_insert_id; [done|]. by rewrite list_lookup_fmap, Hop.
Qed.

(** Dropping a prefix of the queue and its ids, as the timeout sweep does. *)
Definition sweepable : Prop := forall (a b : list OpSend) m,
  K m (seqs (a ++ b)) -> NoDup (seqs (a ++ b)) ->
  K (foldl (fun m op => delete (op_sequence_id op) m) m a) (seqs b).

Lemma indexed_drained p p' :
  indexed p -> NoDup (seqs (pending p)) -> pending p' = [] ->
  pending_index p' = foldl (fun m op => delete (op_sequence_id op) m) (pending_index p) (pending p) ->
  indexed p'.
Proof.
  intros Hp Hnd Hpe Hm. unfold indexed. rewrite Hpe, Hm.
  rewrite (domain_nil (foldl _ _ _)); [apply rel_nil|].
  apply (domain_delete_front _ []); rewrite app_nil_r; [by apply indexed_domain|done].
Qed.

Lemma indexed_send uuid msg res pt now p r res' p' :
  queue_send_reserved compress uuid msg res pt now p = (r, res', p') ->
  indexed p -> next_sequence_id p ∉ seqs (pending p) -> indexed p'.
Proof.
  intros [(d & op & _ & _ & (Hpe & Hm & Hq & _) & _)|(e & _ & _ & [Hpe Hm _ _])]%send_outcome Hp Hn;
    unfold indexed; rewrite Hpe, Hm; [|done].
  rewrite fmap_app. rewrite Hq. replace (length (pending p)) with (length (seqs (pending p)))
    by apply length_fmap. simpl. rewrite Hq. by apply rel_snoc.
Qed.

Lemma indexed_attach n last snaps p :
  indexed p -> NoDup (seqs (snaps ++ pending p)) ->
  indexed (on_producer_success n last (bucket snaps) p).
Proof.
  intros Hp Hnd. destruct snaps as [|s l]; [done|].
  unfold indexed, on_producer_success. change (bucket (s :: l)) with (Some (s :: l)).
  generalize dependent (s :: l). intros snaps Hnd. simpl. rewrite foldr_cons_app.
  by apply rel_exact, reindex_exact.
Qed.

Lemma next_not_pending (s : slot (Hist := Hist)) :
  inv s -> next_sequence_id (sl_state s) ∉ seqs (pending (sl_state s)).
Proof.
  intros [_ Ho] (op & Heq & Hop)%list_elem_of_fmap. apply o_range in Ho.
  rewrite Forall_forall in Ho. specialize (Ho (core op)). simpl in Ho.
  assert (core op ∈ (core <$> sl_snapshots s) ++ (core <$> pending (sl_state s))).
  { apply elem_of_app. right. by apply list_elem_of_fmap_2. }
  specialize (Ho ltac:(done)). lia.
Qed.

Lemma indexed_exec e s :
  ((exists now, e = EvSweep now) -> sweepable) -> inv s -> indexed (sl_state s) ->
  indexed (sl_state (snd (exec hist_record compress e s))).
Proof.
  intros Hsw Hinv Hp. pose proof (inv_nodup s Hinv) as Hnd.
  pose proof (next_not_pending s Hinv) as Hnn.
  destruct s as [p snaps wire]. simpl in Hp, Hnd, Hnn.
  assert (Hnp : NoDup (seqs (pending p))) by (rewrite fmap_app in Hnd; by apply NoDup_app in Hnd as (_ & _ & ?)).
  destruct e; simpl.
  - unfold slot_queue_send_reserved.
    destruct (queue_send_reserved _ _ _ _ _ _ _) as [[r0 res0] p0] eqn:Hq. simpl.
    by eapply indexed_send.
  - destruct (flush_batch_same compress pt p) as [Ha Hb _ _]. unfold indexed. by rewrite Ha, Hb.
  - unfold on_send_receipt. cbv zeta.
    match goal with |- context [receipt_loop hist_record ?r ?n ?l p] =>
      pose proof (receipt_loop_indexed r n l p Hp Hnp) as Hs;
      destruct (receipt_loop hist_record r n l p) as [a p'] end.
    simpl in *. by destruct (blen a >? 0).
  - unfold on_send_error. pose proof (apply_send_error_spec err p (indexed_domain p Hp)) as Hs.
    destruct (apply_send_error err p) as [a p'].
    assert (H1 : indexed p').
    { destruct Hs as [(-> & -> & _)|(i & op & -> & Hi & Hq & Hpe & Hm)]; [done|].
      rewrite <- Hq in Hm. by eapply indexed_remove. }
    simpl. by destruct (bool_decide (is_Some a)).
  - by apply indexed_waker.
  - by apply indexed_waker.
  - rewrite drain_slot_spec. by destruct (broker_ready p).
  - unfold snapshot_pending_sends. cbv zeta.
    match goal with |- context [snapshot_loop ?l ?q] =>
      pose proof (snapshot_loop_spec l q) as Hs; destruct (snapshot_loop l q) as [[[w d] sn] p'] end.
    destruct Hs as (_ & _ & _ & Hi). by eapply (indexed_drained p).
  - done.
  - by apply indexed_attach.
  - unfold sweep_timeouts, drain_timed_out_sends. destruct (send_timeout p) as [t|]; [|done].
    pose proof (drain_expired_split now t (pending p) (pending_index p)) as Hd.
    destruct (drain_expired _ _ _ _) as [[out kept] m]. destruct Hd as [Hd ->].
    unfold indexed in *. simpl. rewrite Hd in Hp, Hnp. apply Hsw; eauto.
  - pose proof (sweep_snapshots_fields now snaps p) as Hs.
    destruct (sweep_snapshots now snaps p) as [[??] p']. destruct Hs as [Ha Hb].
    unfold indexed. simpl in *. by rewrite Ha, Hb.
  - done.
  - by eapply (indexed_drained p).
Qed.

Lemma indexed_reachable ok s :
  (forall now, ok (EvSweep now) -> sweepable) ->
  reachable hist_record compress ok s -> indexed (sl_state s).
Proof.
  intros Hsw. induction 1 as [p (Hp & Hi & Hb & Ho & Hn)|s e Hr IH Hok He]; simpl.
  - unfold indexed. rewrite Hp, Hi. apply rel_nil.
  - apply indexed_exec; [|by eapply inv_reachable|done]. intros [now ->]. eauto.
Qed.
End Indexed.

(** ** Wakers *)

Definition not_sweep (e : event) : Prop := match e with EvSweep _ => False | _ => True end.

(** As long as no send-timeout sweep has run, registering a waker for a
    sequence id succeeds exactly when that send is pending, and it is that
    send, and no other, that gets the waker. *)
Theorem register_waker_exact s q w :
  reachable hist_record compress not_sweep s ->
  let '(found, p') := register_waker q w (sl_state s) in
  (found = true <-> q ∈ seqs (pending (sl_state s)))
  /\ pending p' = (fun op => if op_sequence_id op =? q then op <| op_waker := Some w |> else op)
                    <$> pending (sl_state s).
Proof.
  intros Hr. assert (Hx : indexed index_exact (sl_state s)).
  { eapply indexed_reachable; [apply _| |exact Hr]. done. }
  pose proof (inv_nodup s (inv_reachable _ _ _ _ Hr)) as Hnd.
  rewrite fmap_app in Hnd. apply NoDup_app in Hnd as (_ & _ & Hnd).
  destruct s as [p snaps wire]. simpl in *. unfold register_waker, set_waker, indexed in *.
  destruct (pending_index p !! q) as [i|] eqn:Hi.
  - pose proof (proj1 (Hx q i) Hi) as Hq. rewrite list_lookup_fmap in Hq.
    destruct (pending p !! i) as [op|] eqn:Hop; [|done]. simpl in Hq. injection Hq as Hq. split.
    + split; [|done]. intros _. apply list_elem_of_fmap. exists op. split; [done|].
      by eapply list_elem_of_lookup_2.
    + simpl. apply list_eq. intros j. rewrite list_lookup_fmap.
      destruct (decide (j = i)) as [->|Hne].
      * rewrite list_lookup_insert_eq by (by eapply lookup_lt_Some). rewrite Hop. simpl.
        by rewrite Hq, Z.eqb_refl.
      * rewrite list_lookup_insert_ne by done. destruct (pending p !! j) as [o|] eqn:Hj; [|done]. simpl.
        destruct (op_sequence_id o =? q) eqn:Heq; [|done]. exfalso. apply Hne.
        eapply NoDup_lookup; [exact Hnd|..]; rewrite list_lookup_fmap, ?Hj, ?Hop; simpl; f_equal; lia.
  - assert (Hn : q ∉ seqs (pending p)).
    { intros [v Hv]%(rel_domain _ _ Hx). congruence. }
    split; [split; [done|intros ?; done]|].
    symmetry. apply list_eq. intros j. rewrite list_lookup_fmap.
    destruct (pending p !! j) as [o|] eqn:Hj; [|done]. simpl.
    destruct (op_sequence_id o =? q) eqn:Heq; [|done]. exfalso. apply Hn.
    apply list_elem_of_fmap. exists o. split; [lia|]. by eapply list_elem_of_lookup_2.
Qed.

(** ** Receipts *)

Definition in_range (lo hi : Z) (op : OpSend) : bool :=
  (lo <=? op_sequence_id op) && (op_sequence_id op <=? hi).

(** In a queue sorted around [op], the sends of [q :: qs] are [op] and those
    of [qs] behind it. *)
Section Split.
Context (l1 l2 : list OpSend) (op : OpSend) (q : Z) (qs : list Z).
Hypothesis (H1 : forall o, o ∈ l1 -> op_sequence_id o < q) (H2 : forall o, o ∈ l2 -> q < op_sequence_id o).
Hypothesis (Heq : op_sequence_id op = q) (Hqs : forall x, x ∈ qs -> q < x).

Lemma split_front o : o ∈ l1 -> op_sequence_id o ∉ q :: qs.
Proof.
  intros Ho. specialize (H1 o Ho). rewrite elem_of_cons. intros [?|Hin]; [lia|].
  specialize (Hqs _ Hin). lia.
Qed.

Lemma split_back o : o ∈ l2 -> op_sequence_id o ∈ q :: qs <-> op_sequence_id o ∈ qs.
Proof.
  intros Ho. specialize (H2 o Ho). rewrite elem_of_cons. split; [|by right]. intros [?|?]; [lia|done].
Qed.

Lemma filter_in_range_split :
  filter (fun o => op_sequence_id o ∈ q :: qs) (l1 ++ op :: l2)
  = op :: filter (fun o => op_sequence_id o ∈ qs) l2.
Proof.
  rewrite filter_app, filter_none by apply split_front. simpl.
  rewrite filter_cons_True by (rewrite Heq; by left). f_equal. apply filter_ext_in, split_back.
Qed.

Lemma filter_out_range_split :
  filter (fun o => op_sequence_id o ∉ q :: qs) (l1 ++ op :: l2)
  = l1 ++ filter (fun o => op_sequence_id o ∉ qs) l2.
Proof.
  rewrite filter_app, filter_all by apply split_front.
  rewrite filter_cons_False by (rewrite Heq; intros Hx; apply Hx; by left). f_equal.
  apply filter_ext_in. intros o Ho. by rewrite (split_back o Ho).
Qed.
End Split.

Lemma receipt_loop_spec r now qs p :
  StronglySorted Z.lt qs -> StronglySorted Z.lt (seqs (pending p)) ->
  index_domain (pending_index p) (seqs (pending p)) ->
  let '(resolved, p') := receipt_loop hist_record r now qs p in
  resolved = resolved_op r <$> filter (fun op => op_sequence_id op ∈ qs) (pending p)
  /\ pending p' = filter (fun op => op_sequence_id op ∉ qs) (pending p).
Proof.
  revert p. induction qs as [|q qs IH]; intros p Hqs Hs Hd; simpl.
  { rewrite filter_none, filter_all; [done|..]; intros; apply not_elem_of_nil. }
  apply StronglySorted_inv in Hqs as [Hqs Hq]. rewrite Forall_forall in Hq.
  match goal with |- context [apply_receipt hist_record ?sy now p] =>
    pose proof (apply_receipt_spec sy now p Hd) as Hr;
    destruct (apply_receipt hist_record sy now p) as [x p1] end.
  destruct Hr as [(-> & -> & Hn)|(i & op & -> & Hi & Heq & Hpe & Hm)]; simpl in *.
  - specialize (IH p Hqs Hs Hd). destruct (receipt_loop hist_record r now qs p) as [res p'].
    destruct IH as [-> ->].
    assert (Hne : forall o, o ∈ pending p -> op_sequence_id o <> q).
    { intros o Ho <-. apply Hn. by apply list_elem_of_fmap_2. }
    split; [f_equal|]; apply filter_ext_in; intros o Ho; specialize (Hne o Ho); rewrite elem_of_cons; tauto.
  - pose proof (take_drop_middle (pending p) i op Hi) as Hsplit.
    set (l1 := take i (pending p)) in *. set (l2 := drop (S i) (pending p)) in *.
    assert (Hdel : pending p1 = l1 ++ l2) by by rewrite Hpe, delete_take_drop.
    assert (Hd1 : index_domain (pending_index p1) (seqs (pending p1))
                  /\ StronglySorted Z.lt (seqs (pending p1))).
    { split.
      - rewrite <- Heq in Hm. eapply (indexed_remove index_domain p p1); try done.
        clear -Hs. induction Hs as [|y l Hl IH Hx]; constructor; [|done].
        rewrite Forall_forall in Hx. intros Hin%Hx. lia.
      - rewrite Hpe. eapply sorted_sublist; [|exact Hs]. apply fmap_sublist, delete_sublist. }
    destruct Hd1 as [Hd1 Hs1]. specialize (IH p1 Hqs Hs1 Hd1).
    destruct (receipt_loop hist_record r now qs p1) as [res p']. destruct IH as [-> ->].
    rewrite Hdel. rewrite <- Hsplit in Hs |- *. rewrite fmap_app, fmap_cons in Hs.
    apply StronglySorted_app in Hs as (Hlt & _ & [_ Hgt]%StronglySorted_inv).
    rewrite Forall_fmap, Forall_forall in Hgt.
    assert (H1 : forall o, o ∈ l1 -> op_sequence_id o < q).
    { intros o Ho. rewrite <- Heq. apply Hlt; [by apply list_elem_of_fmap_2|by left]. }
    assert (H2 : forall o, o ∈ l2 -> q < op_sequence_id o).
    { intros o Ho. rewrite <- Heq. by apply Hgt. }
    assert (Hge : forall x, x ∈ qs -> q < x) by (intros x Hx; by apply Hq).
    rewrite (filter_in_range_split l1 l2 op q qs), (filter_out_range_split l1 l2 op q qs) by done.
    rewrite !filter_app, (filter_none _ l1), (filter_all (fun o => op_sequence_id o ∉ qs) l1); [done|..];
      intros o Ho Hx; specialize (H1 o Ho); specialize (Hge _ Hx); lia.
Qed.

(** C7: a receipt, single or ranged, takes exactly the pending sends of its
    range off the queue, each resolved once with the receipt's message id and
    in sequence order, and leaves the others as they are and in order. *)
Theorem receipt_resolves_range ok s r now :
  reachable hist_record compress ok s ->
  let lo := sr_sequence_id r in
  let hi := receipt_highest r in
  let '(resolved, p') := on_send_receipt hist_record r now (sl_state s) in
  resolved = resolved_op r <$> filter (fun op => in_range lo hi op) (pending (sl_state s))
  /\ pending p' = filter (fun op => negb (in_range lo hi op)) (pending (sl_state s)).
Proof.
  intros Hr lo hi. assert (Hd : indexed index_domain (sl_state s)).
  { eapply indexed_reachable; [apply _| |exact Hr]. intros ? _ a b m. apply domain_delete_front. }
  pose proof (inv_reachable _ _ _ _ Hr) as [_ [_ Hs _ _ _ _ _ _ _ _]].
  rewrite <- fmap_app, <- list_fmap_compose in Hs. change (fst ∘ core) with op_sequence_id in Hs.
  rewrite fmap_app in Hs. apply StronglySorted_app in Hs as (_ & _ & Hs).
  unfold on_send_receipt. pose proof (receipt_loop_spec r now (seqZ lo (hi - lo + 1)) (sl_state s)) as Hl.
  subst lo hi. destruct (receipt_loop _ _ _ _ _) as [resolved p'] eqn:He.
  destruct Hl as [-> Hp]; [apply seqZ_sorted|done|done|].
  assert (Hin : forall op, op_sequence_id op ∈ seqZ (sr_sequence_id r) (receipt_highest r - sr_sequence_id r + 1)
                           <-> in_range (sr_sequence_id r) (receipt_highest r) op).
  { intros op. unfold in_range. rewrite elem_of_seqZ, andb_True, !Is_true_true, !Z.leb_le. lia. }
  split.
  - f_equal. apply filter_ext_in. intros; apply Hin.
  - transitivity (pending p'); [by destruct (_ >? 0)|]. rewrite Hp. apply filter_ext_in.
    intros op _. rewrite Hin. by destruct (in_range _ _ op); simpl; naive_solver.
Qed.

(** ** Memory reservations *)

(** Those held against a controller; the others are empty. *)
Definition live (l : list MemoryReservation) : list MemoryReservation :=
  filter (fun r => mr_controller r = true) l.

Definition held (s : slot (Hist := Hist)) : list MemoryReservation :=
  op_reservation <$> sl_snapshots s ++ pending (sl_state s).

Definition charged (e : event) : list MemoryReservation :=
  match e with EvSend _ _ res _ _ => [res] | _ => [] end.

Abbreviation ress l := (op_reservation <$> l).

Lemma ress_delete i op (l : list OpSend) :
  l !! i = Some op -> op_reservation op :: ress (delete i l) ≡ₚ ress l.
Proof.
  intros Hi. symmetry. apply (fmap_Permutation op_reservation l (op :: delete i l)).
  by apply delete_Permutation.
Qed.

Lemma apply_receipt_reservations r now p :
  let '(res, p') := apply_receipt hist_record r now p in
  (match res with Some t => [op_reservation t.1] | None => [] end) ++ ress (pending p') ≡ₚ ress (pending p).
Proof.
  unfold apply_receipt. destruct (pending_index p !! _); [|done]. cbv zeta.
  match goal with |- context [list_find ?P (pending ?x)] => change (pending x) with (pending p);
    destruct (list_find P (pending p)) as [[i op]|] eqn:Hf end; [|done].
  apply list_find_Some in Hf as (Hi & _ & _). simpl.
  by apply ress_delete.
Qed.

Lemma apply_send_error_reservations e p :
  let '(res, p') := apply_send_error e p in
  (match res with Some (op, _, _) => [op_reservation op] | None => [] end) ++ ress (pending p')
  ≡ₚ ress (pending p).
Proof.
  unfold apply_send_error. destruct (pending_index p !! _); [|done]. cbv zeta.
  match goal with |- context [list_find ?P (pending ?x)] => change (pending x) with (pending p);
    destruct (list_find P (pending p)) as [[i op]|] eqn:Hf end; [|done].
  apply list_find_Some in Hf as (Hi & _ & _). simpl.
  by apply ress_delete.
Qed.

Lemma receipt_loop_reservations r now qs p :
  let '(res, p') := receipt_loop hist_record r now qs p in
  ((fun t => op_reservation t.1) <$> res) ++ ress (pending p') ≡ₚ ress (pending p).
Proof.
  revert p. induction qs as [|q qs IH]; intros p; simpl; [done|].
  match goal with |- context [apply_receipt hist_record ?sy now p] =>
    pose proof (apply_receipt_reservations sy now p) as H1;
    destruct (apply_receipt hist_record sy now p) as [x p1] end.
  specialize (IH p1). destruct (receipt_loop hist_record r now qs p1) as [res p'].
  rewrite <- H1, <- IH. by destruct x.
Qed.

Lemma set_waker_reservations q w p : ress (pending (snd (set_waker q w p))) = ress (pending p).
Proof.
  unfold set_waker. destruct (pending_index p !! q) as [i|]; [|done].
  destruct (pending p !! i) as [op|] eqn:Hop; [|done]. simpl.
  rewrite list_fmap_insert, list_insert_id; [done|]. by rewrite list_lookup_fmap, Hop.
Qed.

Lemma snapshot_reservations (l : list OpSend) :
  ress (filter (fun op => ~ replays op) l) ++ ress (drop_waker <$> filter replays l) ≡ₚ ress l.
Proof.
  rewrite <- list_fmap_compose. change (op_reservation ∘ drop_waker) with op_reservation.
  induction l as [|op l IH]; [done|]. rewrite !filter_cons.
  repeat case_decide; try tauto; rewrite !fmap_cons, <- IH; [done|].
  symmetry. apply Permutation_middle.
Qed.

Lemma send_reservations uuid msg res pt now p snaps wire :
  let '(released, s') := exec hist_record compress (EvSend uuid msg res pt now) (mkSlot p snaps wire) in
  live (released ++ held s') ≡ₚ live (res :: held (mkSlot p snaps wire)).
Proof.
  unfold held. simpl exec. unfold slot_queue_send_reserved.
  destruct (queue_send_reserved _ _ _ _ _ _ _) as [[r0 res0] p0] eqn:Hq. simpl.
  apply send_outcome in Hq as [(d & op & _ & -> & (Hpe & _) & <- & _)|(e & _ & -> & [Hpe _ _ _])];
    rewrite Hpe; [|done].
  unfold live. rewrite filter_cons_False by done.
  rewrite app_assoc, (fmap_app _ _ [op]). simpl. by rewrite (Permutation_app_comm _ [op_reservation op]).
Qed.

(** C13: no reservation is lost or released twice: whatever happens to a
    producer, the reservations that an event releases and those its sends
    still hold afterwards are those held before and the one the event
    brought in. *)
Theorem reservations_conserved e s :
  let '(released, s') := exec hist_record compress e s in
  live (released ++ held s') ≡ₚ live (charged e ++ held s).
Proof.
  destruct s as [p snaps wire]. unfold held.
  assert (Hperm : forall rel l' c l : list MemoryReservation, rel ++ l' ≡ₚ c ++ l ->
    live (rel ++ l') ≡ₚ live (c ++ l)) by (intros ? ? ? ? Hx; unfold live; by rewrite Hx).
  destruct e; simpl exec; cbv zeta.
  - by apply send_reservations.
  - simpl. by destruct (flush_batch_same compress pt p) as [-> _ _ _].
  - unfold on_send_receipt. cbv zeta.
    match goal with |- context [receipt_loop hist_record ?r ?n ?l p] =>
      pose proof (receipt_loop_reservations r n l p) as Hs; destruct (receipt_loop hist_record r n l p) as [a p'] end.
    apply Hperm. simpl. rewrite !fmap_app, <- Hs.
    replace (pending (if blen a >? 0 then _ else _)) with (pending p') by by destruct (blen a >? 0).
    by rewrite Permutation_app_swap_app.
  - unfold on_send_error. pose proof (apply_send_error_reservations err p) as Hs.
    destruct (apply_send_error err p) as [a p']. apply Hperm. simpl. rewrite !fmap_app, <- Hs.
    replace (pending (if bool_decide (is_Some a) then _ else _)) with (pending p')
      by by destruct (bool_decide (is_Some a)).
    by rewrite Permutation_app_swap_app.
  - apply Hperm. simpl. unfold register_waker. by rewrite !fmap_app, set_waker_reservations.
  - apply Hperm. simpl. unfold clear_waker. by rewrite !fmap_app, set_waker_reservations.
  - rewrite drain_slot_spec. by destruct (broker_ready p).
  - unfold snapshot_pending_sends. cbv zeta.
    match goal with |- context [snapshot_loop ?l ?q] =>
      pose proof (snapshot_loop_spec l q) as Hs; destruct (snapshot_loop l q) as [[[w d] sn] p'] end.
    destruct Hs as (-> & -> & _ & _). apply Hperm. simpl. rewrite app_nil_r, !fmap_app.
    rewrite <- (snapshot_reservations (pending p)). by rewrite Permutation_app_swap_app.
  - by apply Hperm.
  - destruct (on_producer_success_queues producer_name last_sequence_id snaps p) as (_ & Hpe & _ & _).
    apply Hperm. cbn [sl_state sl_snapshots app charged]. by rewrite Hpe.
  - unfold sweep_timeouts, drain_timed_out_sends. destruct (send_timeout p) as [t|]; [|done].
    pose proof (drain_expired_split now t (pending p) (pending_index p)) as Hd.
    destruct (drain_expired _ _ _ _) as [[out kept] m]. destruct Hd as [Hd _]. apply Hperm. simpl.
    rewrite Hd, !fmap_app. by rewrite Permutation_app_swap_app.
  - pose proof (sweep_snapshots_fields now snaps p) as Hs.
    pose proof (sweep_snapshots_split now snaps p) as Hsp.
    destruct (sweep_snapshots now snaps p) as [[out rest] p']. destruct Hs as [Ha _], Hsp as [-> _].
    apply Hperm. simpl. by rewrite Ha, !fmap_app, <- app_assoc.
  - by apply Hperm.
  - apply Hperm. simpl. rewrite app_nil_r, !fmap_app. by rewrite Permutation_app_comm.
Qed.

(** ** Order on the wire *)

(** Whatever the interleaving of sends, flushes, receipts, sweeps, resets
    and re-attachments, the frames put on the wire since the last attachment
    followed by those staged are in sequence-id order, the sends awaiting a
    receipt are in strictly increasing order, replays included, and an
    unflushed batch holds the latest ids, after every frame already staged:
    nothing overtakes it. *)
Theorem wire_in_order ok s :
  reachable hist_record compress ok s ->
  let p := sl_state s in
  StronglySorted Z.le (of_sequence_id <$> sl_wire s ++ outbound p)
  /\ StronglySorted Z.lt (seqs (sl_snapshots s ++ pending p))
  /\ (batch_is_empty (batch p) = false ->
      exists lo, lowest_sequence_id (batch p) = Some lo
        /\ highest_sequence_id (batch p) = Some (lo + batch_len (batch p) - 1)
        /\ next_sequence_id p = lo + batch_len (batch p)
        /\ Forall (fun f => of_sequence_id f < lo) (sl_wire s ++ outbound p)).
Proof.
  intros Hr. pose proof (inv_reachable _ _ _ _ Hr) as [_ [_ Hs _ _ _ Hw Hf _ _ [Hlo Hhi]]].
  rewrite <- fmap_app, <- list_fmap_compose in Hs. change (fst ∘ core) with op_sequence_id in Hs.
  split_and!; [done|done|]. intros Hb. rewrite Hb in Hlo. rewrite (Hhi Hb).
  eexists. unfold batch_len. split_and!; [exact Hlo|f_equal; lia|lia|done].
Qed.

(** ** One send *)

(** An accepted send adds exactly one op to the queue, under the next
    sequence id, holding the whole reservation, and the id handed back to the
    caller is that op's; a rejected one adds nothing, consumes no id and
    leaves the reservation to the caller. *)
Theorem send_accounted uuid msg res pt now p :
  0 <= next_sequence_id p < 2 ^ 63 ->
  let '(id, res', p') := slot_queue_send_reserved compress uuid msg res pt now p in
  match id with
  | Some q =>
      exists op, pending p' = pending p ++ [op] /\ op_sequence_id op = q
        /\ q = next_sequence_id p /\ next_sequence_id p' = q + 1
        /\ op_reservation op = res /\ op_waker op = None /\ op_enqueued_at op = now
        /\ res' = empty_reservation
  | None => pending p' = pending p /\ next_sequence_id p' = next_sequence_id p /\ res' = res
  end.
Proof.
  intros Hn. unfold slot_queue_send_reserved.
  destruct (queue_send_reserved _ _ _ _ _ _ _) as [[r res'] p'] eqn:Hq.
  apply send_outcome in Hq
    as [(d & op & -> & -> & (Hpe & _ & Hs & Hnx & Hpu) & Hres & Hnow & Hwk)|(e & -> & -> & [Hpe _ Hnx _])]; [|done].
  assert (Hid : pushed_sequence_id p' = next_sequence_id p).
  { unfold pushed_sequence_id. rewrite Hpu. unfold as_signed. rewrite Z.mod_small by lia.
    case_match; [|lia]. rewrite Z.max_l by lia. unfold as_unsigned. rewrite Z.mod_small; lia. }
  exists op. rewrite Hid, Hnx, wrapping_succ by (unfold u64_max; lia). by split_and!.
Qed.
End Queue.
