(* ===== verification/ProducerReplay.v ===== *)
(** What a re-attachment of a producer stages again: [ProducerSuccess] on a
    slot with or without the publishes a reset parked, for every reachable slot
    of [ProducerSpec].

    [whole] is the invariant behind it: the frames kept for the replay of a
    pending send are staged all or not at all. *)

From S2P Require Import Prelude Time Ids Txn MemoryLimit Producer ProducerSpec ProducerQueue.

(** The frames that carry a sequence id, in queue order. *)
Definition with_id (q : Z) (fs : list OutboundFrame) : list OutboundFrame :=
  filter (fun f => of_sequence_id f = q) fs.

Abbreviation carrying q := (Forall (fun f => of_sequence_id f = q)).

Lemma with_id_app q a b : with_id q (a ++ b) = with_id q a ++ with_id q b.
Proof. apply filter_app. Qed.

Lemma with_id_none q fs : (forall f, f ∈ fs -> of_sequence_id f <> q) -> with_id q fs = [].
Proof.
  unfold with_id. induction fs as [|f fs IH]; intros Hn; [done|].
  rewrite filter_cons, decide_False by (apply Hn; left). apply IH. intros g Hg. apply Hn. by right.
Qed.

Lemma with_id_all q fs : carrying q fs -> with_id q fs = fs.
Proof.
  unfold with_id. induction 1 as [|f fs Hf Hfs IH]; [done|]. by rewrite filter_cons, decide_True, IH.
Qed.

Lemma with_id_absent q fs : q ∉ of_sequence_id <$> fs <-> with_id q fs = [].
Proof.
  split; [intros Hq; apply with_id_none; intros f Hf <-; by apply Hq, list_elem_of_fmap_2|].
  intros Hn (f & -> & Hf)%list_elem_of_fmap.
  assert (Hin : f ∈ with_id (of_sequence_id f) fs) by by apply list_elem_of_filter.
  rewrite Hn in Hin. by apply not_elem_of_nil in Hin.
Qed.

Abbreviation replayable l := (Forall (fun c : Z * list OutboundFrame => carrying c.1 c.2) l).

(** The frames kept for one send among those of a queue. *)
Lemma with_id_other l q : replayable l -> q ∉ fst <$> l -> with_id q (kept_frames l) = [].
Proof.
  intros Hr Hq. apply with_id_none. intros f Hf <-.
  apply kept_frames_elem in Hf as (c & Hc & _ & He); [|done]. apply Hq. rewrite He. by apply list_elem_of_fmap_2.
Qed.

Lemma with_id_kept l c :
  c ∈ l -> replayable l -> NoDup (fst <$> l) -> with_id c.1 (kept_frames l) = c.2.
Proof.
  intros Hc Hr Hd. induction l as [|d l IH]; [by apply not_elem_of_nil in Hc|].
  apply Forall_cons in Hr as [Hr1 Hr]. rewrite fmap_cons in Hd. apply NoDup_cons in Hd as [Hd1 Hd].
  change (kept_frames (d :: l)) with (d.2 ++ kept_frames l). rewrite with_id_app.
  apply elem_of_cons in Hc as [->|Hc].
  - by rewrite with_id_all, with_id_other, app_nil_r.
  - rewrite IH by done. rewrite with_id_none; [done|]. rewrite Forall_forall in Hr1.
    intros f Hf He. rewrite (Hr1 f Hf) in He. apply Hd1. rewrite He. by apply list_elem_of_fmap_2.
Qed.

Lemma kept_frames_source l f : f ∈ kept_frames l -> exists c, c ∈ l /\ f ∈ c.2.
Proof.
  unfold kept_frames. rewrite list_elem_of_In, in_concat. intros (fs & Hfs & Hf).
  apply list_elem_of_In, list_elem_of_fmap in Hfs as (c & -> & Hc). apply list_elem_of_In in Hf. by exists c.
Qed.

Lemma fst_inj {A} (l : list (Z * A)) c d : NoDup (fst <$> l) -> c ∈ l -> d ∈ l -> c.1 = d.1 -> c = d.
Proof.
  intros Hd (i & Hi)%list_elem_of_lookup (j & Hj)%list_elem_of_lookup He.
  assert (i = j); [|congruence]. eapply NoDup_lookup; [exact Hd|..]; rewrite list_lookup_fmap; [by rewrite Hi|].
  by rewrite Hj, He.
Qed.

Section Replay.
Context {Hist : Type}.
Variable hist_record : Hist -> Z -> Hist.
Variable compress : CompressionKind -> bytes -> option bytes.
Context `{!ProtoMessage SingleMessageMetadata}.

Implicit Types p : ProducerState Hist.

(** ** A send's frames are staged together *)

Definition staged_whole (out : list OutboundFrame) (c : Z * list OutboundFrame) : Prop :=
  c.2 <> [] -> with_id c.1 out = [] \/ with_id c.1 out = c.2.

Definition whole p : Prop := Forall (staged_whole (outbound p)) (core <$> pending p).

Lemma whole_shrinks p p' : shrinks p p' -> whole p -> whole p'.
Proof. intros [_ _ Ho Hp] Hw. unfold whole. rewrite Ho. by eapply Forall_sublist. Qed.

(** Frames of other sends behind the queue change nothing. *)
Lemma staged_whole_app out fs c :
  (c.2 <> [] -> with_id c.1 fs = []) -> staged_whole out c -> staged_whole (out ++ fs) c.
Proof. intros Hf Hw Hne. rewrite with_id_app, (Hf Hne), app_nil_r. auto. Qed.

Lemma whole_flush snaps wire pt p :
  inv (mkSlot p snaps wire) -> whole p -> whole (snd (flush_batch compress pt p)).
Proof.
  intros [_ Ho] Hw. simpl in Ho. unfold flush_batch.
  destruct (batch_is_empty (batch p)) eqn:Hb; [done|]. destruct (closed p); simpl; [done|].
  unfold whole in *. simpl. destruct Ho as [_ _ _ _ Hfr _ _ _ _ [Hlo _]]. rewrite Hb in Hlo.
  apply Forall_app in Hfr as [_ Hfr]. rewrite Forall_forall in Hfr, Hw. apply Forall_forall.
  intros c Hc. apply staged_whole_app; [|auto]. intros Hne. apply with_id_none.
  intros f ->%list_elem_of_singleton. rewrite batch_frame_seq, Hlo. simpl. specialize (Hfr c Hc Hne). lia.
Qed.

Lemma whole_flushes snaps wire pt p p' :
  flushes compress pt p p' -> inv (mkSlot p snaps wire) -> whole p -> whole p'.
Proof. induction 1 as [|? ? ? -> ? IH]; eauto using inv_flush, whole_flush. Qed.

(** A send on its own queues one op with all its frames. *)
Definition emitted (op : OpSend) p p' : Prop :=
  pending p' = pending p ++ [op] /\ outbound p' = outbound p ++ op_replay_frames op
  /\ op_sequence_id op = next_sequence_id p /\ carrying (next_sequence_id p) (op_replay_frames op).

Lemma whole_emitted snaps wire op p p' :
  inv (mkSlot p snaps wire) -> emitted op p p' -> whole p -> whole p'.
Proof.
  intros [_ Ho] (Hp & Hout & Hq & Hfs) Hw. simpl in Ho.
  destruct Ho as [_ _ Hr _ _ _ Hof _ _ _]. apply Forall_app in Hr as [_ Hr], Hof as [_ Hof].
  pose proof (blen_nonneg (messages (batch p))).
  unfold whole in *. rewrite Hp, Hout, fmap_app. apply Forall_app. split.
  - rewrite Forall_forall in Hr, Hw. rewrite Forall_forall in Hfs. apply Forall_forall. intros c Hc.
    apply staged_whole_app; [|auto]. intros _. apply with_id_none. intros f Hf.
    rewrite (Hfs f Hf). specialize (Hr c Hc). lia.
  - apply Forall_singleton. intros _. right. simpl. rewrite Hq, with_id_app, (with_id_all _ (op_replay_frames op)) by done.
    rewrite with_id_none; [done|]. intros f Hf. rewrite Forall_forall in Hof. specialize (Hof f Hf). lia.
Qed.

Lemma emit_single_emitted msg res pt now p : exists op, emitted op p (snd (emit_single msg res pt now p)).
Proof.
  unfold emit_single. cbv zeta. simpl snd.
  match goal with |- context [push_pending ?op _] => exists op end. split_and!; try done. by repeat constructor.
Qed.

Lemma emit_chunked_emitted uuid msg res pt now p :
  exists op, emitted op p (snd (emit_chunked uuid msg res pt now p)).
Proof.
  unfold emit_chunked. cbv zeta. simpl snd.
  match goal with |- context [foldl push_chunk ?q ?fs] =>
    destruct (push_chunks_fields fs q) as (Hout & Hpend & _);
    set (p' := foldl push_chunk q fs) in *; set (frames := fs) in *; clearbody p' end.
  match goal with |- context [push_pending ?op _] => exists op end.
  unfold emitted. simpl in *. rewrite Hpend, Hout. split_and!; try done.
  subst frames. rewrite Forall_fmap. by apply Forall_true.
Qed.

Lemma whole_batched msg res now p : whole p -> whole (snd (add_to_batch msg res now p)).
Proof. intros Hw. unfold whole in *. simpl. rewrite fmap_app. apply Forall_app. split; [done|]. by repeat constructor. Qed.

Lemma whole_send snaps wire uuid msg res pt now p r res' p' :
  next_sequence_id p < u64_max -> inv (mkSlot p snaps wire) ->
  queue_send_reserved compress uuid msg res pt now p = (r, res', p') -> whole p -> whole p'.
Proof.
  intros Hlt Hinv Hq Hw. apply queue_send_shape in Hq.
  destruct Hq as [e p' Hf|p1 p2 Hf ? ->|p1 msg' Hf ? Hb|p1 msg' Hf ? Hb];
    pose proof (flushes_next _ _ _ _ Hf) as Hnx; pose proof (inv_flushes _ _ _ _ _ _ Hf Hinv) as Hi;
    pose proof (whole_flushes _ _ _ _ _ Hf Hinv Hw) as Hw1; [done|..].
  - unfold flush_batch_if_full. repeat case_match; try (by apply whole_batched);
      (eapply whole_flush; [apply inv_add_to_batch; [by rewrite Hnx|exact Hi]|by apply whole_batched]).
  - destruct (emit_chunked_emitted uuid msg' res pt now p1). by eapply whole_emitted.
  - destruct (emit_single_emitted msg' res pt now p1). by eapply whole_emitted.
Qed.

(** ** A re-attachment *)

(** The sends a re-attachment stages again, the parked ones first. *)
Definition unstaged snaps p : list (Z * list OutboundFrame) :=
  (core <$> snaps) ++ filter (fun c => c.1 ∉ of_sequence_id <$> outbound p) (core <$> pending p).

Lemma attach_queues n last snaps p :
  let p' := on_producer_success n last (bucket snaps) p in
  outbound p' = kept_frames (unstaged snaps p) ++ outbound p /\ pending p' = snaps ++ pending p.
Proof.
  destruct (on_producer_success_queues n last snaps p) as (H1 & H2 & _). cbv zeta. split; [|done].
  rewrite H1, unstaged_frames_kept. unfold unstaged, kept_frames. by rewrite fmap_app, concat_app, <- app_assoc.
Qed.

Lemma unstaged_sublist snaps p : sublist (unstaged snaps p) (core <$> snaps ++ pending p).
Proof. unfold unstaged. rewrite fmap_app. apply sublist_app; [done|apply sublist_filter]. Qed.

Lemma sorted_nodup (l : list Z) : StronglySorted Z.lt l -> NoDup l.
Proof.
  induction 1 as [|x l Hl IH Hx]; constructor; [|done].
  rewrite Forall_forall in Hx. intros Hin%Hx. lia.
Qed.

Lemma inv_fst_nodup snaps wire p :
  inv (mkSlot p snaps wire) -> NoDup (fst <$> (core <$> snaps ++ pending p)).
Proof. intros [_ Ho]. simpl in Ho. rewrite fmap_app. apply sorted_nodup, (o_pending _ _ _ _ _ _ _ Ho). Qed.

Lemma unstaged_facts snaps wire p :
  inv (mkSlot p snaps wire) -> replayable (unstaged snaps p) /\ NoDup (fst <$> unstaged snaps p).
Proof.
  intros Hinv. pose proof (inv_fst_nodup _ _ _ Hinv) as Hd. pose proof (unstaged_sublist snaps p) as Hu.
  split; [|eapply sublist_NoDup; [exact Hd|by apply fmap_sublist]].
  destruct Hinv as [_ Ho]. simpl in Ho. eapply Forall_sublist; [exact Hu|]. rewrite fmap_app.
  apply (o_replay _ _ _ _ _ _ _ Ho).
Qed.

(** Every send with kept frames is staged whole afterwards, whatever was
    staged before. *)
Lemma attach_stages snaps wire n last p c :
  inv (mkSlot p snaps wire) -> whole p -> c ∈ core <$> snaps ++ pending p -> c.2 <> [] ->
  with_id c.1 (outbound (on_producer_success n last (bucket snaps) p)) = c.2.
Proof.
  intros Hinv Hw Hc Hne. destruct (attach_queues n last snaps p) as [-> _]. rewrite with_id_app.
  destruct (unstaged_facts _ _ _ Hinv) as [Hr Hd]. destruct Hinv as [_ Ho]. simpl in Ho.
  destruct Ho as [_ Hs _ _ _ _ _ Hsn _ _].
  destruct (decide (c.1 ∈ of_sequence_id <$> outbound p)) as [Hst|Hst].
  - assert (Hcp : c ∈ core <$> pending p).
    { rewrite fmap_app in Hc. apply elem_of_app in Hc as [Hc|]; [|done]. exfalso.
      rewrite Forall_forall in Hsn. destruct (Hsn c Hc) as [_ Hlt].
      apply list_elem_of_fmap in Hst as (f & He & Hf). rewrite Forall_forall in Hlt. specialize (Hlt f Hf). lia. }
    unfold whole in Hw. rewrite Forall_forall in Hw. destruct (Hw c Hcp Hne) as [Hz|Hz].
    { by apply with_id_absent in Hz. }
    rewrite Hz, with_id_other; [done|done|]. unfold unstaged. rewrite fmap_app. intros Hin.
    apply elem_of_app in Hin as [Hin|(d & Hd1 & [Hd2 _]%list_elem_of_filter)%list_elem_of_fmap]; [|by rewrite Hd1 in Hst].
    rewrite fmap_app in Hs. apply StronglySorted_app in Hs as (Hlt & _ & _).
    specialize (Hlt _ _ Hin (list_elem_of_fmap_2 fst _ _ Hcp)). lia.
  - rewrite (proj1 (with_id_absent _ _) Hst), app_nil_r. apply with_id_kept; [|done..].
    unfold unstaged. rewrite fmap_app in Hc. apply elem_of_app in Hc as [Hc|Hc]; apply elem_of_app; [by left|right].
    by apply list_elem_of_filter.
Qed.

Lemma whole_attach snaps wire n last p :
  inv (mkSlot p snaps wire) -> whole p -> whole (on_producer_success n last (bucket snaps) p).
Proof.
  intros Hinv Hw. unfold whole. destruct (attach_queues n last snaps p) as [_ ->].
  apply Forall_forall. intros c Hc Hne. right. by eapply attach_stages.
Qed.

Lemma whole_exec e s :
  enabled e s -> inv s -> whole (sl_state s) -> whole (sl_state (snd (exec hist_record compress e s))).
Proof.
  destruct s as [p snaps wire]. intros He Hinv Hw. destruct e; simpl in *.
  - destruct (slot_queue_send_reserved _ _ _ _ _ _ _) as [[r res'] p'] eqn:Hq. simpl.
    unfold slot_queue_send_reserved in Hq.
    destruct (queue_send_reserved _ _ _ _ _ _ _) as [[r0 res0] p0] eqn:Hq0. simplify_eq.
    by eapply whole_send.
  - by eapply whole_flush.
  - unfold on_send_receipt. cbv zeta.
    match goal with |- context [receipt_loop hist_record ?r ?n ?l p] =>
      pose proof (receipt_loop_shrinks hist_record r n l p) as Hs; destruct (receipt_loop hist_record r n l p) as [a p'] end.
    simpl in *. eapply whole_shrinks; [|done]. etrans; [exact Hs|]. case_match; by split.
  - unfold on_send_error. pose proof (apply_send_error_shrinks err p) as Hs.
    destruct (apply_send_error err p) as [a p']. simpl in *. eapply whole_shrinks; [|done].
    etrans; [exact Hs|]. case_match; by split.
  - eapply whole_shrinks; [apply set_waker_shrinks|done].
  - eapply whole_shrinks; [apply set_waker_shrinks|done].
  - rewrite drain_slot_spec. destruct (broker_ready p); simpl; [|done].
    apply Forall_forall. intros c _ _. by left.
  - unfold snapshot_pending_sends. cbv zeta. destruct (snapshot_loop _ _) as [[[??]?]?].
    by apply Forall_nil.
  - done.
  - by eapply whole_attach.
  - pose proof (sweep_timeouts_shrinks now p) as Hs. destruct (sweep_timeouts now p). simpl in *.
    by eapply whole_shrinks.
  - pose proof (sweep_snapshots_split now snaps p) as Hs.
    destruct (sweep_snapshots now snaps p) as [[??]?]. destruct Hs as [-> Hs]. simpl. by eapply whole_shrinks.
  - done.
  - by apply Forall_nil.
Qed.

Lemma whole_reachable ok s : reachable hist_record compress ok s -> whole (sl_state s).
Proof.
  induction 1 as [p (Hp & _)|s e Hr IH Hok He]; [unfold whole; simpl; rewrite Hp; by apply Forall_nil|].
  apply whole_exec; [done|by eapply inv_reachable|done].
Qed.

(** C40: a re-attachment replays every unbatched send and no flushed batch.
    From every reachable slot, whether the producer re-attaches after a reset
    (with parked publishes) or in place on a live connection, nothing fails: the
    parked sends come back ahead of the pending ones. A send that keeps its
    frames (unbatched or chunked) is staged afterwards with exactly those frames,
    all of them once and in order, even when they were still staged. What is
    staged anew is only kept frames, so a batched send whose batch had been
    flushed gets no frame: if the batch frame had left the queue, the send
    stays pending with nothing on its way to the broker. *)
Theorem reattach_replays_exactly ok s n last :
  reachable hist_record compress ok s ->
  let p := sl_state s in
  let '(failed, s') := exec hist_record compress (EvAttach n last) s in
  let p' := sl_state s' in
  failed = [] /\ pending p' = sl_snapshots s ++ pending p
  /\ (forall op, op ∈ pending p' -> replays op ->
        with_id (op_sequence_id op) (outbound p') = op_replay_frames op)
  /\ (forall op, op ∈ pending p' -> ~ replays op ->
        with_id (op_sequence_id op) (outbound p') = with_id (op_sequence_id op) (outbound p))
  /\ exists again, outbound p' = again ++ outbound p
       /\ forall f, f ∈ again -> exists op, op ∈ pending p' /\ f ∈ op_replay_frames op.
Proof.
  intros Hr. pose proof (inv_reachable _ _ _ _ Hr) as Hinv. pose proof (whole_reachable _ _ Hr) as Hw.
  destruct s as [p snaps wire]. cbn [exec sl_state sl_snapshots] in *.
  destruct (attach_queues n last snaps p) as [Hout Hpend].
  destruct (unstaged_facts _ _ _ Hinv) as [Hre Hd]. pose proof (unstaged_sublist snaps p) as Hu.
  split_and!; [done|done|..].
  - intros op Hop Hne. rewrite Hpend in Hop.
    by apply (attach_stages snaps wire n last p (core op) Hinv Hw (list_elem_of_fmap_2 core _ _ Hop)).
  - intros op Hop Hne. rewrite Hpend in Hop. rewrite Hout, with_id_app.
    rewrite with_id_none; [done|]. intros f Hf He.
    apply kept_frames_elem in Hf as (c & Hc & Hne' & Hs); [|done]. apply Hne. unfold replays.
    replace (op_replay_frames op) with c.2; [done|].
    rewrite (fst_inj (core <$> snaps ++ pending p) c (core op)); [done|..|by rewrite <- Hs].
    + by apply (inv_fst_nodup _ _ _ Hinv).
    + by eapply elem_of_submseteq, sublist_submseteq.
    + by apply list_elem_of_fmap_2.
  - eexists. split; [exact Hout|]. intros f (c & Hc & Hf)%kept_frames_source. rewrite Hpend.
    assert (Hin : c ∈ core <$> snaps ++ pending p) by by eapply elem_of_submseteq, sublist_submseteq.
    apply list_elem_of_fmap in Hin as (op & -> & Hop). by exists op.
Qed.
End Replay.
