(* ===== verification/ProducerChunks.v ===== *)
(** Large payloads: the chunk frames of [emit_chunked], and the counterexamples
    the timeout sweep and an in-place re-attachment give rise to. *)

From S2P Require Import Prelude Time Ids Txn MemoryLimit Producer ProducerSpec ProducerQueue.

Arguments chunk_frame : simpl never.

Section Chunks.
Context {Hist : Type}.
Implicit Types p : ProducerState Hist.

Lemma max_chunk_payload_bounds p :
  0 < max_message_size p -> 0 < max_chunk_payload p <= max_message_size p.
Proof. unfold max_chunk_payload, CHUNK_METADATA_RESERVATION. case_match; lia. Qed.

(** The slices of consecutive chunks are a prefix of the payload. *)
Lemma chunks_prefix h seq msg md mc (n : nat) :
  0 < mc ->
  concat (of_payload <$> (chunk_frame h seq msg md mc <$> seqZ 0 (Z.of_nat n)))
  = btake (Z.of_nat n * mc) (om_payload msg).
Proof.
  intros Hmc. induction n as [|n IH]; [done|].
  rewrite seqZ_S, !fmap_app, concat_app, IH. simpl. rewrite app_nil_r.
  unfold chunk_frame, btake, bdrop. cbn [of_payload].
  rewrite take_take_drop. rewrite Z.add_0_l. set (l := om_payload msg). unfold blen.
  destruct (decide ((Z.of_nat n + 1) * mc <= Z.of_nat (length l))).
  - f_equal. rewrite Z.min_l by lia. lia.
  - rewrite Z.min_r by lia. rewrite !take_ge; [done|nia|nia].
Qed.

Lemma total_chunks_exact len mc :
  0 < mc -> 0 <= len <= i32_max -> 1 <= len ->
  compute_total_chunks len mc = (len + mc - 1) / mc
  /\ (compute_total_chunks len mc - 1) * mc < len <= compute_total_chunks len mc * mc.
Proof.
  intros Hmc Hlen H1. unfold compute_total_chunks, try_from_max.
  assert (Hq : 0 < mc) by done. destruct (mc =? 0) eqn:Hz; [lia|].
  pose proof (Z.div_mod (len + mc - 1) mc ltac:(lia)) as Hdm.
  pose proof (Z.mod_pos_bound (len + mc - 1) mc Hmc) as Hmod.
  set (q := (len + mc - 1) / mc) in *. assert (1 <= q) by nia. assert (q <= len) by nia.
  rewrite Z.max_r by lia. rewrite (proj2 (Z.leb_le q i32_max)) by lia. simpl. split; [done|nia].
Qed.

(** A chunked message is split losslessly: its frames, in order, carry
    chunk ids 0, 1, 2, ..., concatenate to the payload, are non-empty and none
    exceeds the maximum message size, and each one carries the chunk count,
    the total size, the uuid and the sequence id of the one op queued for it,
    which keeps the same frames for replay. *)
Lemma chunks_reassemble uuid msg res pt now p :
  0 < max_message_size p -> 1 <= blen (om_payload msg) <= i32_max ->
  let '(decision, p') := emit_chunked uuid msg res pt now p in
  exists frames,
    outbound p' = outbound p ++ frames
    /\ decision = Emit (blen frames)
    /\ concat (of_payload <$> frames) = om_payload msg
    /\ md_chunk_id ∘ of_metadata <$> frames = Some <$> seqZ 0 (blen frames)
    /\ Forall (fun f => 1 <= blen (of_payload f) <= max_message_size p
         /\ md_num_chunks_from_msg (of_metadata f) = Some (blen frames)
         /\ md_total_chunk_msg_size (of_metadata f) = Some (blen (om_payload msg))
         /\ md_uuid (of_metadata f) = Some uuid
         /\ of_sequence_id f = next_sequence_id p
         /\ cs_sequence_id (of_command f) = next_sequence_id p) frames
    /\ pending p' = pending p ++ [new_op (next_sequence_id p) 1 now frames res].
Proof.
  intros Hm Hlen. unfold emit_chunked. cbv zeta.
  pose proof (max_chunk_payload_bounds p Hm) as [Hmc Hmc'].
  destruct (total_chunks_exact (blen (om_payload msg)) (max_chunk_payload p)) as [_ Htc]; [lia..|].
  pose proof (compute_total_chunks_pos (blen (om_payload msg)) (max_chunk_payload p)) as Hpos.
  set (total := compute_total_chunks (blen (om_payload msg)) (max_chunk_payload p)) in *. clearbody total.
  match goal with |- context [foldl push_chunk ?q ?fs] =>
    destruct (push_chunks_fields fs q) as (Hout & Hpend & _ & _ & _ & _);
    set (p' := foldl push_chunk q fs) in *; set (frames := fs) in *; clearbody p' end.
  assert (Hn : blen frames = total).
  { subst frames. unfold blen. rewrite length_fmap, length_seqZ. lia. }
  exists frames. simpl. rewrite Hn. split_and!.
  - exact Hout.
  - done.
  - subst frames. rewrite <- (Z2Nat.id total) by lia. rewrite chunks_prefix by done.
    unfold btake. apply take_ge. unfold blen in Htc. nia.
  - subst frames. rewrite <- list_fmap_compose. done.
  - subst frames. rewrite Forall_fmap, Forall_forall. intros i Hi%elem_of_seqZ.
    cbn [compose]. split_and!; try done.
    + unfold chunk_frame. cbn [of_payload]. rewrite blen_btake; [nia|].
      rewrite blen_bdrop by nia. nia.
    + unfold chunk_frame. cbn [of_payload]. rewrite blen_btake; [nia|].
      rewrite blen_bdrop by nia. nia.
    + unfold stamp_txn, chunk_frame. by destruct (om_txn_id msg).
    + unfold stamp_txn, chunk_frame. destruct (om_txn_id msg); simpl; f_equal; apply as_signed_small; unfold i32_max in *; lia.
    + unfold stamp_txn, chunk_frame. by destruct (om_txn_id msg).
  - by rewrite Hpend.
Qed.
End Chunks.
