(* ===== verification/BatchBody.v ===== *)
(** Batched entries on the consumer side: [unpack_batch_members] and its helpers
    in [magnetar-proto/src/consumer.rs], and the round trip with the frames
    [flush_batch] builds on the producer side. *)

From S2P Require Import Prelude Ids Txn Frame Compress Producer ProducerSpec.

Arguments decompress : simpl never.
Arguments compress : simpl never.

Section BatchBody.
Context `{!Codecs, !ProtoMessage SingleMessageMetadata}.

Abbreviation BatchMember := (SingleMessageMetadata * bytes)%type.

(** The member and what is left of the body. *)
Definition next_batch_member (body : bytes) : option (BatchMember * bytes) :=
  if negb (blen body >=? 4) then None
  else
    let single_size := be_val (btake 4 body) in
    let body := bdrop 4 body in
    if negb (blen body >=? single_size) then None
    else
      let single_bytes := btake single_size body in
      let body := bdrop single_size body in
      single ← pb_decode single_bytes;
      if sm_payload_size single <? 0 then None
      else
        let payload_size := sm_payload_size single in
        if negb (blen body >=? payload_size) then None
        else Some ((single, btake payload_size body), bdrop payload_size body).

(** [from_fn(next_batch_member).take(wanted)] *)
Fixpoint take_members (wanted : nat) (body : bytes) : list BatchMember :=
  match wanted with
  | O => []
  | S wanted =>
      match next_batch_member body with
      | Some (m, body) => m :: take_members wanted body
      | None => []
      end
  end.

Definition split_batch_body (body : bytes) (num_in_batch : Z) : list BatchMember * bool :=
  let wanted := if num_in_batch <? 0 then O else Z.to_nat num_in_batch in
  let members := take_members wanted body in
  (members, bool_decide (length members = wanted)).

(** [.map(..).collect::<Option<Vec<_>>>()] with the shared budget *)
Fixpoint decode_members (codec : CompressionKind) (budget : Z) (members : list BatchMember)
    : option (list BatchMember) :=
  match members with
  | [] => Some []
  | (single, payload) :: rest =>
      match decompress_within codec payload budget with
      | Ok plain =>
          rest ← decode_members codec (saturating_sub budget (blen plain)) rest;
          Some ((single, plain) :: rest)
      | Err _ => None
      end
  end.

Definition legacy_batch_members (codec : CompressionKind) (body : bytes) (num_in_batch : Z)
    : option (list BatchMember) :=
  let '(members, complete) := split_batch_body body num_in_batch in
  if complete then decode_members codec MAX_FRAME_SIZE members else None.

(** [pb::CompressionType::try_from], then [kind_from_pb] *)
Definition compression_try_from (v : Z) : option CompressionKind :=
  if (0 <=? v) && (v <=? 4) then Some (compression_from_pb_i32 v) else None.

Definition unpack_batch_members (metadata : MessageMetadata) (body : bytes) (num_in_batch : Z)
    : list BatchMember * MessageMetadata :=
  let decode codec :=
    let java :=
      size ← md_uncompressed_size metadata;
      match decompress codec body size with
      | Ok whole => Some (split_batch_body whole num_in_batch)
      | Err _ => None
      end in
    let members :=
      match java with
      | Some (members, true) => members
      | java =>
          match legacy_batch_members codec body num_in_batch with
          | Some members => members
          | None => default [] (fst <$> java)
          end
      end in
    (members,
     match members with [] => metadata | _ => metadata <| md_compression := None |> end) in
  match md_compression metadata with
  | None => (fst (split_batch_body body num_in_batch), metadata)
  | Some v =>
      match compression_try_from v with
      | None => ([], metadata)
      | Some CNone => (fst (split_batch_body body num_in_batch), metadata)
      | Some codec => decode codec
      end
  end.

(** ** Round trip with the producer *)

Context `{!CodecLaws, !ProtoLaws SingleMessageMetadata}.

(** A member as [add_to_batch] makes it, of a size the wire can express. *)
Definition member_ok (m : BatchMember) : Prop :=
  (exists md, m.1 = single_metadata md m.2) /\ blen m.2 <= i32_max /\ encoded_len m.1 <= u32_max.

Lemma next_pack_member m rest :
  member_ok m -> next_batch_member (pack_member m ++ rest) = Some (m, rest).
Proof.
  destruct m as [single payload]. intros ([md Hsm] & Hlen & Henc). simpl in *.
  pose proof (blen_nonneg payload).
  assert (Hsz : sm_payload_size single = blen payload).
  { rewrite Hsm. simpl. unfold try_from_max. by rewrite (proj2 (Z.leb_le _ _) Hlen). }
  clear Hsm md. unfold next_batch_member, pack_member. simpl.
  rewrite <- !app_assoc. unfold encoded_len in *. pose proof (blen_nonneg (pb_encode single)).
  pose proof (blen_nonneg rest).
  rewrite (proj2 (Z.geb_le _ _)) by (rewrite !blen_app, blen_be_bytes; lia). simpl.
  rewrite btake_app, bdrop_app by apply blen_be_bytes.
  rewrite be_val_be_bytes_small by (simpl; unfold u32_max in *; lia).
  rewrite (proj2 (Z.geb_le _ _)) by (rewrite !blen_app; lia). simpl.
  rewrite btake_app, bdrop_app by done. rewrite pb_decode_encode. simpl. rewrite Hsz.
  rewrite (proj2 (Z.ltb_ge _ _)) by lia.
  rewrite (proj2 (Z.geb_le _ _)) by (rewrite !blen_app; lia). simpl.
  by rewrite btake_app, bdrop_app.
Qed.

Lemma take_pack_batch ms rest :
  Forall member_ok ms -> take_members (length ms) (pack_batch ms ++ rest) = ms.
Proof.
  induction 1 as [|m ms Hm Hms IH]; [done|]. unfold pack_batch. rewrite fmap_cons. simpl.
  rewrite <- app_assoc, next_pack_member by done. by f_equal.
Qed.

Lemma split_pack_batch ms :
  Forall member_ok ms -> split_batch_body (pack_batch ms) (blen ms) = (ms, true).
Proof.
  intros Hms. unfold split_batch_body. pose proof (blen_nonneg ms).
  rewrite (proj2 (Z.ltb_ge _ _)) by lia. unfold blen. rewrite Nat2Z.id.
  rewrite <- (app_nil_r (pack_batch ms)), take_pack_batch by done.
  by rewrite bool_decide_true.
Qed.

Context {Hist : Type}.

(** [crate::compress::compress(..).ok()] *)
Definition compress_ok (kind : CompressionKind) (b : bytes) : option bytes :=
  match compress kind b with Ok c => Some c | Err _ => None end.

(** The body and the fields of the metadata that say how to read it. *)
Lemma batch_frame_body pt (p : ProducerState Hist) :
  let f := batch_frame compress_ok pt p in
  let body := pack_batch (messages (batch p)) in
  md_num_messages_in_batch (of_metadata f) = Some (as_signed 32 (batch_len (batch p)))
  /\ match (if bool_decide (compression p = CNone) then None else compress_ok (compression p) body) with
     | Some c => of_payload f = c
         /\ md_compression (of_metadata f) = Some (compression_to_pb (compression p))
         /\ md_uncompressed_size (of_metadata f) = try_from_max u32_max (blen body)
     | None => of_payload f = body /\ md_compression (of_metadata f) = None
     end.
Proof.
  unfold batch_frame. cbv zeta.
  destruct (if bool_decide (compression p = CNone) then None
            else compress_ok (compression p) (pack_batch (messages (batch p)))) as [c|] eqn:Hc.
  - assert (Hne : compression p <> CNone) by (intros He; by rewrite bool_decide_true in Hc).
    cbn [of_metadata of_payload]. rewrite (bool_decide_false (compression p = CNone)) by done.
    destruct (try_from_max u32_max _), (_ >? _), (name p), (batch_txn_id (batch p)); done.
  - cbn [of_metadata of_payload]. rewrite (bool_decide_true (CNone = CNone)) by done.
    destruct (try_from_max u32_max _), (_ >? _), (name p), (batch_txn_id (batch p)); done.
Qed.

(** The consumer takes apart every batch the producer packs: whatever the
    codec, and whether or not compression succeeded, unpacking the frame of a
    flushed batch gives back exactly its members, metadata and payloads, in
    order, and marks them as plaintext. *)
Lemma batch_roundtrip pt (p : ProducerState Hist) :
  let ms := messages (batch p) in
  let f := batch_frame compress_ok pt p in
  ms <> [] -> Forall member_ok ms -> blen ms <= i32_max -> blen (pack_batch ms) <= MAX_FRAME_SIZE ->
  md_num_messages_in_batch (of_metadata f) = Some (blen ms)
  /\ fst (unpack_batch_members (of_metadata f) (of_payload f) (blen ms)) = ms
  /\ md_compression (snd (unpack_batch_members (of_metadata f) (of_payload f) (blen ms))) = None.
Proof.
  intros ms f Hne Hok Hlen Hsize. destruct (batch_frame_body pt p) as [Hnum Hbody]. fold f in Hnum, Hbody.
  pose proof (blen_nonneg (pack_batch ms)). pose proof (blen_nonneg ms).
  split; [rewrite Hnum; f_equal; apply as_signed_small; unfold batch_len, i32_max in *; fold ms; lia|].
  fold ms in Hbody. unfold unpack_batch_members.
  destruct (bool_decide (compression p = CNone)) eqn:Hk.
  { destruct Hbody as [-> Hcomp]. rewrite Hcomp, split_pack_batch by done. by split. }
  apply bool_decide_eq_false in Hk. unfold compress_ok in Hbody.
  destruct (compress (compression p) (pack_batch ms)) as [c|e] eqn:Hc; simpl in Hbody;
    [|destruct Hbody as [-> Hcomp]; rewrite Hcomp, split_pack_batch by done; by split].
  destruct Hbody as (-> & -> & ->).
  assert (Htry : compression_try_from (compression_to_pb (compression p)) = Some (compression p)).
  { by destruct (compression p). }
  rewrite Htry. unfold try_from_max.
  rewrite (proj2 (Z.leb_le (blen (pack_batch ms)) u32_max)) by (unfold MAX_FRAME_SIZE, u32_max in *; lia).
  cbn [mbind option_bind].
  rewrite (decompress_compress _ _ _ Hsize Hc), split_pack_batch by done.
  clear Hnum. clearbody f. destruct (compression p); try done; by destruct ms.
Qed.
End BatchBody.
