(* ===== verification/Consumer.v ===== *)
(** The consumer state machine: [magnetar-proto/src/consumer.rs], and the parts
    of [conn.rs] that drive one consumer (the [Message], [ActiveConsumerChange],
    [CloseConsumer] and subscribe [Success] arms, the reset, the flow and seek
    entry points and the consumer part of [handle_timeout]).

    The state has the fields these operations read or write; not in it are the
    names, the ordinary-close bookkeeping, the acknowledgement and negative-ack
    trackers (modelled in [Trackers]), the pending transactional acks, the
    canonical negative-ack ids and the floating-point rate window.  The crate is taken with its
    [scalable-topics] feature.  The latency histogram and the waker slab are
    third-party and parameters. *)

From S2P Require Import Prelude Time Ids Compress Trackers MemoryLimit ReceiverQueue BatchAck Producer BatchBody.
Import Trackers.Unacked.

(** * Wire messages *)

Record CommandMessage := mkCommandMessage {
  cm_consumer_id : Z;
  cm_message_id : MessageIdData;
  cm_redelivery_count : option Z;
  cm_ack_set : list Z;
  cm_consumer_epoch : option Z;
}.

Record CommandFlow := mkFlow { cf_consumer_id : Z; cf_message_permits : Z }.

Record BrokerEntryMetadata := mkBem { be_broker_timestamp : option Z; be_index : option Z }.

(** * Data *)

#[global] Instance MessageId_eta : Eta MessageId := fun m =>
  mkMessageId (ledger_id m) (entry_id m) (partition m) (batch_index m) (batch_size m).

Record IncomingMessage := mkIncoming {
  im_message_id : MessageId;
  im_metadata : MessageMetadata;
  im_single_metadata : option SingleMessageMetadata;
  im_payload : bytes;
  im_redelivery_count : Z;
  im_broker_entry_metadata : option BrokerEntryMetadata;
  im_arrived_at : Z;
}.

Record DeferredIncomingMessage := mkDeferred {
  df_message : IncomingMessage;
  df_message_id_data : MessageIdData;
  df_ack_set : list Z;
  df_dispatch_permits : Z;
}.

Record StallWatch := mkStallWatch { sw_mark : Z; sw_since : Z; sw_reported : bool }.

Definition DEFAULT_MAX_PENDING_CHUNKED_MESSAGE : Z := 10.
Definition ACTIVE_CHANGES_CAP : Z := 32.
Definition DEFAULT_EXPIRE_TIME_OF_INCOMPLETE_CHUNKED_MESSAGE : Z := from_mins 1.
Definition MAX_CHUNK_TOTAL : Z := 10000.
Definition MAX_BUFFERED_CHUNK_BYTES : Z := 128 * 1024 * 1024.

Record ChunkBuffer := mkChunkBuffer {
  cb_expected_chunks : Z;
  cb_received_chunks : Z;
  cb_received_at : Z;
  cb_chunk_payloads : gmap Z bytes;
  cb_first_metadata : MessageMetadata;
  cb_first_chunk_message_id : option MessageId;
  cb_broker_entry_metadata : option BrokerEntryMetadata;
  cb_redelivery_count : Z;
}.

#[global] Instance ChunkBuffer_eta : Eta ChunkBuffer := fun b =>
  mkChunkBuffer (cb_expected_chunks b) (cb_received_chunks b) (cb_received_at b)
    (cb_chunk_payloads b) (cb_first_metadata b) (cb_first_chunk_message_id b)
    (cb_broker_entry_metadata b) (cb_redelivery_count b).

Definition buffered_bytes (b : ChunkBuffer) : Z :=
  map_fold (fun _ chunk n => saturating_add usize_max n (blen chunk)) 0 (cb_chunk_payloads b).

Inductive DeliverOutcome :=
| Delivered (count : Z)
| Buffered
| Dropped.

Inductive ConsumerError :=
| ConsumerClosed
| UnknownConsumer (id : Z).

(** [Slab<Waker>] *)
Class WakerSlab (W : Type) := {
  ws_new : W;
  ws_insert : waker -> W -> Z * W;
  ws_contains : Z -> W -> bool;
  ws_remove : Z -> W -> W;
  ws_drain : W -> list waker * W;
}.

(** * State *)

Section State.
Context {P W Hist : Type}.

Record ConsumerState := mkConsumer {
  c_handle : Z;
  c_receiver_queue_size : Z;
  c_policy : P;
  c_queued_bytes : Z;
  c_adjust_interval : option Z;
  c_last_adjust_at : option Z;
  c_granted_permits : Z;
  c_permit_balance : Z;
  c_manual_flow_permits : Z;
  c_dispatch_units_received : Z;
  c_stall_watch : option StallWatch;
  c_stall_recovery_attempts : Z;
  c_consumed_since_flow : Z;
  c_queue : list IncomingMessage;
  c_deferred_queue : list DeferredIncomingMessage;
  c_defer_payload_processing : bool;
  c_chunk_reassembly : gmap string ChunkBuffer;
  c_chunk_reassembly_order : list string;
  c_chunk_buffered_bytes : Z;
  c_max_pending_chunked_message : Z;
  c_auto_ack_oldest : bool;
  c_expire_time : option Z;
  c_chunk_auto_ack_pending : list MessageId;
  c_pending_seek : option Z;
  c_receive_wakers : W;
  c_closed : bool;
  c_has_ever_attached : bool;
  c_transient_subscribe_attempts : Z;
  c_last_subscribe_error : option (Z * string);
  c_terminal_failure : option string;
  c_subscribe_waiter_id : option Z;
  c_subscribe_waiter_request : option Z;
  c_subscribe_waiter_completed : bool;
  c_flow_on_subscribe_ack : bool;
  c_flow_on_subscribe_ack_request : option Z;
  c_initial_grant_due : bool;
  c_max_redeliver_count : Z;
  c_dead_letter_pending : list IncomingMessage;
  c_paused : bool;
  c_reached_end_of_topic : bool;
  c_total_msgs_received : Z;
  c_total_bytes_received : Z;
  c_total_msgs_dead_lettered : Z;
  c_total_chunked_msgs_received : Z;
  c_unacked_tracker : option UnackedMessageTracker;
  c_batch_ack_tracker : gmap (Z * Z) BatchAckEntry;
  c_receive_latency_hist : option Hist;
  c_shadow_source_topic : option string;
  c_is_active : option bool;
  c_active_changes : list bool;
  c_active_change_wakers : W;
}.

#[global] Instance Consumer_eta : Eta ConsumerState := fun c =>
  mkConsumer (c_handle c) (c_receiver_queue_size c) (c_policy c) (c_queued_bytes c)
    (c_adjust_interval c) (c_last_adjust_at c) (c_granted_permits c) (c_permit_balance c)
    (c_manual_flow_permits c) (c_dispatch_units_received c) (c_stall_watch c)
    (c_stall_recovery_attempts c) (c_consumed_since_flow c) (c_queue c) (c_deferred_queue c)
    (c_defer_payload_processing c) (c_chunk_reassembly c) (c_chunk_reassembly_order c)
    (c_chunk_buffered_bytes c) (c_max_pending_chunked_message c) (c_auto_ack_oldest c)
    (c_expire_time c) (c_chunk_auto_ack_pending c) (c_pending_seek c) (c_receive_wakers c)
    (c_closed c) (c_has_ever_attached c) (c_transient_subscribe_attempts c)
    (c_last_subscribe_error c) (c_terminal_failure c) (c_subscribe_waiter_id c)
    (c_subscribe_waiter_request c) (c_subscribe_waiter_completed c) (c_flow_on_subscribe_ack c)
    (c_flow_on_subscribe_ack_request c) (c_initial_grant_due c) (c_max_redeliver_count c)
    (c_dead_letter_pending c) (c_paused c) (c_reached_end_of_topic c) (c_total_msgs_received c)
    (c_total_bytes_received c) (c_total_msgs_dead_lettered c) (c_total_chunked_msgs_received c)
    (c_unacked_tracker c) (c_batch_ack_tracker c) (c_receive_latency_hist c)
    (c_shadow_source_topic c) (c_is_active c) (c_active_changes c) (c_active_change_wakers c).

Context `{ReceiverQueuePolicy P, WakerSlab W}.

Definition with_policy (h : Z) (policy : P) (adjust_interval : option Z) (hist : option Hist)
    : ConsumerState :=
  mkConsumer h (rq_initial policy) policy 0 adjust_interval None 0 0 0 0 None 0 0 [] [] false
    ∅ [] 0 DEFAULT_MAX_PENDING_CHUNKED_MESSAGE false
    (Some DEFAULT_EXPIRE_TIME_OF_INCOMPLETE_CHUNKED_MESSAGE) [] None ws_new false false 0 None
    None None None false false None false 0 [] false false 0 0 0 0 None ∅ hist None None [] ws_new.
End State.
Arguments ConsumerState : clear implicits.

Section Operations.
Context {P W Hist : Type} `{ReceiverQueuePolicy P, WakerSlab W}.
Context `{!Codecs, !ProtoMessage SingleMessageMetadata}.
(** [Histogram::saturating_record] *)
Variable hist_record : Hist -> Z -> Hist.

Abbreviation state := (ConsumerState P W Hist).
Implicit Types c : state.

(** * Flow control *)

Definition flow_threshold c : Z := as_unsigned 32 (Z.max (c_receiver_queue_size c / 2) 1).

Definition is_flow_starved c : bool :=
  (c_permit_balance c =? 0)
  && (saturating_add usize_max (c_consumed_since_flow c) (blen (c_queue c)) <? flow_threshold c).

Definition clear_stall_watch c : state := c <| c_stall_watch := None |>.

Definition maybe_flow c : option CommandFlow * state :=
  if c_closed c || bool_decide (is_Some (c_pending_seek c)) || c_paused c
     || (c_receiver_queue_size c =? 0)
  then (None, c)
  else if c_consumed_since_flow c <? flow_threshold c then (None, c)
  else
    let permits := c_consumed_since_flow c in
    (Some (mkFlow (c_handle c) permits),
     clear_stall_watch
       (c <| c_consumed_since_flow := 0 |>
          <| c_granted_permits ::= fun g => saturating_add u32_max g permits |>
          <| c_permit_balance ::= fun b => saturating_add u32_max b permits |>)).

Definition record_broker_permit_consumed c : state :=
  c <| c_consumed_since_flow ::= fun n => saturating_add u32_max n 1 |>.

Definition record_dispatch_unit c : state :=
  c <| c_permit_balance ::= fun b => saturating_sub b 1 |>
    <| c_dispatch_units_received ::= fun n => saturating_add u64_max n 1 |>
    <| c_stall_recovery_attempts := 0 |>.

Definition arm_stall_watch (now : Z) c : state :=
  c <| c_stall_watch := Some (mkStallWatch (c_dispatch_units_received c) now false) |>.

Definition is_stall_candidate c : bool :=
  (c_permit_balance c >? 0) && bool_decide (c_queue c = []) && negb (c_closed c)
  && negb (c_paused c) && negb (c_reached_end_of_topic c)
  && bool_decide (c_pending_seek c = None) && bool_decide (c_terminal_failure c = None)
  && negb (c_flow_on_subscribe_ack c).

Definition next_stall_deadline (window : Z) c : option Z :=
  watch ← c_stall_watch c;
  if sw_reported watch then None else Some (deadline_with_clamp (sw_since watch) window).

Definition poll_stall (window now : Z) c : option Z * state :=
  if negb (is_stall_candidate c) then (None, c <| c_stall_watch := None |>)
  else
    let mark := c_dispatch_units_received c in
    let reopen := (None, c <| c_stall_watch := Some (mkStallWatch mark now false) |>) in
    match c_stall_watch c with
    | Some watch =>
        if sw_mark watch =? mark then
          if sw_reported watch || (now <? deadline_with_clamp (sw_since watch) window)
          then (None, c)
          else (Some (saturating_duration_since now (sw_since watch)),
                c <| c_stall_watch := Some (mkStallWatch (sw_mark watch) (sw_since watch) true) |>)
        else reopen
    | None => reopen
    end.

Definition record_marker_consumed c : state :=
  record_dispatch_unit (record_broker_permit_consumed c).

Definition initial_flow c : CommandFlow * state :=
  let permits :=
    if c_receiver_queue_size c =? 0 then c_manual_flow_permits c
    else as_unsigned 32 (c_receiver_queue_size c) in
  (mkFlow (c_handle c) permits,
   clear_stall_watch
     (c <| c_granted_permits := permits |> <| c_permit_balance := permits |>
        <| c_consumed_since_flow := 0 |> <| c_initial_grant_due := false |>)).

Definition flow_stats (partitions : Z) c : FlowStats :=
  mkFlowStats (c_receiver_queue_size c) (blen (c_queue c)) (c_permit_balance c)
    (if c_total_msgs_received c =? 0 then 0
     else c_total_bytes_received c / c_total_msgs_received c)
    (c_queued_bytes c) partitions.

(** [None] when the policy panics. *)
Definition adjust_receiver_queue (now partitions : Z) c : option (option CommandFlow * state) :=
  let c := c <| c_last_adjust_at := Some now |> in
  if c_closed c || bool_decide (is_Some (c_pending_seek c)) || c_paused c
     || bool_decide (is_Some (c_terminal_failure c))
  then Some (None, c)
  else if c_granted_permits c =? 0 then Some (None, c)
  else
    target ← rq_adjust (c_policy c) (flow_stats partitions c);
    let new_target := Z.max target 1 in
    let current := c_receiver_queue_size c in
    let c := c <| c_receiver_queue_size := new_target |> in
    if new_target <=? current then Some (None, c)
    else
      let want := as_unsigned 32 new_target in
      let delta := saturating_sub want (c_granted_permits c) in
      if delta =? 0 then Some (None, c)
      else
        Some (Some (mkFlow (c_handle c) delta),
              clear_stall_watch
                (c <| c_granted_permits ::= fun g => saturating_add u32_max g delta |>
                   <| c_permit_balance ::= fun b => saturating_add u32_max b delta |>)).

Definition next_adjust_deadline c : option Z :=
  interval ← c_adjust_interval c;
  if c_closed c || bool_decide (is_Some (c_terminal_failure c)) then None
  else (fun last => deadline_with_clamp last interval) <$> c_last_adjust_at c.

Definition arm_adjust_clock (now : Z) c : state :=
  if bool_decide (is_Some (c_adjust_interval c)) && bool_decide (c_last_adjust_at c = None)
  then c <| c_last_adjust_at := Some now |> else c.

(** * Receiving *)

(** [Duration::as_millis], then [u64::try_from(..).unwrap_or(u64::MAX)] *)
Definition latency_ms (now arrived : Z) : Z :=
  default u64_max (try_from_max u64_max (saturating_duration_since now arrived / 1000000)).

Definition pop_message (now : Z) c : option IncomingMessage * state :=
  match c_queue c with
  | [] => (None, c)
  | msg :: rest =>
      let c := c <| c_queue := rest |> in
      let c := if c_receiver_queue_size c =? 0
               then c <| c_manual_flow_permits ::= fun n => saturating_sub n 1 |> else c in
      let c := c <| c_queued_bytes ::= fun n => saturating_sub n (blen (im_payload msg)) |> in
      let c := record_broker_permit_consumed c in
      (Some msg,
       c <| c_receive_latency_hist ::=
              fmap (fun h => hist_record h (latency_ms now (im_arrived_at msg))) |>)
  end.

Definition pop_deferred_message (now : Z) c : option DeferredIncomingMessage * state :=
  match c_deferred_queue c with
  | [] => (None, c)
  | entry :: rest =>
      (Some entry,
       c <| c_deferred_queue := rest |>
         <| c_manual_flow_permits ::= fun n => saturating_sub n (df_dispatch_permits entry) |>
         <| c_queued_bytes ::= fun n => saturating_sub n (blen (im_payload (df_message entry))) |>
         <| c_consumed_since_flow ::= fun n => saturating_add u32_max n (df_dispatch_permits entry) |>
         <| c_receive_latency_hist ::=
              fmap (fun h => hist_record h (latency_ms now (im_arrived_at (df_message entry)))) |>)
  end.

Definition queue_len c : Z := blen (c_queue c) + blen (c_deferred_queue c).

(** The wakers woken, in slab order. *)
Definition wake_receivers c : list waker * state :=
  let '(ws, s) := ws_drain (c_receive_wakers c) in (ws, c <| c_receive_wakers := s |>).

Definition wake_active_change_waiters c : list waker * state :=
  let '(ws, s) := ws_drain (c_active_change_wakers c) in (ws, c <| c_active_change_wakers := s |>).

Definition classify_and_queue (msg : IncomingMessage) (redelivery now : Z) c
    : DeliverOutcome * state :=
  let payload_len := blen (im_payload msg) in
  let c := record_dispatch_unit c in
  if (c_max_redeliver_count c >? 0) && (redelivery >? c_max_redeliver_count c) then
    let c := record_broker_permit_consumed c in
    (Buffered,
     c <| c_total_msgs_dead_lettered ::= fun n => saturating_add u64_max n 1 |>
       <| c_dead_letter_pending ::= fun l => l ++ [msg] |>)
  else
    (Delivered 1,
     c <| c_total_msgs_received ::= fun n => saturating_add u64_max n 1 |>
       <| c_total_bytes_received ::= fun n => saturating_add u64_max n payload_len |>
       <| c_unacked_tracker ::=
            fmap (add_with_redelivery_count (im_message_id msg) (im_redelivery_count msg) now) |>
       <| c_queued_bytes ::= fun n => saturating_add u64_max n payload_len |>
       <| c_queue ::= fun q => q ++ [msg] |>).

(** * Chunk reassembly *)

(** Removes the first occurrence. *)
Fixpoint remove_first (uuid : string) (l : list string) : list string :=
  match l with
  | [] => []
  | u :: l => if bool_decide (u = uuid) then l else u :: remove_first uuid l
  end.

Definition forget_chunk_order (uuid : string) c : state :=
  c <| c_chunk_reassembly_order ::= remove_first uuid |>.

(** What eviction, expiry and reassembly share: the accounting of a buffer that
    left the map, and the staging of its acknowledgement. *)
Definition release_chunk_bytes (entry : ChunkBuffer) c : state :=
  c <| c_chunk_buffered_bytes ::= fun n => saturating_sub n (buffered_bytes entry) |>.

Definition stage_chunk_ack (entry : ChunkBuffer) c : state :=
  if c_auto_ack_oldest c then
    match cb_first_chunk_message_id entry with
    | Some id => c <| c_chunk_auto_ack_pending ::= fun l => l ++ [id] |>
    | None => c
    end
  else c.

(** The loop pops the order index; [order] is what is left of it. *)
Fixpoint remove_oldest_loop (order : list string) c : state :=
  match order with
  | [] => c <| c_chunk_reassembly_order := [] |>
  | uuid :: order =>
      match c_chunk_reassembly c !! uuid with
      | None => remove_oldest_loop order c
      | Some entry =>
          stage_chunk_ack entry
            (release_chunk_bytes entry
               (c <| c_chunk_reassembly_order := order |>
                  <| c_chunk_reassembly ::= delete uuid |>))
      end
  end.

Definition remove_oldest_pending_chunked_message c : state :=
  remove_oldest_loop (c_chunk_reassembly_order c) c.

Definition next_chunk_expiry_deadline c : option Z :=
  expire ← c_expire_time c;
  oldest ← head (c_chunk_reassembly_order c);
  entry ← c_chunk_reassembly c !! oldest;
  Some (deadline_with_clamp (cb_received_at entry) expire).

Fixpoint sweep_loop (expire now : Z) (order : list string) c : state :=
  match order with
  | [] => c <| c_chunk_reassembly_order := [] |>
  | uuid :: rest =>
      match c_chunk_reassembly c !! uuid with
      | None => sweep_loop expire now rest c
      | Some entry =>
          if now <? deadline_with_clamp (cb_received_at entry) expire
          then c <| c_chunk_reassembly_order := order |>
          else
            sweep_loop expire now rest
              (stage_chunk_ack entry
                 (release_chunk_bytes entry (c <| c_chunk_reassembly ::= delete uuid |>)))
      end
  end.

Definition sweep_expired_chunks (now : Z) c : state :=
  match c_expire_time c with
  | None => c
  | Some expire => sweep_loop expire now (c_chunk_reassembly_order c) c
  end.

(** [entry.chunk_payloads.insert(chunk_id, body)] *)
Definition put_chunk (chunk_id : Z) (body : bytes) (entry : ChunkBuffer) : ChunkBuffer :=
  entry <| cb_chunk_payloads ::= <[chunk_id := body]> |>.

Definition bump_received (entry : ChunkBuffer) : ChunkBuffer :=
  entry <| cb_received_chunks ::= fun n => n + 1 |>.

Definition has_chunk (chunk_id : Z) (entry : ChunkBuffer) : bool :=
  bool_decide (is_Some (cb_chunk_payloads entry !! chunk_id)).

(** The [is_new] branch; [false] when the chunk is dropped. *)
Definition chunk_open (uuid : string) (total chunk_id : Z) (message_id : MessageId)
    (metadata : MessageMetadata) (bem : option BrokerEntryMetadata) (redelivery : Z) (body : bytes)
    (now : Z) c : bool * state :=
  let fresh := mkChunkBuffer total 0 now ∅ metadata (Some message_id) bem redelivery in
  let c := c <| c_chunk_reassembly ::= <[uuid := fresh]> |>
             <| c_chunk_reassembly_order ::= fun l => l ++ [uuid] |> in
  let c :=
    if (c_max_pending_chunked_message c >? 0)
       && (Z.of_nat (size (c_chunk_reassembly c)) >? c_max_pending_chunked_message c)
    then remove_oldest_pending_chunked_message c else c in
  match c_chunk_reassembly c !! uuid with
  | None => (false, c)
  | Some entry =>
      if has_chunk chunk_id entry
      then (true, c <| c_chunk_reassembly ::= <[uuid := put_chunk chunk_id body entry]> |>)
      else
        (true,
         c <| c_chunk_reassembly ::= <[uuid := bump_received (put_chunk chunk_id body entry)]> |>
           <| c_chunk_buffered_bytes ::= fun n => saturating_add usize_max n (blen body) |>)
  end.

(** The other branch. *)
Definition chunk_append (uuid : string) (chunk_id : Z) (body : bytes) c : bool * state :=
  match c_chunk_reassembly c !! uuid with
  | None => (false, c)
  | Some entry =>
      if saturating_add usize_max (c_chunk_buffered_bytes c) (blen body) >? MAX_BUFFERED_CHUNK_BYTES
      then (false, c)
      else if has_chunk chunk_id entry
      then (false, c <| c_chunk_reassembly ::= <[uuid := put_chunk chunk_id body entry]> |>)
      else
        (true,
         c <| c_chunk_reassembly ::= <[uuid := bump_received (put_chunk chunk_id body entry)]> |>
           <| c_chunk_buffered_bytes ::= fun n => saturating_add usize_max n (blen body) |>)
  end.

(** [for idx in 0..expected { if let Some(chunk) = chunk_payloads.remove(&idx) .. }] *)
Definition assemble (entry : ChunkBuffer) : bytes :=
  concat (omap (fun idx => cb_chunk_payloads entry !! idx) (seqZ 0 (cb_expected_chunks entry))).

Definition strip_chunk_fields (md : MessageMetadata) : MessageMetadata :=
  md <| md_num_chunks_from_msg := None |> <| md_chunk_id := None |>
     <| md_total_chunk_msg_size := None |>.

(** The progress check, and the delivery when the last chunk is in. *)
Definition chunk_progress (uuid : string) (message_id : MessageId) (now : Z) c
    : DeliverOutcome * list waker * state :=
  match c_chunk_reassembly c !! uuid with
  | None => (Dropped, [], c)
  | Some entry =>
      if cb_received_chunks entry <? cb_expected_chunks entry then
        (Buffered, [], record_dispatch_unit (record_broker_permit_consumed c))
      else
        let c := release_chunk_bytes entry
                   (forget_chunk_order uuid (c <| c_chunk_reassembly ::= delete uuid |>)) in
        let im := mkIncoming message_id (strip_chunk_fields (cb_first_metadata entry)) None
                    (assemble entry) (cb_redelivery_count entry) (cb_broker_entry_metadata entry)
                    now in
        let c := c <| c_total_chunked_msgs_received ::= fun n => saturating_add u64_max n 1 |> in
        let '(outcome, c) := classify_and_queue im (cb_redelivery_count entry) now c in
        let '(ws, c) := wake_receivers c in
        (outcome, ws, c)
  end.

Definition deliver_chunk (total chunk_id : Z) (message_id : MessageId) (metadata : MessageMetadata)
    (bem : option BrokerEntryMetadata) (redelivery : Z) (body : bytes) (now : Z) c
    : DeliverOutcome * list waker * state :=
  if (chunk_id <? 0) || (chunk_id >=? total) then (Dropped, [], c)
  else if total >? MAX_CHUNK_TOTAL then (Dropped, [], c)
  else
    let uuid := default EmptyString (md_uuid metadata) in
    let is_new := bool_decide (c_chunk_reassembly c !! uuid = None) in
    if negb (chunk_id =? 0) && is_new then (Dropped, [], c)
    else
      let '(stored, c) :=
        if is_new then chunk_open uuid total chunk_id message_id metadata bem redelivery body now c
        else chunk_append uuid chunk_id body c in
      if stored then chunk_progress uuid message_id now c else (Dropped, [], c).

(** * Delivery *)

Definition deliver_deferred (cmd : CommandMessage) (metadata : MessageMetadata)
    (bem : option BrokerEntryMetadata) (body : bytes) (now : Z) c
    : DeliverOutcome * list waker * state :=
  let batch_size := default 1 (md_num_messages_in_batch metadata) in
  let dispatch_permits :=
    if batch_size >? 1 then unacked_count (from_ack_set batch_size (cm_ack_set cmd)) else 1 in
  let message := mkIncoming (mid_from_pb (cm_message_id cmd)) metadata None body
                   (default 0 (cm_redelivery_count cmd)) bem now in
  let c := c <| c_permit_balance ::= fun b => saturating_sub b dispatch_permits |>
             <| c_queued_bytes ::= fun n => saturating_add u64_max n (blen body) |>
             <| c_deferred_queue ::= fun q =>
                  q ++ [mkDeferred message (cm_message_id cmd) (cm_ack_set cmd) dispatch_permits] |> in
  let '(ws, c) := wake_receivers c in
  (Buffered, ws, c).

(** [for (idx, (single, payload)) in (0..num_in_batch).zip(members)]: the number
    of members delivered. *)
Fixpoint deliver_members (delivered_ack_set : BatchAckEntry) (message_id : MessageId)
    (num_in_batch : Z) (meta : MessageMetadata) (bem : option BrokerEntryMetadata)
    (redelivery now : Z) (members : list (Z * (SingleMessageMetadata * bytes))) c : Z * state :=
  match members with
  | [] => (0, c)
  | (idx, (single, payload)) :: members =>
      if negb (is_unacked idx delivered_ack_set) then
        deliver_members delivered_ack_set message_id num_in_batch meta bem redelivery now members c
      else
        let single_mid := message_id <| batch_index := idx |> <| batch_size := num_in_batch |> in
        let im := mkIncoming single_mid meta (Some single) payload redelivery bem now in
        let c := snd (classify_and_queue im redelivery now c) in
        let '(delivered, c) :=
          deliver_members delivered_ack_set message_id num_in_batch meta bem redelivery now members c in
        (1 + delivered, c)
  end.

(** [for _ in 0..undecoded] *)
Fixpoint refund_undecoded (undecoded : nat) c : state :=
  match undecoded with
  | O => c
  | S n => refund_undecoded n (record_broker_permit_consumed (record_dispatch_unit c))
  end.

Definition merge_ack_set (delivered_ack_set : BatchAckEntry) (existing : option BatchAckEntry)
    : BatchAckEntry :=
  match existing with
  | Some existing => intersect_delivered delivered_ack_set existing
  | None => delivered_ack_set
  end.

Definition deliver_batch (num_in_batch : Z) (cmd : CommandMessage) (message_id : MessageId)
    (metadata : MessageMetadata) (bem : option BrokerEntryMetadata) (redelivery : Z) (body : bytes)
    (now : Z) c : DeliverOutcome * list waker * state :=
  let delivered_ack_set := from_delivered_ack_set num_in_batch (cm_ack_set cmd) in
  let key := (ledger_id message_id, entry_id message_id) in
  let c := c <| c_batch_ack_tracker ::= fun t =>
                  <[key := merge_ack_set delivered_ack_set (t !! key)]> t |> in
  let '(members, metadata) := unpack_batch_members metadata body num_in_batch in
  let decoded := length members in
  let '(delivered, c) :=
    deliver_members delivered_ack_set message_id num_in_batch metadata bem redelivery now
      (zip (seqZ 0 num_in_batch) members) c in
  let undecoded :=
    length (filter (fun idx => is_unacked idx delivered_ack_set = true)
              (drop decoded (seqZ 0 num_in_batch))) in
  let c := refund_undecoded undecoded c in
  let '(ws, c) := wake_receivers c in
  (Delivered delivered, ws, c).

Definition deliver_single (message_id : MessageId) (metadata : MessageMetadata)
    (bem : option BrokerEntryMetadata) (redelivery : Z) (body : bytes) (now : Z) c
    : DeliverOutcome * list waker * state :=
  let message_id := message_id <| batch_index := -1 |> <| batch_size := 0 |> in
  let im := mkIncoming message_id metadata None body redelivery bem now in
  let '(outcome, c) := classify_and_queue im redelivery now c in
  let '(ws, c) := wake_receivers c in
  (outcome, ws, c).

(** The chunked path is taken when both fields are there and the total is above
    one. *)
Definition chunk_of (metadata : MessageMetadata) : option (Z * Z) :=
  total ← md_num_chunks_from_msg metadata;
  chunk_id ← md_chunk_id metadata;
  if total >? 1 then Some (total, chunk_id) else None.

Definition deliver (cmd : CommandMessage) (metadata : MessageMetadata)
    (bem : option BrokerEntryMetadata) (body : bytes) (now : Z) c
    : result ConsumerError DeliverOutcome * list waker * state :=
  if c_closed c then (Err ConsumerClosed, [], c)
  else if bool_decide (is_Some (c_pending_seek c)) then (Ok Dropped, [], c)
  else
    let redelivery := default 0 (cm_redelivery_count cmd) in
    let message_id := mid_from_pb (cm_message_id cmd) in
    let '(outcome, ws, c) :=
      if c_defer_payload_processing c then deliver_deferred cmd metadata bem body now c
      else
        match chunk_of metadata with
        | Some (total, chunk_id) =>
            deliver_chunk total chunk_id message_id metadata bem redelivery body now c
        | None =>
            match md_num_messages_in_batch metadata with
            | Some num_in_batch =>
                deliver_batch num_in_batch cmd message_id metadata bem redelivery body now c
            | None => deliver_single message_id metadata bem redelivery body now c
            end
        end in
    (Ok outcome, ws, c).

(** * Seek, wakers, close, active changes *)

Definition begin_seek (request_id : Z) c : state :=
  c <| c_pending_seek := Some request_id |> <| c_queue := [] |> <| c_deferred_queue := [] |>
    <| c_queued_bytes := 0 |> <| c_manual_flow_permits := 0 |> <| c_granted_permits := 0 |>
    <| c_permit_balance := 0 |> <| c_consumed_since_flow := 0 |>.

Definition seek_acked c : option Z * state := (c_pending_seek c, c <| c_pending_seek := None |>).

Definition register_receive_waker (w : waker) c : Z * state :=
  let '(k, s) := ws_insert w (c_receive_wakers c) in (k, c <| c_receive_wakers := s |>).

Definition cancel_receive_waker (k : Z) c : state :=
  if ws_contains k (c_receive_wakers c) then c <| c_receive_wakers ::= ws_remove k |> else c.

Definition register_active_change_waker (w : waker) c : Z * state :=
  let '(k, s) := ws_insert w (c_active_change_wakers c) in (k, c <| c_active_change_wakers := s |>).

Definition cancel_active_change_waker (k : Z) c : state :=
  if ws_contains k (c_active_change_wakers c)
  then c <| c_active_change_wakers ::= ws_remove k |> else c.

Definition consumer_close c : list waker * state :=
  let c := c <| c_closed := true |> in
  let '(ws, c) := wake_receivers c in
  let '(ws', c) := wake_active_change_waiters c in
  (ws ++ ws', c).

Definition record_active_change (active : bool) c : list waker * state :=
  let c := c <| c_is_active := Some active |> in
  let c := if blen (c_active_changes c) >=? ACTIVE_CHANGES_CAP
           then c <| c_active_changes ::= tail |> else c in
  wake_active_change_waiters (c <| c_active_changes ::= fun l => l ++ [active] |>).

Definition pop_active_change c : option bool * state :=
  (head (c_active_changes c), c <| c_active_changes ::= tail |>).

(** * The connection arms that drive a consumer *)

Inductive ConsumerEvent :=
| EvMessage (message : IncomingMessage)
| EvFromShadow (source_topic : string) (source_message_id shadow_message_id : MessageId)
    (message : IncomingMessage).

Definition classify_for_shadow (message : IncomingMessage) c : option (string * MessageId) :=
  shadow ← c_shadow_source_topic c;
  _ ← mr_replicated_from (md_rest (im_metadata message));
  Some (shadow, im_message_id message).

Definition message_event c (im : IncomingMessage) : ConsumerEvent :=
  match classify_for_shadow im c with
  | Some (source_topic, source_message_id) =>
      EvFromShadow source_topic source_message_id (im_message_id im) im
  | None => EvMessage im
  end.

(** The [Message] arm after the marker filter: the events staged, the flow
    command, the wakers and the state. *)
Definition on_message (cmd : CommandMessage) (metadata : MessageMetadata)
    (bem : option BrokerEntryMetadata) (body : bytes) (now : Z) c
    : list ConsumerEvent * option CommandFlow * list waker * state :=
  let '(outcome, ws, c) := deliver cmd metadata bem body now c in
  let events :=
    match outcome with
    | Ok (Delivered count) =>
        let start := saturating_sub (blen (c_queue c)) count in
        message_event c <$> drop (Z.to_nat start) (c_queue c)
    | _ => []
    end in
  let '(flow, c) := maybe_flow c in
  (events, flow, ws, c).

(** [Connection::initial_flow] *)
Definition conn_initial_flow (now : Z) c : option CommandFlow * state :=
  if c_initial_grant_due c || (c_granted_permits c =? 0) || is_flow_starved c then
    let '(flow, c) := initial_flow c in
    (Some flow, arm_stall_watch now (arm_adjust_clock now c))
  else (None, c).

(** [Connection::flow] *)
Definition conn_flow (permits : Z) c : CommandFlow * state :=
  let c := if c_receiver_queue_size c =? 0
           then c <| c_manual_flow_permits ::= fun n => saturating_add u32_max n permits |> else c in
  (mkFlow (c_handle c) permits,
   c <| c_granted_permits ::= fun g => saturating_add u32_max g permits |>
     <| c_permit_balance ::= fun b => saturating_add u32_max b permits |>).

Definition flow_for_aggregate (fresh debt : Z) c : CommandFlow * state :=
  let permits := saturating_add u32_max fresh debt in
  (mkFlow (c_handle c) permits,
   c <| c_manual_flow_permits ::= fun n => saturating_add u32_max n fresh |>
     <| c_granted_permits ::= fun g => saturating_add u32_max g permits |>
     <| c_permit_balance ::= fun b => saturating_add u32_max b permits |>).

(** [Connection::pop_message] *)
Definition conn_pop_message (now : Z) c : option IncomingMessage * option CommandFlow * state :=
  let '(msg, c) := pop_message now c in
  let '(flow, c) := maybe_flow c in
  (msg, flow, c).

Definition set_paused (paused : bool) c : state := c <| c_paused := paused |>.

Definition drain_dead_letter c : list IncomingMessage * state :=
  (c_dead_letter_pending c, c <| c_dead_letter_pending := [] |>).

(** The consumer part of [Connection::reset]. *)
Definition session_reset c : list waker * state :=
  wake_receivers
    (c <| c_subscribe_waiter_completed := false |> <| c_queue := [] |> <| c_deferred_queue := [] |>
       <| c_pending_seek := None |> <| c_granted_permits := 0 |> <| c_permit_balance := 0 |>
       <| c_consumed_since_flow := 0 |> <| c_dead_letter_pending := [] |>
       <| c_batch_ack_tracker := ∅ |>).

(** The slot part of [fail_consumer_subscribe_with_broker_error]. *)
Definition fail_consumer_subscribe (reason : string) c : list waker * state :=
  let c := c <| c_terminal_failure := Some reason |> <| c_granted_permits := 0 |>
             <| c_permit_balance := 0 |> <| c_manual_flow_permits := 0 |> in
  let '(ws, c) := wake_receivers c in
  let '(ws', c) := wake_active_change_waiters c in
  (ws ++ ws', c).

(** The [CloseConsumer] arm zeroes the permit mirrors. *)
Definition on_broker_close c : state :=
  c <| c_granted_permits := 0 |> <| c_permit_balance := 0 |> <| c_consumed_since_flow := 0 |>.

(** [complete_consumer_close_for_reattach] also drops the stall window. *)
Definition on_reattach_close c : state := clear_stall_watch (on_broker_close c).

Definition on_active_change (active : bool) (now : Z) c : option CommandFlow * list waker * state :=
  let '(ws, c) := record_active_change active c in
  if active && ((c_granted_permits c =? 0) || is_flow_starved c) && negb (c_closed c)
     && negb (c_paused c) && bool_decide (c_pending_seek c = None)
     && negb (c_reached_end_of_topic c) && negb (c_flow_on_subscribe_ack c)
  then let '(flow, c) := conn_initial_flow now c in (flow, ws, c)
  else (None, ws, c).

Inductive SubscribeAckAction := NotifyWaiter | ReleaseFlow.

(** The slot part of sending a [CommandSubscribe]. *)
Definition note_subscribe_sent (request_id : Z) (ack_action : SubscribeAckAction) c : state :=
  let c := c <| c_initial_grant_due := true |> in
  let wait c := c <| c_subscribe_waiter_request := Some request_id |>
                  <| c_subscribe_waiter_completed := false |>
                  <| c_flow_on_subscribe_ack := false |>
                  <| c_flow_on_subscribe_ack_request := None |> in
  match ack_action with
  | NotifyWaiter => wait (c <| c_subscribe_waiter_id := Some request_id |>)
  | ReleaseFlow =>
      if bool_decide (is_Some (c_subscribe_waiter_id c)) then wait c
      else c <| c_flow_on_subscribe_ack := true |>
             <| c_flow_on_subscribe_ack_request := Some request_id |>
  end.

(** The [Success] arm for a subscribe: whether a waiter was notified, the flow
    command. *)
Definition on_subscribe_success (request_id now : Z) c : option Z * option CommandFlow * state :=
  let mine := bool_decide (c_subscribe_waiter_request c = Some request_id) in
  let c := if mine then c <| c_subscribe_waiter_completed := true |> else c in
  let waiter_id := if mine then c_subscribe_waiter_id c else None in
  let flow_now :=
    c_flow_on_subscribe_ack c
    && match c_flow_on_subscribe_ack_request c with
       | None => true
       | Some active => active =? request_id
       end in
  let notified := bool_decide (is_Some waiter_id) in
  let c := if notified then c <| c_subscribe_waiter_request := None |> else c in
  let c := if flow_now then c <| c_flow_on_subscribe_ack := false |>
                               <| c_flow_on_subscribe_ack_request := None |> else c in
  let c := if notified || flow_now
           then c <| c_has_ever_attached := true |> <| c_transient_subscribe_attempts := 0 |>
                  <| c_last_subscribe_error := None |> else c in
  if flow_now then let '(flow, c) := conn_initial_flow now c in (waiter_id, flow, c)
  else (waiter_id, None, c).

(** The [ReachedEndOfTopic] arm. *)
Definition on_end_of_topic c : list waker * state :=
  wake_receivers (c <| c_reached_end_of_topic := true |>).

(** What one consumer contributes to a timer tick. *)
Record TickOutput := mkTick {
  tk_redeliver : list MessageId;
  tk_chunk_acks : list MessageId;
  tk_flow : option CommandFlow;
  tk_stalled : option Z;
}.

Definition adjust_tick (now : Z) c : option (option CommandFlow * state) :=
  match next_adjust_deadline c with
  | Some d => if now >=? d then adjust_receiver_queue now 1 c else Some (None, c)
  | None => Some (None, arm_adjust_clock now c)
  end.

(** The consumer loop of [handle_timeout]; [None] when the policy panics. *)
Definition handle_timeout_consumer (stall_timeout : option Z) (now : Z) c
    : option (TickOutput * state) :=
  let '(redeliver, c) :=
    match c_unacked_tracker c with
    | Some t => let '(acts, t) := unacked_poll now t in
                (expired acts, c <| c_unacked_tracker := Some t |>)
    | None => ([], c)
    end in
  let c := sweep_expired_chunks now c in
  let acks := c_chunk_auto_ack_pending c in
  let c := c <| c_chunk_auto_ack_pending := [] |> in
  '(flow, c) ← adjust_tick now c;
  let '(stalled, c) :=
    match stall_timeout with
    | Some window => poll_stall window now c
    | None => (None, c)
    end in
  Some (mkTick redeliver acks flow stalled, c).
End Operations.
