(* ===== verification/ConsumerFlow.v ===== *)
(** * Flow control of the consumer

    Every permit the broker spends on a frame that the consumer takes is debited
    once and given back once; the permits of the frames it refuses are the only
    ones that are lost. *)

From S2P Require Import Prelude Time Ids Compress Trackers MemoryLimit ReceiverQueue BatchAck Producer BatchBody Consumer.

Arguments unpack_batch_members : simpl never.
Arguments is_unacked : simpl never.
Arguments saturating_add : simpl never.
Arguments saturating_sub : simpl never.
Arguments as_unsigned : simpl never.
Arguments u32_max : simpl never.
Arguments u64_max : simpl never.
Arguments usize_max : simpl never.

Section Units.
Context {P W Hist : Type} `{ReceiverQueuePolicy P, WakerSlab W}.
Context `{!Codecs, !ProtoMessage SingleMessageMetadata}.
Variable hist_record : Hist -> Z -> Hist.

Abbreviation state := (ConsumerState P W Hist).
Implicit Types c : state.

(** The fields flow control depends on and delivery leaves alone. *)
Record same_mode c c' : Prop := {
  sm_policy : c_policy c' = c_policy c;
  sm_size : c_receiver_queue_size c' = c_receiver_queue_size c;
  sm_granted : c_granted_permits c' = c_granted_permits c;
  sm_defer : c_defer_payload_processing c' = c_defer_payload_processing c;
  sm_closed : c_closed c' = c_closed c;
  sm_paused : c_paused c' = c_paused c;
  sm_seek : c_pending_seek c' = c_pending_seek c;
  sm_due : c_initial_grant_due c' = c_initial_grant_due c;
}.

#[global] Instance same_mode_refl : Reflexive same_mode.
Proof. by split. Qed.
#[global] Instance same_mode_trans : Transitive same_mode.
Proof. intros x y z [] []. split; congruence. Qed.

(** Between [c] and [c'], [u] dispatch units arrived: [d] of them were refunded
    at once, the others are in the queue. *)
Record units (u : Z) c c' : Prop := {
  un_mode : same_mode c c';
  un_balance : c_permit_balance c' = saturating_sub (c_permit_balance c) u;
  un_received : c_dispatch_units_received c' = saturating_add u64_max (c_dispatch_units_received c) u;
  un_split : exists d, 0 <= d <= u
    /\ c_consumed_since_flow c' = saturating_add u32_max (c_consumed_since_flow c) d
    /\ blen (c_queue c') = blen (c_queue c) + (u - d);
}.

(** The counters at their widths. *)
Record counters_ok c : Prop := {
  co_balance : u32_ok (c_permit_balance c);
  co_consumed : u32_ok (c_consumed_since_flow c);
  co_received : u64_ok (c_dispatch_units_received c);
}.

Lemma units_counters u c c' : 0 <= u -> units u c c' -> counters_ok c -> counters_ok c'.
Proof.
  intros Hu [_ Hb Hr (d & Hd & Hc & _)] [Hb' Hc' Hr'].
  split; [rewrite Hb|rewrite Hc|rewrite Hr];
    unfold u32_ok, u64_ok, saturating_sub, saturating_add, u32_max, u64_max in *; lia.
Qed.

Lemma units_refl c c' : counters_ok c -> same_mode c c' ->
  c_permit_balance c' = c_permit_balance c ->
  c_dispatch_units_received c' = c_dispatch_units_received c ->
  c_consumed_since_flow c' = c_consumed_since_flow c -> length (c_queue c') = length (c_queue c) ->
  units 0 c c'.
Proof.
  intros [[] [] []] Hm Hb Hr Hc Hq. split; [done|rewrite Hb|rewrite Hr|exists 0; rewrite Hc];
    unfold saturating_sub, saturating_add, blen; try (split_and!); lia.
Qed.

Lemma units_trans u v c1 c2 c3 : 0 <= u -> 0 <= v ->
  units u c1 c2 -> units v c2 c3 -> units (u + v) c1 c3.
Proof.
  intros Hu Hv [Hm Hb Hr (d & Hd & Hc & Hq)] [Hm' Hb' Hr' (d' & Hd' & Hc' & Hq')].
  split; [by trans c2|..].
  - rewrite Hb', Hb. unfold saturating_sub. lia.
  - rewrite Hr', Hr. unfold saturating_add. lia.
  - exists (d + d'). rewrite Hc', Hc. unfold saturating_add. lia.
Qed.

Lemma units_seq u v w c1 c2 c3 : counters_ok c1 -> 0 <= u -> 0 <= v ->
  units u c1 c2 -> (counters_ok c2 -> units v c2 c3) -> w = u + v -> units w c1 c3.
Proof. intros Hc Hu Hv Hs Hn ->. eapply units_trans; eauto using units_counters. Qed.

Lemma classify_units msg redelivery now c :
  counters_ok c -> units 1 c (snd (classify_and_queue msg redelivery now c)).
Proof.
  intros [_ [Hc Hc'] _]. unfold classify_and_queue. cbv zeta.
  case_match; split; try (by split); try done.
  - exists 1. split_and!; try done; simpl; lia.
  - exists 0. simpl. rewrite blen_app. unfold saturating_add. unfold blen at 2. simpl. lia.
Qed.

Lemma marker_units c : counters_ok c -> units 1 c (record_marker_consumed c).
Proof. intros _. split; try (by split); try done. exists 1. simpl. lia. Qed.

Lemma chunk_buffered_units c :
  units 1 c (record_dispatch_unit (record_broker_permit_consumed c)).
Proof. split; try (by split); try done. exists 1. simpl. lia. Qed.

Lemma wake_receivers_eq c : wake_receivers c =
  ((ws_drain (c_receive_wakers c)).1, c <| c_receive_wakers := (ws_drain (c_receive_wakers c)).2 |>).
Proof. unfold wake_receivers. by destruct (ws_drain _). Qed.

Lemma wake_active_change_waiters_eq c : wake_active_change_waiters c =
  ((ws_drain (c_active_change_wakers c)).1,
   c <| c_active_change_wakers := (ws_drain (c_active_change_wakers c)).2 |>).
Proof. unfold wake_active_change_waiters. by destruct (ws_drain _). Qed.

Lemma wake_units c : counters_ok c -> units 0 c (snd (wake_receivers c)).
Proof.
  intros Hc. unfold wake_receivers. destruct (ws_drain _). by apply units_refl.
Qed.
Lemma refund_units n c : counters_ok c -> units (Z.of_nat n) c (refund_undecoded n c).
Proof.
  revert c. induction n as [|n IH]; intros c Hc; simpl; [by apply units_refl|].
  assert (Hu : units 1 c (record_broker_permit_consumed (record_dispatch_unit c))).
  { split; try (by split); try done. exists 1. simpl. lia. }
  rewrite Nat2Z.inj_succ, <- Z.add_1_l. eapply units_trans; [lia|lia|exact Hu|]. apply IH.
  by apply (units_counters 1 c).
Qed.

(** Positions of a batch the broker still expects. *)
Definition unacked_positions (s : BatchAckEntry) (l : list Z) : Z :=
  blen (filter (fun i => is_unacked i s = true) l).

Lemma unacked_positions_nonneg s l : 0 <= unacked_positions s l.
Proof. apply blen_nonneg. Qed.

Lemma unacked_positions_cons s i l :
  unacked_positions s (i :: l) = (if is_unacked i s then 1 else 0) + unacked_positions s l.
Proof.
  unfold unacked_positions. rewrite filter_cons. destruct (is_unacked i s); simpl; [by rewrite blen_cons|lia].
Qed.

Lemma unacked_positions_app s l k :
  unacked_positions s (l ++ k) = unacked_positions s l + unacked_positions s k.
Proof. unfold unacked_positions. by rewrite filter_app, blen_app. Qed.

Lemma members_units s mid n meta bem redelivery now ms c : counters_ok c ->
  units (unacked_positions s ms.*1) c (snd (deliver_members s mid n meta bem redelivery now ms c))
  /\ fst (deliver_members s mid n meta bem redelivery now ms c) = unacked_positions s ms.*1.
Proof.
  revert c. induction ms as [|[i [single payload]] ms IH]; intros c Hc.
  { split; [by apply units_refl|done]. }
  rewrite fmap_cons, unacked_positions_cons. cbn [fst deliver_members].
  destruct (is_unacked i s) eqn:Hi; cbn [negb]; [|by apply IH].
  match goal with |- context [classify_and_queue ?m ?r ?t ?c0] =>
    pose proof (classify_units m r t c0 Hc) as Hu; set (c1 := snd (classify_and_queue m r t c0)) in * end.
  destruct (IH c1) as [IH1 IH2]; [by apply (units_counters 1 c)|].
  destruct (deliver_members _ _ _ _ _ _ _ _ c1) as [k c2]. cbn [fst snd] in *. split; [|by rewrite IH2].
  apply (units_trans _ _ _ c1); try done. apply blen_nonneg.
Qed.

(** * What a frame costs *)

(** What the broker spends on a frame: the positions that the [ack_set] of a
    batch still lists, one permit for any other frame. *)
Definition dispatch_cost (cmd : CommandMessage) (md : MessageMetadata) : Z :=
  match chunk_of md, md_num_messages_in_batch md with
  | None, Some n => unacked_positions (from_delivered_ack_set n (cm_ack_set cmd)) (seqZ 0 n)
  | _, _ => 1
  end.

(** What the client debits for it: the same, but nothing for a frame that it
    refuses.  The broker has spent permits on that one too, and the client does
    not give them back. *)
Definition charge (cmd : CommandMessage) (md : MessageMetadata) (outcome : result ConsumerError DeliverOutcome) : Z :=
  match outcome with
  | Err _ | Ok Dropped => 0
  | Ok _ => dispatch_cost cmd md
  end.

Lemma dispatch_cost_nonneg cmd md : 0 <= dispatch_cost cmd md.
Proof. unfold dispatch_cost. repeat case_match; try lia; apply unacked_positions_nonneg. Qed.

Lemma charge_bounds cmd md outcome : 0 <= charge cmd md outcome <= dispatch_cost cmd md.
Proof. pose proof (dispatch_cost_nonneg cmd md). unfold charge. repeat case_match; lia. Qed.

Lemma charge_nonneg cmd md outcome : 0 <= charge cmd md outcome.
Proof. apply charge_bounds. Qed.

Lemma zip_fst_take {A} (l : list Z) (k : list A) : (zip l k).*1 = take (length k) l.
Proof. revert k. induction l as [|x l IH]; intros [|y k]; simpl; try done. by rewrite IH. Qed.

Lemma batch_units n cmd mid md bem redelivery body now c : counters_ok c ->
  let '(o, _, c') := deliver_batch n cmd mid md bem redelivery body now c in
  units (unacked_positions (from_delivered_ack_set n (cm_ack_set cmd)) (seqZ 0 n)) c c'
  /\ exists k, o = Delivered k.
Proof.
  intros Hc. unfold deliver_batch. cbv zeta. set (s := from_delivered_ack_set n (cm_ack_set cmd)).
  destruct (unpack_batch_members md body n) as [members md'].
  match goal with |- context [deliver_members s ?m ?n ?md ?b ?r ?t ?ms ?c0] =>
    set (c1 := c0); pose proof (members_units s m n md b r t ms c1) as Hm end.
  destruct (deliver_members _ _ _ _ _ _ _ _ c1) as [k c2]. cbn [fst snd] in *.
  rewrite zip_fst_take in Hm. set (r := length (filter _ _)).
  assert (Hr : Z.of_nat r = unacked_positions s (drop (length members) (seqZ 0 n))) by done.
  pose proof (wake_units (refund_undecoded r c2)) as Hw.
  destruct (wake_receivers (refund_undecoded r c2)) as [ws c4]. cbn [snd] in Hw.
  split; [|by eexists].
  rewrite <- (take_drop (length members) (seqZ 0 n)), unacked_positions_app, <- Hr.
  eapply (units_seq 0 _ _ _ c1); [done|lia| |by apply units_refl|intros Hc1|symmetry; apply Z.add_0_l].
  { pose proof (unacked_positions_nonneg s (take (length members) (seqZ 0 n))). lia. }
  eapply units_seq; [done|apply unacked_positions_nonneg| |by apply Hm|intros Hc2|reflexivity]; [lia|].
  eapply (units_seq _ 0); [done| | |by apply refund_units|done|]; lia.
Qed.

(** Nothing but the chunk buffers, the wakers and timers moved. *)
Record flow_same c c' : Prop := {
  fs_mode : same_mode c c';
  fs_balance : c_permit_balance c' = c_permit_balance c;
  fs_received : c_dispatch_units_received c' = c_dispatch_units_received c;
  fs_consumed : c_consumed_since_flow c' = c_consumed_since_flow c;
  fs_queue : c_queue c' = c_queue c;
  fs_bytes : c_queued_bytes c' = c_queued_bytes c;
  fs_redeliver : c_max_redeliver_count c' = c_max_redeliver_count c;
}.

#[global] Instance flow_same_refl : Reflexive flow_same.
Proof. by split. Qed.
#[global] Instance flow_same_trans : Transitive flow_same.
Proof. intros x y z [] []. split; first [by etrans|congruence]. Qed.

Lemma flow_same_units c c' : counters_ok c -> flow_same c c' -> units 0 c c'.
Proof. intros Hc []. apply units_refl; congruence. Qed.

Lemma stage_chunk_ack_same e c : flow_same c (stage_chunk_ack e c).
Proof. unfold stage_chunk_ack. repeat case_match; by split. Qed.

Lemma remove_oldest_same order c : flow_same c (remove_oldest_loop order c).
Proof.
  induction order as [|u order IH]; simpl; [by split|]. case_match; [|done].
  etrans; [|apply stage_chunk_ack_same]. by split.
Qed.

Lemma sweep_loop_same expire now order c : flow_same c (sweep_loop expire now order c).
Proof.
  revert c. induction order as [|u order IH]; intros c; simpl; [by split|].
  repeat case_match; [by split| |done]. etrans; [|apply IH].
  etrans; [|apply stage_chunk_ack_same]. by split.
Qed.

Lemma sweep_same now c : flow_same c (sweep_expired_chunks now c).
Proof. unfold sweep_expired_chunks. case_match; [apply sweep_loop_same|done]. Qed.

Lemma chunk_open_same uuid total id mid md bem r body now c :
  flow_same c (snd (chunk_open uuid total id mid md bem r body now c)).
Proof.
  unfold chunk_open. cbv zeta.
  match goal with |- context [if ?b then remove_oldest_pending_chunked_message ?c0 else _] =>
    assert (Hc0 : flow_same c c0) by (by split);
    assert (H12 : flow_same c0 (if b then remove_oldest_pending_chunked_message c0 else c0))
      by (case_match; [apply remove_oldest_same|done]);
    revert Hc0 H12; generalize (if b then remove_oldest_pending_chunked_message c0 else c0); generalize c0 end.
  intros c1 c2 Hc1 H12. trans c1; [done|]. trans c2; [done|]. repeat case_match; by split.
Qed.

Lemma chunk_append_same uuid id body c : flow_same c (snd (chunk_append uuid id body c)).
Proof. unfold chunk_append. repeat case_match; by split. Qed.

Lemma chunk_progress_units uuid mid now c : counters_ok c ->
  let '(o, _, c') := chunk_progress uuid mid now c in
  units (match o with Dropped => 0 | _ => 1 end) c c'.
Proof.
  intros Hc. unfold chunk_progress.
  destruct (c_chunk_reassembly c !! uuid) as [e|]; [|by apply flow_same_units].
  destruct (cb_received_chunks e <? cb_expected_chunks e); [apply chunk_buffered_units|].
  match goal with |- context [classify_and_queue ?m ?r ?t ?c0] =>
    set (c1 := c0); pose proof (classify_units m r t c1) as Hu;
    assert (Ho : (classify_and_queue m r t c1).1 <> Dropped)
      by (unfold classify_and_queue; by case_match);
    destruct (classify_and_queue m r t c1) as [o c2] end.
  pose proof (wake_units c2) as Hw. destruct (wake_receivers c2) as [ws c3]. cbn [fst snd] in *.
  eapply (units_seq 0 1 _ _ c1); [done|lia|lia|by apply units_refl|intros Hc1|by destruct o].
  eapply (units_seq 1 0); [done|lia|lia|by apply Hu|done|lia].
Qed.

Lemma deliver_chunk_units total id mid md bem r body now c : counters_ok c ->
  let '(o, _, c') := deliver_chunk total id mid md bem r body now c in
  units (match o with Dropped => 0 | _ => 1 end) c c'.
Proof.
  intros Hc. unfold deliver_chunk. cbv zeta.
  repeat match goal with |- context [if ?b then (Dropped, [], c) else _] =>
    destruct b; [by apply flow_same_units|] end.
  match goal with |- context [if ?b then chunk_open ?u ?t ?i ?m ?md ?bm ?r ?bd ?nw ?c0 else _] =>
    assert (Hs : flow_same c0 (snd (if b then chunk_open u t i m md bm r bd nw c0 else chunk_append u i bd c0)))
      by (case_match; [apply chunk_open_same|apply chunk_append_same]);
    destruct (if b then chunk_open u t i m md bm r bd nw c0 else chunk_append u i bd c0) as [[] c1] end;
    cbn [snd] in Hs; [|by apply flow_same_units].
  pose proof (flow_same_units _ _ Hc Hs) as Hu.
  pose proof (chunk_progress_units (default EmptyString (md_uuid md)) mid now c1) as Hp.
  destruct (chunk_progress _ _ _ c1) as [[o ws] c2].
  eapply (units_seq 0 (match o with Dropped => 0 | _ => 1 end)); [done|lia|by destruct o|exact Hu|done|lia].
Qed.
Lemma deliver_units cmd md bem body now c :
  counters_ok c -> c_defer_payload_processing c = false ->
  let '(outcome, _, c') := deliver cmd md bem body now c in
  units (charge cmd md outcome) c c'.
Proof.
  intros Hc Hd. unfold deliver. rewrite Hd.
  destruct (c_closed c); [by apply flow_same_units|].
  case_bool_decide; [by apply flow_same_units|]. unfold charge, dispatch_cost.
  destruct (chunk_of md) as [[total id]|].
  { pose proof (deliver_chunk_units total id (mid_from_pb (cm_message_id cmd)) md bem
      (default 0 (cm_redelivery_count cmd)) body now c Hc) as Hu.
    destruct (deliver_chunk _ _ _ _ _ _ _ _ _) as [[o ws] c']. by destruct o. }
  destruct (md_num_messages_in_batch md) as [n|].
  { pose proof (batch_units n cmd (mid_from_pb (cm_message_id cmd)) md bem
      (default 0 (cm_redelivery_count cmd)) body now c Hc) as Hu.
    destruct (deliver_batch _ _ _ _ _ _ _ _ _) as [[o ws] c']. by destruct Hu as [Hu [k ->]]. }
  unfold deliver_single. cbv zeta.
  match goal with |- context [classify_and_queue ?m ?r ?t ?c0] =>
    pose proof (classify_units m r t c0 Hc) as Hu;
    assert (Ho : (classify_and_queue m r t c0).1 <> Dropped)
      by (unfold classify_and_queue; by case_match);
    destruct (classify_and_queue m r t c0) as [o c1] end.
  pose proof (wake_units c1) as Hw. destruct (wake_receivers c1) as [ws c2]. cbn [fst snd] in *.
  eapply (units_seq 1 0); [done|lia|lia|done|done|by destruct o].
Qed.
(** Every frame that is taken is charged exactly once, on every path of [deliver] -
    plain, batched with or without undecodable members, chunked, dead-lettered:
    the balance and the progress mark move by the units the broker spent on the
    frame, and each of those units is in the queue or already on its way back.  A
    refused frame is not charged. *)
Theorem deliver_charged cmd md bem body now c :
  counters_ok c -> c_defer_payload_processing c = false ->
  let '(outcome, _, c') := deliver cmd md bem body now c in
  let u := charge cmd md outcome in
  c_permit_balance c' = saturating_sub (c_permit_balance c) u
  /\ c_dispatch_units_received c' = saturating_add u64_max (c_dispatch_units_received c) u
  /\ c_granted_permits c' = c_granted_permits c
  /\ exists refunded, 0 <= refunded <= u
       /\ c_consumed_since_flow c' = saturating_add u32_max (c_consumed_since_flow c) refunded
       /\ blen (c_queue c') = blen (c_queue c) + (u - refunded).
Proof.
  intros Hc Hd. pose proof (deliver_units cmd md bem body now c Hc Hd) as Hu.
  destruct (deliver cmd md bem body now c) as [[o ws] c']. by destruct Hu as [[] ???].
Qed.
End Units.

(** * Runs of a consumer *)

(** What the connection, the timers and the application do to a consumer. *)
Inductive consumer_event :=
| CeMessage (cmd : CommandMessage) (md : MessageMetadata) (bem : option BrokerEntryMetadata)
    (body : bytes) (now : Z)
| CeMarker
| CePop (now : Z)
| CeFlow (permits : Z)
| CeTick (stall_timeout : option Z) (now : Z)
| CeSeek (request_id : Z)
| CeSeekAcked
| CeReset
| CeBrokerClose
| CeReattachClose
| CeFailSubscribe (reason : string)
| CeSubscribeSent (request_id : Z) (ack_action : SubscribeAckAction)
| CeSubscribeSuccess (request_id now : Z)
| CeInitialFlow (now : Z)
| CeActiveChange (active : bool) (now : Z)
| CePopActiveChange
| CePause (paused : bool)
| CeEndOfTopic
| CeDrainDeadLetter
| CeRegister (w : waker)
| CeCancel (key : Z)
| CeClose.

Section Runs.
Context {P W Hist : Type} `{ReceiverQueuePolicy P, WakerSlab W}.
Context `{!Codecs, !ProtoMessage SingleMessageMetadata}.
Variable hist_record : Hist -> Z -> Hist.
Abbreviation state := (ConsumerState P W Hist).

(** The flow command sent and the state; [None] when the policy panics. *)
Definition consumer_exec (ev : consumer_event) (c : state) : option (option CommandFlow * state) :=
  match ev with
  | CeMessage cmd md bem body now =>
      let '(_, flow, _, c) := on_message cmd md bem body now c in Some (flow, c)
  | CeMarker => Some (None, record_marker_consumed c)
  | CePop now => let '(_, flow, c) := conn_pop_message hist_record now c in Some (flow, c)
  | CeFlow permits => let '(flow, c) := conn_flow permits c in Some (Some flow, c)
  | CeTick stall now => '(out, c) ← handle_timeout_consumer stall now c; Some (tk_flow out, c)
  | CeSeek rid => Some (None, begin_seek rid c)
  | CeSeekAcked => Some (None, snd (seek_acked c))
  | CeReset => Some (None, snd (session_reset c))
  | CeBrokerClose => Some (None, on_broker_close c)
  | CeReattachClose => Some (None, on_reattach_close c)
  | CeFailSubscribe reason => Some (None, snd (fail_consumer_subscribe reason c))
  | CeSubscribeSent rid act => Some (None, note_subscribe_sent rid act c)
  | CeSubscribeSuccess rid now => let '(_, flow, c) := on_subscribe_success rid now c in Some (flow, c)
  | CeInitialFlow now => Some (conn_initial_flow now c)
  | CeActiveChange active now => let '(flow, _, c) := on_active_change active now c in Some (flow, c)
  | CePopActiveChange => Some (None, snd (pop_active_change c))
  | CePause paused => Some (None, set_paused paused c)
  | CeEndOfTopic => Some (None, snd (on_end_of_topic c))
  | CeDrainDeadLetter => Some (None, snd (drain_dead_letter c))
  | CeRegister w => Some (None, snd (register_receive_waker w c))
  | CeCancel key => Some (None, cancel_receive_waker key c)
  | CeClose => Some (None, snd (consumer_close c))
  end.

Fixpoint consumer_run (evs : list consumer_event) (c : state) : option (list CommandFlow * state) :=
  match evs with
  | [] => Some ([], c)
  | ev :: evs =>
      '(flow, c) ← consumer_exec ev c;
      '(flows, c) ← consumer_run evs c;
      Some (option_list flow ++ flows, c)
  end.

Lemma consumer_run_app evs evs' c :
  consumer_run (evs ++ evs') c =
    '(flows, c) ← consumer_run evs c;
    '(flows', c) ← consumer_run evs' c;
    Some (flows ++ flows', c).
Proof.
  revert c. induction evs as [|ev evs IH]; intros c; simpl.
  { by destruct (consumer_run evs' c) as [[flows c']|]. }
  destruct (consumer_exec ev c) as [[flow c1]|]; simpl; [|done]. rewrite IH.
  destruct (consumer_run evs c1) as [[flows c2]|]; simpl; [|done].
  destruct (consumer_run evs' c2) as [[flows' c3]|]; simpl; [|done]. by rewrite app_assoc.
Qed.
End Runs.

(** * A consumer with a fixed queue never starves *)

Section Fixed.
Context {W Hist : Type} `{WakerSlab W}.
Context `{!Codecs, !ProtoMessage SingleMessageMetadata}.
Variable hist_record : Hist -> Z -> Hist.
Variable size : Z.
Hypothesis size_ok : 1 <= size <= u32_max.

Abbreviation state := (ConsumerState Fixed W Hist).
Implicit Types c : state.

(** Where the permits are: with the broker, waiting to be given back, or spent on
    messages the application has not taken. *)
Definition ledger c : Z := c_permit_balance c + c_consumed_since_flow c + blen (c_queue c).

Record fixed_mode c : Prop := {
  fm_policy : c_policy c = mkFixed size;
  fm_size : c_receiver_queue_size c = size;
  fm_defer : c_defer_payload_processing c = false;
  fm_granted : 0 <= c_granted_permits c;
  fm_counters : counters_ok c;
}.

Record permits_inv (attached : bool) c : Prop := {
  pi_mode : fixed_mode c;
  pi_ledger : attached = true -> size <= ledger c;
}.

(** A consumer as the builder leaves it before its first attachment. *)
Record fresh_consumer c : Prop := {
  fr_policy : c_policy c = mkFixed size;
  fr_size : c_receiver_queue_size c = size;
  fr_defer : c_defer_payload_processing c = false;
  fr_granted : c_granted_permits c = 0;
  fr_balance : c_permit_balance c = 0;
  fr_consumed : c_consumed_since_flow c = 0;
  fr_received : c_dispatch_units_received c = 0;
}.

(** Whether the broker holds a full grant of the current attachment: the events
    that zero the permit mirrors end it, an initial flow starts it. *)
Definition next_attached (ev : consumer_event) (flow : option CommandFlow) (attached : bool) : bool :=
  match ev with
  | CeSeek _ | CeReset | CeBrokerClose | CeReattachClose | CeFailSubscribe _ => false
  | CeInitialFlow _ | CeSubscribeSuccess _ _ | CeActiveChange _ _ =>
      match flow with Some _ => true | None => attached end
  | _ => attached
  end.

(** The argument of an explicit flow is a [u32]. *)
Definition event_ok (ev : consumer_event) : Prop :=
  match ev with CeFlow permits => 0 <= permits | _ => True end.

(** ** The broker's side *)

(** What the broker knows of the current attachment: the permits it has left, those
    it spent on frames that the client refused, and whether it has kept within its
    permits. *)
Record broker_view := mkView {
  bv_attached : bool;
  bv_permits : Z;
  bv_lost : Z;
  bv_within : bool;
}.

Definition no_view : broker_view := mkView false 0 0 true.

Definition flow_permits (flow : option CommandFlow) : Z := from_option cf_message_permits 0 flow.

(** The events that end an attachment, and the initial grant of the next. *)
Definition detaches (ev : consumer_event) : bool :=
  match ev with CeSeek _ | CeReset | CeBrokerClose | CeReattachClose | CeFailSubscribe _ => true | _ => false end.

Definition grants (ev : consumer_event) (flow : option CommandFlow) : bool :=
  match ev, flow with
  | (CeInitialFlow _ | CeSubscribeSuccess _ _ | CeActiveChange _ _), Some _ => true
  | _, _ => false
  end.

(** What the broker spends on an event, and what the client debits for it. *)
Definition spent (ev : consumer_event) : Z :=
  match ev with CeMessage cmd md _ _ _ => dispatch_cost cmd md | CeMarker => 1 | _ => 0 end.

Definition debited (ev : consumer_event) c : Z :=
  match ev with
  | CeMessage cmd md bem body now => charge cmd md (deliver cmd md bem body now c).1.1
  | CeMarker => 1
  | _ => 0
  end.

Definition next_view (ev : consumer_event) c (flow : option CommandFlow) (v : broker_view) : broker_view :=
  if detaches ev then no_view
  else if grants ev flow then mkView true (flow_permits flow) 0 true
  else mkView (bv_attached v) (bv_permits v - spent ev + flow_permits flow)
         (bv_lost v + (spent ev - debited ev c)) (bv_within v && (spent ev <=? bv_permits v)).

Lemma next_view_attached ev c flow v :
  bv_attached (next_view ev c flow v) = next_attached ev flow (bv_attached v).
Proof. by destruct ev, flow. Qed.

Inductive consumer_reachable : broker_view -> state -> Prop :=
| cr_fresh c : fresh_consumer c -> consumer_reachable no_view c
| cr_step ev flow v c c' : consumer_reachable v c -> event_ok ev ->
    consumer_exec hist_record ev c = Some (flow, c') ->
    consumer_reachable (next_view ev c flow v) c'.

Lemma fixed_mode_ext c c' : fixed_mode c ->
  c_policy c' = c_policy c -> c_receiver_queue_size c' = c_receiver_queue_size c ->
  c_defer_payload_processing c' = c_defer_payload_processing c ->
  0 <= c_granted_permits c' -> counters_ok c' -> fixed_mode c'.
Proof. intros [] ?????. split; congruence. Qed.

Lemma permits_ext a c c' : permits_inv a c ->
  c_policy c' = c_policy c -> c_receiver_queue_size c' = c_receiver_queue_size c ->
  c_defer_payload_processing c' = c_defer_payload_processing c ->
  c_granted_permits c' = c_granted_permits c -> c_permit_balance c' = c_permit_balance c ->
  c_dispatch_units_received c' = c_dispatch_units_received c ->
  c_consumed_since_flow c' = c_consumed_since_flow c -> c_queue c' = c_queue c -> permits_inv a c'.
Proof.
  intros [Hm Hl] Hp Hs Hd Hg Hb Hr Hc Hq. destruct Hm as [H1 H2 H3 H4 [H5 H6 H7]].
  split; [split; try congruence; split; congruence|]. unfold ledger in *. by rewrite Hb, Hc, Hq.
Qed.

Lemma counters_set c c' : counters_ok c ->
  u32_ok (c_permit_balance c') -> u32_ok (c_consumed_since_flow c') ->
  c_dispatch_units_received c' = c_dispatch_units_received c -> counters_ok c'.
Proof. intros [] ?? Hr. split; try done. by rewrite Hr. Qed.

(** Right after the permits were zeroed, whatever is queued. *)
Lemma permits_zeroed a c c' : permits_inv a c ->
  c_policy c' = c_policy c -> c_receiver_queue_size c' = c_receiver_queue_size c ->
  c_defer_payload_processing c' = c_defer_payload_processing c ->
  c_granted_permits c' = 0 -> c_permit_balance c' = 0 -> u32_ok (c_consumed_since_flow c') ->
  c_dispatch_units_received c' = c_dispatch_units_received c -> permits_inv false c'.
Proof.
  intros [Hm _] Hp Hs Hd Hg Hb Hc Hr. split; [|done].
  apply (fixed_mode_ext c); try done; [by rewrite Hg|].
  apply (counters_set c); try done; [apply Hm|by rewrite Hb].
Qed.

Lemma permits_flow_same a c c' : permits_inv a c -> flow_same c c' -> permits_inv a c'.
Proof. intros Hi [[] ?????]. by apply (permits_ext a c). Qed.

Lemma permits_units a u c c' : 0 <= u -> units u c c' -> permits_inv a c -> permits_inv a c'.
Proof.
  intros Hu Hun [Hm Hl]. pose proof Hun as [[] Hb _ (d & Hd & Hc & Hq)]. split.
  - eapply fixed_mode_ext; eauto using units_counters, fm_counters. rewrite sm_granted0. apply Hm.
  - intros Ha. specialize (Hl Ha). unfold ledger in *. rewrite Hb, Hc, Hq.
    pose proof (co_consumed c (fm_counters c Hm)). pose proof (blen_nonneg (c_queue c)).
    unfold saturating_sub, saturating_add, u32_ok in *. lia.
Qed.

(** Moving permits to the broker keeps the ledger. *)
Lemma permits_moved a k c c' : permits_inv a c -> 0 <= k ->
  c_policy c' = c_policy c -> c_receiver_queue_size c' = c_receiver_queue_size c ->
  c_defer_payload_processing c' = c_defer_payload_processing c ->
  0 <= c_granted_permits c' ->
  c_permit_balance c' = saturating_add u32_max (c_permit_balance c) k ->
  0 <= c_consumed_since_flow c' <= c_consumed_since_flow c ->
  c_consumed_since_flow c <= c_consumed_since_flow c' + k ->
  c_dispatch_units_received c' = c_dispatch_units_received c -> c_queue c' = c_queue c ->
  permits_inv a c'.
Proof.
  intros [Hm Hl] Hk Hp Hs Hd Hg Hb Hc Hck Hr Hq. pose proof (fm_counters c Hm) as Hco.
  pose proof Hco as [[Hb0 Hb1] [Hc0 Hc1] _]. unfold saturating_add in Hb.
  split; [apply (fixed_mode_ext c)|]; try done.
  - apply (counters_set c); try done; unfold u32_ok; lia.
  - intros Ha. specialize (Hl Ha). unfold ledger in *. rewrite Hq. pose proof (blen_nonneg (c_queue c)). lia.
Qed.

Lemma sat_add_nonneg m a b : 0 <= m -> 0 <= a -> 0 <= b -> 0 <= saturating_add m a b.
Proof. unfold saturating_add. lia. Qed.

Lemma permits_maybe_flow a c : permits_inv a c -> permits_inv a (snd (maybe_flow c)).
Proof.
  intros Hi. unfold maybe_flow. case_match; [done|]. case_match; [done|]. cbn [snd].
  pose proof (fm_granted c (pi_mode a c Hi)). pose proof (fm_counters c (pi_mode a c Hi)) as [? [Hc _] _].
  apply (permits_moved a (c_consumed_since_flow c) c); try done.
  apply sat_add_nonneg; [by vm_compute|done..].
Qed.

Lemma permits_initial_flow a c : permits_inv a c -> permits_inv true (snd (initial_flow c)).
Proof.
  intros [Hm _]. unfold initial_flow. rewrite (fm_size c Hm). rewrite (proj2 (Z.eqb_neq _ _)) by lia.
  assert (Hn : as_unsigned 32 size = size).
  { unfold as_unsigned. apply Z.mod_small. unfold u32_max in size_ok. lia. }
  cbn [snd]. split.
  - apply (fixed_mode_ext c); try done; simpl; [lia|].
    apply (counters_set c); try done; [apply Hm|simpl; unfold u32_ok; lia].
  - intros _. unfold ledger. simpl. pose proof (blen_nonneg (c_queue c)). lia.
Qed.

Lemma permits_conn_initial_flow a now c : permits_inv a c ->
  let '(flow, c') := conn_initial_flow now c in
  permits_inv (match flow with Some _ => true | None => a end) c'.
Proof.
  intros Hi. unfold conn_initial_flow. destruct (_ || _); [|done].
  pose proof (permits_initial_flow a c Hi) as Hf. destruct (initial_flow c) as [flow c1]. cbn [snd] in Hf.
  apply (permits_ext true c1); try done; unfold arm_adjust_clock; by case_match.
Qed.
Lemma permits_message a cmd md bem body now c : permits_inv a c ->
  let '(_, _, _, c') := on_message cmd md bem body now c in permits_inv a c'.
Proof.
  intros Hi. pose proof (pi_mode a c Hi) as Hm. unfold on_message.
  pose proof (deliver_units cmd md bem body now c (fm_counters c Hm) (fm_defer c Hm)) as Hu.
  destruct (deliver cmd md bem body now c) as [[o ws] c1].
  apply (permits_units a _ _ _ (charge_nonneg _ _ _) Hu), permits_maybe_flow in Hi.
  by destruct (maybe_flow c1).
Qed.

Lemma permits_pop a now c : permits_inv a c -> permits_inv a (snd (pop_message hist_record now c)).
Proof.
  intros [Hm Hl]. unfold pop_message. destruct (c_queue c) as [|m rest] eqn:Hq; [done|]. cbn [snd].
  change (c_receiver_queue_size (c <| c_queue := rest |>)) with (c_receiver_queue_size c).
  rewrite (fm_size c Hm), (proj2 (Z.eqb_neq size 0)) by lia.
  pose proof (fm_counters c Hm) as Hco. pose proof Hco as [_ [Hc0 Hc1] _]. split.
  - apply (fixed_mode_ext c); try done; [apply Hm|]. apply (counters_set c); try done; [apply Hco|].
    simpl. unfold u32_ok, saturating_add, u32_max in *. lia.
  - intros Ha. specialize (Hl Ha). unfold ledger in *. rewrite Hq, blen_cons in Hl. simpl.
    pose proof (blen_nonneg rest). destruct (co_balance c Hco). unfold saturating_add. lia.
Qed.

Lemma permits_conn_pop a now c : permits_inv a c ->
  let '(_, _, c') := conn_pop_message hist_record now c in permits_inv a c'.
Proof.
  intros Hi%(permits_pop a now). unfold conn_pop_message. destruct (pop_message hist_record now c) as [m c1].
  apply permits_maybe_flow in Hi. simpl in Hi. by destruct (maybe_flow c1).
Qed.

Lemma adjust_fixed now c : fixed_mode c ->
  exists c', adjust_receiver_queue now 1 c = Some (None, c') /\ flow_same c c'.
Proof.
  intros Hm. unfold adjust_receiver_queue. cbv zeta.
  case_match; [by eexists|]. case_match; [by eexists|]. simpl.
  rewrite (fm_policy c Hm), (fm_size c Hm). simpl.
  rewrite (proj2 (Z.leb_le (size `max` 1) size)) by lia. eexists. split; [done|].
  split; try done. split; try done. simpl. rewrite (fm_size c Hm). lia.
Qed.

Lemma poll_stall_same window now c : flow_same c (snd (poll_stall window now c)).
Proof. unfold poll_stall. repeat case_match; by split. Qed.

Lemma tick_fixed stall now c : fixed_mode c ->
  exists out c', handle_timeout_consumer stall now c = Some (out, c') /\ tk_flow out = None /\ flow_same c c'.
Proof.
  intros Hm. unfold handle_timeout_consumer.
  set (s1 := match c_unacked_tracker c with Some t => _ | None => _ end).
  assert (H1 : flow_same c s1.2).
  { subst s1. destruct (c_unacked_tracker c) as [tr|]; [|done].
    destruct (Unacked.unacked_poll now tr). by split. }
  destruct s1 as [redeliver c1]. cbn [snd] in H1. cbv zeta.
  set (c2 := (sweep_expired_chunks now c1) <| c_chunk_auto_ack_pending := [] |>).
  assert (H2 : flow_same c c2). { trans c1; [done|]. etrans; [apply sweep_same|]. by split. }
  assert (H3 : exists c3, adjust_tick now c2 = Some (None, c3) /\ flow_same c c3).
  { unfold adjust_tick. destruct (next_adjust_deadline c2) as [d|].
    - destruct (now >=? d); [|by eexists].
      destruct (adjust_fixed now c2) as (c3 & -> & ?); [|eexists; split; [done|by trans c2]].
      destruct H2 as [[] ?????]. apply (fixed_mode_ext c); try done; [rewrite sm_granted0; apply Hm|].
      destruct (fm_counters c Hm). split; congruence.
    - eexists. split; [done|]. trans c2; [done|]. unfold arm_adjust_clock. case_match; by split. }
  destruct H3 as (c3 & -> & H3). simpl. destruct stall as [window|]; [|by eexists _, _].
  pose proof (poll_stall_same window now c3) as Hp. destruct (poll_stall window now c3) as [st c4].
  eexists _, _. split_and!; [done..|]. by trans c3.
Qed.

Lemma permits_conn_flow a k c : permits_inv a c -> 0 <= k -> permits_inv a (snd (conn_flow k c)).
Proof.
  intros Hi Hk. pose proof (pi_mode a c Hi) as Hm. unfold conn_flow.
  rewrite (fm_size c Hm), (proj2 (Z.eqb_neq size 0)) by lia. cbn [snd].
  pose proof (fm_counters c Hm) as [_ [] _].
  apply (permits_moved a k c); try done; simpl; try lia.
  apply sat_add_nonneg; [by vm_compute|apply Hm|done].
Qed.

Lemma permits_subscribe_success a rid now c : permits_inv a c ->
  let '(_, flow, c') := on_subscribe_success rid now c in
  permits_inv (match flow with Some _ => true | None => a end) c'.
Proof.
  intros Hi. unfold on_subscribe_success. cbv zeta.
  set (mine := bool_decide _). set (c1 := if mine then _ else c). set (n := bool_decide (is_Some _)).
  set (f := c_flow_on_subscribe_ack c1 && _). clearbody f n.
  set (c4 := if n || f then _ else _).
  assert (H4 : permits_inv a c4) by (subst c4 c1; apply (permits_ext a c); [done|..]; by destruct mine, n, f).
  destruct f; [|done]. pose proof (permits_conn_initial_flow a now c4 H4) as Hf.
  by destruct (conn_initial_flow now c4).
Qed.

Lemma permits_record_active a active c : permits_inv a c -> permits_inv a (snd (record_active_change active c)).
Proof.
  intros Hi. unfold record_active_change, wake_active_change_waiters. cbv zeta.
  destruct (ws_drain _). apply (permits_ext a c); [done|..]; simpl; by case_match.
Qed.

Lemma permits_active_change a active now c : permits_inv a c ->
  let '(flow, _, c') := on_active_change active now c in
  permits_inv (match flow with Some _ => true | None => a end) c'.
Proof.
  intros Hi%(permits_record_active a active). unfold on_active_change.
  destruct (record_active_change active c) as [ws c1]. cbn [snd] in Hi.
  destruct (_ && _); [|done]. pose proof (permits_conn_initial_flow a now c1 Hi) as Hf.
  by destruct (conn_initial_flow now c1).
Qed.

(** Closes the arms that leave the ledger alone, and those that zero it. *)
Ltac ledger_kept c :=
  unfold note_subscribe_sent, on_end_of_topic, register_receive_waker, cancel_receive_waker, consumer_close;
  cbv zeta; rewrite ?wake_receivers_eq, ?wake_active_change_waiters_eq;
  apply (permits_ext _ c); [done|..]; repeat case_match; done.
Ltac ledger_zeroed a c :=
  unfold session_reset, fail_consumer_subscribe;
  cbv zeta; rewrite ?wake_receivers_eq, ?wake_active_change_waiters_eq; by apply (permits_zeroed a c).

Lemma permits_exec ev flow a c c' : permits_inv a c -> event_ok ev ->
  consumer_exec hist_record ev c = Some (flow, c') -> permits_inv (next_attached ev flow a) c'.
Proof.
  intros Hi Hok Hex. pose proof (pi_mode a c Hi) as Hm.
  pose proof (fm_counters c Hm) as [_ Hc _].
  destruct ev; unfold consumer_exec in Hex; cbn [next_attached];
    try (injection Hex as <- <-; first [ledger_kept c|ledger_zeroed a c]).
  - pose proof (permits_message a cmd md bem body now c Hi) as Hp.
    destruct (on_message _ _ _ _ _ _) as [[[evs fl] ws] c1]. by simplify_eq.
  - simplify_eq. apply (permits_units a 1 c); [lia|apply marker_units, Hm|done].
  - pose proof (permits_conn_pop a now c Hi) as Hp.
    destruct (conn_pop_message _ _ _) as [[m fl] c1]. by simplify_eq.
  - pose proof (permits_conn_flow a permits c Hi Hok) as Hp. destruct (conn_flow permits c). by simplify_eq.
  - destruct (tick_fixed stall_timeout now c Hm) as (out & c1 & Ht & _ & Hs). rewrite Ht in Hex.
    simplify_eq/=. by apply (permits_flow_same a c).
  - pose proof (permits_subscribe_success a request_id now c Hi) as Hp.
    destruct (on_subscribe_success _ _ _) as [[w fl] c1]. by simplify_eq.
  - pose proof (permits_conn_initial_flow a now c Hi) as Hp. by destruct (conn_initial_flow _ _); simplify_eq.
  - pose proof (permits_active_change a active now c Hi) as Hp.
    destruct (on_active_change _ _ _) as [[w fl] c1]. by simplify_eq.
Qed.

Lemma permits_reachable v c : consumer_reachable v c -> permits_inv (bv_attached v) c.
Proof.
  induction 1 as [c [H1 H2 H3 H4 H5 H6 H7]|ev flow v c c' Hr IH Hok Hex];
    [|rewrite next_view_attached; by eapply permits_exec].
  split; [|done]. split; try done; [by rewrite H4|].
  split; [rewrite H5|rewrite H6|rewrite H7]; by vm_compute.
Qed.

(** ** What the client owes *)

(** The permits the client has still to give back. *)
Definition owed c : Z := c_consumed_since_flow c + blen (c_queue c).

Lemma units_owed u c c' : 0 <= u -> counters_ok c -> units u c c' ->
  Z.min u32_max (owed c + u) <= owed c' <= owed c + u.
Proof.
  intros Hu [_ [] _] [_ _ _ (d & Hd & Hc & Hq)]. unfold owed. rewrite Hc, Hq. pose proof (blen_nonneg (c_queue c)).
  unfold saturating_add. lia.
Qed.

Lemma maybe_flow_owed c : owed (maybe_flow c).2 + flow_permits (maybe_flow c).1 = owed c.
Proof.
  unfold maybe_flow. case_match; [simpl; lia|]. case_match; [simpl; lia|].
  unfold owed, flow_permits. simpl. lia.
Qed.

Lemma pop_owed now c : fixed_mode c ->
  Z.min u32_max (owed c) <= owed (pop_message hist_record now c).2 <= owed c.
Proof.
  intros Hm. unfold pop_message, owed. destruct (c_queue c) as [|m rest] eqn:Hq; [simpl; rewrite Hq; lia|]. cbn [snd].
  change (c_receiver_queue_size (c <| c_queue := rest |>)) with (c_receiver_queue_size c).
  rewrite (fm_size c Hm), (proj2 (Z.eqb_neq size 0)) by lia. simpl. rewrite blen_cons.
  pose proof (fm_counters c Hm) as [_ [] _]. pose proof (blen_nonneg rest). unfold saturating_add. lia.
Qed.

Lemma maybe_flow_nonneg c : counters_ok c -> 0 <= flow_permits (maybe_flow c).1.
Proof.
  intros [_ [] _]. unfold maybe_flow. case_match; [simpl; lia|]. case_match; [simpl; lia|].
  unfold flow_permits. simpl. lia.
Qed.

(** An initial flow grants the window. *)
Lemma initial_flow_owed now c : fixed_mode c ->
  let '(flow, c') := conn_initial_flow now c in
  match flow with Some f => cf_message_permits f = size | None => owed c' = owed c end.
Proof.
  intros Hm. unfold conn_initial_flow, initial_flow. destruct (_ || _); [|done]. simpl.
  rewrite (fm_size c Hm), (proj2 (Z.eqb_neq size 0)) by lia.
  unfold as_unsigned. apply Z.mod_small. unfold u32_max in size_ok. lia.
Qed.

Lemma subscribe_success_owed a rid now c : permits_inv a c ->
  let '(_, flow, c') := on_subscribe_success rid now c in
  match flow with Some f => cf_message_permits f = size | None => owed c' = owed c end.
Proof.
  intros Hi. unfold on_subscribe_success. cbv zeta.
  set (mine := bool_decide _). set (c1 := if mine then _ else c). set (n := bool_decide (is_Some _)).
  set (f := c_flow_on_subscribe_ack c1 && _). clearbody f n.
  set (c4 := if n || f then _ else _).
  assert (H4 : permits_inv a c4) by (subst c4 c1; apply (permits_ext a c); [done|..]; by destruct mine, n, f).
  assert (Ho : owed c4 = owed c) by (subst c4 c1; by destruct mine, n, f).
  destruct f; [|done]. pose proof (initial_flow_owed now c4 (pi_mode _ _ H4)) as Hf.
  destruct (conn_initial_flow now c4) as [[]]; [done|congruence].
Qed.

Lemma active_change_owed a active now c : permits_inv a c ->
  let '(flow, _, c') := on_active_change active now c in
  match flow with Some f => cf_message_permits f = size | None => owed c' = owed c end.
Proof.
  intros Hi. assert (Ho : owed (record_active_change active c).2 = owed c).
  { unfold record_active_change, wake_active_change_waiters. cbv zeta. destruct (ws_drain _). simpl. by case_match. }
  apply (permits_record_active a active) in Hi. unfold on_active_change.
  destruct (record_active_change active c) as [ws c1]. cbn [snd] in *.
  destruct (_ && _); [|done]. pose proof (initial_flow_owed now c1 (pi_mode _ _ Hi)) as Hf.
  destruct (conn_initial_flow now c1) as [[]]; [done|congruence].
Qed.

(** Permits asked for by hand. *)
Definition explicit (ev : consumer_event) : Z := match ev with CeFlow k => k | _ => 0 end.

(** Closes the arms that owe the same and send nothing. *)
Ltac owed_kept :=
  unfold note_subscribe_sent, on_end_of_topic, register_receive_waker, cancel_receive_waker, consumer_close;
  cbv zeta; rewrite ?wake_receivers_eq, ?wake_active_change_waiters_eq; unfold owed, flow_permits;
  repeat case_match; simpl; lia.

(** Within an attachment, what the client owes moves by what it debits, less what
    it gives back. *)
Lemma exec_owed ev flow a c c' : permits_inv a c -> event_ok ev ->
  consumer_exec hist_record ev c = Some (flow, c') -> detaches ev = false -> grants ev flow = false ->
  Z.min u32_max (owed c + debited ev c) <= owed c' + flow_permits flow <= owed c + debited ev c + explicit ev
  /\ 0 <= flow_permits flow.
Proof.
  intros Hi Hok Hex Hd Hg. pose proof (pi_mode a c Hi) as Hm. pose proof (fm_counters c Hm) as Hc.
  destruct ev; try done; unfold consumer_exec in Hex; simpl in Hok;
    try (injection Hex as <- <-; simpl debited; simpl explicit; owed_kept).
  - unfold on_message in Hex. simpl debited.
    pose proof (deliver_units cmd md bem body now c Hc (fm_defer c Hm)) as Hu.
    destruct (deliver cmd md bem body now c) as [[o ws] c1]. pose proof (charge_nonneg cmd md o) as Hn.
    pose proof (maybe_flow_nonneg c1 (units_counters _ _ _ Hn Hu Hc)) as Hf'.
    apply units_owed in Hu; [|done..]. pose proof (maybe_flow_owed c1) as Hf.
    destruct (maybe_flow c1) as [fl c2]. simplify_eq/=. lia.
  - simplify_eq. pose proof (units_owed 1 c _ ltac:(lia) Hc (marker_units c Hc)) as Hu. simpl in *. lia.
  - pose proof (pop_owed now c Hm) as Hp. pose proof (permits_pop a now c Hi) as [Hm1 _].
    unfold conn_pop_message in Hex. destruct (pop_message hist_record now c) as [m c1]. simpl in Hm1.
    pose proof (maybe_flow_nonneg c1 (fm_counters _ Hm1)) as Hf'. pose proof (maybe_flow_owed c1) as Hf.
    destruct (maybe_flow c1) as [fl c2]. simplify_eq/=. lia.
  - destruct (tick_fixed stall_timeout now c Hm) as (out & c1 & Ht & Hf & Hs). rewrite Ht in Hex.
    simplify_eq/=. rewrite Hf. destruct Hs as [_ _ _ Hcs Hq _ _]. unfold owed. rewrite Hcs, Hq. simpl. lia.
  - pose proof (subscribe_success_owed a request_id now c Hi) as Hp.
    destruct (on_subscribe_success _ _ _) as [[w [fl|]] c1]; simplify_eq/=; lia.
  - pose proof (initial_flow_owed now c Hm) as Hp. destruct (conn_initial_flow _ _) as [[fl|] c1]; simplify_eq/=; lia.
  - pose proof (active_change_owed a active now c Hi) as Hp.
    destruct (on_active_change _ _ _) as [[[fl|] w] c1]; simplify_eq/=; lia.
Qed.

Lemma grants_window ev flow a c c' : permits_inv a c ->
  consumer_exec hist_record ev c = Some (flow, c') -> grants ev flow = true -> flow_permits flow = size.
Proof.
  intros Hi Hex Hg. destruct ev; try done; destruct flow as [f|]; try done; unfold consumer_exec in Hex.
  - pose proof (subscribe_success_owed a request_id now c Hi) as Hp.
    destruct (on_subscribe_success _ _ _) as [[w fl] c1]. by simplify_eq/=.
  - pose proof (initial_flow_owed now c (pi_mode _ _ Hi)) as Hp. destruct (conn_initial_flow _ _). by simplify_eq/=.
  - pose proof (active_change_owed a active now c Hi) as Hp.
    destruct (on_active_change _ _ _) as [[fl w] c1]. by simplify_eq/=.
Qed.

Lemma debited_spent ev c : 0 <= debited ev c <= spent ev.
Proof. destruct ev; simpl; try lia. apply charge_bounds. Qed.

Lemma owed_nonneg c : fixed_mode c -> 0 <= owed c.
Proof. intros Hm. pose proof (fm_counters c Hm) as [_ [] _]. pose proof (blen_nonneg (c_queue c)). unfold owed. lia. Qed.

(** The permits of the attachment, seen from the broker. *)
Definition view_inv (v : broker_view) c : Prop :=
  bv_attached v = true -> bv_within v = true ->
  0 <= bv_permits v /\ 0 <= bv_lost v /\ size <= bv_permits v + bv_lost v + owed c.

Lemma view_exec ev flow v c c' : permits_inv (bv_attached v) c -> view_inv v c -> event_ok ev ->
  consumer_exec hist_record ev c = Some (flow, c') -> view_inv (next_view ev c flow v) c'.
Proof.
  intros Hi Hv Hok Hex. pose proof (permits_exec _ _ _ _ _ Hi Hok Hex) as Hi'.
  pose proof (owed_nonneg _ (pi_mode _ _ Hi')) as Hpos. unfold view_inv, next_view.
  destruct (detaches ev) eqn:Hd; [done|]. destruct (grants ev flow) eqn:Hg; simpl.
  { rewrite (grants_window _ _ _ _ _ Hi Hex Hg). lia. }
  intros Ha [Hw Hle]%andb_prop. destruct (Hv Ha Hw) as (Hp & Hl & Hs).
  pose proof (exec_owed _ _ _ _ _ Hi Hok Hex Hd Hg) as [[Hlo _] Hf]. pose proof (debited_spent ev c). lia.
Qed.

Lemma threshold_fixed c : fixed_mode c -> flow_threshold c = Z.max (size / 2) 1.
Proof.
  intros Hm. unfold flow_threshold, as_unsigned. rewrite (fm_size c Hm). apply Z.mod_small.
  pose proof (Z.div_le_upper_bound size 2 size ltac:(lia) ltac:(lia)).
  pose proof (Z.div_pos size 2 ltac:(lia) ltac:(lia)). unfold u32_max in size_ok. lia.
Qed.

Lemma threshold_le_size : Z.max (size / 2) 1 <= size.
Proof. pose proof (Z.div_le_upper_bound size 2 size ltac:(lia) ltac:(lia)). lia. Qed.

Lemma not_starved c : fixed_mode c -> size <= ledger c -> is_flow_starved c = false.
Proof.
  intros Hm Hl. unfold is_flow_starved. destruct (Z.eqb_spec (c_permit_balance c) 0) as [Hz|]; [|done].
  rewrite threshold_fixed by done. pose proof threshold_le_size. apply Z.ltb_ge.
  unfold ledger in Hl. unfold saturating_add. unfold usize_max, u64_max, u32_max in *. lia.
Qed.

Lemma view_reachable v c : consumer_reachable v c -> view_inv v c.
Proof.
  induction 1 as [c Hf|ev flow v c c' Hr IH Hok Hex]; [done|]. eapply view_exec; eauto using permits_reachable.
Qed.


(** Automatic flow is enabled. *)
Definition receiving c : Prop := c_closed c = false /\ c_pending_seek c = None /\ c_paused c = false.

Lemma maybe_flow_below c : fixed_mode c -> receiving c ->
  c_consumed_since_flow (snd (maybe_flow c)) < Z.max (size / 2) 1
  /\ c_queue (snd (maybe_flow c)) = c_queue c /\ receiving (snd (maybe_flow c)).
Proof.
  intros Hm Hr. pose proof Hr as (Hc & Hs & Hp). unfold maybe_flow.
  rewrite Hc, Hs, Hp, (fm_size c Hm), (proj2 (Z.eqb_neq size 0)) by lia.
  rewrite bool_decide_false by (intros [? ?]; done). simpl. rewrite threshold_fixed by done.
  destruct (Z.ltb_spec (c_consumed_since_flow c) (Z.max (size / 2) 1)); [done|]. split; [|done].
  simpl. lia.
Qed.

Lemma pop_message_facts now c : receiving c ->
  (pop_message hist_record now c).1 = head (c_queue c)
  /\ c_queue (pop_message hist_record now c).2 = tail (c_queue c)
  /\ receiving (pop_message hist_record now c).2.
Proof.
  intros Hr. unfold pop_message, receiving. destruct (c_queue c) eqn:Hq; simpl; [by rewrite Hq|].
  by destruct (c_receiver_queue_size c =? 0).
Qed.

Lemma conn_pop_below a now c : permits_inv a c -> receiving c ->
  let '(m, _, c') := conn_pop_message hist_record now c in
  m = head (c_queue c) /\ permits_inv a c' /\ receiving c' /\ c_queue c' = tail (c_queue c)
  /\ c_consumed_since_flow c' < Z.max (size / 2) 1.
Proof.
  intros Hi Hr. pose proof (permits_pop a now c Hi) as H1. pose proof (permits_conn_pop a now c Hi) as H2.
  unfold conn_pop_message in *.
  pose proof (pop_message_facts now c Hr) as Hp.
  destruct (pop_message hist_record now c) as [m c1]. cbn [fst snd] in *. destruct Hp as (-> & Hq & Hr1).
  pose proof (maybe_flow_below c1 (pi_mode a c1 H1) Hr1) as (Hb & Hq' & Hr').
  destruct (maybe_flow c1) as [fl c2]. cbn [snd] in *. split_and!; try done. by rewrite Hq', Hq.
Qed.

(** Popping until nothing is left. *)
Lemma drain_run a now c : permits_inv a c -> receiving c ->
  exists flows c', consumer_run hist_record (replicate (S (length (c_queue c))) (CePop now)) c = Some (flows, c')
    /\ c_queue c' = [] /\ permits_inv a c' /\ c_consumed_since_flow c' < Z.max (size / 2) 1.
Proof.
  remember (c_queue c) as q eqn:Hq. revert c Hq. induction q as [|m q IH]; intros c Hq Hi Hr;
    simpl; pose proof (conn_pop_below a now c Hi Hr) as Hp;
    destruct (conn_pop_message hist_record now c) as [[m' fl] c1];
    destruct Hp as (_ & Hi1 & Hr1 & Hq1 & Hb); rewrite <- Hq in Hq1; simpl in *.
  - by eexists _, _.
  - destruct (IH c1 (eq_sym Hq1) Hi1 Hr1) as (flows & c' & Hrun & Hrest). simpl in Hrun.
    rewrite Hrun. simpl. by eexists _, _.
Qed.

(** An application that takes every queued message always leaves the broker
    with permits: popping until the queue is empty, in any reachable state of an
    attached consumer that is not paused, closed or seeking, ends with a positive
    balance. *)
Theorem drain_refills now v c :
  consumer_reachable v c -> bv_attached v = true -> receiving c ->
  exists flows c', consumer_run hist_record (replicate (S (length (c_queue c))) (CePop now)) c = Some (flows, c')
    /\ c_queue c' = [] /\ 0 < c_permit_balance c'.
Proof.
  intros Hi%permits_reachable Ha Hr. rewrite Ha in Hi. destruct (drain_run true now c Hi Hr) as (flows & c' & Hrun & Hq & Hi' & Hb).
  exists flows, c'. split_and!; try done. pose proof (pi_ledger true c' Hi' eq_refl) as Hl.
  unfold ledger in Hl. rewrite Hq in Hl. pose proof threshold_le_size. rewrite blen_nil in Hl. lia.
Qed.
(** ** With a broker that respects the permits *)

(** Right after an initial flow with nothing queued. *)
Record just_granted c : Prop := {
  jg_mode : fixed_mode c;
  jg_granted : 0 < c_granted_permits c;
  jg_due : c_initial_grant_due c = false;
  jg_balance : c_permit_balance c = size;
  jg_consumed : c_consumed_since_flow c = 0;
  jg_queue : c_queue c = [];
}.

(** Events of one attachment: no explicit flow, no seek, no re-subscription. *)
Definition in_session (ev : consumer_event) : bool :=
  match ev with
  | CeFlow _ | CeSeek _ | CeReset | CeBrokerClose | CeReattachClose | CeFailSubscribe _
  | CeSubscribeSent _ _ => false
  | _ => true
  end.

Inductive session : broker_view -> state -> Prop :=
| se_granted c : just_granted c -> session (mkView true size 0 true) c
| se_step ev flow v c c' : session v c -> in_session ev = true -> spent ev <= bv_permits v ->
    consumer_exec hist_record ev c = Some (flow, c') -> session (next_view ev c flow v) c'.

Record exact_inv c : Prop := {
  ei_mode : fixed_mode c;
  ei_granted : 0 < c_granted_permits c;
  ei_due : c_initial_grant_due c = false;
  ei_ledger : ledger c = size;
}.

Lemma exact_ext c c' : exact_inv c ->
  c_policy c' = c_policy c -> c_receiver_queue_size c' = c_receiver_queue_size c ->
  c_defer_payload_processing c' = c_defer_payload_processing c ->
  c_granted_permits c' = c_granted_permits c -> c_permit_balance c' = c_permit_balance c ->
  c_dispatch_units_received c' = c_dispatch_units_received c ->
  c_consumed_since_flow c' = c_consumed_since_flow c -> c_queue c' = c_queue c ->
  c_initial_grant_due c' = c_initial_grant_due c -> exact_inv c'.
Proof.
  intros [Hm Hg Hd Hl] Hp Hs Hdf Hg' Hb Hr Hc Hq Hd'.
  assert (Hpi : permits_inv false c') by (by apply (permits_ext false c)).
  split; [apply Hpi|congruence..|]. unfold ledger in *. by rewrite Hb, Hc, Hq.
Qed.

Lemma exact_flow_same c c' : exact_inv c -> flow_same c c' -> exact_inv c'.
Proof. intros Hi [[] ?????]. by apply (exact_ext c). Qed.

Lemma exact_units u c c' : 0 <= u <= c_permit_balance c -> units u c c' -> exact_inv c -> exact_inv c'.
Proof.
  intros Hu Hun [Hm Hg Hd Hl]. pose proof (permits_units false u c c' ltac:(lia) Hun) as Hp.
  destruct Hun as [[] Hb _ (d & Hdd & Hc & Hq)]. split; [apply Hp; by split|congruence..|].
  unfold ledger in *. rewrite Hb, Hc, Hq. pose proof (blen_nonneg (c_queue c)).
  pose proof (co_consumed c (fm_counters c Hm)) as [? ?]. unfold saturating_sub, saturating_add in *. lia.
Qed.

Lemma exact_maybe_flow c : exact_inv c -> exact_inv (snd (maybe_flow c)).
Proof.
  intros Hi. pose proof Hi as [Hm Hg Hd Hl].
  pose proof (permits_maybe_flow false c ltac:(by split)) as [Hm' _].
  unfold maybe_flow in *. case_match; [done|]. case_match; [done|]. cbn [snd] in *.
  pose proof (fm_counters c Hm) as [[] [] _]. pose proof (blen_nonneg (c_queue c)).
  split; try done; unfold ledger in *; simpl; unfold saturating_add; [|lia].
  unfold u32_max in *. lia.
Qed.

Lemma exact_pop now c : exact_inv c -> exact_inv (snd (pop_message hist_record now c)).
Proof.
  intros Hi. pose proof Hi as [Hm Hg Hd Hl].
  pose proof (permits_pop false now c ltac:(by split)) as [Hm' _].
  unfold pop_message in *. destruct (c_queue c) as [|m rest] eqn:Hq; [done|]. cbn [snd] in *.
  pose proof (fm_counters c Hm) as [[] [] _]. pose proof (blen_nonneg rest).
  unfold ledger in Hl. rewrite Hq, blen_cons in Hl.
  split; [done|..]; unfold ledger; simpl; destruct (c_receiver_queue_size c =? 0); simpl; try done;
    unfold saturating_add; lia.
Qed.

Lemma exact_conn_initial_flow now c : exact_inv c -> conn_initial_flow now c = (None, c).
Proof.
  intros [Hm Hg Hd Hl]. unfold conn_initial_flow.
  rewrite Hd, not_starved, (proj2 (Z.eqb_neq _ _)) by (done || lia). done.
Qed.
Lemma exact_subscribe_success rid now c : exact_inv c ->
  exact_inv (snd (on_subscribe_success rid now c)).
Proof.
  intros Hi. unfold on_subscribe_success. cbv zeta.
  set (mine := bool_decide _). set (c1 := if mine then _ else c). set (n := bool_decide (is_Some _)).
  set (f := c_flow_on_subscribe_ack c1 && _). clearbody f n.
  set (c4 := if n || f then _ else _).
  assert (H4 : exact_inv c4) by (subst c4 c1; apply (exact_ext c); [done|..]; by destruct mine, n, f).
  destruct f; [|done]. by rewrite exact_conn_initial_flow.
Qed.

Lemma exact_active_change active now c : exact_inv c -> exact_inv (snd (on_active_change active now c)).
Proof.
  intros Hi. unfold on_active_change, record_active_change. cbv zeta.
  rewrite wake_active_change_waiters_eq. set (c1 := update c_active_change_wakers _ _).
  assert (H1 : exact_inv c1).
  { subst c1. apply (exact_ext c); [done|..]; simpl; by destruct (_ >=? _). }
  destruct (_ && _); [|done]. by rewrite exact_conn_initial_flow.
Qed.

Lemma exact_exec ev flow c c' : exact_inv c -> in_session ev = true -> debited ev c <= c_permit_balance c ->
  consumer_exec hist_record ev c = Some (flow, c') -> exact_inv c'.
Proof.
  intros Hi Hs Ha Hex. pose proof (ei_mode c Hi) as Hm.
  destruct ev; try done; unfold consumer_exec in Hex;
    try (injection Hex as <- <-;
         unfold on_end_of_topic, register_receive_waker, cancel_receive_waker, consumer_close;
         cbv zeta; rewrite ?wake_receivers_eq, ?wake_active_change_waiters_eq;
         apply (exact_ext c); [done|..]; repeat case_match; done).
  - unfold on_message in Hex. simpl in Ha.
    pose proof (deliver_units cmd md bem body now c (fm_counters c Hm) (fm_defer c Hm)) as Hu.
    destruct (deliver cmd md bem body now c) as [[o ws] c1]. simpl in Ha.
    pose proof (charge_nonneg cmd md o) as Hn.
    apply (exact_units _ _ _ (conj Hn Ha) Hu), exact_maybe_flow in Hi.
    destruct (maybe_flow c1). by simplify_eq.
  - simplify_eq. by apply (exact_units 1 c); [|apply marker_units, Hm|].
  - apply (exact_pop now) in Hi. unfold conn_pop_message in Hex.
    destruct (pop_message hist_record now c) as [m c1]. apply exact_maybe_flow in Hi.
    simpl in Hi. destruct (maybe_flow c1). by simplify_eq.
  - destruct (tick_fixed stall_timeout now c Hm) as (out & c1 & Ht & _ & Hf). rewrite Ht in Hex.
    simplify_eq/=. by apply (exact_flow_same c).
  - apply (exact_subscribe_success request_id now) in Hi.
    destruct (on_subscribe_success _ _ _) as [[w fl] c1]. by simplify_eq.
  - rewrite exact_conn_initial_flow in Hex by done. by simplify_eq.
  - apply (exact_active_change active now) in Hi.
    destruct (on_active_change _ _ _) as [[w fl] c1]. by simplify_eq.
Qed.

(** Nothing in a session grants the window again. *)
Lemma exact_no_grant ev flow c c' : exact_inv c -> in_session ev = true ->
  consumer_exec hist_record ev c = Some (flow, c') -> detaches ev = false /\ grants ev flow = false.
Proof.
  intros Hi Hs Hex. destruct ev; try done; unfold consumer_exec in Hex; split; try done.
  - revert Hex. unfold on_subscribe_success. cbv zeta.
    set (mine := bool_decide _). set (c1 := if mine then _ else c). set (n := bool_decide (is_Some _)).
    set (f := c_flow_on_subscribe_ack c1 && _). clearbody f n.
    set (c4 := if n || f then _ else _).
    assert (H4 : exact_inv c4) by (subst c4 c1; apply (exact_ext c); [done|..]; by destruct mine, n, f).
    destruct f; [rewrite exact_conn_initial_flow by done|]; by intros [= <- _].
  - rewrite exact_conn_initial_flow in Hex by done. by simplify_eq.
  - revert Hex. unfold on_active_change, record_active_change. cbv zeta.
    rewrite wake_active_change_waiters_eq. set (c1 := update c_active_change_wakers _ _).
    assert (H1 : exact_inv c1).
    { subst c1. apply (exact_ext c); [done|..]; simpl; by destruct (_ >=? _). }
    destruct (_ && _); [rewrite exact_conn_initial_flow by done|]; by intros [= <- _].
Qed.

(** The broker's permits and those it spent on refused frames are the client's
    mirror. *)
Record session_inv (v : broker_view) c : Prop := {
  si_exact : exact_inv c;
  si_permits : 0 <= bv_permits v;
  si_lost : 0 <= bv_lost v;
  si_mirror : bv_permits v + bv_lost v = c_permit_balance c;
}.

Lemma session_step ev flow v c c' : session_inv v c -> in_session ev = true -> spent ev <= bv_permits v ->
  consumer_exec hist_record ev c = Some (flow, c') -> session_inv (next_view ev c flow v) c'.
Proof.
  intros [Hi Hp Hl Hb] Hs Ha Hex. pose proof (debited_spent ev c) as Hd.
  destruct (exact_no_grant _ _ _ _ Hi Hs Hex) as [Hde Hgr].
  assert (Hpi : permits_inv false c) by (split; [apply Hi|done]).
  assert (Hok : event_ok ev) by (by destruct ev).
  assert (Hex0 : explicit ev = 0) by (by destruct ev).
  destruct (exec_owed _ _ _ _ _ Hpi Hok Hex Hde Hgr) as [Ho Hf].
  assert (Hi' : exact_inv c') by (eapply exact_exec; [done..| |done]; lia).
  pose proof (ei_ledger c Hi) as E. pose proof (ei_ledger c' Hi') as E'. unfold ledger, owed in *.
  unfold next_view. rewrite Hde, Hgr. split; simpl; [done|lia..].
Qed.

Lemma session_reachable v c : session v c -> session_inv v c.
Proof.
  induction 1 as [c [Hm Hg Hd Hb Hc Hq]|ev flow v c c' _ IH Hs Ha Hex]; [|by eapply session_step].
  split; simpl; try lia. split; try done. unfold ledger. rewrite Hb, Hc, Hq. unfold blen. simpl. lia.
Qed.

End Fixed.
