(* ===== verification/ConsumerChunks.v ===== *)
(** Reassembly of chunked messages: the bounds on the buffers, the round trip
    with the frames a producer cuts a large payload into, and the expiry sweep. *)

From S2P Require Import Prelude Time Ids Compress Trackers MemoryLimit ReceiverQueue BatchAck Producer BatchBody Consumer ConsumerFlow.

Arguments MAX_BUFFERED_CHUNK_BYTES : simpl never.
Arguments MAX_CHUNK_TOTAL : simpl never.
Arguments usize_max : simpl never.

(** * The index of the buffers *)

Section Index.
Implicit Types (order : list string) (m : gmap string ChunkBuffer).

(** The order index lists the buffered messages, each once. *)
Definition order_ok order m : Prop := NoDup order /\ forall u, u ∈ order <-> is_Some (m !! u).

Lemma order_ok_empty : order_ok [] ∅.
Proof. split; [constructor|]. intros u. split; [intros []%not_elem_of_nil|intros [? ?]; done]. Qed.

Lemma order_ok_size order m : order_ok order m -> size m = length order.
Proof.
  intros [Hnd Hin]. rewrite <- (size_dom (D := gset string)), <- (size_list_to_set (C := gset string) order) by done.
  f_equal. apply leibniz_equiv, set_equiv. intros u.
  by rewrite elem_of_dom, elem_of_list_to_set, Hin.
Qed.

Lemma order_ok_snoc order m u b : order_ok order m -> m !! u = None ->
  order_ok (order ++ [u]) (<[u := b]> m).
Proof.
  intros [Hnd Hin] Hu. split.
  - apply NoDup_app. split_and!; [done| |apply NoDup_singleton].
    intros x Hx ->%list_elem_of_singleton. apply Hin in Hx. rewrite Hu in Hx. by destruct Hx.
  - intros x. rewrite elem_of_app, list_elem_of_singleton, lookup_insert_is_Some', Hin. naive_solver.
Qed.

Lemma order_ok_tail u order m : order_ok (u :: order) m -> order_ok order (delete u m).
Proof.
  intros [Hnd Hin]. apply NoDup_cons in Hnd as [Hu Hnd]. split; [done|]. intros x.
  rewrite lookup_delete_is_Some, <- Hin, elem_of_cons. naive_solver.
Qed.

Lemma order_ok_replace order m u b : order_ok order m -> is_Some (m !! u) ->
  order_ok order (<[u := b]> m).
Proof.
  intros [Hnd Hin] Hu. split; [done|]. intros x. rewrite lookup_insert_is_Some', Hin. naive_solver.
Qed.

Lemma elem_of_remove_first u order x : NoDup order -> x ∈ remove_first u order <-> x ∈ order /\ x <> u.
Proof.
  induction 1 as [|y order Hy Hnd IH]; simpl; [set_solver|]. case_bool_decide; subst; set_solver.
Qed.

Lemma NoDup_remove_first u order : NoDup order -> NoDup (remove_first u order).
Proof.
  intros Hnd. induction Hnd as [|y order Hy Hnd IH]; simpl; [constructor|]. case_bool_decide; [done|].
  constructor; [|done]. rewrite elem_of_remove_first; naive_solver.
Qed.

Lemma remove_first_length u order : blen (remove_first u order) <= blen order.
Proof. induction order as [|y order IH]; simpl; [done|]. case_bool_decide; rewrite ?blen_cons; lia. Qed.

Lemma order_ok_remove u order m : order_ok order m -> order_ok (remove_first u order) (delete u m).
Proof.
  intros [Hnd Hin]. split; [by apply NoDup_remove_first|]. intros x.
  rewrite elem_of_remove_first by done. rewrite lookup_delete_is_Some, Hin. naive_solver.
Qed.
End Index.

(** * The accounting of the bytes *)

Section Bytes.
Implicit Types (m : gmap string ChunkBuffer) (b : ChunkBuffer).

(** The first chunks of the messages under reassembly: the only ones that are
    stored without a look at the ceiling. *)
Definition first_chunk_bytes b : Z := from_option blen 0 (cb_chunk_payloads b !! 0).
Definition first_bytes m : Z := map_sum first_chunk_bytes m.

(** The bytes accounted for exceed the ceiling by the first chunks at most. *)
Definition bytes_ok m (n : Z) : Prop := 0 <= n <= usize_max /\ n <= MAX_BUFFERED_CHUNK_BYTES + first_bytes m.

Lemma first_chunk_nonneg b : 0 <= first_chunk_bytes b.
Proof. unfold first_chunk_bytes. destruct (_ !! 0); simpl; [apply blen_nonneg|lia]. Qed.

Lemma first_bytes_nonneg m : 0 <= first_bytes m.
Proof. apply map_sum_nonneg. intros. apply first_chunk_nonneg. Qed.

(** What a buffer releases covers its first chunk. *)
Lemma buffered_covers b : 0 <= buffered_bytes b /\ Z.min usize_max (first_chunk_bytes b) <= buffered_bytes b.
Proof.
  assert (Hg : 0 <= buffered_bytes b /\ forall i x, cb_chunk_payloads b !! i = Some x -> Z.min usize_max (blen x) <= buffered_bytes b).
  { unfold buffered_bytes. apply (map_fold_weak_ind (fun n (q : gmap Z bytes) =>
      0 <= n /\ forall i x, q !! i = Some x -> Z.min usize_max (blen x) <= n)).
    - split; [done|]. intros i x. by rewrite lookup_empty.
    - intros i x q n _ [Hn Hi]. pose proof (blen_nonneg x). unfold saturating_add, usize_max, u64_max in *.
      split; [lia|]. intros j y [[<- <-]|[_ Hy]]%lookup_insert_Some; [lia|]. specialize (Hi j y Hy). lia. }
  destruct Hg as [H0 Hi]. split; [done|]. unfold first_chunk_bytes.
  destruct (cb_chunk_payloads b !! 0) eqn:E; simpl; [by apply (Hi 0)|lia].
Qed.

Lemma bytes_remove m u b n : bytes_ok m n -> m !! u = Some b ->
  bytes_ok (delete u m) (saturating_sub n (buffered_bytes b)).
Proof.
  intros [Hn Hs] Hu. destruct (buffered_covers b) as [Hb0 Hb].
  pose proof (first_bytes_nonneg (delete u m)) as Hd. unfold bytes_ok, first_bytes in *.
  rewrite (map_sum_delete _ _ _ b Hu) in *. pose proof (first_chunk_nonneg b).
  unfold saturating_sub, MAX_BUFFERED_CHUNK_BYTES in *. lia.
Qed.

(** A message is indexed, then its first chunk stored. *)
Lemma bytes_index m u b n : bytes_ok m n -> m !! u = None -> cb_chunk_payloads b = ∅ -> bytes_ok (<[u := b]> m) n.
Proof.
  intros [Hn Hs] Hu Hb. unfold bytes_ok, first_bytes in *. rewrite map_sum_insert by done.
  pose proof (first_chunk_nonneg b). lia.
Qed.

Lemma bytes_first m u b body n : bytes_ok m n -> m !! u = Some b -> cb_chunk_payloads b = ∅ ->
  bytes_ok (<[u := bump_received (put_chunk 0 body b)]> m) (saturating_add usize_max n (blen body)).
Proof.
  intros [Hn Hs] Hu Hb. pose proof (blen_nonneg body). unfold bytes_ok, first_bytes in *.
  rewrite (map_sum_replace _ _ _ b) by done.
  assert (first_chunk_bytes b = 0) as E by (unfold first_chunk_bytes; by rewrite Hb).
  assert (first_chunk_bytes (bump_received (put_chunk 0 body b)) = blen body) as ->.
  { unfold first_chunk_bytes. simpl. by rewrite lookup_insert_eq. }
  unfold saturating_add. lia.
Qed.

(** Below the ceiling, whatever the buffers hold. *)
Lemma bytes_below m n : 0 <= n <= MAX_BUFFERED_CHUNK_BYTES -> bytes_ok m n.
Proof.
  intros Hn. pose proof (first_bytes_nonneg m). split; [|lia].
  unfold MAX_BUFFERED_CHUNK_BYTES, usize_max, u64_max in *. lia.
Qed.
End Bytes.

(** * Bounds *)

Section Bounds.
Context {P W Hist : Type} `{ReceiverQueuePolicy P, WakerSlab W}.
Context `{!Codecs, !ProtoMessage SingleMessageMetadata}.
Variable hist_record : Hist -> Z -> Hist.

Abbreviation state := (ConsumerState P W Hist).
Implicit Types c : state.

(** A buffer in progress; [limit] is how many chunks it may hold. *)
Record buffer_ok (limit : Z -> Z) (b : ChunkBuffer) : Prop := {
  bo_expected : 2 <= cb_expected_chunks b <= MAX_CHUNK_TOTAL;
  bo_count : cb_received_chunks b = Z.of_nat (size (cb_chunk_payloads b));
  bo_progress : cb_received_chunks b <= limit (cb_expected_chunks b);
}.

(** A stored message lacks at least one chunk. *)
Abbreviation incomplete := (buffer_ok Z.pred).
Abbreviation filled := (buffer_ok (fun n => n)).

Record chunks_ok c : Prop := {
  ck_order : order_ok (c_chunk_reassembly_order c) (c_chunk_reassembly c);
  ck_breadth : 0 < c_max_pending_chunked_message c ->
    blen (c_chunk_reassembly_order c) <= c_max_pending_chunked_message c;
  ck_buffers : map_Forall (fun _ => incomplete) (c_chunk_reassembly c);
  ck_bytes : bytes_ok (c_chunk_reassembly c) (c_chunk_buffered_bytes c);
}.

(** The same without the bytes. *)
Record chunks_wf c : Prop := {
  cw_order : order_ok (c_chunk_reassembly_order c) (c_chunk_reassembly c);
  cw_breadth : 0 < c_max_pending_chunked_message c ->
    blen (c_chunk_reassembly_order c) <= c_max_pending_chunked_message c;
  cw_buffers : map_Forall (fun _ => incomplete) (c_chunk_reassembly c);
}.

Lemma chunks_ok_wf c : chunks_ok c -> chunks_wf c.
Proof. by intros []. Qed.

Lemma chunks_wf_ok c :
  chunks_wf c -> 0 <= c_chunk_buffered_bytes c <= MAX_BUFFERED_CHUNK_BYTES -> chunks_ok c.
Proof. intros [] Hb. split; [done..|by apply bytes_below]. Qed.

(** While a frame is processed, the buffer it belongs to may be complete. *)
Record chunks_mid (u : string) c : Prop := {
  cx_order : order_ok (c_chunk_reassembly_order c) (c_chunk_reassembly c);
  cx_breadth : 0 < c_max_pending_chunked_message c ->
    blen (c_chunk_reassembly_order c) <= c_max_pending_chunked_message c;
  cx_buffers : map_Forall (fun x => if bool_decide (x = u) then filled else incomplete) (c_chunk_reassembly c);
  cx_bytes : bytes_ok (c_chunk_reassembly c) (c_chunk_buffered_bytes c);
}.

Definition chunk_view c : gmap string ChunkBuffer * list string * Z * Z :=
  (c_chunk_reassembly c, c_chunk_reassembly_order c, c_max_pending_chunked_message c, c_chunk_buffered_bytes c).

Lemma chunks_ok_view c c' : chunk_view c' = chunk_view c -> chunks_ok c -> chunks_ok c'.
Proof.
  unfold chunk_view. intros Heq [Ho Hb Hf Hy]. injection Heq as Hm Ho' Hx Hn.
  split; rewrite ?Hm, ?Ho', ?Hx, ?Hn; done.
Qed.

Lemma incomplete_filled b : incomplete b -> filled b.
Proof. intros [? ? Hp]. split; [done..|]. unfold Z.pred in *. lia. Qed.

Lemma put_new limit id body b : buffer_ok limit b -> has_chunk id b = false ->
  buffer_ok (fun n => limit n + 1) (bump_received (put_chunk id body b)).
Proof.
  intros [He Hc Hp] Hn. unfold has_chunk in Hn. apply bool_decide_eq_false in Hn.
  split; simpl; [done| |lia]. rewrite map_size_insert_None by (by apply eq_None_not_Some). lia.
Qed.

Lemma put_old limit id body b : buffer_ok limit b -> has_chunk id b = true ->
  buffer_ok limit (put_chunk id body b).
Proof.
  intros [He Hc Hp] Hn. unfold has_chunk in Hn. apply bool_decide_eq_true in Hn.
  split; simpl; [done| |done]. by rewrite map_size_insert_Some.
Qed.

Lemma stage_view e c : chunk_view (stage_chunk_ack e c) = chunk_view c.
Proof. unfold stage_chunk_ack. by repeat case_match. Qed.

(** The eviction at the breadth cap drops the oldest message. *)
Lemma remove_oldest_view u order c b :
  c_chunk_reassembly_order c = u :: order -> c_chunk_reassembly c !! u = Some b ->
  chunk_view (remove_oldest_pending_chunked_message c)
  = (delete u (c_chunk_reassembly c), order, c_max_pending_chunked_message c,
     saturating_sub (c_chunk_buffered_bytes c) (buffered_bytes b)).
Proof.
  intros Ho Hb. unfold remove_oldest_pending_chunked_message. rewrite Ho. simpl. rewrite Hb.
  by rewrite stage_view.
Qed.

Lemma wake_view c : chunk_view (snd (wake_receivers c)) = chunk_view c.
Proof. by rewrite wake_receivers_eq. Qed.

Lemma classify_view m r now c : chunk_view (snd (classify_and_queue m r now c)) = chunk_view c.
Proof. unfold classify_and_queue. by case_match. Qed.

Lemma refund_view n c : chunk_view (refund_undecoded n c) = chunk_view c.
Proof. revert c. induction n as [|n IH]; intros c; simpl; [done|]. by rewrite IH. Qed.

Lemma members_view s mid n meta bem r now ms c :
  chunk_view (snd (deliver_members s mid n meta bem r now ms c)) = chunk_view c.
Proof.
  revert c. induction ms as [|[i [single payload]] ms IH]; intros c; cbn [deliver_members]; [done|].
  destruct (negb _); [apply IH|].
  match goal with |- context [deliver_members s mid n meta bem r now ms ?c1] =>
    pose proof (IH c1) as IH1; destruct (deliver_members s mid n meta bem r now ms c1) end.
  etrans; [exact IH1|apply classify_view].
Qed.

Lemma maybe_flow_view c : chunk_view (snd (maybe_flow c)) = chunk_view c.
Proof. unfold maybe_flow. by repeat case_match. Qed.

(** After a first chunk is indexed and the cap enforced, the index is in order and
    the new buffer is there. *)
Lemma open_evicts u fresh c :
  chunks_ok c -> c_chunk_reassembly c !! u = None -> cb_chunk_payloads fresh = ∅ ->
  let c1 := c <| c_chunk_reassembly ::= <[u := fresh]> |>
              <| c_chunk_reassembly_order ::= fun l => l ++ [u] |> in
  let c2 := if (c_max_pending_chunked_message c1 >? 0)
               && (Z.of_nat (size (c_chunk_reassembly c1)) >? c_max_pending_chunked_message c1)
            then remove_oldest_pending_chunked_message c1 else c1 in
  c_max_pending_chunked_message c2 = c_max_pending_chunked_message c
  /\ order_ok (c_chunk_reassembly_order c2) (c_chunk_reassembly c2)
  /\ (0 < c_max_pending_chunked_message c ->
      blen (c_chunk_reassembly_order c2) <= c_max_pending_chunked_message c)
  /\ c_chunk_reassembly c2 !! u = Some fresh
  /\ bytes_ok (c_chunk_reassembly c2) (c_chunk_buffered_bytes c2)
  /\ forall x b, x <> u -> c_chunk_reassembly c2 !! x = Some b -> c_chunk_reassembly c !! x = Some b.
Proof.
  intros [Ho Hb Hf Hy] Hu He c1 c2. pose proof (order_ok_snoc _ _ u fresh Ho Hu) as Ho1.
  pose proof (bytes_index _ u fresh _ Hy Hu He) as Hy1.
  assert (Hsz : Z.of_nat (size (c_chunk_reassembly c1)) = blen (c_chunk_reassembly_order c) + 1).
  { change (c_chunk_reassembly c1) with (<[u := fresh]> (c_chunk_reassembly c)).
    rewrite (order_ok_size _ _ Ho1), length_app. unfold blen. simpl. lia. }
  assert (Hold : forall x b, x <> u -> c_chunk_reassembly c1 !! x = Some b -> c_chunk_reassembly c !! x = Some b).
  { intros x b Hx. simpl. by rewrite lookup_insert_ne. }
  subst c2. rewrite Hsz. change (c_max_pending_chunked_message c1) with (c_max_pending_chunked_message c).
  destruct (Z.gtb_spec (c_max_pending_chunked_message c) 0) as [Hpos|]; simpl andb;
    [destruct (Z.gtb_spec (blen (c_chunk_reassembly_order c) + 1) (c_max_pending_chunked_message c))|].
  - specialize (Hb Hpos). destruct (c_chunk_reassembly_order c) as [|v order] eqn:Hord.
    { unfold blen in *. simpl in *. lia. }
    assert (Hv : v <> u).
    { intros ->. destruct Ho as [_ Hin]. destruct (proj1 (Hin u)) as [? Hs]; [left|congruence]. }
    assert (Hc1 : c_chunk_reassembly_order c1 = v :: order ++ [u]) by (simpl; by rewrite Hord).
    destruct (proj1 (proj2 Ho1 v)) as [bv Hbv]; [left|].
    pose proof (remove_oldest_view v (order ++ [u]) c1 bv Hc1 Hbv) as Hview.
    unfold chunk_view in Hview. injection Hview as -> -> -> ->.
    split_and!; [done|by apply order_ok_tail| | |by apply bytes_remove|].
    + intros _. rewrite blen_app. rewrite blen_cons in *. unfold blen at 2. simpl. lia.
    + simpl. by rewrite lookup_delete_ne, lookup_insert_eq.
    + intros x b Hx. simpl. intros [_ Hl]%lookup_delete_Some. by apply Hold.
  - split_and!; try done; [|simpl; by rewrite lookup_insert_eq].
    intros _. simpl. rewrite blen_app. unfold blen at 2. simpl. lia.
  - split_and!; try done; [lia|simpl; by rewrite lookup_insert_eq].
Qed.

(** A first chunk opens a buffer that holds it and lacks others. *)
Lemma chunk_open_wf u total mid md bem r body now c :
  chunks_ok c -> c_chunk_reassembly c !! u = None -> 2 <= total <= MAX_CHUNK_TOTAL ->
  let '(stored, c') := chunk_open u total 0 mid md bem r body now c in
  stored = true /\ chunks_ok c'
  /\ c_chunk_reassembly c' !! u = Some (mkChunkBuffer total 1 now {[0 := body]} md (Some mid) bem r).
Proof.
  intros Hwf Hu Ht. unfold chunk_open. cbv zeta. set (fresh := mkChunkBuffer total 0 now ∅ md (Some mid) bem r).
  destruct (open_evicts u fresh c Hwf Hu eq_refl) as (Hmax & Ho & Hb & Hl & Hy & Hold). cbv zeta in *.
  set (c2 := if _ && _ then _ else _) in *. clearbody c2. rewrite Hl.
  assert (Hn : has_chunk 0 fresh = false) by (apply bool_decide_false; by intros [? ?]). rewrite Hn.
  assert (Hfb : incomplete (bump_received (put_chunk 0 body fresh))).
  { split; simpl; [done|by rewrite map_size_insert_None, map_size_empty by done|unfold Z.pred; lia]. }
  split_and!; [done| |simpl; by rewrite lookup_insert_eq].
  split; simpl; [by apply order_ok_replace|by rewrite Hmax| |by apply bytes_first].
  intros x b [[<- <-]|[Hx Hxb]]%lookup_insert_Some; [done|]. apply (ck_buffers c Hwf x). by apply Hold.
Qed.

Lemma mid_wf u c : chunks_ok c -> chunks_mid u c.
Proof.
  intros [Ho Hb Hf Hy]. split; [done..| |done]. intros x b Hx. apply Hf in Hx.
  case_bool_decide; [by apply incomplete_filled|done].
Qed.

(** A further chunk: refused at the byte ceiling or as a duplicate, otherwise
    stored. *)
Lemma chunk_append_wf u id body c : chunks_ok c ->
  let '(stored, c') := chunk_append u id body c in
  if stored then chunks_mid u c' else chunks_ok c'.
Proof.
  intros Hwf. pose proof Hwf as [Ho Hb Hf [Hy _]]. pose proof (blen_nonneg body) as Hbody. unfold chunk_append.
  destruct (c_chunk_reassembly c !! u) as [b|] eqn:Hu; [|done]. destruct (_ >? _) eqn:Hcap; [done|].
  rewrite Z.gtb_ltb, Z.ltb_ge in Hcap.
  assert (Hle : c_chunk_buffered_bytes c <= MAX_BUFFERED_CHUNK_BYTES).
  { unfold saturating_add, MAX_BUFFERED_CHUNK_BYTES, usize_max, u64_max in *. lia. }
  destruct (has_chunk id b) eqn:Hn.
  - split; simpl; [by apply order_ok_replace|done| |apply bytes_below; lia].
    apply map_Forall_insert_2; [|done]. apply put_old; [by apply (Hf u)|done].
  - split; simpl; [by apply order_ok_replace|done| |].
    2: { apply bytes_below. unfold saturating_add, usize_max, u64_max in *. lia. }
    intros x b' [[<- <-]|[Hx Hxb]]%lookup_insert_Some.
    + rewrite bool_decide_true by done. pose proof (put_new _ id body b (Hf u b Hu) Hn) as [He Hc Hp].
      split; [done..|]. unfold Z.pred in *. simpl in *. lia.
    + rewrite bool_decide_false by congruence. by apply (Hf x).
Qed.

Lemma mid_other u c x b : chunks_mid u c -> x <> u -> c_chunk_reassembly c !! x = Some b -> incomplete b.
Proof. intros [_ _ Hf _] Hx Hb%Hf. simpl in Hb. by rewrite bool_decide_false in Hb. Qed.

Lemma mid_self u c b : chunks_mid u c -> c_chunk_reassembly c !! u = Some b -> filled b.
Proof. intros [_ _ Hf _] Hb%Hf. simpl in Hb. by rewrite bool_decide_true in Hb. Qed.

Lemma chunk_progress_wf u mid now c : chunks_mid u c -> chunks_ok (snd (chunk_progress u mid now c)).
Proof.
  intros Hmid. pose proof Hmid as [Ho Hb _ Hy]. unfold chunk_progress.
  destruct (c_chunk_reassembly c !! u) as [b|] eqn:Hu.
  2:{ split; [done..| |done]. intros x b Hx. simpl in Hx. apply (mid_other u c x b Hmid); [intros ->; congruence|done]. }
  destruct (Z.ltb_spec (cb_received_chunks b) (cb_expected_chunks b)) as [Hlt|Hge].
  - split; [done..| |done]. intros x b' Hx. destruct (decide (x = u)) as [->|Hne]; [|by apply (mid_other u c x)].
    simpl in Hx. simplify_eq. destruct (mid_self u c b Hmid Hu) as [? ? _]. split; [done..|]. unfold Z.pred. lia.
  - match goal with |- context [classify_and_queue ?m ?r now ?c0] =>
      pose proof (classify_view m r now c0) as Hv; assert (Hw : chunks_ok c0);
      [|destruct (classify_and_queue m r now c0) as [o c1]] end.
    { split; simpl; [by apply order_ok_remove| | |by apply bytes_remove].
      - intros Hpos. specialize (Hb Hpos). etrans; [|exact Hb]. apply remove_first_length.
      - intros x b' [Hne Hx]%lookup_delete_Some. by apply (mid_other u c x). }
    rewrite wake_receivers_eq. by apply (chunks_ok_view c1), (chunks_ok_view _ _ Hv).
Qed.

Lemma deliver_chunk_wf total id mid md bem r body now c : chunks_ok c -> 1 < total ->
  chunks_ok (snd (deliver_chunk total id mid md bem r body now c)).
Proof.
  intros Hwf Ht. unfold deliver_chunk. destruct (_ || _); [done|].
  destruct (Z.gtb_spec total MAX_CHUNK_TOTAL); [done|]. cbv zeta.
  set (u := default EmptyString (md_uuid md)). destruct (negb (id =? 0) && _) eqn:Hid; [done|].
  case_bool_decide as Hu.
  - assert (id = 0) as -> by (destruct (Z.eqb_spec id 0); [done|by simpl in Hid]).
    pose proof (chunk_open_wf u total mid md bem r body now c Hwf Hu ltac:(lia)) as Hop.
    destruct (chunk_open _ _ _ _ _ _ _ _ _ _) as [stored c1]. destruct Hop as (-> & Hw & _).
    by apply chunk_progress_wf, mid_wf.
  - pose proof (chunk_append_wf u id body c Hwf) as Hap.
    destruct (chunk_append u id body c) as [[] c1]; [by apply chunk_progress_wf|done].
Qed.

Lemma deliver_wf cmd md bem body now c : chunks_ok c -> chunks_ok (snd (deliver cmd md bem body now c)).
Proof.
  intros Hwf. unfold deliver. destruct (c_closed c); [done|]. case_bool_decide; [done|].
  destruct (c_defer_payload_processing c).
  { unfold deliver_deferred. cbv zeta. rewrite wake_receivers_eq. by apply (chunks_ok_view c). }
  destruct (chunk_of md) as [[total id]|] eqn:Hc.
  { assert (Ht : 1 < total).
    { unfold chunk_of in Hc. destruct (md_num_chunks_from_msg md), (md_chunk_id md); simplify_eq/=.
      case_match eqn:Hg; simplify_eq. lia. }
    match goal with |- context [deliver_chunk ?a ?b ?d ?e ?f ?g ?h ?i ?j] =>
      pose proof (deliver_chunk_wf a b d e f g h i j Hwf Ht) as Hd; destruct (deliver_chunk a b d e f g h i j) as [[o ws] c1] end.
    done. }
  destruct (md_num_messages_in_batch md) as [n|].
  - unfold deliver_batch. cbv zeta. destruct (unpack_batch_members md body n) as [members md'].
    match goal with |- context [deliver_members ?s ?m ?n ?md ?b ?r ?t ?ms ?c0] =>
      pose proof (members_view s m n md b r t ms c0) as Hv; destruct (deliver_members s m n md b r t ms c0) as [k c1] end.
    rewrite wake_receivers_eq. apply (chunks_ok_view c); [|done]. cbn [snd] in *. etrans; [apply refund_view|]. exact Hv.
  - unfold deliver_single. cbv zeta.
    match goal with |- context [classify_and_queue ?m ?r ?t ?c0] =>
      pose proof (classify_view m r t c0) as Hv; destruct (classify_and_queue m r t c0) as [o c1] end.
    rewrite wake_receivers_eq. by apply (chunks_ok_view c1), (chunks_ok_view c).
Qed.

Lemma sweep_loop_wf expire now order c :
  order_ok order (c_chunk_reassembly c) ->
  (0 < c_max_pending_chunked_message c -> blen order <= c_max_pending_chunked_message c) ->
  map_Forall (fun _ => incomplete) (c_chunk_reassembly c) ->
  bytes_ok (c_chunk_reassembly c) (c_chunk_buffered_bytes c) -> chunks_ok (sweep_loop expire now order c).
Proof.
  revert c. induction order as [|u order IH]; intros c Ho Hb Hf Hy; simpl; [by split|].
  destruct (proj1 (proj2 Ho u)) as [b Hu]; [left|]. rewrite Hu. destruct (now <? _); [by split|].
  pose proof (stage_view b (release_chunk_bytes b (c <| c_chunk_reassembly ::= delete u |>))) as Hv.
  unfold chunk_view in Hv. injection Hv as Hv1 Hv2 Hv3 Hv4. rewrite blen_cons in Hb.
  apply IH; rewrite ?Hv1, ?Hv3, ?Hv4; simpl;
    [by apply order_ok_tail|lia|by apply map_Forall_delete|by apply bytes_remove].
Qed.

Lemma sweep_wf now c : chunks_ok c -> chunks_ok (sweep_expired_chunks now c).
Proof. intros []. unfold sweep_expired_chunks. case_match; [by apply sweep_loop_wf|done]. Qed.
Lemma conn_initial_flow_view now c : chunk_view (snd (conn_initial_flow now c)) = chunk_view c.
Proof.
  unfold conn_initial_flow, initial_flow, arm_adjust_clock. cbv zeta. destruct (_ || _); [|done].
  cbn [snd]. by destruct (_ && _).
Qed.

Lemma subscribe_success_view rid now c : chunk_view (snd (on_subscribe_success rid now c)) = chunk_view c.
Proof.
  unfold on_subscribe_success. cbv zeta. set (mine := bool_decide _). set (c1 := if mine then _ else c).
  set (n := bool_decide (is_Some _)). set (f := c_flow_on_subscribe_ack c1 && _). clearbody f n.
  set (c4 := if n || f then _ else _). assert (Hv : chunk_view c4 = chunk_view c) by (by destruct mine, n, f).
  destruct f; [|done]. pose proof (conn_initial_flow_view now c4) as Hf.
  destruct (conn_initial_flow now c4). by etrans.
Qed.

Lemma active_change_view active now c : chunk_view (snd (on_active_change active now c)) = chunk_view c.
Proof.
  unfold on_active_change, record_active_change. cbv zeta. rewrite wake_active_change_waiters_eq.
  set (c1 := update c_active_change_wakers _ _).
  assert (Hv : chunk_view c1 = chunk_view c) by (subst c1; unfold chunk_view; simpl; by destruct (_ >=? _)).
  destruct (_ && _); [|done]. pose proof (conn_initial_flow_view now c1) as Hf.
  destruct (conn_initial_flow now c1). by etrans.
Qed.

Lemma adjust_view now n c flow c' : adjust_receiver_queue now n c = Some (flow, c') -> chunk_view c' = chunk_view c.
Proof.
  unfold adjust_receiver_queue. cbv zeta. intros Ha. repeat case_match; simplify_eq; try done.
  destruct (rq_adjust _ _); simplify_eq/=. repeat case_match; by simplify_eq.
Qed.

Lemma tick_wf stall now c out c' : chunks_ok c ->
  handle_timeout_consumer stall now c = Some (out, c') -> chunks_ok c'.
Proof.
  intros Hwf. unfold handle_timeout_consumer.
  set (s1 := match c_unacked_tracker c with Some t => _ | None => _ end).
  assert (Hs : chunks_ok s1.2).
  { apply (chunks_ok_view c); [|done]. subst s1. destruct (c_unacked_tracker c) as [tr|]; [|done].
    by destruct (Unacked.unacked_poll now tr). }
  destruct s1 as [redeliver c1]. cbv zeta.
  set (c2 := (sweep_expired_chunks now c1) <| c_chunk_auto_ack_pending := [] |>).
  assert (H2 : chunks_ok c2) by (apply (chunks_ok_view (sweep_expired_chunks now c1)); [done|by apply sweep_wf]).
  destruct (adjust_tick now c2) as [[fl c3]|] eqn:Ha; [|done]. simpl.
  assert (H3 : chunks_ok c3).
  { apply (chunks_ok_view c2); [|done]. unfold adjust_tick in Ha.
    destruct (next_adjust_deadline c2); [destruct (_ >=? _); [by apply adjust_view in Ha|by simplify_eq]|].
    simplify_eq. unfold arm_adjust_clock. by case_match. }
  destruct stall as [window|]; [|intros; by simplify_eq].
  destruct (poll_stall window now c3) as [st c4] eqn:Hp. intros; simplify_eq.
  apply (chunks_ok_view c3); [|done]. unfold poll_stall in Hp. by repeat case_match; simplify_eq.
Qed.

Lemma chunks_exec ev flow c c' : chunks_ok c ->
  consumer_exec hist_record ev c = Some (flow, c') -> chunks_ok c'.
Proof.
  intros Hwf Hex. destruct ev; unfold consumer_exec in Hex;
    try (injection Hex as <- <-; apply (chunks_ok_view c); [|done];
         unfold session_reset, fail_consumer_subscribe, note_subscribe_sent, on_end_of_topic,
           register_receive_waker, cancel_receive_waker, consumer_close;
         cbv zeta; rewrite ?wake_receivers_eq, ?wake_active_change_waiters_eq; repeat case_match; done).
  - unfold on_message in Hex. pose proof (deliver_wf cmd md bem body now c Hwf) as Hd.
    destruct (deliver _ _ _ _ _ _) as [[o ws] c1]. pose proof (maybe_flow_view c1) as Hv.
    destruct (maybe_flow c1). injection Hex as <- <-. by apply (chunks_ok_view c1).
  - apply (chunks_ok_view c); [|done]. unfold conn_pop_message in Hex.
    destruct (pop_message hist_record now c) as [m c1] eqn:Hp.
    pose proof (maybe_flow_view c1) as Hv. destruct (maybe_flow c1). injection Hex as <- <-. etrans; [exact Hv|].
    unfold pop_message in Hp. destruct (c_queue c); simplify_eq; [done|]. unfold chunk_view. simpl.
    by destruct (c_receiver_queue_size c =? 0).
  - destruct (handle_timeout_consumer _ _ _) as [[out c1]|] eqn:Ht; simplify_eq/=. by eapply tick_wf.
  - pose proof (subscribe_success_view request_id now c) as Hv.
    destruct (on_subscribe_success _ _ _) as [[w fl] c1]. injection Hex as <- <-. by apply (chunks_ok_view c).
  - pose proof (conn_initial_flow_view now c) as Hv. destruct (conn_initial_flow now c). injection Hex as <- <-.
    by apply (chunks_ok_view c).
  - pose proof (active_change_view active now c) as Hv.
    destruct (on_active_change _ _ _) as [[w fl] c1]. injection Hex as <- <-. by apply (chunks_ok_view c).
Qed.

Lemma chunks_run evs : forall c flows c', chunks_ok c ->
  consumer_run hist_record evs c = Some (flows, c') -> chunks_ok c'.
Proof.
  induction evs as [|ev evs IH]; intros c flows c' Hwf Hrun; simpl in Hrun; [by simplify_eq|].
  destruct (consumer_exec hist_record ev c) as [[fl c1]|] eqn:Hex; [|done]. simpl in Hrun.
  destruct (consumer_run hist_record evs c1) as [[fls c2]|] eqn:Hr; simplify_eq/=.
  by eapply (IH c1); [eapply chunks_exec|].
Qed.

(** C32: the reassembly state stays well-formed whatever a broker sends and in any
    order: the first-in-first-out index lists exactly the buffered messages, each
    once, there are never more of them than the configured cap, each buffer
    counts its chunks exactly, lacks at least one, and announces at most
    [MAX_CHUNK_TOTAL], and the bytes accounted for exceed
    [MAX_BUFFERED_CHUNK_BYTES] by at most the first chunks of the messages that are
    buffered. *)
Theorem chunk_buffers_bounded evs c flows c' :
  c_chunk_reassembly c = ∅ -> c_chunk_reassembly_order c = [] -> c_chunk_buffered_bytes c = 0 ->
  consumer_run hist_record evs c = Some (flows, c') ->
  NoDup (c_chunk_reassembly_order c')
  /\ (forall u, u ∈ c_chunk_reassembly_order c' <-> is_Some (c_chunk_reassembly c' !! u))
  /\ (0 < c_max_pending_chunked_message c' ->
      Z.of_nat (size (c_chunk_reassembly c')) <= c_max_pending_chunked_message c')
  /\ (forall u b, c_chunk_reassembly c' !! u = Some b ->
      cb_received_chunks b = Z.of_nat (size (cb_chunk_payloads b))
      /\ cb_received_chunks b < cb_expected_chunks b <= MAX_CHUNK_TOTAL)
  /\ c_chunk_buffered_bytes c' <= MAX_BUFFERED_CHUNK_BYTES + first_bytes (c_chunk_reassembly c').
Proof.
  intros Hm Ho Hn Hrun. apply chunks_run in Hrun as [Hok Hb Hf Hy].
  - rewrite (order_ok_size _ _ Hok). split_and!; [apply Hok..|done| |apply Hy].
    intros u b [He Hc Hp]%Hf. unfold Z.pred in Hp. lia.
  - split; rewrite ?Hm, ?Ho, ?Hn; [apply order_ok_empty|unfold blen; simpl; lia|apply map_Forall_empty|].
    apply bytes_below. by vm_compute.
Qed.
End Bounds.

(** * Reassembly *)

Section Reassembly.
Context {P W Hist : Type} `{ReceiverQueuePolicy P, WakerSlab W}.
Context `{!Codecs, !ProtoMessage SingleMessageMetadata}.

Abbreviation state := (ConsumerState P W Hist).
Implicit Types c : state.

(** An inbound message frame with its arrival time. *)
Record inbound := mkInbound {
  in_cmd : CommandMessage;
  in_md : MessageMetadata;
  in_bem : option BrokerEntryMetadata;
  in_body : bytes;
  in_now : Z;
}.

Definition deliver_frame (f : inbound) c : result ConsumerError DeliverOutcome * state :=
  let '(o, _, c) := deliver (in_cmd f) (in_md f) (in_bem f) (in_body f) (in_now f) c in (o, c).

Fixpoint deliver_frames (fs : list inbound) c
    : list (result ConsumerError DeliverOutcome) * state :=
  match fs with
  | [] => ([], c)
  | f :: fs =>
      let '(o, c) := deliver_frame f c in
      let '(os, c) := deliver_frames fs c in
      (o :: os, c)
  end.

Variable uuid : string.
Variable chunks : list bytes.
Abbreviation total := (blen chunks).
Hypothesis total_ok : 2 <= total <= MAX_CHUNK_TOTAL.

(** [f] carries chunk [i] of the message. *)
Definition carries (f : inbound) (i : Z) : Prop :=
  chunk_of (in_md f) = Some (total, i) /\ default EmptyString (md_uuid (in_md f)) = uuid
  /\ 0 <= i < total /\ chunks !! Z.to_nat i = Some (in_body f).

Definition accepting c : Prop :=
  c_closed c = false /\ c_pending_seek c = None /\ c_defer_payload_processing c = false.

Definition chunk_at (i : Z) : bytes := default [] (chunks !! Z.to_nat i).
Definition bytes_of (ids : list Z) : Z := foldr (fun i n => blen (chunk_at i) + n) 0 ids.

(** The chunks [ids] of the message are buffered since [first] arrived, and [base]
    bytes of other messages at most. *)
Record buffering (first : inbound) (ids : list Z) (base : Z) (q : list IncomingMessage) (redeliver : Z) c : Prop := {
  bf_accepting : accepting c;
  bf_queue : c_queue c = q;
  bf_redeliver : c_max_redeliver_count c = redeliver;
  bf_bytes : 0 <= c_chunk_buffered_bytes c <= base + bytes_of ids;
  bf_buffer : exists payloads,
    c_chunk_reassembly c !! uuid =
      Some (mkChunkBuffer total (blen ids) (in_now first) payloads (in_md first)
              (Some (mid_from_pb (cm_message_id (in_cmd first)))) (in_bem first)
              (default 0 (cm_redelivery_count (in_cmd first))))
    /\ forall i, payloads !! i = if bool_decide (i ∈ ids) then Some (chunk_at i) else None;
}.

Lemma bytes_of_nonneg ids : 0 <= bytes_of ids.
Proof. induction ids as [|i ids IH]; simpl; [done|]. pose proof (blen_nonneg (chunk_at i)). lia. Qed.

Lemma carries_body f i : carries f i -> chunk_at i = in_body f.
Proof. intros (_ & _ & _ & Hb). unfold chunk_at. by rewrite Hb. Qed.

Lemma deliver_carries f i c : accepting c -> carries f i ->
  deliver_frame f c =
    let '(o, _, c') := deliver_chunk total i (mid_from_pb (cm_message_id (in_cmd f))) (in_md f) (in_bem f)
                         (default 0 (cm_redelivery_count (in_cmd f))) (in_body f) (in_now f) c in
    (Ok o, c').
Proof.
  intros (Hc & Hs & Hd) (Hk & _). unfold deliver_frame, deliver. rewrite Hc, Hs, Hd, Hk.
  rewrite bool_decide_false by (by intros [? ?]). by destruct (deliver_chunk _ _ _ _ _ _ _ _ _) as [[o ws] c'].
Qed.

(** Eviction and staging leave the delivery state alone. *)
Lemma accepting_flow_same c c' : flow_same c c' -> accepting c -> accepting c'.
Proof. intros [[] ?????] (? & ? & ?). split_and!; congruence. Qed.

Lemma stage_bytes e c : c_chunk_buffered_bytes (stage_chunk_ack e c) = c_chunk_buffered_bytes c.
Proof. unfold stage_chunk_ack. by repeat case_match. Qed.

Lemma remove_oldest_bytes order c :
  0 <= c_chunk_buffered_bytes c ->
  0 <= c_chunk_buffered_bytes (remove_oldest_loop order c) <= c_chunk_buffered_bytes c.
Proof.
  intros Hc. induction order as [|u order IH]; simpl; [lia|].
  destruct (c_chunk_reassembly c !! u) as [b|]; [|done]. rewrite stage_bytes. simpl.
  unfold saturating_sub.
  assert (0 <= buffered_bytes b).
  { unfold buffered_bytes. apply (map_fold_weak_ind (fun n _ => 0 <= n)); [done|].
    intros _ x _ n _ Hn. pose proof (blen_nonneg x). unfold saturating_add, usize_max, u64_max. lia. }
  lia.
Qed.
Lemma chunk_open_bytes u n id mid md bem r body now c :
  0 <= c_chunk_buffered_bytes c -> c_chunk_buffered_bytes c + blen body <= usize_max ->
  0 <= c_chunk_buffered_bytes (snd (chunk_open u n id mid md bem r body now c))
    <= c_chunk_buffered_bytes c + blen body.
Proof.
  intros Hc Hmax. pose proof (blen_nonneg body). unfold chunk_open. cbv zeta.
  match goal with |- context [if ?b then remove_oldest_pending_chunked_message ?c0 else _] =>
    assert (H12 : 0 <= c_chunk_buffered_bytes (if b then remove_oldest_pending_chunked_message c0 else c0)
                  <= c_chunk_buffered_bytes c)
      by (destruct b; [by apply (remove_oldest_bytes _ c0)|simpl; lia]);
    revert H12; generalize (if b then remove_oldest_pending_chunked_message c0 else c0) end.
  intros c2 H12. repeat case_match; simpl; unfold saturating_add; lia.
Qed.

(** Dispatch of a chunk that passes the checks. *)
Lemma deliver_chunk_pass i mid md bem r body now c :
  0 <= i < total -> (i = 0 \/ is_Some (c_chunk_reassembly c !! uuid)) ->
  default EmptyString (md_uuid md) = uuid ->
  deliver_chunk total i mid md bem r body now c =
    let '(stored, c) :=
      if bool_decide (c_chunk_reassembly c !! uuid = None)
      then chunk_open uuid total i mid md bem r body now c else chunk_append uuid i body c in
    if stored then chunk_progress uuid mid now c else (Dropped, [], c).
Proof.
  intros Hi Hn Hu. unfold deliver_chunk. rewrite Hu.
  rewrite (proj2 (Z.ltb_ge i 0)) by lia. rewrite Z.geb_leb, (proj2 (Z.leb_gt total i)) by lia. simpl orb.
  rewrite Z.gtb_ltb, (proj2 (Z.ltb_ge MAX_CHUNK_TOTAL total)) by lia. cbv zeta.
  assert (Hf : negb (i =? 0) && bool_decide (c_chunk_reassembly c !! uuid = None) = false).
  { destruct Hn as [->|[b ->]]; [done|]. rewrite bool_decide_false by done. apply andb_false_r. }
  by rewrite Hf.
Qed.

Lemma first_buffers f c :
  chunks_wf c -> accepting c -> c_chunk_reassembly c !! uuid = None -> carries f 0 ->
  0 <= c_chunk_buffered_bytes c -> c_chunk_buffered_bytes c + bytes_of [0] <= MAX_BUFFERED_CHUNK_BYTES ->
  let '(o, c') := deliver_frame f c in
  o = Ok Buffered
  /\ buffering f [0] (c_chunk_buffered_bytes c) (c_queue c) (c_max_redeliver_count c) c'.
Proof.
  intros Hwf Ha Hu Hf Hb Hmax. rewrite (deliver_carries f 0) by done.
  pose proof (carries_body f 0 Hf) as Hbody. destruct Hf as (_ & Huu & Hi & _).
  rewrite deliver_chunk_pass by (done || by left). rewrite bool_decide_true by done.
  simpl in Hmax. rewrite Hbody in Hmax. unfold MAX_BUFFERED_CHUNK_BYTES in Hmax.
  assert (Hck : chunks_ok c).
  { apply chunks_wf_ok; [done|]. pose proof (blen_nonneg (in_body f)). unfold MAX_BUFFERED_CHUNK_BYTES. lia. }
  match goal with |- context [chunk_open ?a ?b ?d ?e ?g ?h ?k ?l ?m c] =>
    pose proof (chunk_open_wf a b e g h k l m c Hck Hu total_ok) as Hop;
    pose proof (chunk_open_bytes a b d e g h k l m c Hb) as Hby;
    pose proof (chunk_open_same a b d e g h k l m c) as Hs;
    destruct (chunk_open a b d e g h k l m c) as [stored c1] end.
  destruct Hop as (-> & _ & Hl). cbn [snd] in *.
  unfold chunk_progress. rewrite Hl. cbn [cb_received_chunks cb_expected_chunks].
  rewrite (proj2 (Z.ltb_lt 1 total)) by lia. split; [done|].
  assert (Hby' := Hby ltac:(unfold usize_max, u64_max; lia)).
  split; [by apply (accepting_flow_same c c1)|apply Hs|apply Hs| |].
  - simpl. rewrite Hbody. lia.
  - exists {[0 := in_body f]}. split; [done|]. intros i. case_bool_decide as Hin.
    + apply list_elem_of_singleton in Hin as ->. by rewrite lookup_singleton_eq, Hbody.
    + rewrite lookup_singleton_ne; [done|]. intros <-. apply Hin. by left.
Qed.
(** A further chunk is added to the buffer. *)
Lemma append_buffers first ids base q r f i c :
  buffering first ids base q r c -> carries f i -> i ∉ ids ->
  base + bytes_of (i :: ids) <= MAX_BUFFERED_CHUNK_BYTES ->
  exists c1, chunk_append uuid i (in_body f) c = (true, c1)
    /\ buffering first (i :: ids) base q r c1.
Proof.
  intros [Ha Hq Hr Hb (payloads & Hl & Hp)] Hf Hi Hmax. pose proof (carries_body f i Hf) as Hbody.
  pose proof (blen_nonneg (in_body f)). simpl in Hmax. rewrite Hbody in Hmax.
  unfold chunk_append. rewrite Hl. unfold MAX_BUFFERED_CHUNK_BYTES in *.
  assert (Hsat : saturating_add usize_max (c_chunk_buffered_bytes c) (blen (in_body f))
                 = c_chunk_buffered_bytes c + blen (in_body f)).
  { unfold saturating_add, usize_max, u64_max. lia. }
  rewrite Z.gtb_ltb, (proj2 (Z.ltb_ge _ _)) by (rewrite Hsat; lia).
  assert (Hn : payloads !! i = None) by (rewrite Hp; by rewrite bool_decide_false).
  unfold has_chunk. simpl. rewrite bool_decide_false by (rewrite Hn; by intros [? ?]).
  eexists. split; [done|]. split; try done.
  - simpl. rewrite Hsat, Hbody. lia.
  - exists (<[i := in_body f]> payloads). split.
    + simpl. rewrite lookup_insert_eq. rewrite blen_cons, Z.add_comm. done.
    + intros j. destruct (decide (j = i)) as [->|Hne].
      * rewrite lookup_insert_eq, bool_decide_true by (by left). by rewrite Hbody.
      * rewrite lookup_insert_ne, Hp by done.
        destruct (bool_decide_reflect (j ∈ ids)) as [Hj|Hj].
        -- by rewrite bool_decide_true by (by right).
        -- rewrite bool_decide_false; [done|]. rewrite elem_of_cons. naive_solver.
Qed.

Lemma deliver_append first ids base q r f i c :
  buffering first ids base q r c -> carries f i -> i ∉ ids ->
  base + bytes_of (i :: ids) <= MAX_BUFFERED_CHUNK_BYTES ->
  exists c1, buffering first (i :: ids) base q r c1
    /\ deliver_frame f c =
         let '(o, _, c') := chunk_progress uuid (mid_from_pb (cm_message_id (in_cmd f))) (in_now f) c1 in (Ok o, c').
Proof.
  intros Hbf Hf Hi Hmax. destruct (append_buffers _ _ _ _ _ _ _ _ Hbf Hf Hi Hmax) as (c1 & Hap & Hb1).
  exists c1. split; [done|]. destruct Hbf as [Ha _ _ _ (payloads & Hl & _)].
  rewrite (deliver_carries f i) by done. destruct Hf as (_ & Huu & Hii & _).
  rewrite deliver_chunk_pass by (done || right; by rewrite Hl).
  by rewrite bool_decide_false, Hap by (by rewrite Hl).
Qed.

Lemma next_buffers first ids base q r f i c :
  buffering first ids base q r c -> carries f i -> i ∉ ids -> blen ids + 1 < total ->
  base + bytes_of (i :: ids) <= MAX_BUFFERED_CHUNK_BYTES ->
  let '(o, c') := deliver_frame f c in o = Ok Buffered /\ buffering first (i :: ids) base q r c'.
Proof.
  intros Hbf Hf Hi Hlt Hmax. destruct (deliver_append _ _ _ _ _ _ _ _ Hbf Hf Hi Hmax) as (c1 & [Ha Hq Hr Hb Hx] & ->).
  destruct Hx as (payloads & Hl & Hp). unfold chunk_progress. rewrite Hl. cbn [cb_received_chunks cb_expected_chunks].
  rewrite blen_cons, (proj2 (Z.ltb_lt (1 + blen ids) total)) by lia. split; [done|].
  split; try done. exists payloads. split; [|done]. simpl. rewrite Hl. by rewrite blen_cons.
Qed.

Lemma assemble_all b : cb_expected_chunks b = total ->
  (forall i, 0 <= i < total -> cb_chunk_payloads b !! i = Some (chunk_at i)) -> assemble b = concat chunks.
Proof.
  intros He Hp. unfold assemble. rewrite He. f_equal.
  assert (Hall : forall n : nat, (n <= length chunks)%nat ->
    omap (fun idx => cb_chunk_payloads b !! idx) (seqZ 0 (Z.of_nat n)) = take n chunks).
  { induction n as [|n IH]; intros Hn; [done|].
    rewrite Nat2Z.inj_succ, <- Z.add_1_r, seqZ_app by lia. rewrite omap_app, IH by lia. simpl.
    rewrite Hp by (unfold blen; lia). unfold chunk_at.
    replace (Z.to_nat (Z.of_nat 0 + (0 + Z.of_nat n))) with n by lia.
    destruct (lookup_lt_is_Some_2 chunks n) as [x Hx]; [lia|]. rewrite Hx. simpl.
    symmetry. by apply take_S_r. }
  unfold blen. rewrite Hall by lia. by apply take_ge.
Qed.

(** The last missing chunk delivers the message. *)
Lemma last_delivers first ids base q r f i c :
  buffering first ids base q r c -> carries f i -> i ∉ ids -> blen ids + 1 = total ->
  (forall j, 0 <= j < total -> j ∈ i :: ids) ->
  base + bytes_of (i :: ids) <= MAX_BUFFERED_CHUNK_BYTES ->
  (r >? 0) && (default 0 (cm_redelivery_count (in_cmd first)) >? r) = false ->
  let '(o, c') := deliver_frame f c in
  o = Ok (Delivered 1) /\ c_chunk_reassembly c' !! uuid = None
  /\ c_queue c' = q ++ [mkIncoming (mid_from_pb (cm_message_id (in_cmd f))) (strip_chunk_fields (in_md first))
                          None (concat chunks) (default 0 (cm_redelivery_count (in_cmd first)))
                          (in_bem first) (in_now f)].
Proof.
  intros Hbf Hf Hi Hn Hall Hmax Hdlq.
  destruct (deliver_append _ _ _ _ _ _ _ _ Hbf Hf Hi Hmax) as (c1 & [Ha Hq Hr Hb Hx] & ->).
  destruct Hx as (payloads & Hl & Hp). unfold chunk_progress. rewrite Hl. cbn [cb_received_chunks cb_expected_chunks].
  rewrite blen_cons, (proj2 (Z.ltb_ge (1 + blen ids) total)) by lia.
  rewrite assemble_all; [|done|].
  2:{ intros j Hj. simpl. rewrite Hp. by rewrite bool_decide_true by auto. }
  unfold classify_and_queue. cbn [cb_redelivery_count]. cbv zeta.
  match goal with |- context [if ?b then (Buffered, _) else _] =>
    assert (Hb0 : b = false) by (simpl; by rewrite Hr); rewrite Hb0 end.
  rewrite wake_receivers_eq. split_and!; [done|simpl; apply lookup_delete_eq|]. simpl. by rewrite Hq.
Qed.
Lemma bytes_of_app a b : bytes_of (a ++ b) = bytes_of a + bytes_of b.
Proof. induction a as [|i a IH]; simpl; [done|]. lia. Qed.

Lemma bytes_of_perm a b : a ≡ₚ b -> bytes_of a = bytes_of b.
Proof. induction 1; simpl; lia. Qed.

(** The whole message: each chunk once. *)
Definition all_chunks (ids : list Z) : Prop := ids ≡ₚ seqZ 0 total.

Lemma all_chunks_facts ids : all_chunks ids ->
  NoDup ids /\ blen ids = total /\ forall j, 0 <= j < total -> j ∈ ids.
Proof.
  unfold all_chunks. intros Hp. split_and!.
  - rewrite Hp. apply NoDup_seqZ.
  - unfold blen at 1. rewrite Hp, length_seqZ. lia.
  - intros j Hj. rewrite Hp. apply elem_of_seqZ. lia.
Qed.

(** The message a consumer sees. *)
Definition reassembled (first lastf : inbound) : IncomingMessage :=
  mkIncoming (mid_from_pb (cm_message_id (in_cmd lastf))) (strip_chunk_fields (in_md first)) None (concat chunks)
    (default 0 (cm_redelivery_count (in_cmd first))) (in_bem first) (in_now lastf).

(** The frames after the first, in any order. *)
Lemma rest_delivers first base q r rest ids :
  (r >? 0) && (default 0 (cm_redelivery_count (in_cmd first)) >? r) = false ->
  Forall2 carries rest ids -> forall seen c, rest <> [] ->
  all_chunks (ids ++ seen) -> base + bytes_of (ids ++ seen) <= MAX_BUFFERED_CHUNK_BYTES ->
  buffering first seen base q r c ->
  exists lastf c', last rest = Some lastf
    /\ deliver_frames rest c = (replicate (length rest - 1) (Ok Buffered) ++ [Ok (Delivered 1)], c')
    /\ c_chunk_reassembly c' !! uuid = None /\ c_queue c' = q ++ [reassembled first lastf].
Proof.
  intros Hdlq. induction 1 as [|f i rest ids Hf Hrest IH]; intros seen c Hne Hall Hmax Hbf; [done|].
  destruct (all_chunks_facts _ Hall) as (Hnd & Hlen & Hin). simpl in Hnd, Hlen, Hin.
  assert (Hi : i ∉ seen) by (apply NoDup_cons in Hnd as [Hx _]; set_solver).
  pose proof (bytes_of_nonneg ids). cbn [app bytes_of foldr] in Hmax. fold (bytes_of (ids ++ seen)) in Hmax.
  rewrite bytes_of_app in Hmax. cbn [deliver_frames].
  destruct Hrest as [|f' i' rest ids Hf' Hrest].
  - pose proof (last_delivers first seen base q r f i c Hbf Hf Hi) as Hl.
    destruct (deliver_frame f c) as [o c'].
    destruct Hl as (-> & Hu & Hq); [rewrite blen_cons in Hlen; cbn [app] in Hlen; lia|done|simpl in *; lia|done|].
    by exists f, c'.
  - pose proof (next_buffers first seen base q r f i c Hbf Hf Hi) as Hn.
    destruct (deliver_frame f c) as [o c1].
    destruct Hn as (-> & Hbf1);
      [cbn [app] in Hlen; rewrite !blen_cons, blen_app in Hlen; pose proof (blen_nonneg ids); lia|simpl in *; lia|].
    destruct (IH (i :: seen) c1) as (lastf & c' & Hlast & Hrun & Hu & Hq); [done| | |done|].
    + unfold all_chunks in *. rewrite <- Hall. symmetry. apply (Permutation_middle (i' :: ids)).
    + rewrite bytes_of_app. simpl bytes_of at 2. lia.
    + exists lastf, c'. rewrite Hrun. split_and!; try done. simpl. by rewrite Nat.sub_0_r.
Qed.

(** The whole message: the first chunk, then the others in any order. *)
Lemma chunks_deliver f rest ids c :
  chunks_wf c -> accepting c -> c_chunk_reassembly c !! uuid = None -> 0 <= c_chunk_buffered_bytes c ->
  (c_max_redeliver_count c >? 0)
    && (default 0 (cm_redelivery_count (in_cmd f)) >? c_max_redeliver_count c) = false ->
  Forall2 carries (f :: rest) (0 :: ids) -> all_chunks (0 :: ids) ->
  c_chunk_buffered_bytes c + bytes_of (0 :: ids) <= MAX_BUFFERED_CHUNK_BYTES ->
  exists lastf c', last rest = Some lastf
    /\ deliver_frames (f :: rest) c = (replicate (length rest) (Ok Buffered) ++ [Ok (Delivered 1)], c')
    /\ c_chunk_reassembly c' !! uuid = None /\ c_queue c' = c_queue c ++ [reassembled f lastf].
Proof.
  intros Hwf Ha Hu Hb Hdlq [Hf Hrest]%Forall2_cons Hall Hmax.
  destruct (all_chunks_facts _ Hall) as (_ & Hlen & _). rewrite blen_cons in Hlen.
  pose proof (bytes_of_nonneg ids). simpl in Hmax. fold (bytes_of ids) in Hmax.
  pose proof (first_buffers f c Hwf Ha Hu Hf Hb) as Hfirst. cbn [deliver_frames].
  destruct (deliver_frame f c) as [o c1]. destruct Hfirst as (-> & Hbf); [simpl; lia|].
  pose proof (Forall2_length _ _ _ Hrest) as Hl2. unfold blen in Hlen.
  destruct (rest_delivers f (c_chunk_buffered_bytes c) (c_queue c) _ rest ids Hdlq Hrest [0] c1) as (lastf & c' & Hlast & Hrun & Hn & Hq).
  - intros ->. simpl in Hl2. unfold blen in total_ok. lia.
  - unfold all_chunks in *. rewrite <- Hall. apply Permutation_sym, Permutation_cons_append.
  - rewrite bytes_of_app. simpl. lia.
  - done.
  - exists lastf, c'. rewrite Hrun. split_and!; try done.
    destruct rest as [|g rest]; [done|]. simpl. by rewrite Nat.sub_0_r.
Qed.
End Reassembly.
