(* ===== verification/ConsumerBatch.v ===== *)
(** Delivery of batched entries: which members reach the application, and what
    the acknowledgement tracker holds afterwards. *)

From S2P Require Import Prelude Time Ids Compress Trackers MemoryLimit ReceiverQueue BatchAck Producer BatchBody Consumer ConsumerFlow ConsumerChunks.

Arguments unpack_batch_members : simpl never.
Arguments is_unacked : simpl never.

Section Batch.
Context {P W Hist : Type} `{ReceiverQueuePolicy P, WakerSlab W}.
Context `{!Codecs, !ProtoMessage SingleMessageMetadata}.

Abbreviation state := (ConsumerState P W Hist).
Implicit Types c : state.

(** The over-redelivered entries go to the dead-letter list. *)
Definition dead_lettered (redelivery : Z) c : bool :=
  (c_max_redeliver_count c >? 0) && (redelivery >? c_max_redeliver_count c).

(** Where delivered messages end up. *)
Record routed (redelivery : Z) (ms : list IncomingMessage) c c' : Prop := {
  ro_queue : c_queue c' = c_queue c ++ (if dead_lettered redelivery c then [] else ms);
  ro_dead : c_dead_letter_pending c' = c_dead_letter_pending c ++ (if dead_lettered redelivery c then ms else []);
  ro_cap : c_max_redeliver_count c' = c_max_redeliver_count c;
  ro_tracker : c_batch_ack_tracker c' = c_batch_ack_tracker c;
}.

Lemma routed_nil r c c' : c_queue c' = c_queue c -> c_dead_letter_pending c' = c_dead_letter_pending c ->
  c_max_redeliver_count c' = c_max_redeliver_count c -> c_batch_ack_tracker c' = c_batch_ack_tracker c ->
  routed r [] c c'.
Proof. intros Hq Hd Hr Ht. split; [rewrite Hq|rewrite Hd|done..]; case_match; by rewrite app_nil_r. Qed.

Lemma routed_app r ms ms' c1 c2 c3 : routed r ms c1 c2 -> routed r ms' c2 c3 -> routed r (ms ++ ms') c1 c3.
Proof.
  intros [Hq Hd Hr Ht] [Hq' Hd' Hr' Ht'].
  assert (He : dead_lettered r c2 = dead_lettered r c1) by (unfold dead_lettered; by rewrite Hr).
  rewrite He in Hq', Hd'. split; [rewrite Hq', Hq|rewrite Hd', Hd|congruence..]; case_match;
    by rewrite <- app_assoc, ?app_nil_r.
Qed.

Lemma classify_routed m r now c : routed r [m] c (snd (classify_and_queue m r now c)).
Proof.
  unfold classify_and_queue. cbv zeta. split;
    change (dead_lettered r c) with
      ((c_max_redeliver_count (record_dispatch_unit c) >? 0)
       && (r >? c_max_redeliver_count (record_dispatch_unit c))); case_match; simpl; by rewrite ?app_nil_r.
Qed.

(** The message made of a member. *)
Definition member_message (mid : MessageId) (n : Z) (meta : MessageMetadata)
    (bem : option BrokerEntryMetadata) (redelivery now : Z)
    (m : Z * (SingleMessageMetadata * bytes)) : IncomingMessage :=
  let '(i, (single, payload)) := m in
  mkIncoming (mkMessageId (ledger_id mid) (entry_id mid) (partition mid) i n) meta (Some single)
    payload redelivery bem now.

(** The members at positions the entry still lists. *)
Definition outstanding (s : BatchAckEntry) (ms : list (Z * (SingleMessageMetadata * bytes)))
    : list (Z * (SingleMessageMetadata * bytes)) :=
  filter (fun m => is_unacked m.1 s = true) ms.

Lemma members_routed s mid n meta bem r now ms : forall c,
  routed r (member_message mid n meta bem r now <$> outstanding s ms) c
    (snd (deliver_members s mid n meta bem r now ms c)).
Proof.
  induction ms as [|[i [single payload]] ms IH]; intros c; cbn [deliver_members]; [by apply routed_nil|].
  unfold outstanding. rewrite filter_cons. simpl. destruct (is_unacked i s) eqn:Hi; simpl; [|apply IH].
  match goal with |- context [classify_and_queue ?m r now c] =>
    pose proof (classify_routed m r now c) as Hc; set (c1 := snd (classify_and_queue m r now c)) in * end.
  specialize (IH c1). destruct (deliver_members s mid n meta bem r now ms c1) as [k c2].
  apply (routed_app r [_] _ c c1 c2 Hc IH).
Qed.

Lemma members_count s mid n meta bem r now ms : forall c,
  (deliver_members s mid n meta bem r now ms c).1
  = blen (member_message mid n meta bem r now <$> outstanding s ms).
Proof.
  unfold blen, outstanding. induction ms as [|[i [single payload]] ms IH]; intros c; cbn [deliver_members]; [done|].
  rewrite filter_cons. cbn [fst]. destruct (is_unacked i s) eqn:Hi; cbn [negb];
    [rewrite decide_True by done|rewrite decide_False by done; apply IH].
  match goal with |- context [deliver_members s mid n meta bem r now ms ?c1] =>
    specialize (IH c1); destruct (deliver_members s mid n meta bem r now ms c1) as [k c2] end.
  rewrite fmap_cons. cbn [length fst] in *. lia.
Qed.

Lemma refund_routed r n c : routed r [] c (refund_undecoded n c).
Proof.
  revert c. induction n as [|n IH]; intros c; simpl; [by apply routed_nil|].
  apply (routed_app r [] [] c (record_broker_permit_consumed (record_dispatch_unit c)));
    [by apply routed_nil|apply IH].
Qed.

(** What the tracker of a batch promises about a position. *)
Definition tracks (e : BatchAckEntry) (n : Z) : Prop := ba_wf e /\ ba_batch_size e = n.

Lemma merge_spec n ack_set old : (forall e, old = Some e -> tracks e n) ->
  let e := merge_ack_set (from_delivered_ack_set n ack_set) old in
  tracks e n
  /\ forall i, unacked_at e i <->
       0 <= i < n /\ delivered_at ack_set i /\ forall e0, old = Some e0 -> unacked_at e0 i.
Proof.
  intros Hold. destruct (from_delivered_spec n ack_set) as [Hwf Hin].
  destruct old as [e0|]; simpl.
  - destruct (Hold e0 eq_refl) as [Hwf0 Hsz0].
    destruct (intersect_spec _ e0 Hwf Hwf0) as [Hwf' Hin']. split; [by split|]. intros i. rewrite Hin'.
    split.
    + intros [He0 Hd]. assert (Hlt : 0 <= i < n).
      { split; [apply He0|]. destruct Hwf0 as (_ & _ & Hb). rewrite <- Hsz0. by apply Hb. }
      destruct Hd as [Hd|Hd]; [apply Hin in Hd; naive_solver|exfalso].
      destruct Hwf as (Hl & _). rewrite Hl in Hd. simpl in Hd. unfold n_words in Hd.
      pose proof (Z.div_lt_upper_bound i 64 ((n + 63) / 64)) as Hdiv.
      pose proof (Z.mod_pos_bound (n + 63) 64 ltac:(lia)). pose proof (Z.div_mod (n + 63) 64 ltac:(lia)).
      rewrite Z.max_l in Hd by lia. pose proof (Z.div_pos i 64 ltac:(lia) ltac:(lia)). lia.
    + intros (Hi & Hd & He0). split; [by apply He0|]. left. by apply Hin.
  - split; [by split|]. intros i. rewrite Hin. naive_solver.
Qed.
Lemma wake_routed r c : routed r [] c (snd (wake_receivers c)).
Proof. rewrite wake_receivers_eq. by apply routed_nil. Qed.

(** The whole of [deliver] on a batched entry. *)
Lemma batch_delivers cmd md bem body now c n :
  accepting c -> chunk_of md = None -> md_num_messages_in_batch md = Some n ->
  let mid := mid_from_pb (cm_message_id cmd) in
  let key := (ledger_id mid, entry_id mid) in
  let redelivery := default 0 (cm_redelivery_count cmd) in
  let '(members, meta) := unpack_batch_members md body n in
  let ms := member_message mid n meta bem redelivery now
              <$> outstanding (from_delivered_ack_set n (cm_ack_set cmd)) (zip (seqZ 0 n) members) in
  (forall e, c_batch_ack_tracker c !! key = Some e -> tracks e n) ->
  let '(outcome, _, c') := deliver cmd md bem body now c in
  outcome = Ok (Delivered (blen ms))
  /\ c_queue c' = c_queue c ++ (if dead_lettered redelivery c then [] else ms)
  /\ c_dead_letter_pending c' = c_dead_letter_pending c ++ (if dead_lettered redelivery c then ms else [])
  /\ exists e, c_batch_ack_tracker c' !! key = Some e /\ tracks e n
      /\ forall i, unacked_at e i <->
           0 <= i < n /\ delivered_at (cm_ack_set cmd) i
           /\ forall e0, c_batch_ack_tracker c !! key = Some e0 -> unacked_at e0 i.
Proof.
  intros (Hc & Hs & Hd) Hk Hn mid key redelivery.
  destruct (unpack_batch_members md body n) as [members meta] eqn:Hun. intros ms Htr.
  unfold deliver. rewrite Hc, Hs, Hd, Hk, Hn. rewrite bool_decide_false by (by intros [? ?]).
  fold mid redelivery. unfold deliver_batch. cbv zeta. rewrite Hun. fold key.
  set (s := from_delivered_ack_set n (cm_ack_set cmd)).
  match goal with |- context [deliver_members s mid n meta bem redelivery now ?zs ?c0] =>
    set (c1 := c0); pose proof (members_routed s mid n meta bem redelivery now zs c1) as Hr;
    assert (Hcount : (deliver_members s mid n meta bem redelivery now zs c1).1 = blen ms)
      by (apply members_count);
    destruct (deliver_members s mid n meta bem redelivery now zs c1) as [k c2] end.
  cbn [fst snd] in *. subst k. set (r := length _).
  pose proof (routed_app _ _ _ _ _ _ Hr (refund_routed redelivery r c2)) as Hr2.
  pose proof (routed_app _ _ _ _ _ _ Hr2 (wake_routed redelivery _)) as [Hq Hdl _ Ht].
  destruct (wake_receivers (refund_undecoded r c2)) as [ws c4]. rewrite !app_nil_r in *. cbn [snd] in *.
  split_and!; [done|exact Hq|exact Hdl|].
  destruct (merge_spec n (cm_ack_set cmd) (c_batch_ack_tracker c !! key) Htr) as [Hwf Hin].
  eexists. split; [|done]. rewrite Ht. simpl. by rewrite lookup_insert_eq.
Qed.
Lemma elem_of_outstanding n acks (ms : list (SingleMessageMetadata * bytes)) i m :
  (i, m) ∈ outstanding (from_delivered_ack_set n acks) (zip (seqZ 0 n) ms)
  <-> 0 <= i < n /\ delivered_at acks i /\ ms !! Z.to_nat i = Some m.
Proof.
  unfold outstanding. rewrite list_elem_of_filter. simpl. destruct (from_delivered_spec n acks) as [_ Hs].
  assert (Hz : (i, m) ∈ zip (seqZ 0 n) ms <-> 0 <= i < n /\ ms !! Z.to_nat i = Some m).
  { rewrite list_elem_of_lookup. setoid_rewrite lookup_zip_with_Some. split.
    - intros (k & x & y & Heq & Hx & Hy). simplify_eq. apply lookup_seqZ in Hx as [-> Hk].
      rewrite Z.add_0_l, Nat2Z.id. split; [lia|done].
    - intros [Hi Hm]. exists (Z.to_nat i), i, m. split_and!; [done| |done]. apply lookup_seqZ. lia. }
  rewrite Hz. split.
  - intros (Hu & Hi & Hm). rewrite is_unacked_member in Hu by lia.
    split_and!; [lia..| |done]. apply Hs. split; [lia|done].
  - intros (Hi & Hd & Hm). split_and!; [|lia..|done]. rewrite is_unacked_member by lia. by apply Hs.
Qed.

Lemma outstanding_sorted s mid n meta bem r now (ms : list (SingleMessageMetadata * bytes)) :
  StronglySorted Z.lt
    ((batch_index ∘ im_message_id) ∘ member_message mid n meta bem r now <$> outstanding s (zip (seqZ 0 n) ms)).
Proof.
  rewrite (list_fmap_ext _ fst); [|by intros ? [? [? ?]]].
  apply (sorted_sublist _ _ ((zip (seqZ 0 n) ms).*1)); [apply fmap_sublist, sublist_filter|].
  rewrite zip_fst_take. apply (sorted_sublist _ _ (seqZ 0 n)); [apply sublist_take|apply seqZ_sorted].
Qed.

(** A batched entry reaches the application member by member: in order of
    position, exactly the decoded members whose bit the broker still lists, each
    with its own batch index, to the queue or, over the redelivery cap, to the
    dead letters.  The tracker of the entry then lists exactly the positions that
    are outstanding both for the broker and for the acknowledgements this session
    already made, whatever the entry's state before. *)
Theorem batch_delivered cmd md bem body now c n :
  accepting c -> chunk_of md = None -> md_num_messages_in_batch md = Some n ->
  let mid := mid_from_pb (cm_message_id cmd) in
  let key := (ledger_id mid, entry_id mid) in
  let redelivery := default 0 (cm_redelivery_count cmd) in
  let '(members, meta) := unpack_batch_members md body n in
  (forall e, c_batch_ack_tracker c !! key = Some e -> tracks e n) ->
  let '(outcome, _, c') := deliver cmd md bem body now c in
  exists ms,
    outcome = Ok (Delivered (blen ms))
    /\ c_queue c' = c_queue c ++ (if dead_lettered redelivery c then [] else ms)
    /\ c_dead_letter_pending c' = c_dead_letter_pending c ++ (if dead_lettered redelivery c then ms else [])
    /\ (forall im, im ∈ ms <-> exists i single payload,
          0 <= i < n /\ delivered_at (cm_ack_set cmd) i
          /\ members !! Z.to_nat i = Some (single, payload)
          /\ im = member_message mid n meta bem redelivery now (i, (single, payload)))
    /\ StronglySorted Z.lt (batch_index ∘ im_message_id <$> ms)
    /\ exists e, c_batch_ack_tracker c' !! key = Some e /\ tracks e n
        /\ forall i, unacked_at e i <->
             0 <= i < n /\ delivered_at (cm_ack_set cmd) i
             /\ forall e0, c_batch_ack_tracker c !! key = Some e0 -> unacked_at e0 i.
Proof.
  intros Ha Hk Hn mid key redelivery.
  pose proof (batch_delivers cmd md bem body now c n Ha Hk Hn) as Hd. cbv zeta in Hd.
  fold mid key redelivery in Hd. destruct (unpack_batch_members md body n) as [members meta].
  intros Htr. specialize (Hd Htr). destruct (deliver cmd md bem body now c) as [[o ws] c'].
  destruct Hd as (Ho & Hq & Hdl & Ht). eexists. split_and!; [exact Ho|exact Hq|exact Hdl| | |exact Ht].
  - intros im. rewrite list_elem_of_fmap. split.
    + intros ([i [single payload]] & -> & (Hi & Hs & Hm)%elem_of_outstanding). by exists i, single, payload.
    + intros (i & single & payload & Hi & Hs & Hm & ->). exists (i, (single, payload)).
      split; [done|]. by apply elem_of_outstanding.
  - rewrite <- list_fmap_compose. apply outstanding_sorted.
Qed.
End Batch.
