(* ===== verification/ConsumerTimers.v ===== *)
(** Timers of the consumer: the expiry sweep of incomplete chunked messages and
    the stall watchdog. *)

From S2P Require Import Prelude Time Ids Compress Trackers MemoryLimit ReceiverQueue BatchAck Producer BatchBody Consumer ConsumerFlow ConsumerChunks.

Section Sweep.
Context {P W Hist : Type} `{ReceiverQueuePolicy P, WakerSlab W}.
Abbreviation state := (ConsumerState P W Hist).
Implicit Types c : state.

Definition chunk_deadline (expire : Z) (b : ChunkBuffer) : Z :=
  deadline_with_clamp (cb_received_at b) expire.

(** The deadline of the message [u] has passed. *)
Definition expired_at (expire now : Z) (m : gmap string ChunkBuffer) (u : string) : bool :=
  match m !! u with Some b => chunk_deadline expire b <=? now | None => false end.

(** Older entries of the index have earlier deadlines. *)
Definition deadlines_ordered (expire : Z) (m : gmap string ChunkBuffer) (order : list string) : Prop :=
  StronglySorted (fun u v => forall a b, m !! u = Some a -> m !! v = Some b ->
                    chunk_deadline expire a <= chunk_deadline expire b) order.

Definition first_ids (m : gmap string ChunkBuffer) (us : list string) : list MessageId :=
  us ≫= fun u => option_list (m !! u ≫= cb_first_chunk_message_id).

Lemma stage_acks b c :
  c_chunk_auto_ack_pending (stage_chunk_ack b c) =
    c_chunk_auto_ack_pending c ++ (if c_auto_ack_oldest c then option_list (cb_first_chunk_message_id b) else [])
  /\ c_auto_ack_oldest (stage_chunk_ack b c) = c_auto_ack_oldest c
  /\ c_chunk_reassembly (stage_chunk_ack b c) = c_chunk_reassembly c
  /\ c_expire_time (stage_chunk_ack b c) = c_expire_time c.
Proof. unfold stage_chunk_ack. repeat case_match; simpl; by rewrite ?app_nil_r. Qed.

Lemma deadlines_delete expire m u order :
  deadlines_ordered expire m order -> deadlines_ordered expire (delete u m) order.
Proof.
  intros Hs. unfold deadlines_ordered in *. induction Hs as [|x order Hs IH Hle]; constructor; [done|].
  eapply Forall_impl; [exact Hle|]. intros y Hxy a b [_ Ha]%lookup_delete_Some [_ Hb]%lookup_delete_Some.
  by apply Hxy.
Qed.

Lemma first_ids_delete m u us : (forall x, x ∈ us -> x <> u) -> first_ids (delete u m) us = first_ids m us.
Proof.
  intros Hne. unfold first_ids. induction us as [|x us IH]; simpl; [done|].
  rewrite lookup_delete_ne by (intros ->; by eapply (Hne x); [left|]). f_equal. apply IH.
  intros y Hy. apply Hne. by right.
Qed.

Lemma expired_delete expire now m u x : x <> u ->
  expired_at expire now (delete u m) x = expired_at expire now m x.
Proof. intros Hx. unfold expired_at. by rewrite lookup_delete_ne. Qed.

(** Nothing expires when the oldest message does not. *)
Lemma none_expired expire now m u order b :
  order_ok (u :: order) m -> deadlines_ordered expire m (u :: order) ->
  m !! u = Some b -> now < chunk_deadline expire b -> forall x, expired_at expire now m x = false.
Proof.
  intros [_ Hin] Hs Hu Hlt x. unfold expired_at. destruct (m !! x) as [a|] eqn:Hx; [|done].
  apply Z.leb_gt. apply StronglySorted_inv in Hs as [_ Hle]. rewrite Forall_forall in Hle.
  assert (Hm : x ∈ u :: order) by (apply Hin; by rewrite Hx).
  apply elem_of_cons in Hm as [->|Hm]; [assert (a = b) by congruence; by subst a|].
  specialize (Hle x Hm b a Hu Hx). lia.
Qed.

(** The sweep removes the messages whose deadline has passed, and no other. *)
Record swept (expire now : Z) (order : list string) c c' : Prop := {
  sw_order : c_chunk_reassembly_order c' =
    filter (fun u => expired_at expire now (c_chunk_reassembly c) u = false) order;
  sw_map : forall u, c_chunk_reassembly c' !! u =
    if expired_at expire now (c_chunk_reassembly c) u then None else c_chunk_reassembly c !! u;
  sw_acks : c_chunk_auto_ack_pending c' = c_chunk_auto_ack_pending c
    ++ (if c_auto_ack_oldest c
        then first_ids (c_chunk_reassembly c)
               (filter (fun u => expired_at expire now (c_chunk_reassembly c) u = true) order)
        else []);
}.

Lemma swept_none expire now order c c' :
  (forall x, expired_at expire now (c_chunk_reassembly c) x = false) ->
  c_chunk_reassembly_order c' = order -> c_chunk_reassembly c' = c_chunk_reassembly c ->
  c_chunk_auto_ack_pending c' = c_chunk_auto_ack_pending c -> swept expire now order c c'.
Proof.
  intros Hn Ho Hm Ha. split.
  - rewrite Ho. symmetry. by apply filter_all.
  - intros u. by rewrite Hn, Hm.
  - rewrite filter_none by (intros x _; by rewrite Hn). rewrite Ha. case_match; by rewrite app_nil_r.
Qed.

Lemma sweep_loop_exact expire now order : forall c,
  order_ok order (c_chunk_reassembly c) -> deadlines_ordered expire (c_chunk_reassembly c) order ->
  swept expire now order c (sweep_loop expire now order c).
Proof.
  induction order as [|u order IH]; intros c Ho Hs; cbn [sweep_loop].
  { apply swept_none; try done. intros x. unfold expired_at.
    destruct (c_chunk_reassembly c !! x) eqn:Hx; [|done].
    exfalso. destruct Ho as [_ Hin]. eapply not_elem_of_nil, (Hin x). by rewrite Hx. }
  destruct (proj1 (proj2 Ho u)) as [b Hu]; [left|]. rewrite Hu.
  fold (chunk_deadline expire b). destruct (Z.ltb_spec now (chunk_deadline expire b)) as [Hlt|Hge].
  { apply swept_none; try done. by eapply none_expired. }
  set (c1 := stage_chunk_ack b _). destruct (stage_acks b (release_chunk_bytes b (c <| c_chunk_reassembly ::= delete u |>)))
    as (Hack & Hauto & Hmap & _). fold c1 in Hack, Hauto, Hmap. simpl in Hack, Hauto, Hmap.
  pose proof Ho as [Hnd _]. apply NoDup_cons in Hnd as [Hnu Hnd].
  assert (Hne : forall x, x ∈ order -> x <> u) by (intros x Hx ->; done).
  assert (He : expired_at expire now (c_chunk_reassembly c) u = true).
  { unfold expired_at. rewrite Hu. by apply Z.leb_le. }
  destruct (IH c1) as [Ho1 Hm1 Ha1]; rewrite Hmap in *.
  - by apply order_ok_tail.
  - apply StronglySorted_inv in Hs as [Hs _]. by apply deadlines_delete.
  - split.
    + rewrite Ho1, filter_cons, He. rewrite decide_False by done.
      apply filter_ext_in. intros x Hx. by rewrite expired_delete by auto.
    + intros x. rewrite Hm1. destruct (decide (x = u)) as [->|Hx]; [|by rewrite expired_delete, lookup_delete_ne by done].
      rewrite He. unfold expired_at. by rewrite lookup_delete_eq.
    + rewrite Ha1, Hack, Hauto, filter_cons, He. rewrite decide_True by done.
      destruct (c_auto_ack_oldest c); [|by rewrite !app_nil_r]. rewrite <- app_assoc. f_equal.
      unfold first_ids at 2. simpl. rewrite Hu. simpl. f_equal.
      rewrite (filter_ext_in _ (fun x => expired_at expire now (c_chunk_reassembly c) x = true))
        by (intros x Hx; by rewrite expired_delete by auto).
      apply first_ids_delete. intros x [_ Hx]%list_elem_of_filter. by apply Hne.
Qed.

Lemma sweep_keeps_expire now c : c_expire_time (sweep_expired_chunks now c) = c_expire_time c.
Proof.
  unfold sweep_expired_chunks. destruct (c_expire_time c) as [e|] eqn:He; [|done]. rewrite <- He. clear He.
  generalize (c_chunk_reassembly_order c) as order. intros order. revert c.
  induction order as [|u order IH]; intros c; simpl; [done|]. repeat case_match; try done.
  rewrite IH. destruct (stage_acks c0 (release_chunk_bytes c0 (c <| c_chunk_reassembly ::= delete u |>)))
    as (_ & _ & _ & ->). done.
Qed.

(** The expiry sweep is exact: run on a well-formed consumer whose buffered
    messages arrived in the order of the index, it removes from the buffers and
    from the index precisely the messages whose deadline has passed, stages their
    first-chunk ids for acknowledgement in order exactly when that is configured,
    and leaves a next deadline strictly in the future, so the timer never spins. *)
Theorem sweep_exact expire now c :
  chunks_wf c -> c_expire_time c = Some expire ->
  deadlines_ordered expire (c_chunk_reassembly c) (c_chunk_reassembly_order c) ->
  let c' := sweep_expired_chunks now c in
  swept expire now (c_chunk_reassembly_order c) c c'
  /\ (forall d, next_chunk_expiry_deadline c' = Some d -> now < d).
Proof.
  intros Hwf He Hs c'. assert (Hsw : swept expire now (c_chunk_reassembly_order c) c c').
  { subst c'. unfold sweep_expired_chunks. rewrite He. apply sweep_loop_exact; [apply Hwf|done]. }
  split; [done|]. intros d Hd. destruct Hsw as [Ho Hm _]. unfold next_chunk_expiry_deadline in Hd.
  destruct (c_expire_time c') as [e|] eqn:He'; [|done]. simpl in Hd.
  assert (e = expire) as ->.
  { assert (Hk : c_expire_time c' = c_expire_time c) by apply sweep_keeps_expire. congruence. }
  destruct (head (c_chunk_reassembly_order c')) as [u|] eqn:Hh; [|done]. simpl in Hd. rewrite Hm in Hd.
  destruct (expired_at expire now (c_chunk_reassembly c) u) eqn:Hx; [done|]. unfold expired_at in Hx.
  destruct (c_chunk_reassembly c !! u) as [b|]; [|done]. simplify_eq/=. by apply Z.leb_gt.
Qed.
End Sweep.

Section Stall.
Context {P W Hist : Type} `{ReceiverQueuePolicy P, WakerSlab W}.
Abbreviation state := (ConsumerState P W Hist).
Implicit Types c : state.

(** Watchdog ticks with nothing in between: the silences reported. *)
Fixpoint stall_ticks (window : Z) (ts : list Z) c : list Z * state :=
  match ts with
  | [] => ([], c)
  | now :: ts =>
      let '(r, c) := poll_stall window now c in
      let '(rs, c) := stall_ticks window ts c in
      (option_list r ++ rs, c)
  end.

Lemma candidate_watch w c : is_stall_candidate (c <| c_stall_watch := w |>) = is_stall_candidate c.
Proof. done. Qed.

Lemma reported_silent window ts : forall since c, is_stall_candidate c = true ->
  c_stall_watch c = Some (mkStallWatch (c_dispatch_units_received c) since true) ->
  fst (stall_ticks window ts c) = [].
Proof.
  induction ts as [|now ts IH]; intros since c Hc Hw; cbn [stall_ticks]; [done|].
  unfold poll_stall. rewrite Hc, Hw. cbn [negb sw_mark sw_reported]. rewrite Z.eqb_refl. cbn [orb].
  specialize (IH since c Hc Hw). by destruct (stall_ticks window ts c).
Qed.

Lemma armed_reports window since ts : forall c, is_stall_candidate c = true ->
  c_stall_watch c = Some (mkStallWatch (c_dispatch_units_received c) since false) ->
  fst (stall_ticks window ts c)
  = (fun now => saturating_duration_since now since)
      <$> take 1 (filter (fun now => deadline_with_clamp since window <= now) ts).
Proof.
  induction ts as [|now ts IH]; intros c Hc Hw; cbn [stall_ticks]; [done|].
  unfold poll_stall. rewrite Hc, Hw. cbn [negb sw_mark sw_reported sw_since]. rewrite Z.eqb_refl. cbn [orb].
  rewrite filter_cons. destruct (Z.ltb_spec now (deadline_with_clamp since window)).
  - rewrite decide_False by lia. specialize (IH c Hc Hw). by destruct (stall_ticks window ts c).
  - rewrite decide_True by done.
    match goal with |- context [stall_ticks window ts ?c1] =>
      pose proof (reported_silent window ts since c1 Hc eq_refl) as Hr; destruct (stall_ticks window ts c1) end.
    simpl in *. by rewrite Hr.
Qed.

(** The stall watchdog reports a silent consumer exactly once: armed at [t0]
    and polled at any instants, it stays quiet until the first tick at or after
    the deadline, reports there how long the silence has lasted, and never again
    until something changes; the deadline it announces is that one. *)
Theorem stall_reported_once window t0 ts c :
  is_stall_candidate c = true ->
  fst (stall_ticks window ts (arm_stall_watch t0 c))
  = (fun now => saturating_duration_since now t0)
      <$> take 1 (filter (fun now => deadline_with_clamp t0 window <= now) ts)
  /\ next_stall_deadline window (arm_stall_watch t0 c) = Some (deadline_with_clamp t0 window)
  /\ forall u, is_stall_candidate (record_dispatch_unit c) = true ->
       0 <= c_dispatch_units_received c < u64_max ->
       fst (poll_stall window u (record_dispatch_unit (arm_stall_watch t0 c))) = None.
Proof.
  intros Hc. split; [by apply armed_reports|]. split; [done|]. intros u Hc' Hr.
  unfold poll_stall. change (is_stall_candidate (record_dispatch_unit (arm_stall_watch t0 c)))
    with (is_stall_candidate (record_dispatch_unit c)). rewrite Hc'. cbn [negb]. simpl.
  rewrite (proj2 (Z.eqb_neq _ _)); [done|]. unfold saturating_add. lia.
Qed.
End Stall.
