(* ===== verification/EndToEnd.v ===== *)
(** From a producer to a consumer: what [emit_chunked] and [flush_batch] put on
    the wire, [deliver] hands to the application. *)

From S2P Require Import Prelude Time Ids Frame Txn Compress Trackers MemoryLimit ReceiverQueue BatchAck Producer ProducerSpec ProducerChunks BatchBody Consumer ConsumerFlow ConsumerChunks ConsumerBatch.

Arguments unpack_batch_members : simpl never.
Arguments MAX_BUFFERED_CHUNK_BYTES : simpl never.
Arguments MAX_CHUNK_TOTAL : simpl never.

Section Chunked.
Context {P W HistP Hist : Type} `{ReceiverQueuePolicy P, WakerSlab W}.
Context `{!Codecs, !ProtoMessage SingleMessageMetadata}.
Implicit Types (p : ProducerState HistP) (c : ConsumerState P W Hist).

(** The broker hands a producer's frame to a consumer: metadata and payload
    unchanged, under a command, an entry metadata and a time of its own. *)
Definition relays (frames : list OutboundFrame) (f : inbound) (i : Z) : Prop :=
  exists fr, frames !! Z.to_nat i = Some fr /\ 0 <= i
    /\ in_md f = of_metadata fr /\ in_body f = of_payload fr.

Lemma bytes_of_concat (chunks : list bytes) : bytes_of chunks (seqZ 0 (blen chunks)) = blen (concat chunks).
Proof.
  unfold blen at 1. induction chunks as [|x chunks IH] using rev_ind; [done|].
  rewrite length_app, Nat2Z.inj_add, seqZ_app by lia. rewrite bytes_of_app, concat_app, blen_app.
  rewrite Z.add_0_l. f_equal.
  - rewrite <- IH. clear IH. generalize (le_n (length chunks)). generalize (length chunks) at 1 3 4 as n.
    induction n as [|n IHn]; intros Hn; [done|].
    rewrite Nat2Z.inj_succ, <- Z.add_1_r, seqZ_app by lia. rewrite !bytes_of_app, IHn by lia. f_equal.
    simpl. unfold chunk_at. rewrite lookup_app_l by lia. done.
  - simpl. unfold chunk_at. rewrite lookup_app_r by lia.
    replace (Z.to_nat (Z.of_nat 0 + Z.of_nat (length chunks)) - length chunks)%nat with 0%nat by lia.
    simpl. rewrite app_nil_r. lia.
Qed.
Lemma relays_carries uuid frames f i :
  1 < blen frames ->
  md_chunk_id ∘ of_metadata <$> frames = Some <$> seqZ 0 (blen frames) ->
  Forall (fun fr => md_num_chunks_from_msg (of_metadata fr) = Some (blen frames)
                    /\ md_uuid (of_metadata fr) = Some uuid) frames ->
  relays frames f i -> carries uuid (of_payload <$> frames) f i.
Proof.
  intros Hn Hids Hall (fr & Hfr & Hi & Hmd & Hbody).
  assert (Hlen : blen (of_payload <$> frames) = blen frames) by (unfold blen; by rewrite length_fmap).
  pose proof (lookup_lt_Some _ _ _ Hfr) as Hlt.
  destruct (proj1 (Forall_lookup _ _) Hall _ _ Hfr) as [Hnum Huuid].
  assert (Hid : md_chunk_id (of_metadata fr) = Some i).
  { assert (Hl : (md_chunk_id ∘ of_metadata <$> frames) !! Z.to_nat i = Some (md_chunk_id (of_metadata fr)))
      by (by rewrite list_lookup_fmap, Hfr).
    rewrite Hids, list_lookup_fmap, lookup_seqZ_lt in Hl by (unfold blen; lia). simpl in Hl.
    injection Hl as Hl. rewrite <- Hl. f_equal. lia. }
  unfold carries. rewrite Hlen, Hmd, Huuid, Hbody. split_and!; [|done|done|unfold blen; lia|].
  - unfold chunk_of. rewrite Hnum. simpl. rewrite Hid. simpl. by rewrite Z.gtb_ltb, (proj2 (Z.ltb_lt _ _)) by lia.
  - by rewrite list_lookup_fmap, Hfr.
Qed.

(** C15: a large message survives the trip: the producer cuts the payload into
    frames that are non-empty and respect the maximum message size, one op keeping
    them all for replay, and a consumer that receives the first frame and then the
    others in any order delivers exactly one message with the original payload. *)
Theorem chunked_end_to_end uuid msg res pt now p :
  0 < max_message_size p -> 1 <= blen (om_payload msg) <= i32_max ->
  let '(decision, p') := emit_chunked uuid msg res pt now p in
  exists frames,
    outbound p' = outbound p ++ frames
    /\ decision = Emit (blen frames)
    /\ pending p' = pending p ++ [new_op (next_sequence_id p) 1 now frames res]
    /\ Forall (fun f => 1 <= blen (of_payload f) <= max_message_size p
                        /\ of_sequence_id f = next_sequence_id p) frames
    /\ forall c f rest ids,
         2 <= blen frames <= MAX_CHUNK_TOTAL ->
         chunks_wf c -> accepting c -> c_chunk_reassembly c !! uuid = None ->
         dead_lettered (default 0 (cm_redelivery_count (in_cmd f))) c = false ->
         0 <= c_chunk_buffered_bytes c ->
         c_chunk_buffered_bytes c + blen (om_payload msg) <= MAX_BUFFERED_CHUNK_BYTES ->
         Forall2 (relays frames) (f :: rest) (0 :: ids) -> 0 :: ids ≡ₚ seqZ 0 (blen frames) ->
         exists im c',
           deliver_frames (f :: rest) c = (replicate (length rest) (Ok Buffered) ++ [Ok (Delivered 1)], c')
           /\ c_queue c' = c_queue c ++ [im] /\ im_payload im = om_payload msg.
Proof.
  intros Hm Hlen. pose proof (chunks_reassemble uuid msg res pt now p Hm Hlen) as Hch.
  destruct (emit_chunked uuid msg res pt now p) as [decision p'].
  destruct Hch as (frames & Hout & Hdec & Hcat & Hids & Hall & Hpend).
  exists frames. split_and!; [done..|eapply Forall_impl; [exact Hall|naive_solver]|].
  intros c f rest ids Hn Hwf Ha Hu Hdlq Hb Hmax Hrel Hperm.
  assert (Hl : blen (of_payload <$> frames) = blen frames) by (unfold blen; by rewrite length_fmap).
  assert (Hpc : all_chunks (of_payload <$> frames) (0 :: ids)) by (unfold all_chunks; by rewrite Hl).
  destruct (chunks_deliver uuid (of_payload <$> frames) ltac:(by rewrite Hl) f rest ids c)
    as (lastf & c' & _ & Hrun & _ & Hq); try done.
  - eapply Forall2_impl; [exact Hrel|]. intros g i. apply relays_carries; [lia|done|].
    eapply Forall_impl; [exact Hall|naive_solver].
  - rewrite (bytes_of_perm _ _ _ Hpc). rewrite bytes_of_concat, Hcat. done.
  - eexists _, c'. split_and!; [done..|]. simpl. exact Hcat.
Qed.
End Chunked.

Section Batched.
Context {P W HistP Hist : Type} `{ReceiverQueuePolicy P, WakerSlab W}.
Context `{!Codecs, !CodecLaws, !ProtoMessage SingleMessageMetadata, !ProtoLaws SingleMessageMetadata}.
Implicit Types (p : ProducerState HistP) (c : ConsumerState P W Hist).

Lemma batch_frame_unchunked pt p : chunk_of (of_metadata (batch_frame compress_ok pt p)) = None.
Proof.
  unfold batch_frame. cbv zeta.
  destruct (if bool_decide (compression p = CNone) then None else _); cbn [of_metadata];
    repeat match goal with |- context [if ?b then _ else _] => destruct b end;
    destruct (try_from_max u32_max _), (name p), (batch_txn_id (batch p)); done.
Qed.

(** Without an ack set, every position is outstanding. *)
Lemma outstanding_all n (ms : list (SingleMessageMetadata * bytes)) :
  outstanding (from_delivered_ack_set n []) (zip (seqZ 0 n) ms) = zip (seqZ 0 n) ms.
Proof.
  apply filter_all. intros [i m] Hin. apply elem_of_zip_l, elem_of_seqZ in Hin. simpl.
  rewrite is_unacked_member by lia. destruct (from_delivered_spec n []) as [_ Hs].
  destruct (proj2 (Hs i)) as [_ Hm]; [|done]. split; [lia|]. unfold delivered_at. by rewrite lookup_nil.
Qed.

(** C14: a flushed batch reaches the application member by member: whatever the
    codec and whether or not compression succeeded, delivering the frame of a
    batch the broker sends for the first time appends to the consumer's queue one
    message per member, in order, with the payload and the metadata the
    application published, numbered by position, and marked as plaintext. *)
Theorem batch_end_to_end pt p cmd bem now c :
  let ms := messages (batch p) in
  let f := batch_frame compress_ok pt p in
  ms <> [] -> Forall member_ok ms -> blen ms <= i32_max -> blen (pack_batch ms) <= MAX_FRAME_SIZE ->
  accepting c -> cm_ack_set cmd = [] -> dead_lettered (default 0 (cm_redelivery_count cmd)) c = false ->
  (forall e, c_batch_ack_tracker c
    !! (ledger_id (mid_from_pb (cm_message_id cmd)), entry_id (mid_from_pb (cm_message_id cmd))) = Some e ->
    tracks e (blen ms)) ->
  let '(outcome, _, c') := deliver cmd (of_metadata f) bem (of_payload f) now c in
  outcome = Ok (Delivered (blen ms))
  /\ exists ims, c_queue c' = c_queue c ++ ims
      /\ (fun im => (im_single_metadata im, im_payload im)) <$> ims = (fun m => (Some m.1, m.2)) <$> ms
      /\ batch_index ∘ im_message_id <$> ims = seqZ 0 (blen ms)
      /\ Forall (fun im => md_compression (im_metadata im) = None) ims.
Proof.
  intros ms f Hne Hok Hlen Hsize Ha Hack Hdlq Htr.
  destruct (batch_roundtrip pt p Hne Hok Hlen Hsize) as (Hnum & Hun & Hplain). fold ms f in Hnum, Hun, Hplain.
  pose proof (batch_delivers cmd (of_metadata f) bem (of_payload f) now c (blen ms) Ha
    (batch_frame_unchunked pt p) Hnum) as Hd. cbv zeta in Hd.
  destruct (unpack_batch_members (of_metadata f) (of_payload f) (blen ms)) as [members meta].
  cbn [fst snd] in Hun, Hplain. subst members. specialize (Hd Htr).
  destruct (deliver cmd (of_metadata f) bem (of_payload f) now c) as [[o ws] c'].
  rewrite Hack, outstanding_all, Hdlq in Hd. destruct Hd as (-> & Hq & _).
  assert (Hl : length (seqZ 0 (blen ms)) = length ms) by (rewrite length_seqZ; unfold blen; lia).
  set (zs := zip (seqZ 0 (blen ms)) ms) in *.
  assert (Hfst : zs.*1 = seqZ 0 (blen ms)) by (apply fst_zip; lia).
  assert (Hsnd : zs.*2 = ms) by (apply snd_zip; lia).
  clearbody zs. split.
  - do 2 f_equal. unfold blen. rewrite length_fmap, <- (length_fmap snd zs). by rewrite Hsnd.
  - eexists. split; [exact Hq|]. rewrite <- !list_fmap_compose. split_and!.
    + rewrite <- Hsnd. rewrite <- list_fmap_compose. by apply list_fmap_ext; intros ? [? [? ?]].
    + rewrite <- Hfst. by apply list_fmap_ext; intros ? [? [? ?]].
    + rewrite Forall_fmap. apply Forall_true. by intros [? [? ?]].
Qed.
End Batched.
