(* ===== verification/ConnModel.v ===== *)
(** * The connection: handshake, keep-alive, requests and producers

    Model of the part of [Connection] ([conn.rs]) that owns the handshake, the
    keep-alive watchdog, the outbound buffer, the request table with its
    outcomes and wakers, and the attachment of producers: opening, closing,
    cancelling, re-attaching, replaying and terminating them, over the slots of
    [Producer].  Consumers, lookups, transactions and scalable topics, which the
    same struct owns, are modelled in their own files.

    The wall clock is an argument of the methods that read it.  Waking a future
    appends its waker to [cx_woken].  A command is kept before its encoding.
    A map is iterated in the order of its keys.  Fault injection and the rate
    windows are left out. *)

From S2P Require Import Prelude Time Ids MemoryLimit Backoff AntiThrash Producer.

(** * Data *)

Inductive HandshakeState :=
| Uninitialized | ConnectSent | Connected | AuthChallenging | Closing | ClosedState | FailedState.

#[global] Instance HandshakeState_eq_dec : EqDecision HandshakeState.
Proof. solve_decision. Defined.

Inductive PendingOpKey := KRequest (request_id : Z) | KSend (producer sequence_id : Z).

#[global] Instance PendingOpKey_eq_dec : EqDecision PendingOpKey.
Proof. solve_decision. Defined.

#[global] Instance PendingOpKey_countable : Countable PendingOpKey.
Proof.
  refine (inj_countable' (A := Z + Z * Z)
    (fun k => match k with KRequest r => inl r | KSend h q => inr (h, q) end)
    (fun s => match s with inl r => KRequest r | inr (h, q) => KSend h q end) _).
  by intros [].
Defined.

(** The outcomes the modelled methods install. *)
Inductive OpOutcome :=
| OSendReceipt (sequence_id : Z) (message_id : MessageId)
| OSendError (sequence_id code : Z) (message : string)
| OSuccess (request_id : Z)
| OError (request_id code : Z) (message : string)
| OSessionLost (key : PendingOpKey)
| OTerminal (key : PendingOpKey) (reason : string).

(** [PPlain] stands for the kinds of request whose reply is recorded as an
    outcome and nothing else, in every method modelled here. *)
Inductive PendingRequestKind :=
| PProducerOpen (producer : Z) (enqueued_at : option Z)
| PProducerClose (producer : Z)
| PProducerCloseForgotten (producer : Z)
| PPlain.

Record FeatureFlags := mkFlags {
  supports_auth_refresh : option bool;
  supports_broker_entry_metadata : option bool;
  supports_partial_producer : option bool;
  supports_topic_watchers : option bool;
  supports_get_partitioned_metadata_without_auto_creation : option bool;
  supports_repl_dedup_by_lid_and_eid : option bool;
  supports_topic_watcher_reconcile : option bool;
  supports_scalable_topics : option bool;
  supports_tc_metadata_discovery : option bool;
}.

#[global] Instance FeatureFlags_eta : Eta FeatureFlags := fun f =>
  mkFlags (supports_auth_refresh f) (supports_broker_entry_metadata f)
    (supports_partial_producer f) (supports_topic_watchers f)
    (supports_get_partitioned_metadata_without_auto_creation f)
    (supports_repl_dedup_by_lid_and_eid f) (supports_topic_watcher_reconcile f)
    (supports_scalable_topics f) (supports_tc_metadata_discovery f).

Definition default_flags : FeatureFlags :=
  mkFlags None None None None None None None None None.

Inductive ProducerAccessMode := Shared | Exclusive | WaitForExclusive | ExclusiveWithFencing.

#[global] Instance ProducerAccessMode_eq_dec : EqDecision ProducerAccessMode.
Proof. solve_decision. Defined.

Definition access_mode_code (m : ProducerAccessMode) : Z :=
  match m with Shared => 0 | Exclusive => 1 | WaitForExclusive => 2 | ExclusiveWithFencing => 3 end.

Record Schema := mkSchema {
  sch_name : string;
  sch_data : bytes;
  sch_type : Z;
  sch_properties : list (string * string);
}.

(** The configuration fields read here. *)
Record ConnectionConfig := mkConfig {
  cfg_client_version : string;
  cfg_auth_method_name : string;
  cfg_auth_data : option bytes;
  cfg_protocol_version : Z;
  cfg_feature_flags : FeatureFlags;
  cfg_keepalive_interval : Z;
  cfg_operation_timeout : Z;
  cfg_default_max_message_size : Z;
  cfg_proxy_to_broker_url : option string;
}.

Record CreateProducerRequest := mkCreate {
  cr_topic : string;
  cr_producer_name : option string;
  cr_compression : CompressionKind;
  cr_enable_batching : bool;
  cr_enable_chunking : bool;
  cr_max_batch_size_bytes : Z;
  cr_max_messages_in_batch : Z;
  cr_schema : option Schema;
  cr_initial_sequence_id : option Z;
  cr_access_mode : ProducerAccessMode;
  cr_producer_metadata : list (string * string);
  cr_send_timeout : option Z;
  cr_batching_max_publish_delay : option Z;
}.

Record AbandonedProducerOpen := mkAbandoned {
  ab_topic : string;
  ab_producer_name : string;
  ab_handle : Z;
  ab_reclosed : bool;
  ab_next_epoch : Z;
}.

#[global] Instance AbandonedProducerOpen_eta : Eta AbandonedProducerOpen := fun a =>
  mkAbandoned (ab_topic a) (ab_producer_name a) (ab_handle a) (ab_reclosed a) (ab_next_epoch a).

(** ** Commands sent *)

Record CommandConnect := mkConnect {
  cc_client_version : string;
  cc_auth_method_name : option string;
  cc_auth_data : option bytes;
  cc_protocol_version : option Z;
  cc_proxy_to_broker_url : option string;
  cc_feature_flags : option FeatureFlags;
}.

Record CommandProducer := mkCommandProducer {
  cp_topic : string;
  cp_producer_id : Z;
  cp_request_id : Z;
  cp_producer_name : option string;
  cp_metadata : list (string * string);
  cp_schema : option Schema;
  cp_epoch : option Z;
  cp_user_provided_producer_name : option bool;
  cp_producer_access_mode : option Z;
}.

Inductive Command :=
| CConnect (connect : CommandConnect)
| CAuthResponse (client_version : string) (method : option string) (data : bytes) (protocol_version : Z)
| CPing
| CPong
| CProducer (producer : CommandProducer)
| CCloseProducer (producer_id request_id : Z).

(** What is put on the wire: a command, or a staged frame of a producer. *)
Inductive Sent := SCommand (c : Command) | SFrame (producer : Z) (f : OutboundFrame).

(** ** Commands received; a body may be missing *)

Record CommandConnected := mkConnected {
  cd_protocol_version : option Z;
  cd_max_message_size : option Z;
  cd_feature_flags : option FeatureFlags;
}.

Record CommandProducerSuccess := mkProducerSuccess {
  ps_request_id : Z;
  ps_producer_name : string;
  ps_last_sequence_id : option Z;
  ps_schema_version : option bytes;
}.

Record CommandError := mkError {
  er_request_id : Z;
  er_error : Z;
  er_message : string;
}.

Inductive Received :=
| RConnected (body : option CommandConnected)
| RPing
| RPong
| RAuthChallenge (body : option (option (option string * option bytes)))
| RSendReceipt (body : option CommandSendReceipt)
| RSendError (body : option CommandSendError)
| RProducerSuccess (body : option CommandProducerSuccess)
| RSuccess (body : option Z)
| RError (body : option CommandError)
| RCloseProducer (body : option (Z * option string)).

Inductive ProtocolError := Handshake (what : string) | InvariantViolation (what : string).

(** ** Events *)

Inductive ConnectionEvent :=
| EConnected (protocol_version max_message_size : Z) (flags : FeatureFlags)
| EAuthChallenge (method : option string) (challenge : option bytes)
| ESendReceipt (producer sequence_id : Z) (message_id : MessageId)
| ESendError (producer sequence_id code : Z) (message : string)
| EProducerReady (producer : Z) (name : string) (last_sequence_id : Z) (schema_version : bytes)
| EProducerOpenFailed (producer code : Z) (message : string)
| EProducerOpenFailedTransient (producer code : Z) (message : string)
| EProducerClosedByBroker (producer : Z) (url : option string)
| EChecksumMismatch (computed expected : Z)
| EAntiThrashCooldown (until : Z)
| EAntiThrashCleared
| EClosed (reason : option string).

(** [DriverRetry::Producer]; consumers are not modelled here. *)
Record DriverRetry := mkRetry {
  rt_handle : Z;
  rt_failed_request_id : Z;
  rt_code : Z;
  rt_message : string;
}.

Definition MAX_ABANDONED_PRODUCER_OPENS : nat := 16.
Definition EVENT_QUEUE_OBSERVATIONAL_CAP : nat := 4096.
Definition SEND_TIMEOUT_CODE : Z := -1.
Definition SEND_TIMEOUT_MESSAGE : string := "send timeout".
Definition PRODUCER_OPEN_TIMEOUT_CODE : Z := -1.
Definition PRODUCER_OPEN_TIMEOUT_MESSAGE : string := "producer open timeout".
Definition BATCH_RESET_ERROR_CODE : Z := -1.
Definition BATCH_RESET_ERROR_MESSAGE : string :=
  "batched send cannot be replayed after connection reset".
Definition PRODUCER_CLOSED_REASON : string := "producer closed before the send was acknowledged".

(** ** The connection *)

(** The history of one connection, a variable of the proofs: what was sent and
    received, a fresh producer slot, an accepted attachment, a reset. *)
Inductive LogItem :=
| LSent (s : Sent)
| LReceived (r : Received)
| LCreated (producer : Z)
| LAttached (producer request_id : Z)
| LReset.

Section State.
Context {Hist : Type}.

(** [ProducerSlot], with the fields of [ProducerState] that only the
    connection uses. *)
Record PSlot := mkPSlot {
  sl_producer : ProducerState Hist;
  sl_epoch : Z;
  sl_close_request : option Z;
  sl_access_mode : ProducerAccessMode;
  sl_routing_ready : bool;
}.

#[global] Instance PSlot_eta : Eta PSlot := fun s =>
  mkPSlot (sl_producer s) (sl_epoch s) (sl_close_request s) (sl_access_mode s) (sl_routing_ready s).

Record Conn := mkConn {
  cx_config : ConnectionConfig;
  cx_operation_retry : OperationRetryConfig;
  cx_terminal_admission_reason : option string;
  cx_state : HandshakeState;
  cx_broker_max_message_size : option Z;
  cx_broker_protocol_version : Z;
  cx_feature_flags : FeatureFlags;
  cx_handshake_failure_reason : option string;
  cx_outbound : list Sent;
  cx_segments : list Sent;
  cx_events : list ConnectionEvent;
  cx_dropped_events : Z;
  cx_driver_retries : list DriverRetry;
  cx_outcomes : gmap PendingOpKey OpOutcome;
  cx_wakers : gmap PendingOpKey waker;
  cx_pending : gmap Z PendingRequestKind;
  cx_producers : gmap Z PSlot;
  cx_create_requests : gmap Z CreateProducerRequest;
  cx_abandoned : list (option AbandonedProducerOpen);
  cx_abandoned_next : Z;
  cx_snapshots : gmap Z (list OpSend);
  cx_next_request_id : Z;
  cx_next_producer_id : Z;
  cx_last_activity : option Z;
  cx_ping_outstanding : bool;
  cx_last_connected_at : option Z;
  cx_last_disconnected_at : option Z;
  cx_session_epoch : Z;
  cx_anti_thrash : AntiThrashState;
  cx_woken : list waker;
  cx_log : list LogItem;
}.

#[global] Instance Conn_eta : Eta Conn := fun c =>
  mkConn (cx_config c) (cx_operation_retry c) (cx_terminal_admission_reason c) (cx_state c)
    (cx_broker_max_message_size c) (cx_broker_protocol_version c) (cx_feature_flags c)
    (cx_handshake_failure_reason c) (cx_outbound c) (cx_segments c) (cx_events c)
    (cx_dropped_events c) (cx_driver_retries c) (cx_outcomes c) (cx_wakers c) (cx_pending c)
    (cx_producers c) (cx_create_requests c) (cx_abandoned c) (cx_abandoned_next c)
    (cx_snapshots c) (cx_next_request_id c) (cx_next_producer_id c) (cx_last_activity c)
    (cx_ping_outstanding c) (cx_last_connected_at c) (cx_last_disconnected_at c)
    (cx_session_epoch c) (cx_anti_thrash c) (cx_woken c) (cx_log c).

Definition Conn_new (config : ConnectionConfig) : Conn :=
  mkConn config OperationRetryConfig_default None Uninitialized None 0 default_flags None [] [] []
    0 [] ∅ ∅ ∅ ∅ ∅ (replicate MAX_ABANDONED_PRODUCER_OPENS None) 0 ∅ 0 0 None false None None 0
    at_disabled [] [].
End State.
Arguments PSlot : clear implicits.
Arguments Conn : clear implicits.
