(* ===== verification/ConnOps.v ===== *)
(** * The methods of the connection

    The methods of [Connection] over the data of [ConnModel]: handshake and
    session, requests and wakers, producers, the frames received, the timers and
    the transmit side.  [wall] is what [wall_clock] returns, in nanoseconds since
    the epoch. *)

From S2P Require Import Prelude Time Ids MemoryLimit Backoff AntiThrash Producer ConnModel.

(** [duration_since(UNIX_EPOCH)] in milliseconds, 0 before the epoch *)
Definition wall_ms (wall : Z) : Z :=
  if wall <? 0 then 0 else default u64_max (try_from_max u64_max (wall / 10 ^ 6)).

Section Ops.
Context {Hist : Type}.
(** The histogram of a new producer *)
Variable hist_new : option Hist.
(** [compress::compress], [None] for its [Err] *)
Variable compress : CompressionKind -> bytes -> option bytes.
Context `{!ProtoMessage SingleMessageMetadata}.

Implicit Types c : Conn Hist.
Implicit Types s : PSlot Hist.

(** ** Small steps *)

Definition log (i : LogItem) c : Conn Hist := c <| cx_log ::= fun l => l ++ [i] |>.
Definition wake (w : waker) c : Conn Hist := c <| cx_woken ::= fun l => l ++ [w] |>.
Definition wake_opt (w : option waker) c : Conn Hist :=
  match w with Some w => wake w c | None => c end.
Definition push_event (e : ConnectionEvent) c : Conn Hist :=
  c <| cx_events ::= fun l => l ++ [e] |>.
Definition install (k : PendingOpKey) (o : OpOutcome) c : Conn Hist :=
  c <| cx_outcomes ::= <[k := o]> |>.
(** [self.wakers.remove(&key)] *)
Definition remove_waker (k : PendingOpKey) c : option waker * Conn Hist :=
  (cx_wakers c !! k, c <| cx_wakers ::= delete k |>).
Definition wake_key (k : PendingOpKey) c : Conn Hist :=
  let '(w, c) := remove_waker k c in wake_opt w c.
Definition with_slot (h : Z) (f : PSlot Hist -> PSlot Hist) c : Conn Hist :=
  c <| cx_producers ::= alter f h |>.
Definition with_producer (h : Z) (f : ProducerState Hist -> ProducerState Hist) c : Conn Hist :=
  with_slot h (fun s => s <| sl_producer ::= f |>) c.
Definition get_producer (h : Z) c : option (ProducerState Hist) :=
  sl_producer <$> cx_producers c !! h.

Definition encode_command (cmd : Command) c : Conn Hist :=
  log (LSent (SCommand cmd)) (c <| cx_outbound ::= fun o => o ++ [SCommand cmd] |>).

Definition wake_for_request (rid : Z) c : Conn Hist := wake_key (KRequest rid) c.

Definition push_observational_event (e : ConnectionEvent) c : Conn Hist :=
  if decide (EVENT_QUEUE_OBSERVATIONAL_CAP <= length (cx_events c))%nat
  then c <| cx_dropped_events ::= fun n => saturating_add u64_max n 1 |>
  else push_event e c.

Definition alloc_request_id c : Z * Conn Hist :=
  (cx_next_request_id c, c <| cx_next_request_id ::= fun n => wrapping_add 64 n 1 |>).

(** [ProducerSlot::set_broker_ready] *)
Definition set_broker_ready (ready connection_ready : bool) s : PSlot Hist :=
  (s <| sl_producer ::= fun p => p <| broker_ready := ready |> |>)
    <| sl_routing_ready := ready && connection_ready && negb (closed (sl_producer s)) |>.

(** ** Handshake and session *)

Definition is_connected c : bool := bool_decide (cx_state c = Connected).

Definition is_closed c : bool :=
  match cx_state c with Closing | ClosedState | FailedState => true | _ => false end.

Definition is_user_closed c : bool :=
  match cx_state c with Closing | ClosedState => true | _ => false end.

Definition set_handshake_state (next : HandshakeState) c : Conn Hist :=
  let connected := bool_decide (next = Connected) in
  (c <| cx_state := next |>)
    <| cx_producers ::= fmap (fun s =>
         s <| sl_routing_ready :=
              connected && broker_ready (sl_producer s) && negb (closed (sl_producer s)) |>) |>.

Definition mark_disconnected (wall : Z) c : Conn Hist :=
  let c := if is_closed c then c else c <| cx_last_disconnected_at := Some wall |> in
  set_handshake_state FailedState c.

Definition begin_handshake c : result ProtocolError (Conn Hist) :=
  if decide (cx_state c = Uninitialized) then
    let flags := (cfg_feature_flags (cx_config c)) <| supports_scalable_topics := Some true |> in
    let connect := mkConnect (cfg_client_version (cx_config c))
      (Some (cfg_auth_method_name (cx_config c))) (cfg_auth_data (cx_config c))
      (Some (cfg_protocol_version (cx_config c))) (cfg_proxy_to_broker_url (cx_config c))
      (Some flags) in
    Ok (set_handshake_state ConnectSent (encode_command (CConnect connect) c))
  else Err (Handshake "handshake already started").

Definition conn_close (wall : Z) c : Conn Hist :=
  let c := match cx_state c with
           | Connected | AuthChallenging => c <| cx_last_disconnected_at := Some wall |>
           | _ => c
           end in
  push_event (EClosed None) (set_handshake_state Closing c).

Definition submit_auth_response (auth_data : bytes) (auth_method : option string) c : Conn Hist :=
  let c := encode_command (CAuthResponse (cfg_client_version (cx_config c)) auth_method auth_data
                             (cfg_protocol_version (cx_config c))) c in
  if decide (cx_state c = AuthChallenging) then set_handshake_state Connected c else c.

(** ** Requests, outcomes, wakers *)

Definition conn_register_waker (k : PendingOpKey) (w : waker) c : Conn Hist :=
  match cx_outcomes c !! k with
  | Some _ => wake w c
  | None =>
      let in_slot :=
        match k with
        | KSend h q =>
            match cx_producers c !! h with
            | Some s =>
                let '(taken, p) := register_waker q w (sl_producer s) in
                if taken then Some (c <| cx_producers ::= <[h := s <| sl_producer := p |>]> |>)
                else None
            | None => None
            end
        | KRequest _ => None
        end in
      match in_slot with
      | Some c => c
      | None => c <| cx_wakers ::= <[k := w]> |>
      end
  end.

Definition unregister_waker (k : PendingOpKey) c : Conn Hist :=
  let c := c <| cx_wakers ::= delete k |> in
  match k with
  | KSend h q => with_producer h (clear_waker q) c
  | KRequest _ => c
  end.

Definition cancel_request (rid : Z) c : Conn Hist :=
  let c := unregister_waker (KRequest rid) c in
  (c <| cx_outcomes ::= delete (KRequest rid) |>) <| cx_pending ::= delete rid |>.

Definition take_outcome (k : PendingOpKey) c : option OpOutcome * Conn Hist :=
  (cx_outcomes c !! k, c <| cx_outcomes ::= delete k |>).

(** A request whose reply is an outcome and nothing else: its id is allocated
    and it waits in the table. *)
Definition plain_request c : Z * Conn Hist :=
  let '(rid, c) := alloc_request_id c in (rid, c <| cx_pending ::= <[rid := PPlain]> |>).

(** ** The end of a send *)

Definition resolve_send_error (h q code : Z) (message : string) (w : option waker) c : Conn Hist :=
  let c := install (KSend h q) (OSendError q code message) c in
  let '(slab_waker, c) := remove_waker (KSend h q) c in
  let c := match w with Some w => wake w c | None => wake_opt slab_waker c end in
  push_event (ESendError h q code message) c.

(** One op of [terminalize_drained_sends], and of [terminalize_snapshot_bucket]:
    both drop the slab waker and wake the op's own, or else the slab's. *)
Definition terminalize (h : Z) (reason : string) c (op : OpSend) : Conn Hist :=
  let k := KSend h (op_sequence_id op) in
  let c := install k (OTerminal k reason) c in
  let '(slab_waker, c) := remove_waker k c in
  match op_waker op with Some w => wake w c | None => wake_opt slab_waker c end.

Definition terminalize_drained_sends (h : Z) (drained : list OpSend) (reason : string) c : Conn Hist :=
  foldl (terminalize h reason) c drained.

Definition terminalize_snapshot_bucket (h : Z) (reason : string) c : Conn Hist :=
  match cx_snapshots c !! h with
  | None => c
  | Some snapshots => foldl (terminalize h reason) (c <| cx_snapshots ::= delete h |>) snapshots
  end.

(** ** Producers: opening *)

Definition abandoned_open_key (req : CreateProducerRequest) : option (string * string) :=
  match cr_producer_name req with
  | Some name => if decide (name = EmptyString) then None else Some (cr_topic req, name)
  | None => None
  end.

Definition abandoned_open_key_of (h : Z) c : option (string * string) :=
  cx_create_requests c !! h ≫= abandoned_open_key.

Definition remember_abandoned_producer_open (h : Z) (key : string * string) c : Conn Hist :=
  let slot := Z.to_nat (cx_abandoned_next c mod Z.of_nat MAX_ABANDONED_PRODUCER_OPENS) in
  (c <| cx_abandoned_next ::= fun n => wrapping_add 64 n 1 |>)
    <| cx_abandoned ::= <[slot := Some (mkAbandoned key.1 key.2 h false 1)]> |>.

Definition names (key : string * string) (a : AbandonedProducerOpen) : bool :=
  bool_decide (ab_topic a = key.1) && bool_decide (ab_producer_name a = key.2).

Definition forget_abandoned_producer_opens (h : Z) c : Conn Hist :=
  match abandoned_open_key_of h c with
  | None => c
  | Some key =>
      c <| cx_abandoned ::= fmap (fun r =>
        match r with Some a => if names key a then None else Some a | None => None end) |>
  end.

(** [min_by_key] over the records already closed again under that name: the
    index of the first one with the least [next_epoch]. *)
Fixpoint least_tried (key : string * string) (i : nat) (l : list (option AbandonedProducerOpen))
    (best : option (nat * AbandonedProducerOpen)) : option (nat * AbandonedProducerOpen) :=
  match l with
  | [] => best
  | r :: l =>
      let best :=
        match r with
        | Some a =>
            if ab_reclosed a && names key a then
              match best with
              | Some (j, b) => if ab_next_epoch a <? ab_next_epoch b then Some (i, a) else best
              | None => Some (i, a)
              end
            else best
        | None => best
        end in
      least_tried key (S i) l best
  end.

Definition reattach_abandoned_producer_open (req : CreateProducerRequest) c
    : option (Z * Z) * Conn Hist :=
  if decide (cr_access_mode req = Shared) then
    match abandoned_open_key req with
    | None => (None, c)
    | Some key =>
        match least_tried key 0 (cx_abandoned c) None with
        | None => (None, c)
        | Some (i, a) =>
            (Some (ab_handle a, ab_next_epoch a),
             c <| cx_abandoned ::= <[i := Some (a <| ab_next_epoch ::=
                                            fun e => saturating_add u64_max e 1 |>)]> |>)
        end
    end
  else (None, c).

Definition emit_command_producer (h : Z) (req : CreateProducerRequest) c : Z * Conn Hist :=
  let '(rid, c) := alloc_request_id c in
  let epoch := default 0 (sl_epoch <$> cx_producers c !! h) in
  let cmd := mkCommandProducer (cr_topic req) h rid (cr_producer_name req)
    (cr_producer_metadata req) (cr_schema req) (if epoch =? 0 then None else Some epoch)
    (Some (bool_decide (is_Some (cr_producer_name req))))
    (Some (access_mode_code (cr_access_mode req))) in
  let c := encode_command (CProducer cmd) c in
  let c := c <| cx_pending ::= <[rid := PProducerOpen h (cx_last_activity c)]> |> in
  (rid, with_producer h (fun p => p <| open_request_id := Some rid |>) c).

Definition create_producer (req : CreateProducerRequest) c : Z * Conn Hist :=
  let '(reattach, c) := reattach_abandoned_producer_open req c in
  let '(h, reattach_epoch, c) :=
    match reattach with
    | Some (h, epoch) => (h, epoch, c)
    | None => (cx_next_producer_id c, 0,
               c <| cx_next_producer_id ::= fun n => wrapping_add 64 n 1 |>)
    end in
  let max_size := default (cfg_default_max_message_size (cx_config c)) (cx_broker_max_message_size c) in
  let p := ProducerState_new h (cr_topic req) (cr_compression req) max_size hist_new in
  let p := p <| batching_enabled := cr_enable_batching req |>
             <| chunking_enabled := cr_enable_chunking req |>
             <| max_batch_size_bytes := cr_max_batch_size_bytes req |>
             <| max_messages_in_batch := cr_max_messages_in_batch req |>
             <| name := cr_producer_name req |> in
  let p := match cr_initial_sequence_id req with
           | Some initial => set_initial_sequence_id initial p
           | None => p
           end in
  let p := p <| send_timeout := cr_send_timeout req |>
             <| batching_max_publish_delay := cr_batching_max_publish_delay req |> in
  let slot := mkPSlot p reattach_epoch None (cr_access_mode req) false in
  let c := log (LCreated h) (c <| cx_producers ::= <[h := slot]> |>) in
  let c := c <| cx_create_requests ::= <[h := req]> |> in
  (h, snd (emit_command_producer h req c)).

(** ** Producers: closing *)

Definition close_producer_inner (h : Z) (forget : bool) c : Z * Conn Hist :=
  let '(rid, c) := alloc_request_id c in
  let c := encode_command (CCloseProducer h rid) c in
  let c := with_slot h (fun s =>
    ((s <| sl_producer ::= close |>) <| sl_close_request := Some rid |>)
      <| sl_routing_ready := false |>) c in
  (rid, c <| cx_pending ::=
          <[rid := if forget then PProducerCloseForgotten h else PProducerClose h]> |>).

Definition close_producer (h : Z) c : Z * Conn Hist := close_producer_inner h false c.
Definition close_producer_forget (h : Z) c : Z * Conn Hist := close_producer_inner h true c.

(** The first record under each index is marked, its handle collected. *)
Definition mark_reclosed (key : string * string) (r : option AbandonedProducerOpen)
    : option AbandonedProducerOpen * option Z :=
  match r with
  | Some a =>
      if negb (ab_reclosed a) && names key a then (Some (a <| ab_reclosed := true |>), Some (ab_handle a))
      else (r, None)
  | None => (r, None)
  end.

Definition reclaim_busy_producer_name (h code : Z) c : bool * Conn Hist :=
  if negb (code =? SE_ProducerBusy) then (false, c)
  else
    match abandoned_open_key_of h c with
    | None => (false, c)
    | Some key =>
        let marked := mark_reclosed key <$> cx_abandoned c in
        let stale := omap snd marked in
        let c := c <| cx_abandoned := fst <$> marked |> in
        (negb (bool_decide (stale = [])),
         foldl (fun c a => snd (close_producer_forget a c)) c stale)
    end.

Definition fail_sends_of_closed_producer (h acked : Z) c : Conn Hist :=
  match cx_producers c !! h with
  | Some s =>
      if decide (sl_close_request s = Some acked) then
        let '(drained, p) := drain_pending_sends (sl_producer s) in
        let c := c <| cx_producers ::= <[h := s <| sl_producer := p |>]> |> in
        terminalize_snapshot_bucket h PRODUCER_CLOSED_REASON
          (terminalize_drained_sends h drained PRODUCER_CLOSED_REASON c)
      else c
  | None => c
  end.

Definition about_producer (h : Z) (r : DriverRetry) : bool := rt_handle r =? h.

(** The events the [retain] calls drop for a handle. *)
Definition ready_of (h : Z) (e : ConnectionEvent) : bool :=
  match e with EProducerReady h' _ _ _ => h' =? h | _ => false end.
Definition broker_close_of (h : Z) (e : ConnectionEvent) : bool :=
  match e with EProducerClosedByBroker h' _ => h' =? h | _ => false end.
Definition attachment_of (h : Z) (e : ConnectionEvent) : bool :=
  match e with
  | EProducerReady h' _ _ _ | EProducerClosedByBroker h' _ | EProducerOpenFailed h' _ _
  | EProducerOpenFailedTransient h' _ _ => h' =? h
  | _ => false
  end.

Definition fail_producer_open_with_broker_error (h code : Z) (reason : string) c : Conn Hist :=
  let c :=
    match cx_producers c !! h with
    | Some s =>
        let s := s <| sl_producer ::= close |> in
        let s := set_broker_ready false false s in
        let '(drained, p) := drain_pending_sends (sl_producer s) in
        let c := c <| cx_producers ::= <[h := s <| sl_producer := p |>]> |> in
        terminalize_drained_sends h drained reason c
    | None => c
    end in
  let c := terminalize_snapshot_bucket h reason c in
  let c := (c <| cx_producers ::= delete h |>) <| cx_create_requests ::= delete h |> in
  let c := c <| cx_events ::= filter (fun e => ready_of h e = false) |> in
  let c := push_event (EProducerOpenFailed h code reason) c in
  c <| cx_driver_retries ::= filter (fun r => about_producer h r = false) |>.

Definition fail_producer_open (h : Z) (reason : string) c : Conn Hist :=
  fail_producer_open_with_broker_error h SE_MetadataError reason c.

(** The pending opens of a handle. *)
Definition open_requests (h : Z) c : list Z :=
  omap (fun '(rid, k) =>
    match k with PProducerOpen h' _ => if h' =? h then Some rid else None | _ => None end)
    (map_to_list (cx_pending c)).

Definition cancel_producer_open (h : Z) c : Conn Hist :=
  let request_ids := open_requests h c in
  let broker_may_hold_registration :=
    match cx_producers c !! h with
    | Some s => negb (closed (sl_producer s))
                && (negb (bool_decide (request_ids = [])) || broker_ready (sl_producer s))
    | None => false
    end in
  let c :=
    if broker_may_hold_registration then
      let c := snd (close_producer_forget h c) in
      match abandoned_open_key_of h c with
      | Some key => remember_abandoned_producer_open h key c
      | None => c
      end
    else c in
  let c := foldl (fun c rid => cancel_request rid c) c request_ids in
  let c := (c <| cx_producers ::= delete h |>) <| cx_create_requests ::= delete h |> in
  let c := c <| cx_snapshots ::= delete h |> in
  let c := c <| cx_events ::= filter (fun e => attachment_of h e = false) |> in
  c <| cx_driver_retries ::= filter (fun r => about_producer h r = false) |>.

(** ** Producers: re-attaching *)

Definition bump_epoch s : PSlot Hist := s <| sl_epoch ::= fun e => saturating_add u64_max e 1 |>.

Definition retry_producer_open_inner (h : Z) c : option Z * Conn Hist :=
  match cx_create_requests c !! h, cx_producers c !! h with
  | Some req, Some s =>
      if closed (sl_producer s) then (None, c)
      else let '(rid, c) := emit_command_producer h req (with_slot h bump_epoch c) in (Some rid, c)
  | _, _ => (None, c)
  end.

Definition producer_open_retry_is_current (h failed_request_id : Z) c : bool :=
  bool_decide (is_Some (cx_create_requests c !! h))
  && match get_producer h c with
     | Some p => negb (closed p) && bool_decide (open_request_id p = Some failed_request_id)
     | None => false
     end.

Definition retry_producer_open (h : Z) c : option Z * Conn Hist := retry_producer_open_inner h c.

Definition retry_producer_open_if_current (h failed_request_id : Z) c : option Z * Conn Hist :=
  if producer_open_retry_is_current h failed_request_id c then retry_producer_open_inner h c
  else (None, c).

Definition producer_reattach_in_place_is_eligible (p : ProducerState Hist) : bool :=
  negb (closed p) && has_ever_attached p && bool_decide (open_request_id p = None).

Definition emit_in_place_producer_reattach (h : Z) c : option Z * Conn Hist :=
  match cx_create_requests c !! h, cx_producers c !! h with
  | Some _, Some s =>
      if producer_reattach_in_place_is_eligible (sl_producer s) then
        let c := with_slot h (set_broker_ready false false) c in
        let c := c <| cx_events ::= filter (fun e => broker_close_of h e = false) |> in
        retry_producer_open_inner h c
      else (None, c)
  | _, _ => (None, c)
  end.

(** [rebuild_producers]: every producer not closed is opened again; the
    snapshots of the others are dropped. *)
Definition rebuildable c : list (Z * CreateProducerRequest) :=
  filter (fun '(h, _) => closed <$> get_producer h c = Some false)
    (map_to_list (cx_create_requests c)).

Definition rebuild_one c (e : Z * CreateProducerRequest) : Conn Hist :=
  snd (emit_command_producer e.1 e.2 (with_slot e.1 bump_epoch c)).

Definition rebuild_producers c : Conn Hist :=
  let todo := rebuildable c in
  let live : gset Z := list_to_set todo.*1 in
  (foldl rebuild_one c todo)
    <| cx_snapshots ::= filter (fun '(h, _) => h ∈ live) |>.

(** ** The end of a session *)

(** One request of the table in [reset]. *)
Definition lose_request c (e : Z * PendingRequestKind) : Conn Hist :=
  let k := KRequest e.1 in
  match e.2 with
  | PProducerCloseForgotten _ => c <| cx_wakers ::= delete k |>
  | _ => wake_key k (install k (OSessionLost k) c)
  end.

(** A replayable send is woken without an outcome: its own waker, or else the
    slab's; the slab's is dropped either way. *)
Definition wake_replayed (h : Z) c (e : Z * option waker) : Conn Hist :=
  let '(slab_waker, c) := remove_waker (KSend h e.1) c in
  match e.2 with Some w => wake w c | None => wake_opt slab_waker c end.

Definition drop_batched (h : Z) c (op : OpSend) : Conn Hist :=
  resolve_send_error h (op_sequence_id op) BATCH_RESET_ERROR_CODE BATCH_RESET_ERROR_MESSAGE
    (op_waker op) c.

Definition reset_producer c (h : Z) : Conn Hist :=
  match cx_producers c !! h with
  | None => c
  | Some s =>
      let '(replay_wakers, dropped, snapshots, p) := snapshot_pending_sends (sl_producer s) in
      let c := c <| cx_producers ::=
                 <[h := (s <| sl_routing_ready := false |>) <| sl_producer := p |>]> |> in
      let c := foldl (wake_replayed h) c replay_wakers in
      let c := foldl (drop_batched h) c dropped in
      if decide (snapshots = []) then c
      else c <| cx_snapshots ::= <[h := default [] (cx_snapshots c !! h) ++ snapshots]> |>
  end.

(** The sweep of the wakers left in the slab. *)
Definition lose_waker c (e : PendingOpKey * waker) : Conn Hist :=
  let c := c <| cx_wakers ::= delete e.1 |> in
  wake e.2 (match e.1 with KSend _ _ => c | KRequest _ => install e.1 (OSessionLost e.1) c end).

Definition reset c : Conn Hist :=
  let c := c <| cx_session_epoch ::= fun e => wrapping_add 64 e 1 |> in
  let requests := map_to_list (cx_pending c) in
  let c := foldl lose_request (c <| cx_pending := ∅ |>) requests in
  let c := c <| cx_events := [] |> in
  let c := foldl reset_producer c (map_to_list (cx_producers c)).*1 in
  let c := foldl lose_waker c (map_to_list (cx_wakers c)) in
  let c := c <| cx_driver_retries := [] |> in
  let c := (c <| cx_abandoned := replicate MAX_ABANDONED_PRODUCER_OPENS None |>)
             <| cx_abandoned_next := 0 |> in
  let c := c <| cx_outbound := [] |> in
  let c := set_handshake_state Uninitialized c in
  let c := c <| cx_broker_max_message_size := None |> <| cx_broker_protocol_version := 0 |>
             <| cx_feature_flags := default_flags |> <| cx_handshake_failure_reason := None |> in
  log LReset ((c <| cx_last_activity := None |>) <| cx_ping_outstanding := false |>).

Definition fail_request (reason : string) c (e : Z * PendingRequestKind) : Conn Hist :=
  let k := KRequest e.1 in
  match e.2 with
  | PProducerCloseForgotten _ => c <| cx_wakers ::= delete k |>
  | _ => wake_key k (install k (OTerminal k reason) c)
  end.

Definition fail_producer (reason : string) c (h : Z) : Conn Hist :=
  match cx_producers c !! h with
  | None => c
  | Some s =>
      let '(drained, p) := drain_pending_sends (close (sl_producer s)) in
      let c := c <| cx_producers ::=
                 <[h := (s <| sl_routing_ready := false |>) <| sl_producer := p |>]> |> in
      terminalize_drained_sends h drained reason c
  end.

Definition fail_waker (reason : string) c (e : PendingOpKey * waker) : Conn Hist :=
  wake_key e.1 (install e.1 (OTerminal e.1 reason) c).

Definition fail_all_pending (reason : string) c : Conn Hist :=
  let c := c <| cx_terminal_admission_reason := Some reason |> in
  let requests := map_to_list (cx_pending c) in
  let c := foldl (fail_request reason) (c <| cx_pending := ∅ |>) requests in
  let c := foldl (fail_producer reason) c (map_to_list (cx_producers c)).*1 in
  let c := foldl (fun c h => terminalize_snapshot_bucket h reason c) c
             (map_to_list (cx_snapshots c)).*1 in
  let c := foldl (fail_waker reason) c (map_to_list (cx_wakers c)) in
  push_event (EClosed (Some reason)) (c <| cx_driver_retries := [] |>).

(** ** Staged frames *)

(** The frames of one slot, if the connection and the attachment allow it. *)
Definition drain_into (dst : list Sent -> Conn Hist -> Conn Hist) c (h : Z) : Conn Hist :=
  match cx_producers c !! h with
  | None => c
  | Some s =>
      let '(frames, p) := drain_slot (sl_producer s) in
      let sent := SFrame h <$> frames in
      let c := c <| cx_producers ::= <[h := s <| sl_producer := p |>]> |> in
      (dst sent c) <| cx_log ::= fun l => l ++ (LSent <$> sent) |>
  end.

Definition drain_all (dst : list Sent -> Conn Hist -> Conn Hist) c : Conn Hist :=
  if decide (cx_state c = Connected) then foldl (drain_into dst) c (map_to_list (cx_producers c)).*1
  else c.

Definition to_outbound (l : list Sent) c : Conn Hist := c <| cx_outbound ::= fun o => o ++ l |>.
Definition to_segments (l : list Sent) c : Conn Hist := c <| cx_segments ::= fun o => o ++ l |>.

Definition drain_producer_outbound c : Conn Hist := drain_all to_outbound c.
Definition drain_producer_outbound_vectored c : Conn Hist := drain_all to_segments c.

Definition poll_transmit c : list Sent * Conn Hist :=
  let c := drain_producer_outbound c in (cx_outbound c, c <| cx_outbound := [] |>).

Definition poll_transmit_owned c : list Sent * Conn Hist :=
  if decide (cx_outbound c = []) then
    let c := drain_producer_outbound_vectored c in
    if decide (cx_segments c = []) then poll_transmit c
    else (cx_segments c, c <| cx_segments := [] |>)
  else poll_transmit c.

(** ** Sends *)

Definition conn_send_reserved (uuid : string) (h : Z) (msg : OutgoingMessage)
    (reservation : MemoryReservation) (publish_time_ms now : Z) c
    : result ProtocolError Z * Conn Hist :=
  match cx_producers c !! h with
  | None => (Err (InvariantViolation "unknown producer handle"), c)
  | Some s =>
      let '(queued, _, p) :=
        slot_queue_send_reserved compress uuid msg reservation publish_time_ms now (sl_producer s) in
      let c := c <| cx_producers ::= <[h := s <| sl_producer := p |>]> |> in
      match queued with
      | None => (Err (InvariantViolation "producer rejected send"), c)
      | Some seq_id => (Ok seq_id, drain_producer_outbound c)
      end
  end.

(** [ProducerSlot::queue_send_reserved], called without the connection. *)
Definition slot_send (uuid : string) (h : Z) (msg : OutgoingMessage)
    (reservation : MemoryReservation) (publish_time_ms now : Z) c : option Z * Conn Hist :=
  match cx_producers c !! h with
  | None => (None, c)
  | Some s =>
      let '(queued, _, p) :=
        slot_queue_send_reserved compress uuid msg reservation publish_time_ms now (sl_producer s) in
      (queued, c <| cx_producers ::= <[h := s <| sl_producer := p |>]> |>)
  end.

Definition flush_producer (h publish_time_ms : Z) c : Z * Conn Hist :=
  match cx_producers c !! h with
  | None => (0, drain_producer_outbound c)
  | Some s =>
      let '(n, p) := flush_batch compress publish_time_ms (sl_producer s) in
      (n, drain_producer_outbound (c <| cx_producers ::= <[h := s <| sl_producer := p |>]> |>))
  end.
End Ops.
