(* ===== verification/ConnFrames.v ===== *)
(** * Frames received and timers of the connection

    The arms of [handle_frame] for the handshake, the keep-alive, the producers
    and the plain requests, the step the decode loop takes for one frame, the
    event queue, and the timers: [poll_timeout] and [handle_timeout] as far as
    they concern the keep-alive watchdog and the producers. *)

From S2P Require Import Prelude Time Ids MemoryLimit Backoff AntiThrash Producer ConnModel ConnOps.

Section Frames.
Context {Hist : Type}.
Variable hist_record : Hist -> Z -> Hist.
Variable compress : CompressionKind -> bytes -> option bytes.
Context `{!ProtoMessage SingleMessageMetadata}.
(** The [Debug] name of a generated [ServerError] code, [Unknown(n)] included. *)
Variable server_error_name : Z -> string.

Implicit Types c : Conn Hist.
Implicit Types s : PSlot Hist.

(** ** Handshake and keep-alive *)

Definition on_connected (wall : Z) (b : CommandConnected) c : Conn Hist :=
  let c := set_handshake_state Connected c in
  let c := c <| cx_last_connected_at := Some wall |> in
  let c := c <| cx_broker_max_message_size := as_unsigned 64 <$> cd_max_message_size b |>
             <| cx_broker_protocol_version := default 0 (cd_protocol_version b) |>
             <| cx_feature_flags := default default_flags (cd_feature_flags b) |> in
  push_event (EConnected (cx_broker_protocol_version c)
                (as_unsigned 32 (default 0 (cd_max_message_size b))) (cx_feature_flags c)) c.

Definition on_auth_challenge (challenge : option (option string * option bytes)) c : Conn Hist :=
  let c := set_handshake_state AuthChallenging c in
  push_event (EAuthChallenge (challenge ≫= fst) (challenge ≫= snd)) c.

(** ** Receipts *)

Definition settle_receipt (h : Z) c (r : OpSend * MessageId) : Conn Hist :=
  let q := op_sequence_id r.1 in
  let c := install (KSend h q) (OSendReceipt q r.2) c in
  let c := match op_waker r.1 with Some w => wake w c | None => wake_key (KSend h q) c end in
  push_observational_event (ESendReceipt h q r.2) c.

Definition on_receipt (now : Z) (receipt : CommandSendReceipt) c : Conn Hist :=
  let h := sr_producer_id receipt in
  match cx_producers c !! h with
  | None => c
  | Some s =>
      let '(resolved, p) := on_send_receipt hist_record receipt now (sl_producer s) in
      foldl (settle_receipt h) (c <| cx_producers ::= <[h := s <| sl_producer := p |>]> |>) resolved
  end.

Definition on_error_of_send (err : CommandSendError) c : Conn Hist :=
  let h := se_producer_id err in
  match cx_producers c !! h with
  | None => c
  | Some s =>
      let '(resolved, p) := on_send_error err (sl_producer s) in
      let c := c <| cx_producers ::= <[h := s <| sl_producer := p |>]> |> in
      match resolved with
      | None => c
      | Some (op, code, message) =>
          let q := op_sequence_id op in
          let c := install (KSend h q) (OSendError q code message) c in
          let c := match op_waker op with Some w => wake w c | None => wake_key (KSend h q) c end in
          push_observational_event (ESendError h q code message) c
      end
  end.

(** ** Attachment of producers *)

Definition record_reattach_outcome (now : Z) (h : ReAttachHandle) (kind : ReAttachOutcomeKind) c
    : Conn Hist :=
  let was := at_tick now (cx_anti_thrash c) in
  let c := c <| cx_anti_thrash ::= at_record now kind h |> in
  match was, at_tick now (cx_anti_thrash c) with
  | Normal, Cooldown until => push_event (EAntiThrashCooldown until) c
  | Cooldown _, Normal => push_event EAntiThrashCleared c
  | _, _ => c
  end.

(** [slot.state.lock().open_request_id == Some(request_id)] *)
Definition open_is_current (h rid : Z) c : bool :=
  bool_decide (get_producer h c ≫= open_request_id = Some rid).

Definition on_success_of_open (now : Z) (ok : CommandProducerSuccess) c : Conn Hist :=
  let rid := ps_request_id ok in
  match cx_pending c !! rid with
  | Some (PProducerOpen h _) =>
      let c := c <| cx_pending ::= delete rid |> in
      if negb (open_is_current h rid c) then c
      else
        let c := forget_abandoned_producer_opens h c in
        let snapshots := cx_snapshots c !! h in
        let c := c <| cx_snapshots ::= delete h |> in
        let c := with_slot h (fun s =>
          let p := on_producer_success (ps_producer_name ok) (ps_last_sequence_id ok) snapshots
                     (sl_producer s) in
          (s <| sl_producer := p |>)
            <| sl_routing_ready := is_connected c && negb (closed p) |>) c in
        let c := log (LAttached h rid) c in
        let c := push_event (EProducerReady h (ps_producer_name ok)
                   (default (-1) (ps_last_sequence_id ok)) (default [] (ps_schema_version ok))) c in
        record_reattach_outcome now (ReProducer h) ReAttachOk c
  | _ => c <| cx_pending ::= delete rid |>
  end.

(** The retry decision shared by the [Error] arm and the expiry of an open:
    the gate is shut, the failure counted. *)
Definition open_failed (h rid code : Z) (message : string) c : Conn Hist :=
  let attempts := match get_producer h c with
                  | Some p => saturating_add u32_max (transient_open_attempts p) 1
                  | None => u32_max
                  end in
  let c := with_slot h (fun s =>
    (set_broker_ready false false s)
      <| sl_producer ::= fun p => (p <| last_open_error := Some (code, message) |>)
                                    <| transient_open_attempts := attempts |> |>) c in
  if should_retry_after_failure (cx_operation_retry c) attempts then
    let c := c <| cx_driver_retries ::= fun l => l ++ [mkRetry h rid code message] |> in
    push_event (EProducerOpenFailedTransient h code message) c
  else fail_producer_open_with_broker_error h code message c.

Definition on_error_of_open (h rid code : Z) (message : string) c : Conn Hist :=
  if negb (open_is_current h rid c) then c
  else
    let retryable := is_retryable_broker_error OpProducerOpen code in
    let c := snd (reclaim_busy_producer_name h code c) in
    let established := default false (has_ever_attached <$> get_producer h c) in
    if retryable && established then open_failed h rid code message c
    else if established then fail_producer_open_with_broker_error h code message c
    else
      push_event (EProducerOpenFailed h code message)
        ((c <| cx_producers ::= delete h |>) <| cx_create_requests ::= delete h |>).

Definition on_success (rid : Z) c : Conn Hist :=
  let kind := cx_pending c !! rid in
  let c := c <| cx_pending ::= delete rid |> in
  let c := match kind with
           | None | Some (PProducerCloseForgotten _) => c
           | Some _ => wake_for_request rid (install (KRequest rid) (OSuccess rid) c)
           end in
  match kind with
  | Some (PProducerClose h) | Some (PProducerCloseForgotten h) => fail_sends_of_closed_producer h rid c
  | _ => c
  end.

Definition handshake_reason (e : CommandError) (truncated : string) : string :=
  ("broker rejected handshake (server_error=" ++ server_error_name (er_error e) ++ "): "
     ++ truncated)%string.

(** [truncated] is [truncate_broker_str(&err.message)]. *)
Definition on_error (truncated : string) (e : CommandError) c : Conn Hist :=
  let c := match cx_state c with
           | ConnectSent | AuthChallenging =>
               c <| cx_handshake_failure_reason := Some (handshake_reason e truncated) |>
           | _ => c
           end in
  let rid := er_request_id e in
  let kind := cx_pending c !! rid in
  let c := c <| cx_pending ::= delete rid |> in
  match kind with
  | None | Some (PProducerCloseForgotten _) => c
  | Some (PProducerOpen h _) => on_error_of_open h rid (er_error e) (er_message e) c
  | Some _ => wake_for_request rid (install (KRequest rid) (OError rid (er_error e) (er_message e)) c)
  end.

Definition on_close_producer (h : Z) (url : option string) c : Conn Hist :=
  let '(reattached, c) := emit_in_place_producer_reattach h c in
  match reattached with
  | Some _ => c
  | None =>
      let open_in_flight := bool_decide (is_Some (get_producer h c ≫= open_request_id)) in
      let c := with_slot h (set_broker_ready false false) c in
      if open_in_flight then push_event (EProducerClosedByBroker h url) c else c
  end.

(** ** Dispatch *)

(** [log_fields::truncate_broker_str], on the bytes of the text: a byte
    [10xxxxxx] continues a character. *)
Definition MAX_BROKER_STR : nat := 256.

Definition continues (b : Ascii.ascii) : bool :=
  (128 <=? Z.of_nat (Ascii.nat_of_ascii b)) && (Z.of_nat (Ascii.nat_of_ascii b) <? 192).

Definition is_char_boundary (m : string) (i : nat) : bool :=
  match String.get i m with Some b => negb (continues b) | None => true end.

Fixpoint boundary_before (m : string) (i : nat) : nat :=
  if is_char_boundary m i then i else match i with O => O | S i => boundary_before m i end.

Definition truncate_broker_str (m : string) : string :=
  if decide (String.length m <= MAX_BROKER_STR)%nat then m
  else String.substring 0 (boundary_before m MAX_BROKER_STR) m.

Definition handle_frame (wall now : Z) (r : Received) c : result ProtocolError (Conn Hist) :=
  match r with
  | RConnected b => b ← ok_or b (Handshake "missing CommandConnected"); Ok (on_connected wall b c)
  | RPing => Ok (encode_command CPong c)
  | RPong => Ok c
  | RAuthChallenge b =>
      b ← ok_or b (Handshake "missing CommandAuthChallenge"); Ok (on_auth_challenge b c)
  | RSendReceipt b =>
      b ← ok_or b (InvariantViolation "missing CommandSendReceipt body"); Ok (on_receipt now b c)
  | RSendError b =>
      b ← ok_or b (InvariantViolation "missing CommandSendError"); Ok (on_error_of_send b c)
  | RProducerSuccess b =>
      b ← ok_or b (InvariantViolation "missing CommandProducerSuccess");
      Ok (on_success_of_open now b c)
  | RSuccess b => b ← ok_or b (InvariantViolation "missing CommandSuccess"); Ok (on_success b c)
  | RError b =>
      b ← ok_or b (InvariantViolation "missing CommandError");
      Ok (on_error (truncate_broker_str (er_message b)) b c)
  | RCloseProducer b =>
      b ← ok_or b (InvariantViolation "missing CommandCloseProducer");
      Ok (on_close_producer b.1 b.2 c)
  end.

(** What the decode loop does with one carved frame: the watchdog sees
    progress, then the frame is handled, or dropped for its checksum (computed,
    expected). *)
Definition frame_progress (now : Z) c : Conn Hist :=
  (c <| cx_last_activity := Some now |>) <| cx_ping_outstanding := false |>.

Definition on_frame (wall now : Z) (r : Received + Z * Z) c : option ProtocolError * Conn Hist :=
  let c := frame_progress now c in
  match r with
  | inr (computed, expected) => (None, push_event (EChecksumMismatch computed expected) c)
  | inl r =>
      let c := log (LReceived r) c in
      match handle_frame wall now r c with Ok c => (None, c) | Err e => (Some e, c) end
  end.

(** ** The event queue *)

Definition driver_retry_matches_event (r : DriverRetry) (e : ConnectionEvent) : bool :=
  match e with
  | EProducerOpenFailedTransient h code message =>
      (h =? rt_handle r) && (code =? rt_code r) && bool_decide (message = rt_message r)
  | _ => false
  end.

(** [position(..)] followed by [remove(index)] *)
Fixpoint remove_first {A} (f : A -> bool) (l : list A) : list A :=
  match l with
  | [] => []
  | x :: l => if f x then l else x :: remove_first f l
  end.

Definition remove_driver_retry_for_event (e : ConnectionEvent) c : Conn Hist :=
  c <| cx_driver_retries ::= remove_first (fun r => driver_retry_matches_event r e) |>.

Definition poll_event c : option ConnectionEvent * Conn Hist :=
  match cx_events c with
  | [] => (None, c)
  | e :: rest => (Some e, remove_driver_retry_for_event e (c <| cx_events := rest |>))
  end.

Definition poll_event_if (predicate : ConnectionEvent -> bool) c
    : option ConnectionEvent * Conn Hist :=
  match list_find (fun e => predicate e = true) (cx_events c) with
  | None => (None, c)
  | Some (_, e) =>
      (Some e, remove_driver_retry_for_event e (c <| cx_events ::= remove_first predicate |>))
  end.

Definition poll_driver_retry c : option DriverRetry * Conn Hist :=
  match cx_driver_retries c with
  | [] => (None, c)
  | r :: rest =>
      (Some r, (c <| cx_driver_retries := rest |>)
                 <| cx_events ::= remove_first (driver_retry_matches_event r) |>)
  end.

(** ** Timers *)

Definition keepalive_deadline c : option Z :=
  (fun t => deadline_with_clamp t (cfg_keepalive_interval (cx_config c))) <$> cx_last_activity c.

Definition pending_producer_open_deadline c (k : PendingRequestKind) : option (Z * Z) :=
  match k with
  | PProducerOpen h (Some enqueued_at) =>
      if default false (has_ever_attached <$> get_producer h c)
      then Some (h, deadline_with_clamp enqueued_at (cfg_operation_timeout (cx_config c)))
      else None
  | _ => None
  end.

Definition snapshot_deadline c (e : Z * list OpSend) : option Z :=
  front ← head e.2;
  p ← get_producer e.1 c;
  timeout ← send_timeout p;
  Some (deadline_with_clamp (op_enqueued_at front) timeout).

Definition slot_deadlines c : list Z :=
  map_to_list (cx_producers c) ≫= fun e =>
    option_list (next_send_deadline (sl_producer e.2)) ++ option_list (next_batch_deadline (sl_producer e.2)).

Definition open_deadlines c : list Z :=
  omap (fun e => snd <$> pending_producer_open_deadline c e.2) (map_to_list (cx_pending c)).

(** The earliest of the deadlines that [poll_timeout] considers for the
    keep-alive and the producers: the sends, the batches, the sends parked by a
    reset and the opens.  It is the whole of [poll_timeout] on a connection with
    no consumer (so with no acknowledgement pending) and no [stats_interval]; the
    deadlines of consumers, acknowledgements and statistics are left out. *)
Definition producer_poll_timeout c : option Z :=
  foldl (fun next d => Some (match next with Some n => Z.min n d | None => d end)) (keepalive_deadline c)
    (slot_deadlines c ++ omap (snapshot_deadline c) (map_to_list (cx_snapshots c)) ++ open_deadlines c).

Definition keepalive_tick (wall now : Z) c : Conn Hist :=
  let due := match keepalive_deadline c with Some d => d <=? now | None => false end in
  if due && is_connected c then
    if cx_ping_outstanding c then mark_disconnected wall c
    else
      ((encode_command CPing c) <| cx_ping_outstanding := true |>) <| cx_last_activity := Some now |>
  else c.

Definition flush_due (wall now : Z) s : PSlot Hist :=
  if batch_deadline_elapsed now (sl_producer s)
  then s <| sl_producer ::= fun p => snd (flush_batch compress (wall_ms wall) p) |> else s.

Definition time_out (h : Z) c (op : OpSend) : Conn Hist :=
  resolve_send_error h (op_sequence_id op) SEND_TIMEOUT_CODE SEND_TIMEOUT_MESSAGE (op_waker op) c.

(** The first loop sweeps every slot, the second resolves what it removed. *)
Definition sweep_sends (now : Z) c : Conn Hist :=
  let expired := (fun e => (e.1, fst (sweep_timeouts now (sl_producer e.2))))
                   <$> map_to_list (cx_producers c) in
  let c := c <| cx_producers ::=
             fmap (fun s => s <| sl_producer ::= fun p => snd (sweep_timeouts now p) |>) |> in
  foldl (fun c e => foldl (time_out e.1) c e.2) c expired.

(** The two phases of the sweep of one bucket of snapshots. *)
Definition sweep_bucket (now : Z) c (h : Z) : Conn Hist :=
  match cx_snapshots c !! h, cx_producers c !! h with
  | Some bucket, Some s =>
      let '(out, rest, p) := sweep_snapshots now bucket (sl_producer s) in
      let c := (c <| cx_snapshots ::= <[h := rest]> |>)
                 <| cx_producers ::= <[h := s <| sl_producer := p |>]> |> in
      foldl (time_out h) c out
  | _, _ => c
  end.

Definition sweep_all_snapshots (now : Z) c : Conn Hist :=
  let c := foldl (sweep_bucket now) c (map_to_list (cx_snapshots c)).*1 in
  c <| cx_snapshots ::= filter (fun '(_, v) => v <> []) |>.

Definition expire_pending_producer_open (rid h : Z) c : Conn Hist :=
  open_failed h rid PRODUCER_OPEN_TIMEOUT_CODE PRODUCER_OPEN_TIMEOUT_MESSAGE
    (c <| cx_pending ::= delete rid |>).

Definition expired_opens (now : Z) c : list (Z * Z) :=
  omap (fun e => match pending_producer_open_deadline c e.2 with
                 | Some (h, d) => if d <=? now then Some (e.1, h) else None
                 | None => None
                 end) (map_to_list (cx_pending c)).

Definition expire_opens (now : Z) c : Conn Hist :=
  foldl (fun c e => expire_pending_producer_open e.1 e.2 c) c (expired_opens now c).

(** The tick, less what it does for consumers, acknowledgements and
    statistics. *)
Definition handle_timeout (wall now : Z) c : Conn Hist :=
  let c := keepalive_tick wall now c in
  let c := c <| cx_producers ::= fmap (flush_due wall now) |> in
  let c := drain_producer_outbound c in
  let c := sweep_sends now c in
  let c := sweep_all_snapshots now c in
  expire_opens now c.
End Frames.
