(* ===== verification/ConnSpec.v ===== *)
(** * Executions of the connection

    The calls an engine makes on a connection, in any order, and what the
    bookkeeping of outcomes, wakers and events leaves alone. *)

From S2P Require Import Prelude Time Ids MemoryLimit Backoff AntiThrash Producer ProducerSpec ConnModel ConnOps ConnFrames.

(** [destruct_update] exposes the record an update leaves. *)
Ltac conn_simpl := cbn [cx_config cx_operation_retry cx_terminal_admission_reason cx_state
  cx_broker_max_message_size cx_broker_protocol_version cx_feature_flags
  cx_handshake_failure_reason cx_outbound cx_segments cx_events cx_dropped_events
  cx_driver_retries cx_outcomes cx_wakers cx_pending cx_producers cx_create_requests cx_abandoned
  cx_abandoned_next cx_snapshots cx_next_request_id cx_next_producer_id cx_last_activity
  cx_ping_outstanding cx_last_connected_at cx_last_disconnected_at cx_session_epoch
  cx_anti_thrash cx_woken cx_log update sl_producer sl_epoch sl_close_request sl_access_mode
  sl_routing_ready fst snd] in *.

Section Spec.
Context {Hist : Type}.
Variable hist_record : Hist -> Z -> Hist.
Variable hist_new : option Hist.
Variable compress : CompressionKind -> bytes -> option bytes.
Context `{!ProtoMessage SingleMessageMetadata}.
Variable server_error_name : Z -> string.

Implicit Types c : Conn Hist.

(** ** Calls *)

Inductive ConnCall :=
| CallBegin
| CallFrame (wall now : Z) (r : Received + Z * Z)
| CallAuthResponse (data : bytes) (method : option string)
| CallClose (wall : Z)
| CallDisconnect (wall : Z)
| CallReset
| CallFailAll (reason : string)
| CallCreate (req : CreateProducerRequest)
| CallCloseProducer (h : Z) (forget : bool)
| CallCancelOpen (h : Z)
| CallFailOpen (h code : Z) (reason : string)
| CallRetry (h : Z)
| CallRetryIfCurrent (h failed_request_id : Z)
| CallRebuild
| CallSend (uuid : string) (h : Z) (msg : OutgoingMessage) (res : MemoryReservation) (pt now : Z)
| CallSlotSend (uuid : string) (h : Z) (msg : OutgoingMessage) (res : MemoryReservation) (pt now : Z)
| CallFlush (h pt : Z)
| CallRegisterWaker (k : PendingOpKey) (w : waker)
| CallUnregisterWaker (k : PendingOpKey)
| CallPlainRequest
| CallCancelRequest (rid : Z)
| CallTakeOutcome (k : PendingOpKey)
| CallTransmit
| CallTransmitOwned
| CallPollEvent
| CallPollEventIf (predicate : ConnectionEvent -> bool)
| CallPollRetry
| CallTick (wall now : Z).

Definition exec_op (o : ConnCall) c : Conn Hist :=
  match o with
  | CallBegin => match begin_handshake c with Ok c => c | Err _ => c end
  | CallFrame wall now r => snd (on_frame hist_record server_error_name wall now r c)
  | CallAuthResponse data method => submit_auth_response data method c
  | CallClose wall => conn_close wall c
  | CallDisconnect wall => mark_disconnected wall c
  | CallReset => reset c
  | CallFailAll reason => fail_all_pending reason c
  | CallCreate req => snd (create_producer hist_new req c)
  | CallCloseProducer h forget => snd (close_producer_inner h forget c)
  | CallCancelOpen h => cancel_producer_open h c
  | CallFailOpen h code reason => fail_producer_open_with_broker_error h code reason c
  | CallRetry h => snd (retry_producer_open h c)
  | CallRetryIfCurrent h rid => snd (retry_producer_open_if_current h rid c)
  | CallRebuild => rebuild_producers c
  | CallSend uuid h msg res pt now => snd (conn_send_reserved compress uuid h msg res pt now c)
  | CallSlotSend uuid h msg res pt now => snd (slot_send compress uuid h msg res pt now c)
  | CallFlush h pt => snd (flush_producer compress h pt c)
  | CallRegisterWaker k w => conn_register_waker k w c
  | CallUnregisterWaker k => unregister_waker k c
  | CallPlainRequest => snd (plain_request c)
  | CallCancelRequest rid => cancel_request rid c
  | CallTakeOutcome k => snd (take_outcome k c)
  | CallTransmit => snd (poll_transmit c)
  | CallTransmitOwned => snd (poll_transmit_owned c)
  | CallPollEvent => snd (poll_event c)
  | CallPollEventIf predicate => snd (poll_event_if predicate c)
  | CallPollRetry => snd (poll_driver_retry c)
  | CallTick wall now => handle_timeout compress wall now c
  end.

(** Ids do not wrap: [2^64] producers or sends are out of reach.  An initial
    sequence id is a [u64]. *)
Definition op_enabled (o : ConnCall) c : Prop :=
  match o with
  | CallCreate req =>
      cx_next_producer_id c < u64_max
      /\ from_option (fun q => 0 <= q <= u64_max) True (cr_initial_sequence_id req)
  | CallSend _ h _ _ _ _ | CallSlotSend _ h _ _ _ _ =>
      forall p, get_producer h c = Some p -> next_sequence_id p < u64_max
  | _ => True
  end.

Inductive conn_reachable (config : ConnectionConfig) : Conn Hist -> Prop :=
| conn_fresh : conn_reachable config (Conn_new config)
| conn_step c o : conn_reachable config c -> op_enabled o c -> conn_reachable config (exec_op o c).

(** The gate of the producer is shut: the broker has not acknowledged it. *)
Definition gated c (h : Z) : Prop :=
  forall s, cx_producers c !! h = Some s -> broker_ready (sl_producer s) = false.

(** What the two calls that re-open producers leave to their caller:
    [retry_producer_open] says that its caller coordinates the opens, and
    [rebuild_producers] runs only after a reset and a new handshake.  The calls
    of the engines' retry legs, [retry_producer_open_if_current], check for
    themselves. *)
Definition disciplined (o : ConnCall) c : Prop :=
  match o with
  | CallRetry h => gated c h
  | CallRebuild => forall h, gated c h
  | _ => True
  end.

(** The executions of an engine that keeps to this. *)
Inductive conn_driven (config : ConnectionConfig) : Conn Hist -> Prop :=
| driven_fresh : conn_driven config (Conn_new config)
| driven_step c o : conn_driven config c -> op_enabled o c -> disciplined o c -> conn_driven config (exec_op o c).

Lemma driven_reachable config c : conn_driven config c -> conn_reachable config c.
Proof. induction 1; by constructor. Qed.

(** ** What bookkeeping leaves alone *)

(** [c'] differs from [c] at most in outcomes, wakers, events, buffers, the
    failure reason and the anti-thrash detector. *)
Record same_core c c' : Prop := mkSameCore {
  sc_config : cx_config c' = cx_config c;
  sc_retry : cx_operation_retry c' = cx_operation_retry c;
  sc_state : cx_state c' = cx_state c;
  sc_retries : cx_driver_retries c' = cx_driver_retries c;
  sc_pending : cx_pending c' = cx_pending c;
  sc_producers : cx_producers c' = cx_producers c;
  sc_create : cx_create_requests c' = cx_create_requests c;
  sc_abandoned : cx_abandoned c' = cx_abandoned c;
  sc_snapshots : cx_snapshots c' = cx_snapshots c;
  sc_next_rid : cx_next_request_id c' = cx_next_request_id c;
  sc_next_pid : cx_next_producer_id c' = cx_next_producer_id c;
  sc_activity : cx_last_activity c' = cx_last_activity c;
  sc_ping : cx_ping_outstanding c' = cx_ping_outstanding c;
  sc_log : cx_log c' = cx_log c;
}.

#[global] Instance same_core_preorder : PreOrder same_core.
Proof. split; [by split|]. intros a b c [] []. split; congruence. Qed.

Lemma same_core_foldl {A} (f : Conn Hist -> A -> Conn Hist) l c :
  (forall c x, same_core c (f c x)) -> same_core c (foldl f c l).
Proof. intros Hf. revert c. induction l as [|x l IH]; intros c; simpl; [done|]. etrans; [apply Hf|apply IH]. Qed.

Lemma wake_opt_core w c : same_core c (wake_opt w c).
Proof. by destruct w. Qed.

Lemma wake_key_core k c : same_core c (wake_key k c).
Proof. unfold wake_key, remove_waker. etrans; [|apply wake_opt_core]. by split. Qed.

Lemma install_core k o c : same_core c (install k o c).
Proof. by split. Qed.

Lemma push_event_core e c : same_core c (push_event e c).
Proof. by split. Qed.

Lemma push_observational_core e c : same_core c (push_observational_event e c).
Proof. unfold push_observational_event. case_decide; by split. Qed.

Lemma resolve_send_error_core h q code m w c : same_core c (resolve_send_error h q code m w c).
Proof.
  unfold resolve_send_error, remove_waker. etrans; [|apply push_event_core].
  destruct w; [by split|]. etrans; [|apply wake_opt_core]. by split.
Qed.

Lemma terminalize_core h reason c op : same_core c (terminalize h reason c op).
Proof.
  unfold terminalize, remove_waker. destruct (op_waker op); [by split|].
  etrans; [|apply wake_opt_core]. by split.
Qed.

Lemma terminalize_drained_core h l reason c : same_core c (terminalize_drained_sends h l reason c).
Proof. apply same_core_foldl, terminalize_core. Qed.

Lemma settle_receipt_core h c r : same_core c (settle_receipt h c r).
Proof.
  unfold settle_receipt. etrans; [|apply push_observational_core].
  destruct (op_waker r.1); [by split|]. etrans; [|apply wake_key_core]. by split.
Qed.

Lemma wake_replayed_core h c e : same_core c (wake_replayed h c e).
Proof.
  unfold wake_replayed, remove_waker. destruct e.2; [by split|].
  etrans; [|apply wake_opt_core]. by split.
Qed.

Lemma lose_waker_core c e : same_core c (lose_waker c e).
Proof. unfold lose_waker. destruct e as [[] ?]; by split. Qed.

Lemma fail_waker_core reason c e : same_core c (fail_waker reason c e).
Proof. unfold fail_waker. etrans; [|apply wake_key_core]. by split. Qed.

Lemma lose_request_core c e : same_core c (lose_request c e).
Proof. unfold lose_request. destruct e.2; try (etrans; [|apply wake_key_core]); by split. Qed.

Lemma fail_request_core reason c e : same_core c (fail_request reason c e).
Proof. unfold fail_request. destruct e.2; try (etrans; [|apply wake_key_core]); by split. Qed.

Lemma record_reattach_core now h k c : same_core c (record_reattach_outcome now h k c).
Proof. unfold record_reattach_outcome. repeat case_match; by split. Qed.

Lemma terminalize_bucket_core h reason c :
  same_core (c <| cx_snapshots ::= delete h |>) (terminalize_snapshot_bucket h reason c).
Proof.
  unfold terminalize_snapshot_bucket. destruct (cx_snapshots c !! h) eqn:E.
  - apply same_core_foldl, terminalize_core.
  - split; try done. conn_simpl. by rewrite delete_id.
Qed.
End Spec.

#[export] Hint Resolve same_core_foldl wake_opt_core wake_key_core install_core push_event_core
  push_observational_core resolve_send_error_core terminalize_core terminalize_drained_core
  settle_receipt_core wake_replayed_core lose_waker_core fail_waker_core lose_request_core
  fail_request_core record_reattach_core : core_frame.
