(* ===== verification/ConnOrder.v ===== *)
(** * Order and attachment on the connection

    Whatever calls an engine makes, every producer of the connection keeps the
    order invariant of [ProducerSpec] with the frames the connection really put
    on the wire, and no frame of a producer is put there unless the broker has
    acknowledged its attachment on the current session. *)

From S2P Require Import Prelude Time Ids MemoryLimit Backoff AntiThrash Producer ProducerSpec ConnModel ConnOps ConnFrames ConnSpec.

(** ** What the queue operations of a producer leave alone *)

Section Attachment.
Context {Hist : Type}.
Variable hist_record : Hist -> Z -> Hist.
Variable compress : CompressionKind -> bytes -> option bytes.
Context `{!ProtoMessage SingleMessageMetadata}.
Implicit Types p : ProducerState Hist.

Record same_attachment p p' : Prop := mkSameAttachment {
  sa_ready : broker_ready p' = broker_ready p;
  sa_open : open_request_id p' = open_request_id p;
  sa_closed : closed p' = closed p;
  sa_ever : has_ever_attached p' = has_ever_attached p;
}.

#[global] Instance same_attachment_preorder : PreOrder same_attachment.
Proof. split; [by split|]. intros a b c [] []. split; congruence. Qed.

Lemma flush_batch_attachment pt p : same_attachment p (snd (flush_batch compress pt p)).
Proof. unfold flush_batch. by case_match. Qed.

Lemma flushes_attachment pt p p' : flushes compress pt p p' -> same_attachment p p'.
Proof. induction 1 as [|? ? ? -> ? IH]; [done|]. etrans; [apply flush_batch_attachment|done]. Qed.

Lemma push_chunks_attachment fs p : same_attachment p (foldl push_chunk p fs).
Proof. revert p. induction fs as [|f fs IH]; intros p; simpl; [done|]. etrans; [|apply IH]. by split. Qed.

Lemma queue_send_attachment uuid msg res pt now p r res' p' :
  queue_send_reserved compress uuid msg res pt now p = (r, res', p') -> same_attachment p p'.
Proof.
  intros Hq. apply queue_send_shape in Hq.
  destruct Hq as [e p' Hf|p1 p2 Hf ? ->|p1 msg' Hf ? Hb|p1 msg' Hf ? Hb];
    apply flushes_attachment in Hf; (etrans; [exact Hf|]); try done.
  - unfold flush_batch_if_full. repeat case_match; try (etrans; [|apply flush_batch_attachment]); by split.
  - unfold emit_chunked. cbv zeta. simpl snd.
    match goal with |- context [foldl push_chunk ?q ?fs] =>
      pose proof (push_chunks_attachment fs q) as [] end. by split.
Qed.

Lemma slot_send_attachment uuid msg res pt now p :
  same_attachment p (snd (slot_queue_send_reserved compress uuid msg res pt now p)).
Proof.
  unfold slot_queue_send_reserved. destruct (queue_send_reserved _ _ _ _ _ _ _) as [[r res'] p'] eqn:Hq.
  by apply queue_send_attachment in Hq.
Qed.

Lemma receipt_attachment r now p : same_attachment p (snd (on_send_receipt hist_record r now p)).
Proof.
  unfold on_send_receipt. cbv zeta.
  assert (Hl : forall qs q, same_attachment q (snd (receipt_loop hist_record r now qs q))).
  { induction qs as [|x qs IH]; intros q; simpl; [done|].
    match goal with |- context [apply_receipt hist_record ?sy now q] =>
      assert (Ha : same_attachment q (snd (apply_receipt hist_record sy now q)))
        by (unfold apply_receipt; repeat case_match; by split);
      destruct (apply_receipt hist_record sy now q) as [y q1] end.
    specialize (IH q1). destruct (receipt_loop hist_record r now qs q1). by etrans. }
  match goal with |- context [receipt_loop hist_record r now ?qs p] =>
    specialize (Hl qs p); destruct (receipt_loop hist_record r now qs p) as [y q] end.
  simpl in *. case_match; [|done]. etrans; [exact Hl|by split].
Qed.

Lemma send_error_attachment e p : same_attachment p (snd (on_send_error e p)).
Proof. unfold on_send_error, apply_send_error. repeat case_match; simplify_eq; by split. Qed.

Lemma set_waker_attachment q w p : same_attachment p (snd (set_waker q w p)).
Proof. unfold set_waker. repeat case_match; by split. Qed.

Lemma flush_batch_ok pt p :
  (batch_is_empty (batch p) = true -> first_added_at (batch p) = None) ->
  batch_is_empty (batch (snd (flush_batch compress pt p))) = true ->
  first_added_at (batch (snd (flush_batch compress pt p))) = None.
Proof. unfold flush_batch. case_match; [done|]. done. Qed.

Lemma queue_send_batch_ok uuid msg res pt now p r res' p' :
  queue_send_reserved compress uuid msg res pt now p = (r, res', p') ->
  (batch_is_empty (batch p) = true -> first_added_at (batch p) = None) ->
  batch_is_empty (batch p') = true -> first_added_at (batch p') = None.
Proof.
  intros Hq Hb. apply queue_send_shape in Hq.
  assert (Hfl : forall a b : ProducerState Hist, flushes compress pt a b ->
    (batch_is_empty (batch a) = true -> first_added_at (batch a) = None) ->
    (batch_is_empty (batch b) = true -> first_added_at (batch b) = None)).
  { induction 1 as [|? ? ? -> ? IH]; [done|]. intros Ha. by apply IH, flush_batch_ok. }
  destruct Hq as [e p' Hf|p1 p2 Hf ? ->|p1 msg' Hf ? Hbe|p1 msg' Hf ? Hbe]; specialize (Hfl _ _ Hf Hb).
  - done.
  - assert (Hne : batch_is_empty (batch (snd (add_to_batch msg res now p1))) = false)
      by (simpl; unfold batch_is_empty; simpl; by destruct (messages (batch p1))).
    revert Hne. generalize (snd (add_to_batch msg res now p1)). intros q Hne.
    unfold flush_batch_if_full. rewrite Hne. cbv zeta. destruct (_ || _).
    + apply flush_batch_ok. by rewrite Hne.
    + by rewrite Hne.
  - unfold emit_chunked. cbv zeta. simpl snd.
    match goal with |- context [foldl push_chunk ?q ?fs] =>
      destruct (push_chunks_fields fs q) as (_ & _ & _ & Hba & _) end.
    simpl in *. by rewrite Hba.
  - done.
Qed.

Lemma sweep_attachment now p : same_attachment p (snd (sweep_timeouts now p)).
Proof. unfold sweep_timeouts, drain_timed_out_sends. repeat case_match; simplify_eq; by split. Qed.

Lemma remove_elapsed_attachment qs bucket p : same_attachment p (snd (remove_elapsed qs bucket p)).
Proof.
  revert bucket p. induction qs as [|q qs IH]; intros bucket p; simpl; [done|].
  destruct bucket as [|op rest]; [apply IH|]. case_match; [|apply IH].
  match goal with |- context [remove_elapsed qs rest ?p1] =>
    specialize (IH rest p1); destruct (remove_elapsed qs rest p1) as [[??]?] end.
  etrans; [|exact IH]. by split.
Qed.

Lemma sweep_snapshots_attachment now bucket p :
  same_attachment p (snd (sweep_snapshots now bucket p)).
Proof. unfold sweep_snapshots. case_match; [apply remove_elapsed_attachment|done]. Qed.
End Attachment.

(** ** The history read as a specification *)

(** The frames of a producer put on the wire since its last attachment. *)
Definition sent_step (h : Z) (acc : list OutboundFrame) (i : LogItem) : list OutboundFrame :=
  match i with
  | LSent (SFrame h' f) => if h' =? h then acc ++ [f] else acc
  | LCreated h' | LAttached h' _ => if h' =? h then [] else acc
  | _ => acc
  end.

Definition sent_since (h : Z) (l : list LogItem) : list OutboundFrame := foldl (sent_step h) [] l.

(** What a broker that answers the commands in order has told the client about
    a producer id on this session: the last open sent for it, and, when [strict],
    whether the broker has acknowledged that very open and has not closed the
    producer since.  Otherwise the acknowledgement of an earlier open of the
    session is enough. *)
Definition attach_step (strict : bool) (h : Z) (a : option Z * bool) (i : LogItem) : option Z * bool :=
  match i with
  | LSent (SCommand (CProducer cp)) =>
      if cp_producer_id cp =? h then (Some (cp_request_id cp), negb strict && a.2) else a
  | LReceived (RProducerSuccess (Some ok)) =>
      if decide (a.1 = Some (ps_request_id ok)) then (a.1, true) else a
  | LReceived (RCloseProducer (Some (h', _))) => if h' =? h then (a.1, false) else a
  | LCreated h' => if h' =? h then (None, false) else a
  | LReset => (None, false)
  | _ => a
  end.

Definition attachment (strict : bool) (h : Z) (l : list LogItem) : option Z * bool :=
  foldl (attach_step strict h) (None, false) l.

(** An acknowledgement is of an open sent. *)
Lemma attachment_open_sent strict h l :
  (attachment strict h l).2 = true -> is_Some (attachment strict h l).1.
Proof.
  induction l as [|i l IH] using rev_ind; [done|]. unfold attachment in *. rewrite foldl_snoc.
  revert IH. generalize (foldl (attach_step strict h) (None, false) l). intros a IH.
  destruct i as [[[]|]|[| | | | | |[]| | |[[]|]]| | |]; simpl; try done; repeat case_match; simpl; eauto;
    naive_solver.
Qed.

Definition log_ok (strict : bool) (l : list LogItem) : Prop :=
  forall l1 h f l2, l = l1 ++ LSent (SFrame h f) :: l2 -> (attachment strict h l1).2 = true.

Lemma log_ok_snoc strict l i :
  log_ok strict l -> (forall h f, i = LSent (SFrame h f) -> (attachment strict h l).2 = true) ->
  log_ok strict (l ++ [i]).
Proof.
  intros Hl Hi l1 h f l2 He. destruct (app_eq_inv _ _ _ _ He) as [(k & -> & Hk)|(k & -> & Hk)].
  - destruct k as [|x k]; simplify_eq/=; [rewrite app_nil_r in *; by eapply Hi|by eapply Hl].
  - destruct k as [|x k]; simplify_eq/=; [|by destruct k]. rewrite app_nil_r. by eapply Hi.
Qed.

Lemma attachment_app strict h l k :
  attachment strict h (l ++ k) = foldl (attach_step strict h) (attachment strict h l) k.
Proof. apply foldl_app. Qed.

Lemma sent_since_app h l k : sent_since h (l ++ k) = foldl (sent_step h) (sent_since h l) k.
Proof. apply foldl_app. Qed.

Lemma sent_frames h h' fs acc :
  foldl (sent_step h) acc (LSent <$> (SFrame h' <$> fs)) = if h' =? h then acc ++ fs else acc.
Proof.
  revert acc. induction fs as [|f fs IH]; intros acc; simpl; [by destruct (h' =? h); rewrite ?app_nil_r|].
  rewrite IH. destruct (h' =? h); [|done]. by rewrite <- app_assoc.
Qed.

Lemma attach_frames strict h h' fs a : foldl (attach_step strict h) a (LSent <$> (SFrame h' <$> fs)) = a.
Proof. by induction fs. Qed.

Lemma log_ok_frames strict l h fs :
  log_ok strict l -> (attachment strict h l).2 = true -> log_ok strict (l ++ (LSent <$> (SFrame h <$> fs))).
Proof.
  intros Hl Ha. induction fs as [|f fs IH] using rev_ind; [by rewrite app_nil_r|].
  rewrite !fmap_app, app_assoc. simpl. apply log_ok_snoc; [done|]. intros ? ? [= <- <-].
  by rewrite attachment_app, attach_frames.
Qed.

(** Items that tell nothing about attachments. *)
Definition neutral (i : LogItem) : bool :=
  match i with
  | LSent (SCommand (CProducer _)) => false
  | LSent (SCommand _) => true
  | LReceived (RProducerSuccess (Some _)) | LReceived (RCloseProducer (Some _)) => false
  | LReceived _ => true
  | _ => false
  end.

Lemma attachment_neutral strict h l k :
  Forall (fun i => neutral i = true) k -> attachment strict h (l ++ k) = attachment strict h l.
Proof.
  rewrite attachment_app. generalize (attachment strict h l). induction k as [|i k IH]; intros a Hk; [done|].
  inversion_clear Hk as [|? ? Hi Hk']. simpl. rewrite <- (IH a Hk') at 2. f_equal.
  destruct i as [[[]|]|[| | | | | |[]| | |[]]| | |]; by simplify_eq/=.
Qed.

Lemma sent_neutral h l k : Forall (fun i => neutral i = true) k -> sent_since h (l ++ k) = sent_since h l.
Proof.
  rewrite sent_since_app. generalize (sent_since h l). induction k as [|i k IH]; intros a Hk; [done|].
  inversion_clear Hk as [|? ? Hi Hk']. simpl. rewrite <- (IH a Hk') at 2. f_equal.
  by destruct i as [[[]|]|[]| | |].
Qed.

Lemma log_ok_neutral strict l k :
  Forall (fun i => neutral i = true) k -> log_ok strict l -> log_ok strict (l ++ k).
Proof.
  intros Hk Hl. induction k as [|i k IH] using rev_ind; [by rewrite app_nil_r|].
  apply Forall_app in Hk as [Hk Hi]. inversion_clear Hi as [|? ? Hi' _].
  rewrite app_assoc. apply log_ok_snoc; [by apply IH|]. by intros ? ? ->.
Qed.

(** ** What a step may do to the producers *)

Section Order.
Context {Hist : Type}.
Variable hist_record : Hist -> Z -> Hist.
Variable hist_new : option Hist.
Variable compress : CompressionKind -> bytes -> option bytes.
Context `{!ProtoMessage SingleMessageMetadata}.
Variable server_error_name : Z -> string.
Implicit Types c : Conn Hist.
Implicit Types p : ProducerState Hist.

(** An empty batch has no first message to flush for. *)
Definition batch_ok p : Prop := batch_is_empty (batch p) = true -> first_added_at (batch p) = None.

(** The producer keeps its order, is not attached by the step, and keeps or
    drops its open. *)
Record moves p (snaps : option (list OpSend)) p' (snaps' : option (list OpSend)) : Prop := mkMoves {
  mv_inv : forall wire, inv (mkSlot p (default [] snaps) wire) -> inv (mkSlot p' (default [] snaps') wire);
  mv_batch : batch_ok p -> batch_ok p';
  mv_ready : broker_ready p' = true -> broker_ready p = true;
  mv_open : forall r, open_request_id p' = Some r -> open_request_id p = Some r;
}.

Lemma moves_refl p sn : moves p sn p sn.
Proof. by split. Qed.

Lemma moves_trans p1 s1 p2 s2 p3 s3 : moves p1 s1 p2 s2 -> moves p2 s2 p3 s3 -> moves p1 s1 p3 s3.
Proof. intros [] []. split; eauto. Qed.

Lemma batch_ok_same p p' : batch p' = batch p -> batch_ok p -> batch_ok p'.
Proof. unfold batch_ok. by intros ->. Qed.

Lemma moves_inv p p' sn sn' :
  (forall wire, inv (mkSlot p (default [] sn) wire) -> inv (mkSlot p' (default [] sn') wire)) ->
  (batch_ok p -> batch_ok p') -> same_attachment p p' -> moves p sn p' sn'.
Proof. intros Hi Hb [Hr Ho _ _]. split; [done|done|by rewrite Hr|by rewrite Ho]. Qed.

Lemma moves_shrinks p p' sn : shrinks p p' -> same_attachment p p' -> moves p sn p' sn.
Proof.
  intros Hs Ha. apply moves_inv; [|by apply batch_ok_same, Hs|done]. intros wire. by apply inv_shrinks.
Qed.

Lemma moves_shut p p' sn :
  shrinks p p' -> (broker_ready p' = true -> broker_ready p = true) ->
  open_request_id p' = open_request_id p -> moves p sn p' sn.
Proof.
  intros Hs Hr Ho. split; [intros wire; by apply inv_shrinks|by apply batch_ok_same, Hs|done|by rewrite Ho].
Qed.

Lemma moves_forget p sn : moves p sn p None.
Proof. split; try done. intros wire. apply inv_shrinks; [done|apply sublist_nil_l]. Qed.

Lemma moves_terminate p sn : moves p sn (snd (drain_pending_sends p)) sn.
Proof.
  apply moves_inv; [|done|by split]. intros wire [Hn Ho]. split; simpl in *; [done|].
  apply ordered_reset in Ho. eapply ordered_bound; [|done].
  eapply ordered_remove; [done|by apply sublist_inserts_r|done].
Qed.

Definition buckets c : Prop := forall h l, cx_snapshots c !! h = Some l -> l <> [].

(** Only handles of [H] enter the ring of abandoned opens; no bucket is left
    empty if [B]. *)
Record evolves_upto (H : Z -> Prop) (B : Prop) c c' : Prop := mkEvolves {
  ev_log : exists k, cx_log c' = cx_log c ++ k /\ Forall (fun i => neutral i = true) k;
  ev_next : cx_next_producer_id c' = cx_next_producer_id c;
  ev_ring : forall a, Some a ∈ cx_abandoned c' ->
    H (ab_handle a) \/ exists a0, Some a0 ∈ cx_abandoned c /\ ab_handle a0 = ab_handle a;
  ev_snapshots : forall h, is_Some (cx_snapshots c' !! h) -> is_Some (cx_snapshots c !! h);
  ev_buckets : B -> buckets c -> buckets c';
  ev_pending : forall rid h e, cx_pending c' !! rid = Some (PProducerOpen h e) ->
    cx_pending c !! rid = Some (PProducerOpen h e);
  ev_slot : forall h s', cx_producers c' !! h = Some s' -> exists s, cx_producers c !! h = Some s
    /\ moves (sl_producer s) (cx_snapshots c !! h) (sl_producer s') (cx_snapshots c' !! h);
}.

Abbreviation evolves := (evolves_upto (fun _ => False) True).

#[global] Instance evolves_preorder H B : PreOrder (evolves_upto H B).
Proof.
  split.
  - intros c. split; try done; eauto.
    + exists []. by rewrite app_nil_r.
    + intros h s' Hs. exists s'. eauto using moves_refl.
  - intros a b c [(k1 & Hk1 & Hl1) Hn1 Hr1 Hs1 Hb1 Hp1 Ho1] [(k2 & Hk2 & Hl2) Hn2 Hr2 Hs2 Hb2 Hp2 Ho2].
    split; eauto; try congruence.
    + exists (k1 ++ k2). by rewrite Hk2, Hk1, <- app_assoc, Forall_app.
    + intros x Hx. destruct (Hr2 x Hx) as [?|(y & Hy & Hxy)]; [by left|].
      destruct (Hr1 y Hy) as [?|(z & Hz & Hyz)]; [left|right; exists z; split]; congruence.
    + intros h s' Hs'. destruct (Ho2 h s' Hs') as (s & Hs & Hm).
      destruct (Ho1 h s Hs) as (s0 & Hs0 & Hm0). eauto using moves_trans.
Qed.

Lemma same_log c c' : cx_log c' = cx_log c ->
  exists k, cx_log c' = cx_log c ++ k /\ Forall (fun i => neutral i = true) k.
Proof. intros ->. exists []. by rewrite app_nil_r. Qed.

Lemma same_buckets c c' : cx_snapshots c' = cx_snapshots c -> buckets c -> buckets c'.
Proof. unfold buckets. by intros ->. Qed.
Local Hint Resolve same_log moves_refl same_buckets : core.

Lemma evolves_core c c' : same_core c c' -> evolves c c'.
Proof.
  intros []. split; rewrite ?sc_abandoned, ?sc_snapshots, ?sc_pending, ?sc_producers; eauto.
Qed.

Lemma evolves_weaken H B c c' : evolves c c' -> evolves_upto H B c c'.
Proof. intros [Hl Hn Hr Hs Hb Hp Ho]. split; eauto. intros a Ha. destruct (Hr a Ha) as [[]|]. by right. Qed.

Lemma evolves_foldl {A} (f : Conn Hist -> A -> Conn Hist) l c :
  (forall c x, evolves c (f c x)) -> evolves c (foldl f c l).
Proof. intros Hf. revert c. induction l as [|x l IH]; intros c; simpl; [done|]. etrans; [apply Hf|apply IH]. Qed.

(** A change of the table of producers alone. *)
Lemma evolves_table c f :
  (forall h s', f (cx_producers c) !! h = Some s' -> exists s, cx_producers c !! h = Some s
     /\ moves (sl_producer s) (cx_snapshots c !! h) (sl_producer s') (cx_snapshots c !! h)) ->
  evolves c (c <| cx_producers ::= f |>).
Proof. intros Hf. split; conn_simpl; eauto. Qed.

Lemma evolves_insert c h s s' :
  cx_producers c !! h = Some s ->
  moves (sl_producer s) (cx_snapshots c !! h) (sl_producer s') (cx_snapshots c !! h) ->
  evolves c (c <| cx_producers ::= <[h := s']> |>).
Proof.
  intros Hs Hm. apply evolves_table. intros h' s1 Hs1. destruct (decide (h' = h)) as [->|Hne].
  - rewrite lookup_insert_eq in Hs1. simplify_eq. eauto.
  - rewrite lookup_insert_ne in Hs1 by done. eauto using moves_refl.
Qed.

Lemma evolves_with_slot c h f :
  (forall s, cx_producers c !! h = Some s ->
     moves (sl_producer s) (cx_snapshots c !! h) (sl_producer (f s)) (cx_snapshots c !! h)) ->
  evolves c (with_slot h f c).
Proof.
  intros Hf. apply evolves_table. intros h' s' Hs'. destruct (decide (h' = h)) as [->|Hne].
  - rewrite lookup_alter_eq in Hs'. destruct (cx_producers c !! h) as [s|] eqn:Hs; simplify_eq/=. eauto.
  - rewrite lookup_alter_ne in Hs' by done. eauto using moves_refl.
Qed.

Lemma evolves_fmap c f :
  (forall s sn, moves (sl_producer s) sn (sl_producer (f s)) sn) ->
  evolves c (c <| cx_producers ::= fmap f |>).
Proof.
  intros Hf. apply evolves_table. intros h s'. rewrite lookup_fmap.
  destruct (cx_producers c !! h) as [s|]; intros [= <-]. eauto.
Qed.

Lemma evolves_remove c h : evolves c (c <| cx_producers ::= delete h |>).
Proof. apply evolves_table. intros h' s' [? Hs]%lookup_delete_Some. eauto using moves_refl. Qed.

Lemma evolves_drop_snapshots c h : evolves c (c <| cx_snapshots ::= delete h |>).
Proof.
  split; conn_simpl; eauto.
  - intros h' [l [_ Hl]%lookup_delete_Some]. eauto.
  - intros _ Hb h' l Hl. conn_simpl. apply lookup_delete_Some in Hl as [_ Hl]. eauto.
  - intros h' s Hs. exists s. split; [done|]. destruct (decide (h' = h)) as [->|].
    + rewrite lookup_delete_eq. apply moves_forget.
    + rewrite lookup_delete_ne by done. apply moves_refl.
Qed.

Lemma evolves_pending c f :
  (forall rid h e, f (cx_pending c) !! rid = Some (PProducerOpen h e) ->
     cx_pending c !! rid = Some (PProducerOpen h e)) ->
  evolves c (c <| cx_pending ::= f |>).
Proof. intros Hf. split; conn_simpl; eauto. Qed.

Lemma evolves_settle c rid : evolves c (c <| cx_pending ::= delete rid |>).
Proof. apply evolves_pending. intros rid' h e [_ ?]%lookup_delete_Some. done. Qed.

Lemma evolves_terminalize_bucket h reason c : evolves c (terminalize_snapshot_bucket h reason c).
Proof. etrans; [apply (evolves_drop_snapshots _ h)|]. apply evolves_core, terminalize_bucket_core. Qed.

(** ** The methods that do not attach, open or drain *)

Lemma evolves_encode cmd c :
  neutral (LSent (SCommand cmd)) = true -> evolves c (encode_command cmd c).
Proof. intros Hn. split; unfold encode_command, log; conn_simpl; eauto. Qed.

Lemma evolves_alloc c : evolves c (snd (alloc_request_id c)).
Proof. split; conn_simpl; eauto. Qed.

Lemma evolves_state st c : evolves c (set_handshake_state st c).
Proof.
  unfold set_handshake_state. etrans; [|apply evolves_fmap; intros; apply moves_refl].
  split; conn_simpl; eauto.
Qed.

Lemma evolves_disconnect wall c : evolves c (mark_disconnected wall c).
Proof. unfold mark_disconnected. etrans; [|apply evolves_state]. case_match; [done|]. split; conn_simpl; eauto. Qed.

Lemma evolves_close wall c : evolves c (conn_close wall c).
Proof.
  unfold conn_close. etrans; [|apply evolves_core; auto with core_frame].
  etrans; [|apply evolves_state]. case_match; split; conn_simpl; eauto.
Qed.

Lemma evolves_auth data m c : evolves c (submit_auth_response data m c).
Proof.
  unfold submit_auth_response. case_decide; [etrans; [|apply evolves_state]|]; by apply evolves_encode.
Qed.

Lemma evolves_begin c c' : begin_handshake c = Ok c' -> evolves c c'.
Proof.
  unfold begin_handshake. case_decide; intros [= <-]. etrans; [|apply evolves_state]. by apply evolves_encode.
Qed.

Lemma moves_close p sn : moves p sn (close p) sn.
Proof. by apply moves_shut. Qed.

Lemma moves_shut_gate p sn : moves p sn (p <| broker_ready := false |>) sn.
Proof. by apply moves_shut. Qed.

Lemma evolves_shut h a c : evolves c (with_slot h (set_broker_ready false a) c).
Proof. apply evolves_with_slot. intros s _. apply moves_shut_gate. Qed.

Lemma evolves_close_producer h forget c : evolves c (snd (close_producer_inner h forget c)).
Proof.
  unfold close_producer_inner. simpl. etrans; [|apply evolves_pending].
  - etrans; [|apply (evolves_with_slot _ h); intros s _; apply moves_close].
    etrans; [|by apply evolves_encode]. apply evolves_alloc.
  - intros rid h' e [[_ He]|[_ He]]%lookup_insert_Some; [by destruct forget|done].
Qed.

Lemma evolves_fail_open h code reason c : evolves c (fail_producer_open_with_broker_error h code reason c).
Proof.
  unfold fail_producer_open_with_broker_error. cbv zeta.
  match goal with |- evolves c (update cx_driver_retries _ (push_event _ (update cx_events _ (update
    cx_create_requests _ (update cx_producers _ (terminalize_snapshot_bucket _ _ ?c1)))))) =>
    assert (H1 : evolves c c1); [|etrans; [exact H1|]; clear H1; generalize c1; intros c2] end.
  - destruct (cx_producers c !! h) as [s|] eqn:Hs; [|done].
    etrans; [|apply evolves_core, terminalize_drained_core]. eapply evolves_insert; [done|].
    eapply moves_trans; [|apply moves_terminate]. by apply moves_shut.
  - etrans; [apply (evolves_terminalize_bucket h reason)|]. etrans; [apply (evolves_remove _ h)|].
    split; unfold push_event; conn_simpl; eauto.
Qed.

Lemma evolves_fail_sends h rid c : evolves c (fail_sends_of_closed_producer h rid c).
Proof.
  unfold fail_sends_of_closed_producer. destruct (cx_producers c !! h) as [s|] eqn:Hs; [|done].
  case_decide; [|done]. cbn -[terminalize_snapshot_bucket terminalize_drained_sends].
  etrans; [|apply evolves_terminalize_bucket]. etrans; [|apply evolves_core, terminalize_drained_core].
  eapply evolves_insert; [done|]. apply moves_terminate.
Qed.

Lemma evolves_ring f c :
  (forall a, Some a ∈ f (cx_abandoned c) -> exists a0, Some a0 ∈ cx_abandoned c /\ ab_handle a0 = ab_handle a) ->
  evolves c (c <| cx_abandoned ::= f |>).
Proof. intros Hf. split; conn_simpl; eauto. Qed.

Lemma evolves_forget h c : evolves c (forget_abandoned_producer_opens h c).
Proof.
  unfold forget_abandoned_producer_opens. case_match; [|done]. apply evolves_ring.
  intros a (r & Ha & Hr)%list_elem_of_fmap. exists a. destruct r as [b|]; [|done].
  case_match; by simplify_eq.
Qed.

Lemma evolves_reclaim h code c : evolves c (snd (reclaim_busy_producer_name h code c)).
Proof.
  unfold reclaim_busy_producer_name. case_match; [done|]. destruct (abandoned_open_key_of h c); [|done].
  cbv zeta. etrans; [|apply evolves_foldl; intros; apply evolves_close_producer].
  apply (evolves_ring (fun _ => _)). intros a (r & Ha & (x & -> & Hx)%list_elem_of_fmap)%list_elem_of_fmap.
  unfold mark_reclosed in Ha. destruct x as [b|]; [|done]. exists b. split; [done|].
  case_match; by simplify_eq/=.
Qed.

Lemma evolves_register k w c : evolves c (conn_register_waker k w c).
Proof.
  unfold conn_register_waker. case_match; [by apply evolves_core|].
  assert (Hslab : evolves c (c <| cx_wakers ::= <[k := w]> |>)) by by apply evolves_core.
  destruct k as [|h q]; [done|]. destruct (cx_producers c !! h) as [s|] eqn:Hs; [|done].
  unfold register_waker. pose proof (set_waker_shrinks q (Some w) (sl_producer s)) as H1.
  pose proof (set_waker_attachment q (Some w) (sl_producer s)) as H2.
  destruct (set_waker q (Some w) (sl_producer s)) as [[] p']; [|done].
  eapply evolves_insert; [done|]. by apply moves_shrinks.
Qed.

Lemma evolves_unregister k c : evolves c (unregister_waker k c).
Proof.
  unfold unregister_waker. destruct k as [|h q]; [by apply evolves_core|].
  etrans; [|apply evolves_with_slot]; [by apply evolves_core|]. intros s _.
  apply moves_shrinks; [apply set_waker_shrinks|apply set_waker_attachment].
Qed.

Lemma evolves_cancel_request rid c : evolves c (cancel_request rid c).
Proof.
  unfold cancel_request. etrans; [apply (evolves_unregister (KRequest rid))|].
  etrans; [|apply evolves_settle]. by apply evolves_core.
Qed.

Lemma evolves_plain c : evolves c (snd (plain_request c)).
Proof.
  unfold plain_request. simpl. etrans; [apply evolves_alloc|]. apply evolves_pending. conn_simpl.
  intros rid h e [[_ ?]|[_ ?]]%lookup_insert_Some; done.
Qed.

(** The events and retries are no part of what evolves. *)
Lemma evolves_queues c c' :
  cx_log c' = cx_log c -> cx_next_producer_id c' = cx_next_producer_id c ->
  cx_abandoned c' = cx_abandoned c -> cx_snapshots c' = cx_snapshots c ->
  cx_pending c' = cx_pending c -> cx_producers c' = cx_producers c -> evolves c c'.
Proof. intros Hl Hn Ha Hs Hp Hq. split; rewrite ?Ha, ?Hs, ?Hp, ?Hq; eauto. Qed.
End Order.
