(* ===== verification/ConnSends.v ===== *)
(** * Theorems on the sends of a connection

    The invariant of every execution of [ConnSpec]: order of the frames of each
    producer, and attachment before every frame. *)

From S2P Require Import Prelude Time Ids MemoryLimit Backoff AntiThrash Producer ProducerSpec ConnModel ConnOps ConnFrames ConnSpec ConnOrder.

Abbreviation evolves := (evolves_upto (fun _ => False) True).

Section Sends.
Context {Hist : Type}.
Variable hist_record : Hist -> Z -> Hist.
Variable hist_new : option Hist.
Variable compress : CompressionKind -> bytes -> option bytes.
Context `{!ProtoMessage SingleMessageMetadata}.
Variable server_error_name : Z -> string.
Implicit Types c : Conn Hist.
Implicit Types p : ProducerState Hist.
Local Hint Resolve same_log moves_refl same_buckets : core.

(** ** More methods that do not attach, open or drain *)

Lemma evolves_cancel h c : evolves_upto (fun h' => h' = h /\ is_Some (cx_producers c !! h)) True c (cancel_producer_open h c)
  /\ cx_snapshots (cancel_producer_open h c) !! h = None.
Proof.
  unfold cancel_producer_open. cbv zeta. split; [|conn_simpl; apply lookup_delete_eq].
  set (H := fun h' => h' = h /\ is_Some (cx_producers c !! h)).
  match goal with |- evolves_upto _ _ _ (update cx_driver_retries _ (update cx_events _ (update
    cx_snapshots _ (update cx_create_requests _ (update cx_producers _ (foldl _ ?c1 ?l)))))) =>
    assert (H1 : evolves_upto H True c c1); [|etrans; [exact H1|]; apply evolves_weaken;
      transitivity (foldl (fun c rid => cancel_request rid c) c1 l);
      [apply evolves_foldl; intros; apply evolves_cancel_request|
       generalize (foldl (fun c rid => cancel_request rid c) c1 l); intros c2]] end.
  - destruct (cx_producers c !! h) as [s|] eqn:Hs; [|done]. case_match; [|done].
    etrans; [apply evolves_weaken, (evolves_close_producer h true)|].
    case_match; [|done]. split; unfold remember_abandoned_producer_open; conn_simpl; eauto.
    intros a Ha. apply list_elem_of_lookup in Ha as [i Hi].
    apply list_lookup_insert_Some in Hi as [(_ & [= <-] & _)|[_ Hi]].
    + left. split; [done|]. eauto.
    + right. exists a. split; [by eapply list_elem_of_lookup_2|done].
  - etrans; [apply (evolves_remove _ h)|]. etrans; [apply (evolves_drop_snapshots _ h)|].
    by apply evolves_queues.
Qed.

Lemma evolves_fail_all reason c : evolves c (fail_all_pending reason c).
Proof.
  unfold fail_all_pending. cbv zeta.
  etrans; [|apply evolves_core, push_event_core].
  match goal with |- evolves _ (update cx_driver_retries _ ?c1) =>
    transitivity c1; [|by apply evolves_queues] end.
  etrans; [|apply evolves_core, same_core_foldl; intros; apply fail_waker_core].
  etrans; [|apply evolves_foldl; intros; apply evolves_terminalize_bucket].
  etrans; [|apply evolves_foldl].
  - etrans; [|apply evolves_core, same_core_foldl; intros; apply fail_request_core].
    etrans; [|by apply (evolves_pending _ (fun _ => ∅))]. by apply evolves_queues.
  - intros c1 h. unfold fail_producer. destruct (cx_producers c1 !! h) as [s|] eqn:Hs; [|done].
    etrans; [|apply evolves_core, terminalize_drained_core]. eapply evolves_insert; [done|].
    eapply moves_trans; [apply moves_close|apply moves_terminate].
Qed.

Lemma evolves_receipt now r c : evolves c (on_receipt hist_record now r c).
Proof.
  unfold on_receipt. destruct (cx_producers c !! _) as [s|] eqn:Hs; [|done].
  pose proof (receipt_loop_shrinks hist_record r now) as Hl.
  pose proof (receipt_attachment hist_record r now (sl_producer s)) as Ha.
  assert (Hsh : shrinks (sl_producer s) (snd (on_send_receipt hist_record r now (sl_producer s)))).
  { unfold on_send_receipt. cbv zeta.
    match goal with |- context [receipt_loop hist_record r now ?qs ?p] =>
      specialize (Hl qs p); destruct (receipt_loop hist_record r now qs p) as [y q] end.
    simpl in *. case_match; [|done]. destruct Hl. by split. }
  destruct (on_send_receipt _ _ _ _) as [resolved p'].
  etrans; [|apply evolves_core, same_core_foldl; intros; apply settle_receipt_core].
  eapply evolves_insert; [done|]. by apply moves_shrinks.
Qed.

Lemma evolves_send_error e c : evolves c (on_error_of_send e c).
Proof.
  unfold on_error_of_send. destruct (cx_producers c !! _) as [s|] eqn:Hs; [|done].
  pose proof (send_error_attachment e (sl_producer s)) as Ha.
  assert (Hsh : shrinks (sl_producer s) (snd (on_send_error e (sl_producer s)))).
  { unfold on_send_error. pose proof (apply_send_error_shrinks e (sl_producer s)) as Hl.
    destruct (apply_send_error e (sl_producer s)) as [o q]. simpl in *. case_match; [|done]. destruct Hl. by split. }
  destruct (on_send_error _ _) as [resolved p'].
  transitivity (c <| cx_producers ::= <[se_producer_id e := s <| sl_producer := p' |>]> |>).
  { eapply evolves_insert; [done|]. by apply moves_shrinks. }
  destruct resolved as [[[op code] m]|]; [|done]. apply evolves_core.
  etrans; [|apply push_observational_core].
  destruct (op_waker op); [by split|]. etrans; [|apply wake_key_core]. by split.
Qed.

Lemma evolves_open_failed h rid code m c : evolves c (open_failed h rid code m c).
Proof.
  unfold open_failed. cbv zeta.
  match goal with |- evolves _ (if _ then push_event _ (update cx_driver_retries _ ?c1) else _) =>
    assert (H1 : evolves c c1) by (apply evolves_with_slot; intros s _; by apply moves_shut);
    etrans; [exact H1|]; generalize c1; intros c2 end.
  destruct (should_retry_after_failure _ _); [by apply evolves_queues|apply evolves_fail_open].
Qed.

Lemma evolves_error_of_open h rid code m c : evolves c (on_error_of_open h rid code m c).
Proof.
  unfold on_error_of_open. case_match; [done|]. cbv zeta.
  etrans; [apply (evolves_reclaim h code)|]. generalize (snd (reclaim_busy_producer_name h code c)). intros c1.
  case_match; [apply evolves_open_failed|]. case_match; [apply evolves_fail_open|].
  etrans; [apply (evolves_remove _ h)|]. by apply evolves_queues.
Qed.

Lemma evolves_success rid c : evolves c (on_success rid c).
Proof.
  unfold on_success. cbv zeta.
  match goal with |- evolves _ (match _ with Some _ => _ | None => ?c1 end) => assert (H1 : evolves c c1) end.
  { etrans; [apply (evolves_settle _ rid)|]. unfold wake_for_request.
    case_match; [case_match|]; try done; apply evolves_core; (etrans; [|apply wake_key_core]); by split. }
  repeat case_match; try exact H1; (etrans; [exact H1|]); apply evolves_fail_sends.
Qed.

Lemma evolves_error truncated e c : evolves c (on_error server_error_name truncated e c).
Proof.
  unfold on_error. cbv zeta.
  match goal with |- evolves _ (match cx_pending ?c1 !! _ with _ => _ end) => assert (H1 : evolves c c1) end.
  { case_match; try done; by apply evolves_core. }
  etrans; [exact H1|]. clear H1. match goal with |- evolves ?c1 _ => generalize c1 end. intros c1.
  case_match; [|apply evolves_settle]. etrans; [apply (evolves_settle _ (er_request_id e))|].
  case_match; try done; [apply evolves_error_of_open|..];
    apply evolves_core; unfold wake_for_request; (etrans; [|apply wake_key_core]); by split.
Qed.

(** ** Timers *)

Lemma evolves_keepalive wall now c : evolves c (keepalive_tick wall now c).
Proof.
  unfold keepalive_tick. cbv zeta. repeat case_match; try done; [apply evolves_disconnect|].
  transitivity (encode_command CPing c); [by apply evolves_encode|by apply evolves_queues].
Qed.

Lemma evolves_flush_due wall now c : evolves c (c <| cx_producers ::= fmap (flush_due compress wall now) |>).
Proof.
  apply evolves_fmap. intros s sn. unfold flush_due. case_match; [|done].
  apply moves_inv; [|exact (flush_batch_ok compress _ _)|apply flush_batch_attachment]. intros wire. by apply inv_flush.
Qed.

Lemma evolves_sweep_sends now c : evolves c (sweep_sends now c).
Proof.
  unfold sweep_sends. cbv zeta. etrans; [apply (evolves_fmap c (fun s => s <| sl_producer ::=
    fun p => snd (sweep_timeouts now p) |>)); intros s sn|].
  - apply moves_shrinks; [apply sweep_timeouts_shrinks|apply sweep_attachment].
  - apply evolves_core, same_core_foldl. intros c1 e. apply same_core_foldl. intros. apply resolve_send_error_core.
Qed.

Lemma evolves_sweep_bucket now c h : evolves_upto (fun _ => False) False c (sweep_bucket now c h).
Proof.
  unfold sweep_bucket. destruct (cx_snapshots c !! h) as [bucket|] eqn:Hb; [|done].
  destruct (cx_producers c !! h) as [s|] eqn:Hs; [|done].
  pose proof (sweep_snapshots_split now bucket (sl_producer s)) as Hsp.
  pose proof (sweep_snapshots_attachment now bucket (sl_producer s)) as Ha.
  destruct (sweep_snapshots now bucket (sl_producer s)) as [[out rest] p']. destruct Hsp as [-> Hsh].
  etrans; [|apply evolves_weaken, evolves_core, same_core_foldl; intros; apply resolve_send_error_core].
  split; conn_simpl; eauto; [|done|].
  - intros h' [l Hl]. apply lookup_insert_Some in Hl as [[<- _]|[_ Hl]]; eauto.
  - intros h' s' Hs'. destruct (decide (h' = h)) as [->|Hne].
    + rewrite lookup_insert_eq in Hs'. simplify_eq. exists s. split; [done|]. rewrite Hb, lookup_insert_eq.
      apply moves_inv; [|by apply batch_ok_same, Hsh|done].
      intros wire. apply inv_shrinks; [done|by apply sublist_inserts_l].
    + rewrite lookup_insert_ne in Hs' by done. exists s'. rewrite lookup_insert_ne by done. eauto.
Qed.

Lemma evolves_sweep_snapshots now c : evolves c (sweep_all_snapshots now c).
Proof.
  unfold sweep_all_snapshots. cbv zeta.
  assert (H1 : evolves_upto (fun _ => False) False c
                 (foldl (sweep_bucket now) c (map_to_list (cx_snapshots c)).*1)).
  { generalize (map_to_list (cx_snapshots c)).*1. intros l. revert c. induction l as [|h l IH]; intros c; [done|].
    simpl. etrans; [apply evolves_sweep_bucket|apply IH]. }
  revert H1. generalize (foldl (sweep_bucket now) c (map_to_list (cx_snapshots c)).*1). intros c1 [Hl Hn Hr Hs _ Hp Ho].
  split; conn_simpl; eauto.
  - intros h [l [Hl' _]%map_lookup_filter_Some]. eauto.
  - intros _ _ h l Hh. conn_simpl. by apply map_lookup_filter_Some in Hh as [_ ?].
  - intros h s' Hs'. destruct (Ho h s' Hs') as (s & Hs0 & Hm). exists s. split; [done|].
    eapply moves_trans; [exact Hm|]. destruct (filter _ (cx_snapshots c1) !! h) as [l|] eqn:Hf.
    + apply map_lookup_filter_Some in Hf as [-> _]. done.
    + apply moves_forget.
Qed.

Lemma evolves_expire now c : evolves c (expire_opens now c).
Proof.
  unfold expire_opens. apply evolves_foldl. intros c1 e. unfold expire_pending_producer_open.
  etrans; [apply (evolves_settle _ e.1)|apply evolves_open_failed].
Qed.

(** ** The invariant *)

(** Whether only the acknowledgement of the last open counts. *)
Variable strict : bool.

Definition slot_ok (l : list LogItem) (snaps : option (list OpSend)) (pend : gmap Z PendingRequestKind)
    (h : Z) p : Prop :=
  (inv (mkSlot p (default [] snaps) (sent_since h l)) /\ batch_ok p)
  /\ (broker_ready p = true -> (attachment strict h l).2 = true)
  /\ (forall rid e, open_request_id p = Some rid -> pend !! rid = Some (PProducerOpen h e) ->
        (attachment strict h l).1 = Some rid)
  /\ (strict = true -> broker_ready p = true -> open_request_id p = None).

(** With [R], no handle of the ring has snapshots. *)
Record order_inv_of (R : Prop) c : Prop := mkOrderInv {
  oi_slots : forall h s, cx_producers c !! h = Some s ->
    slot_ok (cx_log c) (cx_snapshots c !! h) (cx_pending c) h (sl_producer s);
  oi_log : log_ok strict (cx_log c);
  oi_buckets : buckets c;
  oi_producers : forall h, is_Some (cx_producers c !! h) -> h < cx_next_producer_id c;
  oi_snapshots : forall h, is_Some (cx_snapshots c !! h) -> h < cx_next_producer_id c;
  oi_ring : R -> forall a, Some a ∈ cx_abandoned c ->
    ab_handle a < cx_next_producer_id c /\ cx_snapshots c !! ab_handle a = None;
  oi_next : 0 <= cx_next_producer_id c;
}.

Abbreviation order_inv := (order_inv_of True).

Lemma order_inv_evolves R H c c' :
  evolves_upto H True c c' ->
  (forall h, H h -> h < cx_next_producer_id c /\ cx_snapshots c' !! h = None) ->
  order_inv_of R c -> order_inv_of R c'.
Proof.
  intros [(k & Hl & Hk) Hn Hr Hs Hb Hp Ho] HH [Is Il Ib Ip Isn Ir In].
  split; rewrite ?Hn; eauto.
  - intros h s' Hs'. destruct (Ho h s' Hs') as (s & Hs0 & [Hi Hbatch Hready Hopen]).
    destruct (Is h s Hs0) as ([I1 I1'] & I2 & I3 & I4). unfold slot_ok. rewrite Hl, sent_neutral, attachment_neutral by done.
    split_and!; eauto. intros Hst Hbr%Hready. destruct (open_request_id (sl_producer s')) as [r|] eqn:E; [|done].
    specialize (Hopen r eq_refl). by rewrite (I4 Hst Hbr) in Hopen.
  - rewrite Hl. by apply log_ok_neutral.
  - intros h [s' Hs']. destruct (Ho h s' Hs') as (s & Hs0 & _). eauto.
  - intros HR a Ha. destruct (Hr a Ha) as [|(a0 & Ha0 & <-)]; [eauto|]. destruct (Ir HR a0 Ha0) as [? Hnone].
    split; [done|]. apply eq_None_not_Some. intros Hsome. apply Hs in Hsome. rewrite Hnone in Hsome.
    by destruct Hsome.
Qed.

Lemma order_inv_quiet R c c' : evolves c c' -> order_inv_of R c -> order_inv_of R c'.
Proof. intros He. eapply order_inv_evolves; [exact He|]. by intros h []. Qed.

Lemma order_inv_foldl {A} R (f : Conn Hist -> A -> Conn Hist) l c :
  (forall c x, order_inv_of R c -> order_inv_of R (f c x)) -> order_inv_of R c ->
  order_inv_of R (foldl f c l).
Proof. intros Hf. revert c. induction l as [|x l IH]; intros c Hc; simpl; [done|]. by apply IH, Hf. Qed.

(** ** Draining *)

Lemma inv_drain p sn wire : inv (mkSlot p sn wire) ->
  inv (mkSlot (snd (drain_slot p)) sn (wire ++ fst (drain_slot p))).
Proof.
  intros Hi. pose proof (inv_exec hist_record compress EvDrain _ I Hi) as He. simpl in He.
  by destruct (drain_slot p).
Qed.

Definition sink (dst : list Sent -> Conn Hist -> Conn Hist) : Prop := forall l c, same_core c (dst l c).

Lemma order_inv_drain_one dst c h : sink dst -> order_inv c -> order_inv (drain_into dst c h).
Proof.
  intros Hd Hc. unfold drain_into. destruct (cx_producers c !! h) as [s|] eqn:Hs; [|done].
  pose proof (drain_slot_spec (sl_producer s)) as Hsp.
  destruct (oi_slots _ _ Hc h s Hs) as ([I1 I1'] & I2 & I3 & I4). apply inv_drain in I1.
  destruct (drain_slot (sl_producer s)) as [frames p'] eqn:Hdr. simpl in I1.
  match goal with |- order_inv (update cx_log _ (dst _ ?c1)) => pose proof (Hd (SFrame h <$> frames) c1) as [] end.
  split; conn_simpl; rewrite ?sc_producers, ?sc_snapshots, ?sc_pending, ?sc_log, ?sc_next_pid, ?sc_abandoned.
  - intros h' s' Hs'. unfold slot_ok. rewrite sent_since_app, sent_frames, attachment_app, attach_frames.
    destruct (decide (h' = h)) as [->|Hne].
    + rewrite lookup_insert_eq in Hs'. simplify_eq/=. rewrite Z.eqb_refl.
      destruct (broker_ready (sl_producer s)) eqn:Hr; simplify_eq/=; split_and!; eauto; by rewrite Hr.
    + rewrite lookup_insert_ne in Hs' by done. apply (oi_slots _ _ Hc) in Hs'.
      destruct (h =? h') eqn:Hh; [lia|]. exact Hs'.
  - destruct (broker_ready (sl_producer s)) eqn:Hr; simplify_eq/=.
    + apply log_ok_frames; [apply Hc|by apply I2].
    + rewrite app_nil_r. apply Hc.
  - eapply same_buckets; [|apply Hc]. conn_simpl. by rewrite sc_snapshots.
  - intros h' [s' Hs']. apply (oi_producers _ _ Hc). apply lookup_insert_Some in Hs' as [[<- _]|[_ ?]]; eauto.
  - apply Hc.
  - apply Hc.
  - apply Hc.
Qed.

Lemma order_inv_drain dst c : sink dst -> order_inv c -> order_inv (drain_all dst c).
Proof.
  intros Hd Hc. unfold drain_all. case_decide; [|done].
  apply order_inv_foldl; [|done]. intros. by apply order_inv_drain_one.
Qed.

Lemma sink_outbound : sink to_outbound.
Proof. by split. Qed.

Lemma sink_segments : sink to_segments.
Proof. by split. Qed.

Lemma order_inv_drain_outbound c : order_inv c -> order_inv (drain_producer_outbound c).
Proof. apply order_inv_drain, sink_outbound. Qed.

(** ** Opening *)

Lemma attachment_open h h' l cp :
  cp_producer_id cp = h' ->
  attachment strict h (l ++ [LSent (SCommand (CProducer cp))])
  = if h' =? h then (Some (cp_request_id cp), negb strict && (attachment strict h l).2) else attachment strict h l.
Proof. intros <-. by rewrite attachment_app. Qed.

Lemma order_inv_emit h req c :
  (strict = true -> gated c h) -> order_inv c -> order_inv (snd (emit_command_producer h req c)).
Proof.
  intros Hg Hc. unfold emit_command_producer. cbn [fst snd alloc_request_id].
  unfold with_producer, with_slot, encode_command, log. split; conn_simpl.
  - intros h' s' Hs'. unfold slot_ok. rewrite sent_since_app. simpl.
    erewrite attachment_open by done. simpl.
    destruct (decide (h' = h)) as [->|Hne].
    + rewrite lookup_alter_eq in Hs'. destruct (cx_producers c !! h) as [s|] eqn:Hs; simplify_eq/=.
      destruct (oi_slots _ _ Hc h s Hs) as ([I1 I1'] & I2 & I3 & I4). rewrite Z.eqb_refl.
      split_and!; [by eapply inv_shrinks; [| |exact I1]|exact I1'|..]; [|by intros rid e [= <-] _|].
      * intros Hr. destruct strict; [by rewrite (Hg eq_refl s Hs) in Hr|]. by apply I2.
      * intros Hst Hr. by rewrite (Hg Hst s Hs) in Hr.
    + rewrite lookup_alter_ne in Hs' by done. destruct (oi_slots _ _ Hc h' s' Hs') as ([I1 I1'] & I2 & I3 & I4).
      destruct (h =? h') eqn:Hh; [lia|]. split_and!; [done..| |done].
      intros rid e Hr [[_ [= ? _]]|[_ Hp]]%lookup_insert_Some; [done|]. eauto.
  - apply log_ok_snoc; [apply Hc|done].
  - eapply same_buckets; [|apply Hc]. done.
  - intros h' Hs'. apply (oi_producers _ _ Hc). by apply lookup_alter_is_Some in Hs'.
  - apply Hc.
  - apply Hc.
  - apply Hc.
Qed.

Lemma order_inv_bump h c : order_inv c -> order_inv (with_slot h bump_epoch c).
Proof. apply order_inv_quiet, evolves_with_slot. intros. apply moves_refl. Qed.

Lemma gated_bump h h' c : gated c h -> gated (with_slot h' bump_epoch c) h.
Proof.
  intros Hg s. unfold with_slot. conn_simpl. destruct (decide (h' = h)) as [->|].
  - rewrite lookup_alter_eq. destruct (cx_producers c !! h) as [s0|] eqn:Hs; intros [= <-]. exact (Hg s0 Hs).
  - rewrite lookup_alter_ne by done. apply Hg.
Qed.

Lemma gated_emit h h' req c : gated c h -> gated (snd (emit_command_producer h' req c)) h.
Proof.
  intros Hg s. unfold emit_command_producer, with_producer, with_slot, encode_command, log.
  cbn [fst snd alloc_request_id]. conn_simpl. destruct (decide (h' = h)) as [->|].
  - rewrite lookup_alter_eq. destruct (cx_producers c !! h) as [s0|] eqn:Hs; intros [= <-]. exact (Hg s0 Hs).
  - rewrite lookup_alter_ne by done. apply Hg.
Qed.

Lemma order_inv_retry h c :
  (strict = true -> gated c h) -> order_inv c -> order_inv (snd (retry_producer_open_inner h c)).
Proof.
  intros Hg Hc. unfold retry_producer_open_inner. repeat case_match; try done; simplify_eq/=.
  match goal with H : emit_command_producer ?h ?r ?c1 = (_, ?c2) |- _ =>
    change (order_inv (snd (z, c2))); rewrite <- H end.
  apply order_inv_emit; [|by apply order_inv_bump]. intros Hst. by apply gated_bump, Hg.
Qed.

Lemma order_inv_rebuild c :
  (strict = true -> forall h, gated c h) -> order_inv c -> order_inv (rebuild_producers c).
Proof.
  intros Hg Hc. unfold rebuild_producers. cbv zeta.
  assert (Hf : order_inv (foldl rebuild_one c (rebuildable c))).
  { generalize (rebuildable c). intros todo. revert c Hg Hc. induction todo as [|e todo IH]; intros c Hg Hc; [done|].
    apply IH.
    - intros Hst h. by apply gated_emit, gated_bump, Hg.
    - apply order_inv_emit; [|by apply order_inv_bump]. intros Hst. by apply gated_bump, Hg. }
  revert Hf. generalize (foldl rebuild_one c (rebuildable c)). intros c1.
  apply order_inv_quiet. split; conn_simpl; eauto.
  - intros h [l [Hl _]%map_lookup_filter_Some]. eauto.
  - intros _ Hb h l Hl. conn_simpl. apply map_lookup_filter_Some in Hl as [? _]. eauto.
  - intros h s Hs. exists s. split; [done|].
    destruct (filter _ (cx_snapshots c1) !! h) as [l|] eqn:Hf; [|apply moves_forget].
    apply map_lookup_filter_Some in Hf as [-> _]. done.
Qed.

(** A fresh slot: under a new id, or under the id of an abandoned open. *)
Lemma order_inv_new h slot c :
  h < cx_next_producer_id c -> cx_snapshots c !! h = None ->
  fresh (sl_producer slot) -> broker_ready (sl_producer slot) = false ->
  open_request_id (sl_producer slot) = None ->
  order_inv c -> order_inv (log (LCreated h) (c <| cx_producers ::= <[h := slot]> |>)).
Proof.
  intros Hh Hsn Hf Hr Ho Hc. unfold log. split; conn_simpl; try apply Hc.
  - intros h' s' Hs'. unfold slot_ok. rewrite sent_since_app, attachment_app. simpl.
    destruct (decide (h' = h)) as [->|Hne].
    + rewrite lookup_insert_eq in Hs'. simplify_eq. rewrite Z.eqb_refl, Hsn, Hr, Ho. split_and!; try done.
      * apply (inv_reachable hist_record compress (fun _ => True)). by constructor.
      * destruct Hf as (_ & _ & Hb & _). unfold batch_ok. by rewrite Hb.
    + rewrite lookup_insert_ne in Hs' by done. apply (oi_slots _ _ Hc) in Hs'.
      destruct (h =? h') eqn:Hh'; [lia|]. exact Hs'.
  - apply log_ok_snoc; [apply Hc|done].
  - intros h' [s' Hs']. apply lookup_insert_Some in Hs' as [[<- _]|[_ ?]]; [done|].
    apply (oi_producers _ _ Hc). eauto.
Qed.

Lemma least_tried_elem key l i best j a :
  least_tried key i l best = Some (j, a) -> Some a ∈ l \/ best = Some (j, a).
Proof.
  revert i best. induction l as [|r l IH]; intros i best; simpl; [by right|].
  intros [Hl|Hb]%IH; [left; by right|]. destruct r as [b|]; [|by right].
  case_match; [|by right]. destruct best as [[j' b']|]; [case_match|]; simplify_eq; set_solver.
Qed.

Lemma order_inv_create req c :
  op_enabled (Hist := Hist) (CallCreate req) c -> order_inv c ->
  order_inv (snd (create_producer hist_new req c)).
Proof.
  intros [Hlt Hseq] Hc. unfold create_producer.
  assert (Hsplit : exists h e c1,
    (let '(reattach, c) := reattach_abandoned_producer_open req c in
     match reattach with
     | Some (h, epoch) => (h, epoch, c)
     | None => (cx_next_producer_id c, 0, c <| cx_next_producer_id ::= fun n => wrapping_add 64 n 1 |>)
     end) = (h, e, c1) /\ h < cx_next_producer_id c1 /\ cx_snapshots c1 !! h = None /\ order_inv c1).
  { assert (Hnew : exists c1, (c <| cx_next_producer_id ::= fun n => wrapping_add 64 n 1 |>) = c1
      /\ cx_next_producer_id c < cx_next_producer_id c1 /\ cx_snapshots c1 !! cx_next_producer_id c = None
      /\ order_inv c1).
    { eexists. split; [done|]. destruct Hc as [Is Il Ib Ip Isn Ir In]. conn_simpl.
      rewrite wrapping_succ by lia. split_and!; [lia|apply eq_None_not_Some; intros Hs%Isn; lia|].
      split; conn_simpl; eauto; rewrite ?wrapping_succ by lia; try lia.
      - intros h Hh%Ip. lia.
      - intros h Hh%Isn. lia.
      - intros _ a Ha. destruct (Ir I a Ha). split; [lia|done]. }
    destruct Hnew as (c1 & <- & Hnew). unfold reattach_abandoned_producer_open.
    case_decide; [|eauto 8]. destruct (abandoned_open_key req) as [key|]; [|eauto 8].
    destruct (least_tried key 0 (cx_abandoned c) None) as [[i a]|] eqn:Hl; [|eauto 8].
    apply least_tried_elem in Hl as [Ha|?]; [|done]. destruct (oi_ring _ _ Hc I a Ha) as [Hh Hnone].
    do 3 eexists. split; [done|]. conn_simpl. split_and!; [done|done|].
    eapply order_inv_quiet; [|exact Hc]. apply evolves_ring. intros b Hb.
    apply list_elem_of_lookup in Hb as [j Hj].
    apply list_lookup_insert_Some in Hj as [(_ & [= <-] & _)|[_ Hj]];
      [exists a|exists b; split; [by eapply list_elem_of_lookup_2|]]; done. }
  destruct Hsplit as (h & e & c1 & Heq & Hh & Hsn & Hc1).
  destruct (reattach_abandoned_producer_open req c) as [reattach c0].
  destruct reattach as [[h0 e0]|]; cbv beta iota in Heq |- *; injection Heq as -> -> ->; cbv zeta; cbn [snd];
  (apply order_inv_emit;
    [intros _ s; conn_simpl; unfold log; conn_simpl; rewrite lookup_insert_eq; intros [= <-];
     destruct (cr_initial_sequence_id req) as [q|]; [unfold set_initial_sequence_id; destruct (q >? 0)|]; done|];
    match goal with |- order_inv (update cx_create_requests _ ?c2) =>
      apply (order_inv_quiet _ c2); [by apply evolves_queues|] end;
    apply order_inv_new; try done; destruct (cr_initial_sequence_id req) as [q|]; simpl in Hseq;
    unfold set_initial_sequence_id; try destruct (q >? 0); unfold fresh, u64_max in *; simpl;
    split_and?; (done || lia)).
Qed.

(** ** Frames received *)

Lemma order_inv_log_neutral R i c : neutral i = true -> order_inv_of R c -> order_inv_of R (log i c).
Proof.
  intros Hi. apply order_inv_quiet. split; unfold log; conn_simpl; eauto.
Qed.

Lemma order_inv_progress R now c : order_inv_of R c -> order_inv_of R (frame_progress now c).
Proof. apply order_inv_quiet. by apply evolves_queues. Qed.

(** The acknowledgement of the open last sent attaches the producer. *)
Lemma order_inv_log_success ok c :
  order_inv c -> order_inv (log (LReceived (RProducerSuccess (Some ok))) c).
Proof.
  intros Hc. unfold log. split; conn_simpl; try apply Hc.
  - intros h s Hs. destruct (oi_slots _ _ Hc h s Hs) as ([I1 I1'] & I2 & I3 & I4).
    unfold slot_ok. rewrite sent_since_app, attachment_app. simpl. split_and!; [done|done|..|done].
    + intros Hr. case_decide; eauto.
    + intros rid e Ho Hp. case_decide; simpl; eauto.
  - apply log_ok_snoc; [apply Hc|done].
Qed.

Lemma bucket_default (o : option (list OpSend)) : o <> Some [] -> bucket (default [] o) = o.
Proof. by destruct o as [[]|]. Qed.

Lemma order_inv_attach now ok c :
  order_inv c ->
  (forall h e, cx_pending c !! ps_request_id ok = Some (PProducerOpen h e) ->
     open_is_current h (ps_request_id ok) c = true -> (attachment strict h (cx_log c)).2 = true) ->
  order_inv (on_success_of_open now ok c).
Proof.
  intros Hc Hatt. unfold on_success_of_open. cbv zeta.
  pose proof (order_inv_quiet _ _ _ (evolves_settle c (ps_request_id ok)) Hc) as Hc0.
  destruct (cx_pending c !! ps_request_id ok) as [[h e| | |]|] eqn:Hp; try exact Hc0.
  specialize (Hatt h e eq_refl). unfold open_is_current, get_producer in *. conn_simpl.
  case_bool_decide as Hcur; [|exact Hc0]. specialize (Hatt eq_refl). cbn [negb].
  eapply order_inv_quiet; [apply evolves_core; etrans; [apply push_event_core|apply record_reattach_core]|].
  apply (order_inv_quiet _ _ _ (evolves_forget h _)) in Hc0.
  assert (Hlog : cx_log (forget_abandoned_producer_opens h (c <| cx_pending ::= delete (ps_request_id ok) |>)) = cx_log c)
    by by (unfold forget_abandoned_producer_opens; case_match).
  rewrite <- Hlog in Hatt. revert Hc0 Hatt. clear Hlog Hcur.
  generalize (forget_abandoned_producer_opens h (c <| cx_pending ::= delete (ps_request_id ok) |>)).
  intros c1 Hc1 Hatt. unfold log, with_slot. split; conn_simpl; try apply Hc1.
  - intros h' s' Hs'. unfold slot_ok. rewrite sent_since_app, attachment_app. simpl.
    destruct (decide (h' = h)) as [->|Hne].
    + rewrite lookup_alter_eq in Hs'. destruct (cx_producers c1 !! h) as [s|] eqn:Hs; simplify_eq/=.
      rewrite lookup_delete_eq, Z.eqb_refl. destruct (oi_slots _ _ Hc1 h s Hs) as ([I1 I1'] & _).
      split_and!; [| |done| |].
      * rewrite <- (bucket_default (cx_snapshots c1 !! h)) by (intros Hb; by apply (oi_buckets _ _ Hc1) in Hb).
        eapply inv_attach; exact I1.
      * eapply batch_ok_same; [|exact I1'].
        rewrite <- (bucket_default (cx_snapshots c1 !! h)) by (intros Hb; by apply (oi_buckets _ _ Hc1) in Hb).
        apply on_producer_success_queues.
      * intros rid e'. unfold on_producer_success. cbv zeta. destruct (cx_snapshots c1 !! h); by simpl.
      * intros _ _. unfold on_producer_success. cbv zeta. destruct (cx_snapshots c1 !! h); by simpl.
    + rewrite lookup_alter_ne in Hs' by done. rewrite lookup_delete_ne by done.
      destruct (h =? h') eqn:Hh; [lia|]. by apply (oi_slots _ _ Hc1).
  - apply log_ok_snoc; [apply Hc1|done].
  - intros h' l Hl. conn_simpl. apply lookup_delete_Some in Hl as [_ Hl]. by eapply (oi_buckets _ _ Hc1).
  - intros h' Hs'. apply (oi_producers _ _ Hc1). by apply lookup_alter_is_Some in Hs'.
  - intros h' [l [_ Hl]%lookup_delete_Some]. apply (oi_snapshots _ _ Hc1). eauto.
  - intros _ a Ha. destruct (oi_ring _ _ Hc1 I a Ha). split; [done|]. by apply lookup_delete_None; right.
Qed.

(** The broker's close shuts the gate. *)
Lemma order_inv_log_close h url c :
  order_inv c ->
  order_inv (with_slot h (set_broker_ready false false) (log (LReceived (RCloseProducer (Some (h, url)))) c)).
Proof.
  intros Hc. apply (order_inv_quiet _ _ _ (evolves_shut h false c)) in Hc.
  assert (Hr : forall s, cx_producers (with_slot h (set_broker_ready false false) c) !! h = Some s ->
    broker_ready (sl_producer s) = false).
  { unfold with_slot. conn_simpl. intros s. rewrite lookup_alter_eq.
    destruct (cx_producers c !! h); intros [= <-]. done. }
  change (order_inv (log (LReceived (RCloseProducer (Some (h, url)))) (with_slot h (set_broker_ready false false) c))).
  revert Hc Hr. generalize (with_slot h (set_broker_ready false false) c). intros c1 Hc Hr.
  unfold log. split; conn_simpl; try apply Hc.
  - intros h' s Hs. destruct (oi_slots _ _ Hc h' s Hs) as ([I1 I1'] & I2 & I3 & I4).
    unfold slot_ok. rewrite sent_since_app, attachment_app. simpl.
    destruct (h =? h') eqn:Hh; [|done]. assert (h' = h) as -> by lia.
    split_and!; [done|done|by rewrite Hr|done|by rewrite Hr].
  - apply log_ok_snoc; [apply Hc|done].
Qed.

Lemma order_inv_close_frame h url c :
  order_inv c ->
  order_inv (on_close_producer h url (log (LReceived (RCloseProducer (Some (h, url)))) c)).
Proof.
  intros Hc. apply (order_inv_log_close h url) in Hc. revert Hc.
  generalize (log (LReceived (RCloseProducer (Some (h, url)))) c). intros c1 Hc.
  unfold on_close_producer, emit_in_place_producer_reattach.
  assert (Hdone : forall b : bool, order_inv (if b then push_event (EProducerClosedByBroker h url)
      (with_slot h (set_broker_ready false false) c1) else with_slot h (set_broker_ready false false) c1)).
  { intros []; [|done]. eapply order_inv_quiet; [apply evolves_core, push_event_core|done]. }
  destruct (cx_create_requests c1 !! h); [|apply Hdone]. destruct (cx_producers c1 !! h) as [s|]; [|apply Hdone].
  destruct (producer_reattach_in_place_is_eligible _); [|apply Hdone].
  match goal with |- context [retry_producer_open_inner h ?c2] =>
    assert (Hr : order_inv (snd (retry_producer_open_inner h c2))) end.
  { apply order_inv_retry; [|eapply order_inv_quiet; [|exact Hc]; by apply evolves_queues].
    intros _ s1. conn_simpl. unfold with_slot. conn_simpl. rewrite lookup_alter_eq.
    destruct (cx_producers c1 !! h); by intros [= <-]. }
  destruct (retry_producer_open_inner h _) as [[rid|] c2]; [exact Hr|].
  apply (order_inv_quiet _ _ _ (evolves_shut h false _)) in Hr. case_match; [|exact Hr].
  eapply order_inv_quiet; [apply evolves_core, push_event_core|exact Hr].
Qed.

Lemma order_inv_frame wall now r c :
  order_inv c -> order_inv (snd (on_frame hist_record server_error_name wall now r c)).
Proof.
  intros Hc. unfold on_frame. apply (order_inv_progress _ now) in Hc. revert Hc.
  generalize (frame_progress now c). intros c1 Hc. destruct r as [r|[]];
    [|eapply order_inv_quiet; [apply evolves_core, push_event_core|exact Hc]]. cbv zeta.
  assert (Hn : neutral (LReceived r) = true -> order_inv (log (LReceived r) c1))
    by (intros; by apply order_inv_log_neutral).
  destruct r as [b| | |b|b|b|b|b|b|b]; try (destruct b as [b|]; [|by apply Hn]); simpl;
    try specialize (Hn eq_refl).
  - eapply order_inv_quiet; [|exact Hn]. unfold on_connected. cbv zeta.
    etrans; [apply (evolves_state Connected)|]. by apply evolves_queues.
  - eapply order_inv_quiet; [|exact Hn]. by apply evolves_encode.
  - exact Hn.
  - eapply order_inv_quiet; [|exact Hn]. unfold on_auth_challenge.
    etrans; [apply (evolves_state AuthChallenging)|]. by apply evolves_queues.
  - eapply order_inv_quiet; [apply evolves_receipt|exact Hn].
  - eapply order_inv_quiet; [apply evolves_send_error|exact Hn].
  - apply order_inv_attach; [by apply order_inv_log_success|]. intros h e Hp Hcur.
    unfold open_is_current, get_producer, log in *. conn_simpl. apply bool_decide_eq_true in Hcur.
    destruct (cx_producers c1 !! h) as [s|] eqn:Hs; [|done]. simpl in Hcur.
    destruct (oi_slots _ _ Hc h s Hs) as (_ & _ & I3 & _). specialize (I3 _ _ Hcur Hp).
    rewrite attachment_app. simpl. rewrite I3. by rewrite decide_True.
  - eapply order_inv_quiet; [apply evolves_success|exact Hn].
  - eapply order_inv_quiet; [apply evolves_error|exact Hn].
  - destruct b as [h url]. by apply order_inv_close_frame.
Qed.

(** ** Reset *)

(** What [reset_producer] does to the fields the invariant reads. *)
Lemma reset_producer_fields c h s :
  cx_producers c !! h = Some s ->
  exists sn s', let c' := reset_producer c h in
    cx_producers c' = <[h := s']> (cx_producers c)
    /\ broker_ready (sl_producer s') = false
    /\ open_request_id (sl_producer s') = open_request_id (sl_producer s)
    /\ batch_ok (sl_producer s')
    /\ (forall wire, inv (mkSlot (sl_producer s) (default [] (cx_snapshots c !! h)) wire) ->
          inv (mkSlot (sl_producer s') (default [] (cx_snapshots c !! h) ++ sn) wire))
    /\ cx_snapshots c' = (if decide (sn = []) then cx_snapshots c
                         else <[h := default [] (cx_snapshots c !! h) ++ sn]> (cx_snapshots c))
    /\ cx_pending c' = cx_pending c /\ cx_log c' = cx_log c
    /\ cx_next_producer_id c' = cx_next_producer_id c.
Proof.
  intros Hs. unfold reset_producer. rewrite Hs.
  pose proof (fun wire => inv_reset (default [] (cx_snapshots c !! h)) wire (sl_producer s)) as Hi.
  assert (Hr : let '(_, _, _, p') := snapshot_pending_sends (sl_producer s) in
    broker_ready p' = false /\ open_request_id p' = open_request_id (sl_producer s) /\ batch_ok p').
  { unfold snapshot_pending_sends. cbv zeta.
    assert (Hl : forall ops p, same_attachment p (snd (snapshot_loop ops p))).
    { induction ops as [|op ops IH]; intros p; simpl; [done|].
      destruct (op_replay_frames op);
        match goal with |- context [snapshot_loop ops ?q] =>
          specialize (IH q); destruct (snapshot_loop ops q) as [[[??]?]?]; destruct IH; by split end. }
    match goal with |- context [snapshot_loop ?ops ?q] =>
      specialize (Hl ops q); destruct (snapshot_loop ops q) as [[[??]?]?] end. destruct Hl. by split_and!. }
  destruct (snapshot_pending_sends (sl_producer s)) as [[[wk dr] sn] p']. destruct Hr as (Hr & Ho & Hbo).
  exists sn, ((s <| sl_routing_ready := false |>) <| sl_producer := p' |>). cbv zeta.
  match goal with |- context [foldl (drop_batched h) (foldl (wake_replayed h) ?c1 wk) dr] =>
    assert (Hsc : same_core c1 (foldl (drop_batched h) (foldl (wake_replayed h) c1 wk) dr)) end.
  { etrans; [|apply same_core_foldl; intros; apply resolve_send_error_core].
    apply same_core_foldl. intros. apply wake_replayed_core. }
  destruct Hsc. conn_simpl. case_decide; conn_simpl; rewrite ?sc_snapshots; split_and!; try done.
Qed.

Lemma order_inv_reset_producer h c : order_inv_of False c -> order_inv_of False (reset_producer c h).
Proof.
  intros Hc. destruct (cx_producers c !! h) as [s|] eqn:Hs; [|by unfold reset_producer; rewrite Hs].
  destruct (reset_producer_fields c h s Hs) as (sn & s' & Hf). cbv zeta in Hf.
  revert Hf. generalize (reset_producer c h). intros c' (Hp & Hr & Ho & Hbo & Hi & Hsn & Hpe & Hl & Hn).
  destruct (oi_slots _ _ Hc h s Hs) as ([I1 I1'] & I2 & I3 & I4).
  assert (Hh : h < cx_next_producer_id c) by (apply (oi_producers _ _ Hc); eauto).
  split; rewrite ?Hl, ?Hn, ?Hpe; try apply Hc; [| | | |done].
  - intros h' s1 Hs1. rewrite Hp in Hs1. unfold slot_ok. rewrite Hsn.
    destruct (decide (h' = h)) as [->|Hne].
    + rewrite lookup_insert_eq in Hs1. injection Hs1 as <-. split_and!; [|done|by rewrite Hr| |by rewrite Hr].
      * apply Hi in I1. case_decide as Hd; [subst; by rewrite app_nil_r in I1|]. by rewrite lookup_insert_eq.
      * by rewrite Ho.
    + rewrite lookup_insert_ne in Hs1 by done. case_decide; [|rewrite lookup_insert_ne by done];
        by apply (oi_slots _ _ Hc).
  - intros h' l Hb. rewrite Hsn in Hb. case_decide as Hd; [by eapply (oi_buckets _ _ Hc)|].
    apply lookup_insert_Some in Hb as [[_ <-]|[_ Hb]]; [by destruct (default _ _), sn|by eapply (oi_buckets _ _ Hc)].
  - intros h' [s1 Hs1]. rewrite Hp in Hs1. apply lookup_insert_Some in Hs1 as [[<- _]|[_ ?]]; [done|].
    apply (oi_producers _ _ Hc). eauto.
  - intros h' [l Hb]. rewrite Hsn in Hb. case_decide; [apply (oi_snapshots _ _ Hc); eauto|].
    apply lookup_insert_Some in Hb as [[<- _]|[_ ?]]; [done|]. apply (oi_snapshots _ _ Hc). eauto.
Qed.

(** No producer is attached and no open is pending. *)
Definition detached c : Prop :=
  (forall h s, cx_producers c !! h = Some s -> broker_ready (sl_producer s) = false)
  /\ (forall rid h e, cx_pending c !! rid <> Some (PProducerOpen h e)).

Lemma detached_evolves c c' : evolves c c' -> detached c -> detached c'.
Proof.
  intros [_ _ _ _ _ Hp Ho] [Hd1 Hd2]. split.
  - intros h s' Hs'. destruct (Ho h s' Hs') as (s & Hs & [_ _ Hr _]). apply not_true_is_false.
    intros Ht%Hr. by rewrite (Hd1 h s Hs) in Ht.
  - intros rid h e Hpe%Hp. by apply Hd2 in Hpe.
Qed.

Lemma reset_producers_detach l c :
  (forall rid h e, cx_pending c !! rid <> Some (PProducerOpen h e)) ->
  (forall h s, cx_producers c !! h = Some s -> broker_ready (sl_producer s) = false \/ h ∈ l) ->
  detached (foldl reset_producer c l).
Proof.
  revert c. induction l as [|h l IH]; intros c Hp Hc; simpl.
  - split; [|done]. intros h s Hs. by destruct (Hc h s Hs) as [|?%elem_of_nil].
  - destruct (cx_producers c !! h) as [s|] eqn:Hs.
    + destruct (reset_producer_fields c h s Hs) as (sn & s' & Hf). cbv zeta in Hf.
      revert Hf. generalize (reset_producer c h). intros c' (Hq & Hr & _ & _ & _ & _ & Hpe & _).
      apply IH; [by rewrite Hpe|]. intros h' s1. rewrite Hq.
      intros [[<- <-]|[Hne Hs1]]%lookup_insert_Some; [by left|].
      destruct (Hc h' s1 Hs1) as [?|Hin]; [by left|]. right. by apply elem_of_cons in Hin as [->|].
    + assert (reset_producer c h = c) as -> by (unfold reset_producer; by rewrite Hs).
      apply IH; [done|]. intros h' s1 Hs1. destruct (Hc h' s1 Hs1) as [?|Hin]; [by left|].
      right. apply elem_of_cons in Hin as [->|]; [congruence|done].
Qed.

Lemma order_inv_log_reset c :
  order_inv_of False c -> detached c -> (forall a, Some a ∉ cx_abandoned c) -> order_inv (log LReset c).
Proof.
  intros Hc [Hd1 Hd2] Ha. unfold log. split; conn_simpl; try apply Hc.
  - intros h s Hs. destruct (oi_slots _ _ Hc h s Hs) as ([I1 I1'] & _).
    unfold slot_ok. rewrite sent_since_app, attachment_app. simpl. rewrite (Hd1 h s Hs).
    split_and!; [done..| |done]. intros rid e _ Hp. by apply Hd2 in Hp.
  - apply log_ok_snoc; [apply Hc|done].
  - intros _ a Hin. by apply Ha in Hin.
Qed.

Lemma order_inv_reset c : order_inv c -> order_inv (reset c).
Proof.
  intros Hc. assert (Hw : order_inv_of False c) by (destruct Hc; by split). clear Hc.
  unfold reset. cbv zeta.
  match goal with |- context [foldl reset_producer ?c1 _] =>
    assert (H1 : evolves c c1 /\ cx_pending c1 = ∅); [|revert H1; generalize c1; intros c2 [H1 Hp]] end.
  { match goal with |- context [foldl lose_request ?c0 ?l] =>
      assert (Hsc : same_core c0 (foldl lose_request c0 l)) by (apply same_core_foldl; intros; apply lose_request_core);
      revert Hsc; generalize (foldl lose_request c0 l) end. intros c2 Hsc. split; [|by destruct Hsc].
    transitivity c2; [|by apply evolves_queues]. etrans; [|apply evolves_core, Hsc].
    etrans; [|by apply (evolves_pending _ (fun _ => ∅))]. by apply evolves_queues. }
  apply (order_inv_quiet _ _ _ H1) in Hw.
  assert (Hd : detached (foldl reset_producer c2 (map_to_list (cx_producers c2)).*1)).
  { apply reset_producers_detach; [by rewrite Hp|]. intros h s Hs. right.
    apply list_elem_of_fmap. exists (h, s). split; [done|]. by apply elem_of_map_to_list. }
  apply (order_inv_foldl _ reset_producer (map_to_list (cx_producers c2)).*1) in Hw;
    [|intros; by apply order_inv_reset_producer].
  revert Hd Hw. generalize (foldl reset_producer c2 (map_to_list (cx_producers c2)).*1). intros c3 Hd Hw.
  match goal with |- order_inv (log LReset ?c4) => assert (H4 : evolves c3 c4) end.
  { match goal with |- context [foldl lose_waker ?a ?l] => transitivity (foldl lose_waker a l) end.
    { apply evolves_core, same_core_foldl. intros. apply lose_waker_core. }
    generalize (foldl lose_waker c3 (map_to_list (cx_wakers c3))). intros c4.
    match goal with |- context [set_handshake_state Uninitialized ?a] =>
      transitivity (set_handshake_state Uninitialized a); [|by apply evolves_queues];
      transitivity a; [|apply evolves_state] end.
    split; conn_simpl; eauto. intros a Ha. exfalso. set_solver. }
  apply order_inv_log_reset; [by eapply order_inv_quiet|by eapply detached_evolves|].
  intros a Ha. conn_simpl. unfold set_handshake_state in Ha. conn_simpl. set_solver.
Qed.

(** ** Every call *)

Lemma order_inv_queued uuid h msg res pt now c s :
  cx_producers c !! h = Some s -> next_sequence_id (sl_producer s) < u64_max ->
  let '(queued, _, p) := slot_queue_send_reserved compress uuid msg res pt now (sl_producer s) in
  order_inv c -> order_inv (c <| cx_producers ::= <[h := s <| sl_producer := p |>]> |>).
Proof.
  intros Hs Hlt. pose proof (slot_send_attachment compress uuid msg res pt now (sl_producer s)) as Ha.
  unfold slot_queue_send_reserved in *.
  destruct (queue_send_reserved compress uuid msg res pt now (sl_producer s)) as [[r res'] p'] eqn:Hq.
  apply order_inv_quiet. eapply evolves_insert; [done|]. apply moves_inv; [| |done].
  - intros wire Hi. by eapply inv_send.
  - intros Hb. exact (queue_send_batch_ok _ _ _ _ _ _ _ _ _ _ Hq Hb).
Qed.

Lemma order_inv_transmit c : order_inv c -> order_inv (snd (poll_transmit c)).
Proof.
  intros Hc. unfold poll_transmit. apply order_inv_drain_outbound in Hc.
  eapply order_inv_quiet; [|exact Hc]. by apply evolves_queues.
Qed.

Lemma order_inv_transmit_owned c : order_inv c -> order_inv (snd (poll_transmit_owned c)).
Proof.
  intros Hc. unfold poll_transmit_owned. case_decide; [|by apply order_inv_transmit]. cbv zeta.
  assert (Hv : order_inv (drain_producer_outbound_vectored c)) by (apply order_inv_drain; [apply sink_segments|done]).
  case_decide; [by apply order_inv_transmit|].
  eapply order_inv_quiet; [|exact Hv]. by apply evolves_queues.
Qed.

Lemma order_inv_tick wall now c : order_inv c -> order_inv (handle_timeout compress wall now c).
Proof.
  intros Hc. unfold handle_timeout. cbv zeta.
  eapply order_inv_quiet; [etrans; [apply evolves_sweep_sends|etrans; [apply evolves_sweep_snapshots|apply evolves_expire]]|].
  apply order_inv_drain_outbound. eapply order_inv_quiet; [|exact Hc].
  etrans; [apply evolves_keepalive|apply evolves_flush_due].
Qed.

Abbreviation exec_call := (exec_op hist_record hist_new compress server_error_name).
Abbreviation reachable_conn := (conn_reachable hist_record hist_new compress server_error_name).

Abbreviation driven_conn := (conn_driven hist_record hist_new compress server_error_name).

(** A retry leg whose open is still current finds the gate shut. *)
Lemma current_gated h rid c :
  strict = true -> order_inv c -> producer_open_retry_is_current h rid c = true -> gated c h.
Proof.
  intros Hst Hc Hcur s Hs. destruct (oi_slots _ _ Hc h s Hs) as (_ & _ & _ & I4).
  apply not_true_is_false. intros Hr%(I4 Hst). revert Hcur.
  unfold producer_open_retry_is_current, get_producer. rewrite Hs. simpl. rewrite Hr.
  repeat case_match; rewrite ?andb_false_r; try done.
Qed.

Lemma order_inv_exec o c :
  op_enabled o c -> (strict = true -> disciplined o c) -> order_inv c -> order_inv (exec_call o c).
Proof.
  intros He Hd Hc.
  assert (Hq : forall c', evolves c c' -> order_inv c') by (intros c' ?; by eapply order_inv_quiet).
  destruct o; simpl.
  - destruct (begin_handshake c) eqn:Hb; [by apply Hq, evolves_begin|done].
  - by apply order_inv_frame.
  - apply Hq, evolves_auth.
  - apply Hq, evolves_close.
  - apply Hq, evolves_disconnect.
  - by apply order_inv_reset.
  - apply Hq, evolves_fail_all.
  - by apply order_inv_create.
  - apply Hq, (evolves_close_producer h forget).
  - destruct (evolves_cancel h c) as [Hev Hnone]. eapply order_inv_evolves; [exact Hev| |exact Hc].
    intros h' [-> Hs]. split; [by apply (oi_producers _ _ Hc)|done].
  - apply Hq, evolves_fail_open.
  - by apply (order_inv_retry h).
  - unfold retry_producer_open_if_current. destruct (producer_open_retry_is_current _ _ _) eqn:E; [|done].
    apply (order_inv_retry h); [|done]. intros Hst. by eapply current_gated.
  - by apply order_inv_rebuild.
  - unfold conn_send_reserved. destruct (cx_producers c !! h) as [s|] eqn:Hs; [|done].
    assert (Hlt : next_sequence_id (sl_producer s) < u64_max)
      by (apply He; unfold get_producer; by rewrite Hs).
    pose proof (order_inv_queued uuid h msg res pt now c s Hs Hlt) as Hn.
    destruct (slot_queue_send_reserved _ _ _ _ _ _ _) as [[[q|] r] p']; [|by apply Hn].
    by apply order_inv_drain_outbound, Hn.
  - unfold slot_send. destruct (cx_producers c !! h) as [s|] eqn:Hs; [|done].
    assert (Hlt : next_sequence_id (sl_producer s) < u64_max)
      by (apply He; unfold get_producer; by rewrite Hs).
    pose proof (order_inv_queued uuid h msg res pt now c s Hs Hlt) as Hn.
    destruct (slot_queue_send_reserved _ _ _ _ _ _ _) as [[q r] p']. by apply Hn.
  - unfold flush_producer. destruct (cx_producers c !! h) as [s|] eqn:Hs; [|by apply order_inv_drain_outbound].
    pose proof (flush_batch_attachment compress pt (sl_producer s)) as Ha.
    pose proof (fun sn wire => inv_flush compress sn wire pt (sl_producer s)) as Hi.
    pose proof (flush_batch_ok compress pt (sl_producer s)) as Hb.
    destruct (flush_batch compress pt (sl_producer s)) as [n p']. apply order_inv_drain_outbound, Hq.
    eapply evolves_insert; [done|]. apply moves_inv; [|exact Hb|done]. intros wire. apply Hi.
  - apply Hq, evolves_register.
  - apply Hq, evolves_unregister.
  - apply Hq, (evolves_plain c).
  - apply Hq, evolves_cancel_request.
  - by apply Hq, evolves_queues.
  - by apply order_inv_transmit.
  - by apply order_inv_transmit_owned.
  - unfold poll_event. case_match; [done|]. by apply Hq, evolves_queues.
  - unfold poll_event_if. case_match; [|done]. destruct p. by apply Hq, evolves_queues.
  - unfold poll_driver_retry. case_match; [done|]. by apply Hq, evolves_queues.
  - by apply order_inv_tick.
Qed.

Lemma order_inv_new_conn config : order_inv (Conn_new (Hist := Hist) config).
Proof.
  split; simpl; try done.
  - by intros [] ? ? ? [=].
  - by intros ? [? [=]].
  - by intros ? [? [=]].
  - intros _ a Ha. simpl in Ha. set_solver.
Qed.
End Sends.

Section Theorems.
Context {Hist : Type}.
Variable hist_record : Hist -> Z -> Hist.
Variable hist_new : option Hist.
Variable compress : CompressionKind -> bytes -> option bytes.
Context `{!ProtoMessage SingleMessageMetadata}.
Variable server_error_name : Z -> string.
Implicit Types c : Conn Hist.

Abbreviation reachable_conn := (conn_reachable hist_record hist_new compress server_error_name).
Abbreviation driven_conn := (conn_driven hist_record hist_new compress server_error_name).

Lemma order_inv_reachable config c : reachable_conn config c -> order_inv_of false True c.
Proof.
  induction 1 as [|c o Hr IH He]; [apply order_inv_new_conn|by apply order_inv_exec].
Qed.

Lemma order_inv_driven config c : driven_conn config c -> order_inv_of true True c.
Proof.
  induction 1 as [|c o Hr IH He Hd]; [apply order_inv_new_conn|by apply order_inv_exec].
Qed.

(** C1: on a connection, through any interleaving of calls, frames, timers,
    resets and re-attachments, each producer's frames go out in order: those put
    on the wire since its last attachment, followed by those staged in its slot,
    are in sequence-id order, and the sends awaiting a receipt, those parked by a
    reset first, are in strictly increasing order. *)
Theorem conn_wire_in_order config c h s :
  reachable_conn config c -> cx_producers c !! h = Some s ->
  StronglySorted Z.le (of_sequence_id <$> sent_since h (cx_log c) ++ outbound (sl_producer s))
  /\ StronglySorted Z.lt (op_sequence_id <$> default [] (cx_snapshots c !! h) ++ pending (sl_producer s)).
Proof.
  intros Hr Hs. apply order_inv_reachable in Hr. destruct (oi_slots _ _ _ Hr h s Hs) as ([[_ [_ Hp _ _ _ Hw _ _ _ _]] _] & _).
  split; [done|]. rewrite <- fmap_app, <- list_fmap_compose in Hp. exact Hp.
Qed.

(** C2: no frame of a producer is put on the wire unless, on the same session,
    the broker has acknowledged the last open sent for that producer id, that
    very request, and has not closed the producer since, provided the engine
    calls [retry_producer_open] only for a producer that is not attached and
    [rebuild_producers] only when none is, as after a reset. *)
Theorem frames_follow_attachment config c :
  driven_conn config c ->
  forall l1 h f l2, cx_log c = l1 ++ LSent (SFrame h f) :: l2 ->
  exists rid, attachment true h l1 = (Some rid, true).
Proof.
  intros Hr l1 h f l2 Hl. apply order_inv_driven in Hr. pose proof (oi_log _ _ _ Hr _ _ _ _ Hl) as Ha.
  destruct (attachment_open_sent _ _ _ Ha) as [rid Ho]. exists rid.
  destruct (attachment true h l1); simplify_eq/=; done.
Qed.
End Theorems.
