(* ===== verification/ConnTimers.v ===== *)
(** * Timers of the connection

    A tick clears every deadline it was asked for, and the keep-alive watchdog
    fails a connection exactly when its peer has been silent. *)

From S2P Require Import Prelude Time Ids MemoryLimit Backoff AntiThrash Producer ProducerSpec ProducerQueue ConnModel ConnOps ConnFrames ConnSpec ConnOrder ConnSends.

Section Timers.
Context {Hist : Type}.
Variable hist_record : Hist -> Z -> Hist.
Variable hist_new : option Hist.
Variable compress : CompressionKind -> bytes -> option bytes.
Context `{!ProtoMessage SingleMessageMetadata}.
Variable server_error_name : Z -> string.
Implicit Types c : Conn Hist.
Implicit Types p : ProducerState Hist.

Abbreviation exec_call := (exec_op hist_record hist_new compress server_error_name).
Abbreviation reachable_conn := (conn_reachable hist_record hist_new compress server_error_name).

(** ** Calls the watchdog does not see *)

Definition heard (i : LogItem) : bool :=
  match i with LReceived _ | LReset => true | _ => false end.

Record still c c' : Prop := mkStill {
  st_config : cx_config c' = cx_config c;
  st_state : cx_state c' = cx_state c;
  st_activity : cx_last_activity c' = cx_last_activity c;
  st_ping : cx_ping_outstanding c' = cx_ping_outstanding c;
  st_log : exists k, cx_log c' = cx_log c ++ k /\ Forall (fun i => heard i = false) k;
}.

#[global] Instance still_preorder : PreOrder still.
Proof.
  split.
  - intros c. split; try done. exists []. by rewrite app_nil_r.
  - intros a b c [? ? ? ? (k1 & H1 & F1)] [? ? ? ? (k2 & H2 & F2)]. split; try congruence.
    exists (k1 ++ k2). by rewrite H2, H1, <- app_assoc, Forall_app.
Qed.

Lemma still_log c c' :
  cx_config c' = cx_config c -> cx_state c' = cx_state c -> cx_last_activity c' = cx_last_activity c ->
  cx_ping_outstanding c' = cx_ping_outstanding c -> cx_log c' = cx_log c -> still c c'.
Proof. intros. split; try done. exists []. by rewrite app_nil_r. Qed.

Lemma still_core c c' : same_core c c' -> still c c'.
Proof. intros []. by apply still_log. Qed.

Lemma still_foldl {A} (f : Conn Hist -> A -> Conn Hist) l c :
  (forall c x, still c (f c x)) -> still c (foldl f c l).
Proof. intros Hf. revert c. induction l as [|x l IH]; intros c; simpl; [done|]. etrans; [apply Hf|apply IH]. Qed.

Lemma still_encode cmd c : still c (encode_command cmd c).
Proof. split; try done. eexists. split; [done|]. by constructor. Qed.

Lemma still_emit h req c : still c (snd (emit_command_producer h req c)).
Proof.
  unfold emit_command_producer. cbn [fst snd alloc_request_id].
  match goal with |- context [encode_command ?cmd ?c0] => transitivity (encode_command cmd c0) end;
    [|by apply still_log]. etrans; [|apply still_encode]. by apply still_log.
Qed.

Lemma still_create req c : still c (snd (create_producer hist_new req c)).
Proof.
  unfold create_producer.
  assert (Hr : still c (snd (reattach_abandoned_producer_open req c)))
    by (unfold reattach_abandoned_producer_open; repeat case_match; by apply still_log).
  destruct (reattach_abandoned_producer_open req c) as [[[h e]|] c1]; cbv beta iota zeta; cbn [snd] in *;
    (etrans; [exact Hr|]); (etrans; [|apply still_emit]);
    (split; try done; eexists; split; [unfold log; conn_simpl; done|by constructor]).
Qed.

Lemma still_close_producer h forget c : still c (snd (close_producer_inner h forget c)).
Proof.
  unfold close_producer_inner. cbn [fst snd alloc_request_id].
  match goal with |- context [encode_command ?cmd ?c0] => transitivity (encode_command cmd c0) end;
    [|by apply still_log]. etrans; [|apply still_encode]. by apply still_log.
Qed.

Lemma still_terminalize_bucket h reason c : still c (terminalize_snapshot_bucket h reason c).
Proof. etrans; [|apply still_core, terminalize_bucket_core]. by apply still_log. Qed.

Lemma still_fail_open h code reason c : still c (fail_producer_open_with_broker_error h code reason c).
Proof.
  unfold fail_producer_open_with_broker_error. cbv zeta.
  match goal with |- context [terminalize_snapshot_bucket h reason ?c1] =>
    transitivity c1; [|transitivity (terminalize_snapshot_bucket h reason c1);
      [apply still_terminalize_bucket|by apply still_log]] end.
  destruct (cx_producers c !! h) as [s|]; [|done].
  etrans; [|apply still_core, terminalize_drained_core]. by apply still_log.
Qed.

Lemma still_cancel h c : still c (cancel_producer_open h c).
Proof.
  unfold cancel_producer_open. cbv zeta.
  match goal with |- context [foldl (fun c rid => cancel_request rid c) ?c1 ?l] =>
    assert (H1 : still c c1); [|transitivity (foldl (fun c rid => cancel_request rid c) c1 l);
      [etrans; [exact H1|]|by apply still_log]] end.
  - repeat case_match; try done; (etrans; [apply (still_close_producer h true)|]); try done; by apply still_log.
  - apply still_foldl. intros. by apply still_log.
Qed.

Lemma still_retry h c : still c (snd (retry_producer_open_inner h c)).
Proof.
  unfold retry_producer_open_inner. destruct (cx_create_requests c !! h) as [req|]; [|done].
  destruct (cx_producers c !! h) as [s|]; [|done]. case_match; [done|].
  pose proof (still_emit h req (with_slot h bump_epoch c)) as He.
  destruct (emit_command_producer _ _ _) as [rid c1]. etrans; [|exact He]. by apply still_log.
Qed.

Lemma still_rebuild c : still c (rebuild_producers c).
Proof.
  unfold rebuild_producers. cbv zeta. transitivity (foldl rebuild_one c (rebuildable c)); [|by apply still_log].
  apply still_foldl. intros c1 e. etrans; [|apply still_emit]. by apply still_log.
Qed.

Lemma still_drain dst c : sink dst -> still c (drain_all dst c).
Proof.
  intros Hd. unfold drain_all. case_decide; [|done]. apply still_foldl. intros c1 h.
  unfold drain_into. destruct (cx_producers c1 !! h) as [s|]; [|done].
  destruct (drain_slot (sl_producer s)) as [fs p'].
  match goal with |- still _ (update cx_log _ (dst ?l ?c2)) => pose proof (Hd l c2) as []; split; conn_simpl; try done end.
  eexists. rewrite sc_log. split; [done|]. rewrite !Forall_fmap. by apply Forall_true.
Qed.

Lemma still_transmit c : still c (snd (poll_transmit c)).
Proof.
  unfold poll_transmit. transitivity (drain_producer_outbound c); [apply still_drain, sink_outbound|by apply still_log].
Qed.

Lemma still_reclaim h code c : still c (snd (reclaim_busy_producer_name h code c)).
Proof.
  unfold reclaim_busy_producer_name. case_match; [done|]. destruct (abandoned_open_key_of h c); [|done].
  cbv zeta. etrans; [|apply still_foldl; intros; apply still_close_producer]. by apply still_log.
Qed.

Lemma still_open_failed h rid code m c : still c (open_failed h rid code m c).
Proof.
  unfold open_failed. cbv zeta. destruct (should_retry_after_failure _ _); [by apply still_log|].
  etrans; [|apply still_fail_open]. by apply still_log.
Qed.

Lemma still_fail_all reason c : still c (fail_all_pending reason c).
Proof.
  unfold fail_all_pending. cbv zeta. etrans; [|apply still_core, push_event_core].
  match goal with |- still _ (update cx_driver_retries _ ?c1) => transitivity c1; [|by apply still_log] end.
  etrans; [|apply still_core, same_core_foldl; intros; apply fail_waker_core].
  etrans; [|apply still_foldl; intros; apply still_terminalize_bucket].
  etrans; [|apply still_foldl].
  - etrans; [|apply still_core, same_core_foldl; intros; apply fail_request_core]. by apply still_log.
  - intros c1 h. unfold fail_producer. destruct (cx_producers c1 !! h) as [s|]; [|done].
    etrans; [|apply still_core, terminalize_drained_core]. by apply still_log.
Qed.

(** Neither a frame, nor a tick, nor a change of the session. *)
Definition quiet (o : ConnCall) : bool :=
  match o with
  | CallBegin | CallFrame _ _ _ | CallAuthResponse _ _ | CallClose _ | CallDisconnect _ | CallReset
  | CallTick _ _ => false
  | _ => true
  end.

Lemma still_exec o c : quiet o = true -> still c (exec_call o c).
Proof.
  destruct o; intros Hq; simplify_eq/=.
  - apply still_fail_all.
  - apply still_create.
  - apply (still_close_producer h forget).
  - apply still_cancel.
  - apply still_fail_open.
  - apply (still_retry h).
  - unfold retry_producer_open_if_current. case_match; [apply (still_retry h)|done].
  - apply still_rebuild.
  - unfold conn_send_reserved. destruct (cx_producers c !! h) as [s|]; [|done].
    destruct (slot_queue_send_reserved _ _ _ _ _ _ _) as [[[q|] r] p']; [|by apply still_log].
    etrans; [|apply still_drain, sink_outbound]. by apply still_log.
  - unfold slot_send. destruct (cx_producers c !! h) as [s|]; [|done].
    destruct (slot_queue_send_reserved _ _ _ _ _ _ _) as [[q r] p']. by apply still_log.
  - unfold flush_producer. destruct (cx_producers c !! h) as [s|]; [|apply still_drain, sink_outbound].
    destruct (flush_batch _ _ _) as [n p']. etrans; [|apply still_drain, sink_outbound]. by apply still_log.
  - unfold conn_register_waker. destruct (cx_outcomes c !! k); [by apply still_log|].
    destruct k as [|h q]; [by apply still_log|]. destruct (cx_producers c !! h) as [s|]; [|by apply still_log].
    destruct (register_waker q w (sl_producer s)) as [[] p']; by apply still_log.
  - destruct k; by apply still_log.
  - by apply still_log.
  - by apply still_log.
  - by apply still_log.
  - apply still_transmit.
  - unfold poll_transmit_owned. case_decide; [|apply still_transmit]. cbv zeta.
    assert (Hv : still c (drain_producer_outbound_vectored c)) by apply still_drain, sink_segments.
    case_decide; (etrans; [exact Hv|]); [apply still_transmit|by apply still_log].
  - unfold poll_event. case_match; [done|by apply still_log].
  - unfold poll_event_if. case_match; [|done]. destruct p. by apply still_log.
  - unfold poll_driver_retry. case_match; [done|by apply still_log].
Qed.

Definition run (calls : list ConnCall) c : Conn Hist := foldl (fun c o => exec_call o c) c calls.

Lemma still_run calls c : Forall (fun o => quiet o = true) calls -> still c (run calls c).
Proof.
  intros Hq. revert c. induction Hq as [|o calls Ho Hq IH]; intros c; [done|].
  simpl. etrans; [by apply still_exec|apply IH].
Qed.

(** What a tick does after the keep-alive. *)
Lemma still_tick wall now c : still (keepalive_tick wall now c) (handle_timeout compress wall now c).
Proof.
  unfold handle_timeout. cbv zeta. generalize (keepalive_tick wall now c). intros c1.
  etrans; [|apply still_foldl; intros c2 e; etrans; [|apply still_open_failed]; by apply still_log].
  transitivity (drain_producer_outbound (c1 <| cx_producers ::= fmap (flush_due compress wall now) |>)).
  { etrans; [|apply still_drain, sink_outbound]. by apply still_log. }
  generalize (drain_producer_outbound (c1 <| cx_producers ::= fmap (flush_due compress wall now) |>)). intros c2.
  transitivity (sweep_sends now c2).
  { unfold sweep_sends. cbv zeta. etrans; [|apply still_core, same_core_foldl; intros; apply same_core_foldl;
      intros; apply resolve_send_error_core]. by apply still_log. }
  generalize (sweep_sends now c2). intros c3. unfold sweep_all_snapshots. cbv zeta.
  transitivity (foldl (sweep_bucket now) c3 (map_to_list (cx_snapshots c3)).*1); [|by apply still_log].
  apply still_foldl. intros c4 h. unfold sweep_bucket. repeat case_match; try done.
  etrans; [|apply still_core, same_core_foldl; intros; apply resolve_send_error_core]. by apply still_log.
Qed.

(** ** The watchdog *)

Definition pinged_unheard (l : list LogItem) : Prop :=
  exists l1 l2, l = l1 ++ LSent (SCommand CPing) :: l2 /\ Forall (fun i => heard i = false) l2.

Definition ping_inv c : Prop := cx_ping_outstanding c = true -> pinged_unheard (cx_log c).

Lemma ping_inv_still c c' : still c c' -> ping_inv c -> ping_inv c'.
Proof.
  intros [_ _ _ Hp (k & Hl & Hk)] Hi. unfold ping_inv. rewrite Hp, Hl. intros Ht.
  destruct (Hi Ht) as (l1 & l2 & -> & Hf). exists l1, (l2 ++ k). rewrite <- app_assoc, Forall_app. done.
Qed.

Lemma frame_answers_ping wall now r c :
  cx_ping_outstanding (snd (on_frame hist_record server_error_name wall now r c)) = false.
Proof.
  unfold on_frame. destruct r as [r|[]]; [|done]. cbv zeta.
  assert (H0 : cx_ping_outstanding (log (LReceived r) (frame_progress now c)) = false) by done.
  revert H0. generalize (log (LReceived r) (frame_progress now c)). intros c1 H0.
  assert (Hs : forall c', still c1 c' -> cx_ping_outstanding c' = false) by (intros c' []; congruence).
  destruct r as [b| | |b|b|b|b|b|b|b]; try (destruct b as [b|]; [|done]); simpl; try done; apply Hs.
  - unfold on_receipt. destruct (cx_producers c1 !! _); [|done]. destruct (on_send_receipt _ _ _ _).
    etrans; [|apply still_core, same_core_foldl; intros; apply settle_receipt_core]. by apply still_log.
  - unfold on_error_of_send. destruct (cx_producers c1 !! _); [|done].
    destruct (on_send_error _ _) as [[[[op code] m]|] p']; [|by apply still_log]. cbv zeta.
    etrans; [|apply still_core, push_observational_core].
    destruct (op_waker op); [by apply still_log|]. etrans; [|apply still_core, wake_key_core]. by apply still_log.
  - unfold on_success_of_open. cbv zeta. destruct (cx_pending c1 !! _) as [[h e| | |]|]; try by apply still_log.
    case_match; [by apply still_log|]. etrans; [|apply still_core, record_reattach_core].
    match goal with |- context [forget_abandoned_producer_opens h ?c2] =>
      transitivity (forget_abandoned_producer_opens h c2);
        [unfold forget_abandoned_producer_opens; case_match; by apply still_log|];
      generalize (forget_abandoned_producer_opens h c2) end. intros c2.
    split; try done. exists [LAttached h (ps_request_id b)]. split; [done|by constructor].
  - unfold on_success, wake_for_request. cbv zeta.
    assert (Hf : forall h c2, still c1 c2 -> still c1 (fail_sends_of_closed_producer h b c2)).
    { intros h c2 H2. etrans; [exact H2|]. unfold fail_sends_of_closed_producer. repeat case_match; try done.
      etrans; [|apply still_terminalize_bucket]. etrans; [|apply still_core, terminalize_drained_core].
      by apply still_log. }
    destruct (cx_pending c1 !! b) as [[]|]; try apply Hf; try (by apply still_log);
      (etrans; [|apply still_core, wake_key_core]); by apply still_log.
  - unfold on_error, wake_for_request. cbv zeta.
    match goal with |- still _ (match cx_pending ?c2 !! _ with _ => _ end) =>
      assert (H2 : still c1 c2) by (case_match; by apply still_log);
      etrans; [exact H2|]; generalize c2; clear end. intros c2.
    destruct (cx_pending c2 !! _) as [[h e| | |]|]; try (by apply still_log);
      try ((etrans; [|apply still_core, wake_key_core]); by apply still_log).
    unfold on_error_of_open. case_match; [by apply still_log|]. cbv zeta.
    match goal with |- context [reclaim_busy_producer_name h ?code ?c3] =>
      transitivity (snd (reclaim_busy_producer_name h code c3));
        [etrans; [|apply still_reclaim]; by apply still_log|];
      generalize (snd (reclaim_busy_producer_name h code c3)) end. intros c3.
    case_match; [apply still_open_failed|]. case_match; [apply still_fail_open|by apply still_log].
  - unfold on_close_producer. destruct b as [h url]. simpl.
    assert (Hr : still c1 (snd (emit_in_place_producer_reattach h c1))).
    { unfold emit_in_place_producer_reattach. repeat case_match; try done.
      etrans; [|apply still_retry]. by apply still_log. }
    destruct (emit_in_place_producer_reattach h c1) as [[rid|] c2]; [exact Hr|].
    etrans; [exact Hr|]. case_match; by apply still_log.
Qed.

Lemma ping_inv_exec o c : ping_inv c -> ping_inv (exec_call o c).
Proof.
  intros Hi. destruct (quiet o) eqn:Hq; [by eapply ping_inv_still; [by apply still_exec|]|].
  assert (Hst : forall c2, cx_ping_outstanding c2 = cx_ping_outstanding c -> cx_log c2 = cx_log c -> ping_inv c2)
    by (intros c2 Hp Hl; unfold ping_inv; by rewrite Hp, Hl).
  destruct o; simplify_eq/=.
  - unfold begin_handshake. case_decide; [|done].
    match goal with |- context [encode_command ?cmd c] => exact (ping_inv_still _ _ (still_encode cmd c) Hi) end.
  - unfold ping_inv. by rewrite frame_answers_ping.
  - unfold submit_auth_response.
    match goal with |- context [encode_command ?cmd c] => pose proof (ping_inv_still _ _ (still_encode cmd c) Hi) end.
    by case_decide.
  - apply Hst; unfold conn_close; by case_match.
  - apply Hst; unfold mark_disconnected; by case_match.
  - by unfold ping_inv.
  - eapply ping_inv_still; [apply still_tick|]. unfold keepalive_tick. cbv zeta. destruct (_ && _); [|done].
    destruct (cx_ping_outstanding c) eqn:Hp; [apply Hst; unfold mark_disconnected; by destruct (is_closed c)|].
    intros _. exists (cx_log c), []. split; [done|constructor].
Qed.

Lemma ping_inv_reachable config c : reachable_conn config c -> ping_inv c.
Proof. induction 1; [done|by apply ping_inv_exec]. Qed.

Lemma tick_state wall now c :
  cx_state (handle_timeout compress wall now c) = cx_state (keepalive_tick wall now c).
Proof. apply still_tick. Qed.

(** C5: the watchdog is exact.  A tick fails a connected session only if its
    last ping has been followed by no frame, and no reset, for a keep-alive
    interval; and a peer that stays silent is found out by the second tick
    after the deadline, whatever calls are made in between. *)
Theorem watchdog_exact config c t w1 now1 :
  reachable_conn config c -> cx_state c = Connected -> cx_last_activity c = Some t ->
  let interval := cfg_keepalive_interval (cx_config c) in
  let c1 := exec_call (CallTick w1 now1) c in
  (cx_state c1 = FailedState -> pinged_unheard (cx_log c) /\ deadline_with_clamp t interval <= now1)
  /\ (forall calls w2 now2,
        deadline_with_clamp t interval <= now1 -> Forall (fun o => quiet o = true) calls ->
        deadline_with_clamp now1 interval <= now2 ->
        cx_state (exec_call (CallTick w2 now2) (run calls c1)) = FailedState).
Proof.
  intros Hr Hc Ht. cbv zeta. simpl. pose proof (ping_inv_reachable _ _ Hr) as Hi.
  assert (Hk : keepalive_tick w1 now1 c =
    if deadline_with_clamp t (cfg_keepalive_interval (cx_config c)) <=? now1 then
      if cx_ping_outstanding c then mark_disconnected w1 c
      else ((encode_command CPing c) <| cx_ping_outstanding := true |>) <| cx_last_activity := Some now1 |>
    else c).
  { unfold keepalive_tick, keepalive_deadline, is_connected. rewrite Ht. simpl.
    rewrite bool_decide_eq_true_2 by done. by rewrite andb_true_r. }
  split.
  - rewrite tick_state, Hk. case_match; [|congruence]. destruct (cx_ping_outstanding c) eqn:Hp.
    + intros _. split; [by apply Hi|lia].
    + unfold encode_command, log. conn_simpl. congruence.
  - intros calls w2 now2 H1 Hq H2.
    assert (Hs : still (keepalive_tick w1 now1 c) (run calls (handle_timeout compress w1 now1 c))).
    { etrans; [apply still_tick|by apply still_run]. }
    revert Hs. generalize (run calls (handle_timeout compress w1 now1 c)). intros c2 [Hcf Hst Hac Hpi _].
    rewrite tick_state. rewrite Hk in *. case_match; [|lia]. destruct (cx_ping_outstanding c) eqn:Hp.
    + assert (Hs2 : cx_state c2 = FailedState) by (rewrite Hst; unfold mark_disconnected; by case_match).
      unfold keepalive_tick, is_connected. rewrite bool_decide_eq_false_2 by congruence. by rewrite andb_false_r.
    + unfold encode_command, log in *. conn_simpl.
      unfold keepalive_tick, keepalive_deadline, is_connected. rewrite Hac, Hpi, Hcf. simpl.
      rewrite (bool_decide_eq_true_2 (cx_state c2 = Connected)) by congruence.
      destruct (_ <=? now2) eqn:Hd; [|lia]. simpl. done.
Qed.

(** ** Deadlines *)

Definition all_slots (P : ProducerState Hist -> Prop) c : Prop :=
  forall h s, cx_producers c !! h = Some s -> P (sl_producer s).

Definition batch_timely (now : Z) p : Prop := forall d, next_batch_deadline p = Some d -> now < d.
Definition send_timely (now : Z) p : Prop := forall d, next_send_deadline p = Some d -> now < d.

Record same_timers p p' : Prop := mkSameTimers {
  tm_pending : pending p' = pending p;
  tm_batch : batch p' = batch p;
  tm_timeout : send_timeout p' = send_timeout p;
  tm_delay : batching_max_publish_delay p' = batching_max_publish_delay p;
  tm_ever : has_ever_attached p' = has_ever_attached p;
}.

#[global] Instance same_timers_preorder : PreOrder same_timers.
Proof. split; [by split|]. intros a b c [] []. split; congruence. Qed.

Lemma timely_same now p p' :
  same_timers p p' -> batch_timely now p /\ send_timely now p -> batch_timely now p' /\ send_timely now p'.
Proof.
  intros [Hp Hb Ht Hd _]. unfold batch_timely, send_timely, next_batch_deadline, next_send_deadline.
  by rewrite Hp, Hb, Ht, Hd.
Qed.

Lemma flush_due_timely wall now s :
  batch_ok (sl_producer s) ->
  (closed (sl_producer s) = true -> batch_is_empty (batch (sl_producer s)) = true) ->
  batch_timely now (sl_producer (flush_due compress wall now s)).
Proof.
  intros Hok Hcl. unfold flush_due. destruct (batch_deadline_elapsed now (sl_producer s)) eqn:He.
  - assert (Hne : batch_is_empty (batch (sl_producer s)) = false).
    { destruct (batch_is_empty (batch (sl_producer s))) eqn:Hb; [|done]. exfalso. specialize (Hok Hb).
      unfold batch_deadline_elapsed, next_batch_deadline in He. rewrite Hok in He.
      by destruct (batching_max_publish_delay (sl_producer s)). }
    destruct (closed (sl_producer s)) eqn:Hc; [by rewrite Hcl in Hne|].
    intros d. simpl. unfold flush_batch. rewrite Hne, Hc. simpl.
    unfold next_batch_deadline. simpl. by destruct (batching_max_publish_delay (sl_producer s)).
  - intros d Hd. unfold batch_deadline_elapsed in He. rewrite Hd in He. lia.
Qed.

Lemma sweep_timely now p : send_timely now (snd (sweep_timeouts now p)).
Proof.
  unfold sweep_timeouts, drain_timed_out_sends, send_timely, next_send_deadline.
  destruct (send_timeout p) as [t|] eqn:Ht; simpl; [|by rewrite Ht].
  assert (Hl : forall ops m d, (op ← head (drain_expired now t ops m).1.2;
      Some (deadline_with_clamp (op_enqueued_at op) t)) = Some d -> now < d).
  { induction ops as [|op ops IH]; intros m d; simpl; [done|].
    destruct (now <? deadline_with_clamp (op_enqueued_at op) t) eqn:Hd; simpl; [intros [= <-]; lia|].
    specialize (IH (delete (op_sequence_id op) m) d).
    destruct (drain_expired now t ops (delete (op_sequence_id op) m)) as [[??]?]. exact IH. }
  specialize (Hl (pending p) (pending_index p)).
  destruct (drain_expired now t (pending p) (pending_index p)) as [[out kept] m]. simpl in *.
  rewrite Ht. exact Hl.
Qed.

Lemma sweep_batch now p : batch (snd (sweep_timeouts now p)) = batch p
  /\ batching_max_publish_delay (snd (sweep_timeouts now p)) = batching_max_publish_delay p.
Proof.
  unfold sweep_timeouts, drain_timed_out_sends. destruct (send_timeout p); [|done].
  by destruct (drain_expired _ _ _ _) as [[??]?].
Qed.

Lemma remove_elapsed_timers qs bucket p : same_timers p (snd (remove_elapsed qs bucket p)).
Proof.
  revert bucket p. induction qs as [|q qs IH]; intros bucket p; simpl; [done|].
  destruct bucket as [|op rest]; [apply IH|]. case_match; [|apply IH].
  match goal with |- context [remove_elapsed qs rest ?p1] =>
    specialize (IH rest p1); destruct (remove_elapsed qs rest p1) as [[??]?] end.
  etrans; [|exact IH]. by split.
Qed.

(** After the sweep of a bucket its first send is not due. *)
Lemma sweep_snapshots_timely now bucket p t :
  send_timeout p = Some t ->
  from_option (fun op => now < deadline_with_clamp (op_enqueued_at op) t) True
    (head (sweep_snapshots now bucket p).1.2).
Proof.
  intros Ht. unfold sweep_snapshots. rewrite Ht. clear Ht. revert p.
  induction bucket as [|op rest IH]; intros p; simpl; [done|].
  destruct (now <? deadline_with_clamp (op_enqueued_at op) t) eqn:Hd; simpl; [lia|]. rewrite Z.eqb_refl.
  match goal with |- context [remove_elapsed _ rest ?p1] =>
    specialize (IH p1); destruct (remove_elapsed _ rest p1) as [[??]?] end. exact IH.
Qed.

(** ** The stages of a tick *)

Lemma all_slots_core P c c' : same_core c c' -> all_slots P c -> all_slots P c'.
Proof. intros [] Ha h s. rewrite sc_producers. apply Ha. Qed.

Lemma all_slots_drain P c :
  (forall p, P p -> P (p <| outbound := [] |>)) -> all_slots P c -> all_slots P (drain_producer_outbound c).
Proof.
  intros HP. unfold drain_producer_outbound, drain_all. case_decide; [|done].
  generalize (map_to_list (cx_producers c)).*1. intros l. clear H. revert c.
  induction l as [|h l IH]; intros c Ha; [done|]. simpl. apply IH. unfold drain_into.
  destruct (cx_producers c !! h) as [s|] eqn:Hs; [|done]. rewrite drain_slot_spec.
  assert (Hp : P (sl_producer s)) by by eapply Ha.
  unfold to_outbound. destruct (broker_ready (sl_producer s)); intros h' s'; conn_simpl;
    intros [[<- <-]|[_ Hs']]%lookup_insert_Some; simpl; eauto.
Qed.

Lemma all_slots_sweep now c :
  all_slots (batch_timely now) c ->
  all_slots (fun p => batch_timely now p /\ send_timely now p) (sweep_sends now c).
Proof.
  intros Ha. unfold sweep_sends. cbv zeta. eapply all_slots_core.
  { apply same_core_foldl. intros. apply same_core_foldl. intros. apply resolve_send_error_core. }
  intros h s'. conn_simpl. rewrite lookup_fmap. destruct (cx_producers c !! h) as [s|] eqn:Hs; intros [= <-].
  simpl. split; [|apply sweep_timely]. specialize (Ha h s Hs). unfold batch_timely, next_batch_deadline in *.
  destruct (sweep_batch now (sl_producer s)) as [-> ->]. exact Ha.
Qed.

(** The later stages: slots keep their timers, buckets and requests only go. *)
Record winds c c' : Prop := mkWinds {
  wi_still : still c c';
  wi_slots : forall h s', cx_producers c' !! h = Some s' ->
    exists s, cx_producers c !! h = Some s /\ same_timers (sl_producer s) (sl_producer s');
  wi_snapshots : forall h l, cx_snapshots c' !! h = Some l -> cx_snapshots c !! h = Some l;
  wi_pending : forall rid k, cx_pending c' !! rid = Some k -> cx_pending c !! rid = Some k;
}.

#[global] Instance winds_preorder : PreOrder winds.
Proof.
  split.
  - intros c. split; eauto; [done|]. intros h s Hs. exists s. done.
  - intros a b c [? S1 ? ?] [? S2 ? ?]. split; eauto; [by etrans|].
    intros h s' Hs'. destruct (S2 h s' Hs') as (s & Hs & ?). destruct (S1 h s Hs) as (s0 & ? & ?).
    exists s0. split; [done|by etrans].
Qed.

Lemma winds_core c c' : same_core c c' -> winds c c'.
Proof.
  intros Hc. pose proof (still_core _ _ Hc). destruct Hc. split; rewrite ?sc_producers, ?sc_snapshots, ?sc_pending; eauto.
  intros h s Hs. exists s. done.
Qed.

Lemma winds_slot c h f :
  (forall s, same_timers (sl_producer s) (sl_producer (f s))) -> winds c (with_slot h f c).
Proof.
  intros Hf. split; [by apply still_log| |done..]. intros h' s'. unfold with_slot. conn_simpl.
  destruct (decide (h' = h)) as [->|Hne].
  - rewrite lookup_alter_eq. destruct (cx_producers c !! h) as [s|]; intros [= <-]. eauto.
  - rewrite lookup_alter_ne by done. intros Hs. exists s'. done.
Qed.

Lemma winds_fail_open h code reason c : winds c (fail_producer_open_with_broker_error h code reason c).
Proof.
  split; [apply still_fail_open|..]; unfold fail_producer_open_with_broker_error; cbv zeta; conn_simpl;
    match goal with |- context [terminalize_snapshot_bucket h reason ?c1] =>
      assert (Hc : exists x, same_core (c <| cx_producers ::= x |>) c1
        /\ forall h' s', h' <> h -> x (cx_producers c) !! h' = Some s' -> cx_producers c !! h' = Some s');
      [|pose proof (terminalize_bucket_core h reason c1) as Ht; revert Ht;
        generalize (terminalize_snapshot_bucket h reason c1); intros c2 Ht;
        destruct Hc as (x & [] & Hx); destruct Ht as [_ _ _ _ Hp2 Hq2 _ _ Hs2 _ _ _ _ _];
        unfold push_event; conn_simpl] end.
  1,3,5: destruct (cx_producers c !! h) as [s|] eqn:Hs;
    [eexists; split; [apply terminalize_drained_core|]; intros h' s' Hne; by rewrite lookup_insert_ne
    |exists id; split; [by split|done]].
  - intros h' s' [Hne Hs']%lookup_delete_Some. rewrite Hq2, sc_producers in Hs'. exists s'. split; [|done]. by apply Hx.
  - intros h' l Hl. rewrite Hs2, sc_snapshots in Hl. by apply lookup_delete_Some in Hl as [_ ?].
  - intros rid k Hk. by rewrite Hp2, sc_pending in Hk.
Qed.

Lemma winds_expire rid h c :
  winds c (expire_pending_producer_open rid h c)
  /\ cx_pending (expire_pending_producer_open rid h c) !! rid = None.
Proof.
  assert (Hw : winds (c <| cx_pending ::= delete rid |>) (expire_pending_producer_open rid h c)).
  { unfold expire_pending_producer_open, open_failed. cbv zeta.
    match goal with |- winds ?c0 (if _ then push_event _ (update cx_driver_retries _ ?c1) else _) =>
      assert (H1 : winds c0 c1) by (apply winds_slot; by split); etrans; [exact H1|]; generalize c1 end.
    intros c1. destruct (should_retry_after_failure _ _); [|apply winds_fail_open].
    split; [by apply still_log| |done..]. intros h' s' Hs'. exists s'. done. }
  split.
  - etrans; [|exact Hw]. split; [by apply still_log| |done|].
    + intros h' s' Hs'. exists s'. done.
    + conn_simpl. intros rid' k [_ ?]%lookup_delete_Some. done.
  - apply eq_None_not_Some. intros [k Hk]. apply (wi_pending _ _ Hw) in Hk. conn_simpl.
    by rewrite lookup_delete_eq in Hk.
Qed.

Lemma winds_expire_opens now c :
  winds c (expire_opens now c)
  /\ forall rid h, (rid, h) ∈ expired_opens now c -> cx_pending (expire_opens now c) !! rid = None.
Proof.
  unfold expire_opens. generalize (expired_opens now c). intros l. revert c.
  induction l as [|[rid h] l IH]; intros c; simpl; [split; [done|by intros ? ? ?%elem_of_nil]|].
  destruct (winds_expire rid h c) as [H1 H2]. destruct (IH (expire_pending_producer_open rid h c)) as [H3 H4].
  split; [by etrans|]. intros rid' h' [[= -> ->]|Hin]%elem_of_cons; [|by eapply H4].
  apply eq_None_not_Some. intros [k Hk]. apply (wi_pending _ _ H3) in Hk. congruence.
Qed.

Definition snap_timely (now : Z) c (h : Z) : Prop :=
  forall l d, cx_snapshots c !! h = Some l -> snapshot_deadline c (h, l) = Some d -> now < d.

Lemma sweep_bucket_stage now c h :
  (forall h' s', cx_producers (sweep_bucket now c h) !! h' = Some s' ->
     exists s, cx_producers c !! h' = Some s /\ same_timers (sl_producer s) (sl_producer s'))
  /\ cx_pending (sweep_bucket now c h) = cx_pending c
  /\ snap_timely now (sweep_bucket now c h) h
  /\ (forall h', h' <> h -> cx_snapshots (sweep_bucket now c h) !! h' = cx_snapshots c !! h'
        /\ (snap_timely now c h' -> snap_timely now (sweep_bucket now c h) h')).
Proof.
  unfold sweep_bucket, snap_timely, snapshot_deadline, get_producer. simpl.
  destruct (cx_snapshots c !! h) as [bucket|] eqn:Hb;
    [|split_and!; [intros h' s' Hs'; by exists s'|done|by intros l d; rewrite Hb|done]].
  destruct (cx_producers c !! h) as [s|] eqn:Hs.
  2: { split_and!; [intros h' s' Hs'; by exists s'|done| |done]. intros l d Hl. rewrite Hs.
       by destruct (head l). }
  pose proof (sweep_snapshots_timely now bucket (sl_producer s)) as Ht.
  assert (Htm : same_timers (sl_producer s) (snd (sweep_snapshots now bucket (sl_producer s)))).
  { unfold sweep_snapshots. case_match; [apply remove_elapsed_timers|done]. }
  destruct (sweep_snapshots now bucket (sl_producer s)) as [[out rest] p']. simpl in *.
  match goal with |- context [foldl (time_out h) ?c1 out] =>
    assert (Hsc : same_core c1 (foldl (time_out h) c1 out)) by (apply same_core_foldl; intros; apply resolve_send_error_core);
    revert Hsc; generalize (foldl (time_out h) c1 out) end.
  intros c2 []. conn_simpl. rewrite sc_producers, sc_pending, sc_snapshots. split_and!; [| done| |].
  - intros h' s' [[<- <-]|[_ Hs']]%lookup_insert_Some; [by exists s|by exists s'].
  - intros l d. rewrite !lookup_insert_eq. intros [= <-]. simpl. rewrite (tm_timeout _ _ Htm).
    destruct (head rest) as [op|]; [|done]. simpl. destruct (send_timeout (sl_producer s)) as [t|]; [|done].
    simpl. intros [= <-]. by apply Ht.
  - intros h' Hne. rewrite !lookup_insert_ne by done. done.
Qed.

Lemma sweep_buckets now l c :
  (forall h, snap_timely now c h \/ h ∈ l) ->
  let c' := foldl (sweep_bucket now) c l in
  (forall h s', cx_producers c' !! h = Some s' ->
     exists s, cx_producers c !! h = Some s /\ same_timers (sl_producer s) (sl_producer s'))
  /\ cx_pending c' = cx_pending c /\ forall h, snap_timely now c' h.
Proof.
  revert c. induction l as [|h l IH]; intros c Hc; cbv zeta; simpl.
  - split_and!; [intros h s' Hs'; by exists s'|done|]. intros h. by destruct (Hc h) as [|?%elem_of_nil].
  - destruct (sweep_bucket_stage now c h) as (S1 & S2 & S3 & S4).
    destruct (IH (sweep_bucket now c h)) as (I1 & I2 & I3).
    { intros h'. destruct (decide (h' = h)) as [->|Hne]; [by left|]. destruct (S4 h' Hne) as [_ Hst].
      destruct (Hc h') as [?|Hin]; [left; by apply Hst|]. right. by apply elem_of_cons in Hin as [->|]. }
    split_and!; [|congruence|done]. intros h' s' Hs'. destruct (I1 h' s' Hs') as (s & Hs & ?).
    destruct (S1 h' s Hs) as (s0 & ? & ?). exists s0. split; [done|by etrans].
Qed.

Lemma sweep_all_stage now c :
  let c' := sweep_all_snapshots now c in
  (forall h s', cx_producers c' !! h = Some s' ->
     exists s, cx_producers c !! h = Some s /\ same_timers (sl_producer s) (sl_producer s'))
  /\ cx_pending c' = cx_pending c /\ forall h, snap_timely now c' h.
Proof.
  cbv zeta. unfold sweep_all_snapshots. cbv zeta.
  destruct (sweep_buckets now (map_to_list (cx_snapshots c)).*1 c) as (S1 & S2 & S3).
  { intros h. destruct (cx_snapshots c !! h) as [l|] eqn:Hl.
    - right. apply list_elem_of_fmap. exists (h, l). split; [done|by apply elem_of_map_to_list].
    - left. intros l d Hl'. congruence. }
  revert S1 S2 S3. generalize (foldl (sweep_bucket now) c (map_to_list (cx_snapshots c)).*1).
  intros c1 S1 S2 S3. split_and!; [exact S1|exact S2|].
  intros h l d Hl Hd. conn_simpl. apply map_lookup_filter_Some in Hl as [Hl _]. by apply (S3 h l d).
Qed.

Lemma poll_timeout_elem c d :
  producer_poll_timeout c = Some d -> keepalive_deadline c = Some d \/ d ∈ slot_deadlines c
    \/ d ∈ omap (snapshot_deadline c) (map_to_list (cx_snapshots c)) \/ d ∈ open_deadlines c.
Proof.
  unfold producer_poll_timeout. rewrite <- !elem_of_app.
  generalize (slot_deadlines c ++ omap (snapshot_deadline c) (map_to_list (cx_snapshots c)) ++ open_deadlines c) as l.
  generalize (keepalive_deadline c) as acc. intros acc l. revert acc.
  induction l as [|x l IH]; intros acc; simpl; [by left|]. intros [Ha|?]%IH; [|right; by right].
  destruct acc as [n|]; simplify_eq.
  - destruct (Z.min_spec n x) as [[_ ->]|[_ ->]]; [by left|right; by left].
  - right. by left.
Qed.

Lemma keepalive_timely wall now c :
  0 < cfg_keepalive_interval (cx_config c) -> cx_state (keepalive_tick wall now c) = Connected ->
  forall d, keepalive_deadline (keepalive_tick wall now c) = Some d -> now < d.
Proof.
  intros Hi. unfold keepalive_tick. cbv zeta.
  destruct (keepalive_deadline c) as [k|] eqn:Hk; simpl; [|congruence].
  destruct (k <=? now) eqn:Hd; simpl.
  - unfold is_connected. case_bool_decide; [|done]. destruct (cx_ping_outstanding c); [done|].
    intros _ d. unfold keepalive_deadline. simpl. intros [= <-]. by apply deadline_gt.
  - intros _ d. rewrite Hk. intros [= <-]. lia.
Qed.

(** The opens still pending after the sweep of those past their deadline *)
Lemma open_deadline_timely now c d :
  d ∈ omap (fun e => snd <$> pending_producer_open_deadline (expire_opens now c) e.2)
        (map_to_list (cx_pending (expire_opens now c))) -> now < d.
Proof.
  destruct (winds_expire_opens now c) as [[[Hcf _ _ _ _] W1 _ W3] Hex].
  intros ([rid k] & Hk & Hd)%list_elem_of_omap. apply elem_of_map_to_list in Hk. simpl in Hd.
  destruct k as [h [e|]| | |]; try done. unfold pending_producer_open_deadline, get_producer in Hd.
  rewrite Hcf in Hd. destruct (cx_producers (expire_opens now c) !! h) as [s'|] eqn:Hs'; [|done]. simpl in Hd.
  destruct (W1 h s' Hs') as (s & Hs & Ht). rewrite (tm_ever _ _ Ht) in Hd.
  destruct (has_ever_attached (sl_producer s)) eqn:He; [|done]. simpl in Hd. injection Hd as <-.
  destruct (decide (deadline_with_clamp e (cfg_operation_timeout (cx_config c)) <= now)) as [Hle|]; [exfalso|lia].
  assert (Hin : (rid, h) ∈ expired_opens now c).
  { unfold expired_opens. apply list_elem_of_omap. exists (rid, PProducerOpen h (Some e)).
    split; [by apply elem_of_map_to_list, W3|]. unfold pending_producer_open_deadline, get_producer.
    simpl. rewrite Hs. simpl. rewrite He. by destruct (_ <=? now) eqn:Hcmp; [|lia]. }
  apply Hex in Hin. congruence.
Qed.

(** C6: the timers of the keep-alive and of the producers make progress: once
    a tick has run on a session that is still connected, the next deadline that
    [poll_timeout] reports for the keep-alive, the sends, the batches, the sends
    parked by a reset and the unanswered opens lies in the future, so that none of
    them wakes the driver at once.  The keep-alive interval must be positive, and
    no producer may have been closed with messages in its batch.  The deadlines of
    consumers, acknowledgements and statistics are not part of this. *)
Theorem tick_clears_deadlines config c wall now d :
  reachable_conn config c -> 0 < cfg_keepalive_interval (cx_config c) ->
  (forall h s, cx_producers c !! h = Some s -> closed (sl_producer s) = true ->
     batch_is_empty (batch (sl_producer s)) = true) ->
  let c' := exec_call (CallTick wall now) c in
  cx_state c' = Connected -> producer_poll_timeout c' = Some d -> now < d.
Proof.
  intros Hr Hi Hcl. cbv zeta. simpl. intros Hst Hd%poll_timeout_elem.
  pose proof (order_inv_reachable _ _ _ _ _ _ Hr) as Ho. clear Hr.
  rewrite tick_state in Hst. pose proof (keepalive_timely _ _ _ Hi Hst) as Hka.
  assert (Hkd : keepalive_deadline (handle_timeout compress wall now c) = keepalive_deadline (keepalive_tick wall now c)).
  { destruct (still_tick wall now c) as [Hcf _ Hac _ _]. unfold keepalive_deadline. by rewrite Hcf, Hac. }
  assert (Hp1 : forall h s, cx_producers (keepalive_tick wall now c) !! h = Some s ->
    exists s0, cx_producers c !! h = Some s0 /\ sl_producer s = sl_producer s0).
  { unfold keepalive_tick. cbv zeta. intros h s. destruct (_ && _); [|by eauto].
    destruct (cx_ping_outstanding c); [|by eauto]. unfold mark_disconnected, set_handshake_state. conn_simpl.
    rewrite lookup_fmap. destruct (is_closed c); simpl; destruct (cx_producers c !! h); intros [= <-]; eauto. }
  revert Hd. rewrite Hkd. clear Hkd.
  unfold handle_timeout. cbv zeta. generalize dependent (keepalive_tick wall now c). intros c1 _ Hka Hp1.
  assert (H2 : all_slots (batch_timely now) (c1 <| cx_producers ::= fmap (flush_due compress wall now) |>)).
  { intros h s'. conn_simpl. rewrite lookup_fmap. destruct (cx_producers c1 !! h) as [s|] eqn:Hs; intros [= <-].
    destruct (Hp1 h s Hs) as (s0 & Hs0 & Heq). apply flush_due_timely; rewrite Heq; [|by eapply Hcl].
    by destruct (oi_slots _ _ _ Ho h s0 Hs0) as ([_ ?] & _). }
  apply all_slots_drain in H2; [|done].
  generalize dependent (drain_producer_outbound (c1 <| cx_producers ::= fmap (flush_due compress wall now) |>)).
  intros c2 H2. apply all_slots_sweep in H2. generalize dependent (sweep_sends now c2). intros c3 H3.
  destruct (sweep_all_stage now c3) as (S1 & _ & S3).
  generalize dependent (sweep_all_snapshots now c3). intros c4 S1 S3.
  destruct (winds_expire_opens now c4) as [[_ W1 W2 _] _].
  intros [Hd|[Hd|[Hd|Hd]]].
  - by apply Hka.
  - apply list_elem_of_bind in Hd as ([h s'] & Hd & Hs'). apply elem_of_map_to_list in Hs'. simpl in Hd.
    destruct (W1 h s' Hs') as (s4 & Hs4 & Ht4). destruct (S1 h s4 Hs4) as (s3 & Hs3 & Ht3).
    destruct (timely_same now _ _ Ht4 (timely_same now _ _ Ht3 (H3 h s3 Hs3))) as [Hb Hse].
    apply elem_of_app in Hd as [Hd|Hd].
    + destruct (next_send_deadline (sl_producer s')) eqn:He; [|by apply elem_of_nil in Hd].
      apply list_elem_of_singleton in Hd as ->. by apply Hse.
    + destruct (next_batch_deadline (sl_producer s')) eqn:He; [|by apply elem_of_nil in Hd].
      apply list_elem_of_singleton in Hd as ->. by apply Hb.
  - apply list_elem_of_omap in Hd as ([h l] & Hl & Hd). apply elem_of_map_to_list in Hl.
    apply (S3 h l d (W2 h l Hl)). unfold snapshot_deadline, get_producer in *. simpl in *.
    destruct (head l) as [op|]; [|done]. simpl in *.
    destruct (cx_producers (expire_opens now c4) !! h) as [s'|] eqn:Hs'; [|done]. simpl in Hd.
    destruct (W1 h s' Hs') as (s4 & -> & Ht4). simpl. by rewrite <- (tm_timeout _ _ Ht4).
  - by eapply open_deadline_timely.
Qed.
End Timers.
