(* ===== verification/ConnWaiters.v ===== *)
(** * The end of a session

    [reset] and [fail_all_pending] leave nobody waiting: what each of their
    stages does to the wakers and outcomes, and the theorem on the whole. *)

From S2P Require Import Prelude Time Ids MemoryLimit Backoff AntiThrash Producer ProducerSpec ConnModel ConnOps ConnFrames ConnSpec.

Section Waiters.
Context {Hist : Type}.
Implicit Types c : Conn Hist.

(** ** Who waits *)

(** A key whose close was sent with nobody to wait for it. *)
Definition forgotten c (k : PendingOpKey) : Prop :=
  exists rid h, k = KRequest rid /\ cx_pending c !! rid = Some (PProducerCloseForgotten h).

Definition key_of (h : Z) (op : OpSend) : PendingOpKey := KSend h (op_sequence_id op).

(** No send under a key of [K] has a waker of its own. *)
Definition unheld (K : PendingOpKey -> Prop) c : Prop :=
  (forall h s op, cx_producers c !! h = Some s -> op ∈ pending (sl_producer s) ->
     K (key_of h op) -> op_waker op = None)
  /\ (forall h l op, cx_snapshots c !! h = Some l -> op ∈ l -> K (key_of h op) -> op_waker op = None).

(** The waker last registered under a key: the one its send holds, or else the
    one of the slab. *)
Definition waits c (k : PendingOpKey) (w : waker) : Prop :=
  (exists h s op, k = key_of h op /\ cx_producers c !! h = Some s /\ op ∈ pending (sl_producer s)
     /\ op_waker op = Some w)
  \/ cx_wakers c !! k = Some w /\ unheld (eq k) c.

(** ** One stage *)

Section Stage.
(** The outcomes the stage installs, and the keys whose waker is in the slab *)
Variable F : PendingOpKey -> option OpOutcome -> Prop.
Variable K : PendingOpKey -> Prop.

Definition parked c (k : PendingOpKey) : Prop :=
  exists h l op, k = key_of h op /\ cx_snapshots c !! h = Some l /\ op ∈ l.

Definition settled c (k : PendingOpKey) : Prop := F k (cx_outcomes c !! k) \/ parked c k.

(** [c'] is [c] after [new] have been woken: a waker of the slab stays there or
    is woken, a send stays or is settled and its waker woken. *)
Record rouses (new : list waker) c c' : Prop := mkRouses {
  ro_woken : cx_woken c' = cx_woken c ++ new;
  ro_settled : forall k, settled c k -> settled c' k;
  ro_slab : forall k w, K k -> cx_wakers c !! k = Some w -> cx_wakers c' !! k = Some w \/ w ∈ new;
  ro_sends : forall h s op, cx_producers c !! h = Some s -> op ∈ pending (sl_producer s) ->
    (exists s', cx_producers c' !! h = Some s' /\ op ∈ pending (sl_producer s'))
    \/ settled c' (key_of h op) /\ forall w, op_waker op = Some w -> w ∈ new;
}.

Lemma rouses_trans n1 n2 a b c : rouses n1 a b -> rouses n2 b c -> rouses (n1 ++ n2) a c.
Proof.
  intros [W1 O1 S1 P1] [W2 O2 S2 P2]. split.
  - by rewrite W2, W1, app_assoc.
  - eauto.
  - intros k w Hk Hw. rewrite elem_of_app. destruct (S1 k w Hk Hw) as [Hw'|]; [|by right; left].
    destruct (S2 k w Hk Hw'); [by left|by right; right].
  - intros h s op Hs Hop. destruct (P1 h s op Hs Hop) as [(s' & Hs' & Hop')|[Hf Hn]].
    + destruct (P2 h s' op Hs' Hop') as [?|[? Hn]]; [by left|]. right. split; [done|].
      intros w Hw. apply elem_of_app. right. by apply Hn.
    + right. split; [by apply O2|]. intros w Hw. apply elem_of_app. left. by apply Hn.
Qed.

Lemma settled_same c c' :
  (forall k, cx_outcomes c' !! k = cx_outcomes c !! k \/ F k (cx_outcomes c' !! k)) ->
  cx_snapshots c' = cx_snapshots c -> forall k, settled c k -> settled c' k.
Proof.
  intros Ho Hq k. unfold settled, parked. rewrite Hq. intros [Hf|Hp]; [left|by right].
  by destruct (Ho k) as [->|].
Qed.

(** A step outside the tables of wakers, outcomes and sends *)
Lemma rouses_quiet c c' :
  cx_woken c' = cx_woken c -> cx_outcomes c' = cx_outcomes c -> cx_wakers c' = cx_wakers c ->
  cx_producers c' = cx_producers c -> cx_snapshots c' = cx_snapshots c -> rouses [] c c'.
Proof.
  intros Hw Ho Hs Hp Hq. split; [by rewrite app_nil_r| | |]; rewrite ?Hs, ?Hp; eauto.
  apply settled_same; [|done]. rewrite Ho. by left.
Qed.

(** Settling one key wakes [w], and takes the key's waker out of the slab. *)
Lemma rouses_key c c' k new :
  cx_woken c' = cx_woken c ++ new ->
  (cx_outcomes c' !! k = cx_outcomes c !! k \/ F k (cx_outcomes c' !! k)) ->
  (forall k', k' <> k -> cx_outcomes c' !! k' = cx_outcomes c !! k') ->
  cx_wakers c' = delete k (cx_wakers c) ->
  (K k -> forall w, cx_wakers c !! k = Some w -> w ∈ new) ->
  cx_producers c' = cx_producers c -> cx_snapshots c' = cx_snapshots c -> rouses new c c'.
Proof.
  intros Hw Ho Hne Hs Hn Hp Hq. split; rewrite ?Hp; eauto.
  - apply settled_same; [|done]. intros k'. destruct (decide (k' = k)) as [->|Hk]; [done|left; by apply Hne].
  - intros k' w Hk Hl. rewrite Hs. destruct (decide (k' = k)) as [->|Hd]; [right; by apply Hn|].
    left. by rewrite lookup_delete_ne.
Qed.

(** Every element of a list of steps settles its key and wakes its own waker. *)
Definition settles {A} (key : A -> option PendingOpKey) (own : A -> option waker)
    (f : Conn Hist -> A -> Conn Hist) (x : A) : Prop :=
  forall c, exists new, rouses new c (f c x) /\ (forall k, key x = Some k -> settled (f c x) k)
    /\ forall w, own x = Some w -> w ∈ new.

Lemma rouses_list {A} (key : A -> option PendingOpKey) own f (l : list A) c :
  (forall x, x ∈ l -> settles key own f x) ->
  exists new, rouses new c (foldl f c l)
    /\ forall x, x ∈ l -> (forall k, key x = Some k -> settled (foldl f c l) k)
       /\ forall w, own x = Some w -> w ∈ new.
Proof.
  revert c. induction l as [|x l IH]; intros c Hl; simpl.
  - exists []. split; [by apply rouses_quiet|]. by intros x ?%elem_of_nil.
  - destruct (Hl x (list_elem_of_here _ _) c) as (n1 & R1 & F1 & W1).
    destruct (IH (f c x)) as (n2 & R2 & H2); [intros y Hy; apply Hl; by right|].
    exists (n1 ++ n2). split; [by eapply rouses_trans|]. intros y [->|Hy]%elem_of_cons.
    + split; [intros k Hk; eapply ro_settled; [exact R2|by apply F1]|].
      intros w Hw. apply elem_of_app. left. by apply W1.
    + destruct (H2 y Hy) as [? Hn]. split; [done|]. intros w Hw. apply elem_of_app. right. by apply Hn.
Qed.

Lemma rouses_inv {A} (I : Conn Hist -> Prop) (f : Conn Hist -> A -> Conn Hist) l c :
  (forall c x, I c -> I (f c x) /\ exists new, rouses new c (f c x)) ->
  I c -> I (foldl f c l) /\ exists new, rouses new c (foldl f c l).
Proof.
  intros Hf. revert c. induction l as [|x l IH]; intros c Hc; simpl.
  - split; [done|]. exists []. by apply rouses_quiet.
  - destruct (Hf c x Hc) as [Hx [n1 R1]]. destruct (IH _ Hx) as [? [n2 R2]].
    split; [done|]. exists (n1 ++ n2). by eapply rouses_trans.
Qed.

(** The sends of a slot are taken out and settled one by one. *)
Lemma rouses_empty h s s' c c' new :
  cx_producers c !! h = Some s ->
  rouses new (c <| cx_producers ::= <[h := s']> |>) c' ->
  (forall op, op ∈ pending (sl_producer s) ->
     settled c' (key_of h op) /\ forall w, op_waker op = Some w -> w ∈ new) ->
  rouses new c c'.
Proof.
  intros Hs [W O S P] Hop. split; try done. intros h0 s0 op Hs0 Hin.
  destruct (decide (h0 = h)) as [->|Hne]; [simplify_eq; right; by apply Hop|].
  apply (P h0 s0); [|done]. conn_simpl. by rewrite lookup_insert_ne.
Qed.

(** A step that settles a key and wakes its own waker, or else the slab's *)
Lemma wakes_own_or_slab c k (own : option waker) (c1 : Conn Hist) :
  cx_woken c1 = cx_woken c -> cx_wakers c1 = delete k (cx_wakers c) ->
  (K k -> own = None) ->
  let c' := match own with Some w => wake w c1 | None => wake_opt (cx_wakers c !! k) c1 end in
  exists new, cx_woken c' = cx_woken c ++ new
    /\ (forall w, own = Some w -> w ∈ new)
    /\ (K k -> forall w, cx_wakers c !! k = Some w -> w ∈ new)
    /\ same_core c1 c' /\ cx_outcomes c' = cx_outcomes c1 /\ cx_wakers c' = delete k (cx_wakers c).
Proof.
  intros Hw Hs Hk c'. subst c'. destruct own as [w|].
  - exists [w]. cbn [wake cx_woken update]. rewrite Hw. split_and!; [done| | |by split|done|done].
    + intros ? [= ->]. by left.
    + intros HK. by apply Hk in HK.
  - destruct (cx_wakers c !! k) as [w|]; simpl.
    + exists [w]. rewrite Hw. split_and!; [done|done| |by split|done|done]. intros _ ? [= ->]. by left.
    + exists []. rewrite Hw, app_nil_r. split_and!; [done|done|done|by split|done|done].
Qed.

Lemma settles_terminalize h reason op :
  (forall k, F k (Some (OTerminal k reason))) -> (K (key_of h op) -> op_waker op = None) ->
  settles (fun op => Some (key_of h op)) op_waker (terminalize h reason) op.
Proof.
  intros HF HK c. set (k := key_of h op) in *. set (c0 := install k (OTerminal k reason) c).
  pose proof (fun Hw Hd => wakes_own_or_slab c0 k (op_waker op) (snd (remove_waker k c0)) Hw Hd HK) as Hw.
  cbv zeta in Hw. specialize (Hw eq_refl eq_refl). change (match op_waker op with Some w => _ | None => _ end) with (terminalize h reason c op) in Hw.
  destruct Hw as (new & Hn & Ho & Hs & [] & Hout & Hw).
  assert (Hk : cx_outcomes (terminalize h reason c op) !! k = Some (OTerminal k reason)).
  { rewrite Hout. apply (lookup_insert_eq (cx_outcomes c)). }
  exists new. split_and!; [|intros ? [= <-]; left; fold k; rewrite Hk; by apply HF|done].
  eapply (rouses_key _ _ k); [exact Hn|right; rewrite Hk; by apply HF| |exact Hw|exact Hs|done|done].
  intros k' Hne. rewrite Hout. by apply (lookup_insert_ne (cx_outcomes c)).
Qed.

Lemma rouses_install k o c :
  F k (Some o) ->
  let c' := wake_key k (install k o c) in exists new, rouses new c c' /\ settled c' k.
Proof.
  intros HF. pose proof (fun Hw Hd => wakes_own_or_slab (install k o c) k None
    (snd (remove_waker k (install k o c))) Hw Hd (fun _ => eq_refl)) as Hw.
  cbv zeta in *. specialize (Hw eq_refl eq_refl).
  change (wake_opt _ _) with (wake_key k (install k o c)) in Hw.
  destruct Hw as (new & Hn & _ & Hs & [] & Hout & Hw).
  assert (Hk : cx_outcomes (wake_key k (install k o c)) !! k = Some o)
    by (rewrite Hout; apply (lookup_insert_eq (cx_outcomes c))).
  exists new. unfold settled. rewrite Hk. split; [|by left].
  eapply (rouses_key _ _ k); [exact Hn|right; by rewrite Hk| |exact Hw|exact Hs|done|done].
  intros k' Hne. rewrite Hout. by apply (lookup_insert_ne (cx_outcomes c)).
Qed.

Definition request_key (e : Z * PendingRequestKind) : option PendingOpKey :=
  match e.2 with PProducerCloseForgotten _ => None | _ => Some (KRequest e.1) end.

(** A request is settled, or forgotten together with its waker. *)
Lemma settles_request (f : Conn Hist -> Z * PendingRequestKind -> Conn Hist) o e :
  (forall c, f c e = match e.2 with
                     | PProducerCloseForgotten _ => c <| cx_wakers ::= delete (KRequest e.1) |>
                     | _ => wake_key (KRequest e.1) (install (KRequest e.1) o c)
                     end) ->
  F (KRequest e.1) (Some o) -> (request_key e = None -> ~ K (KRequest e.1)) ->
  settles request_key (fun _ => None) f e.
Proof.
  intros Hf HF HK c. destruct (rouses_install (KRequest e.1) o c HF) as (new & Hr & Hk).
  unfold request_key in *. rewrite Hf. destruct e.2.
  1,2,4: exists new; split_and!; [done|by intros k' [= <-]|done].
  exists []. split_and!; [|done|done]. eapply (rouses_key _ _ (KRequest e.1)); try done; [|by left|].
  - by rewrite app_nil_r.
  - intros Hk'. by destruct (HK eq_refl).
Qed.

Lemma unheld_core c c' : same_core c c' -> unheld K c -> unheld K c'.
Proof. unfold unheld. by intros [_ _ _ _ _ -> _ _ -> _ _ _ _ _]. Qed.

Lemma unheld_insert c h s s' :
  cx_producers c !! h = Some s -> pending (sl_producer s') = [] -> unheld K c ->
  unheld K (c <| cx_producers ::= <[h := s']> |>).
Proof.
  intros Hs He [H1 H2]. split; [|done]. conn_simpl. intros h0 s0 op.
  rewrite lookup_insert_Some. intros [[<- <-]|[_ ?]]; [rewrite He; by intros ?%elem_of_nil|by eapply H1].
Qed.

Lemma rouses_fail_producer reason c h :
  (forall k, F k (Some (OTerminal k reason))) -> unheld K c ->
  unheld K (fail_producer reason c h) /\ exists new, rouses new c (fail_producer reason c h).
Proof.
  intros HF Hu. unfold fail_producer. destruct (cx_producers c !! h) as [s|] eqn:Hs.
  2: split; [done|]; exists []; by apply rouses_quiet.
  cbn [drain_pending_sends close].
  match goal with |- context [c <| cx_producers ::= <[h := ?s0]> |>] => set (s' := s0) end.
  change (pending (close (sl_producer s))) with (pending (sl_producer s)).
  assert (Hu' : unheld K (c <| cx_producers ::= <[h := s']> |>)) by (by eapply unheld_insert).
  split; [eapply unheld_core; [apply terminalize_drained_core|done]|].
  destruct (rouses_list (fun op => Some (key_of h op)) op_waker (terminalize h reason) (pending (sl_producer s))
    (c <| cx_producers ::= <[h := s']> |>)) as (new & Hr & Hop).
  { intros op Hop. apply settles_terminalize; [done|]. by apply (proj1 Hu h s op). }
  exists new. eapply rouses_empty; [done|exact Hr|]. intros op Hin. destruct (Hop op Hin) as [Ho ?].
  split; [by apply Ho|done].
Qed.

Lemma rouses_bucket reason c h :
  (forall k, F k (Some (OTerminal k reason))) -> unheld K c ->
  unheld K (terminalize_snapshot_bucket h reason c)
  /\ exists new, rouses new c (terminalize_snapshot_bucket h reason c).
Proof.
  intros HF Hu. split.
  { eapply unheld_core; [apply terminalize_bucket_core|]. destruct Hu as [H1 H2]. split; [done|].
    conn_simpl. intros h' l op [_ ?]%lookup_delete_Some. by eapply H2. }
  unfold terminalize_snapshot_bucket. destruct (cx_snapshots c !! h) as [l|] eqn:Hl.
  2: exists []; by apply rouses_quiet.
  destruct (rouses_list (fun op => Some (key_of h op)) op_waker (terminalize h reason) l
    (c <| cx_snapshots ::= delete h |>)) as (new & [W O S P] & Hop).
  { intros op Hop. apply settles_terminalize; [done|]. by apply (proj2 Hu h l op). }
  exists new. split; try done. intros k [Hf|(h' & l' & op & -> & Hl' & Hin)]; [apply O; by left|].
  destruct (decide (h' = h)) as [->|Hne]; [simplify_eq; by apply (proj1 (Hop op Hin))|].
  apply O. right. exists h', l', op. split_and!; [done| |done]. conn_simpl. by rewrite lookup_delete_ne.
Qed.

(** ** The sends of a reset *)

Lemma snapshot_loop_sorts (ops : list OpSend) (p : ProducerState Hist) :
  let '(wakers, dropped, snapshots, _) := snapshot_loop ops p in
  (forall op, op ∈ ops -> op ∈ dropped
     \/ (op_sequence_id op, op_waker op) ∈ wakers /\ (op <| op_waker := None |>) ∈ snapshots)
  /\ (forall e, e ∈ wakers -> exists op, op ∈ ops /\ e = (op_sequence_id op, op_waker op))
  /\ (forall op, op ∈ dropped -> op ∈ ops) /\ forall op, op ∈ snapshots -> op_waker op = None.
Proof.
  revert p. induction ops as [|op ops IH]; intros p; simpl.
  - split_and!; by intros ? ?%elem_of_nil.
  - destruct (op_replay_frames op);
      (match goal with |- context [snapshot_loop ops ?p0] => specialize (IH p0);
        destruct (snapshot_loop ops p0) as [[[wk dr] sn] p'] end); destruct IH as (I1 & I2 & I3 & I4).
    + split_and!; [|intros e He; destruct (I2 e He) as (op' & ? & ?); exists op'; split; [by right|done]| |done].
      * intros op' [->|Hin]%elem_of_cons; [left; by left|]. destruct (I1 op' Hin); [left; by right|by right].
      * intros op' [->|Hin]%elem_of_cons; [by left|right; by apply I3].
    + split_and!; [| |intros op' Hin; right; by apply I3|].
      * intros op' [->|Hin]%elem_of_cons; [right; split; by left|].
        destruct (I1 op' Hin) as [?|[? ?]]; [by left|right; split; by right].
      * intros e [->|He]%elem_of_cons; [exists op; split; [by left|done]|].
        destruct (I2 e He) as (op' & ? & ?). exists op'. split; [by right|done].
      * intros op' [->|Hin]%elem_of_cons; [done|by apply I4].
Qed.

Lemma settles_replayed h e :
  (K (KSend h e.1) -> e.2 = None) -> settles (fun _ => None) snd (wake_replayed h) e.
Proof.
  intros HK c. destruct e as [q own]. simpl in HK.
  pose proof (fun Hw Hd => wakes_own_or_slab c (KSend h q) own (snd (remove_waker (KSend h q) c)) Hw Hd HK) as Hw.
  cbv zeta in Hw. specialize (Hw eq_refl eq_refl).
  change (match own with Some w => _ | None => _ end) with (wake_replayed h c (q, own)) in Hw.
  destruct Hw as (new & Hn & Ho & Hs & [] & Hout & Hw). exists new. split_and!; [|done|done].
  eapply (rouses_key _ _ (KSend h q)); [exact Hn| | |exact Hw|exact Hs|done|done]; by rewrite Hout; eauto.
Qed.

Lemma settles_dropped h op :
  F (key_of h op) (Some (OSendError (op_sequence_id op) BATCH_RESET_ERROR_CODE BATCH_RESET_ERROR_MESSAGE)) ->
  (K (key_of h op) -> op_waker op = None) ->
  settles (fun op => Some (key_of h op)) op_waker (drop_batched h) op.
Proof.
  intros HF HK c. set (k := key_of h op) in *.
  set (o := OSendError (op_sequence_id op) BATCH_RESET_ERROR_CODE BATCH_RESET_ERROR_MESSAGE) in *.
  set (c0 := install k o c).
  pose proof (fun Hw Hd => wakes_own_or_slab c0 k (op_waker op) (snd (remove_waker k c0)) Hw Hd HK) as Hw.
  cbv zeta in Hw. specialize (Hw eq_refl eq_refl).
  assert (Hd : drop_batched h c op = push_event (ESendError h (op_sequence_id op) BATCH_RESET_ERROR_CODE
    BATCH_RESET_ERROR_MESSAGE) (match op_waker op with
    | Some w => wake w (snd (remove_waker k c0)) | None => wake_opt (cx_wakers c0 !! k) (snd (remove_waker k c0)) end))
    by reflexivity.
  rewrite Hd. clear Hd. revert Hw.
  generalize (match op_waker op with
    | Some w => wake w (snd (remove_waker k c0)) | None => wake_opt (cx_wakers c0 !! k) (snd (remove_waker k c0)) end).
  intros c1 (new & Hn & Ho & Hs & [] & Hout & Hw). unfold push_event.
  assert (Hk : cx_outcomes c1 !! k = Some o) by (rewrite Hout; apply (lookup_insert_eq (cx_outcomes c))).
  exists new. split_and!; [|intros ? [= <-]; left; fold k; conn_simpl; by rewrite Hk|done].
  eapply (rouses_key _ _ k); [exact Hn|right; conn_simpl; by rewrite Hk| |exact Hw|exact Hs|done|done].
  intros k' Hne. conn_simpl. rewrite Hout. by apply (lookup_insert_ne (cx_outcomes c)).
Qed.

Lemma rouses_park h snapshots c :
  rouses [] c (if decide (snapshots = []) then c
               else c <| cx_snapshots ::= <[h := default [] (cx_snapshots c !! h) ++ snapshots]> |>).
Proof.
  case_decide; [by apply rouses_quiet|]. split; [by rewrite app_nil_r| |by left|by eauto].
  intros k [Hf|(h' & l & op & -> & Hl & Hin)]; [by left|right]. conn_simpl.
  destruct (decide (h' = h)) as [->|Hne].
  - exists h, (l ++ snapshots), op. conn_simpl. rewrite lookup_insert_eq, Hl. split_and!; [done..|].
    apply elem_of_app. by left.
  - exists h', l, op. conn_simpl. by rewrite lookup_insert_ne.
Qed.

Lemma unheld_park h snapshots c :
  (forall op, op ∈ snapshots -> op_waker op = None) -> unheld K c ->
  unheld K (if decide (snapshots = []) then c
            else c <| cx_snapshots ::= <[h := default [] (cx_snapshots c !! h) ++ snapshots]> |>).
Proof.
  intros Hs [H1 H2]. case_decide; [done|]. split; [done|]. conn_simpl. intros h' l op.
  rewrite lookup_insert_Some. intros [[<- <-]|[_ ?]]; [|by eapply H2].
  rewrite elem_of_app. intros [Hin|Hin]; [|by rewrite Hs].
  destruct (cx_snapshots c !! h) as [l|] eqn:Hl; [by eapply H2|by apply elem_of_nil in Hin].
Qed.

Lemma rouses_reset_producer c h :
  (forall h q, F (KSend h q) (Some (OSendError q BATCH_RESET_ERROR_CODE BATCH_RESET_ERROR_MESSAGE))) ->
  unheld K c -> unheld K (reset_producer c h) /\ exists new, rouses new c (reset_producer c h).
Proof.
  intros HF Hu. unfold reset_producer. destruct (cx_producers c !! h) as [s|] eqn:Hs.
  2: split; [done|]; exists []; by apply rouses_quiet.
  unfold snapshot_pending_sends.
  match goal with |- context [snapshot_loop ?l ?p0] => pose proof (snapshot_loop_sorts l p0) as Hsp end.
  destruct (snapshot_loop _ _) as [[[wk dr] sn] p']. destruct Hsp as (S1 & S2 & S3 & S4). cbn [broker_ready pending] in *.
  match goal with |- context [c <| cx_producers ::= <[h := ?s0]> |>] => set (s' := s0) end.
  change (pending (sl_producer s) <| broker_ready := false |>) with (pending (sl_producer s)) in *.
  destruct (rouses_list (fun _ => None) snd (wake_replayed h) wk (c <| cx_producers ::= <[h := s']> |>)) as (n1 & R1 & H1).
  { intros e He. apply settles_replayed. destruct (S2 e He) as (op & Hop & ->). by apply (proj1 Hu h s op). }
  assert (C1 := same_core_foldl (wake_replayed h) wk (c <| cx_producers ::= <[h := s']> |>) ltac:(intros; apply wake_replayed_core)).
  revert R1 H1 C1. generalize (foldl (wake_replayed h) (c <| cx_producers ::= <[h := s']> |>) wk). intros c1 R1 H1 C1.
  destruct (rouses_list (fun op => Some (key_of h op)) op_waker (drop_batched h) dr c1) as (n2 & R2 & H2).
  { intros op Hop. apply settles_dropped; [apply HF|]. apply (proj1 Hu h s op Hs), S3, Hop. }
  assert (C2 := same_core_foldl (drop_batched h) dr c1 ltac:(intros; apply resolve_send_error_core)).
  revert R2 H2 C2. generalize (foldl (drop_batched h) c1 dr). intros c2 R2 H2 C2.
  pose proof (rouses_park h sn c2) as R3. split.
  - apply unheld_park; [done|]. eapply unheld_core; [etrans; [exact C1|exact C2]|]. by eapply unheld_insert.
  - exists (n1 ++ n2 ++ []). eapply rouses_empty; [done|by eapply rouses_trans; [|eapply rouses_trans]|].
    intros op Hop. destruct (S1 op Hop) as [Hd|[Hw Hp]].
    + destruct (H2 op Hd) as [Hf Hn]. split; [apply (ro_settled _ _ _ R3); by apply Hf|].
      intros w Hw. apply elem_of_app. right. apply elem_of_app. left. by apply Hn.
    + split; [right|intros w Hw'; apply elem_of_app; left; by apply (proj2 (H1 _ Hw))]. case_decide as He; [subst sn; by apply elem_of_nil in Hp|].
      exists h, (default [] (cx_snapshots c2 !! h) ++ sn), (op <| op_waker := None |>). conn_simpl.
      rewrite lookup_insert_eq. split_and!; [done..|]. apply elem_of_app. by right.
Qed.

(** The sweep of the slab *)
Lemma rouses_lose_wakers l c :
  (forall rid, F (KRequest rid) (Some (OSessionLost (KRequest rid)))) -> NoDup l.*1 ->
  (forall k w, (k, w) ∈ l -> cx_wakers c !! k = Some w) ->
  exists new, rouses new c (foldl lose_waker c l).
Proof.
  intros HF. revert c. induction l as [|[k w] l IH]; intros c Hd Hl; simpl; [exists []; by apply rouses_quiet|].
  apply NoDup_cons in Hd as [Hk Hd].
  assert (R1 : rouses [w] c (lose_waker c (k, w))).
  { pose proof (Hl k w (list_elem_of_here _ _)) as Hw.
    eapply (rouses_key _ _ k); unfold lose_waker, wake, install; destruct k; try done; conn_simpl; try by left.
    - right. by rewrite lookup_insert_eq.
    - intros k' Hne. by rewrite lookup_insert_ne.
    - intros _ w'. rewrite Hw. intros [= ->]. by left.
    - intros _ w'. rewrite Hw. intros [= ->]. by left. }
  destruct (IH (lose_waker c (k, w)) Hd) as [n2 R2].
  { intros k' w' Hin. assert (Hne : k <> k').
    { intros ->. apply Hk, list_elem_of_fmap. by exists (k', w'). }
    specialize (Hl k' w' (list_elem_of_further _ _ _ Hin)). unfold lose_waker, wake, install.
    destruct k; conn_simpl; by rewrite lookup_delete_ne. }
  exists ([w] ++ n2). by eapply rouses_trans.
Qed.
End Stage.

(** ** Emptied tables *)

Definition emptied c (h : Z) : Prop :=
  forall s, cx_producers c !! h = Some s -> pending (sl_producer s) = [].

Lemma all_done {A B} (Q : Conn Hist -> B -> Prop) (f : Conn Hist -> A -> Conn Hist) (key : A -> B) l c :
  (forall c x, Q (f c x) (key x)) -> (forall c x b, Q c b -> Q (f c x) b) ->
  forall x, x ∈ l -> Q (foldl f c l) (key x).
Proof.
  intros H1 H2.
  assert (Hk : forall l c b, Q c b -> Q (foldl f c l) b) by (intros l'; induction l'; simpl; eauto).
  revert c. induction l as [|y l IH]; intros c x; simpl; [by intros ?%elem_of_nil|].
  intros [->|Hin]%elem_of_cons; [by apply Hk|by apply IH].
Qed.

Lemma emptied_core c c' h : same_core c c' -> emptied c h -> emptied c' h.
Proof. unfold emptied. by intros [_ _ _ _ _ -> _ _ _ _ _ _ _ _]. Qed.

Lemma emptied_insert c h s h' :
  pending (sl_producer s) = [] -> (h' = h \/ emptied c h') -> emptied (c <| cx_producers ::= <[h := s]> |>) h'.
Proof.
  intros Hs Hd s'. conn_simpl. rewrite lookup_insert_Some. intros [[<- <-]|[Hne Hs']]; [done|].
  destruct Hd as [->|He]; [done|by apply He].
Qed.

Lemma emptied_none c h : cx_producers c !! h = None -> emptied c h.
Proof. by intros Hn s; rewrite Hn. Qed.

Lemma fail_producer_empties reason c h h' : h' = h \/ emptied c h' -> emptied (fail_producer reason c h) h'.
Proof.
  intros Hd. unfold fail_producer. destruct (cx_producers c !! h) as [s|] eqn:Hs.
  - eapply emptied_core; [apply terminalize_drained_core|]. by apply emptied_insert.
  - destruct Hd as [->|]; [by apply emptied_none|done].
Qed.

Lemma reset_producer_empties c h h' : h' = h \/ emptied c h' -> emptied (reset_producer c h) h'.
Proof.
  intros Hd. unfold reset_producer. destruct (cx_producers c !! h) as [s|] eqn:Hs.
  - unfold snapshot_pending_sends. destruct (snapshot_loop _ _) as [[[wk dr] sn] p'].
    match goal with |- context [foldl (wake_replayed h) ?c0 wk] =>
      assert (He : emptied c0 h') by (by apply emptied_insert);
      assert (C : same_core c0 (foldl (drop_batched h) (foldl (wake_replayed h) c0 wk) dr));
      [transitivity (foldl (wake_replayed h) c0 wk); apply same_core_foldl; intros;
        [apply wake_replayed_core|apply resolve_send_error_core]|] end.
    pose proof (emptied_core _ _ _ C He) as He'. by case_decide.
  - destruct Hd as [->|]; [by apply emptied_none|done].
Qed.

Lemma deletes_all (f : Conn Hist -> PendingOpKey * waker -> Conn Hist) c :
  (forall c e, cx_wakers (f c e) = delete e.1 (cx_wakers c)) ->
  cx_wakers (foldl f c (map_to_list (cx_wakers c))) = ∅.
Proof.
  intros Hf. apply map_eq. intros k. rewrite lookup_empty.
  assert (Hk : forall l c, cx_wakers c !! k = None \/ k ∈ l.*1 -> cx_wakers (foldl f c l) !! k = None).
  { induction l as [|e l IH]; intros c0; simpl; [by intros [?|?%elem_of_nil]|].
    intros Hd. apply IH. rewrite Hf, lookup_delete_None. destruct Hd as [?|[->|?]%elem_of_cons]; eauto. }
  apply Hk. destruct (cx_wakers c !! k) as [w|] eqn:Hw; [right|by left].
  apply list_elem_of_fmap. exists (k, w). split; [done|by apply elem_of_map_to_list].
Qed.

(** ** Theorems *)

(** The keys whose last waker is in the slab and is awaited *)
Definition in_slab c (k : PendingOpKey) : Prop := ~ forgotten c k /\ unheld (eq k) c.

Lemma unheld_in_slab c : unheld (in_slab c) c.
Proof. split; intros h x op Hx Hop [_ Hu]; [by apply (proj1 Hu h x)|by apply (proj2 Hu h x)]. Qed.

Lemma request_in_slab c e : e ∈ map_to_list (cx_pending c) -> request_key e = None -> ~ in_slab c (KRequest e.1).
Proof.
  destruct e as [rid kind]. intros He%elem_of_map_to_list Hk [Hf _]. apply Hf.
  unfold request_key in Hk. simpl in *. destruct kind; try done. by exists rid, producer.
Qed.

Lemma request_key_some c rid kind :
  cx_pending c !! rid = Some kind -> ~ forgotten c (KRequest rid) -> request_key (rid, kind) = Some (KRequest rid).
Proof. intros Hp Hf. destruct kind; try done. destruct Hf. by exists rid, producer. Qed.

(** What a stage that empties the tables of [c] leaves of its waiters *)
Lemma all_woken F new c c' :
  rouses F (in_slab c) new c c' -> cx_wakers c' = ∅ ->
  (forall h s, cx_producers c !! h = Some s -> emptied c' h) ->
  forall k w, waits c k w -> ~ forgotten c k -> w ∈ new.
Proof.
  intros Hr Hs He k w Hw Hf. destruct Hw as [(h & s & op & -> & Hp & Hop & Ho)|[Hw Hu]].
  - destruct (ro_sends _ _ _ _ _ Hr h s op Hp Hop) as [(s' & Hs' & Hin)|[_ Hn]]; [|by apply Hn].
    rewrite (He h s Hp s' Hs') in Hin. by apply elem_of_nil in Hin.
  - destruct (ro_slab _ _ _ _ _ Hr k w (conj Hf Hu) Hw) as [Hn|]; [|done]. by rewrite Hs, lookup_empty in Hn.
Qed.

Lemma field_foldl {A B} (g : Conn Hist -> B) (f : Conn Hist -> A -> Conn Hist) l c :
  (forall c x, g (f c x) = g c) -> g (foldl f c l) = g c.
Proof. intros Hf. revert c. induction l as [|x l IH]; intros c; simpl; [done|]. by rewrite IH, Hf. Qed.

Lemma fail_producer_pending reason c h : cx_pending (fail_producer reason c h) = cx_pending c.
Proof.
  unfold fail_producer. destruct (cx_producers c !! h); [|done]. cbn [drain_pending_sends].
  match goal with |- context [terminalize_drained_sends h ?l reason ?c0] => exact (sc_pending _ _ (terminalize_drained_core h l reason c0)) end.
Qed.

Lemma buckets_cleared reason c :
  let c' := foldl (fun c h => terminalize_snapshot_bucket h reason c) c (map_to_list (cx_snapshots c)).*1 in
  cx_snapshots c' = ∅ /\ cx_pending c' = cx_pending c /\ cx_producers c' = cx_producers c.
Proof.
  cbv zeta. split_and!.
  2,3: apply (field_foldl _ (fun c h => terminalize_snapshot_bucket h reason c)); intros c0 h;
    by destruct (terminalize_bucket_core h reason c0).
  apply map_eq. intros h. rewrite lookup_empty.
  assert (Hb : forall c0 h', cx_snapshots (terminalize_snapshot_bucket h' reason c0) = delete h' (cx_snapshots c0))
    by (intros c0 h'; by destruct (terminalize_bucket_core h' reason c0)).
  assert (Hk : forall l c, cx_snapshots c !! h = None \/ h ∈ l ->
    cx_snapshots (foldl (fun c h => terminalize_snapshot_bucket h reason c) c l) !! h = None).
  { induction l as [|e l IH]; intros c0; simpl; [by intros [?|?%elem_of_nil]|].
    intros Hd. apply IH. rewrite Hb, lookup_delete_None. destruct Hd as [?|[->|?]%elem_of_cons]; eauto. }
  apply Hk. destruct (cx_snapshots c !! h) as [w|] eqn:Hw; [right|by left].
  apply list_elem_of_fmap. exists (h, w). split; [done|by apply elem_of_map_to_list].
Qed.

Definition ended (reason : string) (k : PendingOpKey) (o : option OpOutcome) : Prop :=
  o = Some (OTerminal k reason).

(** The stages of [fail_all_pending]: the requests, the producers, the parked
    sends, the slab. *)
Lemma shutdown_requests reason c :
  let F := ended reason in let K := in_slab c in
  let c1 := foldl (fail_request reason) ((c <| cx_terminal_admission_reason := Some reason |>) <| cx_pending := ∅ |>)
              (map_to_list (cx_pending c)) in
  (exists new, rouses F K new c c1) /\ cx_pending c1 = ∅ /\ cx_producers c1 = cx_producers c /\ unheld K c1
  /\ forall rid kind, cx_pending c !! rid = Some kind -> ~ forgotten c (KRequest rid) -> settled F c1 (KRequest rid).
Proof.
  intros F K. set (c0 := (c <| cx_terminal_admission_reason := Some reason |>) <| cx_pending := ∅ |>). cbv zeta.
  assert (R0 : rouses F K [] c c0) by (by apply rouses_quiet).
  destruct (rouses_list F K request_key (fun _ => None) (fail_request reason) (map_to_list (cx_pending c)) c0) as (n1 & R1 & H1).
  { intros e He. apply (settles_request F K _ (OTerminal (KRequest e.1) reason)); [|done|by apply request_in_slab].
    by intros; destruct e as [? []]. }
  pose proof (same_core_foldl (fail_request reason) (map_to_list (cx_pending c)) c0 ltac:(apply fail_request_core)) as C1.
  split_and!; [exists ([] ++ n1); by eapply rouses_trans|by destruct C1..|exact (unheld_core K _ _ C1 (unheld_in_slab c))|].
  intros rid kind Hp Hf. eapply H1; [by apply elem_of_map_to_list|by eapply request_key_some].
Qed.

Lemma wake_key_wakers k o c : cx_wakers (wake_key k (install k o c)) = delete k (cx_wakers c).
Proof. unfold wake_key, remove_waker, wake_opt. by destruct (_ !! k). Qed.

Lemma shutdown_stages reason c :
  let F := ended reason in let c' := fail_all_pending reason c in
  (exists new, rouses F (in_slab c) new c c')
  /\ cx_pending c' = ∅ /\ cx_wakers c' = ∅ /\ cx_snapshots c' = ∅
  /\ (forall h s, cx_producers c !! h = Some s -> emptied c' h)
  /\ (forall rid kind, cx_pending c !! rid = Some kind -> ~ forgotten c (KRequest rid) -> settled F c' (KRequest rid)).
Proof.
  intros F. set (K := in_slab c). assert (HF : forall k, F k (Some (OTerminal k reason))) by done.
  cbv zeta. unfold fail_all_pending. cbv zeta. change (cx_pending (_ <| cx_terminal_admission_reason := _ |>)) with (cx_pending c).
  destruct (shutdown_requests reason c) as ([n1 R1] & P1 & D1 & U1 & Q1). fold F K in R1, U1, Q1. cbv zeta in *.
  generalize dependent (foldl (fail_request reason) ((c <| cx_terminal_admission_reason := Some reason |>) <| cx_pending := ∅ |>)
    (map_to_list (cx_pending c))). intros c1 R1 P1 D1 U1 Q1.
  destruct (rouses_inv F K (unheld K) (fail_producer reason) (map_to_list (cx_producers c1)).*1 c1) as (U2 & n2 & R2);
    [intros; by apply rouses_fail_producer|done|].
  assert (E2 := all_done emptied (fail_producer reason) id (map_to_list (cx_producers c1)).*1 c1
    ltac:(intros; apply fail_producer_empties; by left) ltac:(intros; apply fail_producer_empties; by right)).
  pose proof (field_foldl cx_pending (fail_producer reason) (map_to_list (cx_producers c1)).*1 c1
    ltac:(apply fail_producer_pending)) as P2. rewrite P1 in P2. rewrite D1 in *.
  generalize dependent (foldl (fail_producer reason) c1 (map_to_list (cx_producers c)).*1). intros c2 U2 R2 E2 P2.
  destruct (rouses_inv F K (unheld K) (fun c h => terminalize_snapshot_bucket h reason c)
    (map_to_list (cx_snapshots c2)).*1 c2) as (_ & n3 & R3); [intros; by apply rouses_bucket|done|].
  destruct (buckets_cleared reason c2) as (S3 & P3 & D3). cbv zeta in *.
  generalize dependent (foldl (fun c h => terminalize_snapshot_bucket h reason c) c2 (map_to_list (cx_snapshots c2)).*1).
  intros c3 R3 S3 P3 D3.
  destruct (rouses_list F K (fun _ => None) (fun _ => None) (fail_waker reason) (map_to_list (cx_wakers c3)) c3) as (n4 & R4 & _).
  { intros e _ c0. destruct (rouses_install F K e.1 (OTerminal e.1 reason) c0 (HF _)) as (n & ? & _). by exists n. }
  pose proof (deletes_all (fail_waker reason) c3) as W4.
  pose proof (same_core_foldl (fail_waker reason) (map_to_list (cx_wakers c3)) c3 ltac:(apply fail_waker_core)) as [].
  assert (Hr : rouses F K (((n1 ++ n2) ++ n3) ++ n4) c (foldl (fail_waker reason) c3 (map_to_list (cx_wakers c3))))
    by (repeat (eapply rouses_trans; [|done]); done).
  split_and!; unfold push_event; conn_simpl; [|congruence| |congruence| |].
  - eexists. eapply rouses_trans; [exact Hr|by apply rouses_quiet].
  - apply W4. intros. apply wake_key_wakers.
  - intros h s Hs s'. conn_simpl. rewrite sc_producers, D3. apply (E2 h), list_elem_of_fmap.
    exists (h, s). split; [done|by apply elem_of_map_to_list].
  - intros rid kind Hp Hf. apply (ro_settled _ _ _ _ _ R4), (ro_settled _ _ _ _ _ R3), (ro_settled _ _ _ _ _ R2).
    by eapply Q1.
Qed.

(** C4: the end of the client leaves nobody waiting.  [fail_all_pending] empties
    the table of requests and the slab, wakes the last waker registered for
    every request and send, closes forgotten by their caller apart, and settles
    every request, every send in flight and every send parked by a reset with
    the terminal reason. *)
Theorem shutdown_settles_everything reason c :
  let c' := fail_all_pending reason c in
  let ended k := cx_outcomes c' !! k = Some (OTerminal k reason) in
  (exists new, cx_woken c' = cx_woken c ++ new
     /\ forall k w, waits c k w -> ~ forgotten c k -> w ∈ new)
  /\ cx_pending c' = ∅ /\ cx_wakers c' = ∅
  /\ (forall rid kind, cx_pending c !! rid = Some kind -> ~ forgotten c (KRequest rid) -> ended (KRequest rid))
  /\ (forall h s op, cx_producers c !! h = Some s -> op ∈ pending (sl_producer s) -> ended (key_of h op))
  /\ (forall h l op, cx_snapshots c !! h = Some l -> op ∈ l -> ended (key_of h op)).
Proof.
  cbv zeta. destruct (shutdown_stages reason c) as ([new Hr] & Hp & Hw & Hs & He & Hq). cbv zeta in *.
  assert (Hset : forall k, settled (ended reason) (fail_all_pending reason c) k ->
    ended reason k (cx_outcomes (fail_all_pending reason c) !! k)).
  { intros k [?|(h & l & op & _ & Hl & _)]; [done|]. by rewrite Hs, lookup_empty in Hl. }
  split_and!; [exists new; split; [apply Hr|by eapply all_woken]|done|done|intros; by eapply Hset, Hq| |].
  - intros h s op Hh Hop. apply Hset. destruct (ro_sends _ _ _ _ _ Hr h s op Hh Hop) as [(s' & Hs' & Hin)|[? _]]; [|done].
    rewrite (He h s Hh s' Hs') in Hin. by apply elem_of_nil in Hin.
  - intros h l op Hl Hop. apply Hset, (ro_settled _ _ _ _ _ Hr). right. by exists h, l, op.
Qed.

(** What [reset] settles a key with: a request is lost, a send that cannot be
    replayed fails. *)
Definition lost (k : PendingOpKey) (o : option OpOutcome) : Prop :=
  o = Some (match k with
            | KRequest _ => OSessionLost k
            | KSend _ q => OSendError q BATCH_RESET_ERROR_CODE BATCH_RESET_ERROR_MESSAGE
            end).

Lemma reset_producer_pending c h : cx_pending (reset_producer c h) = cx_pending c.
Proof.
  unfold reset_producer. destruct (cx_producers c !! h); [|done].
  destruct (snapshot_pending_sends _) as [[[wk dr] sn] p'].
  match goal with |- context [foldl (wake_replayed h) ?c0 wk] =>
    assert (C : same_core c0 (foldl (drop_batched h) (foldl (wake_replayed h) c0 wk) dr));
    [transitivity (foldl (wake_replayed h) c0 wk); apply same_core_foldl; intros;
      [apply wake_replayed_core|apply resolve_send_error_core]|] end.
  destruct C. by case_decide.
Qed.

Lemma reset_requests c :
  let K := in_slab c in
  let c0 := c <| cx_session_epoch ::= fun e => wrapping_add 64 e 1 |> in
  let c1 := (foldl lose_request (c0 <| cx_pending := ∅ |>) (map_to_list (cx_pending c))) <| cx_events := [] |> in
  (exists new, rouses lost K new c c1) /\ cx_pending c1 = ∅ /\ cx_producers c1 = cx_producers c /\ unheld K c1
  /\ forall rid kind, cx_pending c !! rid = Some kind -> ~ forgotten c (KRequest rid) -> settled lost c1 (KRequest rid).
Proof.
  intros K. set (c0 := (c <| cx_session_epoch ::= fun e => wrapping_add 64 e 1 |>) <| cx_pending := ∅ |>). cbv zeta.
  assert (R0 : rouses lost K [] c c0) by (by apply rouses_quiet).
  destruct (rouses_list lost K request_key (fun _ => None) lose_request (map_to_list (cx_pending c)) c0) as (n1 & R1 & H1).
  { intros e He. apply (settles_request lost K _ (OSessionLost (KRequest e.1))); [|done|by apply request_in_slab].
    by intros; destruct e as [? []]. }
  pose proof (same_core_foldl lose_request (map_to_list (cx_pending c)) c0 ltac:(apply lose_request_core)) as C1.
  fold c0. generalize dependent (foldl lose_request c0 (map_to_list (cx_pending c))). intros c1 R1 H1 C1.
  assert (R2 : rouses lost K [] c1 (c1 <| cx_events := [] |>)) by (by apply rouses_quiet).
  split_and!; [eexists; eapply rouses_trans; [eapply rouses_trans|]; done|by destruct C1..
    |exact (unheld_core K _ _ C1 (unheld_in_slab c))|].
  intros rid kind Hp Hf. apply (ro_settled _ _ _ _ _ R2).
  eapply H1; [by apply elem_of_map_to_list|by eapply request_key_some].
Qed.

(** The steps of [reset] after the slab is swept leave the tables alone. *)
Lemma rouses_uninitialize K c c' :
  cx_woken c' = cx_woken c -> cx_outcomes c' = cx_outcomes c -> cx_wakers c' = cx_wakers c ->
  cx_snapshots c' = cx_snapshots c ->
  (exists f, cx_producers c' = f <$> cx_producers c /\ forall s, pending (sl_producer (f s)) = pending (sl_producer s)) ->
  rouses lost K [] c c'.
Proof.
  intros Hw Ho Hs Hq (f & Hp & Hf). split; [by rewrite app_nil_r| |rewrite Hs; eauto|].
  - apply settled_same; [|done]. rewrite Ho. by left.
  - intros h s op Hh Hop. left. exists (f s). by rewrite Hp, lookup_fmap, Hh, Hf.
Qed.

Lemma reset_stages c :
  let c' := reset c in
  (exists new, rouses lost (in_slab c) new c c')
  /\ cx_pending c' = ∅ /\ cx_wakers c' = ∅
  /\ (forall h s, cx_producers c !! h = Some s -> emptied c' h)
  /\ (forall rid kind, cx_pending c !! rid = Some kind -> ~ forgotten c (KRequest rid) -> settled lost c' (KRequest rid)).
Proof.
  set (K := in_slab c). cbv zeta. unfold reset. cbv zeta.
  change (cx_pending (_ <| cx_session_epoch ::= _ |>)) with (cx_pending c).
  destruct (reset_requests c) as ([n1 R1] & P1 & D1 & U1 & Q1). fold K in R1, U1. cbv zeta in *.
  match type of P1 with cx_pending ?x = _ => generalize dependent x end. intros c1 R1 P1 D1 U1 Q1.
  destruct (rouses_inv lost K (unheld K) reset_producer (map_to_list (cx_producers c1)).*1 c1) as (U2 & n2 & R2);
    [intros; by apply rouses_reset_producer|done|].
  assert (E2 := all_done emptied reset_producer id (map_to_list (cx_producers c1)).*1 c1
    ltac:(intros; apply reset_producer_empties; by left) ltac:(intros; apply reset_producer_empties; by right)).
  pose proof (field_foldl cx_pending reset_producer (map_to_list (cx_producers c1)).*1 c1
    ltac:(apply reset_producer_pending)) as P2. rewrite P1 in P2. rewrite D1 in *.
  generalize dependent (foldl reset_producer c1 (map_to_list (cx_producers c)).*1). intros c2 U2 R2 E2 P2.
  destruct (rouses_lose_wakers lost K (map_to_list (cx_wakers c2)) c2) as [n3 R3];
    [done|apply NoDup_fst_map_to_list|by intros ? ? ?%elem_of_map_to_list|].
  pose proof (deletes_all lose_waker c2 ltac:(by intros ? [[] ?])) as W3.
  pose proof (same_core_foldl lose_waker (map_to_list (cx_wakers c2)) c2 ltac:(apply lose_waker_core)) as C3.
  generalize dependent (foldl lose_waker c2 (map_to_list (cx_wakers c2))). intros c3 R3 W3 C3.
  match goal with |- context [log LReset ?x] => assert (R4 : rouses lost K [] c3 (log LReset x)) end.
  { apply rouses_uninitialize; try done. eexists. split; [done|]. done. }
  split_and!; [|transitivity (cx_pending c3); [done|destruct C3; congruence]|done| |].
  - eexists. eapply rouses_trans; [|exact R4]. eapply rouses_trans; [|done]. by eapply rouses_trans.
  - intros h s Hs s'. unfold log, set_handshake_state. conn_simpl. rewrite lookup_fmap.
    destruct (cx_producers c3 !! h) as [s3|] eqn:H3; [|done]. intros [= <-]. conn_simpl.
    eapply (emptied_core _ _ _ C3); [|done]. apply (E2 h), list_elem_of_fmap.
    exists (h, s). split; [done|by apply elem_of_map_to_list].
  - intros rid kind Hp Hf. apply (ro_settled _ _ _ _ _ R4), (ro_settled _ _ _ _ _ R3), (ro_settled _ _ _ _ _ R2).
    by eapply Q1.
Qed.

(** C3: the end of a session leaves nobody waiting.  [reset] empties the table of
    requests and the slab, wakes the last waker registered for every request and
    send, closes forgotten by their caller apart, settles every request as lost
    with the session, and keeps every send, in flight or already parked, for
    replay, or fails it when it cannot be replayed. *)
Theorem reset_settles_everything c :
  let c' := reset c in
  let kept k := parked c' k \/ lost k (cx_outcomes c' !! k) in
  (exists new, cx_woken c' = cx_woken c ++ new
     /\ forall k w, waits c k w -> ~ forgotten c k -> w ∈ new)
  /\ cx_pending c' = ∅ /\ cx_wakers c' = ∅
  /\ (forall rid kind, cx_pending c !! rid = Some kind -> ~ forgotten c (KRequest rid) ->
        cx_outcomes c' !! KRequest rid = Some (OSessionLost (KRequest rid)))
  /\ (forall h s op, cx_producers c !! h = Some s -> op ∈ pending (sl_producer s) -> kept (key_of h op))
  /\ (forall k, parked c k -> kept k).
Proof.
  cbv zeta. destruct (reset_stages c) as ([new Hr] & Hp & Hw & He & Hq). cbv zeta in *.
  split_and!; [exists new; split; [apply Hr|by eapply all_woken]|done|done| | |].
  - intros rid kind Hk Hf. by destruct (Hq rid kind Hk Hf) as [?|(h & l & op & [=] & _)].
  - intros h s op Hh Hop. destruct (ro_sends _ _ _ _ _ Hr h s op Hh Hop) as [(s' & Hs' & Hin)|[[?|?] _]]; [|by right|by left].
    rewrite (He h s Hh s' Hs') in Hin. by apply elem_of_nil in Hin.
  - intros k Hk. destruct (ro_settled _ _ _ _ _ Hr k (or_intror Hk)); [by right|by left].
Qed.
End Waiters.
