(* ===== verification/SegmentTopic.v ===== *)
(** * Names of segment topics

    [scalable_consumer.rs]: the canonical [segment://] name of a segment, which
    spells the parent topic, the hash range in hexadecimal and the segment id in
    decimal; its parser; and [SegmentSource], a validated name with its id.
    Names are lists of characters, as [str] is the list of its bytes. *)

From S2P Require Import Prelude Ids.
From Stdlib Require Import Ascii.

Abbreviation str := (list ascii).

Definition lit (s : String.string) : str := String.list_ascii_of_string s.

#[global] Instance ascii_dec : EqDecision ascii := Ascii.ascii_dec.

(** * [core::str] *)

Fixpoint strip_prefix (p s : str) : option str :=
  match p, s with
  | [], _ => Some s
  | a :: p', b :: s' => if decide (a = b) then strip_prefix p' s' else None
  | _ :: _, [] => None
  end.

(** [str::split_once], at the first occurrence *)
Fixpoint split_once (c : ascii) (s : str) : option (str * str) :=
  match s with
  | [] => None
  | a :: s' =>
      if decide (a = c) then Some ([], s')
      else '(x, y) ← split_once c s'; Some (a :: x, y)
  end.

(** [str::rsplit_once], at the last occurrence *)
Fixpoint rsplit_once (c : ascii) (s : str) : option (str * str) :=
  match s with
  | [] => None
  | a :: s' =>
      match rsplit_once c s' with
      | Some (x, y) => Some (a :: x, y)
      | None => if decide (a = c) then Some ([], s') else None
      end
  end.

(** [str::split], never empty *)
Fixpoint split (c : ascii) (s : str) : list str :=
  match s with
  | [] => [[]]
  | a :: s' =>
      if decide (a = c) then [] :: split c s'
      else match split c s' with
           | x :: xs => (a :: x) :: xs
           | [] => [[a]]
           end
  end.

(** [str::splitn]: at most [n] parts, the last one the unsplit rest *)
Fixpoint splitn (n : nat) (c : ascii) (s : str) : list str :=
  match n with
  | O => []
  | 1%nat => [s]
  | S n' => match split_once c s with
            | Some (x, y) => x :: splitn n' c y
            | None => [s]
            end
  end.

Definition ends_with (s : str) (c : ascii) : bool := bool_decide (last s = Some c).

(** ** Numbers *)

(** [char::to_digit] *)
Definition to_digit (b : Z) (c : ascii) : option Z :=
  let n := Z.of_N (N_of_ascii c) in
  let d := if (48 <=? n) && (n <=? 57) then n - 48
           else if (97 <=? n) && (n <=? 122) then n - 97 + 10
           else if (65 <=? n) && (n <=? 90) then n - 65 + 10
           else b in
  if d <? b then Some d else None.

Fixpoint digits_val (b : Z) (acc : Z) (ds : list Z) : Z :=
  match ds with [] => acc | d :: ds' => digits_val b (acc * b + d) ds' end.

(** [u32::from_str_radix], [str::parse::<u64>]: an optional [+], at least one
    digit, checked against the type's maximum *)
Definition strip_plus (s : str) : str :=
  match s with
  | "+"%char :: (_ :: _ as t) => t
  | _ => s
  end.

Definition from_str_radix (max b : Z) (s : str) : option Z :=
  let body := strip_plus s in
  if bool_decide (body = []) then None
  else
    ds ← mapM (to_digit b) body;
    let v := digits_val b 0 ds in
    if v <=? max then Some v else None.

(** [char::from_digit] *)
Definition from_digit (d : Z) : ascii :=
  ascii_of_N (Z.to_N (if d <? 10 then 48 + d else 87 + d)).

(** The digits of [z] in base [b], least significant first. *)
Fixpoint digits_le (fuel : nat) (b z : Z) : list Z :=
  match fuel with
  | O => []
  | S f => if z <? b then [z] else z mod b :: digits_le f b (z / b)
  end.

Definition digits (b z : Z) : list Z := reverse (digits_le (S (Z.to_nat (Z.log2 z))) b z).

(** [{}] and [{:04x}] of an unsigned integer *)
Definition fmt_decimal (z : Z) : str := from_digit <$> digits 10 z.

Definition fmt_hex04 (z : Z) : str :=
  let ds := from_digit <$> digits 16 z in
  replicate (4 - length ds) "0"%char ++ ds.

(** * The code *)

Definition to_hex_string (r : KeyRange) : str :=
  fmt_hex04 (kr_start r) ++ lit "-" ++ fmt_hex04 (kr_end r).

Inductive SegmentTopicError :=
| InvalidParent (topic : str)
| InvalidSegment (topic : str)
| NonCanonical (expected got : str)
| SegmentIdMismatch (segment_id topic_id : Z)
| TopicInvalidRange (e : KeyRangeError).

Definition canonical_parent_path (parent_topic : str) : result SegmentTopicError str :=
  match strip_prefix (lit "topic://") parent_topic with
  | None => Err (InvalidParent parent_topic)
  | Some path =>
      let parts := splitn 3 "/" path in
      let nonempty (o : option str) := match o with Some (_ :: _) => true | _ => false end in
      let valid :=
        nonempty (parts !! 0%nat) && nonempty (parts !! 1%nat)
        && match parts !! 2%nat with
           | Some part =>
               negb (bool_decide (part = [])) && negb (ends_with part "/")
               && negb (existsb (fun c => bool_decide (c = "?"%char) || bool_decide (c = "#"%char)) part)
           | None => false
           end in
      if negb valid then Err (InvalidParent parent_topic) else Ok path
  end.

Definition canonical_segment_topic (parent_topic : str) (key_range : KeyRange) (segment_id : Z)
    : result SegmentTopicError str :=
  parent_path ← canonical_parent_path parent_topic;
  Ok (lit "segment://" ++ parent_path ++ lit "/" ++ to_hex_string key_range ++ lit "-"
      ++ fmt_decimal segment_id).

Definition is_ascii_digit (c : ascii) : bool :=
  let n := Z.of_N (N_of_ascii c) in (48 <=? n) && (n <=? 57).

Definition is_hex_lower (c : ascii) : bool :=
  let n := Z.of_N (N_of_ascii c) in is_ascii_digit c || ((97 <=? n) && (n <=? 102)).

Definition parse_canonical_hex_word (value : str) : option Z :=
  if (blen value =? 4) && forallb is_hex_lower value
  then from_str_radix u32_max 16 value else None.

Definition is_canonical_decimal (value : str) : bool :=
  negb (bool_decide (value = [])) && forallb is_ascii_digit value
  && (bool_decide (value = lit "0") || negb (bool_decide (head value = Some "0"%char))).

Definition parse_segment_topic (topic : str) : result SegmentTopicError (str * KeyRange * Z) :=
  path ← ok_or (strip_prefix (lit "segment://") topic) (InvalidSegment topic);
  '(parent_path, descriptor) ← ok_or (rsplit_once "/" path) (InvalidSegment topic);
  let parent := lit "topic://" ++ parent_path in
  _ ← canonical_parent_path parent;
  match split "-" descriptor with
  | [start; end_; id] =>
      match parse_canonical_hex_word start, parse_canonical_hex_word end_ with
      | Some start, Some end_ =>
          if negb (is_canonical_decimal id) then Err (InvalidSegment topic)
          else
            id ← ok_or (from_str_radix u64_max 10 id) (InvalidSegment topic);
            range ← map_err TopicInvalidRange (KeyRange_new start end_);
            Ok (parent, range, id)
      | _, _ => Err (InvalidSegment topic)
      end
  | _ => Err (InvalidSegment topic)
  end.

Record SegmentSource := mkSegmentSource {
  src_segment_id : Z;
  src_topic : str;
  src_key_range : KeyRange;
}.

Definition SegmentSource_new (segment_id : Z) (topic : str)
    : result SegmentTopicError SegmentSource :=
  '(_, key_range, topic_id) ← parse_segment_topic topic;
  if negb (topic_id =? segment_id) then Err (SegmentIdMismatch segment_id topic_id)
  else Ok (mkSegmentSource segment_id topic key_range).

Definition parent_topic (s : SegmentSource) : str :=
  let descriptor_len := match rsplit_once "/" (src_topic s) with
                        | Some (_, descriptor) => blen descriptor + 1
                        | None => 0
                        end in
  let parent_path := match strip_prefix (lit "segment://") (src_topic s) with
                     | Some rest => take (Z.to_nat (saturating_sub (blen rest) descriptor_len)) rest
                     | None => []
                     end in
  lit "topic://" ++ parent_path.

(** * Lemmas on strings *)

Lemma strip_prefix_app p s : strip_prefix p (p ++ s) = Some s.
Proof. induction p as [|a p IH]; simpl; [done|]. by rewrite decide_True. Qed.

Lemma strip_prefix_inv p s t : strip_prefix p s = Some t -> s = p ++ t.
Proof.
  revert s. induction p as [|a p IH]; intros [|b s]; simpl; try congruence.
  case_decide; [|done]. intros ?%IH. by simplify_eq.
Qed.

Lemma rsplit_once_app c x y : c ∉ y -> rsplit_once c (x ++ c :: y) = Some (x, y).
Proof.
  intros Hy. assert (Hn : rsplit_once c y = None).
  { induction y as [|a y IH]; simpl; [done|]. apply not_elem_of_cons in Hy as [Ha Hy].
    rewrite IH by done. by rewrite decide_False. }
  induction x as [|a x IH]; simpl; [by rewrite Hn, decide_True|by rewrite IH].
Qed.

Lemma rsplit_once_inv c s x y : rsplit_once c s = Some (x, y) -> s = x ++ c :: y /\ c ∉ y.
Proof.
  assert (Hn : forall s, rsplit_once c s = None -> c ∉ s).
  { clear. induction s as [|a s IH]; simpl; [set_solver|].
    destruct (rsplit_once c s) as [[]|]; [done|]. case_decide; [done|]. set_solver. }
  revert x y. induction s as [|a s IH]; intros x y; simpl; [done|].
  destruct (rsplit_once c s) as [[x' y']|] eqn:Hs.
  - intros [= <- <-]. destruct (IH x' y') as [-> ?]; done.
  - case_decide; [|done]. intros [= <- <-]. subst. split; [done|]. by apply Hn.
Qed.

Lemma split_none c s : c ∉ s -> split c s = [s].
Proof.
  induction s as [|a s IH]; simpl; [done|]. intros [? ?]%not_elem_of_cons.
  by rewrite decide_False, IH by done.
Qed.

Lemma split_app c x s : c ∉ x -> split c (x ++ c :: s) = x :: split c s.
Proof.
  induction x as [|a x IH]; simpl; [by rewrite decide_True|]. intros [? ?]%not_elem_of_cons.
  by rewrite decide_False, IH by done.
Qed.

Lemma split_inv c s : exists x xs, split c s = x :: xs /\
  s = x ++ mjoin ((fun y => c :: y) <$> xs) /\ Forall (fun y => c ∉ y) (x :: xs).
Proof.
  induction s as [|a s (x & xs & Hs & Hj & Hf)]; simpl.
  - exists [], []. split_and!; try done. repeat constructor. set_solver.
  - case_decide as Ha.
    + exists [], (split c s). subst a. rewrite Hs. simpl. split_and!; [done|simpl; f_equal; exact Hj|].
      constructor; [set_solver|done].
    + rewrite Hs. exists (a :: x), xs. split_and!; [done|simpl; f_equal; exact Hj|].
      apply Forall_cons in Hf as [??]. constructor; [set_solver|done].
Qed.

(** * Lemmas on digits *)

Definition digits_ok (b : Z) (ds : list Z) : Prop := Forall (fun d => 0 <= d < b) ds.

Section Digits.
Context (b : Z) (Hb : 2 <= b).

Lemma digits_val_app acc xs ys : digits_val b acc (xs ++ ys) = digits_val b (digits_val b acc xs) ys.
Proof. revert acc. induction xs as [|x xs IH]; intros acc; simpl; auto. Qed.

Lemma digits_val_snoc acc xs d : digits_val b acc (xs ++ [d]) = digits_val b acc xs * b + d.
Proof. by rewrite digits_val_app. Qed.

Lemma digits_val_nonneg acc ds : 0 <= acc -> digits_ok b ds -> 0 <= digits_val b acc ds.
Proof.
  revert acc. induction ds as [|d ds IH]; intros acc Ha Hd; simpl; [done|].
  apply Forall_cons in Hd as [? Hd]. apply IH; [nia|done].
Qed.

Lemma digits_val_zeros n ds : digits_val b 0 (replicate n 0 ++ ds) = digits_val b 0 ds.
Proof. induction n as [|n IH]; simpl; [done|]. by rewrite Z.mul_0_l. Qed.

Lemma digits_val_bound ds : digits_ok b ds -> 0 <= digits_val b 0 ds < b ^ Z.of_nat (length ds).
Proof.
  induction ds as [|d ds IH] using rev_ind; intros Hd; [simpl; lia|].
  apply Forall_app in Hd as [Hds Hd]. apply Forall_cons in Hd as [Hd _].
  rewrite digits_val_snoc, length_app, Nat2Z.inj_add. simpl length.
  rewrite Z.pow_add_r by lia. specialize (IH Hds). change (b ^ Z.of_nat 1) with (b ^ 1).
  rewrite Z.pow_1_r. nia.
Qed.

(** Lists of digits of one length are ordered like their values. *)
Lemma digits_val_inj xs ys :
  length xs = length ys -> digits_ok b xs -> digits_ok b ys ->
  digits_val b 0 xs = digits_val b 0 ys -> xs = ys.
Proof.
  revert ys. induction xs as [|x xs IH] using rev_ind; intros ys.
  { simpl. intros Hl. by destruct ys. }
  destruct ys as [|y ys _] using rev_ind; rewrite !length_app; simpl; [lia|].
  intros Hl [Hxs Hx]%Forall_app [Hys Hy]%Forall_app. rewrite !digits_val_snoc.
  apply Forall_cons in Hx as [Hx _], Hy as [Hy _]. intros Hv.
  pose proof (digits_val_nonneg 0 xs ltac:(lia) Hxs). pose proof (digits_val_nonneg 0 ys ltac:(lia) Hys).
  assert (digits_val b 0 xs = digits_val b 0 ys) by nia.
  f_equal; [apply IH; auto; lia|f_equal; nia].
Qed.

Lemma digits_le_spec fuel z :
  0 <= z < 2 ^ Z.of_nat fuel -> (0 < fuel)%nat ->
  let ds := reverse (digits_le fuel b z) in
  digits_val b 0 ds = z /\ digits_ok b ds /\ ds <> [] /\ (head ds = Some 0 -> ds = [0])
  /\ forall n, (0 < n)%nat -> z < b ^ Z.of_nat n -> (length ds <= n)%nat.
Proof.
  revert z. induction fuel as [|f IH]; intros z Hz Hf; [lia|]. simpl. destruct (z <? b) eqn:Hzb.
  - rewrite reverse_singleton. simpl. split_and!; try lia; try done.
    + repeat constructor; lia.
    + intros [= ->]. done.
  - assert (Hf' : (0 < f)%nat).
    { destruct f; [|lia]. simpl in Hz. lia. }
    rewrite Nat2Z.inj_succ, Z.pow_succ_r in Hz by lia.
    assert (Hq : 0 <= z / b < 2 ^ Z.of_nat f).
    { split; [apply Z.div_pos; lia|]. apply Z.div_lt_upper_bound; nia. }
    destruct (IH _ Hq Hf') as (Hv & Hok & Hne & Hh & Hl).
    pose proof (Z.mod_pos_bound z b ltac:(lia)). pose proof (Z.div_mod z b ltac:(lia)).
    rewrite reverse_cons. split_and!.
    + rewrite digits_val_snoc, Hv. lia.
    + apply Forall_app; split; [done|]. repeat constructor; lia.
    + by destruct (reverse (digits_le f b (z / b))).
    + destruct (reverse (digits_le f b (z / b))) as [|d ds]; [done|]. simpl. intros [= ->].
      specialize (Hh eq_refl) as [= ->]. simpl in Hv. assert (z / b <> 0); [|lia].
      intros Hz0. apply Z.div_small_iff in Hz0; lia.
    + intros n Hn Hlt. rewrite length_app. simpl. destruct n as [|n]; [lia|].
      assert (Hn' : (0 < n)%nat) by (destruct n; [change (Z.of_nat 1) with 1 in Hlt; rewrite Z.pow_1_r in Hlt; lia|lia]).
      rewrite Nat2Z.inj_succ, Z.pow_succ_r in Hlt by lia.
      specialize (Hl n Hn' ltac:(apply Z.div_lt_upper_bound; lia)). lia.
Qed.

Lemma digits_spec z :
  0 <= z ->
  digits_val b 0 (digits b z) = z /\ digits_ok b (digits b z) /\ digits b z <> []
  /\ (head (digits b z) = Some 0 -> digits b z = [0])
  /\ forall n, (0 < n)%nat -> z < b ^ Z.of_nat n -> (length (digits b z) <= n)%nat.
Proof.
  intros Hz. apply digits_le_spec; [|lia].
  rewrite Nat2Z.inj_succ, Z2Nat.id by apply Z.log2_nonneg.
  destruct (decide (z = 0)) as [->|]; [simpl; lia|]. pose proof (Z.log2_spec z ltac:(lia)). lia.
Qed.

(** Digits as they are printed: some digit, no leading zero. *)
Definition canonical (ds : list Z) : Prop :=
  digits_ok b ds /\ ds <> [] /\ (head ds = Some 0 -> ds = [0]).

Lemma canonical_low ds :
  canonical ds -> ds = [0] \/ b ^ (Z.of_nat (length ds) - 1) <= digits_val b 0 ds.
Proof.
  induction ds as [|x ds IH] using rev_ind; [by intros (_ & ? & _)|].
  intros (Hok & _ & Hh). apply Forall_app in Hok as [Hds Hx]. apply Forall_cons in Hx as [Hx _].
  rewrite digits_val_snoc, length_app. destruct (decide (ds = [])) as [->|Hne].
  { simpl in *. destruct (decide (x = 0)) as [->|]; [by left|right; lia]. }
  right. destruct IH as [->|Hle].
  - split_and!; [done|done|]. intros H0. destruct ds as [|y ds]; [done|]. simpl in *.
    specialize (Hh H0). destruct ds; simplify_eq.
  - specialize (Hh eq_refl). simplify_eq.
  - simpl length. replace (Z.of_nat (length ds + 1) - 1) with (Z.succ (Z.of_nat (length ds) - 1)) by lia.
    rewrite Z.pow_succ_r; [nia|]. destruct ds; [done|simpl; lia].
Qed.

Lemma canonical_len xs ys :
  canonical xs -> canonical ys -> digits_val b 0 xs = digits_val b 0 ys ->
  (length xs <= length ys)%nat.
Proof.
  intros Hx Hy Hv. destruct (canonical_low xs Hx) as [->|Hlo].
  { destruct Hy as (_ & ? & _). destruct ys; [done|simpl; lia]. }
  pose proof (digits_val_bound ys (proj1 Hy)) as [_ Hhi].
  assert (Hlt : b ^ (Z.of_nat (length xs) - 1) < b ^ Z.of_nat (length ys)) by lia.
  apply Z.pow_lt_mono_r_iff in Hlt; lia.
Qed.

Lemma canonical_inj xs ys :
  canonical xs -> canonical ys -> digits_val b 0 xs = digits_val b 0 ys -> xs = ys.
Proof.
  intros Hx Hy Hv. apply digits_val_inj; try done; try apply Hx; try apply Hy.
  apply Nat.le_antisymm; by apply canonical_len.
Qed.

(** A list of digits without a leading zero is what its value prints as. *)
Lemma digits_canonical ds : canonical ds -> digits b (digits_val b 0 ds) = ds.
Proof.
  intros Hds. pose proof (digits_val_bound ds (proj1 Hds)) as Hbd.
  destruct (digits_spec (digits_val b 0 ds) ltac:(lia)) as (Hv & Hok & Hne & Hh & _).
  by apply canonical_inj.
Qed.
End Digits.

(** ** Printed digits *)

Lemma from_digit_spec d :
  0 <= d < 16 ->
  is_hex_lower (from_digit d) = true /\ is_ascii_digit (from_digit d) = (d <? 10)
  /\ to_digit 16 (from_digit d) = Some d /\ (d < 10 -> to_digit 10 (from_digit d) = Some d)
  /\ (from_digit d = "0"%char -> d = 0).
Proof.
  intros Hd. assert (Hn : exists n, d = Z.of_nat n /\ (n < 16)%nat) by (exists (Z.to_nat d); lia).
  destruct Hn as (n & -> & Hn). do 16 (destruct n as [|n]; [vm_compute; split_and!; done|]). lia.
Qed.

Lemma is_hex_lower_inv c : is_hex_lower c = true -> exists d, 0 <= d < 16 /\ c = from_digit d.
Proof.
  intros Hc. exists (from_option id 0 (to_digit 16 c)). revert Hc.
  destruct c as [[] [] [] [] [] [] [] []]; vm_compute; intros; done || (split; [split; done|done]).
Qed.

Lemma is_ascii_digit_inv c : is_ascii_digit c = true -> exists d, 0 <= d < 10 /\ c = from_digit d.
Proof.
  intros Hc. exists (from_option id 0 (to_digit 16 c)). revert Hc.
  destruct c as [[] [] [] [] [] [] [] []]; vm_compute; intros; done || (split; [split; done|done]).
Qed.

Lemma printed_inv (b : Z) (P : ascii -> bool) (s : str) :
  (forall c, P c = true -> exists d, 0 <= d < b /\ c = from_digit d) ->
  forallb P s = true -> exists ds, digits_ok b ds /\ s = from_digit <$> ds.
Proof.
  intros HP. induction s as [|c s IH]; simpl; [exists []; split; [constructor|done]|].
  rewrite andb_true_iff. intros [(d & Hd & ->)%HP (ds & Hds & ->)%IH].
  exists (d :: ds). split; [by constructor|done].
Qed.

Lemma printed_parse (b : Z) max ds :
  b = 10 \/ b = 16 -> digits_ok b ds -> ds <> [] ->
  from_str_radix max b (from_digit <$> ds)
  = (let v := digits_val b 0 ds in if v <=? max then Some v else None).
Proof.
  intros Hb Hok Hne. unfold from_str_radix.
  assert (Hm : mapM (to_digit b) (from_digit <$> ds) = Some ds).
  { apply mapM_Some_2, Forall2_fmap_l, Forall_Forall2_diag.
    eapply Forall_impl; [exact Hok|]. simpl. intros d Hd.
    destruct (from_digit_spec d) as (_ & _ & H16 & H10 & _); [lia|].
    destruct Hb as [->| ->]; [apply H10; lia|done]. }
  destruct ds as [|d ds]; [done|].
  assert (Hp : strip_plus (from_digit <$> (d :: ds)) = from_digit <$> (d :: ds)).
  { apply Forall_cons in Hok as [Hd _]. destruct (from_digit_spec d) as (Hh & _); [lia|].
    revert Hh. unfold strip_plus. simpl. destruct (from_digit d) as [[] [] [] [] [] [] [] []]; done. }
  rewrite Hp. rewrite bool_decide_eq_false_2 by done. by rewrite Hm.
Qed.

Lemma forallb_fmap_true {A B} (P : B -> bool) (f : A -> B) (Q : A -> Prop) l :
  (forall x, Q x -> P (f x) = true) -> Forall Q l -> forallb P (f <$> l) = true.
Proof. intros HP. induction 1; simpl; [done|]. by rewrite HP. Qed.

Lemma MAX_HASH_val : MAX_HASH = 65535.
Proof. done. Qed.

Lemma fmt_hex04_digits z :
  0 <= z <= MAX_HASH ->
  exists ds, digits_ok 16 ds /\ length ds = 4%nat /\ digits_val 16 0 ds = z
             /\ fmt_hex04 z = from_digit <$> ds.
Proof.
  intros Hz. destruct (digits_spec 16 ltac:(lia) z) as (Hv & Hok & _ & _ & Hl); [lia|].
  specialize (Hl 4%nat ltac:(lia)).
  change (16 ^ Z.of_nat 4) with 65536 in Hl. rewrite MAX_HASH_val in Hz. specialize (Hl ltac:(lia)).
  exists (replicate (4 - length (digits 16 z)) 0 ++ digits 16 z). split_and!.
  - apply Forall_app; split; [apply Forall_replicate; lia|done].
  - rewrite length_app, length_replicate. lia.
  - by rewrite digits_val_zeros.
  - unfold fmt_hex04. rewrite length_fmap, fmap_app, fmap_replicate. done.
Qed.

Lemma hex_word_print z : 0 <= z <= MAX_HASH -> parse_canonical_hex_word (fmt_hex04 z) = Some z.
Proof.
  intros Hz. destruct (fmt_hex04_digits z Hz) as (ds & Hok & Hlen & Hv & ->).
  unfold parse_canonical_hex_word. unfold blen. rewrite length_fmap, Hlen.
  rewrite (forallb_fmap_true _ _ (fun d => 0 <= d < 16)); [|apply from_digit_spec|done]. simpl.
  rewrite printed_parse; [|by right|done|by destruct ds]. simpl. rewrite Hv.
  rewrite MAX_HASH_val in Hz. change u32_max with 4294967295. case_match; [done|lia].
Qed.

Lemma hex_word_parse s z :
  parse_canonical_hex_word s = Some z -> 0 <= z <= MAX_HASH /\ fmt_hex04 z = s.
Proof.
  unfold parse_canonical_hex_word. destruct (_ && _) eqn:Hg; [|done].
  apply andb_true_iff in Hg as [Hl Hh]. unfold blen in Hl.
  destruct (printed_inv 16 _ _ is_hex_lower_inv Hh) as (ds & Hok & ->).
  rewrite length_fmap in Hl. rewrite printed_parse; [|by right|done|by destruct ds]. simpl.
  case_match; [|done]. intros [= <-].
  pose proof (digits_val_bound 16 ltac:(lia) ds Hok) as Hbd.
  assert (Hlen : length ds = 4%nat) by lia. rewrite Hlen in Hbd.
  assert (Hz : 0 <= digits_val 16 0 ds <= MAX_HASH) 
    by (change (16 ^ Z.of_nat 4) with 65536 in Hbd; rewrite MAX_HASH_val; lia).
  split; [done|]. destruct (fmt_hex04_digits _ Hz) as (ds' & Hok' & Hlen' & Hv' & ->).
  f_equal. apply (digits_val_inj 16); auto; lia.
Qed.

Lemma decimal_print z :
  0 <= z <= u64_max ->
  is_canonical_decimal (fmt_decimal z) = true /\ from_str_radix u64_max 10 (fmt_decimal z) = Some z.
Proof.
  intros Hz. destruct (digits_spec 10 ltac:(lia) z) as (Hv & Hok & Hne & Hh & _); [lia|].
  unfold fmt_decimal. split.
  - unfold is_canonical_decimal.
    rewrite (forallb_fmap_true _ _ (fun d => 0 <= d < 10)); [| |done].
    2: { intros d Hd. destruct (from_digit_spec d) as (_ & -> & _); [lia|]. lia. }
    rewrite bool_decide_eq_false_2 by (by destruct (digits 10 z)). simpl.
    destruct (digits 10 z) as [|d ds]; [done|]. apply orb_true_iff. simpl.
    destruct (decide (from_digit d = "0"%char)) as [Hd|Hd].
    + left. apply Forall_cons in Hok as [? _]. apply bool_decide_eq_true.
      destruct (from_digit_spec d) as (_ & _ & _ & _ & H0); [lia|]. rewrite (H0 Hd) in *.
      by specialize (Hh eq_refl) as [= ->].
    + right. rewrite bool_decide_eq_false_2; [done|congruence].
  - rewrite printed_parse; [|by left|done|done]. simpl. rewrite Hv. case_match; [done|lia].
Qed.

Lemma decimal_parse s z :
  is_canonical_decimal s = true -> from_str_radix u64_max 10 s = Some z ->
  0 <= z <= u64_max /\ fmt_decimal z = s.
Proof.
  unfold is_canonical_decimal. rewrite !andb_true_iff, orb_true_iff, !negb_true_iff.
  rewrite bool_decide_eq_true, !bool_decide_eq_false. intros [[Hne Hd] Hlead].
  destruct (printed_inv 10 _ _ is_ascii_digit_inv Hd) as (ds & Hok & ->).
  rewrite printed_parse; [|by left|done|by intros ->]. simpl.
  destruct (_ <=? _) eqn:Hle; [|done]. intros [= <-].
  pose proof (digits_val_bound 10 ltac:(lia) ds Hok). split; [lia|].
  unfold fmt_decimal. rewrite digits_canonical; [done|lia|].
  split_and!; [done|by intros ->|]. intros H0. destruct ds as [|d ds]; [done|]. simplify_eq/=.
  destruct Hlead as [[= Hl]|Hl]; [|done]. by apply fmap_nil_inv in Hl as ->.
Qed.

Lemma printed_free (c : ascii) (ds : list Z) :
  is_hex_lower c = false -> digits_ok 16 ds -> c ∉ (from_digit <$> ds).
Proof.
  intros Hc Hok. rewrite list_elem_of_fmap. intros (d & -> & Hd).
  unfold digits_ok in Hok. rewrite Forall_forall in Hok.
  destruct (from_digit_spec d (Hok _ Hd)) as (Ht & _). congruence.
Qed.

Lemma fmt_hex04_free c z : is_hex_lower c = false -> 0 <= z <= MAX_HASH -> c ∉ fmt_hex04 z.
Proof.
  intros Hc Hz. destruct (fmt_hex04_digits z Hz) as (ds & Hok & _ & _ & ->). by apply printed_free.
Qed.

Lemma fmt_decimal_free c z : is_hex_lower c = false -> 0 <= z -> c ∉ fmt_decimal z.
Proof.
  intros Hc Hz. apply printed_free; [done|].
  destruct (digits_spec 10 ltac:(lia) z Hz) as (_ & Hok & _).
  eapply Forall_impl; [exact Hok|]. simpl. lia.
Qed.

Lemma canonical_parent_path_inv p path :
  canonical_parent_path p = Ok path -> p = lit "topic://" ++ path.
Proof.
  unfold canonical_parent_path. destruct (strip_prefix _ p) eqn:Hs; [|done].
  case_match; [done|]. intros [= ->]. by apply strip_prefix_inv.
Qed.

Lemma slash_free r id :
  0 <= kr_start r -> kr_wf r -> u64_ok id ->
  "/"%char ∉ to_hex_string r ++ lit "-" ++ fmt_decimal id.
Proof.
  intros H0 [Hr Hr'] Hid. unfold to_hex_string. rewrite !not_elem_of_app. split_and!;
    try (apply fmt_hex04_free; [done|lia]); try (apply fmt_decimal_free; [done|apply Hid]); set_solver.
Qed.

Lemma parse_canonical p path r id :
  canonical_parent_path p = Ok path -> 0 <= kr_start r -> kr_wf r -> u64_ok id ->
  parse_segment_topic
    (lit "segment://" ++ path ++ lit "/" ++ to_hex_string r ++ lit "-" ++ fmt_decimal id)
  = Ok (p, r, id).
Proof.
  intros Hp Hr0 [Hr Hr'] Hid. unfold parse_segment_topic. rewrite strip_prefix_app. simpl ok_or.
  pose proof (canonical_parent_path_inv _ _ Hp) as ->. cbn [mbind result_bind].
  change (lit "/" ++ ?x) with ("/"%char :: x). rewrite rsplit_once_app by (by apply slash_free).
  simpl ok_or. cbn [mbind result_bind]. rewrite Hp. cbn [mbind result_bind].
  unfold to_hex_string. rewrite <- !(assoc_L app).
  change (lit "-" ++ ?x) with ("-"%char :: x).
  rewrite split_app by (apply fmt_hex04_free; [done|lia]).
  rewrite split_app by (apply fmt_hex04_free; [done|lia]).
  rewrite split_none by (apply fmt_decimal_free; [done|apply Hid]).
  rewrite !hex_word_print by lia. destruct (decimal_print id Hid) as [-> ->]. simpl.
  by rewrite KeyRange_new_of_wf.
Qed.

(** The segment names are in bijection with what they name: a name parses to a
    parent topic, a hash range and an id exactly when it is the canonical name of
    these; in particular two segments never share a name, and a name that is
    not byte for byte canonical is refused. *)
Lemma segment_topic_bijective t p r id :
  parse_segment_topic t = Ok (p, r, id)
  <-> 0 <= kr_start r /\ kr_wf r /\ u64_ok id /\ canonical_segment_topic p r id = Ok t.
Proof.
  split.
  - unfold parse_segment_topic. intros H. inv_ok. destruct r1 as [path desc]. inv_ok.
    apply strip_prefix_inv in Hr as ->. apply rsplit_once_inv in Hr0 as [-> _].
    destruct (split_inv "-" desc) as (x & xs & Hs & -> & _). rewrite Hs in H.
    destruct xs as [|y [|z [|]]]; try done.
    destruct (parse_canonical_hex_word x) eqn:Hx; [|done].
    destruct (parse_canonical_hex_word y) eqn:Hy; [|done].
    destruct (is_canonical_decimal z) eqn:Hz; [|done]. simpl in H. inv_ok. simplify_eq.
    apply hex_word_parse in Hx as [? <-], Hy as [? <-].
    destruct (decimal_parse _ _ Hz Hr) as [? <-].
    apply KeyRange_new_wf in Hr0 as [Hwf ->]. split_and!; [simpl; lia|done|done|].
    unfold canonical_segment_topic. pose proof (canonical_parent_path_inv _ _ Hr1) as Hp.
    apply (inj (app _)) in Hp as ->. change ("t"%char :: _) with (lit "topic://" ++ r1). rewrite Hr1.
    cbn [mbind result_bind]. unfold to_hex_string. simpl kr_start. simpl kr_end.
    rewrite <- !(assoc_L app). simpl mjoin. by rewrite (right_id_L [] app).
  - intros (H0 & Hwf & Hid & Hc). unfold canonical_segment_topic in Hc. inv_ok.
    by apply parse_canonical.
Qed.

Lemma parent_topic_canonical p r id t :
  0 <= kr_start r -> kr_wf r -> u64_ok id -> canonical_segment_topic p r id = Ok t ->
  parent_topic (mkSegmentSource id t r) = p.
Proof.
  intros H0 Hwf Hid Hc. unfold canonical_segment_topic in Hc.
  apply bind_ok_inv in Hc as (r0 & Hr & Hc). apply (inj Ok) in Hc as <-.
  pose proof (canonical_parent_path_inv _ _ Hr) as ->. unfold parent_topic. cbn [src_topic].
  change (lit "/" ++ ?x) with ("/"%char :: x). rewrite strip_prefix_app.
  rewrite (assoc_L app (lit "segment://") r0). rewrite rsplit_once_app by (by apply slash_free). f_equal.
  unfold saturating_sub. set (d := to_hex_string r ++ _). rewrite blen_app, blen_cons.
  replace (Z.to_nat _) with (length r0); [by rewrite take_app_length|].
  unfold blen. lia.
Qed.

(** A segment source is accepted exactly for the canonical name of its id: the
    topic is byte for byte the name built from the recovered parent topic, the
    recovered hash range and the explicit id, so no two segments share a name,
    [parent_topic] inverts [canonical_segment_topic], and every other spelling
    (upper-case or short hexadecimal, leading zeros, a sign, an overflowing id,
    a reversed range) is refused. *)
Theorem segment_source_exact id t s :
  SegmentSource_new id t = Ok s
  <-> src_segment_id s = id /\ src_topic s = t
      /\ 0 <= kr_start (src_key_range s) /\ kr_wf (src_key_range s) /\ u64_ok id
      /\ canonical_segment_topic (parent_topic s) (src_key_range s) id = Ok t.
Proof.
  unfold SegmentSource_new. split.
  - intros H. inv_ok. destruct r as [[p r] tid].
    apply segment_topic_bijective in Hr as (H0 & Hwf & Hid & Hc).
    destruct (negb _) eqn:He; [done|]. apply negb_false_iff, Z.eqb_eq in He as ->.
    inv_ok. simpl. by rewrite (parent_topic_canonical p).
  - destruct s as [i t' r]. simpl. intros (-> & -> & H0 & Hwf & Hid & Hc).
    rewrite (proj2 (segment_topic_bijective t (parent_topic (mkSegmentSource id t r)) r id)); [|done].
    simpl. by rewrite Z.eqb_refl.
Qed.

(** ** Examples *)

Example segment_name :
  canonical_segment_topic (lit "topic://public/default/orders") (mkKeyRange 0 32767) 10
  = Ok (lit "segment://public/default/orders/0000-7fff-10").
Proof. vm_compute. reflexivity. Qed.

Example segment_name_parses :
  SegmentSource_new 7 (lit "segment://public/default/orders/8000-ffff-7")
  = Ok (mkSegmentSource 7 (lit "segment://public/default/orders/8000-ffff-7") (mkKeyRange 32768 65535)).
Proof. vm_compute. reflexivity. Qed.

Example segment_name_refused :
  (fun d => is_ok (SegmentSource_new 7 (lit "segment://public/default/orders/" ++ lit d)))
    <$> ["8000-FFFF-7"; "8000-ffff-07"; "8000-ffff-+7"; "8000-7fff-7"; "800-ffff-7"; "8000-ffff-8"]%string
  = [false; false; false; false; false; false].
Proof. vm_compute. reflexivity. Qed.
