(* ===== verification/Assignment.v ===== *)
(** * Assignments of a scalable consumer

    [scalable_consumer.rs]: the validated assignment a controller gives a
    consumer ([AssignedSegment], [ConsumerAssignment]), the registration session
    that applies the assignments a controller pushes ([ScalableConsumerSession]),
    and the namespace watch ([ScalableTopicsWatch]).  A method that mutates the
    session returns its result and the session after it. *)

From S2P Require Import Prelude Ids SegmentTopic.

Definition MAX_BUFFERED_ASSIGNMENT_UPDATES : Z := 1024.

Inductive ScalableConsumerType := CtStream | CtCheckpoint.

#[global] Instance ScalableConsumerType_eq_dec : EqDecision ScalableConsumerType.
Proof. solve_decision. Defined.

Definition consumer_type_to_pb_i32 (t : ScalableConsumerType) : Z :=
  match t with CtStream => 0 | CtCheckpoint => 1 end.

Definition consumer_type_from_pb_i32 (v : Z) : ScalableConsumerType :=
  if v =? 1 then CtCheckpoint else CtStream.

(** * Wire messages *)

(** [pb::IntRange] *)
Record IntRange := mkIntRange { ir_start : Z; ir_end : Z }.

(** [pb::ScalableAssignedSegment] *)
Record ScalableAssignedSegmentPb := mkAssignedPb {
  apb_segment_id : Z;
  apb_hash_start : Z;
  apb_hash_end : Z;
  apb_segment_topic : str;
  apb_bucket_ranges : list IntRange;
}.

(** [pb::ScalableConsumerAssignment] *)
Record ScalableConsumerAssignmentPb := mkAssignmentPb {
  cpb_layout_epoch : Z;
  cpb_segments : list ScalableAssignedSegmentPb;
}.

(** [pb::CommandScalableTopicSubscribeResponse] *)
Record SubscribeResponse := mkSubscribeResponse {
  sr_request_id : Z;
  sr_assignment : option ScalableConsumerAssignmentPb;
  sr_error : option Z;
  sr_message : option str;
}.

(** [pb::CommandScalableTopicAssignmentUpdate] *)
Record AssignmentUpdate := mkAssignmentUpdate {
  au_consumer_id : Z;
  au_assignment : ScalableConsumerAssignmentPb;
}.

(** * Assignments *)

Record AssignedSegment := mkAssigned {
  as_segment_id : Z;
  as_key_range : KeyRange;
  as_bucket_ranges : list KeyRange;
  as_segment_topic : str;
}.

#[global] Instance AssignedSegment_eq_dec : EqDecision AssignedSegment.
Proof. solve_decision. Defined.

Record ConsumerAssignment := mkAssignment {
  ca_layout_epoch : Z;
  ca_segments : list AssignedSegment;
}.

#[global] Instance ConsumerAssignment_eq_dec : EqDecision ConsumerAssignment.
Proof. solve_decision. Defined.

Inductive AssignmentError :=
| ConsumerMismatch (got expected : Z)
| StaleEpoch (got prev : Z)
| IncarnationMismatch (got expected : Z)
| NonAdvancingIncarnation (got prev : Z)
| CrossIncarnationEpochRegression (got floor : Z)
| PreBaselineBufferFull (max : Z)
| RegistrationMismatch (consumer_id : Z)
| AeDuplicateSegment (segment_id : Z)
| AeInvalidRange (segment_id : Z) (source : KeyRangeError)
| InvalidBucketRange (segment_id : Z) (index : nat) (start end_ : Z)
| OverlappingBucketRanges (segment_id : Z)
| AttachmentMismatch (segment_id : Z) (expected got : str)
| AeSegmentTopic (e : SegmentTopicError)
| AeBroker (code : Z) (message : str)
| AeEmpty (request_id : Z).

(** [u32::try_from] on an [i32] *)
Definition u32_try_from_i32 (z : Z) : option Z := if z <? 0 then None else Some z.

Definition bucket_range_try_from_pb (segment_id : Z) (index : nat) (range : IntRange)
    : result AssignmentError KeyRange :=
  let bad := InvalidBucketRange segment_id index (ir_start range) (ir_end range) in
  match u32_try_from_i32 (ir_start range), u32_try_from_i32 (ir_end range) with
  | Some start, Some end_ => map_err (fun _ => bad) (KeyRange_new start end_)
  | _, _ => Err bad
  end.

(** [iter().enumerate().map(..).collect::<Result<Vec<_>, _>>()], from [index] on *)
Fixpoint bucket_ranges_try_from_pb (segment_id : Z) (index : nat) (ranges : list IntRange)
    : result AssignmentError (list KeyRange) :=
  match ranges with
  | [] => Ok []
  | r :: rs =>
      k ← bucket_range_try_from_pb segment_id index r;
      ks ← bucket_ranges_try_from_pb segment_id (S index) rs;
      Ok (k :: ks)
  end.

(** [windows(2).any(|pair| pair[0].end() >= pair[1].start())] *)
Fixpoint windows_overlap (l : list KeyRange) : bool :=
  match l with
  | a :: ((b :: _) as l') => (kr_end a >=? kr_start b) || windows_overlap l'
  | _ => false
  end.

Definition assigned_try_from_pb (pb : ScalableAssignedSegmentPb) (parent_topic : str)
    : result AssignmentError AssignedSegment :=
  let segment_id := apb_segment_id pb in
  key_range ← map_err (AeInvalidRange segment_id) (KeyRange_new (apb_hash_start pb) (apb_hash_end pb));
  bucket_ranges ← bucket_ranges_try_from_pb segment_id 0 (apb_bucket_ranges pb);
  if windows_overlap (sort_keys bucket_ranges) then Err (OverlappingBucketRanges segment_id)
  else
    expected ← map_err AeSegmentTopic (canonical_segment_topic parent_topic key_range segment_id);
    if negb (bool_decide (apb_segment_topic pb = expected))
    then Err (AttachmentMismatch segment_id expected (apb_segment_topic pb))
    else Ok (mkAssigned segment_id key_range bucket_ranges (apb_segment_topic pb)).

Definition assigned_source (a : AssignedSegment) : SegmentSource :=
  mkSegmentSource (as_segment_id a) (as_segment_topic a) (as_key_range a).

Definition assigned_to_pb (a : AssignedSegment) : ScalableAssignedSegmentPb :=
  {| apb_segment_id := as_segment_id a;
     apb_hash_start := kr_start (as_key_range a);
     apb_hash_end := kr_end (as_key_range a);
     apb_segment_topic := as_segment_topic a;
     apb_bucket_ranges :=
       (fun r => mkIntRange (as_signed 32 (kr_start r)) (as_signed 32 (kr_end r)))
         <$> as_bucket_ranges a |}.

(** The loop of [ConsumerAssignment::try_from_pb]: [ids] and [segments] grow. *)
Fixpoint assignment_loop (parent_topic : str) (ids : gset Z) (segments : list AssignedSegment)
    (l : list ScalableAssignedSegmentPb) : result AssignmentError (list AssignedSegment) :=
  match l with
  | [] => Ok segments
  | pb :: l' =>
      segment ← assigned_try_from_pb pb parent_topic;
      if bool_decide (as_segment_id segment ∈ ids)
      then Err (AeDuplicateSegment (as_segment_id segment))
      else assignment_loop parent_topic ({[as_segment_id segment]} ∪ ids) (segments ++ [segment]) l'
  end.

(** [sort_by_key(|s| s.segment_id)] *)
Definition id_le (a b : AssignedSegment) : Prop := as_segment_id a <= as_segment_id b.

#[global] Instance id_le_dec a b : Decision (id_le a b) := Z_le_dec _ _.

Definition assignment_try_from_pb (pb : ScalableConsumerAssignmentPb) (parent_topic : str)
    : result AssignmentError ConsumerAssignment :=
  segments ← assignment_loop parent_topic ∅ [] (cpb_segments pb);
  Ok (mkAssignment (cpb_layout_epoch pb) (merge_sort id_le segments)).

Definition assignment_to_pb (a : ConsumerAssignment) : ScalableConsumerAssignmentPb :=
  mkAssignmentPb (ca_layout_epoch a) (assigned_to_pb <$> ca_segments a).

Definition segment_topics (a : ConsumerAssignment) : list str := as_segment_topic <$> ca_segments a.

(** * The registration session *)

Record AssignmentDelta := mkAssignmentDelta {
  ad_layout_epoch : Z;
  ad_gained : list AssignedSegment;
  ad_lost : list Z;
}.

Definition assignment_delta_is_empty (d : AssignmentDelta) : bool :=
  bool_decide (ad_gained d = []) && bool_decide (ad_lost d = []).

Record AssignmentReplay := mkReplay {
  ar_assignment : ConsumerAssignment;
  ar_delta : AssignmentDelta;
}.

Record ScalableConsumerSession := mkSession {
  sc_consumer_id : Z;
  sc_topic : str;
  sc_subscription : str;
  sc_consumer_name : str;
  sc_consumer_type : ScalableConsumerType;
  sc_incarnation : Z;
  sc_assignment : option ConsumerAssignment;
  sc_epoch_floor : option Z;
  sc_buffered_updates : list ConsumerAssignment;
  sc_replayed_updates : list AssignmentReplay;
  sc_invalidated : bool;
}.

#[export] Instance Session_eta : Eta ScalableConsumerSession := fun s =>
  mkSession (sc_consumer_id s) (sc_topic s) (sc_subscription s) (sc_consumer_name s)
    (sc_consumer_type s) (sc_incarnation s) (sc_assignment s) (sc_epoch_floor s)
    (sc_buffered_updates s) (sc_replayed_updates s) (sc_invalidated s).

Definition session_new (consumer_id : Z) (topic subscription consumer_name : str)
    (consumer_type : ScalableConsumerType) (incarnation : Z) : ScalableConsumerSession :=
  mkSession consumer_id topic subscription consumer_name consumer_type incarnation
    None None [] [] false.

Definition matches_registration (topic subscription consumer_name : str)
    (consumer_type : ScalableConsumerType) (s : ScalableConsumerSession) : bool :=
  bool_decide (sc_topic s = topic) && bool_decide (sc_subscription s = subscription)
  && bool_decide (sc_consumer_name s = consumer_name)
  && bool_decide (sc_consumer_type s = consumer_type).

Definition take_replayed_updates (s : ScalableConsumerSession)
    : list AssignmentReplay * ScalableConsumerSession :=
  (sc_replayed_updates s, s <| sc_replayed_updates := [] |>).

Definition begin_incarnation (incarnation : Z) (s : ScalableConsumerSession)
    : result AssignmentError unit * ScalableConsumerSession :=
  if incarnation <=? sc_incarnation s
  then (Err (NonAdvancingIncarnation incarnation (sc_incarnation s)), s)
  else (Ok tt, s <| sc_incarnation := incarnation |> <| sc_invalidated := false |>
                 <| sc_assignment := None |> <| sc_buffered_updates := [] |>
                 <| sc_replayed_updates := [] |>).

Definition invalidate_authority (s : ScalableConsumerSession) : ScalableConsumerSession :=
  s <| sc_assignment := None |> <| sc_buffered_updates := [] |> <| sc_replayed_updates := [] |>
    <| sc_invalidated := true |>.

Definition is_registered (s : ScalableConsumerSession) : bool := bool_decide (is_Some (sc_assignment s)).

Definition enforce_epoch_floor (s : ScalableConsumerSession) (epoch : Z) : result AssignmentError unit :=
  match sc_epoch_floor s with
  | Some floor =>
      if epoch <? floor then Err (CrossIncarnationEpochRegression epoch floor) else Ok tt
  | None => Ok tt
  end.

Definition require_incarnation (s : ScalableConsumerSession) (incarnation : Z)
    : result AssignmentError unit :=
  if negb (incarnation =? sc_incarnation s)
  then Err (IncarnationMismatch incarnation (sc_incarnation s)) else Ok tt.

(** [segments.iter().map(|s| (s.segment_id, s)).collect::<BTreeMap<_, _>>()] *)
Definition put_segment (m : gmap Z AssignedSegment) (s : AssignedSegment) : gmap Z AssignedSegment :=
  <[as_segment_id s := s]> m.

Definition by_id (l : list AssignedSegment) : gmap Z AssignedSegment := foldl put_segment ∅ l.

Definition delta_gained (before : gmap Z AssignedSegment) (incoming : list AssignedSegment)
    : list AssignedSegment :=
  filter (fun s => before !! as_segment_id s <> Some s) incoming.

Definition delta_lost (before after : gmap Z AssignedSegment) : list Z :=
  filter (fun id => after !! id <> before !! id) (btree_elems (dom before)).

(** [floor.map_or(epoch, |floor| floor.max(epoch))] *)
Definition raise_floor (floor : option Z) (epoch : Z) : Z :=
  match floor with None => epoch | Some f => Z.max f epoch end.

Definition apply_incoming (incoming : ConsumerAssignment) (s : ScalableConsumerSession)
    : result AssignmentError (option AssignmentDelta) * ScalableConsumerSession :=
  let epoch := ca_layout_epoch incoming in
  let stale := match sc_assignment s with
               | Some prev => if epoch <? ca_layout_epoch prev then Some prev else None
               | None => None
               end in
  match stale with
  | Some prev => (Err (StaleEpoch epoch (ca_layout_epoch prev)), s)
  | None =>
      if bool_decide (sc_assignment s = Some incoming) then (Ok None, s)
      else
        let before := from_option (fun a => by_id (ca_segments a)) ∅ (sc_assignment s) in
        let after := by_id (ca_segments incoming) in
        (Ok (Some (mkAssignmentDelta epoch (delta_gained before (ca_segments incoming))
                     (delta_lost before after))),
         s <| sc_assignment := Some incoming |>
           <| sc_epoch_floor := Some (raise_floor (sc_epoch_floor s) epoch) |>)
  end.

(** [while let Some(incoming) = staged.buffered_updates.pop_front()] *)
Fixpoint replay_loop (request_id : Z) (buffered : list ConsumerAssignment)
    (staged : ScalableConsumerSession) : result AssignmentError ScalableConsumerSession :=
  match buffered with
  | [] => Ok (staged <| sc_buffered_updates := [] |>)
  | incoming :: rest =>
      match apply_incoming incoming (staged <| sc_buffered_updates := rest |>) with
      | (Err e, _) => Err e
      | (Ok None, staged) => replay_loop request_id rest staged
      | (Ok (Some delta), staged) =>
          assignment ← ok_or (sc_assignment staged) (AeEmpty request_id);
          replay_loop request_id rest
            (staged <| sc_replayed_updates ::= (fun l => l ++ [mkReplay assignment delta]) |>)
      end
  end.

Definition handle_subscribe_response_for (incarnation : Z) (resp : SubscribeResponse)
    (s : ScalableConsumerSession)
    : result AssignmentError ConsumerAssignment * ScalableConsumerSession :=
  let outcome :=
    _ ← require_incarnation s incarnation;
    match sr_assignment resp with
    | None =>
        Err match sr_error resp with
            | Some code => AeBroker code (default [] (sr_message resp))
            | None => AeEmpty (sr_request_id resp)
            end
    | Some assignment =>
        baseline ← assignment_try_from_pb assignment (sc_topic s);
        _ ← enforce_epoch_floor s (ca_layout_epoch baseline);
        let staged := s <| sc_assignment := Some baseline |>
          <| sc_epoch_floor := Some (raise_floor (sc_epoch_floor s) (ca_layout_epoch baseline)) |>
          <| sc_replayed_updates := [] |> in
        staged ← replay_loop (sr_request_id resp) (sc_buffered_updates s) staged;
        Ok (baseline, staged)
    end in
  match outcome with
  | Ok (baseline, staged) => (Ok baseline, staged)
  | Err e => (Err e, s)
  end.

Definition handle_subscribe_response (resp : SubscribeResponse) (s : ScalableConsumerSession) :=
  handle_subscribe_response_for (sc_incarnation s) resp s.

Definition handle_assignment_update_for (incarnation : Z) (upd : AssignmentUpdate)
    (s : ScalableConsumerSession)
    : result AssignmentError (option AssignmentDelta) * ScalableConsumerSession :=
  match require_incarnation s incarnation with
  | Err e => (Err e, s)
  | Ok _ =>
      if negb (au_consumer_id upd =? sc_consumer_id s)
      then (Err (ConsumerMismatch (au_consumer_id upd) (sc_consumer_id s)), s)
      else
        match assignment_try_from_pb (au_assignment upd) (sc_topic s) with
        | Err e => (Err e, s)
        | Ok incoming =>
            match sc_assignment s with
            | None =>
                match enforce_epoch_floor s (ca_layout_epoch incoming) with
                | Err e => (Err e, s)
                | Ok _ =>
                    if blen (sc_buffered_updates s) =? MAX_BUFFERED_ASSIGNMENT_UPDATES
                    then (Err (PreBaselineBufferFull MAX_BUFFERED_ASSIGNMENT_UPDATES), s)
                    else (Ok None, s <| sc_buffered_updates ::= (fun l => l ++ [incoming]) |>)
                end
            | Some _ => apply_incoming incoming s
            end
        end
  end.

Definition handle_assignment_update (upd : AssignmentUpdate) (s : ScalableConsumerSession) :=
  handle_assignment_update_for (sc_incarnation s) upd s.

(** * The namespace watch *)

Inductive TopicsChange :=
| TcSnapshot (topics : list str)
| TcDiff (added removed : list str).

Inductive TopicsWatchError :=
| WatchMismatch (got expected : Z)
| TwBroker (code : Z) (message : str)
| TwEmpty (watch_id : Z).

(** [pb::command_watch_scalable_topics_update::Event] *)
Inductive TopicsEvent :=
| EvSnapshot (topics : list str)
| EvDiff (added removed : list str).

(** [pb::CommandWatchScalableTopicsUpdate] *)
Record TopicsUpdate := mkTopicsUpdate {
  tu_watch_id : Z;
  tu_event : option TopicsEvent;
  tu_error : option Z;
  tu_message : option str;
}.

Record ScalableTopicsWatch := mkTopicsWatch {
  tw_watch_id : Z;
  tw_namespace : str;
  tw_topics : gset str;
}.

#[export] Instance TopicsWatch_eta : Eta ScalableTopicsWatch := fun w =>
  mkTopicsWatch (tw_watch_id w) (tw_namespace w) (tw_topics w).

Definition topics_watch_new (watch_id : Z) (namespace : str) : ScalableTopicsWatch :=
  mkTopicsWatch watch_id namespace ∅.

(** The order of [String] is that of its bytes. *)
Definition str_key (s : str) : list Z := (fun c => Z.of_N (Ascii.N_of_ascii c)) <$> s.

#[global] Instance str_key_inj : Inj (=) (=) str_key.
Proof.
  intros a b. unfold str_key. apply list_fmap_eq_inj. intros x y Hxy.
  apply N2Z.inj in Hxy. by rewrite <- (Ascii.ascii_N_embedding x), Hxy, Ascii.ascii_N_embedding.
Qed.

#[global] Instance str_ord : OrdKey str := {| ord_key := str_key |}.

Fixpoint watch_remove (l : list str) (topics : gset str) (removed : list str) : gset str * list str :=
  match l with
  | [] => (topics, removed)
  | t :: l' =>
      if bool_decide (t ∈ topics) then watch_remove l' (topics ∖ {[t]}) (removed ++ [t])
      else watch_remove l' topics removed
  end.

Fixpoint watch_insert (l : list str) (topics : gset str) (added : list str) : gset str * list str :=
  match l with
  | [] => (topics, added)
  | t :: l' =>
      if bool_decide (t ∈ topics) then watch_insert l' topics added
      else watch_insert l' ({[t]} ∪ topics) (added ++ [t])
  end.

Definition topics_handle_update (upd : TopicsUpdate) (w : ScalableTopicsWatch)
    : result TopicsWatchError TopicsChange * ScalableTopicsWatch :=
  if negb (tu_watch_id upd =? tw_watch_id w)
  then (Err (WatchMismatch (tu_watch_id upd) (tw_watch_id w)), w)
  else
    match tu_event upd with
    | None =>
        (Err match tu_error upd with
             | Some code => TwBroker code (default [] (tu_message upd))
             | None => TwEmpty (tu_watch_id upd)
             end, w)
    | Some (EvSnapshot topics) =>
        let w := w <| tw_topics := list_to_set topics |> in
        (Ok (TcSnapshot (btree_elems (tw_topics w))), w)
    | Some (EvDiff added removed) =>
        let '(topics, gone) := watch_remove removed (tw_topics w) [] in
        let '(topics, fresh) := watch_insert added topics [] in
        (Ok (TcDiff (sort_keys fresh) (sort_keys gone)), w <| tw_topics := topics |>)
    end.

(** * Assignments that were accepted *)

Definition ids_of (l : list AssignedSegment) : list Z := as_segment_id <$> l.

(** What [AssignedSegment::try_from_pb] checked against the parent topic. *)
Definition assigned_ok (parent : str) (a : AssignedSegment) : Prop :=
  kr_wf (as_key_range a)
  /\ Forall (fun r => 0 <= kr_start r /\ kr_wf r) (as_bucket_ranges a)
  /\ windows_overlap (sort_keys (as_bucket_ranges a)) = false
  /\ canonical_segment_topic parent (as_key_range a) (as_segment_id a) = Ok (as_segment_topic a).

(** The normal form of an assignment: checked segments, one per id, by id. *)
Definition assignment_ok (parent : str) (a : ConsumerAssignment) : Prop :=
  Forall (assigned_ok parent) (ca_segments a) /\ NoDup (ids_of (ca_segments a))
  /\ StronglySorted id_le (ca_segments a).

#[global] Instance id_le_trans : Transitive id_le.
Proof. intros a b c. unfold id_le. lia. Qed.
#[global] Instance id_le_total : Total id_le.
Proof. intros a b. unfold id_le. lia. Qed.

Lemma bucket_ranges_ok segment_id i l ks :
  bucket_ranges_try_from_pb segment_id i l = Ok ks ->
  Forall (fun r => 0 <= kr_start r /\ kr_wf r) ks.
Proof.
  revert i ks. induction l as [|r l IH]; intros i ks; simpl; intros H; inv_ok; [constructor|].
  constructor; [|by eapply IH]. unfold bucket_range_try_from_pb, u32_try_from_i32 in Hr.
  repeat case_match; simplify_eq. inv_ok. apply KeyRange_new_wf in Hr as [Hw ->]. split; [simpl; lia|done].
Qed.

Lemma assigned_try_from_pb_ok pb parent a :
  assigned_try_from_pb pb parent = Ok a -> assigned_ok parent a.
Proof.
  unfold assigned_try_from_pb. intros H. inv_ok. destruct (windows_overlap _) eqn:Hw; [done|]. inv_ok.
  case_match eqn:Ht; [done|]. inv_ok. apply negb_false_iff, bool_decide_eq_true in Ht.
  apply KeyRange_new_wf in Hr as [? ->].
  split_and!; simpl; [done|by eapply bucket_ranges_ok|done|congruence].
Qed.

Lemma assignment_loop_ok parent ids segs l out :
  ids = list_to_set (ids_of segs) -> NoDup (ids_of segs) -> Forall (assigned_ok parent) segs ->
  assignment_loop parent ids segs l = Ok out ->
  NoDup (ids_of out) /\ Forall (assigned_ok parent) out.
Proof.
  revert ids segs. induction l as [|pb l IH]; intros ids segs -> Hn Hf; simpl; intros H; [by inv_ok|].
  inv_ok. case_bool_decide as Hin; [done|]. eapply IH in H; [done| | |].
  - unfold ids_of. rewrite fmap_app, list_to_set_app_L. simpl. set_solver.
  - unfold ids_of. rewrite fmap_app. apply NoDup_app. split_and!; [done| |apply NoDup_singleton].
    intros x Hx ->%list_elem_of_singleton. apply Hin. by apply elem_of_list_to_set.
  - apply Forall_app; split; [done|]. constructor; [|done]. by eapply assigned_try_from_pb_ok.
Qed.

Lemma assignment_try_from_pb_ok pb parent a :
  assignment_try_from_pb pb parent = Ok a ->
  assignment_ok parent a /\ ca_layout_epoch a = cpb_layout_epoch pb.
Proof.
  unfold assignment_try_from_pb. intros H. inv_ok. simpl. split; [|done].
  apply assignment_loop_ok in Hr as [Hn Hf]; [|done|constructor|constructor].
  unfold assignment_ok, ids_of. simpl. split_and!; [by rewrite merge_sort_Permutation..|].
  apply StronglySorted_merge_sort; apply _.
Qed.

(** ** Round trip *)

Lemma bucket_ranges_roundtrip segment_id i ks :
  Forall (fun r => 0 <= kr_start r /\ kr_wf r) ks ->
  bucket_ranges_try_from_pb segment_id i
    ((fun r => mkIntRange (as_signed 32 (kr_start r)) (as_signed 32 (kr_end r))) <$> ks) = Ok ks.
Proof.
  intros Hks. revert i. induction Hks as [|r ks [H0 [Hr1 Hr2]] _ IH]; intros i; simpl; [done|].
  unfold bucket_range_try_from_pb, u32_try_from_i32. simpl. rewrite MAX_HASH_val in Hr2.
  rewrite !as_signed_small by (change (2 ^ (32 - 1)) with 2147483648; lia).
  rewrite (proj2 (Z.ltb_ge _ _)) by lia. rewrite (proj2 (Z.ltb_ge _ _)) by lia.
  rewrite KeyRange_new_of_wf by (split; rewrite ?MAX_HASH_val; lia). simpl. by rewrite IH.
Qed.

Lemma assigned_roundtrip parent a :
  assigned_ok parent a -> assigned_try_from_pb (assigned_to_pb a) parent = Ok a.
Proof.
  intros (Hr & Hb & Hw & Ht). unfold assigned_try_from_pb, assigned_to_pb. simpl.
  rewrite KeyRange_new_of_wf by done. simpl. rewrite bucket_ranges_roundtrip by done. simpl.
  rewrite Hw, Ht. simpl. rewrite bool_decide_eq_true_2 by done. by destruct a.
Qed.

Lemma assignment_loop_roundtrip parent ids segs l :
  ids = list_to_set (ids_of segs) -> NoDup (ids_of (segs ++ l)) -> Forall (assigned_ok parent) l ->
  assignment_loop parent ids segs (assigned_to_pb <$> l) = Ok (segs ++ l).
Proof.
  revert ids segs. induction l as [|a l IH]; intros ids segs -> Hn Hf; simpl; [by rewrite app_nil_r|].
  apply Forall_cons in Hf as [Ha Hf]. rewrite assigned_roundtrip by done. simpl.
  rewrite bool_decide_eq_false_2.
  - rewrite (cons_middle a segs l), (assoc_L app segs [a] l). apply IH; [|by rewrite <- (assoc_L app)|done].
    unfold ids_of. rewrite fmap_app, list_to_set_app_L. simpl. set_solver.
  - rewrite elem_of_list_to_set. unfold ids_of in *. rewrite fmap_app in Hn.
    apply NoDup_app in Hn as (_ & Hn & _). intros Hin. apply (Hn _ Hin). by left.
Qed.

Lemma sorted_id_unique l k :
  NoDup (ids_of l) -> StronglySorted id_le l -> StronglySorted id_le k -> l ≡ₚ k -> l = k.
Proof.
  intros Hn Hl Hk Hp.
  assert (Hanti : forall a b, a ∈ l -> b ∈ l -> id_le a b -> id_le b a -> a = b).
  { intros a b Ha Hb Hab Hba. apply list_elem_of_lookup in Ha as [i Hi], Hb as [j Hj].
    assert (i = j) as ->; [|congruence]. eapply (NoDup_lookup _ _ _ (as_segment_id a) Hn).
    - unfold ids_of. by rewrite list_lookup_fmap, Hi.
    - unfold ids_of. rewrite list_lookup_fmap, Hj. simpl. f_equal. unfold id_le in *. lia. }
  clear Hn. revert k Hk Hp. induction Hl as [|a l Hl IH Ha]; intros k Hk Hp.
  { by apply Permutation_nil_l. }
  destruct Hk as [|b k Hk Hb]; [by apply Permutation_nil_r in Hp|].
  assert (a = b) as ->.
  { assert (Hbl : b ∈ a :: l) by (rewrite Hp; by left).
    assert (Hak : a ∈ b :: k) by (rewrite <- Hp; by left).
    rewrite Forall_forall in Ha, Hb. apply Hanti; [by left|done| |].
    - apply elem_of_cons in Hbl as [->|]; [unfold id_le; lia|auto].
    - apply elem_of_cons in Hak as [->|]; [unfold id_le; lia|auto]. }
  f_equal. apply IH; [|done|by apply Permutation_cons_inv in Hp].
  intros x y Hx Hy. apply Hanti; by right.
Qed.

Lemma assignment_roundtrip_ok parent a :
  assignment_ok parent a -> assignment_try_from_pb (assignment_to_pb a) parent = Ok a.
Proof.
  intros (Hf & Hn & Hs). unfold assignment_try_from_pb, assignment_to_pb. simpl.
  rewrite (assignment_loop_roundtrip parent ∅ []) by done. simpl. destruct a as [e l]; simpl in *.
  do 2 f_equal. symmetry. apply sorted_id_unique; try done.
  - apply StronglySorted_merge_sort; apply _.
  - by rewrite merge_sort_Permutation.
Qed.
