(* ===== verification/AssignmentSession.v ===== *)
(** * The registration session of a scalable consumer

    Theorems on [Assignment.ScalableConsumerSession]: the delta reported to the
    engine turns the segments it holds into the new assignment, buffering the
    pushes that overtake the subscribe response is invisible, a registration
    never returns to an older layout, and an error changes nothing. *)

From S2P Require Import Prelude Ids SegmentTopic Assignment.

(** * Deltas *)

(** What the engine does with a delta: detach [lost], attach [gained]. *)
Definition attach (d : AssignmentDelta) (m : gmap Z AssignedSegment) : gmap Z AssignedSegment :=
  foldl put_segment (foldr delete m (ad_lost d)) (ad_gained d).

(** The segments a session holds. *)
Definition held (s : ScalableConsumerSession) : gmap Z AssignedSegment :=
  from_option (fun a => by_id (ca_segments a)) ∅ (sc_assignment s).

Lemma foldl_insert_notin l m i :
  i ∉ ids_of l -> foldl put_segment m l !! i = m !! i.
Proof.
  revert m. induction l as [|a l IH]; intros m Hi; simpl; [done|].
  apply not_elem_of_cons in Hi as [Ha Hi]. rewrite IH by done. unfold put_segment. by rewrite lookup_insert_ne.
Qed.

Lemma foldl_insert_in l m a :
  NoDup (ids_of l) -> a ∈ l ->
  foldl put_segment m l !! as_segment_id a = Some a.
Proof.
  revert m. induction l as [|b l IH]; intros m Hn Ha; [set_solver|]. simpl.
  apply NoDup_cons in Hn as [Hb Hn]. apply elem_of_cons in Ha as [->|Ha]; [|auto].
  rewrite foldl_insert_notin by done. unfold put_segment. by rewrite lookup_insert_eq.
Qed.

Lemma by_id_lookup l i :
  NoDup (ids_of l) ->
  by_id l !! i = match list_find (fun a => as_segment_id a = i) l with Some (_, a) => Some a | None => None end.
Proof.
  intros Hn. unfold by_id. destruct (list_find _ l) as [[j a]|] eqn:Hf.
  - apply list_find_Some in Hf as (Hj & <- & _). apply foldl_insert_in; [done|].
    by eapply list_elem_of_lookup_2.
  - apply list_find_None in Hf. rewrite foldl_insert_notin; [apply lookup_empty|].
    intros (a & -> & Ha)%list_elem_of_fmap. rewrite Forall_forall in Hf. by apply (Hf a).
Qed.

Lemma by_id_Some l a i :
  NoDup (ids_of l) -> by_id l !! i = Some a <-> a ∈ l /\ as_segment_id a = i.
Proof.
  intros Hn. split.
  - rewrite by_id_lookup by done. destruct (list_find _ l) as [[j b]|] eqn:Hf; [|done].
    apply list_find_Some in Hf as (Hj & Hi & _). intros [= ->]. split; [|done].
    by eapply list_elem_of_lookup_2.
  - intros [Ha <-]. by apply foldl_insert_in.
Qed.

Lemma by_id_None l i : NoDup (ids_of l) -> by_id l !! i = None <-> i ∉ ids_of l.
Proof.
  intros Hn. rewrite eq_None_not_Some. f_equiv. split.
  - intros [a Ha]. apply by_id_Some in Ha as [Ha <-]; [|done]. by apply list_elem_of_fmap_2.
  - intros (a & -> & Ha)%list_elem_of_fmap. exists a. by apply by_id_Some.
Qed.

Lemma foldr_delete_lookup (m : gmap Z AssignedSegment) l i :
  foldr delete m l !! i = if decide (i ∈ l) then None else m !! i.
Proof.
  induction l as [|j l IH]; simpl; [done|]. destruct (decide (i = j)) as [->|Hij].
  - rewrite lookup_delete_eq, decide_True; [done|by left].
  - rewrite lookup_delete_ne by done. rewrite IH. repeat case_decide; set_solver.
Qed.

Lemma NoDup_ids_filter (P : AssignedSegment -> Prop) `{!forall a, Decision (P a)} l :
  NoDup (ids_of l) -> NoDup (ids_of (filter P l)).
Proof.
  intros Hn. eapply sublist_NoDup; [exact Hn|]. apply fmap_sublist, sublist_filter.
Qed.

Lemma delta_attach e before l :
  NoDup (ids_of l) ->
  attach (mkAssignmentDelta e (delta_gained before l) (delta_lost before (by_id l))) before = by_id l.
Proof.
  intros Hn. apply map_eq. intros i. unfold attach. simpl.
  destruct (decide (i ∈ ids_of (delta_gained before l))) as [Hi|Hi].
  - apply list_elem_of_fmap in Hi as (a & -> & Ha).
    rewrite foldl_insert_in; [|by apply NoDup_ids_filter|done].
    symmetry. apply by_id_Some; [done|]. unfold delta_gained in Ha. apply list_elem_of_filter in Ha.
    by destruct Ha.
  - rewrite foldl_insert_notin by done. rewrite foldr_delete_lookup. case_decide as Hd.
    + unfold delta_lost in Hd. apply list_elem_of_filter in Hd as [Hne Hdom].
      destruct (by_id l !! i) as [a|] eqn:Ha; [|done]. exfalso. apply Hi.
      apply by_id_Some in Ha as [Ha <-]; [|done]. apply list_elem_of_fmap_2.
      unfold delta_gained. apply list_elem_of_filter. split; [congruence|done].
    + destruct (before !! i) as [a|] eqn:Hb.
      * destruct (decide (by_id l !! i = before !! i)) as [Heq|Heq]; [congruence|].
        exfalso. apply Hd. unfold delta_lost. apply list_elem_of_filter. split; [done|].
        apply elem_of_btree_elems. by eapply elem_of_dom_2.
      * symmetry. apply by_id_None; [done|]. intros Hin. apply Hi.
        apply list_elem_of_fmap in Hin as (a & -> & Ha). apply list_elem_of_fmap_2.
        unfold delta_gained. apply list_elem_of_filter. split; [congruence|done].
Qed.

Lemma delta_minimal e before l i :
  NoDup (ids_of l) ->
  before !! i = by_id l !! i <->
  (i ∉ delta_lost before (by_id l)
   /\ i ∉ ids_of (ad_gained (mkAssignmentDelta e (delta_gained before l) (delta_lost before (by_id l))))).
Proof.
  intros Hn. simpl. split.
  - intros Heq. split.
    + unfold delta_lost. rewrite list_elem_of_filter. intros [? _]. congruence.
    + intros (a & -> & Ha)%list_elem_of_fmap. unfold delta_gained in Ha.
      apply list_elem_of_filter in Ha as [Hne Ha]. apply Hne. rewrite Heq. by apply by_id_Some.
  - intros [Hl Hg]. pose proof (f_equal (.!! i) (delta_attach e before l Hn)) as Ha. simpl in Ha.
    unfold attach in Ha. simpl in Ha. rewrite foldl_insert_notin in Ha by done.
    rewrite foldr_delete_lookup, decide_False in Ha by done. done.
Qed.

(** * The invariant of a session *)

Definition epoch_ge (floor : option Z) (a : ConsumerAssignment) : Prop :=
  from_option (fun f => f <= ca_layout_epoch a) True floor.

Definition session_ok (s : ScalableConsumerSession) : Prop :=
  (forall a, sc_assignment s = Some a ->
     assignment_ok (sc_topic s) a /\ sc_epoch_floor s = Some (ca_layout_epoch a)
     /\ sc_buffered_updates s = [])
  /\ Forall (fun a => assignment_ok (sc_topic s) a /\ epoch_ge (sc_epoch_floor s) a)
       (sc_buffered_updates s)
  /\ blen (sc_buffered_updates s) <= MAX_BUFFERED_ASSIGNMENT_UPDATES.

(** The floor only rises. *)
Definition floor_le (f g : option Z) : Prop :=
  match f, g with
  | None, _ => True
  | Some f, Some g => f <= g
  | Some _, None => False
  end.

#[global] Instance floor_le_preorder : PreOrder floor_le.
Proof. split; [intros [f|]; simpl; lia|]. intros [f|] [g|] [h|]; simpl; try done; lia. Qed.

Lemma raise_floor_ge f a : epoch_ge f a -> raise_floor f (ca_layout_epoch a) = ca_layout_epoch a.
Proof. destruct f; simpl; lia. Qed.

Lemma raise_floor_le f e : floor_le f (Some (raise_floor f e)).
Proof. destruct f; simpl; lia. Qed.

Lemma enforce_epoch_floor_ok s a u :
  enforce_epoch_floor s (ca_layout_epoch a) = Ok u <-> epoch_ge (sc_epoch_floor s) a.
Proof.
  unfold enforce_epoch_floor, epoch_ge. destruct (sc_epoch_floor s), u; simpl; [|done].
  case_match; split; try done; lia.
Qed.

(** The branches of [apply_incoming] on a registered session. *)
Lemma apply_incoming_cases incoming s r s' :
  apply_incoming incoming s = (r, s') ->
  (exists prev, sc_assignment s = Some prev /\ ca_layout_epoch incoming < ca_layout_epoch prev
                /\ r = Err (StaleEpoch (ca_layout_epoch incoming) (ca_layout_epoch prev)) /\ s' = s)
  \/ (sc_assignment s = Some incoming /\ r = Ok None /\ s' = s)
  \/ ((forall prev, sc_assignment s = Some prev -> ca_layout_epoch prev <= ca_layout_epoch incoming)
      /\ sc_assignment s <> Some incoming
      /\ r = Ok (Some (mkAssignmentDelta (ca_layout_epoch incoming)
                        (delta_gained (held s) (ca_segments incoming))
                        (delta_lost (held s) (by_id (ca_segments incoming)))))
      /\ s' = s <| sc_assignment := Some incoming |>
                <| sc_epoch_floor := Some (raise_floor (sc_epoch_floor s) (ca_layout_epoch incoming)) |>).
Proof.
  unfold apply_incoming, held. destruct (sc_assignment s) as [prev|] eqn:Ha.
  - destruct (_ <? _) eqn:Hlt; [intros [= <- <-]; left; exists prev; split_and!; [done|lia|done..]|].
    case_bool_decide as Heq; intros [= <- <-]; [right; left; split_and!; congruence|].
    right; right. split_and!; [intros p [= <-]; lia|done|done|done].
  - rewrite bool_decide_eq_false_2 by done. intros [= <- <-]. by right; right.
Qed.

Lemma apply_incoming_ok incoming s r s' :
  session_ok s -> sc_buffered_updates s = [] -> assignment_ok (sc_topic s) incoming ->
  epoch_ge (sc_epoch_floor s) incoming \/ is_Some (sc_assignment s) ->
  apply_incoming incoming s = (r, s') ->
  session_ok s' /\ floor_le (sc_epoch_floor s) (sc_epoch_floor s').
Proof.
  intros (Ha & Hf & Hl) Hb Hok Hfl [(p & _ & _ & -> & ->)|[(_ & -> & ->)|(Hge & Hne & -> & ->)]]%apply_incoming_cases;
    [by split..|].
  assert (Hf' : epoch_ge (sc_epoch_floor s) incoming).
  { destruct Hfl as [|[prev Hp]]; [done|]. destruct (Ha prev Hp) as (_ & -> & _). simpl. by apply Hge. }
  split; [|apply raise_floor_le]. unfold session_ok. simpl. rewrite Hb in *.
  split_and!; [intros a [= <-]|constructor|done]. by rewrite raise_floor_ge.
Qed.

(** * Pushes before and after the baseline *)

(** The pushes a controller sends in order, up to the first error, with what the
    connection reports for each one that changed the assignment. *)
Fixpoint push_all (us : list AssignmentUpdate) (s : ScalableConsumerSession)
    : result AssignmentError (list AssignmentReplay * ScalableConsumerSession) :=
  match us with
  | [] => Ok ([], s)
  | u :: us' =>
      match handle_assignment_update u s with
      | (Err e, _) => Err e
      | (Ok d, s') =>
          '(rs, s'') ← push_all us' s';
          Ok (match d, sc_assignment s' with
              | Some d, Some a => mkReplay a d :: rs
              | _, _ => rs
              end, s'')
      end
  end.

(** The same for decoded assignments. *)
Fixpoint apply_all (l : list ConsumerAssignment) (s : ScalableConsumerSession)
    : result AssignmentError (list AssignmentReplay * ScalableConsumerSession) :=
  match l with
  | [] => Ok ([], s)
  | a :: l' =>
      match apply_incoming a s with
      | (Err e, _) => Err e
      | (Ok d, s') =>
          '(rs, s'') ← apply_all l' s';
          Ok (match d, sc_assignment s' with
              | Some d, Some a => mkReplay a d :: rs
              | _, _ => rs
              end, s'')
      end
  end.

Definition accepts (s : ScalableConsumerSession) (u : AssignmentUpdate) (a : ConsumerAssignment) : Prop :=
  au_consumer_id u = sc_consumer_id s /\ assignment_try_from_pb (au_assignment u) (sc_topic s) = Ok a.

Lemma handle_update_accepts u s d s' :
  handle_assignment_update u s = (Ok d, s') ->
  exists a, accepts s u a /\
    ((sc_assignment s = None /\ epoch_ge (sc_epoch_floor s) a /\ d = None
      /\ blen (sc_buffered_updates s) <> MAX_BUFFERED_ASSIGNMENT_UPDATES
      /\ s' = s <| sc_buffered_updates ::= (fun l => l ++ [a]) |>)
     \/ (is_Some (sc_assignment s) /\ apply_incoming a s = (Ok d, s'))).
Proof.
  unfold handle_assignment_update, handle_assignment_update_for, require_incarnation.
  rewrite Z.eqb_refl. simpl. destruct (_ =? sc_consumer_id s) eqn:Hc; [|done]. simpl.
  destruct (assignment_try_from_pb _ _) as [a|] eqn:Ha; [|done]. intros H. exists a.
  split; [split; [lia|done]|]. destruct (sc_assignment s); [by eauto|]. left.
  destruct (enforce_epoch_floor _ _) as [u'|] eqn:He; [|done].
  destruct (_ =? MAX_BUFFERED_ASSIGNMENT_UPDATES) eqn:Hm; [done|].
  apply enforce_epoch_floor_ok in He. injection H as <- <-. split_and!; try done. lia.
Qed.

Lemma handle_update_early u s a :
  accepts s u a -> sc_assignment s = None -> epoch_ge (sc_epoch_floor s) a ->
  blen (sc_buffered_updates s) < MAX_BUFFERED_ASSIGNMENT_UPDATES ->
  handle_assignment_update u s = (Ok None, s <| sc_buffered_updates ::= (fun l => l ++ [a]) |>).
Proof.
  intros [Hc Ha] Hn Hf Hl. unfold handle_assignment_update, handle_assignment_update_for, require_incarnation.
  rewrite Z.eqb_refl. simpl. rewrite Hc, Z.eqb_refl. simpl. rewrite Ha, Hn.
  rewrite (proj2 (enforce_epoch_floor_ok s a tt) Hf). rewrite (proj2 (Z.eqb_neq _ _)) by lia. done.
Qed.

Lemma handle_update_late u s a :
  accepts s u a -> is_Some (sc_assignment s) -> handle_assignment_update u s = apply_incoming a s.
Proof.
  intros [Hc Ha] [b Hb]. unfold handle_assignment_update, handle_assignment_update_for, require_incarnation.
  rewrite Z.eqb_refl. simpl. rewrite Hc, Z.eqb_refl. simpl. by rewrite Ha, Hb.
Qed.

(** [apply_incoming] neither reads nor writes the two queues. *)
Definition with_queues (b : list ConsumerAssignment) (p : list AssignmentReplay)
    (s : ScalableConsumerSession) : ScalableConsumerSession :=
  s <| sc_buffered_updates := b |> <| sc_replayed_updates := p |>.

Lemma with_queues_id s : with_queues (sc_buffered_updates s) (sc_replayed_updates s) s = s.
Proof. by destruct s. Qed.

Lemma apply_incoming_queues a b p s :
  apply_incoming a (with_queues b p s)
  = ((apply_incoming a s).1, with_queues b p (apply_incoming a s).2).
Proof. unfold apply_incoming. simpl. repeat case_match; done. Qed.

Lemma apply_incoming_frame a s r s' :
  apply_incoming a s = (r, s') ->
  sc_consumer_id s' = sc_consumer_id s /\ sc_topic s' = sc_topic s
  /\ sc_buffered_updates s' = sc_buffered_updates s /\ sc_replayed_updates s' = sc_replayed_updates s
  /\ (is_Some (sc_assignment s) -> is_Some (sc_assignment s')).
Proof.
  intros [(p & _ & _ & -> & ->)|[(_ & -> & ->)|(_ & _ & -> & ->)]]%apply_incoming_cases; done.
Qed.

Lemma apply_all_queues l b p s :
  apply_all l (with_queues b p s)
  = ('(rs, s') ← apply_all l s; Ok (rs, with_queues b p s')).
Proof.
  revert s. induction l as [|a l IH]; intros s; simpl; [done|]. rewrite apply_incoming_queues.
  destruct (apply_incoming a s) as [[d|e] s1]; simpl; [|done]. rewrite IH.
  by destruct (apply_all l s1) as [[rs s2]|e].
Qed.

Lemma replay_loop_all req l s :
  is_Some (sc_assignment s) ->
  replay_loop req l s
  = ('(rs, s') ← apply_all l s; Ok (with_queues [] (sc_replayed_updates s ++ rs) s')).
Proof.
  revert s. induction l as [|a l IH]; intros s Hs; simpl.
  { rewrite app_nil_r. by destruct s. }
  change (s <| sc_buffered_updates := l |>) with (with_queues l (sc_replayed_updates s) s).
  rewrite apply_incoming_queues. destruct (apply_incoming a s) as [[d|e] s1] eqn:Ha; simpl; [|done].
  apply apply_incoming_frame in Ha as (_ & _ & _ & Hr & Hs1). specialize (Hs1 Hs) as [b Hb].
  destruct d as [d|]; simpl; rewrite ?Hb; simpl.
  - rewrite IH by (simpl; by eexists). simpl.
    change (_ <| sc_replayed_updates ::= _ |>)
      with (with_queues l (sc_replayed_updates s ++ [mkReplay b d]) s1).
    rewrite apply_all_queues. destruct (apply_all l s1) as [[rs s2]|e]; simpl; [|done].
    by rewrite <- (assoc_L app).
  - rewrite IH by (simpl; by eexists). simpl. rewrite apply_all_queues.
    by destruct (apply_all l s1) as [[rs s2]|e].
Qed.

Lemma apply_all_epochs l s rs s' cur :
  sc_assignment s = Some cur -> apply_all l s = Ok (rs, s') ->
  Forall (fun a => ca_layout_epoch cur <= ca_layout_epoch a) l.
Proof.
  revert s rs cur. induction l as [|a l IH]; intros s rs cur Hc; simpl; [constructor|].
  destruct (apply_incoming a s) as [[d|e] s1] eqn:Ha; [|done]. intros H. inv_ok. destruct r as [rs' s2].
  injection H as _ ->. apply apply_incoming_cases in Ha as [(p & _ & _ & ? & _)|[(Hs & _ & ->)|(Hge & _ & _ & ->)]]; [done| |].
  - simplify_eq. constructor; [lia|]. by eapply IH.
  - constructor; [by apply Hge|]. eapply Forall_impl; [eapply IH; [|exact Hr]; done|]. simpl.
    intros b Hb. specialize (Hge _ Hc). lia.
Qed.

Lemma buffer_app s (x y : list ConsumerAssignment) :
  s <| sc_buffered_updates ::= (fun b => b ++ x) |> <| sc_buffered_updates ::= (fun b => b ++ y) |>
  = s <| sc_buffered_updates ::= (fun b => b ++ x ++ y) |>.
Proof. destruct s. unfold update. simpl. by rewrite (assoc_L app). Qed.

Lemma push_early us s rs s' :
  sc_assignment s = None ->
  blen (sc_buffered_updates s) + blen us <= MAX_BUFFERED_ASSIGNMENT_UPDATES ->
  push_all us s = Ok (rs, s') <->
  exists l, Forall2 (accepts s) us l /\ Forall (epoch_ge (sc_epoch_floor s)) l /\ rs = []
            /\ s' = s <| sc_buffered_updates ::= (fun b => b ++ l) |>.
Proof.
  revert s rs s'. induction us as [|u us IH]; intros s rs s' Hn Hl; simpl.
  { split.
    - intros [= <- <-]. exists []. split_and!; try by constructor. destruct s; simpl. unfold update. simpl. by rewrite app_nil_r.
    - intros (l & Hl' & _ & -> & ->). apply Forall2_nil_inv_l in Hl' as ->. destruct s; simpl.
      unfold update. simpl. by rewrite app_nil_r. }
  rewrite blen_cons in Hl. pose proof (blen_nonneg us).
  assert (Hstep : forall a, blen (sc_buffered_updates s ++ [a]) + blen us <= MAX_BUFFERED_ASSIGNMENT_UPDATES)
    by (intros a; rewrite blen_app, blen_cons, blen_nil; lia).
  split.
  - destruct (handle_assignment_update u s) as [[d|e] s1] eqn:Hu; [|done]. intros H'. inv_ok.
    destruct r as [rs1 s2]. apply handle_update_accepts in Hu as (a & Hacc & [(_ & Hf & -> & _ & ->)|[[? ?] _]]);
      [|congruence].
    apply IH in Hr as (l & H2 & Hfl & -> & ->); [|done|apply Hstep]. inv_ok. simplify_eq.
    exists (a :: l). split_and!; [by constructor|by constructor|done|].
    apply (buffer_app s [a] l).
  - intros (l & Hacc & Hf & -> & ->). apply Forall2_cons_inv_l in Hacc as (a & l' & Ha & Hacc & ->).
    apply Forall_cons in Hf as [Hf Hfl]. rewrite (handle_update_early u s a) by (done || lia). simpl.
    set (s1 := s <| sc_buffered_updates ::= _ |>).
    assert (Hp : push_all us s1 = Ok ([], s1 <| sc_buffered_updates ::= (fun b => b ++ l') |>)).
    { apply IH; [done|apply Hstep|]. by exists l'. }
    rewrite Hp. simpl. unfold s1. by rewrite (buffer_app s [a] l').
Qed.

Lemma push_late us s rs s' :
  is_Some (sc_assignment s) ->
  push_all us s = Ok (rs, s') <-> exists l, Forall2 (accepts s) us l /\ apply_all l s = Ok (rs, s').
Proof.
  revert s rs s'. induction us as [|u us IH]; intros s rs s' Hs; simpl.
  { split; [intros [= <- <-]; by exists []|]. intros (l & ->%Forall2_nil_inv_l & H). done. }
  assert (Hstep : forall a d s1, apply_incoming a s = (Ok d, s1) -> is_Some (sc_assignment s1)
    /\ (forall l, Forall2 (accepts s1) us l <-> Forall2 (accepts s) us l)).
  { intros a d s1 Ha. apply apply_incoming_frame in Ha as (Hc & Ht & _ & _ & Hs1). split; [auto|].
    intros l. unfold accepts. by rewrite Hc, Ht. }
  split.
  - destruct (handle_assignment_update u s) as [[d|e] s1] eqn:Hu; [|done]. intros H'. inv_ok.
    destruct r as [rs1 s2]. apply handle_update_accepts in Hu as (a & Hacc & [(Hn & _)|[_ Hap]]);
      [by rewrite Hn in Hs; destruct Hs|].
    destruct (Hstep _ _ _ Hap) as [Hs1 Heq]. apply IH in Hr as (l & H2 & Hall); [|done].
    exists (a :: l). split; [constructor; [done|by apply Heq]|]. simpl. by rewrite Hap, Hall.
  - intros (l & Hacc & Hall). apply Forall2_cons_inv_l in Hacc as (a & l' & Ha & Hacc & ->).
    rewrite (handle_update_late u s a) by done. simpl in Hall.
    destruct (apply_incoming a s) as [[d|e] s1] eqn:Hap; [|done]. inv_ok. destruct r as [rs1 s2].
    destruct (Hstep _ _ _ Hap) as [Hs1 Heq].
    rewrite (proj2 (IH s1 rs1 s2 Hs1)) by (exists l'; split; [by apply Heq|exact Hr]). done.
Qed.

(** The session as the response leaves it, before the replay. *)
Definition base (b : ConsumerAssignment) (s : ScalableConsumerSession) : ScalableConsumerSession :=
  s <| sc_assignment := Some b |>
    <| sc_epoch_floor := Some (raise_floor (sc_epoch_floor s) (ca_layout_epoch b)) |>
    <| sc_replayed_updates := [] |>.

Lemma base_buffered b l s :
  base b (s <| sc_buffered_updates ::= (fun q => q ++ l) |>)
  = with_queues (sc_buffered_updates s ++ l) [] (base b s).
Proof. by destruct s. Qed.

Lemma handle_response_ok resp s b s' :
  handle_subscribe_response resp s = (Ok b, s') <->
  exists pb rs s1, sr_assignment resp = Some pb /\ assignment_try_from_pb pb (sc_topic s) = Ok b
    /\ epoch_ge (sc_epoch_floor s) b /\ apply_all (sc_buffered_updates s) (base b s) = Ok (rs, s1)
    /\ s' = with_queues [] rs s1.
Proof.
  unfold handle_subscribe_response, handle_subscribe_response_for, require_incarnation.
  rewrite Z.eqb_refl. cbn [negb mbind result_bind]. split.
  - destruct (sr_assignment resp) as [pb|] eqn:Hpb; [|done].
    destruct (assignment_try_from_pb pb (sc_topic s)) as [b'|] eqn:Hb; cbn [mbind result_bind]; [|done].
    destruct (enforce_epoch_floor _ _) as [u|] eqn:He; cbn [mbind result_bind]; [|done].
    rewrite replay_loop_all by (simpl; by eexists).
    fold (base b' s). destruct (apply_all _ _) as [[rs s1]|e] eqn:Hall; simpl; [|done].
    intros [= <- <-]. apply enforce_epoch_floor_ok in He. by exists pb, rs, s1.
  - intros (pb & rs & s1 & -> & -> & He & Hall & ->). cbn [mbind result_bind].
    rewrite (proj2 (enforce_epoch_floor_ok s b tt) He). cbn [mbind result_bind].
    rewrite replay_loop_all by (simpl; by eexists). fold (base b s). by rewrite Hall.
Qed.

Lemma handle_response_err resp s e s' : handle_subscribe_response resp s = (Err e, s') -> s' = s.
Proof.
  unfold handle_subscribe_response, handle_subscribe_response_for.
  destruct (_ ≫= _) as [[b st]|e']; [done|]. by intros [= _ <-].
Qed.

Lemma handle_update_err u s e s' : handle_assignment_update u s = (Err e, s') -> s' = s.
Proof.
  unfold handle_assignment_update, handle_assignment_update_for.
  destruct (require_incarnation _ _); [|by intros [= _ <-]].
  case_match; [by intros [= _ <-]|]. case_match; [|by intros [= _ <-]].
  case_match.
  - intros [(p & _ & _ & _ & ->)|[(_ & ? & _)|(_ & _ & ? & _)]]%apply_incoming_cases; done.
  - case_match; [|by intros [= _ <-]]. case_match; [by intros [= _ <-]|done].
Qed.

(** C36: the order in which the response and the pushes reach a session that waits
    for its response makes no difference: pushes that overtake the response are
    buffered, and the response then leaves the session in the state, and reports
    the baseline and the assignment changes, that it would have with the pushes
    arriving after it.  One order succeeds exactly when the other does. *)
Theorem buffering_transparent s resp us b rs s' :
  sc_assignment s = None -> sc_buffered_updates s = [] -> sc_replayed_updates s = [] ->
  blen us <= MAX_BUFFERED_ASSIGNMENT_UPDATES ->
  (exists s1 s2, push_all us s = Ok ([], s1) /\ handle_subscribe_response resp s1 = (Ok b, s2)
                 /\ take_replayed_updates s2 = (rs, s'))
  <-> (exists s1 s2, handle_subscribe_response resp s = (Ok b, s1)
                     /\ take_replayed_updates s1 = ([], s2) /\ push_all us s2 = Ok (rs, s')).
Proof.
  intros Hn Hb Hr Hl. split.
  - intros (s1 & s2 & Hp & Hresp & [= <- <-]).
    apply push_early in Hp as (l & Hacc & Hf & _ & ->); [|done|rewrite Hb; unfold blen in *; simpl; lia].
    apply handle_response_ok in Hresp as (pb & rs & s1 & Hpb & Hd & He & Hall & ->).
    simpl in *. rewrite Hb in Hall. simpl in Hall. exists (with_queues [] [] (base b s)).
    exists (with_queues [] [] (base b s)). split_and!; [|done|].
    + apply handle_response_ok. exists pb, [], (base b s). rewrite Hb. done.
    + apply push_late; [simpl; by eexists|]. exists l. split; [done|].
      rewrite base_buffered, apply_all_queues in Hall. inv_ok. destruct r as [rs0 s0]. simplify_eq.
      rewrite apply_all_queues, Hr0. done.
  - intros (s1 & s2 & Hresp & [= Hrs <-] & Hp).
    apply handle_response_ok in Hresp as (pb & rs0 & s0 & Hpb & Hd & He & Hall & ->).
    rewrite Hb in Hall. simpl in Hall. injection Hall as <- <-.
    apply push_late in Hp as (l & Hacc & Hall); [|simpl; by eexists].
    change (_ <| sc_replayed_updates := [] |>) with (with_queues [] [] (base b s)) in Hall.
    assert (Hf : Forall (epoch_ge (sc_epoch_floor s)) l).
    { eapply Forall_impl; [exact (apply_all_epochs l (with_queues [] [] (base b s)) rs _ b eq_refl Hall)|]. simpl. intros a Ha.
      destruct (sc_epoch_floor s); simpl in *; lia. }
    rewrite apply_all_queues in Hall. inv_ok. destruct r as [rs1 s1]. simplify_eq.
    eexists _, (with_queues [] rs s1). split_and!.
    + apply push_early; [done|rewrite Hb; unfold blen in *; simpl; lia|]. by exists l.
    + apply handle_response_ok. exists pb, rs, (with_queues l [] s1). split_and!; try done.
      rewrite base_buffered, apply_all_queues. simpl sc_buffered_updates. rewrite Hb. simpl app. by rewrite Hr0.
    + done.
Qed.

(** * What the engine holds *)

(** An engine that holds [m] and carries out the reported changes [rs] holds,
    after each of them, the assignment reported with it, and in the end [m']. *)
Fixpoint follows (m : gmap Z AssignedSegment) (rs : list AssignmentReplay)
    (m' : gmap Z AssignedSegment) : Prop :=
  match rs with
  | [] => m' = m
  | r :: rs' =>
      attach (ar_delta r) m = by_id (ca_segments (ar_assignment r))
      /\ follows (by_id (ca_segments (ar_assignment r))) rs' m'
  end.

Lemma apply_incoming_held a s d s' :
  NoDup (ids_of (ca_segments a)) -> apply_incoming a s = (Ok d, s') ->
  match d with
  | Some d => sc_assignment s' = Some a /\ attach d (held s) = held s'
  | None => s' = s
  end.
Proof.
  intros Hn [(p & _ & _ & ? & _)|[(_ & [= ->] & ->)|(_ & _ & [= ->] & ->)]]%apply_incoming_cases; [done|done|].
  split; [done|]. unfold held at 3. simpl. by apply delta_attach.
Qed.

Lemma apply_all_follows l s rs s' :
  Forall (fun a => NoDup (ids_of (ca_segments a))) l -> apply_all l s = Ok (rs, s') ->
  follows (held s) rs (held s').
Proof.
  revert s rs. induction l as [|a l IH]; intros s rs Hl; simpl; [by intros [= <- <-]|].
  apply Forall_cons in Hl as [Ha Hl]. destruct (apply_incoming a s) as [[d|e] s1] eqn:Hap; [|done].
  intros H. inv_ok. destruct r as [rs1 s2]. apply apply_incoming_held in Hap; [|done].
  destruct d as [d|]; [destruct Hap as [Hs1 Hat]; rewrite Hs1 in H|subst s1]; injection H as <- <-; [|by apply IH].
  assert (Hh : held s1 = by_id (ca_segments a)) by (unfold held; by rewrite Hs1).
  simpl. rewrite <- Hh. split; [done|by apply IH].
Qed.

(** What a session promises its connection: it stays well formed, never lowers
    its layout floor, reports what turns the held segments into the new ones,
    and an error leaves it as it was. *)
Record session_promise (s s' : ScalableConsumerSession) : Prop := {
  sp_ok : session_ok s';
  sp_floor : floor_le (sc_epoch_floor s) (sc_epoch_floor s');
  sp_topic : sc_topic s' = sc_topic s;
}.

Lemma apply_all_ok l s rs s' :
  session_ok s -> is_Some (sc_assignment s) -> Forall (assignment_ok (sc_topic s)) l ->
  apply_all l s = Ok (rs, s') ->
  session_promise s s' /\ is_Some (sc_assignment s').
Proof.
  revert s rs. induction l as [|a l IH]; intros s rs Hok Hs Hl; simpl; [by intros [= <- <-]|].
  apply Forall_cons in Hl as [Ha Hl]. destruct (apply_incoming a s) as [[d|e] s1] eqn:Hap; [|done].
  intros H. inv_ok. destruct r as [rs1 s2]. injection H as _ ->.
  pose proof (apply_incoming_frame _ _ _ _ Hap) as (_ & Ht & _ & _ & Hs1).
  assert (Hb : sc_buffered_updates s = []) by (destruct Hs as [b Hb]; by apply (proj1 Hok) in Hb as (_ & _ & ?)).
  apply apply_incoming_ok in Hap as [Hok1 Hfl]; [|done|done|done|by right].
  apply IH in Hr as ([Hok2 Hfl2 Ht2] & Hs2); [|done|auto|by rewrite Ht].
  split; [|done]. split; [done|by etrans|congruence].
Qed.

Lemma base_session_ok b s :
  session_ok s -> assignment_ok (sc_topic s) b -> epoch_ge (sc_epoch_floor s) b ->
  session_ok (with_queues [] [] (base b s)).
Proof.
  intros _ Hb He. unfold session_ok. simpl. split_and!; [|constructor|done].
  intros a [= <-]. by rewrite raise_floor_ge.
Qed.

Lemma session_ok_queues rs s : session_ok s -> session_ok (with_queues [] rs s).
Proof.
  intros (Ha & _ & _). split_and!; simpl; [|constructor|done].
  intros a Has. destruct (Ha a Has) as (? & ? & _). done.
Qed.

Lemma response_promise resp s r s' :
  session_ok s -> handle_subscribe_response resp s = (r, s') ->
  session_promise s s'
  /\ match r with
     | Ok b => assignment_ok (sc_topic s) b /\ is_Some (sc_assignment s')
               /\ follows (by_id (ca_segments b)) (sc_replayed_updates s') (held s')
     | Err _ => s' = s
     end.
Proof.
  intros Hok Hresp. destruct r as [b|e]; [|apply handle_response_err in Hresp as ->; split; [by split|done]].
  apply handle_response_ok in Hresp as (pb & rs & s1 & _ & Hb & He & Hall & ->).
  apply assignment_try_from_pb_ok in Hb as [Hb _].
  assert (Hq : base b s = with_queues (sc_buffered_updates s) [] (with_queues [] [] (base b s))) by by destruct s.
  rewrite Hq, apply_all_queues in Hall. inv_ok. destruct r as [rs0 s0]. simplify_eq.
  pose proof (base_session_ok b s Hok Hb He) as Hok0.
  destruct Hok as (_ & Hbuf & _).
  assert (Hl : Forall (assignment_ok (sc_topic s)) (sc_buffered_updates s)) 
    by (eapply Forall_impl; [exact Hbuf|by intros ? [? _]]).
  pose proof (apply_all_follows _ _ _ _ ltac:(eapply Forall_impl; [exact Hl|]; by intros ? (_ & ? & _)) Hr) as Hfol.
  apply apply_all_ok in Hr as ([Hok1 Hfl Ht1] & Hs1); [|done|simpl; by eexists|done].
  split; [|split_and!; [done|exact Hs1|exact Hfol]]. split; simpl in *.
  - exact (session_ok_queues rs s0 Hok1).
  - etrans; [apply raise_floor_le|exact Hfl].
  - done.
Qed.

Lemma update_promise u s r s' :
  session_ok s -> handle_assignment_update u s = (r, s') ->
  session_promise s s'
  /\ match r with
     | Ok (Some d) => is_Some (sc_assignment s') /\ attach d (held s) = held s'
     | Ok None => sc_assignment s' = sc_assignment s
     | Err _ => s' = s
     end.
Proof.
  intros Hok Hu. destruct r as [d|e]; [|apply handle_update_err in Hu as ->; split; [by split|done]].
  apply handle_update_accepts in Hu as (a & [_ Ha] & [(Hn & He & -> & Hm & ->)|[[b Hb] Hap]]);
    apply assignment_try_from_pb_ok in Ha as [Ha _].
  - split; [|done]. split; [|done|done]. destruct Hok as (_ & Hbuf & Hl). unfold session_ok. simpl.
    rewrite Hn. split_and!; [done|apply Forall_app; split; [done|by apply Forall_singleton]|].
    rewrite blen_app, blen_cons, blen_nil. lia.
  - pose proof (apply_incoming_frame _ _ _ _ Hap) as (_ & Ht & _ & _ & Hs').
    pose proof (proj1 Hok _ Hb) as (_ & _ & Hbuf).
    pose proof (apply_incoming_held _ _ _ _ (proj1 (proj2 Ha)) Hap) as Hheld.
    apply apply_incoming_ok in Hap as [Hok' Hfl]; [|done|done|done|right; by eexists].
    split; [by split|]. destruct d as [d|]; [|by subst]. destruct Hheld as [_ ?]. split; [apply Hs'; by eexists|done].
Qed.

Lemma begin_promise i s r s' :
  session_ok s -> begin_incarnation i s = (r, s') ->
  session_promise s s' /\ match r with Ok _ => sc_assignment s' = None | Err _ => s' = s end.
Proof.
  intros Hok. unfold begin_incarnation. case_match; intros [= <- <-]; [by split|].
  split; [|done]. split; [|done|done]. split_and!; simpl; [done|constructor|done].
Qed.

Lemma invalidate_promise s : session_ok s -> session_promise s (invalidate_authority s).
Proof. intros Hok. split; [|done|done]. split_and!; simpl; [done|constructor|done]. Qed.

Lemma take_promise s : session_ok s -> session_promise s (take_replayed_updates s).2.
Proof. intros Hok. by split. Qed.

Lemma new_session_ok c t su n ty i : session_ok (session_new c t su n ty i).
Proof. split_and!; simpl; [done|constructor|done]. Qed.

#[global] Instance session_promise_trans : Transitive session_promise.
Proof. intros a b c [? ? ?] [? ? ?]. split; [done|by etrans|congruence]. Qed.

(** * Epochs *)

Definition replay_epochs (rs : list AssignmentReplay) : list Z :=
  (fun r => ca_layout_epoch (ar_assignment r)) <$> rs.

(** Epochs [es] in order between two floors. *)
Definition epochs_between (f : option Z) (es : list Z) (g : option Z) : Prop :=
  floor_le f g /\ StronglySorted Z.le es
  /\ Forall (fun e => floor_le f (Some e) /\ floor_le (Some e) g) es.

Lemma epochs_between_nil f g : floor_le f g -> epochs_between f [] g.
Proof. intros Hf. split_and!; [done|constructor..]. Qed.

Lemma epochs_between_app f es g es' h :
  epochs_between f es g -> epochs_between g es' h -> epochs_between f (es ++ es') h.
Proof.
  intros (Hfg & Hs & He) (Hgh & Hs' & He'). rewrite Forall_forall in He, He'. split_and!; [by etrans| |].
  - apply StronglySorted_app. split_and!; [|done|done]. intros x y Hx Hy.
    destruct (He x Hx) as [_ Hxg], (He' y Hy) as [Hgy _]. exact (transitivity Hxg Hgy).
  - apply Forall_app; split; apply Forall_forall; intros e Hin.
    + destruct (He e Hin). split; [done|by etrans].
    + destruct (He' e Hin). split; [by etrans|done].
Qed.

Lemma epochs_between_one f e : floor_le f (Some e) -> epochs_between f [e] (Some e).
Proof. intros Hf. split_and!; [done|repeat constructor|]. apply Forall_singleton. split; [done|]. simpl. lia. Qed.

Lemma apply_all_between l s rs s' cur :
  sc_assignment s = Some cur -> apply_all l s = Ok (rs, s') ->
  exists fin, sc_assignment s' = Some fin
    /\ epochs_between (Some (ca_layout_epoch cur)) (replay_epochs rs) (Some (ca_layout_epoch fin)).
Proof.
  revert s rs cur. induction l as [|a l IH]; intros s rs cur Hc; simpl.
  { intros [= <- <-]. exists cur. split; [done|]. by apply epochs_between_nil. }
  destruct (apply_incoming a s) as [[d|e] s1] eqn:Ha; [|done]. intros H. inv_ok. destruct r as [rs' s2].
  apply apply_incoming_cases in Ha as [(p & _ & _ & ? & _)|[(Hs & [= ->] & ->)|(Hge & _ & [= ->] & ->)]]; [done| |].
  - injection H as <- <-. by apply IH with (s := s).
  - simpl in H. injection H as <- <-. eapply IH in Hr as (fin & Hfin & Hb); [|done]. exists fin. split; [done|].
    apply (epochs_between_app _ [ca_layout_epoch a] (Some (ca_layout_epoch a))); [|done].
    apply epochs_between_one. simpl. by apply Hge.
Qed.

Lemma response_epochs resp s b s' :
  session_ok s -> handle_subscribe_response resp s = (Ok b, s') ->
  epochs_between (sc_epoch_floor s) (ca_layout_epoch b :: replay_epochs (sc_replayed_updates s')) (sc_epoch_floor s').
Proof.
  intros Hok Hr. pose proof (response_promise _ _ _ _ Hok Hr) as ([Hok' _ _] & _).
  apply handle_response_ok in Hr as (pb & rs & s1 & _ & _ & He & Hall & ->).
  eapply apply_all_between in Hall as (fin & Hfin & Hb); [|done].
  assert (Hf : sc_epoch_floor (with_queues [] rs s1) = Some (ca_layout_epoch fin)) by by apply (proj1 Hok').
  rewrite Hf. apply (epochs_between_app _ [ca_layout_epoch b] (Some (ca_layout_epoch b))); [|done].
  apply epochs_between_one. unfold epoch_ge in He. by destruct (sc_epoch_floor s).
Qed.

Lemma update_epochs u s d s' :
  session_ok s -> handle_assignment_update u s = (Ok d, s') ->
  epochs_between (sc_epoch_floor s)
    (match d, sc_assignment s' with Some _, Some a => [ca_layout_epoch a] | _, _ => [] end) (sc_epoch_floor s').
Proof.
  intros Hok Hu. pose proof (update_promise _ _ _ _ Hok Hu) as ([Hok' Hfl _] & Hd).
  destruct d as [d|]; [|by apply epochs_between_nil]. destruct Hd as [[a Ha] _]. rewrite Ha.
  destruct (proj1 Hok' a Ha) as (_ & Hf & _). rewrite Hf in *. by apply epochs_between_one.
Qed.
