(* ===== verification/DagWatch.v ===== *)
(** * The segment DAG of a scalable topic

    [dag_watch.rs]: validation of the layout a broker sends
    ([DagSnapshot::try_from_pb]), the ordering barrier over its ancestry
    ([ordering_eligibility]), and the watch session that replaces the layout and
    reports what changed ([DagWatchSession]).  [BTreeMap] and [BTreeSet] are
    iterated in key order. *)

From S2P Require Import Prelude Ids SegmentTopic Assignment.

(** * Iteration *)

(** [BTreeMap::values] *)
Definition btree_values {A} (m : gmap Z A) : list A := omap (fun k => m !! k) (btree_elems (dom m)).

(** [for x in l { f(x)?; }] *)
Fixpoint try_each {E A} (f : A -> result E unit) (l : list A) : result E unit :=
  match l with
  | [] => Ok tt
  | x :: l' => _ ← f x; try_each f l'
  end.

(** [Vec::dedup] *)
Fixpoint dedup_adjacent (l : list Z) : list Z :=
  match l with
  | a :: ((b :: _) as l') => if a =? b then dedup_adjacent l' else a :: dedup_adjacent l'
  | _ => l
  end.

(** * Data *)

Definition MAX_DAG_SEGMENTS : Z := 4096.
Definition MAX_DAG_EDGES : Z := 16384.
Definition MAX_DAG_DEPTH : Z := 256.
Definition MAX_DAG_SERIALIZED_SIZE : Z := 1024 * 1024.

Record DagLimits := mkLimits {
  lim_segments : Z;
  lim_edges : Z;
  lim_depth : Z;
  lim_serialized_size : Z;
}.

Definition default_limits : DagLimits :=
  mkLimits MAX_DAG_SEGMENTS MAX_DAG_EDGES MAX_DAG_DEPTH MAX_DAG_SERIALIZED_SIZE.

Inductive OrderingMode := Strict | BrokerManagedMode.

#[global] Instance OrderingMode_eq_dec : EqDecision OrderingMode.
Proof. solve_decision. Defined.

Inductive OrderingEligibility :=
| Eligible
| Blocked (incomplete_ancestors broker_managed_ancestors : list Z)
| BrokerManaged (remote_ancestors : list Z).

Definition permits_flow (e : OrderingEligibility) : bool :=
  match e with Eligible | BrokerManaged _ => true | Blocked _ _ => false end.

Inductive OrderingError :=
| OrdUnknownSegment (segment_id : Z)
| OrderingUnprovable (segment_id : Z) (ancestors : list Z).

Inductive DagValidationError :=
| SerializedSize (actual max : Z)
| SegmentCount (actual max : Z)
| PlacementCount (actual max : Z)
| DuplicateSegment (segment_id : Z)
| DuplicatePlacement (segment_id : Z)
| DanglingPlacement (segment_id : Z)
| EmptyPlacementUrl (segment_id : Z)
| InvalidDescriptor (segment_id : Z) (source : SegmentDescriptorError)
| CreatedAfterLayout (segment_id created layout : Z)
| ActiveWithSealEpoch (segment_id sealed : Z)
| ActiveWithChildren (segment_id : Z)
| SealedWithoutEpoch (segment_id : Z)
| InvalidSealEpoch (segment_id created sealed layout : Z)
| DuplicateParent (segment_id parent_id : Z)
| DuplicateChild (segment_id child_id : Z)
| SelfEdge (segment_id : Z)
| EdgeCount (actual max : Z)
| DanglingParent (segment_id parent_id : Z)
| DanglingChild (segment_id child_id : Z)
| NonReciprocalEdge (parent_id child_id : Z)
| EdgeEpochMismatch (parent_id child_id sealed created : Z)
| Cycle
| Depth (actual max : Z)
| ConflictingTopology (segment_id : Z)
| InvalidSplitCoverage (segment_id : Z)
| InvalidMergeCoverage (segment_id : Z)
| NoActiveSegments
| ActiveCoverageDiscontinuity (expected actual segment_id : Z)
| ActiveCoverageEnd (actual expected : Z).

Inductive AttachmentError :=
| AtEpochMismatch (assignment dag : Z)
| AtUnknownSegment (segment_id : Z)
| AtRangeMismatch (segment_id : Z)
| AtLegacySegment (segment_id : Z).

(** [pb::ScalableTopicDag] *)
Record ScalableTopicDag := mkDagPb {
  dag_epoch : Z;
  dag_segments : list SegmentInfoProto;
  dag_segment_brokers : list SegmentBrokerAddress;
  dag_controller_broker_url : option string;
  dag_controller_broker_url_tls : option string;
}.

(** [pb::CommandScalableTopicUpdate] *)
Record ScalableTopicUpdate := mkTopicUpdate {
  stu_session_id : Z;
  stu_dag : option ScalableTopicDag;
  stu_error : option Z;
  stu_message : option string;
  stu_resolved_topic_name : option string;
}.

Record DagSnapshot := mkSnapshot {
  snap_epoch : Z;
  snap_segments : gmap Z SegmentDescriptor;
  snap_topological_order : list Z;
  snap_incomplete_roots : gset Z;
}.

(** * Validation *)

Definition validate_lifecycle (segment : SegmentDescriptor) (layout_epoch : Z)
    : result DagValidationError unit :=
  let id := seg_id segment in
  if seg_created_at segment >? layout_epoch
  then Err (CreatedAfterLayout id (seg_created_at segment) layout_epoch)
  else
    match seg_state segment with
    | SActive =>
        match seg_sealed_at segment with
        | Some sealed => Err (ActiveWithSealEpoch id sealed)
        | None => if negb (bool_decide (seg_children segment = [])) then Err (ActiveWithChildren id) else Ok tt
        end
    | SSealed =>
        match seg_sealed_at segment with
        | None => Err (SealedWithoutEpoch id)
        | Some sealed =>
            if (sealed <? seg_created_at segment) || (sealed >? layout_epoch)
            then Err (InvalidSealEpoch id (seg_created_at segment) sealed layout_epoch)
            else Ok tt
        end
    end.

Fixpoint edge_list_loop (segment_id : Z) (parents : bool) (unique : gset Z) (ids : list Z)
    : result DagValidationError unit :=
  match ids with
  | [] => Ok tt
  | id :: ids' =>
      if id =? segment_id then Err (SelfEdge segment_id)
      else if bool_decide (id ∈ unique)
      then Err (if parents then DuplicateParent segment_id id else DuplicateChild segment_id id)
      else edge_list_loop segment_id parents ({[id]} ∪ unique) ids'
  end.

Definition validate_edge_list (ids : list Z) (segment_id : Z) (parents : bool) :=
  edge_list_loop segment_id parents ∅ ids.

Definition check_parent_edge (segments : gmap Z SegmentDescriptor) (segment : SegmentDescriptor)
    (parent_id : Z) : result DagValidationError unit :=
  match segments !! parent_id with
  | None => Err (DanglingParent (seg_id segment) parent_id)
  | Some parent =>
      if negb (bool_decide (seg_id segment ∈ seg_children parent))
      then Err (NonReciprocalEdge parent_id (seg_id segment))
      else if negb (bool_decide (seg_sealed_at parent = Some (seg_created_at segment)))
      then Err (EdgeEpochMismatch parent_id (seg_id segment) (default 0 (seg_sealed_at parent))
                  (seg_created_at segment))
      else Ok tt
  end.

Definition check_child_edge (segments : gmap Z SegmentDescriptor) (segment : SegmentDescriptor)
    (child_id : Z) : result DagValidationError unit :=
  match segments !! child_id with
  | None => Err (DanglingChild (seg_id segment) child_id)
  | Some child =>
      if negb (bool_decide (seg_id segment ∈ seg_parents child))
      then Err (NonReciprocalEdge (seg_id segment) child_id)
      else Ok tt
  end.

Definition validate_reciprocal_edges (segments : gmap Z SegmentDescriptor)
    : result DagValidationError unit :=
  try_each (fun segment =>
      _ ← try_each (check_parent_edge segments segment) (seg_parents segment);
      try_each (check_child_edge segments segment) (seg_children segment))
    (btree_values segments).

(** ** Kahn's algorithm *)

Record KahnState := mkKahn {
  kh_indegree : gmap Z Z;
  kh_ready : gset Z;
  kh_depth : gmap Z Z;
}.

(** The body of [for child_id in children]. *)
Definition relax_child (max_depth parent_depth : Z) (child_id : Z) (k : KahnState)
    : result DagValidationError KahnState :=
  let child_depth := saturating_add usize_max parent_depth 1 in
  let entry := Z.max (default 0 (kh_depth k !! child_id)) child_depth in
  let depth := <[child_id := entry]> (kh_depth k) in
  if entry >? max_depth then Err (Depth entry max_depth)
  else
    let degree := saturating_sub (default 0 (kh_indegree k !! child_id)) 1 in
    Ok (mkKahn (<[child_id := degree]> (kh_indegree k))
               (if degree =? 0 then {[child_id]} ∪ kh_ready k else kh_ready k)
               depth).

Fixpoint relax_children (max_depth parent_depth : Z) (children : list Z) (k : KahnState)
    : result DagValidationError KahnState :=
  match children with
  | [] => Ok k
  | c :: cs => k' ← relax_child max_depth parent_depth c k; relax_children max_depth parent_depth cs k'
  end.

(** [while let Some(id) = ready.pop_first()]; [None] when the fuel runs out. *)
Fixpoint kahn_loop (fuel : nat) (segments : gmap Z SegmentDescriptor) (max_depth : Z)
    (k : KahnState) (order : list Z) : option (result DagValidationError (list Z)) :=
  match btree_elems (kh_ready k) with
  | [] => Some (Ok order)
  | id :: _ =>
      match fuel with
      | O => None
      | S fuel' =>
          let parent_depth := default 0 (kh_depth k !! id) in
          let children := from_option seg_children [] (segments !! id) in
          match relax_children max_depth parent_depth children
                  (mkKahn (kh_indegree k) (kh_ready k ∖ {[id]}) (kh_depth k)) with
          | Err e => Some (Err e)
          | Ok k' => kahn_loop fuel' segments max_depth k' (order ++ [id])
          end
      end
  end.

Definition kahn_init (segments : gmap Z SegmentDescriptor) : KahnState :=
  let indegree := (fun segment => blen (seg_parents segment)) <$> segments in
  let ready := dom (filter (fun '(_, degree) => degree = 0) indegree) in
  mkKahn indegree ready (set_to_map (fun id => (id, 0)) ready).

(** The loop pops every segment at most once on reciprocal edge lists without
    repetition, the only input it is called on ([kahn_total]): the fuel, one more
    than the number of segments, is not exhausted. *)
Definition validate_acyclic_and_depth (segments : gmap Z SegmentDescriptor) (max_depth : Z)
    : result DagValidationError (list Z) :=
  match kahn_loop (S (size segments)) segments max_depth (kahn_init segments) [] with
  | Some (Err e) => Err e
  | Some (Ok order) => if negb (blen order =? Z.of_nat (size segments)) then Err Cycle else Ok order
  | None => Err Cycle
  end.

(** ** Ranges *)

Fixpoint cover_loop (target : KeyRange) (expected : Z) (ranges : list KeyRange) : bool :=
  match ranges with
  | [] => false
  | range :: rest =>
      if negb (kr_contains_range target range) || negb (kr_start range =? expected) then false
      else if kr_end range =? kr_end target then bool_decide (rest = [])
      else cover_loop target (kr_end range + 1) rest
  end.

Definition ranges_cover (target : KeyRange) (ranges : list KeyRange) : bool :=
  cover_loop target (kr_start target) (sort_keys ranges).

Definition check_split (segments : gmap Z SegmentDescriptor) (parent : SegmentDescriptor)
    : result DagValidationError unit :=
  let children := omap (fun id => segments !! id) (seg_children parent) in
  let split := forallb (fun child => blen (seg_parents child) =? 1) children in
  let merge := match children with [child] => blen (seg_parents child) >? 1 | _ => false end in
  if split then
    if negb (ranges_cover (seg_range parent) (seg_range <$> children))
    then Err (InvalidSplitCoverage (seg_id parent)) else Ok tt
  else if negb merge then Err (ConflictingTopology (seg_id parent)) else Ok tt.

Definition check_merge (segments : gmap Z SegmentDescriptor) (child : SegmentDescriptor)
    : result DagValidationError unit :=
  if negb (ranges_cover (seg_range child)
             (seg_range <$> omap (fun id => segments !! id) (seg_parents child)))
  then Err (InvalidMergeCoverage (seg_id child)) else Ok tt.

Definition validate_range_transitions (segments : gmap Z SegmentDescriptor)
    : result DagValidationError unit :=
  _ ← try_each (check_split segments)
        (filter (fun segment => seg_children segment <> []) (btree_values segments));
  try_each (check_merge segments)
    (filter (fun segment => 1 < blen (seg_parents segment)) (btree_values segments)).

(** [sort_by_key(|segment| (segment.key_range, segment.segment_id))] *)
Definition active_le (a b : SegmentDescriptor) : Prop :=
  lex_le (kr_fields (seg_range a) ++ [seg_id a]) (kr_fields (seg_range b) ++ [seg_id b]).

#[global] Instance active_le_dec a b : Decision (active_le a b) := lex_le_dec _ _.

Fixpoint active_loop (active : list SegmentDescriptor) (expected : Z) (complete : bool)
    : result DagValidationError unit :=
  match active with
  | [] => if negb complete then Err (ActiveCoverageEnd (saturating_sub expected 1) MAX_HASH) else Ok tt
  | segment :: rest =>
      let start := kr_start (seg_range segment) in
      if complete then Err (ActiveCoverageDiscontinuity MAX_HASH start (seg_id segment))
      else if negb (start =? expected) then Err (ActiveCoverageDiscontinuity expected start (seg_id segment))
      else if kr_end (seg_range segment) =? MAX_HASH then active_loop rest expected true
      else active_loop rest (kr_end (seg_range segment) + 1) complete
  end.

Definition active_segments (segments : gmap Z SegmentDescriptor) : list SegmentDescriptor :=
  filter (fun segment => seg_state segment = SActive) (btree_values segments).

Definition validate_active_coverage (segments : gmap Z SegmentDescriptor)
    : result DagValidationError unit :=
  let active := active_segments segments in
  if bool_decide (active = []) then Err NoActiveSegments
  else active_loop (merge_sort active_le active) MIN_HASH false.

(** ** The snapshot *)

Fixpoint placements_loop (l : list SegmentBrokerAddress) (placements : gmap Z SegmentBrokerAddress)
    : result DagValidationError (gmap Z SegmentBrokerAddress) :=
  match l with
  | [] => Ok placements
  | placement :: l' =>
      let id := addr_id placement in
      if bool_decide (is_Some (placements !! id)) then Err (DuplicatePlacement id)
      else if bool_decide (addr_url placement = ""%string) then Err (EmptyPlacementUrl id)
      else placements_loop l' (<[id := placement]> placements)
  end.

Record IndexState := mkIndex {
  ix_segments : gmap Z SegmentDescriptor;
  ix_parent_references : Z;
  ix_child_references : Z;
}.

(** The body of [for info in &dag.segments]. *)
Definition index_segment (epoch max_edges : Z) (placements : gmap Z SegmentBrokerAddress)
    (info : SegmentInfoProto) (x : IndexState) : result DagValidationError IndexState :=
  let id := info_id info in
  if bool_decide (is_Some (ix_segments x !! id)) then Err (DuplicateSegment id)
  else
    descriptor ← map_err (InvalidDescriptor id) (segment_try_from_pb info (placements !! id));
    _ ← validate_lifecycle descriptor epoch;
    _ ← validate_edge_list (seg_parents descriptor) id true;
    _ ← validate_edge_list (seg_children descriptor) id false;
    let parent_references :=
      saturating_add usize_max (ix_parent_references x) (blen (seg_parents descriptor)) in
    let child_references :=
      saturating_add usize_max (ix_child_references x) (blen (seg_children descriptor)) in
    if (parent_references >? max_edges) || (child_references >? max_edges)
    then Err (EdgeCount (Z.max parent_references child_references) max_edges)
    else Ok (mkIndex (<[id := descriptor]> (ix_segments x)) parent_references child_references).

Fixpoint index_loop (epoch max_edges : Z) (placements : gmap Z SegmentBrokerAddress)
    (l : list SegmentInfoProto) (x : IndexState) : result DagValidationError IndexState :=
  match l with
  | [] => Ok x
  | info :: l' =>
      x' ← index_segment epoch max_edges placements info x;
      index_loop epoch max_edges placements l' x'
  end.

Definition check_placement (segments : gmap Z SegmentDescriptor) (id : Z)
    : result DagValidationError unit :=
  if negb (bool_decide (is_Some (segments !! id))) then Err (DanglingPlacement id) else Ok tt.

Definition incomplete_roots_of (segments : gmap Z SegmentDescriptor) : gset Z :=
  list_to_set (seg_id <$>
    filter (fun segment => seg_parents segment = [] /\ 0 < seg_created_at segment)
      (btree_values segments)).

Section Validation.
Context `{ProtoMessage ScalableTopicDag}.

Definition try_from_pb_with_limits (dag : ScalableTopicDag) (limits : DagLimits)
    : result DagValidationError DagSnapshot :=
  let encoded_size := encoded_len dag in
  _ ← guard_err (encoded_size >? lim_serialized_size limits)
        (SerializedSize encoded_size (lim_serialized_size limits));
  _ ← guard_err (blen (dag_segments dag) >? lim_segments limits)
        (SegmentCount (blen (dag_segments dag)) (lim_segments limits));
  _ ← guard_err (blen (dag_segment_brokers dag) >? lim_segments limits)
        (PlacementCount (blen (dag_segment_brokers dag)) (lim_segments limits));
  placements ← placements_loop (dag_segment_brokers dag) ∅;
  x ← index_loop (dag_epoch dag) (lim_edges limits) placements (dag_segments dag) (mkIndex ∅ 0 0);
  let segments := ix_segments x in
  _ ← try_each (check_placement segments) (btree_elems (dom placements));
  _ ← validate_reciprocal_edges segments;
  topological_order ← validate_acyclic_and_depth segments (lim_depth limits);
  _ ← validate_range_transitions segments;
  _ ← validate_active_coverage segments;
  Ok (mkSnapshot (dag_epoch dag) segments topological_order (incomplete_roots_of segments)).

Definition try_from_pb (dag : ScalableTopicDag) : result DagValidationError DagSnapshot :=
  try_from_pb_with_limits dag default_limits.
End Validation.

Definition snapshot_segments (d : DagSnapshot) : list SegmentDescriptor := btree_values (snap_segments d).

Definition check_attachment (d : DagSnapshot) (assigned : AssignedSegment)
    : result AttachmentError unit :=
  let id := as_segment_id assigned in
  match snap_segments d !! id with
  | None => Err (AtUnknownSegment id)
  | Some descriptor =>
      if negb (bool_decide (seg_range descriptor = as_key_range assigned)) then Err (AtRangeMismatch id)
      else if segment_is_legacy descriptor then Err (AtLegacySegment id)
      else Ok tt
  end.

Definition validate_assignment (d : DagSnapshot) (a : ConsumerAssignment)
    : result AttachmentError unit :=
  if negb (ca_layout_epoch a =? snap_epoch d)
  then Err (AtEpochMismatch (ca_layout_epoch a) (snap_epoch d))
  else try_each (check_attachment d) (ca_segments a).

(** ** Ancestry *)

(** [while let Some(parent_id) = pending.pop()]: the stack grows at its end. *)
Fixpoint ancestors_loop (fuel : nat) (segments : gmap Z SegmentDescriptor) (pending : list Z)
    (ancestors : gset Z) : gset Z :=
  match fuel with
  | O => ancestors
  | S fuel' =>
      match last pending with
      | None => ancestors
      | Some parent_id =>
          let pending := removelast pending in
          if bool_decide (parent_id ∈ ancestors) then ancestors_loop fuel' segments pending ancestors
          else
            let extended := match segments !! parent_id with
                            | Some parent => pending ++ seg_parents parent
                            | None => pending
                            end in
            ancestors_loop fuel' segments extended ({[parent_id]} ∪ ancestors)
      end
  end.

(** Every pop removes a reference that a segment pushed once: the fuel exceeds
    the number of parent references. *)
Definition parents_of (segments : gmap Z SegmentDescriptor) (id : Z) : list Z :=
  from_option seg_parents [] (segments !! id).

Definition parent_references (segments : gmap Z SegmentDescriptor) (ids : gset Z) : nat :=
  sum_list_with (fun id => length (parents_of segments id)) (elements ids).

Definition ancestors (d : DagSnapshot) (segment_id : Z) : list Z :=
  let segments := snap_segments d in
  let pending := parents_of segments segment_id in
  btree_elems
    (ancestors_loop (S (length pending + parent_references segments (dom segments)))
       segments pending ∅).

Definition ordering_eligibility (d : DagSnapshot) (segment_id : Z) (mode : OrderingMode)
    (local_ownership_history completed : gset Z) : result OrderingError OrderingEligibility :=
  if negb (bool_decide (is_Some (snap_segments d !! segment_id))) then Err (OrdUnknownSegment segment_id)
  else
    let ancestors := ancestors d segment_id in
    let unprovable_roots :=
      dedup_adjacent (sort_keys
        (filter (fun id => id ∈ snap_incomplete_roots d) (ancestors ++ [segment_id]))) in
    if negb (bool_decide (unprovable_roots = [])) then Err (OrderingUnprovable segment_id unprovable_roots)
    else
      let incomplete :=
        filter (fun id => id ∈ local_ownership_history /\ id ∉ completed) ancestors in
      let remote := filter (fun id => id ∉ local_ownership_history) ancestors in
      if bool_decide (mode = Strict) && negb (bool_decide (remote = []))
      then Err (OrderingUnprovable segment_id remote)
      else if negb (bool_decide (incomplete = [])) then Ok (Blocked incomplete remote)
      else if bool_decide (remote = []) then Ok Eligible
      else Ok (BrokerManaged remote).

(** * The watch session *)

Record SplitEvent := mkSplit { se_parent_segment_id : Z; se_child_segment_ids : list Z }.
Record MergeEvent := mkMerge { me_parent_segment_ids : list Z; me_child_segment_id : Z }.

Inductive DagChangeReason := CrSplit | CrMerge | CrSegmentRemoved | CrUnknown.

Record DagDelta := mkDagDelta {
  dd_epoch : Z;
  dd_added : list SegmentDescriptor;
  dd_removed : list Z;
  dd_split_events : list SplitEvent;
  dd_merge_events : list MergeEvent;
}.

Definition is_consume_affecting (d : DagDelta) : bool :=
  match dd_split_events d, dd_merge_events d, dd_removed d with
  | [], [], [] => false
  | _, _, _ => true
  end.

Definition change_reason (d : DagDelta) : DagChangeReason :=
  match dd_split_events d, dd_merge_events d, dd_removed d with
  | _ :: _, _, _ => CrSplit
  | [], _ :: _, _ => CrMerge
  | [], [], _ :: _ => CrSegmentRemoved
  | [], [], [] => CrUnknown
  end.

Inductive DagError :=
| DeSessionMismatch (got expected : Z)
| DeBroker (code : Z) (message : string)
| DeEmpty (session_id : Z)
| InvalidSnapshot (e : DagValidationError).

Fixpoint topology_loop (before : gset Z) (added : list SegmentDescriptor)
    (splits : gmap Z (list Z)) (merges : list MergeEvent) : gmap Z (list Z) * list MergeEvent :=
  match added with
  | [] => (splits, merges)
  | child :: rest =>
      match sort_keys (filter (fun p => p ∈ before) (seg_parents child)) with
      | [] => topology_loop before rest splits merges
      | [p] => topology_loop before rest (<[p := default [] (splits !! p) ++ [seg_id child]]> splits) merges
      | known_parents =>
          topology_loop before rest splits (merges ++ [mkMerge known_parents (seg_id child)])
      end
  end.

Definition derive_topology_changes (added : list SegmentDescriptor) (before : gset Z)
    : list SplitEvent * list MergeEvent :=
  let '(splits, merges) := topology_loop before added ∅ [] in
  (omap (fun p => mkSplit p <$> splits !! p) (btree_elems (dom splits)), merges).

Record DagWatchSession := mkWatch {
  dw_session_id : Z;
  dw_resolved_topic_name : option string;
  dw_controller_broker_url : option string;
  dw_controller_broker_url_tls : option string;
  dw_dag : option DagSnapshot;
}.

#[export] Instance DagWatchSession_eta : Eta DagWatchSession := fun s =>
  mkWatch (dw_session_id s) (dw_resolved_topic_name s) (dw_controller_broker_url s)
    (dw_controller_broker_url_tls s) (dw_dag s).

Definition watch_new (session_id : Z) : DagWatchSession := mkWatch session_id None None None None.

Definition is_resolved (s : DagWatchSession) : bool := bool_decide (is_Some (dw_dag s)).

Definition watch_contains (s : DagWatchSession) (segment_id : Z) : bool :=
  match dw_dag s with
  | Some dag => bool_decide (is_Some (snap_segments dag !! segment_id))
  | None => false
  end.

Definition watch_snapshot (s : DagWatchSession) : list SegmentDescriptor :=
  from_option snapshot_segments [] (dw_dag s).

(** The ids of the layout a session holds. *)
Definition watch_ids (s : DagWatchSession) : gset Z :=
  from_option (fun d => dom (snap_segments d)) ∅ (dw_dag s).

Section Session.
Context `{ProtoMessage ScalableTopicDag}.

Definition handle_update (upd : ScalableTopicUpdate) (s : DagWatchSession)
    : result DagError (option DagDelta) * DagWatchSession :=
  if negb (stu_session_id upd =? dw_session_id s)
  then (Err (DeSessionMismatch (stu_session_id upd) (dw_session_id s)), s)
  else
    match stu_dag upd with
    | None =>
        (Err match stu_error upd with
             | Some code => DeBroker code (default ""%string (stu_message upd))
             | None => DeEmpty (stu_session_id upd)
             end, s)
    | Some dag =>
        if match dw_dag s with Some prev => dag_epoch dag <=? snap_epoch prev | None => false end
        then (Ok None, s)
        else
          match try_from_pb dag with
          | Err e => (Err (InvalidSnapshot e), s)
          | Ok incoming =>
              let before := watch_ids s in
              let after := dom (snap_segments incoming) in
              let added := omap (fun id => snap_segments incoming !! id) (btree_elems (after ∖ before)) in
              let removed := btree_elems (before ∖ after) in
              let '(split_events, merge_events) := derive_topology_changes added before in
              (Ok (Some (mkDagDelta (dag_epoch dag) added removed split_events merge_events)),
               s <| dw_dag := Some incoming |>
                 <| dw_resolved_topic_name ::= (fun n => match stu_resolved_topic_name upd with
                                                         | Some name => Some name
                                                         | None => n
                                                         end) |>
                 <| dw_controller_broker_url := dag_controller_broker_url dag |>
                 <| dw_controller_broker_url_tls := dag_controller_broker_url_tls dag |>)
          end
    end.
End Session.
