(* ===== verification/DagOrder.v ===== *)
(** * The parent-before-child order of a layout

    [validate_acyclic_and_depth] of [dag_watch.rs] is Kahn's algorithm on the
    parent and child lists of the segments.  On edge lists that passed
    [validate_edge_list] and [validate_reciprocal_edges] it is exact: it returns a
    topological order of all the segments, or says [Cycle] of a cyclic graph, or
    [Depth] of a path that is too long. *)

From S2P Require Import Prelude Ids SegmentTopic Assignment DagWatch.

(** * Iteration *)

Lemma elem_of_btree_values {A} (m : gmap Z A) x : x ∈ btree_values m <-> exists k, m !! k = Some x.
Proof.
  unfold btree_values. rewrite list_elem_of_omap. split; [intros (k & _ & Hk); by exists k|].
  intros [k Hk]. exists k. split; [|done]. apply elem_of_btree_elems. by eapply elem_of_dom_2.
Qed.

Lemma try_each_ok {E A} (f : A -> result E unit) l u :
  try_each f l = Ok u <-> forall x, x ∈ l -> f x = Ok tt.
Proof.
  induction l as [|x l IH]; simpl.
  - destruct u. split; [set_solver|done].
  - split.
    + intros H. inv_ok. destruct r. intros y [->|Hy]%elem_of_cons; [done|]. by apply IH.
    + intros H. rewrite (H x) by by left. simpl. apply IH. intros y Hy. apply H. by right.
Qed.

Lemma edge_list_loop_ok segment_id parents unique ids u :
  edge_list_loop segment_id parents unique ids = Ok u ->
  NoDup ids /\ segment_id ∉ ids /\ forall x, x ∈ ids -> x ∉ unique.
Proof.
  revert unique. induction ids as [|i ids IH]; intros unique; simpl.
  - intros _. split_and!; [constructor|set_solver|set_solver].
  - destruct (i =? segment_id) eqn:Hi; [done|]. case_bool_decide as Hin; [done|].
    intros (Hn & Hs & Hu)%IH. apply Z.eqb_neq in Hi. split_and!.
    + constructor; [|done]. intros Hc. apply (Hu i Hc). set_solver.
    + set_solver.
    + intros x [->|Hx]%elem_of_cons; [done|]. specialize (Hu x Hx). set_solver.
Qed.

(** * Graphs of segments *)

(** What the per-segment and the reciprocal checks establish of the edges. *)
Record edges_ok (segs : gmap Z SegmentDescriptor) : Prop := {
  eo_id : forall i d, segs !! i = Some d -> seg_id d = i;
  eo_parents : forall i d, segs !! i = Some d -> NoDup (seg_parents d);
  eo_children : forall i d, segs !! i = Some d -> NoDup (seg_children d);
  eo_parent : forall i d p, segs !! i = Some d -> p ∈ seg_parents d ->
    exists dp, segs !! p = Some dp /\ i ∈ seg_children dp
               /\ seg_sealed_at dp = Some (seg_created_at d);
  eo_child : forall i d c, segs !! i = Some d -> c ∈ seg_children d ->
    exists dc, segs !! c = Some dc /\ i ∈ seg_parents dc;
}.

(** The edge relation: [p] is a parent of [c]. *)
Definition edge (segs : gmap Z SegmentDescriptor) (p c : Z) : Prop :=
  exists d, segs !! c = Some d /\ p ∈ seg_parents d.

(** A path of [n] edges that ends in [i]. *)
Inductive chain (segs : gmap Z SegmentDescriptor) : Z -> Z -> Prop :=
| chain_root i : is_Some (segs !! i) -> chain segs 0 i
| chain_edge n p i : chain segs n p -> edge segs p i -> chain segs (n + 1) i.

(** Acyclicity: the edges increase some rank. *)
Definition acyclic (segs : gmap Z SegmentDescriptor) : Prop :=
  exists rank : Z -> nat, forall p c, edge segs p c -> (rank p < rank c)%nat.

(** A list that holds every parent before its children. *)
Inductive topo (segs : gmap Z SegmentDescriptor) : list Z -> Prop :=
| topo_nil : topo segs []
| topo_snoc o i d : topo segs o -> segs !! i = Some d -> i ∉ o ->
    (forall p, p ∈ seg_parents d -> p ∈ o) -> topo segs (o ++ [i]).

Section Topo.
Context (segs : gmap Z SegmentDescriptor).

Lemma topo_NoDup o : topo segs o -> NoDup o.
Proof.
  induction 1 as [|o i d Ho IH Hd Hi Hp]; [constructor|]. apply NoDup_app.
  split_and!; [done|set_solver|apply NoDup_singleton].
Qed.

Lemma topo_dom o i : topo segs o -> i ∈ o -> is_Some (segs !! i).
Proof. induction 1 as [|o j d Ho IH Hd Hi Hp]; set_solver. Qed.

Lemma topo_parent o p i : topo segs o -> i ∈ o -> edge segs p i -> p ∈ o.
Proof.
  induction 1 as [|o j d Ho IH Hd Hj Hp]; [set_solver|]. intros Hi He.
  apply elem_of_app. apply elem_of_app in Hi as [Hi| ->%list_elem_of_singleton]; [left; auto|].
  destruct He as (d' & Hd' & Hpd). simplify_eq. left. auto.
Qed.

Lemma topo_size o : topo segs o -> (length o <= size segs)%nat.
Proof.
  intros Ho. rewrite <- (size_dom segs). rewrite <- (size_list_to_set (C := gset Z) o) by by apply topo_NoDup.
  apply subseteq_size. intros i Hi%elem_of_list_to_set. apply elem_of_dom. by eapply topo_dom.
Qed.

Lemma topo_full o : topo segs o -> length o = size segs -> o ≡ₚ elements (dom segs).
Proof.
  intros Ho Hl. pose proof (topo_NoDup o Ho) as Hn.
  assert (Heq : list_to_set o = dom segs).
  { apply set_subseteq_size_eq.
    - intros i Hi%elem_of_list_to_set. apply elem_of_dom. by eapply topo_dom.
    - rewrite size_dom, size_list_to_set by done. lia. }
  rewrite <- Heq. by rewrite elements_list_to_set.
Qed.

(** The position in a topological order is a rank. *)
Lemma topo_acyclic o : topo segs o -> (forall i, is_Some (segs !! i) -> i ∈ o) -> acyclic segs.
Proof.
  intros Ho Hall.
  assert (Hr : exists rank : Z -> nat, (forall i, i ∈ o -> (rank i < length o)%nat)
    /\ forall p c, c ∈ o -> edge segs p c -> (rank p < rank c)%nat).
  { clear Hall. induction Ho as [|o i d Ho [rank [Hb Hr]] Hd Hi Hp].
    - exists (fun _ => 0%nat). split; intros; set_solver.
    - exists (fun j => if decide (j = i) then length o else rank j). rewrite length_app. simpl. split.
      + intros j Hj. case_decide; [lia|]. assert (j ∈ o) by set_solver. specialize (Hb j ltac:(done)). lia.
      + intros p c [Hc| ->%list_elem_of_singleton]%elem_of_app He.
        * assert (Hpo : p ∈ o) by by eapply topo_parent. rewrite !decide_False by (by intros ->). auto.
        * destruct He as (d' & Hd' & Hpd). simplify_eq.
          rewrite (decide_True (P := i = i)) by done. rewrite decide_False by (intros ->; auto). auto. }
  destruct Hr as (rank & _ & Hr). exists rank. intros p c He. apply Hr; [|done].
  apply Hall. destruct He as (d & Hd & _). by eexists.
Qed.
End Topo.

(** * The loop *)

Section Kahn.
Context (segs : gmap Z SegmentDescriptor) (Hedges : edges_ok segs).
Context (max_depth : Z) (Hmax : 0 <= max_depth <= usize_max - 1).

Definition depth_of (k : KahnState) (i : Z) : Z := default 0 (kh_depth k !! i).

(** The state of the loop after the edges for which [proc] holds, the segments of
    [order] having been popped. *)
Record kinv (proc : Z -> Z -> bool) (order : list Z) (k : KahnState) : Prop := {
  kv_proc : forall p c, proc p c = true -> p ∈ order;
  kv_degree : forall i d, segs !! i = Some d ->
    kh_indegree k !! i = Some (blen (filter (fun p => proc p i = false) (seg_parents d)));
  kv_ready : forall i, i ∈ kh_ready k <->
    i ∉ order /\ exists d, segs !! i = Some d /\ forall p, p ∈ seg_parents d -> proc p i = true;
  kv_chain : forall i n, kh_depth k !! i = Some n -> chain segs n i /\ n <= max_depth;
  kv_depth : forall p c, edge segs p c -> proc p c = true -> depth_of k p + 1 <= depth_of k c;
}.

Lemma chain_nonneg n i : chain segs n i -> 0 <= n.
Proof. induction 1; lia. Qed.

Lemma kinv_depth_of proc order k i :
  kinv proc order k -> is_Some (segs !! i) -> chain segs (depth_of k i) i /\ 0 <= depth_of k i <= max_depth.
Proof.
  intros Hk Hi. unfold depth_of. destruct (kh_depth k !! i) as [n|] eqn:Hd; simpl.
  - apply (kv_chain _ _ _ Hk) in Hd as [Hc Hn]. pose proof (chain_nonneg _ _ Hc). split; [done|lia].
  - split; [by constructor|lia].
Qed.

Lemma filter_remove_one (P Q : Z -> Prop) `{!forall x, Decision (P x), !forall x, Decision (Q x)} x l :
  NoDup l -> x ∈ l -> P x -> ~ Q x -> (forall y, y <> x -> P y <-> Q y) ->
  blen (filter P l) = blen (filter Q l) + 1.
Proof.
  intros Hn Hx HP HQ Heq. induction Hn as [|y l Hy Hn IH]; [set_solver|].
  rewrite !filter_cons. destruct (decide (y = x)) as [->|Hne].
  - rewrite decide_True, decide_False by done. rewrite blen_cons.
    rewrite (filter_ext_in P Q); [lia|]. intros z Hz. apply Heq. by intros ->.
  - assert (Hx' : x ∈ l) by set_solver. specialize (IH Hx'). specialize (Heq y Hne).
    repeat case_decide; try tauto; rewrite ?blen_cons; lia.
Qed.

(** Only what [proc] says of edges matters. *)
Lemma kinv_ext proc proc' order k :
  kinv proc order k -> (forall p c, edge segs p c -> proc' p c = proc p c) ->
  (forall p c, proc' p c = true -> p ∈ order) -> kinv proc' order k.
Proof.
  intros Hk He Hp. split; [done| | |by eapply kv_chain|].
  - intros i d Hi. rewrite (kv_degree _ _ _ Hk i d Hi). do 2 f_equal.
    apply filter_ext_in. intros p Hpd. rewrite He; [done|by exists d].
  - intros i. rewrite (kv_ready _ _ _ Hk i). f_equiv. f_equiv. intros d.
    split; intros [Hd Hps]; (split; [done|]); intros p Hpd; specialize (Hps p Hpd);
      [rewrite He|rewrite <- He]; done || by exists d.
  - intros p c Hpc Ht. rewrite He in Ht by done. by eapply kv_depth.
Qed.

(** ** One edge *)

Definition mark (proc : Z -> Z -> bool) (id c : Z) : Z -> Z -> bool :=
  fun p x => proc p x || (bool_decide (p = id) && bool_decide (x = c)).

Lemma mark_true proc id c p x : mark proc id c p x = true <-> proc p x = true \/ (p = id /\ x = c).
Proof. unfold mark. rewrite orb_true_iff, andb_true_iff, !bool_decide_eq_true. done. Qed.

Lemma mark_other proc id c p x : x <> c -> mark proc id c p x = proc p x.
Proof. intros Hx. unfold mark. by rewrite (bool_decide_eq_false_2 (x = c)), andb_false_r, orb_false_r. Qed.

Lemma mark_degree proc id c ps :
  NoDup ps -> id ∈ ps -> proc id c = false ->
  saturating_sub (blen (filter (fun p => proc p c = false) ps)) 1
  = blen (filter (fun p => mark proc id c p c = false) ps).
Proof.
  intros Hn Hid Hp. rewrite (filter_remove_one _ (fun p => mark proc id c p c = false) id); try done.
  - unfold saturating_sub. pose proof (blen_nonneg (filter (fun p => mark proc id c p c = false) ps)). lia.
  - rewrite not_false_iff_true. apply mark_true. by right.
  - intros y Hy. unfold mark. by rewrite (bool_decide_eq_false_2 (y = id)), orb_false_r.
Qed.

Lemma all_processed (f : Z -> bool) ps :
  blen (filter (fun p => f p = false) ps) = 0 <-> forall p, p ∈ ps -> f p = true.
Proof.
  split.
  - intros H0 p Hp. apply not_false_iff_true. intros Hf.
    assert (Hin : p ∈ filter (fun p => f p = false) ps) by (by apply list_elem_of_filter).
    destruct (filter _ ps); [set_solver|]. rewrite blen_cons in H0. pose proof (blen_nonneg l). lia.
  - intros Hall. rewrite filter_none; [done|]. intros p Hp. rewrite (Hall p Hp). done.
Qed.

Lemma mark_ready proc order k id c dc :
  kinv proc order k -> segs !! c = Some dc -> id ∈ seg_parents dc -> proc id c = false -> c ∉ order ->
  forall i,
  i ∈ (if blen (filter (fun p => mark proc id c p c = false) (seg_parents dc)) =? 0
       then {[c]} ∪ kh_ready k else kh_ready k)
  <-> i ∉ order /\ exists d, segs !! i = Some d /\ forall p, p ∈ seg_parents d -> mark proc id c p i = true.
Proof.
  intros Hk Hdc Hid Hproc Hc i. pose proof (kv_ready _ _ _ Hk) as Hready.
  pose proof (all_processed (fun p => mark proc id c p c) (seg_parents dc)) as Hall.
  destruct (decide (i = c)) as [->|Hic].
  - assert (Hnr : c ∉ kh_ready k).
    { rewrite Hready. intros (_ & d & Hd & Hp). simplify_eq. rewrite Hp in Hproc by done. done. }
    destruct (_ =? 0) eqn:H0; [apply Z.eqb_eq in H0|apply Z.eqb_neq in H0]; split; [|set_solver|set_solver|].
    + intros _. split; [done|]. exists dc. split; [done|]. by apply Hall.
    + intros (_ & d & Hd & Hp). simplify_eq. exfalso. apply H0. by apply Hall.
  - assert (Hi : i ∈ (if blen (filter (fun p => mark proc id c p c = false) (seg_parents dc)) =? 0
                      then {[c]} ∪ kh_ready k else kh_ready k) <-> i ∈ kh_ready k)
      by (case_match; set_solver).
    rewrite Hi, Hready. f_equiv. f_equiv. intros d.
    split; intros [Hd Hp]; (split; [done|]); intros p Hpp;
      [rewrite mark_other by done|rewrite <- (mark_other proc id c p i) by done]; auto.
Qed.

Lemma relax_child_ok proc order k id c :
  kinv proc order k -> edge segs id c -> proc id c = false -> id ∈ order -> c ∉ order ->
  match relax_child max_depth (depth_of k id) c k with
  | Ok k' => kinv (mark proc id c) order k' /\ depth_of k' id = depth_of k id
  | Err e => exists n, e = Depth n max_depth /\ max_depth < n /\ chain segs n c
  end.
Proof.
  intros Hk (dc & Hdc & Hid) Hproc Hord Hc. unfold relax_child.
  destruct (kinv_depth_of _ _ _ id Hk) as [Hch Hdr].
  { destruct (eo_parent _ Hedges c dc id Hdc Hid) as (dp & ? & _). by eexists. }
  destruct (kinv_depth_of _ _ _ c Hk ltac:(by eexists)) as [Hcc Hcr].
  assert (Hsat : saturating_add usize_max (depth_of k id) 1 = depth_of k id + 1) by (unfold saturating_add; lia).
  rewrite Hsat. fold (depth_of k c). set (n := Z.max (depth_of k c) (depth_of k id + 1)).
  assert (Hn : chain segs n c).
  { unfold n. destruct (Z.max_spec (depth_of k c) (depth_of k id + 1)) as [[_ ->]|[_ ->]]; [|done].
    econstructor; [exact Hch|]. by exists dc. }
  destruct (n >? max_depth) eqn:Hgt; [exists n; split_and!; [done|lia|done]|].
  rewrite (kv_degree _ _ _ Hk c dc Hdc). simpl default.
  rewrite (mark_degree proc id c) by (done || by eapply eo_parents).
  set (k' := mkKahn _ _ _).
  assert (Hdep : forall x, depth_of k' x = if decide (x = c) then n else depth_of k x).
  { intros x. unfold depth_of, k'. simpl. case_decide; [subst; by rewrite lookup_insert_eq|].
    by rewrite lookup_insert_ne. }
  split; [split|].
  - intros p x [Hp|[-> _]]%mark_true; [by eapply kv_proc|done].
  - intros i d Hi. simpl. destruct (decide (i = c)) as [->|Hic].
    + simplify_eq. by rewrite lookup_insert_eq.
    + rewrite lookup_insert_ne by done. rewrite (kv_degree _ _ _ Hk i d Hi). do 2 f_equal.
      apply filter_ext_in. intros p _. by rewrite mark_other.
  - by apply mark_ready.
  - intros i m. simpl. destruct (decide (i = c)) as [->|Hic].
    + rewrite lookup_insert_eq. intros [= <-]. split; [done|lia].
    + rewrite lookup_insert_ne by done. by apply (kv_chain _ _ _ Hk).
  - intros p x He Hm. rewrite !Hdep. rewrite (decide_False (P := p = c)).
    2: { intros ->. apply mark_true in Hm as [Hm|[-> _]]; [by apply (kv_proc _ _ _ Hk) in Hm|done]. }
    apply mark_true in Hm as [Hm|[-> ->]]; [|rewrite decide_True by done; lia].
    pose proof (kv_depth _ _ _ Hk p x He Hm). case_decide; [subst; lia|done].
  - rewrite Hdep, decide_False; [done|]. by intros ->.
Qed.

(** ** The edges of one segment *)

Definition mark_all (proc : Z -> Z -> bool) (id : Z) (cs : list Z) : Z -> Z -> bool :=
  fun p x => proc p x || (bool_decide (p = id) && bool_decide (x ∈ cs)).

Lemma mark_all_true proc id cs p x :
  mark_all proc id cs p x = true <-> proc p x = true \/ (p = id /\ x ∈ cs).
Proof. unfold mark_all. rewrite orb_true_iff, andb_true_iff, !bool_decide_eq_true. done. Qed.

Lemma relax_children_ok id children proc order k :
  kinv proc order k -> id ∈ order -> NoDup children ->
  (forall c, c ∈ children -> edge segs id c /\ c ∉ order /\ proc id c = false) ->
  match relax_children max_depth (depth_of k id) children k with
  | Ok k' => kinv (mark_all proc id children) order k'
  | Err e => exists n c, e = Depth n max_depth /\ max_depth < n /\ chain segs n c
  end.
Proof.
  revert proc k. induction children as [|c cs IH]; intros proc k Hk Hid Hn Hc; simpl.
  { apply (kinv_ext proc); [done| |].
    - intros p x _. apply eq_true_iff_eq. rewrite mark_all_true. set_solver.
    - intros p x [?|[-> _]]%mark_all_true; [by eapply (kv_proc _ _ _ Hk)|done]. }
  apply NoDup_cons in Hn as [Hcs Hn]. destruct (Hc c ltac:(by left)) as (He & Hco & Hpc).
  pose proof (relax_child_ok proc order k id c Hk He Hpc Hid Hco) as Hr.
  destruct (relax_child _ _ _ _) as [k1|e]; simpl; [|destruct Hr as (n & ? & ? & ?); by exists n, c].
  destruct Hr as [Hk1 <-]. specialize (IH (mark proc id c) k1 Hk1 Hid Hn).
  assert (Hpre : forall c', c' ∈ cs -> edge segs id c' /\ c' ∉ order /\ mark proc id c id c' = false).
  { intros c' Hc'. destruct (Hc c' ltac:(by right)) as (? & ? & ?). split_and!; [done|done|].
    rewrite mark_other; [done|]. by intros ->. }
  specialize (IH Hpre). destruct (relax_children _ _ cs k1) as [k2|e]; [|done].
  eapply kinv_ext; [exact IH| |].
  - intros p x _. apply eq_true_iff_eq. rewrite !mark_all_true, mark_true, elem_of_cons. tauto.
  - intros p x [?|[-> _]]%mark_all_true; [by eapply (kv_proc _ _ _ Hk)|done].
Qed.

(** ** The outer loop *)

Definition popped (order : list Z) : Z -> Z -> bool := fun p _ => bool_decide (p ∈ order).

Lemma kinv_pop order k id :
  kinv (popped order) order k -> id ∈ kh_ready k ->
  kinv (popped order) (order ++ [id]) (mkKahn (kh_indegree k) (kh_ready k ∖ {[id]}) (kh_depth k)).
Proof.
  intros Hk Hid. split; simpl.
  - intros p c Hp. apply (kv_proc _ _ _ Hk) in Hp. set_solver.
  - apply (kv_degree _ _ _ Hk).
  - intros i. rewrite elem_of_difference, (kv_ready _ _ _ Hk). set_solver.
  - apply (kv_chain _ _ _ Hk).
  - intros p c He Hp. by apply (kv_depth _ _ _ Hk).
Qed.

(** Popping a ready segment and relaxing its edges. *)
Lemma kahn_step order k id :
  kinv (popped order) order k -> topo segs order -> id ∈ kh_ready k ->
  topo segs (order ++ [id])
  /\ match relax_children max_depth (default 0 (kh_depth k !! id)) (from_option seg_children [] (segs !! id))
            (mkKahn (kh_indegree k) (kh_ready k ∖ {[id]}) (kh_depth k)) with
     | Ok k' => kinv (popped (order ++ [id])) (order ++ [id]) k'
     | Err e => exists n c, e = Depth n max_depth /\ max_depth < n /\ chain segs n c
     end.
Proof.
  intros Hk Ht Hid. pose proof (proj1 (kv_ready _ _ _ Hk id) Hid) as (Hno & d & Hd & Hps).
  assert (Ht' : topo segs (order ++ [id])).
  { econstructor; [done|done|done|]. intros p Hp. by apply Hps, bool_decide_eq_true in Hp. }
  split; [done|]. rewrite Hd. simpl from_option.
  assert (Hpre : forall c, c ∈ seg_children d ->
            edge segs id c /\ c ∉ order ++ [id] /\ popped order id c = false).
  { intros c Hc. destruct (eo_child _ Hedges id d c Hd Hc) as (dc & Hdc & Hin).
    assert (He : edge segs id c) by by exists dc. split_and!; [done| |by apply bool_decide_eq_false].
    intros [Hco| ->%list_elem_of_singleton]%elem_of_app; [by eapply Hno, topo_parent|].
    simplify_eq. specialize (Hps _ Hin). by apply bool_decide_eq_true in Hps. }
  pose proof (relax_children_ok id (seg_children d) (popped order) (order ++ [id]) _
                (kinv_pop order k id Hk Hid) ltac:(set_solver) (eo_children _ Hedges id d Hd) Hpre) as Hr.
  unfold depth_of in Hr. simpl in Hr. destruct (relax_children _ _ _ _) as [k'|e]; [|done].
  eapply kinv_ext; [exact Hr| |].
  - intros p c (dc & Hdc & Hp). apply eq_true_iff_eq. rewrite mark_all_true.
    unfold popped. rewrite !bool_decide_eq_true, elem_of_app, list_elem_of_singleton.
    destruct (eo_parent _ Hedges c dc p Hdc Hp) as (dp & Hdp & Hcp & _). naive_solver.
  - intros p c Hp. by apply bool_decide_eq_true in Hp.
Qed.

Lemma kahn_loop_ok fuel order k :
  kinv (popped order) order k -> topo segs order -> (size segs <= fuel + length order)%nat ->
  match kahn_loop fuel segs max_depth k order with
  | Some (Ok order') => topo segs order' /\ exists k', kinv (popped order') order' k' /\ kh_ready k' = ∅
  | Some (Err e) => exists n c, e = Depth n max_depth /\ max_depth < n /\ chain segs n c
  | None => False
  end.
Proof.
  revert order k. induction fuel as [|fuel IH]; intros order k Hk Ht Hf; simpl;
    destruct (btree_elems (kh_ready k)) as [|id rest] eqn:Hr.
  1,3: split; [done|]; exists k; split; [done|by apply btree_elems_nil].
  all: assert (Hid : id ∈ kh_ready k) by (rewrite <- elem_of_btree_elems, Hr; by left).
  all: destruct (kahn_step order k id Hk Ht Hid) as [Ht' Hs].
  - pose proof (topo_size _ _ Ht') as Hsz. rewrite length_app in Hsz. simpl in Hsz. lia.
  - destruct (relax_children _ _ _ _) as [k'|e]; [|done]. apply IH; [done|done|].
    rewrite length_app. simpl. lia.
Qed.

Lemma kahn_init_ok : kinv (popped []) [] (kahn_init segs).
Proof.
  assert (Hrd : forall i, i ∈ kh_ready (kahn_init segs) <-> exists d, segs !! i = Some d /\ seg_parents d = []).
  { intros i. simpl. rewrite elem_of_dom. unfold is_Some. setoid_rewrite map_lookup_filter_Some.
    setoid_rewrite lookup_fmap_Some. split.
    - intros (n & (d & <- & Hd) & H0). exists d. split; [done|].
      destruct (seg_parents d); [done|]. rewrite blen_cons in H0. pose proof (blen_nonneg l). lia.
    - intros (d & Hd & Hp). exists 0. split; [|done]. exists d. by rewrite Hp. }
  split.
  - intros p c Hp. by apply bool_decide_eq_true in Hp.
  - intros i d Hi. simpl. rewrite lookup_fmap, Hi. simpl. do 2 f_equal. symmetry. apply filter_all.
    intros p _. apply bool_decide_eq_false. set_solver.
  - intros i. rewrite Hrd. split.
    + intros (d & Hd & Hp). split; [set_solver|]. exists d. rewrite Hp. split; [done|set_solver].
    + intros (_ & d & Hd & Hp). exists d. split; [done|]. destruct (seg_parents d) as [|p ps]; [done|].
      specialize (Hp p ltac:(by left)). apply bool_decide_eq_true in Hp. set_solver.
  - intros i n. simpl. rewrite lookup_set_to_map by done. intros (j & Hj & [= -> <-]).
    split; [|lia]. constructor. apply Hrd in Hj as (d & Hd & _). by eexists.
  - intros p c _ Hp. apply bool_decide_eq_true in Hp. set_solver.
Qed.

(** The fuel is enough. *)
Lemma kahn_total : is_Some (kahn_loop (S (size segs)) segs max_depth (kahn_init segs) []).
Proof.
  pose proof (kahn_loop_ok (S (size segs)) [] _ kahn_init_ok (topo_nil segs) ltac:(simpl; lia)) as H.
  destruct (kahn_loop _ _ _ _ _); [by eexists|done].
Qed.

(** The depth labels bound every path once all the edges are processed. *)
Lemma chain_bounded order k n i :
  kinv (popped order) order k -> (forall j, is_Some (segs !! j) -> j ∈ order) ->
  chain segs n i -> n <= depth_of k i.
Proof.
  intros Hk Hall. induction 1 as [i Hi|n p i Hc IH He].
  - by apply (kinv_depth_of _ _ _ i Hk Hi).
  - assert (Hp : popped order p i = true).
    { apply bool_decide_eq_true, Hall. destruct He as (d & Hd & Hpd).
      destruct (eo_parent _ Hedges i d p Hd Hpd) as (dp & ? & _). by eexists. }
    pose proof (kv_depth _ _ _ Hk p i He Hp). lia.
Qed.

(** Segments that were never ready lie on, or behind, a cycle. *)
Lemma stuck_cyclic order k :
  kinv (popped order) order k -> kh_ready k = ∅ ->
  (exists i, is_Some (segs !! i) /\ i ∉ order) -> ~ acyclic segs.
Proof.
  intros Hk Hr (i & Hi & Hio) [rank Hrank].
  assert (Hpar : forall j, is_Some (segs !! j) -> j ∉ order ->
            exists p, edge segs p j /\ is_Some (segs !! p) /\ p ∉ order).
  { intros j [d Hd] Hj. destruct (decide (Forall (fun p => p ∈ order) (seg_parents d))) as [Hf|Hf].
    - exfalso. assert (Hjr : j ∈ kh_ready k); [|set_solver]. apply (kv_ready _ _ _ Hk). split; [done|].
      exists d. split; [done|]. rewrite Forall_forall in Hf. intros p Hp. by apply bool_decide_eq_true, Hf.
    - apply not_Forall_Exists in Hf; [|apply _]. apply Exists_exists in Hf as (p & Hp & Hno).
      exists p. split_and!; [by exists d| |done].
      destruct (eo_parent _ Hedges j d p Hd Hp) as (dp & ? & _). by eexists. }
  clear Hr. remember (rank i) as r eqn:Er. revert i Er Hi Hio.
  induction (lt_wf r) as [r _ IH]. intros i -> Hi Hio. destruct (Hpar i Hi Hio) as (p & He & Hp & Hpo).
  by apply (IH (rank p) (Hrank p i He) p).
Qed.
End Kahn.

(** * Exactness *)

Lemma acyclic_order_exact segs max_depth :
  edges_ok segs -> 0 <= max_depth <= usize_max - 1 ->
  match validate_acyclic_and_depth segs max_depth with
  | Ok order => order ≡ₚ elements (dom segs) /\ topo segs order
                /\ forall n i, chain segs n i -> n <= max_depth
  | Err Cycle => ~ acyclic segs
  | Err (Depth n m) => m = max_depth /\ max_depth < n /\ exists i, chain segs n i
  | Err _ => False
  end.
Proof.
  intros He Hm. unfold validate_acyclic_and_depth.
  pose proof (kahn_loop_ok segs He max_depth Hm (S (size segs)) [] _
                (kahn_init_ok segs He max_depth Hm) (topo_nil segs) ltac:(simpl; lia)) as H.
  destruct (kahn_loop _ _ _ _ _) as [[order|e]|]; [| |done].
  - destruct H as [Ht (k & Hk & Hr)]. destruct (blen order =? _) eqn:Hl; simpl.
    + assert (Hlen : length order = size segs) by (unfold blen in Hl; lia).
      pose proof (topo_full segs order Ht Hlen) as Hp. split_and!; [done|done|].
      intros n i Hc. pose proof Hk as Hk'. eapply chain_bounded in Hk'; [|done|done| |exact Hc].
      2: { intros j Hj. rewrite Hp, elem_of_elements. by apply elem_of_dom. }
      assert (Hi : is_Some (segs !! i)) by (destruct Hc as [|? ? ? ? (d & ? & ?)]; [done|by eexists]).
      destruct (kinv_depth_of segs max_depth Hm _ _ _ i Hk Hi) as [_ ?]. lia.
    + eapply stuck_cyclic; [done|done|exact Hk|done|].
      destruct (decide (set_Forall (fun i => i ∈ order) (dom segs))) as [Hf|Hf].
      * exfalso. assert (Hsub : dom segs ⊆ list_to_set order).
        { intros i Hi. by apply elem_of_list_to_set, Hf. }
        apply subseteq_size in Hsub. rewrite size_dom, size_list_to_set in Hsub by by eapply topo_NoDup.
        pose proof (topo_size segs order Ht). unfold blen in Hl. lia.
      * apply not_set_Forall_Exists in Hf; [|apply _]. destruct Hf as (i & Hi%elem_of_dom & Hno). by exists i.
  - destruct H as (n & c & -> & Hlt & Hc). split_and!; [done|done|by exists c].
Qed.

(** ** What the checks before it establish *)

Definition index_ok (epoch : Z) (segs : gmap Z SegmentDescriptor) : Prop :=
  forall i d, segs !! i = Some d ->
    seg_id d = i /\ segment_wf d /\ validate_lifecycle d epoch = Ok tt
    /\ NoDup (seg_parents d) /\ NoDup (seg_children d) /\ i ∉ seg_parents d /\ i ∉ seg_children d.

Lemma index_segment_ok epoch max placements info x x' :
  index_segment epoch max placements info x = Ok x' ->
  index_ok epoch (ix_segments x) ->
  index_ok epoch (ix_segments x')
  /\ exists d, ix_segments x !! info_id info = None
       /\ segment_try_from_pb info (placements !! info_id info) = Ok d
       /\ ix_segments x' = <[info_id info := d]> (ix_segments x).
Proof.
  unfold index_segment. case_bool_decide as Hd; [done|]. intros H Hok. inv_ok.
  case_match; [done|]. inv_ok. simpl. apply eq_None_not_Some in Hd.
  destruct r0. apply edge_list_loop_ok in Hr1 as (Hp & Hpi & _), Hr2 as (Hc & Hci & _).
  pose proof (segment_try_from_pb_wf _ _ _ Hr) as (Hwf & Hid & _).
  split; [|by exists r]. intros i d. destruct (decide (i = info_id info)) as [->|Hi].
  - rewrite lookup_insert_eq. intros [= <-]. done.
  - rewrite lookup_insert_ne by done. apply Hok.
Qed.

Lemma index_loop_ok epoch max placements l x x' :
  index_loop epoch max placements l x = Ok x' ->
  index_ok epoch (ix_segments x) ->
  index_ok epoch (ix_segments x')
  /\ dom (ix_segments x') = dom (ix_segments x) ∪ list_to_set (info_id <$> l)
  /\ NoDup (info_id <$> l) /\ (forall i, i ∈ info_id <$> l -> ix_segments x !! i = None).
Proof.
  revert x. induction l as [|info l IH]; intros x; simpl; intros H Hok.
  { inv_ok. split_and!; [done|set_solver|constructor|set_solver]. }
  inv_ok. apply index_segment_ok in Hr as (Hok1 & d & Hn & Hd & Hx); [|done].
  apply IH in H as (Hok' & Hdom & Hnd & Hfresh); [|done]. rewrite Hx in *.
  assert (Hne : forall i, i ∈ info_id <$> l -> i <> info_id info /\ ix_segments x !! i = None).
  { intros i Hi. specialize (Hfresh i Hi). apply lookup_insert_None in Hfresh as [? ?]. done. }
  split_and!; [done|rewrite Hdom, dom_insert_L; set_solver| |].
  - constructor; [|done]. intros Hin. by apply Hne in Hin as [? _].
  - intros i [->|Hi]%elem_of_cons; [done|]. by apply Hne.
Qed.

(** The edges of a layout, counted at their parents' end and at their
    children's. *)
Definition edges_to_parents (segs : gmap Z SegmentDescriptor) : Z := map_sum (fun d => blen (seg_parents d)) segs.
Definition edges_to_children (segs : gmap Z SegmentDescriptor) : Z := map_sum (fun d => blen (seg_children d)) segs.

(** The counters saturate, which a limit below the maximum cannot hide. *)
Lemma index_loop_edges epoch max placements l x x' :
  max < usize_max -> index_loop epoch max placements l x = Ok x' ->
  ix_parent_references x = edges_to_parents (ix_segments x) /\ edges_to_parents (ix_segments x) <= max ->
  ix_child_references x = edges_to_children (ix_segments x) /\ edges_to_children (ix_segments x) <= max ->
  edges_to_parents (ix_segments x') <= max /\ edges_to_children (ix_segments x') <= max.
Proof.
  intros Hmax. revert x. induction l as [|info l IH]; intros x; simpl; intros H Hp Hc; inv_ok; [tauto|].
  eapply IH; [exact H|..]; clear H IH; unfold index_segment in Hr; case_bool_decide as Hd; try done; inv_ok;
    (match goal with H : (if ?b then _ else _) = Ok _ |- _ => destruct b eqn:E end); inv_ok; apply orb_false_iff in E as [E1 E2]; apply eq_None_not_Some in Hd; simpl;
    unfold edges_to_parents, edges_to_children, saturating_add in *; rewrite map_sum_insert by done; lia.
Qed.

Lemma reciprocal_ok epoch segs u :
  index_ok epoch segs -> validate_reciprocal_edges segs = Ok u -> edges_ok segs.
Proof.
  intros Hix Hv. unfold validate_reciprocal_edges in Hv. rewrite try_each_ok in Hv.
  assert (Hd : forall i d, segs !! i = Some d ->
    (forall p, p ∈ seg_parents d -> check_parent_edge segs d p = Ok tt)
    /\ (forall c, c ∈ seg_children d -> check_child_edge segs d c = Ok tt)).
  { intros i d Hd. specialize (Hv d ltac:(apply elem_of_btree_values; by exists i)). inv_ok.
    by rewrite try_each_ok in Hr, Hv. }
  split.
  - intros i d Hi. by destruct (Hix i d Hi) as (? & ? & ? & ? & ? & ?).
  - intros i d Hi. by destruct (Hix i d Hi) as (? & ? & ? & ? & ? & ?).
  - intros i d Hi. by destruct (Hix i d Hi) as (? & ? & ? & ? & ? & ?).
  - intros i d p Hi Hp. destruct (Hd i d Hi) as [Hpar _]. specialize (Hpar p Hp).
    unfold check_parent_edge in Hpar. destruct (segs !! p) as [dp|]; [|done]. exists dp.
    destruct (bool_decide (seg_id d ∈ seg_children dp)) eqn:H1; [|done].
    destruct (bool_decide (seg_sealed_at dp = _)) eqn:H2; [|done].
    apply bool_decide_eq_true in H1, H2. destruct (Hix i d Hi) as (<- & _). done.
  - intros i d c Hi Hc. destruct (Hd i d Hi) as [_ Hch]. specialize (Hch c Hc).
    unfold check_child_edge in Hch. destruct (segs !! c) as [dc|]; [|done]. exists dc.
    destruct (bool_decide (seg_id d ∈ seg_parents dc)) eqn:H1; [|done].
    apply bool_decide_eq_true in H1. destruct (Hix i d Hi) as (<- & _). done.
Qed.

(** C35: kahn's loop ends and is exact: on reciprocal edge lists without repetition it
    pops each segment at most once, so a fuel of one per segment and one more is
    never exhausted; it returns an order of all the segments with every parent
    before its children, bounding all ancestry paths by the depth limit, or
    reports a cycle only of a cyclic graph, or an excessive depth only with a
    path of that length. *)
Theorem kahn_exact segs max_depth :
  edges_ok segs -> 0 <= max_depth <= usize_max - 1 ->
  is_Some (kahn_loop (S (size segs)) segs max_depth (kahn_init segs) [])
  /\ match validate_acyclic_and_depth segs max_depth with
     | Ok order => order ≡ₚ elements (dom segs) /\ topo segs order
                   /\ forall n i, chain segs n i -> n <= max_depth
     | Err Cycle => ~ acyclic segs
     | Err (Depth n m) => m = max_depth /\ max_depth < n /\ exists i, chain segs n i
     | Err _ => False
     end.
Proof. intros He Hm. split; [by apply kahn_total|by apply acyclic_order_exact]. Qed.
