(* ===== verification/DagRanges.v ===== *)
(** * The key space of a layout

    [ranges_cover] and [validate_active_coverage] of [dag_watch.rs] accept
    exactly the partitions of a hash range; hence every hash has one active
    owner, one parent and one child along its line of segments. *)

From S2P Require Import Prelude Ids SegmentTopic Assignment DagWatch DagOrder.

(** How many ranges hold the hash [h]. *)
Definition hits (h : Z) (l : list KeyRange) : nat := length (filter (fun r => kr_contains r h = true) l).

(** The ranges lie in the target and hold each of its hashes once. *)
Definition covers (target : KeyRange) (l : list KeyRange) : Prop :=
  Forall (fun r => kr_contains_range target r = true) l
  /\ forall h, kr_contains target h = true -> hits h l = 1%nat.

Lemma hits_cons h r l :
  hits h (r :: l) = ((if kr_contains r h then 1 else 0) + hits h l)%nat.
Proof. unfold hits. rewrite filter_cons. destruct (kr_contains r h); simpl; done. Qed.

Lemma hits_zero h l : (forall r, r ∈ l -> kr_contains r h = false) -> hits h l = 0%nat.
Proof. intros Hl. unfold hits. rewrite filter_none; [done|]. intros r Hr. by rewrite (Hl r Hr). Qed.

Lemma hits_pos h l r : r ∈ l -> kr_contains r h = true -> (0 < hits h l)%nat.
Proof.
  intros Hr Hh. unfold hits. assert (Hin : r ∈ filter (fun r => kr_contains r h = true) l) by by apply list_elem_of_filter.
  destruct (filter _ l); [set_solver|simpl; lia].
Qed.

#[global] Instance hits_perm h : Proper (Permutation ==> (=)) (hits h).
Proof. intros l k Hp. unfold hits. by rewrite Hp. Qed.

#[global] Instance covers_perm target : Proper (Permutation ==> iff) (covers target).
Proof. intros l k Hp. unfold covers. rewrite Hp. setoid_rewrite Hp. done. Qed.

Lemma kr_le_start (a b : KeyRange) : key_le a b -> kr_start a <= kr_start b.
Proof. unfold key_le, lex_le. simpl. repeat case_match; try done; lia. Qed.

Lemma contains_iff r h : kr_contains r h = true <-> kr_start r <= h <= kr_end r.
Proof. apply kr_contains_spec. Qed.

Lemma contains_false r h : kr_contains r h = false <-> ~ (kr_start r <= h <= kr_end r).
Proof. rewrite <- kr_contains_spec. by destruct (kr_contains r h). Qed.

(** The scan, from the hash [e] on. *)
Definition covers_from (target : KeyRange) (e : Z) (l : list KeyRange) : Prop :=
  Forall (fun r => kr_contains_range target r = true /\ e <= kr_start r) l
  /\ forall h, e <= h <= kr_end target -> hits h l = 1%nat.

Lemma covers_from_start target l : covers_from target (kr_start target) l <-> covers target l.
Proof.
  unfold covers_from, covers. setoid_rewrite contains_iff. f_equiv. apply Forall_proper; [|done].
  intros r. rewrite kr_contains_range_spec. lia.
Qed.

Lemma covers_from_head target e r l :
  kr_start r <= kr_end r -> Forall (fun x => key_le r x) l -> e <= kr_end target ->
  covers_from target e (r :: l) -> kr_start r = e.
Proof.
  intros Hr Hle He [Hf Hh]. apply Forall_cons in Hf as [[Hc Hs] Hf].
  specialize (Hh e ltac:(lia)). destruct (decide (kr_start r = e)) as [|Hne]; [done|]. exfalso.
  rewrite hits_zero in Hh; [done|]. rewrite Forall_forall in Hle.
  intros x [->|Hx]%elem_of_cons; apply contains_false; [lia|].
  specialize (Hle x Hx). apply kr_le_start in Hle. lia.
Qed.

Lemma covers_from_tail target e r l :
  kr_start r = e -> e <= kr_end r -> kr_end r <= kr_end target ->
  Forall (fun x => kr_start x <= kr_end x) l ->
  covers_from target e (r :: l) <-> kr_contains_range target r = true /\ covers_from target (kr_end r + 1) l.
Proof.
  intros Hs Hr Ht Hwf. split.
  - intros [Hf Hh]. apply Forall_cons in Hf as [[Hc _] Hf]. split; [done|]. rewrite Forall_forall in Hf, Hwf.
    assert (Hst : forall x, x ∈ l -> kr_end r + 1 <= kr_start x).
    { intros x Hx. destruct (decide (kr_end r + 1 <= kr_start x)) as [|Hn]; [done|]. exfalso.
      destruct (Hf x Hx) as [_ Hex]. specialize (Hh (kr_start x) ltac:(lia)). rewrite hits_cons in Hh.
      rewrite (proj2 (contains_iff r (kr_start x))) in Hh by lia.
      pose proof (hits_pos (kr_start x) l x Hx ltac:(apply contains_iff; specialize (Hwf x Hx); lia)). lia. }
    split; [apply Forall_forall; intros x Hx; split; [by apply Hf|by apply Hst]|].
    intros h Hh'. specialize (Hh h ltac:(lia)). rewrite hits_cons in Hh.
    rewrite (proj2 (contains_false r h)) in Hh by lia. done.
  - intros [Hc [Hf Hh]]. rewrite Forall_forall in Hf. split.
    + constructor; [split; [done|lia]|]. apply Forall_forall. intros x Hx. destruct (Hf x Hx). split; [done|lia].
    + intros h Hh'. rewrite hits_cons. destruct (decide (h <= kr_end r)) as [Hle|Hgt].
      * rewrite (proj2 (contains_iff r h)) by lia. rewrite hits_zero; [done|].
        intros x Hx. apply contains_false. destruct (Hf x Hx). lia.
      * rewrite (proj2 (contains_false r h)) by lia. apply Hh. lia.
Qed.

Lemma covers_from_past target l :
  Forall (fun x => kr_start x <= kr_end x) l ->
  covers_from target (kr_end target + 1) l <-> l = [].
Proof.
  intros Hwf. split.
  - intros [Hf _]. destruct l as [|x l]; [done|]. apply Forall_cons in Hf as [[Hc Hs] _].
    apply Forall_cons in Hwf as [Hx _]. apply kr_contains_range_spec in Hc. lia.
  - intros ->. split; [constructor|]. intros. lia.
Qed.

Lemma cover_loop_exact target e l :
  Forall (fun x => kr_start x <= kr_end x) l -> StronglySorted key_le l -> e <= kr_end target ->
  cover_loop target e l = true <-> covers_from target e l.
Proof.
  intros Hwf Hs. revert e. induction Hs as [|r l Hs IH Hle]; intros e He; simpl.
  { split; [done|]. intros [_ Hh]. specialize (Hh e ltac:(lia)). done. }
  apply Forall_cons in Hwf as [Hr Hwf]. specialize (IH Hwf).
  destruct (kr_contains_range target r) eqn:Hc; simpl.
  2: { split; [done|]. intros [Hf _]. apply Forall_cons in Hf as [[? _] _]. congruence. }
  pose proof (proj1 (kr_contains_range_spec target r) Hc) as [Hc1 Hc2].
  destruct (kr_start r =? e) eqn:Hst; simpl.
  2: { split; [done|]. intros Hcf. apply covers_from_head in Hcf; [lia|done|done|done]. }
  apply Z.eqb_eq in Hst. rewrite covers_from_tail by (done || lia).
  destruct (kr_end r =? kr_end target) eqn:Het.
  - apply Z.eqb_eq in Het. rewrite Het, covers_from_past, bool_decide_eq_true by done. tauto.
  - apply Z.eqb_neq in Het. rewrite IH by lia. tauto.
Qed.

(** [ranges_cover] accepts exactly the partitions of the target. *)
Lemma ranges_cover_covers target l :
  kr_start target <= kr_end target -> Forall (fun x => kr_start x <= kr_end x) l ->
  ranges_cover target l = true <-> covers target l.
Proof.
  intros Ht Hwf. unfold ranges_cover. rewrite cover_loop_exact; [|by rewrite sort_keys_perm|apply sort_keys_sorted|done].
  transitivity (covers target (sort_keys l)); [|by rewrite sort_keys_perm].
  apply covers_from_start.
Qed.

(** * Active coverage *)

Lemma active_loop_complete l e : active_loop l e true = Ok tt <-> l = [].
Proof. destruct l; simpl; split; done. Qed.

Lemma active_loop_cover l e :
  0 <= e -> Forall (fun d => kr_wf (seg_range d)) l ->
  active_loop l e false = Ok tt <-> cover_loop KeyRange_FULL e (seg_range <$> l) = true.
Proof.
  revert e. induction l as [|d l IH]; intros e He Hwf; simpl; [done|].
  apply Forall_cons in Hwf as [Hd Hwf]. destruct (kr_start (seg_range d) =? e) eqn:Hs; simpl.
  2: { by rewrite orb_true_r. }
  apply Z.eqb_eq in Hs. rewrite orb_false_r. destruct Hd as [Hd1 Hd2].
  rewrite (proj2 (kr_contains_range_spec KeyRange_FULL (seg_range d))) by (simpl; unfold MIN_HASH; lia).
  simpl negb. cbn iota. change (kr_end KeyRange_FULL) with MAX_HASH. destruct (_ =? MAX_HASH) eqn:Hm.
  - rewrite active_loop_complete, bool_decide_eq_true. split; [by intros ->|by intros ?%fmap_nil_inv].
  - apply IH; [lia|done].
Qed.

#[global] Instance active_le_trans : Transitive active_le.
Proof. intros a b c. unfold active_le. apply transitivity. Qed.
#[global] Instance active_le_total : Total active_le.
Proof. intros a b. apply (total lex_le). Qed.

Lemma active_le_range a b : active_le a b -> key_le (seg_range a) (seg_range b).
Proof. unfold active_le, key_le, lex_le. simpl. repeat case_match; try done; lia. Qed.

Lemma sorted_fmap {A B} (R : relation A) (S : relation B) (f : A -> B) l :
  (forall x y, R x y -> S (f x) (f y)) -> StronglySorted R l -> StronglySorted S (f <$> l).
Proof.
  intros HRS. induction 1 as [|x l Hl IH Hx]; simpl; constructor; [done|].
  apply Forall_fmap. eapply Forall_impl; [exact Hx|]. simpl. auto.
Qed.

Lemma active_coverage_exact segs :
  (forall d, d ∈ active_segments segs -> kr_wf (seg_range d)) ->
  validate_active_coverage segs = Ok tt <-> covers KeyRange_FULL (seg_range <$> active_segments segs).
Proof.
  intros Hwf. unfold validate_active_coverage. set (l := active_segments segs) in *.
  assert (Hwf' : Forall (fun d => kr_wf (seg_range d)) (merge_sort active_le l))
    by (rewrite merge_sort_Permutation; by apply Forall_forall).
  case_bool_decide as Hl.
  { rewrite Hl. split; [done|]. intros [_ Hh]. by specialize (Hh 0 eq_refl). }
  rewrite active_loop_cover by (unfold MIN_HASH; done || lia).
  rewrite cover_loop_exact; [| | |done].
  - transitivity (covers KeyRange_FULL (seg_range <$> merge_sort active_le l)).
    2: { by rewrite merge_sort_Permutation. }
    apply (covers_from_start KeyRange_FULL).
  - apply Forall_fmap. eapply Forall_impl; [exact Hwf'|]. simpl. intros d [? _]. done.
  - eapply sorted_fmap; [apply active_le_range|]. apply StronglySorted_merge_sort; apply _.
Qed.

(** * Lines of segments *)

(** The descriptors of a list of ids, of which those that hold [h]. *)
Definition holders (segs : gmap Z SegmentDescriptor) (h : Z) (ids : list Z) : list SegmentDescriptor :=
  filter (fun d => kr_contains (seg_range d) h = true) (omap (fun i => segs !! i) ids).

Definition owners (segs : gmap Z SegmentDescriptor) (h : Z) : list SegmentDescriptor :=
  filter (fun d => kr_contains (seg_range d) h = true) (active_segments segs).

Lemma hits_fmap h (l : list SegmentDescriptor) :
  hits h (seg_range <$> l) = length (filter (fun d => kr_contains (seg_range d) h = true) l).
Proof.
  induction l as [|d l IH]; [done|]. cbn [fmap list_fmap]. rewrite hits_cons, filter_cons, IH.
  by destruct (kr_contains (seg_range d) h).
Qed.

Lemma length_one {A} (l : list A) : length l = 1%nat -> exists x, l = [x].
Proof. destruct l as [|x [|]]; try done. by exists x. Qed.

Lemma covers_one target (l : list SegmentDescriptor) h :
  covers target (seg_range <$> l) -> kr_contains target h = true ->
  exists d, filter (fun d => kr_contains (seg_range d) h = true) l = [d].
Proof. intros [_ Hh] Ht. apply length_one. rewrite <- hits_fmap. auto. Qed.

Lemma covers_sub target l r h :
  covers target l -> r ∈ l -> kr_contains r h = true -> kr_contains target h = true.
Proof.
  intros [Hf _] Hr Hh. rewrite Forall_forall in Hf. specialize (Hf r Hr).
  apply kr_contains_range_spec in Hf. apply contains_iff in Hh. apply contains_iff. lia.
Qed.

Section Lineage.
Context (segs : gmap Z SegmentDescriptor) (Hedges : edges_ok segs).
Context (Hwf : forall i d, segs !! i = Some d -> kr_wf (seg_range d)).
Context (Htr : validate_range_transitions segs = Ok tt).

Lemma wf_lookups ids :
  Forall (fun r => kr_start r <= kr_end r) (seg_range <$> omap (fun i => segs !! i) ids).
Proof.
  apply Forall_fmap, Forall_forall. intros d (i & _ & Hi)%list_elem_of_omap. simpl.
  by destruct (Hwf i d Hi).
Qed.

Lemma split_checked i d :
  segs !! i = Some d -> seg_children d <> [] ->
  covers (seg_range d) (seg_range <$> omap (fun i => segs !! i) (seg_children d))
  \/ exists c, omap (fun i => segs !! i) (seg_children d) = [c] /\ 1 < blen (seg_parents c).
Proof.
  intros Hi Hc. unfold validate_range_transitions in Htr. apply bind_ok_inv in Htr as (u & Hs & _).
  rewrite try_each_ok in Hs. specialize (Hs d). unfold check_split in Hs.
  assert (Hin : d ∈ filter (fun segment => seg_children segment <> []) (btree_values segs)).
  { apply list_elem_of_filter. split; [done|]. apply elem_of_btree_values. by exists i. }
  specialize (Hs Hin). destruct (forallb _ _); [left|right].
  - destruct (ranges_cover _ _) eqn:Hr; [|done]. apply ranges_cover_covers in Hr; [done| |apply wf_lookups].
    by destruct (Hwf i d Hi).
  - destruct (omap _ _) as [|c [|]]; try done. exists c. split; [done|].
    destruct (_ >? 1) eqn:Hgt; [lia|done].
Qed.

Lemma merge_checked i d :
  segs !! i = Some d -> 1 < blen (seg_parents d) ->
  covers (seg_range d) (seg_range <$> omap (fun i => segs !! i) (seg_parents d)).
Proof.
  intros Hi Hp. unfold validate_range_transitions in Htr. apply bind_ok_inv in Htr as (u & _ & Hm).
  rewrite try_each_ok in Hm. specialize (Hm d). unfold check_merge in Hm.
  assert (Hin : d ∈ filter (fun segment => 1 < blen (seg_parents segment)) (btree_values segs)).
  { apply list_elem_of_filter. split; [done|]. apply elem_of_btree_values. by exists i. }
  specialize (Hm Hin). destruct (ranges_cover _ _) eqn:Hr; [|done].
  apply ranges_cover_covers in Hr; [done| |apply wf_lookups]. by destruct (Hwf i d Hi).
Qed.

(** Each hash of a segment with parents came from one of them. *)
Lemma one_parent i d h :
  segs !! i = Some d -> seg_parents d <> [] -> kr_contains (seg_range d) h = true ->
  exists p, holders segs h (seg_parents d) = [p].
Proof.
  intros Hi Hne Hh. destruct (decide (1 < blen (seg_parents d))) as [Hgt|Hle].
  { eapply covers_one; [by eapply merge_checked|done]. }
  destruct (seg_parents d) as [|p [|q ps]] eqn:Hps; [done| |exfalso].
  2: { rewrite !blen_cons in Hle. pose proof (blen_nonneg ps). lia. }
  destruct (eo_parent _ Hedges i d p Hi ltac:(rewrite Hps; by left)) as (dp & Hp & Hc & _).
  assert (Hin : d ∈ omap (fun i => segs !! i) (seg_children dp)) by (apply list_elem_of_omap; by exists i).
  exists dp. unfold holders. simpl. rewrite Hp.
  destruct (split_checked p dp Hp) as [Hcov|(c & Hone & Hlen)]; [by intros Hnil; rewrite Hnil in Hc; set_solver| |].
  - rewrite filter_cons_True; [done|]. eapply covers_sub; [done| |done]. by apply list_elem_of_fmap_2.
  - rewrite Hone in Hin. apply list_elem_of_singleton in Hin as <-. rewrite Hps in Hlen. lia.
Qed.

(** Each hash of a segment with children went to one of them. *)
Lemma one_child i d h :
  segs !! i = Some d -> seg_children d <> [] -> kr_contains (seg_range d) h = true ->
  exists c, holders segs h (seg_children d) = [c].
Proof.
  intros Hi Hne Hh. destruct (split_checked i d Hi Hne) as [Hcov|(c & Hone & Hlen)].
  { by eapply covers_one. }
  exists c. unfold holders. rewrite Hone. rewrite filter_cons_True; [done|].
  assert (Hc : c ∈ omap (fun i => segs !! i) (seg_children d)) by (rewrite Hone; by left).
  apply list_elem_of_omap in Hc as (j & Hj & Hcj).
  destruct (eo_child _ Hedges i d j Hi Hj) as (dc & Hdc & Hin). simplify_eq.
  eapply covers_sub; [by eapply merge_checked| |exact Hh]. apply list_elem_of_fmap_2, list_elem_of_omap.
  by exists i.
Qed.
End Lineage.

(** * Accepted layouts *)

(** What an accepted layout guarantees. *)
Record layout_ok (epoch max_depth : Z) (segs : gmap Z SegmentDescriptor) (order : list Z) : Prop := {
  lo_index : index_ok epoch segs;
  lo_edges : edges_ok segs;
  lo_order : order ≡ₚ elements (dom segs) /\ topo segs order;
  lo_depth : forall n i, chain segs n i -> n <= max_depth;
  lo_owner : forall h, MIN_HASH <= h <= MAX_HASH -> exists d, owners segs h = [d];
  lo_parent : forall i d h, segs !! i = Some d -> seg_parents d <> [] -> kr_contains (seg_range d) h = true ->
    exists p, holders segs h (seg_parents d) = [p];
  lo_child : forall i d h, segs !! i = Some d -> seg_children d <> [] -> kr_contains (seg_range d) h = true ->
    exists c, holders segs h (seg_children d) = [c];
}.

Lemma try_from_pb_layout `{ProtoMessage ScalableTopicDag} dag limits snap :
  0 <= lim_depth limits <= usize_max - 1 ->
  try_from_pb_with_limits dag limits = Ok snap ->
  layout_ok (dag_epoch dag) (lim_depth limits) (snap_segments snap) (snap_topological_order snap)
  /\ snap_epoch snap = dag_epoch dag
  /\ dom (snap_segments snap) = list_to_set (info_id <$> dag_segments dag)
  /\ NoDup (info_id <$> dag_segments dag)
  /\ snap_incomplete_roots snap = incomplete_roots_of (snap_segments snap)
  /\ (blen (dag_segments dag) <= lim_segments limits /\ blen (dag_segment_brokers dag) <= lim_segments limits)
  /\ encoded_len dag <= lim_serialized_size limits
  /\ (0 <= lim_edges limits < usize_max ->
      edges_to_parents (snap_segments snap) <= lim_edges limits
      /\ edges_to_children (snap_segments snap) <= lim_edges limits).
Proof.
  intros Hlim Hok. unfold try_from_pb_with_limits in Hok. inv_ok.
  rename Hr into Hsize, Hr0 into Hcount, Hr3 into Hix, Hr5 into Hrec, Hr6 into Hac, Hr7 into Htr, Hr8 into Hcov.
  assert (Hedge : 0 <= lim_edges limits < usize_max -> edges_to_parents (ix_segments r3) <= lim_edges limits
    /\ edges_to_children (ix_segments r3) <= lim_edges limits).
  { intros Hl. eapply index_loop_edges; [lia|exact Hix|..]; simpl; unfold edges_to_parents, edges_to_children;
      rewrite map_sum_empty; lia. }
  apply index_loop_ok in Hix as (Hix & Hdom & Hnd & _); [|intros i d Hd; simpl in Hd; by rewrite lookup_empty in Hd].
  destruct r7, r8. pose proof (reciprocal_ok _ _ _ Hix Hrec) as Hedges.
  pose proof (acyclic_order_exact _ (lim_depth limits) Hedges Hlim) as Hex. rewrite Hac in Hex.
  assert (Hwf : forall i d, ix_segments r3 !! i = Some d -> kr_wf (seg_range d)).
  { intros i d Hd. by destruct (Hix i d Hd) as (_ & (? & _) & _). }
  apply active_coverage_exact in Hcov.
  2: { unfold active_segments. intros d [_ (i & Hi)%elem_of_btree_values]%list_elem_of_filter. eauto. }
  simpl. split_and!; try done; [|set_solver|lia..].
  split; try done; try tauto.
  - intros h Hh. eapply covers_one; [exact Hcov|]. apply contains_iff. simpl. lia.
  - by apply one_parent.
  - by apply one_child.
Qed.
