(* ===== verification/DagSession.v ===== *)
(** * Ancestry, the ordering barrier and the watch session

    [dag_watch.rs]: [ancestors] is the transitive closure of the parent lists,
    [ordering_eligibility] says exactly which ancestors stand in the way and
    never blocks a whole line, and [handle_update] replaces the layout as a
    whole, epochs only growing, and reports the exact difference. *)

From S2P Require Import Prelude Ids SegmentTopic Assignment DagWatch DagOrder DagRanges.

(** * Ancestors *)

(** [a] is an ancestor of [i]. *)
Definition ancestor (segs : gmap Z SegmentDescriptor) (a i : Z) : Prop := tc (edge segs) a i.

Section Ancestors.
Context (segs : gmap Z SegmentDescriptor).

Lemma edge_parents_of p c : edge segs p c <-> p ∈ parents_of segs c.
Proof.
  unfold edge, parents_of. destruct (segs !! c) as [d|]; simpl; [|set_solver].
  split; [by intros (? & [= <-] & ?)|by exists d].
Qed.

Lemma parents_of_dom i : i ∉ dom segs -> parents_of segs i = [].
Proof. unfold parents_of. intros Hi%not_elem_of_dom. by rewrite Hi. Qed.

Lemma references_remove X i :
  i ∈ X -> parent_references segs X = (length (parents_of segs i) + parent_references segs (X ∖ {[i]}))%nat.
Proof.
  intros Hi. unfold parent_references. rewrite (union_difference_L {[i]} X) at 1 by set_solver.
  rewrite elements_disj_union by set_solver. by rewrite elements_singleton.
Qed.

(** Visiting a new segment trades its references for stack entries. *)
Lemma references_visit A i :
  i ∉ A ->
  (length (parents_of segs i) + parent_references segs (dom segs ∖ ({[i]} ∪ A))
   = parent_references segs (dom segs ∖ A))%nat.
Proof.
  intros Hi. destruct (decide (i ∈ dom segs)) as [Hd|Hd].
  - rewrite (references_remove (dom segs ∖ A) i) by set_solver. do 2 f_equal. set_solver.
  - rewrite parents_of_dom by done. simpl. f_equal. set_solver.
Qed.

Lemma last_app_removelast (l : list Z) x : last l = Some x -> l = removelast l ++ [x].
Proof. intros Hl. apply last_Some in Hl as [l' ->]. by rewrite removelast_last. Qed.

Lemma ancestors_loop_ok fuel pending A :
  (length pending + parent_references segs (dom segs ∖ A) < fuel)%nat ->
  (forall a p, a ∈ A -> p ∈ parents_of segs a -> p ∈ A \/ p ∈ pending) ->
  let R := ancestors_loop fuel segs pending A in
  A ⊆ R /\ (forall p, p ∈ pending -> p ∈ R) /\ (forall a p, a ∈ R -> p ∈ parents_of segs a -> p ∈ R)
  /\ forall x, x ∈ R -> x ∈ A \/ exists q, q ∈ pending /\ rtc (edge segs) x q.
Proof.
  revert pending A. induction fuel as [|fuel IH]; intros pending A Hf Hcl; [lia|]. simpl.
  destruct (last pending) as [i|] eqn:Hl.
  2: { apply last_None in Hl as ->. split_and!; [done|set_solver| |by left]. intros a p Ha Hp.
       destruct (Hcl a p Ha Hp); [done|set_solver]. }
  apply last_app_removelast in Hl. set (rest := removelast pending) in *.
  assert (Hlen : length pending = S (length rest)) by (rewrite Hl, length_app; simpl; lia).
  assert (Hmem : forall p, p ∈ pending <-> p ∈ rest \/ p = i)
    by (intros p; rewrite Hl at 1; rewrite elem_of_app, list_elem_of_singleton; done).
  case_bool_decide as Hi.
  - destruct (IH rest A) as (H1 & H2 & H3 & H4); [lia|intros a p Ha Hp; destruct (Hcl a p Ha Hp) as [?|?%Hmem]; naive_solver|].
    split_and!; [done| |done|].
    + intros p [?| ->]%Hmem; [auto|]. by apply H1.
    + intros x Hx. destruct (H4 x Hx) as [?|(q & Hq & ?)]; [by left|right]. exists q. split; [apply Hmem; auto|done].
  - assert (Hext : match segs !! i with Some parent => rest ++ seg_parents parent | None => rest end
                   = rest ++ parents_of segs i).
    { unfold parents_of. destruct (segs !! i); simpl; [done|by rewrite app_nil_r]. }
    rewrite Hext. destruct (IH (rest ++ parents_of segs i) ({[i]} ∪ A)) as (H1 & H2 & H3 & H4).
    { rewrite length_app. pose proof (references_visit A i Hi). lia. }
    { intros a p [->%elem_of_singleton|Ha]%elem_of_union Hp; [set_solver|].
      destruct (Hcl a p Ha Hp) as [?|[?| ->]%Hmem]; set_solver. }
    split_and!; [set_solver| |done|].
    + intros p [?| ->]%Hmem; [apply H2; set_solver|apply H1; set_solver].
    + intros x Hx. destruct (H4 x Hx) as [[->%elem_of_singleton|?]%elem_of_union|(q & [Hq|Hq]%elem_of_app & Hr)].
      * right. exists i. split; [apply Hmem; auto|done].
      * by left.
      * right. exists q. split; [apply Hmem; auto|done].
      * right. exists i. split; [apply Hmem; auto|]. eapply rtc_r; [done|]. by apply edge_parents_of.
Qed.
End Ancestors.

Lemma ancestors_spec d i a : a ∈ ancestors d i <-> ancestor (snap_segments d) a i.
Proof.
  unfold ancestors. rewrite elem_of_btree_elems. set (segs := snap_segments d).
  destruct (ancestors_loop_ok segs (S (length (parents_of segs i) + parent_references segs (dom segs)))
              (parents_of segs i) ∅) as (_ & H2 & H3 & H4); [|set_solver|].
  { rewrite (difference_empty_L (dom segs)). lia. }
  set (R := ancestors_loop _ _ _ _) in *. split.
  - intros Ha. destruct (H4 a Ha) as [?|(q & Hq & Hr)]; [set_solver|].
    eapply tc_rtc_l; [exact Hr|]. constructor. by apply edge_parents_of.
  - unfold ancestor. intros Ht. apply tc_nsteps in Ht as (n & Hn & Ht).
    assert (Hgen : forall n x, nsteps (edge segs) n x i -> (0 < n)%nat -> x ∈ R).
    { clear n a Hn Ht. intros n. induction n as [|n IH]; intros x Hx Hn; [lia|].
      inversion Hx as [|? ? y ? Hxy Hy]; subst. destruct n as [|n].
      - inversion Hy; subst. apply H2. by apply edge_parents_of.
      - apply (H3 y); [apply IH; [done|lia]|by apply edge_parents_of]. }
    by eapply Hgen.
Qed.

Lemma ancestors_sorted d i : StronglySorted Z.le (ancestors d i) /\ NoDup (ancestors d i).
Proof.
  split; [|apply NoDup_btree_elems].
  pose proof (btree_elems_sorted (ancestors_loop (S (length (parents_of (snap_segments d) i) + parent_references (snap_segments d) (dom (snap_segments d)))) (snap_segments d) (parents_of (snap_segments d) i) ∅)) as Hs.
  unfold ancestors. induction Hs as [|x l Hl IH Hx]; constructor; [done|].
  eapply Forall_impl; [exact Hx|]. intros y. by rewrite key_le_Z.
Qed.

(** * The ordering barrier *)

Lemma elem_of_dedup_adjacent l x : x ∈ dedup_adjacent l <-> x ∈ l.
Proof.
  induction l as [|a [|b l] IH]; [done|done|].
  change (dedup_adjacent (a :: b :: l))
    with (if a =? b then dedup_adjacent (b :: l) else a :: dedup_adjacent (b :: l)).
  destruct (a =? b) eqn:Hab; [apply Z.eqb_eq in Hab as ->|]; rewrite !elem_of_cons, ?IH, !elem_of_cons; tauto.
Qed.

Lemma nil_or_elem (l : list Z) : l = [] \/ exists x, x ∈ l.
Proof. destruct l as [|x l]; [by left|right; exists x; by left]. Qed.

Section Ordering.
Context (d : DagSnapshot) (owned completed : gset Z).

(** The ancestors in the three roles of the decision. *)
Definition pruned (i a : Z) : Prop :=
  (ancestor (snap_segments d) a i \/ a = i) /\ a ∈ snap_incomplete_roots d.
Definition unfinished (i a : Z) : Prop :=
  ancestor (snap_segments d) a i /\ a ∈ owned /\ a ∉ completed.
Definition remote (i a : Z) : Prop := ancestor (snap_segments d) a i /\ a ∉ owned.

(** What each answer means. *)
Definition answer_ok (i : Z) (mode : OrderingMode) (r : result OrderingError OrderingEligibility) : Prop :=
  match r with
  | Err (OrdUnknownSegment j) => j = i /\ snap_segments d !! i = None
  | Err (OrderingUnprovable j l) =>
      j = i /\ is_Some (snap_segments d !! i) /\ l <> []
      /\ ((forall a, a ∈ l <-> pruned i a) \/ (mode = Strict /\ forall a, a ∈ l <-> remote i a))
  | Ok Eligible =>
      forall a, ~ pruned i a /\ ~ remote i a /\ ~ unfinished i a
  | Ok (Blocked incomplete delegated) =>
      incomplete <> [] /\ (forall a, a ∈ incomplete <-> unfinished i a)
      /\ (forall a, a ∈ delegated <-> remote i a) /\ (mode = Strict -> delegated = [])
      /\ forall a, ~ pruned i a
  | Ok (BrokerManaged delegated) =>
      mode = BrokerManagedMode /\ delegated <> [] /\ (forall a, a ∈ delegated <-> remote i a)
      /\ forall a, ~ pruned i a /\ ~ unfinished i a
  end.

Lemma ordering_answer i mode : answer_ok i mode (ordering_eligibility d i mode owned completed).
Proof.
  unfold ordering_eligibility. case_bool_decide as Hi; simpl; [|by rewrite <- eq_None_not_Some in Hi].
  set (roots := dedup_adjacent _).
  assert (Hroots : forall a, a ∈ roots <-> pruned i a).
  { intros a. unfold roots, pruned. rewrite elem_of_dedup_adjacent, elem_of_sort_keys, list_elem_of_filter.
    rewrite elem_of_app, list_elem_of_singleton, ancestors_spec. tauto. }
  set (inc := filter (fun id => id ∈ owned /\ id ∉ completed) _).
  assert (Hinc : forall a, a ∈ inc <-> unfinished i a).
  { intros a. unfold inc, unfinished. rewrite list_elem_of_filter, ancestors_spec. tauto. }
  set (rem := filter (fun id => id ∉ owned) _).
  assert (Hrem : forall a, a ∈ rem <-> remote i a).
  { intros a. unfold rem, remote. rewrite list_elem_of_filter, ancestors_spec. tauto. }
  clearbody roots inc rem.
  case_bool_decide as Hr; simpl; [|split_and!; auto].
  assert (Hnp : forall a, ~ pruned i a) by (intros a; rewrite <- Hroots, Hr; set_solver).
  destruct (bool_decide (mode = Strict) && negb (bool_decide (rem = []))) eqn:Hs.
  { apply andb_true_iff in Hs as [Hm Hn]. apply bool_decide_eq_true in Hm.
    apply negb_true_iff, bool_decide_eq_false in Hn. split_and!; auto. }
  assert (Hstrict : mode = Strict -> rem = []).
  { intros ->. rewrite bool_decide_eq_true_2 in Hs by done. simpl in Hs.
    by apply negb_false_iff, bool_decide_eq_true in Hs. }
  clear Hs. case_bool_decide as Hn; simpl; [|split_and!; auto].
  assert (Hnu : forall a, ~ unfinished i a) by (intros a; rewrite <- Hinc, Hn; set_solver).
  case_bool_decide as Hre.
  - intros a. split_and!; auto. rewrite <- Hrem, Hre. set_solver.
  - split_and!; auto. destruct mode; [exfalso; by apply Hre, Hstrict|done].
Qed.

(** Completing more segments never takes a permission away; see the theorems. *)
Lemma no_obstacle_permits i mode :
  is_Some (snap_segments d !! i) -> (forall a, ~ pruned i a) -> (forall a, ~ unfinished i a) ->
  (mode = Strict -> forall a, ~ remote i a) ->
  exists e, ordering_eligibility d i mode owned completed = Ok e /\ permits_flow e = true.
Proof.
  intros Hi Hp Hu Hr. pose proof (ordering_answer i mode) as Ha.
  destruct (ordering_eligibility d i mode owned completed) as [[|inc del|del]|[j|j l]]; simpl in Ha; try by eexists.
  - destruct Ha as (Hne & Hin & _). destruct (nil_or_elem inc) as [->|[x Hx]]; [done|].
    by apply Hin, Hu in Hx.
  - destruct Ha as [_ Hn]. rewrite Hn in Hi. by destruct Hi.
  - destruct Ha as (_ & _ & Hne & [Hl|[Hm Hl]]); destruct (nil_or_elem l) as [->|[x Hx]]; try done.
    + by apply Hl, Hp in Hx.
    + apply Hl in Hx. by destruct (Hr Hm x).
Qed.
End Ordering.

Lemma ordering_progress d i mode owned completed incomplete delegated :
  acyclic (snap_segments d) -> edges_ok (snap_segments d) ->
  ordering_eligibility d i mode owned completed = Ok (Blocked incomplete delegated) ->
  exists a e, a ∈ incomplete
    /\ ordering_eligibility d a mode owned completed = Ok e /\ permits_flow e = true.
Proof.
  intros [rank Hrank] He Hb. pose proof (ordering_answer d owned completed i mode) as Ha.
  rewrite Hb in Ha. destruct Ha as (Hne & Hinc & Hdel & Hs & Hnp).
  assert (Hmono : forall a b, ancestor (snap_segments d) a b -> (rank a < rank b)%nat).
  { intros a b. induction 1 as [a b Hab|a b c Hab Hbc IH]; [auto|]. apply Hrank in Hab. lia. }
  assert (Hmin : exists a, a ∈ incomplete /\ forall b, b ∈ incomplete -> (rank a <= rank b)%nat).
  { clear -Hne. induction incomplete as [|x l IH]; [done|]. destruct (decide (l = [])) as [->|Hl].
    - exists x. split; [by left|]. intros b ->%list_elem_of_singleton. done.
    - destruct (IH Hl) as (a & Ha & Hb). destruct (decide (rank a <= rank x)%nat).
      + exists a. split; [by right|]. intros b [->|?]%elem_of_cons; auto.
      + exists x. split; [by left|]. intros b [->|Hbl]%elem_of_cons; [done|]. specialize (Hb b Hbl). lia. }
  destruct Hmin as (a & Hain & Hmin). exists a.
  pose proof (proj1 (Hinc a) Hain) as (Hai & Hao & Hac).
  assert (Hup : forall x, ancestor (snap_segments d) x a -> ancestor (snap_segments d) x i)
    by (intros x Hx; by eapply tc_trans).
  destruct (no_obstacle_permits d owned completed a mode) as (e & Hok & Hpf); [| | | |by exists e].
  - assert (Hea : exists y, edge (snap_segments d) a y) by (destruct Hai; by eexists).
    destruct Hea as (y & dy & Hy & Hay). destruct (eo_parent _ He y dy a Hy Hay) as (da & Hda & _). by eexists.
  - intros x [[Hx| ->] Hr]; [apply (Hnp x)|apply (Hnp a)]; split; auto.
  - intros x (Hx & Hxo & Hxc). assert (Hxi : x ∈ incomplete) by (apply Hinc; split; auto).
    specialize (Hmin x Hxi). apply Hmono in Hx. lia.
  - intros Hm x [Hx Hxo]. specialize (Hs Hm). assert (Hxd : x ∈ delegated) by (apply Hdel; split; auto).
    rewrite Hs in Hxd. set_solver.
Qed.

(** C34: the ordering barrier is exact and cannot deadlock.  In both modes the answer
    names precisely the pruned, remote or unfinished ancestors over the whole
    transitive ancestry; and among the unfinished ancestors that block a segment
    there is one that may itself be delivered, so that an engine that finishes
    what it may deliver always moves on. *)
Theorem ordering_barrier d i mode owned completed :
  acyclic (snap_segments d) -> edges_ok (snap_segments d) ->
  answer_ok d owned completed i mode (ordering_eligibility d i mode owned completed)
  /\ forall incomplete delegated,
       ordering_eligibility d i mode owned completed = Ok (Blocked incomplete delegated) ->
       exists a e, a ∈ incomplete
         /\ ordering_eligibility d a mode owned completed = Ok e /\ permits_flow e = true.
Proof. intros Ha He. split; [apply ordering_answer|]. intros inc del. by apply ordering_progress. Qed.

(** * Layout updates *)

(** The parents of a new segment that the session held, in order. *)
Definition known_parents (before : gset Z) (c : SegmentDescriptor) : list Z :=
  sort_keys (filter (fun p => p ∈ before) (seg_parents c)).

Definition split_children (before : gset Z) (added : list SegmentDescriptor) (p : Z) : list Z :=
  seg_id <$> filter (fun c => known_parents before c = [p]) added.

Definition merge_of (before : gset Z) (c : SegmentDescriptor) : option MergeEvent :=
  match known_parents before c with
  | _ :: _ :: _ => Some (mkMerge (known_parents before c) (seg_id c))
  | _ => None
  end.

Lemma split_children_cons before c added p :
  split_children before (c :: added) p
  = (if decide (known_parents before c = [p]) then [seg_id c] else []) ++ split_children before added p.
Proof. unfold split_children. rewrite filter_cons. by case_decide. Qed.

Lemma topology_loop_spec before added splits merges :
  let '(splits', merges') := topology_loop before added splits merges in
  merges' = merges ++ omap (merge_of before) added
  /\ forall p, splits' !! p
       = match split_children before added p with
         | [] => splits !! p
         | cs => Some (default [] (splits !! p) ++ cs)
         end.
Proof.
  revert splits merges. induction added as [|c added IH]; intros splits merges.
  { simpl. by rewrite app_nil_r. }
  cbn [topology_loop omap list_omap]. fold (known_parents before c).
  unfold merge_of at 1. destruct (known_parents before c) as [|q [|q' ps]] eqn:Hk.
  - specialize (IH splits merges). destruct (topology_loop _ _ _ _) as [sp me]. destruct IH as [-> Hsp].
    split; [done|]. intros p. rewrite split_children_cons, Hk, decide_False by done. apply Hsp.
  - specialize (IH (<[q := default [] (splits !! q) ++ [seg_id c]]> splits) merges).
    destruct (topology_loop _ _ _ _) as [sp me]. destruct IH as [-> Hsp]. split; [done|]. intros p.
    rewrite Hsp, split_children_cons, Hk. destruct (decide (p = q)) as [->|Hpq].
    + rewrite decide_True by done. rewrite lookup_insert_eq. simpl.
      destruct (split_children before added q); simpl; [done|]. by rewrite <- (assoc_L app).
    + rewrite decide_False by congruence. by rewrite lookup_insert_ne.
  - specialize (IH splits (merges ++ [mkMerge (q :: q' :: ps) (seg_id c)])).
    destruct (topology_loop _ _ _ _) as [sp me]. destruct IH as [-> Hsp]. split.
    + by rewrite <- (assoc_L app).
    + intros p. rewrite split_children_cons, Hk, decide_False by done. apply Hsp.
Qed.

Lemma derive_topology_spec added before splits merges :
  derive_topology_changes added before = (splits, merges) ->
  (forall p cs, mkSplit p cs ∈ splits <-> cs = split_children before added p /\ cs <> [])
  /\ merges = omap (merge_of before) added.
Proof.
  unfold derive_topology_changes. pose proof (topology_loop_spec before added ∅ []) as Hs.
  destruct (topology_loop _ _ _ _) as [sp me]. destruct Hs as [-> Hsp]. intros [= <- <-]. split; [|done].
  intros p cs. rewrite list_elem_of_omap. specialize (Hsp p). rewrite lookup_empty in Hsp. simpl in Hsp. split.
  - intros (q & _ & Hq). apply fmap_Some in Hq as (cs' & Hq & [= -> ->]). rewrite Hq in Hsp.
    destruct (split_children before added q); simplify_eq. done.
  - intros [-> Hne]. exists p. rewrite elem_of_btree_elems, elem_of_dom, Hsp.
    destruct (split_children before added p); [done|]. split; [by eexists|done].
Qed.

Section Updates.
Context `{ProtoMessage ScalableTopicDag}.

(** What a delta says of the layouts before and after it. *)
Record delta_exact (before : gset Z) (snap : DagSnapshot) (d : DagDelta) : Prop := {
  de_epoch : dd_epoch d = snap_epoch snap;
  de_added : forall c, c ∈ dd_added d <->
    snap_segments snap !! seg_id c = Some c /\ seg_id c ∉ before;
  de_removed : forall i, i ∈ dd_removed d <-> i ∈ before /\ snap_segments snap !! i = None;
  de_splits : forall p cs, mkSplit p cs ∈ dd_split_events d <->
    cs = split_children before (dd_added d) p /\ cs <> [];
  de_merges : dd_merge_events d = omap (merge_of before) (dd_added d);
}.

Lemma default_depth_ok : 0 <= lim_depth default_limits <= usize_max - 1.
Proof. vm_compute. split; discriminate. Qed.

Lemma update_spec upd s r s' :
  handle_update upd s = (r, s') ->
  match r with
  | Err _ => s' = s
  | Ok None => s' = s
      /\ exists dag prev, stu_dag upd = Some dag /\ dw_dag s = Some prev /\ dag_epoch dag <= snap_epoch prev
  | Ok (Some d) =>
      exists dag snap, stu_dag upd = Some dag /\ try_from_pb dag = Ok snap /\ dw_dag s' = Some snap
        /\ dw_session_id s' = dw_session_id s
        /\ (forall prev, dw_dag s = Some prev -> snap_epoch prev < snap_epoch snap)
        /\ layout_ok (snap_epoch snap) MAX_DAG_DEPTH (snap_segments snap) (snap_topological_order snap)
        /\ delta_exact (watch_ids s) snap d
  end.
Proof.
  unfold handle_update. destruct (_ =? dw_session_id s); simpl; [|by intros [= <- <-]].
  destruct (stu_dag upd) as [dag|]; [|by intros [= <- <-]].
  destruct (match dw_dag s with Some prev => _ | None => false end) eqn:Hstale.
  { intros [= <- <-]. split; [done|]. destruct (dw_dag s) as [prev|]; [|done]. exists dag, prev.
    split_and!; [done|done|lia]. }
  destruct (try_from_pb dag) as [snap|e] eqn:Hv; [|by intros [= <- <-]].
  destruct (derive_topology_changes _ _) as [splits merges] eqn:Ht. intros [= <- <-].
  pose proof (try_from_pb_layout dag default_limits snap default_depth_ok Hv) as (Hlo & Hep & _).
  exists dag, snap. split_and!; try done.
  - intros prev Hp. rewrite Hp in Hstale. rewrite Hep. lia.
  - by rewrite Hep.
  - apply derive_topology_spec in Ht as [Hsp Hme]. split; simpl; try done.
    + intros c. rewrite list_elem_of_omap. setoid_rewrite elem_of_btree_elems. split.
      * intros (i & Hi & Hc). destruct (lo_index _ _ _ _ Hlo i c Hc) as (<- & _). set_solver.
      * intros [Hc Hn]. exists (seg_id c). split; [|done]. apply elem_of_difference.
        split; [by eapply elem_of_dom_2|done].
    + intros i. rewrite elem_of_btree_elems, elem_of_difference. by rewrite not_elem_of_dom.
Qed.

(** ** Runs of a session *)

(** The updates a session receives, with the deltas it reports. *)
Fixpoint watch_run (us : list ScalableTopicUpdate) (s : DagWatchSession) : list DagDelta * DagWatchSession :=
  match us with
  | [] => ([], s)
  | u :: us' =>
      let '(r, s1) := handle_update u s in
      let '(ds, s2) := watch_run us' s1 in
      (match r with Ok (Some d) => d :: ds | _ => ds end, s2)
  end.

(** An observer of the deltas. *)
Definition observe (d : DagDelta) (ids : gset Z) : gset Z :=
  (ids ∖ list_to_set (dd_removed d)) ∪ list_to_set (seg_id <$> dd_added d).

Definition session_epoch (s : DagWatchSession) : option Z := snap_epoch <$> dw_dag s.

Definition watch_ok (s : DagWatchSession) : Prop :=
  forall snap, dw_dag s = Some snap ->
    layout_ok (snap_epoch snap) MAX_DAG_DEPTH (snap_segments snap) (snap_topological_order snap).

Lemma observe_exact s s' snap d :
  dw_dag s' = Some snap -> (forall i c, snap_segments snap !! i = Some c -> seg_id c = i) ->
  delta_exact (watch_ids s) snap d -> observe d (watch_ids s) = watch_ids s'.
Proof.
  intros Hs' Hid Hd. unfold watch_ids at 2. rewrite Hs'. simpl. unfold observe. apply set_eq. intros i.
  rewrite elem_of_union, elem_of_difference, !elem_of_list_to_set, list_elem_of_fmap.
  setoid_rewrite (de_added _ _ _ Hd). rewrite (de_removed _ _ _ Hd), elem_of_dom. split.
  - intros [[Hi Hn]|(c & -> & Hc & _)]; [|by eexists].
    destruct (snap_segments snap !! i) as [c|]; [by eexists|]. naive_solver.
  - intros [c Hc]. destruct (decide (i ∈ watch_ids s)) as [Hi|Hi].
    + left. split; [done|]. rewrite Hc. by intros [_ ?].
    + right. exists c. rewrite (Hid i c Hc). done.
Qed.

Lemma watch_run_spec us s ds s' :
  watch_ok s -> watch_run us s = (ds, s') ->
  watch_ok s' /\ foldl (fun ids d => observe d ids) (watch_ids s) ds = watch_ids s'
  /\ StronglySorted Z.lt (dd_epoch <$> ds)
  /\ (forall e, session_epoch s = Some e -> Forall (fun d => e < dd_epoch d) ds)
  /\ session_epoch s' = (match last ds with Some d => Some (dd_epoch d) | None => session_epoch s end).
Proof.
  revert s ds. induction us as [|u us IH]; intros s ds Hok; simpl.
  { intros [= <- <-]. split_and!; try done; constructor. }
  destruct (handle_update u s) as [r s1] eqn:Hu. destruct (watch_run us s1) as [ds1 s2] eqn:Hr.
  intros [= <- <-]. apply update_spec in Hu. destruct r as [[d|]|e].
  2: { destruct Hu as [-> _]. by apply (IH s). }
  2: { subst s1. by apply (IH s). }
  destruct Hu as (dag & snap & _ & _ & Hs1 & _ & Hprev & Hlo & Hd).
  assert (Hok1 : watch_ok s1) by (intros snap' Hs'; simplify_eq; done).
  destruct (IH s1 ds1 Hok1 Hr) as (Hok2 & Hobs & Hsort & Hge & Hlast). clear IH.
  assert (He1 : session_epoch s1 = Some (dd_epoch d)).
  { unfold session_epoch. rewrite Hs1. simpl. by rewrite (de_epoch _ _ _ Hd). }
  specialize (Hge _ He1). split_and!; [done| | | |].
  - simpl. rewrite (observe_exact s s1 snap d); [done|done|exact (eo_id _ (lo_edges _ _ _ _ Hlo))|done].
  - simpl. constructor; [done|]. by apply Forall_fmap.
  - intros e He. assert (Hlt : e < dd_epoch d).
    { unfold session_epoch in He. apply fmap_Some in He as (prev & Hp & ->).
      rewrite (de_epoch _ _ _ Hd). auto. }
    constructor; [done|]. eapply Forall_impl; [exact Hge|]. simpl. lia.
  - rewrite Hlast, He1. destruct ds1 as [|d1 ds1]; [done|]. rewrite last_cons_cons.
    destruct (last (d1 :: ds1)) eqn:El; [done|]. by apply last_None in El.
Qed.

(** C33: a watch session refines the plain copy of the broker's layouts: whatever the
    updates, in any order, repeated, stale, malformed or for another session, the
    epochs it reports strictly increase up to the layout it holds, that layout is
    sound, and an observer that applies the reported additions and removals
    knows exactly its segments. *)
Theorem watch_session_refines session_id us ds s :
  watch_run us (watch_new session_id) = (ds, s) ->
  watch_ok s /\ foldl (fun ids d => observe d ids) ∅ ds = watch_ids s
  /\ StronglySorted Z.lt (dd_epoch <$> ds)
  /\ session_epoch s = dd_epoch <$> last ds.
Proof.
  intros Hr. apply watch_run_spec in Hr as (Hok & Hobs & Hs & _ & Hl); [|done].
  split_and!; [done|done|done|]. rewrite Hl. by destruct (last ds).
Qed.

(** C29: every accepted layout is sound: its order lists each segment once, parents
    before children; no ancestry is longer than the limit; each hash has exactly
    one active owner, and along the layout's history exactly one parent and one
    child; what the broker sent is neither dropped nor repeated; and the segments,
    the placements, the edges, counted at either end, and the size of the message
    are within the limits. *)
Theorem accepted_layout_sound dag limits snap :
  0 <= lim_depth limits <= usize_max - 1 -> 0 <= lim_edges limits < usize_max ->
  try_from_pb_with_limits dag limits = Ok snap ->
  layout_ok (dag_epoch dag) (lim_depth limits) (snap_segments snap) (snap_topological_order snap)
  /\ dom (snap_segments snap) = list_to_set (info_id <$> dag_segments dag)
  /\ NoDup (info_id <$> dag_segments dag)
  /\ blen (dag_segments dag) <= lim_segments limits
  /\ blen (dag_segment_brokers dag) <= lim_segments limits
  /\ encoded_len dag <= lim_serialized_size limits
  /\ edges_to_parents (snap_segments snap) <= lim_edges limits
  /\ edges_to_children (snap_segments snap) <= lim_edges limits.
Proof.
  intros Hl He Hok.
  destruct (try_from_pb_layout dag limits snap Hl Hok) as (? & _ & ? & ? & _ & [? ?] & ? & Hedge).
  destruct (Hedge He). split_and!; done.
Qed.
End Updates.
