(* ===== verification/ScalableConn.v ===== *)
(** * Scalable topics on a connection

    The PIP-460 arms of [conn.rs]: the registries of DAG watch sessions, of
    scalable-consumer registrations with their subscribe requests in flight, and
    of namespace and transaction-coordinator watches; the calls that open and
    close them and the handlers of the broker's answers.  Commands are recorded
    as they are handed to [encode_command]; a reason string in an event is
    represented by the error it prints. *)

From S2P Require Import Prelude Ids SegmentTopic Assignment AssignmentSession DagWatch DagOrder DagRanges DagSession.

(** * Data *)

Inductive ScalableTopicError :=
| BrokerUnsupported
| SteAssignment (e : AssignmentError).

(** The fields of [pb::BaseCommand] these arms emit. *)
Inductive ScalableCommand :=
| ScalableTopicLookup (session_id : Z) (topic : str) (create_if_missing : option bool)
| ScalableTopicClose (session_id : Z)
| ScalableTopicSubscribe (request_id : Z) (topic subscription consumer_name : str)
    (consumer_id consumer_type : Z)
| ScalableTopicUnsubscribe (request_id consumer_id : Z)
| WatchScalableTopics (watch_id : Z) (namespace : str) (property_filters : list (str * str))
    (current_hash : option Z)
| WatchScalableTopicsClose (watch_id : Z)
| WatchTcAssignments (watch_id : Z)
| WatchTcAssignmentsClose (watch_id : Z).

(** [crate::TcAssignment] and the wire messages of the coordinator watch *)
Record TcAssignment := mkTcAssignment {
  tca_tc_id : Z;
  tca_broker_service_url : option str;
  tca_broker_service_url_tls : option str;
}.

Record TcAssignmentsSnapshot := mkTcSnapshot {
  tcs_parallelism : Z;
  tcs_assignments : list TcAssignment;
}.

(** [pb::CommandWatchTcAssignmentsUpdate] *)
Record TcAssignmentsUpdate := mkTcUpdate {
  tcu_watch_id : Z;
  tcu_snapshot : option TcAssignmentsSnapshot;
  tcu_error : option Z;
  tcu_message : option str;
}.

Inductive DagCloseReason := ClientClose | UpdateRejected (e : DagError).

Inductive TcCloseReason := TcRejected (code : Z) (message : str) | TcNoSnapshot.

(** The PIP-460 variants of [ConnectionEvent] *)
Inductive ScalableEvent :=
| ScalableTopicLookupResolved (session_id : Z) (resolved_topic_name controller_broker_url
    controller_broker_url_tls : option string) (snapshot : DagSnapshot)
| SegmentDagUpdated (session_id : Z) (delta : DagDelta) (snapshot : DagSnapshot)
| DagChangedDuringConsume (session_id : Z) (reason : DagChangeReason)
| DagWatchClosed (session_id : Z) (reason : DagCloseReason)
| ScalableConsumerAssigned (consumer_id incarnation : Z) (assignment : ConsumerAssignment)
| ScalableAssignmentChanged (consumer_id incarnation : Z) (assignment : ConsumerAssignment)
    (delta : AssignmentDelta)
| ScalableConsumerRejected (consumer_id incarnation : Z) (reason : AssignmentError)
| ScalableTopicsChanged (watch_id : Z) (change : TopicsChange)
| ScalableTopicsWatchClosed (watch_id : Z) (reason : TopicsWatchError)
| TcAssignmentsChanged (watch_id parallelism : Z) (assignments : list TcAssignment)
| TcAssignmentsWatchClosed (watch_id : Z) (reason : TcCloseReason).

Record ScalableSubscribeRequest := mkRequest {
  rq_consumer_id : Z;
  rq_incarnation : Z;
  rq_leave_after_response : bool;
}.

#[export] Instance Request_eta : Eta ScalableSubscribeRequest := fun r =>
  mkRequest (rq_consumer_id r) (rq_incarnation r) (rq_leave_after_response r).

(** The fields of [Connection] these arms use. *)
Record ScalableConn := mkConn {
  cn_supports_scalable_topics : option bool;
  cn_supports_tc_metadata_discovery : option bool;
  cn_next_request_id : Z;
  cn_next_session_id : Z;
  cn_next_watch_id : Z;
  cn_sessions : gmap Z DagWatchSession;
  cn_consumers : gmap Z ScalableConsumerSession;
  cn_requests : gmap Z ScalableSubscribeRequest;
  cn_watches : gmap Z ScalableTopicsWatch;
  cn_tc_watches : gset Z;
  cn_events : list ScalableEvent;
  cn_outbound : list ScalableCommand;
}.

#[export] Instance ScalableConn_eta : Eta ScalableConn := fun c =>
  mkConn (cn_supports_scalable_topics c) (cn_supports_tc_metadata_discovery c) (cn_next_request_id c)
    (cn_next_session_id c) (cn_next_watch_id c) (cn_sessions c) (cn_consumers c) (cn_requests c)
    (cn_watches c) (cn_tc_watches c) (cn_events c) (cn_outbound c).

(** * Calls *)

Definition broker_supports_scalable_topics (c : ScalableConn) : bool :=
  default false (cn_supports_scalable_topics c).

Definition broker_supports_tc_metadata_discovery (c : ScalableConn) : bool :=
  default false (cn_supports_tc_metadata_discovery c).

Definition encode_scalable (cmd : ScalableCommand) (c : ScalableConn) : ScalableConn :=
  c <| cn_outbound ::= (fun l => l ++ [cmd]) |>.

Definition push_event (e : ScalableEvent) (c : ScalableConn) : ScalableConn :=
  c <| cn_events ::= (fun l => l ++ [e]) |>.

Definition alloc_request_id (c : ScalableConn) : Z * ScalableConn :=
  (cn_next_request_id c, c <| cn_next_request_id := wrapping_add 64 (cn_next_request_id c) 1 |>).

Definition open_scalable_topic_session (topic : str) (create_if_missing : bool) (c : ScalableConn)
    : result ScalableTopicError Z * ScalableConn :=
  if negb (broker_supports_scalable_topics c) then (Err BrokerUnsupported, c)
  else
    let session_id := cn_next_session_id c in
    let c := c <| cn_next_session_id := wrapping_add 64 session_id 1 |> in
    let c := encode_scalable (ScalableTopicLookup session_id topic (Some create_if_missing)) c in
    (Ok session_id, c <| cn_sessions ::= <[session_id := watch_new session_id]> |>).

Definition close_scalable_topic_session (session_id : Z) (c : ScalableConn) : ScalableConn :=
  match cn_sessions c !! session_id with
  | None => c
  | Some _ =>
      let c := c <| cn_sessions ::= delete session_id |> in
      push_event (DagWatchClosed session_id ClientClose) (encode_scalable (ScalableTopicClose session_id) c)
  end.

(** The registration step of [scalable_topic_subscribe]: a known consumer begins
    a new incarnation, a new one gets a session. *)
Definition register_consumer (topic subscription consumer_name : str) (consumer_id : Z)
    (consumer_type : ScalableConsumerType) (incarnation : Z) (c : ScalableConn)
    : result ScalableTopicError unit * ScalableConn :=
  match cn_consumers c !! consumer_id with
  | Some session =>
      if negb (matches_registration topic subscription consumer_name consumer_type session)
      then (Err (SteAssignment (RegistrationMismatch consumer_id)), c)
      else
        match begin_incarnation incarnation session with
        | (Err e, _) => (Err (SteAssignment e), c)
        | (Ok _, session) => (Ok tt, c <| cn_consumers ::= <[consumer_id := session]> |>)
        end
  | None =>
      (Ok tt, c <| cn_consumers ::= <[consumer_id :=
        session_new consumer_id topic subscription consumer_name consumer_type incarnation]> |>)
  end.

Definition scalable_topic_subscribe (topic subscription consumer_name : str) (consumer_id : Z)
    (consumer_type : ScalableConsumerType) (incarnation : Z) (c : ScalableConn)
    : result ScalableTopicError Z * ScalableConn :=
  if negb (broker_supports_scalable_topics c) then (Err BrokerUnsupported, c)
  else
    match register_consumer topic subscription consumer_name consumer_id consumer_type incarnation c with
    | (Err e, c) => (Err e, c)
    | (Ok _, c) =>
        let '(request_id, c) := alloc_request_id c in
        let c := encode_scalable
          (ScalableTopicSubscribe request_id topic subscription consumer_name consumer_id
             (consumer_type_to_pb_i32 consumer_type)) c in
        (Ok request_id,
         c <| cn_requests ::= <[request_id := mkRequest consumer_id incarnation false]> |>)
    end.

Definition scalable_consumer_assignment (consumer_id : Z) (c : ScalableConn) : option ConsumerAssignment :=
  cn_consumers c !! consumer_id ≫= sc_assignment.

Definition invalidate_scalable_consumer_registration (consumer_id incarnation : Z) (c : ScalableConn)
    : bool * ScalableConn :=
  match cn_consumers c !! consumer_id with
  | Some session =>
      if sc_incarnation session =? incarnation
      then (true, c <| cn_consumers ::= <[consumer_id := invalidate_authority session]> |>)
      else (false, c)
  | None => (false, c)
  end.

Definition detach_scalable_consumer_registration (consumer_id incarnation : Z) (c : ScalableConn)
    : bool * ScalableConn :=
  match cn_consumers c !! consumer_id with
  | Some session =>
      if negb (sc_incarnation session =? incarnation) then (false, c)
      else (true, c <| cn_consumers ::= delete consumer_id |>)
  | None => (false, c)
  end.

Definition emit_scalable_unsubscribe (consumer_id : Z) (c : ScalableConn) : ScalableConn :=
  let '(request_id, c) := alloc_request_id c in
  encode_scalable (ScalableTopicUnsubscribe request_id consumer_id) c.

(** [values().any(|request| request.consumer_id == consumer_id)] *)
Definition pending_for (consumer_id : Z) (requests : gmap Z ScalableSubscribeRequest) : bool :=
  existsb (fun r => rq_consumer_id r =? consumer_id) (map_to_list requests).*2.

Definition mark_leaving (consumer_id : Z) (r : ScalableSubscribeRequest) : ScalableSubscribeRequest :=
  if rq_consumer_id r =? consumer_id then r <| rq_leave_after_response := true |> else r.

Definition remove_scalable_consumer_registration (consumer_id incarnation : Z) (c : ScalableConn)
    : bool * ScalableConn :=
  match detach_scalable_consumer_registration consumer_id incarnation c with
  | (false, c) => (false, c)
  | (true, c) =>
      let pending := pending_for consumer_id (cn_requests c) in
      let c := c <| cn_requests ::= fmap (mark_leaving consumer_id) |> in
      (true, if negb pending then emit_scalable_unsubscribe consumer_id c else c)
  end.

Definition watch_scalable_topics (namespace : str) (property_filters : list (str * str)) (c : ScalableConn)
    : result ScalableTopicError Z * ScalableConn :=
  if negb (broker_supports_scalable_topics c) then (Err BrokerUnsupported, c)
  else
    let watch_id := cn_next_watch_id c in
    let c := c <| cn_next_watch_id := wrapping_add 64 watch_id 1 |> in
    let c := encode_scalable (WatchScalableTopics watch_id namespace property_filters None) c in
    (Ok watch_id, c <| cn_watches ::= <[watch_id := topics_watch_new watch_id namespace]> |>).

Definition close_scalable_topics_watch (watch_id : Z) (c : ScalableConn) : ScalableConn :=
  match cn_watches c !! watch_id with
  | None => c
  | Some _ => encode_scalable (WatchScalableTopicsClose watch_id) (c <| cn_watches ::= delete watch_id |>)
  end.

Definition watch_tc_assignments (c : ScalableConn) : result ScalableTopicError Z * ScalableConn :=
  if negb (broker_supports_tc_metadata_discovery c) then (Err BrokerUnsupported, c)
  else
    let watch_id := cn_next_watch_id c in
    let c := c <| cn_next_watch_id := wrapping_add 64 watch_id 1 |> in
    let c := encode_scalable (WatchTcAssignments watch_id) c in
    (Ok watch_id, c <| cn_tc_watches ::= (fun w => {[watch_id]} ∪ w) |>).

Definition close_tc_assignments_watch (watch_id : Z) (c : ScalableConn) : ScalableConn :=
  if negb (bool_decide (watch_id ∈ cn_tc_watches c)) then c
  else encode_scalable (WatchTcAssignmentsClose watch_id)
         (c <| cn_tc_watches ::= (fun w => w ∖ {[watch_id]}) |>).

(** * Handlers *)

(** [for replay in replayed] *)
Definition replay_events (consumer_id incarnation : Z) (replayed : list AssignmentReplay)
    : list ScalableEvent :=
  (fun r => ScalableAssignmentChanged consumer_id incarnation (ar_assignment r) (ar_delta r)) <$> replayed.

Definition handle_scalable_subscribe_response (resp : SubscribeResponse) (c : ScalableConn) : ScalableConn :=
  match cn_requests c !! sr_request_id resp with
  | None => c
  | Some request =>
      let c := c <| cn_requests ::= delete (sr_request_id resp) |> in
      let consumer_id := rq_consumer_id request in
      if rq_leave_after_response request then
        if negb (pending_for consumer_id (cn_requests c))
           && negb (bool_decide (is_Some (cn_consumers c !! consumer_id)))
        then emit_scalable_unsubscribe consumer_id c else c
      else
        match cn_consumers c !! consumer_id with
        | Some session =>
            if (sc_incarnation session =? rq_incarnation request) && negb (sc_invalidated session) then
              let incarnation := sc_incarnation session in
              match handle_subscribe_response resp session with
              | (Ok assignment, session) =>
                  let '(replayed, session) := take_replayed_updates session in
                  c <| cn_consumers ::= <[consumer_id := session]> |>
                    <| cn_events ::= (fun l =>
                         l ++ ScalableConsumerAssigned consumer_id incarnation assignment
                           :: replay_events consumer_id incarnation replayed) |>
              | (Err err, session) =>
                  let c := c <| cn_consumers ::= <[consumer_id := session]> |> in
                  let '(_, c) := invalidate_scalable_consumer_registration consumer_id incarnation c in
                  push_event (ScalableConsumerRejected consumer_id incarnation err) c
              end
            else c
        | None => c
        end
  end.

Definition handle_scalable_assignment_update (upd : AssignmentUpdate) (c : ScalableConn) : ScalableConn :=
  let consumer_id := au_consumer_id upd in
  match cn_consumers c !! consumer_id with
  | None => c
  | Some session =>
      if sc_invalidated session then c
      else
        let incarnation := sc_incarnation session in
        match handle_assignment_update upd session with
        | (Ok (Some delta), session) =>
            let c := c <| cn_consumers ::= <[consumer_id := session]> |> in
            match sc_assignment session with
            | Some assignment =>
                push_event (ScalableAssignmentChanged consumer_id incarnation assignment delta) c
            | None => c
            end
        | (Ok None, session) => c <| cn_consumers ::= <[consumer_id := session]> |>
        | (Err err, session) =>
            let c := c <| cn_consumers ::= <[consumer_id := session]> |> in
            let '(_, c) := invalidate_scalable_consumer_registration consumer_id incarnation c in
            push_event (ScalableConsumerRejected consumer_id incarnation err) c
        end
  end.

Definition handle_scalable_topics_watch_update (upd : TopicsUpdate) (c : ScalableConn) : ScalableConn :=
  let watch_id := tu_watch_id upd in
  match cn_watches c !! watch_id with
  | None => c
  | Some watch =>
      match topics_handle_update upd watch with
      | (Ok change, watch) =>
          push_event (ScalableTopicsChanged watch_id change) (c <| cn_watches ::= <[watch_id := watch]> |>)
      | (Err err, _) =>
          push_event (ScalableTopicsWatchClosed watch_id err) (c <| cn_watches ::= delete watch_id |>)
      end
  end.

Definition handle_tc_assignments_update (upd : TcAssignmentsUpdate) (c : ScalableConn) : ScalableConn :=
  let watch_id := tcu_watch_id upd in
  if negb (bool_decide (watch_id ∈ cn_tc_watches c)) then c
  else
    match tcu_snapshot upd with
    | None =>
        push_event (TcAssignmentsWatchClosed watch_id
            match tcu_error upd with
            | Some code => TcRejected code (default [] (tcu_message upd))
            | None => TcNoSnapshot
            end)
          (c <| cn_tc_watches ::= (fun w => w ∖ {[watch_id]}) |>)
    | Some snapshot =>
        push_event (TcAssignmentsChanged watch_id (tcs_parallelism snapshot) (tcs_assignments snapshot)) c
    end.

Section TopicUpdates.
Context `{ProtoMessage ScalableTopicDag}.

Definition handle_scalable_topic_update (upd : ScalableTopicUpdate) (c : ScalableConn) : ScalableConn :=
  let session_id := stu_session_id upd in
  match cn_sessions c !! session_id with
  | None => c
  | Some session =>
      let first_layout := negb (is_resolved session) in
      match handle_update upd session with
      | (Ok None, session) => c <| cn_sessions ::= <[session_id := session]> |>
      | (Ok (Some delta), session) =>
          let c := c <| cn_sessions ::= <[session_id := session]> |> in
          match dw_dag session with
          | None => c
          | Some snapshot =>
              if first_layout then
                push_event (ScalableTopicLookupResolved session_id (dw_resolved_topic_name session)
                  (dw_controller_broker_url session) (dw_controller_broker_url_tls session) snapshot) c
              else
                let c := push_event (SegmentDagUpdated session_id delta snapshot) c in
                if is_consume_affecting delta
                then push_event (DagChangedDuringConsume session_id (change_reason delta)) c else c
          end
      | (Err err, _) =>
          push_event (DagWatchClosed session_id (UpdateRejected err)) (c <| cn_sessions ::= delete session_id |>)
      end
  end.
End TopicUpdates.

(** What [reset] does to these fields when the socket is lost. *)
Definition scalable_reset (c : ScalableConn) : ScalableConn :=
  c <| cn_events := [] |> <| cn_outbound := [] |> <| cn_requests := ∅ |>
    <| cn_supports_scalable_topics := None |> <| cn_supports_tc_metadata_discovery := None |>.
