(* ===== verification/ScalableConnSpec.v ===== *)
(** * What a connection promises of scalable topics

    Theorems on the arms of [ScalableConn]: an engine that follows the events
    holds exactly the assignments of the registrations, layout epochs never
    regress while a consumer is registered, and a consumer that leaves is
    unsubscribed once, after its subscribe requests have settled. *)

From S2P Require Import Prelude Ids SegmentTopic Assignment AssignmentSession DagWatch DagOrder DagRanges DagSession ScalableConn.

(** The segments an engine is attached to, by consumer and segment id. *)
Abbreviation view := (gmap Z (gmap Z AssignedSegment)).

Section Conn.
Context `{ProtoMessage ScalableTopicDag}.

(** * Runs *)

(** The calls of the engine and the commands of the broker. *)
Inductive op :=
| OpOpen (topic : str) (create_if_missing : bool)
| OpClose (session_id : Z)
| OpSubscribe (topic subscription consumer_name : str) (consumer_id : Z)
    (consumer_type : ScalableConsumerType) (incarnation : Z)
| OpInvalidate (consumer_id incarnation : Z)
| OpDetach (consumer_id incarnation : Z)
| OpRemove (consumer_id incarnation : Z)
| OpWatchTopics (namespace : str) (filters : list (str * str))
| OpCloseTopics (watch_id : Z)
| OpWatchTc
| OpCloseTc (watch_id : Z)
| OpResponse (resp : SubscribeResponse)
| OpAssignment (upd : AssignmentUpdate)
| OpTopics (upd : TopicsUpdate)
| OpTc (upd : TcAssignmentsUpdate)
| OpLayout (upd : ScalableTopicUpdate).

Definition exec (o : op) (c : ScalableConn) : ScalableConn :=
  match o with
  | OpOpen t b => (open_scalable_topic_session t b c).2
  | OpClose i => close_scalable_topic_session i c
  | OpSubscribe t su n i ty inc => (scalable_topic_subscribe t su n i ty inc c).2
  | OpInvalidate i inc => (invalidate_scalable_consumer_registration i inc c).2
  | OpDetach i inc => (detach_scalable_consumer_registration i inc c).2
  | OpRemove i inc => (remove_scalable_consumer_registration i inc c).2
  | OpWatchTopics n f => (watch_scalable_topics n f c).2
  | OpCloseTopics i => close_scalable_topics_watch i c
  | OpWatchTc => (watch_tc_assignments c).2
  | OpCloseTc i => close_tc_assignments_watch i c
  | OpResponse r => handle_scalable_subscribe_response r c
  | OpAssignment u => handle_scalable_assignment_update u c
  | OpTopics u => handle_scalable_topics_watch_update u c
  | OpTc u => handle_tc_assignments_update u c
  | OpLayout u => handle_scalable_topic_update u c
  end.

(** The engine polls the events after each step. *)
Definition poll (c : ScalableConn) : list ScalableEvent * ScalableConn := (cn_events c, c <| cn_events := [] |>).

(** * The engine's view of the assignments *)

(** What the registrations say. *)
Definition assigned (c : ScalableConn) : view :=
  omap (fun s => (fun a => by_id (ca_segments a)) <$> sc_assignment s) (cn_consumers c).

(** What the engine makes of an event: it detaches [lost] and attaches [gained]. *)
Definition see_event (v : view) (e : ScalableEvent) : view :=
  match e with
  | ScalableConsumerAssigned i _ a => <[i := by_id (ca_segments a)]> v
  | ScalableAssignmentChanged i _ _ d => <[i := attach d (default ∅ (v !! i))]> v
  | ScalableConsumerRejected i _ _ => delete i v
  | _ => v
  end.

(** The engine gives up what it held when a call of its own ends the incarnation. *)
Definition relinquish (o : op) (c : ScalableConn) (v : view) : view :=
  match o with
  | OpSubscribe t su n i ty inc =>
      if is_ok (scalable_topic_subscribe t su n i ty inc c).1 then delete i v else v
  | OpInvalidate i inc => if (invalidate_scalable_consumer_registration i inc c).1 then delete i v else v
  | OpDetach i inc => if (detach_scalable_consumer_registration i inc c).1 then delete i v else v
  | OpRemove i inc => if (remove_scalable_consumer_registration i inc c).1 then delete i v else v
  | _ => v
  end.

Fixpoint run (ops : list op) (c : ScalableConn) (v : view) : list ScalableEvent * ScalableConn * view :=
  match ops with
  | [] => ([], c, v)
  | o :: ops' =>
      let '(es, c') := poll (exec o c) in
      let '(es', c'', v') := run ops' c' (foldl see_event (relinquish o c v) es) in
      (es ++ es', c'', v')
  end.

Definition conn_ok (c : ScalableConn) : Prop := map_Forall (fun _ s => session_ok s) (cn_consumers c).

Definition put_session (i : Z) (s : ScalableConsumerSession) (c : ScalableConn) : ScalableConn :=
  c <| cn_consumers ::= <[i := s]> |>.

Lemma assigned_put i s c :
  assigned (put_session i s c)
  = match sc_assignment s with
    | Some a => <[i := by_id (ca_segments a)]> (assigned c)
    | None => delete i (assigned c)
    end.
Proof. unfold assigned. simpl. rewrite omap_insert. by destruct (sc_assignment s). Qed.

Lemma assigned_lookup i c s :
  cn_consumers c !! i = Some s ->
  assigned c !! i = (fun a => by_id (ca_segments a)) <$> sc_assignment s.
Proof. intros Hs. unfold assigned. by rewrite lookup_omap, Hs. Qed.

Lemma assigned_held i c s :
  cn_consumers c !! i = Some s -> default ∅ (assigned c !! i) = held s.
Proof. intros Hs. rewrite (assigned_lookup i c s Hs). unfold held. by destruct (sc_assignment s). Qed.

Lemma held_some s : is_Some (sc_assignment s) -> (fun a => by_id (ca_segments a)) <$> sc_assignment s = Some (held s).
Proof. intros [a Ha]. unfold held. by rewrite Ha. Qed.

Lemma put_session_ok i s c : conn_ok c -> session_ok s -> conn_ok (put_session i s c).
Proof. intros Hc Hs. unfold conn_ok. simpl. by apply map_Forall_insert_2. Qed.

Lemma put_lookup_ok i s c : conn_ok c -> cn_consumers c !! i = Some s -> session_ok s.
Proof. intros Hc Hs. by apply Hc in Hs. Qed.

Lemma replay_view i inc rs m m' v :
  follows m rs m' -> v !! i = Some m ->
  foldl see_event v (replay_events i inc rs) = <[i := m']> v.
Proof.
  revert m v. induction rs as [|r rs IH]; intros m v; simpl.
  - intros -> Hv. by rewrite insert_id.
  - intros [Ha Hf] Hv. rewrite Hv. simpl. rewrite Ha.
    rewrite (IH (by_id (ca_segments (ar_assignment r)))); [by rewrite insert_insert_eq|done|].
    by rewrite lookup_insert_eq.
Qed.

Lemma put_put i s s' c : put_session i s' (put_session i s c) = put_session i s' c.
Proof. destruct c. unfold put_session, update. simpl. by rewrite insert_insert_eq. Qed.

Lemma invalidate_put i s c :
  invalidate_scalable_consumer_registration i (sc_incarnation s) (c <| cn_consumers ::= <[i := s]> |>)
  = (true, put_session i (invalidate_authority s) c).
Proof.
  unfold invalidate_scalable_consumer_registration. simpl.
  rewrite lookup_insert_eq, Z.eqb_refl. f_equal. apply (put_put i s).
Qed.

(** ** One step *)

Lemma response_view resp c :
  conn_ok c -> cn_events c = [] ->
  foldl see_event (assigned c) (cn_events (handle_scalable_subscribe_response resp c))
  = assigned (handle_scalable_subscribe_response resp c)
  /\ conn_ok (handle_scalable_subscribe_response resp c).
Proof.
  intros Hc He. unfold handle_scalable_subscribe_response.
  destruct (cn_requests c !! _) as [rq|]; [|by rewrite He].
  destruct (rq_leave_after_response rq); [destruct (_ && _); simpl; by rewrite He|].
  cbn [cn_consumers update]. destruct (cn_consumers _ !! rq_consumer_id rq) as [s|] eqn:Hs; [|simpl; by rewrite He].
  simpl in Hs. destruct (_ && _); [|simpl; by rewrite He].
  pose proof (put_lookup_ok _ _ _ Hc Hs) as Hok.
  destruct (handle_subscribe_response resp s) as [[b|e] s'] eqn:Hr.
  - apply response_promise in Hr as ([Hok' _ _] & _ & Hsome & Hf); [|done].
    cbn [take_replayed_updates]. simpl. rewrite He. simpl. split.
    + set (s0 := s' <| sc_replayed_updates := [] |>).
      change (assigned _) with (assigned (put_session (rq_consumer_id rq) s0 c)) at 2.
      rewrite (replay_view _ _ _ _ _ _ Hf) by (by rewrite lookup_insert_eq).
      rewrite insert_insert_eq, assigned_put. unfold s0. simpl. destruct Hsome as [a Ha].
      unfold held. by rewrite Ha.
    + by apply (put_session_ok (rq_consumer_id rq) _ c).
  - apply handle_response_err in Hr as ->. rewrite (invalidate_put _ s). simpl. rewrite He. simpl. split.
    + symmetry. exact (assigned_put (rq_consumer_id rq) (invalidate_authority s) c).
    + apply (put_session_ok (rq_consumer_id rq) _ c Hc). by apply invalidate_promise.
Qed.

Lemma update_view upd c :
  conn_ok c -> cn_events c = [] ->
  foldl see_event (assigned c) (cn_events (handle_scalable_assignment_update upd c))
  = assigned (handle_scalable_assignment_update upd c)
  /\ conn_ok (handle_scalable_assignment_update upd c).
Proof.
  intros Hc He. unfold handle_scalable_assignment_update.
  destruct (cn_consumers c !! _) as [s|] eqn:Hs; [|by rewrite He].
  destruct (sc_invalidated s); [by rewrite He|]. pose proof (put_lookup_ok _ _ _ Hc Hs) as Hok.
  destruct (handle_assignment_update upd s) as [[[d|]|e] s'] eqn:Hu.
  - apply update_promise in Hu as ([Hok' _ _] & [a Ha] & Hat); [|done]. rewrite Ha. simpl. rewrite He. simpl.
    split; [|by apply (put_session_ok (au_consumer_id upd) s' c)].
    etrans; [|symmetry; exact (assigned_put (au_consumer_id upd) s' c)]. rewrite Ha, (assigned_held _ _ _ Hs), Hat.
    unfold held. by rewrite Ha.
  - apply update_promise in Hu as ([Hok' _ _] & Ha); [|done]. simpl. rewrite He. simpl.
    split; [|by apply (put_session_ok (au_consumer_id upd) s' c)].
    etrans; [|symmetry; exact (assigned_put (au_consumer_id upd) s' c)]. rewrite Ha.
    pose proof (assigned_lookup _ _ _ Hs) as Hl. destruct (sc_assignment s) as [a|]; simpl in Hl;
      [by rewrite insert_id|by rewrite delete_id].
  - apply handle_update_err in Hu as ->. rewrite (invalidate_put _ s). simpl. rewrite He. simpl. split.
    + symmetry. exact (assigned_put (au_consumer_id upd) (invalidate_authority s) c).
    + apply (put_session_ok (au_consumer_id upd)); [done|]. by apply invalidate_promise.
Qed.

(** A step that leaves the registrations alone and reports nothing of them. *)
Lemma neutral_view c c' :
  conn_ok c -> cn_consumers c' = cn_consumers c ->
  (forall v e, e ∈ cn_events c' -> see_event v e = v) ->
  foldl see_event (assigned c) (cn_events c') = assigned c' /\ conn_ok c'.
Proof.
  intros Hc Hcons He. split; [|unfold conn_ok; by rewrite Hcons].
  assert (Hf : forall v, foldl see_event v (cn_events c') = v).
  { induction (cn_events c') as [|e l IH]; intros v; simpl; [done|].
    rewrite He by by left. apply IH. intros v' e' He'. apply He. by right. }
  rewrite Hf. unfold assigned. by rewrite Hcons.
Qed.

Lemma register_view t su n i ty inc c r c' :
  conn_ok c -> register_consumer t su n i ty inc c = (r, c') ->
  conn_ok c' /\ cn_events c' = cn_events c
  /\ (if is_ok r then assigned c' = delete i (assigned c) else c' = c).
Proof.
  intros Hc. unfold register_consumer. destruct (cn_consumers c !! i) as [s|] eqn:Hs.
  - destruct (matches_registration _ _ _ _ _); simpl; [|by intros [= <- <-]].
    destruct (begin_incarnation inc s) as [[u|e] s'] eqn:Hb; intros [= <- <-]; [|done].
    apply begin_promise in Hb as [[Hok _ _] Hn]; [|by eapply put_lookup_ok].
    split_and!; [by apply (put_session_ok i s' c)|done|]. simpl.
    etrans; [exact (assigned_put i s' c)|]. by rewrite Hn.
  - intros [= <- <-]. split_and!; [|done|].
    + apply (put_session_ok i _ c Hc). apply new_session_ok.
    + exact (assigned_put i (session_new i t su n ty inc) c).
Qed.

Lemma detach_view i inc c b c' :
  conn_ok c -> detach_scalable_consumer_registration i inc c = (b, c') ->
  conn_ok c' /\ cn_events c' = cn_events c /\ cn_requests c' = cn_requests c
  /\ (if b then assigned c' = delete i (assigned c) else c' = c).
Proof.
  intros Hc. unfold detach_scalable_consumer_registration.
  destruct (cn_consumers c !! i) as [s|] eqn:Hs; [|by intros [= <- <-]].
  destruct (negb _); intros [= <- <-]; [done|]. split_and!; [|done|done|].
  - unfold conn_ok. simpl. by apply map_Forall_delete.
  - unfold assigned. simpl. by rewrite omap_delete.
Qed.

Lemma step_view o c :
  conn_ok c -> cn_events c = [] ->
  foldl see_event (relinquish o c (assigned c)) (cn_events (exec o c)) = assigned (exec o c)
  /\ conn_ok (exec o c).
Proof.
  intros Hc He. destruct o as [t b|i|t su n i ty inc|i inc|i inc|i inc|n f|i| |i|r|u|u|u|u]; cbn [exec relinquish].
  3: { unfold scalable_topic_subscribe. destruct (negb _); [simpl; by rewrite He|].
       destruct (register_consumer t su n i ty inc c) as [[u|e] c'] eqn:Hr;
         apply register_view in Hr as (Hok & Hev & Ha); try done; simpl in *; rewrite Hev, He; simpl;
         [split; [by rewrite <- Ha|done]|by subst]. }
  3: { unfold invalidate_scalable_consumer_registration.
       destruct (cn_consumers c !! i) as [s|] eqn:Hs; [|simpl; by rewrite He].
       destruct (_ =? _); simpl; rewrite He; [|done]. simpl. split.
       - symmetry. exact (assigned_put i (invalidate_authority s) c).
       - apply (put_session_ok i _ c Hc), invalidate_promise. by eapply put_lookup_ok. }
  3: { destruct (detach_scalable_consumer_registration i inc c) as [[] c'] eqn:Hd;
         apply detach_view in Hd as (Hok & Hev & _ & Ha); try done; simpl; rewrite Hev, He; [by rewrite Ha|by subst]. }
  3: { unfold remove_scalable_consumer_registration.
       destruct (detach_scalable_consumer_registration i inc c) as [[] c'] eqn:Hd;
         apply detach_view in Hd as (Hok & Hev & _ & Ha); try done; simpl; [|subst; by rewrite He].
       destruct (negb _); simpl; rewrite Hev, He; simpl; (split; [by rewrite <- Ha|done]). }
  7: { by apply response_view. }
  7: { by apply update_view. }
  all: apply neutral_view; [done| |].
  all: unfold open_scalable_topic_session, close_scalable_topic_session, watch_scalable_topics,
         close_scalable_topics_watch, watch_tc_assignments, close_tc_assignments_watch,
         handle_scalable_topics_watch_update, handle_tc_assignments_update, handle_scalable_topic_update.
  all: repeat case_match; simpl; rewrite ?He; set_solver.
Qed.

(** C16: an engine that follows the events holds, at every moment, exactly the
    assignments of the registrations: whatever the calls and the broker's
    commands, in any order, the segments it is attached to for a consumer are
    those of the session's current assignment, and a consumer without authority
    (not answered yet, rejected, invalidated or gone) holds none. *)
Theorem engine_follows_assignments ops c v es c' v' :
  conn_ok c -> cn_events c = [] -> v = assigned c ->
  run ops c v = (es, c', v') ->
  v' = assigned c' /\ conn_ok c'.
Proof.
  revert c v es. induction ops as [|o ops IH]; intros c v es Hc He Hv; simpl; [by intros [= <- <- <-]|].
  destruct (run ops _ _) as [[es1 c1] v1] eqn:Hr. intros [= <- <- <-].
  destruct (step_view o c Hc He) as [Hs Hok]. eapply IH in Hr; [done|done|done|].
  by rewrite Hv.
Qed.

(** * Leaving *)

Lemma pending_for_true i m :
  pending_for i m = true <-> exists r rq, m !! r = Some rq /\ rq_consumer_id rq = i.
Proof.
  unfold pending_for. rewrite existsb_exists. split.
  - intros (rq & Hin & Hi). apply Z.eqb_eq in Hi. apply list_elem_of_In in Hin.
    apply list_elem_of_fmap in Hin as ([r rq'] & -> & Hin). apply elem_of_map_to_list in Hin. by exists r, rq'.
  - intros (r & rq & Hr & <-). exists rq. rewrite Z.eqb_refl. split; [|done].
    apply list_elem_of_In, list_elem_of_fmap. exists (r, rq). split; [done|]. by apply elem_of_map_to_list.
Qed.

Lemma pending_for_ext i m m' :
  (forall r rq, rq_consumer_id rq = i -> m !! r = Some rq -> exists rq', m' !! r = Some rq' /\ rq_consumer_id rq' = i) ->
  (forall r rq, rq_consumer_id rq = i -> m' !! r = Some rq -> exists rq', m !! r = Some rq' /\ rq_consumer_id rq' = i) ->
  pending_for i m' = pending_for i m.
Proof.
  intros H1 H2. apply eq_true_iff_eq. rewrite !pending_for_true. naive_solver.
Qed.

Definition is_unsubscribe (i : Z) (cmd : ScalableCommand) : bool :=
  match cmd with ScalableTopicUnsubscribe _ j => j =? i | _ => false end.

(** How often the connection unsubscribed [i]. *)
Definition unsubscribes (i : Z) (c : ScalableConn) : nat :=
  length (filter (fun cmd => is_unsubscribe i cmd = true) (cn_outbound c)).

(** The consumer [i] is leaving, [n] unsubscribes having been sent before. *)
Record leaving (i : Z) (n : nat) (c : ScalableConn) : Prop := {
  lv_gone : cn_consumers c !! i = None;
  lv_marked : forall r rq, cn_requests c !! r = Some rq -> rq_consumer_id rq = i ->
    rq_leave_after_response rq = true;
  lv_sent : unsubscribes i c = if pending_for i (cn_requests c) then n else S n;
}.

(** Request ids in flight were handed out. *)
Definition ids_handed_out (c : ScalableConn) : Prop :=
  forall r, is_Some (cn_requests c !! r) -> r < cn_next_request_id c.

Lemma unsubscribes_app i c cmd :
  unsubscribes i (encode_scalable cmd c)
  = (unsubscribes i c + if is_unsubscribe i cmd then 1 else 0)%nat.
Proof.
  unfold unsubscribes, encode_scalable. simpl. rewrite filter_app, length_app, filter_cons.
  by destruct (is_unsubscribe i cmd).
Qed.

Lemma unsubscribes_emit i j c :
  unsubscribes i (emit_scalable_unsubscribe j c) = (unsubscribes i c + if (j =? i)%Z then 1 else 0)%nat.
Proof. unfold emit_scalable_unsubscribe. cbn [alloc_request_id]. by rewrite unsubscribes_app. Qed.

Lemma leaving_frame i n c c' :
  leaving i n c -> cn_consumers c' !! i = None ->
  (forall r rq, rq_consumer_id rq = i -> cn_requests c' !! r = Some rq <-> cn_requests c !! r = Some rq) ->
  unsubscribes i c' = unsubscribes i c -> leaving i n c'.
Proof.
  intros [Hg Hm Hs] Hg' Hr Hu. split; [done| |].
  - intros r rq Hrq Hi. apply (Hm r rq); [by apply Hr|done].
  - rewrite Hu, Hs. rewrite (pending_for_ext i (cn_requests c) (cn_requests c')); [done| |];
      intros r rq Hi Hrq; exists rq; (split; [by apply Hr|done]).
Qed.

(** The answer to one of the requests of a consumer that left. *)
Lemma leaving_response i n c r rq :
  leaving i n c -> cn_requests c !! r = Some rq -> rq_consumer_id rq = i ->
  leaving i n (let c := c <| cn_requests ::= delete r |> in
    if negb (pending_for i (cn_requests c)) && negb (bool_decide (is_Some (cn_consumers c !! i)))
    then emit_scalable_unsubscribe i c else c).
Proof.
  intros [Hg Hm Hs] Hr Hi. cbv zeta. set (c1 := c <| cn_requests ::= delete r |>).
  assert (Hp : pending_for i (cn_requests c) = true) by (apply pending_for_true; by exists r, rq).
  rewrite Hp in Hs. assert (Hm1 : forall r rq, cn_requests c1 !! r = Some rq -> rq_consumer_id rq = i ->
    rq_leave_after_response rq = true).
  { intros r' rq' Hr'. simpl in Hr'. apply lookup_delete_Some in Hr' as [_ Hr']. exact (Hm r' rq' Hr'). }
  rewrite (bool_decide_eq_false_2 (is_Some (cn_consumers c1 !! i))) by (simpl; rewrite Hg; by intros []).
  rewrite andb_true_r. destruct (pending_for i (cn_requests c1)) eqn:Hp1; simpl.
  - split; [done|done|]. by rewrite Hp1.
  - split; [done|done|]. rewrite unsubscribes_emit, Z.eqb_refl.
    change (cn_requests (emit_scalable_unsubscribe _ _)) with (cn_requests c1). rewrite Hp1.
    change (unsubscribes i c1) with (unsubscribes i c). lia.
Qed.

Lemma mark_leaving_id j rq : rq_consumer_id (mark_leaving j rq) = rq_consumer_id rq.
Proof. unfold mark_leaving. by destruct (_ =? _). Qed.

Lemma mark_leaving_frame i j (m : gmap Z ScalableSubscribeRequest) r rq :
  i <> j -> rq_consumer_id rq = i -> (mark_leaving j <$> m) !! r = Some rq <-> m !! r = Some rq.
Proof.
  intros Hij Hi. rewrite lookup_fmap, fmap_Some. unfold mark_leaving. split.
  - intros (q & Hq & ->). destruct (rq_consumer_id q =? j) eqn:Hj; [|done]. simpl in Hi. lia.
  - intros Hr. exists rq. split; [done|]. by rewrite (proj2 (Z.eqb_neq _ _)) by congruence.
Qed.

Definition is_subscribe (i : Z) (o : op) : Prop :=
  match o with OpSubscribe _ _ _ j _ _ => j = i | _ => False end.

Lemma register_other t su n j ty inc c r c' i :
  i <> j -> register_consumer t su n j ty inc c = (r, c') ->
  cn_consumers c' !! i = cn_consumers c !! i /\ cn_requests c' = cn_requests c
  /\ cn_outbound c' = cn_outbound c /\ cn_next_request_id c' = cn_next_request_id c.
Proof.
  intros Hij. unfold register_consumer. repeat case_match; intros [= <- <-]; simpl; try done;
    by rewrite lookup_insert_ne.
Qed.

Lemma step_leaving i n o c :
  leaving i n c -> ids_handed_out c -> ~ is_subscribe i o -> leaving i n (exec o c).
Proof.
  intros Hl Hids Ho.
  destruct o as [t b|j|t su nm j ty inc|j inc|j inc|j inc|ns f|j| |j|r|u|u|u|u]; cbn [exec]; simpl in Ho.
  3: { unfold scalable_topic_subscribe. destruct (negb _); [done|].
       destruct (register_consumer t su nm j ty inc c) as [[u|e] c'] eqn:Hr;
         apply (register_other _ _ _ _ _ _ _ _ _ i) in Hr as (Hc & Hrq & Ho' & Hn); try done; simpl.
       - apply (leaving_frame i n c); [done|simpl; rewrite Hc; exact (lv_gone _ _ _ Hl)| |].
         + intros r rq Hi. simpl. rewrite Hrq, Hn. destruct (decide (r = cn_next_request_id c)) as [->|Hne].
           * rewrite lookup_insert_eq. split; [intros [= <-]; simpl in Hi; congruence|].
             intros Hr. specialize (Hids _ ltac:(by eexists)). lia.
           * by rewrite lookup_insert_ne.
         + unfold unsubscribes. simpl. rewrite Ho', filter_app. simpl. by rewrite app_nil_r.
       - apply (leaving_frame i n c); [done|simpl; rewrite Hc; exact (lv_gone _ _ _ Hl)|by rewrite Hrq|].
         unfold unsubscribes. by rewrite Ho'. }
  3: { unfold invalidate_scalable_consumer_registration.
       destruct (cn_consumers c !! j) as [s|] eqn:Hs; [|done]. destruct (_ =? _); [|done]. simpl.
       apply (leaving_frame i n c); [done| |done|done]. simpl. rewrite lookup_insert_ne; [apply Hl|].
       intros ->. by rewrite (lv_gone _ _ _ Hl) in Hs. }
  3: { unfold detach_scalable_consumer_registration.
       destruct (cn_consumers c !! j) as [s|] eqn:Hs; [|done]. destruct (negb _); [done|]. simpl.
       apply (leaving_frame i n c); [done| |done|done]. simpl. apply lookup_delete_None. right. apply Hl. }
  3: { unfold remove_scalable_consumer_registration, detach_scalable_consumer_registration.
       destruct (cn_consumers c !! j) as [s|] eqn:Hs; [|done]. destruct (negb _); [done|].
       assert (Hij : i <> j) by (intros ->; by rewrite (lv_gone _ _ _ Hl) in Hs).
       assert (Hgone : delete j (cn_consumers c) !! i = None) by (apply lookup_delete_None; right; apply Hl).
       destruct (negb _); cbn [snd];
         (apply (leaving_frame i n c); [done|done|intros r rq Hrq; by apply (mark_leaving_frame i j)|]); [|done].
       rewrite unsubscribes_emit, (proj2 (Z.eqb_neq j i)) by done. apply Nat.add_0_r. }
  7: { unfold handle_scalable_subscribe_response. destruct (cn_requests c !! _) as [rq|] eqn:Hr; [|done].
       destruct (decide (rq_consumer_id rq = i)) as [Hi|Hi].
       - rewrite (lv_marked _ _ _ Hl _ _ Hr Hi). rewrite Hi. by eapply leaving_response.
       - set (c1 := c <| cn_requests ::= delete (sr_request_id r) |>).
         assert (Hl1 : leaving i n c1).
         { apply (leaving_frame i n c); [done|apply Hl| |done]. intros r' rq' Hi'. simpl.
           rewrite lookup_delete_Some. split; [by intros [_ ?]|]. intros Hr'. split; [|done].
           intros <-. congruence. }
         destruct (rq_leave_after_response rq).
         + destruct (_ && _); [|done]. apply (leaving_frame i n c1); [done|apply Hl1|done|].
           rewrite unsubscribes_emit, (proj2 (Z.eqb_neq _ i)) by done. apply Nat.add_0_r.
         + destruct (cn_consumers c1 !! _) as [s|]; [|done]. destruct (_ && _); [|done].
           destruct (handle_subscribe_response r s) as [[a|e] s'] eqn:Hh.
           * simpl. apply (leaving_frame i n c1); [done| |done|done]. simpl.
             rewrite lookup_insert_ne by done. apply Hl1.
           * apply handle_response_err in Hh as ->. rewrite (invalidate_put _ s). simpl.
             apply (leaving_frame i n c1); [done| |done|done]. simpl.
             rewrite lookup_insert_ne by done. apply Hl1. }
  7: { unfold handle_scalable_assignment_update.
       destruct (cn_consumers c !! au_consumer_id u) as [s|] eqn:Hs; [|done].
       assert (Hij : au_consumer_id u <> i) by (intros Hi; by rewrite Hi, (lv_gone _ _ _ Hl) in Hs).
       destruct (sc_invalidated s); [done|].
       assert (Hput : forall s', cn_consumers (put_session (au_consumer_id u) s' c) !! i = None)
         by (intros s'; simpl; rewrite lookup_insert_ne by done; apply Hl).
       destruct (handle_assignment_update u s) as [[[d|]|e] s'] eqn:Hh.
       - destruct (sc_assignment s'); (apply (leaving_frame i n c); [done|apply Hput|done|done]).
       - apply (leaving_frame i n c); [done|apply Hput|done|done].
       - apply handle_update_err in Hh as ->. rewrite (invalidate_put _ s).
         apply (leaving_frame i n c); [done|apply Hput|done|done]. }
  all: apply (leaving_frame i n c); [done| | |].
  all: unfold open_scalable_topic_session, close_scalable_topic_session, watch_scalable_topics,
         close_scalable_topics_watch, watch_tc_assignments, close_tc_assignments_watch,
         handle_scalable_topics_watch_update, handle_tc_assignments_update, handle_scalable_topic_update.
  all: repeat case_match; simpl; try done; try apply Hl.
  all: try (unfold unsubscribes; simpl; by rewrite filter_app, app_nil_r).
Qed.

(** Every step hands out at most one request id. *)
Definition ids_step (c c' : ScalableConn) : Prop :=
  (cn_next_request_id c' = cn_next_request_id c
   \/ cn_next_request_id c' = wrapping_add 64 (cn_next_request_id c) 1)
  /\ forall r, is_Some (cn_requests c' !! r) ->
       is_Some (cn_requests c !! r)
       \/ (r = cn_next_request_id c /\ cn_next_request_id c' = wrapping_add 64 (cn_next_request_id c) 1).

Lemma ids_step_same c c' :
  cn_next_request_id c' = cn_next_request_id c ->
  (forall r, is_Some (cn_requests c' !! r) -> is_Some (cn_requests c !! r)) -> ids_step c c'.
Proof. intros Hn Hr. split; [by left|]. intros r Hr'. left. auto. Qed.

Lemma ids_step_emit i c c' :
  cn_next_request_id c' = cn_next_request_id c ->
  (forall r, is_Some (cn_requests c' !! r) -> is_Some (cn_requests c !! r)) ->
  ids_step c (emit_scalable_unsubscribe i c').
Proof.
  intros Hn Hr. split; [right; simpl; by rewrite Hn|]. intros r Hr'. left. by apply Hr.
Qed.

Lemma register_requests t su n i ty inc c r c' :
  register_consumer t su n i ty inc c = (r, c') ->
  cn_requests c' = cn_requests c /\ cn_next_request_id c' = cn_next_request_id c.
Proof. unfold register_consumer. repeat case_match; by intros [= <- <-]. Qed.

Lemma exec_ids o c : ids_step c (exec o c).
Proof.
  destruct o as [t b|j|t su nm j ty inc|j inc|j inc|j inc|ns f|j| |j|r|u|u|u|u]; cbn [exec].
  3: { unfold scalable_topic_subscribe. destruct (negb _); [by apply ids_step_same|].
       destruct (register_consumer t su nm j ty inc c) as [[u|e] c'] eqn:Hr; cbn [snd];
         apply register_requests in Hr as [Hrq Hn]; [|apply ids_step_same; [done|by rewrite Hrq]].
       split; simpl; rewrite ?Hrq, ?Hn; [by right|]. intros r Hr.
       destruct (decide (r = cn_next_request_id c)) as [->|]; [by right|left].
       by rewrite lookup_insert_ne in Hr. }
  5: { unfold remove_scalable_consumer_registration, detach_scalable_consumer_registration.
       destruct (cn_consumers c !! j); [|by apply ids_step_same]. destruct (negb _); [by apply ids_step_same|].
       destruct (negb _); [apply ids_step_emit|apply ids_step_same]; try done; simpl; intros r;
         rewrite lookup_fmap; by intros [? (? & ? & _)%fmap_Some]. }
  9: { unfold handle_scalable_subscribe_response. destruct (cn_requests c !! _) as [rq|]; [|by apply ids_step_same].
       assert (Hdel : forall r', is_Some (delete (sr_request_id r) (cn_requests c) !! r') ->
                 is_Some (cn_requests c !! r')) by (intros r' [q [_ ?]%lookup_delete_Some]; by eexists).
       destruct (rq_leave_after_response rq); [destruct (_ && _); [by apply ids_step_emit|by apply ids_step_same]|].
       destruct (cn_consumers _ !! _) as [s|]; [|by apply ids_step_same].
       destruct (_ && _); [|by apply ids_step_same].
       destruct (handle_subscribe_response r s) as [[a|e] s'] eqn:Hh; [by apply ids_step_same|].
       apply handle_response_err in Hh as ->. rewrite (invalidate_put _ s). by apply ids_step_same. }
  9: { unfold handle_scalable_assignment_update. destruct (cn_consumers c !! _) as [s|]; [|by apply ids_step_same].
       destruct (sc_invalidated s); [by apply ids_step_same|].
       destruct (handle_assignment_update u s) as [[[d|]|e] s'] eqn:Hh.
       - destruct (sc_assignment s'); by apply ids_step_same.
       - by apply ids_step_same.
       - apply handle_update_err in Hh as ->. rewrite (invalidate_put _ s). by apply ids_step_same. }
  all: unfold open_scalable_topic_session, close_scalable_topic_session, watch_scalable_topics,
         invalidate_scalable_consumer_registration, detach_scalable_consumer_registration,
         close_scalable_topics_watch, watch_tc_assignments, close_tc_assignments_watch,
         handle_scalable_topics_watch_update, handle_tc_assignments_update, handle_scalable_topic_update.
  all: repeat case_match; by apply ids_step_same.
Qed.

Lemma handed_out_step c c' :
  ids_handed_out c -> 0 <= cn_next_request_id c -> cn_next_request_id c + 1 < 2 ^ 64 -> ids_step c c' ->
  ids_handed_out c' /\ cn_next_request_id c <= cn_next_request_id c' <= cn_next_request_id c + 1.
Proof.
  intros Hids H0 Hmax [Hn Hr].
  assert (Hw : wrapping_add 64 (cn_next_request_id c) 1 = cn_next_request_id c + 1)
    by (unfold wrapping_add; apply Z.mod_small; lia).
  rewrite Hw in *. split; [|lia]. intros r Hs. destruct (Hr r Hs) as [Hold|[-> ?]]; [|lia].
  specialize (Hids r Hold). lia.
Qed.

Lemma run_leaving i n ops c v es c' v' :
  leaving i n c -> ids_handed_out c -> 0 <= cn_next_request_id c ->
  cn_next_request_id c + Z.of_nat (length ops) < 2 ^ 64 ->
  Forall (fun o => ~ is_subscribe i o) ops -> run ops c v = (es, c', v') -> leaving i n c'.
Proof.
  revert c v es. induction ops as [|o ops IH]; intros c v es Hl Hids H0 Hmax Hf; simpl; [by intros [= <- <- <-]|].
  apply Forall_cons in Hf as [Ho Hf]. simpl length in Hmax.
  destruct (run ops _ _) as [[es1 c1] v1] eqn:Hr. intros [= <- <- <-].
  destruct (handed_out_step c (exec o c) Hids H0 ltac:(lia) (exec_ids o c)) as [Hids' Hn].
  eapply IH in Hr; [done| |done|simpl; lia|simpl; lia|done].
  pose proof (step_leaving i n o c Hl Hids Ho) as Hl'.
  apply (leaving_frame i n (exec o c)); [done|exact (lv_gone _ _ _ Hl')|done|done].
Qed.

Lemma remove_leaving i inc c c1 :
  remove_scalable_consumer_registration i inc c = (true, c1) -> leaving i (unsubscribes i c) c1.
Proof.
  intros Hrem.
  unfold remove_scalable_consumer_registration, detach_scalable_consumer_registration in Hrem.
  destruct (cn_consumers c !! i) as [s|] eqn:Hs; [|done]. destruct (negb _); [done|].
  set (c0 := c <| cn_consumers ::= delete i |>) in *.
  assert (Hg0 : cn_consumers c0 !! i = None) by apply lookup_delete_eq.
  assert (Hp : pending_for i (mark_leaving i <$> cn_requests c) = pending_for i (cn_requests c)).
  { apply pending_for_ext; intros r rq Hi Hrq.
    - exists (mark_leaving i rq). rewrite lookup_fmap, Hrq. split; [done|].
      by rewrite mark_leaving_id.
    - rewrite lookup_fmap, fmap_Some in Hrq. destruct Hrq as (q & Hq & ->). exists q.
      split; [done|]. by rewrite mark_leaving_id in Hi. }
  assert (Hm : forall r rq, (mark_leaving i <$> cn_requests c) !! r = Some rq -> rq_consumer_id rq = i ->
            rq_leave_after_response rq = true).
  { intros r rq Hrq Hi. rewrite lookup_fmap, fmap_Some in Hrq. destruct Hrq as (q & _ & ->).
    unfold mark_leaving in *. destruct (_ =? i) eqn:He; [done|lia]. }
  injection Hrem as <-. destruct (pending_for i (cn_requests c)) eqn:Hp0; simpl negb; cbn iota.
  - split; [exact Hg0|exact Hm|]. simpl cn_requests. by rewrite Hp.
  - split; [exact Hg0|exact Hm|]. rewrite unsubscribes_emit, Z.eqb_refl.
    simpl cn_requests. rewrite Hp. change (unsubscribes i _) with (unsubscribes i c) at 1. lia.
Qed.

(** A consumer that leaves is unsubscribed exactly once, and not before the
    broker has answered all of its subscribe requests: while one is in flight the
    unsubscribe is withheld, and when none is left it has been sent, whatever
    else happens on the connection, as long as the consumer does not subscribe
    again. *)
Theorem leave_unsubscribes_once i inc c c1 ops v es c2 v' :
  ids_handed_out c -> 0 <= cn_next_request_id c ->
  cn_next_request_id c + Z.of_nat (length ops) + 1 < 2 ^ 64 ->
  remove_scalable_consumer_registration i inc c = (true, c1) ->
  Forall (fun o => ~ is_subscribe i o) ops -> run ops c1 v = (es, c2, v') ->
  cn_consumers c2 !! i = None
  /\ unsubscribes i c2 = (unsubscribes i c + if pending_for i (cn_requests c2) then 0 else 1)%nat.
Proof.
  intros Hids H0 Hmax Hrem Hf Hr.
  pose proof (remove_leaving i inc c c1 Hrem) as Hl1.
  pose proof (exec_ids (OpRemove i inc) c) as Hst. cbn [exec] in Hst. rewrite Hrem in Hst.
  destruct (handed_out_step c c1 Hids H0 ltac:(lia) Hst) as [Hids1 Hn].
  eapply run_leaving in Hr as [Hg _ Hs]; [|done|done|lia|lia|done]. split; [done|]. rewrite Hs.
  case_match; lia.
Qed.

(** * Epochs *)

(** The layout epochs reported for the consumer [i]. *)
Definition epochs_of (i : Z) (es : list ScalableEvent) : list Z :=
  omap (fun e => match e with
                 | ScalableConsumerAssigned j _ a | ScalableAssignmentChanged j _ a _ =>
                     if j =? i then Some (ca_layout_epoch a) else None
                 | _ => None
                 end) es.

Lemma epochs_of_replay i j inc rs :
  epochs_of i (replay_events j inc rs) = if j =? i then replay_epochs rs else [].
Proof.
  destruct (j =? i) eqn:Hj; induction rs as [|r rs IH]; simpl; try done; rewrite Hj; [f_equal|]; done.
Qed.

Definition is_departure (i : Z) (o : op) : Prop :=
  match o with OpDetach j _ | OpRemove j _ => j = i | _ => False end.

(** What a step may report of the consumer [i], given its session before and after. *)
Definition epoch_step (o1 o2 : option ScalableConsumerSession) (es : list Z) : Prop :=
  match o1 with
  | None => es = []
  | Some s => exists s', o2 = Some s' /\ epochs_between (sc_epoch_floor s) es (sc_epoch_floor s')
  end.

Lemma epoch_step_same o1 o2 es : o2 = o1 -> es = [] -> epoch_step o1 o2 es.
Proof. intros -> ->. destruct o1 as [s|]; [|done]. exists s. split; [done|]. by apply epochs_between_nil. Qed.

Lemma epoch_step_put i j s s' es (m : gmap Z ScalableConsumerSession) :
  m !! j = Some s -> (j <> i -> es = []) -> (j = i -> epochs_between (sc_epoch_floor s) es (sc_epoch_floor s')) ->
  epoch_step (m !! i) (<[j := s']> m !! i) es.
Proof.
  intros Hs Hne Heq. destruct (decide (j = i)) as [->|Hji].
  - rewrite Hs, lookup_insert_eq. exists s'. auto.
  - rewrite lookup_insert_ne by done. apply epoch_step_same; auto.
Qed.

Lemma response_step i resp c :
  conn_ok c -> cn_events c = [] ->
  epoch_step (cn_consumers c !! i) (cn_consumers (handle_scalable_subscribe_response resp c) !! i)
    (epochs_of i (cn_events (handle_scalable_subscribe_response resp c))).
Proof.
  intros Hc He. unfold handle_scalable_subscribe_response.
  destruct (cn_requests c !! _) as [rq|]; [|apply epoch_step_same; [done|by rewrite He]].
  destruct (rq_leave_after_response rq); [destruct (_ && _); apply epoch_step_same; simpl; by rewrite ?He|].
  cbn [cn_consumers update]. destruct (cn_consumers _ !! rq_consumer_id rq) as [s|] eqn:Hs;
    [|apply epoch_step_same; simpl; by rewrite ?He].
  simpl in Hs. destruct (_ && _); [|apply epoch_step_same; simpl; by rewrite ?He].
  pose proof (put_lookup_ok _ _ _ Hc Hs) as Hok.
  destruct (handle_subscribe_response resp s) as [[b|e] s'] eqn:Hr.
  - apply response_epochs in Hr; [|done]. cbn [take_replayed_updates]. simpl. rewrite He. simpl app.
    eapply epoch_step_put; [exact Hs| |]; intros Hj; cbn [epochs_of omap list_omap].
    + rewrite (proj2 (Z.eqb_neq _ i)) by done. fold (epochs_of i (replay_events (rq_consumer_id rq) (sc_incarnation s) (sc_replayed_updates s'))).
      rewrite epochs_of_replay. by rewrite (proj2 (Z.eqb_neq _ i)).
    + rewrite Hj, Z.eqb_refl. fold (epochs_of i (replay_events i (sc_incarnation s) (sc_replayed_updates s'))).
      by rewrite epochs_of_replay, Z.eqb_refl.
  - apply handle_response_err in Hr as ->. rewrite (invalidate_put _ s). simpl. rewrite He. simpl.
    eapply epoch_step_put; [exact Hs|done|]. intros _. by apply epochs_between_nil.
Qed.

Lemma assignment_step i u c :
  conn_ok c -> cn_events c = [] ->
  epoch_step (cn_consumers c !! i) (cn_consumers (handle_scalable_assignment_update u c) !! i)
    (epochs_of i (cn_events (handle_scalable_assignment_update u c))).
Proof.
  intros Hc He. unfold handle_scalable_assignment_update.
  destruct (cn_consumers c !! au_consumer_id u) as [s|] eqn:Hs; [|apply epoch_step_same; by rewrite ?He].
  destruct (sc_invalidated s); [apply epoch_step_same; by rewrite ?He|].
  pose proof (put_lookup_ok _ _ _ Hc Hs) as Hok.
  destruct (handle_assignment_update u s) as [[d|e] s'] eqn:Hu.
  - apply update_epochs in Hu; [|done]. destruct d as [d|]; [destruct (sc_assignment s') as [a|]|]; simpl;
      rewrite He; simpl; (eapply epoch_step_put; [exact Hs| |]); intros Hj; try done.
    + by rewrite (proj2 (Z.eqb_neq _ i)).
    + by rewrite Hj, Z.eqb_refl.
  - apply handle_update_err in Hu as ->. rewrite (invalidate_put _ s). simpl. rewrite He. simpl.
    eapply epoch_step_put; [exact Hs|done|]. intros _. by apply epochs_between_nil.
Qed.

Lemma step_epochs i o c :
  conn_ok c -> cn_events c = [] -> ~ is_departure i o ->
  epoch_step (cn_consumers c !! i) (cn_consumers (exec o c) !! i) (epochs_of i (cn_events (exec o c))).
Proof.
  intros Hc He Ho.
  destruct o as [t b|j|t su n j ty inc|j inc|j inc|j inc|n f|j| |j|r|u|u|u|u]; cbn [exec]; simpl in Ho.
  3: { unfold scalable_topic_subscribe. destruct (negb _); [apply epoch_step_same; simpl; by rewrite ?He|].
       unfold register_consumer. destruct (cn_consumers c !! j) as [s|] eqn:Hs.
       - destruct (negb _); [apply epoch_step_same; simpl; by rewrite ?He|].
         destruct (begin_incarnation inc s) as [[u|e] s'] eqn:Hb; [|apply epoch_step_same; simpl; by rewrite ?He].
         apply begin_promise in Hb as [[_ Hfl _] _]; [|by eapply put_lookup_ok]. simpl. rewrite He. simpl.
         eapply epoch_step_put; [exact Hs|done|]. intros _. by apply epochs_between_nil.
       - simpl. rewrite He. simpl. destruct (decide (j = i)) as [->|]; [by rewrite Hs|].
         apply epoch_step_same; [by rewrite lookup_insert_ne|done]. }
  3: { unfold invalidate_scalable_consumer_registration.
       destruct (cn_consumers c !! j) as [s|] eqn:Hs; [|apply epoch_step_same; simpl; by rewrite ?He].
       destruct (_ =? _); [|apply epoch_step_same; simpl; by rewrite ?He]. simpl. rewrite He. simpl.
       eapply epoch_step_put; [exact Hs|done|]. intros _. by apply epochs_between_nil. }
  9: { by apply response_step. }
  9: { by apply assignment_step. }
  all: apply epoch_step_same.
  all: unfold open_scalable_topic_session, close_scalable_topic_session, watch_scalable_topics,
         remove_scalable_consumer_registration, detach_scalable_consumer_registration,
         close_scalable_topics_watch, watch_tc_assignments, close_tc_assignments_watch,
         handle_scalable_topics_watch_update, handle_tc_assignments_update, handle_scalable_topic_update.
  all: repeat case_match; simplify_eq; simpl; rewrite ?He; try done.
  all: by rewrite lookup_delete_ne.
Qed.

Lemma run_epochs i ops c v es c' v' :
  conn_ok c -> cn_events c = [] -> Forall (fun o => ~ is_departure i o) ops ->
  run ops c v = (es, c', v') ->
  StronglySorted Z.le (epochs_of i es)
  /\ forall s, cn_consumers c !! i = Some s -> Forall (fun e => floor_le (sc_epoch_floor s) (Some e)) (epochs_of i es).
Proof.
  revert c v es. induction ops as [|o ops IH]; intros c v es Hc He Hf; simpl.
  { intros [= <- <- <-]. split; [constructor|]. intros. constructor. }
  apply Forall_cons in Hf as [Ho Hf]. destruct (run ops _ _) as [[es1 c1] v1] eqn:Hr. intros [= <- <- <-].
  pose proof (step_epochs i o c Hc He Ho) as Hst. destruct (step_view o c Hc He) as [_ Hok].
  eapply IH in Hr as [Hs1 Hge]; [|done|done|done]. unfold epochs_of in *. rewrite omap_app.
  destruct (cn_consumers c !! i) as [s|]; simpl in Hst; [|rewrite Hst; split; [done|by intros]].
  destruct Hst as (s' & Hs' & Hfl & Hso & Hb). specialize (Hge s' Hs'). rewrite Forall_forall in Hb, Hge. split.
  - apply StronglySorted_app. split_and!; [|done|done]. intros x y Hx Hy.
    destruct (Hb x Hx) as [_ Hxg]. exact (transitivity Hxg (Hge y Hy)).
  - intros ? [= <-]. apply Forall_app; split; apply Forall_forall; intros e Hin; [by apply Hb|].
    etrans; [exact Hfl|by apply Hge].
Qed.

(** While a consumer stays registered, across rejections and any number of
    reconnects of its controller, the layouts it is assigned never go back: the
    epochs reported to the engine for it are in order. *)
Theorem assigned_epochs_never_regress i ops c v es c' v' :
  conn_ok c -> cn_events c = [] -> Forall (fun o => ~ is_departure i o) ops ->
  run ops c v = (es, c', v') -> StronglySorted Z.le (epochs_of i es).
Proof. intros Hc He Hf Hr. by apply (run_epochs i ops c v es c' v'). Qed.
End Conn.
