(* ===== verification/OrdinaryId.v ===== *)
(** * Canonical ordinary message ids

    [stream_position.rs]: the frozen byte form of a [MessageIdData] inside a
    stream position.  The crate writes the protobuf bytes itself, field by field
    in tag order, after checking the values; this file models that writer, its
    length computation and its checks, and shows that what it writes is the
    protobuf wire format by a reader of that format ([Wire]). *)

From S2P Require Import Prelude Ids SegmentTopic.

Definition MAX_POSITION_COMPONENTS : Z := 4096.
Definition MAX_POSITION_TOPIC_SIZE : Z := 4096.
Definition MAX_ORDINARY_MESSAGE_ID_SIZE : Z := 65536.
Definition MAX_STREAM_POSITION_SIZE : Z := 1024 * 1024.

Inductive ordinary_field := FPartition | FBatchIndex | FBatchSize.

Inductive StreamPositionError :=
| EnvelopeTooLarge (actual max : Z)
| TruncatedHeader
| InvalidMagic
| UnsupportedVersion (version : Z)
| UnexpectedKind (got expected : Z)
| UnsupportedFlags (flags : Z)
| LengthMismatch (declared actual : Z)
| TruncatedPayload
| InvalidUtf8
| TopicTooLong (actual max : Z)
| OrdinaryIdTooLong (actual max : Z)
| InvalidOrdinaryId
| NonCanonicalOrdinaryId
| ImpossibleOrdinaryId (field : ordinary_field) (value : Z)
| NestedChunkId
| PositionSegmentTopic (e : SegmentTopicError)
| TooManyComponents (actual max : Z)
| NonCanonicalComponentOrder
| DuplicateComponent (topic : str)
| LengthOverflow.

(** * Checks *)

Fixpoint check_ordinary_fields (l : list (ordinary_field * Z)) : result StreamPositionError unit :=
  match l with
  | [] => Ok tt
  | (field, value) :: l' =>
      if value <? -1 then Err (ImpossibleOrdinaryId field value) else check_ordinary_fields l'
  end.

Fixpoint validate_ordinary_id (m : MessageIdData) (nested : bool) : result StreamPositionError unit :=
  _ ← check_ordinary_fields
        [(FPartition, default (-1) (pb_partition m));
         (FBatchIndex, default (-1) (pb_batch_index m));
         (FBatchSize, default (-1) (pb_batch_size m))];
  match pb_first_chunk m with
  | Some first_chunk =>
      if nested || match pb_first_chunk first_chunk with Some _ => true | None => false end
      then Err NestedChunkId
      else validate_ordinary_id first_chunk true
  | None => Ok tt
  end.

(** * Varints *)

(** A [u64] has at most ten groups of seven bits. *)
Definition varint_groups : nat := 10.

Fixpoint varint_len_loop (fuel : nat) (value : Z) : Z :=
  match fuel with
  | O => 1
  | S f => if value >=? 128 then 1 + varint_len_loop f (Z.shiftr value 7) else 1
  end.

Definition varint_len (value : Z) : Z := varint_len_loop varint_groups value.
#[global] Arguments varint_len : simpl never.

Definition varint_field_len (field_number value : Z) : Z :=
  varint_len (Z.shiftl field_number 3) + varint_len value.

Definition signed_i32_varint (value : Z) : Z := as_unsigned 64 value.

Fixpoint encode_varint_loop (fuel : nat) (target : bytes) (value : Z) : bytes :=
  match fuel with
  | O => target ++ [byte.of_Z (value mod 256)]
  | S f =>
      if value >=? 128
      then encode_varint_loop f (target ++ [byte.of_Z (Z.lor (value mod 256) 128)]) (Z.shiftr value 7)
      else target ++ [byte.of_Z (value mod 256)]
  end.

Definition encode_varint (target : bytes) (value : Z) : bytes :=
  encode_varint_loop varint_groups target value.
#[global] Arguments encode_varint : simpl never.

Definition encode_varint_field (target : bytes) (field_number value : Z) : bytes :=
  encode_varint (encode_varint target (Z.shiftl field_number 3)) value.

(** * The writer *)

Definition checked_ordinary_id_len_add (length additional : Z) : result StreamPositionError Z :=
  actual ← ok_or (checked_add usize_max length additional) LengthOverflow;
  if actual >? MAX_ORDINARY_MESSAGE_ID_SIZE
  then Err (OrdinaryIdTooLong actual MAX_ORDINARY_MESSAGE_ID_SIZE)
  else Ok actual.

Fixpoint add_ordinary_lens (length : Z) (field_lens : list Z) : result StreamPositionError Z :=
  match field_lens with
  | [] => Ok length
  | f :: fs => length' ← checked_ordinary_id_len_add length f; add_ordinary_lens length' fs
  end.

(** [.into_iter().flatten()] over an array of options *)
Definition flatten_options {A} (l : list (option A)) : list A := omap id l.

(** The key of [first_chunk_message_id]: field 7, length-delimited. *)
Definition first_chunk_key : Z := Z.lor (Z.shiftl 7 3) 2.

Fixpoint canonical_ordinary_id_len (m : MessageIdData) : result StreamPositionError Z :=
  length ← ok_or (checked_add usize_max (varint_field_len 1 (pb_ledger_id m))
                    (varint_field_len 2 (pb_entry_id m))) LengthOverflow;
  length ← add_ordinary_lens length
             (flatten_options
                [(fun value => varint_field_len 3 (signed_i32_varint value)) <$> pb_partition m;
                 (fun value => varint_field_len 4 (signed_i32_varint value)) <$> pb_batch_index m;
                 (fun value => varint_field_len 6 (signed_i32_varint value)) <$> pb_batch_size m]);
  length ← add_ordinary_lens length
             ((fun ack_word => varint_field_len 5 (as_unsigned 64 ack_word)) <$> pb_ack_set m);
  match pb_first_chunk m with
  | Some first_chunk =>
      nested_len ← canonical_ordinary_id_len first_chunk;
      nested_u64 ← ok_or (try_from_max u64_max nested_len) LengthOverflow;
      field_len ← ok_or (x ← checked_add usize_max (varint_len first_chunk_key) (varint_len nested_u64);
                         checked_add usize_max x nested_len) LengthOverflow;
      checked_ordinary_id_len_add length field_len
  | None => Ok length
  end.

Definition encode_option_field (target : bytes) (field_number : Z) (value : option Z) : bytes :=
  match value with
  | Some v => encode_varint_field target field_number (signed_i32_varint v)
  | None => target
  end.

Fixpoint encode_canonical_ordinary_id_into (encoded : bytes) (m : MessageIdData)
    : result StreamPositionError bytes :=
  let encoded := encode_varint_field encoded 1 (pb_ledger_id m) in
  let encoded := encode_varint_field encoded 2 (pb_entry_id m) in
  let encoded := encode_option_field encoded 3 (pb_partition m) in
  let encoded := encode_option_field encoded 4 (pb_batch_index m) in
  let encoded := foldl (fun encoded ack_word => encode_varint_field encoded 5 (as_unsigned 64 ack_word))
                       encoded (pb_ack_set m) in
  let encoded := encode_option_field encoded 6 (pb_batch_size m) in
  match pb_first_chunk m with
  | Some first_chunk =>
      nested_len ← canonical_ordinary_id_len first_chunk;
      let encoded := encode_varint encoded first_chunk_key in
      nested_u64 ← ok_or (try_from_max u64_max nested_len) LengthOverflow;
      let encoded := encode_varint encoded nested_u64 in
      encode_canonical_ordinary_id_into encoded first_chunk
  | None => Ok encoded
  end.

Definition encode_canonical_ordinary_id (m : MessageIdData) : result StreamPositionError bytes :=
  _ ← canonical_ordinary_id_len m;
  encode_canonical_ordinary_id_into [] m.

(** * Values a [MessageIdData] can hold *)

Definition i32_ok (z : Z) : Prop := - 2 ^ 31 <= z < 2 ^ 31.
Definition i64_ok (z : Z) : Prop := - 2 ^ 63 <= z < 2 ^ 63.

Fixpoint id_fields_ok (m : MessageIdData) : Prop :=
  u64_ok (pb_ledger_id m) /\ u64_ok (pb_entry_id m)
  /\ from_option i32_ok True (pb_partition m) /\ from_option i32_ok True (pb_batch_index m)
  /\ Forall i64_ok (pb_ack_set m) /\ from_option i32_ok True (pb_batch_size m)
  /\ match pb_first_chunk m with Some c => id_fields_ok c | None => True end.

(** Induction through the boxed [first_chunk_message_id]. *)
Lemma id_ind (P : MessageIdData -> Prop) :
  (forall m, match pb_first_chunk m with Some c => P c | None => True end -> P m) -> forall m, P m.
Proof.
  intros H. fix IH 1. intros m. apply H. destruct m as [? ? ? ? ? ? [c|]]; simpl; [apply IH|done].
Qed.

(** * Varints are the base-128 digits *)

Lemma encode_varint_loop_app fuel target value :
  encode_varint_loop fuel target value = target ++ encode_varint_loop fuel [] value.
Proof.
  revert target value. induction fuel as [|f IH]; intros target value; simpl; [done|].
  case_match; [|done]. rewrite IH, (IH [_]). by rewrite <- app_assoc.
Qed.

Lemma encode_varint_app target value : encode_varint target value = target ++ encode_varint [] value.
Proof. apply encode_varint_loop_app. Qed.

Lemma blen_encode_varint value : blen (encode_varint [] value) = varint_len value.
Proof.
  unfold encode_varint, varint_len. generalize varint_groups. intros n. revert value.
  induction n as [|n IH]; intros value; simpl; [done|].
  case_match; [|done]. rewrite encode_varint_loop_app, blen_app, IH. done.
Qed.

Lemma varint_len_range value : 1 <= varint_len value <= 11.
Proof.
  unfold varint_len. assert (H : forall n v, 1 <= varint_len_loop n v <= 1 + Z.of_nat n).
  { induction n as [|n IH]; intros v; simpl; [lia|]. case_match; [specialize (IH (Z.shiftr v 7))|]; lia. }
  specialize (H varint_groups value). unfold varint_groups in *. lia.
Qed.

Lemma unsigned_of_Z z : 0 <= z < 256 -> byte.unsigned (byte.of_Z z) = z.
Proof. intros. rewrite byte.unsigned_of_Z. by apply Z.mod_small. Qed.

(** The low seven bits with the continuation bit set. *)
Lemma continuation_byte v : Z.lor (v mod 256) 128 = 128 + v mod 128.
Proof.
  replace (v mod 128) with ((v mod 256) mod 128).
  2: { pose proof (Z.div_mod v 256). pose proof (Z.mod_pos_bound v 256).
       rewrite (Z.mod_eq v 128), (Z.mod_eq (v mod 256) 128) by lia.
       replace (v / 128) with (2 * (v / 256) + v mod 256 / 128); [lia|].
       symmetry. rewrite (H ltac:(lia)) at 1.
       replace (256 * (v / 256) + v mod 256) with (v mod 256 + (2 * (v / 256)) * 128) by lia.
       rewrite Z.div_add by lia. lia. }
  pose proof (Z.mod_pos_bound v 256 ltac:(lia)) as Hb. revert Hb. generalize (v mod 256). intros b Hb.
  assert (Hall : Forall (fun b => Z.lor b 128 = 128 + b mod 128) (seqZ 0 256)) by (apply (bool_decide_unpack _); vm_compute; exact I).
  rewrite Forall_forall in Hall. apply Hall, elem_of_seqZ. lia.
Qed.

(** * The wire format

    A reader of the protobuf encoding: keys and values of the fields, then the
    message they describe (absent scalars default, the last occurrence wins,
    repeated fields accumulate, packed or not, embedded messages merge). *)

Module Wire.
Fixpoint read_varint (groups : nat) (b : bytes) : option (Z * bytes) :=
  match groups, b with
  | S n, x :: b' =>
      if byte.unsigned x <? 128 then Some (byte.unsigned x, b')
      else '(high, rest) ← read_varint n b'; Some (byte.unsigned x - 128 + 128 * high, rest)
  | _, _ => None
  end.

(** A varint of more than 64 bits is malformed. *)
Definition read_u64 (b : bytes) : option (Z * bytes) :=
  '(v, rest) ← read_varint varint_groups b;
  if v <=? u64_max then Some (v, rest) else None.

Inductive value :=
| Varint (v : Z)
| Fixed64 (b : bytes)
| Delimited (b : bytes)
| Fixed32 (b : bytes).

Definition split_at (n : Z) (b : bytes) : option (bytes * bytes) :=
  if n <=? blen b then Some (btake n b, bdrop n b) else None.

Definition read_field (b : bytes) : option (Z * value * bytes) :=
  '(key, b) ← read_u64 b;
  let number := Z.shiftr key 3 in
  match Z.land key 7 with
  | 0 => '(v, b) ← read_u64 b; Some (number, Varint v, b)
  | 1 => '(v, b) ← split_at 8 b; Some (number, Fixed64 v, b)
  | 2 => '(n, b) ← read_u64 b; '(v, b) ← split_at n b; Some (number, Delimited v, b)
  | 5 => '(v, b) ← split_at 4 b; Some (number, Fixed32 v, b)
  | _ => None
  end.

Fixpoint read_fields (fuel : nat) (b : bytes) : option (list (Z * value)) :=
  match b with
  | [] => Some []
  | _ :: _ =>
      match fuel with
      | O => None
      | S f => '(field, rest) ← read_field b; cons field <$> read_fields f rest
      end
  end.

Fixpoint read_packed (fuel : nat) (b : bytes) : option (list Z) :=
  match b with
  | [] => Some []
  | _ :: _ =>
      match fuel with
      | O => None
      | S f => '(v, rest) ← read_u64 b; cons v <$> read_packed f rest
      end
  end.

Definition empty_id : MessageIdData := mkMessageIdData 0 0 None None [] None None.

Definition set_field (merge : MessageIdData -> bytes -> option MessageIdData)
    (m : MessageIdData) (f : Z * value) : option MessageIdData :=
  let 'mkMessageIdData l e p bi acks bs fc := m in
  match f with
  | (1, Varint v) => Some (mkMessageIdData v e p bi acks bs fc)
  | (2, Varint v) => Some (mkMessageIdData l v p bi acks bs fc)
  | (3, Varint v) => Some (mkMessageIdData l e (Some (as_signed 32 v)) bi acks bs fc)
  | (4, Varint v) => Some (mkMessageIdData l e p (Some (as_signed 32 v)) acks bs fc)
  | (5, Varint v) => Some (mkMessageIdData l e p bi (acks ++ [as_signed 64 v]) bs fc)
  | (5, Delimited b) =>
      vs ← read_packed (length b) b;
      Some (mkMessageIdData l e p bi (acks ++ (as_signed 64 <$> vs)) bs fc)
  | (6, Varint v) => Some (mkMessageIdData l e p bi acks (Some (as_signed 32 v)) fc)
  | (7, Delimited b) =>
      c ← merge (default empty_id fc) b; Some (mkMessageIdData l e p bi acks bs (Some c))
  | (n, _) => if (1 <=? n) && (n <=? 7) then None else Some m
  end.

Fixpoint set_fields (merge : MessageIdData -> bytes -> option MessageIdData)
    (m : MessageIdData) (fs : list (Z * value)) : option MessageIdData :=
  match fs with
  | [] => Some m
  | f :: fs' => m' ← set_field merge m f; set_fields merge m' fs'
  end.

(** [depth] bounds the nesting of embedded messages. *)
Fixpoint merge_id (depth : nat) (m : MessageIdData) (b : bytes) : option MessageIdData :=
  match depth with
  | O => None
  | S d => fs ← read_fields (length b) b; set_fields (merge_id d) m fs
  end.

Definition decode (b : bytes) : option MessageIdData := merge_id 100 empty_id b.
End Wire.

Module WireLaws.
Import Wire.

Lemma read_varint_loop n v rest :
  0 <= v < 2 ^ (7 * Z.of_nat n) -> (0 < n)%nat ->
  read_varint n (encode_varint_loop n [] v ++ rest) = Some (v, rest).
Proof.
  revert v. induction n as [|n IH]; intros v Hv Hn; [lia|]. simpl encode_varint_loop.
  destruct (v >=? 128) eqn:Hc.
  - rewrite encode_varint_loop_app, continuation_byte. simpl.
    pose proof (Z.mod_pos_bound v 128).
    rewrite unsigned_of_Z by lia.
    destruct (128 + v mod 128 <? 128) eqn:E; [lia|].
    rewrite Z.shiftr_div_pow2 by lia. change (2 ^ 7) with 128.
    destruct (decide (n = 0%nat)) as [->|Hn0]; [change (2 ^ _) with 128 in Hv; lia|].
    rewrite IH; [|split; [apply Z.div_pos; lia|]|lia].
    + simpl. repeat f_equal. pose proof (Z.div_mod v 128). lia.
    + apply Z.div_lt_upper_bound; [lia|]. replace (128 * 2 ^ (7 * Z.of_nat n)) with (2 ^ (7 * Z.of_nat (S n))); [lia|].
      change 128 with (2 ^ 7). rewrite <- Z.pow_add_r by lia. f_equal. lia.
  - simpl. rewrite Z.mod_small, unsigned_of_Z by lia. destruct (v <? 128) eqn:E; [done|lia].
Qed.

Lemma read_encode_varint v rest : u64_ok v -> read_u64 (encode_varint [] v ++ rest) = Some (v, rest).
Proof.
  intros Hv. unfold read_u64. rewrite read_varint_loop; [|unfold varint_groups|unfold varint_groups; lia].
  - cbn [mbind option_bind]. by rewrite (proj2 (Z.leb_le _ _)) by apply Hv.
  - unfold u64_ok, u64_max in *. assert (2 ^ 64 < 2 ^ (7 * Z.of_nat 10)); lia.
Qed.

(** The bytes of a field. *)
Definition field_bytes (f : Z * value) : bytes :=
  match f with
  | (n, Varint v) => encode_varint (encode_varint [] (Z.shiftl n 3)) v
  | (n, Delimited b) => encode_varint (encode_varint [] (Z.lor (Z.shiftl n 3) 2)) (blen b) ++ b
  | _ => []
  end.

Definition field_ok (f : Z * value) : Prop :=
  1 <= f.1 <= 7 /\ match f.2 with
                   | Varint v => u64_ok v
                   | Delimited b => u64_ok (blen b)
                   | _ => False
                   end.

Lemma key_parts n : 1 <= n <= 7 ->
  u64_ok (Z.shiftl n 3) /\ Z.shiftr (Z.shiftl n 3) 3 = n /\ Z.land (Z.shiftl n 3) 7 = 0
  /\ u64_ok (Z.lor (Z.shiftl n 3) 2) /\ Z.shiftr (Z.lor (Z.shiftl n 3) 2) 3 = n
  /\ Z.land (Z.lor (Z.shiftl n 3) 2) 7 = 2.
Proof.
  intros Hn. assert (n = 1 \/ n = 2 \/ n = 3 \/ n = 4 \/ n = 5 \/ n = 6 \/ n = 7) by lia.
  unfold u64_ok, u64_max. by destruct_or!; subst n.
Qed.

Lemma read_field_bytes f rest : field_ok f -> read_field (field_bytes f ++ rest) = Some (f, rest).
Proof.
  destruct f as [n v]. intros [Hn Hv]. simpl in *.
  destruct (key_parts n Hn) as (H1 & H2 & H3 & H4 & H5 & H6).
  unfold read_field. destruct v as [v| |b|]; try done; simpl field_bytes;
    rewrite (encode_varint_app (encode_varint [] _)), <- ?app_assoc, read_encode_varint by done; cbn [mbind option_bind].
  - rewrite H3, H2, read_encode_varint by done. done.
  - rewrite H6, H5, read_encode_varint by done. cbn [mbind option_bind].
    unfold split_at. rewrite blen_app. pose proof (blen_nonneg rest).
    destruct (blen b <=? _) eqn:E; [|lia]. simpl. by rewrite btake_app, bdrop_app.
Qed.

Lemma field_bytes_ne f : field_ok f -> (0 < length (field_bytes f))%nat.
Proof.
  assert (Hv : forall v, (0 < length (encode_varint [] v))%nat).
  { intros v. pose proof (varint_len_range v) as H. rewrite <- blen_encode_varint in H.
    unfold blen in H. lia. }
  destruct f as [n [v| |b|]]; intros [_ ?]; try done; simpl;
    rewrite (encode_varint_app (encode_varint [] _)), ?length_app;
    [specialize (Hv v)|specialize (Hv (blen b))]; lia.
Qed.

Lemma read_fields_bytes fs fuel :
  Forall field_ok fs -> (length (concat (field_bytes <$> fs)) <= fuel)%nat ->
  read_fields fuel (concat (field_bytes <$> fs)) = Some fs.
Proof.
  intros Hfs. revert fuel. induction Hfs as [|f fs Hf _ IH]; intros fuel Hl; [by destruct fuel|].
  csimpl in *. rewrite length_app in Hl. pose proof (field_bytes_ne f Hf) as Hne.
  pose proof (read_field_bytes f (concat (field_bytes <$> fs)) Hf) as Hr.
  destruct fuel as [|fuel]; [lia|].
  destruct (field_bytes f ++ _) as [|x l] eqn:E; [apply (f_equal length) in E; rewrite length_app in E; simpl in E; lia|].
  simpl. rewrite Hr. simpl. rewrite IH by lia. done.
Qed.

(** ** What the writer writes *)

Definition option_field (n : Z) (o : option Z) : list (Z * value) :=
  match o with Some v => [(n, Varint (signed_i32_varint v))] | None => [] end.

Definition scalar_fields (m : MessageIdData) : list (Z * value) :=
  [(1, Varint (pb_ledger_id m)); (2, Varint (pb_entry_id m))]
  ++ option_field 3 (pb_partition m) ++ option_field 4 (pb_batch_index m)
  ++ ((fun w => (5, Varint (as_unsigned 64 w))) <$> pb_ack_set m)
  ++ option_field 6 (pb_batch_size m).

(** The protobuf bytes of an id, fields in tag order. *)
Fixpoint id_bytes (m : MessageIdData) : bytes :=
  concat (field_bytes <$> scalar_fields m
          ++ match pb_first_chunk m with
             | Some c => [(7, Delimited (id_bytes c))]
             | None => []
             end).

Lemma encode_varint_field_bytes target n v :
  encode_varint_field target n v = target ++ field_bytes (n, Varint v).
Proof.
  unfold encode_varint_field. simpl field_bytes.
  rewrite (encode_varint_app (encode_varint _ _)), (encode_varint_app target).
  rewrite (encode_varint_app (encode_varint [] _)). by rewrite <- app_assoc.
Qed.

Lemma encode_option_field_bytes target n o :
  encode_option_field target n o = target ++ concat (field_bytes <$> option_field n o).
Proof.
  destruct o as [v|]; [|by rewrite app_nil_r]. unfold encode_option_field, option_field.
  rewrite encode_varint_field_bytes. cbn [concat fmap list_fmap]. by rewrite app_nil_r.
Qed.

Lemma encode_acks_bytes target acks :
  foldl (fun e w => encode_varint_field e 5 (as_unsigned 64 w)) target acks
  = target ++ concat (field_bytes <$> ((fun w => (5, Varint (as_unsigned 64 w))) <$> acks)).
Proof.
  revert target. induction acks as [|w acks IH]; intros target; [by rewrite app_nil_r|].
  csimpl. rewrite IH, encode_varint_field_bytes. by rewrite <- app_assoc.
Qed.

Lemma encode_scalars_bytes target m :
  encode_option_field
    (foldl (fun e w => encode_varint_field e 5 (as_unsigned 64 w))
       (encode_option_field
          (encode_option_field
             (encode_varint_field (encode_varint_field target 1 (pb_ledger_id m)) 2 (pb_entry_id m))
             3 (pb_partition m)) 4 (pb_batch_index m)) (pb_ack_set m)) 6 (pb_batch_size m)
  = target ++ concat (field_bytes <$> scalar_fields m).
Proof.
  unfold scalar_fields.
  rewrite !encode_option_field_bytes, encode_acks_bytes, !encode_varint_field_bytes.
  rewrite !fmap_app, !concat_app. change (field_bytes <$> [?a; ?b]) with [field_bytes a; field_bytes b].
  cbn [concat]. rewrite app_nil_r, <- !app_assoc. done.
Qed.

(** ** Its length *)

Definition total (l : list Z) : Z := foldr Z.add 0 l.

Lemma total_app l k : total (l ++ k) = total l + total k.
Proof. induction l as [|x l IH]; simpl; lia. Qed.

Lemma blen_concat {A} (l : list (list A)) : blen (concat l) = total (blen <$> l).
Proof. induction l as [|x l IH]; [done|]. csimpl. by rewrite blen_app, IH. Qed.

Lemma blen_varint_field n v : blen (field_bytes (n, Varint v)) = varint_field_len n v.
Proof.
  simpl. rewrite encode_varint_app, blen_app, !blen_encode_varint. done.
Qed.

Lemma varint_field_len_pos n v : 0 <= varint_field_len n v <= 22.
Proof.
  unfold varint_field_len. pose proof (varint_len_range v).
  pose proof (varint_len_range (Z.shiftl n 3)). lia.
Qed.

Lemma total_nonneg l : Forall (fun x => 0 <= x) l -> 0 <= total l.
Proof. induction 1; simpl; lia. Qed.

Lemma checked_len_add_ok l x n :
  0 <= l <= MAX_ORDINARY_MESSAGE_ID_SIZE -> 0 <= x ->
  checked_ordinary_id_len_add l x = Ok n <-> n = l + x /\ n <= MAX_ORDINARY_MESSAGE_ID_SIZE.
Proof.
  intros Hl Hx. unfold checked_ordinary_id_len_add, checked_add.
  assert (MAX_ORDINARY_MESSAGE_ID_SIZE < usize_max) by done.
  destruct (l + x <=? usize_max) eqn:E; simpl.
  - destruct (l + x >? _) eqn:F; split; [done|lia|intros [= <-]; lia|intros [-> _]; done].
  - split; [done|lia].
Qed.

Lemma add_lens_ok l fs n :
  0 <= l <= MAX_ORDINARY_MESSAGE_ID_SIZE -> Forall (fun x => 0 <= x) fs ->
  add_ordinary_lens l fs = Ok n <-> n = l + total fs /\ n <= MAX_ORDINARY_MESSAGE_ID_SIZE.
Proof.
  intros Hl Hfs. revert l Hl. induction Hfs as [|x fs Hx Hfs IH]; intros l Hl; simpl.
  - split; [intros [= <-]; lia|intros [-> _]; f_equal; lia].
  - pose proof (total_nonneg fs Hfs). split.
    + intros Ha. inv_ok. apply checked_len_add_ok in Hr as [-> Hr]; [|done..].
      apply IH in Ha as [-> Hn]; [|lia]. lia.
    + intros [-> Hn]. rewrite (proj2 (checked_len_add_ok l x (l + x) Hl Hx)) by lia. simpl.
      apply IH; lia.
Qed.

Lemma add_lens_small l fs :
  0 <= l -> Forall (fun x => 0 <= x) fs -> l + total fs <= MAX_ORDINARY_MESSAGE_ID_SIZE ->
  add_ordinary_lens l fs = Ok (l + total fs).
Proof. intros Hl Hfs Hn. pose proof (total_nonneg fs Hfs). by apply add_lens_ok; [lia|..]. Qed.

Lemma scalar_fields_len m :
  blen (concat (field_bytes <$> scalar_fields m))
  = varint_field_len 1 (pb_ledger_id m) + varint_field_len 2 (pb_entry_id m)
    + total (flatten_options
               [(fun v => varint_field_len 3 (signed_i32_varint v)) <$> pb_partition m;
                (fun v => varint_field_len 4 (signed_i32_varint v)) <$> pb_batch_index m;
                (fun v => varint_field_len 6 (signed_i32_varint v)) <$> pb_batch_size m])
    + total ((fun w => varint_field_len 5 (as_unsigned 64 w)) <$> pb_ack_set m).
Proof.
  rewrite blen_concat. unfold scalar_fields. rewrite !fmap_app, !total_app.
  assert (Ho : forall n o, total (blen <$> (field_bytes <$> option_field n o))
      = from_option (fun v => varint_field_len n (signed_i32_varint v)) 0 o).
  { intros n [v|]; [|done]. cbn [option_field fmap list_fmap total foldr from_option].
    rewrite blen_varint_field. lia. }
  rewrite !Ho. cbn [fmap list_fmap total foldr]. rewrite !blen_varint_field.
  replace (total (blen <$> _)) with (total ((fun w => varint_field_len 5 (as_unsigned 64 w)) <$> pb_ack_set m)).
  - unfold flatten_options. destruct (pb_partition m), (pb_batch_index m), (pb_batch_size m); simpl; lia.
  - f_equal. rewrite <- !list_fmap_compose. apply list_fmap_ext. intros i w _. simpl.
    symmetry. apply blen_varint_field.
Qed.

Lemma id_bytes_len m :
  blen (id_bytes m) = blen (concat (field_bytes <$> scalar_fields m))
    + match pb_first_chunk m with
      | Some c => varint_len first_chunk_key + varint_len (blen (id_bytes c)) + blen (id_bytes c)
      | None => 0
      end.
Proof.
  destruct m as [l e p bi a bs [c|]]; cbn [id_bytes pb_first_chunk]; rewrite fmap_app, concat_app, blen_app; [|done].
  f_equal. cbn [fmap list_fmap concat]. rewrite app_nil_r. cbn [field_bytes].
  rewrite blen_app, encode_varint_app, blen_app, !blen_encode_varint. done.
Qed.

(** The length computed before writing is the length of the bytes, and it is
    refused exactly above the limit. *)
Lemma canonical_len_exact m n :
  canonical_ordinary_id_len m = Ok n
  <-> n = blen (id_bytes m) /\ n <= MAX_ORDINARY_MESSAGE_ID_SIZE.
Proof.
  revert n. induction m as [m IH] using id_ind. intros n. rewrite id_bytes_len, scalar_fields_len.
  destruct m as [l e p bi acks bs fc].
  cbn [canonical_ordinary_id_len pb_ledger_id pb_entry_id pb_partition pb_batch_index pb_ack_set
       pb_batch_size pb_first_chunk] in *.
  set (L1 := flatten_options _). set (L2 := _ <$> acks).
  assert (HL1 : Forall (fun x => 0 <= x) L1).
  { apply Forall_forall. intros x [o [Ho Hx]]%list_elem_of_omap. unfold id in Hx. subst o.
    rewrite !elem_of_cons in Ho.
    destruct Ho as [Ho|[Ho|[Ho|Ho%elem_of_nil]]]; [| | |done]; symmetry in Ho;
      apply fmap_Some in Ho as (v & _ & ->); apply varint_field_len_pos. }
  assert (HL2 : Forall (fun x => 0 <= x) L2).
  { apply Forall_fmap, Forall_true. intros w. apply varint_field_len_pos. }
  pose proof (varint_field_len_pos 1 l) as H1. pose proof (varint_field_len_pos 2 e) as H2.
  clearbody L1 L2. revert H1 H2. generalize (varint_field_len 1 l), (varint_field_len 2 e). intros x y Hx Hy.
  pose proof (total_nonneg _ HL1) as HT1. pose proof (total_nonneg _ HL2) as HT2.
  assert (Hmax : 44 < MAX_ORDINARY_MESSAGE_ID_SIZE < usize_max) by done.
  rewrite (checked_add_small usize_max x y) by lia. cbn [ok_or mbind result_bind].
  destruct fc as [c|]; [specialize (IH : forall n, canonical_ordinary_id_len c = Ok n <-> _)|]; split.
  - intros H. inv_ok. apply add_lens_ok in Hr as [-> Hr]; [|lia|done].
    apply add_lens_ok in Hr0 as [-> Hr0]; [|lia|done]. apply IH in Hr1 as [-> Hr1].
    pose proof (blen_nonneg (id_bytes c)). apply bind_Some in Hr3 as (z & Hz & Hr3).
    apply try_from_max_Some in Hr2 as [-> _]. apply checked_add_Some in Hz as [-> _], Hr3 as [-> _].
    pose proof (varint_len_range first_chunk_key). pose proof (varint_len_range (blen (id_bytes c))).
    apply checked_len_add_ok in H as [-> ?]; lia.
  - intros [-> Hn]. pose proof (blen_nonneg (id_bytes c)).
    pose proof (varint_len_range first_chunk_key). pose proof (varint_len_range (blen (id_bytes c))).
    rewrite (add_lens_small (x + y)) by (done || lia). cbn [mbind result_bind].
    rewrite add_lens_small by (done || lia). cbn [mbind result_bind].
    rewrite (proj2 (IH (blen (id_bytes c)))) by (split; [done|lia]). cbn [mbind result_bind].
    rewrite (proj2 (try_from_max_Some u64_max _ (blen (id_bytes c))))
      by (split; [done|]; change u64_max with usize_max; lia).
    cbn [ok_or mbind result_bind option_bind]. rewrite !checked_add_small by lia.
    cbn [ok_or mbind result_bind option_bind]. rewrite !checked_add_small by lia.
    cbn [ok_or mbind result_bind option_bind].
    apply checked_len_add_ok; lia.
  - intros H. inv_ok. apply add_lens_ok in Hr as [-> Hr]; [|lia|done].
    apply add_lens_ok in Hr0 as [-> Hr0]; [|lia|done]. lia.
  - intros [-> Hn].
    rewrite (add_lens_small (x + y)) by (done || lia). cbn [mbind result_bind].
    rewrite add_lens_small by (done || lia). cbn [mbind result_bind].
    f_equal. lia.
Qed.

Lemma encode_into_bytes m target n :
  canonical_ordinary_id_len m = Ok n ->
  encode_canonical_ordinary_id_into target m = Ok (target ++ id_bytes m).
Proof.
  revert target n. induction m as [m IH] using id_ind. intros target n Hn.
  pose proof (encode_scalars_bytes target m) as Hs.
  apply canonical_len_exact in Hn as [-> Hn]. rewrite id_bytes_len in Hn.
  pose proof (blen_nonneg (concat (field_bytes <$> scalar_fields m))) as Hp.
  destruct m as [l e p bi acks bs fc]. cbn [encode_canonical_ordinary_id_into id_bytes pb_ledger_id pb_entry_id
    pb_partition pb_batch_index pb_ack_set pb_batch_size pb_first_chunk] in *.
  rewrite Hs. destruct fc as [c|]; [|by rewrite app_nil_r].
  pose proof (varint_len_range first_chunk_key). pose proof (varint_len_range (blen (id_bytes c))).
  assert (Hc : canonical_ordinary_id_len c = Ok (blen (id_bytes c)))
    by (apply canonical_len_exact; split; [done|lia]).
  rewrite Hc. cbn [mbind result_bind].
  rewrite (proj2 (try_from_max_Some u64_max _ (blen (id_bytes c))))
    by (split; [done|]; assert (MAX_ORDINARY_MESSAGE_ID_SIZE < u64_max) by done; lia).
  cbn [ok_or mbind result_bind].
  rewrite (IH _ _ Hc), fmap_app, concat_app. cbn [fmap list_fmap concat field_bytes].
  rewrite app_nil_r, (encode_varint_app (encode_varint _ _)), (encode_varint_app (_ ++ _)).
  rewrite (encode_varint_app (encode_varint [] _)), <- !app_assoc. done.
Qed.

(** An id is written exactly when its bytes fit the limit, and the result is the
    protobuf encoding of the message. *)
Lemma encode_canonical_exact m enc :
  encode_canonical_ordinary_id m = Ok enc
  <-> enc = id_bytes m /\ blen enc <= MAX_ORDINARY_MESSAGE_ID_SIZE.
Proof.
  unfold encode_canonical_ordinary_id. split.
  - intros H. inv_ok. rewrite (encode_into_bytes _ _ _ Hr) in H. apply canonical_len_exact in Hr as [-> Hr].
    by inv_ok.
  - intros [-> Hn]. assert (Hl : canonical_ordinary_id_len m = Ok (blen (id_bytes m)))
      by by apply canonical_len_exact.
    rewrite Hl. simpl. by erewrite encode_into_bytes.
Qed.

(** ** Reading it back *)

Fixpoint nesting (m : MessageIdData) : nat :=
  match pb_first_chunk m with Some c => S (nesting c) | None => 0 end.

Lemma signed32 v : i32_ok v -> as_signed 32 (signed_i32_varint v) = v.
Proof.
  intros Hv. rewrite <- (as_unsigned_signed 32 v) at 2 by (unfold i32_ok in Hv; lia).
  unfold signed_i32_varint, as_signed, as_unsigned.
  rewrite Z.mod_mod_divide by (exists (2 ^ 32); done). by rewrite Z.mod_mod by lia.
Qed.

Lemma signed64 v : i64_ok v -> as_signed 64 (as_unsigned 64 v) = v.
Proof. intros Hv. apply as_unsigned_signed; [lia|done]. Qed.

Lemma as_unsigned64_ok v : u64_ok (as_unsigned 64 v).
Proof. unfold u64_ok, as_unsigned, u64_max. pose proof (Z.mod_pos_bound v (2 ^ 64)). lia. Qed.

Lemma set_fields_app merge m fs gs :
  set_fields merge m (fs ++ gs) = (m' ← set_fields merge m fs; set_fields merge m' gs).
Proof.
  revert m. induction fs as [|f fs IH]; intros m; [done|]. simpl.
  destruct (set_field merge m f); simpl; [apply IH|done].
Qed.

Lemma set_acks merge l e p bi acks acks' bs fc :
  Forall i64_ok acks ->
  set_fields merge (mkMessageIdData l e p bi acks' bs fc) ((fun w => (5, Varint (as_unsigned 64 w))) <$> acks)
  = Some (mkMessageIdData l e p bi (acks' ++ acks) bs fc).
Proof.
  intros Ha. revert acks'. induction Ha as [|w acks Hw _ IH]; intros acks'; [by rewrite app_nil_r|].
  csimpl. rewrite signed64 by done. rewrite IH. by rewrite <- app_assoc.
Qed.

Lemma set_scalars merge m :
  id_fields_ok m ->
  set_fields merge empty_id (scalar_fields m)
  = Some (mkMessageIdData (pb_ledger_id m) (pb_entry_id m) (pb_partition m) (pb_batch_index m)
            (pb_ack_set m) (pb_batch_size m) None).
Proof.
  destruct m as [l e p bi acks bs fc]. intros (Hl & He & Hp & Hbi & Ha & Hbs & _). unfold scalar_fields.
  cbn [pb_ledger_id pb_entry_id pb_partition pb_batch_index pb_ack_set pb_batch_size] in *.
  unfold empty_id.
  destruct p as [p|], bi as [bi|]; cbn [from_option] in *;
    cbn [set_fields set_field option_field mbind option_bind app]; rewrite ?signed32 by done;
    rewrite set_fields_app, set_acks by done; destruct bs as [bs|]; simpl in *; rewrite ?signed32 by done; done.
Qed.

Lemma scalar_fields_ok m : id_fields_ok m -> Forall field_ok (scalar_fields m).
Proof.
  destruct m as [l e p bi acks bs fc]. intros (Hl & He & Hp & Hbi & Ha & Hbs & _). unfold scalar_fields.
  assert (Ho : forall n o, 1 <= n <= 7 -> Forall field_ok (option_field n o)).
  { intros n [v|] Hn; [|constructor]. repeat constructor; simpl; try lia; apply as_unsigned64_ok. }
  rewrite !Forall_app. split_and!; [|apply Ho; lia..| |apply Ho; lia].
  - repeat constructor; simpl; try lia; apply Hl || apply He.
  - apply Forall_fmap, Forall_true. intros w. split; simpl; [lia|apply as_unsigned64_ok].
Qed.

Lemma merge_id_bytes m depth :
  id_fields_ok m -> blen (id_bytes m) <= MAX_ORDINARY_MESSAGE_ID_SIZE -> (nesting m < depth)%nat ->
  merge_id depth empty_id (id_bytes m) = Some m.
Proof.
  revert depth. induction m as [m IH] using id_ind. intros [|depth] Hok Hn Hd; [lia|].
  rewrite id_bytes_len in Hn. pose proof (scalar_fields_ok m Hok) as Hf.
  pose proof (set_scalars (merge_id depth) m Hok) as Hs.
  pose proof (blen_nonneg (concat (field_bytes <$> scalar_fields m))) as Hp.
  destruct m as [l e p bi acks bs fc]. cbn [merge_id id_bytes nesting pb_first_chunk id_fields_ok] in *.
  assert (Hc : Forall field_ok match fc with Some c => [(7, Delimited (id_bytes c))] | None => [] end).
  { destruct fc as [c|]; [|constructor]. repeat constructor; simpl; try lia; [apply blen_nonneg|].
    pose proof (varint_len_range first_chunk_key). pose proof (varint_len_range (blen (id_bytes c))).
    assert (MAX_ORDINARY_MESSAGE_ID_SIZE < u64_max) by done. lia. }
  rewrite read_fields_bytes by (done || by apply Forall_app). cbn [mbind option_bind].
  rewrite set_fields_app, Hs. destruct fc as [c|]; [|done]. cbn [mbind option_bind set_fields set_field default].
  pose proof (varint_len_range first_chunk_key). pose proof (varint_len_range (blen (id_bytes c))).
  cbn [from_option id]. rewrite IH; [done|by destruct Hok as (_ & _ & _ & _ & _ & _ & ?)|lia|lia].
Qed.

Lemma validate_nesting m : validate_ordinary_id m false = Ok tt -> (nesting m <= 1)%nat.
Proof.
  destruct m as [l e p bi acks bs [c|]]; [|simpl; lia]. cbn [validate_ordinary_id pb_first_chunk orb].
  intros H. inv_ok. destruct (pb_first_chunk c) eqn:E; [done|]. destruct c as [? ? ? ? ? ? fc]. simpl in *. subst fc. simpl. lia.
Qed.

Lemma decode_canonical m enc :
  id_fields_ok m -> validate_ordinary_id m false = Ok tt -> encode_canonical_ordinary_id m = Ok enc ->
  decode enc = Some m.
Proof.
  intros Hok Hv [-> Hn]%encode_canonical_exact. apply validate_nesting in Hv.
  apply merge_id_bytes; [done..|lia].
Qed.

(** ** What it reads is typed *)

Lemma as_signed_range w z : 0 < w -> - 2 ^ (w - 1) <= as_signed w z < 2 ^ (w - 1).
Proof.
  intros Hw. unfold as_signed. pose proof (Z.mod_pos_bound z (2 ^ w) ltac:(lia)).
  assert (2 ^ w = 2 * 2 ^ (w - 1)).
  { replace w with (Z.succ (w - 1)) at 1 by lia. rewrite Z.pow_succ_r; lia. }
  case_match; lia.
Qed.

Lemma read_varint_nonneg n b v rest : read_varint n b = Some (v, rest) -> 0 <= v.
Proof.
  revert b v. induction n as [|n IH]; intros [|x b] v; simpl; try done.
  pose proof (byte.unsigned_range x). case_match.
  - intros [= <- _]. lia.
  - intros ([h r] & Hh & [= <- <-])%bind_Some. apply IH in Hh. lia.
Qed.

Lemma read_u64_ok b v rest : read_u64 b = Some (v, rest) -> u64_ok v.
Proof.
  unfold read_u64. intros ([w r] & Hw & H)%bind_Some. case_match; simplify_eq.
  split; [by eapply read_varint_nonneg|lia].
Qed.

Definition value_ok (v : value) : Prop := match v with Varint v => u64_ok v | _ => True end.

Lemma read_fields_ok fuel b fs : read_fields fuel b = Some fs -> Forall (fun f => value_ok f.2) fs.
Proof.
  revert b fs. induction fuel as [|fuel IH]; intros [|x b] fs; simpl; try (intros [= <-]; constructor); try done.
  intros ([[f v] rest] & Hf & H)%bind_Some. apply fmap_Some in H as (fs' & Hfs & ->).
  constructor; [|by eapply IH]. unfold read_field in Hf. apply bind_Some in Hf as ([key b'] & _ & Hf). simpl.
  repeat case_match; try done; apply bind_Some in Hf as ([w r] & Hw & Hf); simplify_eq/=; try done;
    first [by eapply read_u64_ok|by apply bind_Some in Hf as ([] & _ & [= <- <- <-])].
Qed.

Lemma set_field_ok merge m f m' :
  (forall c b c', id_fields_ok c -> merge c b = Some c' -> id_fields_ok c') ->
  id_fields_ok m -> value_ok f.2 -> set_field merge m f = Some m' -> id_fields_ok m'.
Proof.
  intros Hm Hok Hv. pose proof (as_signed_range 32) as H32. pose proof (as_signed_range 64) as H64.
  assert (He : id_fields_ok empty_id) by (repeat split; simpl; done || constructor).
  destruct m as [l e p bi acks bs fc]. destruct Hok as (Hl & Hen & Hp & Hbi & Ha & Hbs & Hfc).
  cbn [pb_ledger_id pb_entry_id pb_partition pb_batch_index pb_ack_set pb_batch_size pb_first_chunk] in *.
  unfold set_field. destruct f as [n v]. simpl in Hv.
  repeat case_match; intros H'; simplify_eq; try apply bind_Some in H' as (c & Hc & [= <-]);
    cbn [id_fields_ok pb_ledger_id pb_entry_id pb_partition pb_batch_index pb_ack_set pb_batch_size
         pb_first_chunk from_option]; split_and!; try done; try (apply H32; lia).
  all: try (apply Forall_app; split; [done|]; try (apply Forall_fmap, Forall_true; intros w); repeat constructor; apply H64; lia).
  all: by eapply Hm; [|done].
Qed.

Lemma set_fields_ok merge m fs m' :
  (forall c b c', id_fields_ok c -> merge c b = Some c' -> id_fields_ok c') ->
  id_fields_ok m -> Forall (fun f => value_ok f.2) fs -> set_fields merge m fs = Some m' -> id_fields_ok m'.
Proof.
  intros Hm Hok Hfs. revert m Hok. induction Hfs as [|f fs Hf _ IH]; intros m Hok; simpl; [by intros [= <-]|].
  intros (m1 & Hm1 & H)%bind_Some. eapply IH; [|done]. by eapply set_field_ok.
Qed.

Lemma merge_id_ok depth m b m' : id_fields_ok m -> merge_id depth m b = Some m' -> id_fields_ok m'.
Proof.
  revert m b m'. induction depth as [|d IH]; intros m b m' Hok; [done|]. simpl.
  intros (fs & Hfs & H)%bind_Some. eapply set_fields_ok; [|done| |done]; [eauto|by eapply read_fields_ok].
Qed.

Lemma decode_typed b m : decode b = Some m -> id_fields_ok m.
Proof. apply merge_id_ok. repeat split; simpl; done || constructor. Qed.
End WireLaws.
