(* ===== verification/StreamPosition.v ===== *)
(** * Stream positions

    [stream_position.rs]: the [MSTR] v1 envelope of a source-qualified message id
    ([StreamMessageId]) and of a vector of positions, one per segment source
    ([PositionVector]).  The theorems show that the codec is exact: what is
    accepted is what the encoder produces, byte for byte. *)

From S2P Require Import Prelude Ids SegmentTopic OrdinaryId.
From Stdlib Require Import Ascii.

(** * Strings as bytes *)

(** [str::as_bytes] *)
Definition as_bytes (s : str) : bytes := byte_of_ascii <$> s.

(** [core::str::from_utf8]: the well-formed byte sequences of Unicode. *)
Definition in_range (lo hi : Z) (x : byte) : bool := (lo <=? byte.unsigned x) && (byte.unsigned x <=? hi).
Definition continuation : byte -> bool := in_range 128 191.

Fixpoint utf8_valid (b : bytes) : bool :=
  match b with
  | [] => true
  | x :: r =>
      if in_range 0 127 x then utf8_valid r
      else match r with
      | y :: r2 =>
          if in_range 194 223 x then continuation y && utf8_valid r2
          else match r2 with
          | z :: r3 =>
              if in_range 224 239 x then
                (if in_range 224 224 x then in_range 160 191 y
                 else if in_range 237 237 x then in_range 128 159 y else continuation y)
                && continuation z && utf8_valid r3
              else match r3 with
              | w :: r4 =>
                  if in_range 240 244 x then
                    (if in_range 240 240 x then in_range 144 191 y
                     else if in_range 244 244 x then in_range 128 143 y else continuation y)
                    && continuation z && continuation w && utf8_valid r4
                  else false
              | [] => false
              end
          | [] => false
          end
      | [] => false
      end
  end.

Definition from_utf8 (b : bytes) : option str :=
  if utf8_valid b then Some (ascii_of_byte <$> b) else None.

(** * Keys *)

#[global] Instance SegmentSource_eq_dec : EqDecision SegmentSource.
Proof. solve_decision. Defined.

(** The derived [Ord]: segment id, topic bytes, key range; the end of the topic
    sorts before any byte. *)
Definition source_key (s : SegmentSource) : list Z :=
  src_segment_id s :: ((fun c => 1 + Z.of_N (N_of_ascii c)) <$> src_topic s) ++ 0 :: kr_fields (src_key_range s).

#[global] Instance source_key_inj : Inj (=) (=) source_key.
Proof.
  intros [i t r] [i' t' r']. unfold source_key. simpl. intros [= -> H].
  assert (t = t' /\ kr_fields r = kr_fields r') as [-> Hr].
  { revert t' H. induction t as [|c t IH]; intros [|c' t']; csimpl; intros [=]; try done; try lia.
    - split; [done|]. by unfold kr_fields; f_equal; [|f_equal].
    - destruct (IH t') as [-> ?]; [done|]. split; [|done]. f_equal.
      assert (N_of_ascii c = N_of_ascii c') as Hc by lia.
      rewrite <- (ascii_N_embedding c), <- (ascii_N_embedding c'). by rewrite Hc. }
  by apply (inj kr_fields) in Hr as ->.
Qed.

#[global] Instance SegmentSource_ord : OrdKey SegmentSource := {| ord_key := source_key |}.

Definition source_encode (s : SegmentSource) : Z * list N * (Z * Z) :=
  (src_segment_id s, N_of_ascii <$> src_topic s, (kr_start (src_key_range s), kr_end (src_key_range s))).

Definition source_decode (x : Z * list N * (Z * Z)) : SegmentSource :=
  let '(i, t, (a, b)) := x in mkSegmentSource i (ascii_of_N <$> t) (mkKeyRange a b).

#[global] Instance SegmentSource_countable : Countable SegmentSource.
Proof.
  refine (inj_countable' source_encode source_decode _). intros [i t [a b]]. simpl. f_equal.
  rewrite <- list_fmap_compose. rewrite <- (list_fmap_id t) at 2. apply list_fmap_ext.
  intros _ c _. apply ascii_N_embedding.
Defined.

(** * Canonical ids *)

Record CanonicalMessageId := mkCanonical {
  projected : MessageId;
  encoded : bytes;
}.

Definition HEADER_LEN : Z := 12.
Definition MAGIC : bytes := as_bytes (lit "MSTR").
Definition VERSION : Z := 1.
Definition STREAM_MESSAGE_ID_KIND : Z := 1.
Definition POSITION_VECTOR_KIND : Z := 2.

Record StreamMessageId := mkStreamMessageId {
  smi_source : SegmentSource;
  smi_ordinary : CanonicalMessageId;
}.

Record PositionVector := mkPositionVector {
  pv_layout_epoch : Z;
  pv_components : gmap SegmentSource CanonicalMessageId;
}.

(** * Cursor *)

Record Cursor := mkCursor { cur_bytes : bytes; cur_offset : Z }.

Definition Cursor_new (b : bytes) : Cursor := mkCursor b 0.

(** [slice.get(start..end)] *)
Definition slice_get (b : bytes) (start end_ : Z) : option bytes :=
  if (start <=? end_) && (end_ <=? blen b) then Some (btake (end_ - start) (bdrop start b)) else None.

Definition cursor_take (length : Z) (c : Cursor) : result StreamPositionError (bytes * Cursor) :=
  end_ ← ok_or (checked_add usize_max (cur_offset c) length) TruncatedPayload;
  value ← ok_or (slice_get (cur_bytes c) (cur_offset c) end_) TruncatedPayload;
  Ok (value, mkCursor (cur_bytes c) end_).

Definition cursor_read_u32 (c : Cursor) : result StreamPositionError (Z * Cursor) :=
  '(b, c) ← cursor_take 4 c; Ok (be_val b, c).

Definition cursor_read_u64 (c : Cursor) : result StreamPositionError (Z * Cursor) :=
  '(b, c) ← cursor_take 8 c; Ok (be_val b, c).

Definition cursor_read_sized (maximum : Z) (topic : bool) (c : Cursor)
    : result StreamPositionError (bytes * Cursor) :=
  '(length, c) ← cursor_read_u32 c;
  if length >? maximum
  then Err (if topic then TopicTooLong length maximum else OrdinaryIdTooLong length maximum)
  else cursor_take length c.

Definition cursor_finish (c : Cursor) : result StreamPositionError unit :=
  if cur_offset c =? blen (cur_bytes c) then Ok tt
  else Err (LengthMismatch (cur_offset c) (blen (cur_bytes c))).

(** * Envelope *)

Definition checked_envelope_len (payload_len : Z) : result StreamPositionError Z :=
  total ← ok_or (checked_add usize_max HEADER_LEN payload_len) LengthOverflow;
  if total >? MAX_STREAM_POSITION_SIZE then Err (EnvelopeTooLarge total MAX_STREAM_POSITION_SIZE)
  else Ok total.

Definition encode_envelope (kind : Z) (payload : bytes) : result StreamPositionError bytes :=
  _ ← checked_envelope_len (blen payload);
  payload_len ← ok_or (try_from_max u32_max (blen payload)) LengthOverflow;
  Ok (MAGIC ++ [byte.of_Z VERSION] ++ [byte.of_Z kind] ++ be_bytes 2 0 ++ be_bytes 4 payload_len ++ payload).

Definition decode_envelope (b : bytes) (expected_kind : Z) : result StreamPositionError bytes :=
  if blen b >? MAX_STREAM_POSITION_SIZE then Err (EnvelopeTooLarge (blen b) MAX_STREAM_POSITION_SIZE)
  else
    header ← ok_or (slice_get b 0 HEADER_LEN) TruncatedHeader;
    if negb (bool_decide (slice_get header 0 4 = Some MAGIC)) then Err InvalidMagic
    else
      let version := be_val (btake 1 (bdrop 4 header)) in
      if negb (version =? VERSION) then Err (UnsupportedVersion version)
      else
        let kind := be_val (btake 1 (bdrop 5 header)) in
        if negb (kind =? expected_kind) then Err (UnexpectedKind kind expected_kind)
        else
          let flags := be_val (btake 2 (bdrop 6 header)) in
          if negb (flags =? 0) then Err (UnsupportedFlags flags)
          else
            let declared := be_val (btake 4 (bdrop 8 header)) in
            let actual := blen b - HEADER_LEN in
            if negb (declared =? actual) then Err (LengthMismatch declared actual)
            else ok_or (slice_get b HEADER_LEN (blen b)) TruncatedPayload.

(** * Components *)

Definition validate_source_size (source : SegmentSource) : result StreamPositionError unit :=
  if blen (src_topic source) >? MAX_POSITION_TOPIC_SIZE
  then Err (TopicTooLong (blen (src_topic source)) MAX_POSITION_TOPIC_SIZE) else Ok tt.

Definition write_u32 (target : bytes) (value : Z) : result StreamPositionError bytes :=
  value ← ok_or (try_from_max u32_max value) LengthOverflow; Ok (target ++ be_bytes 4 value).

Definition write_bytes (target : bytes) (value : bytes) : result StreamPositionError bytes :=
  target ← write_u32 target (blen value); Ok (target ++ value).

Definition write_component (target : bytes) (source : SegmentSource) (ordinary : CanonicalMessageId)
    : result StreamPositionError bytes :=
  _ ← validate_source_size source;
  let target := target ++ be_bytes 8 (src_segment_id source) in
  target ← write_bytes target (as_bytes (src_topic source));
  write_bytes target (encoded ordinary).

Definition component_encoded_len (source : SegmentSource) (ordinary : CanonicalMessageId)
    : result StreamPositionError Z :=
  _ ← validate_source_size source;
  ok_or (l ← checked_add usize_max 8 4; l ← checked_add usize_max l (blen (src_topic source));
         l ← checked_add usize_max l 4; checked_add usize_max l (blen (encoded ordinary)))
        LengthOverflow.

Section Codec.
Context `{!ProtoMessage MessageIdData}.

Definition from_message_id (message_id : MessageId) : result StreamPositionError CanonicalMessageId :=
  let decoded := mid_to_pb message_id in
  _ ← validate_ordinary_id decoded false;
  encoded ← encode_canonical_ordinary_id decoded;
  Ok (mkCanonical message_id encoded).

Definition canonical_from_bytes (b : bytes) : result StreamPositionError CanonicalMessageId :=
  if blen b >? MAX_ORDINARY_MESSAGE_ID_SIZE
  then Err (OrdinaryIdTooLong (blen b) MAX_ORDINARY_MESSAGE_ID_SIZE)
  else
    decoded ← ok_or (pb_decode b) InvalidOrdinaryId;
    _ ← validate_ordinary_id decoded false;
    encoded ← encode_canonical_ordinary_id decoded;
    if negb (bool_decide (encoded = b)) then Err NonCanonicalOrdinaryId
    else Ok (mkCanonical (mid_from_pb decoded) encoded).

Definition read_component (c : Cursor)
    : result StreamPositionError (SegmentSource * CanonicalMessageId * Cursor) :=
  '(segment_id, c) ← cursor_read_u64 c;
  '(topic_bytes, c) ← cursor_read_sized MAX_POSITION_TOPIC_SIZE true c;
  topic ← ok_or (from_utf8 topic_bytes) InvalidUtf8;
  source ← map_err PositionSegmentTopic (SegmentSource_new segment_id topic);
  '(ordinary_bytes, c) ← cursor_read_sized MAX_ORDINARY_MESSAGE_ID_SIZE false c;
  ordinary ← canonical_from_bytes ordinary_bytes;
  Ok (source, ordinary, c).

(** ** Stream message ids *)

Definition smi_new (source : SegmentSource) (message_id : MessageId)
    : result StreamPositionError StreamMessageId :=
  _ ← validate_source_size source;
  ordinary ← from_message_id message_id;
  Ok (mkStreamMessageId source ordinary).

Definition from_message_id_data (source : SegmentSource) (message_id : MessageIdData)
    : result StreamPositionError StreamMessageId :=
  _ ← validate_source_size source;
  _ ← validate_ordinary_id message_id false;
  encoded ← encode_canonical_ordinary_id message_id;
  Ok (mkStreamMessageId source (mkCanonical (mid_from_pb message_id) encoded)).

Definition ordinary_message_id_data (i : StreamMessageId) : result StreamPositionError MessageIdData :=
  ok_or (pb_decode (encoded (smi_ordinary i))) InvalidOrdinaryId.

Definition from_ordinary_bytes (source : SegmentSource) (ordinary_bytes : bytes)
    : result StreamPositionError StreamMessageId :=
  _ ← validate_source_size source;
  ordinary ← canonical_from_bytes ordinary_bytes;
  Ok (mkStreamMessageId source ordinary).

Definition smi_encoded_len (i : StreamMessageId) : result StreamPositionError Z :=
  len ← component_encoded_len (smi_source i) (smi_ordinary i); checked_envelope_len len.

Definition smi_to_bytes (i : StreamMessageId) : result StreamPositionError bytes :=
  payload_len ← component_encoded_len (smi_source i) (smi_ordinary i);
  _ ← checked_envelope_len payload_len;
  payload ← write_component [] (smi_source i) (smi_ordinary i);
  encode_envelope STREAM_MESSAGE_ID_KIND payload.

Definition smi_from_bytes (b : bytes) : result StreamPositionError StreamMessageId :=
  payload ← decode_envelope b STREAM_MESSAGE_ID_KIND;
  '(source, ordinary, c) ← read_component (Cursor_new payload);
  _ ← cursor_finish c;
  Ok (mkStreamMessageId source ordinary).

(** ** Position vectors *)

Fixpoint pv_new_loop (components : list (SegmentSource * MessageId))
    (canonical : gmap SegmentSource CanonicalMessageId)
    : result StreamPositionError (gmap SegmentSource CanonicalMessageId) :=
  match components with
  | [] => Ok canonical
  | (source, message_id) :: rest =>
      _ ← validate_source_size source;
      id ← from_message_id message_id;
      let previous := canonical !! source in
      let canonical := <[source := id]> canonical in
      if bool_decide (is_Some previous) then Err (DuplicateComponent (src_topic source))
      else if Z.of_nat (size canonical) >? MAX_POSITION_COMPONENTS
      then Err (TooManyComponents (Z.of_nat (size canonical)) MAX_POSITION_COMPONENTS)
      else pv_new_loop rest canonical
  end.

Definition pv_new (layout_epoch : Z) (components : list (SegmentSource * MessageId))
    : result StreamPositionError PositionVector :=
  canonical ← pv_new_loop components ∅;
  Ok (mkPositionVector layout_epoch canonical).

Definition from_canonical (layout_epoch : Z) (components : gmap SegmentSource StreamMessageId)
    : result StreamPositionError PositionVector :=
  Ok (mkPositionVector layout_epoch (smi_ordinary <$> components)).

Definition pv_get (v : PositionVector) (source : SegmentSource) : option MessageId :=
  projected <$> pv_components v !! source.

Definition pv_ordinary_message_id_bytes (v : PositionVector) (source : SegmentSource) : option bytes :=
  encoded <$> pv_components v !! source.

Definition pv_iter (v : PositionVector) : list (SegmentSource * MessageId) :=
  prod_map id projected <$> btree_items (pv_components v).

Definition stream_message_ids (v : PositionVector) : list StreamMessageId :=
  (fun '(source, ordinary) => mkStreamMessageId source ordinary) <$> btree_items (pv_components v).

Fixpoint payload_len_fold (length : Z) (l : list (SegmentSource * CanonicalMessageId))
    : result StreamPositionError Z :=
  match l with
  | [] => Ok length
  | (source, ordinary) :: l' =>
      component_len ← component_encoded_len source ordinary;
      length ← ok_or (checked_add usize_max length component_len) LengthOverflow;
      payload_len_fold length l'
  end.

Definition payload_encoded_len (v : PositionVector) : result StreamPositionError Z :=
  payload_len_fold 12 (btree_items (pv_components v)).

Definition pv_encoded_len (v : PositionVector) : result StreamPositionError Z :=
  len ← payload_encoded_len v; checked_envelope_len len.

Fixpoint write_components (target : bytes) (l : list (SegmentSource * CanonicalMessageId))
    : result StreamPositionError bytes :=
  match l with
  | [] => Ok target
  | (source, ordinary) :: l' =>
      target ← write_component target source ordinary; write_components target l'
  end.

Definition pv_to_bytes (v : PositionVector) : result StreamPositionError bytes :=
  payload_len ← payload_encoded_len v;
  _ ← checked_envelope_len payload_len;
  let payload := be_bytes 8 (pv_layout_epoch v) in
  payload ← write_u32 payload (Z.of_nat (size (pv_components v)));
  payload ← write_components payload (btree_items (pv_components v));
  encode_envelope POSITION_VECTOR_KIND payload.

(** [for _ in 0..count], with [previous] and [components] *)
Fixpoint read_components (count : nat) (previous : option SegmentSource)
    (components : gmap SegmentSource CanonicalMessageId) (c : Cursor)
    : result StreamPositionError (gmap SegmentSource CanonicalMessageId * Cursor) :=
  match count with
  | O => Ok (components, c)
  | S count' =>
      '(source, ordinary, c) ← read_component c;
      if match previous with Some p => bool_decide (key_le source p) | None => false end
      then Err NonCanonicalComponentOrder
      else read_components count' (Some source) (<[source := ordinary]> components) c
  end.

Definition pv_from_bytes (b : bytes) : result StreamPositionError PositionVector :=
  payload ← decode_envelope b POSITION_VECTOR_KIND;
  let c := Cursor_new payload in
  '(layout_epoch, c) ← cursor_read_u64 c;
  '(count, c) ← cursor_read_u32 c;
  if count >? MAX_POSITION_COMPONENTS then Err (TooManyComponents count MAX_POSITION_COMPONENTS)
  else
    '(components, c) ← read_components (Z.to_nat count) None ∅ c;
    _ ← cursor_finish c;
    Ok (mkPositionVector layout_epoch components).
End Codec.

(** * Strings *)

Lemma blen_as_bytes s : blen (as_bytes s) = blen s.
Proof. unfold blen, as_bytes. by rewrite length_fmap. Qed.

Lemma blen_fmap {A B} (f : A -> B) l : blen (f <$> l) = blen l.
Proof. unfold blen. by rewrite length_fmap. Qed.

Lemma as_bytes_chars b : as_bytes (ascii_of_byte <$> b) = b.
Proof.
  unfold as_bytes. rewrite <- list_fmap_compose. rewrite <- (list_fmap_id b) at 2.
  apply list_fmap_ext. intros _ x _. apply byte_of_ascii_of_byte.
Qed.

Lemma chars_as_bytes s : ascii_of_byte <$> as_bytes s = s.
Proof.
  unfold as_bytes. rewrite <- list_fmap_compose. rewrite <- (list_fmap_id s) at 2.
  apply list_fmap_ext. intros _ x _. apply ascii_of_byte_of_ascii.
Qed.

Lemma from_utf8_exact b s : from_utf8 b = Some s <-> b = as_bytes s /\ utf8_valid b = true.
Proof.
  unfold from_utf8. case_match; split.
  - intros [= <-]. by rewrite as_bytes_chars.
  - intros [-> _]. by rewrite chars_as_bytes.
  - done.
  - by intros [-> ?].
Qed.

(** * The cursor reads what was written *)

Record cursor_wf (c : Cursor) : Prop := {
  wf_offset : 0 <= cur_offset c <= blen (cur_bytes c);
  wf_size : blen (cur_bytes c) <= MAX_STREAM_POSITION_SIZE;
}.

Definition consumed (c : Cursor) : bytes := btake (cur_offset c) (cur_bytes c).

(** [c'] is [c] after the bytes [x]. *)
Definition reads (c : Cursor) (x : bytes) (c' : Cursor) : Prop :=
  cur_bytes c' = cur_bytes c /\ cursor_wf c' /\ consumed c' = consumed c ++ x.

Lemma blen_consumed c : cursor_wf c -> blen (consumed c) = cur_offset c.
Proof. intros [H _]. by apply blen_btake. Qed.

Lemma reads_trans c x c1 y c2 : reads c x c1 -> reads c1 y c2 -> reads c (x ++ y) c2.
Proof.
  intros (H1 & _ & H2) (H3 & H4 & H5). split_and!; [congruence|done|].
  by rewrite H5, H2, app_assoc.
Qed.

Lemma reads_nil c c' : cursor_wf c -> reads c [] c' <-> c' = c.
Proof.
  intros Hc. split; [|intros ->; split_and!; [done..|by rewrite app_nil_r]].
  intros (H1 & H2 & H3). rewrite app_nil_r in H3. apply (f_equal blen) in H3.
  rewrite !blen_consumed in H3 by done. destruct c, c'; simpl in *; by subst.
Qed.

Lemma reads_inv c x y c' :
  cursor_wf c -> reads c (x ++ y) c' -> exists c1, reads c x c1 /\ reads c1 y c'.
Proof.
  intros Hc (H1 & H2 & H3). pose proof (blen_consumed c Hc) as Ho.
  pose proof (blen_consumed c' H2) as Ho'. rewrite H3, !blen_app in Ho'.
  pose proof (blen_nonneg x). pose proof (blen_nonneg y). pose proof H2 as [[? ?] ?].
  pose proof (wf_offset c Hc).
  assert (Hx : btake (cur_offset c + blen x) (cur_bytes c) = consumed c ++ x).
  { assert (Heq : cur_bytes c = (consumed c ++ x) ++ (y ++ bdrop (cur_offset c') (cur_bytes c'))).
    { rewrite <- H1, <- (btake_bdrop (cur_offset c') (cur_bytes c')) at 1.
      change (btake (cur_offset c') (cur_bytes c')) with (consumed c'). rewrite H3, <- !app_assoc. done. }
    rewrite Heq. apply btake_app. rewrite blen_app. lia. }
  exists (mkCursor (cur_bytes c) (cur_offset c + blen x)). rewrite H1 in *.
  split; split_and!; simpl; try done; [split; simpl; lia|].
  unfold consumed at 2. simpl. rewrite H3, Hx. by rewrite app_assoc.
Qed.

Lemma slice_get_Some b s e x :
  slice_get b s e = Some x <-> s <= e <= blen b /\ x = btake (e - s) (bdrop s b).
Proof.
  unfold slice_get. destruct (_ && _) eqn:E; [rewrite andb_true_iff in E|rewrite andb_false_iff in E].
  - split; [intros [= <-]|intros [_ ->]; done]. split; [lia|done].
  - split; [done|lia].
Qed.

Lemma take_exact n c x c' :
  cursor_wf c -> 0 <= n -> cursor_take n c = Ok (x, c') <-> reads c x c' /\ blen x = n.
Proof.
  intros Hc Hn. pose proof (wf_offset c Hc) as Ho. pose proof (wf_size c Hc) as Hs.
  unfold cursor_take, slice_get. split.
  - intros H. inv_ok. apply checked_add_Some in Hr as [-> Hr]. case_match eqn:E; [|done].
    apply andb_true_iff in E as [E1 E2]. simplify_eq.
    assert (Hx : blen (btake (cur_offset c + n - cur_offset c) (bdrop (cur_offset c) (cur_bytes c))) = n).
    { rewrite blen_btake; [lia|]. rewrite blen_bdrop; lia. }
    split; [|done]. split_and!; [done|split; simpl; lia|]. unfold consumed. simpl.
    rewrite <- (btake_bdrop (cur_offset c) (cur_bytes c)) at 1.
    rewrite <- (btake_bdrop (cur_offset c + n - cur_offset c) (bdrop (cur_offset c) (cur_bytes c))) at 1.
    rewrite app_assoc. apply btake_app. rewrite blen_app, Hx. rewrite blen_btake; lia.
  - intros [(H1 & H2 & H3) Hx]. pose proof (blen_consumed c Hc) as Hl.
    pose proof (blen_consumed c' H2) as Hl'. rewrite H3, blen_app in Hl'.
    pose proof (wf_offset c' H2). rewrite H1 in *.
    rewrite checked_add_small by (assert (MAX_STREAM_POSITION_SIZE < usize_max) by done; lia).
    cbn [ok_or mbind result_bind].
    rewrite (proj2 (Z.leb_le _ _)), (proj2 (Z.leb_le _ _)) by lia. cbn [andb ok_or mbind result_bind].
    replace (cur_offset c + n - cur_offset c) with (blen x) by lia.
    assert (Heq : cur_bytes c = consumed c ++ x ++ bdrop (cur_offset c') (cur_bytes c)).
    { rewrite app_assoc, <- H3. unfold consumed. rewrite H1. by rewrite btake_bdrop. }
    rewrite Heq at 1. rewrite bdrop_app by done. rewrite btake_app by done.
    destruct c' as [b o]. simpl in *. subst b. repeat f_equal. lia.
Qed.

Lemma be_val_exact n x z :
  length x = n -> be_val x = z <-> x = be_bytes n z /\ 0 <= z < 2 ^ (8 * Z.of_nat n).
Proof.
  intros <-. split.
  - intros <-. split; [by rewrite be_bytes_be_val|apply be_val_bound].
  - intros [Hx Hz]. rewrite Hx, be_val_be_bytes_small; [done|]. rewrite Z.mul_comm. done.
Qed.

Lemma read_be_exact n c z c' :
  cursor_wf c ->
  ('(b, c1) ← cursor_take (Z.of_nat n) c; Ok (be_val b, c1)) = Ok (z, c')
  <-> reads c (be_bytes n z) c' /\ 0 <= z < 2 ^ (8 * Z.of_nat n).
Proof.
  intros Hc. split.
  - intros H. inv_ok. destruct r as [b c1]. apply take_exact in Hr as [Hr Hl]; [|done|lia].
    injection H as H <-. apply (be_val_exact n) in H as [-> Hz]; [done|]. unfold blen in Hl. lia.
  - intros [Hr Hz].
    rewrite (proj2 (take_exact (Z.of_nat n) c (be_bytes n z) c' Hc ltac:(lia))) by (split; [done|apply blen_be_bytes]).
    simpl. repeat f_equal. apply (be_val_exact n); [apply length_be_bytes|done].
Qed.

Lemma read_u32_exact c z c' : cursor_wf c -> cursor_read_u32 c = Ok (z, c') <-> reads c (be_bytes 4 z) c' /\ u32_ok z.
Proof. intros Hc. unfold u32_ok, u32_max. etransitivity; [by apply (read_be_exact 4)|]. change (2 ^ (8 * Z.of_nat 4)) with (2 ^ 32). intuition lia. Qed.

Lemma read_u64_exact c z c' : cursor_wf c -> cursor_read_u64 c = Ok (z, c') <-> reads c (be_bytes 8 z) c' /\ u64_ok z.
Proof. intros Hc. unfold u64_ok, u64_max. etransitivity; [by apply (read_be_exact 8)|]. change (2 ^ (8 * Z.of_nat 8)) with (2 ^ 64). intuition lia. Qed.

Definition sized (x : bytes) : bytes := be_bytes 4 (blen x) ++ x.

Lemma read_sized_exact max topic c x c' :
  cursor_wf c -> max <= u32_max ->
  cursor_read_sized max topic c = Ok (x, c') <-> reads c (sized x) c' /\ blen x <= max.
Proof.
  intros Hc Hm. unfold cursor_read_sized, sized. split.
  - intros H. inv_ok. destruct r as [n c1]. apply read_u32_exact in Hr as [Hr Hn]; [|done].
    case_match eqn:E; [done|]. apply take_exact in H as [H Hx]; [|apply Hr|apply Hn].
    subst n. split; [by eapply reads_trans|lia].
  - intros [Hr Hx]. apply reads_inv in Hr as (c1 & H1 & H2); [|done]. pose proof (blen_nonneg x).
    rewrite (proj2 (read_u32_exact c (blen x) c1 Hc)) by (split; [done|unfold u32_ok; lia]). simpl.
    case_match eqn:E; [lia|]. apply take_exact; [apply H1|done|done].
Qed.

(** * The envelope *)

Definition header (kind len : Z) : bytes :=
  MAGIC ++ [byte.of_Z VERSION] ++ [byte.of_Z kind] ++ be_bytes 2 0 ++ be_bytes 4 len.

Lemma blen_header kind len : blen (header kind len) = HEADER_LEN.
Proof. unfold header. rewrite !blen_app, !blen_be_bytes. done. Qed.

Lemma checked_envelope_len_ok n t :
  0 <= n -> checked_envelope_len n = Ok t <-> t = HEADER_LEN + n /\ t <= MAX_STREAM_POSITION_SIZE.
Proof.
  intros Hn. unfold checked_envelope_len. assert (MAX_STREAM_POSITION_SIZE < usize_max) by done. split.
  - intros H'. inv_ok. apply checked_add_Some in Hr as [-> _]. case_match eqn:E; inv_ok. lia.
  - intros [-> Ht]. rewrite checked_add_small by lia. cbn [ok_or mbind result_bind]. case_match eqn:E; [lia|done].
Qed.

Lemma encode_envelope_exact kind p b :
  encode_envelope kind p = Ok b
  <-> b = header kind (blen p) ++ p /\ HEADER_LEN + blen p <= MAX_STREAM_POSITION_SIZE.
Proof.
  unfold encode_envelope, header. pose proof (blen_nonneg p). split.
  - intros H'. inv_ok. apply checked_envelope_len_ok in Hr as [-> Hr]; [|done].
    apply try_from_max_Some in Hr0 as [-> _]. rewrite <- !app_assoc. done.
  - intros [-> Hb]. rewrite (proj2 (checked_envelope_len_ok (blen p) _ ltac:(done))) by done.
    cbn [mbind result_bind].
    rewrite (proj2 (try_from_max_Some u32_max (blen p) (blen p)))
      by (split; [done|]; assert (MAX_STREAM_POSITION_SIZE < u32_max) by done; unfold HEADER_LEN in *; lia).
    cbn [ok_or mbind result_bind]. rewrite <- !app_assoc. done.
Qed.

(** The five fields of a header, by the slices the decoder takes. *)
Lemma header_fields h kind len :
  blen h = HEADER_LEN -> 0 <= kind < 256 -> u32_ok len ->
  h = header kind len
  <-> slice_get h 0 4 = Some MAGIC /\ be_val (btake 1 (bdrop 4 h)) = VERSION
      /\ be_val (btake 1 (bdrop 5 h)) = kind /\ be_val (btake 2 (bdrop 6 h)) = 0
      /\ be_val (btake 4 (bdrop 8 h)) = len.
Proof.
  intros Hh Hk Hl. unfold HEADER_LEN, blen in Hh. assert (Hh' : length h = 12%nat) by lia. clear Hh.
  do 12 (destruct h as [|? h]; [done|]). destruct h; [|done].
  change (btake 1 (bdrop 4 _)) with [b3]. change (btake 1 (bdrop 5 _)) with [b4].
  change (btake 2 (bdrop 6 _)) with [b5; b6]. change (btake 4 (bdrop 8 _)) with [b7; b8; b9; b10].
  change (slice_get _ 0 4) with (Some [b; b0; b1; b2]).
  rewrite (be_val_exact 1 [b3] VERSION), (be_val_exact 1 [b4] kind), (be_val_exact 2 [b5; b6] 0),
    (be_val_exact 4 [b7; b8; b9; b10] len) by done.
  rewrite !be_bytes_1. unfold header.
  change [b; b0; b1; b2; b3; b4; b5; b6; b7; b8; b9; b10]
    with ([b; b0; b1; b2] ++ [b3] ++ [b4] ++ [b5; b6] ++ [b7; b8; b9; b10]). split.
  - intros H. repeat (apply app_inj_1 in H as [? H]; [|by rewrite ?length_be_bytes]).
    split_and!; try congruence; unfold VERSION; try lia; unfold u32_ok, u32_max in Hl; lia.
  - intros ([= -> -> -> ->] & [[= ->] _] & [[= ->] _] & [-> _] & -> & _). done.
Qed.

Lemma decode_envelope_exact kind p b :
  0 <= kind < 256 -> decode_envelope b kind = Ok p <-> encode_envelope kind p = Ok b.
Proof.
  intros Hk. rewrite encode_envelope_exact. unfold decode_envelope.
  assert (Hm : MAX_STREAM_POSITION_SIZE < u32_max) by done. pose proof (blen_nonneg p) as Hp. split.
  - destruct (blen b >? _) eqn:Hb; [done|]. intros H. inv_ok. rename r into h.
    apply slice_get_Some in Hr as [E Hr]. rewrite Z.sub_0_r in Hr. change (bdrop 0 b) with b in Hr.
    repeat match type of H with (if negb ?c then _ else _) = _ => destruct (negb c) eqn:?; [done|] end.
    rewrite !negb_false_iff in *. inv_ok. apply slice_get_Some in H as [_ ->].
    assert (Hh : blen h = HEADER_LEN) by (subst h; apply blen_btake; unfold HEADER_LEN in *; lia).
    assert (Hpl : blen (bdrop HEADER_LEN b) = blen b - HEADER_LEN) by (apply blen_bdrop; unfold HEADER_LEN in *; lia).
    replace (btake (blen b - HEADER_LEN) (bdrop HEADER_LEN b)) with (bdrop HEADER_LEN b).
    2: { unfold btake. rewrite take_ge; [done|]. unfold blen in *. lia. }
    split; [|lia]. rewrite <- (btake_bdrop HEADER_LEN b) at 1. f_equal. rewrite <- Hr.
    apply header_fields; [done|done|unfold u32_ok; unfold HEADER_LEN in *; lia|].
    apply bool_decide_eq_true in Heqb0. split_and!; try (by apply Z.eqb_eq); [done|lia].
  - intros [-> Hs]. pose proof (blen_header kind (blen p)) as Hh.
    rewrite blen_app, Hh. destruct (_ >? _) eqn:E; [lia|].
    assert (Hget : slice_get (header kind (blen p) ++ p) 0 HEADER_LEN = Some (header kind (blen p))).
    { apply slice_get_Some. rewrite blen_app, Hh, Z.sub_0_r. split; [unfold HEADER_LEN; lia|].
      symmetry. by apply btake_app. }
    rewrite Hget. cbn [ok_or mbind result_bind].
    destruct (proj1 (header_fields _ kind (blen p) Hh Hk ltac:(unfold u32_ok, HEADER_LEN in *; lia)) eq_refl)
      as (H1 & H2 & H3 & H4 & H5).
    rewrite bool_decide_eq_true_2 by done. rewrite H2, H3, H4, H5, !Z.eqb_refl. cbn [negb].
    replace (HEADER_LEN + blen p - HEADER_LEN) with (blen p) by lia. rewrite Z.eqb_refl. cbn [negb].
    rewrite (proj2 (slice_get_Some _ _ _ p)); [done|]. rewrite blen_app, Hh, bdrop_app by done.
    split; [lia|]. unfold btake. symmetry. apply take_ge. unfold blen. lia.
Qed.

(** * Well-formed values *)

(** What [SegmentSource::new] and the types of the source guarantee. *)
Definition source_ok (s : SegmentSource) : Prop :=
  u64_ok (src_segment_id s) /\ SegmentSource_new (src_segment_id s) (src_topic s) = Ok s
  /\ utf8_valid (as_bytes (src_topic s)) = true /\ blen (src_topic s) <= MAX_POSITION_TOPIC_SIZE.

Definition ordinary_ok (o : CanonicalMessageId) : Prop :=
  exists m, id_fields_ok m /\ validate_ordinary_id m false = Ok tt
    /\ encode_canonical_ordinary_id m = Ok (encoded o) /\ projected o = mid_from_pb m.

Definition component_ok (p : SegmentSource * CanonicalMessageId) : Prop :=
  source_ok p.1 /\ ordinary_ok p.2.

Definition stream_id_ok (i : StreamMessageId) : Prop :=
  source_ok (smi_source i) /\ ordinary_ok (smi_ordinary i).

Definition vector_ok (v : PositionVector) : Prop :=
  u64_ok (pv_layout_epoch v) /\ Z.of_nat (size (pv_components v)) <= MAX_POSITION_COMPONENTS
  /\ forall s o, pv_components v !! s = Some o -> component_ok (s, o).

Lemma ordinary_len o : ordinary_ok o -> blen (encoded o) <= MAX_ORDINARY_MESSAGE_ID_SIZE.
Proof. intros (m & _ & _ & He & _). apply WireLaws.encode_canonical_exact in He. apply He. Qed.

(** The decoder of [prost] for [MessageIdData]: it yields values of the field
    types, and reads the protobuf wire format this crate writes. *)
Class OrdinaryIdProto `{!ProtoMessage MessageIdData} : Prop := {
  decoded_typed : forall b (m : MessageIdData), pb_decode b = Some m -> id_fields_ok m;
  decoded_wire : forall m enc, id_fields_ok m -> validate_ordinary_id m false = Ok tt ->
    encode_canonical_ordinary_id m = Ok enc -> pb_decode enc = Some m;
}.

(** * Components *)

Definition component_bytes (p : SegmentSource * CanonicalMessageId) : bytes :=
  be_bytes 8 (src_segment_id p.1) ++ sized (as_bytes (src_topic p.1)) ++ sized (encoded p.2).

Lemma blen_component p :
  blen (component_bytes p) = 16 + blen (src_topic p.1) + blen (encoded p.2).
Proof.
  unfold component_bytes, sized. rewrite !blen_app, !blen_be_bytes, blen_as_bytes. lia.
Qed.

Lemma validate_source_size_ok s u :
  validate_source_size s = Ok u <-> blen (src_topic s) <= MAX_POSITION_TOPIC_SIZE.
Proof. unfold validate_source_size. destruct u. case_match; split; (done || lia). Qed.

Lemma write_bytes_ok t x t' : write_bytes t x = Ok t' <-> t' = t ++ sized x /\ blen x <= u32_max.
Proof.
  unfold write_bytes, write_u32, sized. split.
  - intros H. inv_ok. apply try_from_max_Some in Hr0 as [-> ?]. by rewrite <- app_assoc.
  - intros [-> Hx]. rewrite (proj2 (try_from_max_Some u32_max _ (blen x))) by done. simpl.
    by rewrite <- app_assoc.
Qed.

Lemma write_bytes_small t x : blen x <= u32_max -> write_bytes t x = Ok (t ++ sized x).
Proof. intros. by apply write_bytes_ok. Qed.

Lemma write_component_ok t s o t' :
  write_component t s o = Ok t'
  <-> t' = t ++ component_bytes (s, o) /\ blen (src_topic s) <= MAX_POSITION_TOPIC_SIZE
      /\ blen (encoded o) <= u32_max.
Proof.
  unfold write_component, component_bytes. assert (MAX_POSITION_TOPIC_SIZE < u32_max) by done. split.
  - intros H'. inv_ok. apply validate_source_size_ok in Hr. apply write_bytes_ok in Hr0 as [-> _], H' as [-> ?].
    by rewrite <- !app_assoc.
  - intros (-> & Ht & He). rewrite (proj2 (validate_source_size_ok s tt)) by done. cbn [mbind result_bind].
    rewrite write_bytes_small by (rewrite blen_as_bytes; lia).
    cbn [mbind result_bind]. apply write_bytes_ok. by rewrite <- !app_assoc.
Qed.

Lemma component_len_ok s o n :
  component_encoded_len s o = Ok n
  <-> n = blen (component_bytes (s, o)) /\ blen (src_topic s) <= MAX_POSITION_TOPIC_SIZE /\ n <= usize_max.
Proof.
  unfold component_encoded_len. rewrite blen_component. simpl.
  pose proof (blen_nonneg (src_topic s)). pose proof (blen_nonneg (encoded o)). split.
  - intros H'. inv_ok. apply validate_source_size_ok in Hr.
    repeat (apply bind_Some in H' as (? & ? & H')). rewrite !checked_add_Some in *. lia.
  - intros (-> & Ht & Hn). rewrite (proj2 (validate_source_size_ok s tt)) by done. cbn [mbind result_bind].
    repeat (rewrite checked_add_small by lia; cbn [mbind option_bind]).
    simpl. f_equal. lia.
Qed.

Section Exact.
Context `{!ProtoMessage MessageIdData}.

Lemma canonical_from_bytes_ok `{!OrdinaryIdProto} b o :
  canonical_from_bytes b = Ok o <-> encoded o = b /\ ordinary_ok o.
Proof.
  unfold canonical_from_bytes. split.
  - case_match; [done|]. intros H'. inv_ok. destruct r0. case_match eqn:E; [done|]. inv_ok.
    apply negb_false_iff, bool_decide_eq_true in E as ->. split; [done|]. exists r.
    split_and!; [by eapply decoded_typed|done..].
  - intros [<- (m & Hok & Hv & He & Hp)].
    pose proof (ordinary_len o (ex_intro _ m (conj Hok (conj Hv (conj He Hp))))).
    case_match eqn:E; [lia|]. rewrite (decoded_wire m (encoded o)) by done. simpl. rewrite Hv. simpl.
    rewrite He. simpl. rewrite bool_decide_eq_true_2 by done. simpl. destruct o. simpl in *. by subst.
Qed.

Lemma read_component_exact `{!OrdinaryIdProto} c s o c' :
  cursor_wf c ->
  read_component c = Ok (s, o, c') <-> reads c (component_bytes (s, o)) c' /\ component_ok (s, o).
Proof.
  intros Hc. unfold read_component, component_bytes, component_ok. simpl.
  assert (Hm1 : MAX_POSITION_TOPIC_SIZE <= u32_max) by done.
  assert (Hm2 : MAX_ORDINARY_MESSAGE_ID_SIZE <= u32_max) by done. split.
  - intros Hd. inv_ok. destruct r as [i c1]. apply read_u64_exact in Hr as [Hr Hi]; [|done]. inv_ok.
    destruct r as [tb c2]. apply read_sized_exact in Hr0 as [Hr0 Ht]; [|apply Hr|done]. inv_ok.
    apply from_utf8_exact in Hr1 as [-> Hu]. destruct r1 as [ob c3].
    apply read_sized_exact in Hr3 as [Hr3 Ho]; [|apply Hr0|done]. inv_ok. subst.
    apply canonical_from_bytes_ok in Hr1 as [<- Hok].
    assert (src_segment_id r0 = i /\ src_topic r0 = r) as [<- <-].
    { unfold SegmentSource_new in Hr2. inv_ok. destruct r1 as [[? ?] ?]. case_match; [done|]. by inv_ok. }
    rewrite blen_as_bytes in Ht. split; [|by split_and!].
    eapply reads_trans; [done|]. by eapply reads_trans.
  - intros [Hr [(Hi & Hnew & Hu & Ht) Ho]].
    apply reads_inv in Hr as (c1 & H1 & Hr); [|done]. apply reads_inv in Hr as (c2 & H2 & H3); [|apply H1].
    rewrite (proj2 (read_u64_exact _ _ c1 Hc)) by done. cbn [mbind result_bind].
    rewrite (proj2 (read_sized_exact _ true c1 _ c2 (proj1 (proj2 H1)) Hm1))
      by (split; [done|by rewrite blen_as_bytes]).
    cbn [mbind result_bind]. rewrite (proj2 (from_utf8_exact _ (src_topic s))) by done.
    cbn [ok_or mbind result_bind]. rewrite Hnew. cbn [map_err mbind result_bind].
    rewrite (proj2 (read_sized_exact _ false c2 _ c' (proj1 (proj2 H2)) Hm2))
      by (split; [done|by apply ordinary_len]).
    cbn [mbind result_bind]. by rewrite (proj2 (canonical_from_bytes_ok _ o)).
Qed.

(** ** A single id *)

Lemma cursor_new_wf p : HEADER_LEN + blen p <= MAX_STREAM_POSITION_SIZE -> cursor_wf (Cursor_new p).
Proof. pose proof (blen_nonneg p). unfold HEADER_LEN. split; simpl; lia. Qed.

Lemma finish_exact p x c u :
  cursor_wf (Cursor_new p) -> reads (Cursor_new p) x c -> cursor_finish c = Ok u <-> p = x.
Proof.
  intros Hp (H1 & H2 & H3). pose proof (blen_consumed c H2) as Hl. pose proof (wf_offset c H2) as Ho.
  simpl in H1. unfold consumed in H3 at 2. simpl in H3. change (btake 0 p ++ x) with x in H3.
  unfold cursor_finish. rewrite H1 in *. destruct u. case_match eqn:E.
  - split; [intros _|done]. rewrite <- H3. unfold consumed, btake. rewrite H1, take_ge; [done|].
    unfold blen in *. lia.
  - split; [done|]. intros ->. rewrite H3 in Hl. lia.
Qed.

Lemma reads_all p : HEADER_LEN + blen p <= MAX_STREAM_POSITION_SIZE ->
  reads (Cursor_new p) p (mkCursor p (blen p)).
Proof.
  intros Hp%cursor_new_wf. destruct Hp as [_ Hp]. pose proof (blen_nonneg p). split_and!; [done|split; simpl in *; lia|].
  unfold consumed, btake. simpl. rewrite take_ge; [done|]. unfold blen. lia.
Qed.

Lemma smi_to_bytes_exact i b :
  stream_id_ok i ->
  smi_to_bytes i = Ok b
  <-> encode_envelope STREAM_MESSAGE_ID_KIND (component_bytes (smi_source i, smi_ordinary i)) = Ok b.
Proof.
  intros [(_ & _ & _ & Ht) Ho%ordinary_len]. unfold smi_to_bytes.
  set (p := component_bytes _). pose proof (blen_nonneg p) as Hp.
  assert (Hl : blen p <= MAX_POSITION_TOPIC_SIZE + MAX_ORDINARY_MESSAGE_ID_SIZE + 16)
    by (unfold p; rewrite blen_component; simpl; lia).
  assert (MAX_POSITION_TOPIC_SIZE + MAX_ORDINARY_MESSAGE_ID_SIZE + 16 < MAX_STREAM_POSITION_SIZE - HEADER_LEN) by done.
  assert (MAX_STREAM_POSITION_SIZE < usize_max /\ MAX_ORDINARY_MESSAGE_ID_SIZE < u32_max) as [? ?] by done.
  rewrite (proj2 (component_len_ok _ _ (blen p))) by (split_and!; [done..|unfold HEADER_LEN in *; lia]).
  cbn [mbind result_bind].
  rewrite (proj2 (checked_envelope_len_ok (blen p) (HEADER_LEN + blen p) Hp)) by (split; [done|lia]).
  cbn [mbind result_bind].
  rewrite (proj2 (write_component_ok [] _ _ p)) by (split_and!; [done..|lia]). done.
Qed.

Lemma smi_from_bytes_exact `{!OrdinaryIdProto} b i :
  smi_from_bytes b = Ok i <-> stream_id_ok i /\ smi_to_bytes i = Ok b.
Proof.
  assert (Hk : 0 <= STREAM_MESSAGE_ID_KIND < 256) by done. unfold smi_from_bytes. split.
  - intros Hd. inv_ok. apply decode_envelope_exact in Hr; [|done].
    pose proof (proj1 (encode_envelope_exact _ _ _) Hr) as [_ Hs]. apply cursor_new_wf in Hs.
    destruct r0 as [[s o] c]. apply read_component_exact in Hr0 as [Hc Hok]; [|done]. inv_ok.
    apply (finish_exact _ _ _ _ Hs Hc) in Hr0 as ->. split; [done|]. by apply smi_to_bytes_exact.
  - intros [Hok Hb]. apply smi_to_bytes_exact in Hb; [|done].
    rewrite (proj2 (decode_envelope_exact _ _ _ Hk) Hb). cbn [mbind result_bind].
    apply encode_envelope_exact in Hb as [_ Hs]. pose proof (reads_all _ Hs) as Hr. apply cursor_new_wf in Hs.
    rewrite (proj2 (read_component_exact _ (smi_source i) (smi_ordinary i) _ Hs)) by (split; [exact Hr|done]).
    cbn [mbind result_bind]. rewrite (proj2 (finish_exact _ _ _ tt Hs Hr)) by done. by destruct i.
Qed.

(** ** A vector *)

Definition all_bytes (l : list (SegmentSource * CanonicalMessageId)) : bytes :=
  concat (component_bytes <$> l).

Definition vector_payload (v : PositionVector) : bytes :=
  be_bytes 8 (pv_layout_epoch v) ++ be_bytes 4 (Z.of_nat (size (pv_components v)))
  ++ all_bytes (btree_items (pv_components v)).

Lemma blen_all_bytes_cons p l : blen (all_bytes (p :: l)) = blen (component_bytes p) + blen (all_bytes l).
Proof. unfold all_bytes. csimpl. apply blen_app. Qed.

Lemma payload_len_fold_ok n l :
  0 <= n -> Forall component_ok l -> n + blen (all_bytes l) <= usize_max ->
  payload_len_fold n l = Ok (n + blen (all_bytes l)).
Proof.
  intros Hn Hl. revert n Hn. induction Hl as [|[s o] l [(_ & _ & _ & Ht) _] _ IH]; intros n Hn Hs.
  - simpl. f_equal. change (blen (all_bytes [])) with 0. lia.
  - rewrite blen_all_bytes_cons in *. pose proof (blen_nonneg (component_bytes (s, o))).
    pose proof (blen_nonneg (all_bytes l)). cbn [payload_len_fold].
    rewrite (proj2 (component_len_ok s o (blen (component_bytes (s, o))))) by (split_and!; [done..|lia]).
    cbn [mbind result_bind]. rewrite checked_add_small by lia. cbn [ok_or mbind result_bind].
    rewrite IH by lia. f_equal. lia.
Qed.

Lemma write_components_ok t l :
  Forall component_ok l -> write_components t l = Ok (t ++ all_bytes l).
Proof.
  intros Hl. revert t. induction Hl as [|[s o] l [(_ & _ & _ & Ht) Ho%ordinary_len] _ IH]; intros t; simpl.
  - by rewrite app_nil_r.
  - rewrite (proj2 (write_component_ok t s o (t ++ component_bytes (s, o))))
      by (split_and!; [done..|]; assert (MAX_ORDINARY_MESSAGE_ID_SIZE < u32_max) by done; simpl in *; lia).
    cbn [mbind result_bind]. rewrite IH. unfold all_bytes. csimpl. by rewrite <- app_assoc.
Qed.

Lemma items_ok v : vector_ok v -> Forall component_ok (btree_items (pv_components v)).
Proof. intros (_ & _ & H). apply Forall_forall. intros [s o] Hin%elem_of_btree_items. by apply H. Qed.

Lemma pv_to_bytes_exact v b :
  vector_ok v -> pv_to_bytes v = Ok b <-> encode_envelope POSITION_VECTOR_KIND (vector_payload v) = Ok b.
Proof.
  intros Hv. pose proof (items_ok v Hv) as Hl. destruct Hv as (He & Hn & _).
  assert (Hw : write_u32 (be_bytes 8 (pv_layout_epoch v)) (Z.of_nat (size (pv_components v)))
    = Ok (be_bytes 8 (pv_layout_epoch v) ++ be_bytes 4 (Z.of_nat (size (pv_components v))))).
  { unfold write_u32. rewrite (proj2 (try_from_max_Some u32_max _ (Z.of_nat (size (pv_components v))))); [done|].
    split; [done|]. assert (MAX_POSITION_COMPONENTS < u32_max) by done. lia. }
  assert (Hp : blen (vector_payload v) = 12 + blen (all_bytes (btree_items (pv_components v)))).
  { unfold vector_payload. rewrite !blen_app, !blen_be_bytes. lia. }
  unfold pv_to_bytes, payload_encoded_len.
  assert (Hm : MAX_STREAM_POSITION_SIZE < usize_max) by done. unfold HEADER_LEN in *.
  pose proof (blen_nonneg (all_bytes (btree_items (pv_components v)))).
  split.
  - intros Hd. inv_ok. rewrite Hw in Hr1. inv_ok. rewrite write_components_ok in Hr2 by done. inv_ok.
    unfold vector_payload. by rewrite <- app_assoc in Hd.
  - intros Hd. pose proof (proj1 (encode_envelope_exact _ _ _) Hd) as [_ Hs]. unfold HEADER_LEN in Hs.
    rewrite payload_len_fold_ok by (done || lia). cbn [mbind result_bind]. rewrite <- Hp.
    rewrite (proj2 (checked_envelope_len_ok (blen (vector_payload v)) _ ltac:(lia))) by (split; [done|done]).
    cbn [mbind result_bind]. rewrite Hw. cbn [mbind result_bind]. rewrite write_components_ok by done.
    cbn [mbind result_bind]. unfold vector_payload in Hd. by rewrite <- app_assoc.
Qed.

(** The loop of the decoder: the components follow one another in increasing
    order of their source. *)
Lemma read_components_exact `{!OrdinaryIdProto} n prev acc c m c' :
  cursor_wf c ->
  read_components n prev acc c = Ok (m, c')
  <-> exists l, length l = n /\ Forall component_ok l /\ Sorted key_lt (option_list prev ++ l.*1)
        /\ reads c (all_bytes l) c' /\ m = foldl (fun m p => <[p.1 := p.2]> m) acc l.
Proof.
  revert prev acc c. induction n as [|n IH]; intros prev acc c Hc; cbn [read_components].
  - split.
    + intros [= <- <-]. exists []. split_and!; try done; [destruct prev; repeat constructor|].
      by apply reads_nil.
    + intros (l & Hl & _ & _ & Hr & ->). apply nil_length_inv in Hl as ->. by apply reads_nil in Hr as ->.
  - assert (Hs : forall s rest, Sorted key_lt (option_list prev ++ s :: rest)
      <-> match prev with Some p => bool_decide (key_le s p) | None => false end = false /\ Sorted key_lt (s :: rest)).
    { intros s rest. destruct prev as [p|]; simpl; [|tauto]. rewrite bool_decide_eq_false, not_key_le. split.
      - intros Hq. apply Sorted_inv in Hq as [Hq Hh]. by inversion Hh.
      - intros [H1 H2]. constructor; [done|by constructor]. }
    split.
    + intros Hd. inv_ok. destruct r as [[s o] c1]. apply read_component_exact in Hr as [Hr Hok]; [|done].
      destruct (match prev with Some _ => _ | None => _ end) eqn:E; [done|].
      apply IH in Hd as (l & <- & Hl & Hsort & Hr' & ->); [|apply Hr].
      exists ((s, o) :: l). split_and!; [done|by constructor|by apply Hs| |done].
      by eapply reads_trans.
    + intros (l & Hl & Hok & Hsort & Hr & ->). destruct l as [|[s o] l]; [done|]. injection Hl as Hl.
      apply Hs in Hsort as [E Hsort]. apply Forall_cons in Hok as [Hok Hoks].
      apply reads_inv in Hr as (c1 & H1 & H2); [|done].
      rewrite (proj2 (read_component_exact c s o c1 Hc)) by done. cbn [mbind result_bind]. simpl in E; rewrite E.
      apply IH; [apply H1|]. exists l. done.
Qed.

Lemma foldl_insert_all (l : list (SegmentSource * CanonicalMessageId)) :
  NoDup l.*1 ->
  foldl (fun m p => <[p.1 := p.2]> m) (∅ : gmap SegmentSource CanonicalMessageId) l = list_to_map l.
Proof.
  intros Hl. assert (Hg : forall acc : gmap SegmentSource CanonicalMessageId,
    foldl (fun m p => <[p.1 := p.2]> m) acc l = list_to_map l ∪ acc).
  { induction l as [|[s o] l IH]; intros acc; simpl; [by rewrite map_empty_union|].
    apply NoDup_cons in Hl as [Hs Hl]. rewrite (IH Hl). rewrite <- insert_union_l, <- insert_union_r; [done|].
    by apply not_elem_of_list_to_map_1. }
  by rewrite Hg, map_union_empty.
Qed.

Lemma pv_from_bytes_exact `{!OrdinaryIdProto} b v :
  pv_from_bytes b = Ok v <-> vector_ok v /\ pv_to_bytes v = Ok b.
Proof.
  assert (Hk : 0 <= POSITION_VECTOR_KIND < 256) by done. unfold pv_from_bytes. split.
  - intros Hd. inv_ok. apply decode_envelope_exact in Hr; [|done].
    pose proof (proj1 (encode_envelope_exact _ _ _) Hr) as [_ Hs]. apply cursor_new_wf in Hs.
    destruct r0 as [e c1]. apply read_u64_exact in Hr0 as [H1 He]; [|done]. inv_ok.
    destruct r0 as [n c2]. apply read_u32_exact in Hr0 as [H2 Hn]; [|apply H1].
    case_match eqn:Hc; [done|]. inv_ok. destruct r0 as [m c3].
    apply read_components_exact in Hr0 as (l & Hl & Hok & Hsort & H3 & ->); [|apply H2]. inv_ok.
    apply Sorted_StronglySorted in Hsort; [|apply _]. simpl in Hsort. pose proof (sorted_lt_NoDup _ Hsort) as Hnd.
    rewrite foldl_insert_all by done. set (v := mkPositionVector e (list_to_map l)).
    assert (Hsz : Z.of_nat (size (pv_components v)) = n).
    { simpl. rewrite map_size_list_to_map by done. unfold u32_ok in Hn. lia. }
    assert (Hv : vector_ok v).
    { split_and!; [done|lia|]. intros s o Hso%elem_of_list_to_map_2. rewrite Forall_forall in Hok. by apply Hok. }
    split; [done|]. apply pv_to_bytes_exact; [done|].
    assert (Hrd : reads (Cursor_new r) (vector_payload v) c3).
    { unfold vector_payload. rewrite Hsz. simpl. rewrite btree_items_list_to_map by done.
      eapply reads_trans; [done|]. by eapply reads_trans. }
    apply (finish_exact _ _ _ _ Hs Hrd) in Hr0. by rewrite <- Hr0.
  - intros [Hv Hb]. apply pv_to_bytes_exact in Hb; [|done].
    rewrite (proj2 (decode_envelope_exact _ _ _ Hk) Hb). cbn [mbind result_bind].
    apply encode_envelope_exact in Hb as [_ Hs]. pose proof (reads_all _ Hs) as Hr. apply cursor_new_wf in Hs.
    pose proof Hr as Hr'. unfold vector_payload in Hr' at 2.
    apply reads_inv in Hr' as (c1 & H1 & Hr'); [|done]. apply reads_inv in Hr' as (c2 & H2 & H3); [|apply H1].
    pose proof Hv as (He & Hn & _).
    rewrite (proj2 (read_u64_exact _ _ c1 Hs)) by done. cbn [mbind result_bind].
    rewrite (proj2 (read_u32_exact _ _ c2 (proj1 (proj2 H1))))
      by (split; [done|]; assert (MAX_POSITION_COMPONENTS < u32_max) by done; unfold u32_ok; lia).
    cbn [mbind result_bind]. case_match eqn:E; [lia|]. rewrite Nat2Z.id.
    rewrite (proj2 (read_components_exact _ None ∅ c2 (pv_components v)
      (mkCursor (vector_payload v) (blen (vector_payload v))) (proj1 (proj2 H2)))).
    2: { exists (btree_items (pv_components v)). split_and!; [apply length_btree_items|by apply items_ok| |exact H3|].
         - apply StronglySorted_Sorted, btree_items_sorted.
         - rewrite foldl_insert_all by apply NoDup_btree_items. by rewrite list_to_map_btree_items. }
    cbn [mbind result_bind]. rewrite (proj2 (finish_exact _ _ _ tt Hs Hr)) by done. by destruct v.
Qed.

(** C37: the [MSTR] codec is exact, for a single id and for a vector: a byte string
    is accepted precisely when it is the encoding of a well-formed value, and
    then decodes to that value.  So every accepted string re-encodes to itself
    byte for byte (no second spelling, no trailing data, components in strictly
    increasing order), and every well-formed value that encodes is read back. *)
Theorem position_codec_exact `{!OrdinaryIdProto} :
  (forall b v, pv_from_bytes b = Ok v <-> vector_ok v /\ pv_to_bytes v = Ok b)
  /\ (forall b i, smi_from_bytes b = Ok i <-> stream_id_ok i /\ smi_to_bytes i = Ok b).
Proof. split; intros b x; [apply pv_from_bytes_exact|apply smi_from_bytes_exact]. Qed.

(** * Building a vector *)

(** The fields of an in-memory id, as their types bound them. *)
Definition mid_typed (m : MessageId) : Prop :=
  u64_ok (ledger_id m) /\ u64_ok (entry_id m)
  /\ i32_ok (partition m) /\ i32_ok (batch_index m) /\ i32_ok (batch_size m).

Definition mid_possible (m : MessageId) : Prop :=
  -1 <= partition m /\ -1 <= batch_index m /\ -1 <= batch_size m.

Definition canonical_of (m : MessageId) : CanonicalMessageId :=
  mkCanonical m (WireLaws.id_bytes (mid_to_pb m)).

Lemma id_bytes_small m : blen (WireLaws.id_bytes (mid_to_pb m)) <= MAX_ORDINARY_MESSAGE_ID_SIZE.
Proof.
  rewrite WireLaws.id_bytes_len, WireLaws.scalar_fields_len. destruct m as [l e p bi bs]. simpl.
  pose proof (WireLaws.varint_field_len_pos 1 l). pose proof (WireLaws.varint_field_len_pos 2 e).
  pose proof (WireLaws.varint_field_len_pos 3 (signed_i32_varint p)).
  pose proof (WireLaws.varint_field_len_pos 4 (signed_i32_varint bi)).
  pose proof (WireLaws.varint_field_len_pos 6 (signed_i32_varint bs)).
  unfold MAX_ORDINARY_MESSAGE_ID_SIZE. lia.
Qed.

Lemma from_message_id_ok m o : from_message_id m = Ok o <-> mid_possible m /\ o = canonical_of m.
Proof.
  unfold from_message_id, canonical_of, mid_possible.
  assert (Hv : forall u, validate_ordinary_id (mid_to_pb m) false = Ok u
    <-> -1 <= partition m /\ -1 <= batch_index m /\ -1 <= batch_size m).
  { intros []. destruct m as [l e p bi bs]. simpl. repeat case_match; split; (done || lia). }
  assert (He : encode_canonical_ordinary_id (mid_to_pb m) = Ok (WireLaws.id_bytes (mid_to_pb m)))
    by (apply WireLaws.encode_canonical_exact; split; [done|apply id_bytes_small]).
  rewrite He. split.
  - intros H. inv_ok. by apply Hv in Hr.
  - intros [H ->]. by rewrite (proj2 (Hv tt)).
Qed.

Lemma canonical_of_ok m : mid_typed m -> mid_possible m -> ordinary_ok (canonical_of m).
Proof.
  intros (H1 & H2 & H3 & H4 & H5) Hp. exists (mid_to_pb m). split_and!.
  - repeat split; try apply H1; try apply H2; try apply H3; try apply H4; try apply H5; constructor.
  - destruct (proj2 (from_message_id_ok m _) (conj Hp eq_refl)). unfold from_message_id in *.
    destruct m as [l e p bi bs]. destruct Hp as (? & ? & ?). simpl in *. repeat case_match; (done || lia).
  - apply WireLaws.encode_canonical_exact. split; [done|apply id_bytes_small].
  - by rewrite mid_from_to_pb.
Qed.

Lemma pv_new_loop_ok comps acc m :
  pv_new_loop comps acc = Ok m
  -> Forall (fun p => blen (src_topic p.1) <= MAX_POSITION_TOPIC_SIZE /\ mid_possible p.2) comps
     /\ NoDup comps.*1 /\ (forall s, s ∈ comps.*1 -> acc !! s = None)
     /\ m = list_to_map (prod_map id canonical_of <$> comps) ∪ acc
     /\ (Z.of_nat (size acc) <= MAX_POSITION_COMPONENTS -> Z.of_nat (size m) <= MAX_POSITION_COMPONENTS).
Proof.
  revert acc. induction comps as [|[s id] comps IH]; intros acc; cbn [pv_new_loop].
  - intros [= <-]. csimpl. split_and!; [done|constructor|by intros s ?%elem_of_nil|by rewrite map_empty_union|done].
  - intros H. inv_ok. apply validate_source_size_ok in Hr. apply from_message_id_ok in Hr0 as [Hp ->].
    case_bool_decide as Hs; [done|]. case_match eqn:Hsz; [done|]. rewrite <- eq_None_not_Some in Hs.
    apply IH in H as (Hf & Hnd & Hacc & -> & Hm). csimpl.
    assert (Hin : s ∉ comps.*1) by (intros Hin%Hacc; by rewrite lookup_insert_eq in Hin).
    split_and!; [by constructor|by constructor| | |intros _; apply Hm; lia].
    + intros s' [->|Hs']%elem_of_cons; [done|]. specialize (Hacc s' Hs').
      by apply lookup_insert_None in Hacc as [? _].
    + rewrite <- insert_union_l, <- insert_union_r; [done|]. apply not_elem_of_list_to_map_1.
      rewrite <- list_fmap_compose. done.
Qed.

Lemma pv_new_ok e comps v :
  u64_ok e -> Forall (fun p => source_ok p.1 /\ mid_typed p.2) comps -> pv_new e comps = Ok v ->
  vector_ok v /\ (forall s id, pv_get v s = Some id <-> (s, id) ∈ comps).
Proof.
  intros He Hc H. unfold pv_new in H. inv_ok.
  apply pv_new_loop_ok in Hr as (Hf & Hnd & _ & Heq & Hm). rewrite map_union_empty in Heq. subst r.
  assert (Hkeys : (prod_map id canonical_of <$> comps).*1 = comps.*1) by by rewrite <- list_fmap_compose.
  assert (Hlk : forall s o, (list_to_map (prod_map id canonical_of <$> comps) : gmap _ _) !! s = Some o
    <-> exists m, o = canonical_of m /\ (s, m) ∈ comps).
  { intros s o. rewrite <- elem_of_list_to_map by by rewrite Hkeys. rewrite list_elem_of_fmap. split.
    - intros ([s' m] & [= -> ->] & Hin). eauto.
    - intros (m & -> & Hin). by exists (s, m). }
  split; [split_and!; [done|apply Hm; rewrite map_size_empty; done|]|].
  - simpl. intros s o (m & -> & Hin)%Hlk. rewrite Forall_forall in Hc, Hf.
    destruct (Hc _ Hin) as [? ?], (Hf _ Hin) as [_ ?]. split; [done|]. by apply canonical_of_ok.
  - intros s m. unfold pv_get. simpl. rewrite fmap_Some. split.
    + intros (o & (m' & -> & Hin)%Hlk & ->). done.
    + intros Hin. exists (canonical_of m). split; [|done]. apply Hlk. eauto.
Qed.

Lemma all_bytes_bound l :
  Forall component_ok l ->
  blen (all_bytes l)
  <= blen l * (16 + MAX_POSITION_TOPIC_SIZE + MAX_ORDINARY_MESSAGE_ID_SIZE).
Proof.
  induction 1 as [|[s o] l [(_ & _ & _ & Ht) Ho%ordinary_len] _ IH]; [done|].
  rewrite blen_all_bytes_cons, blen_component, blen_cons. simpl in *. lia.
Qed.

(** A vector encodes unless the envelope would exceed its limit. *)
Lemma pv_encode_total v :
  vector_ok v ->
  let n := HEADER_LEN + blen (vector_payload v) in
  if n <=? MAX_STREAM_POSITION_SIZE
  then pv_to_bytes v = Ok (header POSITION_VECTOR_KIND (blen (vector_payload v)) ++ vector_payload v)
       /\ pv_encoded_len v = Ok n
  else pv_to_bytes v = Err (EnvelopeTooLarge n MAX_STREAM_POSITION_SIZE)
       /\ pv_encoded_len v = Err (EnvelopeTooLarge n MAX_STREAM_POSITION_SIZE).
Proof.
  intros Hv n. pose proof (items_ok v Hv) as Hl. pose proof (all_bytes_bound _ Hl) as Hb.
  pose proof Hv as (_ & Hn & _). unfold blen in Hb at 2. rewrite length_btree_items in Hb.
  assert (Hp : blen (vector_payload v) = 12 + blen (all_bytes (btree_items (pv_components v)))).
  { unfold vector_payload. rewrite !blen_app, !blen_be_bytes. lia. }
  pose proof (blen_nonneg (all_bytes (btree_items (pv_components v)))) as H0.
  assert (Hu : n <= usize_max).
  { unfold n, HEADER_LEN. rewrite Hp. unfold MAX_POSITION_COMPONENTS, MAX_POSITION_TOPIC_SIZE,
      MAX_ORDINARY_MESSAGE_ID_SIZE, usize_max, u64_max in *. lia. }
  assert (Hlen : payload_encoded_len v = Ok (blen (vector_payload v))).
  { unfold payload_encoded_len. rewrite payload_len_fold_ok; [by rewrite Hp|lia|done|].
    unfold n, HEADER_LEN in Hu. lia. }
  assert (Henv : checked_envelope_len (blen (vector_payload v))
    = if n <=? MAX_STREAM_POSITION_SIZE then Ok n else Err (EnvelopeTooLarge n MAX_STREAM_POSITION_SIZE)).
  { unfold checked_envelope_len. rewrite checked_add_small by done. cbn [ok_or mbind result_bind].
    fold n. destruct (n >? _) eqn:E1, (n <=? _) eqn:E2; (done || lia). }
  unfold pv_encoded_len. destruct (n <=? MAX_STREAM_POSITION_SIZE) eqn:E.
  - split; [|rewrite Hlen; simpl; by rewrite Henv]. apply pv_to_bytes_exact; [done|].
    apply encode_envelope_exact. split; [done|]. unfold n in E. lia.
  - unfold pv_to_bytes. rewrite Hlen. simpl. by rewrite Henv.
Qed.

(** Positions survive being saved: a vector built by [PositionVector::new] from
    valid sources and ids holds exactly the given position of each source; it
    either serializes, to the announced number of bytes, at most one mebibyte,
    which deserialize to the same vector, or it is refused, before anything is
    written, with its exact oversize.  No other error can occur. *)
Theorem position_vector_saved `{!OrdinaryIdProto} e comps v :
  u64_ok e -> Forall (fun p => source_ok p.1 /\ mid_typed p.2) comps -> pv_new e comps = Ok v ->
  (forall s id, pv_get v s = Some id <-> (s, id) ∈ comps)
  /\ ((exists b, pv_to_bytes v = Ok b /\ pv_from_bytes b = Ok v /\ pv_encoded_len v = Ok (blen b)
                 /\ blen b <= MAX_STREAM_POSITION_SIZE)
      \/ (exists n, MAX_STREAM_POSITION_SIZE < n
                 /\ pv_to_bytes v = Err (EnvelopeTooLarge n MAX_STREAM_POSITION_SIZE)
                 /\ pv_encoded_len v = Err (EnvelopeTooLarge n MAX_STREAM_POSITION_SIZE))).
Proof.
  intros He Hc Hv. apply pv_new_ok in Hv as [Hv Hget]; [|done..]. split; [done|].
  pose proof (pv_encode_total v Hv) as Ht. cbv zeta in Ht.
  destruct (_ <=? _) eqn:E; destruct Ht as [Hb Hl].
  - left. eexists. split_and!; [exact Hb|by apply pv_from_bytes_exact| |]; rewrite blen_app, blen_header; [done|lia].
  - right. eexists. split; [|by split]. lia.
Qed.
End Exact.
