(* ===== verification/ReceiverBudget.v ===== *)
(** * The receive budget of a stream consumer

    [stream_consumer.rs]: the ledger of bytes an aggregate consumer may hold
    ([ReceiverBudgetState]).  Every permit, retained message, assembly and
    delivery lease is a reservation; headroom for the position metadata of a
    delivery and a reserve for cleanup are kept apart.  The ledger's invariant
    shows that both are always there. *)

From S2P Require Import Prelude Ids Frame SegmentTopic OrdinaryId.

Definition CONTROL_PLANE_CLEANUP_RESERVE : Z := 64 * 1024.
Definition MIN_RETAINED_MESSAGE_RESERVATION : Z := 64.
Definition DELIVERY_AUTHORITY_OVERHEAD : Z := 64.
Definition DELIVERY_ACK_GENERATION_OVERHEAD : Z := 8.
Definition POSITION_COMPONENT_NODE_OVERHEAD : Z := 256.
Definition RECEIVER_BUDGET_AUTHORITY_HEADROOM : Z :=
  5 * MAX_STREAM_POSITION_SIZE + 3 * MAX_POSITION_COMPONENTS * POSITION_COMPONENT_NODE_OVERHEAD
  + 2 * DELIVERY_AUTHORITY_OVERHEAD + DELIVERY_ACK_GENERATION_OVERHEAD.

Record BudgetReservationOwner := mkOwner {
  ow_segment_id : Z;
  ow_child_generation : Z;
}.

#[global] Instance BudgetReservationOwner_eq_dec : EqDecision BudgetReservationOwner.
Proof. solve_decision. Defined.

Inductive BudgetUse :=
| FlowPermit | RetainedMessage | ChunkAssembly | Decompression | BatchAssembly
| OrderingBarrier | DeliveryLease | DeliveredPositionMetadata | RetiringChild.

#[global] Instance BudgetUse_eq_dec : EqDecision BudgetUse.
Proof. solve_decision. Defined.

Inductive BudgetError :=
| BudgetTooSmall (bytes minimum : Z)
| Exhausted (requested available : Z)
| MessageTooLargeForBudget (required limit : Z)
| PreallocationExceeded (required reserved : Z)
| ControlReserveExhausted (requested available : Z)
| UnknownReservation (reservation : Z)
| ReservationUseMismatch (reservation : Z) (actual expected : BudgetUse)
| ReservationOwnerMismatch (reservation : Z) (actual : option BudgetReservationOwner)
    (expected : BudgetReservationOwner)
| ReservationIdExhausted.

(** [ReceiverBudget], the validated limit *)
Definition ReceiverBudget_bytes (bytes : Z) : result BudgetError Z :=
  let minimum := saturating_add usize_max
                   (saturating_add usize_max MAX_FRAME_SIZE RECEIVER_BUDGET_AUTHORITY_HEADROOM)
                   CONTROL_PLANE_CLEANUP_RESERVE in
  if bytes <? minimum then Err (BudgetTooSmall bytes minimum) else Ok bytes.

Definition data_limit (budget : Z) : Z := budget - CONTROL_PLANE_CLEANUP_RESERVE.

Record DataReservation := mkReservation {
  dr_use : BudgetUse;
  dr_bytes : Z;
  dr_authority_bytes : Z;
  dr_owner : option BudgetReservationOwner;
}.

#[global] Instance DataReservation_eq_dec : EqDecision DataReservation.
Proof. solve_decision. Defined.

Record ReceiverBudgetState := mkBudgetState {
  bs_budget : Z;
  bs_data_used : Z;
  bs_control_used : Z;
  bs_next_id : Z;
  bs_reservations : gmap Z DataReservation;
}.

#[global] Instance ReceiverBudgetState_eta : Eta ReceiverBudgetState := fun s =>
  mkBudgetState (bs_budget s) (bs_data_used s) (bs_control_used s) (bs_next_id s) (bs_reservations s).

Definition budget_new (budget : Z) : ReceiverBudgetState := mkBudgetState budget 0 0 0 ∅.

Definition data_available (s : ReceiverBudgetState) : Z := data_limit (bs_budget s) - bs_data_used s.

Definition authority_used (s : ReceiverBudgetState) : Z :=
  foldl (fun used r => saturating_add usize_max used (dr_authority_bytes r)) 0
        (btree_items (bs_reservations s)).*2.

Definition charged_bytes (use : BudgetUse) (bytes : Z) : Z :=
  if decide (use = RetainedMessage) then Z.max bytes MIN_RETAINED_MESSAGE_RESERVATION else bytes.

Definition implied_authority (use : BudgetUse) (bytes : Z) : Z :=
  if decide (use = DeliveredPositionMetadata) then bytes else 0.

Definition effective_limit (s : ReceiverBudgetState) (authority_bytes : Z) : Z :=
  saturating_sub (data_limit (bs_budget s))
    (saturating_sub RECEIVER_BUDGET_AUTHORITY_HEADROOM authority_bytes).

Definition reserve_inner (use : BudgetUse) (bytes : Z) (owner : option BudgetReservationOwner)
    (s : ReceiverBudgetState) : result BudgetError (Z * ReceiverBudgetState) :=
  let bytes := charged_bytes use bytes in
  if bytes >? data_limit (bs_budget s)
  then Err (MessageTooLargeForBudget bytes (data_limit (bs_budget s)))
  else
    let authority_bytes := implied_authority use bytes in
    let limit := effective_limit s authority_bytes in
    if bytes >? limit then Err (MessageTooLargeForBudget bytes limit)
    else
      let authority_remaining :=
        saturating_sub RECEIVER_BUDGET_AUTHORITY_HEADROOM
          (saturating_add usize_max (authority_used s) authority_bytes) in
      let available := saturating_sub (data_available s) authority_remaining in
      if bytes >? available then Err (Exhausted bytes available)
      else
        let id := bs_next_id s in
        next_id ← ok_or (checked_add u64_max id 1) ReservationIdExhausted;
        Ok (id, s <| bs_next_id := next_id |> <| bs_data_used := bs_data_used s + bytes |>
                  <| bs_reservations := <[id := mkReservation use bytes authority_bytes owner]>
                                          (bs_reservations s) |>).

Definition reserve (use : BudgetUse) (bytes : Z) (s : ReceiverBudgetState)
    : result BudgetError (Z * ReceiverBudgetState) := reserve_inner use bytes None s.

Definition reserve_owned (owner : BudgetReservationOwner) (use : BudgetUse) (bytes : Z)
    (s : ReceiverBudgetState) : result BudgetError (Z * ReceiverBudgetState) :=
  reserve_inner use bytes (Some owner) s.

Definition reserve_flow (s : ReceiverBudgetState) : result BudgetError (Z * ReceiverBudgetState) :=
  let authority_remaining := saturating_sub RECEIVER_BUDGET_AUTHORITY_HEADROOM (authority_used s) in
  let flow_available := saturating_sub (data_available s) authority_remaining in
  if MAX_FRAME_SIZE >? flow_available then Err (Exhausted MAX_FRAME_SIZE flow_available)
  else reserve FlowPermit MAX_FRAME_SIZE s.

Definition owned (reservation : Z) (owner : BudgetReservationOwner) (expected : BudgetUse)
    (s : ReceiverBudgetState) : result BudgetError DataReservation :=
  entry ← ok_or (bs_reservations s !! reservation) (UnknownReservation reservation);
  if negb (bool_decide (dr_owner entry = Some owner))
  then Err (ReservationOwnerMismatch reservation (dr_owner entry) owner)
  else if negb (bool_decide (dr_use entry = expected))
  then Err (ReservationUseMismatch reservation (dr_use entry) expected)
  else Ok entry.

Definition transfer_inner (reservation : Z) (expected new_use : BudgetUse) (bytes : Z)
    (authority : option Z) (s : ReceiverBudgetState) : result BudgetError ReceiverBudgetState :=
  match bs_reservations s !! reservation with
  | None => Err (UnknownReservation reservation)
  | Some current =>
      if negb (bool_decide (dr_use current = expected))
      then Err (ReservationUseMismatch reservation (dr_use current) expected)
      else
        let bytes := charged_bytes new_use bytes in
        let authority_bytes := default (implied_authority new_use bytes) authority in
        let limit := effective_limit s authority_bytes in
        if bytes >? limit then Err (MessageTooLargeForBudget bytes limit)
        else
          let available_with_current := saturating_add usize_max (data_available s) (dr_bytes current) in
          let used := saturating_add usize_max
                        (saturating_sub (authority_used s) (dr_authority_bytes current)) authority_bytes in
          let authority_remaining := saturating_sub RECEIVER_BUDGET_AUTHORITY_HEADROOM used in
          let available := saturating_sub available_with_current authority_remaining in
          if bytes >? available then Err (Exhausted bytes available)
          else Ok (s <| bs_data_used := bs_data_used s - dr_bytes current + bytes |>
                     <| bs_reservations :=
                          <[reservation := mkReservation new_use bytes authority_bytes (dr_owner current)]>
                            (bs_reservations s) |>)
  end.

Definition transfer (reservation : Z) (expected new_use : BudgetUse) (bytes : Z)
    (s : ReceiverBudgetState) : result BudgetError ReceiverBudgetState :=
  transfer_inner reservation expected new_use bytes None s.

Definition transfer_owned (reservation : Z) (owner : BudgetReservationOwner)
    (expected new_use : BudgetUse) (bytes : Z) (s : ReceiverBudgetState)
    : result BudgetError ReceiverBudgetState :=
  _ ← owned reservation owner expected s;
  transfer_inner reservation expected new_use bytes None s.

Definition transfer_owned_with_authority (reservation : Z) (owner : BudgetReservationOwner)
    (expected new_use : BudgetUse) (bytes authority_bytes : Z) (s : ReceiverBudgetState)
    : result BudgetError ReceiverBudgetState :=
  _ ← owned reservation owner expected s;
  transfer_inner reservation expected new_use bytes (Some authority_bytes) s.

Definition release (reservation : Z) (s : ReceiverBudgetState)
    : result BudgetError ReceiverBudgetState :=
  match bs_reservations s !! reservation with
  | None => Err (UnknownReservation reservation)
  | Some entry =>
      Ok (s <| bs_reservations := delete reservation (bs_reservations s) |>
            <| bs_data_used := bs_data_used s - dr_bytes entry |>)
  end.

Definition reserve_control (bytes : Z) (s : ReceiverBudgetState)
    : result BudgetError ReceiverBudgetState :=
  let available := CONTROL_PLANE_CLEANUP_RESERVE - bs_control_used s in
  if bytes >? available then Err (ControlReserveExhausted bytes available)
  else Ok (s <| bs_control_used := bs_control_used s + bytes |>).

Definition release_control (bytes : Z) (s : ReceiverBudgetState) : ReceiverBudgetState :=
  s <| bs_control_used := saturating_sub (bs_control_used s) bytes |>.

Definition owned_ids (owner : BudgetReservationOwner) (s : ReceiverBudgetState) : list Z :=
  omap (fun '(id, entry) => if decide (dr_owner entry = Some owner) then Some id else None)
       (btree_items (bs_reservations s)).

(** The removal of [release_owner], one id at a time. *)
Definition remove_reservation (s : ReceiverBudgetState) (id : Z) : ReceiverBudgetState :=
  match bs_reservations s !! id with
  | Some entry =>
      s <| bs_reservations := delete id (bs_reservations s) |>
        <| bs_data_used := saturating_sub (bs_data_used s) (dr_bytes entry) |>
  | None => s
  end.

Definition release_owner (owner : BudgetReservationOwner) (s : ReceiverBudgetState)
    : list Z * ReceiverBudgetState :=
  let ids := owned_ids owner s in
  (ids, foldl remove_reservation s ids).

(** * The invariant *)

Definition minimum_budget : Z :=
  MAX_FRAME_SIZE + RECEIVER_BUDGET_AUTHORITY_HEADROOM + CONTROL_PLANE_CLEANUP_RESERVE.

(** Authority bytes recorded by the reservations. *)
Definition authority_sum (s : ReceiverBudgetState) : Z := map_sum dr_authority_bytes (bs_reservations s).

(** Headroom not yet used by the position metadata already recorded. *)
Definition headroom_left (authority : Z) : Z := saturating_sub RECEIVER_BUDGET_AUTHORITY_HEADROOM authority.

Record budget_ok (s : ReceiverBudgetState) : Prop := {
  ok_limit : minimum_budget <= bs_budget s <= usize_max;
  ok_entries : forall id r, bs_reservations s !! id = Some r ->
    0 <= dr_authority_bytes r <= dr_bytes r /\ 0 <= id < bs_next_id s;
  ok_used : bs_data_used s = map_sum dr_bytes (bs_reservations s);
  ok_headroom : bs_data_used s + headroom_left (authority_sum s) <= data_limit (bs_budget s);
  ok_control : 0 <= bs_control_used s <= CONTROL_PLANE_CLEANUP_RESERVE;
  ok_next : 0 <= bs_next_id s <= u64_max;
}.

Lemma headroom_pos : 0 < RECEIVER_BUDGET_AUTHORITY_HEADROOM /\ 0 < MAX_FRAME_SIZE
  /\ 0 < CONTROL_PLANE_CLEANUP_RESERVE.
Proof. done. Qed.

Lemma budget_sums s :
  budget_ok s -> 0 <= authority_sum s <= bs_data_used s /\ bs_data_used s <= data_limit (bs_budget s).
Proof.
  intros Hs. rewrite (ok_used _ Hs). unfold authority_sum. split; [split|].
  - apply map_sum_nonneg. intros i r Hr. apply (ok_entries _ Hs) in Hr. lia.
  - apply map_sum_le. intros i r Hr. apply (ok_entries _ Hs) in Hr. lia.
  - pose proof (ok_headroom _ Hs) as H. rewrite (ok_used _ Hs) in H.
    unfold headroom_left, saturating_sub in H. lia.
Qed.

Lemma saturating_fold f (l : list DataReservation) acc :
  (forall r, r ∈ l -> 0 <= f r) -> acc + foldr (fun r t => f r + t) 0 l <= usize_max ->
  foldl (fun used r => saturating_add usize_max used (f r)) acc l = acc + foldr (fun r t => f r + t) 0 l.
Proof.
  revert acc. induction l as [|r l IH]; intros acc Hf Hs; simpl in *; [lia|].
  assert (Hl : 0 <= foldr (fun r t => f r + t) 0 l).
  { clear -Hf. induction l as [|x l IH]; simpl; [lia|]. pose proof (Hf x ltac:(set_solver)).
    assert (0 <= foldr (fun r t => f r + t) 0 l) by (apply IH; set_solver). lia. }
  unfold saturating_add at 2. rewrite Z.min_r by lia. rewrite IH; [lia|set_solver|lia].
Qed.

Lemma authority_used_sum s : budget_ok s -> authority_used s = authority_sum s.
Proof.
  intros Hs. pose proof (budget_sums s Hs) as [[? ?] ?]. pose proof (ok_limit _ Hs).
  pose proof (map_sum_list dr_authority_bytes (bs_reservations s)) as Hl.
  unfold authority_used, authority_sum in *. rewrite Hl in *.
  rewrite saturating_fold; [lia| |unfold data_limit in *; pose proof headroom_pos; lia].
  intros r ([k r'] & -> & Hr%elem_of_btree_items)%list_elem_of_fmap. apply (ok_entries _ Hs) in Hr. simpl. lia.
Qed.

Lemma charged_nonneg use bytes : 0 <= bytes -> 0 <= charged_bytes use bytes.
Proof. unfold charged_bytes. case_decide; lia. Qed.

Lemma implied_authority_le use bytes : 0 <= bytes -> 0 <= implied_authority use bytes <= bytes.
Proof. unfold implied_authority. case_decide; lia. Qed.

(** A reservation is admitted exactly when it leaves the headroom in place. *)
Lemma reserve_exact use bytes owner s id s' :
  budget_ok s -> 0 <= bytes ->
  reserve_inner use bytes owner s = Ok (id, s')
  <-> id = bs_next_id s /\ id < u64_max
      /\ (let charged := charged_bytes use bytes in
          let authority := implied_authority use charged in
          bs_data_used s + charged + headroom_left (authority_sum s + authority) <= data_limit (bs_budget s)
          /\ s' = s <| bs_next_id := id + 1 |> <| bs_data_used := bs_data_used s + charged |>
                    <| bs_reservations := <[id := mkReservation use charged authority owner]>
                                            (bs_reservations s) |>).
Proof.
  intros Hs Hb. pose proof (charged_nonneg use bytes Hb) as Hc. revert Hc. unfold reserve_inner.
  generalize (charged_bytes use bytes). clear bytes Hb. intros bytes Hc. cbv zeta.
  pose proof (implied_authority_le use bytes Hc) as Ha. revert Ha.
  generalize (implied_authority use bytes). intros a Ha.
  rewrite (authority_used_sum s Hs). pose proof (budget_sums s Hs) as [[? ?] ?].
  pose proof (ok_limit _ Hs) as Hl. pose proof (ok_headroom _ Hs) as Hh. pose proof headroom_pos.
  unfold effective_limit, data_available, headroom_left, saturating_sub, saturating_add, minimum_budget in *.
  unfold data_limit in *. split.
  - do 3 (destruct_if; [discriminate|]). intros H'. inv_ok. apply checked_add_Some in Hr as [-> Hr].
    split; [lia|]. split; [lia|]. split; [lia|]. congruence.
  - intros (-> & Hid & Hfit & ->). do 3 (destruct_if; [lia|]).
    rewrite checked_add_small by lia. reflexivity.
Qed.

Lemma reserve_ok use bytes owner s id s' :
  budget_ok s -> 0 <= bytes -> reserve_inner use bytes owner s = Ok (id, s') -> budget_ok s'.
Proof.
  intros Hs Hb H. apply reserve_exact in H as (-> & Hid & Hfit & ->); [|done..]. cbv zeta in Hfit.
  pose proof (charged_nonneg use bytes Hb) as Hc. revert Hc Hfit. generalize (charged_bytes use bytes).
  intros c Hc. pose proof (implied_authority_le use c Hc) as Ha. revert Ha. generalize (implied_authority use c).
  intros a Ha Hfit.
  assert (Hfresh : bs_reservations s !! bs_next_id s = None).
  { apply eq_None_not_Some. intros [r Hr]. apply (ok_entries _ Hs) in Hr. lia. }
  split; simpl; try apply Hs.
  - intros i r [[<- <-]|[_ Hr]]%lookup_insert_Some; simpl; [pose proof (ok_next _ Hs); lia|].
    apply (ok_entries _ Hs) in Hr. lia.
  - rewrite map_sum_insert by done. simpl. rewrite (ok_used _ Hs). lia.
  - unfold authority_sum in *. simpl. rewrite map_sum_insert by done. simpl. rewrite (Z.add_comm a). done.
  - pose proof (ok_next _ Hs). lia.
Qed.

Lemma transfer_exact id expected new_use bytes authority s s' current :
  budget_ok s -> 0 <= bytes -> bs_reservations s !! id = Some current ->
  (let charged := charged_bytes new_use bytes in
   0 <= default (implied_authority new_use charged) authority <= charged) ->
  transfer_inner id expected new_use bytes authority s = Ok s'
  <-> dr_use current = expected
      /\ (let charged := charged_bytes new_use bytes in
          let a := default (implied_authority new_use charged) authority in
          bs_data_used s - dr_bytes current + charged
            + headroom_left (authority_sum s - dr_authority_bytes current + a) <= data_limit (bs_budget s)
          /\ s' = s <| bs_data_used := bs_data_used s - dr_bytes current + charged |>
                    <| bs_reservations := <[id := mkReservation new_use charged a (dr_owner current)]>
                                            (bs_reservations s) |>).
Proof.
  intros Hs Hb Hcur Ha. unfold transfer_inner. rewrite Hcur. cbv zeta in *. revert Ha.
  pose proof (charged_nonneg new_use bytes Hb) as Hc. revert Hc. generalize (charged_bytes new_use bytes).
  clear bytes Hb. intros c Hc. generalize (default (implied_authority new_use c) authority). intros a Ha.
  rewrite (authority_used_sum s Hs). pose proof (budget_sums s Hs) as [[? ?] ?].
  pose proof (ok_entries _ Hs _ _ Hcur) as [Hcb _].
  assert (Hle : dr_authority_bytes current <= authority_sum s).
  { apply (map_sum_elem dr_authority_bytes _ id); [|done]. intros j y Hy. apply (ok_entries _ Hs) in Hy. lia. }
  assert (Hlb : dr_bytes current <= bs_data_used s
    /\ dr_bytes current - dr_authority_bytes current <= bs_data_used s - authority_sum s).
  { rewrite (ok_used _ Hs). split.
    - apply (map_sum_elem dr_bytes _ id); [|done]. intros j y Hy. apply (ok_entries _ Hs) in Hy. lia.
    - pose proof (map_sum_delete dr_bytes _ _ _ Hcur) as H1'.
      pose proof (map_sum_delete dr_authority_bytes _ _ _ Hcur) as H2'. unfold authority_sum.
      assert (map_sum dr_authority_bytes (delete id (bs_reservations s))
              <= map_sum dr_bytes (delete id (bs_reservations s))); [|lia].
      apply map_sum_le. intros j y [_ Hy]%lookup_delete_Some. apply (ok_entries _ Hs) in Hy. lia. }
  pose proof (ok_limit _ Hs) as Hl. pose proof (ok_headroom _ Hs) as Hh. pose proof headroom_pos as Hp.
  unfold effective_limit, data_available, headroom_left, saturating_sub, saturating_add, minimum_budget in *.
  unfold data_limit in *. split.
  - case_bool_decide as Hu; [|discriminate]. cbn [negb].
    do 2 (destruct_if; [discriminate|]).
    intros H'. split; [exact Hu|]. injection H' as <-. split; [lia|reflexivity].
  - intros (Hu & Hfit & ->). rewrite bool_decide_eq_true_2 by exact Hu. cbn [negb].
    do 2 (destruct_if; [lia|]). reflexivity.
Qed.

Lemma transfer_ok id expected new_use bytes authority s s' :
  budget_ok s -> 0 <= bytes ->
  (let charged := charged_bytes new_use bytes in
   0 <= default (implied_authority new_use charged) authority <= charged) ->
  transfer_inner id expected new_use bytes authority s = Ok s' -> budget_ok s'.
Proof.
  intros Hs Hb Ha H. destruct (bs_reservations s !! id) as [cur|] eqn:Hcur.
  2: { unfold transfer_inner in H. by rewrite Hcur in H. }
  destruct (proj1 (transfer_exact _ _ _ _ _ _ _ cur Hs Hb Hcur Ha) H) as (_ & Hfit & ->). cbv zeta in *. revert Ha Hfit.
  generalize (default (implied_authority new_use (charged_bytes new_use bytes)) authority).
  generalize (charged_bytes new_use bytes). intros c a Ha Hfit.
  split; simpl; try apply Hs.
  - intros i r [[<- <-]|[_ Hr]]%lookup_insert_Some; simpl; [|by apply (ok_entries _ Hs)].
    pose proof (ok_entries _ Hs _ _ Hcur). lia.
  - rewrite (map_sum_replace _ _ _ cur) by done. simpl. rewrite (ok_used _ Hs). lia.
  - unfold authority_sum in *. simpl. rewrite (map_sum_replace _ _ _ cur) by done. done.
Qed.

Lemma headroom_shrink a b : a <= b -> headroom_left a <= headroom_left b + (b - a).
Proof. unfold headroom_left, saturating_sub. lia. Qed.

(** Removing one reservation. *)
Lemma remove_ok id s cur :
  budget_ok s -> bs_reservations s !! id = Some cur ->
  budget_ok (s <| bs_reservations := delete id (bs_reservations s) |>
               <| bs_data_used := bs_data_used s - dr_bytes cur |>).
Proof.
  intros Hs Hcur. pose proof (ok_entries _ Hs _ _ Hcur) as [Hc _]. split; simpl; try apply Hs.
  - intros i r [_ Hr]%lookup_delete_Some. by apply (ok_entries _ Hs).
  - rewrite (map_sum_delete _ _ _ cur) by done. by rewrite (ok_used _ Hs).
  - unfold authority_sum. simpl. rewrite (map_sum_delete _ _ _ cur) by done.
    pose proof (ok_headroom _ Hs) as Hh. unfold authority_sum in Hh.
    pose proof (headroom_shrink (map_sum dr_authority_bytes (bs_reservations s) - dr_authority_bytes cur)
                  (map_sum dr_authority_bytes (bs_reservations s))). lia.
Qed.

Lemma remove_reservation_eq s id :
  budget_ok s ->
  remove_reservation s id = match release id s with Ok s' => s' | Err _ => s end.
Proof.
  intros Hs. unfold remove_reservation, release. destruct (bs_reservations s !! id) as [cur|] eqn:E; [|done].
  unfold saturating_sub. rewrite Z.max_r; [done|]. rewrite (ok_used _ Hs).
  pose proof (map_sum_elem dr_bytes (bs_reservations s) id cur) as H. enough (dr_bytes cur <= map_sum dr_bytes (bs_reservations s)) by lia.
  apply H; [|done]. intros j y Hy. apply (ok_entries _ Hs) in Hy. lia.
Qed.

Lemma release_ok id s s' : budget_ok s -> release id s = Ok s' -> budget_ok s'.
Proof.
  intros Hs. unfold release. destruct (bs_reservations s !! id) eqn:E; [|done]. intros [= <-].
  by apply remove_ok.
Qed.

Lemma remove_reservation_ok s id : budget_ok s -> budget_ok (remove_reservation s id).
Proof.
  intros Hs. rewrite remove_reservation_eq by done. destruct (release id s) eqn:E; [|done].
  by eapply release_ok.
Qed.

Lemma remove_all_ok ids s :
  budget_ok s ->
  budget_ok (foldl remove_reservation s ids)
  /\ (forall i, bs_reservations (foldl remove_reservation s ids) !! i
             = if decide (i ∈ ids) then None else bs_reservations s !! i).
Proof.
  revert s. induction ids as [|id ids IH]; intros s Hs; [split; [done|]; intros i; by rewrite decide_False by set_solver|].
  simpl. destruct (IH (remove_reservation s id) (remove_reservation_ok _ _ Hs)) as [H1 H2].
  split; [done|]. intros i. rewrite H2.
  assert (Hl : bs_reservations (remove_reservation s id) !! i
             = if decide (i = id) then None else bs_reservations s !! i).
  { unfold remove_reservation. destruct (bs_reservations s !! id) eqn:E; simpl.
    - case_decide; subst; [apply lookup_delete_eq|by apply lookup_delete_ne].
    - case_decide; by subst. }
  rewrite Hl. repeat case_decide; set_solver.
Qed.

Lemma elem_of_owned_ids owner s i :
  i ∈ owned_ids owner s <-> exists r, bs_reservations s !! i = Some r /\ dr_owner r = Some owner.
Proof.
  unfold owned_ids. rewrite list_elem_of_omap. split.
  - intros ([j r] & Hj%elem_of_btree_items & Hi). case_decide; simplify_eq. eauto.
  - intros (r & Hr & Ho). exists (i, r). rewrite elem_of_btree_items. by rewrite decide_True.
Qed.

(** Releasing an owner removes exactly its reservations. *)
Lemma release_owner_exact owner s ids s' :
  budget_ok s -> release_owner owner s = (ids, s') ->
  budget_ok s' /\ (forall i, i ∈ ids <-> exists r, bs_reservations s !! i = Some r /\ dr_owner r = Some owner)
  /\ (forall i r, bs_reservations s' !! i = Some r
        <-> bs_reservations s !! i = Some r /\ dr_owner r <> Some owner).
Proof.
  intros Hs [= <- <-]. destruct (remove_all_ok (owned_ids owner s) s Hs) as [H1 H2].
  split; [done|]. split; [intros i; apply elem_of_owned_ids|]. intros i r. rewrite H2.
  case_decide as Hi; rewrite elem_of_owned_ids in Hi.
  - split; [done|]. destruct Hi as (r' & Hr' & Ho). intros [Hr Hn]. congruence.
  - split; [|by intros []]. intros Hr. split; [done|]. intros Ho. destruct Hi; eauto.
Qed.

(** * Executions *)

Inductive budget_op :=
| BReserveFlow
| BReserve (use : BudgetUse) (bytes : Z)
| BReserveOwned (owner : BudgetReservationOwner) (use : BudgetUse) (bytes : Z)
| BTransfer (id : Z) (expected new_use : BudgetUse) (bytes : Z)
| BTransferOwned (id : Z) (owner : BudgetReservationOwner) (expected new_use : BudgetUse) (bytes : Z)
| BTransferAuthority (id : Z) (owner : BudgetReservationOwner) (expected new_use : BudgetUse)
    (bytes authority : Z)
| BRelease (id : Z)
| BReleaseOwner (owner : BudgetReservationOwner)
| BReserveControl (bytes : Z)
| BReleaseControl (bytes : Z).

(** Sizes are unsigned, and authority is part of what is charged. *)
Definition budget_op_ok (o : budget_op) : Prop :=
  match o with
  | BReserve _ bytes | BReserveOwned _ _ bytes | BTransfer _ _ _ bytes | BTransferOwned _ _ _ _ bytes
  | BReserveControl bytes | BReleaseControl bytes => 0 <= bytes
  | BTransferAuthority _ _ _ _ bytes authority => 0 <= authority <= bytes
  | _ => True
  end.

Definition keep {E A} (s : A) (r : result E A) : A := match r with Ok s' => s' | Err _ => s end.

Definition budget_exec (s : ReceiverBudgetState) (o : budget_op) : ReceiverBudgetState :=
  match o with
  | BReserveFlow => keep s (snd <$> reserve_flow s)
  | BReserve use bytes => keep s (snd <$> reserve use bytes s)
  | BReserveOwned owner use bytes => keep s (snd <$> reserve_owned owner use bytes s)
  | BTransfer id e n bytes => keep s (transfer id e n bytes s)
  | BTransferOwned id owner e n bytes => keep s (transfer_owned id owner e n bytes s)
  | BTransferAuthority id owner e n bytes authority =>
      keep s (transfer_owned_with_authority id owner e n bytes authority s)
  | BRelease id => keep s (release id s)
  | BReleaseOwner owner => (release_owner owner s).2
  | BReserveControl bytes => keep s (reserve_control bytes s)
  | BReleaseControl bytes => release_control bytes s
  end.

Lemma charged_ge use bytes : bytes <= charged_bytes use bytes.
Proof. unfold charged_bytes. case_decide; lia. Qed.

Lemma reserved_ok use bytes owner s :
  budget_ok s -> 0 <= bytes -> budget_ok (keep s (snd <$> reserve_inner use bytes owner s)).
Proof.
  intros Hs Hb. destruct (reserve_inner use bytes owner s) as [[id s']|] eqn:E; [|done]. simpl.
  by eapply reserve_ok.
Qed.

Lemma transferred_ok id e n bytes a s :
  budget_ok s -> 0 <= bytes -> from_option (fun a => 0 <= a <= bytes) True a ->
  budget_ok (keep s (transfer_inner id e n bytes a s)).
Proof.
  intros Hs Hb Ha. destruct (transfer_inner id e n bytes a s) as [s'|] eqn:E; [|done]. simpl.
  eapply transfer_ok; [done|exact Hb| |done]. pose proof (charged_ge n bytes). cbv zeta.
  destruct a as [a|]; simpl in *; [lia|]. apply implied_authority_le. lia.
Qed.

Lemma control_ok s c :
  budget_ok s -> 0 <= c <= CONTROL_PLANE_CLEANUP_RESERVE -> budget_ok (s <| bs_control_used := c |>).
Proof. intros [] Hc. by split. Qed.

Lemma budget_exec_ok s o : budget_ok s -> budget_op_ok o -> budget_ok (budget_exec s o).
Proof.
  intros Hs Ho. destruct o; simpl in *.
  - unfold reserve_flow. destruct_if; [done|].
    apply reserved_ok; [done|]. pose proof headroom_pos. lia.
  - by apply reserved_ok.
  - by apply reserved_ok.
  - by apply transferred_ok.
  - unfold transfer_owned. destruct (owned _ _ _ _); [|done]. by apply transferred_ok.
  - unfold transfer_owned_with_authority. destruct (owned _ _ _ _); [|done]. apply transferred_ok; simpl; (done || lia).
  - destruct (release id s) eqn:E; [|done]. by eapply release_ok.
  - by apply remove_all_ok.
  - unfold reserve_control. destruct_if E; [done|].
    apply control_ok; [done|]. pose proof (ok_control _ Hs). lia.
  - apply control_ok; [done|]. pose proof (ok_control _ Hs). unfold saturating_sub. lia.
Qed.

Lemma budget_new_ok bytes budget :
  bytes <= usize_max -> ReceiverBudget_bytes bytes = Ok budget -> budget_ok (budget_new budget).
Proof.
  unfold ReceiverBudget_bytes. intros Hb H.
  assert (Hmin : saturating_add usize_max (saturating_add usize_max MAX_FRAME_SIZE RECEIVER_BUDGET_AUTHORITY_HEADROOM)
    CONTROL_PLANE_CLEANUP_RESERVE = minimum_budget) by (vm_compute; reflexivity).
  rewrite Hmin in H. destruct (bytes <? minimum_budget) eqn:E; [done|]. injection H as ->.
  assert (0 < minimum_budget) by done. pose proof headroom_pos.
  split; simpl; try done.
  - lia.
  - unfold authority_sum, headroom_left, saturating_sub, data_limit. simpl. rewrite map_sum_empty.
    unfold minimum_budget in E. lia.
Qed.

Lemma budget_run_ok s ops : budget_ok s -> Forall budget_op_ok ops -> budget_ok (foldl budget_exec s ops).
Proof.
  intros Hs Hops. revert s Hs. induction Hops as [|o ops Ho _ IH]; intros s Hs; [done|]. simpl.
  by apply IH, budget_exec_ok.
Qed.

Lemma reserve_limit use bytes owner s : bs_budget (keep s (snd <$> reserve_inner use bytes owner s)) = bs_budget s.
Proof.
  unfold reserve_inner. cbv zeta.
  repeat (destruct_if; [done|]).
  by destruct (checked_add _ _ _).
Qed.

Lemma transfer_limit id e n bytes a s : bs_budget (keep s (transfer_inner id e n bytes a s)) = bs_budget s.
Proof.
  unfold transfer_inner. cbv zeta. destruct (bs_reservations s !! id); [|done].
  repeat (destruct_if; [done|]). done.
Qed.

Lemma budget_run_limit s ops : bs_budget (foldl budget_exec s ops) = bs_budget s.
Proof.
  revert s. induction ops as [|o ops IH]; intros s; [done|]. simpl. rewrite IH. destruct o; simpl.
  - unfold reserve_flow. destruct_if; [done|].
    apply reserve_limit.
  - apply reserve_limit.
  - apply reserve_limit.
  - apply transfer_limit.
  - unfold transfer_owned. destruct (owned _ _ _ _); [|done]. apply transfer_limit.
  - unfold transfer_owned_with_authority. destruct (owned _ _ _ _); [|done]. apply transfer_limit.
  - unfold release. by destruct (bs_reservations s !! id).
  - generalize (owned_ids owner s) as ids. clear. intros ids. revert s.
    induction ids as [|i ids IH]; intros s; [done|]. simpl. rewrite IH. unfold remove_reservation.
    by destruct (bs_reservations s !! i).
  - unfold reserve_control. by destruct_if.
  - done.
Qed.

Lemma reserve_fits use bytes owner s :
  budget_ok s -> 0 <= bytes -> bs_next_id s < u64_max ->
  (let charged := charged_bytes use bytes in
   bs_data_used s + charged + headroom_left (authority_sum s + implied_authority use charged)
   <= data_limit (bs_budget s)) ->
  is_ok (reserve_inner use bytes owner s) = true.
Proof.
  intros Hs Hb Hid Hfit.
  assert (exists s', reserve_inner use bytes owner s = Ok (bs_next_id s, s')) as [s' ->]; [|done].
  eexists. apply reserve_exact; [done..|]. cbv zeta in *. split; [done|]. split; [done|].
  split; [exact Hfit|reflexivity].
Qed.

(** Metadata within the headroom is never refused, whatever data is held. *)
Lemma metadata_admitted s bytes :
  budget_ok s -> 0 <= bytes -> authority_sum s + bytes <= RECEIVER_BUDGET_AUTHORITY_HEADROOM ->
  bs_next_id s < u64_max -> is_ok (reserve DeliveredPositionMetadata bytes s) = true.
Proof.
  intros Hs Hb Ha Hid. unfold reserve.
  apply reserve_fits; [done..|]. cbv zeta.
  unfold charged_bytes, implied_authority. rewrite decide_False by done. rewrite decide_True by done.
  pose proof (ok_headroom _ Hs). unfold headroom_left, saturating_sub in *. lia.
Qed.

(** When only position metadata is held, within its headroom, a frame may flow. *)
Lemma flow_admitted s :
  budget_ok s -> bs_data_used s <= authority_sum s <= RECEIVER_BUDGET_AUTHORITY_HEADROOM ->
  bs_next_id s < u64_max -> is_ok (reserve_flow s) = true.
Proof.
  intros Hs Ha Hid. unfold reserve_flow. rewrite (authority_used_sum s Hs).
  pose proof (ok_limit _ Hs) as Hl. unfold minimum_budget in Hl. pose proof headroom_pos as Hp.
  unfold data_available, data_limit, saturating_sub.
  destruct_if E; [lia|]. unfold reserve.
  apply reserve_fits; [done|lia|done|]. cbv zeta.
  unfold charged_bytes, implied_authority. rewrite !decide_False by done.
  unfold headroom_left, saturating_sub, data_limit. lia.
Qed.

(** The receive budget is never exceeded and never starves a delivery: after
    any sequence of reservations, transfers and releases, refused ones included,
    the bytes in use are exactly the sum of the live reservations, data and
    cleanup bytes together stay within the configured budget, and whatever data
    fills it, the position metadata of a delivery still fits the headroom set
    apart for it; when nothing but such metadata is held, a maximal frame can be
    granted. *)
Theorem budget_headroom_kept bytes budget ops :
  bytes <= usize_max -> ReceiverBudget_bytes bytes = Ok budget -> Forall budget_op_ok ops ->
  let s := foldl budget_exec (budget_new budget) ops in
  bs_data_used s = map_sum dr_bytes (bs_reservations s)
  /\ 0 <= bs_data_used s /\ bs_data_used s + bs_control_used s <= bs_budget s
  /\ bs_budget s = bytes
  /\ (forall n, 0 <= n -> authority_sum s + n <= RECEIVER_BUDGET_AUTHORITY_HEADROOM ->
        bs_next_id s < u64_max -> is_ok (reserve DeliveredPositionMetadata n s) = true)
  /\ (bs_data_used s <= authority_sum s <= RECEIVER_BUDGET_AUTHORITY_HEADROOM ->
        bs_next_id s < u64_max -> is_ok (reserve_flow s) = true).
Proof.
  intros Hb Hbudget Hops s. pose proof (budget_new_ok _ _ Hb Hbudget) as H0.
  pose proof (budget_run_ok _ _ H0 Hops) as Hs. fold s in Hs.
  pose proof (budget_sums s Hs) as [[? ?] Hd]. pose proof (ok_control _ Hs) as Hc. unfold data_limit in Hd.
  split_and!; [apply Hs|lia|lia| |intros; by apply metadata_admitted|intros; by apply flow_admitted].
  subst s. rewrite budget_run_limit. unfold ReceiverBudget_bytes in Hbudget.
  destruct (_ <? _); [done|]. by injection Hbudget.
Qed.
