(* ===== verification/AggregateTxn.v ===== *)
(** * The transaction gate of a stream consumer

    [stream_consumer.rs]: [AggregateTransaction] admits the acknowledgements of
    one transaction, waits for their results, and lets the runtime issue the
    commit or the abort once.  The theorem shows that the decision is unique,
    final, and a commit only when every admitted operation has succeeded. *)

From S2P Require Import Prelude Txn.

Inductive AggregateTransactionState :=
| ATOpen | CommitClosing | CommitIssued | AbortClosing | AbortIssued | ATCommitted | ATAborted | ATUnknown.

#[global] Instance AggregateTransactionState_eq_dec : EqDecision AggregateTransactionState.
Proof. solve_decision. Defined.

Inductive TransactionDecision :=
| Wait (pending : Z)
| IssueCommit
| IssueAbort
| TransactionPoisoned.

Inductive AggregateTransactionError :=
| AdmissionClosed (txn_id : TxnId)
| UnknownOperation (operation : Z)
| InvalidTransition (state : AggregateTransactionState)
| OperationIdExhausted.

Record AggregateTransaction := mkAggregate {
  at_txn_id : TxnId;
  at_state : AggregateTransactionState;
  at_next_operation : Z;
  at_pending : gset Z;
  at_poisoned : bool;
}.

#[global] Instance AggregateTransaction_eta : Eta AggregateTransaction := fun t =>
  mkAggregate (at_txn_id t) (at_state t) (at_next_operation t) (at_pending t) (at_poisoned t).

Definition aggregate_new (txn_id : TxnId) : AggregateTransaction := mkAggregate txn_id ATOpen 0 ∅ false.

Definition admit_operation (t : AggregateTransaction)
    : result AggregateTransactionError (Z * AggregateTransaction) :=
  if negb (bool_decide (at_state t = ATOpen)) then Err (AdmissionClosed (at_txn_id t))
  else
    let operation := at_next_operation t in
    next ← ok_or (checked_add u64_max operation 1) OperationIdExhausted;
    Ok (operation, t <| at_next_operation := next |> <| at_pending := {[operation]} ∪ at_pending t |>).

Definition settle (operation : Z) (succeeded : bool) (t : AggregateTransaction)
    : result AggregateTransactionError AggregateTransaction :=
  if negb (bool_decide (operation ∈ at_pending t)) then Err (UnknownOperation operation)
  else
    let t := t <| at_pending := at_pending t ∖ {[operation]} |> in
    Ok (if negb succeeded then t <| at_poisoned := true |> else t).

Definition decision (t : AggregateTransaction) : TransactionDecision * AggregateTransaction :=
  if negb (bool_decide (at_pending t = ∅)) then (Wait (Z.of_nat (size (at_pending t))), t)
  else
    match at_state t with
    | CommitClosing =>
        if at_poisoned t then (TransactionPoisoned, t)
        else (IssueCommit, t <| at_state := CommitIssued |>)
    | AbortClosing => (IssueAbort, t <| at_state := AbortIssued |>)
    | _ => (Wait 0, t)
    end.

Definition begin_commit (t : AggregateTransaction)
    : result AggregateTransactionError (TransactionDecision * AggregateTransaction) :=
  match at_state t with
  | ATOpen => Ok (decision (t <| at_state := CommitClosing |>))
  | CommitClosing => Ok (decision t)
  | state => Err (InvalidTransition state)
  end.

Definition begin_abort (t : AggregateTransaction)
    : result AggregateTransactionError (TransactionDecision * AggregateTransaction) :=
  match at_state t with
  | ATOpen | AbortClosing => Ok (decision (t <| at_state := AbortClosing |>))
  | CommitClosing =>
      if at_poisoned t then Ok (decision (t <| at_state := AbortClosing |>))
      else Err (InvalidTransition CommitClosing)
  | state => Err (InvalidTransition state)
  end.

Definition finish (outcome : AggregateTransactionState) (t : AggregateTransaction)
    : result AggregateTransactionError AggregateTransaction :=
  if negb (bool_decide (at_pending t = ∅)) then Err (InvalidTransition (at_state t))
  else if bool_decide (at_state t = CommitClosing) && at_poisoned t
  then Err (InvalidTransition (at_state t))
  else
    let valid := (bool_decide (at_state t = CommitIssued) || bool_decide (at_state t = AbortIssued))
                 && (bool_decide (outcome = ATCommitted) || bool_decide (outcome = ATAborted)
                     || bool_decide (outcome = ATUnknown)) in
    if negb valid then Err (InvalidTransition (at_state t)) else Ok (t <| at_state := outcome |>).

(** * Executions *)

Inductive gate_op :=
| GAdmit
| GSettle (operation : Z) (succeeded : bool)
| GCommit
| GAbort
| GDecide
| GFinish (outcome : AggregateTransactionState).

Inductive gate_out :=
| OAdmitted (operation : Z)
| OSettled (operation : Z) (succeeded : bool)
| ODecision (d : TransactionDecision)
| OFinished (outcome : AggregateTransactionState)
| ORefused (e : AggregateTransactionError).

Definition gate_exec (o : gate_op) (t : AggregateTransaction) : gate_out * AggregateTransaction :=
  match o with
  | GAdmit => match admit_operation t with Ok (i, t') => (OAdmitted i, t') | Err e => (ORefused e, t) end
  | GSettle i b => match settle i b t with Ok t' => (OSettled i b, t') | Err e => (ORefused e, t) end
  | GCommit => match begin_commit t with Ok (d, t') => (ODecision d, t') | Err e => (ORefused e, t) end
  | GAbort => match begin_abort t with Ok (d, t') => (ODecision d, t') | Err e => (ORefused e, t) end
  | GDecide => let '(d, t') := decision t in (ODecision d, t')
  | GFinish outcome => match finish outcome t with Ok t' => (OFinished outcome, t') | Err e => (ORefused e, t) end
  end.

Fixpoint gate_run (ops : list gate_op) (t : AggregateTransaction) : list gate_out * AggregateTransaction :=
  match ops with
  | [] => ([], t)
  | o :: ops' => let '(x, t') := gate_exec o t in let '(h, t'') := gate_run ops' t' in (x :: h, t'')
  end.

Definition is_issue (x : gate_out) : bool :=
  match x with ODecision IssueCommit | ODecision IssueAbort => true | _ => false end.

(** * Facts of a history *)

Record gate_ok (h : list gate_out) (t : AggregateTransaction) : Prop := {
  gk_admitted : forall i, OAdmitted i ∈ h -> i < at_next_operation t /\ (i ∈ at_pending t \/ exists b, OSettled i b ∈ h);
  gk_pending : forall i, i ∈ at_pending t -> OAdmitted i ∈ h;
  gk_poisoned : at_poisoned t = false -> forall i, OSettled i false ∉ h;
  gk_open : match at_state t with
            | ATOpen | CommitClosing | AbortClosing => Forall (fun x => is_issue x = false) h
            | _ => exists h1 x h2, h = h1 ++ x :: h2 /\ is_issue x = true
                     /\ Forall (fun x => is_issue x = false) (h1 ++ h2) /\ at_pending t = ∅
                     /\ (x = ODecision IssueCommit -> at_poisoned t = false)
            end;
}.

(** The outputs of a step extend the history. *)
Lemma gate_ok_plain h t x :
  gate_ok h t -> is_issue x = false -> (forall i, x <> OAdmitted i) -> (forall i b, x <> OSettled i b) ->
  gate_ok (h ++ [x]) t.
Proof.
  intros [H1 H2 H3 H4] Hx Ha Hs. split.
  - intros i [Hi|Hi%list_elem_of_singleton]%elem_of_app; [|by destruct (Ha i)].
    destruct (H1 i Hi) as [? [?|[b Hb]]]; (split; [done|]); [by left|right; exists b; set_solver].
  - intros i Hi. apply elem_of_app. left. auto.
  - intros Hp i [Hi|Hi%list_elem_of_singleton]%elem_of_app; [by apply (H3 Hp i)|by destruct (Hs i false)].
  - destruct (at_state t); try (apply Forall_app; split; [done|by repeat constructor]);
      destruct H4 as (h1 & y & h2 & -> & Hy & Hf & Hp & Hc); exists h1, y, (h2 ++ [x]);
      rewrite <- app_assoc; (split; [done|]); (split; [done|]); (split; [|done]); rewrite app_assoc;
      apply Forall_app; (split; [done|by repeat constructor]).
Qed.

Definition undecided (st : AggregateTransactionState) : bool :=
  match st with ATOpen | CommitClosing | AbortClosing => true | _ => false end.

Lemma gate_ok_state h t st :
  gate_ok h t -> undecided (at_state t) = true -> undecided st = true -> gate_ok h (t <| at_state := st |>).
Proof.
  intros [H1 H2 H3 H4] Ht Hst. split; simpl; try done.
  destruct (at_state t), st; done.
Qed.

Lemma gate_ok_issue h t d st :
  gate_ok h t -> undecided (at_state t) = true -> undecided st = false -> at_pending t = ∅ ->
  d = IssueCommit /\ at_poisoned t = false \/ d = IssueAbort ->
  gate_ok (h ++ [ODecision d]) (t <| at_state := st |>).
Proof.
  intros [H1 H2 H3 H4] Ht Hst Hp Hd.
  assert (Hopen : Forall (fun x => is_issue x = false) h) by by destruct (at_state t).
  assert (His : is_issue (ODecision d) = true) by by destruct Hd as [[-> _]| ->].
  split; simpl.
  - intros i [Hi|Hi%list_elem_of_singleton]%elem_of_app; [|done].
    destruct (H1 i Hi) as [? [?|[b Hb]]]; (split; [done|]); [by left|right; exists b; set_solver].
  - intros i Hi. apply elem_of_app. left. auto.
  - intros Hpo i [Hi|Hi%list_elem_of_singleton]%elem_of_app; [by apply (H3 Hpo i)|done].
  - assert (Hex : exists h1 x h2, h ++ [ODecision d] = h1 ++ x :: h2 /\ is_issue x = true
      /\ Forall (fun x => is_issue x = false) (h1 ++ h2) /\ at_pending t = ∅
      /\ (x = ODecision IssueCommit -> at_poisoned t = false)).
    { exists h, (ODecision d), []. rewrite app_nil_r. split_and!; try done. intros [= ->].
      by destruct Hd as [[_ ?]|]. }
    by destruct st.
Qed.

Lemma gate_ok_decision h t :
  gate_ok h t -> gate_ok (h ++ [ODecision (decision t).1]) (decision t).2.
Proof.
  intros Ht. unfold decision. case_bool_decide as Hp; simpl; [|by apply gate_ok_plain].
  destruct (at_state t) eqn:E; simpl; try by apply gate_ok_plain.
  - destruct (at_poisoned t) eqn:Epo; simpl; [by apply gate_ok_plain|].
    apply gate_ok_issue; [done|by rewrite E|done|done|by left].
  - apply gate_ok_issue; [done|by rewrite E|done|done|by right].
Qed.

Lemma gate_ok_admit h t i t' :
  gate_ok h t -> admit_operation t = Ok (i, t') -> gate_ok (h ++ [OAdmitted i]) t'.
Proof.
  intros [H1 H2 H3 H4]. unfold admit_operation. case_bool_decide as Hs; [|done]. simpl. intros H. inv_ok.
  apply checked_add_Some in Hr as [-> Hr]. simplify_eq. split; simpl.
  - intros i [Hi|[= ->]%list_elem_of_singleton]%elem_of_app; [|split; [lia|left; set_solver]].
    destruct (H1 i Hi) as [? [?|[b Hb]]]; (split; [lia|]); [left; set_solver|right; exists b; set_solver].
  - intros i Hi. apply elem_of_app. apply elem_of_union in Hi as [->%elem_of_singleton|Hi]; [right; set_solver|auto].
  - intros Hp i [Hi|Hi%list_elem_of_singleton]%elem_of_app; [by apply (H3 Hp i)|done].
  - rewrite Hs in *. apply Forall_app. split; [done|by repeat constructor].
Qed.

Lemma gate_ok_settle h t i b t' :
  gate_ok h t -> settle i b t = Ok t' -> gate_ok (h ++ [OSettled i b]) t'.
Proof.
  intros [H1 H2 H3 H4]. unfold settle. case_bool_decide as Hi; [|done]. simpl. intros [= <-].
  assert (Hst : at_state (if negb b then t <| at_pending := at_pending t ∖ {[i]} |> <| at_poisoned := true |>
    else t <| at_pending := at_pending t ∖ {[i]} |>) = at_state t) by by destruct b.
  assert (Hund : undecided (at_state t) = true).
  { destruct (at_state t); try done; destruct H4 as (? & ? & ? & _ & _ & _ & Hp & _); set_solver. }
  assert (Hpe : at_pending (if negb b then t <| at_pending := at_pending t ∖ {[i]} |> <| at_poisoned := true |>
    else t <| at_pending := at_pending t ∖ {[i]} |>) = at_pending t ∖ {[i]}) by by destruct b.
  split; rewrite ?Hpe, ?Hst.
  - intros j Hj. replace (at_next_operation _) with (at_next_operation t) by by destruct b.
    apply elem_of_app in Hj as [Hj|Hj%list_elem_of_singleton]; [|done].
    destruct (H1 j Hj) as [? [Hin|[c Hc]]]; (split; [done|]); [|right; exists c; set_solver].
    destruct (decide (j = i)) as [->|]; [right; exists b; set_solver|left; set_solver].
  - intros j Hj. apply elem_of_app. left. apply H2. set_solver.
  - intros Hp j [Hj|[= -> <-]%list_elem_of_singleton]%elem_of_app; [|done].
    destruct b; [|done]. by apply (H3 Hp j).
  - destruct (at_state t); try done; apply Forall_app; (split; [done|by repeat constructor]).
Qed.

Lemma gate_ok_finish h t o t' : gate_ok h t -> finish o t = Ok t' -> gate_ok (h ++ [OFinished o]) t'.
Proof.
  intros Ht. unfold finish. case_bool_decide as Hp; [|done]. simpl. destruct (_ && at_poisoned t); [done|].
  destruct (negb _) eqn:E; [done|]. intros [= <-].
  apply negb_false_iff, andb_true_iff in E as [E1 E2]. rewrite !orb_true_iff, !bool_decide_eq_true in *.
  apply (gate_ok_plain _ _ (OFinished o)) in Ht as [H1 H2 H3 H4]; [|done..].
  split; simpl; try done. destruct E1 as [E1|E1]; rewrite E1 in H4; destruct E2 as [[-> | ->]| ->]; done.
Qed.

Lemma gate_ok_exec h t o x t' : gate_ok h t -> gate_exec o t = (x, t') -> gate_ok (h ++ [x]) t'.
Proof.
  intros Ht. destruct o as [|i b| | | |o]; simpl.
  - destruct (admit_operation t) as [[i t1]|e] eqn:E; intros [= <- <-]; [by eapply gate_ok_admit|by apply gate_ok_plain].
  - destruct (settle i b t) as [t1|e] eqn:E; intros [= <- <-]; [by eapply gate_ok_settle|by apply gate_ok_plain].
  - unfold begin_commit. destruct (at_state t) eqn:E; try (intros [= <- <-]; by apply gate_ok_plain).
    + destruct (decision _) as [d t1] eqn:Ed. intros [= <- <-].
      pose proof (gate_ok_decision h (t <| at_state := CommitClosing |>)) as Hd. rewrite Ed in Hd. apply Hd.
      apply gate_ok_state; [done|by rewrite E|done].
    + destruct (decision _) as [d t1] eqn:Ed. intros [= <- <-].
      pose proof (gate_ok_decision h t Ht) as Hd. by rewrite Ed in Hd.
  - assert (Ha : undecided (at_state t) = true ->
      gate_ok (h ++ [ODecision (decision (t <| at_state := AbortClosing |>)).1]) (decision (t <| at_state := AbortClosing |>)).2).
    { intros Hu. apply gate_ok_decision. by apply gate_ok_state. }
    unfold begin_abort. destruct (at_state t) eqn:E; try (intros [= <- <-]; by apply gate_ok_plain);
      [|destruct (at_poisoned t); [|intros [= <- <-]; by apply gate_ok_plain]|];
      destruct (decision _) as [d t1]; intros [= <- <-]; by apply Ha.
  - destruct (decision t) as [d t1] eqn:Ed. intros [= <- <-].
    pose proof (gate_ok_decision h t Ht) as Hd. by rewrite Ed in Hd.
  - destruct (finish o t) as [t1|e] eqn:E; intros [= <- <-]; [by eapply gate_ok_finish|by apply gate_ok_plain].
Qed.

Lemma gate_ok_run ops : forall h t h' t', gate_ok h t -> gate_run ops t = (h', t') -> gate_ok (h ++ h') t'.
Proof.
  induction ops as [|o ops IH]; intros h t h' t' Ht; simpl.
  - intros [= <- <-]. by rewrite app_nil_r.
  - destruct (gate_exec o t) as [x t1] eqn:E. destruct (gate_run ops t1) as [h1 t2] eqn:Er. intros [= <- <-].
    rewrite (app_assoc h [x] h1 : h ++ x :: h1 = _). eapply IH; [|done]. by eapply gate_ok_exec.
Qed.

Lemma decision_id t : at_txn_id (decision t).2 = at_txn_id t.
Proof. unfold decision. by repeat case_match. Qed.

Lemma gate_exec_id o t : at_txn_id (gate_exec o t).2 = at_txn_id t.
Proof.
  destruct o as [|i b| | | |o]; simpl.
  - unfold admit_operation. case_bool_decide; [|done]. simpl. by destruct (checked_add _ _ _).
  - unfold settle. case_bool_decide; [|done]. by destruct b.
  - unfold begin_commit. destruct (at_state t) eqn:E; try done.
    + pose proof (decision_id (t <| at_state := CommitClosing |>)) as Hd. by destruct (decision _).
    + pose proof (decision_id t) as Hd. by destruct (decision _).
  - pose proof (decision_id (t <| at_state := AbortClosing |>)) as Hd. unfold begin_abort.
    destruct (at_state t), (at_poisoned t); try done; by destruct (decision _).
  - pose proof (decision_id t) as Hd. by destruct (decision _).
  - unfold finish. by repeat destruct_if.
Qed.

Lemma gate_run_id ops t h t' : gate_run ops t = (h, t') -> at_txn_id t' = at_txn_id t.
Proof.
  revert t h. induction ops as [|o ops IH]; intros t h; simpl; [by intros [= <- <-]|].
  pose proof (gate_exec_id o t) as Hid. destruct (gate_exec o t) as [x t1].
  destruct (gate_run ops t1) as [h1 t2] eqn:Er. intros [= <- <-]. by rewrite (IH _ _ Er).
Qed.

Lemma no_issues h : Forall (fun x => is_issue x = false) h -> length (filter (fun x => is_issue x = true) h) = 0%nat.
Proof. intros Hf. rewrite filter_none; [done|]. intros x Hx. rewrite Forall_forall in Hf. by rewrite Hf. Qed.

(** Whatever the order of admissions, results, commit and abort requests and
    re-evaluations, at most one end of the transaction is issued; when it is the
    commit, every operation ever admitted succeeded, and when it is the abort,
    every admitted operation has at least been settled.  A decided transaction
    admits nothing more. *)
Theorem gate_decides_once txn ops h t :
  gate_run ops (aggregate_new txn) = (h, t) ->
  (length (filter (fun x => is_issue x = true) h) <= 1)%nat
  /\ (ODecision IssueCommit ∈ h ->
        (forall i, OAdmitted i ∈ h -> OSettled i true ∈ h) /\ (forall i, OSettled i false ∉ h))
  /\ (ODecision IssueAbort ∈ h -> forall i, OAdmitted i ∈ h -> exists b, OSettled i b ∈ h)
  /\ (ODecision IssueCommit ∈ h \/ ODecision IssueAbort ∈ h ->
        admit_operation t = Err (AdmissionClosed txn)).
Proof.
  intros Hrun.
  assert (H0 : gate_ok [] (aggregate_new txn)) by (split; simpl; try done; set_solver).
  pose proof (gate_ok_run ops _ _ _ _ H0 Hrun) as [H1 H2 H3 H4]. simpl in *.
  pose proof (gate_run_id _ _ _ _ Hrun) as Hid. simpl in Hid.
  assert (Hclosed : undecided (at_state t) = false -> admit_operation t = Err (AdmissionClosed txn)).
  { intros Hu. unfold admit_operation. rewrite bool_decide_eq_false_2; [by rewrite Hid|]. intros Hs; by rewrite Hs in Hu. }
  destruct (undecided (at_state t)) eqn:Hu.
  - assert (Hf : Forall (fun x => is_issue x = false) h) by (revert H4 Hu; by destruct (at_state t)).
    rewrite no_issues by done. rewrite Forall_forall in Hf.
    split_and!; [lia| | |]; [intros Hin%Hf|intros Hin%Hf|intros [Hin%Hf|Hin%Hf]]; done.
  - assert (Hex : exists h1 x h2, h = h1 ++ x :: h2 /\ is_issue x = true
      /\ Forall (fun x => is_issue x = false) (h1 ++ h2) /\ at_pending t = ∅
      /\ (x = ODecision IssueCommit -> at_poisoned t = false)) by (revert H4 Hu; by destruct (at_state t)).
    destruct Hex as (h1 & x & h2 & -> & Hx & Hf & Hp & Hc). clear H4.
    assert (Hset : forall i, OAdmitted i ∈ h1 ++ x :: h2 -> exists b, OSettled i b ∈ h1 ++ x :: h2).
    { intros i Hi. destruct (H1 i Hi) as [_ [Hin|?]]; [set_solver|done]. }
    split_and!; [|intros Hin|auto|auto].
    + pose proof (no_issues _ Hf) as Hn. rewrite filter_app, length_app in Hn.
      rewrite filter_app, filter_cons_True, length_app by done. simpl. lia.
    + assert (x = ODecision IssueCommit) as Hxc.
      { rewrite Forall_forall in Hf. apply elem_of_app in Hin as [Hin|[<-|Hin]%elem_of_cons]; [|done|].
        - by specialize (Hf _ (proj2 (elem_of_app _ _ _) (or_introl Hin))).
        - by specialize (Hf _ (proj2 (elem_of_app _ _ _) (or_intror Hin))). }
      specialize (H3 (Hc Hxc)). split; [|done]. intros i Hi. destruct (Hset i Hi) as [[] Hb]; [done|].
      by destruct (H3 i).
Qed.
