(* ===== verification/StreamModel.v ===== *)
(** * The aggregate model of a stream consumer: data and internal steps

    [stream_consumer.rs]: a stream consumer reads a scalable topic through one
    ordinary child consumer per assigned segment.  [StreamConsumerModel] decides
    which children to open, which may be given a permit, which deliveries are
    live and which acknowledgements are admitted.  This file holds its data, the
    state-and-error monad its methods are written in, and the private steps the
    public methods share; [StreamOps] and [StreamAcks] hold the public methods. *)

From S2P Require Import Prelude Ids Frame SegmentTopic Assignment DagWatch OrdinaryId StreamPosition ReceiverBudget.

(** * Data *)

Inductive FlowBlock :=
| Predecessors (ids : list Z)
| FbOrderingUnprovable (ids : list Z)
| FbBudget.

#[global] Instance FlowBlock_eq_dec : EqDecision FlowBlock.
Proof. solve_decision. Defined.

Inductive FlowPurpose :=
| FpMessage
| ChunkContinuation (assembly : Z).

#[global] Instance FlowPurpose_eq_dec : EqDecision FlowPurpose.
Proof. solve_decision. Defined.

Inductive SegmentPhase :=
| PhOpening
| OpenBlocked (block : FlowBlock)
| Flowing
| PhTerminal
| Seeking
| PhFailed
| Draining
| PhClosing.

#[global] Instance SegmentPhase_eq_dec : EqDecision SegmentPhase.
Proof. solve_decision. Defined.

#[global] Instance CanonicalMessageId_eq_dec : EqDecision CanonicalMessageId.
Proof. solve_decision. Defined.

#[global] Instance StreamMessageId_eq_dec : EqDecision StreamMessageId.
Proof. solve_decision. Defined.

Inductive StreamConsumerAction :=
| OpenChild (source : SegmentSource) (controller_incarnation aggregate_generation child_generation : Z)
| CancelOpen (source : SegmentSource) (controller_incarnation child_generation : Z)
| StopFlow (source : SegmentSource) (controller_incarnation child_generation : Z)
| GrantFlow (source : SegmentSource) (controller_incarnation child_generation reservation : Z)
    (purpose : FlowPurpose)
| CloseChild (source : SegmentSource) (controller_incarnation child_generation : Z)
| SeekChild (source : SegmentSource) (controller_incarnation child_generation : Z)
    (stream_message_id : StreamMessageId).

Inductive AggregatePhase := AgOpen | AgClosing | AgClosed | ResyncRequired.

#[global] Instance AggregatePhase_eq_dec : EqDecision AggregatePhase.
Proof. solve_decision. Defined.

Record CompletionBarrier := mkBarrier {
  cb_terminal : bool;
  cb_deliveries : Z;
  cb_acknowledgements : Z;
  cb_transactional_acknowledgements : Z;
  cb_pre_terminal_reservations : Z;
}.

#[global] Instance CompletionBarrier_eta : Eta CompletionBarrier := fun b =>
  mkBarrier (cb_terminal b) (cb_deliveries b) (cb_acknowledgements b)
    (cb_transactional_acknowledgements b) (cb_pre_terminal_reservations b).

Definition barrier_default : CompletionBarrier := mkBarrier false 0 0 0 0.

Definition settled (b : CompletionBarrier) : bool :=
  (cb_deliveries b =? 0) && (cb_acknowledgements b =? 0)
  && (cb_transactional_acknowledgements b =? 0) && (cb_pre_terminal_reservations b =? 0).

Definition complete (b : CompletionBarrier) : bool := cb_terminal b && settled b.

Record ChildState := mkChild {
  ch_source : SegmentSource;
  ch_controller_incarnation : Z;
  ch_generation : Z;
  ch_phase : SegmentPhase;
  ch_flow_reservation : option Z;
  ch_flow_purpose : option FlowPurpose;
  ch_completion : CompletionBarrier;
  ch_wait_for_flow_drain : bool;
  ch_bucket_shared : bool;
  ch_acknowledgement_generation : Z;
  ch_confirmed_cumulative : option MessageId;
}.

#[global] Instance ChildState_eta : Eta ChildState := fun c =>
  mkChild (ch_source c) (ch_controller_incarnation c) (ch_generation c) (ch_phase c)
    (ch_flow_reservation c) (ch_flow_purpose c) (ch_completion c) (ch_wait_for_flow_drain c)
    (ch_bucket_shared c) (ch_acknowledgement_generation c) (ch_confirmed_cumulative c).

Definition child_owner (c : ChildState) : BudgetReservationOwner :=
  mkOwner (src_segment_id (ch_source c)) (ch_generation c).

Definition has_flow (c : ChildState) : bool := bool_decide (is_Some (ch_flow_reservation c)).

Definition handoff_settled (c : ChildState) : bool :=
  let b := ch_completion c in
  (cb_deliveries b =? 0) && (cb_acknowledgements b =? 0)
  && (cb_transactional_acknowledgements b =? 0)
  && (cb_pre_terminal_reservations b =? Z.b2z (has_flow c)).

Definition drain_settled (c : ChildState) : bool :=
  if ch_wait_for_flow_drain c then settled (ch_completion c) else handoff_settled c.

(** A child as [reconcile_assignment] and [child_closed] open it. *)
Definition opening_child (source : SegmentSource) (incarnation generation : Z) (bucket_shared : bool)
    : ChildState :=
  mkChild source incarnation generation PhOpening None None barrier_default false bucket_shared 0 None.

Record LiveDelivery := mkLive {
  ld_owner : BudgetReservationOwner;
  ld_reservation : Z;
  ld_stream_message_id : StreamMessageId;
}.

Record ValidatedDelivery := mkValidated {
  vd_source : SegmentSource;
  vd_child_generation : Z;
  vd_acknowledgement_generation : Z;
  vd_message_id : MessageId;
  vd_message_id_bytes : bytes;
}.

Record DeliveryToken := mkToken {
  tk_consumer_instance : Z;
  tk_controller_incarnation : Z;
  tk_child_generation : Z;
  tk_acknowledgement_generation : Z;
  tk_stream_message_id : StreamMessageId;
  tk_position_vector : PositionVector;
  tk_delivery_epoch : Z;
  tk_dequeue_sequence : Z;
  tk_reservation : Z;
}.

Record AcknowledgementComponent := mkComponent {
  ac_source : SegmentSource;
  ac_child_generation : Z;
  ac_message_ids : list MessageId;
  ac_message_id_bytes : list bytes;
  ac_cumulative : bool;
  ac_cumulative_position : option MessageId;
  ac_acknowledgement_generation : Z;
}.

(** [AcknowledgementAuthority] and [TransactionAcknowledgementAuthority], which
    hold the same fields *)
Record AcknowledgementAuthority := mkAuthority {
  aa_consumer_instance : Z;
  aa_delivery_epoch : Z;
  aa_operation_id : Z;
}.

Inductive TransactionAcknowledgementOutcome := TaCommitted | TaAborted | TaUnknown.

#[global] Instance TransactionAcknowledgementOutcome_eq_dec : EqDecision TransactionAcknowledgementOutcome.
Proof. solve_decision. Defined.

Record PendingAcknowledgement := mkPendingAck {
  pa_components : list AcknowledgementComponent;
  pa_deliveries : list (Z * SegmentSource);
}.

Inductive ArrivalFailureDisposition := Retryable | Permanent.

Inductive StreamConsumerModelError :=
| MeSegmentTopic (e : SegmentTopicError)
| MeAttachment (e : AttachmentError)
| MeAssignment (e : AssignmentError)
| MeBudget (e : BudgetError)
| MePosition (e : StreamPositionError)
| ArrivalAccountingFailed (error : BudgetError) (disposition : ArrivalFailureDisposition)
    (actions : list StreamConsumerAction)
| AssignmentParentMismatch (segment_id : Z) (got expected : str)
| UnknownChild (segment_id : Z)
| StaleChildGeneration (segment_id got expected : Z)
| InvalidChildTransition (segment_id : Z) (phase : SegmentPhase)
| FlowPurposeMismatch (segment_id : Z) (actual : option FlowPurpose) (expected : FlowPurpose)
| InvalidReceiveWork (reservation : Z) (use : BudgetUse)
| ReceiveSizeOverflow
| InvalidChunkFrame (what : string)
| InvalidBatchFrame (what : string)
| DuplicateReceiveWork (reservation : Z)
| SegmentNotComplete (segment_id : Z)
| UnbalancedCompletionHook (segment_id : Z) (kind : string)
| CompletionCounterExhausted (segment_id : Z) (kind : string)
| StaleDeliveryToken
| DeliveryOperationPending
| StaleAcknowledgementAuthority
| PositionSourceUnavailable (segment_source : SegmentSource)
| PositionLayoutMismatch (vector dag : Z)
| DeliverySourceMismatch (got expected : SegmentSource)
| GenerationExhausted
| DequeueSequenceExhausted
| AcknowledgementOperationExhausted
| InvalidAggregatePhase (phase : AggregatePhase)
| ConcurrentSeek
| SeekLayoutMismatch (vector dag : Z)
| SeekSourceMismatch
| SeekNonActiveLeaf (segment_id : Z).

Record StreamConsumerModel := mkModel {
  sm_parent_topic : str;
  sm_consumer_instance : Z;
  sm_controller_incarnation : Z;
  sm_generation : Z;
  sm_delivery_epoch : Z;
  sm_next_child_generation : Z;
  sm_next_dequeue_sequence : Z;
  sm_next_acknowledgement_operation : Z;
  sm_ordering_mode : OrderingMode;
  sm_dag : DagSnapshot;
  sm_assignment : option ConsumerAssignment;
  sm_children : gmap Z ChildState;
  sm_pending_ownership : gmap Z SegmentSource;
  sm_ownership_history : gset Z;
  sm_completed : gset Z;
  sm_delivered_positions : gmap SegmentSource StreamMessageId;
  sm_delivered_position : PositionVector;
  sm_delivered_positions_reservation : option Z;
  sm_live_deliveries : gmap Z LiveDelivery;
  sm_pending_acknowledgements : gmap Z PendingAcknowledgement;
  sm_pending_transaction_acknowledgements : gmap Z PendingAcknowledgement;
  sm_budget : ReceiverBudgetState;
  sm_phase : AggregatePhase;
  sm_flow_cursor : option Z;
}.

#[global] Instance StreamConsumerModel_eta : Eta StreamConsumerModel := fun s =>
  mkModel (sm_parent_topic s) (sm_consumer_instance s) (sm_controller_incarnation s)
    (sm_generation s) (sm_delivery_epoch s) (sm_next_child_generation s)
    (sm_next_dequeue_sequence s) (sm_next_acknowledgement_operation s) (sm_ordering_mode s)
    (sm_dag s) (sm_assignment s) (sm_children s) (sm_pending_ownership s)
    (sm_ownership_history s) (sm_completed s) (sm_delivered_positions s)
    (sm_delivered_position s) (sm_delivered_positions_reservation s) (sm_live_deliveries s)
    (sm_pending_acknowledgements s) (sm_pending_transaction_acknowledgements s)
    (sm_budget s) (sm_phase s) (sm_flow_cursor s).

(** * The monad

    A method takes [&mut self] and returns a [Result]: it maps the state to a
    result and the state it leaves, also when it fails.  [?] is the bind;
    [let mut staged = self.clone(); ..; *self = staged] is [atomically]. *)

Definition SM (A : Type) : Type :=
  StreamConsumerModel -> result StreamConsumerModelError A * StreamConsumerModel.

#[global] Instance SM_ret : MRet SM := fun A a s => (Ok a, s).
#[global] Instance SM_bind : MBind SM := fun A B f m s =>
  match m s with (Ok a, s') => f a s' | (Err e, s') => (Err e, s') end.

Definition throw {A} (e : StreamConsumerModelError) : SM A := fun s => (Err e, s).
Definition lift {A} (r : result StreamConsumerModelError A) : SM A := fun s => (r, s).
Definition throw_if (b : bool) (e : StreamConsumerModelError) : SM unit := lift (guard_err b e).
Definition gets {A} (f : StreamConsumerModel -> A) : SM A := fun s => (Ok (f s), s).
Definition modify (f : StreamConsumerModel -> StreamConsumerModel) : SM unit := fun s => (Ok tt, f s).

Definition atomically {A} (m : SM A) : SM A := fun s =>
  match m s with (Ok a, s') => (Ok a, s') | (Err e, _) => (Err e, s) end.

(** A query of the state that may fail, and a step of the budget. *)
Definition query {A} (f : StreamConsumerModel -> result StreamConsumerModelError A) : SM A :=
  fun s => (f s, s).

Definition on_budget {A} (f : ReceiverBudgetState -> result BudgetError (A * ReceiverBudgetState)) : SM A :=
  fun s => match f (sm_budget s) with
           | Ok (a, b) => (Ok a, s <| sm_budget := b |>)
           | Err e => (Err (MeBudget e), s)
           end.

Definition on_budget_ (f : ReceiverBudgetState -> result BudgetError ReceiverBudgetState) : SM unit :=
  on_budget (fun b => pair tt <$> f b).

(** [for x in l { f(x)?; }] *)
Fixpoint for_each {A} (f : A -> SM unit) (l : list A) : SM unit :=
  match l with
  | [] => mret tt
  | x :: l' => _ ← f x; for_each f l'
  end.

(** [for x in l { actions.extend(f(x)?); }] *)
Fixpoint collect_actions {A} (f : A -> SM (list StreamConsumerAction)) (l : list A)
    : SM (list StreamConsumerAction) :=
  match l with
  | [] => mret []
  | x :: l' => a ← f x; b ← collect_actions f l'; mret (a ++ b)
  end.

Definition checked_sub (a b : Z) : option Z := if b <=? a then Some (a - b) else None.

(** [a.checked_add(b)?.checked_add(c)?..] *)
Definition checked_sum (first : Z) (rest : list Z) : option Z :=
  foldl (fun acc b => a ← acc; checked_add usize_max a b) (Some first) rest.

(** [collect::<BTreeMap<_, _>>]: a later entry replaces an earlier one. *)
Definition btree_collect {K A} `{Countable K} (l : list (K * A)) : gmap K A :=
  foldl (fun m '(k, a) => <[k := a]> m) ∅ l.

(** * Lookups and guards *)

Definition child (segment_id generation : Z) (s : StreamConsumerModel)
    : result StreamConsumerModelError ChildState :=
  match sm_children s !! segment_id with
  | None => Err (UnknownChild segment_id)
  | Some c =>
      if negb (ch_generation c =? generation)
      then Err (StaleChildGeneration segment_id generation (ch_generation c))
      else Ok c
  end.

Definition set_child (segment_id : Z) (c : ChildState) (s : StreamConsumerModel) : StreamConsumerModel :=
  s <| sm_children := <[segment_id := c]> (sm_children s) |>.

(** [let child = self.child_mut(..)?] and the assignments through [child] *)
Definition child_mut (segment_id generation : Z) (f : ChildState -> ChildState) : SM unit :=
  c ← query (child segment_id generation);
  modify (set_child segment_id (f c)).

Definition require_open : SM unit :=
  phase ← gets sm_phase;
  throw_if (negb (bool_decide (phase = AgOpen))) (InvalidAggregatePhase phase).

Definition require_callback_phase : SM unit :=
  phase ← gets sm_phase;
  throw_if (bool_decide (phase = AgClosed)) (InvalidAggregatePhase phase).

(** The assignment of [completion.pre_terminal_reservations] and its siblings. *)
Definition set_pre_terminal (n : Z) (c : ChildState) : ChildState :=
  c <| ch_completion := (ch_completion c) <| cb_pre_terminal_reservations := n |> |>.
Definition set_deliveries (n : Z) (c : ChildState) : ChildState :=
  c <| ch_completion := (ch_completion c) <| cb_deliveries := n |> |>.
Definition set_acknowledgements (n : Z) (c : ChildState) : ChildState :=
  c <| ch_completion := (ch_completion c) <| cb_acknowledgements := n |> |>.
Definition set_transactional (n : Z) (c : ChildState) : ChildState :=
  c <| ch_completion := (ch_completion c) <| cb_transactional_acknowledgements := n |> |>.

Definition pre_terminal_kind : string := "pre-terminal reservation".

Definition unbalanced {A} (segment_id : Z) (kind : string) (o : option A)
    : result StreamConsumerModelError A := ok_or o (UnbalancedCompletionHook segment_id kind).

Definition exhausted {A} (segment_id : Z) (kind : string) (o : option A)
    : result StreamConsumerModelError A := ok_or o (CompletionCounterExhausted segment_id kind).

(** [matches!(child.phase, Closing | Failed)] *)
Definition closing_or_failed (p : SegmentPhase) : bool :=
  match p with PhClosing | PhFailed => true | _ => false end.

(** [matches!(child.phase, Flowing | Draining)] *)
Definition flowing_or_draining (p : SegmentPhase) : bool :=
  match p with Flowing | Draining => true | _ => false end.

(** * Positions *)

Definition ordinary_message_id (i : StreamMessageId) : MessageId := projected (smi_ordinary i).
Definition ordinary_message_id_bytes (i : StreamMessageId) : bytes := encoded (smi_ordinary i).

(** [PositionVector::new(epoch, std::iter::empty())]; see [pv_new_empty] *)
Definition empty_position (epoch : Z) : PositionVector := mkPositionVector epoch ∅.

(** Lengths of buffers in memory are added without a check: their sum fits. *)
Definition prospective_position_heap_bytes (delivered : gmap SegmentSource StreamMessageId)
    (source : SegmentSource) (message_id : StreamMessageId) (replace : bool) : Z * Z :=
  let '(vector, canonical, found) :=
    foldl (fun '(vector, canonical, found) '(existing_source, existing_id) =>
        let same := bool_decide (existing_source = source) in
        let selected := if same && replace then message_id else existing_id in
        (vector + (POSITION_COMPONENT_NODE_OVERHEAD + blen (src_topic existing_source)
                   + blen (ordinary_message_id_bytes selected)),
         canonical + (POSITION_COMPONENT_NODE_OVERHEAD + blen (src_topic existing_source)
                      + blen (src_topic (smi_source selected))
                      + blen (ordinary_message_id_bytes selected)),
         found || same))
      (0, 0, false) (btree_items delivered) in
  if negb found
  then (vector + (POSITION_COMPONENT_NODE_OVERHEAD + blen (src_topic source)
                  + blen (ordinary_message_id_bytes message_id)),
        canonical + (POSITION_COMPONENT_NODE_OVERHEAD + blen (src_topic source) * 2
                     + blen (ordinary_message_id_bytes message_id)))
  else (vector, canonical).

Definition refresh_delivered_position : SM unit :=
  epoch ← gets (fun s => snap_epoch (sm_dag s));
  delivered ← gets sm_delivered_positions;
  position ← lift (map_err MePosition (from_canonical epoch delivered));
  let '(position_heap, canonical_heap) :=
    match btree_items delivered with
    | [] => (0, 0)
    | (source, message_id) :: _ => prospective_position_heap_bytes delivered source message_id false
    end in
  held ← gets sm_delivered_positions_reservation;
  _ ← match held with
      | None => mret tt
      | Some reservation =>
          bytes ← lift (map_err MePosition (pv_encoded_len position));
          bytes ← lift (ok_or (checked_sum bytes [position_heap; canonical_heap; DELIVERY_AUTHORITY_OVERHEAD])
                              (MePosition LengthOverflow));
          on_budget_ (transfer reservation DeliveredPositionMetadata DeliveredPositionMetadata bytes)
      end;
  modify (fun s => s <| sm_delivered_position := position |>).

Definition clear_delivered_positions : SM unit :=
  held ← gets sm_delivered_positions_reservation;
  _ ← match held with
      | None => mret tt
      | Some reservation =>
          _ ← on_budget_ (release reservation);
          modify (fun s => s <| sm_delivered_positions_reservation := None |>)
      end;
  modify (fun s => s <| sm_delivered_positions := ∅ |>
                     <| sm_delivered_position := empty_position (snap_epoch (sm_dag s)) |>).

(** * Arbitration of permits *)

Definition refresh_ordering (segment_id : Z) (s : StreamConsumerModel) : bool * StreamConsumerModel :=
  match sm_children s !! segment_id with
  | Some c =>
      match ch_phase c with
      | OpenBlocked _ =>
          let blocked block := set_child segment_id (c <| ch_phase := OpenBlocked block |>) s in
          match ordering_eligibility (sm_dag s) segment_id (sm_ordering_mode s)
                  (sm_ownership_history s) (sm_completed s) with
          | Err (OrderingUnprovable _ ancestors) => (false, blocked (FbOrderingUnprovable ancestors))
          | Err (OrdUnknownSegment _) => (false, s)
          | Ok (Blocked incomplete_ancestors _) => (false, blocked (Predecessors incomplete_ancestors))
          | Ok Eligible | Ok (BrokerManaged _) => (true, blocked FbBudget)
          end
      | _ => (false, s)
      end
  | None => (false, s)
  end.

(** [for segment_id in &ids], collecting the eligible ones *)
Fixpoint refresh_all (ids : list Z) (eligible : gset Z) (s : StreamConsumerModel)
    : gset Z * StreamConsumerModel :=
  match ids with
  | [] => (eligible, s)
  | id :: ids' =>
      let '(ok, s) := refresh_ordering id s in
      refresh_all ids' (if ok then {[id]} ∪ eligible else eligible) s
  end.

(** [ids.iter().position(|id| *id > cursor).unwrap_or(0)] *)
Definition flow_start (cursor : option Z) (ids : list Z) : nat :=
  match cursor with
  | None => 0
  | Some k => from_option fst 0%nat (list_find (fun id => k < id) ids)
  end.

Fixpoint grant_loop (candidates : list (Z * BudgetReservationOwner * Z))
    (actions : list StreamConsumerAction) : SM (list StreamConsumerAction) :=
  match candidates with
  | [] => mret actions
  | (segment_id, owner, current) :: rest =>
      pre_terminal_reservations ←
        lift (exhausted segment_id pre_terminal_kind (checked_add usize_max current 1));
      ((fun s =>
        match reserve_owned owner FlowPermit MAX_FRAME_SIZE (sm_budget s) with
        | Err _ => (Ok actions, s)
        | Ok (reservation, budget) =>
            let s := s <| sm_budget := budget |> in
            match sm_children s !! segment_id with
            | None => grant_loop rest actions s
            | Some c =>
                let c := set_pre_terminal pre_terminal_reservations
                           (c <| ch_phase := Flowing |>
                              <| ch_flow_reservation := Some reservation |>
                              <| ch_flow_purpose := Some FpMessage |>) in
                grant_loop rest
                  (actions ++ [GrantFlow (ch_source c) (ch_controller_incarnation c) (ch_generation c)
                                 reservation FpMessage])
                  ((set_child segment_id c s) <| sm_flow_cursor := Some segment_id |>)
            end
        end) : SM (list StreamConsumerAction))
  end.

Definition arbitrate_flow : SM (list StreamConsumerAction) := fun s =>
  if negb (bool_decide (sm_phase s = AgOpen)) then (Ok [], s)
  else
    let ids := btree_elems (dom (sm_children s)) in
    let '(eligible, s) := refresh_all ids ∅ s in
    if bool_decide (eligible = ∅) then (Ok [], s)
    else
      let start := flow_start (sm_flow_cursor s) ids in
      let ordered := drop start ids ++ take start ids in
      let candidates :=
        omap (fun segment_id =>
                (fun c => (segment_id, child_owner c, cb_pre_terminal_reservations (ch_completion c)))
                  <$> sm_children s !! segment_id)
             (filter (fun id => id ∈ eligible) ordered) in
      grant_loop candidates [] s.

Definition close_if_drained (segment_id generation : Z) : SM (list StreamConsumerAction) :=
  c ← query (child segment_id generation);
  if negb (bool_decide (ch_phase c = Draining)) || negb (drain_settled c) then mret []
  else
    _ ← modify (set_child segment_id (c <| ch_phase := PhClosing |>));
    mret [CloseChild (ch_source c) (ch_controller_incarnation c) (ch_generation c)].

(** [actions.extend(self.close_if_drained(..)?); actions.extend(self.arbitrate_flow()?)] *)
Definition close_then_arbitrate (segment_id generation : Z) : SM (list StreamConsumerAction) :=
  closed ← close_if_drained segment_id generation;
  granted ← arbitrate_flow;
  mret (closed ++ granted).

(** The reservations of [child], in id order. *)
Definition reservations_of (owner : BudgetReservationOwner) (b : ReceiverBudgetState)
    : list (Z * DataReservation) :=
  filter (fun '(_, r) => dr_owner r = Some owner) (btree_items (bs_reservations b)).

Definition child_has_only_seek_flow_reservation (c : ChildState) (b : ReceiverBudgetState) : bool :=
  match ch_flow_reservation c, reservations_of (child_owner c) b with
  | None, [] => true
  | Some expected, [(reservation, state)] =>
      (reservation =? expected) && bool_decide (dr_use state = FlowPermit)
  | _, _ => false
  end.

Definition receive_work (reservation : Z) (owner : BudgetReservationOwner) (s : StreamConsumerModel)
    : result StreamConsumerModelError DataReservation :=
  state ← ok_or (bs_reservations (sm_budget s) !! reservation) (MeBudget (UnknownReservation reservation));
  if negb (bool_decide (dr_owner state = Some owner))
  then Err (MeBudget (ReservationOwnerMismatch reservation (dr_owner state) owner))
  else
    match dr_use state with
    | ChunkAssembly | Decompression | BatchAssembly => Ok state
    | use => Err (InvalidReceiveWork reservation use)
    end.
