(* ===== verification/StreamOps.v ===== *)
(** * The aggregate model of a stream consumer: assignment, arrivals, deliveries

    [stream_consumer.rs]: the public methods of [StreamConsumerModel] that an
    engine calls for the control plane (assignments, reconnects, seeks, close),
    for the life of a child, for the entries a child receives and for the
    deliveries handed to the application. *)

From S2P Require Import Prelude Ids Frame SegmentTopic Assignment DagWatch OrdinaryId StreamPosition ReceiverBudget StreamModel.

(** * Construction and status *)

Definition model_new (parent_topic : str) (consumer_instance controller_incarnation : Z)
    (ordering_mode : OrderingMode) (dag : DagSnapshot) (budget : Z)
    : result StreamConsumerModelError StreamConsumerModel :=
  _ ← map_err MeSegmentTopic (canonical_segment_topic parent_topic KeyRange_FULL 0);
  Ok (mkModel parent_topic consumer_instance controller_incarnation 0 0 0 0 0 ordering_mode dag
        None ∅ ∅ ∅ ∅ ∅ (empty_position (snap_epoch dag)) None ∅ ∅ ∅ (budget_new budget) AgOpen None).

Definition child_generation (source : SegmentSource) (s : StreamConsumerModel) : option Z :=
  match sm_children s !! src_segment_id source with
  | Some c => if decide (ch_source c = source) then Some (ch_generation c) else None
  | None => None
  end.

Definition accepts_child_result (source : SegmentSource) (generation : Z) (s : StreamConsumerModel) : bool :=
  bool_decide (child_generation source s = Some generation).

Record StreamConsumerStatusSnapshot := mkStatus {
  st_phase : AggregatePhase;
  st_layout_epoch : Z;
  st_assigned_segments : Z;
  st_attached_segments : Z;
  st_draining_segments : Z;
  st_pending_ownership : list SegmentSource;
  st_ordering_unprovable : list Z;
  st_receiver_budget_limit : Z;
  st_receiver_budget_used : Z;
}.

Definition status (s : StreamConsumerModel) : StreamConsumerStatusSnapshot :=
  let children := btree_items (sm_children s) in
  {| st_phase := sm_phase s;
     st_layout_epoch := snap_epoch (sm_dag s);
     st_assigned_segments := from_option (fun a => blen (ca_segments a)) 0 (sm_assignment s);
     st_attached_segments := blen (filter (fun '(_, c) => ch_phase c <> PhOpening) children);
     st_draining_segments :=
       blen (filter (fun '(_, c) => ch_phase c = Draining \/ ch_phase c = PhClosing \/ ch_phase c = PhFailed)
               children);
     st_pending_ownership := (btree_items (sm_pending_ownership s)).*2;
     st_ordering_unprovable :=
       omap (fun '(id, c) => match ch_phase c with
                             | OpenBlocked (FbOrderingUnprovable _) => Some id
                             | _ => None
                             end) children;
     st_receiver_budget_limit := bs_budget (sm_budget s);
     st_receiver_budget_used := bs_data_used (sm_budget s) |}.

(** * Assignments *)

(** [segments().iter().map(|s| (s.segment_id(), (s.source(), s.bucket_ranges())))] *)
Definition ownership (a : ConsumerAssignment) : gmap Z (SegmentSource * list KeyRange) :=
  btree_collect ((fun g => (as_segment_id g, (assigned_source g, as_bucket_ranges g))) <$> ca_segments a).

Definition check_parent (expected : str) (g : AssignedSegment) : result StreamConsumerModelError unit :=
  let got := parent_topic (assigned_source g) in
  if negb (bool_decide (got = expected))
  then Err (AssignmentParentMismatch (as_segment_id g) got expected) else Ok tt.

(** A completed segment that the layout shows as sealed. *)
Definition is_sealed (dag : DagSnapshot) (id : Z) : bool :=
  match snap_segments dag !! id with
  | Some segment => bool_decide (seg_state segment = SSealed)
  | None => false
  end.

(** The body of [for (lost, source) in &retiring], on the child it concerns. *)
Definition retire_child (wait_for_flow_drain : bool) (c : ChildState) : ChildState * list StreamConsumerAction :=
  let '(c, stop_flow, actions) :=
    match ch_phase c with
    | PhOpening =>
        (c <| ch_phase := PhClosing |>, false,
         [CancelOpen (ch_source c) (ch_controller_incarnation c) (ch_generation c)])
    | Flowing =>
        (c <| ch_wait_for_flow_drain := wait_for_flow_drain |> <| ch_phase := Draining |>, true, [])
    | OpenBlocked _ | PhTerminal | Seeking =>
        (c <| ch_wait_for_flow_drain := wait_for_flow_drain |> <| ch_phase := Draining |>, false, [])
    | Draining =>
        (c <| ch_wait_for_flow_drain := ch_wait_for_flow_drain c || wait_for_flow_drain |>, false, [])
    | PhFailed | PhClosing => (c, false, [])
    end in
  if drain_settled c && bool_decide (ch_phase c = Draining)
  then (c <| ch_phase := PhClosing |>,
        actions ++ [CloseChild (ch_source c) (ch_controller_incarnation c) (ch_generation c)])
  else if stop_flow
  then (c, actions ++ [StopFlow (ch_source c) (ch_controller_incarnation c) (ch_generation c)])
  else (c, actions).

(** The staged collections of [reconcile_assignment]. *)
Record Staged := mkStaged {
  sg_children : gmap Z ChildState;
  sg_pending_ownership : gmap Z SegmentSource;
  sg_ownership_history : gset Z;
  sg_next_child_generation : Z;
  sg_completed : gset Z;
  sg_actions : list StreamConsumerAction;
}.

#[global] Instance Staged_eta : Eta Staged := fun g =>
  mkStaged (sg_children g) (sg_pending_ownership g) (sg_ownership_history g)
    (sg_next_child_generation g) (sg_completed g) (sg_actions g).

Definition retire_step (replacements bucket_only_changes : gset Z) (g : Staged) (p : Z * SegmentSource) : Staged :=
  let '(lost, source) := p in
  let g := g <| sg_pending_ownership := delete lost (sg_pending_ownership g) |> in
  match sg_children g !! lost with
  | Some c =>
      if decide (ch_source c = source) then
        let wait := bool_decide (lost ∈ replacements) && negb (bool_decide (lost ∈ bucket_only_changes)) in
        let '(c, actions) := retire_child wait c in
        g <| sg_children := <[lost := c]> (sg_children g) |> <| sg_actions := sg_actions g ++ actions |>
      else g
  | None => g
  end.

(** The body of [for (segment_id, (source, bucket_ranges)) in &after]. *)
Definition gain_step (incarnation next_generation : Z) (replacements completed_sealed : gset Z)
    (before : gmap Z (SegmentSource * list KeyRange)) (g : Staged)
    (p : Z * (SegmentSource * list KeyRange)) : result StreamConsumerModelError Staged :=
  let '(segment_id, (source, bucket_ranges)) := p in
  if bool_decide (segment_id ∈ completed_sealed) then Ok g
  else if bool_decide (segment_id ∉ replacements)
          && bool_decide (before !! segment_id = Some (source, bucket_ranges)) then Ok g
  else if bool_decide (is_Some (sg_children g !! segment_id))
  then Ok (g <| sg_pending_ownership := <[segment_id := source]> (sg_pending_ownership g) |>)
  else
    let child_generation := sg_next_child_generation g in
    next ← ok_or (checked_add u64_max child_generation 1) GenerationExhausted;
    Ok (mkStaged
          (<[segment_id := opening_child source incarnation child_generation
                             (negb (bool_decide (bucket_ranges = [])))]> (sg_children g))
          (sg_pending_ownership g) ({[segment_id]} ∪ sg_ownership_history g) next
          (sg_completed g ∖ {[segment_id]})
          (sg_actions g ++ [OpenChild source incarnation next_generation child_generation])).

Fixpoint gain_loop (incarnation next_generation : Z) (replacements completed_sealed : gset Z)
    (before : gmap Z (SegmentSource * list KeyRange))
    (l : list (Z * (SegmentSource * list KeyRange))) (g : Staged)
    : result StreamConsumerModelError Staged :=
  match l with
  | [] => Ok g
  | p :: l' =>
      g ← gain_step incarnation next_generation replacements completed_sealed before g p;
      gain_loop incarnation next_generation replacements completed_sealed before l' g
  end.

(** [retiring]: what [before] owned and [after] does not, and every replaced
    child.  [replacements] names children only, so [&children[segment_id]] is
    defined. *)
Definition retiring (replacements : gset Z) (before after : gmap Z (SegmentSource * list KeyRange))
    (children : gmap Z ChildState) : gmap Z SegmentSource :=
  let lost := filter (fun '(id, ownership) => id ∈ replacements \/ after !! id <> Some ownership) before in
  foldl (fun m id => match m !! id, children !! id with
                     | None, Some c => <[id := ch_source c]> m
                     | _, _ => m
                     end)
        (fst <$> lost) (btree_elems replacements).

(** The source of the segment is unchanged, its bucket ranges are not. *)
Definition bucket_only_change (after : gmap Z (SegmentSource * list KeyRange))
    (p : Z * (SegmentSource * list KeyRange)) : bool :=
  match after !! p.1 with
  | Some (next_source, next_ranges) =>
      bool_decide (p.2.1 = next_source) && negb (bool_decide (p.2.2 = next_ranges))
  | None => false
  end.

Definition gained_count (replacements completed_sealed : gset Z)
    (before after : gmap Z (SegmentSource * list KeyRange)) (children : gmap Z ChildState) : Z :=
  blen (filter (fun '(id, source) =>
          (id ∈ replacements \/ before !! id <> Some source) /\ children !! id = None
          /\ id ∉ completed_sealed) (btree_items after)).

Definition reconcile_assignment (assignment : ConsumerAssignment) (replacements : gset Z)
    : SM (list StreamConsumerAction) :=
  _ ← require_open;
  _ ← query (fun s => map_err MeAttachment (validate_assignment (sm_dag s) assignment));
  _ ← query (fun s => try_each (check_parent (sm_parent_topic s)) (ca_segments assignment));
  current ← gets sm_assignment;
  if bool_decide (current = Some assignment) && bool_decide (replacements = ∅) then mret []
  else
    next_generation ← query (fun s => ok_or (checked_add u64_max (sm_generation s) 1) GenerationExhausted);
    let before := from_option ownership ∅ current in
    let after := ownership assignment in
    let bucket_only_changes : gset Z := 
      dom (filter (fun p => bucket_only_change after p = true) before) in
    completed_sealed ← gets (fun s => filter (fun id => is_sealed (sm_dag s) id = true) (sm_completed s));
    children ← gets sm_children;
    _ ← query (fun s => ok_or (checked_add u64_max (sm_next_child_generation s)
                                 (gained_count replacements completed_sealed before after children))
                              GenerationExhausted);
    staged ← gets (fun s => mkStaged (sm_children s) (sm_pending_ownership s) (sm_ownership_history s)
                              (sm_next_child_generation s) (sm_completed s) []);
    let staged := foldl (retire_step replacements bucket_only_changes) staged
                    (btree_items (retiring replacements before after children)) in
    incarnation ← gets sm_controller_incarnation;
    staged ← lift (gain_loop incarnation next_generation replacements completed_sealed before
                     (btree_items after) staged);
    _ ← modify (fun s => s <| sm_generation := next_generation |>
                           <| sm_next_child_generation := sg_next_child_generation staged |>
                           <| sm_children := sg_children staged |>
                           <| sm_pending_ownership := sg_pending_ownership staged |>
                           <| sm_ownership_history := sg_ownership_history staged |>
                           <| sm_completed := sg_completed staged |>
                           <| sm_assignment := Some assignment |>);
    mret (sg_actions staged).

Definition apply_assignment_for (incarnation : Z) (assignment : ConsumerAssignment)
    : SM (list StreamConsumerAction) :=
  expected ← gets sm_controller_incarnation;
  _ ← throw_if (negb (incarnation =? expected)) (MeAssignment (IncarnationMismatch incarnation expected));
  atomically (
    actions ← reconcile_assignment assignment ∅;
    granted ← arbitrate_flow;
    mret (actions ++ granted)).

Definition apply_assignment (assignment : ConsumerAssignment) : SM (list StreamConsumerAction) :=
  incarnation ← gets sm_controller_incarnation;
  apply_assignment_for incarnation assignment.

(** The descriptor was sealed and lost its placement. *)
Definition drains_in_place (previous current : option SegmentDescriptor) : bool :=
  match previous, current with
  | Some p, Some c =>
      bool_decide (seg_state p = SActive) && bool_decide (seg_state c = SSealed)
      && bool_decide (seg_broker_url c = None) && bool_decide (seg_broker_url_tls c = None)
  | _, _ => false
  end.

(** The children whose descriptor changed, other than by sealing in place. *)
Definition replaced_children (old new : DagSnapshot) (children : gmap Z ChildState) : gset Z :=
  filter (fun id =>
      snap_segments old !! id <> snap_segments new !! id
      /\ drains_in_place (snap_segments old !! id) (snap_segments new !! id) = false)
    (dom children).

Definition apply_control_plane_for (incarnation : Z) (dag : DagSnapshot) (assignment : ConsumerAssignment)
    : SM (list StreamConsumerAction) :=
  _ ← require_open;
  expected ← gets sm_controller_incarnation;
  _ ← throw_if (negb (incarnation =? expected)) (MeAssignment (IncarnationMismatch incarnation expected));
  replacements ← gets (fun s => replaced_children (sm_dag s) dag (sm_children s));
  atomically (
    _ ← modify (fun s => s <| sm_dag := dag |>);
    actions ← reconcile_assignment assignment replacements;
    _ ← refresh_delivered_position;
    granted ← arbitrate_flow;
    mret (actions ++ granted)).

Definition apply_control_plane (dag : DagSnapshot) (assignment : ConsumerAssignment)
    : SM (list StreamConsumerAction) :=
  incarnation ← gets sm_controller_incarnation;
  apply_control_plane_for incarnation dag assignment.

(** * Fencing *)

(** The action that releases a child, for [begin_controller_incarnation] and [close]. *)
Definition release_action (c : ChildState) : option StreamConsumerAction :=
  match ch_phase c with
  | PhOpening => Some (CancelOpen (ch_source c) (ch_controller_incarnation c) (ch_generation c))
  | PhClosing => None
  | _ => Some (CloseChild (ch_source c) (ch_controller_incarnation c) (ch_generation c))
  end.

(** The same in [require_resync]: a failed child is already being closed. *)
Definition resync_action (c : ChildState) : option StreamConsumerAction :=
  match ch_phase c with
  | PhFailed => None
  | _ => release_action c
  end.

Definition next_authority : SM (Z * Z) :=
  generation ← query (fun s => ok_or (checked_add u64_max (sm_generation s) 1) GenerationExhausted);
  delivery_epoch ← query (fun s => ok_or (checked_add u64_max (sm_delivery_epoch s) 1) GenerationExhausted);
  mret (generation, delivery_epoch).

(** What the three fencing transitions assign in common. *)
Definition fence (generation delivery_epoch : Z) (s : StreamConsumerModel) : StreamConsumerModel :=
  s <| sm_pending_acknowledgements := ∅ |>
    <| sm_pending_transaction_acknowledgements := ∅ |>
    <| sm_generation := generation |>
    <| sm_delivery_epoch := delivery_epoch |>
    <| sm_assignment := None |>
    <| sm_pending_ownership := ∅ |>
    <| sm_children := (fun c => c <| ch_phase := PhClosing |>) <$> sm_children s |>.

Definition child_actions (f : ChildState -> option StreamConsumerAction) (s : StreamConsumerModel)
    : list StreamConsumerAction := omap f (btree_items (sm_children s)).*2.

Definition begin_controller_incarnation (incarnation : Z) : SM (list StreamConsumerAction) :=
  phase ← gets sm_phase;
  _ ← throw_if (negb (bool_decide (phase = AgOpen) || bool_decide (phase = ResyncRequired)))
        (InvalidAggregatePhase phase);
  prev ← gets sm_controller_incarnation;
  _ ← throw_if (incarnation <=? prev) (MeAssignment (NonAdvancingIncarnation incarnation prev));
  '(generation, delivery_epoch) ← next_authority;
  actions ← gets (child_actions release_action);
  _ ← clear_delivered_positions;
  _ ← modify (fun s => (fence generation delivery_epoch s) <| sm_controller_incarnation := incarnation |>
                         <| sm_phase := AgOpen |>);
  mret actions.

Definition apply_reconnect_baseline (incarnation : Z) (dag : DagSnapshot) (assignment : ConsumerAssignment)
    : SM (list StreamConsumerAction) :=
  atomically (
    actions ← begin_controller_incarnation incarnation;
    applied ← apply_control_plane dag assignment;
    mret (actions ++ applied)).

Definition require_resync : SM (list StreamConsumerAction) :=
  phase ← gets sm_phase;
  if bool_decide (phase = ResyncRequired) then mret []
  else
    _ ← throw_if (negb (bool_decide (phase = AgOpen))) (InvalidAggregatePhase phase);
    '(generation, delivery_epoch) ← next_authority;
    actions ← gets (child_actions resync_action);
    _ ← clear_delivered_positions;
    _ ← modify (fun s => (fence generation delivery_epoch s) <| sm_phase := ResyncRequired |>);
    mret actions.

Definition seek_failed : SM (list StreamConsumerAction) := require_resync.

Definition close : SM (list StreamConsumerAction) :=
  phase ← gets sm_phase;
  if bool_decide (phase = AgClosing) || bool_decide (phase = AgClosed) then mret []
  else
    '(generation, delivery_epoch) ← next_authority;
    actions ← gets (child_actions release_action);
    _ ← clear_delivered_positions;
    _ ← modify (fun s => (fence generation delivery_epoch s)
                           <| sm_phase := if bool_decide (sm_children s = ∅) then AgClosed else AgClosing |>);
    mret actions.

(** * Seek *)

Definition check_seek_source (s : StreamConsumerModel) (source : SegmentSource)
    : result StreamConsumerModelError unit :=
  let segment_id := src_segment_id source in
  match snap_segments (sm_dag s) !! segment_id with
  | None => Err SeekSourceMismatch
  | Some descriptor =>
      if negb (bool_decide (seg_state descriptor = SActive)) || negb (bool_decide (seg_children descriptor = []))
      then Err (SeekNonActiveLeaf segment_id)
      else
        match sm_children s !! segment_id with
        | None => Err SeekSourceMismatch
        | Some c =>
            if negb (bool_decide (ch_source c = source)) then Err SeekSourceMismatch
            else if negb (handoff_settled c)
                    || negb (child_has_only_seek_flow_reservation c (sm_budget s))
                    || match ch_phase c with
                       | PhOpening | Draining | PhClosing | Seeking | PhFailed => true
                       | _ => false
                       end
            then Err ConcurrentSeek
            else Ok tt
        end
  end.

(** The body of [for (source, stream_message_id) in positions]. *)
Definition seek_child (p : SegmentSource * StreamMessageId) : SM (list StreamConsumerAction) :=
  let '(source, stream_message_id) := p in
  let segment_id := src_segment_id source in
  c ← query (fun s => ok_or (sm_children s !! segment_id) SeekSourceMismatch);
  stop ← match ch_flow_reservation c with
         | None => mret []
         | Some reservation =>
             _ ← query (fun s => map_err MeBudget (owned reservation (child_owner c) FlowPermit (sm_budget s)));
             _ ← on_budget_ (release reservation);
             mret [StopFlow source (ch_controller_incarnation c) (ch_generation c)]
         end;
  _ ← modify (fun s =>
        (set_child segment_id (c <| ch_flow_reservation := None |> <| ch_flow_purpose := None |>
                                 <| ch_completion := barrier_default |> <| ch_phase := Seeking |>) s)
          <| sm_completed := sm_completed s ∖ {[segment_id]} |>);
  mret (stop ++ [SeekChild source (ch_controller_incarnation c) (ch_generation c) stream_message_id]).

Definition begin_seek (vector : PositionVector) : SM (list StreamConsumerAction) :=
  _ ← require_open;
  epoch ← gets (fun s => snap_epoch (sm_dag s));
  _ ← throw_if (negb (pv_layout_epoch vector =? epoch)) (SeekLayoutMismatch (pv_layout_epoch vector) epoch);
  assignment ← query (fun s => ok_or (sm_assignment s) SeekSourceMismatch);
  let positions : gmap SegmentSource StreamMessageId :=
    btree_collect ((fun i => (smi_source i, i)) <$> stream_message_ids vector) in
  let expected : gset SegmentSource := list_to_set (assigned_source <$> ca_segments assignment) in
  _ ← throw_if (negb (bool_decide (size positions = size expected))
                || negb (bool_decide (dom positions ⊆ expected))) SeekSourceMismatch;
  concurrent ← gets (fun s =>
      negb (bool_decide (sm_live_deliveries s = ∅)) || negb (bool_decide (sm_pending_ownership s = ∅))
      || existsb (fun '(_, c) => negb (bool_decide (ch_source c ∈ expected))) (btree_items (sm_children s)));
  _ ← throw_if concurrent ConcurrentSeek;
  _ ← query (fun s => try_each (check_seek_source s) (btree_elems expected));
  '(generation, delivery_epoch) ← next_authority;
  atomically (
    actions ← collect_actions seek_child (btree_items positions);
    _ ← modify (fun s => s <| sm_generation := generation |> <| sm_delivery_epoch := delivery_epoch |>);
    _ ← clear_delivered_positions;
    mret actions).

Definition seek_completed (segment_id generation : Z) : SM (list StreamConsumerAction) :=
  _ ← require_open;
  c ← query (child segment_id generation);
  _ ← throw_if (negb (bool_decide (ch_phase c = Seeking))) (InvalidChildTransition segment_id (ch_phase c));
  _ ← modify (set_child segment_id (c <| ch_phase := OpenBlocked FbBudget |>));
  waiting ← gets (fun s => existsb (fun '(_, c) => bool_decide (ch_phase c = Seeking)) (btree_items (sm_children s)));
  if waiting : bool then mret [] else arbitrate_flow.

(** * The life of a child *)

Definition child_opened (segment_id generation : Z) : SM (list StreamConsumerAction) :=
  _ ← require_open;
  c ← query (child segment_id generation);
  _ ← throw_if (negb (bool_decide (ch_phase c = PhOpening))) (InvalidChildTransition segment_id (ch_phase c));
  _ ← modify (set_child segment_id (c <| ch_phase := OpenBlocked FbBudget |>));
  _ ← modify (fun s => if decide (sm_pending_ownership s !! segment_id = Some (ch_source c))
                       then s <| sm_pending_ownership := delete segment_id (sm_pending_ownership s) |>
                       else s);
  arbitrate_flow.

Definition child_open_busy (segment_id generation : Z) : SM unit :=
  _ ← require_open;
  c ← query (child segment_id generation);
  _ ← throw_if (negb (bool_decide (ch_phase c = PhOpening))) (InvalidChildTransition segment_id (ch_phase c));
  modify (fun s => s <| sm_pending_ownership := <[segment_id := ch_source c]> (sm_pending_ownership s) |>).

(** [assignment.segments().iter().find(|s| s.segment_id() == segment_id)] *)
Definition find_assigned (a : option ConsumerAssignment) (segment_id : Z) : option AssignedSegment :=
  assignment ← a;
  snd <$> list_find (fun g => as_segment_id g = segment_id) (ca_segments assignment).

(** The replacement that [child_closed] opens when the segment was regained. *)
Definition replacement (segment_id : Z) (s : StreamConsumerModel)
    : result StreamConsumerModelError (option (SegmentSource * Z * bool)) :=
  let completed_sealed :=
    bool_decide (segment_id ∈ sm_completed s) && is_sealed (sm_dag s) segment_id in
  let pending :=
    if bool_decide (sm_phase s = AgOpen) && negb completed_sealed
    then sm_pending_ownership s !! segment_id else None in
  match pending with
  | None => Ok None
  | Some source =>
      next ← ok_or (checked_add u64_max (sm_next_child_generation s) 1) GenerationExhausted;
      let bucket_shared :=
        match find_assigned (sm_assignment s) segment_id with
        | Some g => negb (bool_decide (as_bucket_ranges g = []))
        | None => false
        end in
      Ok (Some (source, next, bucket_shared))
  end.

Definition child_closed (segment_id generation : Z) : SM (list StreamConsumerAction) :=
  _ ← require_callback_phase;
  c ← query (child segment_id generation);
  _ ← throw_if (negb (closing_or_failed (ch_phase c))) (InvalidChildTransition segment_id (ch_phase c));
  let owner := child_owner c in
  found ← query (replacement segment_id);
  released ← on_budget (fun b => Ok (release_owner owner b));
  _ ← modify (fun s => s <| sm_live_deliveries :=
                              filter (fun '(_, d) => ld_owner d <> owner) (sm_live_deliveries s) |>
                         <| sm_children := delete segment_id (sm_children s) |>
                         <| sm_pending_ownership := delete segment_id (sm_pending_ownership s) |>);
  actions ← match found with
            | None => mret []
            | Some (source, next, bucket_shared) =>
                (fun s =>
                  let child_generation := sm_next_child_generation s in
                  let incarnation := sm_controller_incarnation s in
                  (Ok [OpenChild source incarnation (sm_generation s) child_generation],
                   s <| sm_next_child_generation := next |>
                     <| sm_completed := sm_completed s ∖ {[segment_id]} |>
                     <| sm_ownership_history := {[segment_id]} ∪ sm_ownership_history s |>
                     <| sm_children := <[segment_id := opening_child source incarnation child_generation
                                                         bucket_shared]> (sm_children s) |>))
                : SM (list StreamConsumerAction)
            end;
  drained ← gets (fun s => bool_decide (sm_phase s = AgClosing) && bool_decide (sm_children s = ∅));
  if drained : bool then
    _ ← modify (fun s => s <| sm_phase := AgClosed |> <| sm_assignment := None |>);
    _ ← clear_delivered_positions;
    mret actions
  else
    delivered ← gets (fun s => sm_delivered_positions s !! ch_source c);
    _ ← match delivered with
        | None => mret tt
        | Some _ =>
            _ ← modify (fun s => s <| sm_delivered_positions := delete (ch_source c) (sm_delivered_positions s) |>);
            empty ← gets (fun s => bool_decide (sm_delivered_positions s = ∅));
            if empty : bool then clear_delivered_positions else refresh_delivered_position
        end;
    if bool_decide (released = []) then mret actions
    else
      granted ← arbitrate_flow;
      mret (actions ++ granted).

Definition observe_terminal (segment_id generation : Z) : SM (list StreamConsumerAction) :=
  _ ← require_callback_phase;
  c ← query (child segment_id generation);
  _ ← throw_if (bool_decide (ch_phase c = PhOpening)) (InvalidChildTransition segment_id (ch_phase c));
  pre_terminal_reservations ←
    lift (match ch_flow_reservation c with
          | None => Ok None
          | Some _ => Some <$> unbalanced segment_id pre_terminal_kind
                                 (checked_sub (cb_pre_terminal_reservations (ch_completion c)) 1)
          end);
  _ ← match ch_flow_reservation c with
      | None => mret tt
      | Some reservation =>
          _ ← query (fun s => map_err MeBudget (owned reservation (child_owner c) FlowPermit (sm_budget s)));
          on_budget_ (release reservation)
      end;
  _ ← child_mut segment_id generation (fun c =>
        let c := c <| ch_flow_reservation := None |> <| ch_flow_purpose := None |> in
        let c := match pre_terminal_reservations with Some n => set_pre_terminal n c | None => c end in
        let c := c <| ch_completion := (ch_completion c) <| cb_terminal := true |> |> in
        match ch_phase c with
        | Draining | PhClosing | PhFailed => c
        | _ => c <| ch_phase := PhTerminal |>
        end);
  close_then_arbitrate segment_id generation.

Definition complete_segment (segment_id generation : Z) : SM (list StreamConsumerAction) :=
  _ ← require_open;
  c ← query (child segment_id generation);
  _ ← throw_if (negb (complete (ch_completion c))) (SegmentNotComplete segment_id);
  _ ← modify (fun s => s <| sm_completed := {[segment_id]} ∪ sm_completed s |>);
  arbitrate_flow.
