(* ===== verification/StreamReceive.v ===== *)
(** * The aggregate model of a stream consumer: entries, deliveries, acknowledgements

    [stream_consumer.rs]: the accounting of the entries a child receives (work
    reservations, chunk assemblies, arrivals), the deliveries handed to the
    application and the acknowledgements admitted and settled against them. *)

From S2P Require Import Prelude Ids Frame SegmentTopic Assignment DagWatch OrdinaryId StreamPosition ReceiverBudget StreamModel StreamOps.

(** * Receive work *)

Definition reserve_receive_work (segment_id generation : Z) (use : BudgetUse) (bytes : Z) : SM Z :=
  _ ← require_open;
  c ← query (child segment_id generation);
  _ ← throw_if (negb (flowing_or_draining (ch_phase c)) || negb (has_flow c))
        (InvalidChildTransition segment_id (ch_phase c));
  let purpose_matches :=
    match use, ch_flow_purpose c with
    | _, Some FpMessage => true
    | Decompression, Some (ChunkContinuation _) => true
    | _, _ => false
    end in
  _ ← throw_if (negb purpose_matches) (FlowPurposeMismatch segment_id (ch_flow_purpose c) FpMessage);
  pre_terminal_reservations ←
    lift (exhausted segment_id pre_terminal_kind
            (checked_add usize_max (cb_pre_terminal_reservations (ch_completion c)) 1));
  reservation ← on_budget (reserve_owned (child_owner c) use bytes);
  _ ← child_mut segment_id generation (set_pre_terminal pre_terminal_reservations);
  mret reservation.

Definition reserve_decompression (segment_id generation bytes : Z) : SM Z :=
  reserve_receive_work segment_id generation Decompression bytes.

Definition reserve_batch_assembly (segment_id generation bytes : Z) : SM Z :=
  reserve_receive_work segment_id generation BatchAssembly bytes.

Definition cancel_receive_work (segment_id generation reservation : Z) : SM (list StreamConsumerAction) :=
  _ ← require_open;
  c ← query (child segment_id generation);
  _ ← query (receive_work reservation (child_owner c));
  pre_terminal_reservations ←
    lift (unbalanced segment_id pre_terminal_kind
            (checked_sub (cb_pre_terminal_reservations (ch_completion c)) 1));
  _ ← on_budget_ (release reservation);
  _ ← child_mut segment_id generation (set_pre_terminal pre_terminal_reservations);
  close_then_arbitrate segment_id generation.

(** * Arrivals *)

(** The guards that every arrival starts with. *)
Definition arrival_child (segment_id generation flow_reservation : Z) (purpose : FlowPurpose) : SM ChildState :=
  _ ← require_open;
  c ← query (child segment_id generation);
  _ ← throw_if (negb (flowing_or_draining (ch_phase c))
                || negb (bool_decide (ch_flow_reservation c = Some flow_reservation)))
        (InvalidChildTransition segment_id (ch_phase c));
  _ ← throw_if (negb (bool_decide (ch_flow_purpose c = Some purpose)))
        (FlowPurposeMismatch segment_id (ch_flow_purpose c) purpose);
  mret c.

Definition chunk_frame_buffered (segment_id generation flow_reservation : Z) (assembly : option Z)
    (allocation_bytes : Z) : SM (Z * list StreamConsumerAction) :=
  c ← arrival_child segment_id generation flow_reservation (from_option ChunkContinuation FpMessage assembly);
  let owner := child_owner c in
  let pre_terminal := cb_pre_terminal_reservations (ch_completion c) in
  _ ← query (fun s => map_err MeBudget (owned flow_reservation owner FlowPermit (sm_budget s)));
  atomically (
    '(assembly, pre_terminal_reservations) ←
      match assembly with
      | Some assembly =>
          assembly_state ← query (fun s => map_err MeBudget (owned assembly owner ChunkAssembly (sm_budget s)));
          _ ← on_budget_ (release flow_reservation);
          _ ← on_budget_ (transfer_owned assembly owner ChunkAssembly ChunkAssembly
                            (Z.max allocation_bytes (dr_bytes assembly_state)));
          remaining ← lift (unbalanced segment_id pre_terminal_kind (checked_sub pre_terminal 1));
          mret (assembly, remaining)
      | None =>
          _ ← on_budget_ (transfer_owned flow_reservation owner FlowPermit ChunkAssembly allocation_bytes);
          mret (flow_reservation, pre_terminal)
      end;
    next_flow ← on_budget (reserve_owned owner FlowPermit MAX_FRAME_SIZE);
    pre_terminal_reservations ←
      lift (exhausted segment_id pre_terminal_kind (checked_add usize_max pre_terminal_reservations 1));
    _ ← child_mut segment_id generation (fun c =>
          set_pre_terminal pre_terminal_reservations
            (c <| ch_flow_reservation := Some next_flow |>
               <| ch_flow_purpose := Some (ChunkContinuation assembly) |>));
    mret (assembly, [GrantFlow (ch_source c) (ch_controller_incarnation c) (ch_generation c) next_flow
                       (ChunkContinuation assembly)])).

(** [for reservation in work]: no repetition, the bytes they hold in total *)
Fixpoint work_bytes (owner : BudgetReservationOwner) (seen : gset Z) (reserved : Z) (work : list Z)
    (s : StreamConsumerModel) : result StreamConsumerModelError Z :=
  match work with
  | [] => Ok reserved
  | reservation :: work' =>
      if bool_decide (reservation ∈ seen) then Err (DuplicateReceiveWork reservation)
      else
        state ← receive_work reservation owner s;
        work_bytes owner ({[reservation]} ∪ seen) (saturating_add usize_max reserved (dr_bytes state)) work' s
  end.

(** [retained_bytes.iter().try_fold(..)]: one reservation per message *)
Fixpoint reserve_retained (owner : BudgetReservationOwner) (retained_bytes : list Z) : SM (list Z) :=
  match retained_bytes with
  | [] => mret []
  | bytes :: rest =>
      reservation ← on_budget (reserve_owned owner RetainedMessage bytes);
      retained ← reserve_retained owner rest;
      mret (reservation :: retained)
  end.

(** The permit of a child that has been used up. *)
Definition consume_flow (c : ChildState) : ChildState :=
  let c := c <| ch_flow_reservation := None |> <| ch_flow_purpose := None |> in
  if bool_decide (ch_phase c = Flowing) then c <| ch_phase := OpenBlocked FbBudget |> else c.

Definition complete_preallocated_arrival (segment_id generation flow_reservation : Z)
    (expected_purpose : FlowPurpose) (work retained_bytes : list Z)
    : SM (list Z * list StreamConsumerAction) :=
  c ← arrival_child segment_id generation flow_reservation expected_purpose;
  let owner := child_owner c in
  flow ← query (fun s => map_err MeBudget (owned flow_reservation owner FlowPermit (sm_budget s)));
  reserved ← query (work_bytes owner {[flow_reservation]} (dr_bytes flow) work);
  let required :=
    foldl (fun total bytes => saturating_add usize_max total (Z.max bytes MIN_RETAINED_MESSAGE_RESERVATION))
          0 retained_bytes in
  _ ← throw_if (required >? reserved) (MeBudget (PreallocationExceeded required reserved));
  consumed ← lift (exhausted segment_id pre_terminal_kind (checked_add usize_max (blen work) 1));
  pre_terminal_reservations ←
    lift (unbalanced segment_id pre_terminal_kind
            (remaining ← checked_sub (cb_pre_terminal_reservations (ch_completion c)) consumed;
             checked_add usize_max remaining (blen retained_bytes)));
  atomically (
    _ ← on_budget_ (release flow_reservation);
    _ ← for_each (fun reservation => on_budget_ (release reservation)) work;
    retained ← reserve_retained owner retained_bytes;
    _ ← child_mut segment_id generation (fun c => set_pre_terminal pre_terminal_reservations (consume_flow c));
    actions ← arbitrate_flow;
    mret (retained, actions)).

Definition chunk_message_arrived (segment_id generation flow_reservation assembly : Z) (work : list Z)
    (retained_bytes : Z) : SM (Z * list StreamConsumerAction) :=
  c ← query (child segment_id generation);
  _ ← query (fun s => map_err MeBudget (owned assembly (child_owner c) ChunkAssembly (sm_budget s)));
  '(retained, actions) ← complete_preallocated_arrival segment_id generation flow_reservation
                           (ChunkContinuation assembly) (assembly :: work) [retained_bytes];
  retained ← lift (unbalanced segment_id "preallocated message" (last retained));
  mret (retained, actions).

Definition message_arrived_preallocated (segment_id generation flow_reservation : Z) (work : list Z)
    (retained_bytes : Z) : SM (Z * list StreamConsumerAction) :=
  '(retained, actions) ← complete_preallocated_arrival segment_id generation flow_reservation
                           FpMessage work [retained_bytes];
  retained ← lift (unbalanced segment_id "preallocated message" (last retained));
  mret (retained, actions).

Definition discard_preallocated_arrival (segment_id generation flow_reservation : Z)
    (expected_purpose : FlowPurpose) (work : list Z) : SM (list StreamConsumerAction) :=
  '(retained, actions) ← complete_preallocated_arrival segment_id generation flow_reservation
                           expected_purpose work [0];
  _ ← for_each (fun reservation => on_budget_ (release reservation)) retained;
  rest ← close_then_arbitrate segment_id generation;
  mret (actions ++ rest).

Definition batch_arrived_preallocated (segment_id generation flow_reservation : Z)
    (work retained_bytes : list Z) : SM (list Z * list StreamConsumerAction) :=
  if bool_decide (retained_bytes = []) then
    c ← query (child segment_id generation);
    throw (InvalidChildTransition segment_id (ch_phase c))
  else complete_preallocated_arrival segment_id generation flow_reservation FpMessage work retained_bytes.

Definition message_arrived (segment_id generation reservation retained_bytes : Z)
    : SM (Z * list StreamConsumerAction) :=
  c ← arrival_child segment_id generation reservation FpMessage;
  let owner := child_owner c in
  pre_terminal_reservations ←
    lift (unbalanced segment_id pre_terminal_kind
            (checked_sub (cb_pre_terminal_reservations (ch_completion c)) 1));
  _ ← query (fun s => map_err MeBudget (owned reservation owner FlowPermit (sm_budget s)));
  let retained_bytes := Z.max retained_bytes MIN_RETAINED_MESSAGE_RESERVATION in
  attempt ← gets (fun s => transfer_owned reservation owner FlowPermit RetainedMessage retained_bytes (sm_budget s));
  match attempt with
  | Err error =>
      _ ← on_budget_ (release reservation);
      let disposition := match error with Exhausted _ _ => Retryable | _ => Permanent end in
      pending_source ← gets (fun s =>
          match disposition with
          | Retryable => assigned_source <$> find_assigned (sm_assignment s) segment_id
          | Permanent => None
          end);
      _ ← child_mut segment_id generation (fun c =>
            (set_pre_terminal pre_terminal_reservations
               (c <| ch_flow_reservation := None |> <| ch_flow_purpose := None |>)) <| ch_phase := PhFailed |>);
      _ ← modify (fun s => s <| sm_pending_ownership :=
                                  match pending_source with
                                  | Some source => <[segment_id := source]> (sm_pending_ownership s)
                                  | None => delete segment_id (sm_pending_ownership s)
                                  end |>);
      granted ← arbitrate_flow;
      throw (ArrivalAccountingFailed error disposition
               (CloseChild (ch_source c) (ch_controller_incarnation c) (ch_generation c) :: granted))
  | Ok budget =>
      _ ← modify (fun s => s <| sm_budget := budget |>);
      _ ← child_mut segment_id generation consume_flow;
      actions ← arbitrate_flow;
      mret (reservation, actions)
  end.

(** * Deliveries *)

(** The bytes charged to a delivery and to the delivered positions, for a vector
    of [vector_bytes] bytes. *)
Definition authority_charge (smi_bytes smi_heap vector_bytes vector_heap : Z) : option Z :=
  checked_sum smi_bytes [smi_heap; vector_bytes; vector_heap; DELIVERY_AUTHORITY_OVERHEAD;
                         DELIVERY_ACK_GENERATION_OVERHEAD].

Definition metadata_charge (vector_bytes vector_heap positions_heap : Z) : option Z :=
  checked_sum vector_bytes [vector_heap; positions_heap; DELIVERY_AUTHORITY_OVERHEAD].

Definition issue_delivery (segment_id generation : Z) (stream_message_id : StreamMessageId) (reservation : Z)
    : SM DeliveryToken :=
  _ ← require_open;
  c ← query (child segment_id generation);
  let source := ch_source c in
  let owner := child_owner c in
  _ ← throw_if (negb (bool_decide (smi_source stream_message_id = source)))
        (DeliverySourceMismatch (smi_source stream_message_id) source);
  delivered ← gets sm_delivered_positions;
  let observed_redelivery :=
    match delivered !! source with
    | Some current =>
        bool_decide (key_le (ordinary_message_id stream_message_id) (ordinary_message_id current))
    | None => false
    end in
  acknowledgement_generation ←
    lift (if observed_redelivery
          then ok_or (checked_add u64_max (ch_acknowledgement_generation c) 1) GenerationExhausted
          else Ok (ch_acknowledgement_generation c));
  delivery_count ← lift (exhausted segment_id "delivery"
                           (checked_add usize_max (cb_deliveries (ch_completion c)) 1));
  pre_terminal_reservations ←
    lift (unbalanced segment_id pre_terminal_kind
            (checked_sub (cb_pre_terminal_reservations (ch_completion c)) 1));
  budget ← gets sm_budget;
  reservation_state ← lift (map_err MeBudget (owned reservation owner RetainedMessage budget));
  let '(position_vector_heap, delivered_positions_heap) :=
    prospective_position_heap_bytes delivered source stream_message_id true in
  let overflow {A} (o : option A) := lift (ok_or o (MePosition LengthOverflow)) in
  stream_message_id_bytes ← lift (map_err MePosition (smi_encoded_len stream_message_id));
  stream_message_id_heap ← overflow (checked_add usize_max (blen (src_topic source))
                                       (blen (ordinary_message_id_bytes stream_message_id)));
  provisional_authority ← overflow (authority_charge stream_message_id_bytes stream_message_id_heap
                                      MAX_STREAM_POSITION_SIZE position_vector_heap);
  provisional_lease ← overflow (checked_add usize_max (dr_bytes reservation_state) provisional_authority);
  provisional_metadata ← overflow (metadata_charge MAX_STREAM_POSITION_SIZE position_vector_heap
                                     delivered_positions_heap);
  dequeue_sequence ← gets sm_next_dequeue_sequence;
  next_dequeue_sequence ← lift (ok_or (checked_add u64_max dequeue_sequence 1) DequeueSequenceExhausted);
  held ← gets sm_delivered_positions_reservation;
  '(metadata, budget) ←
    lift (map_err MeBudget (
      budget ← transfer_owned_with_authority reservation owner RetainedMessage DeliveryLease
                 provisional_lease provisional_authority budget;
      match held with
      | Some metadata =>
          budget ← transfer metadata DeliveredPositionMetadata DeliveredPositionMetadata
                     provisional_metadata budget;
          Ok (metadata, budget)
      | None => reserve DeliveredPositionMetadata provisional_metadata budget
      end));
  let delivered_positions := <[source := stream_message_id]> delivered in
  epoch ← gets (fun s => snap_epoch (sm_dag s));
  position_vector ← lift (map_err MePosition (from_canonical epoch delivered_positions));
  position_vector_bytes ← lift (map_err MePosition (pv_encoded_len position_vector));
  authority_bytes ← overflow (authority_charge stream_message_id_bytes stream_message_id_heap
                                position_vector_bytes position_vector_heap);
  lease_bytes ← overflow (checked_add usize_max (dr_bytes reservation_state) authority_bytes);
  delivered_positions_bytes ← overflow (metadata_charge position_vector_bytes position_vector_heap
                                          delivered_positions_heap);
  budget ←
    lift (map_err MeBudget (
      budget ← transfer_owned_with_authority reservation owner DeliveryLease DeliveryLease
                 lease_bytes authority_bytes budget;
      transfer metadata DeliveredPositionMetadata DeliveredPositionMetadata delivered_positions_bytes budget));
  _ ← child_mut segment_id generation (fun c =>
        let c := set_pre_terminal pre_terminal_reservations (set_deliveries delivery_count c) in
        let c := c <| ch_acknowledgement_generation := acknowledgement_generation |> in
        if observed_redelivery then c <| ch_confirmed_cumulative := None |> else c);
  _ ← modify (fun s =>
        s <| sm_budget := budget |>
          <| sm_delivered_positions := delivered_positions |>
          <| sm_delivered_position := position_vector |>
          <| sm_delivered_positions_reservation := Some metadata |>
          <| sm_next_dequeue_sequence := next_dequeue_sequence |>
          <| sm_live_deliveries :=
               <[dequeue_sequence := mkLive owner reservation stream_message_id]> (sm_live_deliveries s) |>);
  gets (fun s => mkToken (sm_consumer_instance s) (ch_controller_incarnation c) generation
                   acknowledgement_generation stream_message_id position_vector
                   (sm_delivery_epoch s) dequeue_sequence reservation).
