(* ===== verification/StreamAcks.v ===== *)
(** * The aggregate model of a stream consumer: tokens and acknowledgements

    [stream_consumer.rs]: the validation of a delivery token, the resolution of a
    delivery, and the acknowledgement operations, which are admitted for a set of
    deliveries, run by the engine, and settled, cancelled or decided by a
    transaction. *)

From S2P Require Import Prelude Ids Frame SegmentTopic Assignment DagWatch OrdinaryId StreamPosition ReceiverBudget StreamModel StreamOps StreamReceive.

(** * Tokens *)

Definition validate_delivery_token (token : DeliveryToken) (s : StreamConsumerModel)
    : result StreamConsumerModelError ValidatedDelivery :=
  let source := smi_source (tk_stream_message_id token) in
  let segment_id := src_segment_id source in
  let owner := mkOwner segment_id (tk_child_generation token) in
  match sm_children s !! segment_id with
  | None => Err StaleDeliveryToken
  | Some c =>
      if negb ((ch_generation c =? tk_child_generation token)
               && (ch_controller_incarnation c =? tk_controller_incarnation token)
               && bool_decide (ch_source c = source)
               && negb (closing_or_failed (ch_phase c)))
      then Err StaleDeliveryToken
      else
        let valid :=
          (tk_consumer_instance token =? sm_consumer_instance s)
          && (tk_controller_incarnation token =? sm_controller_incarnation s)
          && (tk_delivery_epoch token =? sm_delivery_epoch s)
          && match sm_live_deliveries s !! tk_dequeue_sequence token with
             | Some d => bool_decide (ld_owner d = owner) && (ld_reservation d =? tk_reservation token)
                         && bool_decide (ld_stream_message_id d = tk_stream_message_id token)
             | None => false
             end in
        if negb valid then Err StaleDeliveryToken
        else if negb (bool_decide (sm_phase s = AgOpen)) then Err (InvalidAggregatePhase (sm_phase s))
        else
          _ ← map_err MeBudget (owned (tk_reservation token) owner DeliveryLease (sm_budget s));
          Ok (mkValidated source (tk_child_generation token) (ch_acknowledgement_generation c)
                (ordinary_message_id (tk_stream_message_id token))
                (ordinary_message_id_bytes (tk_stream_message_id token)))
  end.

Definition delivery_operation_pending (sequence : Z) (s : StreamConsumerModel) : bool :=
  existsb (fun p => existsb (fun d => d.1 =? sequence) (pa_deliveries p))
    ((btree_items (sm_pending_acknowledgements s)).*2
     ++ (btree_items (sm_pending_transaction_acknowledgements s)).*2).

Definition resolve_delivery_sequence (sequence : Z) : SM (list StreamConsumerAction) :=
  _ ← require_open;
  delivery ← query (fun s => ok_or (sm_live_deliveries s !! sequence) StaleDeliveryToken);
  let segment_id := ow_segment_id (ld_owner delivery) in
  let generation := ow_child_generation (ld_owner delivery) in
  c ← query (child segment_id generation);
  _ ← throw_if (closing_or_failed (ch_phase c)) StaleDeliveryToken;
  delivery_count ← lift (unbalanced segment_id "delivery" (checked_sub (cb_deliveries (ch_completion c)) 1));
  _ ← query (fun s => map_err MeBudget (owned (ld_reservation delivery) (ld_owner delivery) DeliveryLease
                                          (sm_budget s)));
  _ ← on_budget_ (release (ld_reservation delivery));
  _ ← modify (fun s => s <| sm_live_deliveries := delete sequence (sm_live_deliveries s) |>);
  _ ← child_mut segment_id generation (set_deliveries delivery_count);
  close_then_arbitrate segment_id generation.

Definition resolve_delivery (token : DeliveryToken) : SM (list StreamConsumerAction) :=
  _ ← query (validate_delivery_token token);
  pending ← gets (delivery_operation_pending (tk_dequeue_sequence token));
  _ ← throw_if pending DeliveryOperationPending;
  resolve_delivery_sequence (tk_dequeue_sequence token).

Definition validate_delivery_restoration (token : DeliveryToken) : SM Z :=
  validated ← query (validate_delivery_token token);
  pending ← gets (delivery_operation_pending (tk_dequeue_sequence token));
  _ ← throw_if pending DeliveryOperationPending;
  mret (vd_child_generation validated).

(** * Completion counters of a child *)

Definition ack_kind : string := "acknowledgement".
Definition transactional_kind : string := "transactional acknowledgement".

Definition begin_ack (segment_id generation : Z) : SM unit :=
  _ ← require_open;
  c ← query (child segment_id generation);
  n ← lift (exhausted segment_id ack_kind (checked_add usize_max (cb_acknowledgements (ch_completion c)) 1));
  modify (set_child segment_id (set_acknowledgements n c)).

Definition settle_ack (segment_id generation : Z) : SM (list StreamConsumerAction) :=
  _ ← require_open;
  c ← query (child segment_id generation);
  n ← lift (unbalanced segment_id ack_kind (checked_sub (cb_acknowledgements (ch_completion c)) 1));
  _ ← modify (set_child segment_id (set_acknowledgements n c));
  close_if_drained segment_id generation.

Definition begin_transactional_ack (segment_id generation : Z) : SM unit :=
  _ ← require_open;
  c ← query (child segment_id generation);
  n ← lift (exhausted segment_id transactional_kind
              (checked_add usize_max (cb_transactional_acknowledgements (ch_completion c)) 1));
  modify (set_child segment_id (set_transactional n c)).

Definition settle_transactional_ack (segment_id generation : Z) : SM (list StreamConsumerAction) :=
  _ ← require_open;
  c ← query (child segment_id generation);
  n ← lift (unbalanced segment_id transactional_kind
              (checked_sub (cb_transactional_acknowledgements (ch_completion c)) 1));
  _ ← modify (set_child segment_id (set_transactional n c));
  close_if_drained segment_id generation.

Definition begin_pre_terminal_reservation (segment_id generation : Z) : SM unit :=
  _ ← require_open;
  c ← query (child segment_id generation);
  n ← lift (exhausted segment_id pre_terminal_kind
              (checked_add usize_max (cb_pre_terminal_reservations (ch_completion c)) 1));
  modify (set_child segment_id (set_pre_terminal n c)).

Definition settle_pre_terminal_reservation (segment_id generation : Z) : SM (list StreamConsumerAction) :=
  _ ← require_open;
  c ← query (child segment_id generation);
  n ← lift (unbalanced segment_id pre_terminal_kind
              (checked_sub (cb_pre_terminal_reservations (ch_completion c)) 1));
  _ ← modify (set_child segment_id (set_pre_terminal n c));
  close_if_drained segment_id generation.

(** * Admission *)

(** The components of one batch of tokens are grouped by source and generation. *)
#[global] Instance source_generation_inj :
  Inj (=) (=) (fun p : SegmentSource * Z => ord_key p.1 ++ [p.2]).
Proof.
  intros [a x] [b y] H. cbn [fst snd] in H. apply app_inj_tail in H as [H ->].
  by apply (inj source_key) in H as ->.
Qed.

#[global] Instance source_generation_ord : OrdKey (SegmentSource * Z) :=
  {| ord_key p := ord_key p.1 ++ [p.2] |}.

Definition component_covers (c : ChildState) (d : LiveDelivery) (component : AcknowledgementComponent) : bool :=
  match ac_cumulative_position component with
  | Some target =>
      bool_decide (ac_source component = ch_source c)
      && (ac_child_generation component =? ch_generation c)
      && bool_decide (key_le (ordinary_message_id (ld_stream_message_id d)) target)
  | None => false
  end.

Definition deliveries_covered_by (components : list AcknowledgementComponent) (s : StreamConsumerModel)
    : list (Z * SegmentSource) :=
  omap (fun '(sequence, d) =>
      match sm_children s !! ow_segment_id (ld_owner d) with
      | Some c =>
          if (ch_generation c =? ow_child_generation (ld_owner d))
             && existsb (component_covers c d) components
          then Some (sequence, ch_source c) else None
      | None => None
      end)
    (btree_items (sm_live_deliveries s)).

(** The live deliveries of [c] up to [target], by message id. *)
Definition tracked_below (c : ChildState) (source : SegmentSource) (target : MessageId)
    (s : StreamConsumerModel) : gmap MessageId bytes :=
  btree_collect
    ((fun d => (ordinary_message_id (ld_stream_message_id d),
                ordinary_message_id_bytes (ld_stream_message_id d)))
       <$> filter (fun d => ow_segment_id (ld_owner d) = src_segment_id source
                            /\ ow_child_generation (ld_owner d) = ch_generation c
                            /\ key_le (ordinary_message_id (ld_stream_message_id d)) target)
             (btree_items (sm_live_deliveries s)).*2).

Definition addressable (p : SegmentPhase) : bool :=
  match p with PhOpening | PhClosing | Seeking | PhFailed => false | _ => true end.

(** The closure that [position_components] maps over the vector. *)
Definition position_component (require_assignment : bool) (assigned : gset SegmentSource)
    (s : StreamConsumerModel) (i : StreamMessageId)
    : result StreamConsumerModelError (option AcknowledgementComponent) :=
  let source := smi_source i in
  let unavailable := PositionSourceUnavailable source in
  match sm_children s !! src_segment_id source with
  | None => Err unavailable
  | Some c =>
      if negb (bool_decide (ch_source c = source) && addressable (ch_phase c)) then Err unavailable
      else if require_assignment && negb (bool_decide (source ∈ assigned)) then Err unavailable
      else
        let target := ordinary_message_id i in
        let component ids id_bytes cumulative :=
          Ok (Some (mkComponent source (ch_generation c) ids id_bytes cumulative (Some target)
                      (ch_acknowledgement_generation c))) in
        if match ch_confirmed_cumulative c with
           | Some confirmed => bool_decide (key_le target confirmed)
           | None => false
           end
        then Ok None
        else if ch_bucket_shared c then
          let tracked := btree_items (tracked_below c source target s) in
          if bool_decide (tracked = []) then Ok None else component tracked.*1 tracked.*2 false
        else component [target] [ordinary_message_id_bytes i] true
  end.

(** [map(f).collect::<Result<Vec<_>, _>>()] followed by [flatten] *)
Fixpoint collect_some {A B} (f : A -> result StreamConsumerModelError (option B)) (l : list A)
    : result StreamConsumerModelError (list B) :=
  match l with
  | [] => Ok []
  | x :: l' => b ← f x; bs ← collect_some f l'; Ok (option_list b ++ bs)
  end.

Definition position_components (positions : PositionVector) (require_assignment : bool)
    : SM (list AcknowledgementComponent) :=
  _ ← require_open;
  epoch ← gets (fun s => snap_epoch (sm_dag s));
  _ ← throw_if (require_assignment && negb (pv_layout_epoch positions =? epoch))
        (PositionLayoutMismatch (pv_layout_epoch positions) epoch);
  query (fun s =>
    let assigned : gset SegmentSource :=
      from_option (fun a => list_to_set (assigned_source <$> ca_segments a)) ∅ (sm_assignment s) in
    collect_some (position_component require_assignment assigned s) (stream_message_ids positions)).

Definition begin_component (transactional : bool) (component : AcknowledgementComponent) : SM unit :=
  let segment_id := src_segment_id (ac_source component) in
  if transactional then begin_transactional_ack segment_id (ac_child_generation component)
  else begin_ack segment_id (ac_child_generation component).

Definition insert_pending (transactional : bool) (id : Z) (p : PendingAcknowledgement)
    (s : StreamConsumerModel) : StreamConsumerModel :=
  if transactional
  then s <| sm_pending_transaction_acknowledgements := <[id := p]> (sm_pending_transaction_acknowledgements s) |>
  else s <| sm_pending_acknowledgements := <[id := p]> (sm_pending_acknowledgements s) |>.

Definition admit_acknowledgement (components : list AcknowledgementComponent)
    (deliveries : list (Z * SegmentSource)) (transactional : bool)
    : SM (AcknowledgementAuthority * list AcknowledgementComponent) :=
  _ ← require_open;
  pending ← gets (fun s => existsb (fun d => delivery_operation_pending d.1 s) deliveries);
  _ ← throw_if pending DeliveryOperationPending;
  operation_id ← gets sm_next_acknowledgement_operation;
  next ← lift (ok_or (checked_add u64_max operation_id 1) AcknowledgementOperationExhausted);
  atomically (
    _ ← for_each (begin_component transactional) components;
    _ ← modify (fun s => (insert_pending transactional operation_id (mkPendingAck components deliveries) s)
                           <| sm_next_acknowledgement_operation := next |>);
    gets (fun s => (mkAuthority (sm_consumer_instance s) (sm_delivery_epoch s) operation_id, components))).

(** The one component of an individual acknowledgement. *)
Definition individual_component (v : ValidatedDelivery) : AcknowledgementComponent :=
  mkComponent (vd_source v) (vd_child_generation v) [vd_message_id v] [vd_message_id_bytes v] false None
    (vd_acknowledgement_generation v).

Definition admit_individual (token : DeliveryToken) (transactional : bool)
    : SM (AcknowledgementAuthority * list AcknowledgementComponent) :=
  validated ← query (validate_delivery_token token);
  admit_acknowledgement [individual_component validated]
    [(tk_dequeue_sequence token, vd_source validated)] transactional.

Definition admit_individual_acknowledgement (token : DeliveryToken) := admit_individual token false.
Definition admit_individual_transactional_acknowledgement (token : DeliveryToken) := admit_individual token true.

(** Admission of the components of a vector, with the deliveries they cover. *)
Definition admit_components (positions : PositionVector) (require_assignment transactional : bool)
    : SM (AcknowledgementAuthority * list AcknowledgementComponent) :=
  components ← position_components positions require_assignment;
  deliveries ← gets (deliveries_covered_by components);
  admit_acknowledgement components deliveries transactional.

Definition confirmed_repeat (token : DeliveryToken) (s : StreamConsumerModel) : bool :=
  let source := smi_source (tk_stream_message_id token) in
  (tk_consumer_instance token =? sm_consumer_instance s)
  && (tk_controller_incarnation token =? sm_controller_incarnation s)
  && (tk_delivery_epoch token =? sm_delivery_epoch s)
  && (tk_dequeue_sequence token <? sm_next_dequeue_sequence s)
  && match sm_children s !! src_segment_id source with
     | Some c =>
         (ch_generation c =? tk_child_generation token)
         && (ch_controller_incarnation c =? tk_controller_incarnation token)
         && bool_decide (ch_source c = source)
         && (ch_acknowledgement_generation c =? tk_acknowledgement_generation token)
         && match ch_confirmed_cumulative c with
            | Some confirmed => bool_decide (key_le (ordinary_message_id (tk_stream_message_id token)) confirmed)
            | None => false
            end
     | None => false
     end.

Definition admit_cumulative_acknowledgement (token : DeliveryToken)
    : SM (AcknowledgementAuthority * list AcknowledgementComponent) :=
  stale ← gets (fun s => negb (is_ok (validate_delivery_token token s)) && negb (confirmed_repeat token s));
  _ ← throw_if stale StaleDeliveryToken;
  admit_components (tk_position_vector token) false false.

Definition admit_cumulative_transactional_acknowledgement (token : DeliveryToken)
    : SM (AcknowledgementAuthority * list AcknowledgementComponent) :=
  _ ← query (validate_delivery_token token);
  admit_components (tk_position_vector token) false true.

Definition admit_position_acknowledgement (positions : PositionVector) := admit_components positions true false.
Definition admit_position_transactional_acknowledgement (positions : PositionVector) :=
  admit_components positions true true.

(** [for token in tokens]: validate, group, and refuse a repetition *)
Fixpoint group_tokens (tokens : list DeliveryToken) (sequences : gset Z)
    (grouped : gmap (SegmentSource * Z) (list (MessageId * bytes))) (deliveries : list (Z * SegmentSource))
    (s : StreamConsumerModel)
    : result StreamConsumerModelError
        (gmap (SegmentSource * Z) (list (MessageId * bytes)) * list (Z * SegmentSource)) :=
  match tokens with
  | [] => Ok (grouped, deliveries)
  | token :: rest =>
      v ← validate_delivery_token token s;
      let sequence := tk_dequeue_sequence token in
      if bool_decide (sequence ∈ sequences) then Err DeliveryOperationPending
      else
        let key := (vd_source v, vd_child_generation v) in
        group_tokens rest ({[sequence]} ∪ sequences)
          (<[key := default [] (grouped !! key) ++ [(vd_message_id v, vd_message_id_bytes v)]]> grouped)
          (deliveries ++ [(sequence, vd_source v)]) s
  end.

Definition batch_component (s : StreamConsumerModel) (p : SegmentSource * Z * list (MessageId * bytes))
    : result StreamConsumerModelError (option AcknowledgementComponent) :=
  let '(source, generation, ids) := p in
  c ← child (src_segment_id source) generation s;
  Ok (Some (mkComponent source generation ids.*1 ids.*2 false None (ch_acknowledgement_generation c))).

Definition admit_batch_acknowledgement (tokens : list DeliveryToken)
    : SM (AcknowledgementAuthority * list AcknowledgementComponent) :=
  '(grouped, deliveries) ← query (group_tokens tokens ∅ ∅ []);
  components ← query (fun s => collect_some (batch_component s) (btree_items grouped));
  admit_acknowledgement components deliveries false.

(** * Settlement *)

Definition validate_acknowledgement_authority (authority : AcknowledgementAuthority) (transactional : bool)
    (s : StreamConsumerModel) : result StreamConsumerModelError PendingAcknowledgement :=
  if negb (bool_decide (sm_phase s = AgOpen)) then Err (InvalidAggregatePhase (sm_phase s))
  else if negb (aa_consumer_instance authority =? sm_consumer_instance s)
          || negb (aa_delivery_epoch authority =? sm_delivery_epoch s)
  then Err StaleAcknowledgementAuthority
  else ok_or ((if transactional then sm_pending_transaction_acknowledgements s
               else sm_pending_acknowledgements s) !! aa_operation_id authority)
             StaleAcknowledgementAuthority.

Definition settle_component (transactional : bool) (component : AcknowledgementComponent)
    : SM (list StreamConsumerAction) :=
  let segment_id := src_segment_id (ac_source component) in
  if transactional then settle_transactional_ack segment_id (ac_child_generation component)
  else settle_ack segment_id (ac_child_generation component).

Definition settle_acknowledgement_counters (components : list AcknowledgementComponent) (transactional : bool)
    : SM (list StreamConsumerAction) :=
  collect_actions (settle_component transactional) components.

Definition remove_pending (transactional : bool) (id : Z) (s : StreamConsumerModel) : StreamConsumerModel :=
  if transactional
  then s <| sm_pending_transaction_acknowledgements := delete id (sm_pending_transaction_acknowledgements s) |>
  else s <| sm_pending_acknowledgements := delete id (sm_pending_acknowledgements s) |>.

(** The body of [for component in &pending.components]. *)
Definition confirm_component (confirmed_sources : gset SegmentSource) (s : StreamConsumerModel)
    (component : AcknowledgementComponent) : StreamConsumerModel :=
  let segment_id := src_segment_id (ac_source component) in
  if bool_decide (ac_source component ∈ confirmed_sources) then
    match ac_cumulative_position component, sm_children s !! segment_id with
    | Some position, Some c =>
        if (ch_generation c =? ac_child_generation component)
           && (ch_acknowledgement_generation c =? ac_acknowledgement_generation component)
        then
          let highest := match ch_confirmed_cumulative c with
                         | Some confirmed => if bool_decide (key_le confirmed position) then position else confirmed
                         | None => position
                         end in
          set_child segment_id (c <| ch_confirmed_cumulative := Some highest |>) s
        else s
    | _, _ => s
    end
  else s.

Definition settle_acknowledgement (authority : AcknowledgementAuthority) (confirmed_sources : gset SegmentSource)
    : SM (list StreamConsumerAction) :=
  pending ← query (validate_acknowledgement_authority authority false);
  atomically (
    _ ← modify (remove_pending false (aa_operation_id authority));
    settled ← settle_acknowledgement_counters (pa_components pending) false;
    _ ← modify (fun s => foldl (confirm_component confirmed_sources) s (pa_components pending));
    resolved ← collect_actions (fun d => if bool_decide (d.2 ∈ confirmed_sources)
                                         then resolve_delivery_sequence d.1 else mret [])
                 (pa_deliveries pending);
    mret (settled ++ resolved)).

Definition cancel_acknowledgement (authority : AcknowledgementAuthority) : SM (list StreamConsumerAction) :=
  settle_acknowledgement authority ∅.

Definition cancel_transactional_acknowledgement (authority : AcknowledgementAuthority)
    : SM (list StreamConsumerAction) :=
  pending ← query (validate_acknowledgement_authority authority true);
  atomically (
    _ ← modify (remove_pending true (aa_operation_id authority));
    settle_acknowledgement_counters (pa_components pending) true).

Definition settle_transactional_acknowledgement (authority : AcknowledgementAuthority)
    (outcome : TransactionAcknowledgementOutcome) : SM (list StreamConsumerAction) :=
  pending ← query (validate_acknowledgement_authority authority true);
  atomically (
    _ ← modify (remove_pending true (aa_operation_id authority));
    settled ← settle_acknowledgement_counters (pa_components pending) true;
    rest ← match outcome with
           | TaCommitted => collect_actions (fun d => resolve_delivery_sequence d.1) (pa_deliveries pending)
           | TaUnknown => require_resync
           | TaAborted => mret []
           end;
    mret (settled ++ rest)).
