(* ===== verification/StreamEntries.v ===== *)
(** * Raw entries of a stream consumer

    [stream_consumer.rs]: [StreamReceiveState] keeps the chunk chain of each
    child, hands complete entries to the engine for decryption and
    decompression, expands batches and charges what is queued to the receive
    budget.  Each method works on the chains and on [StreamConsumerModel]; on an
    error the chains are unchanged.

    Sizes of structs and the capacity a [Vec] was allocated with are not
    determined by the source: they are parameters ([Allocation]). *)

From S2P Require Import Prelude Ids Frame Compress BatchAck Producer BatchBody Consumer SegmentTopic Assignment DagWatch OrdinaryId StreamPosition ReceiverBudget StreamModel StreamOps StreamReceive.

#[global] Instance BudgetReservationOwner_countable : Countable BudgetReservationOwner.
Proof.
  apply (inj_countable' (fun o => (ow_segment_id o, ow_child_generation o)) (fun p => mkOwner p.1 p.2)).
  by intros [].
Defined.

(** [size_of::<T>()] and [Vec::capacity], in bytes and elements *)
Class Allocation := {
  size_of_incoming : Z;
  size_of_single : Z;
  size_of_message_id_data : Z;
  capacity : list Z -> Z;
}.

(** A capacity holds the elements; a size is not negative. *)
Class AllocationLaws `{!Allocation} := {
  size_of_incoming_nonneg : 0 <= size_of_incoming;
  size_of_single_nonneg : 0 <= size_of_single;
  size_of_message_id_data_nonneg : 0 <= size_of_message_id_data;
  capacity_len l : blen l <= capacity l;
}.

Definition STREAM_QUEUE_NODE_OVERHEAD : Z := 1024.
Definition ZLIB_DECOMPRESSION_WORKSPACE : Z := 96 * 1024.
Definition ZSTD_DECOMPRESSION_CONTEXT_WORKSPACE : Z := 256 * 1024.

Definition checked_mul (m a b : Z) : option Z := if a * b <=? m then Some (a * b) else None.

Definition checked_next_power_of_two (n : Z) : option Z :=
  let p := 2 ^ Z.log2_up n in if p <=? usize_max then Some p else None.

Inductive StreamEntryCompletion :=
| EcMessage (flow : Z)
| EcChunk (flow assembly : Z).

Record StreamCompleteEntry := mkComplete {
  se_message : IncomingMessage;
  se_message_id_data : MessageIdData;
  se_ack_set : list Z;
  se_dispatch_permits : Z;
  se_completion : StreamEntryCompletion;
}.

Inductive StreamEntryAcceptance :=
| Buffered (actions : list StreamConsumerAction)
| CompleteEntry (entry : StreamCompleteEntry).

Record StreamQueuedMessage := mkQueued {
  qm_message : IncomingMessage;
  qm_message_id_data : MessageIdData;
  qm_reservation : Z;
}.

Record StreamEntryTransition := mkEntryTransition {
  et_messages : list StreamQueuedMessage;
  et_actions : list StreamConsumerAction;
  et_permit_debt : Z;
}.

Record PendingStreamChunk := mkPendingChunk {
  pc_uuid : string;
  pc_expected_chunks : Z;
  pc_total_size : Z;
  pc_payloads : gmap Z bytes;
  pc_first_metadata : MessageMetadata;
  pc_first_message_id : MessageIdData;
  pc_broker_entry_metadata : option BrokerEntryMetadata;
  pc_redelivery_count : Z;
  pc_arrived_at : Z;
  pc_assembly : Z;
}.

#[global] Instance PendingStreamChunk_eta : Eta PendingStreamChunk := fun c =>
  mkPendingChunk (pc_uuid c) (pc_expected_chunks c) (pc_total_size c) (pc_payloads c)
    (pc_first_metadata c) (pc_first_message_id c) (pc_broker_entry_metadata c)
    (pc_redelivery_count c) (pc_arrived_at c) (pc_assembly c).

Definition buffered_bytes (c : PendingStreamChunk) : Z :=
  foldl (fun total payload => saturating_add usize_max total (blen payload)) 0 (btree_items (pc_payloads c)).*2.

(** [chunks] *)
Definition StreamReceiveState : Type := gmap BudgetReservationOwner PendingStreamChunk.

Definition remove_child (segment_id generation : Z) (chunks : StreamReceiveState) : StreamReceiveState :=
  delete (mkOwner segment_id generation) chunks.

#[global] Instance MessageIdData_eta : Eta MessageIdData := fun m =>
  mkMessageIdData (pb_ledger_id m) (pb_entry_id m) (pb_partition m) (pb_batch_index m) (pb_ack_set m)
    (pb_batch_size m) (pb_first_chunk m).

Section Entries.
Context `{!Allocation, !ProtoMessage MessageMetadata, !ProtoMessage SingleMessageMetadata,
          !ProtoMessage BrokerEntryMetadata}.

Definition overflow {A} (o : option A) : result StreamConsumerModelError A := ok_or o ReceiveSizeOverflow.

Fixpoint message_id_data_heap_bytes (m : MessageIdData) : Z :=
  match m with
  | mkMessageIdData _ _ _ _ ack_set _ first_chunk =>
      saturating_add usize_max (saturating_mul usize_max (capacity ack_set) 8)
        (match first_chunk with
         | None => 0
         | Some first => saturating_add usize_max size_of_message_id_data (message_id_data_heap_bytes first)
         end)
  end.

(** [IncomingMessage::retained_bytes] *)
Definition retained_bytes (m : IncomingMessage) : Z :=
  let add := saturating_add usize_max in
  add (add (add (add size_of_incoming (blen (im_payload m))) (encoded_len (im_metadata m)))
         (from_option encoded_len 0 (im_single_metadata m)))
      (from_option encoded_len 0 (im_broker_entry_metadata m)).

Definition queued_message_retained_bytes (m : IncomingMessage) (message_id : MessageIdData)
    (source : SegmentSource) : result StreamConsumerModelError Z :=
  overflow (checked_sum (retained_bytes m)
              [STREAM_QUEUE_NODE_OVERHEAD; blen (src_topic source); message_id_data_heap_bytes message_id]).

Definition decompression_workspace (kind : CompressionKind) (output : Z) : result StreamConsumerModelError Z :=
  match kind with
  | CZlib => Ok ZLIB_DECOMPRESSION_WORKSPACE
  | CZstd =>
      let advertised := saturating_sub output DECOMPRESSION_VALIDATION_SLACK in
      window ← overflow (checked_next_power_of_two (Z.max advertised ZSTD_MIN_WINDOW_SIZE));
      overflow (checked_add usize_max ZSTD_DECOMPRESSION_CONTEXT_WORKSPACE window)
  | CNone | CLz4 | CSnappy => Ok 0
  end.

Definition transform_reservation_bytes (e : StreamCompleteEntry) : result StreamConsumerModelError Z :=
  let metadata := im_metadata (se_message e) in
  let payload_len := blen (im_payload (se_message e)) in
  let encrypted := if bool_decide (md_encryption_keys metadata = []) then 0 else payload_len in
  compressed ←
    match md_compression metadata ≫= compression_try_from with
    | None | Some CNone => Ok 0
    | Some kind =>
        output ← overflow (checked_add usize_max (default payload_len (md_uncompressed_size metadata))
                             DECOMPRESSION_VALIDATION_SLACK);
        workspace ← decompression_workspace kind output;
        overflow (checked_add usize_max output workspace)
    end;
  overflow (checked_add usize_max encrypted compressed).

(** ** Acceptance *)

Definition chunk_error (bad : bool) (what : string) : SM unit := throw_if bad (InvalidChunkFrame what).

(** The guards of a continuation against the chain it continues. *)
Definition check_continuation (uuid : string) (total_chunks total_size chunk_id : Z)
    (existing : option PendingStreamChunk) : SM unit :=
  match existing with
  | None => mret tt
  | Some c =>
      _ ← chunk_error (negb (bool_decide (pc_uuid c = uuid)) || negb (pc_expected_chunks c =? total_chunks)
                       || negb (pc_total_size c =? total_size))
            "chunk continuation does not match its reserved chain";
      chunk_error (bool_decide (is_Some (pc_payloads c !! chunk_id))) "duplicate chunk id"
  end.

(** The branch of a chunk that does not complete its message. *)
Definition buffer_chunk (segment_id generation flow : Z) (uuid : string)
    (total_chunks total_size chunk_id : Z) (entry : DeferredIncomingMessage)
    (existing : option PendingStreamChunk) (chunks : StreamReceiveState)
    : SM (StreamEntryAcceptance * StreamReceiveState) :=
  let message := df_message entry in
  let payload := im_payload message in
  let owner := mkOwner segment_id generation in
  buffered_after ← lift (overflow (checked_add usize_max (from_option buffered_bytes 0 existing) (blen payload)));
  _ ← chunk_error (buffered_after >? total_size) "buffered chunks exceed the announced message size";
  allocation_bytes ← lift (overflow (checked_add usize_max buffered_after total_size));
  '(assembly, actions) ← chunk_frame_buffered segment_id generation flow (pc_assembly <$> existing) allocation_bytes;
  let chunk :=
    match existing with
    | Some c => c <| pc_payloads := <[chunk_id := payload]> (pc_payloads c) |> <| pc_assembly := assembly |>
    | None => mkPendingChunk uuid total_chunks total_size {[chunk_id := payload]} (im_metadata message)
                (df_message_id_data entry) (im_broker_entry_metadata message)
                (im_redelivery_count message) (im_arrived_at message) assembly
    end in
  mret (Buffered actions, <[owner := chunk]> chunks).

(** The branch of the chunk that completes its message. *)
Definition finish_chunk (segment_id generation flow total_size chunk_id : Z) (entry : DeferredIncomingMessage)
    (existing : option PendingStreamChunk) (chunks : StreamReceiveState)
    : SM (StreamEntryAcceptance * StreamReceiveState) :=
  let payload := im_payload (df_message entry) in
  c ← lift (ok_or existing (InvalidChunkFrame "final chunk has no reserved assembly"));
  assembled_size ← lift (overflow (checked_add usize_max (buffered_bytes c) (blen payload)));
  _ ← chunk_error (negb (assembled_size =? total_size)) "completed chunks do not match the announced message size";
  let payloads := <[chunk_id := payload]> (pc_payloads c) in
  let metadata := (pc_first_metadata c) <| md_num_chunks_from_msg := None |> <| md_chunk_id := None |>
                    <| md_total_chunk_msg_size := None |> in
  let message_id_data := (df_message_id_data entry) <| pb_first_chunk := Some (pc_first_message_id c) |> in
  let message := mkIncoming (mid_from_pb message_id_data) metadata None (mjoin (btree_items payloads).*2)
                   (pc_redelivery_count c) (pc_broker_entry_metadata c) (pc_arrived_at c) in
  mret (CompleteEntry (mkComplete message message_id_data [] (df_dispatch_permits entry)
                         (EcChunk flow (pc_assembly c))),
        delete (mkOwner segment_id generation) chunks).

(** A chunk of [total_chunks]. *)
Definition accept_chunk (segment_id generation flow total_chunks : Z) (entry : DeferredIncomingMessage)
    (chunks : StreamReceiveState) : SM (StreamEntryAcceptance * StreamReceiveState) :=
  let metadata := im_metadata (df_message entry) in
  _ ← chunk_error (total_chunks >? MAX_CHUNK_TOTAL) "chunk count exceeds the fixed bound";
  _ ← chunk_error (default 1 (md_num_messages_in_batch metadata) >? 1) "chunked entries cannot also be batched";
  chunk_id ← lift (ok_or (md_chunk_id metadata) (InvalidChunkFrame "chunk id is absent"));
  _ ← chunk_error ((chunk_id <? 0) || (chunk_id >=? total_chunks)) "chunk id is outside the announced range";
  total_size ← lift (ok_or (size ← md_total_chunk_msg_size metadata; if size >? 0 then Some size else None)
                       (InvalidChunkFrame "total chunk message size is absent or invalid"));
  uuid ← lift (ok_or (md_uuid metadata) (InvalidChunkFrame "chunk uuid is absent"));
  let existing := chunks !! mkOwner segment_id generation in
  _ ← chunk_error (negb (bool_decide (is_Some existing)) && negb (chunk_id =? 0))
        "a chunk chain must begin with chunk zero";
  _ ← check_continuation uuid total_chunks total_size chunk_id existing;
  let received := from_option (fun c => Z.of_nat (size (pc_payloads c))) 0 existing in
  if saturating_add usize_max received 1 =? total_chunks
  then finish_chunk segment_id generation flow total_size chunk_id entry existing chunks
  else buffer_chunk segment_id generation flow uuid total_chunks total_size chunk_id entry existing chunks.

Definition accept_entry (segment_id generation flow : Z) (entry : DeferredIncomingMessage)
    (chunks : StreamReceiveState) : SM (StreamEntryAcceptance * StreamReceiveState) :=
  let whole :=
    mret (CompleteEntry (mkComplete (df_message entry) (df_message_id_data entry) (df_ack_set entry)
                           (df_dispatch_permits entry) (EcMessage flow)), chunks) in
  match md_num_chunks_from_msg (im_metadata (df_message entry)) with
  | None => whole
  | Some total_chunks =>
      if total_chunks <=? 1 then whole else accept_chunk segment_id generation flow total_chunks entry chunks
  end.

(** ** Expansion of a batch *)

Definition batch_error {A} (what : string) : result StreamConsumerModelError A := Err (InvalidBatchFrame what).

(** The metadata and payload of the next member, and what is left. *)
Definition expand_member (cursor : bytes)
    : result StreamConsumerModelError (SingleMessageMetadata * bytes * bytes) :=
  if blen cursor <? 4 then batch_error "single-message metadata length is truncated"
  else
    let single_size := be_val (btake 4 cursor) in
    let cursor := bdrop 4 cursor in
    if blen cursor <? single_size then batch_error "single-message metadata is truncated"
    else
      single ← ok_or (pb_decode (btake single_size cursor))
                 (InvalidBatchFrame "single-message metadata is not valid protobuf");
      let cursor := bdrop single_size cursor in
      if sm_payload_size single <? 0 then batch_error "single-message payload size is negative"
      else if blen cursor <? sm_payload_size single then batch_error "single-message payload is truncated"
      else Ok (single, btake (sm_payload_size single) cursor, bdrop (sm_payload_size single) cursor).

(** [for index in 0..count], [remaining] members to go *)
Fixpoint expand_loop (message : IncomingMessage) (message_id_data : MessageIdData) (ack_state : BatchAckEntry)
    (batch_size index : Z) (remaining : nat) (cursor : bytes)
    : result StreamConsumerModelError (list (IncomingMessage * MessageIdData)) :=
  match remaining with
  | O => if blen cursor >? 0 then batch_error "batch payload has trailing bytes" else Ok []
  | S remaining =>
      '(single, payload, cursor) ← expand_member cursor;
      rest ← expand_loop message message_id_data ack_state batch_size (index + 1) remaining cursor;
      if is_unacked index ack_state then
        let ordinary := message_id_data <| pb_batch_index := Some index |> <| pb_batch_size := Some batch_size |>
                          <| pb_ack_set := ack_set_i64 ack_state |> in
        let incoming := mkIncoming (mid_from_pb ordinary) (im_metadata message) (Some single) payload
                          (im_redelivery_count message) (im_broker_entry_metadata message)
                          (im_arrived_at message) in
        Ok ((incoming, ordinary) :: rest)
      else Ok rest
  end.

Definition expand_batch (message : IncomingMessage) (message_id_data : MessageIdData) (ack_set : list Z) (count : Z)
    : result StreamConsumerModelError (list (IncomingMessage * MessageIdData)) :=
  if count >? i32_max then Err ReceiveSizeOverflow
  else expand_loop message message_id_data (from_ack_set count ack_set) count 0 (Z.to_nat count) (im_payload message).

(** ** Completion *)

(** The bytes reserved to expand a batch of [count] members. *)
Definition batch_structural_bytes (entry : StreamCompleteEntry) (source : SegmentSource) (count : Z)
    : result StreamConsumerModelError Z :=
  let own := pb_ack_set (se_message_id_data entry) in
  ack_bytes ← overflow (checked_mul usize_max (Z.max (capacity own) (blen (se_ack_set entry))) 8);
  repeated_id_heap ←
    overflow (checked_add usize_max
      (saturating_sub (message_id_data_heap_bytes (se_message_id_data entry))
         (saturating_mul usize_max (capacity own) 8)) ack_bytes);
  per_member ←
    overflow (checked_sum size_of_incoming
      [size_of_single; STREAM_QUEUE_NODE_OVERHEAD; blen (src_topic source); repeated_id_heap]);
  members ← overflow (checked_mul usize_max count per_member);
  overflow (checked_add usize_max (blen (im_payload (se_message entry))) members).

Fixpoint retained_sizes (source : SegmentSource) (messages : list (IncomingMessage * MessageIdData))
    : result StreamConsumerModelError (list Z) :=
  match messages with
  | [] => Ok []
  | (m, i) :: rest =>
      n ← queued_message_retained_bytes m i source;
      ns ← retained_sizes source rest;
      Ok (n :: ns)
  end.

Definition queue_all (messages : list (IncomingMessage * MessageIdData)) (reservations : list Z)
    : list StreamQueuedMessage :=
  zip_with (fun '(m, i) r => mkQueued m i r) messages reservations.

Definition finalize_entry (segment_id generation : Z) (entry : StreamCompleteEntry) (transform_work : list Z)
    : SM StreamEntryTransition :=
  c ← query (child segment_id generation);
  let source := ch_source c in
  let message := se_message entry in
  let message_id_data := se_message_id_data entry in
  let count := default 1 (md_num_messages_in_batch (im_metadata message)) in
  let permit_debt := saturating_sub (se_dispatch_permits entry) 1 in
  if count >? 1 then
    match se_completion entry with
    | EcChunk _ _ => throw (InvalidBatchFrame "chunked entries cannot also be batched")
    | EcMessage flow =>
        structural ← lift (batch_structural_bytes entry source count);
        atomically (
          batch_work ← reserve_batch_assembly segment_id generation structural;
          messages ← lift (expand_batch message message_id_data (se_ack_set entry) count);
          sizes ← lift (retained_sizes source messages);
          let work := transform_work ++ [batch_work] in
          match messages with
          | [] =>
              actions ← discard_preallocated_arrival segment_id generation flow FpMessage work;
              mret (mkEntryTransition [] actions permit_debt)
          | _ =>
              '(retained, actions) ← batch_arrived_preallocated segment_id generation flow work sizes;
              mret (mkEntryTransition (queue_all messages retained) actions permit_debt)
          end)
    end
  else
    n ← lift (queued_message_retained_bytes message message_id_data source);
    atomically (
      '(retained, actions) ←
        match se_completion entry with
        | EcMessage flow => message_arrived_preallocated segment_id generation flow transform_work n
        | EcChunk flow assembly => chunk_message_arrived segment_id generation flow assembly transform_work n
        end;
      mret (mkEntryTransition [mkQueued message message_id_data retained] actions permit_debt)).

Definition discard_entry (segment_id generation : Z) (entry : StreamCompleteEntry) (transform_work : list Z)
    : SM (list StreamConsumerAction) :=
  match se_completion entry with
  | EcMessage flow => discard_preallocated_arrival segment_id generation flow FpMessage transform_work
  | EcChunk flow assembly =>
      discard_preallocated_arrival segment_id generation flow (ChunkContinuation assembly)
        (assembly :: transform_work)
  end.

End Entries.
