(* ===== verification/StreamLedger.v ===== *)
(** * The ledger of a stream consumer

    What the children, the live deliveries and the delivered positions of
    [StreamConsumerModel] hold against the reservations of its budget.  The
    predicate [Ledger] ties them together; each lemma below is the effect of one
    elementary step (a reservation, a release, a delivery, a counter).  The
    weakest preconditions of the monad lead the methods to these steps. *)

From S2P Require Import Prelude Ids Frame SegmentTopic Assignment DagWatch OrdinaryId StreamPosition ReceiverBudget StreamModel.

(** * Weakest preconditions *)

Definition wp {A} (m : SM A) (Q : result StreamConsumerModelError A -> StreamConsumerModel -> Prop)
    (s : StreamConsumerModel) : Prop := Q (m s).1 (m s).2.

Section Wp.
Context {A B : Type}.
Implicit Types (s : StreamConsumerModel).

Lemma wp_mono (m : SM A) (Q R : _ -> _ -> Prop) s : wp m Q s -> (forall r s', Q r s' -> R r s') -> wp m R s.
Proof. unfold wp. auto. Qed.

Lemma wp_bind (m : SM A) (f : A -> SM B) Q s :
  wp m (fun r s' => match r with Ok a => wp (f a) Q s' | Err e => Q (Err e) s' end) s -> wp (m ≫= f) Q s.
Proof. unfold wp, mbind, SM_bind. destruct (m s) as [[a|e] s']; simpl; done. Qed.

Lemma wp_ret (a : A) (Q : _ -> _ -> Prop) s : Q (Ok a) s -> wp (mret a) Q s.
Proof. done. Qed.

Lemma wp_throw e (Q : _ -> _ -> Prop) s : Q (Err e) s -> wp (throw (A := A) e) Q s.
Proof. done. Qed.

Lemma wp_gets (f : _ -> A) (Q : _ -> _ -> Prop) s : Q (Ok (f s)) s -> wp (gets f) Q s.
Proof. done. Qed.

Lemma wp_query (f : _ -> result _ A) (Q : _ -> _ -> Prop) s :
  (forall a, f s = Ok a -> Q (Ok a) s) -> (forall e, Q (Err e) s) -> wp (query f) Q s.
Proof. unfold wp, query. simpl. intros H1 H2. destruct (f s); auto. Qed.

Lemma wp_lift (r : result _ A) (Q : _ -> _ -> Prop) s :
  (forall a, r = Ok a -> Q (Ok a) s) -> (forall e, Q (Err e) s) -> wp (lift r) Q s.
Proof. unfold wp, lift. simpl. intros H1 H2. destruct r; auto. Qed.

Lemma wp_on_budget (f : _ -> result BudgetError (A * _)) (Q : _ -> _ -> Prop) s :
  (forall a b, f (sm_budget s) = Ok (a, b) -> Q (Ok a) (s <| sm_budget := b |>)) ->
  (forall e, f (sm_budget s) = Err e -> Q (Err (MeBudget e)) s) -> wp (on_budget f) Q s.
Proof. unfold wp, on_budget. intros H1 H2. destruct (f (sm_budget s)) as [[a b]|e]; simpl; auto. Qed.

Lemma wp_atomically (m : SM A) (Q : _ -> _ -> Prop) s :
  wp m (fun r s' => match r with Ok a => Q (Ok a) s' | Err e => Q (Err e) s end) s -> wp (atomically m) Q s.
Proof. unfold wp, atomically. destruct (m s) as [[a|e] s']; simpl; done. Qed.
End Wp.

Lemma wp_modify f (Q : _ -> _ -> Prop) s : Q (Ok tt) (f s) -> wp (modify f) Q s.
Proof. done. Qed.

Lemma wp_throw_if b e (Q : _ -> _ -> Prop) s :
  (b = false -> Q (Ok tt) s) -> (b = true -> Q (Err e) s) -> wp (throw_if b e) Q s.
Proof. unfold wp, throw_if, lift. simpl. destruct b; simpl; auto. Qed.

Lemma wp_on_budget_ f (Q : _ -> _ -> Prop) s :
  (forall b, f (sm_budget s) = Ok b -> Q (Ok tt) (s <| sm_budget := b |>)) ->
  (forall e, f (sm_budget s) = Err e -> Q (Err (MeBudget e)) s) -> wp (on_budget_ f) Q s.
Proof.
  intros H1 H2. apply wp_on_budget.
  - intros [] b. destruct (f (sm_budget s)) eqn:E; [|done]. intros [= <-]. auto.
  - intros e. destruct (f (sm_budget s)) eqn:E; [done|]. intros [= <-]. auto.
Qed.

Lemma wp_require_open (Q : _ -> _ -> Prop) s :
  (sm_phase s = AgOpen -> Q (Ok tt) s) -> (forall e, Q (Err e) s) -> wp require_open Q s.
Proof.
  intros H1 H2. unfold require_open. apply wp_bind, wp_gets, wp_throw_if; [|done].
  rewrite negb_false_iff, bool_decide_eq_true. done.
Qed.

(** [child] finds the child of that generation. *)
Lemma child_inv segment_id generation s c :
  child segment_id generation s = Ok c <-> sm_children s !! segment_id = Some c /\ ch_generation c = generation.
Proof.
  unfold child. destruct (sm_children s !! segment_id) as [c'|]; [|naive_solver].
  destruct (Z.eqb_spec (ch_generation c') generation); simpl; naive_solver.
Qed.

Lemma wp_child segment_id generation (Q : _ -> _ -> Prop) s :
  (forall c, sm_children s !! segment_id = Some c -> ch_generation c = generation -> Q (Ok c) s) ->
  (forall e, Q (Err e) s) -> wp (query (child segment_id generation)) Q s.
Proof. intros H1 H2. apply wp_query; [|done]. intros c [Hc Hg]%child_inv. auto. Qed.

(** A child known to be there. *)
Lemma wp_known_child segment_id generation c (Q : _ -> _ -> Prop) s :
  sm_children s !! segment_id = Some c -> ch_generation c = generation ->
  Q (Ok c) s -> wp (query (child segment_id generation)) Q s.
Proof.
  intros Hc Hg HQ. unfold wp, query. simpl. by rewrite (proj2 (child_inv _ _ _ _) (conj Hc Hg)).
Qed.

Lemma wp_child_mut segment_id generation f c (Q : _ -> _ -> Prop) s :
  sm_children s !! segment_id = Some c -> ch_generation c = generation ->
  Q (Ok tt) (set_child segment_id (f c) s) -> wp (child_mut segment_id generation f) Q s.
Proof. intros Hc Hg HQ. by eapply wp_bind, wp_known_child. Qed.

Lemma wp_collect {A} (f : A -> SM (list StreamConsumerAction)) (I : StreamConsumerModel -> Prop) l s :
  (forall x s, x ∈ l -> I s -> wp (f x) (fun _ => I) s) -> I s -> wp (collect_actions f l) (fun _ => I) s.
Proof.
  revert s. induction l as [|x l IH]; intros s Hf Hs; [done|]. apply wp_bind.
  eapply wp_mono; [by apply Hf; [left|]|]. intros [a|e] s' Hs'; [|done]. apply wp_bind.
  eapply wp_mono; [apply IH; [|done]; intros; apply Hf; [by right|done]|]. by intros [b|e] s'' Hs''.
Qed.

Lemma wp_for_each {A} (f : A -> SM unit) (I : StreamConsumerModel -> Prop) l s :
  (forall x s, x ∈ l -> I s -> wp (f x) (fun _ => I) s) -> I s -> wp (for_each f l) (fun _ => I) s.
Proof.
  revert s. induction l as [|x l IH]; intros s Hf Hs; [done|]. apply wp_bind.
  eapply wp_mono; [by apply Hf; [left|]|]. intros [a|e] s' Hs'; [|done].
  apply IH; [|done]. intros. apply Hf; [by right|done].
Qed.

(** One step of a method: the rule for its first call. *)
Ltac wp_step :=
  lazymatch goal with
  | |- wp (_ ≫= _) _ _ => apply wp_bind
  | |- wp (mret _) _ _ => apply wp_ret
  | |- wp (throw _) _ _ => apply wp_throw
  | |- wp (gets _) _ _ => apply wp_gets
  | |- wp (modify _) _ _ => apply wp_modify
  | |- wp (throw_if _ _) _ _ => apply wp_throw_if; [intros ?Hguard|intros _]
  | |- wp require_open _ _ => apply wp_require_open; [intros ?Hopen|intros ?]
  | |- wp (query (child _ _)) _ _ => apply wp_child; [intros ?c ?Hc ?Hgen|intros ?]
  | |- wp (query _) _ _ => apply wp_query; [intros ?r ?Hr|intros ?]
  | |- wp (lift _) _ _ => apply wp_lift; [intros ?r ?Hr|intros ?]
  | |- wp (on_budget_ _) _ _ => apply wp_on_budget_; [intros ?b ?Hb|intros ?e ?He]
  | |- wp (on_budget _) _ _ => apply wp_on_budget; [intros ?a ?b ?Hb|intros ?e ?He]
  | |- wp (atomically _) _ _ => apply wp_atomically
  | |- wp ((fun _ => _) : SM _) _ _ => red; simpl
  end.

(** * The ledger *)

Definition pre_weight (o : BudgetReservationOwner) (r : DataReservation) : Z :=
  if decide (dr_owner r = Some o /\ dr_use r <> DeliveryLease) then 1 else 0.

(** Reservations of [o] that are not delivery leases. *)
Definition pre_count (o : BudgetReservationOwner) (res : gmap Z DataReservation) : Z :=
  map_sum (pre_weight o) res.

Definition live_weight (o : BudgetReservationOwner) (d : LiveDelivery) : Z :=
  if decide (ld_owner d = o) then 1 else 0.

(** Live deliveries of [o]. *)
Definition live_count (o : BudgetReservationOwner) (live : gmap Z LiveDelivery) : Z :=
  map_sum (live_weight o) live.

(** A permit is outstanding only for a child that flows, or did when it was
    fenced; a child that flows has one. *)
Definition flow_ok (c : ChildState) : Prop :=
  match ch_phase c with
  | Flowing => is_Some (ch_flow_reservation c)
  | Draining | PhClosing => True
  | _ => ch_flow_reservation c = None
  end.

(** The uses a child's work and messages go through. *)
Definition work_use (u : BudgetUse) : Prop :=
  u = RetainedMessage \/ u = ChunkAssembly \/ u = Decompression \/ u = BatchAssembly.

(** The holder of a reservation. *)
Definition held_by (ch : gmap Z ChildState) (meta : option Z) (rid : Z) (r : DataReservation) : Prop :=
  match dr_owner r with
  | None => meta = Some rid /\ dr_use r = DeliveredPositionMetadata
  | Some o => exists c, ch !! ow_segment_id o = Some c /\ child_owner c = o
                /\ (work_use (dr_use r) \/ dr_use r = DeliveryLease
                    \/ dr_use r = FlowPermit /\ ch_flow_reservation c = Some rid)
  end.

(** [excess o] is what the counter of pre-terminal reservations shows beyond the
    reservations [o] holds. *)
Record Ledger (excess : BudgetReservationOwner -> Z) (res : gmap Z DataReservation)
    (ch : gmap Z ChildState) (live : gmap Z LiveDelivery) (meta : option Z) : Prop := {
  lg_child : forall id c, ch !! id = Some c -> src_segment_id (ch_source c) = id /\ flow_ok c;
  lg_held : forall rid r, res !! rid = Some r -> held_by ch meta rid r;
  lg_meta : forall rid, meta = Some rid -> exists r, res !! rid = Some r /\ dr_owner r = None;
  lg_flow : forall id c rid, ch !! id = Some c -> ch_flow_reservation c = Some rid ->
    exists r, res !! rid = Some r /\ dr_owner r = Some (child_owner c) /\ dr_use r = FlowPermit;
  lg_live : forall q d, live !! q = Some d ->
    exists r, res !! ld_reservation d = Some r /\ dr_owner r = Some (ld_owner d) /\ dr_use r = DeliveryLease;
  lg_lease : forall rid r, res !! rid = Some r -> dr_use r = DeliveryLease ->
    exists q d, live !! q = Some d /\ ld_reservation d = rid;
  lg_once : forall q d q' d', live !! q = Some d -> live !! q' = Some d' ->
    ld_reservation d = ld_reservation d' -> q = q';
  lg_deliveries : forall id c, ch !! id = Some c ->
    cb_deliveries (ch_completion c) = live_count (child_owner c) live;
  lg_pre : forall id c, ch !! id = Some c ->
    cb_pre_terminal_reservations (ch_completion c) = pre_count (child_owner c) res + excess (child_owner c);
}.

Definition bump (excess : BudgetReservationOwner -> Z) (o : BudgetReservationOwner) (n : Z)
    : BudgetReservationOwner -> Z := fun o' => excess o' + (if decide (o' = o) then n else 0).

(** Changes of the excess of one owner that add up to the same. *)
Ltac bump_solve := intros ?; unfold bump; simpl; repeat case_decide; try lia; congruence.

Lemma ledger_ext excess excess' res ch live meta :
  Ledger excess res ch live meta -> (forall o, excess' o = excess o) -> Ledger excess' res ch live meta.
Proof. intros H He. split; try apply H. intros id c Hc. rewrite He. by apply (lg_pre _ _ _ _ _ H id). Qed.

Lemma pre_weight_owned r o o' : dr_owner r = Some o -> dr_use r <> DeliveryLease ->
  pre_weight o' r = if decide (o' = o) then 1 else 0.
Proof. intros Ho Hu. unfold pre_weight. rewrite Ho. repeat case_decide; naive_solver. Qed.

Lemma pre_weight_lease r o : dr_use r = DeliveryLease -> pre_weight o r = 0.
Proof. intros Hu. unfold pre_weight. case_decide; naive_solver. Qed.

Lemma pre_weight_unowned r o : dr_owner r = None -> pre_weight o r = 0.
Proof. intros Hu. unfold pre_weight. case_decide; naive_solver. Qed.

Lemma work_use_not_lease u : work_use u -> u <> DeliveryLease /\ u <> FlowPermit.
Proof. unfold work_use. naive_solver. Qed.

Lemma child_owner_id c id : src_segment_id (ch_source c) = id -> ow_segment_id (child_owner c) = id.
Proof. done. Qed.

(** Two children of the map with the same owner are the same. *)
Lemma owner_inj ex res ch live meta id c id' c' :
  Ledger ex res ch live meta -> ch !! id = Some c -> ch !! id' = Some c' ->
  child_owner c = child_owner c' -> id = id'.
Proof.
  intros H Hc Hc' Ho. apply (f_equal ow_segment_id) in Ho. simpl in Ho.
  rewrite (proj1 (lg_child _ _ _ _ _ H _ _ Hc)), (proj1 (lg_child _ _ _ _ _ H _ _ Hc')) in Ho. done.
Qed.

Section Steps.
Context (ex : BudgetReservationOwner -> Z) (res : gmap Z DataReservation) (ch : gmap Z ChildState)
  (live : gmap Z LiveDelivery) (meta : option Z).
Hypothesis (L : Ledger ex res ch live meta).

Lemma held_by_child id c c' rid r :
  ch !! id = Some c -> child_owner c' = child_owner c ->
  (ch_flow_reservation c = Some rid -> ch_flow_reservation c' = Some rid) ->
  held_by ch meta rid r -> held_by (<[id := c']> ch) meta rid r.
Proof.
  intros Hc Ho Hf. unfold held_by. destruct (dr_owner r) as [o|]; [|done].
  intros (x & Hx & Hxo & Hu). destruct (decide (ow_segment_id o = id)) as [<-|Hne].
  - rewrite Hx in Hc. injection Hc as ->. exists c'. rewrite lookup_insert_eq, Ho.
    split_and!; [done|done|]. naive_solver.
  - exists x. by rewrite lookup_insert_ne.
Qed.

(** ** Counters and phases *)

Lemma ledger_child id c c' :
  ch !! id = Some c -> child_owner c' = child_owner c -> ch_source c' = ch_source c ->
  ch_flow_reservation c' = ch_flow_reservation c -> flow_ok c' ->
  cb_deliveries (ch_completion c') = cb_deliveries (ch_completion c) ->
  Ledger (bump ex (child_owner c)
            (cb_pre_terminal_reservations (ch_completion c') - cb_pre_terminal_reservations (ch_completion c)))
    res (<[id := c']> ch) live meta.
Proof.
  intros Hc Ho Hs Hf Hok Hd. split; try apply L.
  - intros i x [[<- <-]|[_ Hx]]%lookup_insert_Some; [|by apply (lg_child _ _ _ _ _ L)].
    split; [|done]. rewrite Hs. by apply (lg_child _ _ _ _ _ L).
  - intros rid r Hr. apply (held_by_child id c); [done..|by rewrite Hf|by apply (lg_held _ _ _ _ _ L)].
  - intros i x rid [[<- <-]|[_ Hx]]%lookup_insert_Some; [|by apply (lg_flow _ _ _ _ _ L i)].
    rewrite Hf, Ho. by apply (lg_flow _ _ _ _ _ L id).
  - intros i x [[<- <-]|[_ Hx]]%lookup_insert_Some; [|by apply (lg_deliveries _ _ _ _ _ L i)].
    rewrite Hd, Ho. by apply (lg_deliveries _ _ _ _ _ L id).
  - intros i x [[<- <-]|[Hne Hx]]%lookup_insert_Some; unfold bump.
    + rewrite Ho, decide_True by done. pose proof (lg_pre _ _ _ _ _ L id c Hc). lia.
    + rewrite decide_False; [pose proof (lg_pre _ _ _ _ _ L i x Hx); lia|].
      intros E. destruct Hne. by eapply owner_inj.
Qed.

(** ** Reservations *)

Lemma lease_differs rid r : res !! rid = Some r -> dr_use r <> DeliveryLease ->
  forall q d, live !! q = Some d -> ld_reservation d <> rid.
Proof. intros Hr Hu q d Hd <-. apply (lg_live _ _ _ _ _ L) in Hd as (? & ? & ? & ?). naive_solver. Qed.

Lemma ledger_add rid r id c :
  res !! rid = None -> ch !! id = Some c -> dr_owner r = Some (child_owner c) -> work_use (dr_use r) ->
  Ledger (bump ex (child_owner c) (-1)) (<[rid := r]> res) ch live meta.
Proof.
  intros Hn Hc Ho Hu. pose proof (work_use_not_lease _ Hu) as [Hl Hf]. split; try apply L.
  - intros i x [[<- <-]|[_ Hx]]%lookup_insert_Some; [|by apply (lg_held _ _ _ _ _ L)].
    unfold held_by. rewrite Ho. exists c. simpl. rewrite (proj1 (lg_child _ _ _ _ _ L _ _ Hc)). auto.
  - intros i Hi. destruct (lg_meta _ _ _ _ _ L i Hi) as (x & Hx & ?). exists x.
    rewrite lookup_insert_ne by congruence. done.
  - intros i x y Hx Hy. destruct (lg_flow _ _ _ _ _ L i x y Hx Hy) as (z & Hz & ?). exists z.
    rewrite lookup_insert_ne by congruence. done.
  - intros q d Hd. destruct (lg_live _ _ _ _ _ L q d Hd) as (z & Hz & ?). exists z.
    rewrite lookup_insert_ne by congruence. done.
  - intros i x [[<- <-]|[_ Hx]]%lookup_insert_Some; [done|by apply (lg_lease _ _ _ _ _ L)].
  - intros i x Hx. unfold pre_count, bump. rewrite map_sum_insert by done.
    pose proof (lg_pre _ _ _ _ _ L i x Hx) as Hp. unfold pre_count in Hp.
    rewrite (pre_weight_owned _ _ _ Ho Hl). case_decide; lia.
Qed.

Lemma ledger_remove rid r id c :
  res !! rid = Some r -> ch !! id = Some c -> dr_owner r = Some (child_owner c) -> work_use (dr_use r) ->
  Ledger (bump ex (child_owner c) 1) (delete rid res) ch live meta.
Proof.
  intros Hr Hc Ho Hu. pose proof (work_use_not_lease _ Hu) as [Hl Hf]. split; try apply L.
  - intros i x [_ Hx]%lookup_delete_Some. by apply (lg_held _ _ _ _ _ L).
  - intros i Hi. destruct (lg_meta _ _ _ _ _ L i Hi) as (x & Hx & ?). exists x.
    rewrite lookup_delete_ne by congruence. done.
  - intros i x y Hx Hy. destruct (lg_flow _ _ _ _ _ L i x y Hx Hy) as (z & Hz & Hzo & Hzu). exists z.
    rewrite lookup_delete_ne by congruence. done.
  - intros q d Hd. destruct (lg_live _ _ _ _ _ L q d Hd) as (z & Hz & ?). exists z.
    rewrite lookup_delete_ne; [done|]. intros E.
    by destruct (lease_differs rid r Hr Hl q d Hd).
  - intros i x [_ Hx]%lookup_delete_Some. by apply (lg_lease _ _ _ _ _ L).
  - intros i x Hx. unfold pre_count, bump. rewrite (map_sum_delete _ _ _ r) by done.
    pose proof (lg_pre _ _ _ _ _ L i x Hx) as Hp. unfold pre_count in Hp.
    rewrite (pre_weight_owned _ _ _ Ho Hl). case_decide; lia.
Qed.

(** A reservation keeps its owner, and its use or its place among the work. *)
Lemma ledger_resize rid r r' :
  res !! rid = Some r -> dr_owner r' = dr_owner r ->
  dr_use r' = dr_use r \/ work_use (dr_use r) /\ work_use (dr_use r') ->
  Ledger ex (<[rid := r']> res) ch live meta.
Proof.
  intros Hr Ho Hu.
  assert (Hw : forall o, pre_weight o r' = pre_weight o r).
  { intros o. unfold pre_weight. rewrite Ho. destruct Hu as [->|[H1 H2]]; [done|].
    apply work_use_not_lease in H1, H2. repeat case_decide; naive_solver. }
  assert (Hkeep : forall j x, res !! j = Some x -> exists x', <[rid := r']> res !! j = Some x'
            /\ dr_owner x' = dr_owner x /\ (~ work_use (dr_use x) -> dr_use x' = dr_use x)).
  { intros j x Hx. destruct (decide (j = rid)) as [->|].
    - rewrite Hr in Hx. injection Hx as <-. exists r'. rewrite lookup_insert_eq.
      split_and!; [done..|]. destruct Hu as [|[]]; tauto.
    - exists x. by rewrite lookup_insert_ne. }
  split; try apply L.
  - intros i x [[<- <-]|[_ Hx]]%lookup_insert_Some; [|by apply (lg_held _ _ _ _ _ L)].
    pose proof (lg_held _ _ _ _ _ L rid r Hr) as Hh. unfold held_by in *. rewrite Ho.
    destruct (dr_owner r).
    + destruct Hh as (c & ? & ? & Hc). exists c. split_and!; [done..|].
      destruct Hu as [->|[_ Hu]]; auto.
    + destruct Hh as [? Hm]. split; [done|]. destruct Hu as [->|[Hu _]]; [done|].
      rewrite Hm in Hu. unfold work_use in Hu. naive_solver.
  - intros i Hi. destruct (lg_meta _ _ _ _ _ L i Hi) as (x & Hx & Hn).
    destruct (Hkeep i x Hx) as (x' & ? & E & _). exists x'. by rewrite E.
  - intros i x y Hx Hy. destruct (lg_flow _ _ _ _ _ L i x y Hx Hy) as (z & Hz & Hzo & Hzu).
    destruct (Hkeep y z Hz) as (z' & ? & E & Eu). exists z'. rewrite E, Eu; [done|].
    rewrite Hzu. unfold work_use. naive_solver.
  - intros q d Hd. destruct (lg_live _ _ _ _ _ L q d Hd) as (z & Hz & Hzo & Hzu).
    destruct (Hkeep _ z Hz) as (z' & ? & E & Eu). exists z'. rewrite E, Eu; [done|].
    rewrite Hzu. unfold work_use. naive_solver.
  - intros i x [[<- <-]|[_ Hx]]%lookup_insert_Some; [|by apply (lg_lease _ _ _ _ _ L)].
    intros Hl. apply (lg_lease _ _ _ _ _ L rid r Hr). destruct Hu as [<-|[_ Hu]]; [done|].
    apply work_use_not_lease in Hu. naive_solver.
  - intros i x Hx. unfold pre_count. rewrite (map_sum_replace _ _ _ r) by done.
    pose proof (lg_pre _ _ _ _ _ L i x Hx) as Hp. unfold pre_count in Hp. rewrite Hw. lia.
Qed.
End Steps.

Section FlowSteps.
Context (ex : BudgetReservationOwner -> Z) (res : gmap Z DataReservation) (ch : gmap Z ChildState)
  (live : gmap Z LiveDelivery) (meta : option Z).
Hypothesis (L : Ledger ex res ch live meta).

(** The child [c'] is [c] with another permit. *)
Definition same_but_flow (c c' : ChildState) : Prop :=
  ch_source c' = ch_source c /\ ch_generation c' = ch_generation c /\ flow_ok c'
  /\ cb_deliveries (ch_completion c') = cb_deliveries (ch_completion c)
  /\ cb_pre_terminal_reservations (ch_completion c') = cb_pre_terminal_reservations (ch_completion c).

Lemma same_owner c c' : same_but_flow c c' -> child_owner c' = child_owner c.
Proof. intros (H1 & H2 & _). unfold child_owner. by rewrite H1, H2. Qed.

(** Another child's permit is another reservation. *)
Lemma other_flow id c rid : ch !! id = Some c -> ch_flow_reservation c = Some rid ->
  forall id' c', ch !! id' = Some c' -> ch_flow_reservation c' = Some rid -> id' = id.
Proof.
  intros Hc Hf id' c' Hc' Hf'.
  destruct (lg_flow _ _ _ _ _ L id c rid Hc Hf) as (r & Hr & Ho & _).
  destruct (lg_flow _ _ _ _ _ L id' c' rid Hc' Hf') as (r' & Hr' & Ho' & _).
  eapply owner_inj; [done..|]. congruence.
Qed.

Lemma ledger_add_flow rid r id c c' :
  res !! rid = None -> ch !! id = Some c -> dr_owner r = Some (child_owner c) -> dr_use r = FlowPermit ->
  ch_flow_reservation c = None -> ch_flow_reservation c' = Some rid -> same_but_flow c c' ->
  Ledger (bump ex (child_owner c) (-1)) (<[rid := r]> res) (<[id := c']> ch) live meta.
Proof.
  intros Hn Hc Ho Hu Hf Hf' Hs. pose proof (same_owner _ _ Hs) as Hoc.
  destruct Hs as (Hsrc & _ & Hok & Hd & Hp). split; try apply L.
  - intros i x [[<- <-]|[_ Hx]]%lookup_insert_Some; [|by apply (lg_child _ _ _ _ _ L)].
    split; [|done]. rewrite Hsrc. by apply (lg_child _ _ _ _ _ L).
  - intros i x [[<- <-]|[_ Hx]]%lookup_insert_Some.
    + unfold held_by. rewrite Ho. exists c'. simpl.
      rewrite (proj1 (lg_child _ _ _ _ _ L _ _ Hc)), lookup_insert_eq.
      split_and!; [done|done|by auto].
    + apply (held_by_child _ _ id c); [done..|congruence|by apply (lg_held _ _ _ _ _ L)].
  - intros i Hi. destruct (lg_meta _ _ _ _ _ L i Hi) as (x & Hx & ?). exists x.
    rewrite lookup_insert_ne by congruence. done.
  - intros i x y [[<- <-]|[_ Hx]]%lookup_insert_Some Hy.
    + exists r. assert (y = rid) as -> by congruence. rewrite lookup_insert_eq, Hoc. done.
    + destruct (lg_flow _ _ _ _ _ L i x y Hx Hy) as (z & Hz & ?). exists z.
      rewrite lookup_insert_ne by congruence. done.
  - intros q d Hd'. destruct (lg_live _ _ _ _ _ L q d Hd') as (z & Hz & ?). exists z.
    rewrite lookup_insert_ne by congruence. done.
  - intros i x [[<- <-]|[_ Hx]]%lookup_insert_Some; [congruence|by apply (lg_lease _ _ _ _ _ L)].
  - intros i x [[<- <-]|[_ Hx]]%lookup_insert_Some; [|by apply (lg_deliveries _ _ _ _ _ L i)].
    rewrite Hd, Hoc. by apply (lg_deliveries _ _ _ _ _ L id).
  - assert (Hl : dr_use r <> DeliveryLease) by congruence.
    intros i x Hx. unfold pre_count, bump. rewrite map_sum_insert by done.
    rewrite (pre_weight_owned _ _ _ Ho Hl). apply lookup_insert_Some in Hx as [[<- <-]|[Hne Hx]].
    + rewrite Hoc, Hp, !decide_True by done. pose proof (lg_pre _ _ _ _ _ L id c Hc) as E.
      unfold pre_count in E. lia.
    + pose proof (lg_pre _ _ _ _ _ L i x Hx) as E. unfold pre_count in E. case_decide; lia.
Qed.

Lemma ledger_remove_flow rid id c c' :
  ch !! id = Some c -> ch_flow_reservation c = Some rid -> ch_flow_reservation c' = None ->
  same_but_flow c c' ->
  Ledger (bump ex (child_owner c) 1) (delete rid res) (<[id := c']> ch) live meta.
Proof.
  intros Hc Hf Hf' Hs. pose proof (same_owner _ _ Hs) as Hoc.
  destruct (lg_flow _ _ _ _ _ L id c rid Hc Hf) as (r & Hr & Ho & Hu).
  assert (Hl : dr_use r <> DeliveryLease) by congruence.
  destruct Hs as (Hsrc & _ & Hok & Hd & Hp). split; try apply L.
  - intros i x [[<- <-]|[_ Hx]]%lookup_insert_Some; [|by apply (lg_child _ _ _ _ _ L)].
    split; [|done]. rewrite Hsrc. by apply (lg_child _ _ _ _ _ L).
  - intros i x [Hne Hx]%lookup_delete_Some.
    apply (held_by_child _ _ id c); [done..|congruence|by apply (lg_held _ _ _ _ _ L)].
  - intros i Hi. destruct (lg_meta _ _ _ _ _ L i Hi) as (x & Hx & ?). exists x.
    rewrite lookup_delete_ne by congruence. done.
  - intros i x y [[<- <-]|[Hne Hx]]%lookup_insert_Some Hy; [congruence|].
    destruct (lg_flow _ _ _ _ _ L i x y Hx Hy) as (z & Hz & ?). exists z.
    rewrite lookup_delete_ne; [done|]. intros <-. destruct Hne. symmetry. by eapply other_flow.
  - intros q d Hd'. destruct (lg_live _ _ _ _ _ L q d Hd') as (z & Hz & ?). exists z.
    rewrite lookup_delete_ne; [done|]. intros E.
    by destruct (lease_differs _ _ _ _ _ L rid r Hr Hl q d Hd').
  - intros i x [_ Hx]%lookup_delete_Some. by apply (lg_lease _ _ _ _ _ L).
  - intros i x [[<- <-]|[_ Hx]]%lookup_insert_Some; [|by apply (lg_deliveries _ _ _ _ _ L i)].
    rewrite Hd, Hoc. by apply (lg_deliveries _ _ _ _ _ L id).
  - intros i x Hx. unfold pre_count, bump. rewrite (map_sum_delete _ _ _ r) by done.
    rewrite (pre_weight_owned _ _ _ Ho Hl). apply lookup_insert_Some in Hx as [[<- <-]|[Hne Hx]].
    + rewrite Hoc, Hp, !decide_True by done. pose proof (lg_pre _ _ _ _ _ L id c Hc) as E.
      unfold pre_count in E. lia.
    + pose proof (lg_pre _ _ _ _ _ L i x Hx) as E. unfold pre_count in E. case_decide; lia.
Qed.
End FlowSteps.

Section Transfers.
Context (ex : BudgetReservationOwner -> Z) (res : gmap Z DataReservation) (ch : gmap Z ChildState)
  (live : gmap Z LiveDelivery) (meta : option Z).
Hypothesis (L : Ledger ex res ch live meta).

(** A permit becomes work of its child. *)
Lemma ledger_flow_to_work rid r' id c c' :
  ch !! id = Some c -> ch_flow_reservation c = Some rid -> ch_flow_reservation c' = None ->
  same_but_flow c c' -> dr_owner r' = Some (child_owner c) -> work_use (dr_use r') ->
  Ledger ex (<[rid := r']> res) (<[id := c']> ch) live meta.
Proof.
  intros Hc Hf Hf' Hs Ho Hu. pose proof (same_owner _ _ Hs) as Hoc.
  pose proof (ledger_remove_flow _ _ _ _ _ L rid id c c' Hc Hf Hf' Hs) as L1.
  rewrite <- insert_delete_eq.
  assert (L2 := ledger_add _ _ _ _ _ L1 rid r' id c' (lookup_delete_eq _ _) (lookup_insert_eq _ _ _)).
  eapply ledger_ext; [apply L2; by rewrite ?Hoc|]. rewrite Hoc. unfold bump. intros o. case_decide; lia.
Qed.

(** Live deliveries refer to leases, so a lease created or removed with its
    delivery is the only change. *)
Lemma ledger_deliver rid r r' id c c' q d :
  res !! rid = Some r -> ch !! id = Some c -> dr_owner r = Some (child_owner c) -> work_use (dr_use r) ->
  dr_owner r' = Some (child_owner c) -> dr_use r' = DeliveryLease ->
  live !! q = None -> ld_owner d = child_owner c -> ld_reservation d = rid ->
  ch_source c' = ch_source c -> ch_generation c' = ch_generation c -> flow_ok c' ->
  ch_flow_reservation c' = ch_flow_reservation c ->
  cb_deliveries (ch_completion c') = cb_deliveries (ch_completion c) + 1 ->
  cb_pre_terminal_reservations (ch_completion c') = cb_pre_terminal_reservations (ch_completion c) - 1 ->
  Ledger ex (<[rid := r']> res) (<[id := c']> ch) (<[q := d]> live) meta.
Proof.
  intros Hr Hc Ho Hu Ho' Hu' Hq Hdo Hdr Hsrc Hgen Hok Hf Hd Hp.
  assert (Hoc : child_owner c' = child_owner c) by (unfold child_owner; congruence).
  pose proof (work_use_not_lease _ Hu) as [Hl Hnf].
  assert (Hfree : forall q' d', live !! q' = Some d' -> ld_reservation d' <> rid)
    by (by eapply lease_differs).
  split.
  - intros i x [[<- <-]|[_ Hx]]%lookup_insert_Some; [|by apply (lg_child _ _ _ _ _ L)].
    split; [|done]. rewrite Hsrc. by apply (lg_child _ _ _ _ _ L).
  - intros i x [[<- <-]|[_ Hx]]%lookup_insert_Some.
    + unfold held_by. rewrite Ho'. exists c'. simpl.
      rewrite (proj1 (lg_child _ _ _ _ _ L _ _ Hc)), lookup_insert_eq.
      split_and!; [done|done|by auto].
    + apply (held_by_child _ _ id c); [done..|congruence|by apply (lg_held _ _ _ _ _ L)].
  - intros i Hi. destruct (lg_meta _ _ _ _ _ L i Hi) as (x & Hx & ?). exists x.
    rewrite lookup_insert_ne by congruence. done.
  - assert (Hflow : forall i x y, ch !! i = Some x -> ch_flow_reservation x = Some y ->
      exists z, <[rid := r']> res !! y = Some z /\ dr_owner z = Some (child_owner x) /\ dr_use z = FlowPermit).
    { intros i x y Hx Hy. destruct (lg_flow _ _ _ _ _ L i x y Hx Hy) as (z & Hz & ? & ?). exists z.
      rewrite lookup_insert_ne by congruence. done. }
    intros i x y [[<- <-]|[_ Hx]]%lookup_insert_Some; [|by apply (Hflow i)].
    rewrite Hf, Hoc. by apply (Hflow id).
  - intros i x [[<- <-]|[_ Hx]]%lookup_insert_Some.
    + exists r'. rewrite Hdr, lookup_insert_eq, Hdo. done.
    + destruct (lg_live _ _ _ _ _ L i x Hx) as (z & Hz & ?). exists z.
      rewrite lookup_insert_ne; [done|]. intros E. by destruct (Hfree _ _ Hx).
  - intros i x [[<- <-]|[Hne Hx]]%lookup_insert_Some Hl'.
    + exists q, d. by rewrite lookup_insert_eq.
    + destruct (lg_lease _ _ _ _ _ L i x Hx Hl') as (q' & d' & Hd' & ?). exists q', d'.
      rewrite lookup_insert_ne by congruence. done.
  - intros a x b y [[<- <-]|[_ Hx]]%lookup_insert_Some [[<- <-]|[_ Hy]]%lookup_insert_Some E; [done| | |].
    + by destruct (Hfree _ _ Hy); congruence.
    + by destruct (Hfree _ _ Hx); congruence.
    + by eapply (lg_once _ _ _ _ _ L).
  - intros i x Hx. unfold live_count. rewrite map_sum_insert by done. unfold live_weight at 1. rewrite Hdo.
    apply lookup_insert_Some in Hx as [[<- <-]|[Hne Hx]].
    + rewrite Hoc, decide_True by done. pose proof (lg_deliveries _ _ _ _ _ L id c Hc) as E.
      unfold live_count in E. lia.
    + pose proof (lg_deliveries _ _ _ _ _ L i x Hx) as E. unfold live_count in E.
      rewrite decide_False; [lia|]. intros E'. destruct Hne. by eapply owner_inj.
  - intros i x Hx. unfold pre_count. rewrite (map_sum_replace _ _ _ r) by done.
    rewrite (pre_weight_lease r') by done. rewrite (pre_weight_owned _ _ _ Ho Hl).
    apply lookup_insert_Some in Hx as [[<- <-]|[Hne Hx]].
    + rewrite Hoc, Hp, !decide_True by done. pose proof (lg_pre _ _ _ _ _ L id c Hc) as E.
      unfold pre_count in E. lia.
    + pose proof (lg_pre _ _ _ _ _ L i x Hx) as E. unfold pre_count in E.
      rewrite decide_False; [lia|]. intros E'. destruct Hne. symmetry. by eapply owner_inj.
Qed.

Lemma ledger_resolve q d id c c' :
  live !! q = Some d -> ch !! id = Some c -> ld_owner d = child_owner c ->
  ch_source c' = ch_source c -> ch_generation c' = ch_generation c -> flow_ok c' ->
  ch_flow_reservation c' = ch_flow_reservation c ->
  cb_deliveries (ch_completion c') = cb_deliveries (ch_completion c) - 1 ->
  cb_pre_terminal_reservations (ch_completion c') = cb_pre_terminal_reservations (ch_completion c) ->
  Ledger ex (delete (ld_reservation d) res) (<[id := c']> ch) (delete q live) meta.
Proof.
  intros Hq Hc Hdo Hsrc Hgen Hok Hf Hd Hp.
  assert (Hoc : child_owner c' = child_owner c) by (unfold child_owner; congruence).
  destruct (lg_live _ _ _ _ _ L q d Hq) as (r & Hr & Ho & Hu). split.
  - intros i x [[<- <-]|[_ Hx]]%lookup_insert_Some; [|by apply (lg_child _ _ _ _ _ L)].
    split; [|done]. rewrite Hsrc. by apply (lg_child _ _ _ _ _ L).
  - intros i x [_ Hx]%lookup_delete_Some.
    apply (held_by_child _ _ id c); [done..|congruence|by apply (lg_held _ _ _ _ _ L)].
  - intros i Hi. destruct (lg_meta _ _ _ _ _ L i Hi) as (x & Hx & ?). exists x.
    rewrite lookup_delete_ne by congruence. done.
  - assert (Hflow : forall i x y, ch !! i = Some x -> ch_flow_reservation x = Some y ->
      exists z, delete (ld_reservation d) res !! y = Some z /\ dr_owner z = Some (child_owner x)
        /\ dr_use z = FlowPermit).
    { intros i x y Hx Hy. destruct (lg_flow _ _ _ _ _ L i x y Hx Hy) as (z & Hz & ? & ?). exists z.
      rewrite lookup_delete_ne by congruence. done. }
    intros i x y [[<- <-]|[_ Hx]]%lookup_insert_Some; [|by apply (Hflow i)].
    rewrite Hf, Hoc. by apply (Hflow id).
  - intros i x [Hne Hx]%lookup_delete_Some. destruct (lg_live _ _ _ _ _ L i x Hx) as (z & Hz & ?).
    exists z. rewrite lookup_delete_ne; [done|]. intros E. destruct Hne.
    by eapply (lg_once _ _ _ _ _ L).
  - intros i x [Hne Hx]%lookup_delete_Some Hl'.
    destruct (lg_lease _ _ _ _ _ L i x Hx Hl') as (q' & d' & Hd' & <-). exists q', d'.
    rewrite lookup_delete_ne; [done|]. congruence.
  - intros a x b y [_ Hx]%lookup_delete_Some [_ Hy]%lookup_delete_Some E.
    by eapply (lg_once _ _ _ _ _ L).
  - intros i x Hx. unfold live_count. rewrite (map_sum_delete _ _ _ d) by done.
    unfold live_weight at 2. rewrite Hdo. apply lookup_insert_Some in Hx as [[<- <-]|[Hne Hx]].
    + rewrite Hoc, decide_True by done. pose proof (lg_deliveries _ _ _ _ _ L id c Hc) as E.
      unfold live_count in E. lia.
    + pose proof (lg_deliveries _ _ _ _ _ L i x Hx) as E. unfold live_count in E.
      rewrite decide_False; [lia|]. intros E'. destruct Hne. by eapply owner_inj.
  - intros i x Hx. unfold pre_count. rewrite (map_sum_delete _ _ _ r) by done.
    rewrite (pre_weight_lease r) by done.
    apply lookup_insert_Some in Hx as [[<- <-]|[Hne Hx]].
    + rewrite Hoc, Hp. pose proof (lg_pre _ _ _ _ _ L id c Hc) as E. unfold pre_count in E. lia.
    + pose proof (lg_pre _ _ _ _ _ L i x Hx) as E. unfold pre_count in E. lia.
Qed.
End Transfers.

Section ChildSteps.
Context (ex : BudgetReservationOwner -> Z) (res : gmap Z DataReservation) (ch : gmap Z ChildState)
  (live : gmap Z LiveDelivery) (meta : option Z).
Hypothesis (L : Ledger ex res ch live meta).

(** ** The delivered positions *)

Lemma ledger_add_meta rid r :
  meta = None -> res !! rid = None -> dr_owner r = None -> dr_use r = DeliveredPositionMetadata ->
  Ledger ex (<[rid := r]> res) ch live (Some rid).
Proof.
  intros Hm Hn Ho Hu. split; try apply L.
  - intros i x [[<- <-]|[_ Hx]]%lookup_insert_Some; [unfold held_by; by rewrite Ho|].
    pose proof (lg_held _ _ _ _ _ L i x Hx) as Hh. unfold held_by in *. destruct (dr_owner x); [done|].
    destruct Hh. congruence.
  - intros i [= <-]. exists r. by rewrite lookup_insert_eq.
  - intros i x y Hx Hy. destruct (lg_flow _ _ _ _ _ L i x y Hx Hy) as (z & Hz & ?). exists z.
    rewrite lookup_insert_ne by congruence. done.
  - intros q d Hd. destruct (lg_live _ _ _ _ _ L q d Hd) as (z & Hz & ?). exists z.
    rewrite lookup_insert_ne by congruence. done.
  - intros i x [[<- <-]|[_ Hx]]%lookup_insert_Some; [congruence|by apply (lg_lease _ _ _ _ _ L)].
  - intros i x Hx. unfold pre_count. rewrite map_sum_insert, pre_weight_unowned by done.
    pose proof (lg_pre _ _ _ _ _ L i x Hx) as E. unfold pre_count in E. lia.
Qed.

Lemma ledger_remove_meta rid : meta = Some rid -> Ledger ex (delete rid res) ch live None.
Proof.
  intros Hm. destruct (lg_meta _ _ _ _ _ L rid Hm) as (r & Hr & Ho).
  pose proof (lg_held _ _ _ _ _ L rid r Hr) as Hu. unfold held_by in Hu. rewrite Ho in Hu.
  destruct Hu as [_ Hu]. split; try apply L; try done.
  - intros i x [Hne Hx]%lookup_delete_Some. pose proof (lg_held _ _ _ _ _ L i x Hx) as Hh.
    unfold held_by in *. destruct (dr_owner x); [done|]. destruct Hh. congruence.
  - intros i x y Hx Hy. destruct (lg_flow _ _ _ _ _ L i x y Hx Hy) as (z & Hz & ?). exists z.
    rewrite lookup_delete_ne; [done|]. intros ->. naive_solver.
  - intros q d Hd. destruct (lg_live _ _ _ _ _ L q d Hd) as (z & Hz & ?). exists z.
    rewrite lookup_delete_ne; [done|]. intros E. rewrite E in Hr. naive_solver.
  - intros i x [_ Hx]%lookup_delete_Some. by apply (lg_lease _ _ _ _ _ L).
  - intros i x Hx. unfold pre_count. rewrite (map_sum_delete _ _ _ r), pre_weight_unowned by done.
    pose proof (lg_pre _ _ _ _ _ L i x Hx) as E. unfold pre_count in E. lia.
Qed.

(** ** Opening and closing *)

Lemma no_owner o : ch !! ow_segment_id o = None ->
  (forall rid r, res !! rid = Some r -> dr_owner r <> Some o) /\ (forall q d, live !! q = Some d -> ld_owner d <> o).
Proof.
  intros Hn. assert (Hres : forall rid r, res !! rid = Some r -> dr_owner r <> Some o).
  { intros rid r Hr Ho. pose proof (lg_held _ _ _ _ _ L rid r Hr) as Hh. unfold held_by in Hh.
    rewrite Ho in Hh. destruct Hh as (c & Hc & _). congruence. }
  split; [done|]. intros q d Hd E. destruct (lg_live _ _ _ _ _ L q d Hd) as (r & Hr & Ho & _).
  rewrite E in Ho. by destruct (Hres _ _ Hr).
Qed.

Lemma map_sum_none {A} (f : A -> Z) (m : gmap Z A) : (forall i x, m !! i = Some x -> f x = 0) -> map_sum f m = 0.
Proof.
  intros Hf. apply Z.le_antisymm.
  - rewrite <- (map_sum_empty (K := Z) f). transitivity (map_sum (fun _ : A => 0) m).
    + apply map_sum_le. intros i x Hx. by rewrite (Hf i x Hx).
    + clear Hf. induction m as [|i x m Hi IH] using map_ind; [by rewrite !map_sum_empty|].
      rewrite map_sum_insert by done. rewrite map_sum_empty in IH. rewrite map_sum_empty. lia.
  - apply map_sum_nonneg. intros i x Hx. by rewrite (Hf i x Hx).
Qed.

Lemma ledger_open id c :
  ch !! id = None -> src_segment_id (ch_source c) = id -> ch_phase c = PhOpening ->
  ch_flow_reservation c = None -> ch_completion c = barrier_default -> ex (child_owner c) = 0 ->
  Ledger ex res (<[id := c]> ch) live meta.
Proof.
  intros Hn Hs Hph Hf Hb He. destruct (no_owner (child_owner c)) as [Hres Hlive]; [by rewrite <- Hs in Hn|].
  split; try apply L.
  - intros i x [[<- <-]|[_ Hx]]%lookup_insert_Some; [|by apply (lg_child _ _ _ _ _ L)].
    unfold flow_ok. by rewrite Hph.
  - intros i x Hx. pose proof (lg_held _ _ _ _ _ L i x Hx) as Hh. unfold held_by in *.
    destruct (dr_owner x) as [o|]; [|done]. destruct Hh as (y & Hy & ?). exists y.
    rewrite lookup_insert_ne by congruence. done.
  - intros i x y [[<- <-]|[_ Hx]]%lookup_insert_Some Hy; [congruence|by apply (lg_flow _ _ _ _ _ L i)].
  - intros i x [[<- <-]|[_ Hx]]%lookup_insert_Some; [|by apply (lg_deliveries _ _ _ _ _ L i)].
    rewrite Hb. symmetry. apply map_sum_none. intros q d Hd. unfold live_weight.
    apply Hlive in Hd. by case_decide.
  - intros i x [[<- <-]|[_ Hx]]%lookup_insert_Some; [|by apply (lg_pre _ _ _ _ _ L i)].
    rewrite Hb, He. unfold pre_count. rewrite map_sum_none; [done|]. intros q d Hd. unfold pre_weight.
    apply Hres in Hd. case_decide; naive_solver.
Qed.

Lemma map_sum_filter {A} (f : A -> Z) (P : Z * A -> Prop) `{!forall x, Decision (P x)} (m : gmap Z A) :
  (forall i x, m !! i = Some x -> ~ P (i, x) -> f x = 0) -> map_sum f (filter P m) = map_sum f m.
Proof.
  induction m as [|i x m Hi IH] using map_ind; intros Hf; [by rewrite map_filter_empty|].
  assert (IH' : map_sum f (filter P m) = map_sum f m).
  { apply IH. intros j y Hj. apply Hf. rewrite lookup_insert_ne; [done|]. congruence. }
  rewrite map_sum_insert by done. destruct (decide (P (i, x))).
  - rewrite map_filter_insert_True, map_sum_insert by (rewrite ?map_lookup_filter, ?Hi; done). lia.
  - rewrite map_filter_insert_not' by (try done; intros; congruence).
    rewrite (Hf i x (lookup_insert_eq _ _ _)) by done. lia.
Qed.

Lemma ledger_close id c res' :
  ch !! id = Some c ->
  (forall i r, res' !! i = Some r <-> res !! i = Some r /\ dr_owner r <> Some (child_owner c)) ->
  Ledger ex res' (delete id ch) (filter (fun '(_, d) => ld_owner d <> child_owner c) live) meta.
Proof.
  intros Hc Hres.
  assert (Hres' : res' = filter (fun '(_, r) => dr_owner r <> Some (child_owner c)) res).
  { apply map_eq. intros i. apply option_eq. intros r. by rewrite Hres, map_lookup_filter_Some. }
  assert (Hother : forall i x, ch !! i = Some x -> id <> i -> child_owner x <> child_owner c).
  { intros i x Hx Hne E. destruct Hne. by eapply owner_inj. }
  split.
  - intros i x [_ Hx]%lookup_delete_Some. by apply (lg_child _ _ _ _ _ L).
  - intros i x [Hx Hno]%Hres. pose proof (lg_held _ _ _ _ _ L i x Hx) as Hh. unfold held_by in *.
    destruct (dr_owner x) as [o|]; [|done]. destruct Hh as (y & Hy & Hyo & ?). exists y.
    rewrite lookup_delete_ne; [done|]. intros E. rewrite <- E in Hy. congruence.
  - intros i Hi. destruct (lg_meta _ _ _ _ _ L i Hi) as (x & Hx & Hxo). exists x.
    split; [|done]. apply Hres. by rewrite Hxo.
  - intros i x y [Hne Hx]%lookup_delete_Some Hy.
    destruct (lg_flow _ _ _ _ _ L i x y Hx Hy) as (z & Hz & Hzo & ?). exists z. split; [|done].
    apply Hres. split; [done|]. rewrite Hzo. intros E%(inj Some).
    by destruct (Hother i x Hx Hne).
  - intros q d [Hd Hdo]%map_lookup_filter_Some. destruct (lg_live _ _ _ _ _ L q d Hd) as (z & Hz & Hzo & ?).
    exists z. split; [|done]. apply Hres. split; [done|]. congruence.
  - intros i x [Hx Hno]%Hres Hl. destruct (lg_lease _ _ _ _ _ L i x Hx Hl) as (q & d & Hd & Hdr).
    exists q, d. split; [|done]. apply map_lookup_filter_Some. split; [done|].
    destruct (lg_live _ _ _ _ _ L q d Hd) as (z & Hz & Hzo & _). congruence.
  - intros a x b y [Hx _]%map_lookup_filter_Some [Hy _]%map_lookup_filter_Some.
    by apply (lg_once _ _ _ _ _ L).
  - intros i x [Hne Hx]%lookup_delete_Some. rewrite (lg_deliveries _ _ _ _ _ L i x Hx).
    symmetry. apply map_sum_filter. intros q d Hd Hn. unfold live_weight.
    rewrite decide_False; [done|]. intros E. apply Hn. rewrite E. by apply (Hother i).
  - intros i x [Hne Hx]%lookup_delete_Some. rewrite (lg_pre _ _ _ _ _ L i x Hx). f_equal.
    rewrite Hres'. symmetry. apply map_sum_filter. intros q d Hd Hn. unfold pre_weight.
    rewrite decide_False; [done|]. intros [E _]. apply Hn. rewrite E. intros E'%(inj Some).
    by destruct (Hother i x Hx Hne).
Qed.

(** Fencing: every child is closing. *)
Lemma ledger_fence : Ledger ex res ((fun c => c <| ch_phase := PhClosing |>) <$> ch) live meta.
Proof.
  split; try apply L.
  - intros i x. rewrite lookup_fmap_Some. intros (y & <- & Hy). simpl.
    split; [|done]. by apply (lg_child _ _ _ _ _ L).
  - intros i x Hx. pose proof (lg_held _ _ _ _ _ L i x Hx) as Hh. unfold held_by in *.
    destruct (dr_owner x) as [o|]; [|done]. destruct Hh as (y & Hy & Hyo & Hyu).
    exists (y <| ch_phase := PhClosing |>). rewrite lookup_fmap, Hy. done.
  - intros i x y. rewrite lookup_fmap_Some. intros (z & <- & Hz). by apply (lg_flow _ _ _ _ _ L i z).
  - intros i x. rewrite lookup_fmap_Some. intros (z & <- & Hz). by apply (lg_deliveries _ _ _ _ _ L i z).
  - intros i x. rewrite lookup_fmap_Some. intros (z & <- & Hz). by apply (lg_pre _ _ _ _ _ L i z).
Qed.

(** A child that holds nothing but its permit has no excess when its counter
    shows the same. *)
Lemma pre_count_only id c :
  ch !! id = Some c ->
  (forall rid r, res !! rid = Some r -> dr_owner r = Some (child_owner c) -> ch_flow_reservation c = Some rid) ->
  pre_count (child_owner c) res = Z.b2z (has_flow c).
Proof.
  intros Hc Honly. unfold pre_count, has_flow. destruct (ch_flow_reservation c) as [rid|] eqn:E.
  - rewrite bool_decide_eq_true_2 by eauto.
    destruct (lg_flow _ _ _ _ _ L id c rid Hc E) as (r & Hr & Ho & Hu).
    pose proof (map_sum_delete (pre_weight (child_owner c)) res rid r Hr) as Hd.
    rewrite (pre_weight_owned _ _ _ Ho) in Hd by congruence. rewrite decide_True in Hd by done.
    rewrite map_sum_none in Hd; [simpl; lia|].
    intros i x [Hne Hx]%lookup_delete_Some. unfold pre_weight. case_decide as Hw; [|done].
    destruct Hw as [Hxo _]. pose proof (Honly i x Hx Hxo). congruence.
  - rewrite bool_decide_eq_false_2 by (intros []; done).
    apply map_sum_none. intros i x Hx. unfold pre_weight. case_decide as Hw; [|done].
    destruct Hw as [Hxo _]. pose proof (Honly i x Hx Hxo). congruence.
Qed.

Lemma ledger_empty : ch = ∅ -> meta = None -> res = ∅ /\ live = ∅.
Proof.
  intros -> Hm. assert (Hr : res = ∅).
  { apply map_empty. intros i. apply eq_None_not_Some. intros [r Hr].
    pose proof (lg_held _ _ _ _ _ L i r Hr) as Hh. unfold held_by in Hh. destruct (dr_owner r).
    - destruct Hh as (c & Hc & _). done.
    - destruct Hh. congruence. }
  split; [done|]. apply map_empty. intros q. apply eq_None_not_Some. intros [d Hd].
  destruct (lg_live _ _ _ _ _ L q d Hd) as (r & Hr' & _). by rewrite Hr in Hr'.
Qed.
End ChildSteps.

Lemma ledger_new ex : Ledger ex ∅ ∅ ∅ None.
Proof. split; intros; by try done. Qed.
