(* ===== verification/StreamInv.v ===== *)
(** * The invariant of a stream consumer, and arbitration

    [stream_ok] holds of every state of [StreamConsumerModel]: its budget is
    sound, the ledger balances, generations and dequeue sequences are fresh, and
    once fenced every child is closing.  This file defines it and shows what
    [arbitrate_flow] and [close_if_drained], which most methods end with, do to
    the state. *)

From S2P Require Import Prelude Ids Frame SegmentTopic Assignment DagWatch OrdinaryId StreamPosition ReceiverBudget StreamModel StreamLedger.

Definition ledger_of (ex : BudgetReservationOwner -> Z) (s : StreamConsumerModel) : Prop :=
  Ledger ex (bs_reservations (sm_budget s)) (sm_children s) (sm_live_deliveries s)
    (sm_delivered_positions_reservation s).

Record stream_ok (ex : BudgetReservationOwner -> Z) (s : StreamConsumerModel) : Prop := {
  so_budget : budget_ok (sm_budget s);
  so_ledger : ledger_of ex s;
  so_generation : forall id c, sm_children s !! id = Some c -> ch_generation c < sm_next_child_generation s;
  so_fresh : forall o, sm_next_child_generation s <= ow_child_generation o -> ex o = 0;
  so_sequence : forall q d, sm_live_deliveries s !! q = Some d -> q < sm_next_dequeue_sequence s;
  so_pending : forall id source, sm_pending_ownership s !! id = Some source -> src_segment_id source = id;
  so_fenced : sm_phase s <> AgOpen -> sm_delivered_positions_reservation s = None
    /\ forall id c, sm_children s !! id = Some c -> ch_phase c = PhClosing;
  so_closed : sm_phase s = AgClosed -> sm_children s = ∅;
}.

Lemma so_flow ex s id c : stream_ok ex s -> sm_children s !! id = Some c ->
  src_segment_id (ch_source c) = id /\ flow_ok c.
Proof. intros H. apply (lg_child _ _ _ _ _ (so_ledger _ _ H)). Qed.

(** * Elementary steps of the state *)

Definition same_child (c c' : ChildState) : Prop :=
  ch_source c' = ch_source c /\ ch_generation c' = ch_generation c
  /\ ch_flow_reservation c' = ch_flow_reservation c
  /\ cb_deliveries (ch_completion c') = cb_deliveries (ch_completion c).

Lemma child_owner_same c c' : ch_source c' = ch_source c -> ch_generation c' = ch_generation c ->
  child_owner c' = child_owner c.
Proof. unfold child_owner. by intros -> ->. Qed.

(** The excess changes only for a child that is there. *)
Lemma fresh_bump ex s id c n :
  stream_ok ex s -> sm_children s !! id = Some c ->
  forall o, sm_next_child_generation s <= ow_child_generation o -> bump ex (child_owner c) n o = 0.
Proof.
  intros H Hc o Ho. unfold bump. rewrite (so_fresh _ _ H) by done. case_decide as E; [|done].
  subst. pose proof (so_generation _ _ H _ _ Hc). simpl in Ho. lia.
Qed.

Lemma ok_child ex s id c c' :
  stream_ok ex s -> sm_children s !! id = Some c -> same_child c c' -> flow_ok c' ->
  (sm_phase s <> AgOpen -> ch_phase c' = PhClosing) ->
  stream_ok (bump ex (child_owner c) (cb_pre_terminal_reservations (ch_completion c')
                                      - cb_pre_terminal_reservations (ch_completion c)))
    (set_child id c' s).
Proof.
  intros H Hc (Hs & Hg & Hf & Hd) Hok Hph. split; simpl; try apply H.
  - apply ledger_child; try done; [apply H|]. by apply child_owner_same.
  - intros i x [[<- <-]|[_ Hx]]%lookup_insert_Some; [|by apply (so_generation _ _ H i)].
    rewrite Hg. by apply (so_generation _ _ H id).
  - by apply (fresh_bump _ _ id).
  - intros Hn. split; [by apply (so_fenced _ _ H)|].
    intros i x [[<- <-]|[_ Hx]]%lookup_insert_Some; [auto|].
    by apply (proj2 (so_fenced _ _ H Hn) i).
  - intros E. rewrite (so_closed _ _ H E) in Hc. done.
Qed.

Lemma ok_ext ex ex' s : stream_ok ex s -> (forall o, ex' o = ex o) -> stream_ok ex' s.
Proof.
  intros H He. split; try apply H.
  - eapply ledger_ext; [apply H|done].
  - intros o Ho. rewrite He. by apply (so_fresh _ _ H).
Qed.

(** A child whose counters do not move. *)
Lemma ok_child_still ex s id c c' :
  stream_ok ex s -> sm_children s !! id = Some c -> same_child c c' -> flow_ok c' ->
  cb_pre_terminal_reservations (ch_completion c') = cb_pre_terminal_reservations (ch_completion c) ->
  (sm_phase s <> AgOpen -> ch_phase c' = PhClosing) -> stream_ok ex (set_child id c' s).
Proof.
  intros H Hc Hs Hok Hp Hph. eapply ok_ext; [by eapply ok_child|].
  intros o. unfold bump. rewrite Hp. case_decide; lia.
Qed.

(** What the invariant does not read. *)
Definition stream_view (s : StreamConsumerModel) :=
  (sm_budget s, sm_children s, sm_live_deliveries s, sm_delivered_positions_reservation s,
   sm_next_child_generation s, sm_next_dequeue_sequence s, sm_pending_ownership s, sm_phase s).

Lemma ok_view ex s s' : stream_ok ex s -> stream_view s' = stream_view s -> stream_ok ex s'.
Proof.
  unfold stream_view. intros H [= E1 E2 E3 E4 E5 E6 E7 E8].
  split; unfold ledger_of; rewrite ?E1, ?E2, ?E3, ?E4, ?E5, ?E6, ?E7, ?E8; apply H.
Qed.

(** * Arbitration *)

(** The ordering barrier of [id] is open. *)
Definition permitted (s : StreamConsumerModel) (id : Z) : Prop :=
  exists e, ordering_eligibility (sm_dag s) id (sm_ordering_mode s) (sm_ownership_history s) (sm_completed s) = Ok e
            /\ permits_flow e = true.

Definition open_blocked (c : ChildState) : Prop := exists b, ch_phase c = OpenBlocked b.

(** What arbitration may do to a child. *)
Definition regranted (c c' : ChildState) : Prop :=
  c' = c \/ open_blocked c /\ (open_blocked c' \/ ch_phase c' = Flowing)
    /\ exists ph fl pu n, c' = set_pre_terminal n (c <| ch_phase := ph |> <| ch_flow_reservation := fl |>
                                                     <| ch_flow_purpose := pu |>).

Lemma regranted_trans c1 c2 c3 : regranted c1 c2 -> regranted c2 c3 -> regranted c1 c3.
Proof.
  intros [->|(Ho & Hp & ph & fl & pu & n & ->)]; [done|].
  intros [->|(Ho' & Hp' & ph' & fl' & pu' & n' & ->)]; [right; split_and!; eauto 10|].
  right. split_and!; [done|done|]. by exists ph', fl', pu', n'.
Qed.

Lemma regranted_same c c' : regranted c c' ->
  ch_source c' = ch_source c /\ ch_generation c' = ch_generation c
  /\ ch_controller_incarnation c' = ch_controller_incarnation c
  /\ cb_acknowledgements (ch_completion c') = cb_acknowledgements (ch_completion c)
  /\ cb_transactional_acknowledgements (ch_completion c') = cb_transactional_acknowledgements (ch_completion c)
  /\ (~ open_blocked c -> c' = c).
Proof. intros [->|(Ho & _ & ph & fl & pu & n & ->)]; [done|]. split_and!; done. Qed.

(** Arbitration adds permits and changes nothing else. *)
Record arbitrated (s s' : StreamConsumerModel) : Prop := {
  arb_frame : s' = s <| sm_children := sm_children s' |> <| sm_budget := sm_budget s' |>
                     <| sm_flow_cursor := sm_flow_cursor s' |>;
  arb_kept : forall rid r, bs_reservations (sm_budget s) !! rid = Some r ->
    bs_reservations (sm_budget s') !! rid = Some r;
  arb_children : forall id, option_Forall2 regranted (sm_children s !! id) (sm_children s' !! id);
}.

Lemma arbitrated_refl s : arbitrated s s.
Proof.
  split; [by destruct s|done|]. intros id. destruct (sm_children s !! id); constructor. by left.
Qed.

Lemma arbitrated_trans s1 s2 s3 : arbitrated s1 s2 -> arbitrated s2 s3 -> arbitrated s1 s3.
Proof.
  intros [F1 K1 C1] [F2 K2 C2]. split; [rewrite F2, F1; done|auto|].
  intros id. specialize (C1 id). specialize (C2 id).
  destruct C1 as [c c' Hr|]; inversion C2; subst; constructor. by eapply regranted_trans.
Qed.

Lemma arbitrated_set_child s id c c' :
  sm_children s !! id = Some c -> regranted c c' -> arbitrated s (set_child id c' s).
Proof.
  intros Hc Hr. split; [by destruct s|done|]. intros i. simpl.
  destruct (decide (id = i)) as [<-|].
  - rewrite Hc, lookup_insert_eq. by constructor.
  - rewrite lookup_insert_ne by done. destruct (sm_children s !! i); constructor. by left.
Qed.

Lemma blocked_regranted c b :
  open_blocked c -> regranted c (c <| ch_phase := OpenBlocked b |>).
Proof.
  intros Ho. right. split_and!; [done|left; by exists b|].
  exists (OpenBlocked b), (ch_flow_reservation c), (ch_flow_purpose c),
    (cb_pre_terminal_reservations (ch_completion c)). by destruct c as [? ? ? ? ? ? []].
Qed.

Lemma permitted_frame s s' id : arbitrated s s' -> permitted s' id <-> permitted s id.
Proof. intros [F _ _]. unfold permitted. by rewrite F. Qed.

(** The phase of a child that waits for a permit may be refreshed. *)
Lemma block_ok ex s id c b :
  stream_ok ex s -> sm_phase s = AgOpen -> sm_children s !! id = Some c -> open_blocked c ->
  stream_ok ex (set_child id (c <| ch_phase := OpenBlocked b |>) s).
Proof.
  intros H Hop Hc Ho. eapply ok_child_still; [done..| | |done].
  - pose proof (proj2 (so_flow _ _ _ _ H Hc)) as Hf. destruct Ho as [b' Hb]. unfold flow_ok in *.
    simpl. by rewrite Hb in Hf.
  - done.
Qed.

Lemma refresh_ordering_spec ex s id ok s' :
  stream_ok ex s -> sm_phase s = AgOpen -> refresh_ordering id s = (ok, s') ->
  stream_ok ex s' /\ arbitrated s s'
  /\ (ok = true -> permitted s id /\ exists c, sm_children s' !! id = Some c /\ open_blocked c).
Proof.
  intros H Hop. unfold refresh_ordering.
  destruct (sm_children s !! id) as [c|] eqn:Hc;
    [|intros [= <- <-]; split_and!; [done|apply arbitrated_refl|done]].
  destruct (ch_phase c) as [|b| | | | | |] eqn:Hph;
    try (intros [= <- <-]; split_and!; [done|apply arbitrated_refl|done]).
  assert (Ho : open_blocked c) by (by exists b).
  assert (Hset : forall b', stream_ok ex (set_child id (c <| ch_phase := OpenBlocked b' |>) s)
            /\ arbitrated s (set_child id (c <| ch_phase := OpenBlocked b' |>) s)).
  { intros b'. split; [by apply block_ok|]. eapply arbitrated_set_child; [done|]. by apply blocked_regranted. }
  destruct (ordering_eligibility _ _ _ _ _) as [e|e] eqn:He.
  - assert (Hp : permits_flow e = true -> permitted s id) by (intros; by exists e).
    destruct e; intros [= <- <-]; split_and!; try apply Hset; try done; intros _;
      (split; [by apply Hp|]); eexists; simpl; rewrite lookup_insert_eq; (split; [done|]); by eexists.
  - destruct e; intros [= <- <-]; split_and!; try apply Hset; try done; apply arbitrated_refl.
Qed.

(** A child ready to be granted stays so while others are refreshed. *)
Definition ready (s : StreamConsumerModel) (id : Z) : Prop :=
  permitted s id /\ exists c, sm_children s !! id = Some c /\ open_blocked c.

Lemma refresh_ordering_other s id id' ok s' :
  refresh_ordering id s = (ok, s') -> ready s id' -> ready s' id'.
Proof.
  intros E [Hp (c & Hc & Ho)]. unfold refresh_ordering in E.
  assert (Hset : forall x b, sm_children s !! id = Some x ->
            ready (set_child id (x <| ch_phase := OpenBlocked b |>) s) id').
  { intros x b Hx. split; [done|]. simpl. destruct (decide (id = id')) as [->|].
    - rewrite lookup_insert_eq. eexists. split; [done|]. by eexists.
    - rewrite lookup_insert_ne by done. eauto. }
  assert (Hs : ready s id') by (split; eauto).
  destruct (sm_children s !! id) as [x|] eqn:Hx; [|congruence].
  destruct (ch_phase x); try congruence. specialize (fun b => Hset x b eq_refl).
  destruct (ordering_eligibility _ _ _ _ _) as [[]|[]]; injection E as <- <-; auto.
Qed.

Lemma refresh_all_spec ex ids eligible s e' s' :
  stream_ok ex s -> sm_phase s = AgOpen -> refresh_all ids eligible s = (e', s') ->
  (forall id, id ∈ eligible -> ready s id) ->
  stream_ok ex s' /\ arbitrated s s' /\ (forall id, id ∈ e' -> ready s' id).
Proof.
  revert eligible s. induction ids as [|id ids IH]; intros eligible s H Hop; simpl.
  { intros [= <- <-] He. auto using arbitrated_refl. }
  destruct (refresh_ordering id s) as [ok s1] eqn:E1. intros E2 He.
  destruct (refresh_ordering_spec ex s id ok s1 H Hop E1) as (H1 & A1 & R1).
  assert (Hop1 : sm_phase s1 = AgOpen) by (by rewrite (arb_frame _ _ A1)).
  edestruct (IH _ _ H1 Hop1 E2) as (H2 & A2 & R2).
  - intros i Hi. assert (i ∈ eligible \/ ok = true /\ i = id) as [Hi'|[Hok ->]]
      by (destruct ok; set_solver).
    + eapply refresh_ordering_other; [done|]. auto.
    + destruct (R1 Hok) as [Hp Hc]. split; [|done]. by apply (permitted_frame _ _ _ A1).
  - split_and!; [done|by eapply arbitrated_trans|done].
Qed.

(** The action grants a permit the ordering barrier allows, and the child holds it. *)
Definition granted (s : StreamConsumerModel) (a : StreamConsumerAction) : Prop :=
  match a with
  | GrantFlow source incarnation generation reservation FpMessage =>
      permitted s (src_segment_id source)
      /\ exists c r, sm_children s !! src_segment_id source = Some c /\ ch_source c = source
           /\ ch_generation c = generation /\ ch_controller_incarnation c = incarnation
           /\ ch_phase c = Flowing /\ ch_flow_reservation c = Some reservation
           /\ bs_reservations (sm_budget s) !! reservation = Some r
           /\ dr_use r = FlowPermit /\ dr_bytes r = MAX_FRAME_SIZE
  | _ => False
  end.

Lemma granted_arbitrated s s' a : arbitrated s s' -> granted s a -> granted s' a.
Proof.
  intros A. destruct a as [| | |source inc gen rid pu| |]; simpl; try done. destruct pu; [|done].
  intros [Hp (c & r & Hc & Hs & Hg & Hi & Hph & Hf & Hr & Hu)]. split; [by apply (permitted_frame _ _ _ A)|].
  exists c, r. pose proof (arb_children _ _ A (src_segment_id source)) as Hch. rewrite Hc in Hch.
  inversion Hch as [? c' Hrg|]; subst. split_and!; try done; [|by apply (arb_kept _ _ A)|apply Hu|apply Hu].
  f_equal. apply regranted_same in Hrg as (_ & _ & _ & _ & _ & Hsame). apply Hsame. intros [b Hb]. congruence.
Qed.

(** ** The grants *)

(** Reserving a permit for a child that waits for one. *)
Lemma grant_ok ex s id c rid b :
  stream_ok ex s -> sm_phase s = AgOpen -> sm_children s !! id = Some c -> open_blocked c ->
  reserve_owned (child_owner c) FlowPermit MAX_FRAME_SIZE (sm_budget s) = Ok (rid, b) ->
  let c' := set_pre_terminal (cb_pre_terminal_reservations (ch_completion c) + 1)
              (c <| ch_phase := Flowing |> <| ch_flow_reservation := Some rid |>
                 <| ch_flow_purpose := Some FpMessage |>) in
  let s' := (set_child id c' (s <| sm_budget := b |>)) <| sm_flow_cursor := Some id |> in
  stream_ok ex s' /\ arbitrated s s'
  /\ exists r, bs_reservations b !! rid = Some r /\ dr_use r = FlowPermit /\ dr_bytes r = MAX_FRAME_SIZE.
Proof.
  intros H Hop Hc Ho Hb c' s'. pose proof (so_budget _ _ H) as Hbo.
  assert (Hfree : bs_reservations (sm_budget s) !! rid = None /\ exists r,
            bs_reservations b = <[rid := r]> (bs_reservations (sm_budget s))
            /\ dr_owner r = Some (child_owner c) /\ dr_use r = FlowPermit /\ dr_bytes r = MAX_FRAME_SIZE).
  { apply reserve_exact in Hb as (-> & _ & _ & ->); [|done|done]. split; [|by eexists].
    apply eq_None_not_Some. intros [r Hr]. apply (ok_entries _ Hbo) in Hr. lia. }
  destruct Hfree as (Hnew & r & Hres & Hro & Hru & Hrb).
  assert (Hflow : ch_flow_reservation c = None).
  { pose proof (proj2 (so_flow _ _ _ _ H Hc)) as Hf. destruct Ho as [x Hx]. unfold flow_ok in Hf. by rewrite Hx in Hf. }
  split_and!.
  - split; simpl; try apply H.
    + by apply (reserve_ok FlowPermit MAX_FRAME_SIZE (Some (child_owner c)) (sm_budget s) rid).
    + unfold ledger_of. simpl. rewrite Hres.
      set (c1 := c <| ch_phase := Flowing |> <| ch_flow_reservation := Some rid |>
                   <| ch_flow_purpose := Some FpMessage |>).
      assert (L1 := ledger_add_flow _ _ _ _ _ (so_ledger _ _ H) rid r id c c1 Hnew Hc Hro Hru Hflow eq_refl).
      specialize (L1 ltac:(by split_and!; try done; unfold flow_ok; simpl; eauto)).
      rewrite <- (insert_insert_eq _ id c' c1).
      eapply ledger_ext; [apply (ledger_child _ _ _ _ _ L1 id c1 c')|]; try done.
      * apply lookup_insert_eq.
      * unfold flow_ok. simpl. eauto.
      * change (child_owner c1) with (child_owner c). bump_solve.
    + intros i x [[<- <-]|[_ Hx]]%lookup_insert_Some; [|by apply (so_generation _ _ H i)].
      by apply (so_generation _ _ H id c).
    + intros Hn. congruence.
    + intros Hn. congruence.
  - split; [by destruct s|simpl; rewrite Hres|].
    + intros i x Hx. rewrite lookup_insert_ne; [done|]. congruence.
    + intros i. simpl. destruct (decide (id = i)) as [<-|].
      * rewrite Hc, lookup_insert_eq. constructor. right. split_and!; [done|by right|].
        by repeat eexists.
      * rewrite lookup_insert_ne by done. destruct (sm_children s !! i); constructor. by left.
  - exists r. rewrite Hres, lookup_insert_eq. done.
Qed.

(** A candidate of the grant loop. *)
Definition candidate (s : StreamConsumerModel) (p : Z * BudgetReservationOwner * Z) : Prop :=
  let '(id, owner, n) := p in
  permitted s id /\ exists c, sm_children s !! id = Some c /\ open_blocked c /\ child_owner c = owner
    /\ cb_pre_terminal_reservations (ch_completion c) = n.

Lemma grant_loop_spec ex candidates actions s :
  stream_ok ex s -> sm_phase s = AgOpen -> NoDup (candidates.*1.*1) -> Forall (candidate s) candidates ->
  Forall (granted s) actions ->
  wp (grant_loop candidates actions)
     (fun r s' => stream_ok ex s' /\ arbitrated s s' /\ forall l, r = Ok l -> Forall (granted s') l) s.
Proof.
  revert actions s. induction candidates as [|[[id owner] n] rest IH]; intros actions s H Hop Hnd Hcand Hacts.
  { simpl. wp_step. split_and!; [done|apply arbitrated_refl|]. by intros ? [= <-]. }
  apply Forall_cons in Hcand as [Hc Hcand]. csimpl in Hnd. apply NoDup_cons in Hnd as [Hid Hnd].
  destruct Hc as (Hp & c & Hc & Hob & <- & <-). simpl. wp_step. wp_step;
    [|split_and!; [done|apply arbitrated_refl|done]].
  unfold exhausted in Hr. apply ok_or_ok_inv, checked_add_Some in Hr as [-> _].
  unfold wp. destruct (reserve_owned _ _ _ _) as [[rid b]|e] eqn:Hb; simpl.
  2: { split_and!; [done|apply arbitrated_refl|]. by intros ? [= <-]. }
  rewrite Hc. destruct (grant_ok ex s id c rid b H Hop Hc Hob Hb) as (H' & A & r & Hr & Hu).
  set (s' := _ <| sm_flow_cursor := _ |>) in *.
  assert (Hid' : src_segment_id (ch_source c) = id) by (by apply (so_flow _ _ _ _ H Hc)).
  edestruct (IH (actions ++ [GrantFlow (ch_source c) (ch_controller_incarnation c) (ch_generation c) rid FpMessage]) s')
    as (H2 & A2 & G2); [done|done|done| | |by split_and!; [|eapply arbitrated_trans|]].
  - apply Forall_forall. intros [[i o] m] Hin. rewrite Forall_forall in Hcand.
    destruct (Hcand _ Hin) as (Hp' & x & Hx & Hxs). split; [by apply (permitted_frame _ _ _ A)|].
    exists x. simpl. rewrite lookup_insert_ne; [done|]. intros ->. destruct Hid.
    apply list_elem_of_fmap. exists (i, o). split; [done|]. apply list_elem_of_fmap. by eexists (i, o, m).
  - apply Forall_app. split; [eapply Forall_impl; [done|]; intros a; by apply granted_arbitrated|].
    apply Forall_singleton. simpl. rewrite Hid'. split; [by apply (permitted_frame _ _ _ A)|].
    eexists _, r. rewrite lookup_insert_eq. split_and!; [reflexivity|done..|exact Hr|apply Hu|apply Hu].
Qed.

(** The candidates that [arbitrate_flow] collects. *)
Lemma candidates_spec (eligible : gset Z) (ordered : list Z) s :
  NoDup ordered -> (forall id, id ∈ eligible -> ready s id) ->
  let candidates :=
    omap (fun segment_id =>
            (fun c => (segment_id, child_owner c, cb_pre_terminal_reservations (ch_completion c)))
              <$> sm_children s !! segment_id)
         (filter (fun id => id ∈ eligible) ordered) in
  candidates.*1.*1 = filter (fun id => id ∈ eligible) ordered
  /\ NoDup candidates.*1.*1 /\ Forall (candidate s) candidates.
Proof.
  intros Hnd R candidates.
  assert (Hids : candidates.*1.*1 = filter (fun id => id ∈ eligible) ordered).
  { subst candidates. clear Hnd. induction ordered as [|i l IH]; [done|].
    destruct (decide (i ∈ eligible)) as [Hi|Hi]; [|by rewrite !filter_cons_False].
    rewrite !filter_cons_True by done. destruct (R i Hi) as [_ (c & Hc & _)].
    simpl. rewrite Hc. simpl. by f_equal. }
  split_and!; [done|rewrite Hids; by apply NoDup_filter|].
  apply Forall_forall. intros [[i o] n] Hin. apply list_elem_of_omap in Hin as (j & Hj & Hin).
  apply list_elem_of_filter in Hj as [Hj _]. destruct (R j Hj) as [Hp (c & Hc & Hob)].
  rewrite Hc in Hin. injection Hin as <- <- <-. simpl. eauto 10.
Qed.

Lemma arbitrate_spec ex s :
  stream_ok ex s ->
  wp arbitrate_flow
     (fun r s' => stream_ok ex s' /\ arbitrated s s' /\ forall l, r = Ok l -> Forall (granted s') l) s.
Proof.
  intros H. unfold wp, arbitrate_flow.
  assert (Hnil : stream_ok ex s /\ arbitrated s s /\ forall l, Ok (E := StreamConsumerModelError) [] = Ok l -> Forall (granted s) l).
  { split_and!; [done|apply arbitrated_refl|]. by intros ? [= <-]. }
  destruct_if E; [done|]. rewrite negb_false_iff, bool_decide_eq_true in E.
  destruct (refresh_all _ ∅ s) as [eligible s1] eqn:Er.
  destruct (refresh_all_spec ex _ ∅ s eligible s1 H E Er) as (H1 & A1 & R1); [set_solver|].
  destruct_if E2; [split_and!; [done..|]; by intros ? [= <-]|].
  set (ids := btree_elems (dom (sm_children s))). set (start := flow_start _ _).
  assert (Hnd : NoDup (drop start ids ++ take start ids)).
  { rewrite Permutation_app_comm, take_drop. apply NoDup_btree_elems. }
  revert Hnd. generalize (drop start ids ++ take start ids). intros ordered Hnd.
  assert (Hop1 : sm_phase s1 = AgOpen) by (by rewrite (arb_frame _ _ A1)).
  destruct (candidates_spec eligible ordered s1 Hnd R1) as (_ & Hcn & Hcand).
  destruct (grant_loop_spec ex _ [] s1 H1 Hop1 Hcn Hcand) as (H2 & A2 & G2); [constructor|].
  split_and!; [done|by eapply arbitrated_trans|done].
Qed.

(** * Methods that keep the invariant *)

Definition keeps {A} (m : SM A) : Prop := forall ex s, stream_ok ex s -> wp m (fun _ => stream_ok ex) s.

Lemma arbitrate_keeps : keeps arbitrate_flow.
Proof. intros ex s H. eapply wp_mono; [by apply arbitrate_spec|]. by intros r s' (? & _). Qed.

Lemma close_if_drained_keeps id g : keeps (close_if_drained id g).
Proof.
  intros ex s H. unfold close_if_drained. wp_step. wp_step; [|done]. destruct_if E; [done|].
  wp_step. wp_step. wp_step. by eapply ok_child_still.
Qed.

Lemma keeps_bind {A B} (m : SM A) (f : A -> SM B) : keeps m -> (forall a, keeps (f a)) -> keeps (m ≫= f).
Proof.
  intros Hm Hf ex s H. apply wp_bind. eapply wp_mono; [by apply Hm|].
  intros [a|e] s' H'; [by apply Hf|done].
Qed.

Lemma keeps_ret {A} (a : A) : keeps (mret a).
Proof. by intros ex s H. Qed.

Lemma keeps_query {A} (f : _ -> result _ A) : keeps (query f).
Proof. by intros ex s H. Qed.

Lemma keeps_gets {A} (f : _ -> A) : keeps (gets f).
Proof. by intros ex s H. Qed.

Lemma keeps_lift {A} (r : result _ A) : keeps (lift r).
Proof. by intros ex s H. Qed.

Lemma keeps_throw_if b e : keeps (throw_if b e).
Proof. by intros ex s H. Qed.

Lemma keeps_require_open : keeps require_open.
Proof. apply keeps_bind; [apply keeps_gets|intros; apply keeps_throw_if]. Qed.

Lemma keeps_atomically {A} (m : SM A) : keeps m -> keeps (atomically m).
Proof.
  intros Hm ex s H. apply wp_atomically. eapply wp_mono; [by apply Hm|]. by intros [a|e] s' H'.
Qed.

Lemma keeps_collect {A} (f : A -> SM (list StreamConsumerAction)) l :
  (forall x, keeps (f x)) -> keeps (collect_actions f l).
Proof. intros Hf ex s H. apply wp_collect; [|done]. intros x s' _ H'. by apply Hf. Qed.

Lemma keeps_for_each {A} (f : A -> SM unit) l : (forall x, keeps (f x)) -> keeps (for_each f l).
Proof. intros Hf ex s H. apply wp_for_each; [|done]. intros x s' _ H'. by apply Hf. Qed.

Create HintDb stream.
#[export] Hint Resolve keeps_bind keeps_ret keeps_query keeps_gets keeps_lift keeps_throw_if keeps_require_open
  keeps_atomically keeps_collect keeps_for_each arbitrate_keeps close_if_drained_keeps : stream.

Lemma close_then_arbitrate_keeps id g : keeps (close_then_arbitrate id g).
Proof. unfold close_then_arbitrate. auto 10 with stream. Qed.
#[export] Hint Resolve close_then_arbitrate_keeps : stream.

(** A method that ends with arbitration: the state before it is enough. *)
Lemma wp_keeps {A} (m : SM A) ex s : keeps m -> stream_ok ex s -> wp m (fun _ => stream_ok ex) s.
Proof. intros Hm H. by apply Hm. Qed.

(** * Positions *)

Lemma release_inv rid b b' :
  release rid b = Ok b' -> exists r, bs_reservations b !! rid = Some r /\ bs_reservations b' = delete rid (bs_reservations b).
Proof. unfold release. destruct (bs_reservations b !! rid) eqn:E; [|done]. intros [= <-]. eauto. Qed.

Lemma release_present rid b r : bs_reservations b !! rid = Some r -> is_ok (release rid b) = true.
Proof. unfold release. by intros ->. Qed.

(** The positions are cleared without failing. *)
Lemma clear_delivered_spec ex s (Q : _ -> _ -> Prop) :
  stream_ok ex s ->
  (forall s', stream_ok ex s' -> s' = s <| sm_budget := sm_budget s' |> <| sm_delivered_positions := ∅ |>
                <| sm_delivered_position := empty_position (snap_epoch (sm_dag s)) |>
                <| sm_delivered_positions_reservation := None |> -> Q (Ok tt) s') ->
  wp clear_delivered_positions Q s.
Proof.
  intros H HQ. unfold clear_delivered_positions. wp_step. wp_step. wp_step.
  destruct (sm_delivered_positions_reservation s) as [rid|] eqn:E.
  - destruct (lg_meta _ _ _ _ _ (so_ledger _ _ H) rid E) as (r & Hr & Ho).
    wp_step. wp_step.
    + wp_step. wp_step. apply HQ; [|by destruct s].
      pose proof (release_inv _ _ _ Hb) as (r' & Hr' & Hres). split; simpl; try apply H.
      * eapply release_ok; [apply H|done].
      * unfold ledger_of. simpl. rewrite Hres. eapply ledger_remove_meta; [apply H|done].
      * intros Hn. split; [done|]. by apply (so_fenced _ _ H).
    + by rewrite (release_present _ _ _ Hr) in He || (pose proof (release_present _ _ _ Hr) as Hp; rewrite He in Hp).
  - wp_step. wp_step. apply HQ; [|destruct s; simpl in *; by subst].
    eapply ok_view; [done|]. by destruct s.
Qed.

Lemma clear_delivered_keeps : keeps clear_delivered_positions.
Proof. intros ex s H. by apply (clear_delivered_spec ex). Qed.

(** Resizing the reservation of the delivered positions. *)
Lemma transfer_inv rid e n bytes a b b' :
  transfer_inner rid e n bytes a b = Ok b' -> exists r bytes' a',
    bs_reservations b !! rid = Some r /\ dr_use r = e
    /\ bs_reservations b' = <[rid := mkReservation n bytes' a' (dr_owner r)]> (bs_reservations b).
Proof.
  unfold transfer_inner. destruct (bs_reservations b !! rid) as [r|] eqn:E; [|done].
  destruct_if E1; [done|]. rewrite negb_false_iff, bool_decide_eq_true in E1.
  destruct_if; [done|]. destruct_if; [done|]. intros [= <-]. simpl. eauto 10.
Qed.

(** ** Sizes *)

Lemma component_len_nonneg source o n : component_encoded_len source o = Ok n -> 0 <= n.
Proof.
  unfold component_encoded_len. intros E. inv_ok. simplify_option_eq.
  repeat match goal with H : checked_add _ _ _ = Some _ |- _ => apply checked_add_Some in H as [-> _] end.
  pose proof (blen_nonneg (src_topic source)). pose proof (blen_nonneg (encoded o)). lia.
Qed.

Lemma envelope_len_nonneg n m : checked_envelope_len n = Ok m -> 0 <= n -> 0 <= m.
Proof.
  unfold checked_envelope_len. intros E Hn. inv_ok. apply checked_add_Some in Hr as [-> _].
  destruct (_ >? _); [done|]. inv_ok. unfold HEADER_LEN. lia.
Qed.

Lemma smi_len_nonneg i n : smi_encoded_len i = Ok n -> 0 <= n.
Proof.
  unfold smi_encoded_len. intros E. inv_ok. eapply envelope_len_nonneg; [done|].
  by eapply component_len_nonneg.
Qed.

Lemma payload_len_nonneg l n m : payload_len_fold n l = Ok m -> 0 <= n -> 0 <= m.
Proof.
  revert n. induction l as [|[source o] l IH]; intros n E Hn; simpl in E; inv_ok; [done|].
  apply component_len_nonneg in Hr. apply checked_add_Some in Hr0 as [-> _]. eapply IH; [done|lia].
Qed.

Lemma pv_len_nonneg v n : pv_encoded_len v = Ok n -> 0 <= n.
Proof.
  unfold pv_encoded_len, payload_encoded_len. intros E. inv_ok. eapply envelope_len_nonneg; [done|].
  by eapply payload_len_nonneg.
Qed.

Lemma checked_sum_Some n l m :
  checked_sum n l = Some m -> m = n + foldr Z.add 0 l.
Proof.
  unfold checked_sum. revert n. induction l as [|x l IH]; intros n; simpl; [intros [= <-]; lia|].
  destruct (checked_add usize_max n x) as [k|] eqn:E.
  - apply checked_add_Some in E as [-> _]. intros H%IH. lia.
  - intros H. exfalso. clear -H. induction l; simpl in H; [done|auto].
Qed.

Lemma position_heap_nonneg delivered source i b v c :
  prospective_position_heap_bytes delivered source i b = (v, c) -> 0 <= v /\ 0 <= c.
Proof.
  unfold prospective_position_heap_bytes.
  assert (Hp : 0 <= POSITION_COMPONENT_NODE_OVERHEAD) by done.
  assert (Hf : forall (l : list (SegmentSource * StreamMessageId)) acc,
    0 <= acc.1.1 /\ 0 <= acc.1.2 ->
    let r := foldl (fun '(vector, canonical, found) '(existing_source, existing_id) =>
      let same := bool_decide (existing_source = source) in
      let selected := if same && b then i else existing_id in
      (vector + (POSITION_COMPONENT_NODE_OVERHEAD + blen (src_topic existing_source)
                 + blen (ordinary_message_id_bytes selected)),
       canonical + (POSITION_COMPONENT_NODE_OVERHEAD + blen (src_topic existing_source)
                    + blen (src_topic (smi_source selected)) + blen (ordinary_message_id_bytes selected)),
       found || same)) acc l in 0 <= r.1.1 /\ 0 <= r.1.2).
  { induction l as [|[s0 i0] l IH]; intros [[a a'] f] Ha; [done|]. apply IH. simpl in *.
    set (sel := if _ && _ then i else i0). pose proof (blen_nonneg (src_topic s0)).
    pose proof (blen_nonneg (ordinary_message_id_bytes sel)). pose proof (blen_nonneg (src_topic (smi_source sel))). lia. }
  specialize (Hf (btree_items delivered) (0, 0, false) ltac:(simpl; lia)). revert Hf. cbv zeta.
  destruct (foldl _ _ _) as [[x y] f]. simpl. intros [? ?].
  pose proof (blen_nonneg (src_topic source)). pose proof (blen_nonneg (ordinary_message_id_bytes i)).
  destruct f; simpl; intros [= <- <-]; lia.
Qed.

(** The reservation of the delivered positions may be resized. *)
Lemma resize_meta_ok ex s rid bytes b :
  stream_ok ex s -> 0 <= bytes ->
  transfer rid DeliveredPositionMetadata DeliveredPositionMetadata bytes (sm_budget s) = Ok b ->
  stream_ok ex (s <| sm_budget := b |>).
Proof.
  intros H Hn Hb. destruct (transfer_inv _ _ _ _ _ _ _ Hb) as (r & n & a & Hr & Hu & Hres).
  split; simpl; try apply H.
  - eapply transfer_ok; [apply H|exact Hn| |exact Hb]. simpl. unfold charged_bytes, implied_authority. simpl. lia.
  - unfold ledger_of. simpl. rewrite Hres. eapply ledger_resize; [apply H|done|done|left; by rewrite Hu].
Qed.

Lemma refresh_delivered_keeps : keeps refresh_delivered_position.
Proof.
  intros ex s H. unfold refresh_delivered_position. do 3 wp_step. wp_step. wp_step. wp_step; [|done].
  destruct (match btree_items _ with [] => _ | _ => _ end) as [heap canonical] eqn:Eh. do 3 wp_step.
  destruct (sm_delivered_positions_reservation s) as [rid|]; [|do 2 wp_step; by eapply ok_view].
  do 2 wp_step; [|done]. do 2 wp_step; [|done]. wp_step; [|done]. wp_step.
  apply (ok_view ex (s <| sm_budget := b |>)); [|done]. inv_ok. apply pv_len_nonneg in Hr0. apply checked_sum_Some in Hr1 as ->.
  assert (0 <= heap /\ 0 <= canonical).
  { destruct (btree_items _) as [|[? ?] ?]; [injection Eh as <- <-; lia|]. by eapply position_heap_nonneg. }
  eapply resize_meta_ok; [done| |done]. simpl. unfold DELIVERY_AUTHORITY_OVERHEAD. lia.
Qed.
#[export] Hint Resolve clear_delivered_keeps refresh_delivered_keeps : stream.
