(* ===== verification/StreamEmits.v ===== *)
(** * What the methods of a stream consumer emit

    The [GrantFlow] actions of a call are what makes an engine ask a broker for
    messages.  [emits] says of a method that it keeps the invariant and that each
    message permit among its actions is one the ordering barrier allows in the
    state it leaves, held by a flowing child and backed by a full frame of
    budget. *)

From S2P Require Import Prelude Ids Frame SegmentTopic Assignment DagWatch OrdinaryId StreamPosition ReceiverBudget StreamModel StreamLedger StreamInv.

(** Neither a permit for a message, nor anything that depends on the state. *)
Definition plain (a : StreamConsumerAction) : Prop :=
  match a with GrantFlow _ _ _ _ FpMessage => False | _ => True end.

Definition allowed (s : StreamConsumerModel) (a : StreamConsumerAction) : Prop := plain a \/ granted s a.

Lemma plain_allowed s l : Forall plain l -> Forall (allowed s) l.
Proof. intros H. eapply Forall_impl; [done|]. by left. Qed.

Lemma granted_allowed s l : Forall (granted s) l -> Forall (allowed s) l.
Proof. intros H. eapply Forall_impl; [done|]. by right. Qed.

(** The actions [view] finds in the result are allowed in the state left. *)
Definition emits {A} (view : A -> list StreamConsumerAction) (m : SM A) : Prop :=
  forall ex s, stream_ok ex s ->
    wp m (fun r s' => stream_ok ex s' /\ forall a, r = Ok a -> Forall (allowed s') (view a)) s.

(** The actions of the result are plain. *)
Definition quiet {A} (view : A -> list StreamConsumerAction) (m : SM A) : Prop :=
  forall s, wp m (fun r _ => forall a, r = Ok a -> Forall plain (view a)) s.

Definition itself (l : list StreamConsumerAction) : list StreamConsumerAction := l.

Section Rules.
Context {A B : Type} (view : B -> list StreamConsumerAction).

Lemma emits_keeps (m : SM B) : emits view m -> keeps m.
Proof. intros Hm ex s H. eapply wp_mono; [by apply Hm|]. by intros r s' [? _]. Qed.

Lemma emits_bind (m : SM A) (f : A -> SM B) : keeps m -> (forall a, emits view (f a)) -> emits view (m ≫= f).
Proof.
  intros Hm Hf ex s H. apply wp_bind. eapply wp_mono; [by apply Hm|]. intros [a|e] s' H'; [by apply Hf|done].
Qed.

(** The first call's actions are plain, and handed to the rest. *)
Lemma emits_after (m : SM A) (v : A -> list StreamConsumerAction) (f : A -> SM B) :
  keeps m -> quiet v m -> (forall a, Forall plain (v a) -> emits view (f a)) -> emits view (m ≫= f).
Proof.
  intros Hm Hq Hf ex s H. apply wp_bind. pose proof (Hm ex s H) as H1. pose proof (Hq s) as H2. unfold wp in *.
  destruct (m s) as [[a|e] s']; simpl in *; [|done]. apply Hf; [|done]. by apply H2.
Qed.

Lemma emits_map (m : SM A) (v : A -> list StreamConsumerAction) (g : A -> B) :
  emits v m -> (forall a s, Forall (allowed s) (v a) -> Forall (allowed s) (view (g a))) ->
  emits view (a ← m; mret (g a)).
Proof.
  intros Hm Hg ex s H. apply wp_bind. eapply wp_mono; [by apply Hm|]. intros [a|e] s' [H' Ha]; [|done].
  wp_step. split; [done|]. intros b [= <-]. auto.
Qed.

Lemma emits_quiet (m : SM B) : keeps m -> quiet view m -> emits view m.
Proof.
  intros Hm Hq ex s H. pose proof (Hm ex s H) as H1. pose proof (Hq s) as H2. unfold wp in *.
  split; [done|]. intros b Hb. by apply plain_allowed, H2.
Qed.

Lemma emits_atomically (m : SM B) : emits view m -> emits view (atomically m).
Proof.
  intros Hm ex s H. apply wp_atomically. eapply wp_mono; [by apply Hm|]. by intros [a|e] s' [H' Ha].
Qed.

Lemma quiet_bind (m : SM A) (f : A -> SM B) : (forall a, quiet view (f a)) -> quiet view (m ≫= f).
Proof. intros Hf s. apply wp_bind. unfold wp at 1. destruct (m s) as [[a|e] s']; [apply Hf|done]. Qed.

Lemma quiet_after (m : SM A) (v : A -> list StreamConsumerAction) (f : A -> SM B) :
  quiet v m -> (forall a, Forall plain (v a) -> quiet view (f a)) -> quiet view (m ≫= f).
Proof.
  intros Hm Hf s. apply wp_bind. pose proof (Hm s) as H. unfold wp in H |- * at 1.
  destruct (m s) as [[a|e] s']; [|done]. apply Hf. by apply H.
Qed.

Lemma quiet_ret (b : B) : Forall plain (view b) -> quiet view (mret b).
Proof. intros Hb s. wp_step. by intros ? [= <-]. Qed.

Lemma quiet_atomically (m : SM B) : quiet view m -> quiet view (atomically m).
Proof. intros Hm s. apply wp_atomically. eapply wp_mono; [apply Hm|]. by intros [a|e] s'. Qed.
End Rules.

Lemma arbitrate_emits : emits itself arbitrate_flow.
Proof.
  intros ex s H. eapply wp_mono; [by apply arbitrate_spec|]. intros r s' (H' & _ & Hg). split; [done|].
  intros l ->. by apply granted_allowed, Hg.
Qed.

(** [actions.extend(arbitrate_flow()?)] after plain actions *)
Lemma arbitrate_last actions : Forall plain actions ->
  emits itself (granted ← arbitrate_flow; mret (actions ++ granted)).
Proof.
  intros Ha. eapply (emits_map itself _ itself); [apply arbitrate_emits|]. intros l s Hl.
  apply Forall_app. split; [by apply plain_allowed|done].
Qed.

Create HintDb grants.
#[export] Hint Resolve arbitrate_emits arbitrate_last : grants.
#[export] Hint Constructors Forall : grants.

Lemma close_if_drained_quiet id g : quiet itself (close_if_drained id g).
Proof.
  unfold close_if_drained. apply quiet_bind. intros c. destruct_if; [by apply quiet_ret|].
  apply quiet_bind. intros _. apply quiet_ret. by repeat constructor.
Qed.

Lemma close_then_arbitrate_emits id g : emits itself (close_then_arbitrate id g).
Proof.
  unfold close_then_arbitrate. eapply emits_after; [auto with stream|apply close_if_drained_quiet|].
  apply arbitrate_last.
Qed.
#[export] Hint Resolve close_then_arbitrate_emits : grants.

(** * Permits that stay *)

(** Permits held in the one state are held in the other. *)
Definition still (s s' : StreamConsumerModel) : Prop := forall a, granted s a -> granted s' a.

#[global] Instance still_preorder : PreOrder still.
Proof. split; [by intros s a|]. intros s1 s2 s3 H1 H2 a Ha. auto. Qed.

Lemma allowed_still s s' l : still s s' -> Forall (allowed s) l -> Forall (allowed s') l.
Proof. intros Hs Hl. eapply Forall_impl; [exact Hl|]. intros a [?|?]; [by left|right; auto]. Qed.

(** A step that leaves the layout, and the permits of the flowing children. *)
Lemma still_children s s' :
  sm_dag s' = sm_dag s -> sm_ordering_mode s' = sm_ordering_mode s ->
  sm_ownership_history s' = sm_ownership_history s -> sm_completed s' = sm_completed s ->
  (forall rid r, bs_reservations (sm_budget s) !! rid = Some r -> dr_use r = FlowPermit ->
     bs_reservations (sm_budget s') !! rid = Some r) ->
  (forall id c, sm_children s !! id = Some c -> ch_phase c = Flowing ->
     exists c', sm_children s' !! id = Some c' /\ ch_source c' = ch_source c /\ ch_generation c' = ch_generation c
       /\ ch_controller_incarnation c' = ch_controller_incarnation c /\ ch_phase c' = Flowing
       /\ ch_flow_reservation c' = ch_flow_reservation c) -> still s s'.
Proof.
  intros Hd Hm Hh Hcm Hres Hch a. destruct a as [| | |source inc gen rid []| |]; simpl; try done.
  intros [Hp (c & r & Hc & Hs & Hg & Hi & Hph & Hf & Hr & Hu & Hb)].
  split; [unfold permitted in *; by rewrite Hd, Hm, Hh, Hcm|].
  destruct (Hch _ _ Hc Hph) as (c' & Hc' & E1 & E2 & E3 & E4 & E5). exists c', r.
  split_and!; try done; [congruence..|by apply Hres].
Qed.

(** The update of one child. *)
Lemma still_child s id c c' :
  sm_children s !! id = Some c ->
  (ch_phase c = Flowing -> ch_source c' = ch_source c /\ ch_generation c' = ch_generation c
     /\ ch_controller_incarnation c' = ch_controller_incarnation c /\ ch_phase c' = Flowing
     /\ ch_flow_reservation c' = ch_flow_reservation c) -> still s (set_child id c' s).
Proof.
  intros Hc Hk. apply still_children; try done. intros i x Hx Hph. simpl. destruct (decide (id = i)) as [<-|].
  - rewrite lookup_insert_eq. rewrite Hc in Hx. injection Hx as <-. exists c'. split; [done|]. by apply Hk.
  - rewrite lookup_insert_ne by done. eauto 10.
Qed.

Lemma close_if_drained_still id g s : wp (close_if_drained id g) (fun _ => still s) s.
Proof.
  unfold close_if_drained. wp_step. wp_step; [|reflexivity]. destruct_if E; [wp_step; reflexivity|]. do 3 wp_step.
  eapply still_child; [done|]. intros Hf. rewrite Hf in E. done.
Qed.

Lemma close_then_arbitrate_spec ex id g s :
  stream_ok ex s ->
  wp (close_then_arbitrate id g)
     (fun r s' => stream_ok ex s' /\ (forall l, r = Ok l -> Forall (allowed s') l) /\ still s s') s.
Proof.
  intros H. unfold close_then_arbitrate. wp_step.
  pose proof (close_if_drained_keeps id g ex s H) as H1. pose proof (close_if_drained_still id g s) as S1.
  pose proof (close_if_drained_quiet id g s) as Q1. unfold wp in H1, S1, Q1 |- * at 1.
  destruct (close_if_drained id g s) as [[l|e] s1]; simpl in *; [|done]. wp_step.
  eapply wp_mono; [by apply (arbitrate_spec ex)|]. intros r s2 (H2 & A & Hg).
  assert (S2 : still s s2). { etrans; [exact S1|]. intros a. by apply granted_arbitrated. }
  destruct r as [l'|e]; [|done]. wp_step. split_and!; [done| |done]. intros ? [= <-].
  apply Forall_app. split; [apply plain_allowed; by apply Q1|by apply granted_allowed, Hg].
Qed.
