(* ===== verification/StreamKeeps.v ===== *)
(** * Every method of the stream consumer keeps the invariant

    One lemma per public method of [StreamConsumerModel], each reduced to the
    elementary steps of the ledger. *)

From S2P Require Import Prelude Ids Frame SegmentTopic Assignment DagWatch OrdinaryId StreamPosition ReceiverBudget StreamModel StreamOps StreamReceive StreamAcks StreamLedger StreamInv StreamEmits.

(** * Steps of the budget, on the state *)

Section BudgetSteps.
Context (ex : BudgetReservationOwner -> Z) (s : StreamConsumerModel) (id : Z) (c : ChildState).
Hypotheses (H : stream_ok ex s) (Hc : sm_children s !! id = Some c).

Lemma fresh_id : bs_reservations (sm_budget s) !! bs_next_id (sm_budget s) = None.
Proof. apply eq_None_not_Some. intros [r Hr]. apply (ok_entries _ (so_budget _ _ H)) in Hr. lia. Qed.

Lemma ok_reserve use bytes rid b :
  0 <= bytes -> work_use use -> reserve_owned (child_owner c) use bytes (sm_budget s) = Ok (rid, b) ->
  stream_ok (bump ex (child_owner c) (-1)) (s <| sm_budget := b |>)
  /\ (exists r, bs_reservations b !! rid = Some r /\ dr_owner r = Some (child_owner c) /\ dr_use r = use
                /\ bytes <= dr_bytes r)
  /\ bs_reservations (sm_budget s) !! rid = None
  /\ (forall i r, bs_reservations (sm_budget s) !! i = Some r -> bs_reservations b !! i = Some r).
Proof.
  intros Hn Hu Hb. pose proof (reserve_ok _ _ _ _ _ _ (so_budget _ _ H) Hn Hb) as Hbo.
  apply reserve_exact in Hb as (-> & _ & _ & ->); [|apply H|done]. split_and!.
  - split; simpl; try apply H; [done| |by apply (fresh_bump _ _ id)].
    unfold ledger_of. simpl. eapply ledger_add; [apply H|apply fresh_id|done..].
  - simpl. eexists. rewrite lookup_insert_eq. split_and!; [done..|]. simpl. unfold charged_bytes. case_decide; lia.
  - apply fresh_id.
  - simpl. intros i r Hr. rewrite lookup_insert_ne; [done|]. intros <-. by rewrite fresh_id in Hr.
Qed.

Lemma ok_release_work rid r b :
  bs_reservations (sm_budget s) !! rid = Some r -> dr_owner r = Some (child_owner c) -> work_use (dr_use r) ->
  release rid (sm_budget s) = Ok b -> stream_ok (bump ex (child_owner c) 1) (s <| sm_budget := b |>).
Proof.
  intros Hr Ho Hu Hb. pose proof (release_ok _ _ _ (so_budget _ _ H) Hb) as Hbo.
  apply release_inv in Hb as (r' & Hr' & Hres). simplify_eq.
  split; simpl; try apply H; [done| |by apply (fresh_bump _ _ id)].
  unfold ledger_of. simpl. rewrite Hres. by eapply ledger_remove; [apply H|..].
Qed.

(** The child [c'] is [c] without its permit. *)
Definition spent (c c' : ChildState) : Prop :=
  ch_source c' = ch_source c /\ ch_generation c' = ch_generation c /\ ch_flow_reservation c' = None
  /\ flow_ok c' /\ cb_deliveries (ch_completion c') = cb_deliveries (ch_completion c).

Lemma spent_gen c' : spent c c' ->
  forall i x, <[id := c']> (sm_children s) !! i = Some x -> ch_generation x < sm_next_child_generation s.
Proof.
  intros (_ & Hg & _) i x [[<- <-]|[_ Hx]]%lookup_insert_Some; [|by apply (so_generation _ _ H i)].
  rewrite Hg. by apply (so_generation _ _ H id).
Qed.

Lemma spent_fenced c' : (sm_phase s <> AgOpen -> ch_phase c' = PhClosing) ->
  sm_phase s <> AgOpen -> sm_delivered_positions_reservation s = None
    /\ forall i x, <[id := c']> (sm_children s) !! i = Some x -> ch_phase x = PhClosing.
Proof.
  intros Hph Hn. destruct (so_fenced _ _ H Hn) as [Hm Hall]. split; [done|].
  intros i x [[<- <-]|[_ Hx]]%lookup_insert_Some; eauto.
Qed.

Lemma not_closed : sm_phase s <> AgClosed.
Proof. intros E. rewrite (so_closed _ _ H E) in Hc. done. Qed.

Lemma ok_release_flow c' rid b :
  ch_flow_reservation c = Some rid -> release rid (sm_budget s) = Ok b -> spent c c' ->
  (sm_phase s <> AgOpen -> ch_phase c' = PhClosing) ->
  stream_ok (bump ex (child_owner c) (cb_pre_terminal_reservations (ch_completion c')
                                      - cb_pre_terminal_reservations (ch_completion c) + 1))
    (set_child id c' (s <| sm_budget := b |>)).
Proof.
  intros Hf Hb Hs Hph. pose proof (release_ok _ _ _ (so_budget _ _ H) Hb) as Hbo.
  apply release_inv in Hb as (r' & Hr' & Hres). pose proof (spent_gen c' Hs) as Hgen.
  destruct Hs as (Hsrc & Hg & Hf' & Hok & Hd). split; simpl; try apply H; try done.
  - unfold ledger_of. simpl. rewrite Hres.
    set (c1 := set_pre_terminal (cb_pre_terminal_reservations (ch_completion c)) c').
    assert (L1 := ledger_remove_flow _ _ _ _ _ (so_ledger _ _ H) rid id c c1 Hc Hf Hf').
    specialize (L1 ltac:(by split_and!)).
    rewrite <- (insert_insert_eq _ id c' c1).
    eapply ledger_ext; [apply (ledger_child _ _ _ _ _ L1 id c1 c')|]; try done.
    + apply lookup_insert_eq.
    + replace (child_owner c1) with (child_owner c) by (symmetry; by apply child_owner_same). bump_solve.
  - by apply (fresh_bump _ _ id).
  - by apply spent_fenced.
  - intros E. by destruct not_closed.
Qed.

Lemma ok_transfer_flow c' rid use bytes b :
  ch_flow_reservation c = Some rid -> 0 <= bytes -> work_use use ->
  transfer_owned rid (child_owner c) FlowPermit use bytes (sm_budget s) = Ok b -> spent c c' ->
  cb_pre_terminal_reservations (ch_completion c') = cb_pre_terminal_reservations (ch_completion c) ->
  (sm_phase s <> AgOpen -> ch_phase c' = PhClosing) ->
  stream_ok ex (set_child id c' (s <| sm_budget := b |>))
  /\ (exists r, bs_reservations b !! rid = Some r /\ dr_owner r = Some (child_owner c) /\ dr_use r = use).
Proof.
  intros Hf Hn Hu Hb Hs Hp Hph. unfold transfer_owned in Hb. inv_ok.
  assert (Hbo : budget_ok b).
  { eapply transfer_ok; [apply H|exact Hn| |exact Hb]. simpl. apply implied_authority_le. by apply charged_nonneg. }
  apply transfer_inv in Hb as (r' & n & a & Hr' & Hu' & Hres).
  assert (Hown : dr_owner r' = Some (child_owner c)).
  { destruct (lg_flow _ _ _ _ _ (so_ledger _ _ H) id c rid Hc Hf) as (x & Hx & Ho & _). congruence. }
  pose proof (spent_gen c' Hs) as Hgen. destruct Hs as (Hsrc & Hg & Hf' & Hok & Hd). split.
  - split; simpl; try apply H; try done.
    + unfold ledger_of. simpl. rewrite Hres.
      eapply ledger_flow_to_work; [apply H|done..| |by rewrite Hown|done]. by split_and!.
    + by apply spent_fenced.
    + intros E. by destruct not_closed.
  - rewrite Hres, lookup_insert_eq. eexists. by split_and!.
Qed.
End BudgetSteps.

(** * Fencing *)

Lemma fence_ok ex s g e p :
  stream_ok ex s -> sm_delivered_positions_reservation s = None -> (p = AgClosed -> sm_children s = ∅) ->
  stream_ok ex ((fence g e s) <| sm_phase := p |>).
Proof.
  intros H Hm Hp. split; simpl; try apply H.
  - apply ledger_fence, H.
  - intros id c. rewrite lookup_fmap_Some. intros (x & <- & Hx). by apply (so_generation _ _ H id x).
  - intros id source. by rewrite lookup_empty.
  - intros _. split; [done|]. intros id c. rewrite lookup_fmap_Some. by intros (x & <- & Hx).
  - intros E. by rewrite (Hp E), fmap_empty.
Qed.

Lemma next_authority_keeps : keeps next_authority.
Proof. unfold next_authority. auto 10 with stream. Qed.

Lemma begin_controller_incarnation_keeps i : keeps (begin_controller_incarnation i).
Proof.
  intros ex s H. unfold begin_controller_incarnation. do 2 wp_step. do 2 wp_step; [|done].
  do 3 wp_step. wp_step; [|done]. wp_step. eapply wp_mono; [by apply next_authority_keeps|].
  intros [[g e]|e] s1 H1; [|done]. do 3 wp_step. apply (clear_delivered_spec ex); [done|].
  intros s2 H2 E. do 3 wp_step. apply (ok_view ex ((fence g e s2) <| sm_phase := AgOpen |>)); [|done].
  apply fence_ok; [done|by rewrite E|done].
Qed.

Lemma require_resync_keeps : keeps require_resync.
Proof.
  intros ex s H. unfold require_resync. do 2 wp_step. destruct_if; [done|]. do 2 wp_step; [|done].
  wp_step. eapply wp_mono; [by apply next_authority_keeps|].
  intros [[g e]|e] s1 H1; [|done]. do 3 wp_step. apply (clear_delivered_spec ex); [done|].
  intros s2 H2 E. do 3 wp_step. apply fence_ok; [done|by rewrite E|done].
Qed.

Lemma close_keeps : keeps close.
Proof.
  intros ex s H. unfold close. do 2 wp_step. destruct_if; [done|].
  wp_step. eapply wp_mono; [by apply next_authority_keeps|].
  intros [[g e]|e] s1 H1; [|done]. do 3 wp_step. apply (clear_delivered_spec ex); [done|].
  intros s2 H2 E. do 3 wp_step. apply fence_ok; [done|by rewrite E|].
  destruct_if Eb; [|done]. by rewrite bool_decide_eq_true in Eb.
Qed.
#[export] Hint Resolve begin_controller_incarnation_keeps require_resync_keeps close_keeps : stream.

(** * The life of a child *)

Lemma seek_completed_emits id g : emits itself (seek_completed id g).
Proof.
  intros ex s H. unfold seek_completed. do 2 wp_step; [|done]. do 2 wp_step; [|done]. do 2 wp_step; [|done].
  rewrite negb_false_iff, bool_decide_eq_true in Hguard. do 4 wp_step.
  pose proof (proj2 (so_flow _ _ _ _ H Hc)) as Hf. unfold flow_ok in Hf. rewrite Hguard in Hf.
  assert (stream_ok ex (set_child id (c <| ch_phase := OpenBlocked FbBudget |>) s))
    by (by eapply ok_child_still).
  destruct_if; [by wp_step; split; [|intros ? [= <-]]|]. by apply arbitrate_emits.
Qed.

Lemma seek_completed_keeps id g : keeps (seek_completed id g).
Proof. eapply emits_keeps, seek_completed_emits. Qed.

Lemma pending_ok ex s p :
  stream_ok ex s -> (forall id source, p !! id = Some source -> src_segment_id source = id) ->
  stream_ok ex (s <| sm_pending_ownership := p |>).
Proof. intros H Hp. split; try apply H; done. Qed.

Lemma child_opened_emits id g : emits itself (child_opened id g).
Proof.
  intros ex s H. unfold child_opened. do 2 wp_step; [|done]. do 2 wp_step; [|done]. do 2 wp_step; [|done].
  rewrite negb_false_iff, bool_decide_eq_true in Hguard. do 4 wp_step.
  pose proof (proj2 (so_flow _ _ _ _ H Hc)) as Hf. unfold flow_ok in Hf. rewrite Hguard in Hf.
  assert (Hs : stream_ok ex (set_child id (c <| ch_phase := OpenBlocked FbBudget |>) s))
    by (by eapply ok_child_still).
  apply arbitrate_emits. case_decide; [|done]. apply pending_ok; [done|].
  intros i source [_ Hi]%lookup_delete_Some. by apply (so_pending _ _ H).
Qed.

Lemma child_opened_keeps id g : keeps (child_opened id g).
Proof. eapply emits_keeps, child_opened_emits. Qed.

Lemma child_open_busy_keeps id g : keeps (child_open_busy id g).
Proof.
  intros ex s H. unfold child_open_busy. do 2 wp_step; [|done]. do 2 wp_step; [|done]. do 2 wp_step; [|done].
  wp_step. apply pending_ok; [done|]. intros i source [[<- <-]|[_ Hi]]%lookup_insert_Some.
  - by apply (so_flow _ _ _ _ H Hc).
  - by apply (so_pending _ _ H).
Qed.

Lemma complete_segment_emits id g : emits itself (complete_segment id g).
Proof.
  intros ex s H. unfold complete_segment. do 2 wp_step; [|done]. do 2 wp_step; [|done]. do 2 wp_step; [|done].
  do 2 wp_step. apply arbitrate_emits. by eapply ok_view.
Qed.

Lemma complete_segment_keeps id g : keeps (complete_segment id g).
Proof. eapply emits_keeps, complete_segment_emits. Qed.

Lemma observe_terminal_emits id g : emits itself (observe_terminal id g).
Proof.
  intros ex s H. unfold observe_terminal. wp_step. unfold require_callback_phase. do 2 wp_step. wp_step; [|done].
  do 2 wp_step; [|done]. do 2 wp_step; [|done]. rewrite bool_decide_eq_false in Hguard0.
  do 2 wp_step; [|done]. set (finish := fun c : ChildState => _).
  assert (Hfin : forall c0, ch_phase c0 = ch_phase c -> ch_flow_reservation (finish c0) = None
     /\ ch_source (finish c0) = ch_source c0 /\ ch_generation (finish c0) = ch_generation c0
     /\ flow_ok (finish c0) /\ cb_deliveries (ch_completion (finish c0)) = cb_deliveries (ch_completion c0)
     /\ (ch_phase c0 = PhClosing -> ch_phase (finish c0) = PhClosing)
     /\ cb_pre_terminal_reservations (ch_completion (finish c0))
        = default (cb_pre_terminal_reservations (ch_completion c0)) r).
  { intros c0 E. subst finish. simpl. unfold flow_ok. destruct r; simpl; rewrite ?E;
      destruct (ch_phase c) eqn:Ep; simpl; rewrite ?E; split_and!; try done; congruence. }
  clearbody finish. destruct (Hfin c eq_refl) as (F1 & F2 & F3 & F4 & F5 & F6 & F7).
  assert (Hph : sm_phase s <> AgOpen -> ch_phase (finish c) = PhClosing).
  { intros Hn. apply F6. by apply (proj2 (so_fenced _ _ H Hn) id). }
  destruct (ch_flow_reservation c) as [rid|] eqn:Ef.
  - destruct (lg_flow _ _ _ _ _ (so_ledger _ _ H) id c rid Hc Ef) as (x & Hx & _).
    wp_step. wp_step. wp_step; [|done]. wp_step.
    + wp_step. eapply wp_child_mut; [done..|]. apply close_then_arbitrate_emits.
      destruct (unbalanced _ _ _) as [n|] eqn:En; [|done]. injection Hr as <-.
      unfold unbalanced, checked_sub in En. destruct (1 <=? _); [|done]. injection En as <-.
      eapply ok_ext; [eapply ok_release_flow; try done|]. simpl in F7. rewrite F7. bump_solve.
    + pose proof (release_present _ _ _ Hx) as Hp. by rewrite He in Hp.
  - injection Hr as <-. do 3 wp_step. eapply wp_child_mut; [done..|]. apply close_then_arbitrate_emits.
    eapply ok_child_still; [done|done| |done|done|done]. split_and!; [done|done|by rewrite F1, Ef|done].
Qed.

Lemma observe_terminal_keeps id g : keeps (observe_terminal id g).
Proof. eapply emits_keeps, observe_terminal_emits. Qed.
#[export] Hint Resolve seek_completed_keeps child_opened_keeps child_open_busy_keeps complete_segment_keeps
  observe_terminal_keeps : stream.

(** * Entries *)

Lemma reserve_receive_work_keeps id g use bytes :
  0 <= bytes -> work_use use -> keeps (reserve_receive_work id g use bytes).
Proof.
  intros Hn Hu ex s H. unfold reserve_receive_work. do 2 wp_step; [|done]. do 2 wp_step; [|done].
  do 2 wp_step; [|done]. do 2 wp_step; [|done]. do 2 wp_step; [|done]. do 2 wp_step; [|done].
  destruct (ok_reserve ex s id c H Hc _ _ _ _ Hn Hu Hb) as (H' & _).
  wp_step. eapply wp_child_mut; [done..|]. wp_step.
  unfold exhausted in Hr. apply ok_or_ok_inv, checked_add_Some in Hr as [-> _].
  eapply ok_ext; [eapply (ok_child _ _ _ _ _ H'); try done|].
  - by apply (so_flow _ _ _ _ H Hc).
  - bump_solve.
Qed.

Lemma owned_inv rid o use b r :
  owned rid o use b = Ok r -> bs_reservations b !! rid = Some r /\ dr_owner r = Some o /\ dr_use r = use.
Proof.
  unfold owned. intros E. inv_ok. revert E. do 2 (destruct_if ?; [done|]).
  rewrite negb_false_iff, bool_decide_eq_true in *. intros E. inv_ok. done.
Qed.

Lemma receive_work_inv rid o s r :
  receive_work rid o s = Ok r ->
  bs_reservations (sm_budget s) !! rid = Some r /\ dr_owner r = Some o /\ work_use (dr_use r).
Proof.
  unfold receive_work, work_use. intros E. inv_ok. revert E. destruct_if ?; [done|].
  rewrite negb_false_iff, bool_decide_eq_true in *. case_match eqn:Eu; intros E; inv_ok; rewrite Eu; auto 10.
Qed.

Lemma cancel_receive_work_emits id g rid : emits itself (cancel_receive_work id g rid).
Proof.
  intros ex s H. unfold cancel_receive_work. do 2 wp_step; [|done]. do 2 wp_step; [|done].
  do 2 wp_step; [|done]. do 2 wp_step; [|done]. apply receive_work_inv in Hr as (Hx & Ho & Hu).
  do 2 wp_step; [|done]. pose proof (ok_release_work ex s id c H Hc _ _ _ Hx Ho Hu Hb) as H'.
  wp_step. eapply wp_child_mut; [done..|]. apply close_then_arbitrate_emits.
  unfold unbalanced, checked_sub in Hr0. apply ok_or_ok_inv in Hr0. destruct (1 <=? _); [|done]. injection Hr0 as <-.
  eapply ok_ext; [eapply (ok_child _ _ _ _ _ H'); try done|].
  - by apply (so_flow _ _ _ _ H Hc).
  - bump_solve.
Qed.

Lemma cancel_receive_work_keeps id g rid : keeps (cancel_receive_work id g rid).
Proof. eapply emits_keeps, cancel_receive_work_emits. Qed.

(** ** Arrivals *)

Lemma wp_arrival_child id g flow purpose (Q : _ -> _ -> Prop) s :
  (forall c, sm_phase s = AgOpen -> sm_children s !! id = Some c -> ch_generation c = g ->
     (ch_phase c = Flowing \/ ch_phase c = Draining) -> ch_flow_reservation c = Some flow ->
     ch_flow_purpose c = Some purpose -> Q (Ok c) s) ->
  (forall e, Q (Err e) s) -> wp (arrival_child id g flow purpose) Q s.
Proof.
  intros H1 H2. unfold arrival_child. do 2 wp_step; [|done]. do 2 wp_step; [|done].
  do 2 wp_step; [|done]. do 2 wp_step; [|done]. wp_step.
  apply orb_false_iff in Hguard as [Hp Hf]. rewrite negb_false_iff in *. rewrite bool_decide_eq_true in *.
  apply H1; try done. unfold flowing_or_draining in Hp. destruct (ch_phase c); auto; done.
Qed.

Lemma consume_flow_spent c : ch_phase c = Flowing \/ ch_phase c = Draining -> spent c (consume_flow c).
Proof. intros [E|E]; unfold consume_flow, spent, flow_ok; simpl; rewrite E; simpl; rewrite ?E; done. Qed.

Lemma consume_flow_counts c :
  cb_pre_terminal_reservations (ch_completion (consume_flow c)) = cb_pre_terminal_reservations (ch_completion c)
  /\ ch_generation (consume_flow c) = ch_generation c.
Proof. unfold consume_flow. by destruct_if. Qed.

(** [rid] retains a message of [n] bytes for [o]. *)
Definition retained_for (o : BudgetReservationOwner) (res : gmap Z DataReservation) (rid n : Z) : Prop :=
  exists r, res !! rid = Some r /\ dr_owner r = Some o /\ dr_use r = RetainedMessage /\ n <= dr_bytes r.

Section Arrivals.
Context (id : Z) (c1 : ChildState).
Let o := child_owner c1.

(** The methods release and reserve first and assign the child [c1] at the end;
    [then_child s] is [s] with that assignment already made. *)
Definition then_child (s : StreamConsumerModel) : StreamConsumerModel := set_child id c1 s.

Lemma then_lookup s : sm_children (then_child s) !! id = Some c1.
Proof. apply lookup_insert_eq. Qed.

Lemma then_budget s b : (then_child s) <| sm_budget := b |> = then_child (s <| sm_budget := b |>).
Proof. done. Qed.

(** Releasing the work reservations of a child, one after the other. *)
Lemma release_works ex work s :
  stream_ok ex (then_child s) ->
  (forall rid r, rid ∈ work -> bs_reservations (sm_budget s) !! rid = Some r ->
     dr_owner r = Some o /\ work_use (dr_use r)) ->
  wp (for_each (fun reservation => on_budget_ (release reservation)) work)
     (fun r s' => match r with
                  | Ok _ => exists b, s' = s <| sm_budget := b |>
                              /\ stream_ok (bump ex o (blen work)) (then_child (s <| sm_budget := b |>))
                  | Err _ => True
                  end) s.
Proof.
  revert ex s. induction work as [|rid work IH]; intros ex s H Hw; simpl.
  - exists (sm_budget s). split; [by destruct s|]. eapply ok_ext; [eapply ok_view; [exact H|by destruct s]|].
    unfold blen. bump_solve.
  - wp_step. wp_step; [|done]. destruct (release_inv _ _ _ Hb) as (r & Hr & Hres).
    destruct (Hw rid r ltac:(by left) Hr) as [Ho Hu].
    pose proof (ok_release_work ex _ id c1 H (then_lookup s) rid r b Hr Ho Hu Hb) as H'.
    rewrite then_budget in H'.
    eapply wp_mono; [apply (IH (bump ex o 1) (s <| sm_budget := b |>) H')|].
    + intros i x Hi Hx. apply (Hw i x); [by right|]. simpl in Hx. rewrite Hres in Hx.
      by apply lookup_delete_Some in Hx as [_ Hx].
    + intros [[]|e] s'; [|done]. intros (b' & -> & H2). exists b'. split; [done|].
      eapply ok_ext; [exact H2|]. rewrite blen_cons. fold o. bump_solve.
Qed.

Lemma reserve_works ex bytes s :
  stream_ok ex (then_child s) -> Forall (fun n => 0 <= n) bytes ->
  wp (reserve_retained o bytes)
     (fun r s' => match r with
                  | Ok l => exists b, s' = s <| sm_budget := b |>
                              /\ stream_ok (bump ex o (- blen bytes)) (then_child (s <| sm_budget := b |>))
                              /\ NoDup l /\ Forall2 (retained_for o (bs_reservations b)) l bytes
                              /\ (forall rid, rid ∈ l -> bs_reservations (sm_budget s) !! rid = None)
                              /\ (forall i r, bs_reservations (sm_budget s) !! i = Some r ->
                                     bs_reservations b !! i = Some r)
                  | Err _ => True
                  end) s.
Proof.
  revert ex s. induction bytes as [|n bytes IH]; intros ex s H Hn; simpl.
  - exists (sm_budget s). split_and!; try done; [by destruct s| |by constructor|set_solver].
    eapply ok_ext; [eapply ok_view; [exact H|by destruct s]|]. unfold blen. bump_solve.
  - apply Forall_cons in Hn as [Hn Hn']. wp_step. wp_step; [|done].
    destruct (ok_reserve ex _ id c1 H (then_lookup s) _ _ _ _ Hn ltac:(by left) Hb) as (H' & Hnew & Hfree & Hkeep).
    rewrite then_budget in H'. wp_step. eapply wp_mono; [apply (IH (bump ex o (-1)) (s <| sm_budget := b |>) H' Hn')|].
    intros [l|e] s'; [|done]. intros (b' & -> & H2 & Hnd & Hin & Hfr & Hk). wp_step. exists b'.
    destruct Hnew as (r & Hr & Hro & Hru & Hrn). split_and!.
    + done.
    + eapply ok_ext; [exact H2|]. rewrite blen_cons. fold o. bump_solve.
    + constructor; [|done]. intros Ha%Hfr. simpl in Ha. congruence.
    + constructor; [|done]. exists r. split_and!; try done. by apply Hk.
    + intros rid [->|Ha]%elem_of_cons; [done|]. apply Hfr in Ha. destruct (bs_reservations (sm_budget s) !! rid) as [y|] eqn:Ey; [|done].
      apply Hkeep in Ey. simpl in Ha. congruence.
    + intros i x Hx. apply Hk. by apply Hkeep.
Qed.
End Arrivals.

Lemma work_bytes_inv o seen n work s m :
  work_bytes o seen n work s = Ok m ->
  forall rid, rid ∈ work -> exists r, rid ∉ seen /\ receive_work rid o s = Ok r.
Proof.
  revert seen n. induction work as [|rid work IH]; intros seen n E i Hi; [by apply not_elem_of_nil in Hi|].
  simpl in E. revert E. destruct_if Es; [done|]. intros E. inv_ok. rewrite bool_decide_eq_false in Es.
  apply elem_of_cons in Hi as [->|Hi]; [eauto|]. destruct (IH _ _ E i Hi) as (x & Hx & ?). exists x. set_solver.
Qed.

Lemma complete_arrival_spec ex s id g flow purpose work bytes :
  stream_ok ex s -> Forall (fun n => 0 <= n) bytes ->
  wp (complete_preallocated_arrival id g flow purpose work bytes)
     (fun r s' => match r with
                  | Ok (retained, actions) =>
                      stream_ok ex s' /\ Forall (granted s') actions
                      /\ exists c, sm_children s' !! id = Some c /\ ch_generation c = g /\ NoDup retained
                           /\ Forall2 (retained_for (child_owner c) (bs_reservations (sm_budget s'))) retained bytes
                  | Err _ => s' = s
                  end) s.
Proof.
  intros H Hn. unfold complete_preallocated_arrival. wp_step.
  apply wp_arrival_child; [|done]. intros c Hop Hc Hg Hph Hf Hpu.
  do 2 wp_step; [|done]. do 2 wp_step; [|done]. do 2 wp_step; [|done]. do 2 wp_step; [|done]. do 2 wp_step; [|done].
  wp_step. do 2 wp_step; [|done].
  pose proof (consume_flow_spent c Hph) as Hs.
  assert (Ho : child_owner (consume_flow c) = child_owner c) by (destruct Hs as (? & ? & _); by apply child_owner_same).
  assert (H1 := ok_release_flow ex s id c H Hc (consume_flow c) flow b Hf Hb Hs ltac:(done)).
  assert (Hsub : forall i x, bs_reservations b !! i = Some x -> bs_reservations (sm_budget s) !! i = Some x).
  { apply release_inv in Hb as (x0 & _ & ->). by intros i y [_ ?]%lookup_delete_Some. }
  wp_step. eapply wp_mono.
  { apply (release_works id (consume_flow c) _ work _ H1). intros rid x Hin Hx. rewrite Ho.
    destruct (work_bytes_inv _ _ _ _ _ _ Hr0 rid Hin) as (x' & _ & Hx'). apply receive_work_inv in Hx' as (? & ? & ?).
    apply Hsub in Hx. simplify_eq. done. }
  intros [[]|e] s2; [|done]. intros (b2 & -> & H2). wp_step. rewrite <- Ho. eapply wp_mono.
  { by apply (reserve_works id (consume_flow c) _ bytes _ H2). }
  intros [retained|e] s3; [|done]. intros (b3 & -> & H3 & Hnd & Hin & _ & _).
  wp_step. eapply wp_child_mut; [done..|]. wp_step.
  apply ok_or_ok_inv, checked_add_Some in Hr1 as [-> _]. apply ok_or_ok_inv in Hr2.
  apply bind_Some in Hr2 as (m & Hm & Hk). unfold checked_sub in Hm. destruct (_ <=? _); [|done].
  injection Hm as <-. apply checked_add_Some in Hk as [-> _].
  set (c2 := set_pre_terminal _ (consume_flow c)).
  assert (H4 : stream_ok ex (set_child id c2 (s <| sm_budget := b3 |>))).
  { replace (set_child id c2 (s <| sm_budget := b3 |>))
      with (set_child id c2 (then_child id (consume_flow c) (s <| sm_budget := b3 |>)))
      by (unfold set_child, then_child; simpl; by rewrite insert_insert_eq).
    eapply ok_ext; [eapply (ok_child _ _ id (consume_flow c) c2 H3 (then_lookup _ _ _)); try done|].
    - unfold c2, flow_ok. simpl. apply Hs.
    - rewrite Ho. unfold c2. simpl. destruct (consume_flow_counts c) as [-> _]. bump_solve. }
  eapply wp_mono; [by apply arbitrate_spec|]. intros [acts|e] s' (H' & A & Hgr); [|done]. wp_step.
  split_and!; [done|by apply Hgr|]. pose proof (arb_children _ _ A id) as Ha. simpl in Ha. rewrite lookup_insert_eq in Ha.
  inversion Ha as [? c3 Hreg E1 E2|]; subst. apply regranted_same in Hreg as (Hsrc & Hgen & _).
  exists c3. split_and!; [done|rewrite Hgen; apply consume_flow_counts|done|].
  rewrite (child_owner_same c2 c3) by done. eapply Forall2_impl; [exact Hin|].
  intros rid n (x & Hx & Hxo & Hxu & Hxn). exists x. split_and!; [by apply (arb_kept _ _ A)|done..].
Qed.

Lemma complete_arrival_keeps id g flow purpose work bytes :
  Forall (fun n => 0 <= n) bytes -> keeps (complete_preallocated_arrival id g flow purpose work bytes).
Proof.
  intros Hn ex s H. eapply wp_mono; [by apply complete_arrival_spec|].
  intros [[l a]|e] s'; [by intros []|]. by intros ->.
Qed.

Lemma chunk_message_arrived_keeps id g flow assembly work n :
  0 <= n -> keeps (chunk_message_arrived id g flow assembly work n).
Proof.
  intros Hn. unfold chunk_message_arrived. apply keeps_bind; [auto with stream|]. intros c.
  apply keeps_bind; [auto with stream|]. intros _.
  apply keeps_bind; [by apply complete_arrival_keeps; constructor|]. intros [l a]. auto with stream.
Qed.

Lemma message_arrived_preallocated_keeps id g flow work n :
  0 <= n -> keeps (message_arrived_preallocated id g flow work n).
Proof.
  intros Hn. unfold message_arrived_preallocated.
  apply keeps_bind; [by apply complete_arrival_keeps; constructor|]. intros [l a]. auto with stream.
Qed.

Lemma batch_arrived_preallocated_keeps id g flow work bytes :
  Forall (fun n => 0 <= n) bytes -> keeps (batch_arrived_preallocated id g flow work bytes).
Proof.
  intros Hn. unfold batch_arrived_preallocated. destruct_if; [|by apply complete_arrival_keeps].
  apply keeps_bind; [auto with stream|]. by intros c ex s H.
Qed.

(** A discarded entry leaves one unit of excess: its reservation is released and
    the counter is not. *)
Lemma discard_spec ex s id g flow purpose work :
  stream_ok ex s ->
  wp (discard_preallocated_arrival id g flow purpose work)
     (fun _ s' =>
        let accepted := is_ok (complete_preallocated_arrival id g flow purpose work [0] s).1 in
        accepted = false /\ s' = s \/ accepted = true /\ stream_ok (bump ex (mkOwner id g) 1) s') s.
Proof.
  intros H. unfold discard_preallocated_arrival. cbv zeta. wp_step.
  assert (Hz : Forall (fun n => 0 <= n) [0]) by (apply Forall_singleton; lia).
  pose proof (complete_arrival_spec ex s id g flow purpose work [0] H Hz) as Hspec. unfold wp in Hspec |- * at 1.
  destruct (complete_preallocated_arrival id g flow purpose work [0] s) as [[[retained acts]|e] s1]; cbn in Hspec |- *;
    [|by left]. revert Hspec.
  intros (H1 & _ & c & Hc & Hg & _ & Hin). wp_step.
  apply Forall2_cons_inv_r in Hin as (rid & l & (r & Hr & Ho & Hu & _) & Hl & ->).
  apply Forall2_nil_inv_r in Hl as ->.
  assert (Hw : work_use (dr_use r)) by (left; done). simpl. wp_step. wp_step.
  - pose proof (ok_release_work ex s1 id c H1 Hc rid r b Hr Ho Hw Hb) as H2.
    assert (child_owner c = mkOwner id g) as Hoc
      by (unfold child_owner; by rewrite Hg, (proj1 (so_flow _ _ _ _ H1 Hc))).
    rewrite Hoc in H2. wp_step. wp_step.
    eapply wp_mono; [by apply (close_then_arbitrate_keeps id g)|]. intros [a|e] s' H3; by right; split.
  - pose proof (release_present _ _ _ Hr) as Hp. by rewrite He in Hp.
Qed.

Section MoreSteps.
Context (ex : BudgetReservationOwner -> Z) (s : StreamConsumerModel) (id : Z) (c : ChildState).
Hypotheses (H : stream_ok ex s) (Hc : sm_children s !! id = Some c).

Lemma ok_reserve_flow c' rid b :
  ch_flow_reservation c = None -> sm_phase s = AgOpen ->
  reserve_owned (child_owner c) FlowPermit MAX_FRAME_SIZE (sm_budget s) = Ok (rid, b) ->
  ch_source c' = ch_source c -> ch_generation c' = ch_generation c -> ch_flow_reservation c' = Some rid ->
  flow_ok c' -> cb_deliveries (ch_completion c') = cb_deliveries (ch_completion c) ->
  stream_ok (bump ex (child_owner c) (cb_pre_terminal_reservations (ch_completion c')
                                      - cb_pre_terminal_reservations (ch_completion c) - 1))
    (set_child id c' (s <| sm_budget := b |>)).
Proof.
  intros Hf Hop Hb Hsrc Hg Hf' Hok Hd.
  pose proof (reserve_ok FlowPermit MAX_FRAME_SIZE _ _ _ _ (so_budget _ _ H) ltac:(done) Hb) as Hbo.
  apply reserve_exact in Hb as (-> & _ & _ & ->); [|apply H|done].
  split; simpl; try apply H; try done.
  - unfold ledger_of. simpl.
    set (c1 := set_pre_terminal (cb_pre_terminal_reservations (ch_completion c)) c').
    match goal with |- Ledger _ (<[?rid := ?r]> _) _ _ _ =>
      assert (L1 := ledger_add_flow _ _ _ _ _ (so_ledger _ _ H) rid r id c c1
                      (fresh_id ex s H) Hc eq_refl eq_refl Hf Hf') end.
    specialize (L1 ltac:(by split_and!)).
    rewrite <- (insert_insert_eq _ id c' c1).
    eapply ledger_ext; [apply (ledger_child _ _ _ _ _ L1 id c1 c')|]; try done.
    + apply lookup_insert_eq.
    + replace (child_owner c1) with (child_owner c) by (symmetry; by apply child_owner_same). bump_solve.
  - intros i x [[<- <-]|[_ Hx]]%lookup_insert_Some; [|by apply (so_generation _ _ H i)].
    rewrite Hg. by apply (so_generation _ _ H id).
  - by apply (fresh_bump _ _ id).
  - congruence.
Qed.

Lemma ok_resize_work rid use bytes b :
  0 <= bytes -> work_use use -> transfer_owned rid (child_owner c) use use bytes (sm_budget s) = Ok b ->
  stream_ok ex (s <| sm_budget := b |>).
Proof.
  intros Hn Hu Hb. unfold transfer_owned in Hb. inv_ok.
  assert (Hbo : budget_ok b).
  { eapply transfer_ok; [apply H|exact Hn| |exact Hb]. simpl. apply implied_authority_le. by apply charged_nonneg. }
  apply transfer_inv in Hb as (r' & n & a & Hr' & Hu' & Hres).
  split; simpl; try apply H; [done|]. unfold ledger_of. simpl. rewrite Hres.
  eapply ledger_resize; [apply H|done|done|]. left. by rewrite Hu'.
Qed.
End MoreSteps.

Lemma chunk_frame_buffered_keeps id g flow assembly n :
  0 <= n -> keeps (chunk_frame_buffered id g flow assembly n).
Proof.
  intros Hn ex s H. unfold chunk_frame_buffered. wp_step.
  apply wp_arrival_child; [|done]. intros c Hop Hc Hg Hph Hf Hpu. do 2 wp_step; [|done]. wp_step. wp_step.
  set (c1 := c <| ch_flow_reservation := None |> <| ch_phase := Draining |>).
  assert (Hs : spent c c1) by (by split_and!).
  (* once the permit is spent, the next one is reserved and the child updated *)
  assert (Hend : forall b n' assembly',
    stream_ok (bump ex (child_owner c) (cb_pre_terminal_reservations (ch_completion c) - n')) (then_child id c1 (s <| sm_budget := b |>)) ->
    wp (next_flow ← on_budget (reserve_owned (child_owner c) FlowPermit MAX_FRAME_SIZE);
        pre_terminal_reservations ← lift (exhausted id pre_terminal_kind (checked_add usize_max n' 1));
        _ ← child_mut id g (fun c => set_pre_terminal pre_terminal_reservations
              (c <| ch_flow_reservation := Some next_flow |>
                 <| ch_flow_purpose := Some (ChunkContinuation assembly') |>));
        mret (M := SM) (assembly', [GrantFlow (ch_source c) (ch_controller_incarnation c) (ch_generation c) next_flow
                       (ChunkContinuation assembly')]))
      (fun r s' => match r with Ok _ => stream_ok ex s' | Err _ => stream_ok ex s end) (s <| sm_budget := b |>)).
  { intros b n' a' H1. do 2 wp_step; [|done]. do 2 wp_step; [|done]. wp_step. eapply wp_child_mut; [done..|]. wp_step.
    apply ok_or_ok_inv, checked_add_Some in Hr0 as [-> _]. set (c2 := set_pre_terminal _ _).
    assert (H2 := ok_reserve_flow _ _ id c1 H1 (then_lookup _ _ _) c2 a b0 eq_refl Hop Hb).
    rewrite then_budget in H2. unfold then_child, set_child in H2. simpl in H2. rewrite insert_insert_eq in H2.
    eapply ok_ext; [apply H2; try done|change (child_owner c1) with (child_owner c); bump_solve].
    unfold flow_ok, c2. simpl. destruct Hph as [->| ->]; eauto. }
  destruct assembly as [assembly|]; simpl.
  - do 2 wp_step; [|done]. do 2 wp_step; [|done].
    assert (H1 := ok_release_flow ex s id c H Hc c1 flow b Hf Hb Hs ltac:(done)). simpl in H1.
    do 2 wp_step; [|done]. apply map_err_ok_inv, owned_inv in Hr0 as (Hx & _).
    assert (H2 := ok_resize_work _ _ c1 H1 assembly ChunkAssembly (Z.max n (dr_bytes r0)) b0).
    specialize (H2 ltac:(pose proof (ok_entries _ (so_budget _ _ H) _ _ Hx); lia) ltac:(right; by left) Hb0).
    do 2 wp_step; [|done]. wp_step. apply Hend. unfold unbalanced, checked_sub in Hr0.
    apply ok_or_ok_inv in Hr0. destruct (1 <=? _); [|done]. injection Hr0 as <-.
    eapply ok_ext; [eapply ok_view; [exact H2|done]|]. bump_solve.
  - do 2 wp_step; [|done]. wp_step.
    destruct (ok_transfer_flow ex s id c H Hc c1 flow ChunkAssembly n b Hf Hn ltac:(right; by left) Hb Hs eq_refl
                ltac:(done)) as (H1 & _).
    apply Hend. eapply ok_ext; [exact H1|]. bump_solve.
Qed.

Lemma find_assigned_id a id g : find_assigned a id = Some g -> src_segment_id (assigned_source g) = id.
Proof.
  unfold find_assigned. destruct a as [x|]; [|done]. simpl. intros E.
  destruct (list_find _ _) as [[i y]|] eqn:Ef; [|done]. injection E as <-.
  by apply list_find_Some in Ef as (_ & ? & _).
Qed.

Lemma message_arrived_emits id g rid n : emits snd (message_arrived id g rid n).
Proof.
  intros ex s H. unfold message_arrived. wp_step.
  apply wp_arrival_child; [|done]. intros c Hop Hc Hg Hph Hf Hpu. do 2 wp_step; [|done]. do 2 wp_step; [|done].
  wp_step. wp_step. set (n' := Z.max n _). assert (0 <= n') by (unfold n', MIN_RETAINED_MESSAGE_RESERVATION; lia).
  destruct (transfer_owned _ _ _ _ _ _) as [b|err] eqn:Et.
  - do 2 wp_step. wp_step. eapply wp_child_mut; [done..|]. wp_step.
    pose proof (consume_flow_spent c Hph) as Hs.
    destruct (ok_transfer_flow ex s id c H Hc (consume_flow c) rid RetainedMessage n' b Hf ltac:(done)
                ltac:(by left) Et Hs (proj1 (consume_flow_counts c)) ltac:(done)) as (H1 & _).
    eapply wp_mono; [by apply arbitrate_emits|]. intros [a|e] s' [H' Ha]; [|done]. wp_step. split; [done|].
    intros ? [= <-]. by apply Ha.
  - apply map_err_ok_inv, owned_inv in Hr0 as (Hx & _). wp_step. wp_step.
    2: { pose proof (release_present _ _ _ Hx) as Hp. by rewrite He in Hp. }
    wp_step. wp_step. wp_step. eapply wp_child_mut; [done..|]. set (c' := _ <| ch_phase := PhFailed |>).
    wp_step. wp_step. wp_step.
    assert (H1 : stream_ok ex (set_child id c' (s <| sm_budget := b |>))).
    { apply ok_or_ok_inv in Hr. unfold checked_sub in Hr. destruct (1 <=? _); [|done]. injection Hr as <-.
      eapply ok_ext; [eapply (ok_release_flow ex s id c H Hc c' rid b Hf Hb); [by split_and!|done]|]. bump_solve. }
    eapply wp_mono; [apply (arbitrate_emits ex)|by intros [a|e] s' [H' _]]. apply pending_ok; [done|].
    intros i source. destruct (match err with Exhausted _ _ => _ | _ => _ end);
      [destruct (find_assigned _ _) as [x|] eqn:Ef|]; simpl.
    + intros [[<- <-]|[_ Hi]]%lookup_insert_Some; [by eapply find_assigned_id|by apply (so_pending _ _ H)].
    + intros [_ Hi]%lookup_delete_Some. by apply (so_pending _ _ H).
    + intros [_ Hi]%lookup_delete_Some. by apply (so_pending _ _ H).
Qed.

Lemma message_arrived_keeps id g rid n : keeps (message_arrived id g rid n).
Proof. eapply emits_keeps, message_arrived_emits. Qed.
#[export] Hint Resolve cancel_receive_work_keeps message_arrived_keeps : stream.

(** * Deliveries *)

Lemma transfer_authority_ok rid o e n bytes a b b' :
  budget_ok b -> 0 <= a <= bytes -> n <> RetainedMessage ->
  transfer_owned_with_authority rid o e n bytes a b = Ok b' ->
  budget_ok b' /\ exists r bytes' a', bs_reservations b !! rid = Some r /\ dr_use r = e /\ dr_owner r = Some o
    /\ bs_reservations b' = <[rid := mkReservation n bytes' a' (Some o)]> (bs_reservations b).
Proof.
  intros Hb Ha Hn E. unfold transfer_owned_with_authority in E. inv_ok. apply owned_inv in Hr as (Hr & Ho & _).
  split.
  - eapply transfer_ok; [done| | |exact E]; [lia|]. simpl. unfold charged_bytes. rewrite decide_False by done. lia.
  - apply transfer_inv in E as (x & n' & a' & Hx & Hu & Hres). rewrite Hr in Hx. injection Hx as <-.
    rewrite Ho in Hres. eauto 10.
Qed.

Lemma transfer_meta_ok rid bytes b b' :
  budget_ok b -> 0 <= bytes ->
  transfer rid DeliveredPositionMetadata DeliveredPositionMetadata bytes b = Ok b' ->
  budget_ok b' /\ exists r bytes' a', bs_reservations b !! rid = Some r /\ dr_use r = DeliveredPositionMetadata
    /\ bs_reservations b' = <[rid := mkReservation DeliveredPositionMetadata bytes' a' (dr_owner r)]> (bs_reservations b).
Proof.
  intros Hb Hn E. split; [|by apply transfer_inv in E].
  eapply transfer_ok; [done|exact Hn| |exact E]. simpl. apply implied_authority_le. by apply charged_nonneg.
Qed.

(** The budget of [issue_delivery]: the message becomes a lease and the delivered
    positions are charged, first provisionally and then exactly. *)
Lemma deliver_ledger ex s id c c' d rid pl pa pm l a m metadata b2 b4 :
  stream_ok ex s -> sm_children s !! id = Some c ->
  0 <= pa <= pl -> 0 <= pm -> 0 <= a <= l -> 0 <= m ->
  (budget ← transfer_owned_with_authority rid (child_owner c) RetainedMessage DeliveryLease pl pa (sm_budget s);
   match sm_delivered_positions_reservation s with
   | Some held => budget ← transfer held DeliveredPositionMetadata DeliveredPositionMetadata pm budget;
                  Ok (held, budget)
   | None => reserve DeliveredPositionMetadata pm budget
   end) = Ok (metadata, b2) ->
  (budget ← transfer_owned_with_authority rid (child_owner c) DeliveryLease DeliveryLease l a b2;
   transfer metadata DeliveredPositionMetadata DeliveredPositionMetadata m budget) = Ok b4 ->
  ld_owner d = child_owner c -> ld_reservation d = rid ->
  ch_source c' = ch_source c -> ch_generation c' = ch_generation c -> flow_ok c' ->
  ch_flow_reservation c' = ch_flow_reservation c ->
  cb_deliveries (ch_completion c') = cb_deliveries (ch_completion c) + 1 ->
  cb_pre_terminal_reservations (ch_completion c') = cb_pre_terminal_reservations (ch_completion c) - 1 ->
  budget_ok b4 /\ Ledger ex (bs_reservations b4) (<[id := c']> (sm_children s))
                    (<[sm_next_dequeue_sequence s := d]> (sm_live_deliveries s)) (Some metadata).
Proof.
  intros H Hc Hpa Hpm Ha Hm E1 E2 Hdo Hdr Hsrc Hg Hok Hf Hd Hp. inv_ok.
  destruct (transfer_authority_ok _ _ _ DeliveryLease _ _ _ _ (so_budget _ _ H) Hpa ltac:(done) Hr0)
    as (B1 & x & n1 & a1 & Hx & Hxu & Hxo & Hres1).
  assert (Hq : sm_live_deliveries s !! sm_next_dequeue_sequence s = None).
  { apply eq_None_not_Some. intros [d' Hd']. apply (so_sequence _ _ H) in Hd'. lia. }
  assert (L1 : Ledger ex (bs_reservations r0) (<[id := c']> (sm_children s))
                 (<[sm_next_dequeue_sequence s := d]> (sm_live_deliveries s)) (sm_delivered_positions_reservation s)).
  { rewrite Hres1. eapply ledger_deliver; try done; [apply H|by left]. }
  assert (budget_ok b2 /\ Ledger ex (bs_reservations b2) (<[id := c']> (sm_children s))
            (<[sm_next_dequeue_sequence s := d]> (sm_live_deliveries s)) (Some metadata)) as [B2 L2].
  { destruct (sm_delivered_positions_reservation s) as [held|].
    - apply bind_ok_inv in E1 as (y & E1 & Ey). injection Ey as -> ->.
      destruct (transfer_meta_ok _ _ _ _ B1 Hpm E1) as (B2 & z & n2 & a2 & Hz & Hzu & Hres2).
      split; [done|]. rewrite Hres2. eapply ledger_resize; [exact L1|exact Hz|done|left; by rewrite Hzu].
    - split; [exact (reserve_ok _ _ _ _ _ _ B1 Hpm E1)|]. apply reserve_exact in E1 as (-> & _ & _ & ->); [|done..].
      simpl. eapply ledger_add_meta; [exact L1|done| |done|done]. apply eq_None_not_Some. intros [z Hz].
      apply (ok_entries _ B1) in Hz. lia. }
  destruct (transfer_authority_ok _ _ _ DeliveryLease _ _ _ _ B2 Ha ltac:(done) Hr) as (B3 & y & n3 & a3 & Hy & Hyu & Hyo & Hres3).
  destruct (transfer_meta_ok _ _ _ _ B3 Hm E2) as (B4 & z & n4 & a4 & Hz & Hzu & Hres4).
  split; [done|]. rewrite Hres4. eapply ledger_resize; [|exact Hz|done|left; by rewrite Hzu].
  rewrite Hres3. eapply ledger_resize; [exact L2|exact Hy|by rewrite Hyo|left; by rewrite Hyu].
Qed.

Lemma issue_delivery_keeps id g i rid : keeps (issue_delivery id g i rid).
Proof.
  intros ex s H. unfold issue_delivery. do 2 wp_step; [|done]. do 2 wp_step; [|done]. do 2 wp_step; [|done].
  do 2 wp_step. do 3 (do 2 wp_step; [|done]). do 2 wp_step. do 2 wp_step; [|done].
  destruct (prospective_position_heap_bytes _ _ _ _) as [vheap pheap] eqn:Eh. cbv zeta.
  do 5 (do 2 wp_step; [|done]). do 2 wp_step. do 2 wp_step; [|done]. do 2 wp_step. do 2 wp_step; [|done].
  destruct r9 as [metadata b2]. do 2 wp_step. do 6 (do 2 wp_step; [|done]).
  wp_step. eapply wp_child_mut; [done..|]. do 3 wp_step.
  apply position_heap_nonneg in Eh as [Hv Hp].
  apply map_err_ok_inv in Hr2, Hr3, Hr9, Hr11, Hr15. apply ok_or_ok_inv in Hr4, Hr5, Hr6, Hr7, Hr8, Hr12, Hr13, Hr14.
  apply smi_len_nonneg in Hr3. apply pv_len_nonneg in Hr11. apply owned_inv in Hr2 as (Hx & Hxo & Hxu).
  pose proof (ok_entries _ (so_budget _ _ H) _ _ Hx) as [Hbytes _].
  apply checked_add_Some in Hr4 as [-> _]. apply checked_add_Some in Hr6 as [-> _].
  apply checked_add_Some in Hr8 as [-> _]. apply checked_add_Some in Hr13 as [-> _].
  apply checked_sum_Some in Hr5 as ->. apply checked_sum_Some in Hr7 as ->.
  apply checked_sum_Some in Hr12 as ->. apply checked_sum_Some in Hr14 as ->.
  unfold exhausted in Hr0. apply ok_or_ok_inv, checked_add_Some in Hr0 as [-> _].
  unfold unbalanced, checked_sub in Hr1. apply ok_or_ok_inv in Hr1. destruct (1 <=? _); [|done]. injection Hr1 as <-.
  pose proof (blen_nonneg (src_topic (ch_source c))). pose proof (blen_nonneg (ordinary_message_id_bytes i)).
  assert (Hk : 0 <= DELIVERY_AUTHORITY_OVERHEAD /\ 0 <= DELIVERY_ACK_GENERATION_OVERHEAD /\ 0 <= MAX_STREAM_POSITION_SIZE)
    by done.
  set (c' := if (match _ with Some _ => _ | None => _ end : bool) then _ else _).
  assert (Hc' : ch_source c' = ch_source c /\ ch_generation c' = ch_generation c /\ ch_phase c' = ch_phase c
            /\ ch_flow_reservation c' = ch_flow_reservation c
            /\ cb_deliveries (ch_completion c') = cb_deliveries (ch_completion c) + 1
            /\ cb_pre_terminal_reservations (ch_completion c') = cb_pre_terminal_reservations (ch_completion c) - 1)
    by (subst c'; destruct_if; done).
  clearbody c'. destruct Hc' as (C1 & C2 & C3 & C4 & C5 & C6).
  assert (Hok : flow_ok c').
  { pose proof (proj2 (so_flow _ _ _ _ H Hc)) as Hf. unfold flow_ok in *. by rewrite C3, C4. }
  edestruct (deliver_ledger ex s id c c' (mkLive (child_owner c) rid i) rid) as [B L];
    [done|done| | | | |exact Hr9|exact Hr15|done..|]; try (simpl; lia).
  split; simpl; try apply H; try done.
  - intros j x [[<- <-]|[_ Hx']]%lookup_insert_Some; [|by apply (so_generation _ _ H j)].
    rewrite C2. by apply (so_generation _ _ H id).
  - intros q d [[<- <-]|[_ Hq]]%lookup_insert_Some; [lia|]. apply (so_sequence _ _ H) in Hq. lia.
  - congruence.
Qed.

Lemma resolve_delivery_sequence_spec ex q s :
  stream_ok ex s ->
  wp (resolve_delivery_sequence q)
     (fun r s' => stream_ok ex s' /\ (forall l, r = Ok l -> Forall (allowed s') l) /\ still s s') s.
Proof.
  intros H. unfold resolve_delivery_sequence. do 2 wp_step; [|done]. do 2 wp_step; [|done].
  do 2 wp_step; [|done]. do 2 wp_step; [|done]. do 2 wp_step; [|done]. do 2 wp_step; [|done].
  apply ok_or_ok_inv in Hr. apply map_err_ok_inv, owned_inv in Hr1 as (Hx & Hxo & Hxu).
  do 2 wp_step.
  2: { pose proof (release_present _ _ _ Hx) as Hp. by rewrite He in Hp. }
  do 2 wp_step. wp_step. eapply wp_child_mut; [done..|].
  set (s1 := set_child _ _ _). assert (S1 : still s s1).
  { etrans; [|eapply (still_child (s <| sm_budget := b |> <| sm_live_deliveries := delete q (sm_live_deliveries s) |>)); done].
    apply still_children; try done; [|eauto 10]. simpl. apply release_inv in Hb as (x & _ & ->).
    intros i y Hy Hyu. rewrite lookup_delete_ne; [done|]. intros <-. congruence. }
  enough (H1 : stream_ok ex s1).
  { eapply wp_mono; [by apply (close_then_arbitrate_spec ex)|]. intros res s' (H' & Hl & S2).
    split_and!; [done|done|by etrans]. }
  pose proof (release_ok _ _ _ (so_budget _ _ H) Hb) as Hbo. apply release_inv in Hb as (x & _ & Hres).
  unfold unbalanced, checked_sub in Hr0. apply ok_or_ok_inv in Hr0. destruct (1 <=? _); [|done]. injection Hr0 as <-.
  assert (Ho : ld_owner r = child_owner c).
  { unfold child_owner. rewrite Hgen, (proj1 (so_flow _ _ _ _ H Hc)). by destruct (ld_owner r). }
  subst s1. split; simpl; try apply H; try done.
  - unfold ledger_of. simpl. rewrite Hres. eapply ledger_resolve; try done; [apply H|].
    by apply (so_flow _ _ _ _ H Hc).
  - intros j y [[<- <-]|[_ Hy]]%lookup_insert_Some; [|by apply (so_generation _ _ H j)].
    by apply (so_generation _ _ H (ow_segment_id (ld_owner r)) c).
  - intros q' d [_ Hq]%lookup_delete_Some. by apply (so_sequence _ _ H q' d).
  - congruence.
Qed.

Lemma resolve_delivery_sequence_keeps q : keeps (resolve_delivery_sequence q).
Proof. intros ex s H. eapply wp_mono; [by apply resolve_delivery_sequence_spec|]. by intros r s' [? _]. Qed.
#[export] Hint Resolve issue_delivery_keeps resolve_delivery_sequence_keeps : stream.

Lemma resolve_delivery_keeps t : keeps (resolve_delivery t).
Proof. unfold resolve_delivery. auto 10 with stream. Qed.

(** * Acknowledgements *)

Lemma set_counter_keeps ex s id c c' :
  stream_ok ex s -> sm_children s !! id = Some c -> same_child c c' -> ch_phase c' = ch_phase c ->
  cb_pre_terminal_reservations (ch_completion c') = cb_pre_terminal_reservations (ch_completion c) ->
  stream_ok ex (set_child id c' s).
Proof.
  intros H Hc Hs Hph Hp. pose proof Hs as (_ & _ & Hf & _). eapply ok_child_still; [done..| |done|].
  - pose proof (proj2 (so_flow _ _ _ _ H Hc)) as Hok. unfold flow_ok in *. by rewrite Hph, Hf.
  - intros Hn. rewrite Hph. by apply (proj2 (so_fenced _ _ H Hn) id).
Qed.

Lemma begin_component_keeps t component : keeps (begin_component t component).
Proof.
  intros ex s H. unfold begin_component, begin_transactional_ack, begin_ack.
  destruct t; do 3 (do 2 wp_step; [|done]); wp_step; by eapply set_counter_keeps.
Qed.

Lemma settle_component_keeps t component : keeps (settle_component t component).
Proof.
  intros ex s H. unfold settle_component, settle_transactional_ack, settle_ack.
  destruct t; do 3 (do 2 wp_step; [|done]); do 2 wp_step; apply close_if_drained_keeps;
    by eapply set_counter_keeps.
Qed.
#[export] Hint Resolve begin_component_keeps settle_component_keeps resolve_delivery_keeps : stream.

(** The hooks of the acknowledgement counters. *)
Lemma ack_hooks_keep id g :
  keeps (begin_ack id g) /\ keeps (begin_transactional_ack id g)
  /\ keeps (settle_ack id g) /\ keeps (settle_transactional_ack id g).
Proof.
  split_and!; intros ex s H; unfold begin_ack, begin_transactional_ack, settle_ack, settle_transactional_ack;
    do 3 (do 2 wp_step; [|done]); [by wp_step; eapply set_counter_keeps..| |];
    do 2 wp_step; apply close_if_drained_keeps; by eapply set_counter_keeps.
Qed.

(** The hooks of the reservation counter move the excess by one: they count a
    reservation that the budget does not hold. *)
Lemma set_reservations_bump ex s id g c n :
  stream_ok ex s -> sm_children s !! id = Some c -> ch_generation c = g ->
  stream_ok (bump ex (mkOwner id g) (n - cb_pre_terminal_reservations (ch_completion c)))
    (set_child id (set_pre_terminal n c) s).
Proof.
  intros H Hc Hg. assert (child_owner c = mkOwner id g) as <-
    by (unfold child_owner; by rewrite Hg, (proj1 (so_flow _ _ _ _ H Hc))).
  apply (ok_child ex s id c (set_pre_terminal n c)); [done|done|by split_and!|exact (proj2 (so_flow _ _ _ _ H Hc))|].
  intros Hn. exact (proj2 (so_fenced _ _ H Hn) id c Hc).
Qed.

Lemma begin_reservation_spec ex s id g :
  stream_ok ex s ->
  wp (begin_pre_terminal_reservation id g)
     (fun r s' => stream_ok (bump ex (mkOwner id g) (if is_ok r then 1 else 0)) s') s.
Proof.
  intros H. assert (H0 : stream_ok (bump ex (mkOwner id g) 0) s) by (eapply ok_ext; [done|bump_solve]).
  unfold begin_pre_terminal_reservation. do 3 (do 2 wp_step; [|done]). wp_step.
  eapply ok_ext; [by eapply set_reservations_bump|]. simpl.
  unfold exhausted, checked_add in Hr. destruct (_ <=? _); [|done]. injection Hr as <-. bump_solve.
Qed.

Lemma settle_reservation_spec ex s id g :
  stream_ok ex s ->
  wp (settle_pre_terminal_reservation id g)
     (fun r s' => stream_ok (bump ex (mkOwner id g) (if is_ok r then -1 else 0)) s') s.
Proof.
  intros H. assert (H0 : stream_ok (bump ex (mkOwner id g) 0) s) by (eapply ok_ext; [done|bump_solve]).
  unfold settle_pre_terminal_reservation. do 3 (do 2 wp_step; [|done]). do 2 wp_step.
  assert (H1 : stream_ok (bump ex (mkOwner id g) (-1)) (set_child id (set_pre_terminal r c) s)).
  { eapply ok_ext; [by eapply set_reservations_bump|].
    unfold unbalanced, checked_sub in Hr. destruct (1 <=? _); [|done]. injection Hr as <-. bump_solve. }
  pose proof (close_if_drained_keeps id g _ _ H1) as Hk. unfold wp in Hk |- *.
  assert (is_ok (close_if_drained id g (set_child id (set_pre_terminal r c) s)).1 = true) as ->; [|done].
  assert (Hw : wp (close_if_drained id g) (fun r _ => is_ok r = true) (set_child id (set_pre_terminal r c) s));
    [|exact Hw].
  unfold close_if_drained. wp_step.
  apply (wp_known_child id g (set_pre_terminal r c)); [apply lookup_insert_eq|done|].
  destruct_if E; by repeat wp_step.
Qed.

Lemma keeps_modify f : (forall s, stream_view (f s) = stream_view s) -> keeps (modify f).
Proof. intros Hf ex s H. wp_step. by eapply ok_view. Qed.

Lemma insert_pending_view t id p n s :
  stream_view ((insert_pending t id p s) <| sm_next_acknowledgement_operation := n |>) = stream_view s.
Proof. by destruct t. Qed.

Lemma remove_pending_view t id s : stream_view (remove_pending t id s) = stream_view s.
Proof. by destruct t. Qed.

Lemma admit_acknowledgement_keeps components deliveries t :
  keeps (admit_acknowledgement components deliveries t).
Proof.
  unfold admit_acknowledgement. do 4 (apply keeps_bind; [auto with stream|intros ?]).
  apply keeps_bind; [auto with stream|]. intros n. apply keeps_atomically.
  apply keeps_bind; [auto with stream|]. intros _.
  apply keeps_bind; [|auto with stream]. apply keeps_modify. intros s. apply insert_pending_view.
Qed.
#[export] Hint Resolve admit_acknowledgement_keeps : stream.

Lemma position_components_keeps v b : keeps (position_components v b).
Proof. unfold position_components. auto 10 with stream. Qed.
#[export] Hint Resolve position_components_keeps : stream.

Lemma admit_individual_keeps t b : keeps (admit_individual t b).
Proof. unfold admit_individual. auto with stream. Qed.

Lemma admit_components_keeps v a b : keeps (admit_components v a b).
Proof. unfold admit_components. auto 10 with stream. Qed.
#[export] Hint Resolve admit_components_keeps admit_individual_keeps : stream.

Lemma admit_cumulative_keeps t : keeps (admit_cumulative_acknowledgement t).
Proof. unfold admit_cumulative_acknowledgement. auto 10 with stream. Qed.

Lemma admit_cumulative_transactional_keeps t : keeps (admit_cumulative_transactional_acknowledgement t).
Proof. unfold admit_cumulative_transactional_acknowledgement. auto 10 with stream. Qed.

Lemma admit_batch_keeps l : keeps (admit_batch_acknowledgement l).
Proof.
  unfold admit_batch_acknowledgement. apply keeps_bind; [auto with stream|]. intros [grouped deliveries].
  auto with stream.
Qed.

Lemma confirm_component_ok ex sources s component :
  stream_ok ex s -> stream_ok ex (confirm_component sources s component).
Proof.
  intros H. unfold confirm_component. destruct_if; [|done]. destruct (ac_cumulative_position component); [|done].
  destruct (sm_children s !! _) as [c|] eqn:Hc; [|done]. destruct_if; [|done]. by eapply set_counter_keeps.
Qed.

Lemma confirm_components_keeps sources l : keeps (modify (fun s => foldl (confirm_component sources) s l)).
Proof.
  intros ex s H. wp_step. revert s H. induction l as [|component l IH]; intros s H; [done|].
  simpl. apply IH. by apply confirm_component_ok.
Qed.

Lemma settle_acknowledgement_keeps a sources : keeps (settle_acknowledgement a sources).
Proof.
  unfold settle_acknowledgement. apply keeps_bind; [auto with stream|]. intros pending. apply keeps_atomically.
  apply keeps_bind; [apply keeps_modify; intros; apply remove_pending_view|]. intros _.
  apply keeps_bind; [unfold settle_acknowledgement_counters; auto with stream|]. intros acts.
  apply keeps_bind; [apply confirm_components_keeps|].
  intros _. apply keeps_bind; [|auto with stream]. apply keeps_collect. intros d. destruct_if; auto with stream.
Qed.

Lemma cancel_transactional_keeps a : keeps (cancel_transactional_acknowledgement a).
Proof.
  unfold cancel_transactional_acknowledgement. apply keeps_bind; [auto with stream|]. intros pending.
  apply keeps_atomically. apply keeps_bind; [apply keeps_modify; intros; apply remove_pending_view|]. intros _.
  unfold settle_acknowledgement_counters. auto with stream.
Qed.

Lemma settle_transactional_keeps a outcome : keeps (settle_transactional_acknowledgement a outcome).
Proof.
  unfold settle_transactional_acknowledgement. apply keeps_bind; [auto with stream|]. intros pending.
  apply keeps_atomically. apply keeps_bind; [apply keeps_modify; intros; apply remove_pending_view|]. intros _.
  apply keeps_bind; [unfold settle_acknowledgement_counters; auto with stream|]. intros acts.
  apply keeps_bind; [destruct outcome; auto with stream|auto with stream].
Qed.
#[export] Hint Resolve admit_cumulative_keeps admit_cumulative_transactional_keeps admit_batch_keeps
  settle_acknowledgement_keeps cancel_transactional_keeps settle_transactional_keeps : stream.

(** * Assignments *)

Lemma btree_collect_inv {K A} `{Countable K} (l : list (K * A)) k a :
  btree_collect l !! k = Some a -> (k, a) ∈ l.
Proof.
  unfold btree_collect. assert (Hm : forall (m : gmap K A),
    foldl (fun m '(k, a) => <[k := a]> m) m l !! k = Some a -> m !! k = Some a \/ (k, a) ∈ l).
  { induction l as [|[k' a'] l IH]; intros m Hk; simpl in Hk; [by left|].
    destruct (IH _ Hk) as [[[-> ->]|[_ Hk']]%lookup_insert_Some|Hin]; [right; by left|by left|right; by right]. }
  intros Hk. destruct (Hm _ Hk) as [Hk'|]; [|done]. by rewrite lookup_empty in Hk'.
Qed.

Lemma ownership_id a id source ranges : ownership a !! id = Some (source, ranges) -> src_segment_id source = id.
Proof.
  intros Hi%btree_collect_inv. apply list_elem_of_fmap in Hi as (g & [= -> -> ->] & _). done.
Qed.

Lemma retire_child_same w c c' acts :
  retire_child w c = (c', acts) -> flow_ok c ->
  same_child c c' /\ flow_ok c'
  /\ cb_pre_terminal_reservations (ch_completion c') = cb_pre_terminal_reservations (ch_completion c).
Proof.
  intros E Hok. unfold retire_child in E.
  destruct (match ch_phase c with PhOpening => _ | _ => _ end) as [[c1 stop] l] eqn:E1.
  assert (same_child c c1 /\ flow_ok c1
    /\ cb_pre_terminal_reservations (ch_completion c1) = cb_pre_terminal_reservations (ch_completion c))
    as (H1 & H2 & H3).
  { clear E. destruct (ch_phase c) eqn:Ep; injection E1 as <- <- <-; split_and!; try done;
      unfold flow_ok in *; simpl; by rewrite ?Ep. }
  revert E. destruct_if; [|destruct stop]; intros [= <- <-]; done.
Qed.

(** The staged collections balance. *)
Record staged_ok (ex : BudgetReservationOwner -> Z) (s : StreamConsumerModel) (g : Staged) : Prop := {
  sgo_ledger : Ledger ex (bs_reservations (sm_budget s)) (sg_children g) (sm_live_deliveries s)
                 (sm_delivered_positions_reservation s);
  sgo_next : sm_next_child_generation s <= sg_next_child_generation g;
  sgo_generation : forall id c, sg_children g !! id = Some c -> ch_generation c < sg_next_child_generation g;
  sgo_pending : forall id source, sg_pending_ownership g !! id = Some source -> src_segment_id source = id;
}.

Lemma retire_step_ok ex s r b g p : staged_ok ex s g -> staged_ok ex s (retire_step r b g p).
Proof.
  intros H. destruct p as [lost source]. unfold retire_step.
  assert (H1 : staged_ok ex s (g <| sg_pending_ownership := delete lost (sg_pending_ownership g) |>)).
  { split; simpl; try apply H. intros id x [_ Hx]%lookup_delete_Some. by apply (sgo_pending _ _ _ H). }
  simpl. destruct (sg_children g !! lost) as [c|] eqn:Hc; [|done]. case_decide; [|done].
  destruct (retire_child _ c) as [c' acts] eqn:Er.
  destruct (retire_child_same _ _ _ _ Er) as (Hs & Hok & Hp); [by apply (lg_child _ _ _ _ _ (sgo_ledger _ _ _ H) lost)|].
  destruct Hs as (Hsrc & Hg & Hf & Hd). split; simpl; try apply H1.
  - eapply ledger_ext; [eapply (ledger_child _ _ _ _ _ (sgo_ledger _ _ _ H) lost c c'); try done|].
    + by apply child_owner_same.
    + rewrite Hp. bump_solve.
  - intros id x [[<- <-]|[_ Hx]]%lookup_insert_Some; [|by apply (sgo_generation _ _ _ H id)].
    rewrite Hg. by apply (sgo_generation _ _ _ H lost).
Qed.

Lemma gain_step_ok ex s i n r cs before g p g' :
  stream_ok ex s -> staged_ok ex s g -> src_segment_id p.2.1 = p.1 ->
  gain_step i n r cs before g p = Ok g' -> staged_ok ex s g'.
Proof.
  intros H Hg Hp. destruct p as [id [source ranges]]. simpl in Hp. unfold gain_step.
  destruct_if; [intros E; by inv_ok|]. destruct_if; [intros E; by inv_ok|]. destruct_if Ec.
  - intros E. inv_ok. split; simpl; try apply Hg.
    intros j x [[<- <-]|[_ Hx]]%lookup_insert_Some; [done|by apply (sgo_pending _ _ _ Hg)].
  - rewrite bool_decide_eq_false, <- eq_None_not_Some in Ec. intros E. inv_ok.
    apply checked_add_Some in Hr as [-> _]. split; simpl.
    + eapply ledger_open; try done; [apply Hg|]. apply (so_fresh _ _ H). simpl. apply Hg.
    + pose proof (sgo_next _ _ _ Hg). lia.
    + intros j x [[<- <-]|[_ Hx]]%lookup_insert_Some; simpl; [lia|]. apply (sgo_generation _ _ _ Hg) in Hx. lia.
    + apply Hg.
Qed.

Lemma gain_loop_ok ex s i n r cs before l g g' :
  stream_ok ex s -> staged_ok ex s g -> Forall (fun p => src_segment_id p.2.1 = p.1) l ->
  gain_loop i n r cs before l g = Ok g' -> staged_ok ex s g'.
Proof.
  intros H. revert g. induction l as [|p l IH]; intros g Hg Hl E; simpl in E; inv_ok; [done|].
  apply Forall_cons in Hl as [Hp Hl]. eapply IH; [|done..]. by eapply gain_step_ok.
Qed.

Lemma reconcile_assignment_keeps a r : keeps (reconcile_assignment a r).
Proof.
  intros ex s H. unfold reconcile_assignment. do 3 (do 2 wp_step; [|done]). do 2 wp_step. destruct_if; [done|].
  do 2 wp_step; [|done]. cbv zeta. do 2 wp_step. do 2 wp_step. do 2 wp_step; [|done]. do 2 wp_step. do 2 wp_step.
  do 2 wp_step; [|done]. do 3 wp_step.
  match type of Hr3 with gain_loop _ _ _ _ _ _ ?g = _ => assert (Hg : staged_ok ex s g) end.
  { assert (H0 : staged_ok ex s (mkStaged (sm_children s) (sm_pending_ownership s) (sm_ownership_history s)
                                   (sm_next_child_generation s) (sm_completed s) [])) by (split; simpl; [apply H|lia|apply H..]).
    revert H0. generalize (mkStaged (sm_children s) (sm_pending_ownership s) (sm_ownership_history s)
                             (sm_next_child_generation s) (sm_completed s) []).
    generalize (btree_items (retiring r (from_option ownership ∅ (sm_assignment s)) (ownership a) (sm_children s))).
    intros l. induction l as [|p l IH]; intros g Hg; [done|]. simpl. apply IH. by apply retire_step_ok. }
  apply (gain_loop_ok ex s) in Hr3; [|done..|].
  - split; simpl; try apply H; try apply Hr3.
    + intros o Ho. apply (so_fresh _ _ H). pose proof (sgo_next _ _ _ Hr3). lia.
    + congruence.
    + congruence.
  - apply Forall_forall. intros [id [source ranges]] Hin%elem_of_btree_items. simpl. by eapply ownership_id.
Qed.
#[export] Hint Resolve reconcile_assignment_keeps : stream.

Lemma apply_assignment_for_keeps i a : keeps (apply_assignment_for i a).
Proof. unfold apply_assignment_for. auto 10 with stream. Qed.

Lemma apply_control_plane_for_keeps i d a : keeps (apply_control_plane_for i d a).
Proof.
  unfold apply_control_plane_for. do 4 (apply keeps_bind; [auto with stream|intros ?]). apply keeps_atomically.
  apply keeps_bind; [by apply keeps_modify|auto 10 with stream].
Qed.
#[export] Hint Resolve apply_assignment_for_keeps apply_control_plane_for_keeps : stream.

Lemma apply_assignment_keeps a : keeps (apply_assignment a).
Proof. unfold apply_assignment. auto with stream. Qed.

Lemma apply_control_plane_keeps d a : keeps (apply_control_plane d a).
Proof. unfold apply_control_plane. auto with stream. Qed.
#[export] Hint Resolve apply_assignment_keeps apply_control_plane_keeps : stream.

Lemma apply_reconnect_baseline_keeps i d a : keeps (apply_reconnect_baseline i d a).
Proof. unfold apply_reconnect_baseline. auto 10 with stream. Qed.

(** * Seek *)

(** A child of [source] that holds nothing but its permit. *)
Definition seekable (s : StreamConsumerModel) (source : SegmentSource) : Prop :=
  exists c, sm_children s !! src_segment_id source = Some c /\ ch_source c = source /\ handoff_settled c = true
    /\ forall rid r, bs_reservations (sm_budget s) !! rid = Some r -> dr_owner r = Some (child_owner c) ->
         ch_flow_reservation c = Some rid.

Lemma check_seek_source_inv s source : check_seek_source s source = Ok tt -> seekable s source.
Proof.
  unfold check_seek_source. destruct (snap_segments _ !! _); [|done]. destruct_if; [done|].
  destruct (sm_children s !! _) as [c|] eqn:Hc; [|done]. destruct_if Es; [done|].
  rewrite negb_false_iff, bool_decide_eq_true in Es. destruct_if E; [done|]. intros _.
  apply orb_false_iff in E as [E _]. apply orb_false_iff in E as [E1 E2]. rewrite negb_false_iff in *.
  exists c. split_and!; try done. intros rid r Hr Ho.
  assert (Hin : (rid, r) ∈ reservations_of (child_owner c) (sm_budget s))
    by (unfold reservations_of; apply list_elem_of_filter; by rewrite elem_of_btree_items).
  unfold child_has_only_seek_flow_reservation in E2. destruct (ch_flow_reservation c) as [x|];
    destruct (reservations_of _ _) as [|[y ?] [|]]; try done; [|by apply not_elem_of_nil in Hin].
  apply list_elem_of_singleton in Hin as [= <- <-]. apply andb_true_iff in E2 as [E2 _]. f_equal. lia.
Qed.

(** Restarting a child at another position. *)
Lemma seek_ok ex s id c c' b :
  stream_ok ex s -> sm_children s !! id = Some c -> handoff_settled c = true ->
  (forall rid r, bs_reservations (sm_budget s) !! rid = Some r -> dr_owner r = Some (child_owner c) ->
     ch_flow_reservation c = Some rid) ->
  sm_phase s = AgOpen -> budget_ok b ->
  bs_reservations b = match ch_flow_reservation c with
                      | Some rid => delete rid (bs_reservations (sm_budget s))
                      | None => bs_reservations (sm_budget s)
                      end ->
  c' = c <| ch_flow_reservation := None |> <| ch_flow_purpose := None |>
         <| ch_completion := barrier_default |> <| ch_phase := Seeking |> ->
  stream_ok ex (set_child id c' (s <| sm_budget := b |>)).
Proof.
  intros H Hc Hs Honly Hop Hb Hres ->. set (c' := _ <| ch_phase := Seeking |>).
  pose proof (pre_count_only _ _ _ _ _ (so_ledger _ _ H) id c Hc Honly) as Hpre.
  unfold handoff_settled in Hs. apply andb_true_iff in Hs as [Hs Hs4]. apply andb_true_iff in Hs as [Hs Hs3].
  apply andb_true_iff in Hs as [Hs1 Hs2]. apply Z.eqb_eq in Hs1, Hs4.
  pose proof (lg_pre _ _ _ _ _ (so_ledger _ _ H) id c Hc) as Hp. rewrite Hpre, Hs4 in Hp.
  split; simpl; try apply H; try done; [|
    by intros i x [[<- <-]|[_ Hx]]%lookup_insert_Some; [apply (so_generation _ _ H id c)|apply (so_generation _ _ H i)]
    |congruence].
  unfold ledger_of. simpl. rewrite Hres. unfold has_flow in *. destruct (ch_flow_reservation c) as [rid|] eqn:Ef.
  - set (c1 := c <| ch_flow_reservation := None |> <| ch_phase := Draining |>).
    assert (L1 := ledger_remove_flow _ _ _ _ _ (so_ledger _ _ H) rid id c c1 Hc Ef eq_refl ltac:(by split_and!)).
    rewrite <- (insert_insert_eq _ id c' c1).
    eapply ledger_ext; [apply (ledger_child _ _ _ _ _ L1 id c1 c')|]; try done; [apply lookup_insert_eq|].
    change (child_owner c1) with (child_owner c). simpl. rewrite Hs4.
    rewrite bool_decide_eq_true_2 in * by eauto. bump_solve.
  - eapply ledger_ext; [apply (ledger_child _ _ _ _ _ (so_ledger _ _ H) id c c')|]; try done.
    simpl. rewrite Hs4. bump_solve.
Qed.

Lemma seek_child_spec ex s p (rest : list (SegmentSource * StreamMessageId)) :
  stream_ok ex s -> sm_phase s = AgOpen -> seekable s p.1 ->
  Forall (fun q => seekable s q.1 /\ q.1 <> p.1) rest ->
  wp (seek_child p) (fun r s' => match r with
                                 | Ok _ => stream_ok ex s' /\ sm_phase s' = AgOpen
                                           /\ Forall (fun q => seekable s' q.1) rest
                                 | Err _ => True
                                 end) s.
Proof.
  intros H Hop (c & Hc & Hs & Hset & Honly) Hrest. destruct p as [source i]. simpl in *. unfold seek_child.
  wp_step. wp_step; [|done]. apply ok_or_ok_inv in Hr. rewrite Hc in Hr. injection Hr as <-.
  (* what is left of the others, whatever becomes of this child *)
  assert (Hothers : forall b c', child_owner c' = child_owner c ->
    (forall rid r, bs_reservations b !! rid = Some r -> bs_reservations (sm_budget s) !! rid = Some r) ->
    Forall (fun q => seekable (set_child (src_segment_id source) c' (s <| sm_budget := b |>)) q.1) rest).
  { intros b c' _ Hsub. eapply Forall_impl; [done|]. intros q [(x & Hx & Hxs & Hxset & Hxonly) Hne].
    exists x. simpl. rewrite lookup_insert_ne; [split_and!; eauto|]. congruence. }
  set (c' := _ <| ch_phase := Seeking |>). wp_step.
  destruct (ch_flow_reservation c) as [rid|] eqn:Ef.
  - do 2 wp_step; [|done]. do 2 wp_step; [|done]. do 4 wp_step.
    pose proof (release_ok _ _ _ (so_budget _ _ H) Hb) as Hbo. apply release_inv in Hb as (x & _ & Hres).
    split_and!; [|done|].
    + eapply ok_view; [eapply (seek_ok ex s _ c c' b)|]; try done; by rewrite Ef.
    + eapply Forall_impl; [apply (Hothers b c'); [done|]|by intros q].
      rewrite Hres. by intros j y [_ ?]%lookup_delete_Some.
  - do 4 wp_step. split_and!; [|done|].
    + eapply ok_view; [eapply (seek_ok ex s _ c c' (sm_budget s)); try done; [by rewrite Ef|apply H|by rewrite Ef]|done].
    + eapply Forall_impl; [by apply (Hothers (sm_budget s) c')|by intros q].
Qed.

Lemma seek_children_spec ex (l : list (SegmentSource * StreamMessageId)) s :
  stream_ok ex s -> sm_phase s = AgOpen -> NoDup l.*1 -> Forall (fun q => seekable s q.1) l ->
  wp (collect_actions seek_child l)
     (fun r s' => match r with Ok _ => stream_ok ex s' | Err _ => True end) s.
Proof.
  revert s. induction l as [|p l IH]; intros s H Hop Hnd Hl; [done|].
  apply Forall_cons in Hl as [Hp Hl]. csimpl in Hnd. apply NoDup_cons in Hnd as [Hni Hnd]. simpl. wp_step.
  eapply wp_mono; [apply (seek_child_spec ex s p l H Hop Hp)|].
  - rewrite Forall_forall in *. intros q Hq. split; [auto|]. intros E. destruct Hni. rewrite <- E.
    apply list_elem_of_fmap. eauto.
  - intros [a|e] s1; [|done]. intros (H1 & Hop1 & Hl1). wp_step.
    eapply wp_mono; [by apply IH|]. by intros [b|e] s2.
Qed.

Lemma try_each_inv {E A} (f : A -> result E unit) l : try_each f l = Ok tt -> Forall (fun x => f x = Ok tt) l.
Proof.
  induction l as [|x l IH]; intros H; [constructor|]. simpl in H. inv_ok. destruct r. constructor; [done|]. auto.
Qed.

Lemma begin_seek_keeps v : keeps (begin_seek v).
Proof.
  intros ex s H. unfold begin_seek. do 2 wp_step; [|done]. do 2 wp_step. do 2 wp_step; [|done].
  do 2 wp_step; [|done]. cbv zeta. do 2 wp_step; [|done]. do 2 wp_step. do 2 wp_step; [|done]. do 2 wp_step; [|done].
  unfold next_authority. wp_step. do 2 wp_step; [|done]. do 2 wp_step; [|done]. wp_step. wp_step. wp_step.
  destruct r0. apply try_each_inv in Hr0. apply orb_false_iff in Hguard0 as [_ Hsub].
  rewrite negb_false_iff, bool_decide_eq_true in Hsub.
  eapply wp_mono; [apply (seek_children_spec ex); [done|done|apply NoDup_btree_items|]|].
  - apply Forall_forall. intros [source i] Hin%elem_of_btree_items. simpl. apply check_seek_source_inv.
    rewrite Forall_forall in Hr0. apply Hr0. apply elem_of_btree_elems, Hsub. by eapply elem_of_dom_2.
  - intros [acts|e] s1 H1; [|done]. do 3 wp_step. apply (clear_delivered_spec ex); [by eapply ok_view|].
    intros s2 H2 _. by wp_step.
Qed.

(** * Closing a child *)

(** The child is gone, with everything it held. *)
Definition without_child (id : Z) (c : ChildState) (b : ReceiverBudgetState) (s : StreamConsumerModel)
    : StreamConsumerModel :=
  (s <| sm_budget := b |>)
    <| sm_live_deliveries := filter (fun '(_, d) => ld_owner d <> child_owner c) (sm_live_deliveries s) |>
    <| sm_children := delete id (sm_children s) |>
    <| sm_pending_ownership := delete id (sm_pending_ownership s) |>.

Lemma without_child_ok ex s id c b released :
  stream_ok ex s -> sm_children s !! id = Some c -> release_owner (child_owner c) (sm_budget s) = (released, b) ->
  stream_ok ex (without_child id c b s).
Proof.
  intros H Hc Hb. destruct (release_owner_exact _ _ _ _ (so_budget _ _ H) Hb) as (Hbo & _ & Hres).
  split; simpl; try apply H; try done.
  - eapply ledger_close; [apply H|done|done].
  - intros i x [_ Hx]%lookup_delete_Some. by apply (so_generation _ _ H i).
  - intros q d [Hq _]%map_lookup_filter_Some. by apply (so_sequence _ _ H q d).
  - intros i x [_ Hx]%lookup_delete_Some. by apply (so_pending _ _ H i).
  - intros Hn. destruct (so_fenced _ _ H Hn) as [Hm Hall]. split; [done|].
    intros i x [_ Hx]%lookup_delete_Some. eauto.
  - intros E. by rewrite (so_closed _ _ H E), delete_empty.
Qed.

Lemma reopen_ok ex s id source incarnation shared :
  stream_ok ex s -> sm_phase s = AgOpen -> sm_children s !! id = None -> src_segment_id source = id ->
  stream_ok ex (s <| sm_next_child_generation := sm_next_child_generation s + 1 |>
                  <| sm_children := <[id := opening_child source incarnation (sm_next_child_generation s) shared]>
                                      (sm_children s) |>).
Proof.
  intros H Hop Hc Hs. split; simpl; try apply H.
  - eapply ledger_open; try done; [apply H|]. apply (so_fresh _ _ H). simpl. lia.
  - intros i x [[<- <-]|[_ Hx]]%lookup_insert_Some; simpl; [lia|]. apply (so_generation _ _ H) in Hx. lia.
  - intros o Ho. apply (so_fresh _ _ H). lia.
  - congruence.
  - congruence.
Qed.

Lemma child_closed_emits id g : emits itself (child_closed id g).
Proof.
  intros ex s H. unfold child_closed. wp_step. unfold require_callback_phase. do 2 wp_step. wp_step; [|done].
  do 2 wp_step; [|done]. do 2 wp_step; [|done]. cbv zeta. do 2 wp_step; [|done]. do 2 wp_step; [|done].
  apply (inj Ok) in Hb. pose proof (without_child_ok ex s id c b a H Hc ltac:(done)) as H1. do 3 wp_step.
  match goal with |- wp ?m ?Q _ => change (wp m Q (without_child id c b s)) end.
  assert (Hend : forall s2 actions, Forall plain actions -> stream_ok ex s2 ->
    wp (drained ← gets (fun s => bool_decide (sm_phase s = AgClosing) && bool_decide (sm_children s = ∅));
        if drained : bool then
          _ ← modify (fun s => s <| sm_phase := AgClosed |> <| sm_assignment := None |>);
          _ ← clear_delivered_positions;
          mret actions
        else
          delivered ← gets (fun s => sm_delivered_positions s !! ch_source c);
          _ ← match delivered with
              | None => mret tt
              | Some _ =>
                  _ ← modify (fun s => s <| sm_delivered_positions := delete (ch_source c) (sm_delivered_positions s) |>);
                  empty ← gets (fun s => bool_decide (sm_delivered_positions s = ∅));
                  if empty : bool then clear_delivered_positions else refresh_delivered_position
              end;
          if bool_decide (a = []) then mret actions
          else
            granted ← arbitrate_flow;
            mret (M := SM) (actions ++ granted))
       (fun r s' => stream_ok ex s' /\ forall a, r = Ok a -> Forall (allowed s') (itself a)) s2).
  { intros s2 actions Hpl H2.
    assert (Hret : forall s3, stream_ok ex s3 -> wp (mret (M := SM) actions)
      (fun r s' => stream_ok ex s' /\ forall a, r = Ok a -> Forall (allowed s') (itself a)) s3).
    { intros s3 H3. wp_step. split; [done|]. intros ? [= <-]. by apply plain_allowed. }
    do 2 wp_step. destruct_if Ed.
    - apply andb_true_iff in Ed as [E1 E2]. rewrite bool_decide_eq_true in *. do 3 wp_step.
      apply (clear_delivered_spec ex); [|by intros s3 H3 _; apply Hret].
      split; simpl; try apply H2; [|done]. intros _. apply (so_fenced _ _ H2). congruence.
    - do 3 wp_step. eapply wp_mono with (Q := fun _ => stream_ok ex).
      + destruct (sm_delivered_positions s2 !! ch_source c); [|done]. do 4 wp_step.
        destruct_if; [apply clear_delivered_keeps|apply refresh_delivered_keeps]; by eapply ok_view.
      + intros [[]|e] s3 H3; [|done]. destruct_if; [by apply Hret|].
        by apply (arbitrate_last actions). }
  destruct r as [[[source next] shared]|]; [|wp_step; by apply Hend; [constructor|]].
  unfold wp at 1. simpl. apply Hend; [by repeat constructor|]. unfold replacement in Hr.
  destruct (if _ && _ then _ else _) as [src|] eqn:Ep; [|done]. inv_ok. simplify_eq. apply checked_add_Some in Hr0 as [-> _].
  destruct (bool_decide (sm_phase s = AgOpen) && _) eqn:Eo; [|done]. apply andb_true_iff in Eo as [Eo _].
  rewrite bool_decide_eq_true in Eo.
  eapply ok_view; [eapply (reopen_ok ex (without_child id c b s) id src _ _)|]; try done.
  - apply lookup_delete_eq.
  - by apply (so_pending _ _ H).
Qed.

Lemma child_closed_keeps id g : keeps (child_closed id g).
Proof. eapply emits_keeps, child_closed_emits. Qed.
#[export] Hint Resolve begin_seek_keeps child_closed_keeps apply_reconnect_baseline_keeps : stream.
