(* ===== verification/StreamSpec.v ===== *)
(** * Executions of a stream consumer

    [StreamConsumerModel] is driven by an engine that may call its public methods
    at any time, in any order and with any arguments.  [stream_op] lists the
    calls that change the model, the hooks of the completion counters included, [exec] performs one, [stream_run] performs a sequence of them.  The
    theorems hold after every such sequence: the budget is exactly what the
    children, the deliveries and the positions hold; closing releases all of it;
    permits follow the ordering barrier; tokens and acknowledgement authorities
    are good for one use; and a discarded entry keeps its child from completing
    the segment. *)

From S2P Require Import Prelude Ids Frame SegmentTopic Assignment DagWatch DagSession OrdinaryId StreamPosition ReceiverBudget StreamModel StreamOps StreamReceive StreamAcks StreamLedger StreamInv StreamKeeps.

(** * Calls *)

Inductive stream_op :=
| OpAssignment (incarnation : Z) (assignment : ConsumerAssignment)
| OpControlPlane (incarnation : Z) (dag : DagSnapshot) (assignment : ConsumerAssignment)
| OpBeginIncarnation (incarnation : Z)
| OpReconnect (incarnation : Z) (dag : DagSnapshot) (assignment : ConsumerAssignment)
| OpRequireResync
| OpClose
| OpBeginSeek (vector : PositionVector)
| OpSeekCompleted (segment_id generation : Z)
| OpChildOpened (segment_id generation : Z)
| OpChildOpenBusy (segment_id generation : Z)
| OpChildClosed (segment_id generation : Z)
| OpObserveTerminal (segment_id generation : Z)
| OpCompleteSegment (segment_id generation : Z)
| OpReserveDecompression (segment_id generation bytes : Z)
| OpReserveBatchAssembly (segment_id generation bytes : Z)
| OpCancelWork (segment_id generation reservation : Z)
| OpChunkBuffered (segment_id generation flow : Z) (assembly : option Z) (bytes : Z)
| OpChunkArrived (segment_id generation flow assembly : Z) (work : list Z) (bytes : Z)
| OpMessagePreallocated (segment_id generation flow : Z) (work : list Z) (bytes : Z)
| OpBatchPreallocated (segment_id generation flow : Z) (work bytes : list Z)
| OpDiscard (segment_id generation flow : Z) (purpose : FlowPurpose) (work : list Z)
| OpMessageArrived (segment_id generation reservation bytes : Z)
| OpIssue (segment_id generation : Z) (message_id : StreamMessageId) (reservation : Z)
| OpResolve (token : DeliveryToken)
| OpAdmitIndividual (token : DeliveryToken) (transactional : bool)
| OpAdmitCumulative (token : DeliveryToken) (transactional : bool)
| OpAdmitPosition (positions : PositionVector) (transactional : bool)
| OpAdmitBatch (tokens : list DeliveryToken)
| OpSettle (authority : AcknowledgementAuthority) (confirmed : gset SegmentSource)
| OpCancel (authority : AcknowledgementAuthority) (transactional : bool)
| OpSettleTransactional (authority : AcknowledgementAuthority) (outcome : TransactionAcknowledgementOutcome)
| OpBeginAck (segment_id generation : Z) (transactional : bool)
| OpSettleAck (segment_id generation : Z) (transactional : bool)
| OpBeginReservation (segment_id generation : Z)
| OpSettleReservation (segment_id generation : Z).

(** The actions of a call that returns something else beside them, or none. *)
Definition actions_of {A} (m : SM (A * list StreamConsumerAction)) : SM (list StreamConsumerAction) :=
  p ← m; mret p.2.
Definition no_actions {A} (m : SM A) : SM (list StreamConsumerAction) := _ ← m; mret [].

Definition exec (o : stream_op) : SM (list StreamConsumerAction) :=
  match o with
  | OpAssignment i a => apply_assignment_for i a
  | OpControlPlane i d a => apply_control_plane_for i d a
  | OpBeginIncarnation i => begin_controller_incarnation i
  | OpReconnect i d a => apply_reconnect_baseline i d a
  | OpRequireResync => require_resync
  | OpClose => close
  | OpBeginSeek v => begin_seek v
  | OpSeekCompleted id g => seek_completed id g
  | OpChildOpened id g => child_opened id g
  | OpChildOpenBusy id g => no_actions (child_open_busy id g)
  | OpChildClosed id g => child_closed id g
  | OpObserveTerminal id g => observe_terminal id g
  | OpCompleteSegment id g => complete_segment id g
  | OpReserveDecompression id g n => no_actions (reserve_decompression id g n)
  | OpReserveBatchAssembly id g n => no_actions (reserve_batch_assembly id g n)
  | OpCancelWork id g rid => cancel_receive_work id g rid
  | OpChunkBuffered id g flow assembly n => actions_of (chunk_frame_buffered id g flow assembly n)
  | OpChunkArrived id g flow assembly work n => actions_of (chunk_message_arrived id g flow assembly work n)
  | OpMessagePreallocated id g flow work n => actions_of (message_arrived_preallocated id g flow work n)
  | OpBatchPreallocated id g flow work bytes => actions_of (batch_arrived_preallocated id g flow work bytes)
  | OpDiscard id g flow purpose work => discard_preallocated_arrival id g flow purpose work
  | OpMessageArrived id g rid n => actions_of (message_arrived id g rid n)
  | OpIssue id g i rid => no_actions (issue_delivery id g i rid)
  | OpResolve t => resolve_delivery t
  | OpAdmitIndividual t false => no_actions (admit_individual_acknowledgement t)
  | OpAdmitIndividual t true => no_actions (admit_individual_transactional_acknowledgement t)
  | OpAdmitCumulative t false => no_actions (admit_cumulative_acknowledgement t)
  | OpAdmitCumulative t true => no_actions (admit_cumulative_transactional_acknowledgement t)
  | OpAdmitPosition v false => no_actions (admit_position_acknowledgement v)
  | OpAdmitPosition v true => no_actions (admit_position_transactional_acknowledgement v)
  | OpAdmitBatch l => no_actions (admit_batch_acknowledgement l)
  | OpSettle a sources => settle_acknowledgement a sources
  | OpCancel a false => cancel_acknowledgement a
  | OpCancel a true => cancel_transactional_acknowledgement a
  | OpSettleTransactional a outcome => settle_transactional_acknowledgement a outcome
  | OpBeginAck id g false => no_actions (begin_ack id g)
  | OpBeginAck id g true => no_actions (begin_transactional_ack id g)
  | OpSettleAck id g false => settle_ack id g
  | OpSettleAck id g true => settle_transactional_ack id g
  | OpBeginReservation id g => no_actions (begin_pre_terminal_reservation id g)
  | OpSettleReservation id g => settle_pre_terminal_reservation id g
  end.

(** Sizes are [usize]. *)
Definition op_ok (o : stream_op) : Prop :=
  match o with
  | OpReserveDecompression _ _ n | OpReserveBatchAssembly _ _ n | OpChunkBuffered _ _ _ _ n
  | OpChunkArrived _ _ _ _ _ n | OpMessagePreallocated _ _ _ _ n | OpMessageArrived _ _ _ n => 0 <= n
  | OpBatchPreallocated _ _ _ _ bytes => Forall (fun n => 0 <= n) bytes
  | _ => True
  end.

(** The calls after which the counter of a child and the reservations it holds
    drift apart: a discarded entry releases its reservation and stays counted, and
    the hooks of the counter count what the budget does not hold. *)
Definition is_drift (o : stream_op) : Prop :=
  match o with OpDiscard _ _ _ _ _ | OpBeginReservation _ _ | OpSettleReservation _ _ => True | _ => False end.

#[global] Instance is_drift_dec o : Decision (is_drift o).
Proof. destruct o; simpl; apply _. Defined.

Definition step_of (s : StreamConsumerModel) (o : stream_op) : StreamConsumerModel := (exec o s).2.
Definition stream_run (ops : list stream_op) (s : StreamConsumerModel) : StreamConsumerModel := foldl step_of s ops.

(** By how much a call in state [s] moves the counter of the children of [w]
    against the reservations they hold.  A discarded entry counts from the moment
    its arrival is accepted. *)
Definition drift (s : StreamConsumerModel) (o : stream_op) (w : BudgetReservationOwner) : Z :=
  match o with
  | OpDiscard id g flow purpose work =>
      if decide (w = mkOwner id g)
      then if is_ok (complete_preallocated_arrival id g flow purpose work [0] s).1 then 1 else 0 else 0
  | OpBeginReservation id g => if decide (w = mkOwner id g) then if is_ok (exec o s).1 then 1 else 0 else 0
  | OpSettleReservation id g => if decide (w = mkOwner id g) then if is_ok (exec o s).1 then -1 else 0 else 0
  | _ => 0
  end.

(** The same over a run: the entries discarded, plus the reservations begun by
    hand, less those settled by hand. *)
Fixpoint run_drift (ops : list stream_op) (s : StreamConsumerModel) (w : BudgetReservationOwner) : Z :=
  match ops with
  | [] => 0
  | o :: rest => drift s o w + run_drift rest (step_of s o) w
  end.

(** * The invariant of every execution *)

Lemma keeps_actions_of {A} (m : SM (A * list StreamConsumerAction)) : keeps m -> keeps (actions_of m).
Proof. intros Hm. apply keeps_bind; [done|]. intros p. apply keeps_ret. Qed.

Lemma keeps_no_actions {A} (m : SM A) : keeps m -> keeps (no_actions m).
Proof. intros Hm. apply keeps_bind; [done|]. intros p. apply keeps_ret. Qed.
#[export] Hint Resolve keeps_actions_of keeps_no_actions : stream.
#[export] Hint Resolve begin_controller_incarnation_keeps require_resync_keeps close_keeps seek_completed_keeps
  child_opened_keeps child_open_busy_keeps complete_segment_keeps observe_terminal_keeps cancel_receive_work_keeps
  chunk_message_arrived_keeps message_arrived_preallocated_keeps batch_arrived_preallocated_keeps
  chunk_frame_buffered_keeps message_arrived_keeps issue_delivery_keeps : stream.

Lemma no_actions_state {A} (m : SM A) s : (no_actions m s).2 = (m s).2.
Proof. unfold no_actions, mbind, SM_bind. by destruct (m s) as [[] ?]. Qed.

Lemma no_actions_ok {A} (m : SM A) s : is_ok (no_actions m s).1 = is_ok (m s).1.
Proof. unfold no_actions, mbind, SM_bind. by destruct (m s) as [[] ?]. Qed.

Lemma exec_keeps o : op_ok o -> ~ is_drift o -> keeps (exec o).
Proof.
  intros Ho Hd. destruct o as
    [| | | | | | | | | | | | | | | | | | | |? ? ? ? ?| | | |? [] |? [] |? [] | | |? []| |id g []|id g []| | ];
    simpl in *; auto with stream; try (destruct (ack_hooks_keep id g) as (? & ? & ? & ?); by auto with stream);
    try (apply keeps_no_actions; apply reserve_receive_work_keeps; [done|unfold work_use; auto]).
  all: try by destruct Hd.
  all: unfold admit_individual_acknowledgement, admit_individual_transactional_acknowledgement,
    admit_position_acknowledgement, admit_position_transactional_acknowledgement, cancel_acknowledgement;
    auto with stream.
Qed.

(** One call moves the excess by its drift. *)
Lemma step_ok ex s o :
  op_ok o -> stream_ok ex s -> stream_ok (fun w => ex w + drift s o w) (step_of s o).
Proof.
  intros Ho H. destruct (decide (is_drift o)) as [Hd|Hd].
  - destruct o; try done; unfold step_of; simpl.
    + pose proof (discard_spec ex s segment_id generation flow purpose work H) as Hs. unfold wp in Hs.
      destruct (is_ok (complete_preallocated_arrival segment_id generation flow purpose work [0] s).1) eqn:Ec.
      * destruct Hs as [[Hc _]|[_ Hs]]; [congruence|]. eapply ok_ext; [exact Hs|]. bump_solve.
      * destruct Hs as [[_ ->]|[Hc _]]; [|congruence]. eapply ok_ext; [exact H|]. bump_solve.
    + rewrite no_actions_state, no_actions_ok. eapply ok_ext; [by apply (begin_reservation_spec ex s segment_id generation)|].
      destruct (is_ok _); bump_solve.
    + eapply ok_ext; [by apply (settle_reservation_spec ex s segment_id generation)|]. destruct (is_ok _); bump_solve.
  - eapply ok_ext; [by apply exec_keeps|]. intros w. destruct o; simpl in *; try lia; by destruct Hd.
Qed.

Lemma run_ok ops s ex :
  Forall op_ok ops -> stream_ok ex s -> stream_ok (fun w => ex w + run_drift ops s w) (stream_run ops s).
Proof.
  intros Hops. revert s ex. induction Hops as [|o ops Ho _ IH]; intros s ex H; simpl.
  { eapply ok_ext; [exact H|]. intros w. lia. }
  eapply ok_ext; [apply IH, (step_ok ex s o Ho H)|]. intros w. simpl. lia.
Qed.

Definition no_excess : BudgetReservationOwner -> Z := fun _ => 0.

(** A model as [new] makes it. *)
Definition new_model (s : StreamConsumerModel) : Prop :=
  exists parent instance incarnation mode dag bytes budget,
    bytes <= usize_max /\ ReceiverBudget_bytes bytes = Ok budget
    /\ model_new parent instance incarnation mode dag budget = Ok s.

Lemma new_ok s : new_model s -> stream_ok no_excess s.
Proof.
  intros (parent & instance & incarnation & mode & dag & bytes & budget & Hb & Hbudget & E).
  unfold model_new in E. inv_ok. split; simpl; try done. by eapply budget_new_ok.
Qed.

(** A state that some sequence of calls on a new model leads to. *)
Definition reachable (ops : list stream_op) (s : StreamConsumerModel) : Prop :=
  Forall op_ok ops /\ exists s0, new_model s0 /\ s = stream_run ops s0.

Lemma new_run_ok ops s0 :
  new_model s0 -> Forall op_ok ops -> stream_ok (run_drift ops s0) (stream_run ops s0).
Proof. intros H0 Hops. by apply (run_ok ops s0 no_excess Hops (new_ok _ H0)). Qed.

Lemma reachable_ok ops s : reachable ops s -> exists ex, stream_ok ex s.
Proof. intros (Hops & s0 & H0 & ->). eauto using new_run_ok. Qed.

(** * The ledger *)

Lemma no_drift ops s w : Forall (fun o => ~ is_drift o) ops -> run_drift ops s w = 0.
Proof.
  intros Hd. revert s. induction Hd as [|o ops Ho _ IH]; intros s; simpl; [done|]. rewrite IH.
  destruct o; simpl in *; try done; by destruct Ho.
Qed.

(** Nothing is settled by hand for the child. *)
Definition keeps_reservations (id g : Z) (o : stream_op) : Prop :=
  match o with OpSettleReservation id' g' => ~ (id' = id /\ g' = g) | _ => True end.

Lemma drift_nonneg ops s id g :
  Forall (keeps_reservations id g) ops -> 0 <= run_drift ops s (mkOwner id g).
Proof.
  intros Hk. revert s. induction Hk as [|o ops Ho _ IH]; intros s; simpl; [done|]. specialize (IH (step_of s o)).
  assert (0 <= drift s o (mkOwner id g)); [|lia]. destruct o; simpl in *; repeat case_decide; repeat case_match;
    try lia. simplify_eq. by destruct Ho.
Qed.

Lemma run_drift_app ops later s w :
  run_drift (ops ++ later) s w = run_drift ops s w + run_drift later (stream_run ops s) w.
Proof. revert s. induction ops as [|o ops IH]; intros s; simpl; [done|]. rewrite IH. simpl. lia. Qed.

Lemma map_sum_count {A} (P : A -> Prop) `{!forall a, Decision (P a)} (m : gmap Z A) :
  map_sum (fun a => if decide (P a) then 1 else 0) m = Z.of_nat (size (filter (fun '(_, a) => P a) m)).
Proof.
  induction m as [|i x m Hi IH] using map_ind; [by rewrite map_sum_empty, map_filter_empty|].
  rewrite map_sum_insert, IH by done. destruct (decide (P x)) as [Hp|Hp].
  - rewrite map_filter_insert_True by done. rewrite map_size_insert_None; [lia|].
    apply map_lookup_filter_None. by left.
  - rewrite map_filter_insert_False by done. by rewrite delete_id.
Qed.

(** The reservations of a child that are not leases of its deliveries. *)
Definition working_reservations (c : ChildState) (s : StreamConsumerModel) : gmap Z DataReservation :=
  filter (fun '(_, r) => dr_owner r = Some (child_owner c) /\ dr_use r <> DeliveryLease)
    (bs_reservations (sm_budget s)).

(** The deliveries of a child that the application holds. *)
Definition deliveries_of (c : ChildState) (s : StreamConsumerModel) : gmap Z LiveDelivery :=
  filter (fun '(_, d) => ld_owner d = child_owner c) (sm_live_deliveries s).

(** C18: the receiver budget of a stream consumer is an exact ledger.  After any
    sequence of calls on a new model the bytes used are the sum over the
    reservations and leave the headroom; each reservation is held by the delivered
    positions or by a child of the generation that made it, a permit being the one
    its child names and a lease belonging to exactly one live delivery; a child
    counts exactly the deliveries the application holds, and its counter of
    reservations is exactly the other reservations it holds, plus the entries it
    discarded and the reservations begun by hand, less those settled by hand; so
    exactly the former when none of these three calls was made. *)
Theorem stream_ledger_exact ops s0 :
  new_model s0 -> Forall op_ok ops ->
  let s := stream_run ops s0 in
  bs_data_used (sm_budget s) = map_sum dr_bytes (bs_reservations (sm_budget s))
  /\ bs_data_used (sm_budget s) <= data_limit (bs_budget (sm_budget s))
  /\ (forall rid r, bs_reservations (sm_budget s) !! rid = Some r ->
        held_by (sm_children s) (sm_delivered_positions_reservation s) rid r
        /\ (dr_use r = DeliveryLease ->
             exists! q, exists d, sm_live_deliveries s !! q = Some d /\ ld_reservation d = rid))
  /\ (forall id c, sm_children s !! id = Some c ->
        src_segment_id (ch_source c) = id
        /\ cb_deliveries (ch_completion c) = Z.of_nat (size (deliveries_of c s))
        /\ cb_pre_terminal_reservations (ch_completion c)
           = Z.of_nat (size (working_reservations c s)) + run_drift ops s0 (child_owner c)
        /\ (Forall (fun o => ~ is_drift o) ops ->
             cb_pre_terminal_reservations (ch_completion c) = Z.of_nat (size (working_reservations c s)))).
Proof.
  intros Hn Hops s. pose proof (new_run_ok ops s0 Hn Hops) as H. fold s in H. pose proof (so_ledger _ _ H) as L.
  split_and!; [apply H|apply (budget_sums _ (so_budget _ _ H))| |].
  - intros rid r Hrid. split; [by apply (lg_held _ _ _ _ _ L)|]. intros Hu.
    destruct (lg_lease _ _ _ _ _ L _ _ Hrid Hu) as (q & d & Hq & Hd). exists q. split; [eauto|].
    intros q' (d' & Hq' & Hd'). eapply (lg_once _ _ _ _ _ L); [done..|congruence].
  - intros id c Hc. pose proof (lg_pre _ _ _ _ _ L _ _ Hc) as Hp. pose proof (lg_deliveries _ _ _ _ _ L _ _ Hc) as Hd.
    unfold pre_count, pre_weight in Hp. rewrite map_sum_count in Hp. unfold live_count, live_weight in Hd.
    rewrite map_sum_count in Hd. fold (working_reservations c s) in Hp.
    split_and!; [by apply (lg_child _ _ _ _ _ L)|done|lia|]. intros Hds. rewrite (no_drift ops s0) in Hp by done. lia.
Qed.

(** * Closing *)

(** The engine reports, one by one, that the children are closed. *)
Definition report_closed (l : list (Z * Z)) : list stream_op := (fun p => OpChildClosed p.1 p.2) <$> l.

(** Every call of the sequence succeeds. *)
Fixpoint all_ok (ops : list stream_op) (s : StreamConsumerModel) : bool :=
  match ops with
  | [] => true
  | o :: rest => is_ok (exec o s).1 && all_ok rest (step_of s o)
  end.

Lemma clear_nothing s : sm_delivered_positions_reservation s = None ->
  clear_delivered_positions s
  = (Ok tt, s <| sm_delivered_positions := ∅ |> <| sm_delivered_position := empty_position (snap_epoch (sm_dag s)) |>).
Proof.
  intros E. unfold clear_delivered_positions, mbind, SM_bind, gets, modify, mret, SM_ret. by rewrite E.
Qed.

Lemma close_child ex s id c :
  stream_ok ex s -> sm_phase s = AgClosing -> sm_delivered_positions s = ∅ -> sm_children s !! id = Some c ->
  is_ok (exec (OpChildClosed id (ch_generation c)) s).1 = true
  /\ let s' := step_of s (OpChildClosed id (ch_generation c)) in
     stream_ok ex s' /\ sm_delivered_positions s' = ∅ /\ sm_children s' = delete id (sm_children s)
     /\ sm_phase s' = if decide (delete id (sm_children s) = ∅) then AgClosed else AgClosing.
Proof.
  intros H Hph Hd Hc. destruct (so_fenced _ _ H) as [Hm Hcl]; [congruence|].
  assert (Hk : stream_ok ex (step_of s (OpChildClosed id (ch_generation c)))) by (by apply child_closed_keeps).
  revert Hk. unfold step_of. simpl. unfold child_closed, mbind, SM_bind, require_callback_phase, gets.
  unfold mbind, SM_bind, throw_if, lift, query at 1. simpl. rewrite Hph. simpl.
  rewrite (proj2 (child_inv id (ch_generation c) s c)) by done. rewrite (Hcl _ _ Hc). simpl.
  unfold query, replacement. rewrite Hph. simpl. unfold on_budget. simpl. rewrite Hph.
  rewrite (bool_decide_eq_true_2 (AgClosing = AgClosing)) by done. simpl.
  destruct (decide (delete id (sm_children s) = ∅)) as [E|E].
  - rewrite (bool_decide_eq_true_2 _ E). rewrite clear_nothing by done. done.
  - rewrite (bool_decide_eq_false_2 _ E). simpl. rewrite Hd, lookup_empty. simpl.
    destruct (bool_decide (owned_ids _ _ = [])); simpl; [done|].
    unfold arbitrate_flow. simpl. rewrite Hph. simpl. done.
Qed.

Lemma close_children ex l s :
  stream_ok ex s -> sm_phase s = (if decide (sm_children s = ∅) then AgClosed else AgClosing) ->
  sm_delivered_positions s = ∅ -> l ≡ₚ map_to_list (ch_generation <$> sm_children s) ->
  all_ok (report_closed l) s = true
  /\ stream_ok ex (stream_run (report_closed l) s) /\ sm_phase (stream_run (report_closed l) s) = AgClosed.
Proof.
  revert s. induction l as [|[id g] l IH]; intros s H Hph Hd Hl.
  { apply Permutation_nil_l in Hl. symmetry in Hl. apply map_to_list_empty_iff, fmap_empty_iff in Hl. rewrite decide_True in Hph by done. done. }
  assert (Hin : (id, g) ∈ map_to_list (ch_generation <$> sm_children s)) by (rewrite <- Hl; by left).
  apply elem_of_map_to_list, lookup_fmap_Some in Hin as (c & <- & Hc).
  rewrite decide_False in Hph by (intros E; by rewrite E in Hc).
  destruct (close_child ex s id c H Hph Hd Hc) as (Hok & H' & Hd' & Hch & Hph').
  assert (Hl' : l ≡ₚ map_to_list (ch_generation <$> delete id (sm_children s))).
  { rewrite fmap_delete. apply (Permutation_cons_inv (a := (id, ch_generation c))). rewrite Hl.
    rewrite <- map_to_list_insert by apply lookup_delete_eq. rewrite insert_delete_id; [done|].
    by rewrite lookup_fmap, Hc. }
  rewrite <- Hch in Hph', Hl'. destruct (IH _ H' Hph' Hd' Hl') as (Hall & Hrun).
  split; [|exact Hrun]. exact (proj2 (andb_true_iff _ _) (conj Hok Hall)).
Qed.

Lemma closed_empty ex s :
  stream_ok ex s -> sm_phase s = AgClosed ->
  sm_children s = ∅ /\ sm_live_deliveries s = ∅ /\ bs_reservations (sm_budget s) = ∅ /\ bs_data_used (sm_budget s) = 0.
Proof.
  intros H E. pose proof (so_closed _ _ H E) as Hc. destruct (so_fenced _ _ H) as [Hm _]; [congruence|].
  destruct (ledger_empty _ _ _ _ _ (so_ledger _ _ H) Hc Hm) as [Hr Hl].
  split_and!; [done..|]. by rewrite (ok_used _ (so_budget _ _ H)), Hr.
Qed.

Lemma next_authority_ok s :
  sm_generation s < u64_max -> sm_delivery_epoch s < u64_max ->
  next_authority s = (Ok (sm_generation s + 1, sm_delivery_epoch s + 1), s).
Proof.
  intros Hg He. unfold next_authority, query, mbind, SM_bind, checked_add.
  by rewrite !(proj2 (Z.leb_le _ _)) by lia.
Qed.

Lemma close_spec ex s :
  stream_ok ex s -> sm_phase s = AgOpen \/ sm_phase s = ResyncRequired ->
  sm_generation s < u64_max -> sm_delivery_epoch s < u64_max ->
  is_ok (exec OpClose s).1 = true
  /\ let s' := step_of s OpClose in
     stream_ok ex s' /\ sm_delivered_positions s' = ∅
     /\ sm_children s' = (fun c => c <| ch_phase := PhClosing |>) <$> sm_children s
     /\ sm_phase s' = if decide (sm_children s' = ∅) then AgClosed else AgClosing.
Proof.
  intros H Hph Hg He. assert (Hw : wp close (fun r s' => is_ok r = true
    /\ stream_ok ex s' /\ sm_delivered_positions s' = ∅
    /\ sm_children s' = (fun c => c <| ch_phase := PhClosing |>) <$> sm_children s
    /\ sm_phase s' = if decide (sm_children s' = ∅) then AgClosed else AgClosing) s).
  { unfold close. do 2 wp_step. destruct_if E.
    { apply orb_true_iff in E as [E|E]; rewrite bool_decide_eq_true in E; destruct Hph; congruence. }
    wp_step. unfold wp at 1. rewrite next_authority_ok by done. cbn [fst snd].
    do 3 wp_step. apply (clear_delivered_spec ex); [done|]. intros s2 H2 E2. do 3 wp_step.
    assert (Hch : sm_children s2 = sm_children s) by (by rewrite E2).
    split_and!; [done| | |by rewrite <- Hch|].
    - apply fence_ok; [done|by rewrite E2|]. destruct_if Eb; [|done]. by rewrite bool_decide_eq_true in Eb.
    - simpl. by rewrite E2.
    - simpl. destruct (decide (sm_children s2 = ∅)) as [->|Hne].
      + rewrite bool_decide_eq_true_2 by done. by rewrite fmap_empty.
      + rewrite bool_decide_eq_false_2 by done. rewrite decide_False; [done|]. by intros ?%fmap_empty_iff. }
  exact Hw.
Qed.

(** C19: closing a stream consumer ends, and ends with nothing held.  In every
    reachable state, a closed consumer has no child, no live delivery and an empty
    budget; and from a state that is not closing yet, with a generation left,
    [close] succeeds and the reports that its children are closed, in whatever
    order they come, all succeed and leave it closed. *)
Theorem close_releases_everything ops s :
  reachable ops s ->
  (sm_phase s = AgClosed -> sm_children s = ∅ /\ sm_live_deliveries s = ∅
     /\ bs_reservations (sm_budget s) = ∅ /\ bs_data_used (sm_budget s) = 0)
  /\ (sm_phase s = AgOpen \/ sm_phase s = ResyncRequired ->
      sm_generation s < u64_max -> sm_delivery_epoch s < u64_max ->
      forall order, order ≡ₚ map_to_list (ch_generation <$> sm_children s) ->
      let calls := OpClose :: report_closed order in
      all_ok calls s = true /\ sm_phase (stream_run calls s) = AgClosed
      /\ bs_data_used (sm_budget (stream_run calls s)) = 0).
Proof.
  intros Hr. destruct (reachable_ok _ _ Hr) as (ex & H). split; [by eapply closed_empty|].
  intros Hph Hg He order Ho calls. destruct (close_spec ex s H Hph Hg He) as (Hok & H1 & Hd & Hch & Hph1).
  destruct (close_children ex order _ H1 Hph1 Hd) as (Hall & H2 & Hc2).
  { rewrite Hch, <- map_fmap_compose. exact Ho. }
  unfold calls. cbn [all_ok stream_run foldl]. split_and!; [|done|by eapply closed_empty].
  exact (proj2 (andb_true_iff _ _) (conj Hok Hall)).
Qed.

(** * Discarded entries *)

Lemma excess_blocks ex s id c :
  stream_ok ex s -> sm_children s !! id = Some c -> 1 <= ex (child_owner c) ->
  1 <= cb_pre_terminal_reservations (ch_completion c).
Proof.
  intros H Hc He. rewrite (lg_pre _ _ _ _ _ (so_ledger _ _ H) _ _ Hc).
  assert (0 <= pre_count (child_owner c) (bs_reservations (sm_budget s))); [|lia].
  apply map_sum_nonneg. intros i r _. unfold pre_weight. case_decide; lia.
Qed.

Lemma unsettled_incomplete id g s :
  (forall c, sm_children s !! id = Some c -> ch_generation c = g -> 1 <= cb_pre_terminal_reservations (ch_completion c)) ->
  is_ok (complete_segment id g s).1 = false.
Proof.
  intros Hc. assert (Hw : wp (complete_segment id g) (fun r _ => is_ok r = false) s); [|exact Hw].
  unfold complete_segment. do 2 wp_step; [|done]. do 2 wp_step; [|done]. do 2 wp_step; [|done].
  specialize (Hc c Hc0 Hgen). rewrite negb_false_iff in Hguard. unfold complete, settled in Hguard.
  rewrite !andb_true_iff, !Z.eqb_eq in Hguard. lia.
Qed.

(** C24: a discarded entry keeps its child from completing the segment.  Once a
    child has discarded an entry, [complete_segment] for that generation of the
    child fails after every further sequence of calls, as long as nobody settles a
    reservation of it by hand ([settle_pre_terminal_reservation]): the entry's
    reservation is released but stays counted, so the child never settles,
    whatever it acknowledges. *)
Theorem discard_blocks_completion ops s id g flow purpose work actions s1 later :
  reachable ops s -> exec (OpDiscard id g flow purpose work) s = (Ok actions, s1) -> Forall op_ok later ->
  Forall (keeps_reservations id g) (ops ++ later) ->
  is_ok (exec (OpCompleteSegment id g) (stream_run later s1)).1 = false
  /\ forall c, sm_children (stream_run later s1) !! id = Some c -> ch_generation c = g ->
       1 <= cb_pre_terminal_reservations (ch_completion c).
Proof.
  intros (Hops & s0 & Hn & ->) Hd Hl [Hk1 Hk2]%Forall_app.
  assert (Hs1 : s1 = step_of (stream_run ops s0) (OpDiscard id g flow purpose work)) by (unfold step_of; by rewrite Hd).
  pose proof (new_run_ok ops s0 Hn Hops) as H.
  pose proof (run_ok later s1 _ Hl (eq_rect_r (stream_ok _) (step_ok _ _ (OpDiscard id g flow purpose work) I H) Hs1)) as H2.
  assert (Hone : drift (stream_run ops s0) (OpDiscard id g flow purpose work) (mkOwner id g) = 1).
  { simpl. rewrite decide_True by done. simpl in Hd. unfold discard_preallocated_arrival, mbind, SM_bind in Hd.
    by destruct (complete_preallocated_arrival id g flow purpose work [0] (stream_run ops s0)) as [[] ?]. }
  assert (Hcount : forall c, sm_children (stream_run later s1) !! id = Some c -> ch_generation c = g ->
            1 <= cb_pre_terminal_reservations (ch_completion c)).
  { intros c Hc Hg. eapply excess_blocks; [exact H2|done|].
    assert (child_owner c = mkOwner id g) as -> by (unfold child_owner; by rewrite Hg, (proj1 (so_flow _ _ _ _ H2 Hc))).
    rewrite Hone. pose proof (drift_nonneg ops s0 id g Hk1). pose proof (drift_nonneg later s1 id g Hk2). lia. }
  split; [|done]. by apply unsettled_incomplete.
Qed.
