(* ===== verification/StreamOnce.v ===== *)
(** * Tokens and authorities of a stream consumer are used once

    A delivery is known to the application by its [DeliveryToken], an admitted
    acknowledgement by its authority.  [progress] is what every call does to the
    state that validates them: epochs and sequences only grow, and what was
    resolved or settled stays so. *)

From S2P Require Import Prelude Ids Frame SegmentTopic Assignment DagWatch OrdinaryId StreamPosition ReceiverBudget StreamModel StreamOps StreamReceive StreamAcks StreamLedger StreamSpec.

(** * Progress *)

Definition pending_of (transactional : bool) (s : StreamConsumerModel) : gmap Z PendingAcknowledgement :=
  if transactional then sm_pending_transaction_acknowledgements s else sm_pending_acknowledgements s.

(** What is live or pending was numbered below the counters. *)
Definition numbered (s : StreamConsumerModel) : Prop :=
  (forall q d, sm_live_deliveries s !! q = Some d -> q < sm_next_dequeue_sequence s)
  /\ forall t q p, pending_of t s !! q = Some p -> q < sm_next_acknowledgement_operation s.

Record progress (s s' : StreamConsumerModel) : Prop := {
  pg_instance : sm_consumer_instance s' = sm_consumer_instance s;
  pg_epoch : sm_delivery_epoch s <= sm_delivery_epoch s';
  pg_sequence : sm_next_dequeue_sequence s <= sm_next_dequeue_sequence s';
  pg_operation : sm_next_acknowledgement_operation s <= sm_next_acknowledgement_operation s';
  pg_live : forall q, q < sm_next_dequeue_sequence s -> sm_live_deliveries s !! q = None ->
    sm_live_deliveries s' !! q = None;
  pg_pending : forall t q, q < sm_next_acknowledgement_operation s -> pending_of t s !! q = None ->
    pending_of t s' !! q = None;
  pg_numbered : numbered s -> numbered s';
}.

#[global] Instance progress_preorder : PreOrder progress.
Proof.
  split; [by intros s; split|]. intros s1 s2 s3 [I1 E1 S1 O1 L1 P1 N1] [I2 E2 S2 O2 L2 P2 N2].
  split; [congruence|lia..| | |auto].
  - intros q Hq Hn. apply L2; [lia|]. by apply L1.
  - intros t q Hq Hn. apply P2; [lia|]. by apply P1.
Qed.

(** Deliveries and operations may be dropped. *)
Lemma progress_shrink s s' :
  sm_consumer_instance s' = sm_consumer_instance s -> sm_delivery_epoch s <= sm_delivery_epoch s' ->
  sm_next_dequeue_sequence s' = sm_next_dequeue_sequence s ->
  sm_next_acknowledgement_operation s' = sm_next_acknowledgement_operation s ->
  sm_live_deliveries s' ⊆ sm_live_deliveries s -> (forall t, pending_of t s' ⊆ pending_of t s) -> progress s s'.
Proof.
  intros Hi He Hs Ho Hl Hp. split; [done|done|lia|lia| | |].
  - intros q _ Hq. by eapply lookup_weaken_None.
  - intros t q _ Hq. eapply lookup_weaken_None; [done|apply Hp].
  - intros [Nl Np]. split; [intros q d Hq|intros t q p Hq].
    + rewrite Hs. eapply (Nl q d), lookup_weaken; done.
    + rewrite Ho. eapply (Np t q p), lookup_weaken; [done|apply Hp].
Qed.

(** What [progress] reads. *)
Definition once_view (s : StreamConsumerModel) :=
  (sm_consumer_instance s, sm_delivery_epoch s, sm_next_dequeue_sequence s, sm_next_acknowledgement_operation s,
   sm_live_deliveries s, sm_pending_acknowledgements s, sm_pending_transaction_acknowledgements s).

Lemma progress_view s s' : once_view s' = once_view s -> progress s s'.
Proof.
  unfold once_view. intros [= E1 E2 E3 E4 E5 E6 E7]. split; unfold numbered, pending_of; rewrite ?E1, ?E2, ?E3, ?E4, ?E5, ?E6, ?E7; done.
Qed.

Definition advances {A} (m : SM A) : Prop := forall s, wp m (fun _ => progress s) s.

Lemma advances_bind {A B} (m : SM A) (f : A -> SM B) : advances m -> (forall a, advances (f a)) -> advances (m ≫= f).
Proof.
  intros Hm Hf s. apply wp_bind. eapply wp_mono; [apply Hm|].
  intros [a|e] s' Hp; [|done]. eapply wp_mono; [apply Hf|]. intros r s''. by etrans.
Qed.

Lemma advances_ret {A} (a : A) : advances (mret a).
Proof. done. Qed.

Lemma advances_query {A} (f : _ -> result _ A) : advances (query f).
Proof. done. Qed.

Lemma advances_gets {A} (f : _ -> A) : advances (gets f).
Proof. done. Qed.

Lemma advances_lift {A} (r : result _ A) : advances (lift r).
Proof. done. Qed.

Lemma advances_throw {A} e : advances (throw (A := A) e).
Proof. done. Qed.

Lemma advances_throw_if b e : advances (throw_if b e).
Proof. done. Qed.

Lemma advances_modify f : (forall s, once_view (f s) = once_view s) -> advances (modify f).
Proof. intros Hf s. exact (progress_view _ _ (Hf s)). Qed.

Lemma advances_on_budget {A} f : advances (on_budget (A := A) f).
Proof. intros s. apply wp_on_budget; [|done]. intros a b _. by apply progress_view. Qed.

Lemma advances_atomically {A} (m : SM A) : advances m -> advances (atomically m).
Proof. intros Hm s. apply wp_atomically. eapply wp_mono; [apply Hm|]. by intros [a|e] s'. Qed.

Lemma advances_collect {A} (f : A -> SM (list StreamConsumerAction)) l :
  (forall x, advances (f x)) -> advances (collect_actions f l).
Proof.
  intros Hf s. apply wp_collect; [|done]. intros x s' _ Hp. eapply wp_mono; [apply Hf|]. intros r s''. by etrans.
Qed.

Lemma advances_for_each {A} (f : A -> SM unit) l : (forall x, advances (f x)) -> advances (for_each f l).
Proof.
  intros Hf s. apply wp_for_each; [|done]. intros x s' _ Hp. eapply wp_mono; [apply Hf|]. intros r s''. by etrans.
Qed.

(** ** Arbitration *)

Lemma refresh_all_view ids eligible s : once_view (refresh_all ids eligible s).2 = once_view s.
Proof.
  revert eligible s. induction ids as [|id ids IH]; intros eligible s; [done|]. simpl.
  assert (Hone : once_view (refresh_ordering id s).2 = once_view s).
  { unfold refresh_ordering. destruct (sm_children s !! id) as [c|]; [|done]. destruct (ch_phase c); try done.
    by destruct (ordering_eligibility _ _ _ _ _) as [[]|[]]. }
  destruct (refresh_ordering id s) as [ok s1]. rewrite IH. exact Hone.
Qed.

Lemma grant_loop_view candidates actions s : once_view (grant_loop candidates actions s).2 = once_view s.
Proof.
  revert actions s. induction candidates as [|[[id o] n] rest IH]; intros actions s; [done|].
  simpl. unfold mbind, SM_bind, lift. destruct (exhausted _ _ _); [|done].
  destruct (reserve_owned _ _ _ _) as [[rid b]|e]; [|done]. simpl.
  destruct (sm_children s !! id); by rewrite IH.
Qed.

Lemma arbitrate_advances : advances arbitrate_flow.
Proof.
  intros s. unfold wp. apply progress_view. unfold arbitrate_flow. destruct_if; [done|].
  pose proof (refresh_all_view (btree_elems (dom (sm_children s))) ∅ s) as Hv.
  destruct (refresh_all _ _ s) as [eligible s1]. destruct_if; [done|]. rewrite grant_loop_view. exact Hv.
Qed.

Create HintDb once.
#[export] Hint Resolve advances_ret advances_query advances_gets advances_lift advances_throw advances_throw_if
  advances_on_budget arbitrate_advances : once.

(** Steps of a method, and its branches. *)
Ltac advance :=
  repeat (intros; cbv zeta; match goal with
    | |- advances (_ ≫= _) => apply advances_bind
    | |- advances (atomically _) => apply advances_atomically
    | |- advances (collect_actions _ _) => apply advances_collect
    | |- advances (for_each _ _) => apply advances_for_each
    | |- advances (modify _) => apply advances_modify
    | |- advances (if ?b then _ else _) => destruct b
    | |- advances (match ?x with _ => _ end) => destruct x
    | |- advances ?m => solve [auto with once]
    end); try done.

Lemma require_open_advances : advances require_open.
Proof. unfold require_open. advance. Qed.

Lemma child_mut_advances id g f : advances (child_mut id g f).
Proof. unfold child_mut. advance. Qed.

Lemma on_budget__advances f : advances (on_budget_ f).
Proof. apply advances_on_budget. Qed.
#[export] Hint Resolve require_open_advances child_mut_advances on_budget__advances : once.

Lemma close_if_drained_advances id g : advances (close_if_drained id g).
Proof. unfold close_if_drained. advance. Qed.
#[export] Hint Resolve close_if_drained_advances : once.

Lemma close_then_arbitrate_advances id g : advances (close_then_arbitrate id g).
Proof. unfold close_then_arbitrate. advance. Qed.

Lemma clear_delivered_advances : advances clear_delivered_positions.
Proof. unfold clear_delivered_positions. advance. Qed.

Lemma refresh_delivered_advances : advances refresh_delivered_position.
Proof. unfold refresh_delivered_position. advance. Qed.

Lemma arrival_child_advances id g flow purpose : advances (arrival_child id g flow purpose).
Proof. unfold arrival_child. advance. Qed.
#[export] Hint Resolve close_then_arbitrate_advances clear_delivered_advances refresh_delivered_advances
  arrival_child_advances : once.

(** * The calls *)

(** Fencing moves to a later epoch. *)
Lemma fence_progress s s' g x :
  once_view s' = once_view s -> once_view x = once_view (fence g (sm_delivery_epoch s + 1) s') -> progress s' x.
Proof.
  intros Hv Hx. injection Hv as _ He _ _ _ _ _. etrans; [|apply progress_view; exact Hx].
  apply progress_shrink; try done; [simpl; lia|]. intros []; apply map_empty_subseteq.
Qed.

Lemma once_view_phase x p : once_view (x <| sm_phase := p |>) = once_view x.
Proof. reflexivity. Qed.

Lemma once_view_incarnation x i : once_view (x <| sm_controller_incarnation := i |>) = once_view x.
Proof. reflexivity. Qed.

(** [clear_delivered_positions] leaves what [progress] reads. *)
Lemma clear_delivered_view s :
  once_view (clear_delivered_positions s).2 = once_view s.
Proof.
  unfold clear_delivered_positions, mbind, SM_bind, gets, modify, on_budget_, on_budget, mret, SM_ret.
  destruct (sm_delivered_positions_reservation s) as [rid|]; [|done]. by destruct (release rid (sm_budget s)).
Qed.

(** What a fencing transition does once its guards have passed. *)
Lemma fence_advances {A} (k : Z * Z -> SM A) :
  (forall g s, wp (k (g, sm_delivery_epoch s + 1)) (fun _ => progress s) s) -> advances (next_authority ≫= k).
Proof.
  intros Hk s. unfold next_authority. wp_step. do 2 wp_step; [|done]. do 2 wp_step; [|done]. wp_step.
  apply ok_or_ok_inv, checked_add_Some in Hr0 as [-> _]. apply Hk.
Qed.

Lemma fence_positions (f : StreamConsumerModel -> StreamConsumerModel) (acts : list StreamConsumerAction) s :
  (forall s', once_view s' = once_view s -> progress s' (f s')) ->
  wp (_ ← clear_delivered_positions; _ ← modify f; mret acts) (fun _ => progress s) s.
Proof.
  intros Hf. wp_step. pose proof (clear_delivered_view s) as Hv. unfold wp.
  destruct (clear_delivered_positions s) as [[u|e] s1]; simpl in *; [|by apply progress_view].
  etrans; [apply progress_view, Hv|]. by apply Hf.
Qed.

Lemma begin_controller_incarnation_advances i : advances (begin_controller_incarnation i).
Proof.
  unfold begin_controller_incarnation. do 4 (apply advances_bind; [auto with once|intros ?]).
  apply fence_advances. intros g s. do 2 wp_step. apply fence_positions.
  intros s' Hv. apply (fence_progress s s' g _ Hv). by rewrite once_view_phase, ?once_view_incarnation.
Qed.

Lemma require_resync_advances : advances require_resync.
Proof.
  unfold require_resync. apply advances_bind; [auto with once|intros phase]. destruct_if; [done|].
  apply advances_bind; [auto with once|intros _].
  apply fence_advances. intros g s. do 2 wp_step. apply fence_positions.
  intros s' Hv. apply (fence_progress s s' g _ Hv). by rewrite once_view_phase, ?once_view_incarnation.
Qed.

Lemma close_advances : advances close.
Proof.
  unfold close. apply advances_bind; [auto with once|intros phase]. destruct_if; [done|].
  apply fence_advances. intros g s. do 2 wp_step. apply fence_positions.
  intros s' Hv. apply (fence_progress s s' g _ Hv). by rewrite once_view_phase, ?once_view_incarnation.
Qed.
#[export] Hint Resolve begin_controller_incarnation_advances require_resync_advances close_advances : once.

(** ** Assignments, seeks and the life of a child *)

Lemma reconcile_assignment_advances a r : advances (reconcile_assignment a r).
Proof. unfold reconcile_assignment. advance. Qed.
#[export] Hint Resolve reconcile_assignment_advances : once.

Lemma apply_assignment_for_advances i a : advances (apply_assignment_for i a).
Proof. unfold apply_assignment_for. advance. Qed.

Lemma apply_control_plane_for_advances i d a : advances (apply_control_plane_for i d a).
Proof. unfold apply_control_plane_for. advance. Qed.
#[export] Hint Resolve apply_assignment_for_advances apply_control_plane_for_advances : once.

Lemma apply_control_plane_advances d a : advances (apply_control_plane d a).
Proof. unfold apply_control_plane. advance. Qed.
#[export] Hint Resolve apply_control_plane_advances : once.

Lemma apply_reconnect_baseline_advances i d a : advances (apply_reconnect_baseline i d a).
Proof. unfold apply_reconnect_baseline. advance. Qed.

Lemma seek_child_view p : forall s, once_view (seek_child p s).2 = once_view s.
Proof.
  intros s. destruct p as [source i]. unfold seek_child, mbind, SM_bind, query, lift, modify, on_budget_, on_budget, mret, SM_ret.
  destruct (ok_or _ _) as [c|]; [|done]. destruct (ch_flow_reservation c) as [rid|]; [|done]. simpl.
  destruct (map_err _ _); [|done]. by destruct (release rid (sm_budget s)).
Qed.

Lemma seek_children_view l : forall s, once_view (collect_actions seek_child l s).2 = once_view s.
Proof.
  induction l as [|p l IH]; intros s; [done|]. simpl. unfold mbind, SM_bind. pose proof (seek_child_view p s) as Hv.
  destruct (seek_child p s) as [[a|e] s1]; [|exact Hv]. specialize (IH s1).
  destruct (collect_actions seek_child l s1) as [[b|e] s2]; simpl in *; by rewrite IH.
Qed.

Lemma begin_seek_advances v : advances (begin_seek v).
Proof.
  unfold begin_seek. do 8 (apply advances_bind; [auto with once|intros ?; cbv zeta]).
  apply fence_advances. intros g s. apply wp_atomically. wp_step. pose proof (seek_children_view
    (btree_items (btree_collect ((fun i => (smi_source i, i)) <$> stream_message_ids v))) s) as Hv. unfold wp at 1.
  destruct (collect_actions _ _ s) as [[acts|e] s1]; simpl in *; [|done]. do 3 wp_step.
  set (s2 := s1 <| sm_generation := g |> <| sm_delivery_epoch := sm_delivery_epoch s + 1 |>).
  assert (Hp : progress s s2).
  { etrans; [by apply progress_view|]. injection Hv as _ He _ _ _ _ _. subst s2. apply progress_shrink; try done. simpl. lia. }
  unfold wp. pose proof (clear_delivered_view s2) as Hc.
  destruct (clear_delivered_positions s2) as [[u|e] s3]; simpl in *; [|done]. etrans; [exact Hp|]. by apply progress_view.
Qed.

Lemma seek_completed_advances id g : advances (seek_completed id g).
Proof. unfold seek_completed. advance. Qed.

Lemma child_opened_advances id g : advances (child_opened id g).
Proof. unfold child_opened. advance. intros s. by case_decide. Qed.

Lemma child_open_busy_advances id g : advances (child_open_busy id g).
Proof. unfold child_open_busy. advance. Qed.

Lemma complete_segment_advances id g : advances (complete_segment id g).
Proof. unfold complete_segment. advance. Qed.

Lemma observe_terminal_advances id g : advances (observe_terminal id g).
Proof. unfold observe_terminal, require_callback_phase. advance. Qed.
#[export] Hint Resolve apply_reconnect_baseline_advances begin_seek_advances seek_completed_advances
  child_opened_advances child_open_busy_advances complete_segment_advances observe_terminal_advances : once.

Lemma child_closed_advances id g : advances (child_closed id g).
Proof.
  unfold child_closed, require_callback_phase. do 5 (apply advances_bind; [advance|intros ?; cbv zeta]).
  apply advances_bind.
  { intros s. wp_step. apply progress_shrink; try done. apply map_filter_subseteq. }
  intros _. apply advances_bind; [|advance].
  destruct a2 as [[[source next] shared]|]; [|done]. intros s. by apply progress_view.
Qed.

(** ** Entries *)

Lemma reserve_receive_work_advances id g use n : advances (reserve_receive_work id g use n).
Proof. unfold reserve_receive_work. advance. Qed.

Lemma cancel_receive_work_advances id g rid : advances (cancel_receive_work id g rid).
Proof. unfold cancel_receive_work. advance. Qed.

Lemma chunk_frame_buffered_advances id g flow assembly n : advances (chunk_frame_buffered id g flow assembly n).
Proof. unfold chunk_frame_buffered. advance. Qed.

Lemma reserve_retained_advances o l : advances (reserve_retained o l).
Proof. induction l; simpl; advance. Qed.
#[export] Hint Resolve reserve_retained_advances : once.

Lemma complete_arrival_advances id g flow purpose work bytes :
  advances (complete_preallocated_arrival id g flow purpose work bytes).
Proof. unfold complete_preallocated_arrival. advance. Qed.
#[export] Hint Resolve complete_arrival_advances : once.

Lemma chunk_message_arrived_advances id g flow assembly work n :
  advances (chunk_message_arrived id g flow assembly work n).
Proof. unfold chunk_message_arrived. advance. Qed.

Lemma message_arrived_preallocated_advances id g flow work n :
  advances (message_arrived_preallocated id g flow work n).
Proof. unfold message_arrived_preallocated. advance. Qed.

Lemma batch_arrived_preallocated_advances id g flow work bytes :
  advances (batch_arrived_preallocated id g flow work bytes).
Proof. unfold batch_arrived_preallocated. advance. Qed.

Lemma discard_advances id g flow purpose work : advances (discard_preallocated_arrival id g flow purpose work).
Proof. unfold discard_preallocated_arrival. advance. Qed.

Lemma message_arrived_advances id g rid n : advances (message_arrived id g rid n).
Proof. unfold message_arrived. advance. Qed.
#[export] Hint Resolve child_closed_advances reserve_receive_work_advances cancel_receive_work_advances
  chunk_frame_buffered_advances chunk_message_arrived_advances message_arrived_preallocated_advances
  batch_arrived_preallocated_advances discard_advances message_arrived_advances : once.

(** ** Deliveries and acknowledgements *)

Lemma issue_delivery_advances id g i rid : advances (issue_delivery id g i rid).
Proof.
  intros s. unfold issue_delivery. do 3 (do 2 wp_step; [|done]). do 2 wp_step. do 3 (do 2 wp_step; [|done]).
  do 2 wp_step. do 2 wp_step; [|done]. destruct (prospective_position_heap_bytes _ _ _ _) as [vheap pheap]. cbv zeta.
  do 5 (do 2 wp_step; [|done]). do 2 wp_step. do 2 wp_step; [|done]. do 2 wp_step. do 2 wp_step; [|done].
  destruct r9 as [metadata b2]. do 2 wp_step. do 6 (do 2 wp_step; [|done]).
  wp_step. eapply wp_child_mut; [done..|]. do 3 wp_step.
  apply ok_or_ok_inv, checked_add_Some in Hr8 as [-> _]. split; simpl; try done; [lia| |].
  - intros q Hq Hn. rewrite lookup_insert_ne by lia. done.
  - intros [Nl Np]. split; [|done]. simpl. intros q d [[<- _]|[_ Hq]]%lookup_insert_Some; [lia|].
    apply Nl in Hq. lia.
Qed.

Lemma resolve_delivery_sequence_advances q : advances (resolve_delivery_sequence q).
Proof.
  unfold resolve_delivery_sequence. do 7 (apply advances_bind; [advance|intros ?; cbv zeta]).
  apply advances_bind; [|advance]. intros s. wp_step. apply progress_shrink; try done. apply delete_subseteq.
Qed.
#[export] Hint Resolve issue_delivery_advances resolve_delivery_sequence_advances : once.

Lemma resolve_delivery_advances t : advances (resolve_delivery t).
Proof. unfold resolve_delivery. advance. Qed.

Lemma begin_component_view t component s : once_view (begin_component t component s).2 = once_view s.
Proof.
  unfold begin_component, begin_transactional_ack, begin_ack, require_open, mbind, SM_bind, gets, throw_if, lift, query, modify.
  destruct t; repeat (case_match; simplify_eq; try done).
Qed.

Lemma begin_components_view t l s : once_view (for_each (begin_component t) l s).2 = once_view s.
Proof.
  revert s. induction l as [|x l IH]; intros s; [done|]. simpl. unfold mbind, SM_bind.
  pose proof (begin_component_view t x s) as Hv. destruct (begin_component t x s) as [[u|e] s1]; [|done].
  by rewrite IH.
Qed.

Lemma admit_acknowledgement_advances components deliveries t :
  advances (admit_acknowledgement components deliveries t).
Proof.
  intros s. unfold admit_acknowledgement. do 2 wp_step; [|done]. do 2 wp_step. do 2 wp_step; [|done]. do 2 wp_step.
  do 2 wp_step; [|done]. do 2 wp_step. pose proof (begin_components_view t components s) as Hv. unfold wp at 1.
  destruct (for_each _ _ s) as [[u|e] s1]; simpl in *; [|done]. do 3 wp_step.
  apply ok_or_ok_inv, checked_add_Some in Hr as [-> _].
  etrans; [by apply progress_view|]. injection Hv as _ _ _ Ho _ _ _.
  split; simpl; try by destruct t.
  - by rewrite Ho; lia.
  - intros b q Hq Hn. destruct t, b; simpl in *; rewrite ?lookup_insert_ne by lia; done.
  - intros [Nl Np]. split; [by destruct t|]. intros b q p. simpl.
    destruct t, b; simpl; try (intros [[<- _]|[_ Hq]]%lookup_insert_Some; [lia|revert Hq]);
      intros Hq; apply (Np true) in Hq || apply (Np false) in Hq; lia.
Qed.
#[export] Hint Resolve resolve_delivery_advances admit_acknowledgement_advances : once.

Lemma position_components_advances v b : advances (position_components v b).
Proof. unfold position_components. advance. Qed.
#[export] Hint Resolve position_components_advances : once.

Lemma admit_components_advances v a b : advances (admit_components v a b).
Proof. unfold admit_components. advance. Qed.
#[export] Hint Resolve admit_components_advances : once.

Lemma admit_individual_advances t b : advances (admit_individual t b).
Proof. unfold admit_individual. advance. Qed.

Lemma admit_cumulative_advances t : advances (admit_cumulative_acknowledgement t).
Proof. unfold admit_cumulative_acknowledgement. advance. Qed.

Lemma admit_cumulative_transactional_advances t : advances (admit_cumulative_transactional_acknowledgement t).
Proof. unfold admit_cumulative_transactional_acknowledgement. advance. Qed.

Lemma admit_batch_advances l : advances (admit_batch_acknowledgement l).
Proof. unfold admit_batch_acknowledgement. advance. Qed.

Lemma settle_component_advances t component : advances (settle_component t component).
Proof. unfold settle_component, settle_transactional_ack, settle_ack. advance. Qed.

(** The hooks of the completion counters. *)
Lemma hooks_advance id g :
  (advances (begin_ack id g) /\ advances (begin_transactional_ack id g) /\ advances (begin_pre_terminal_reservation id g))
  /\ advances (settle_ack id g) /\ advances (settle_transactional_ack id g)
  /\ advances (settle_pre_terminal_reservation id g).
Proof.
  unfold begin_ack, begin_transactional_ack, begin_pre_terminal_reservation, settle_ack, settle_transactional_ack,
    settle_pre_terminal_reservation. split_and!; advance.
Qed.

Lemma remove_pending_advances t q : advances (modify (remove_pending t q)).
Proof.
  intros s. wp_step. destruct t; apply progress_shrink; try done; intros []; try done; apply delete_subseteq.
Qed.

Lemma confirm_components_view sources l s : once_view (foldl (confirm_component sources) s l) = once_view s.
Proof.
  revert s. induction l as [|x l IH]; intros s; [done|]. simpl. rewrite IH. unfold confirm_component.
  repeat case_match; done.
Qed.
#[export] Hint Resolve settle_component_advances : once.

Lemma settle_acknowledgement_advances a sources : advances (settle_acknowledgement a sources).
Proof.
  unfold settle_acknowledgement, settle_acknowledgement_counters. apply advances_bind; [advance|]. intros p.
  apply advances_atomically. apply advances_bind; [apply remove_pending_advances|]. intros _.
  apply advances_bind; [advance|]. intros acts. apply advances_bind; [|advance].
  apply advances_modify. intros s. apply confirm_components_view.
Qed.

Lemma cancel_transactional_advances a : advances (cancel_transactional_acknowledgement a).
Proof.
  unfold cancel_transactional_acknowledgement, settle_acknowledgement_counters. apply advances_bind; [advance|]. intros p.
  apply advances_atomically. apply advances_bind; [apply remove_pending_advances|]. advance.
Qed.

Lemma settle_transactional_advances a outcome : advances (settle_transactional_acknowledgement a outcome).
Proof.
  unfold settle_transactional_acknowledgement, settle_acknowledgement_counters. apply advances_bind; [advance|]. intros p.
  apply advances_atomically. apply advances_bind; [apply remove_pending_advances|]. advance.
Qed.
#[export] Hint Resolve admit_individual_advances admit_cumulative_advances admit_cumulative_transactional_advances
  admit_batch_advances settle_acknowledgement_advances cancel_transactional_advances
  settle_transactional_advances : once.

Lemma exec_advances o : advances (exec o).
Proof.
  destruct o; simpl; try (destruct (hooks_advance segment_id generation) as ((? & ? & ?) & ? & ? & ?); advance);
    unfold actions_of, no_actions, reserve_decompression, reserve_batch_assembly,
    admit_individual_acknowledgement, admit_individual_transactional_acknowledgement,
    admit_position_acknowledgement, admit_position_transactional_acknowledgement, cancel_acknowledgement; advance.
Qed.

Lemma run_progress ops s : progress s (stream_run ops s).
Proof.
  revert s. induction ops as [|o ops IH]; intros s; [done|]. etrans; [|apply IH]. apply exec_advances.
Qed.

Lemma reachable_numbered ops s : reachable ops s -> numbered s.
Proof.
  intros (_ & s0 & (parent & instance & incarnation & mode & dag & bytes & budget & _ & _ & Hnew) & ->).
  apply (pg_numbered s0); [apply run_progress|]. unfold model_new in Hnew. inv_ok. by split; [|intros []].
Qed.

(** * Refusals *)

(** The calls that present a token, or an authority. *)
Definition uses_token (t : DeliveryToken) (o : stream_op) : Prop :=
  match o with
  | OpResolve t' | OpAdmitIndividual t' _ | OpAdmitCumulative t' _ => t' = t
  | OpAdmitBatch l => t ∈ l
  | _ => False
  end.

Definition uses_authority (transactional : bool) (a : AcknowledgementAuthority) (o : stream_op) : Prop :=
  match o with
  | OpSettle a' _ => transactional = false /\ a' = a
  | OpCancel a' b => transactional = b /\ a' = a
  | OpSettleTransactional a' _ => transactional = true /\ a' = a
  | _ => False
  end.

(** The call fails and leaves the state as it was. *)
Definition refused (o : stream_op) (s : StreamConsumerModel) : Prop :=
  is_ok (exec o s).1 = false /\ step_of s o = s.

Lemma query_refused {A B} (f : _ -> result _ A) (k : A -> SM B) s :
  is_ok (f s) = false -> is_ok ((query f ≫= k) s).1 = false /\ ((query f ≫= k) s).2 = s.
Proof. unfold mbind, SM_bind, query. by destruct (f s). Qed.

Lemma no_actions_refused {A} (m : SM A) s :
  is_ok (m s).1 = false /\ (m s).2 = s -> is_ok (no_actions m s).1 = false /\ (no_actions m s).2 = s.
Proof. unfold no_actions, mbind, SM_bind. by destruct (m s) as [[a|e] s']. Qed.

Lemma group_tokens_refused t l seen grouped deliveries s :
  t ∈ l -> is_ok (validate_delivery_token t s) = false -> is_ok (group_tokens l seen grouped deliveries s) = false.
Proof.
  intros Hin Hv. revert seen grouped deliveries. induction l as [|x l IH]; intros seen grouped deliveries; [by apply not_elem_of_nil in Hin|].
  simpl. destruct (validate_delivery_token x s) as [v|e] eqn:Ex; [|done]. simpl.
  apply elem_of_cons in Hin as [->|Hin]; [by rewrite Ex in Hv|]. destruct_if; [done|]. by apply IH.
Qed.

(** The one call that looks at more than the live deliveries: the plain cumulative
    admission also takes the token of a position already confirmed. *)
Lemma token_refused t o s :
  is_ok (validate_delivery_token t s) = false -> uses_token t o ->
  (o = OpAdmitCumulative t false -> confirmed_repeat t s = false) -> refused o s.
Proof.
  intros Hv Hu Hc. unfold refused, step_of.
  destruct o as [| | | | | | | | | | | | | | | | | | | | | | |t'|t' b|t' b|? ?|l| | | | | | | ]; simpl in Hu; try done.
  - subst. by apply query_refused.
  - subst. destruct b; apply no_actions_refused, query_refused, Hv.
  - subst. destruct b; [apply no_actions_refused, query_refused, Hv|]. specialize (Hc eq_refl).
    simpl. unfold no_actions, admit_cumulative_acknowledgement, mbind, SM_bind, gets, throw_if, lift.
    by rewrite Hv, Hc.
  - apply no_actions_refused. apply query_refused. by eapply group_tokens_refused.
Qed.

Lemma stale_repeat t s : tk_delivery_epoch t < sm_delivery_epoch s -> confirmed_repeat t s = false.
Proof.
  intros Hs. unfold confirmed_repeat. cbv zeta. destruct (tk_delivery_epoch t =? sm_delivery_epoch s) eqn:E; [lia|].
  by rewrite andb_false_r.
Qed.

Lemma stale_token t s :
  sm_live_deliveries s !! tk_dequeue_sequence t = None \/ tk_delivery_epoch t < sm_delivery_epoch s ->
  is_ok (validate_delivery_token t s) = false.
Proof.
  intros Hs. unfold validate_delivery_token. destruct (sm_children s !! _); [|done]. destruct_if; [done|].
  cbv zeta. destruct_if E; [done|]. rewrite negb_false_iff, !andb_true_iff in E. destruct E as [[[_ _] He] Hl].
  destruct Hs as [Hs|Hs]; [by rewrite Hs in Hl|]. apply Z.eqb_eq in He. lia.
Qed.

Lemma authority_refused t a o s :
  is_ok (validate_acknowledgement_authority a t s) = false -> uses_authority t a o -> refused o s.
Proof.
  intros Hv Hu. unfold refused, step_of.
  destruct o as [| | | | | | | | | | | | | | | | | | | | | | | | | | | |a' c|a' b|a' c| | | | ]; simpl in Hu; try done.
  - destruct Hu as [-> ->]. by apply query_refused.
  - destruct Hu as [-> ->]. destruct b; by apply query_refused.
  - destruct Hu as [-> ->]. by apply query_refused.
Qed.

Lemma stale_authority t a s :
  pending_of t s !! aa_operation_id a = None \/ aa_delivery_epoch a < sm_delivery_epoch s ->
  is_ok (validate_acknowledgement_authority a t s) = false.
Proof.
  intros Hs. unfold validate_acknowledgement_authority. destruct_if; [done|]. destruct_if E; [done|].
  fold (pending_of t s). apply orb_false_iff in E as [_ He]. rewrite negb_false_iff, Z.eqb_eq in He.
  destruct Hs as [->|Hs]; [done|lia].
Qed.

(** ** What was used stays used *)

Lemma covered_live components s q source :
  (q, source) ∈ deliveries_covered_by components s -> is_Some (sm_live_deliveries s !! q).
Proof.
  unfold deliveries_covered_by. intros ([q' d] & Hin & Hd)%list_elem_of_omap.
  apply elem_of_btree_items in Hin. repeat case_match; simplify_eq. eauto.
Qed.

(** Admitting a vector takes up no delivery that is not live, and leaves the
    live ones alone. *)
Lemma admit_components_live v assigned b q s :
  sm_live_deliveries s !! q = None ->
  wp (admit_components v assigned b) (fun _ s' => sm_live_deliveries s' = sm_live_deliveries s
    /\ forall t id p, pending_of t s' !! id = Some p -> pending_of t s !! id = Some p \/ q ∉ (pa_deliveries p).*1) s.
Proof.
  intros Hq. unfold admit_components, position_components. wp_step. do 2 wp_step; [|by eauto]. do 2 wp_step.
  do 2 wp_step; [|by eauto]. wp_step; [|by eauto]. do 2 wp_step. unfold admit_acknowledgement.
  do 2 wp_step; [|by eauto]. do 2 wp_step. do 2 wp_step; [|by eauto]. do 2 wp_step. do 2 wp_step; [|by eauto].
  do 2 wp_step. pose proof (begin_components_view b r s) as Hv. unfold wp at 1.
  destruct (for_each _ _ s) as [[u|e] s1]; simpl in *; [|by eauto]. do 3 wp_step. injection Hv as _ _ _ _ Hl Hp Ht.
  split; [by destruct b|]. intros t id p.
  assert (Hnew : q ∉ (pa_deliveries (mkPendingAck r (deliveries_covered_by r s))).*1).
  { simpl. intros ([q' source] & -> & Hin)%list_elem_of_fmap. apply covered_live in Hin as [d Hd]. simpl in Hq. congruence. }
  destruct b, t; simpl; rewrite ?Hp, ?Ht; auto;
    (intros [[_ <-]|[_ ?]]%lookup_insert_Some; [by right|by left]).
Qed.

(** A resolved delivery is gone. *)
Lemma resolve_sequence_gone q s actions s1 :
  resolve_delivery_sequence q s = (Ok actions, s1) -> numbered s ->
  q < sm_next_dequeue_sequence s1 /\ sm_live_deliveries s1 !! q = None.
Proof.
  intros E [Hn _]. assert (Hw : wp (resolve_delivery_sequence q) (fun r s1 => is_ok r = true ->
    q < sm_next_dequeue_sequence s1 /\ sm_live_deliveries s1 !! q = None) s).
  { unfold resolve_delivery_sequence. do 7 (do 2 wp_step; [|done]). do 2 wp_step.
    apply ok_or_ok_inv, Hn in Hr.
    eapply wp_mono; [eapply advances_bind; [apply child_mut_advances|intros; apply close_then_arbitrate_advances]|]. intros res s' Hp _. pose proof (pg_sequence _ _ Hp). simpl in *.
    split; [lia|]. apply (pg_live _ _ Hp); [done|]. apply lookup_delete_eq. }
  unfold wp in Hw. rewrite E in Hw. by apply Hw.
Qed.

Definition gone (q : Z) (s : StreamConsumerModel) : Prop :=
  q < sm_next_dequeue_sequence s /\ sm_live_deliveries s !! q = None.

Lemma gone_progress q s s' : progress s s' -> gone q s -> gone q s'.
Proof. intros Hp [Hq Hl]. split; [pose proof (pg_sequence _ _ Hp); lia|by apply (pg_live _ _ Hp)]. Qed.

Lemma resolve_all_gone (f : Z * SegmentSource -> SM (list StreamConsumerAction)) (sel : Z * SegmentSource -> Prop) l s :
  (forall d, advances (f d)) ->
  (forall d s, sel d -> numbered s -> wp (f d) (fun r s' => is_ok r = true -> gone d.1 s') s) -> numbered s ->
  wp (collect_actions f l) (fun r s1 => is_ok r = true -> forall d, d ∈ l -> sel d -> gone d.1 s1) s.
Proof.
  intros Ha Hg. revert s. induction l as [|x l IH]; intros s Hn; simpl; [intros _ d Hd; by apply not_elem_of_nil in Hd|].
  wp_step. specialize (Hg x s). pose proof (Ha x s) as Hp. unfold wp in Hg, Hp |- * at 1.
  destruct (f x s) as [[a|e] s1]; simpl in *; [|done]. wp_step. pose proof (advances_collect f l Ha s1) as Hpl.
  specialize (IH s1 (pg_numbered _ _ Hp Hn)). unfold wp in IH, Hpl |- *.
  destruct (collect_actions f l s1) as [[b|e] s2]; simpl in *; [|done]. intros _ d [->|Hd]%elem_of_cons Hs; [|by apply IH].
  eapply gone_progress; [exact Hpl|]. by apply Hg.
Qed.

(** The deliveries that a settlement resolves. *)
Definition resolved_by (o : stream_op) (s : StreamConsumerModel) (q : Z) : Prop :=
  match o with
  | OpResolve t => tk_dequeue_sequence t = q
  | OpSettle a confirmed => exists p source, pending_of false s !! aa_operation_id a = Some p
      /\ (q, source) ∈ pa_deliveries p /\ source ∈ confirmed
  | OpSettleTransactional a TaCommitted => exists p source, pending_of true s !! aa_operation_id a = Some p
      /\ (q, source) ∈ pa_deliveries p
  | _ => False
  end.

Lemma validate_authority_inv a t s p :
  validate_acknowledgement_authority a t s = Ok p -> pending_of t s !! aa_operation_id a = Some p.
Proof.
  unfold validate_acknowledgement_authority. destruct_if; [done|]. destruct_if; [done|]. by intros ?%ok_or_ok_inv.
Qed.

Lemma wp_resolve_gone q s : numbered s ->
  wp (resolve_delivery_sequence q) (fun r s' => is_ok r = true -> gone q s') s.
Proof.
  intros Hn. unfold wp. destruct (resolve_delivery_sequence q s) as [[a|e] s1] eqn:E; [|done]. intros _.
  by eapply resolve_sequence_gone.
Qed.

(** Continuing with a call that only advances. *)
Lemma wp_advances {A B} (m : SM A) (k : A -> SM B) (Q : _ -> _ -> Prop) s :
  advances m -> (forall a s', progress s s' -> wp (k a) Q s') -> (forall e s', Q (Err e) s') -> wp (m ≫= k) Q s.
Proof. intros Hm Hk He. apply wp_bind. eapply wp_mono; [apply Hm|]. intros [a|e] s'; auto. Qed.

Lemma resolved_gone o s q :
  numbered s -> resolved_by o s q -> wp (exec o) (fun r s' => is_ok r = true -> gone q s') s.
Proof.
  intros Hn Hq. destruct o as [| | | | | | | | | | | | | | | | | | | | | | |t| | | | |a confirmed|? []|a []| | | | ]; simpl in Hq; try done.
  - subst. unfold exec, resolve_delivery. do 2 wp_step; [|done]. do 2 wp_step. do 2 wp_step; [|done].
    by apply wp_resolve_gone.
  - destruct Hq as (p & source & Hp & Hin & Hc). unfold exec, settle_acknowledgement. do 2 wp_step; [|done].
    apply validate_authority_inv in Hr. unfold pending_of in Hr. rewrite Hp in Hr. injection Hr as <-. wp_step.
    apply wp_advances; [apply remove_pending_advances| |done]. intros _ s1 P1.
    apply wp_advances; [apply advances_collect, settle_component_advances| |done]. intros acts s2 P2.
    apply wp_advances; [apply advances_modify, confirm_components_view| |done]. intros _ s3 P3. wp_step.
    eapply wp_mono; [eapply (resolve_all_gone _ (fun d => d.2 ∈ confirmed))|].
    + intros d. advance.
    + intros d s' Hd Hn'. simpl in Hd. rewrite bool_decide_eq_true_2 by done. by apply wp_resolve_gone.
    + by apply (pg_numbered _ _ P3), (pg_numbered _ _ P2), (pg_numbered _ _ P1).
    + intros [b|e] s4; [|done]. intros Hg. wp_step. intros _. by apply (Hg eq_refl (q, source)).
  - destruct Hq as (p & source & Hp & Hin). unfold exec, settle_transactional_acknowledgement. do 2 wp_step; [|done].
    apply validate_authority_inv in Hr. unfold pending_of in Hr. rewrite Hp in Hr. injection Hr as <-. wp_step.
    apply wp_advances; [apply remove_pending_advances| |done]. intros _ s1 P1.
    apply wp_advances; [apply advances_collect, settle_component_advances| |done]. intros acts s2 P2. wp_step.
    eapply wp_mono; [eapply (resolve_all_gone _ (fun _ => True))|].
    + intros d. advance.
    + intros d s' Hd Hn'. by apply wp_resolve_gone.
    + by apply (pg_numbered _ _ P2), (pg_numbered _ _ P1).
    + intros [b|e] s4; [|done]. intros Hg. wp_step. intros _. by apply (Hg eq_refl (q, source)).
Qed.

(** * Theorems *)

(** What is left to a token whose delivery is gone: the plain cumulative
    admission of a position that the broker has confirmed. *)
Definition repeats_confirmed (t : DeliveryToken) (o : stream_op) (s : StreamConsumerModel) : Prop :=
  o = OpAdmitCumulative t false
  /\ tk_delivery_epoch t = sm_delivery_epoch s
  /\ (exists c confirmed, sm_children s !! src_segment_id (smi_source (tk_stream_message_id t)) = Some c
        /\ ch_generation c = tk_child_generation t /\ ch_confirmed_cumulative c = Some confirmed
        /\ key_le (ordinary_message_id (tk_stream_message_id t)) confirmed)
  /\ sm_live_deliveries (step_of s o) = sm_live_deliveries s
  /\ forall transactional id p, pending_of transactional (step_of s o) !! id = Some p ->
       pending_of transactional s !! id = Some p \/ tk_dequeue_sequence t ∉ (pa_deliveries p).*1.

Lemma confirmed_repeat_inv t s : confirmed_repeat t s = true ->
  tk_delivery_epoch t = sm_delivery_epoch s
  /\ exists c confirmed, sm_children s !! src_segment_id (smi_source (tk_stream_message_id t)) = Some c
       /\ ch_generation c = tk_child_generation t /\ ch_confirmed_cumulative c = Some confirmed
       /\ key_le (ordinary_message_id (tk_stream_message_id t)) confirmed.
Proof.
  unfold confirmed_repeat. cbv zeta. rewrite !andb_true_iff. intros [[[_ He] _] Hc].
  split; [lia|]. destruct (sm_children s !! _) as [c|]; [|done].
  rewrite !andb_true_iff in Hc. destruct Hc as [[[[Hg _] _] _] Hc].
  destruct (ch_confirmed_cumulative c) as [k|] eqn:E; [|done]. apply bool_decide_eq_true in Hc.
  exists c, k. split_and!; [done|lia|done|done].
Qed.

Lemma gone_token t o s :
  sm_live_deliveries s !! tk_dequeue_sequence t = None -> uses_token t o -> refused o s \/ repeats_confirmed t o s.
Proof.
  intros Hl Hu. pose proof (stale_token t s (or_introl Hl)) as Hv. destruct (confirmed_repeat t s) eqn:Hc.
  2: { left. by eapply token_refused. }
  assert (Hd : o = OpAdmitCumulative t false \/ o <> OpAdmitCumulative t false).
  { destruct o as [| | | | | | | | | | | | | | | | | | | | | | | | |t' []| | | | | | | | | ]; simpl in Hu; subst; auto. }
  destruct Hd as [->|Hne]; [right|left; by eapply token_refused].
  destruct (confirmed_repeat_inv t s Hc) as [He Hchild]. split; [done|]. split; [done|]. split; [done|].
  unfold step_of, exec. rewrite no_actions_state.
  assert (Hw : wp (admit_cumulative_acknowledgement t) (fun _ s' => sm_live_deliveries s' = sm_live_deliveries s
    /\ forall b id p, pending_of b s' !! id = Some p ->
         pending_of b s !! id = Some p \/ tk_dequeue_sequence t ∉ (pa_deliveries p).*1) s); [|exact Hw].
  unfold admit_cumulative_acknowledgement. do 2 wp_step. do 2 wp_step; [by apply admit_components_live|by eauto].
Qed.

(** C20: a delivery is resolved once.  When a call resolves a delivery (directly,
    by a settlement that confirms its source, or by a committed transaction),
    every later call that presents its token fails and changes nothing, after any
    sequence of calls in between, with one exception: the plain cumulative
    admission, which is idempotent by design, takes the token as long as no fence
    has come and the broker has confirmed the token's position or one after it.
    Even then no delivery becomes live or is dropped, and no acknowledgement that
    is admitted takes up the token's delivery again. *)
Theorem delivery_resolved_once ops s o actions s1 t later again :
  reachable ops s -> exec o s = (Ok actions, s1) -> resolved_by o s (tk_dequeue_sequence t) ->
  uses_token t again ->
  let s2 := stream_run later s1 in
  sm_live_deliveries s2 !! tk_dequeue_sequence t = None
  /\ (refused again s2 \/ repeats_confirmed t again s2).
Proof.
  intros Hr E Hres Hu s2. apply reachable_numbered in Hr as Hn. pose proof (resolved_gone o s _ Hn Hres) as Hg.
  unfold wp in Hg. rewrite E in Hg. destruct (gone_progress _ _ s2 (run_progress later s1) (Hg eq_refl)) as [_ Hl].
  split; [done|]. by apply gone_token.
Qed.

Lemma settled_removed t a o s actions s1 :
  numbered s -> exec o s = (Ok actions, s1) -> uses_authority t a o ->
  aa_operation_id a < sm_next_acknowledgement_operation s1 /\ pending_of t s1 !! aa_operation_id a = None.
Proof.
  intros [_ Hn] E Hu. assert (Hw : wp (exec o) (fun r s1 => is_ok r = true ->
    aa_operation_id a < sm_next_acknowledgement_operation s1 /\ pending_of t s1 !! aa_operation_id a = None) s).
  2: { unfold wp in Hw. rewrite E in Hw. by apply Hw. }
  clear E. assert (Hrem : forall (k : unit -> SM (list StreamConsumerAction)) p,
    (forall x, advances (k x)) -> pending_of t s !! aa_operation_id a = Some p ->
    wp (atomically (modify (remove_pending t (aa_operation_id a)) ≫= k)) (fun r s1 => is_ok r = true ->
      aa_operation_id a < sm_next_acknowledgement_operation s1 /\ pending_of t s1 !! aa_operation_id a = None) s).
  { intros k p Hk Hp. wp_step. do 2 wp_step. eapply wp_mono; [apply Hk|]. intros [x|e] s2 P2; [|done]. intros _.
    pose proof (pg_operation _ _ P2) as Ho. apply Hn in Hp. assert (Hsame : sm_next_acknowledgement_operation
      (remove_pending t (aa_operation_id a) s) = sm_next_acknowledgement_operation s) by (by destruct t).
    split; [lia|]. apply (pg_pending _ _ P2); [lia|]. destruct t; apply lookup_delete_eq. }
  destruct o as [| | | | | | | | | | | | | | | | | | | | | | | | | | | |a' c|a' []|a' c| | | | ]; simpl in Hu; try done;
    destruct Hu as [-> ->]; unfold exec, cancel_acknowledgement, settle_acknowledgement,
      cancel_transactional_acknowledgement, settle_transactional_acknowledgement, settle_acknowledgement_counters;
    (do 2 wp_step; [|done]); apply validate_authority_inv in Hr; (eapply Hrem; [|done]); intros _; advance;
    apply confirm_components_view.
Qed.

(** C21: an acknowledgement is settled once.  When an admitted acknowledgement is
    settled, cancelled or decided, every later call with its authority fails and
    changes nothing. *)
Theorem acknowledgement_settled_once ops s o actions s1 transactional a later again :
  reachable ops s -> exec o s = (Ok actions, s1) -> uses_authority transactional a o ->
  uses_authority transactional a again -> refused again (stream_run later s1).
Proof.
  intros Hr E Hu Hag. apply reachable_numbered in Hr as Hn.
  destruct (settled_removed _ _ _ _ _ _ Hn E Hu) as [Ho Hp].
  eapply authority_refused; [|done]. apply stale_authority. left. by apply (pg_pending s1); [apply run_progress|..].
Qed.

(** ** Fencing *)

(** The calls that start a new epoch. *)
Definition fences (o : stream_op) (s : StreamConsumerModel) : Prop :=
  match o with
  | OpBeginIncarnation _ | OpReconnect _ _ _ | OpBeginSeek _ => True
  | OpRequireResync => sm_phase s <> ResyncRequired
  | OpClose => sm_phase s <> AgClosing /\ sm_phase s <> AgClosed
  | _ => False
  end.

(** After [next_authority], an epoch that was stored is the next one. *)
Lemma fence_raises {A} (k : Z * Z -> SM A) s :
  (forall g, wp (k (g, sm_delivery_epoch s + 1)) (fun r s' => is_ok r = true -> sm_delivery_epoch s < sm_delivery_epoch s') s) ->
  wp (next_authority ≫= k) (fun r s' => is_ok r = true -> sm_delivery_epoch s < sm_delivery_epoch s') s.
Proof.
  intros Hk. unfold next_authority. wp_step. do 2 wp_step; [|done]. do 2 wp_step; [|done]. wp_step.
  apply ok_or_ok_inv, checked_add_Some in Hr0 as [-> _]. apply Hk.
Qed.

Lemma positions_then (f : StreamConsumerModel -> StreamConsumerModel) (acts : list StreamConsumerAction) s :
  (forall s', sm_delivery_epoch s < sm_delivery_epoch (f s')) ->
  wp (_ ← clear_delivered_positions; _ ← modify f; mret acts)
     (fun r s' => is_ok r = true -> sm_delivery_epoch s < sm_delivery_epoch s') s.
Proof. intros Hf. apply wp_advances; [apply clear_delivered_advances| |done]. intros _ s' _. do 3 wp_step. auto. Qed.

Lemma begin_incarnation_raises i s :
  wp (begin_controller_incarnation i) (fun r s' => is_ok r = true -> sm_delivery_epoch s < sm_delivery_epoch s') s.
Proof.
  unfold begin_controller_incarnation. do 2 wp_step. do 2 wp_step; [|done]. do 2 wp_step. do 2 wp_step; [|done].
  apply fence_raises. intros g. do 2 wp_step. apply positions_then. intros s'. simpl. lia.
Qed.

Lemma fence_raises_epoch o s : fences o s ->
  wp (exec o) (fun r s' => is_ok r = true -> sm_delivery_epoch s < sm_delivery_epoch s') s.
Proof.
  intros Hf. destruct o; simpl in Hf; try done; unfold exec.
  - apply begin_incarnation_raises.
  - unfold apply_reconnect_baseline. wp_step. wp_step. eapply wp_mono; [apply begin_incarnation_raises|].
    intros [acts|e] s1 He; [|done]. specialize (He eq_refl). wp_step.
    eapply wp_mono; [apply apply_control_plane_advances|]. intros [l|e] s2 Hp; [|done]. wp_step. intros _.
    pose proof (pg_epoch _ _ Hp). lia.
  - unfold require_resync. do 2 wp_step. destruct_if E; [by rewrite bool_decide_eq_true in E|]. do 2 wp_step; [|done].
    apply fence_raises. intros g. do 2 wp_step. apply positions_then. intros s'. simpl. lia.
  - unfold close. do 2 wp_step. destruct_if E.
    { apply orb_true_iff in E as [E|E]; rewrite bool_decide_eq_true in E; by destruct Hf. }
    apply fence_raises. intros g. do 2 wp_step. apply positions_then. intros s'. simpl. lia.
  - unfold begin_seek. do 2 wp_step; [|done]. do 2 wp_step. do 2 wp_step; [|done]. do 2 wp_step; [|done]. cbv zeta.
    do 2 wp_step; [|done]. do 2 wp_step. do 2 wp_step; [|done]. do 2 wp_step; [|done].
    apply fence_raises. intros g. wp_step. apply wp_advances; [apply advances_collect; intros p; intros x; by apply progress_view, seek_child_view| |done].
    intros acts s1 _. do 2 wp_step. apply wp_advances; [apply clear_delivered_advances| |done].
    intros _ s2 P2. wp_step. intros _. pose proof (pg_epoch _ _ P2) as Hp. simpl in Hp. lia.
Qed.

(** C22: fencing is final.  Once a reconnection, a resynchronisation, a seek or a
    close has succeeded, every token and every authority issued up to then is
    refused after any sequence of later calls, by the idempotent cumulative
    admission too. *)
Theorem fencing_is_final o s actions s1 later :
  exec o s = (Ok actions, s1) -> fences o s ->
  (forall t again, tk_delivery_epoch t <= sm_delivery_epoch s -> uses_token t again ->
     refused again (stream_run later s1))
  /\ (forall transactional a again, aa_delivery_epoch a <= sm_delivery_epoch s ->
        uses_authority transactional a again -> refused again (stream_run later s1)).
Proof.
  intros E Hf. pose proof (fence_raises_epoch o s Hf) as He. unfold wp in He. rewrite E in He. specialize (He eq_refl).
  pose proof (pg_epoch _ _ (run_progress later s1)) as Hp. simpl in He. split.
  - intros t again Ht Hu. apply (token_refused t); [apply stale_token; right; lia|done|].
    intros _. apply stale_repeat. lia.
  - intros b a again Ha. apply authority_refused, stale_authority. right. lia.
Qed.
