(* ===== verification/StreamGrants.v ===== *)
(** * Permits of a stream consumer follow the order of its segments

    Every call, from any reachable state, grants message permits only to segments
    the ordering barrier allows: [emits] of each method, and the theorem for all
    of them. *)

From S2P Require Import Prelude Ids Frame SegmentTopic Assignment DagWatch DagOrder DagSession OrdinaryId StreamPosition ReceiverBudget StreamModel StreamOps StreamReceive StreamAcks StreamLedger StreamInv StreamEmits StreamKeeps StreamSpec.

(** * Plain actions *)

Lemma child_actions_plain f s :
  (forall c a, f c = Some a -> plain a) -> Forall plain (child_actions f s).
Proof. intros Hf. apply Forall_forall. intros a (c & _ & Ha)%list_elem_of_omap. by eapply Hf. Qed.

Lemma release_action_plain c a : release_action c = Some a -> plain a.
Proof. unfold release_action. destruct (ch_phase c); by intros [= <-]. Qed.

Lemma resync_action_plain c a : resync_action c = Some a -> plain a.
Proof. unfold resync_action. destruct (ch_phase c); try apply release_action_plain. done. Qed.

(** The release of every child, in the three fencing calls. *)
Lemma fence_quiet {A} (f : ChildState -> option StreamConsumerAction) (m : SM A) (h : StreamConsumerModel -> StreamConsumerModel) :
  (forall c a, f c = Some a -> plain a) ->
  quiet itself (actions ← gets (child_actions f); _ ← m; _ ← modify h; mret actions).
Proof.
  intros Hf s. do 2 wp_step. wp_step. unfold wp at 1. destruct (m s) as [[x|e] s']; simpl; [|done]. do 3 wp_step.
  intros ? [= <-]. by apply child_actions_plain.
Qed.

Lemma begin_controller_incarnation_quiet i : quiet itself (begin_controller_incarnation i).
Proof.
  unfold begin_controller_incarnation. do 4 (apply quiet_bind; intros ?). apply quiet_bind. intros [g e].
  apply fence_quiet, release_action_plain.
Qed.

Lemma require_resync_quiet : quiet itself require_resync.
Proof.
  unfold require_resync. apply quiet_bind. intros phase. destruct_if; [by apply quiet_ret|].
  apply quiet_bind. intros _. apply quiet_bind. intros [g e]. apply fence_quiet, resync_action_plain.
Qed.

Lemma close_quiet : quiet itself close.
Proof.
  unfold close. apply quiet_bind. intros phase. destruct_if; [by apply quiet_ret|].
  apply quiet_bind. intros [g e]. apply fence_quiet, release_action_plain.
Qed.

Lemma collect_quiet {A} (f : A -> SM (list StreamConsumerAction)) l :
  (forall x, quiet itself (f x)) -> quiet itself (collect_actions f l).
Proof.
  intros Hf. induction l as [|x l IH]; simpl; [by apply quiet_ret|].
  eapply quiet_after; [apply Hf|]. intros a Ha. eapply quiet_after; [apply IH|]. intros b Hb.
  apply quiet_ret. by apply Forall_app.
Qed.

Lemma seek_child_quiet p : quiet itself (seek_child p).
Proof.
  destruct p as [source i]. unfold seek_child. apply quiet_bind. intros c.
  eapply (quiet_after itself _ itself).
  - destruct (ch_flow_reservation c); [|by apply quiet_ret]. do 2 (apply quiet_bind; intros ?).
    apply quiet_ret. by repeat constructor.
  - intros stop Hs. apply quiet_bind. intros _. apply quiet_ret. apply Forall_app. split; [done|by repeat constructor].
Qed.

Lemma begin_seek_quiet v : quiet itself (begin_seek v).
Proof.
  unfold begin_seek. do 8 (apply quiet_bind; intros ?; cbv zeta). apply quiet_bind. intros [g e].
  apply quiet_atomically. eapply quiet_after; [apply collect_quiet, seek_child_quiet|]. intros acts Ha.
  do 2 (apply quiet_bind; intros ?). by apply quiet_ret.
Qed.

(** Assignments. *)
Lemma retire_child_plain w c c' acts : retire_child w c = (c', acts) -> Forall plain acts.
Proof.
  unfold retire_child. destruct (match ch_phase c with PhOpening => _ | _ => _ end) as [[c1 stop] l] eqn:E.
  assert (Forall plain l) by (destruct (ch_phase c); injection E as <- <- <-; by repeat constructor).
  destruct_if; [|destruct stop]; intros [= <- <-]; try apply Forall_app; try split; try done; by repeat constructor.
Qed.

Lemma retire_steps_plain r b l g :
  Forall plain (sg_actions g) -> Forall plain (sg_actions (foldl (retire_step r b) g l)).
Proof.
  revert g. induction l as [|[lost source] l IH]; intros g Hg; [done|]. simpl. apply IH. unfold retire_step. simpl.
  destruct (sg_children g !! lost) as [c|]; [|done]. case_decide; [|done].
  destruct (retire_child _ c) as [c' acts] eqn:E. simpl. apply Forall_app. split; [done|]. by eapply retire_child_plain.
Qed.

Lemma gain_loop_plain i n r cs before l g g' :
  gain_loop i n r cs before l g = Ok g' -> Forall plain (sg_actions g) -> Forall plain (sg_actions g').
Proof.
  revert g. induction l as [|[id [source ranges]] l IH]; intros g E Hg; simpl in E; [by injection E as <-|].
  inv_ok. eapply IH; [done|]. revert Hr. repeat (destruct_if; [by intros [= <-]|]). intros E'. inv_ok. simpl.
  apply Forall_app. split; [done|by repeat constructor].
Qed.

Lemma reconcile_quiet a r : quiet itself (reconcile_assignment a r).
Proof.
  unfold reconcile_assignment. do 4 (apply quiet_bind; intros ?). destruct_if; [by apply quiet_ret|].
  apply quiet_bind. intros next. cbv zeta. do 3 (apply quiet_bind; intros ?). intros s. do 2 wp_step. do 2 wp_step.
  do 2 wp_step; [|done]. do 3 wp_step. intros ? [= <-]. eapply gain_loop_plain; [done|]. by apply retire_steps_plain.
Qed.

(** * Methods that end with arbitration *)

Lemma apply_assignment_for_emits i a : emits itself (apply_assignment_for i a).
Proof.
  unfold apply_assignment_for. do 2 (apply emits_bind; [auto with stream|intros ?]). apply emits_atomically.
  eapply emits_after; [auto with stream|apply reconcile_quiet|apply arbitrate_last].
Qed.

Lemma apply_control_plane_for_emits i d a : emits itself (apply_control_plane_for i d a).
Proof.
  unfold apply_control_plane_for. do 4 (apply emits_bind; [auto with stream|intros ?]). apply emits_atomically.
  apply emits_bind; [by apply keeps_modify|intros _].
  eapply emits_after; [auto with stream|apply reconcile_quiet|]. intros acts Ha.
  apply emits_bind; [auto with stream|intros _]. by apply arbitrate_last.
Qed.

Lemma apply_reconnect_baseline_emits i d a : emits itself (apply_reconnect_baseline i d a).
Proof.
  unfold apply_reconnect_baseline. apply emits_atomically.
  eapply emits_after; [auto with stream|apply begin_controller_incarnation_quiet|]. intros acts Ha.
  eapply (emits_map itself _ itself).
  - unfold apply_control_plane. apply emits_bind; [auto with stream|intros ?]. apply apply_control_plane_for_emits.
  - intros l s Hl. apply Forall_app. split; [by apply plain_allowed|done].
Qed.


(** * Entries *)

Lemma complete_arrival_emits id g flow purpose work bytes :
  Forall (fun n => 0 <= n) bytes -> emits snd (complete_preallocated_arrival id g flow purpose work bytes).
Proof.
  intros Hn ex s H. eapply wp_mono; [by apply complete_arrival_spec|].
  intros [[l acts]|e] s'; [|by intros ->]. intros (H' & Hg & _). split; [done|]. intros ? [= <-].
  by apply granted_allowed.
Qed.

(** [let [reservation] = retained; Ok((reservation, actions))] *)
Lemma last_retained_emits (m : SM (list Z * list StreamConsumerAction)) id kind :
  emits snd m ->
  emits snd ('(retained, actions) ← m; retained ← lift (unbalanced id kind (last retained)); mret (retained, actions)).
Proof.
  intros Hm ex s H. wp_step. eapply wp_mono; [by apply Hm|]. intros [[l acts]|e] s' [H' Ha]; [|done].
  do 2 wp_step; [|done]. wp_step. split; [done|]. intros ? [= <-]. by apply (Ha _ eq_refl).
Qed.

Lemma message_arrived_preallocated_emits id g flow work n :
  0 <= n -> emits snd (message_arrived_preallocated id g flow work n).
Proof. intros Hn. apply last_retained_emits. apply complete_arrival_emits. by constructor. Qed.

Lemma chunk_message_arrived_emits id g flow assembly work n :
  0 <= n -> emits snd (chunk_message_arrived id g flow assembly work n).
Proof.
  intros Hn. unfold chunk_message_arrived. do 2 (apply emits_bind; [auto with stream|intros ?]).
  apply last_retained_emits. apply complete_arrival_emits. by constructor.
Qed.

Lemma batch_arrived_preallocated_emits id g flow work bytes :
  Forall (fun n => 0 <= n) bytes -> emits snd (batch_arrived_preallocated id g flow work bytes).
Proof.
  intros Hn. unfold batch_arrived_preallocated. destruct_if; [|by apply complete_arrival_emits].
  apply emits_bind; [auto with stream|]. by intros c ex s H.
Qed.

Lemma chunk_frame_buffered_quiet id g flow assembly n : quiet snd (chunk_frame_buffered id g flow assembly n).
Proof.
  unfold chunk_frame_buffered. apply quiet_bind. intros c. cbv zeta. apply quiet_bind. intros _.
  apply quiet_atomically. apply quiet_bind. intros [x y]. do 3 (apply quiet_bind; intros ?). apply quiet_ret.
  by repeat constructor.
Qed.

(** A discarded entry: the permits of its two arbitrations. *)
Lemma discard_allowed ex s id g flow purpose work :
  stream_ok ex s ->
  wp (discard_preallocated_arrival id g flow purpose work)
     (fun r s' => forall l, r = Ok l -> Forall (allowed s') l) s.
Proof.
  intros H. unfold discard_preallocated_arrival. wp_step.
  eapply wp_mono; [by apply (complete_arrival_spec ex); [|repeat constructor]|].
  intros [[retained acts]|e] s1; [|done].
  intros (H1 & Hg & c & Hc & Hgen & _ & Hin). wp_step.
  apply Forall2_cons_inv_r in Hin as (rid & l & (r & Hr & Ho & Hu & _) & Hl & ->).
  apply Forall2_nil_inv_r in Hl as ->.
  assert (Hw : work_use (dr_use r)) by (left; done). simpl. wp_step. wp_step; [|done].
  pose proof (ok_release_work ex s1 id c H1 Hc rid r b Hr Ho Hw Hb) as H2. wp_step. wp_step.
  eapply wp_mono; [exact (close_then_arbitrate_spec _ id g _ H2)|]. intros [l|e] s' (_ & Hl & S); [|done]. wp_step.
  intros ? [= <-]. apply Forall_app. split; [|by apply Hl]. eapply allowed_still; [|by apply granted_allowed].
  etrans; [|exact S]. apply still_children; try done; [|eauto 10]. simpl.
  apply release_inv in Hb as (x & _ & ->). intros i y Hy Hyu. rewrite lookup_delete_ne; [done|]. intros <-. congruence.
Qed.

(** * Settlements *)

(** A sequence of calls whose permits stay. *)
Lemma collect_still {A} (f : A -> SM (list StreamConsumerAction)) l ex s :
  (forall x s, stream_ok ex s ->
     wp (f x) (fun r s' => stream_ok ex s' /\ (forall l, r = Ok l -> Forall (allowed s') l) /\ still s s') s) ->
  stream_ok ex s ->
  wp (collect_actions f l)
     (fun r s' => stream_ok ex s' /\ (forall l, r = Ok l -> Forall (allowed s') l) /\ still s s') s.
Proof.
  intros Hf. revert s. induction l as [|x l IH]; intros s H; simpl.
  { wp_step. split_and!; [done| |done]. by intros ? [= <-]. }
  wp_step. eapply wp_mono; [by apply Hf|]. intros [a|e] s1 (H1 & A1 & S1); [|done]. wp_step.
  eapply wp_mono; [by apply IH|]. intros [b|e] s2 (H2 & A2 & S2); [|split_and!; [done|done|by etrans]].
  wp_step. split_and!; [done| |by etrans]. intros ? [= <-]. apply Forall_app. split; [|by apply A2].
  eapply allowed_still; [done|]. by apply A1.
Qed.

Lemma settle_component_quiet t component : quiet itself (settle_component t component).
Proof.
  unfold settle_component, settle_transactional_ack, settle_ack. destruct t;
    do 4 (apply quiet_bind; intros ?); apply close_if_drained_quiet.
Qed.

Lemma settle_acknowledgement_emits a sources : emits itself (settle_acknowledgement a sources).
Proof.
  unfold settle_acknowledgement, settle_acknowledgement_counters. apply emits_bind; [auto with stream|intros p].
  apply emits_atomically. apply emits_bind; [apply keeps_modify; intros; apply remove_pending_view|intros _].
  eapply emits_after; [auto with stream|apply collect_quiet, settle_component_quiet|]. intros acts Ha.
  apply emits_bind; [apply confirm_components_keeps|intros _].
  eapply (emits_map itself _ itself).
  - intros ex s H. eapply wp_mono; [apply (collect_still _ _ ex)|]; [|done|].
    + intros d s' H'. destruct_if; [by apply resolve_delivery_sequence_spec|]. wp_step.
      split_and!; [done| |done]. by intros ? [= <-].
    + intros r s' (H' & Hl & _). done.
  - intros l s Hl. apply Forall_app. split; [by apply plain_allowed|done].
Qed.

Lemma cancel_transactional_quiet a : quiet itself (cancel_transactional_acknowledgement a).
Proof.
  unfold cancel_transactional_acknowledgement. apply quiet_bind. intros p. apply quiet_atomically.
  apply quiet_bind. intros _. apply collect_quiet, settle_component_quiet.
Qed.

Lemma settle_transactional_emits a outcome : emits itself (settle_transactional_acknowledgement a outcome).
Proof.
  unfold settle_transactional_acknowledgement, settle_acknowledgement_counters.
  apply emits_bind; [auto with stream|intros p].
  apply emits_atomically. apply emits_bind; [apply keeps_modify; intros; apply remove_pending_view|intros _].
  eapply emits_after; [auto with stream|apply collect_quiet, settle_component_quiet|]. intros acts Ha.
  eapply (emits_map itself _ itself).
  - destruct outcome.
    + intros ex s H. eapply wp_mono; [apply (collect_still _ _ ex)|]; [|done|].
      * intros d s' H'. by apply resolve_delivery_sequence_spec.
      * intros r s' (H' & Hl & _). done.
    + apply emits_quiet; [auto with stream|by apply quiet_ret].
    + apply emits_quiet; [auto with stream|apply require_resync_quiet].
  - intros l s Hl. apply Forall_app. split; [by apply plain_allowed|done].
Qed.

(** * Every call *)

Lemma actions_of_emits {A} (m : SM (A * list StreamConsumerAction)) : emits snd m -> emits itself (actions_of m).
Proof. intros Hm. by eapply (emits_map itself _ snd). Qed.

Lemma no_actions_quiet {A} (m : SM A) : quiet itself (no_actions m).
Proof. apply quiet_bind. intros a. by apply quiet_ret. Qed.

#[export] Hint Resolve apply_assignment_for_emits apply_control_plane_for_emits apply_reconnect_baseline_emits
  seek_completed_emits child_opened_emits child_closed_emits observe_terminal_emits complete_segment_emits
  cancel_receive_work_emits chunk_message_arrived_emits message_arrived_preallocated_emits
  batch_arrived_preallocated_emits message_arrived_emits settle_acknowledgement_emits
  settle_transactional_emits actions_of_emits : grants.

Lemma resolve_delivery_emits t : emits itself (resolve_delivery t).
Proof.
  unfold resolve_delivery. do 3 (apply emits_bind; [auto with stream|intros ?]). intros ex s H.
  eapply wp_mono; [by apply resolve_delivery_sequence_spec|]. by intros r s' (? & ? & _).
Qed.
#[export] Hint Resolve resolve_delivery_emits : grants.

(** The hooks that settle a counter close a drained child and grant nothing. *)
Lemma settle_hook_quiet id g :
  quiet itself (settle_ack id g) /\ quiet itself (settle_transactional_ack id g)
  /\ quiet itself (settle_pre_terminal_reservation id g).
Proof.
  unfold settle_ack, settle_transactional_ack, settle_pre_terminal_reservation.
  split_and!; do 4 (apply quiet_bind; intros ?); apply close_if_drained_quiet.
Qed.

Lemma exec_quiet_or_emits o : op_ok o -> ~ is_drift o -> emits itself (exec o).
Proof.
  intros Ho Hd. pose proof (exec_keeps o Ho Hd) as Hk.
  assert (Hq : quiet itself (exec o) -> emits itself (exec o)) by (by apply emits_quiet).
  destruct o as [| | | | | | | | | | | | | | | | | | | | | | | |? []|? []|? []| | |? []| |? ? []|id g []| | ]; simpl in *;
    try (by destruct Hd); try (by apply Hq, no_actions_quiet); auto with grants.
  - apply Hq, begin_controller_incarnation_quiet.
  - apply Hq, require_resync_quiet.
  - apply Hq, close_quiet.
  - apply Hq, begin_seek_quiet.
  - apply actions_of_emits. apply emits_quiet; [by apply chunk_frame_buffered_keeps|apply chunk_frame_buffered_quiet].
  - apply Hq, cancel_transactional_quiet.
  - apply settle_acknowledgement_emits.
  - apply Hq, (settle_hook_quiet id g).
  - apply Hq, (settle_hook_quiet id g).
Qed.

Lemma permitted_means s id :
  permitted s id ->
  (forall a, ~ pruned (sm_dag s) id a)
  /\ (forall a, ancestor (snap_segments (sm_dag s)) a id -> a ∈ sm_ownership_history s -> a ∈ sm_completed s)
  /\ (sm_ordering_mode s = Strict -> forall a, ancestor (snap_segments (sm_dag s)) a id -> a ∈ sm_ownership_history s).
Proof.
  intros (e & He & Hp). pose proof (ordering_answer (sm_dag s) (sm_ownership_history s) (sm_completed s) id (sm_ordering_mode s)) as Ha.
  rewrite He in Ha. unfold unfinished, remote in Ha. destruct e; simpl in *; try done.
  - split_and!; [by apply Ha| |].
    + intros a Han Ho. destruct (decide (a ∈ sm_completed s)); [done|]. destruct (Ha a) as (_ & _ & Hn). by destruct Hn.
    + intros _ a Han. destruct (decide (a ∈ sm_ownership_history s)); [done|]. destruct (Ha a) as (_ & Hn & _). by destruct Hn.
  - destruct Ha as (Hm & _ & _ & Ha). split_and!; [by apply Ha| |congruence].
    intros a Han Ho. destruct (decide (a ∈ sm_completed s)); [done|]. destruct (Ha a) as (_ & Hn). by destruct Hn.
Qed.

(** C17: permits follow the order of the segments.  Whatever call succeeds in a
    reachable state, a permit for a message among its actions goes to a segment
    none of whose ancestors was pruned away, all of whose ancestors this consumer
    has read are complete and, in strict mode, all of whose ancestors it has read;
    the segment's child flows, names that permit, and a full frame is reserved
    for it. *)
Theorem permits_follow_order ops s o actions s1 source incarnation generation reservation :
  reachable ops s -> op_ok o -> exec o s = (Ok actions, s1) ->
  GrantFlow source incarnation generation reservation FpMessage ∈ actions ->
  let id := src_segment_id source in
  ((forall a, ~ pruned (sm_dag s1) id a)
   /\ (forall a, ancestor (snap_segments (sm_dag s1)) a id -> a ∈ sm_ownership_history s1 -> a ∈ sm_completed s1)
   /\ (sm_ordering_mode s1 = Strict ->
        forall a, ancestor (snap_segments (sm_dag s1)) a id -> a ∈ sm_ownership_history s1))
  /\ exists c r, sm_children s1 !! id = Some c /\ ch_source c = source /\ ch_generation c = generation
       /\ ch_controller_incarnation c = incarnation /\ ch_phase c = Flowing
       /\ ch_flow_reservation c = Some reservation
       /\ bs_reservations (sm_budget s1) !! reservation = Some r /\ dr_use r = FlowPermit /\ dr_bytes r = MAX_FRAME_SIZE.
Proof.
  intros Hr Ho E Hin id. destruct (reachable_ok _ _ Hr) as (ex & H).
  assert (Hall : Forall (allowed s1) actions).
  { destruct (decide (is_drift o)) as [Hd|Hd].
    - assert (Hq : quiet itself (exec o) -> Forall (allowed s1) actions).
      { intros Hq. specialize (Hq s). unfold wp in Hq. rewrite E in Hq. by apply plain_allowed, Hq. }
      destruct o; try done; [|apply Hq, no_actions_quiet|apply Hq, settle_hook_quiet].
      pose proof (discard_allowed ex s segment_id generation0 flow purpose work H) as Hw.
      unfold wp in Hw. simpl in E. rewrite E in Hw. by apply Hw.
    - pose proof (exec_quiet_or_emits o Ho Hd ex s H) as Hw. unfold wp in Hw. rewrite E in Hw. by apply Hw. }
  rewrite Forall_forall in Hall. destruct (Hall _ Hin) as [[]|[Hp Hc]]. split; [by apply permitted_means|done].
Qed.

(** * Arbitration leaves nobody waiting for nothing *)

(** A full frame would fit. *)
Definition room (s : StreamConsumerModel) : Prop :=
  exists o, is_ok (reserve_owned o FlowPermit MAX_FRAME_SIZE (sm_budget s)) = true.

Lemma room_owner o s :
  is_ok (reserve_owned o FlowPermit MAX_FRAME_SIZE (sm_budget s)) = false -> ~ room s.
Proof.
  intros Hf [o' Ho]. revert Hf Ho. unfold reserve_owned, reserve_inner. cbv zeta.
  repeat (destruct_if; [done|]). by destruct (checked_add _ _ _).
Qed.

Lemma ready_before s s' id : arbitrated s s' -> ready s' id -> ready s id.
Proof.
  intros A [Hp (c' & Hc' & Ho)]. split; [by apply (permitted_frame _ _ _ A)|].
  pose proof (arb_children _ _ A id) as Hch. rewrite Hc' in Hch. inversion Hch as [c ? Hr E1 E2|]; subst.
  exists c. split; [done|]. destruct Hr as [->|(? & _)]; done.
Qed.

Lemma refresh_ordering_ready s id : ready s id -> (refresh_ordering id s).1 = true.
Proof.
  intros [(e & He & Hp) (c & Hc & b & Hb)]. unfold refresh_ordering. rewrite Hc, Hb, He. by destruct e.
Qed.

Lemma refresh_all_ready ids eligible s e' s' id :
  refresh_all ids eligible s = (e', s') -> ready s id -> id ∈ ids \/ id ∈ eligible -> id ∈ e'.
Proof.
  revert eligible s. induction ids as [|i ids IH]; intros eligible s E Hr Hin; simpl in E.
  { injection E as <- <-. destruct Hin as [Hin|]; [by apply not_elem_of_nil in Hin|done]. }
  destruct (refresh_ordering i s) as [ok s1] eqn:E1. eapply IH; [exact E|by eapply refresh_ordering_other|].
  destruct Hin as [[->|Hin]%elem_of_cons|Hin]; [|by left|right; destruct ok; set_solver].
  right. pose proof (refresh_ordering_ready s i Hr) as Hok. rewrite E1 in Hok. simpl in Hok. subst. set_solver.
Qed.

(** The actions so far do not matter to the state. *)
Lemma grant_loop_state candidates a a' s : (grant_loop candidates a s).2 = (grant_loop candidates a' s).2.
Proof.
  revert a a' s. induction candidates as [|[[id owner] n] rest IH]; intros a a' s; [done|].
  simpl. unfold mbind, SM_bind, lift. destruct (exhausted _ _ _); [|done].
  destruct (reserve_owned _ _ _ _) as [[rid b]|e]; [|done]. simpl. destruct (sm_children s !! id); apply IH.
Qed.

Lemma grant_loop_arbitrated ex candidates actions s :
  stream_ok ex s -> sm_phase s = AgOpen -> NoDup (candidates.*1.*1) -> Forall (candidate s) candidates ->
  arbitrated s (grant_loop candidates actions s).2.
Proof.
  intros H Hop Hnd Hcand. destruct (grant_loop_spec ex candidates [] s H Hop Hnd Hcand) as (_ & A & _); [constructor|].
  by rewrite (grant_loop_state _ actions []).
Qed.

Lemma grant_loop_complete ex candidates actions s :
  stream_ok ex s -> sm_phase s = AgOpen -> NoDup (candidates.*1.*1) -> Forall (candidate s) candidates ->
  wp (grant_loop candidates actions)
     (fun r s' => is_ok r = true -> room s' -> forall id, id ∈ candidates.*1.*1 ->
        exists c, sm_children s' !! id = Some c /\ ~ open_blocked c) s.
Proof.
  revert actions s. induction candidates as [|[[id owner] n] rest IH]; intros actions s H Hop Hnd Hcand.
  { simpl. wp_step. intros _ _ i Hi. by apply not_elem_of_nil in Hi. }
  apply Forall_cons in Hcand as [Hc Hcand]. csimpl in Hnd. apply NoDup_cons in Hnd as [Hid Hnd].
  destruct Hc as (Hp & c & Hc & Hob & <- & <-). simpl. wp_step. wp_step; [|done].
  unfold exhausted in Hr. apply ok_or_ok_inv, checked_add_Some in Hr as [-> _].
  unfold wp. destruct (reserve_owned _ _ _ _) as [[rid b]|e] eqn:Hb; simpl.
  2: { intros _ Hroom. exfalso. revert Hroom. apply (room_owner (child_owner c)). by rewrite Hb. }
  rewrite Hc. destruct (grant_ok ex s id c rid b H Hop Hc Hob Hb) as (H' & A & _).
  set (s' := _ <| sm_flow_cursor := _ |>) in *. set (acts := actions ++ _).
  assert (Hcand' : Forall (candidate s') rest).
  { apply Forall_forall. intros [[i o] m] Hin. rewrite Forall_forall in Hcand.
    destruct (Hcand _ Hin) as (Hp' & x & Hx & Hxs). split; [by apply (permitted_frame _ _ _ A)|].
    exists x. simpl. rewrite lookup_insert_ne; [done|]. intros ->. destruct Hid.
    apply list_elem_of_fmap. exists (i, o). split; [done|]. apply list_elem_of_fmap. by eexists (i, o, m). }
  specialize (IH acts s' H' Hop Hnd Hcand'). unfold wp in IH. intros Hok Hroom i [->|Hi]%elem_of_cons; [|by apply IH].
  assert (Hch : option_Forall2 regranted (sm_children s' !! id) (sm_children (grant_loop rest acts s').2 !! id)).
  { destruct (grant_loop_arbitrated ex rest acts s' H' Hop Hnd Hcand') as [_ _ Har]. apply Har. }
  subst s'. simpl in Hch. rewrite lookup_insert_eq in Hch. inversion Hch as [x y Hreg E1 E2|]; subst.
  exists y. split; [done|]. apply regranted_same in Hreg as (_ & _ & _ & _ & _ & Hsame). rewrite Hsame; by intros [? ?].
Qed.

Lemma arbitrate_complete ex s :
  stream_ok ex s ->
  wp arbitrate_flow (fun r s' => is_ok r = true -> sm_phase s' = AgOpen -> room s' -> forall id, ~ ready s' id) s.
Proof.
  intros H. unfold wp, arbitrate_flow. destruct_if E; [intros _ Hop; by rewrite negb_true_iff, bool_decide_eq_false in E|].
  rewrite negb_false_iff, bool_decide_eq_true in E. set (ids := btree_elems (dom (sm_children s))).
  destruct (refresh_all ids ∅ s) as [eligible s1] eqn:Er.
  destruct (refresh_all_spec ex _ ∅ s eligible s1 H E Er) as (H1 & A1 & R1); [set_solver|].
  assert (Hel : forall id, ready s1 id -> id ∈ eligible).
  { intros id Hr. pose proof (ready_before _ _ _ A1 Hr) as Hr0. eapply refresh_all_ready; [done..|]. left.
    apply elem_of_btree_elems. destruct Hr0 as [_ (c & Hc & _)]. by eapply elem_of_dom_2. }
  destruct_if E2; [rewrite bool_decide_eq_true in E2; intros _ _ _ id Hid%Hel; set_solver|].
  set (start := flow_start _ _). assert (Hnd : NoDup (drop start ids ++ take start ids)).
  { rewrite Permutation_app_comm, take_drop. apply NoDup_btree_elems. }
  assert (Hall : forall id, ready s1 id -> id ∈ drop start ids ++ take start ids).
  { intros id [_ (c & Hc & _)]. rewrite Permutation_app_comm, take_drop. apply elem_of_btree_elems.
    pose proof (arb_children _ _ A1 id) as Hch. rewrite Hc in Hch. inversion Hch as [x ? ? E1|]. by eapply elem_of_dom_2. }
  revert Hnd Hall. generalize (drop start ids ++ take start ids). intros ordered Hnd Hall.
  assert (Hop1 : sm_phase s1 = AgOpen) by (by rewrite (arb_frame _ _ A1)).
  destruct (candidates_spec eligible ordered s1 Hnd R1) as (Hids & Hcn & Hcand).
  pose proof (grant_loop_complete ex _ [] s1 H1 Hop1 Hcn Hcand) as G. unfold wp in G.
  pose proof (grant_loop_arbitrated ex _ [] s1 H1 Hop1 Hcn Hcand) as A2.
  intros Hok _ Hroom id Hid. pose proof (ready_before _ _ _ A2 Hid) as Hid1.
  destruct (G Hok Hroom id) as (c & Hc & Hn); [rewrite Hids; apply list_elem_of_filter; auto|].
  destruct Hid as [_ (c' & Hc' & Ho)]. congruence.
Qed.

(** C23: arbitration leaves no permit unused.  When [arbitrate_flow] returns, in a
    reachable open state, a child that still waits although the ordering barrier
    allows it waits for budget: not one more frame would fit. *)
Theorem arbitration_complete ops s actions s1 id :
  reachable ops s -> sm_phase s = AgOpen -> arbitrate_flow s = (Ok actions, s1) ->
  permitted s1 id -> (exists c b, sm_children s1 !! id = Some c /\ ch_phase c = OpenBlocked b) ->
  forall owner, is_ok (reserve_owned owner FlowPermit MAX_FRAME_SIZE (sm_budget s1)) = false.
Proof.
  intros Hr Hop E Hp (c & b & Hc & Hb) owner. destruct (reachable_ok _ _ Hr) as (ex & H).
  pose proof (arbitrate_complete ex s H) as Hw. destruct (arbitrate_spec ex s H) as (_ & A & _).
  unfold wp in Hw. rewrite E in Hw, A. simpl in *.
  destruct (is_ok (reserve_owned owner FlowPermit MAX_FRAME_SIZE (sm_budget s1))) eqn:Eo; [|done].
  destruct (Hw eq_refl) with (id := id); [by rewrite (arb_frame _ _ A)|by exists owner|].
  split; [done|]. exists c. split; [done|]. by exists b.
Qed.
