(* ===== verification/StreamEntriesSpec.v ===== *)
(** * Entries of a stream consumer: chunks, batches and what they cost

    The chunk chain of a child assembles exactly the message that was cut up;
    expanding a batch reads the members the ordinary consumer reads; the methods
    act on the model only through its calls; and what is buffered or queued is
    paid for in the receive budget. *)

From S2P Require Import Prelude Ids Frame Compress BatchAck Producer BatchBody Consumer SegmentTopic Assignment DagWatch OrdinaryId StreamPosition ReceiverBudget StreamModel StreamOps StreamReceive StreamAcks StreamLedger StreamInv StreamEmits StreamKeeps StreamSpec StreamEntries.

(** * Assembly of a chunked message *)

(** One entry handed to [accept_entry], with the permit and the model it met. *)
Record arrival := mkArrival {
  ar_model : StreamConsumerModel;
  ar_flow : Z;
  ar_entry : DeferredIncomingMessage;
}.

Definition accept_arrival (id g : Z) (a : arrival) (chunks : StreamReceiveState)
    : result StreamConsumerModelError (StreamEntryAcceptance * StreamReceiveState) :=
  (accept_entry id g (ar_flow a) (ar_entry a) chunks (ar_model a)).1.

(** Entries of one child that are buffered, one after the other; between two of
    them the model may have gone through anything. *)
Inductive gathers (id g : Z) : list arrival -> StreamReceiveState -> StreamReceiveState -> Prop :=
| gathers_nil chunks : gathers id g [] chunks chunks
| gathers_cons a l chunks chunks' chunks'' actions :
    accept_arrival id g a chunks = Ok (Buffered actions, chunks') ->
    gathers id g l chunks' chunks'' -> gathers id g (a :: l) chunks chunks''.

(** The entry is one of the pieces [parts] of a message. *)
Definition piece_of (parts : list bytes) (e : DeferredIncomingMessage) : Prop :=
  md_num_chunks_from_msg (im_metadata (df_message e)) = Some (blen parts)
  /\ exists i, md_chunk_id (im_metadata (df_message e)) = Some i /\ 0 <= i
       /\ parts !! Z.to_nat i = Some (im_payload (df_message e)).

(** The pieces held so far. *)
Definition holds (parts : list bytes) (m : gmap Z bytes) : Prop :=
  forall i p, m !! i = Some p -> 0 <= i /\ parts !! Z.to_nat i = Some p.

Lemma holds_insert parts m i p :
  holds parts m -> 0 <= i -> parts !! Z.to_nat i = Some p -> holds parts (<[i := p]> m).
Proof. intros Hm Hi Hp j q [[<- <-]|[_ Hj]]%lookup_insert_Some; auto. Qed.

Lemma seqZ_increasing (m : Z) (n : nat) : StronglySorted key_lt (seqZ m (Z.of_nat n)).
Proof.
  revert m. induction n as [|n IH]; intros m; [constructor|].
  rewrite seqZ_cons by lia. replace (Z.pred (Z.of_nat (S n))) with (Z.of_nat n) by lia.
  constructor; [apply IH|]. apply Forall_forall. intros x [i Hx]%list_elem_of_lookup_1.
  apply lookup_seqZ in Hx as [-> _]. split; [apply key_le_Z; lia|lia].
Qed.

(** All pieces, in order. *)
Lemma holds_all parts m : holds parts m -> size m = length parts -> (btree_items m).*2 = parts.
Proof.
  intros Hm Hs. set (l := zip (seqZ 0 (blen parts)) parts).
  assert (Hlen : length (seqZ 0 (blen parts)) = length parts) by (rewrite length_seqZ; unfold blen; lia).
  assert (Hkeys : l.*1 = seqZ 0 (blen parts)) by (apply fst_zip; lia).
  assert (Hsorted : StronglySorted key_lt l.*1).
  { rewrite Hkeys. apply seqZ_increasing. }
  assert (Hml : m = list_to_map l).
  { apply map_subseteq_size_eq.
    - apply map_subseteq_spec. intros i p Hi. destruct (Hm i p Hi) as [Hp Hl].
      apply elem_of_list_to_map; [by apply sorted_lt_NoDup|]. apply list_elem_of_lookup. exists (Z.to_nat i).
      unfold l. rewrite lookup_zip_with, Hl. apply lookup_lt_Some in Hl.
      rewrite lookup_seqZ_lt by (unfold blen; lia). simpl. do 2 f_equal. lia.
    - rewrite map_size_list_to_map by (by apply sorted_lt_NoDup). unfold l. rewrite length_zip. lia. }
  rewrite Hml, btree_items_list_to_map by done. apply snd_zip. lia.
Qed.

Section Assembly.
Context `{!Allocation, !ProtoMessage MessageMetadata, !ProtoMessage SingleMessageMetadata,
          !ProtoMessage BrokerEntryMetadata}.
Context (id g : Z).
Notation owner := (mkOwner id g).
Implicit Types (e : DeferredIncomingMessage) (chunks : StreamReceiveState).

(** The chunk number and the payload of an entry. *)
Definition number_of (e : DeferredIncomingMessage) : Z := default 0 (md_chunk_id (im_metadata (df_message e))).
Definition piece (e : DeferredIncomingMessage) : Z * bytes := (number_of e, im_payload (df_message e)).

(** What an accepted chunk satisfies, and what becomes of its chain. *)
Record accepted_chunk (e : DeferredIncomingMessage) (chunks : StreamReceiveState) (n size : Z) : Prop := {
  ac_count : md_num_chunks_from_msg (im_metadata (df_message e)) = Some n;
  ac_bound : 1 < n <= MAX_CHUNK_TOTAL;
  ac_number : md_chunk_id (im_metadata (df_message e)) = Some (number_of e) /\ 0 <= number_of e < n;
  ac_size : md_total_chunk_msg_size (im_metadata (df_message e)) = Some size;
  ac_first : chunks !! owner = None -> number_of e = 0;
  ac_next c : chunks !! owner = Some c ->
    pc_expected_chunks c = n /\ pc_total_size c = size /\ pc_payloads c !! number_of e = None
    /\ md_uuid (im_metadata (df_message e)) = Some (pc_uuid c);
}.

Definition buffered_as (e : DeferredIncomingMessage) (n size : Z) (existing : option PendingStreamChunk)
    (c' : PendingStreamChunk) : Prop :=
  pc_payloads c' = <[number_of e := im_payload (df_message e)]> (from_option pc_payloads ∅ existing)
  /\ pc_expected_chunks c' = n /\ pc_total_size c' = size
  /\ pc_first_message_id c' = from_option pc_first_message_id (df_message_id_data e) existing
  /\ Z.of_nat (stdpp.base.size (from_option pc_payloads ∅ existing)) + 1 <> n.

Definition completed_as (e : DeferredIncomingMessage) (n size : Z) (c : PendingStreamChunk)
    (r : StreamCompleteEntry) : Prop :=
  let payloads := <[number_of e := im_payload (df_message e)]> (pc_payloads c) in
  im_payload (se_message r) = mjoin (btree_items payloads).*2
  /\ se_message_id_data r = (df_message_id_data e) <| pb_first_chunk := Some (pc_first_message_id c) |>
  /\ checked_add usize_max (buffered_bytes c) (blen (im_payload (df_message e))) = Some size
  /\ Z.of_nat (stdpp.base.size (pc_payloads c)) + 1 = n.

Lemma buffer_chunk_spec flow uuid n size i e existing chunks s :
  i = number_of e -> (forall c, existing = Some c -> pc_expected_chunks c = n /\ pc_total_size c = size) ->
  Z.of_nat (stdpp.base.size (from_option pc_payloads ∅ existing)) + 1 <> n ->
  wp (buffer_chunk id g flow uuid n size i e existing chunks)
     (fun r _ => match r with
      | Ok (Buffered _, chunks') => exists c', chunks' = <[owner := c']> chunks /\ buffered_as e n size existing c'
      | Ok (CompleteEntry _, _) => False
      | Err _ => True
      end) s.
Proof.
  intros -> He Hn. unfold buffer_chunk, chunk_error. do 2 wp_step; [|done]. do 2 wp_step; [|done].
  do 2 wp_step; [|done]. apply wp_bind. red.
  destruct (chunk_frame_buffered _ _ _ _ _ _) as [[[assembly actions]|err] s']; [|done]. simpl.
  eexists. split; [done|]. destruct existing as [c|]; [|by split_and!]. destruct (He c eq_refl) as [Hc1 Hc2]. by split_and!.
Qed.

Lemma finish_chunk_spec flow n size i e existing chunks s :
  i = number_of e -> Z.of_nat (stdpp.base.size (from_option pc_payloads ∅ existing)) + 1 = n ->
  wp (finish_chunk id g flow size i e existing chunks)
     (fun r _ => match r with
      | Ok (Buffered _, _) => False
      | Ok (CompleteEntry r, chunks') =>
          exists c, existing = Some c /\ chunks' = delete owner chunks /\ completed_as e n size c r
      | Err _ => True
      end) s.
Proof.
  intros -> Hn. unfold finish_chunk, chunk_error. do 2 wp_step; [|done]. do 2 wp_step; [|done].
  do 2 wp_step; [|done]. wp_step. unfold overflow in *. inv_ok. subst existing. exists r.
  rewrite negb_false_iff, Z.eqb_eq in Hguard. subst. by split_and!.
Qed.

Definition whole_entry (flow : Z) (e : DeferredIncomingMessage) : StreamCompleteEntry :=
  mkComplete (df_message e) (df_message_id_data e) (df_ack_set e) (df_dispatch_permits e) (EcMessage flow).

(** The number of chunks held before [e]. *)
Definition held (chunks : StreamReceiveState) : Z :=
  Z.of_nat (stdpp.base.size (from_option pc_payloads ∅ (chunks !! owner))).

(** An entry is whole, or rejected, or a chunk that passed every guard. *)
Lemma accept_cases (Q : _ -> _ -> Prop) flow e chunks s :
  (forall err, Q (Err err) s) ->
  ((forall n, md_num_chunks_from_msg (im_metadata (df_message e)) = Some n -> n <= 1) ->
     Q (Ok (CompleteEntry (whole_entry flow e), chunks)) s) ->
  (forall n size uuid, accepted_chunk e chunks n size -> 0 < size ->
     wp (if held chunks + 1 =? n
         then finish_chunk id g flow size (number_of e) e (chunks !! owner) chunks
         else buffer_chunk id g flow uuid n size (number_of e) e (chunks !! owner) chunks) Q s) ->
  wp (accept_entry id g flow e chunks) Q s.
Proof.
  intros Herr Hwhole Hchunk. unfold accept_entry.
  destruct (md_num_chunks_from_msg _) as [n|] eqn:En; [|by apply Hwhole].
  destruct_if Hn1; [apply Hwhole; intros ? [= <-]; lia|].
  unfold accept_chunk, chunk_error. do 2 wp_step; [|done]. do 2 wp_step; [|done].
  do 2 wp_step; [|done]. do 2 wp_step; [|done]. do 2 wp_step; [|done]. do 2 wp_step; [|done]. do 2 wp_step; [|done].
  wp_step. inv_ok. apply bind_Some in Hr0 as (sz & Esz & Hsz). destruct (Z.gtb_spec sz 0) as [Hpos|]; [|done].
  injection Hsz as ->.
  assert (Enum : number_of e = r) by (unfold number_of; by rewrite Hr). subst r.
  assert (Hsize : saturating_add usize_max (from_option (fun c => Z.of_nat (size (pc_payloads c))) 0 (chunks !! owner)) 1
      = Z.min usize_max (held chunks + 1)) by (unfold held; by destruct (chunks !! owner)).
  assert (Hlast : (Z.min usize_max (held chunks + 1) =? n) = (held chunks + 1 =? n)).
  { unfold MAX_CHUNK_TOTAL in *. destruct (Z.eqb_spec (held chunks + 1) n);
      [apply Z.eqb_eq|apply Z.eqb_neq]; unfold usize_max, u64_max in *; lia. }
  rewrite Hsize, Hlast. unfold check_continuation, chunk_error.
  assert (Hac : (chunks !! owner = None -> number_of e = 0) ->
    (forall c, chunks !! owner = Some c -> pc_expected_chunks c = n /\ pc_total_size c = r0
       /\ pc_payloads c !! number_of e = None /\ md_uuid (im_metadata (df_message e)) = Some (pc_uuid c)) ->
    accepted_chunk e chunks n r0) by (intros; split; try done; [lia|split; [done|lia]]).
  destruct (chunks !! owner) as [c|] eqn:Ec.
  - do 2 wp_step; [|done]. wp_step; [|done]. apply Hchunk; [|done]. apply Hac; [done|].
    rewrite !orb_false_iff, !negb_false_iff, bool_decide_eq_true in Hguard3. destruct Hguard3 as [[Huuid ?] ?].
    rewrite bool_decide_eq_false, <- eq_None_not_Some in Hguard4. intros c' [= <-]. split_and!; [lia|lia|done|by rewrite Huuid].
  - wp_step. apply Hchunk; [|done]. apply Hac; [|done]. intros _. simpl in Hguard2. lia.
Qed.

Lemma accept_spec flow e chunks s :
  wp (accept_entry id g flow e chunks)
     (fun r _ => match r with
      | Err _ => True
      | Ok (Buffered _, chunks') =>
          exists n size, accepted_chunk e chunks n size
            /\ exists c', chunks' = <[owner := c']> chunks /\ buffered_as e n size (chunks !! owner) c'
      | Ok (CompleteEntry r, chunks') =>
          (forall n, md_num_chunks_from_msg (im_metadata (df_message e)) = Some n -> n <= 1)
          \/ exists n size c, accepted_chunk e chunks n size /\ chunks !! owner = Some c
                /\ chunks' = delete owner chunks /\ completed_as e n size c r
      end) s.
Proof.
  apply accept_cases; [done|by left|]. intros n sz uuid Ha _. destruct (Z.eqb_spec (held chunks + 1) n) as [Hd|Hd].
  - eapply wp_mono; [by apply (finish_chunk_spec flow n)|]. intros [[[|x] chunks']|err] s'; [done| |done].
    intros (c & Hc & -> & Hx). right. eauto 10.
  - eapply wp_mono; [apply buffer_chunk_spec; [done| |done]|].
    + intros c Hc. by destruct (ac_next _ _ _ _ Ha c Hc) as (? & ? & _).
    + intros [[[|x] chunks']|err] s'; [|done|done]. eauto 10.
Qed.

(** The chain of a child after the entries [l], starting from none. *)
Definition chain (l : list arrival) (chunks0 chunks : StreamReceiveState) : Prop :=
  match l with
  | [] => chunks = chunks0
  | a :: _ => exists c, chunks = <[owner := c]> chunks0 /\ NoDup (piece ∘ ar_entry <$> l).*1
      /\ pc_payloads c = list_to_map (piece ∘ ar_entry <$> l)
      /\ pc_first_message_id c = df_message_id_data (ar_entry a)
  end.

Lemma piece_numbers l : (piece ∘ ar_entry <$> l).*1 = number_of ∘ ar_entry <$> l.
Proof. by rewrite <- list_fmap_compose. Qed.

(** One more entry: it is new, and the chain holds it too. *)
Lemma chain_extend l a chunks0 chunks n size :
  chunks0 !! owner = None -> chain l chunks0 chunks -> accepted_chunk (ar_entry a) chunks n size ->
  NoDup (piece ∘ ar_entry <$> l ++ [a]).*1
  /\ <[number_of (ar_entry a) := im_payload (df_message (ar_entry a))]> (from_option pc_payloads ∅ (chunks !! owner))
     = list_to_map (piece ∘ ar_entry <$> l ++ [a])
  /\ stdpp.base.size (from_option pc_payloads ∅ (chunks !! owner)) = length l
  /\ from_option pc_first_message_id (df_message_id_data (ar_entry a)) (chunks !! owner)
     = df_message_id_data (ar_entry (default a (head l))).
Proof.
  intros Hnone Hl Ha. destruct l as [|b l].
  - simpl in Hl. subst chunks. rewrite Hnone. simpl. split_and!; try done. by apply NoDup_singleton.
  - destruct Hl as (c & Hc & Hnd & Hp & Hf).
    assert (Hown : chunks !! owner = Some c) by (rewrite Hc; apply lookup_insert_eq). rewrite Hown. unfold from_option.
    destruct (ac_next _ _ _ _ Ha c Hown) as (_ & _ & Hnew & _). rewrite Hp in Hnew |- *.
    apply not_elem_of_list_to_map in Hnew.
    assert (Hnd' : NoDup (piece ∘ ar_entry <$> (b :: l) ++ [a]).*1).
    { rewrite !fmap_app. apply NoDup_app. split_and!; [done| |by apply NoDup_singleton].
      intros x Hx Hxa%list_elem_of_singleton. by subst x. }
    split_and!; [done| |by rewrite map_size_list_to_map, length_fmap|done].
    rewrite fmap_app. symmetry. apply (list_to_map_snoc (M := gmap Z)); done.
Qed.

Lemma gathers_chain l chunks0 l0 chunks chunks' :
  chunks0 !! owner = None -> chain l0 chunks0 chunks -> gathers id g l chunks chunks' -> chain (l0 ++ l) chunks0 chunks'.
Proof.
  intros Hnone Hl0 Hg. revert l0 Hl0. induction Hg as [chunks|a l chunks c1 c2 actions Hacc _ IH]; intros l0 Hl0.
  - by rewrite app_nil_r.
  - rewrite (cons_middle a l0 l), (assoc_L (++)). apply IH.
    pose proof (accept_spec (ar_flow a) (ar_entry a) chunks (ar_model a)) as Hs. unfold wp in Hs.
    unfold accept_arrival in Hacc. rewrite Hacc in Hs. destruct Hs as (n & size & Hac & c' & -> & Hb).
    destruct (chain_extend l0 a chunks0 chunks n size Hnone Hl0 Hac) as (Hnd & Hm & _ & Hf).
    destruct Hb as (Hp & _ & _ & Hfst & _). rewrite Hm in Hp. rewrite Hf in Hfst.
    destruct l0 as [|b l0]; simpl in *; [by exists c'; subst|].
    destruct Hl0 as (c & -> & _). exists c'. split; [apply insert_insert_eq|done].
Qed.
(** C26: Assembly is exact.  Start with no chain for the child and feed it, in any
    order after the first and with the model evolving in between, entries that
    are pieces of one message.  If the last one completes an entry, then each
    piece was received exactly once, the payload of the entry is the pieces in
    their order, its id is the last piece's with the first piece's as first
    chunk, and the chains are again those from before. *)
Theorem chunk_chain_assembles (parts : list bytes) l last chunks0 chunks1 chunks2 r :
  chunks0 !! owner = None -> 1 < blen parts ->
  Forall (fun a => piece_of parts (ar_entry a)) (l ++ [last]) ->
  gathers id g l chunks0 chunks1 ->
  accept_arrival id g last chunks1 = Ok (CompleteEntry r, chunks2) ->
  im_payload (se_message r) = mjoin parts
  /\ (number_of ∘ ar_entry <$> l ++ [last]) ≡ₚ seqZ 0 (blen parts)
  /\ se_message_id_data r
     = (df_message_id_data (ar_entry last)) <| pb_first_chunk := df_message_id_data ∘ ar_entry <$> head l |>
  /\ chunks2 = chunks0.
Proof.
  intros Hnone Hlen Hpieces Hg Hacc.
  pose proof (gathers_chain l chunks0 [] chunks0 chunks1 Hnone eq_refl Hg) as Hl. simpl in Hl.
  pose proof (accept_spec (ar_flow last) (ar_entry last) chunks1 (ar_model last)) as Hs. unfold wp in Hs.
  unfold accept_arrival in Hacc. rewrite Hacc in Hs.
  assert (Hn : piece_of parts (ar_entry last))
    by (rewrite Forall_app, Forall_singleton in Hpieces; apply Hpieces).
  destruct Hn as (Hn & _). destruct Hs as [Hs|(n & sz & c & Hac & Hc & -> & Hpay & Hid & _ & Hsz)];
    [specialize (Hs _ Hn); lia|].
  assert (n = blen parts) as -> by (pose proof (ac_count _ _ _ _ Hac); congruence).
  destruct (chain_extend l last chunks0 chunks1 _ _ Hnone Hl Hac) as (Hnd & Hm & Hl' & Hf).
  rewrite Hc in Hm, Hl', Hf. simpl in Hm, Hl', Hf. rewrite Hm in Hpay.
  set (ps := piece ∘ ar_entry <$> l ++ [last]) in *.
  assert (Hlp : Z.of_nat (length ps) = blen parts).
  { unfold ps. rewrite length_fmap, length_app. simpl. lia. }
  assert (Hin : Forall (fun p => 0 <= p.1 /\ parts !! Z.to_nat p.1 = Some p.2) ps).
  { unfold ps. apply Forall_fmap. eapply Forall_impl; [exact Hpieces|]. intros a (_ & i & Hi & Hi0 & Hpi).
    unfold piece, number_of. simpl. by rewrite Hi. }
  split_and!.
  - rewrite Hpay. f_equal. apply holds_all; [|rewrite map_size_list_to_map by done; unfold blen in Hlp; lia].
    intros i p Hip%elem_of_list_to_map; [|done]. rewrite Forall_forall in Hin. by apply (Hin (i, p)).
  - rewrite <- piece_numbers. fold ps. apply submseteq_length_Permutation; [|rewrite length_seqZ, length_fmap; lia].
    apply NoDup_submseteq; [done|]. intros i Hi. apply list_elem_of_fmap in Hi as ([j p] & -> & Hp).
    rewrite Forall_forall in Hin. apply Hin in Hp as [Hj0 Hj]. simpl in *. apply lookup_lt_Some in Hj.
    apply elem_of_seqZ. unfold blen. lia.
  - rewrite Hid, Hf. destruct l as [|b l]; [|done]. simpl in Hl. subst. congruence.
  - destruct l as [|b l]; simpl in Hl; [subst; congruence|]. destruct Hl as (c' & -> & _). by apply delete_insert_id.
Qed.
End Assembly.

(** * Expansion of a batch *)

Section Expansion.
Context `{!ProtoMessage SingleMessageMetadata}.

(** The message queued for member [i], if it is not acknowledged. *)
Definition queued_member (message : IncomingMessage) (message_id_data : MessageIdData) (acks : BatchAckEntry)
    (batch_size i : Z) (m : SingleMessageMetadata * bytes) : list (IncomingMessage * MessageIdData) :=
  if is_unacked i acks then
    let ordinary := message_id_data <| pb_batch_index := Some i |> <| pb_batch_size := Some batch_size |>
                      <| pb_ack_set := ack_set_i64 acks |> in
    [(mkIncoming (mid_from_pb ordinary) (im_metadata message) (Some m.1) m.2 (im_redelivery_count message)
        (im_broker_entry_metadata message) (im_arrived_at message), ordinary)]
  else [].

Fixpoint queued_members (message : IncomingMessage) (message_id_data : MessageIdData) (acks : BatchAckEntry)
    (batch_size i : Z) (ms : list (SingleMessageMetadata * bytes)) : list (IncomingMessage * MessageIdData) :=
  match ms with
  | [] => []
  | m :: ms => queued_member message message_id_data acks batch_size i m
                 ++ queued_members message message_id_data acks batch_size (i + 1) ms
  end.

(** The two consumers read a member alike. *)
Lemma expand_member_next cursor m rest :
  expand_member cursor = Ok (m.1, m.2, rest) <-> next_batch_member cursor = Some (m, rest).
Proof.
  unfold expand_member, next_batch_member. rewrite !Z.geb_leb, <- Z.ltb_antisym. simpl.
  rewrite <- Z.ltb_antisym. destruct (blen cursor <? 4); [done|]. simpl. destruct (_ <? _); [done|]. simpl.
  destruct (pb_decode _) as [single|]; [|done]. simpl. destruct (sm_payload_size single <? 0); [done|]. simpl.
  rewrite Z.geb_leb, <- Z.ltb_antisym. destruct (_ <? _); [done|]. simpl. destruct m. naive_solver.
Qed.

Lemma expand_loop_spec message i acks size n index cursor out :
  expand_loop message i acks size index n cursor = Ok out ->
  length (take_members n cursor) = n /\ out = queued_members message i acks size index (take_members n cursor).
Proof.
  revert index cursor out. induction n as [|n IH]; intros index cursor out; simpl.
  - destruct_if; [done|]. intros E. by inv_ok.
  - intros E. inv_ok. destruct r as [[single payload] rest]. inv_ok.
    apply (expand_member_next cursor (single, payload)) in Hr as ->.
    apply IH in Hr0 as [Hl ->]. simpl. split; [by rewrite Hl|]. unfold queued_member. simpl.
    destruct (is_unacked index acks); by inv_ok.
Qed.

Lemma expand_packed `{!ProtoLaws SingleMessageMetadata} message i acks size ms index :
  Forall member_ok ms ->
  expand_loop message i acks size index (length ms) (pack_batch ms) = Ok (queued_members message i acks size index ms).
Proof.
  intros Hms. revert index. induction Hms as [|m ms Hm _ IH]; intros index; [done|].
  change (pack_batch (m :: ms)) with (pack_member m ++ pack_batch ms). simpl.
  rewrite (proj2 (expand_member_next _ m (pack_batch ms)) (next_pack_member m _ Hm)). simpl.
  rewrite IH. simpl. unfold queued_member. by destruct (is_unacked index acks).
Qed.

(** C28: Both consumers read batches alike.  When the stream consumer expands a
    batch, the ordinary consumer splits the same body into [count] members, and
    what is queued is these members, in order, without the acknowledged ones;
    and every body a producer packs is expanded. *)
Theorem expansion_agrees `{!ProtoLaws SingleMessageMetadata} message i ack_set count :
  0 <= count ->
  (forall out, expand_batch message i ack_set count = Ok out ->
     exists ms, split_batch_body (im_payload message) count = (ms, true)
       /\ out = queued_members message i (from_ack_set count ack_set) count 0 ms)
  /\ (forall ms, Forall member_ok ms -> blen ms = count -> count <= i32_max -> im_payload message = pack_batch ms ->
        expand_batch message i ack_set count
        = Ok (queued_members message i (from_ack_set count ack_set) count 0 ms)).
Proof.
  intros Hc. unfold expand_batch. split.
  - intros out. destruct_if; [done|]. intros [Hl ->]%expand_loop_spec. eexists. split; [|done].
    unfold split_batch_body. rewrite (proj2 (Z.ltb_ge _ _)) by lia. by rewrite bool_decide_true.
  - intros ms Hms Hlen Hmax ->. rewrite Z.gtb_ltb, (proj2 (Z.ltb_ge _ _)) by lia.
    replace (Z.to_nat count) with (length ms) by (unfold blen in Hlen; lia). by apply expand_packed.
Qed.
End Expansion.
