(* ===== verification/StreamEntriesPaid.v ===== *)
(** * What the entries of a stream consumer cost

    The methods of [StreamReceiveState] act on [StreamConsumerModel] only
    through its calls, so every state they lead to is one of its executions;
    a buffered chain and every queued message hold a reservation of their own
    that covers them. *)

From S2P Require Import Prelude Ids Frame Compress BatchAck Producer BatchBody Consumer SegmentTopic Assignment DagWatch OrdinaryId StreamPosition ReceiverBudget StreamModel StreamOps StreamReceive StreamAcks StreamLedger StreamInv StreamEmits StreamKeeps StreamSpec StreamEntries StreamEntriesSpec.

(** [s'] is [s] after some calls of the model. *)
Definition calls (s s' : StreamConsumerModel) : Prop :=
  exists ops, Forall op_ok ops /\ s' = stream_run ops s.

Lemma calls_refl s : calls s s.
Proof. by exists []. Qed.

Lemma calls_step s o : op_ok o -> calls s (step_of s o).
Proof. intros Ho. exists [o]. split; [by constructor|done]. Qed.

Lemma calls_trans s1 s2 s3 : calls s1 s2 -> calls s2 s3 -> calls s1 s3.
Proof.
  intros (l1 & H1 & ->) (l2 & H2 & ->). exists (l1 ++ l2). split; [by apply Forall_app|].
  unfold stream_run. by rewrite foldl_app.
Qed.
#[export] Hint Resolve calls_refl calls_step : stream.

Lemma calls_reachable ops s s' : reachable ops s -> calls s s' -> exists ops', reachable ops' s'.
Proof.
  intros (Hops & s0 & Hnew & ->) (l & Hl & ->). exists (ops ++ l).
  split; [by apply Forall_app|]. exists s0. split; [done|]. unfold stream_run. by rewrite foldl_app.
Qed.

(** A method that is a call with another result. *)
Lemma wp_actions_of {A} (m : SM (A * list StreamConsumerAction)) s : ((actions_of m) s).2 = (m s).2.
Proof. unfold actions_of, mbind, SM_bind. by destruct (m s) as [[a|e] s']. Qed.

Lemma wp_no_actions {A} (m : SM A) s : ((no_actions m) s).2 = (m s).2.
Proof. unfold no_actions, mbind, SM_bind. by destruct (m s) as [[a|e] s']. Qed.

Lemma wp_call {A} (m : SM A) o s :
  op_ok o -> (exec o s).2 = (m s).2 -> wp m (fun _ s' => calls s s') s.
Proof. intros Ho E. red. rewrite <- E. by apply calls_step. Qed.

(** ** Rejections *)

Lemma chunk_frame_rejected id g flow assembly n s :
  wp (chunk_frame_buffered id g flow assembly n) (fun r s' => is_ok r = false -> s' = s) s.
Proof.
  unfold chunk_frame_buffered. wp_step. apply wp_arrival_child; [|done]. intros c _ _ _ _ _ _.
  do 2 wp_step; [|done]. apply wp_atomically. unfold wp.
  match goal with |- context [(?m s).1] => by destruct (m s) as [[] ?] end.
Qed.

(** [arbitrate_flow] fails only where a counter is exhausted. *)
Lemma arbitrate_fails s e s' :
  arbitrate_flow s = (Err e, s') -> exists id, e = CompletionCounterExhausted id pre_terminal_kind.
Proof.
  unfold arbitrate_flow. destruct_if; [done|]. destruct (refresh_all _ _ _) as [eligible s1]. destruct_if; [done|].
  match goal with |- grant_loop ?l [] s1 = _ -> _ => generalize l end. intros l.
  generalize (@nil StreamConsumerAction). revert s1. induction l as [|[[id o] n] l IH]; intros s1 acts; simpl; [done|].
  unfold mbind, SM_bind, lift, exhausted, ok_or. destruct (checked_add usize_max n 1); simpl; [|intros [= <- _]; eauto].
  destruct (reserve_owned _ _ _ _) as [[rid b]|]; [|done]. destruct (sm_children s1 !! id); apply IH.
Qed.

Lemma discard_rejected ex s id g flow purpose work :
  stream_ok ex s ->
  wp (discard_preallocated_arrival id g flow purpose work)
     (fun r s' => forall e, r = Err e -> s' = s \/ exists i, e = CompletionCounterExhausted i pre_terminal_kind) s.
Proof.
  intros H. unfold discard_preallocated_arrival. wp_step.
  assert (Hz : Forall (fun n => 0 <= n) [0]) by (apply Forall_singleton; lia).
  eapply wp_mono; [by apply (complete_arrival_spec ex)|]. intros [[retained acts]|e] s1; [|intros -> ? _; by left].
  intros (H1 & _ & c & Hc & Hg & _ & Hin). wp_step.
  apply Forall2_cons_inv_r in Hin as (rid & l & (r & Hr & _) & Hl & ->). apply Forall2_nil_inv_r in Hl as ->.
  simpl. wp_step. wp_step; [|pose proof (release_present _ _ _ Hr) as Hp; by rewrite He in Hp].
  do 2 wp_step. unfold close_then_arbitrate. wp_step.
  assert (Hclose : wp (close_if_drained id g) (fun r _ => is_ok r = true) (s1 <| sm_budget := b |>)).
  { unfold close_if_drained. wp_step. apply (wp_known_child id g c); [done|done|]. destruct_if E; by repeat wp_step. }
  unfold wp in Hclose |- * at 1. destruct (close_if_drained id g _) as [[l|e] s2]; simpl in Hclose |- *; [|done].
  wp_step. unfold wp at 1. destruct (arbitrate_flow s2) as [[l'|e] s3] eqn:E; [done|].
  intros ? [= <-]. right. by eapply arbitrate_fails.
Qed.

(** ** Sizes *)

Lemma overflow_ok {A} (o : option A) a : overflow o = Ok a -> o = Some a.
Proof. unfold overflow. intros H. by inv_ok. Qed.

Section Sizes.
Context `{!Allocation, !AllocationLaws, !ProtoMessage MessageMetadata, !ProtoMessage SingleMessageMetadata,
          !ProtoMessage BrokerEntryMetadata}.

Lemma saturating_add_nonneg a b : 0 <= a -> 0 <= b -> 0 <= saturating_add usize_max a b.
Proof. unfold saturating_add, usize_max, u64_max. lia. Qed.

Lemma capacity_nonneg l : 0 <= capacity l.
Proof. pose proof (capacity_len l). unfold blen in *. lia. Qed.

Lemma encoded_len_nonneg {M} `{!ProtoMessage M} (m : M) : 0 <= encoded_len m.
Proof. unfold encoded_len, blen. lia. Qed.

Lemma retained_bytes_nonneg m : 0 <= retained_bytes m.
Proof.
  unfold retained_bytes. repeat apply saturating_add_nonneg.
  - apply size_of_incoming_nonneg.
  - unfold blen. lia.
  - apply encoded_len_nonneg.
  - destruct (im_single_metadata m); simpl; [apply encoded_len_nonneg|lia].
  - destruct (im_broker_entry_metadata m); simpl; [apply encoded_len_nonneg|lia].
Qed.

Lemma heap_bytes_nonneg m : 0 <= message_id_data_heap_bytes m.
Proof.
  revert m. fix IH 1. intros [l e p i acks n first]. simpl. apply saturating_add_nonneg.
  - pose proof (capacity_nonneg acks). unfold saturating_mul, usize_max, u64_max. lia.
  - destruct first as [m|]; [|lia]. apply saturating_add_nonneg; [apply size_of_message_id_data_nonneg|apply IH].
Qed.

Lemma queued_bytes_overhead m i source n :
  queued_message_retained_bytes m i source = Ok n -> STREAM_QUEUE_NODE_OVERHEAD <= n.
Proof.
  intros Hn%overflow_ok%checked_sum_Some. simpl in Hn. pose proof (retained_bytes_nonneg m).
  pose proof (heap_bytes_nonneg i). unfold blen in *. lia.
Qed.

Lemma queued_bytes_nonneg m i source n : queued_message_retained_bytes m i source = Ok n -> 0 <= n.
Proof. intros Hn%queued_bytes_overhead. unfold STREAM_QUEUE_NODE_OVERHEAD in Hn. lia. Qed.

Lemma retained_sizes_spec source l ns :
  retained_sizes source l = Ok ns ->
  Forall2 (fun p n => queued_message_retained_bytes p.1 p.2 source = Ok n) l ns.
Proof.
  revert ns. induction l as [|[m i] l IH]; intros ns E; simpl in E; inv_ok; [constructor|].
  constructor; [done|]. by apply IH.
Qed.

Lemma retained_sizes_nonneg source l ns : retained_sizes source l = Ok ns -> Forall (fun n => 0 <= n) ns.
Proof.
  intros Hs%retained_sizes_spec. induction Hs as [|[m i] n l ns Hn _ IH]; constructor; [|done].
  by eapply queued_bytes_nonneg.
Qed.

Lemma checked_mul_Some a b n : checked_mul usize_max a b = Some n -> n = a * b.
Proof. unfold checked_mul. destruct (_ <=? _); naive_solver. Qed.

Lemma structural_nonneg e source count n : 0 <= count -> batch_structural_bytes e source count = Ok n -> 0 <= n.
Proof.
  intros Hc E. unfold batch_structural_bytes in E. inv_ok.
  apply overflow_ok, checked_mul_Some in Hr. apply overflow_ok, checked_add_Some in Hr0 as [Hr0 _].
  apply overflow_ok, checked_sum_Some in Hr1. apply overflow_ok, checked_mul_Some in Hr2.
  apply overflow_ok, checked_add_Some in E as [E _]. simpl in Hr1.
  pose proof size_of_incoming_nonneg. pose proof size_of_single_nonneg. unfold saturating_sub, blen, STREAM_QUEUE_NODE_OVERHEAD in *.
  nia.
Qed.

Lemma map_sum_saturates (m : gmap Z bytes) (t : Z) :
  foldl (fun total payload => saturating_add usize_max total (blen payload)) 0 (btree_items m).*2 = t ->
  t = Z.min usize_max (map_sum blen m).
Proof.
  intros <-. rewrite (map_sum_list blen m). generalize (btree_items m).*2. intros l.
  assert (Hg : forall a, 0 <= a <= usize_max ->
    foldl (fun total payload => saturating_add usize_max total (blen payload)) a l
    = Z.min usize_max (a + foldr (fun p acc => blen p + acc) 0 l)).
  { induction l as [|p l IH]; intros a Ha; simpl; [lia|].
    assert (0 <= foldr (fun p acc => blen p + acc) 0 l) by (clear; induction l; simpl; unfold blen in *; lia).
    rewrite IH; unfold saturating_add, blen in *; lia. }
  apply Hg. unfold usize_max, u64_max. lia.
Qed.

Lemma buffered_bytes_sum c : buffered_bytes c = Z.min usize_max (map_sum blen (pc_payloads c)).
Proof. by apply map_sum_saturates. Qed.
End Sizes.

(** ** The assembly reservation *)

(** [rid] is the assembly of [o] and covers [n] bytes. *)
Definition assembly_for (o : BudgetReservationOwner) (res : gmap Z DataReservation) (rid n : Z) : Prop :=
  exists r, res !! rid = Some r /\ dr_owner r = Some o /\ dr_use r = ChunkAssembly /\ n <= dr_bytes r.

Lemma transferred rid o e bytes b b' :
  transfer_owned rid o e ChunkAssembly bytes b = Ok b' -> assembly_for o (bs_reservations b') rid bytes.
Proof.
  unfold transfer_owned, transfer_inner. intros E. inv_ok. apply owned_inv in Hr as (Hx & Ho & Hu).
  rewrite Hx in E. revert E. do 3 (destruct_if; [done|]). intros E. inv_ok. simpl.
  eexists. rewrite lookup_insert_eq. split_and!; [done|done|done|apply charged_ge].
Qed.

Lemma owner_of_child ex s id c : stream_ok ex s -> sm_children s !! id = Some c -> child_owner c = mkOwner id (ch_generation c).
Proof. intros H Hc. destruct (lg_child _ _ _ _ _ (so_ledger _ _ H) id c Hc) as [<- _]. done. Qed.

Lemma chunk_frame_buffered_spec ex s id g flow assembly n :
  stream_ok ex s -> 0 <= n ->
  wp (chunk_frame_buffered id g flow assembly n)
     (fun r s' => match r with
      | Ok (rid, _) => assembly_for (mkOwner id g) (bs_reservations (sm_budget s')) rid n
      | Err _ => s' = s
      end) s.
Proof.
  intros H Hn. unfold chunk_frame_buffered. wp_step.
  apply wp_arrival_child; [|done]. intros c Hop Hc Hg Hph Hf Hpu. do 2 wp_step; [|done]. wp_step. wp_step.
  pose proof (owner_of_child _ _ _ _ H Hc) as Ho. rewrite Hg in Ho. rewrite Ho in *.
  assert (Hend : forall b n' rid, budget_ok b -> assembly_for (mkOwner id g) (bs_reservations b) rid n ->
    wp (next_flow ← on_budget (reserve_owned (mkOwner id g) FlowPermit MAX_FRAME_SIZE);
        pre_terminal_reservations ← lift (exhausted id pre_terminal_kind (checked_add usize_max n' 1));
        _ ← child_mut id g (fun c => set_pre_terminal pre_terminal_reservations
              (c <| ch_flow_reservation := Some next_flow |>
                 <| ch_flow_purpose := Some (ChunkContinuation rid) |>));
        mret (M := SM) (rid, [GrantFlow (ch_source c) (ch_controller_incarnation c) (ch_generation c) next_flow
                       (ChunkContinuation rid)]))
      (fun r s' => match r with
       | Ok a => let (rid, _) := a in assembly_for (mkOwner id g) (bs_reservations (sm_budget s')) rid n
       | Err _ => s = s end) (s <| sm_budget := b |>)).
  { intros b n' rid Hb (x & Hx & Hxo & Hxu & Hxn). do 2 wp_step; [|done]. do 2 wp_step; [|done].
    wp_step. eapply wp_child_mut; [done..|]. wp_step. exists x. split_and!; try done. simpl.
    apply reserve_exact in Hb0 as (-> & _ & _ & ->); [|done|done]. simpl. rewrite lookup_insert_ne; [done|].
    intros <-. apply (ok_entries _ Hb) in Hx. lia. }
  destruct assembly as [assembly|]; simpl.
  - do 2 wp_step; [|done]. do 2 wp_step; [|done]. do 2 wp_step; [|done]. do 2 wp_step; [|done]. wp_step.
    apply map_err_ok_inv, owned_inv in Hr0 as (Hx & _). pose proof (ok_entries _ (so_budget _ _ H) _ _ Hx) as Hx'.
    assert (Hb1 : budget_ok b) by (by eapply release_ok; [apply H|]). apply Hend.
    + simpl in Hb0. unfold transfer_owned in Hb0. inv_ok. eapply transfer_ok; [exact Hb1| | |exact Hb0]; [lia|].
      simpl. apply implied_authority_le, charged_nonneg. lia.
    + destruct (transferred _ _ _ _ _ _ Hb0) as (y & ? & ? & ? & ?). exists y. split_and!; try done. lia.
  - do 2 wp_step; [|done]. wp_step. apply Hend.
    + unfold transfer_owned in Hb. inv_ok. eapply transfer_ok; [apply H|exact Hn| |exact Hb].
      simpl. by apply implied_authority_le, charged_nonneg.
    + by apply (transferred _ _ _ _ _ _ Hb).
Qed.

(** ** Retained messages *)

Lemma complete_arrival_pays ex s id g flow purpose work bytes :
  stream_ok ex s -> Forall (fun n => 0 <= n) bytes ->
  wp (complete_preallocated_arrival id g flow purpose work bytes)
     (fun r s' => match r with
      | Ok (retained, _) => NoDup retained
          /\ Forall2 (retained_for (mkOwner id g) (bs_reservations (sm_budget s'))) retained bytes
      | Err _ => s' = s
      end) s.
Proof.
  intros H Hn. eapply wp_mono; [by apply (complete_arrival_spec ex)|]. intros [[retained acts]|e] s'; [|done].
  intros (H' & _ & c & Hc & Hg & Hnd & Hf). rewrite (owner_of_child _ _ _ _ H' Hc), Hg in Hf. done.
Qed.

(** A single message: the reservation returned retains it. *)
Lemma single_pays ex s id g flow purpose work n :
  stream_ok ex s -> 0 <= n ->
  wp ('(retained, actions) ← complete_preallocated_arrival id g flow purpose work [n];
      retained ← lift (unbalanced id "preallocated message" (last retained));
      mret (M := SM) (retained, actions))
     (fun r s' => match r with
      | Ok (rid, _) => retained_for (mkOwner id g) (bs_reservations (sm_budget s')) rid n
      | Err _ => True
      end) s.
Proof.
  intros H Hn. wp_step. eapply wp_mono; [apply (complete_arrival_pays ex); [done|by repeat constructor]|].
  intros [[retained acts]|e] s'; [|done]. intros [_ Hf]. wp_step.
  apply Forall2_cons_inv_r in Hf as (rid & l & Hrid & Hl & ->). apply Forall2_nil_inv_r in Hl as ->.
  wp_step; [|done]. unfold unbalanced in Hr. simpl in Hr. inv_ok. simplify_eq. by wp_step.
Qed.

Section Entries.
Context `{!Allocation, !AllocationLaws, !ProtoMessage MessageMetadata, !ProtoMessage SingleMessageMetadata,
          !ProtoMessage BrokerEntryMetadata}.
Context (id g : Z).
Notation owner := (mkOwner id g).

(** Every message of [l] has a reservation of its own that covers it. *)
Definition all_paid (source : SegmentSource) (res : gmap Z DataReservation) (l : list StreamQueuedMessage) : Prop :=
  NoDup (qm_reservation <$> l)
  /\ Forall (fun q => exists n, queued_message_retained_bytes (qm_message q) (qm_message_id_data q) source = Ok n
                        /\ retained_for owner res (qm_reservation q) n) l.

Lemma queue_all_paid source res messages retained sizes :
  NoDup retained -> Forall2 (retained_for owner res) retained sizes ->
  Forall2 (fun p n => queued_message_retained_bytes p.1 p.2 source = Ok n) messages sizes ->
  all_paid source res (queue_all messages retained).
Proof.
  intros Hnd Hr Hm. unfold all_paid, queue_all.
  assert (Hl : qm_reservation <$> zip_with (fun '(m, i) r => mkQueued m i r) messages retained = retained).
  { apply Forall2_length in Hr. apply Forall2_length in Hm. rewrite fmap_zip_with_r; [done|by intros []|lia]. }
  rewrite Hl. split; [done|]. clear Hnd Hl. revert messages Hm.
  induction Hr as [|r n retained sizes Hrn _ IH]; intros [|[m i] l] Hm; try by inversion Hm.
  apply Forall2_cons in Hm as [Hm Hl]. constructor; [|by apply IH]. by exists n.
Qed.

Lemma finalize_pays ex s c e work :
  stream_ok ex s -> sm_children s !! id = Some c ->
  wp (finalize_entry id g e work)
     (fun r s' => match r with
      | Ok t => all_paid (ch_source c) (bs_reservations (sm_budget s')) (et_messages t)
      | Err _ => s' = s
      end) s.
Proof.
  intros Hs Hc. unfold finalize_entry. wp_step. wp_step; [|done]. simplify_eq.
  destruct_if Hcount; [destruct (se_completion e) as [flow|flow assembly]; [|done]|].
  - do 2 wp_step; [|done]. wp_step. wp_step.
    assert (Hn : 0 <= r) by (eapply structural_nonneg; [|exact Hr]; lia).
    eapply wp_mono; [apply (reserve_receive_work_keeps id _ BatchAssembly r Hn); [|exact Hs]; unfold work_use; auto|].
    intros [w|err] s1 H1; [|done]. do 2 wp_step; [|done]. do 2 wp_step; [|done].
    destruct r0 as [|m l].
    + wp_step. red. destruct (discard_preallocated_arrival _ _ _ _ _ _) as [[acts|err] s2]; [|done]. simpl.
      split; [constructor|done].
    + wp_step. unfold batch_arrived_preallocated. pose proof (retained_sizes_spec _ _ _ Hr1) as Hsz.
      destruct_if Hb; [rewrite bool_decide_eq_true in Hb; by subst; inversion Hsz|].
      eapply wp_mono; [by apply (complete_arrival_pays ex); [|by eapply retained_sizes_nonneg]|].
      intros [[retained acts]|err] s2; [|done]. intros [Hnd Hf]. wp_step. by eapply queue_all_paid.
  - do 2 wp_step; [|done]. pose proof (queued_bytes_nonneg _ _ _ _ Hr) as Hn. wp_step. wp_step.
    eapply (wp_mono _ (fun x s' => match x with
      | Ok (rid, _) => retained_for owner (bs_reservations (sm_budget s')) rid r | Err _ => True end)).
    + destruct (se_completion e) as [flow|flow assembly]; [by apply (single_pays ex)|].
      unfold chunk_message_arrived. do 2 wp_step; [|done]. do 2 wp_step; [|done]. by apply (single_pays ex).
    + intros [[rid acts]|err] s'; [|done]. intros Hrid. wp_step. split; [by apply NoDup_singleton|].
      apply Forall_singleton. eauto.
Qed.

(** Buffering a chunk: the chain is paid for, or nothing happened. *)
Lemma buffer_pays ex flow uuid n size e chunks s :
  stream_ok ex s -> accepted_chunk id g e chunks n size -> 0 < size ->
  wp (buffer_chunk id g flow uuid n size (number_of e) e (chunks !! owner) chunks)
     (fun r s' => match r with
      | Ok (Buffered _, chunks') => exists c, chunks' !! owner = Some c
          /\ map_sum blen (pc_payloads c) <= pc_total_size c
          /\ assembly_for owner (bs_reservations (sm_budget s')) (pc_assembly c)
               (map_sum blen (pc_payloads c) + pc_total_size c)
      | Ok (CompleteEntry _, _) => False
      | Err _ => s' = s
      end) s.
Proof.
  intros Hok Ha Hsize. unfold buffer_chunk, chunk_error. do 2 wp_step; [|done]. do 2 wp_step; [|done].
  do 2 wp_step; [|done]. rewrite Z.gtb_ltb, Z.ltb_ge in Hguard.
  apply overflow_ok, checked_add_Some in Hr as [-> Hr]. apply overflow_ok, checked_add_Some in Hr0 as [-> Hr0].
  set (sum := map_sum blen (from_option pc_payloads ∅ (chunks !! owner))).
  assert (Hsum : 0 <= sum) by (apply map_sum_nonneg; intros; unfold blen; lia).
  assert (Hb : from_option buffered_bytes 0 (chunks !! owner) = Z.min usize_max sum).
  { unfold sum. destruct (chunks !! owner); simpl; [apply buffered_bytes_sum|]. rewrite map_sum_empty. done. }
  rewrite Hb in *. wp_step. assert (blen (im_payload (df_message e)) >= 0) by (unfold blen; lia).
  eapply wp_mono; [apply (chunk_frame_buffered_spec ex); [done|lia]|].
  intros [[rid acts]|err] s'; [|done]. intros Hrid. wp_step. eexists. split; [apply lookup_insert_eq|].
  assert (Hnew : map_sum blen (<[number_of e := im_payload (df_message e)]> (from_option pc_payloads ∅ (chunks !! owner)))
                 = blen (im_payload (df_message e)) + sum).
  { apply map_sum_insert. destruct (chunks !! owner) as [c|] eqn:Ec; [|done]. by apply (ac_next _ _ _ _ _ _ Ha). }
  destruct (chunks !! owner) as [c|] eqn:Ec; simpl in *.
  - destruct (ac_next _ _ _ _ _ _ Ha c Ec) as (_ & -> & _). rewrite Hnew. split; [lia|].
    replace (blen _ + sum + size) with (Z.min usize_max sum + blen (im_payload (df_message e)) + size) by lia. done.
  - rewrite insert_empty in Hnew. rewrite Hnew. split; [lia|].
    replace (blen _ + sum + size) with (Z.min usize_max sum + blen (im_payload (df_message e)) + size) by lia. done.
Qed.

Lemma finalize_calls r work s :
  wp (finalize_entry id g r work) (fun x s' => calls s s' /\ (is_ok x = false -> s' = s)) s.
Proof.
  unfold finalize_entry. wp_step. wp_step; [|auto with stream].
  destruct_if Hcount; [destruct (se_completion r) as [flow|flow assembly]; [|wp_step; auto with stream]|].
  - do 2 wp_step; [|auto with stream]. wp_step. wp_step.
    eapply wp_mono; [eapply (wp_call _ (OpReserveBatchAssembly _ _ _)); [|apply wp_no_actions]|].
    { simpl. eapply structural_nonneg; [|exact Hr]. lia. }
    intros [w|err] s1 H1; [|auto with stream]. do 2 wp_step; [|auto with stream]. do 2 wp_step; [|auto with stream].
    destruct r1 as [|m l]; wp_step.
    + eapply wp_mono; [eapply (wp_call _ (OpDiscard _ _ _ _ _)); done|].
      intros [acts|err] s2 H2; [|auto with stream]. wp_step. split; [by eapply calls_trans|done].
    + eapply wp_mono; [eapply (wp_call _ (OpBatchPreallocated _ _ _ _ _)); [|apply wp_actions_of]|].
      * by eapply retained_sizes_nonneg.
      * intros [[retained acts]|err] s2 H2; [|auto with stream]. wp_step. split; [by eapply calls_trans|done].
  - do 2 wp_step; [|auto with stream]. apply queued_bytes_nonneg in Hr as Hn. wp_step. wp_step.
    eapply (wp_mono _ (fun _ s' => calls s s')).
    + destruct (se_completion r) as [flow|flow assembly].
      * eapply (wp_call _ (OpMessagePreallocated _ _ _ _ _)); [|apply wp_actions_of]. done.
      * eapply (wp_call _ (OpChunkArrived _ _ _ _ _ _)); [|apply wp_actions_of]. done.
    + intros [[rid acts]|err] s'; [|auto with stream]. intros Hs'. by wp_step.
Qed.

Lemma accept_calls flow e chunks s :
  wp (accept_entry id g flow e chunks) (fun x s' => calls s s' /\ (is_ok x = false -> s' = s)) s.
Proof.
  apply accept_cases; [auto with stream..|]. intros n sz uuid Ha Hsize.
  destruct_if; [unfold finish_chunk, chunk_error; repeat (wp_step; auto with stream)|].
  unfold buffer_chunk, chunk_error. do 2 wp_step; [|auto with stream]. do 2 wp_step; [|auto with stream].
  do 2 wp_step; [|auto with stream]. wp_step.
  apply overflow_ok, checked_add_Some in Hr as [-> _]. apply overflow_ok, checked_add_Some in Hr0 as [-> _].
  assert (0 <= from_option buffered_bytes 0 (chunks !! owner)).
  { destruct (chunks !! owner); simpl; [|lia]. rewrite buffered_bytes_sum. apply Z.min_glb; [done|].
    apply map_sum_nonneg. intros. unfold blen. lia. }
  match goal with |- wp (chunk_frame_buffered id g flow ?a ?n) _ _ =>
    pose proof (chunk_frame_rejected id g flow a n s) as Hrej;
    assert (Hc : calls s (chunk_frame_buffered id g flow a n s).2)
      by (eapply (wp_call _ (OpChunkBuffered id g flow a n)); [simpl; unfold blen; lia|apply wp_actions_of]);
    unfold wp in Hrej |- *; destruct (chunk_frame_buffered id g flow a n s) as [[[rid acts]|err] s'] end; simpl in *.
  - by split.
  - auto.
Qed.

(** C25: The methods on raw entries change the model only through calls of its
    own: the state after [accept_entry], [finalize_entry] or [discard_entry] is
    the state after a sequence of calls with non-negative sizes, so what holds
    in every execution of the model holds under them.  An entry that
    [accept_entry] or [finalize_entry] rejects leaves the model as it was; so does
    a failing [discard_entry] in any reachable state, unless it fails at its very
    end, when the counter of a child that is to get a permit is exhausted. *)
Theorem entries_are_calls flow e chunks r work s :
  calls s (accept_entry id g flow e chunks s).2
  /\ calls s (finalize_entry id g r work s).2
  /\ calls s (discard_entry id g r work s).2
  /\ (is_ok (accept_entry id g flow e chunks s).1 = false -> (accept_entry id g flow e chunks s).2 = s)
  /\ (is_ok (finalize_entry id g r work s).1 = false -> (finalize_entry id g r work s).2 = s)
  /\ (forall ops err, reachable ops s -> (discard_entry id g r work s).1 = Err err ->
       (discard_entry id g r work s).2 = s \/ exists i, err = CompletionCounterExhausted i pre_terminal_kind).
Proof.
  split_and!; [apply accept_calls|apply finalize_calls| |apply accept_calls|apply finalize_calls|].
  - unfold discard_entry. destruct (se_completion r); apply (calls_step s (OpDiscard _ _ _ _ _)); done.
  - intros ops err [ex Hok]%reachable_ok. unfold discard_entry.
    destruct (se_completion r); apply (discard_rejected ex s); done.
Qed.

(** C27: What is held is paid for.  In any execution, once a chunk is buffered,
    its chain's assembly reservation belongs to the child and covers the bytes
    buffered plus the announced size of the message, and the former do not
    exceed the latter; once an entry is finalized, every queued message has a
    reservation of its own that covers its payload, metadata and bookkeeping. *)
Theorem entries_are_paid_for ops s :
  reachable ops s ->
  (forall flow e chunks actions chunks' s',
     accept_entry id g flow e chunks s = (Ok (Buffered actions, chunks'), s') ->
     exists c, chunks' !! owner = Some c /\ map_sum blen (pc_payloads c) <= pc_total_size c
       /\ assembly_for owner (bs_reservations (sm_budget s')) (pc_assembly c)
            (map_sum blen (pc_payloads c) + pc_total_size c))
  /\ (forall e work t s', finalize_entry id g e work s = (Ok t, s') ->
        exists c, sm_children s !! id = Some c
          /\ all_paid (ch_source c) (bs_reservations (sm_budget s')) (et_messages t)).
Proof.
  intros [ex Hok]%reachable_ok. split.
  - intros flow e chunks actions chunks' s' E.
    enough (Hw : wp (accept_entry id g flow e chunks)
      (fun r s' => match r with
       | Ok (Buffered _, chunks') => exists c, chunks' !! owner = Some c
          /\ map_sum blen (pc_payloads c) <= pc_total_size c
          /\ assembly_for owner (bs_reservations (sm_budget s')) (pc_assembly c)
               (map_sum blen (pc_payloads c) + pc_total_size c)
       | _ => True end) s) by (red in Hw; by rewrite E in Hw).
    apply accept_cases; [done..|]. intros n sz uuid Ha Hsize. destruct_if.
    + eapply wp_mono; [by apply (finish_chunk_spec id g flow (held id g chunks + 1))|]. by intros [[[] ?]|] ?.
    + eapply wp_mono; [by apply (buffer_pays ex)|]. by intros [[[] ?]|] ?.
  - intros e work t s' E. destruct (sm_children s !! id) as [c|] eqn:Hc.
    + exists c. split; [done|]. pose proof (finalize_pays ex s c e work Hok Hc) as Hp. red in Hp. by rewrite E in Hp.
    + unfold finalize_entry, mbind, SM_bind, query, child in E. by rewrite Hc in E.
Qed.
End Entries.
