(* ===== verification/ProducerCases.v ===== *)
(** Concrete producers: instances of the codec and protobuf parameters, the
    theorems of the producer files on sample executions, and an execution in
    which the code loses a wake-up. *)

From S2P Require Import Prelude Time Ids Txn MemoryLimit Frame Compress Producer ProducerSpec ProducerQueue ProducerReplay ProducerChunks BatchBody.

(** * Instances *)

(** A codec that stores its input. *)
Definition stored (b : bytes) (n : Z) : option bytes := if blen b <=? n then Some b else None.

#[global] Instance stored_codecs : Codecs := {|
  lz4_compress b := b;
  lz4_decompress := stored;
  zlib_encode b := Some b;
  zlib_read := stored;
  zstd_encode_all b := Some b;
  zstd_decompress_to_buffer _ := stored;
  zstd_read := stored;
  snap_compress b := Some b;
  snap_decompress_len b := Some (blen b);
  snap_decompress := stored;
|}.

#[global] Instance stored_laws : CodecLaws.
Proof.
  split; simpl; intros; simplify_eq; unfold stored; try done;
    by rewrite (proj2 (Z.leb_le _ _)).
Qed.

(** A message of a countable type is encoded by the bits of its number. *)
Fixpoint bits_of (n : positive) : bytes :=
  match n with xH => [] | xO n => Byte.x00 :: bits_of n | xI n => Byte.x01 :: bits_of n end.

Fixpoint of_bits (b : bytes) : positive :=
  match b with
  | [] => xH
  | c :: b => if bool_decide (c = Byte.x00) then xO (of_bits b) else xI (of_bits b)
  end.

Lemma of_bits_of n : of_bits (bits_of n) = n.
Proof. induction n as [n IH|n IH|]; simpl; [by rewrite IH..|done]. Qed.

#[global] Instance byte_countable : Countable byte.
Proof.
  refine (inj_countable Byte.to_nat Byte.of_nat _). intros b. apply Byte.of_to_nat.
Defined.

Definition single_tuple (m : SingleMessageMetadata) :=
  ((sm_properties m, sm_partition_key m, sm_payload_size m, sm_compacted_out m, sm_event_time m),
   (sm_partition_key_b64_encoded m, sm_ordering_key m, sm_sequence_id m, sm_null_value m,
    sm_null_partition_key m)).

#[global] Instance single_eq_dec : EqDecision SingleMessageMetadata.
Proof. solve_decision. Defined.

#[global] Instance single_countable : Countable SingleMessageMetadata.
Proof.
  refine (inj_countable' single_tuple
    (fun '((a, b, c, d, e), (f, g, h, i, j)) => mkSingle a b c d e f g h i j) _).
  by intros [].
Defined.

#[global] Instance single_proto : ProtoMessage SingleMessageMetadata := {|
  pb_encode m := bits_of (encode m);
  pb_decode b := decode (of_bits b);
|}.

#[global] Instance single_proto_laws : ProtoLaws SingleMessageMetadata.
Proof. intros m. simpl. by rewrite of_bits_of, decode_encode. Qed.

(** The histogram is the list of its samples. *)
Definition record_sample (h : list Z) (ms : Z) : list Z := ms :: h.

Abbreviation Slot := (slot (Hist := list Z)).
Abbreviation run := (exec record_sample compress_ok).

Definition run_all (es : list event) (s : Slot) : Slot := foldl (fun s e => snd (run e s)) s es.

(** * Sample producers *)

Definition payload (n : nat) : bytes := replicate n Byte.x61.

Definition message (n : nat) : OutgoingMessage := mkOutgoing (payload n) default_metadata 0 1 None None.

Definition plain : ProducerState (list Z) := ProducerState_new 1 EmptyString CNone 10 (Some []).

Definition batching : ProducerState (list Z) :=
  (plain <| batching_enabled := true |>) <| max_messages_in_batch := 10 |>.

Definition send (n : nat) (now : Z) : event :=
  EvSend EmptyString (message n) (mkReservation true (Z.of_nat n)) 0 now.

(** No event of the run comes near the end of the sequence ids. *)
Fixpoint legal (es : list event) (s : Slot) : bool :=
  match es with
  | [] => true
  | e :: es => (next_sequence_id (sl_state s) <? u64_max) && legal es (snd (run e s))
  end.

Lemma run_reachable ok es s :
  reachable record_sample compress_ok ok s -> Forall ok es -> legal es s = true ->
  reachable record_sample compress_ok ok (run_all es s).
Proof.
  revert s. induction es as [|e es IH]; intros s Hs Hok Hl; [done|].
  apply Forall_cons in Hok as [He Hok]. simpl in Hl. apply andb_prop in Hl as [Hn Hl].
  apply IH; [|done|done]. apply reachable_step; [done..|]. destruct e; try done. simpl. lia.
Qed.

Lemma plain_fresh : fresh plain.
Proof. by split_and!. Qed.

Lemma batching_fresh : fresh batching.
Proof. by split_and!. Qed.

(** * The theorems on sample executions *)

Definition attach : event := EvAttach EmptyString None.

(** Two batched sends, a flush, a third send, a reset and a re-attachment. *)
Definition busy : list event :=
  [attach; send 2 0; send 3 1; EvFlush 5; send 20 6; EvDrain; send 4 7; EvReset; send 5 8; attach].

Definition busy_producer : ProducerState (list Z) :=
  (batching <| chunking_enabled := true |>) <| max_batch_size_bytes := 8 |>.

Lemma busy_reachable ok : Forall ok busy ->
  reachable record_sample compress_ok ok (run_all busy (mkSlot busy_producer [] [])).
Proof. intros Hok. apply run_reachable; [by apply reachable_fresh|done|by vm_compute]. Qed.

Lemma busy_quiet : Forall not_sweep busy.
Proof. repeat constructor. Qed.

Lemma wire_in_order_witness :
  let p := sl_state (run_all busy (mkSlot busy_producer [] [])) in
  StronglySorted Z.le (of_sequence_id <$> [] ++ outbound p) /\ blen (outbound p) = 2.
Proof.
  split; [|by vm_compute].
  destruct (wire_in_order record_sample compress_ok not_sweep
    (run_all busy (mkSlot busy_producer [] [])) (busy_reachable _ busy_quiet)) as [Hs _].
  exact Hs.
Defined.

Lemma register_waker_exact_witness :
  fst (register_waker 2 7 (sl_state (run_all busy (mkSlot busy_producer [] [])))) = true.
Proof.
  pose proof (register_waker_exact record_sample compress_ok
    (run_all busy (mkSlot busy_producer [] [])) 2 7 (busy_reachable _ busy_quiet)) as Hw.
  destruct (register_waker 2 7 _) as [found p'] eqn:Hr. destruct Hw as [[_ Hw] _]. apply Hw.
  vm_compute. left.
Defined.

Definition three : list event := [attach; send 2 0; send 3 1; send 1 2; EvFlush 5; EvDrain].

Definition range_receipt : CommandSendReceipt := mkReceipt 1 0 None (Some 1).

Lemma receipt_resolves_range_witness :
  let s := run_all three (mkSlot batching [] []) in
  op_sequence_id <$> pending (snd (on_send_receipt record_sample range_receipt 9 (sl_state s))) = [2].
Proof.
  intros s.
  pose proof (receipt_resolves_range record_sample compress_ok (fun _ => True) s range_receipt 9) as Hr.
  destruct (on_send_receipt record_sample range_receipt 9 (sl_state s)) as [resolved p'].
  cbn [snd]. destruct Hr as [_ ->]; [|by vm_compute].
  apply run_reachable; [by apply reachable_fresh|by repeat constructor|by vm_compute].
Defined.

Lemma send_accounted_witness :
  fst (fst (slot_queue_send_reserved compress_ok EmptyString (message 3) (mkReservation true 3) 0 0 plain))
  = Some 0.
Proof.
  pose proof (send_accounted compress_ok EmptyString (message 3) (mkReservation true 3) 0 0 plain) as Hs.
  destruct (slot_queue_send_reserved _ _ _ _ _ _ _) as [[[q|] res'] p'] eqn:Hq.
  - destruct Hs as (op & _ & _ & -> & _); [by vm_compute|done].
  - vm_compute in Hq. discriminate Hq.
Defined.

Lemma decompress_compress_witness : decompress CLz4 (payload 3) 3 = Ok (payload 3).
Proof. apply (decompress_compress CLz4 (payload 3) (payload 3)); by vm_compute. Defined.

(** * Executions in which something is lost *)

(** The send-timeout sweep leaves the index of the surviving sends stale.
      With three sends pending and the first one timed out, registering a waker
      for the second reports success but parks the waker on the third, so the
      second send's receipt finds no waker to wake. *)
Theorem sweep_misdirects_waker :
  let swept := sl_state (run_all [send 1 0; send 1 8; send 1 9; EvSweep 12]
                           (mkSlot (plain <| send_timeout := Some 10 |>) [] [])) in
  let '(found, p) := register_waker 1 7 swept in
  let '(resolved, _) := on_send_receipt record_sample (mkReceipt 1 1 None None) 13 p in
  map op_sequence_id (pending swept) = [1; 2]
  /\ found = true
  /\ map op_waker (pending p) = [None; Some 7%nat]
  /\ map (fun t => (op_sequence_id t.1, op_waker t.1)) resolved = [(1, None)].
Proof. by vm_compute. Qed.

(** A batch of two sends flushed and a chunked send, all drained, then the
    broker closes the producer on the live connection. *)
Definition sent_then_detached : list event :=
  [attach; send 2 0; send 3 1; EvFlush 5; send 20 6; EvDrain; EvDetach].

Lemma reattach_replays_exactly_witness :
  let s := run_all sent_then_detached (mkSlot busy_producer [] []) in
  let p' := sl_state (snd (run attach s)) in
  map op_sequence_id (pending p') = [0; 1; 2]
  /\ map (fun op => length (op_replay_frames op)) (pending p') = [0; 0; 2]%nat
  /\ Forall (fun op => with_id (op_sequence_id op) (outbound p') = op_replay_frames op) (pending p').
Proof.
  intros s p'. split_and!; [by vm_compute..|].
  assert (Hs : reachable record_sample compress_ok (fun _ => True) s).
  { apply (run_reachable _ sent_then_detached); [by apply reachable_fresh|by repeat constructor|by vm_compute]. }
  pose proof (reattach_replays_exactly record_sample compress_ok (fun _ => True) s EmptyString None Hs) as Hr.
  change (run (EvAttach EmptyString None) s) with (run attach s) in Hr.
  rewrite (surjective_pairing (run attach s)) in Hr. destruct Hr as (_ & _ & Hk & Hb & _).
  assert (Ho : outbound (sl_state s) = []) by by vm_compute.
  apply Forall_forall. intros op Hop. destruct (decide (replays op)) as [Hop'|Hop']; [by apply Hk|].
  fold p' in Hb. rewrite (Hb op Hop Hop'), Ho.
  unfold replays in Hop'. destruct (op_replay_frames op); [done|]. by destruct Hop'.
Defined.
