(* ===== verification/ConnCases.v ===== *)
(** * Sample sessions of a connection

    The theorems of the connection files on concrete sessions, and sessions in
    which the code spins, forgets that it was closed, or answers the broker in an
    order its comments exclude. *)

From S2P Require Import Prelude Time Ids MemoryLimit Frame Compress Backoff AntiThrash Producer ProducerSpec BatchBody ProducerCases ConnModel ConnOps ConnFrames ConnSpec ConnOrder ConnSends ConnTimers ConnWaiters.

(** * Sessions *)

Definition error_name (code : Z) : string := if code =? 16 then "ProducerBusy" else "Unknown".

Abbreviation Session := (Conn (list Z)).
Abbreviation call := (exec_op record_sample (Some []) compress_ok error_name).
Abbreviation session := (conn_reachable record_sample (Some []) compress_ok error_name).

Definition calls (l : list ConnCall) (c : Session) : Session := foldl (fun c o => call o c) c l.

Definition enabled (o : ConnCall) (c : Session) : bool :=
  match o with
  | CallCreate req =>
      (cx_next_producer_id c <? u64_max)
      && match cr_initial_sequence_id req with Some q => (0 <=? q) && (q <=? u64_max) | None => true end
  | CallSend _ h _ _ _ _ | CallSlotSend _ h _ _ _ _ =>
      match get_producer h c with Some p => next_sequence_id p <? u64_max | None => true end
  | _ => true
  end.

Fixpoint all_enabled (l : list ConnCall) (c : Session) : bool :=
  match l with [] => true | o :: l => enabled o c && all_enabled l (call o c) end.

Lemma enabled_ok o c : enabled o c = true -> op_enabled o c.
Proof.
  destruct o; try done; simpl; [intros [? Hq]%andb_prop|intros He p Hp; rewrite Hp in He; lia..].
  split; [lia|]. destruct (cr_initial_sequence_id req); simpl; [lia|done].
Qed.

Lemma calls_session config l c : session config c -> all_enabled l c = true -> session config (calls l c).
Proof.
  revert c. induction l as [|o l IH]; intros c Hc; simpl; [done|]. intros [Ho Hl]%andb_prop.
  apply IH; [|done]. apply conn_step; [done|by apply enabled_ok].
Qed.

Abbreviation driven := (conn_driven record_sample (Some []) compress_ok error_name).

Definition all_gated (c : Session) : bool :=
  forallb (fun e => negb (broker_ready (sl_producer e.2))) (map_to_list (cx_producers c)).

Lemma all_gated_ok c h : all_gated c = true -> gated c h.
Proof.
  unfold all_gated. rewrite forallb_forall. intros Ha s Hs%elem_of_map_to_list%list_elem_of_In%Ha.
  by apply negb_true_iff in Hs.
Qed.

(** The producers are opened again only when none is attached. *)
Fixpoint all_driven (l : list ConnCall) (c : Session) : bool :=
  match l with
  | [] => true
  | o :: l =>
      enabled o c && match o with CallRetry _ | CallRebuild => all_gated c | _ => true end
      && all_driven l (call o c)
  end.

Lemma calls_driven config l c : driven config c -> all_driven l c = true -> driven config (calls l c).
Proof.
  revert c. induction l as [|o l IH]; intros c Hc; simpl; [done|].
  intros [[Ho Hd]%andb_prop Hl]%andb_prop. apply IH; [|done].
  apply driven_step; [done|by apply enabled_ok|]. destruct o; simpl in *; auto using all_gated_ok.
Qed.

Definition config : ConnectionConfig :=
  mkConfig "client" "none" None 21 default_flags 30 20 1000 None.

Definition request (batching : bool) : CreateProducerRequest :=
  mkCreate "topic" (Some "name") CNone batching false 100 10 None None Shared [] (Some 50) (Some 5).

Definition connected : Received := RConnected (Some (mkConnected (Some 21) None None)).
Definition opened (rid : Z) : Received := RProducerSuccess (Some (mkProducerSuccess rid "name" None None)).
Definition frame (now : Z) (r : Received) : ConnCall := CallFrame 0 now (inl r).
Definition send_on (h : Z) (n : nat) (now : Z) : ConnCall :=
  CallSend EmptyString h (message n) (mkReservation true (Z.of_nat n)) 0 now.

(** A session with one producer, attached at time 1. *)
Definition greeting (batching : bool) : list ConnCall :=
  [CallBegin; frame 0 connected; CallCreate (request batching); frame 1 (opened 0)].

Definition greeted (batching : bool) : Session := calls (greeting batching) (Conn_new config).

(** Two sends, a lost session, a third send while it is down, the handshake and
    the replay, then a fourth send. *)
Definition resumed : list ConnCall :=
  [send_on 0 2 2; send_on 0 3 3; CallTransmit; CallDisconnect 4; CallReset; send_on 0 4 5; CallBegin;
   frame 6 connected; CallRebuild; frame 7 (opened 1); send_on 0 5 8].

Definition resumed_session : Session := calls resumed (greeted false).

Lemma greeted_session batching : session config (greeted batching).
Proof. apply calls_session; [constructor|]. by destruct batching; vm_compute. Qed.

Lemma resumed_reachable : session config resumed_session.
Proof. apply calls_session; [apply greeted_session|by vm_compute]. Qed.

Definition slot_of (h : Z) (c : Session) : option (ProducerState (list Z)) := get_producer h c.

(** * The theorems on sample sessions *)

Lemma conn_wire_in_order_witness :
  exists s, cx_producers resumed_session !! 0 = Some s
    /\ StronglySorted Z.le (of_sequence_id <$> sent_since 0 (cx_log resumed_session) ++ outbound (sl_producer s))
    /\ length (sent_since 0 (cx_log resumed_session)) = 4%nat.
Proof.
  assert (Hs : is_Some (cx_producers resumed_session !! 0)) by (vm_compute; eauto).
  destruct Hs as [s Hs]. exists s. split; [exact Hs|]. split; [|vm_compute; reflexivity].
  destruct (conn_wire_in_order record_sample (Some []) compress_ok error_name config resumed_session 0 s
    resumed_reachable Hs) as [Ho _]. exact Ho.
Defined.

Lemma resumed_driven : driven config resumed_session.
Proof. do 2 (apply calls_driven; [|by vm_compute]). constructor. Qed.

Lemma frames_follow_attachment_witness :
  exists l1 f l2 rid, cx_log resumed_session = l1 ++ LSent (SFrame 0 f) :: l2
    /\ attachment true 0 l1 = (Some rid, true).
Proof.
  assert (Hl : exists l1 f l2, cx_log resumed_session = l1 ++ LSent (SFrame 0 f) :: l2).
  { exists (take 6 (cx_log resumed_session)). vm_compute. eauto. }
  destruct Hl as (l1 & f & l2 & Hl).
  destruct (frames_follow_attachment record_sample (Some []) compress_ok error_name config resumed_session
    resumed_driven l1 0 f l2 Hl) as [rid Ha].
  exists l1, f, l2, rid. split; assumption.
Defined.

(** The discipline is needed: an attached producer that its caller re-opens with
    [retry_producer_open] keeps its gate open, and a frame of it goes out while
    the last open, of request 1, is unanswered. *)
Example retry_while_attached :
  let c := calls [CallRetry 0; send_on 0 2 2] (greeted false) in
  attachment true 0 (cx_log c) = (Some 1, false)
  /\ length (sent_since 0 (cx_log c)) = 1%nat.
Proof. vm_compute. done. Qed.

(** The peer falls silent at time 1: pinged at 31, failed at 61, with sends and
    transmissions in between. *)
Lemma watchdog_exact_witness :
  cx_state (call (CallTick 0 61) (calls [CallTransmit; send_on 0 3 40] (call (CallTick 0 31) (greeted false))))
  = FailedState.
Proof.
  assert (Hs : cx_state (greeted false) = Connected) by (vm_compute; reflexivity).
  assert (Ha : cx_last_activity (greeted false) = Some 1) by (vm_compute; reflexivity).
  destruct (watchdog_exact record_sample (Some []) compress_ok error_name config (greeted false) 1 0 31
    (greeted_session false) Hs Ha) as [_ Hw].
  apply (Hw [CallTransmit; send_on 0 3 40] 0 61); [vm_compute; discriminate| |vm_compute; discriminate].
  repeat constructor.
Defined.

(** A batched send and a plain producer's deadline, ticked at 20. *)
Definition ticking : Session := calls [send_on 0 2 2; send_on 0 3 3] (greeted true).

Lemma ticking_session : session config ticking.
Proof. apply calls_session; [apply greeted_session|by vm_compute]. Qed.

Lemma tick_clears_deadlines_witness :
  exists d, producer_poll_timeout (call (CallTick 0 20) ticking) = Some d /\ 20 < d.
Proof.
  assert (Hd : exists d, producer_poll_timeout (call (CallTick 0 20) ticking) = Some d) by (vm_compute; eauto).
  destruct Hd as [d Hd]. exists d. split; [exact Hd|].
  apply (tick_clears_deadlines record_sample (Some []) compress_ok error_name config ticking 0 20 d ticking_session).
  - vm_compute. reflexivity.
  - assert (Hp : forallb (fun e => negb (closed (sl_producer e.2))) (map_to_list (cx_producers ticking)) = true)
      by (vm_compute; reflexivity).
    intros h s Hs Hc. rewrite forallb_forall in Hp.
    apply elem_of_map_to_list, list_elem_of_In, Hp in Hs. simpl in Hs. rewrite Hc in Hs. discriminate.
  - vm_compute. reflexivity.
  - exact Hd.
Defined.

(** A send awaited through its slot, a request through the slab. *)
Definition awaited : Session :=
  calls [send_on 0 2 2; CallRegisterWaker (KSend 0 0) 7; CallPlainRequest; CallRegisterWaker (KRequest 1) 8]
    (greeted false).

Lemma awaited_slab : waits awaited (KRequest 1) 8 /\ ~ forgotten awaited (KRequest 1).
Proof.
  split; [right; split; [by vm_compute|split; discriminate]|]. intros (rid & h & [= <-] & Hp).
  revert Hp. vm_compute. discriminate.
Qed.

Lemma shutdown_settles_everything_witness :
  (8 : waker) ∈ cx_woken (fail_all_pending "gone" awaited)
  /\ cx_outcomes (fail_all_pending "gone" awaited) !! KRequest 1 = Some (OTerminal (KRequest 1) "gone").
Proof.
  destruct (shutdown_settles_everything "gone" awaited) as ((new & Hw & Hn) & _ & _ & Hr & _).
  destruct awaited_slab as [Ha Hf]. split.
  - rewrite Hw. apply elem_of_app. right. exact (Hn _ _ Ha Hf).
  - apply (Hr 1 PPlain); [vm_compute; reflexivity|exact Hf].
Defined.

Lemma reset_settles_everything_witness :
  (8 : waker) ∈ cx_woken (reset awaited)
  /\ cx_outcomes (reset awaited) !! KRequest 1 = Some (OSessionLost (KRequest 1)).
Proof.
  destruct (reset_settles_everything awaited) as ((new & Hw & Hn) & _ & _ & Hr & _).
  destruct awaited_slab as [Ha Hf]. split.
  - rewrite Hw. apply elem_of_app. right. exact (Hn _ _ Ha Hf).
  - apply (Hr 1 PPlain); [vm_compute; reflexivity|exact Hf].
Defined.

(** * Sessions that go wrong *)

(** A producer closed with a message in its batch keeps the deadline of the
    batch, which no tick clears: [poll_timeout] names the same instant in the
    past again and again, for ever if the broker refuses the close. *)
Definition closed_with_batch : Session :=
  calls [send_on 0 2 2; CallCloseProducer 0 false; frame 3 (RError (Some (mkError 1 22 "refused")))]
    (greeted true).

Example closed_batch_spins :
  producer_poll_timeout closed_with_batch = Some 7
  /\ producer_poll_timeout (call (CallTick 0 20) closed_with_batch) = Some 7
  /\ cx_state (call (CallTick 0 20) closed_with_batch) = Connected.
Proof. vm_compute. done. Qed.

(** While a challenge is open the keep-alive deadline is reported and no tick
    moves it. *)
Definition challenge : Received := RAuthChallenge (Some (Some (Some "token", None))).

Example challenge_spins :
  let c := calls [frame 2 challenge] (greeted false) in
  producer_poll_timeout c = Some 32 /\ producer_poll_timeout (call (CallTick 0 40) c) = Some 32.
Proof. vm_compute. done. Qed.

(** A challenge answered before [CommandConnected] arrives leaves the connection
    connected, at no time and with no version. *)
Example connected_before_connected :
  let c := calls [CallBegin; frame 0 challenge; CallAuthResponse [] None] (Conn_new config) in
  cx_state c = Connected /\ cx_last_connected_at c = None /\ cx_broker_protocol_version c = 0.
Proof. vm_compute. done. Qed.

(** A read error that the engine reports after the user has closed the
    connection erases the close, which the supervisor looks for. *)
Example disconnect_forgets_close :
  is_user_closed (calls [CallClose 2] (greeted false)) = true
  /\ is_user_closed (calls [CallClose 2; CallDisconnect 3] (greeted false)) = false.
Proof. vm_compute. done. Qed.

(** The epochs of the opens sent for each producer id. *)
Definition open_epochs (c : Session) : list (Z * option Z) :=
  omap (fun i => match i with
                 | LSent (SCommand (CProducer p)) => Some (cp_producer_id p, cp_epoch p)
                 | _ => None
                 end) (cx_log c).

(** An open re-sent after a reset, with epoch 1, then abandoned, is reclaimed
    under epoch 1 again. *)
Example reclaimed_under_same_epoch :
  open_epochs (calls [CallDisconnect 2; CallReset; CallBegin; frame 3 connected; CallRebuild; CallCancelOpen 0;
    CallCreate (request false); frame 4 (RError (Some (mkError 3 16 "busy"))); CallCreate (request false)]
    (greeted false))
  = [(0, None); (0, Some 1); (1, None); (0, Some 1)].
Proof. vm_compute. done. Qed.

(** What is put on the wire for a send accepted by a slot before its producer
    is closed: the close first, the frame after it. *)
Example close_overtakes_send :
  (fun s => match s with SCommand (CCloseProducer h _) => inl h | SFrame h _ => inr (Some h) | _ => inr None end)
    <$> fst (poll_transmit (calls [CallTransmit;
      CallSlotSend EmptyString 0 (message 2) (mkReservation true 2) 0 2; CallCloseProducer 0 false] (greeted false)))
  = [inl 0; inr (Some 0)].
Proof. vm_compute. done. Qed.
