(* ===== verification/ConsumerCases.v ===== *)
(** Concrete consumers: an instance of the waker slab, the theorems of the
    consumer files on sample executions, and executions in which the code loses
    permits or miscounts its buffers. *)

From S2P Require Import Prelude Time Ids Frame Txn Compress Trackers MemoryLimit ReceiverQueue BatchAck Producer ProducerSpec ProducerChunks BatchBody ProducerCases Consumer ConsumerFlow ConsumerChunks ConsumerBatch ConsumerTimers EndToEnd.

(** * Instances *)

(** A slab that does not reuse its slots. *)
#[global] Instance list_slab : WakerSlab (list (option nat)) := {|
  ws_new := [];
  ws_insert w s := (blen s, s ++ [Some w]);
  ws_contains k s := match s !! Z.to_nat k with Some (Some _) => 0 <=? k | _ => false end;
  ws_remove k s := <[Z.to_nat k := None]> s;
  ws_drain s := (omap id s, []);
|}.

Abbreviation Consumer P := (ConsumerState P (list (option nat)) (list Z)).

(** * Sample frames *)

Definition cmd_at (entry : Z) (acks : list Z) : CommandMessage :=
  mkCommandMessage 1 (mkMessageIdData 7 entry None None [] None None) None acks None.

Definition plain_frame (entry : Z) (n : nat) : consumer_event :=
  CeMessage (cmd_at entry []) default_metadata None (payload n) 0.

Definition chunk_md (u : string) (total id : Z) : MessageMetadata :=
  default_metadata <| md_uuid := Some u |> <| md_num_chunks_from_msg := Some total |> <| md_chunk_id := Some id |>.

Definition chunk_event (entry : Z) (u : string) (total id : Z) (n : nat) : consumer_event :=
  CeMessage (cmd_at entry []) (chunk_md u total id) None (payload n) 0.

Definition new_consumer {P} `{ReceiverQueuePolicy P} (policy : P) : Consumer P :=
  with_policy 1 policy (Some 1) (Some []).

(** The permits granted by the flows of a run, and its final state. *)
Definition play {P} `{ReceiverQueuePolicy P} (evs : list consumer_event) (c : Consumer P)
    : option (list Z * Consumer P) :=
  match consumer_run record_sample evs c with
  | Some (flows, c) => Some (cf_message_permits <$> flows, c)
  | None => None
  end.

Definition attach : list consumer_event := [CeSubscribeSent 1 ReleaseFlow; CeSubscribeSuccess 1 0].

(** * Permits that never come back *)

(** What the application and the timers can still do. *)
Definition pop_or_tick (ev : consumer_event) : bool :=
  match ev with CePop _ | CeTick _ _ => true | _ => false end.

(** Nothing queued, nothing granted, too little consumed, and a target the policy
    will not raise any more. *)
Record wedged (c : Consumer Auto) : Prop := {
  we_policy : c_policy c = Auto_new 4 16;
  we_size : c_receiver_queue_size c = 16;
  we_queue : c_queue c = [];
  we_balance : c_permit_balance c = 0;
  we_consumed : c_consumed_since_flow c = 4;
  we_msgs : c_total_msgs_received c = 16;
  we_bytes : c_total_bytes_received c = 16;
  we_queued : c_queued_bytes c = 0;
}.

Lemma wedged_ext c c' : wedged c ->
  c_policy c' = c_policy c -> c_receiver_queue_size c' = c_receiver_queue_size c ->
  c_queue c' = c_queue c -> c_permit_balance c' = c_permit_balance c ->
  c_consumed_since_flow c' = c_consumed_since_flow c ->
  c_total_msgs_received c' = c_total_msgs_received c ->
  c_total_bytes_received c' = c_total_bytes_received c -> c_queued_bytes c' = c_queued_bytes c ->
  wedged c'.
Proof. intros []. split; congruence. Qed.

Lemma stage_wedged b c : wedged c -> wedged (stage_chunk_ack b c).
Proof. intros Hw. apply (wedged_ext c); try done; unfold stage_chunk_ack; by repeat case_match. Qed.

Lemma sweep_wedged now c : wedged c -> wedged (sweep_expired_chunks now c).
Proof.
  intros Hw. unfold sweep_expired_chunks. destruct (c_expire_time c) as [e|]; [|done].
  generalize (c_chunk_reassembly_order c) as order. intros order. revert c Hw.
  induction order as [|u order IH]; intros c Hw; simpl; [by apply (wedged_ext c)|].
  destruct (c_chunk_reassembly c !! u) as [b|]; [|by apply IH].
  destruct (now <? _); [by apply (wedged_ext c)|]. apply IH, stage_wedged. by apply (wedged_ext c).
Qed.

Lemma adjust_wedged now c : wedged c ->
  exists c', adjust_tick now c = Some (None, c') /\ wedged c'.
Proof.
  intros Hw. unfold adjust_tick. destruct (next_adjust_deadline c).
  2:{ eexists. split; [done|]. unfold arm_adjust_clock. case_match; by apply (wedged_ext c). }
  destruct (now >=? z); [|by eexists]. unfold adjust_receiver_queue. cbv zeta.
  set (c1 := c <| c_last_adjust_at := Some now |>). assert (Hw1 : wedged c1) by (by apply (wedged_ext c)).
  clearbody c1. destruct (_ || _); [by eexists|]. destruct (_ =? 0); [by eexists|].
  destruct Hw1 as [Hp Hs Hq Hb Hc Hm Hy Hd]. unfold flow_stats. rewrite Hp, Hs, Hq, Hb, Hm, Hy, Hd.
  eexists. split; [by vm_compute|]. by split.
Qed.

Lemma wedged_exec ev c : wedged c -> pop_or_tick ev = true ->
  exists c', consumer_exec record_sample ev c = Some (None, c') /\ wedged c'.
Proof.
  intros Hw Hev. destruct ev; try done; unfold consumer_exec.
  - exists c. split; [|done]. unfold conn_pop_message, pop_message, maybe_flow, flow_threshold.
    destruct Hw as [_ Hs Hq _ Hc _ _ _]. rewrite Hq, Hs, Hc. by destruct (_ || _).
  - unfold handle_timeout_consumer.
    set (s1 := match c_unacked_tracker c with Some t => _ | None => _ end).
    assert (H1 : wedged s1.2).
    { subst s1. destruct (c_unacked_tracker c) as [t|]; [|done].
      destruct (Unacked.unacked_poll now t). by apply (wedged_ext c). }
    destruct s1 as [redeliver c1]. cbv zeta.
    destruct (adjust_wedged now ((sweep_expired_chunks now c1) <| c_chunk_auto_ack_pending := [] |>))
      as (c2 & -> & H2).
    { eapply wedged_ext; [exact (sweep_wedged now c1 H1)|done..]. }
    simpl. destruct stall_timeout as [window|]; [|by eexists].
    assert (H3 : wedged (snd (poll_stall window now c2))).
    { unfold poll_stall. repeat case_match; by apply (wedged_ext c2). }
    destruct (poll_stall window now c2). by eexists.
Qed.

Lemma wedged_run evs : forall c, wedged c -> Forall (fun ev => pop_or_tick ev = true) evs ->
  exists c', consumer_run record_sample evs c = Some ([], c') /\ wedged c'.
Proof.
  induction evs as [|ev evs IH]; intros c Hw Hev; [by exists c|]. apply Forall_cons in Hev as [He Hev].
  destruct (wedged_exec ev c Hw He) as (c1 & Hex & Hw1). destruct (IH c1 Hw1 Hev) as (c2 & Hrun & Hw2).
  exists c2. simpl. rewrite Hex. simpl. by rewrite Hrun.
Qed.

(** Twelve messages received and popped, four queued while two timer ticks double
    the queue target, then everything popped. *)
Definition wedge_events : list consumer_event :=
  attach ++ concat (replicate 12 [plain_frame 0 1; CePop 0]) ++ replicate 4 (plain_frame 1 1)
    ++ [CeTick None 10; CeTick None 20] ++ replicate 4 (CePop 0).

(** C39: the auto-scaled queue can starve itself.  The growth of the target grants
    the difference to all permits ever granted, not to those outstanding, so once
    enough messages went by a growing target grants nothing while the refill
    threshold doubles: in this run of the automatic policy the application has
    popped every message, the broker holds no permit, and no amount of further
    popping or timer ticks ever sends a flow again. *)
Theorem auto_growth_wedges :
  exists flows c, consumer_run record_sample wedge_events (new_consumer (Auto_new 4 16)) = Some (flows, c)
    /\ c_queue c = [] /\ c_permit_balance c = 0 /\ is_flow_starved c = true
    /\ forall evs, Forall (fun ev => pop_or_tick ev = true) evs ->
         exists c', consumer_run record_sample evs c = Some ([], c')
           /\ c_queue c' = [] /\ c_permit_balance c' = 0.
Proof.
  destruct (consumer_run record_sample wedge_events (new_consumer (Auto_new 4 16))) as [[flows c]|] eqn:Hrun;
    [|by vm_compute in Hrun].
  assert (Hw : wedged c /\ is_flow_starved c = true).
  { vm_compute in Hrun. injection Hrun as _ <-. split; [by split|by vm_compute]. }
  clear Hrun. destruct Hw as [Hw Hst]. exists flows, c.
  split; [done|]. split; [exact (we_queue c Hw)|]. split; [exact (we_balance c Hw)|]. split; [done|].
  intros evs Hevs. destruct (wedged_run evs c Hw Hevs) as (c' & Hr & Hw'). exists c'.
  split; [done|]. split; [exact (we_queue c' Hw')|exact (we_balance c' Hw')].
Qed.

(** Filtered markers are counted but never given back.  The marker arm neither
    checks whether a refill is due nor wakes the application, so once markers have
    used up the permits of a consumer whose receive is parked, the broker holds
    none, the whole window waits to be given back, and no timer tick ever does. *)
Theorem markers_exhaust_permits :
  exists flows c,
    consumer_run record_sample (attach ++ [CeRegister 5] ++ replicate 4 CeMarker) (new_consumer (mkFixed 4))
      = Some (flows, c)
    /\ cf_message_permits <$> flows = [4]
    /\ c_permit_balance c = 0 /\ c_queue c = [] /\ c_receive_wakers c = [Some 5%nat]
    /\ flow_threshold c <= c_consumed_since_flow c
    /\ forall stall now, exists out c', handle_timeout_consumer stall now c = Some (out, c')
         /\ tk_flow out = None /\ c_permit_balance c' = 0.
Proof.
  destruct (consumer_run record_sample (attach ++ [CeRegister 5] ++ replicate 4 CeMarker) (new_consumer (mkFixed 4)))
    as [[flows c]|] eqn:Hrun; [|by vm_compute in Hrun].
  vm_compute in Hrun. injection Hrun as <- Hc. exists [mkFlow 1 4], c. split; [done|].
  split; [done|]. rewrite <- Hc. split_and!; [by vm_compute..|]. intros stall now.
  destruct (tick_fixed 4 ltac:(by vm_compute) stall now c) as (out & c' & Ht & Hf & Hs).
  { rewrite <- Hc. split; by vm_compute. }
  exists out, c'. rewrite Hc. split_and!; [done..|]. rewrite (fs_balance _ _ Hs), <- Hc. by vm_compute.
Qed.

(** A session reset empties the queue but not its byte count, so the bytes of
    the messages it dropped count as buffered for the rest of the consumer's life
    and shrink an auto-scaled queue that is in fact empty. *)
Theorem reset_leaks_queued_bytes :
  exists flows c,
    consumer_run record_sample (attach ++ [plain_frame 1 20; CeReset] ++ attach ++ [plain_frame 2 1; CePop 0])
      (new_consumer (Auto_new 4 16)) = Some (flows, c)
    /\ c_queue c = [] /\ c_queued_bytes c = 20
    /\ per_partition_budget (c_policy c) (flow_stats 1 c) <= in_flight_bytes (flow_stats 1 c).
Proof.
  destruct (consumer_run record_sample _ (new_consumer (Auto_new 4 16))) as [[flows c]|] eqn:Hrun;
    [|by vm_compute in Hrun].
  vm_compute in Hrun. injection Hrun as _ <-. eexists _, _. split; [done|]. by vm_compute.
Qed.

(** A repeated chunk is refused but kept: its payload replaces the one that
    was buffered, while the byte count that enforces the ceiling still holds the
    size of the first.  One byte is accounted for a buffer of a hundred. *)
Theorem duplicate_chunk_unaccounted :
  exists c, deliver_frames
      [mkInbound (cmd_at 1 []) (chunk_md EmptyString 3 0) None (payload 1) 0;
       mkInbound (cmd_at 2 []) (chunk_md EmptyString 3 0) None (payload 100) 0]
      (new_consumer (mkFixed 4)) = ([Ok Buffered; Ok Dropped], c)
    /\ c_chunk_buffered_bytes c = 1
    /\ (buffered_bytes <$> c_chunk_reassembly c !! EmptyString) = Some 100.
Proof. eexists. split; [by vm_compute|]. by vm_compute. Qed.

(** * The theorems on sample executions *)

Definition state_after {P} `{ReceiverQueuePolicy P} (evs : list consumer_event) (c : Consumer P) : Consumer P :=
  match consumer_run record_sample evs c with Some (_, c) => c | None => c end.

(** Attached with four permits; two messages later, one of them popped. *)
Definition attached4 : Consumer Fixed := state_after attach (new_consumer (mkFixed 4)).
Definition busy4 : Consumer Fixed := state_after [plain_frame 1 3; plain_frame 2 3; CePop 0] attached4.

Lemma new_counters : counters_ok (new_consumer (mkFixed 4)).
Proof. split; by vm_compute. Qed.

Lemma reach_step ev flow v v' (c c' : Consumer Fixed) :
  consumer_reachable record_sample 4 v c -> event_ok ev ->
  consumer_exec record_sample ev c = Some (flow, c') -> next_view ev c flow v = v' ->
  consumer_reachable record_sample 4 v' c'.
Proof. intros Hr Hok Hex <-. by eapply cr_step. Qed.

Definition full_view : broker_view := mkView true 4 0 true.

Lemma attached4_reachable : consumer_reachable record_sample 4 full_view attached4.
Proof.
  apply (reach_step (CeSubscribeSuccess 1 0) (Some (mkFlow 1 4)) no_view _
           (state_after [CeSubscribeSent 1 ReleaseFlow] (new_consumer (mkFixed 4)))); [|done|by vm_compute..].
  apply (reach_step (CeSubscribeSent 1 ReleaseFlow) None no_view _ (new_consumer (mkFixed 4)));
    [|done|by vm_compute..].
  apply cr_fresh. split; by vm_compute.
Qed.

(** The broker has two permits left. *)
Lemma busy4_reachable : consumer_reachable record_sample 4 (mkView true 2 0 true) busy4.
Proof.
  apply (reach_step (CePop 0) None (mkView true 2 0 true) _ (state_after [plain_frame 1 3; plain_frame 2 3] attached4));
    [|done|by vm_compute..].
  apply (reach_step (plain_frame 2 3) None (mkView true 3 0 true) _ (state_after [plain_frame 1 3] attached4));
    [|done|by vm_compute..].
  apply (reach_step (plain_frame 1 3) None full_view _ attached4); [|done|by vm_compute..].
  apply attached4_reachable.
Qed.


Lemma drain_refills_witness :
  exists flows c', consumer_run record_sample (replicate 2 (CePop 9)) busy4 = Some (flows, c')
    /\ c_queue c' = [] /\ 0 < c_permit_balance c'.
Proof.
  apply (drain_refills record_sample 4 ltac:(by vm_compute) 9 (mkView true 2 0 true) busy4); [apply busy4_reachable|done|].
  split_and!; by vm_compute.
Defined.

Lemma session_next ev flow v v' (c c' : Consumer Fixed) :
  session record_sample 4 v c -> in_session ev = true -> spent ev <= bv_permits v ->
  consumer_exec record_sample ev c = Some (flow, c') -> next_view ev c flow v = v' ->
  session record_sample 4 v' c'.
Proof. intros Hs Hin Ha Hex <-. by eapply se_step. Qed.

Lemma attached4_session : session record_sample 4 full_view attached4.
Proof. apply se_granted. split; by vm_compute. Qed.

Lemma busy4_session : session record_sample 4 (mkView true 2 0 true) busy4.
Proof.
  apply (session_next (CePop 0) None (mkView true 2 0 true) _ (state_after [plain_frame 1 3; plain_frame 2 3] attached4));
    [|by vm_compute..].
  apply (session_next (plain_frame 2 3) None (mkView true 3 0 true) _ (state_after [plain_frame 1 3] attached4));
    [|by vm_compute..].
  apply (session_next (plain_frame 1 3) None full_view _ attached4); [|by vm_compute..]. apply attached4_session.
Qed.

(** A chunk without its first one is refused: the broker is left with a permit
    less, and the client still counts it. *)
Definition stray (id : Z) : consumer_event := chunk_event id EmptyString 3 1 5.

Lemma refused_session : session record_sample 4 (mkView true 3 1 true) (state_after [stray 1] attached4).
Proof. apply (session_next (stray 1) None full_view _ attached4); [|by vm_compute..]. apply attached4_session. Qed.


(** Four refused chunks use up the window of four: the broker has no permit left,
    nothing is queued or owed, and the client, whose mirror still says four, never
    asks for more and does not call itself starved. *)
Example refused_chunks_wedge :
  let c := state_after [stray 1; stray 2; stray 3; stray 4] attached4 in
  consumer_run record_sample [stray 1; stray 2; stray 3; stray 4; CePop 0] attached4 = Some ([], c)
  /\ session record_sample 4 (mkView true 0 4 true) c
  /\ c_queue c = [] /\ c_consumed_since_flow c = 0 /\ is_flow_starved c = false.
Proof.
  split_and!; [by vm_compute| |by vm_compute..].
  apply (session_next (stray 4) None (mkView true 1 3 true) _ (state_after [stray 1; stray 2; stray 3] attached4));
    [|by vm_compute..].
  apply (session_next (stray 3) None (mkView true 2 2 true) _ (state_after [stray 1; stray 2] attached4));
    [|by vm_compute..].
  apply (session_next (stray 2) None (mkView true 3 1 true) _ (state_after [stray 1] attached4)); [|by vm_compute..].
  apply refused_session.
Qed.

Lemma deliver_charged_witness :
  c_permit_balance (snd (deliver (cmd_at 1 []) default_metadata None (payload 3) 0 attached4)) = 3.
Proof.
  pose proof (deliver_charged (cmd_at 1 []) default_metadata None (payload 3) 0 attached4) as Hd.
  destruct (deliver (cmd_at 1 []) default_metadata None (payload 3) 0 attached4) as [[o ws] c'] eqn:He.
  destruct Hd as (Hb & _); [split; by vm_compute|by vm_compute|].
  cbn [snd]. rewrite Hb. vm_compute in He. injection He as <- _ _. by vm_compute.
Defined.

Definition two_chunks : list consumer_event :=
  [chunk_event 1 EmptyString 3 0 5; chunk_event 2 EmptyString 3 1 5].

Lemma chunk_buffers_bounded_witness :
  let c := state_after two_chunks attached4 in
  Z.of_nat (size (c_chunk_reassembly c)) <= 10 /\ c_chunk_reassembly_order c = [EmptyString]
  /\ c_chunk_buffered_bytes c <= MAX_BUFFERED_CHUNK_BYTES + first_bytes (c_chunk_reassembly c).
Proof.
  destruct (consumer_run record_sample two_chunks attached4) as [[flows c]|] eqn:Hrun; [|by vm_compute in Hrun].
  destruct (chunk_buffers_bounded record_sample two_chunks attached4 flows c) as (_ & _ & Hb & _ & Hy);
    [by vm_compute..|done|].
  intros c0. subst c0. unfold state_after. rewrite Hrun. split_and!; [|by vm_compute in Hrun; injection Hrun as _ <-|done].
  vm_compute in Hrun. injection Hrun as _ <-. by apply Hb.
Defined.

Lemma sweep_exact_witness :
  let c := state_after two_chunks attached4 in
  c_chunk_reassembly_order (sweep_expired_chunks (from_mins 1) c) = [].
Proof.
  intros c.
  destruct (sweep_exact (from_mins 1) (from_mins 1) c) as [[Ho _ _] _]; [|by vm_compute|..].
  - apply chunks_ok_wf, (chunks_run record_sample two_chunks attached4 [mkFlow 1 2]); [split|by vm_compute].
    + apply order_ok_empty.
    + by vm_compute.
    + apply map_Forall_empty.
    + apply bytes_below. by vm_compute.
  - assert (Hc : c_chunk_reassembly_order c = [EmptyString]) by (by vm_compute).
    rewrite Hc. repeat constructor.
  - rewrite Ho. by vm_compute.
Defined.

Lemma stall_reported_once_witness :
  fst (stall_ticks 50 [10; 60; 70] (arm_stall_watch 0 attached4)) = [60].
Proof. destruct (stall_reported_once 50 0 [10; 60; 70] attached4) as [Hr _]; [by vm_compute|]. rewrite Hr. by vm_compute. Defined.

(** Three chunks of a 25-byte message, the last two swapped. *)
Definition sent : ProducerState (list Z) := snd (emit_chunked EmptyString (message 25) empty_reservation 0 0 plain).

Definition relay (entry : Z) (fr : OutboundFrame) : inbound :=
  mkInbound (cmd_at entry []) (of_metadata fr) None (of_payload fr) 0.

Definition no_frame : OutboundFrame :=
  mkFrame (mkSend 0 0 None None None None None None None) default_metadata [] 0.

Definition relayed (i : Z) : inbound := relay i (default no_frame (outbound sent !! Z.to_nat i)).

Lemma relayed_relays ids : Forall (fun i => 0 <= i < 3) ids -> Forall2 (relays (outbound sent)) (relayed <$> ids) ids.
Proof.
  induction 1 as [|i ids Hi Hids IH]; [constructor|]. rewrite fmap_cons.
  assert (Hlen : length (outbound sent) = 3%nat) by (by vm_compute).
  destruct (lookup_lt_is_Some_2 (outbound sent) (Z.to_nat i)) as [fr Hfr]; [lia|].
  constructor; [|done]. exists fr. unfold relayed. rewrite Hfr. split_and!; try done. lia.
Qed.

Lemma attached4_wf : chunks_wf attached4.
Proof. split; [apply order_ok_empty|by vm_compute|apply map_Forall_empty]. Qed.

Lemma chunked_end_to_end_witness :
  exists im c', deliver_frames (relayed <$> [0; 2; 1]) attached4 = ([Ok Buffered; Ok Buffered; Ok (Delivered 1)], c')
    /\ c_queue c' = [im] /\ im_payload im = payload 25.
Proof.
  pose proof (chunked_end_to_end (P := Fixed) (W := list (option nat)) (Hist := list Z)
    EmptyString (message 25) empty_reservation 0 0 plain ltac:(by vm_compute) ltac:(by vm_compute)) as Hc.
  destruct (emit_chunked EmptyString (message 25) empty_reservation 0 0 plain) as [d p'] eqn:He.
  assert (Hp : p' = sent) by (unfold sent; by rewrite He). subst p'.
  destruct Hc as (frames & Hout & _ & _ & _ & Hd). change (outbound plain) with (@nil OutboundFrame) in Hout.
  rewrite app_nil_l in Hout. subst frames.
  destruct (Hd attached4 (relayed 0) (relayed <$> [2; 1]) [2; 1]) as (im & c' & H1 & H2 & H3);
    [by vm_compute|apply attached4_wf|by vm_compute..| | |by exists im, c'].
  - apply (relayed_relays [0; 2; 1]). repeat constructor; lia.
  - change (seqZ 0 (blen (outbound sent))) with [0; 1; 2]. repeat constructor.
Defined.

(** A compressed batch of two messages. *)
Definition packed : ProducerState (list Z) :=
  sl_state (run_all [send 2 0; send 3 1] (mkSlot (batching <| compression := CZlib |>) [] [])).

Lemma packed_ok : Forall member_ok (messages (batch packed)).
Proof. repeat constructor; try (by vm_compute); by exists default_metadata. Qed.

Lemma batch_end_to_end_witness :
  let f := batch_frame compress_ok 5 packed in
  let '(outcome, _, c') := deliver (cmd_at 1 []) (of_metadata f) None (of_payload f) 0 attached4 in
  outcome = Ok (Delivered 2)
  /\ exists ims, c_queue c' = [] ++ ims /\ batch_index ∘ im_message_id <$> ims = [0; 1].
Proof.
  assert (Hne : messages (batch packed) <> []) by (vm_compute; discriminate).
  assert (Hlen : blen (messages (batch packed)) <= i32_max) by (vm_compute; discriminate).
  assert (Hsz : blen (pack_batch (messages (batch packed))) <= MAX_FRAME_SIZE) by (vm_compute; discriminate).
  assert (Ha : accepting attached4) by (by vm_compute).
  pose proof (batch_end_to_end 5 packed (cmd_at 1 []) None 0 attached4 Hne packed_ok Hlen Hsz Ha
    eq_refl eq_refl) as Hb.
  intros f. cbv zeta in Hb. fold f in Hb.
  destruct (deliver (cmd_at 1 []) (of_metadata f) None (of_payload f) 0 attached4) as [[o ws] c'].
  destruct Hb as (Ho & ims & Hq & _ & Hi & _); [intros e He; vm_compute in He; discriminate|].
  split; [exact Ho|]. exists ims. split; [exact Hq|exact Hi].
Defined.

(** The broker sends the batch again: position 0 is already acknowledged. *)
Lemma batch_delivered_witness :
  let f := batch_frame compress_ok 5 packed in
  let '(_, _, c') := deliver (cmd_at 1 [2]) (of_metadata f) None (of_payload f) 0 attached4 in
  batch_index ∘ im_message_id <$> c_queue c' = [1]
  /\ exists e, c_batch_ack_tracker c' !! (7, 1) = Some e /\ tracks e 2.
Proof.
  intros f. assert (Ha : accepting attached4) by (by vm_compute).
  assert (Hk : chunk_of (of_metadata f) = None) by (by vm_compute).
  assert (Hn : md_num_messages_in_batch (of_metadata f) = Some 2) by (by vm_compute).
  pose proof (batch_delivered (cmd_at 1 [2]) (of_metadata f) None (of_payload f) 0 attached4 2 Ha Hk Hn) as Hb.
  cbv zeta in Hb. destruct (unpack_batch_members (of_metadata f) (of_payload f) 2) as [members meta].
  destruct (deliver (cmd_at 1 [2]) (of_metadata f) None (of_payload f) 0 attached4) as [[o ws] c'] eqn:Hd.
  destruct Hb as (ms & _ & _ & _ & _ & _ & e & He & Ht & _).
  { intros e He. vm_compute in He. discriminate. }
  split; [|exists e; split; [exact He|exact Ht]]. vm_compute in Hd. injection Hd as _ _ <-. by vm_compute.
Defined.
