(* ===== verification/ScalableCases.v ===== *)
(** * Scalable topics: concrete layouts, assignments and runs

    Instances of the parameters and sample executions of the components under
    [SegmentTopic], [Assignment], [DagWatch] and [ScalableConn]: the hypotheses of
    their theorems hold of them, and a few behaviours worth knowing are
    exhibited. *)

From S2P Require Import Prelude Ids SegmentTopic Assignment AssignmentSession DagWatch DagOrder DagRanges DagSession ScalableConn ScalableConnSpec.

(** * Layouts *)

(** A stand-in for the generated encoder: eight bytes per segment. *)
#[export] Instance dag_message : ProtoMessage ScalableTopicDag := {|
  pb_encode d := be_bytes 8 (dag_epoch d) ++ (dag_segments d ≫= fun i => be_bytes 8 (info_id i));
  pb_decode _ := None;
|}.

Definition segment_info (id start end_ state : Z) (parents children : list Z) (created : Z)
    (sealed : option Z) : SegmentInfoProto :=
  mkSegmentInfo id start end_ state parents children created sealed 0 None None [].

(** One segment; then it splits; then the halves merge. *)
Definition layout_0 : ScalableTopicDag :=
  mkDagPb 0 [segment_info 0 0 65535 0 [] [] 0 None] [] None None.

Definition layout_1 : ScalableTopicDag :=
  mkDagPb 1 [segment_info 0 0 65535 1 [] [1; 2] 0 (Some 1);
             segment_info 1 0 32767 0 [0] [] 1 None;
             segment_info 2 32768 65535 0 [0] [] 1 None] [] None None.

Definition layout_2 : ScalableTopicDag :=
  mkDagPb 2 [segment_info 0 0 65535 1 [] [1; 2] 0 (Some 1);
             segment_info 1 0 32767 1 [0] [3] 1 (Some 2);
             segment_info 2 32768 65535 1 [0] [3] 1 (Some 2);
             segment_info 3 0 65535 0 [1; 2] [] 2 None] [] None None.

Definition snapshot_of (dag : ScalableTopicDag) : DagSnapshot :=
  match try_from_pb_with_limits dag default_limits with
  | Ok snap => snap
  | Err _ => mkSnapshot 0 ∅ [] ∅
  end.

Lemma layout_2_accepted : try_from_pb_with_limits layout_2 default_limits = Ok (snapshot_of layout_2).
Proof. vm_compute. reflexivity. Qed.

Lemma layout_2_ok :
  layout_ok 2 MAX_DAG_DEPTH (snap_segments (snapshot_of layout_2))
    (snap_topological_order (snapshot_of layout_2)).
Proof. exact (proj1 (try_from_pb_layout layout_2 default_limits _ default_depth_ok layout_2_accepted)). Qed.

Example layout_2_order : snap_topological_order (snapshot_of layout_2) = [0; 1; 2; 3].
Proof. vm_compute. reflexivity. Qed.

Example layout_refusals :
  (try_from_pb (mkDagPb 1 [segment_info 0 0 65535 1 [1] [1] 0 (Some 0); segment_info 1 0 65535 1 [0] [0] 0 (Some 0)] [] None None),
   try_from_pb (mkDagPb 1 [segment_info 0 0 65535 1 [] [1] 0 (Some 1); segment_info 1 0 32767 0 [0] [] 1 None] [] None None),
   try_from_pb (mkDagPb 1 [segment_info 0 0 100 0 [] [] 0 None; segment_info 1 102 65535 0 [] [] 0 None] [] None None))
  = (Err Cycle, Err (InvalidSplitCoverage 0), Err (ActiveCoverageDiscontinuity 101 102 1)).
Proof. vm_compute. reflexivity. Qed.

Lemma accepted_layout_sound_witness :
  layout_ok 2 MAX_DAG_DEPTH (snap_segments (snapshot_of layout_2)) (snap_topological_order (snapshot_of layout_2))
  /\ dom (snap_segments (snapshot_of layout_2)) = list_to_set (info_id <$> dag_segments layout_2)
  /\ NoDup (info_id <$> dag_segments layout_2)
  /\ blen (dag_segments layout_2) <= lim_segments default_limits
  /\ blen (dag_segment_brokers layout_2) <= lim_segments default_limits
  /\ encoded_len layout_2 <= lim_serialized_size default_limits
  /\ edges_to_parents (snap_segments (snapshot_of layout_2)) <= lim_edges default_limits
  /\ edges_to_children (snap_segments (snapshot_of layout_2)) <= lim_edges default_limits.
Proof.
  assert (He : 0 <= lim_edges default_limits < usize_max) by (vm_compute; split; [discriminate|reflexivity]).
  exact (accepted_layout_sound layout_2 default_limits (snapshot_of layout_2)
           default_depth_ok He layout_2_accepted).
Defined.

Lemma kahn_exact_witness :
  is_Some (kahn_loop 5 (snap_segments (snapshot_of layout_2)) 2 (kahn_init (snap_segments (snapshot_of layout_2))) [])
  /\ exists order, validate_acyclic_and_depth (snap_segments (snapshot_of layout_2)) 2 = Ok order
       /\ topo (snap_segments (snapshot_of layout_2)) order.
Proof.
  assert (Hm : 0 <= 2 <= usize_max - 1) by (vm_compute; split; discriminate).
  pose proof (kahn_exact (snap_segments (snapshot_of layout_2)) 2 (lo_edges _ _ _ _ layout_2_ok) Hm) as [Hs Ho].
  split; [exact Hs|]. exists [0; 1; 2; 3].
  assert (Hv : validate_acyclic_and_depth (snap_segments (snapshot_of layout_2)) 2 = Ok [0; 1; 2; 3])
    by (vm_compute; reflexivity).
  rewrite Hv in Ho. split; [exact Hv|exact (proj1 (proj2 Ho))].
Defined.

Lemma layout_2_acyclic : acyclic (snap_segments (snapshot_of layout_2)).
Proof.
  destruct (lo_order _ _ _ _ layout_2_ok) as [Hp Ht]. apply (topo_acyclic _ _ Ht).
  intros i Hi. rewrite Hp, elem_of_elements. by apply elem_of_dom.
Qed.

(** The merged segment waits for all three ancestors; the first of them moves. *)
Example merged_segment_waits :
  ordering_eligibility (snapshot_of layout_2) 3 Strict {[0; 1; 2]} {[1]} = Ok (Blocked [0; 2] []).
Proof. vm_compute. reflexivity. Qed.

Lemma ordering_barrier_witness :
  exists a e, a ∈ [0; 2]
    /\ ordering_eligibility (snapshot_of layout_2) a Strict {[0; 1; 2]} {[1]} = Ok e /\ permits_flow e = true.
Proof.
  exact (proj2 (ordering_barrier (snapshot_of layout_2) 3 Strict {[0; 1; 2]} {[1]}
                  layout_2_acyclic (lo_edges _ _ _ _ layout_2_ok)) [0; 2] [] merged_segment_waits).
Defined.

(** * Watch sessions *)

Definition update_of (session_id : Z) (dag : ScalableTopicDag) : ScalableTopicUpdate :=
  mkTopicUpdate session_id (Some dag) None None None.

(** A layout, its repetition, an update for another session, a malformed layout,
    a layout two epochs ahead, and a stale one. *)
Definition sample_updates : list ScalableTopicUpdate :=
  [update_of 5 layout_0; update_of 5 layout_0; update_of 6 layout_1;
   update_of 5 (mkDagPb 1 [] [] None None); update_of 5 layout_2; update_of 5 layout_1].

Definition sample_watch : list DagDelta * DagWatchSession := watch_run sample_updates (watch_new 5).

Example sample_watch_epochs : dd_epoch <$> sample_watch.1 = [0; 2].
Proof. vm_compute. reflexivity. Qed.

Lemma watch_session_refines_witness :
  watch_ok sample_watch.2
  /\ foldl (fun ids d => observe d ids) ∅ sample_watch.1 = watch_ids sample_watch.2
  /\ StronglySorted Z.lt (dd_epoch <$> sample_watch.1)
  /\ session_epoch sample_watch.2 = dd_epoch <$> last sample_watch.1.
Proof.
  apply (watch_session_refines 5 sample_updates sample_watch.1 sample_watch.2).
  vm_compute. reflexivity.
Defined.

(** Epochs may be skipped: a merge of which the session held one parent only is
    reported as a split of that parent into a single child. *)
Definition layout_before_merge : ScalableTopicDag :=
  mkDagPb 0 [segment_info 0 0 32767 0 [] [] 0 None; segment_info 1 32768 65535 0 [] [] 0 None] [] None None.

Definition layout_after_merge : ScalableTopicDag :=
  mkDagPb 2 [segment_info 0 0 32767 1 [] [2; 3] 0 (Some 1); segment_info 1 32768 65535 1 [] [4] 0 (Some 2);
             segment_info 2 0 16383 0 [0] [] 1 None; segment_info 3 16384 32767 1 [0] [4] 1 (Some 2);
             segment_info 4 16384 65535 0 [3; 1] [] 2 None] [] None None.

Example merge_reported_as_split :
  (fun d => (dd_split_events d, dd_merge_events d))
    <$> (watch_run [update_of 5 layout_before_merge; update_of 5 layout_after_merge] (watch_new 5)).1
  = [([], []); ([mkSplit 0 [2; 3]; mkSplit 1 [4]], [])].
Proof. vm_compute. reflexivity. Qed.

(** * Registrations *)

Definition parent_name : str := lit "topic://public/default/orders".

Definition assigned_pb (id start end_ : Z) (name : String.string) : ScalableAssignedSegmentPb :=
  mkAssignedPb id start end_ (lit "segment://public/default/orders/" ++ lit name) [].

Definition both_halves : ScalableConsumerAssignmentPb :=
  mkAssignmentPb 1 [assigned_pb 2 32768 65535 "8000-ffff-2"; assigned_pb 1 0 32767 "0000-7fff-1"].
Definition lower_half : ScalableConsumerAssignmentPb :=
  mkAssignmentPb 1 [assigned_pb 1 0 32767 "0000-7fff-1"].
Definition merged : ScalableConsumerAssignmentPb :=
  mkAssignmentPb 2 [assigned_pb 3 0 65535 "0000-ffff-3"].

Definition assignment_of (pb : ScalableConsumerAssignmentPb) : ConsumerAssignment :=
  match assignment_try_from_pb pb parent_name with
  | Ok a => a
  | Err _ => mkAssignment 0 []
  end.

Example both_halves_normalised : as_segment_id <$> ca_segments (assignment_of both_halves) = [1; 2].
Proof. vm_compute. reflexivity. Qed.

Definition sample_session : ScalableConsumerSession :=
  session_new 7 parent_name (lit "sub") (lit "consumer") CtStream 1.

Definition sample_response : SubscribeResponse := mkSubscribeResponse 0 (Some both_halves) None None.

Definition sample_pushes : list AssignmentUpdate :=
  [mkAssignmentUpdate 7 lower_half; mkAssignmentUpdate 7 lower_half; mkAssignmentUpdate 7 merged].

(** The two orders of arrival, on the sample. *)
Definition pushed_first : ScalableConsumerSession :=
  match push_all sample_pushes sample_session with Ok (_, s) => s | Err _ => sample_session end.
Definition answered_last : ScalableConsumerSession :=
  (handle_subscribe_response sample_response pushed_first).2.

Example sample_changes :
  (fun r => (as_segment_id <$> ad_gained (ar_delta r), ad_lost (ar_delta r)))
    <$> (take_replayed_updates answered_last).1 = [([], [2]); ([3], [1])].
Proof. vm_compute. reflexivity. Qed.

Lemma buffering_transparent_witness :
  exists s1 s2, handle_subscribe_response sample_response sample_session = (Ok (assignment_of both_halves), s1)
    /\ take_replayed_updates s1 = ([], s2)
    /\ push_all sample_pushes s2
       = Ok ((take_replayed_updates answered_last).1, (take_replayed_updates answered_last).2).
Proof.
  assert (Hlen : blen sample_pushes <= MAX_BUFFERED_ASSIGNMENT_UPDATES) by (vm_compute; discriminate).
  apply (proj1 (buffering_transparent sample_session sample_response sample_pushes
                  (assignment_of both_halves) (take_replayed_updates answered_last).1
                  (take_replayed_updates answered_last).2 eq_refl eq_refl eq_refl Hlen)).
  exists pushed_first, answered_last. split_and!; vm_compute; reflexivity.
Defined.

(** * Runs of a connection *)

Definition sample_conn : ScalableConn :=
  mkConn (Some true) None 0 1 1 ∅ ∅ ∅ ∅ ∅ [] [].

Definition subscribe_7 (incarnation : Z) : op :=
  OpSubscribe parent_name (lit "sub") (lit "consumer") 7 CtStream incarnation.

(** Subscribe; a push overtakes the answer; the answer; a rebalance; the
    controller reconnects and answers with the merged layout; a push that is
    older than it ends the authority. *)
Definition sample_ops : list op :=
  [subscribe_7 1; OpAssignment (mkAssignmentUpdate 7 lower_half); OpResponse sample_response;
   OpAssignment (mkAssignmentUpdate 7 both_halves); subscribe_7 2;
   OpResponse (mkSubscribeResponse 1 (Some merged) None None)].

Definition sample_run : list ScalableEvent * ScalableConn * view := run sample_ops sample_conn ∅.

Example sample_view : (fun m : gmap Z AssignedSegment => elements (dom m)) <$> sample_run.2 !! 7 = Some [3].
Proof. vm_compute. reflexivity. Qed.

Example sample_epochs : epochs_of 7 sample_run.1.1 = [1; 1; 1; 2].
Proof. vm_compute. reflexivity. Qed.

Lemma sample_conn_ok : conn_ok sample_conn.
Proof. apply map_Forall_empty. Qed.

Lemma engine_follows_assignments_witness :
  sample_run.2 = assigned sample_run.1.2 /\ conn_ok sample_run.1.2.
Proof.
  apply (engine_follows_assignments sample_ops sample_conn ∅ sample_run.1.1 sample_run.1.2 sample_run.2
           sample_conn_ok).
  - reflexivity.
  - vm_compute. reflexivity.
  - vm_compute. reflexivity.
Defined.

Lemma assigned_epochs_never_regress_witness : StronglySorted Z.le (epochs_of 7 sample_run.1.1).
Proof.
  apply (assigned_epochs_never_regress 7 sample_ops sample_conn ∅ sample_run.1.1 sample_run.1.2 sample_run.2
           sample_conn_ok).
  - reflexivity.
  - repeat constructor; intros [].
  - vm_compute. reflexivity.
Defined.

(** The consumer leaves while its subscribe request is in flight. *)
Definition leaving_conn : ScalableConn := exec (subscribe_7 1) sample_conn.
Definition left_conn : ScalableConn := (remove_scalable_consumer_registration 7 1 leaving_conn).2.
Definition settle_ops : list op := [OpAssignment (mkAssignmentUpdate 7 lower_half); OpResponse sample_response].
Definition settled_run : list ScalableEvent * ScalableConn * view := run settle_ops left_conn ∅.

Example withheld_then_sent :
  (unsubscribes 7 left_conn, unsubscribes 7 settled_run.1.2) = (0%nat, 1%nat).
Proof. vm_compute. reflexivity. Qed.

Lemma leaving_conn_ids : ids_handed_out leaving_conn.
Proof.
  intros r [rq Hr]. unfold leaving_conn in *. change (cn_next_request_id (exec (subscribe_7 1) sample_conn)) with 1.
  change (cn_requests (exec (subscribe_7 1) sample_conn)) with ({[0 := mkRequest 7 1 false]} : gmap Z ScalableSubscribeRequest) in Hr.
  apply lookup_singleton_Some in Hr as [<- _]. lia.
Qed.

Lemma leave_unsubscribes_once_witness :
  cn_consumers settled_run.1.2 !! 7 = None
  /\ unsubscribes 7 settled_run.1.2
     = (unsubscribes 7 leaving_conn + if pending_for 7 (cn_requests settled_run.1.2) then 0 else 1)%nat.
Proof.
  apply (leave_unsubscribes_once 7 1 leaving_conn left_conn settle_ops ∅ settled_run.1.1 settled_run.1.2
           settled_run.2 leaving_conn_ids).
  - vm_compute. discriminate.
  - vm_compute. reflexivity.
  - vm_compute. reflexivity.
  - repeat constructor; intros [].
  - vm_compute. reflexivity.
Defined.

(** Closing a DAG session is reported, closing a namespace watch is not. *)
Example close_reports :
  (cn_events (exec (OpClose 1) (exec (OpOpen parent_name false) sample_conn)),
   cn_events (exec (OpCloseTopics 1) (exec (OpWatchTopics (lit "public/default") []) sample_conn)))
  = ([DagWatchClosed 1 ClientClose], []).
Proof. vm_compute. reflexivity. Qed.

(** A rejected registration is kept, without authority. *)
Example rejected_registration_kept :
  (fun s => (sc_invalidated s, sc_assignment s))
    <$> cn_consumers (exec (OpResponse (mkSubscribeResponse 0 None (Some 3) None)) leaving_conn) !! 7
  = Some (true, None).
Proof. vm_compute. reflexivity. Qed.
