(* ===== verification/StreamCases.v ===== *)
(** Concrete stream positions: the wire reader as [prost]'s decoder, the frozen
    byte vectors of the crate, and the theorems at them. *)

From S2P Require Import Prelude Ids SegmentTopic OrdinaryId StreamPosition ReceiverBudget Txn AggregateTxn.

#[global] Instance wire_ids : ProtoMessage MessageIdData :=
  {| pb_encode := WireLaws.id_bytes; pb_decode := Wire.decode |}.

#[global] Instance wire_ids_laws : OrdinaryIdProto.
Proof. split; [apply WireLaws.decode_typed|apply WireLaws.decode_canonical]. Qed.

Definition sample_source : SegmentSource :=
  mkSegmentSource 7 (lit "segment://t/n/x/0000-ffff-7") (mkKeyRange 0 65535).

Definition sample_left : SegmentSource :=
  mkSegmentSource 3 (lit "segment://t/n/x/0000-7fff-3") (mkKeyRange 0 32767).

Definition sample_id (entry : Z) : MessageId := mkMessageId 1 entry 0 0 1.

Definition hex (l : list Z) : bytes := byte.of_Z <$> l.

Definition golden_id : bytes := hex [77; 83; 84; 82; 1; 1; 0; 0; 0; 0; 0; 53; 0; 0; 0; 0; 0; 0; 0; 7; 0; 0; 0; 27]
  ++ as_bytes (lit "segment://t/n/x/0000-ffff-7") ++ hex [0; 0; 0; 10; 8; 1; 16; 2; 24; 0; 32; 0; 48; 1].

Definition golden_vector : bytes :=
  hex [77; 83; 84; 82; 1; 2; 0; 0; 0; 0; 0; 65; 0; 0; 0; 0; 0; 0; 0; 9; 0; 0; 0; 1;
       0; 0; 0; 0; 0; 0; 0; 7; 0; 0; 0; 27]
  ++ as_bytes (lit "segment://t/n/x/0000-ffff-7") ++ hex [0; 0; 0; 10; 8; 1; 16; 2; 24; 0; 32; 0; 48; 1].

Definition two_positions : list (SegmentSource * MessageId) :=
  [(sample_source, sample_id 2); (sample_left, sample_id 5)].

Definition sample_vector : PositionVector :=
  match pv_new 9 two_positions with Ok v => v | Err _ => mkPositionVector 0 ∅ end.

(** The frozen vectors of the crate's tests. *)
Example golden_id_written :
  (i ← smi_new sample_source (sample_id 2); smi_to_bytes i) = Ok golden_id.
Proof. vm_compute. reflexivity. Qed.

Example golden_vector_written :
  (v ← pv_new 9 [(sample_source, sample_id 2)]; pv_to_bytes v) = Ok golden_vector.
Proof. vm_compute. reflexivity. Qed.

(** Strictness: a trailing byte, a set flag, another kind and a reordered vector
    are refused. *)
Example refused_positions :
  smi_from_bytes (golden_id ++ hex [0]) = Err (LengthMismatch 53 54)
  /\ smi_from_bytes golden_vector = Err (UnexpectedKind 2 1)
  /\ pv_from_bytes (take 7 golden_vector ++ hex [1] ++ drop 8 golden_vector) = Err (UnsupportedFlags 1)
  /\ pv_from_bytes (take 11 golden_vector ++ hex [118] ++ be_bytes 8 9 ++ be_bytes 4 2
       ++ drop 24 golden_vector ++ drop 24 golden_vector) = Err NonCanonicalComponentOrder.
Proof. vm_compute. split_and!; reflexivity. Qed.

Lemma sample_sources_ok : Forall (fun p => source_ok p.1 /\ mid_typed p.2) two_positions.
Proof.
  unfold two_positions. repeat apply List.Forall_cons; [..|apply List.Forall_nil];
    (split; [|unfold mid_typed, u64_ok, i32_ok; simpl; unfold u64_max; lia]); cbn [fst]; unfold source_ok;
    (split; [unfold u64_ok, u64_max; simpl; lia|]); (split; [vm_compute; reflexivity|]);
    (split; [vm_compute; reflexivity|]); vm_compute; discriminate.
Qed.

Lemma sample_vector_new : pv_new 9 two_positions = Ok sample_vector.
Proof.
  assert (Hok : is_ok (pv_new 9 two_positions) = true) by (vm_compute; reflexivity).
  unfold sample_vector. destruct (pv_new 9 two_positions); [reflexivity|discriminate Hok].
Qed.

Lemma position_vector_saved_witness :
  u64_ok 9 /\ Forall (fun p => source_ok p.1 /\ mid_typed p.2) two_positions
  /\ pv_new 9 two_positions = Ok sample_vector
  /\ (forall s id, pv_get sample_vector s = Some id <-> (s, id) ∈ two_positions).
Proof.
  assert (H9 : u64_ok 9) by (unfold u64_ok, u64_max; lia).
  split; [exact H9|]. split; [exact sample_sources_ok|]. split; [exact sample_vector_new|].
  exact (proj1 (position_vector_saved 9 two_positions sample_vector H9 sample_sources_ok sample_vector_new)).
Defined.

Lemma position_codec_exact_witness :
  exists i, smi_from_bytes golden_id = Ok i /\ smi_to_bytes i = Ok golden_id.
Proof.
  assert (Hok : is_ok (smi_from_bytes golden_id) = true) by (vm_compute; reflexivity).
  destruct (smi_from_bytes golden_id) as [i|e] eqn:E.
  - exists i. split; [reflexivity|]. exact (proj2 (proj1 (proj2 position_codec_exact golden_id i) E)).
  - discriminate Hok.
Defined.

(** * The ledger and the gate *)

Definition sample_budget_ops : list budget_op :=
  [BReserveFlow; BTransfer 0 FlowPermit RetainedMessage 10; BReserveControl 65536; BReserveControl 1;
   BReserve DeliveredPositionMetadata 300; BRelease 0; BRelease 0].

Lemma sample_budget_ops_ok : Forall budget_op_ok sample_budget_ops.
Proof. unfold sample_budget_ops. repeat constructor; simpl; lia. Qed.

Lemma minimum_budget_accepted : ReceiverBudget_bytes minimum_budget = Ok minimum_budget.
Proof. vm_compute. reflexivity. Qed.

Lemma budget_headroom_kept_witness :
  minimum_budget <= usize_max /\ ReceiverBudget_bytes minimum_budget = Ok minimum_budget
  /\ Forall budget_op_ok sample_budget_ops
  /\ bs_data_used (foldl budget_exec (budget_new minimum_budget) sample_budget_ops) = 300
  /\ bs_data_used (foldl budget_exec (budget_new minimum_budget) sample_budget_ops)
     = map_sum dr_bytes (bs_reservations (foldl budget_exec (budget_new minimum_budget) sample_budget_ops)).
Proof.
  assert (H : minimum_budget <= usize_max) by (vm_compute; discriminate).
  split; [exact H|]. split; [exact minimum_budget_accepted|]. split; [exact sample_budget_ops_ok|].
  split; [vm_compute; reflexivity|].
  exact (proj1 (budget_headroom_kept minimum_budget minimum_budget sample_budget_ops H
                  minimum_budget_accepted sample_budget_ops_ok)).
Defined.

Definition sample_gate_ops : list gate_op :=
  [GAdmit; GAdmit; GSettle 1 true; GCommit; GAdmit; GSettle 0 true; GDecide; GCommit; GFinish ATCommitted].

Lemma sample_gate_commits :
  (gate_run sample_gate_ops (aggregate_new (mkTxnId 1 2))).1
  = [OAdmitted 0; OAdmitted 1; OSettled 1 true; ODecision (Wait 1); ORefused (AdmissionClosed (mkTxnId 1 2));
     OSettled 0 true; ODecision IssueCommit; ORefused (InvalidTransition CommitIssued); OFinished ATCommitted].
Proof. vm_compute. reflexivity. Qed.

Lemma gate_decides_once_witness :
  let r := gate_run sample_gate_ops (aggregate_new (mkTxnId 1 2)) in
  gate_run sample_gate_ops (aggregate_new (mkTxnId 1 2)) = (r.1, r.2)
  /\ (length (filter (fun x => is_issue x = true) r.1) <= 1)%nat.
Proof.
  intros r. assert (H : gate_run sample_gate_ops (aggregate_new (mkTxnId 1 2)) = (r.1, r.2))
    by exact (surjective_pairing _).
  split; [exact H|]. exact (proj1 (gate_decides_once (mkTxnId 1 2) sample_gate_ops r.1 r.2 H)).
Defined.
