(* ===== verification/StreamRuns.v ===== *)
(** * Stream consumers: sample executions

    A topic whose first segment has split, read by one consumer: the parent is
    read, acknowledged and completed before its halves are given permits; an
    entry is discarded; the consumer is closed.  The theorems of [StreamSpec],
    [StreamOnce] and [StreamGrants] are applied along these executions. *)

From S2P Require Import Prelude Ids Frame SegmentTopic Assignment DagWatch DagOrder DagSession OrdinaryId StreamPosition ReceiverBudget StreamModel StreamOps StreamReceive StreamAcks StreamLedger StreamInv StreamEmits StreamKeeps StreamSpec StreamOnce StreamGrants StreamCases.

(** * The topic *)

Definition topic_name : str := lit "topic://public/default/t".

Definition seg_parent : SegmentDescriptor :=
  mkSegment 0 (mkKeyRange 0 65535) None None SSealed [] [1; 2] 0 (Some 1) None.
Definition seg_low : SegmentDescriptor :=
  mkSegment 1 (mkKeyRange 0 32767) None None SActive [0] [] 1 None None.
Definition seg_high : SegmentDescriptor :=
  mkSegment 2 (mkKeyRange 32768 65535) None None SActive [0] [] 1 None None.

Definition split_layout : DagSnapshot :=
  mkSnapshot 1 (<[0 := seg_parent]> (<[1 := seg_low]> {[2 := seg_high]})) [0; 1; 2] ∅.

Definition assigned (d : SegmentDescriptor) : AssignedSegment :=
  mkAssigned (seg_id d) (seg_range d) []
    match canonical_segment_topic topic_name (seg_range d) (seg_id d) with Ok t => t | Err _ => topic_name end.

Definition whole_topic : ConsumerAssignment :=
  mkAssignment 1 [assigned seg_parent; assigned seg_low; assigned seg_high].

Definition new_stream : StreamConsumerModel :=
  match model_new topic_name 7 3 Strict split_layout (2 ^ 28) with
  | Ok s => s
  | Err _ => mkModel topic_name 7 3 0 0 0 0 0 Strict split_layout None ∅ ∅ ∅ ∅ ∅ (empty_position 1) None ∅ ∅ ∅
               (budget_new (2 ^ 28)) AgOpen None
  end.

Definition message_id (d : SegmentDescriptor) (entry : Z) : StreamMessageId :=
  match smi_new (assigned_source (assigned d)) (sample_id entry) with
  | Ok i => i
  | Err _ => mkStreamMessageId (assigned_source (assigned d)) (mkCanonical (sample_id entry) [])
  end.

(** * The executions *)

Lemma new_stream_new : new_model new_stream.
Proof.
  exists topic_name, 7, 3, Strict, split_layout, (2 ^ 28), (2 ^ 28).
  split_and!; [vm_compute; discriminate|vm_compute; reflexivity|vm_compute; reflexivity].
Qed.

Lemma new_stream_reachable ops : Forall op_ok ops -> reachable ops (stream_run ops new_stream).
Proof. intros Hops. split; [exact Hops|]. exists new_stream. split; [exact new_stream_new|reflexivity]. Qed.

Definition acts_of (r : result StreamConsumerModelError (list StreamConsumerAction)) : list StreamConsumerAction :=
  match r with Ok l => l | Err _ => [] end.

Lemma succeeded o s : is_ok (exec o s).1 = true -> exec o s = (Ok (acts_of (exec o s).1), step_of s o).
Proof. unfold step_of. destruct (exec o s) as [[l|e] s']; [reflexivity|discriminate]. Qed.

(** The children are opened: the parent flows, its halves wait for it. *)
Definition opened : list stream_op :=
  [OpAssignment 3 whole_topic; OpChildOpened 0 0; OpChildOpened 1 1; OpChildOpened 2 2].

(** A message of the parent is retained and handed to the application. *)
Definition received : list stream_op := opened ++ [OpMessagePreallocated 0 0 0 [] 100].
Definition delivered : list stream_op := received ++ [OpIssue 0 0 (message_id seg_parent 2) 1].

Definition first_token : DeliveryToken :=
  match (issue_delivery 0 0 (message_id seg_parent 2) 1 (stream_run received new_stream)).1 with
  | Ok t => t
  | Err _ => mkToken 0 0 0 0 (message_id seg_parent 2) (empty_position 0) 0 0 0
  end.

(** It is acknowledged, and the settlement confirmed. *)
Definition admitted : list stream_op := delivered ++ [OpAdmitIndividual first_token false].
Definition first_ack : AcknowledgementAuthority := mkAuthority 7 0 0.
Definition confirmed : gset SegmentSource := {[assigned_source (assigned seg_parent)]}.
Definition acknowledged : list stream_op := admitted ++ [OpSettle first_ack confirmed].

(** The parent ends, and is complete. *)
Definition ended : list stream_op := acknowledged ++ [OpObserveTerminal 0 0].

Example runs_succeed :
  all_ok (ended ++ [OpCompleteSegment 0 0; OpClose]) new_stream = true.
Proof. vm_compute. reflexivity. Qed.

Lemma executions_ok : Forall op_ok ended.
Proof. repeat (apply List.Forall_cons; [vm_compute; first [exact I|discriminate]|]). apply List.Forall_nil. Qed.

Lemma prefix_ok l k : ended = l ++ k -> Forall op_ok l.
Proof. intros E. pose proof executions_ok as H. rewrite E in H. apply Forall_app in H as [H _]. exact H. Qed.

(** * The theorems along these executions *)

(** The parent delivers a message, then a reservation is begun by hand. *)
Definition begun : list stream_op := delivered ++ [OpBeginReservation 0 0].

Lemma stream_ledger_exact_witness :
  exists c, sm_children (stream_run begun new_stream) !! 0 = Some c
    /\ Z.of_nat (size (deliveries_of c (stream_run begun new_stream))) = 1
    /\ cb_pre_terminal_reservations (ch_completion c) = 2
    /\ Z.of_nat (size (working_reservations c (stream_run begun new_stream))) = 1.
Proof.
  assert (Hok : Forall op_ok begun).
  { apply List.Forall_app. split; [|by repeat constructor]. apply (prefix_ok _ [OpAdmitIndividual first_token false;
      OpSettle first_ack confirmed; OpObserveTerminal 0 0]). reflexivity. }
  destruct (stream_ledger_exact begun new_stream new_stream_new Hok) as (_ & _ & _ & Hc).
  destruct (sm_children (stream_run begun new_stream) !! 0) as [c|] eqn:Ec; [|vm_compute in Ec; discriminate].
  exists c. destruct (Hc 0 c Ec) as (_ & Hd & Hp & _). split; [reflexivity|].
  assert (Hone : run_drift begun new_stream (child_owner c) = 1)
    by (vm_compute in Ec; injection Ec as <-; vm_compute; reflexivity).
  assert (Htwo : cb_pre_terminal_reservations (ch_completion c) = 2 /\ cb_deliveries (ch_completion c) = 1)
    by (vm_compute in Ec; injection Ec as <-; vm_compute; split; reflexivity).
  rewrite Hone in Hp. destruct Htwo as [H2 H1]. lia.
Defined.

Lemma close_releases_everything_witness :
  let calls := OpClose :: report_closed [(1, 1); (2, 2); (0, 0)] in
  let s := stream_run delivered new_stream in
  all_ok calls s = true /\ sm_phase (stream_run calls s) = AgClosed
  /\ bs_data_used (sm_budget (stream_run calls s)) = 0.
Proof.
  assert (Hok : Forall op_ok delivered) by (apply (prefix_ok _ [OpAdmitIndividual first_token false;
    OpSettle first_ack confirmed; OpObserveTerminal 0 0]); reflexivity).
  apply (proj2 (close_releases_everything delivered _ (new_stream_reachable _ Hok))).
  - left. vm_compute. reflexivity.
  - vm_compute. reflexivity.
  - vm_compute. reflexivity.
  - assert (E : map_to_list (ch_generation <$> sm_children (stream_run delivered new_stream)) = [(2, 2); (1, 1); (0, 0)])
      by (vm_compute; reflexivity).
    rewrite E. apply perm_swap.
Defined.

(** An entry of the parent is discarded: the parent then ends, but is never
    complete, and its halves wait for ever. *)
Lemma discard_blocks_completion_witness :
  let s := step_of (stream_run opened new_stream) (OpDiscard 0 0 0 FpMessage []) in
  is_ok (exec (OpCompleteSegment 0 0) (stream_run [OpObserveTerminal 0 0] s)).1 = false
  /\ exec (OpCompleteSegment 0 0) (stream_run [OpObserveTerminal 0 0] s)
     = (Err (SegmentNotComplete 0), stream_run [OpObserveTerminal 0 0] s).
Proof.
  cbv zeta. assert (Hok : Forall op_ok opened) by (repeat constructor).
  split; [|vm_compute; reflexivity].
  refine (proj1 (discard_blocks_completion opened _ 0 0 0 FpMessage [] _ _ [OpObserveTerminal 0 0]
                   (new_stream_reachable _ Hok) (succeeded _ _ _) _ _));
    [vm_compute; reflexivity|by repeat constructor|by repeat constructor].
Defined.

Lemma admitted_ok : Forall op_ok admitted.
Proof. apply (prefix_ok _ [OpSettle first_ack confirmed; OpObserveTerminal 0 0]). reflexivity. Qed.

Lemma delivery_resolved_once_witness :
  let s := stream_run [OpObserveTerminal 0 0] (step_of (stream_run admitted new_stream) (OpSettle first_ack confirmed)) in
  is_ok (validate_delivery_token first_token (stream_run delivered new_stream)) = true
  /\ sm_live_deliveries s !! tk_dequeue_sequence first_token = None
  /\ (refused (OpResolve first_token) s \/ repeats_confirmed first_token (OpResolve first_token) s).
Proof.
  cbv zeta. split; [vm_compute; reflexivity|].
  refine (delivery_resolved_once admitted _ (OpSettle first_ack confirmed) _ _ first_token [OpObserveTerminal 0 0] _
            (new_stream_reachable _ admitted_ok) (succeeded _ _ _) _ _); [vm_compute; reflexivity| |reflexivity].
  eexists _, (assigned_source (assigned seg_parent)). split; [vm_compute; reflexivity|].
  split; [vm_compute; left|]. apply elem_of_singleton. reflexivity.
Defined.

(** A cumulative acknowledgement, confirmed, is admitted again: it covers no
    delivery and asks for nothing. *)
Example confirmed_repeat_admitted :
  let s := stream_run (delivered ++ [OpAdmitCumulative first_token false; OpSettle first_ack confirmed]) new_stream in
  confirmed_repeat first_token s = true /\ is_ok (validate_delivery_token first_token s) = false
  /\ is_ok (exec (OpAdmitCumulative first_token false) s).1 = true
  /\ (fun p => (pa_components p, pa_deliveries p))
       <$> (pending_of false (step_of s (OpAdmitCumulative first_token false)) !! 1) = Some ([], []).
Proof. vm_compute. done. Qed.

Lemma acknowledgement_settled_once_witness :
  let s := step_of (stream_run admitted new_stream) (OpSettle first_ack confirmed) in
  refused (OpCancel first_ack false) (stream_run [OpObserveTerminal 0 0] s).
Proof.
  cbv zeta.
  refine (acknowledgement_settled_once admitted _ (OpSettle first_ack confirmed) _ _ false first_ack
            [OpObserveTerminal 0 0] _ (new_stream_reachable _ admitted_ok) (succeeded _ _ _) _ _);
    [vm_compute; reflexivity|split; reflexivity|split; reflexivity].
Defined.

Lemma fencing_is_final_witness :
  let s := step_of (stream_run admitted new_stream) OpRequireResync in
  refused (OpAdmitCumulative first_token false) (stream_run [OpBeginIncarnation 4] s)
  /\ refused (OpSettle first_ack confirmed) (stream_run [OpBeginIncarnation 4] s).
Proof.
  cbv zeta.
  assert (E : is_ok (exec OpRequireResync (stream_run admitted new_stream)).1 = true) by (vm_compute; reflexivity).
  assert (F : fences OpRequireResync (stream_run admitted new_stream)) by (vm_compute; discriminate).
  destruct (fencing_is_final OpRequireResync (stream_run admitted new_stream) _ _ [OpBeginIncarnation 4]
              (succeeded _ _ E) F) as [Ht Ha].
  split; [apply (Ht first_token)|apply (Ha false first_ack)].
  - vm_compute. discriminate.
  - reflexivity.
  - vm_compute. discriminate.
  - split; reflexivity.
Defined.

(** Completing the parent gives both halves a permit. *)
Lemma permits_follow_order_witness :
  let s := stream_run ended new_stream in
  GrantFlow (assigned_source (assigned seg_low)) 3 1 4 FpMessage ∈ acts_of (exec (OpCompleteSegment 0 0) s).1
  /\ forall a, ancestor (snap_segments split_layout) a 1 -> a ∈ sm_ownership_history s -> a ∈ ({[0]} : gset Z).
Proof.
  cbv zeta. assert (Hin : GrantFlow (assigned_source (assigned seg_low)) 3 1 4 FpMessage
                     ∈ acts_of (exec (OpCompleteSegment 0 0) (stream_run ended new_stream)).1) by (vm_compute; left).
  split; [exact Hin|].
  assert (E : is_ok (exec (OpCompleteSegment 0 0) (stream_run ended new_stream)).1 = true) by (vm_compute; reflexivity).
  pose proof (permits_follow_order ended _ (OpCompleteSegment 0 0) _ _ (assigned_source (assigned seg_low)) 3 1 4
                (new_stream_reachable _ executions_ok) I (succeeded _ _ E) Hin)
    as [(_ & Hdone & _) _].
  exact Hdone.
Defined.

(** With the smallest budget, only one of two independent segments can flow. *)
Definition pair_layout : DagSnapshot :=
  mkSnapshot 1 (<[1 := mkSegment 1 (mkKeyRange 0 32767) None None SActive [] [] 0 None None]>
                {[2 := mkSegment 2 (mkKeyRange 32768 65535) None None SActive [] [] 0 None None]}) [1; 2] ∅.

Definition small_stream : StreamConsumerModel :=
  mkModel topic_name 7 3 0 0 0 0 0 Strict pair_layout None ∅ ∅ ∅ ∅ ∅ (empty_position 1) None ∅ ∅ ∅
    (budget_new minimum_budget) AgOpen None.

Definition pair_opened : list stream_op :=
  [OpAssignment 3 (mkAssignment 1 [assigned seg_low; assigned seg_high]); OpChildOpened 1 0; OpChildOpened 2 1].

Lemma arbitration_complete_witness :
  let s := stream_run pair_opened small_stream in
  (arbitrate_flow s).1 = Ok []
  /\ is_ok (reserve_owned (mkOwner 2 1) FlowPermit MAX_FRAME_SIZE (sm_budget (arbitrate_flow s).2)) = false.
Proof.
  cbv zeta. assert (Hr : reachable pair_opened (stream_run pair_opened small_stream)).
  { split; [repeat constructor|]. exists small_stream. split; [|reflexivity].
    exists topic_name, 7, 3, Strict, pair_layout, minimum_budget, minimum_budget.
    split_and!; [vm_compute; discriminate|vm_compute; reflexivity|vm_compute; reflexivity]. }
  assert (E : (arbitrate_flow (stream_run pair_opened small_stream)).1 = Ok []) by (vm_compute; reflexivity).
  split; [exact E|].
  assert (E' : arbitrate_flow (stream_run pair_opened small_stream)
               = (Ok [], (arbitrate_flow (stream_run pair_opened small_stream)).2))
    by (rewrite <- E; apply surjective_pairing).
  refine (arbitration_complete pair_opened _ _ _ 2 Hr _ E' _ _ (mkOwner 2 1)).
  - vm_compute. reflexivity.
  - exists Eligible. split; vm_compute; reflexivity.
  - eexists _, FbBudget. split; vm_compute; reflexivity.
Defined.

(** [PositionVector::new] of no position, as [empty_position] has it. *)
Example pv_new_empty epoch : pv_new epoch [] = Ok (empty_position epoch).
Proof. reflexivity. Qed.

(** A chunked message that its segment's end cuts off leaves its assembly behind:
    the segment is not complete until the engine cancels that work. *)
Definition chunked : list stream_op :=
  opened ++ [OpChunkBuffered 0 0 0 None 4096; OpObserveTerminal 0 0].

Example chunk_cut_off :
  all_ok chunked new_stream = true
  /\ (exec (OpCompleteSegment 0 0) (stream_run chunked new_stream)).1 = Err (SegmentNotComplete 0)
  /\ is_ok (exec (OpCompleteSegment 0 0) (stream_run (chunked ++ [OpCancelWork 0 0 0]) new_stream)).1 = true.
Proof. vm_compute. split_and!; reflexivity. Qed.
