(* ===== verification/StreamEntriesRuns.v ===== *)
(** * Entries of a stream consumer: sample executions

    A message in two chunks and a batch of two, received by the consumer of
    [StreamRuns]. *)

From S2P Require Import Prelude Ids Frame Compress BatchAck Producer BatchBody Consumer SegmentTopic Assignment DagWatch OrdinaryId StreamPosition ReceiverBudget StreamModel StreamOps StreamReceive StreamAcks StreamLedger StreamInv StreamEmits StreamKeeps StreamSpec StreamEntries StreamEntriesSpec StreamEntriesPaid ProducerCases StreamCases StreamRuns.

#[global] Instance exact_allocation : Allocation := {|
  size_of_incoming := 512;
  size_of_single := 256;
  size_of_message_id_data := 96;
  capacity := blen;
|}.

#[global] Instance exact_allocation_laws : AllocationLaws.
Proof. split; try done. Qed.

(** Metadata whose encoding the consumer does not look at. *)
#[global] Instance metadata_proto : ProtoMessage MessageMetadata :=
  {| pb_encode := fun _ => []; pb_decode := fun _ => None |}.
#[global] Instance broker_proto : ProtoMessage BrokerEntryMetadata :=
  {| pb_encode := fun _ => []; pb_decode := fun _ => None |}.

Definition id_data (entry : Z) : MessageIdData := mkMessageIdData 1 entry None None [] None None.

Definition entry_of (entry : Z) (md : MessageMetadata) (body : bytes) (ack_set : list Z) : DeferredIncomingMessage :=
  mkDeferred (mkIncoming (mid_from_pb (id_data entry)) md None body 0 None 0) (id_data entry) ack_set 1.

(** ** A message in two chunks *)

Definition parts : list bytes := [[Byte.x61; Byte.x62; Byte.x63]; [Byte.x64; Byte.x65]].

Definition chunk_entry (i : Z) : DeferredIncomingMessage :=
  entry_of i (default_metadata <| md_uuid := Some "u"%string |> <| md_num_chunks_from_msg := Some 2 |>
                <| md_chunk_id := Some i |> <| md_total_chunk_msg_size := Some 5 |>)
    (default [] (parts !! Z.to_nat i)) [].

Definition child_flows : StreamConsumerModel := stream_run opened new_stream.

Definition first_arrival : arrival := mkArrival child_flows 0 (chunk_entry 0).
Definition first_buffered :=
  accept_entry 0 0 (ar_flow first_arrival) (ar_entry first_arrival) ∅ (ar_model first_arrival).
Definition second_arrival : arrival := mkArrival first_buffered.2 1 (chunk_entry 1).

Definition chunks_of (r : result StreamConsumerModelError (StreamEntryAcceptance * StreamReceiveState)) : StreamReceiveState :=
  match r with Ok (_, chunks) => chunks | Err _ => ∅ end.
Definition entry_in (r : result StreamConsumerModelError (StreamEntryAcceptance * StreamReceiveState)) : option StreamCompleteEntry :=
  match r with Ok (CompleteEntry e, _) => Some e | _ => None end.

Definition second_accepted := accept_arrival 0 0 second_arrival (chunks_of first_buffered.1).

Lemma is_buffered r :
  match r with Ok (Buffered _, _) => true | _ => false end = true -> exists acts, r = Ok (Buffered acts, chunks_of r).
Proof. destruct r as [[[acts|e] c]|e]; intros [=]. by exists acts. Qed.

Lemma is_complete r :
  match r with Ok (CompleteEntry _, _) => true | _ => false end = true -> exists e, r = Ok (CompleteEntry e, chunks_of r).
Proof. destruct r as [[[acts|e] c]|e]; intros [=]. by exists e. Qed.

Lemma chunk_chain_assembles_witness :
  exists e, second_accepted = Ok (CompleteEntry e, ∅)
    /\ im_payload (se_message e) = [Byte.x61; Byte.x62; Byte.x63; Byte.x64; Byte.x65].
Proof.
  destruct (is_complete second_accepted) as [e E]; [vm_compute; reflexivity|]. exists e.
  destruct (is_buffered first_buffered.1) as [acts F]; [vm_compute; reflexivity|].
  assert (Hg : gathers 0 0 [first_arrival] ∅ (chunks_of first_buffered.1))
    by (eapply gathers_cons; [exact F|apply gathers_nil]).
  assert (Hp : Forall (fun a => piece_of parts (ar_entry a)) [first_arrival; second_arrival]).
  { repeat (apply List.Forall_cons;
      [split; [reflexivity|eexists; split; [reflexivity|split; [vm_compute; discriminate|reflexivity]]]|]).
    apply List.Forall_nil. }
  destruct (chunk_chain_assembles 0 0 parts [first_arrival] second_arrival ∅ (chunks_of first_buffered.1)
              (chunks_of second_accepted) e (lookup_empty _) eq_refl Hp Hg E) as (Hpay & _ & _ & Hc).
  rewrite Hc in E. split; [exact E|]. rewrite Hpay. vm_compute. reflexivity.
Defined.

(** ** A batch of two *)

Definition member (p : bytes) : SingleMessageMetadata * bytes := (single_metadata default_metadata p, p).
Definition batch_body : bytes := pack_batch [member [Byte.x61]; member [Byte.x62]].

Definition batch_entry (ack_set : list Z) : StreamCompleteEntry :=
  whole_entry 0 (entry_of 2 (default_metadata <| md_num_messages_in_batch := Some 2 |>) batch_body ack_set).

Definition finalized (ack_set : list Z) := finalize_entry 0 0 (batch_entry ack_set) [] child_flows.

Definition transition_of (r : result StreamConsumerModelError StreamEntryTransition) : StreamEntryTransition :=
  match r with Ok t => t | Err _ => mkEntryTransition [] [] 0 end.

(** The first member is acknowledged already: only the second is queued. *)
Example second_member_only :
  is_ok (finalized [2]).1 = true
  /\ (im_payload ∘ qm_message <$> et_messages (transition_of (finalized [2]).1)) = [[Byte.x62]].
Proof. vm_compute. split; reflexivity. Qed.

(** A batch whose members are all acknowledged already is discarded, and the
    segment it came from is never complete. *)
Example acknowledged_batch_blocks :
  let s := (finalized [0]).2 in
  is_ok (finalized [0]).1 = true /\ et_messages (transition_of (finalized [0]).1) = []
  /\ all_ok [OpObserveTerminal 0 0] s = true
  /\ (exec (OpCompleteSegment 0 0) (stream_run [OpObserveTerminal 0 0] s)).1 = Err (SegmentNotComplete 0).
Proof. vm_compute. split_and!; reflexivity. Qed.

Lemma member_is_ok p : blen p <= i32_max -> encoded_len (single_metadata default_metadata p) <= u32_max ->
  member_ok (member p).
Proof. intros H1 H2. split; [by exists default_metadata|done]. Qed.

Lemma expansion_agrees_witness :
  (im_payload ∘ fst) <$> default [] (match expand_batch (se_message (batch_entry [])) (id_data 2) [] 2 with
                          | Ok l => Some l | Err _ => None end) = [[Byte.x61]; [Byte.x62]].
Proof.
  assert (Hms : Forall member_ok [member [Byte.x61]; member [Byte.x62]]).
  { repeat (apply List.Forall_cons; [apply member_is_ok; vm_compute; discriminate|]). apply List.Forall_nil. }
  assert (H0 : 0 <= 2) by (vm_compute; discriminate).
  rewrite (proj2 (expansion_agrees (se_message (batch_entry [])) (id_data 2) [] 2 H0) _ Hms);
    [vm_compute; reflexivity|reflexivity|vm_compute; discriminate|reflexivity].
Defined.

Lemma opened_ok : Forall op_ok opened.
Proof. repeat (apply List.Forall_cons; [exact I|]). apply List.Forall_nil. Qed.

Lemma transition_ok ack_set : is_ok (finalized ack_set).1 = true ->
  finalize_entry 0 0 (batch_entry ack_set) [] child_flows
  = (Ok (transition_of (finalized ack_set).1), (finalized ack_set).2).
Proof.
  unfold finalized. destruct (finalize_entry _ _ _ _ _) as [[t|e] s]; intros H; [reflexivity|discriminate H].
Qed.

(** The message of the second member is covered by a reservation of the child. *)
Lemma entries_are_paid_for_witness :
  exists q, et_messages (transition_of (finalized [2]).1) = [q]
    /\ exists n, 1024 <= n /\ retained_for (mkOwner 0 0) (bs_reservations (sm_budget (finalized [2]).2)) (qm_reservation q) n.
Proof.
  assert (Hok : is_ok (finalized [2]).1 = true) by (vm_compute; reflexivity).
  destruct (proj2 (entries_are_paid_for 0 0 opened child_flows (new_stream_reachable _ opened_ok))
              (batch_entry [2]) [] _ _ (transition_ok [2] Hok)) as (c & Hc & _ & Hpaid).
  destruct (et_messages (transition_of (finalized [2]).1)) as [|q [|q' l]] eqn:E.
  1, 3: exfalso; assert (Hl : length (et_messages (transition_of (finalized [2]).1)) = 1%nat) by (vm_compute; reflexivity);
    rewrite E in Hl; discriminate Hl.
  exists q. split; [reflexivity|]. apply List.Forall_inv in Hpaid as (n & Hn & Hr). exists n. split; [|exact Hr].
  exact (queued_bytes_overhead _ _ _ _ Hn).
Defined.

(** The batch is expanded by two calls of the model. *)
Lemma entries_are_calls_witness :
  calls child_flows (finalized [2]).2 /\ is_ok (finalized [2]).1 = true.
Proof.
  split; [|vm_compute; reflexivity].
  exact (proj1 (proj2 (entries_are_calls 0 0 0 (chunk_entry 0) ∅ (batch_entry [2]) [] child_flows))).
Defined.
